(* ===== verification/_CoqProject ===== *)
-Q . S2P
Prelude.v
Minicbor.v
PolicySchema.v
PolicyCbor.v
PolicyCose.v
PolicyPlan.v
PolicyVerify.v
PolicyState.v
PolicyStore.v
Wire.v
Network.v
Session.v
Mux.v
Packet.v
Replay.v
TlsMessages.v
Tls13.v
TlsHandshake.v
Reality.v
RealityStream.v
CoverRelay.v
EndpointPlan.v
Endpoint.v
EndpointSystem.v
EndpointRuntime.v
EndpointClient.v
EndpointPolicy.v
EndpointDns.v
EndpointFailover.v
ClientAuth.v
Handshake.v
ClientAllowlist.v
HostTypes.v
HostState.v
DnsExchange.v
DnsExchangeSafety.v
HostStore.v
HostJournal.v
HostRecovery.v
