(* ===== verification/Prelude.v ===== *)
(** * Shadowpipe verification development: overview and shared prelude

    Shadowpipe is a VPN written in Rust.  A client learns its endpoints and server pins from
    a signed policy bundle, reaches a server over a REALITY carrier, a TLS 1.3 session that
    the server takes over only for a client with a fresh token and splices to a cover site for
    everyone else, runs an inner hybrid handshake, and then exchanges IP
    packets: the mux layer splits a packet into fragments, the session layer seals every
    fragment into a padded frame, and the wire layer puts frames on a byte stream.  While
    the tunnel is up the client resolves its endpoints again through it, keeps the firewall
    and the routes of the host in line with the addresses it may dial, and fails over
    between them.  What it changes on the host it first records in a journal, from which a
    later process removes what a crash left behind; the resolver file it exchanges for its
    own and back.  This library models those parts as Rocq functions and proves what they
    promise.

    ** Files

    - [Prelude]: Rust's [Result] as a monad, bytes and fixed-width integers, big-endian
      codecs, lists, the tactics and hint database the other files share.
    - [Minicbor]: the interface of the third-party CBOR crate as a class of operations with
      a class of laws, and a concrete codec of RFC 8949 that satisfies them.
    - [PolicySchema], [PolicyCbor], [PolicyCose], [PolicyPlan], [PolicyVerify],
      [PolicyState]: [shadowpipe-core/src/signed_policy/] ([schema.rs] and [error.rs],
      [cbor.rs], [cose.rs], [plan.rs], [verify.rs], [state.rs]), each requiring the ones
      before it.
    - [PolicyStore]: [shadowpipe-core/src/policy_state.rs] (the files that keep the accepted
      policy and the tombstone of an expired one).
    - [Wire]: [shadowpipe-core/src/proto/mod.rs] (varints, hellos, frames) and
      [volume_guard.rs] (frame sizes and byte budgets).
    - [Network]: processes that read and write a stream, alone and connected by queues; the
      sides of both handshakes are such processes.
    - [Session]: the traffic part of [shadowpipe-core/src/session.rs] ([frame_aad],
      [prepare_outbound_frame], [send], [recv], [split]) and the AEAD counters of
      [crypto/mod.rs].
    - [Mux]: [shadowpipe-core/src/mux/mod.rs] (fragmentation and reassembly).
    - [Packet]: [shadowpipe-core/src/packet/mod.rs] (IPv4 and ICMP checksums).
    - [Replay]: [shadowpipe-reality/src/replay.rs] (the durable replay cache).
    - [TlsMessages]: the TLS messages of the carrier: the writer ([wire.rs]), the ClientHello
      ([lib.rs]), the messages of the server ([tls13/server.rs], [reality.rs]) and the parsers
      ([parse.rs], [tls13/client.rs]), in which an index out of range is a panic.
    - [Tls13], [TlsHandshake]: [tls13/]: key schedule, records and both handshake drivers; and
      what a driver has checked when it returns, alone and against its peer.
    - [Reality]: [auth.rs] and the acceptor of [reality.rs], over [Tls13] and [Replay].
    - [RealityStream]: [tls13/stream.rs]: the byte stream over a completed session, one
      function per [poll_] method, with the transport as a list of events.
    - [CoverRelay]: the splice to the cover site of [reality.rs], two loops with a shared idle
      bound as machines between their awaits.
    - [EndpointPlan], [Endpoint], [EndpointSystem]: [shadowpipe-core/src/endpoint.rs]: data,
      transition plans and schedules; the operations of [EndpointCoordinator]; the step
      relation of a coordinator with its pending transactions, and the theorems over it.
    - [EndpointRuntime]: [endpoint_runtime.rs]: validation, execution and rollback of a
      plan over the trait [EndpointHostAdapter], a class with its laws.
    - [EndpointClient]: the endpoint transactions of [shadowpipe-client/src/main.rs], which
      put coordinator and host together.
    - [EndpointPolicy]: [endpoint_policy.rs] and [ServerPins] of [session.rs]: the
      coordinator and the authentication registry built from a verified plan ([PolicyPlan]).
    - [EndpointDns]: [endpoint_dns.rs]: the resolver of the refresh, and the function of
      the client that turns its answer into a prepared transaction.
    - [EndpointFailover]: the choice of the next candidate, the failure epoch and the
      backoff in the session loop of [shadowpipe-client/src/main.rs].
    - [ClientAuth]: [shadowpipe-core/src/client_auth.rs]: the messages and proofs of client
      authorisation and the lookups of the server's allowlist.
    - [Handshake]: the inner handshake of [session.rs] with the key schedule of
      [crypto/mod.rs]; client and server are processes.
    - [ClientAllowlist]: the files of [client_auth.rs]: parsing, enrolment and revocation
      under a lock, with failing I/O.
    - [HostTypes], [HostState], [HostStore], [HostJournal]: [host_state.rs]: the journal
      and its resources; validation, successors, transitions and the recovery planner; the
      store, as a monad over a directory in which other processes act and any system call
      can fail; and the operations of [DurableHostJournal].
    - [DnsExchange], [DnsExchangeSafety]: [dns_exchange.rs]: the exchange of the resolver
      file for a pinned one, as a monad over a directory like the store's; and the theorems
      about it.
    - [HostRecovery]: [host_recovery.rs]: the recovery driver over the trait
      [HostRecoveryAdapter], the prepared adapter and its route, TUN and DNS groups, each
      promise a class that the next one discharges.

    ** How the code is represented

    Definitions carry the names of the source.  A struct is a record, an enum an inductive
    type, a fallible function returns [result E A], a [for] loop with early returns is
    [fold_res], and a method that mutates [self] takes and returns the state, also when it
    fails, because what was mutated before an early return stays.  Machine integers are
    integers of [Z] with the bounds in the hypotheses ([is_u]) and checked, saturating or
    wrapping arithmetic written out; [usize] has 64 bits.  Byte arrays and strings are
    lists of bytes.  Hash maps are [gmap]s.  The text of error messages is erased; the
    variants, labels and numbers of the errors are kept where the source distinguishes
    them.

    Third-party code is a parameter: CBOR ([Minicbor]), Ed25519 ([Ed25519] in
    [PolicyCose]), SHA-256 and X25519 ([PolicyCrypto] in [PolicyVerify]),
    ChaCha20-Poly1305 ([Aead] in [Session]), HMAC and SHA-256 of the replay store
    ([ReplayCrypto] in [Replay]), the primitives of authorisation and handshake
    ([AuthCrypto] in [ClientAuth], [HandshakeCrypto] in [Handshake]), the text format of the
    allowlist ([Text] in [ClientAllowlist]), the primitives of TLS ([TlsCrypto] in [Tls13]),
    JSON for journals ([JournalJson] in [HostStore]), SHA-256 of resolver files
    ([ResolverDigest] in [DnsExchange]), and what recovery asks of the operating system
    ([HostAccess] in [HostRecovery]).  What the proofs use of it is a class of laws: decoding
    what was encoded, opening what was sealed, output lengths.  No hardness assumption is
    made, and no theorem depends on one: they say what is signed, sealed and compared.
    Each file of theorems ends with samples that instantiate the parameters and evaluate
    the theorems on concrete inputs.

    ** What is shown

    - Policy payloads ([PolicyCbor]): keysets and policies round-trip, the encoders are
      total within the schema bounds, and the decoders accept one byte string per value.
    - Envelopes ([PolicyCose]): the COSE_Sign1 envelope has one accepted encoding, and the
      signed bytes determine header and payload.
    - Verification ([PolicyVerify]): [verify_bundle] is equivalent to a declarative
      specification of a bundle that is authorised by the root key through an active
      online key, valid at the given time and well formed; the plan built from it lists
      exactly the signed endpoints, and pin matching ([PolicyPlan]) is membership.
    - Updates ([PolicyState]): exactly when an update is applied; over any sequence of
      updates, no rollback and no fork, key and pin rotations with the complete overlap,
      and an authority chain that reaches the accepted state.
    - Store ([PolicyStore]): the encodings of both files are exact; over any sequence of
      operations with failing writes, what processes load never rolls back, a retired policy
      is never loaded again and an accepted one is recovered, except in one situation with
      a clock behind the floor, which is shown too.
    - Wire and session: readers accept exactly what the writers write; frame sizes are
      exact; nonces are never reused; a failed direction stays failed; sender and receiver
      form an ordered, lossless channel; splitting a session changes nothing.
    - Mux and packets: reassembly stays within its bounds on any input and returns the
      packet for any order of arrival; repaired checksums are the internet checksum and
      nothing else changes.
    - Replay: the exact condition of admission, and that no token is admitted twice while
      it is valid, over admissions, torn writes, panics and restarts.
    - Carrier ([TlsMessages], [TlsHandshake], [Reality]): no input makes a parser or a driver
      panic, and what is built is parsed back; the acceptor takes over exactly the connections
      with a genuine, fresh token and is silent towards all others; a record that was accepted
      is never accepted again; a client whose token is admitted and the acceptor complete,
      under every interleaving, with the same keys; and a side that completes has checked the transcript,
      the client also the proof of the static key.
    - Stream and splice ([RealityStream], [CoverRelay]): both are lossless and ordered however
      the transport cuts and delays; the first records have the planned lengths; the splice
      ends for idleness exactly after both directions were idle.
    - Endpoint refresh ([EndpointSystem], [EndpointRuntime], [EndpointClient]): over any
      interleaving of queries, answers, leases and retirements the snapshot is never empty
      and never leaves the signed authority; transactions are serial; a plan executed on
      the host is all or nothing, opens the firewall before a route and closes it after;
      after every transaction of the client the host has exactly the access of the
      coordinator's candidates or the error names the host operation that failed; the
      cleanup loop terminates and the refresh schedule keeps its bounds.
    - Failover ([EndpointFailover]): failed sessions dial every candidate of the snapshot
      once, in rotation, before the complete authority is restored, which happens once per
      snapshot.
    - Dial targets ([EndpointPolicy]): whatever the resolver said, a dial target carries
      the address, key material and pins of one signed endpoint, every signed endpoint can
      be dialled, and the hashed identifiers have injective preimages.
    - Resolver ([EndpointDns]): it answers on every input within its loop bounds, what it
      reports as a positive answer is in the records of a matching response along a bounded
      CNAME chain, a well-formed answer to its own query is understood, and a refresh
      cannot leave the signed authority whatever arrives from the network.
    - Handshake ([Handshake]): an enrolled client and a server whose key it pins complete
      it, for every framing but DNS chunks; a completed one was authenticated both ways and
      bound to one transcript; and what either side has written when the access gate is not
      passed is determined to the byte.
    - Allowlist ([ClientAuth], [ClientAllowlist]): the constant-time scan and the binary
      search are the plain lookup; over any history of enrolments and revocations, with
      every failure of the I/O, the next load gives what the contract says, and a revoked
      client is refused.
    - Host journal ([HostState], [HostStore], [HostJournal]): the validator decides
      well-formedness; accepted generations form a ledger in which a resource is planned
      before it is applied and never silently dropped; the store never unlinks a file that
      is not its own, whatever others do meanwhile; and, with one writer, the journal on disk is
      ahead of the host through every call, failing writes, crashes and restarts.
    - Recovery ([HostRecovery]): over any sequence of sessions, one at a time, every resource
      on the host is live in the journal on disk; recovery keeps that, whatever fails, and reports
      success only when host and journal are clean; and without failures it succeeds,
      because the order of the plan keeps every intermediate journal valid.
    - Resolver file ([DnsExchangeSafety]): through failing calls and crashes at any point,
      the directory is in one of three arrangements and the original is never lost; a
      staged resolver is enacted, and recovery restores the names, when nothing fails;
      recovery changes nothing in any other state, and unlinks only the pinned inode even
      when others act on the resolver between its system calls.

    ** Bounds

    Loops without a structural argument have a fuel that is shown or chosen to cover every
    input: ten rounds for a 64-bit varint, the byte count for chunking, the number of
    pending packets for eviction, the carries of a 32-bit sum for checksums, two rounds for
    the cleanup loop (the second finds nothing to retire), the length of the packet for the
    labels of a DNS name, which are visited once each, the configured depth for CNAME
    chains, the length of the list for the binary search, the 32 attempts that the code itself
    makes to find an unused temporary name, the bytes of a message for the extensions, key
    shares and messages in it, each of which takes some, and one round more than the size of the code's
    buffer for reading a resolver file (more fuel changes nothing, [read_loop_fuel]).
    The TLS drivers take the number of records they read at most as an argument [rounds]: on
    an input with fewer bytes than that they never run out ([take_over_orderly]), and a
    peer's flight needs fewer than 20000 ([reality_run]).

    ** What is not modelled

    The probe of the cover site, the blocking splice on two threads, the operating-system
    commands for routes,
    firewall and TUN, the durability of directory entries across power loss, the walk
    to the state directory and the lease file of the journal, the variants for systems other
    than Linux, measurement and carrier selection, split routing, and the command-line
    programs apart from the client's endpoint transactions and failover.  Stream I/O is
    represented by the bytes written and read, sockets by what they deliver before a
    timeout; files by their content; locks by the outcome of taking them; clocks by their
    readings. *)

From Stdlib Require Export ZArith Lia.
From coqutil Require Export Byte Word.LittleEndianList.
From stdpp Require Export prelude gmap strings list_numbers sorting.

#[global] Open Scope Z_scope.

(** ** Results

    [result E A] is Rust's [Result<A, E>]; the [?] operator is the monadic bind
    of stdpp's do-notation. *)

Inductive result (E A : Type) : Type :=
| Ok (a : A)
| Err (e : E).
Arguments Ok {E A} _.
Arguments Err {E A} _.

#[export] Instance result_ret E : MRet (result E) := λ A a, Ok a.
#[export] Instance result_bind E : MBind (result E) :=
  λ A B f m, match m with Ok a => f a | Err e => Err e end.
#[export] Instance result_fmap E : FMap (result E) :=
  λ A B f m, match m with Ok a => Ok (f a) | Err e => Err e end.

#[export] Instance result_eq_dec E A `{EqDecision E, EqDecision A} :
  EqDecision (result E A).
Proof. solve_decision. Defined.

Definition is_ok {E A} (m : result E A) : bool :=
  match m with Ok _ => true | Err _ => false end.

(** [o.ok_or(e)] *)
Definition ok_or {E A} (o : option A) (e : E) : result E A :=
  match o with Some a => Ok a | None => Err e end.

(** A [for] loop with early [return Err(_)] that threads local variables. *)
Fixpoint fold_res {E S A} (f : S → A → result E S) (s : S) (l : list A)
  : result E S :=
  match l with
  | [] => Ok s
  | a :: l => s' ← f s a; fold_res f s' l
  end.

Lemma bind_Ok {E A B} (m : result E A) (f : A → result E B) b :
  m ≫= f = Ok b ↔ ∃ a, m = Ok a ∧ f a = Ok b.
Proof. destruct m as [a|e]; simpl; naive_solver. Qed.

Lemma bind_Err {E A B} (m : result E A) (f : A → result E B) e :
  m ≫= f = Err e ↔ m = Err e ∨ ∃ a, m = Ok a ∧ f a = Err e.
Proof. destruct m as [a|e']; simpl; naive_solver. Qed.

Lemma ok_or_Ok {E A} (o : option A) (e : E) a : ok_or o e = Ok a ↔ o = Some a.
Proof. destruct o; simpl; naive_solver. Qed.

Lemma ok_or_Err {E A} (o : option A) (e e' : E) : ok_or o e = Err e' ↔ o = None ∧ e' = e.
Proof. destruct o; simpl; naive_solver. Qed.

Lemma if_err_Err {E A} (b : bool) (e e' : E) (m : result E A) :
  (if b then Err e else m) = Err e' ↔ (b = true ∧ e' = e) ∨ (b = false ∧ m = Err e').
Proof. destruct b; naive_solver. Qed.

Lemma if_err_Ok {E A} (b : bool) (e : E) (m : result E A) a :
  (if b then Err e else m) = Ok a ↔ b = false ∧ m = Ok a.
Proof. destruct b; naive_solver. Qed.

Lemma fold_res_app {E S A} (f : S → A → result E S) s l1 l2 :
  fold_res f s (l1 ++ l2) = s' ← fold_res f s l1; fold_res f s' l2.
Proof.
  revert s; induction l1 as [|a l1 IH]; intros s; simpl; [done|].
  destruct (f s a); simpl; auto.
Qed.

(** Loop invariant rule: an invariant indexed by the prefix already visited. *)
Lemma fold_res_ind {E S A} (f : S → A → result E S) (P : list A → S → Prop) l :
  ∀ s s',
  P [] s →
  (∀ pre x t t', pre ++ [x] `prefix_of` l → P pre t → f t x = Ok t' → P (pre ++ [x]) t') →
  fold_res f s l = Ok s' → P l s'.
Proof.
  intros s s' H0 Hstep.
  enough (∀ todo pre t, pre ++ todo = l → P pre t →
            fold_res f t todo = Ok s' → P l s') as Hgen by (intros ?; by eapply (Hgen l [])).
  induction todo as [|x todo IH]; intros pre t Hl HP Hf; simpl in Hf.
  - rewrite app_nil_r in Hl. simplify_eq. done.
  - apply bind_Ok in Hf as (t' & Hx & Hf).
    apply (IH (pre ++ [x]) t'); [by rewrite <- app_assoc | | done].
    eapply Hstep; [|done..]. exists todo. by rewrite <- app_assoc.
Qed.

(** [simplify_ok] decomposes hypotheses that say a computation returned [Ok]. *)
Ltac simplify_ok :=
  repeat match goal with
  | H : Ok _ = Ok _ |- _ => injection H as H; try subst
  | H : Err _ = Ok _ |- _ => discriminate H
  | H : Ok _ = Err _ |- _ => discriminate H
  | H : mbind _ _ = Ok _ |- _ => apply bind_Ok in H as (? & ? & H); simpl in H
  | H : ok_or _ _ = Ok _ |- _ => apply ok_or_Ok in H
  | H : (if _ then Err _ else _) = Ok _ |- _ => apply if_err_Ok in H as [? H]
  | H : mret _ = Ok _ |- _ => unfold mret, result_ret in H
  end.

(** ** Machine integers

    A [w]-bit unsigned integer is a [Z] in [[0, 2^w)]; [i64] is a [Z] in
    [[-2^63, 2^63)].  [usize] is 64 bits wide. *)

Definition is_u (w z : Z) : Prop := 0 ≤ z < 2 ^ w.
Definition is_i64 (z : Z) : Prop := - 2 ^ 63 ≤ z < 2 ^ 63.

#[export] Instance is_u_dec w z : Decision (is_u w z).
Proof. unfold is_u. apply _. Defined.
#[export] Instance is_i64_dec z : Decision (is_i64 z).
Proof. unfold is_i64. apply _. Defined.

Definition u64_checked_add (a b : Z) : option Z :=
  if a + b <? 2 ^ 64 then Some (a + b) else None.

Definition in_i64b (z : Z) : bool := (- 2 ^ 63 <=? z) && (z <? 2 ^ 63).

Definition i64_checked_add (a b : Z) : option Z :=
  if in_i64b (a + b) then Some (a + b) else None.
Definition i64_checked_sub (a b : Z) : option Z :=
  if in_i64b (a - b) then Some (a - b) else None.
Definition i64_saturating_add (a b : Z) : Z :=
  Z.max (- 2 ^ 63) (Z.min (2 ^ 63 - 1) (a + b)).

Lemma i64_checked_add_Some a b c :
  i64_checked_add a b = Some c ↔ c = a + b ∧ is_i64 (a + b).
Proof.
  unfold i64_checked_add, in_i64b, is_i64.
  destruct (Z.leb_spec (- 2 ^ 63) (a + b)), (Z.ltb_spec (a + b) (2 ^ 63)); simpl;
    naive_solver lia.
Qed.

Lemma i64_checked_sub_Some a b c :
  i64_checked_sub a b = Some c ↔ c = a - b ∧ is_i64 (a - b).
Proof. apply (i64_checked_add_Some a (- b) c). Qed.

Lemma u64_checked_add_Some a b c :
  u64_checked_add a b = Some c ↔ c = a + b ∧ a + b < 2 ^ 64.
Proof.
  unfold u64_checked_add. destruct (Z.ltb_spec (a + b) (2 ^ 64));
    naive_solver lia.
Qed.

(** ** Bytes *)

Abbreviation byte := Init.Byte.byte.
Abbreviation bytes := (list byte).

#[export] Instance byte_eq_dec : EqDecision byte := Byte.byte_eq_dec.
#[export] Program Instance byte_countable : Countable byte :=
  inj_countable Byte.to_N Byte.of_N _.
Next Obligation. intros b. apply Byte.of_to_N. Qed.

Abbreviation bv := byte.unsigned.
Abbreviation bz := byte.of_Z.

Definition len {A} (l : list A) : Z := Z.of_nat (length l).

Lemma len_nil {A} : len (@nil A) = 0.
Proof. done. Qed.
Lemma len_cons {A} (x : A) l : len (x :: l) = 1 + len l.
Proof. unfold len; simpl; lia. Qed.
Lemma len_app {A} (l1 l2 : list A) : len (l1 ++ l2) = len l1 + len l2.
Proof. unfold len. rewrite length_app. lia. Qed.
Lemma len_nonneg {A} (l : list A) : 0 ≤ len l.
Proof. unfold len. lia. Qed.
Lemma len_zero {A} (l : list A) : len l = 0 ↔ l = [].
Proof. destruct l; unfold len; simpl; split; intros; simplify_eq; lia || done. Qed.

Create HintDb shadowpipe.
Create Rewrite HintDb shadowpipe.
#[export] Hint Rewrite @len_nil @len_cons @len_app : shadowpipe.
#[export] Hint Resolve len_nonneg : shadowpipe.

Lemma bv_range b : 0 ≤ bv b < 256.
Proof. apply byte.unsigned_range. Qed.

Lemma bv_bz z : bv (bz z) = z mod 256.
Proof. apply byte.unsigned_of_Z. Qed.

Lemma bv_bz_small z : 0 ≤ z < 256 → bv (bz z) = z.
Proof. intros. rewrite bv_bz. by apply Z.mod_small. Qed.

Lemma bz_bv b : bz (bv b) = b.
Proof. apply byte.of_Z_unsigned. Qed.

(** Big-endian byte strings: [to_be_bytes] / [from_be_bytes]. *)
Definition be_bytes (n : nat) (z : Z) : bytes := rev (le_split n z).
Definition be_value (l : bytes) : Z := le_combine (rev l).

#[global] Arguments be_bytes : simpl never.
#[global] Arguments be_value : simpl never.

Lemma length_be_bytes n z : length (be_bytes n z) = n.
Proof. unfold be_bytes. rewrite length_rev. apply length_le_split. Qed.

Lemma len_be_bytes n z : len (be_bytes n z) = Z.of_nat n.
Proof. unfold len. by rewrite length_be_bytes. Qed.

Lemma be_value_be_bytes n z : be_value (be_bytes n z) = z mod 2 ^ (Z.of_nat n * 8).
Proof. unfold be_value, be_bytes. rewrite rev_involutive. apply le_combine_split. Qed.

Lemma be_value_be_bytes_small n z :
  0 ≤ z < 2 ^ (Z.of_nat n * 8) → be_value (be_bytes n z) = z.
Proof. intros. rewrite be_value_be_bytes. by apply Z.mod_small. Qed.

Lemma be_bytes_inj n x y :
  0 ≤ x < 2 ^ (Z.of_nat n * 8) → 0 ≤ y < 2 ^ (Z.of_nat n * 8) →
  be_bytes n x = be_bytes n y → x = y.
Proof.
  intros Hx Hy H%(f_equal be_value). by rewrite !be_value_be_bytes_small in H.
Qed.

Lemma be_bytes_be_value l : be_bytes (length l) (be_value l) = l.
Proof.
  unfold be_value, be_bytes. rewrite <- (length_rev l), split_le_combine.
  apply rev_involutive.
Qed.

Lemma be_value_bound l : 0 ≤ be_value l < 2 ^ (8 * len l).
Proof.
  unfold be_value, len. rewrite <- (length_rev l). apply le_combine_bound.
Qed.

(** [read_exact]: the first [n] bytes and what follows them. *)
Definition split_exact {A} (n : Z) (s : list A) : option (list A * list A) :=
  if (0 <=? n) && (n <=? len s) then Some (take (Z.to_nat n) s, drop (Z.to_nat n) s)
  else None.

Lemma split_exact_app {A} (n : Z) (a r : list A) :
  n = len a → split_exact n (a ++ r) = Some (a, r).
Proof.
  intros ->. unfold split_exact. rewrite len_app.
  pose proof (len_nonneg a). pose proof (len_nonneg r).
  rewrite (proj2 (Z.leb_le 0 (len a))), (proj2 (Z.leb_le (len a) _)) by lia. simpl.
  unfold len. rewrite Nat2Z.id, take_app_length, drop_app_length. done.
Qed.

Lemma split_exact_Some {A} (n : Z) (s a r : list A) :
  split_exact n s = Some (a, r) ↔ s = a ++ r ∧ n = len a.
Proof.
  split.
  - unfold split_exact. destruct (Z.leb_spec 0 n), (Z.leb_spec n (len s)); simpl; try done.
    intros [= <- <-]. rewrite take_drop. split; [done|].
    unfold len in *. rewrite length_take. lia.
  - intros [-> ->]. by apply split_exact_app.
Qed.

Lemma Forall_impl2 {A} (P Q R : A → Prop) l :
  Forall P l → Forall Q l → (∀ x, P x → Q x → R x) → Forall R l.
Proof. rewrite !Forall_forall. naive_solver. Qed.

(** ** The derived [Ord] of byte arrays: lexicographic *)

Fixpoint bytes_cmp (a b : bytes) : comparison :=
  match a, b with
  | [], [] => Eq
  | [], _ :: _ => Lt
  | _ :: _, [] => Gt
  | x :: a, y :: b => match bv x ?= bv y with Eq => bytes_cmp a b | c => c end
  end.

Definition bytes_lt (a b : bytes) : Prop := bytes_cmp a b = Lt.

(** [a <= b] *)
Definition bytes_leb (a b : bytes) : bool :=
  match bytes_cmp a b with Gt => false | _ => true end.

Lemma bytes_cmp_eq a b : bytes_cmp a b = Eq ↔ a = b.
Proof.
  revert b; induction a as [|x a IH]; intros [|y b]; simpl; try naive_solver.
  destruct (Z.compare_spec (bv x) (bv y)) as [He|Hl|Hl].
  - apply byte.unsigned_inj in He as ->. rewrite IH. naive_solver.
  - split; [done|]. intros [= -> ->]. lia.
  - split; [done|]. intros [= -> ->]. lia.
Qed.

Lemma bytes_cmp_antisym a b : bytes_cmp b a = CompOpp (bytes_cmp a b).
Proof.
  revert b; induction a as [|x a IH]; intros [|y b]; simpl; try done.
  rewrite Z.compare_antisym. destruct (bv x ?= bv y); simpl; auto.
Qed.

Lemma bytes_lt_trans a b c : bytes_lt a b → bytes_lt b c → bytes_lt a c.
Proof.
  unfold bytes_lt. revert b c; induction a as [|x a IH]; intros [|y b] [|z c]; simpl; try done.
  destruct (Z.compare_spec (bv x) (bv y)), (Z.compare_spec (bv y) (bv z)),
    (Z.compare_spec (bv x) (bv z)); try done; try lia; eauto.
Qed.

#[export] Instance bytes_lt_strict : StrictOrder bytes_lt.
Proof.
  split.
  - intros a Ha. unfold bytes_lt in Ha. by rewrite (proj2 (bytes_cmp_eq a a) eq_refl) in Ha.
  - intros a b c. apply bytes_lt_trans.
Qed.

#[export] Instance bytes_lt_dec a b : Decision (bytes_lt a b).
Proof. unfold bytes_lt. solve_decision. Defined.

(** The guard [b <= a] of the "strictly sorted" checks. *)
Lemma bytes_leb_false a b : bytes_leb b a = false ↔ bytes_lt a b.
Proof.
  unfold bytes_leb, bytes_lt. rewrite (bytes_cmp_antisym b a). destruct (bytes_cmp b a); naive_solver.
Qed.

Lemma Sorted_bytes_NoDup l : Sorted bytes_lt l → NoDup l.
Proof.
  intros Hs. apply Sorted_StronglySorted in Hs; [|intros a b c; apply bytes_lt_trans].
  induction Hs as [|a l Hs IH Hf]; constructor; [|done].
  rewrite Forall_forall in Hf. intros Ha. specialize (Hf _ Ha). by apply (irreflexivity bytes_lt a).
Qed.

(** A scan that keeps the previous element and rejects [x <= previous]. *)
Definition sorted_after (prev : option bytes) (l : list bytes) : Prop :=
  Sorted bytes_lt (match prev with Some p => p :: l | None => l end).

Lemma sorted_after_cons prev x l :
  sorted_after prev (x :: l) ↔
  (match prev with Some p => bytes_leb x p = false | None => True end)
  ∧ sorted_after (Some x) l.
Proof.
  unfold sorted_after. destruct prev as [p|]; [|naive_solver].
  rewrite bytes_leb_false. split.
  - intros Hs. apply Sorted_inv in Hs as [Hs Hh]. apply HdRel_inv in Hh. done.
  - intros [Hp Hs]. constructor; [done|by constructor].
Qed.

(** ** Elements of a list that grows at its end *)

Lemma ex_snoc {A} (P : A → Prop) l x :
  (∃ a, a ∈ l ++ [x] ∧ P a) ↔ (∃ a, a ∈ l ∧ P a) ∨ P x.
Proof. setoid_rewrite elem_of_app. setoid_rewrite list_elem_of_singleton. naive_solver. Qed.

(** ** Scans that reject an element already seen *)

Section Fresh.
Context `{Countable A}.
Implicit Types (acc : gset A) (l : list A).

Definition fresh_after (acc : gset A) (l : list A) : Prop :=
  NoDup l ∧ ∀ x, x ∈ l → x ∉ acc.

Lemma fresh_after_nil acc : fresh_after acc [].
Proof. split; [constructor|]. intros x Hx. by apply not_elem_of_nil in Hx. Qed.

Lemma fresh_after_cons acc x l :
  fresh_after acc (x :: l) ↔ (x ∉ acc) ∧ fresh_after ({[x]} ∪ acc) l.
Proof.
  unfold fresh_after. rewrite NoDup_cons. split.
  - intros [[Hx Hl] Hf]. split; [apply Hf; set_solver|]. split; [done|].
    intros y Hy. specialize (Hf y). set_solver.
  - intros [Hx [Hl Hf]]. split; [split; [|done]|].
    + intros Hin. specialize (Hf x Hin). set_solver.
    + intros y Hy. rewrite elem_of_cons in Hy. destruct Hy as [->|Hy]; [done|].
      specialize (Hf y Hy). set_solver.
Qed.

Lemma fresh_after_app acc l1 l2 :
  fresh_after acc (l1 ++ l2) ↔ fresh_after acc l1 ∧ fresh_after (list_to_set l1 ∪ acc) l2.
Proof.
  revert acc; induction l1 as [|x l1 IH]; intros acc; simpl.
  - rewrite (left_id_L ∅ (∪)). pose proof (fresh_after_nil acc). naive_solver.
  - rewrite !fresh_after_cons, IH.
    replace (list_to_set l1 ∪ ({[x]} ∪ acc)) with ({[x]} ∪ list_to_set l1 ∪ acc : gset A)
      by set_solver. tauto.
Qed.

Lemma fresh_after_empty l : fresh_after ∅ l ↔ NoDup l.
Proof. unfold fresh_after. set_solver. Qed.
End Fresh.
