(* ===== verification/Minicbor.v ===== *)
(** * The CBOR codec interface

    The signed-policy code serialises through the third-party crate [minicbor]
    (2.2.2), whose source is not part of the repository.  [Minicbor] is the
    record of the encoder and decoder calls the repository makes, and
    [MinicborLaws] states what the crate documents about them: decoding what the
    encoder wrote gives the value back and leaves exactly the following bytes,
    decoded integers fit their Rust type, decoded text is UTF-8, and an item head
    is at most nine bytes.  A [Decoder<'_>] is modelled by the bytes it has not
    consumed yet, so [decoder.position() == input.len()] is "nothing left".
    The encoder writes to a [Vec<u8>], which cannot fail: an encoder call is the
    byte string it appends.

    [Rfc8949] is a concrete codec satisfying the laws (it accepts non-minimal
    heads, as the crate's decoder does), used to evaluate the model and to show
    that the laws can hold. *)

From S2P Require Import Prelude.

(** ** UTF-8 validity, as [core::str::from_utf8] decides it *)

Definition cont_byte (lo hi : Z) (b : byte) : bool := (lo <=? bv b) && (bv b <=? hi).

Fixpoint utf8_valid (s : bytes) : bool :=
  match s with
  | [] => true
  | b0 :: t0 =>
      let x := bv b0 in
      if x <? 128 then utf8_valid t0
      else match t0 with
      | [] => false
      | b1 :: t1 =>
          if (194 <=? x) && (x <=? 223) then cont_byte 128 191 b1 && utf8_valid t1
          else match t1 with
          | [] => false
          | b2 :: t2 =>
              if (224 <=? x) && (x <=? 239) then
                (if x =? 224 then cont_byte 160 191 b1
                 else if x =? 237 then cont_byte 128 159 b1
                 else cont_byte 128 191 b1)
                && cont_byte 128 191 b2 && utf8_valid t2
              else match t2 with
              | [] => false
              | b3 :: t3 =>
                  if (240 <=? x) && (x <=? 244) then
                    (if x =? 240 then cont_byte 144 191 b1
                     else if x =? 244 then cont_byte 128 143 b1
                     else cont_byte 128 191 b1)
                    && cont_byte 128 191 b2 && cont_byte 128 191 b3 && utf8_valid t3
                  else false
              end
          end
      end
  end.

Lemma utf8_valid_ascii s : Forall (λ b, bv b < 128) s → utf8_valid s = true.
Proof.
  induction 1 as [|b s Hb _ IH]; simpl; [done|].
  by rewrite (proj2 (Z.ltb_lt _ _) Hb).
Qed.

(** ** The interface *)

(** The distinctions [decoder.datatype()] is used for. *)
Inductive cbor_type := TNull | TBytes | TOther.

Class Minicbor := {
  enc_u8 : Z → bytes;
  enc_u16 : Z → bytes;
  enc_u64 : Z → bytes;
  enc_i8 : Z → bytes;
  enc_i64 : Z → bytes;
  enc_bytes : bytes → bytes;
  enc_str : bytes → bytes;
  enc_array : Z → bytes;
  enc_map : Z → bytes;
  enc_null : bytes;
  dec_u16 : bytes → option (Z * bytes);
  dec_u64 : bytes → option (Z * bytes);
  dec_i64 : bytes → option (Z * bytes);
  dec_bytes : bytes → option (bytes * bytes);
  dec_str : bytes → option (bytes * bytes);
  dec_array : bytes → option (option Z * bytes);
  dec_map : bytes → option (option Z * bytes);
  dec_null : bytes → option (unit * bytes);
  dec_datatype : bytes → option cbor_type;
}.

Class MinicborLaws (M : Minicbor) : Prop := {
  dec_u64_enc_u8 n r : is_u 8 n → dec_u64 (enc_u8 n ++ r) = Some (n, r);
  dec_u64_enc_u16 n r : is_u 16 n → dec_u64 (enc_u16 n ++ r) = Some (n, r);
  dec_u64_enc_u64 n r : is_u 64 n → dec_u64 (enc_u64 n ++ r) = Some (n, r);
  dec_u16_enc_u16 n r : is_u 16 n → dec_u16 (enc_u16 n ++ r) = Some (n, r);
  dec_i64_enc_i8 n r : -128 ≤ n < 128 → dec_i64 (enc_i8 n ++ r) = Some (n, r);
  dec_i64_enc_i64 n r : is_i64 n → dec_i64 (enc_i64 n ++ r) = Some (n, r);
  dec_bytes_enc_bytes b r : is_u 64 (len b) → dec_bytes (enc_bytes b ++ r) = Some (b, r);
  dec_str_enc_str s r :
    utf8_valid s = true → is_u 64 (len s) → dec_str (enc_str s ++ r) = Some (s, r);
  dec_array_enc_array n r : is_u 64 n → dec_array (enc_array n ++ r) = Some (Some n, r);
  dec_map_enc_map n r : is_u 64 n → dec_map (enc_map n ++ r) = Some (Some n, r);
  dec_null_enc_null r : dec_null (enc_null ++ r) = Some ((), r);
  dec_datatype_null r : dec_datatype (enc_null ++ r) = Some TNull;
  dec_datatype_bytes b r :
    is_u 64 (len b) → dec_datatype (enc_bytes b ++ r) = Some TBytes;
  dec_u16_range s n r : dec_u16 s = Some (n, r) → is_u 16 n;
  dec_u64_range s n r : dec_u64 s = Some (n, r) → is_u 64 n;
  dec_i64_range s n r : dec_i64 s = Some (n, r) → is_i64 n;
  dec_str_utf8 s t r : dec_str s = Some (t, r) → utf8_valid t = true;
  enc_u8_size n : is_u 8 n → len (enc_u8 n) ≤ 2;
  enc_u16_size n : is_u 16 n → len (enc_u16 n) ≤ 3;
  enc_u64_size n : is_u 64 n → len (enc_u64 n) ≤ 9;
  enc_i8_size n : -128 ≤ n < 128 → len (enc_i8 n) ≤ 2;
  enc_i64_size n : is_i64 n → len (enc_i64 n) ≤ 9;
  enc_bytes_size b : is_u 64 (len b) → len (enc_bytes b) ≤ 9 + len b;
  enc_str_size s : is_u 64 (len s) → len (enc_str s) ≤ 9 + len s;
  enc_array_size n : is_u 64 n → len (enc_array n) ≤ 9;
  enc_map_size n : is_u 64 n → len (enc_map n) ≤ 9;
  enc_null_size : len enc_null ≤ 1;
}.

(** ** A concrete codec: the RFC 8949 item format *)

Module Rfc8949.

(** An item head: major type [m], argument [n], shortest form. *)
Definition head (m n : Z) : bytes :=
  if n <? 24 then [bz (32 * m + n)]
  else if n <? 2 ^ 8 then bz (32 * m + 24) :: be_bytes 1 n
  else if n <? 2 ^ 16 then bz (32 * m + 25) :: be_bytes 2 n
  else if n <? 2 ^ 32 then bz (32 * m + 26) :: be_bytes 4 n
  else bz (32 * m + 27) :: be_bytes 8 n.

Definition head_arg (k : nat) (s : bytes) : option (option Z * bytes) :=
  '(a, r) ← split_exact (Z.of_nat k) s; Some (Some (be_value a), r).

(** Major type, argument ([None]: indefinite length) and the rest. *)
Definition parse_head (s : bytes) : option (Z * (option Z * bytes)) :=
  match s with
  | [] => None
  | b :: t =>
      let m := bv b / 32 in
      let i := bv b mod 32 in
      pair m <$> (if i <? 24 then Some (Some i, t)
                  else if i =? 24 then head_arg 1 t
                  else if i =? 25 then head_arg 2 t
                  else if i =? 26 then head_arg 4 t
                  else if i =? 27 then head_arg 8 t
                  else if i =? 31 then Some (None, t)
                  else None)
  end.

Definition enc_int (z : Z) : bytes := if 0 <=? z then head 0 z else head 1 (- 1 - z).

Definition dec_uint (bound : Z) (s : bytes) : option (Z * bytes) :=
  match parse_head s with
  | Some (0, (Some n, r)) => if n <? bound then Some (n, r) else None
  | _ => None
  end.

Definition dec_int64 (s : bytes) : option (Z * bytes) :=
  match parse_head s with
  | Some (0, (Some n, r)) => if n <? 2 ^ 63 then Some (n, r) else None
  | Some (1, (Some n, r)) => if n <? 2 ^ 63 then Some (- 1 - n, r) else None
  | _ => None
  end.

Definition dec_blob (m : Z) (s : bytes) : option (bytes * bytes) :=
  match parse_head s with
  | Some (m', (Some n, r)) => if m' =? m then split_exact n r else None
  | _ => None
  end.

Definition dec_text (s : bytes) : option (bytes * bytes) :=
  '(t, r) ← dec_blob 3 s; if utf8_valid t then Some (t, r) else None.

Definition dec_count (m : Z) (s : bytes) : option (option Z * bytes) :=
  '(m', p) ← parse_head s; if m' =? m then Some p else None.

Definition dec_nil (s : bytes) : option (unit * bytes) :=
  match s with b :: r => if bv b =? 246 then Some ((), r) else None | [] => None end.

Definition peek (s : bytes) : option cbor_type :=
  match s with
  | [] => None
  | b :: _ =>
      if bv b =? 246 then Some TNull
      else if (64 <=? bv b) && (bv b <=? 91) then Some TBytes
      else Some TOther
  end.

#[export] Instance codec : Minicbor := {|
  enc_u8 := head 0; enc_u16 := head 0; enc_u64 := head 0;
  enc_i8 := enc_int; enc_i64 := enc_int;
  enc_bytes := λ b, head 2 (len b) ++ b;
  enc_str := λ s, head 3 (len s) ++ s;
  enc_array := head 4; enc_map := head 5; enc_null := [bz 246];
  dec_u16 := dec_uint (2 ^ 16); dec_u64 := dec_uint (2 ^ 64); dec_i64 := dec_int64;
  dec_bytes := dec_blob 2; dec_str := dec_text;
  dec_array := dec_count 4; dec_map := dec_count 5;
  dec_null := dec_nil; dec_datatype := peek;
|}.

Lemma head_arg_be k n r :
  0 ≤ n < 2 ^ (Z.of_nat k * 8) → head_arg k (be_bytes k n ++ r) = Some (Some n, r).
Proof.
  intros Hn. unfold head_arg. rewrite split_exact_app.
  - simpl. by rewrite be_value_be_bytes_small.
  - unfold len. by rewrite length_be_bytes.
Qed.

Lemma first_byte m i : 0 ≤ m < 8 → 0 ≤ i < 32 →
  bv (bz (32 * m + i)) / 32 = m ∧ bv (bz (32 * m + i)) mod 32 = i.
Proof.
  intros. rewrite bv_bz_small by lia. split.
  - symmetry. apply (Z.div_unique _ _ _ i); lia.
  - symmetry. apply (Z.mod_unique _ _ m); lia.
Qed.

Lemma parse_head_long m i k n r : 0 ≤ m < 8 → 24 ≤ i ≤ 27 →
  k = match i with 24 => 1%nat | 25 => 2%nat | 26 => 4%nat | _ => 8%nat end →
  0 ≤ n < 2 ^ (Z.of_nat k * 8) →
  parse_head ((bz (32 * m + i) :: be_bytes k n) ++ r) = Some (m, (Some n, r)).
Proof.
  intros Hm Hi Hk Hn. simpl. destruct (first_byte m i) as [-> ->]; [lia..|].
  assert (i = 24 ∨ i = 25 ∨ i = 26 ∨ i = 27) as Hcases by lia.
  destruct Hcases as [->|[->|[->| ->]]]; subst k; cbn [Z.ltb Z.eqb Z.compare Pos.compare
    Pos.compare_cont Pos.eqb]; by rewrite head_arg_be.
Qed.

Lemma parse_head_head m n r :
  0 ≤ m < 8 → is_u 64 n → parse_head (head m n ++ r) = Some (m, (Some n, r)).
Proof.
  intros Hm [Hn0 Hn]. unfold head.
  destruct (Z.ltb_spec n 24).
  { simpl. destruct (first_byte m n) as [-> ->]; [lia..|].
    by rewrite (proj2 (Z.ltb_lt n 24)). }
  repeat case_match; apply parse_head_long; try done; lia.
Qed.

Lemma head_size m n : is_u 64 n → len (head m n) ≤ 9.
Proof.
  intros _. unfold head. repeat case_match; rewrite ?len_cons; unfold len;
    rewrite ?length_be_bytes; simpl; lia.
Qed.

Lemma head_size_small m n :
  (n < 2 ^ 8 → len (head m n) ≤ 2) ∧ (n < 2 ^ 16 → len (head m n) ≤ 3).
Proof.
  unfold head. repeat case_match; rewrite ?len_cons; unfold len;
    rewrite ?length_be_bytes; simpl; lia.
Qed.

Lemma parse_head_arg s m n r : parse_head s = Some (m, (Some n, r)) → 0 ≤ n < 2 ^ 64.
Proof.
  destruct s as [|b t]; [done|]. simpl.
  assert (∀ k o r', (k ≤ 8)%nat → head_arg k t = Some (Some o, r') → 0 ≤ o < 2 ^ 64) as Harg.
  { intros k o r' Hk. unfold head_arg.
    destruct (split_exact _ _) as [[a r'']|] eqn:Hs; simpl; [|done].
    intros [= <- <-]. apply split_exact_Some in Hs as [-> Hl].
    pose proof (be_value_bound a) as [? Hb]. split; [done|].
    eapply Z.lt_le_trans; [exact Hb|]. apply Z.pow_le_mono_r; lia. }
  pose proof (Z.mod_pos_bound (bv b) 32 eq_refl) as Hmod.
  intros Hp. apply fmap_Some in Hp as (x & Hx & [= -> <-]).
  repeat case_match; try (by eapply Harg in Hx; [|lia]); simplify_eq; lia.
Qed.

Lemma dec_uint_head w n r :
  w ≤ 64 → is_u w n → dec_uint (2 ^ w) (head 0 n ++ r) = Some (n, r).
Proof.
  intros Hw [H0 Hn]. assert (2 ^ w ≤ 2 ^ 64) by (apply Z.pow_le_mono_r; lia).
  unfold dec_uint. rewrite parse_head_head by (unfold is_u; lia).
  by rewrite (proj2 (Z.ltb_lt _ _)).
Qed.

Lemma dec_int64_enc_int n r : is_i64 n → dec_int64 (enc_int n ++ r) = Some (n, r).
Proof.
  intros [? ?]. unfold dec_int64, enc_int. destruct (Z.leb_spec 0 n).
  - rewrite parse_head_head by (unfold is_u; lia). by rewrite (proj2 (Z.ltb_lt _ _)).
  - rewrite parse_head_head by (unfold is_u; lia).
    rewrite (proj2 (Z.ltb_lt _ _)) by lia. do 2 f_equal. lia.
Qed.

Lemma dec_blob_head m b r : 0 ≤ m < 8 → is_u 64 (len b) →
  dec_blob m ((head m (len b) ++ b) ++ r) = Some (b, r).
Proof.
  intros ? ?. unfold dec_blob. rewrite <- app_assoc, parse_head_head by done.
  rewrite Z.eqb_refl. by apply split_exact_app.
Qed.

Lemma dec_count_head m n r : 0 ≤ m < 8 → is_u 64 n →
  dec_count m (head m n ++ r) = Some (Some n, r).
Proof.
  intros ? ?. unfold dec_count. rewrite parse_head_head by done.
  simpl. by rewrite Z.eqb_refl.
Qed.

Lemma dec_uint_range w s n r : dec_uint (2 ^ w) s = Some (n, r) → is_u w n.
Proof.
  unfold dec_uint. intros H. repeat case_match; simplify_eq.
  match goal with H : parse_head _ = _ |- _ => apply parse_head_arg in H end.
  unfold is_u. lia.
Qed.

Lemma dec_int64_range s n r : dec_int64 s = Some (n, r) → is_i64 n.
Proof.
  unfold dec_int64. intros H. repeat case_match; simplify_eq;
  match goal with H : parse_head _ = _ |- _ => apply parse_head_arg in H end;
  unfold is_i64; lia.
Qed.

Lemma dec_text_utf8 s t r : dec_text s = Some (t, r) → utf8_valid t = true.
Proof.
  unfold dec_text. destruct (dec_blob 3 s) as [[t' r']|]; simpl; [|done].
  case_match; congruence.
Qed.

Lemma peek_bytes b r : peek ((head 2 (len b) ++ b) ++ r) = Some TBytes.
Proof.
  pose proof (len_nonneg b).
  unfold head. repeat case_match; cbn [peek app]; rewrite bv_bz_small by lia;
    repeat case_match; naive_solver lia.
Qed.

Lemma enc_int_size n :
  (is_i64 n → len (enc_int n) ≤ 9) ∧ (-128 ≤ n < 128 → len (enc_int n) ≤ 2).
Proof.
  unfold enc_int, is_i64. destruct (Z.leb_spec 0 n); split; intros;
    (apply head_size; unfold is_u; lia) || (apply head_size_small; lia).
Qed.

#[export] Instance codec_laws : MinicborLaws codec.
Proof.
  split; simpl; intros.
  all: try (apply dec_uint_head; [lia|unfold is_u in *; lia]).
  all: try (apply dec_int64_enc_int; unfold is_i64 in *; lia).
  all: try (apply dec_blob_head; [lia|done]).
  all: try (apply dec_count_head; [lia|done]).
  all: rewrite ?len_app.
  all: try (by eauto using dec_uint_range, dec_int64_range, dec_text_utf8, peek_bytes).
  all: try (by apply head_size).
  all: try (by apply head_size_small; unfold is_u in *; lia).
  all: try (by apply enc_int_size).
  - unfold dec_text. rewrite dec_blob_head by (done || lia). simpl. by case_match.
  - by apply Z.add_le_mono_r, head_size.
  - by apply Z.add_le_mono_r, head_size.
Qed.

End Rfc8949.
