(* ===== verification/PolicySchema.v ===== *)
(** * Signed endpoint policy: schema and errors

    Models [shadowpipe-core/src/signed_policy/schema.rs] and [error.rs].  A
    fixed-size array [[u8; N]] is a byte list whose length the [*_wf] predicates
    pin to [N]; a [String] is the list of its UTF-8 bytes.  The free-form
    [String] carried by the error variants [Decode], [Invalid], [Rollback],
    [Gap], [Fork], [Chain] and [Rotation] is diagnostic text and is erased; the
    [&'static str] labels and the numbers of the other variants are kept.
    [Panicked] is not a variant of the source: it stands for an unwinding panic
    (a slice copy out of range), so that its absence can be proved. *)

From S2P Require Import Prelude Minicbor.

(** ** Bounds *)

Definition MAX_BUNDLE_BYTES : Z := 64 * 1024.
Definition MAX_SIGN1_BYTES : Z := 60 * 1024.
Definition MAX_KEYSET_KEYS : Z := 16.
Definition MAX_SERVICES : Z := 16.
Definition MAX_ENDPOINTS_PER_SERVICE : Z := 16.
Definition MAX_TOTAL_ENDPOINTS : Z := 32.
Definition MAX_PINS_PER_SERVICE : Z := 3.
Definition MAX_EVIDENCE_REFS : Z := 16.
Definition MAX_SNI_BYTES : Z := 253.
Definition MAX_LOCATOR_NAME_BYTES : Z := 253.
Definition MAX_SHORT_ID_BYTES : Z := 8.

Definition MAX_CLOCK_SKEW_SECS : Z := 5 * 60.
Definition POLICY_MAX_TTL_SECS : Z := 7 * 24 * 60 * 60.
Definition KEYSET_MAX_TTL_SECS : Z := 90 * 24 * 60 * 60.
Definition MIN_ROTATION_OVERLAP_SECS : Z := 24 * 60 * 60.

Definition KEYSET_SCHEMA_VERSION : Z := 1.
Definition POLICY_SCHEMA_VERSION : Z := 2.
Definition KEYSET_OBJECT_KIND : Z := 1.
Definition POLICY_OBJECT_KIND : Z := 2.

Ltac unfold_bounds :=
  unfold MAX_BUNDLE_BYTES, MAX_SIGN1_BYTES, MAX_KEYSET_KEYS, MAX_SERVICES,
    MAX_ENDPOINTS_PER_SERVICE, MAX_TOTAL_ENDPOINTS, MAX_PINS_PER_SERVICE,
    MAX_EVIDENCE_REFS, MAX_SNI_BYTES, MAX_LOCATOR_NAME_BYTES, MAX_SHORT_ID_BYTES,
    MAX_CLOCK_SKEW_SECS, POLICY_MAX_TTL_SECS, KEYSET_MAX_TTL_SECS,
    MIN_ROTATION_OVERLAP_SECS, KEYSET_SCHEMA_VERSION, POLICY_SCHEMA_VERSION,
    KEYSET_OBJECT_KIND, POLICY_OBJECT_KIND in *.

(** ** Errors *)

Inductive PolicyError :=
| TooLarge (what : string) (actual maximum : Z)
| Decode
| NonCanonical (what : string)
| Invalid
| Signature
| NotYetValid (what : string)
| Expired (what : string)
| Rollback
| Gap
| Fork
| Chain
| Rotation
| Panicked.

#[export] Instance PolicyError_eq_dec : EqDecision PolicyError.
Proof. solve_decision. Defined.

(** ** Enumerations, with their wire discriminants *)

Inductive KeyStatus := KeyActive | KeyRetiring | KeyRevoked.
Inductive PinStatus := PinActive | PinRetiring.
Inductive TransportV2 := RealityTcp.
Inductive RuleAction := ProtectedOnly.

#[export] Instance KeyStatus_eq_dec : EqDecision KeyStatus.
Proof. solve_decision. Defined.
#[export] Instance PinStatus_eq_dec : EqDecision PinStatus.
Proof. solve_decision. Defined.
#[export] Instance TransportV2_eq_dec : EqDecision TransportV2.
Proof. solve_decision. Defined.
#[export] Instance RuleAction_eq_dec : EqDecision RuleAction.
Proof. solve_decision. Defined.

(** [status as u8] *)
Definition KeyStatus_repr (s : KeyStatus) : Z :=
  match s with KeyActive => 1 | KeyRetiring => 2 | KeyRevoked => 3 end.
Definition PinStatus_repr (s : PinStatus) : Z :=
  match s with PinActive => 1 | PinRetiring => 2 end.
Definition TransportV2_repr (t : TransportV2) : Z := match t with RealityTcp => 1 end.
Definition RuleAction_repr (a : RuleAction) : Z := match a with ProtectedOnly => 1 end.

Definition KeyStatus_try_from (value : Z) : option KeyStatus :=
  if value =? 1 then Some KeyActive
  else if value =? 2 then Some KeyRetiring
  else if value =? 3 then Some KeyRevoked
  else None.
Definition PinStatus_try_from (value : Z) : option PinStatus :=
  if value =? 1 then Some PinActive
  else if value =? 2 then Some PinRetiring
  else None.
Definition TransportV2_try_from (value : Z) : option TransportV2 :=
  if value =? 1 then Some RealityTcp else None.
Definition RuleAction_try_from (value : Z) : option RuleAction :=
  if value =? 1 then Some ProtectedOnly else None.

(** ** Records *)

Abbreviation Kid := bytes (only parsing).
Abbreviation ServiceId := bytes (only parsing).
Abbreviation EndpointId := bytes (only parsing).
Abbreviation EvidenceHash := bytes (only parsing).
Abbreviation PayloadHash := bytes (only parsing).
Abbreviation Ed25519PublicKey := bytes (only parsing).
Abbreviation MlKemFingerprint := bytes (only parsing).

Record TrustedRoot := mkTrustedRoot {
  root_kid : Kid;
  root_ed25519_public_key : Ed25519PublicKey;
}.

Record OnlineKeyV1 := mkOnlineKeyV1 {
  key_kid : Kid;
  key_ed25519_public_key : Ed25519PublicKey;
  key_not_before : Z;
  key_expires_at : Z;
  key_status : KeyStatus;
  key_status_since : Z;
}.

Record KeysetV1 := mkKeysetV1 {
  ks_keyset_epoch : Z;
  ks_issued_at : Z;
  ks_not_before : Z;
  ks_expires_at : Z;
  ks_previous_payload_hash : option PayloadHash;
  ks_keys : list OnlineKeyV1;
}.

Record ServerPinV2 := mkServerPinV2 {
  pin_fingerprint : MlKemFingerprint;
  pin_not_before : Z;
  pin_expires_at : Z;
  pin_status : PinStatus;
  pin_status_since : Z;
}.

Record RealityEndpointV2 := mkRealityEndpointV2 {
  ep_endpoint_id : EndpointId;
  ep_transport : TransportV2;
  ep_ipv4 : bytes;
  ep_port : Z;
  ep_locator_name : bytes;
  ep_sni : bytes;
  ep_reality_x25519_public_key : bytes;
  ep_reality_short_id : bytes;
}.

Record ServiceV2 := mkServiceV2 {
  svc_service_id : ServiceId;
  svc_pins : list ServerPinV2;
  svc_endpoints : list RealityEndpointV2;
}.

Record PolicyRuleV2 := mkPolicyRuleV2 {
  rule_action : RuleAction;
  rule_service_ids : list ServiceId;
}.

Record EndpointPolicyV2 := mkEndpointPolicyV2 {
  pol_keyset_epoch : Z;
  pol_keyset_payload_hash : PayloadHash;
  pol_policy_epoch : Z;
  pol_sequence : Z;
  pol_issued_at : Z;
  pol_not_before : Z;
  pol_expires_at : Z;
  pol_previous_payload_hash : option PayloadHash;
  pol_services : list ServiceV2;
  pol_rules : list PolicyRuleV2;
  pol_experiment_evidence : list EvidenceHash;
}.

#[export] Instance OnlineKeyV1_eq_dec : EqDecision OnlineKeyV1.
Proof. solve_decision. Defined.
#[export] Instance KeysetV1_eq_dec : EqDecision KeysetV1.
Proof. solve_decision. Defined.
#[export] Instance ServerPinV2_eq_dec : EqDecision ServerPinV2.
Proof. solve_decision. Defined.
#[export] Instance RealityEndpointV2_eq_dec : EqDecision RealityEndpointV2.
Proof. solve_decision. Defined.
#[export] Instance ServiceV2_eq_dec : EqDecision ServiceV2.
Proof. solve_decision. Defined.
#[export] Instance PolicyRuleV2_eq_dec : EqDecision PolicyRuleV2.
Proof. solve_decision. Defined.
#[export] Instance EndpointPolicyV2_eq_dec : EqDecision EndpointPolicyV2.
Proof. solve_decision. Defined.

(** ** Well-formedness: the invariants the Rust field types carry *)

Definition opt_hash_wf (h : option PayloadHash) : Prop :=
  match h with Some b => length b = 32%nat | None => True end.

Record OnlineKeyV1_wf (k : OnlineKeyV1) : Prop := {
  key_kid_wf : length (key_kid k) = 16%nat;
  key_public_wf : length (key_ed25519_public_key k) = 32%nat;
  key_not_before_wf : is_i64 (key_not_before k);
  key_expires_at_wf : is_i64 (key_expires_at k);
  key_status_since_wf : is_i64 (key_status_since k);
}.

Record KeysetV1_wf (k : KeysetV1) : Prop := {
  ks_epoch_wf : is_u 64 (ks_keyset_epoch k);
  ks_issued_at_wf : is_i64 (ks_issued_at k);
  ks_not_before_wf : is_i64 (ks_not_before k);
  ks_expires_at_wf : is_i64 (ks_expires_at k);
  ks_previous_wf : opt_hash_wf (ks_previous_payload_hash k);
  ks_keys_wf : Forall OnlineKeyV1_wf (ks_keys k);
}.

Record ServerPinV2_wf (p : ServerPinV2) : Prop := {
  pin_fingerprint_wf : length (pin_fingerprint p) = 32%nat;
  pin_not_before_wf : is_i64 (pin_not_before p);
  pin_expires_at_wf : is_i64 (pin_expires_at p);
  pin_status_since_wf : is_i64 (pin_status_since p);
}.

Record RealityEndpointV2_wf (e : RealityEndpointV2) : Prop := {
  ep_id_wf : length (ep_endpoint_id e) = 16%nat;
  ep_ipv4_wf : length (ep_ipv4 e) = 4%nat;
  ep_port_wf : is_u 16 (ep_port e);
  ep_locator_wf : utf8_valid (ep_locator_name e) = true;
  ep_sni_wf : utf8_valid (ep_sni e) = true;
  ep_public_wf : length (ep_reality_x25519_public_key e) = 32%nat;
}.

Record ServiceV2_wf (s : ServiceV2) : Prop := {
  svc_id_wf : length (svc_service_id s) = 16%nat;
  svc_pins_wf : Forall ServerPinV2_wf (svc_pins s);
  svc_endpoints_wf : Forall RealityEndpointV2_wf (svc_endpoints s);
}.

Definition PolicyRuleV2_wf (r : PolicyRuleV2) : Prop :=
  Forall (λ i, length i = 16%nat) (rule_service_ids r).

Record EndpointPolicyV2_wf (p : EndpointPolicyV2) : Prop := {
  pol_keyset_epoch_wf : is_u 64 (pol_keyset_epoch p);
  pol_keyset_hash_wf : length (pol_keyset_payload_hash p) = 32%nat;
  pol_policy_epoch_wf : is_u 64 (pol_policy_epoch p);
  pol_sequence_wf : is_u 64 (pol_sequence p);
  pol_issued_at_wf : is_i64 (pol_issued_at p);
  pol_not_before_wf : is_i64 (pol_not_before p);
  pol_expires_at_wf : is_i64 (pol_expires_at p);
  pol_previous_wf : opt_hash_wf (pol_previous_payload_hash p);
  pol_services_wf : Forall ServiceV2_wf (pol_services p);
  pol_rules_wf : Forall PolicyRuleV2_wf (pol_rules p);
  pol_evidence_wf : Forall (λ h, length h = 32%nat) (pol_experiment_evidence p);
}.

(** ** Discriminants round-trip *)

Lemma KeyStatus_try_from_repr s : KeyStatus_try_from (KeyStatus_repr s) = Some s.
Proof. by destruct s. Qed.
Lemma PinStatus_try_from_repr s : PinStatus_try_from (PinStatus_repr s) = Some s.
Proof. by destruct s. Qed.
Lemma TransportV2_try_from_repr t : TransportV2_try_from (TransportV2_repr t) = Some t.
Proof. by destruct t. Qed.
Lemma RuleAction_try_from_repr a : RuleAction_try_from (RuleAction_repr a) = Some a.
Proof. by destruct a. Qed.

Lemma KeyStatus_repr_u8 s : is_u 8 (KeyStatus_repr s).
Proof. destruct s; unfold is_u; simpl; lia. Qed.
Lemma PinStatus_repr_u8 s : is_u 8 (PinStatus_repr s).
Proof. destruct s; unfold is_u; simpl; lia. Qed.
Lemma TransportV2_repr_u8 t : is_u 8 (TransportV2_repr t).
Proof. destruct t; unfold is_u; simpl; lia. Qed.
Lemma RuleAction_repr_u8 a : is_u 8 (RuleAction_repr a).
Proof. destruct a; unfold is_u; simpl; lia. Qed.

#[export] Hint Rewrite KeyStatus_try_from_repr PinStatus_try_from_repr
  TransportV2_try_from_repr RuleAction_try_from_repr : shadowpipe.
#[export] Hint Resolve KeyStatus_repr_u8 PinStatus_repr_u8 TransportV2_repr_u8
  RuleAction_repr_u8 : shadowpipe.
