(* ===== verification/PolicyCbor.v ===== *)
(** * Signed endpoint policy: deterministic CBOR payloads

    Models [shadowpipe-core/src/signed_policy/cbor.rs]: the encoders and strict
    decoders of keysets, endpoint policies and the outer bundle, over the codec
    interface of [Minicbor].  The theorems show that every well-formed,
    in-bounds value round-trips, that decoding accepts one byte string per value
    only, that a decoded value is well formed and within the schema bounds, and
    that the byte-size guard of the encoders is never the limit that rejects. *)

From S2P Require Import Prelude Minicbor PolicySchema.

(** ** The decoder monad: a [&mut Decoder] and [Result] *)

Definition Decoder (A : Type) : Type := bytes → result PolicyError (A * bytes).

#[export] Instance Decoder_ret : MRet Decoder := λ A a s, Ok (a, s).
#[export] Instance Decoder_bind : MBind Decoder :=
  λ A B k d s, match d s with Ok (a, s') => k a s' | Err e => Err e end.

Definition fail {A} (e : PolicyError) : Decoder A := λ _, Err e.

(** [dec(decoder.x())?] *)
Definition dec {A} (d : bytes → option (A * bytes)) : Decoder A := λ s, ok_or (d s) Decode.

(** [for _ in 0..n { v.push(d(decoder)?) }] *)
Fixpoint dec_many {A} (n : nat) (d : Decoder A) : Decoder (list A) :=
  match n with
  | O => mret []
  | S n => x ← d; xs ← dec_many n d; mret (x :: xs)
  end.

Record BundleBytes := mkBundleBytes {
  keyset_sign1 : bytes;
  policy_sign1 : bytes;
}.

Section Cbor.
Context `{M : Minicbor}.

(** ** Decoder helpers *)

Definition expect_map (expected : Z) : Decoder () :=
  n ← dec dec_map;
  match n with
  | Some actual => if actual =? expected then mret () else fail Invalid
  | None => fail Invalid
  end.

Definition expect_array (maximum : Z) : Decoder nat :=
  n ← dec dec_array;
  match n with
  | Some actual => if actual <=? maximum then mret (Z.to_nat actual) else fail Invalid
  | None => fail Invalid
  end.

Definition expect_key (expected : Z) : Decoder () :=
  actual ← dec dec_u64;
  if negb (actual =? expected) then fail Invalid else mret ().

Definition fixed_bytes (N : nat) : Decoder bytes :=
  value ← dec dec_bytes;
  if bool_decide (length value = N) then mret value else fail Invalid.

Definition optional_hash : Decoder (option bytes) :=
  λ s, match dec_datatype s with
       | None => Err Decode
       | Some TNull => ((_ ← dec dec_null; mret None) : Decoder _) s
       | Some TBytes => ((h ← fixed_bytes 32; mret (Some h)) : Decoder _) s
       | Some TOther => Err Invalid
       end.

(** [decoder.position() != input.len()] *)
Definition finish (rest : bytes) : result PolicyError () :=
  match rest with [] => Ok () | _ :: _ => Err Invalid end.

Definition ensure_canonical (actual canonical : bytes) (what : string)
  : result PolicyError () :=
  if bool_decide (actual = canonical) then Ok () else Err (NonCanonical what).

(** [raw.try_into().map_err(..)] on an enumeration discriminant *)
Definition try_enum {A} (f : Z → option A) : Decoder A :=
  raw ← dec dec_u64;
  match f raw with Some a => mret a | None => fail Invalid end.

(** ** Keysets *)

Definition encode_online_key (key : OnlineKeyV1) : bytes :=
  enc_map 6 ++
  enc_u8 1 ++ enc_bytes (key_kid key) ++
  enc_u8 2 ++ enc_bytes (key_ed25519_public_key key) ++
  enc_u8 3 ++ enc_i64 (key_not_before key) ++
  enc_u8 4 ++ enc_i64 (key_expires_at key) ++
  enc_u8 5 ++ enc_u8 (KeyStatus_repr (key_status key)) ++
  enc_u8 6 ++ enc_i64 (key_status_since key).

Definition decode_online_key : Decoder OnlineKeyV1 :=
  _ ← expect_map 6;
  _ ← expect_key 1;
  kid ← fixed_bytes 16;
  _ ← expect_key 2;
  ed25519_public_key ← fixed_bytes 32;
  _ ← expect_key 3;
  not_before ← dec dec_i64;
  _ ← expect_key 4;
  expires_at ← dec dec_i64;
  _ ← expect_key 5;
  status ← try_enum KeyStatus_try_from;
  _ ← expect_key 6;
  status_since ← dec dec_i64;
  mret (mkOnlineKeyV1 kid ed25519_public_key not_before expires_at status status_since).

Definition encode_optional_hash (h : option PayloadHash) : bytes :=
  match h with Some hash => enc_bytes hash | None => enc_null end.

Definition keyset_payload_bytes (keyset : KeysetV1) : bytes :=
  enc_map 8 ++
  enc_u8 1 ++ enc_u8 KEYSET_SCHEMA_VERSION ++
  enc_u8 2 ++ enc_u8 KEYSET_OBJECT_KIND ++
  enc_u8 3 ++ enc_u64 (ks_keyset_epoch keyset) ++
  enc_u8 4 ++ enc_i64 (ks_issued_at keyset) ++
  enc_u8 5 ++ enc_i64 (ks_not_before keyset) ++
  enc_u8 6 ++ enc_i64 (ks_expires_at keyset) ++
  enc_u8 7 ++ encode_optional_hash (ks_previous_payload_hash keyset) ++
  enc_u8 8 ++ enc_array (len (ks_keys keyset)) ++
  flat_map encode_online_key (ks_keys keyset).

Definition encode_keyset_payload (keyset : KeysetV1) : result PolicyError bytes :=
  if MAX_KEYSET_KEYS <? len (ks_keys keyset) then Err Invalid else
  let encoded := keyset_payload_bytes keyset in
  if MAX_SIGN1_BYTES <? len encoded
  then Err (TooLarge "keyset payload" (len encoded) MAX_SIGN1_BYTES)
  else Ok encoded.

(** The field reads of [decode_keyset_payload], up to [finish]. *)
Definition decode_keyset_fields : Decoder KeysetV1 :=
  _ ← expect_map 8;
  _ ← expect_key 1;
  schema ← dec dec_u64;
  if negb (schema =? KEYSET_SCHEMA_VERSION) then fail Invalid else
  _ ← expect_key 2;
  kind ← dec dec_u64;
  if negb (kind =? KEYSET_OBJECT_KIND) then fail Invalid else
  _ ← expect_key 3;
  keyset_epoch ← dec dec_u64;
  _ ← expect_key 4;
  issued_at ← dec dec_i64;
  _ ← expect_key 5;
  not_before ← dec dec_i64;
  _ ← expect_key 6;
  expires_at ← dec dec_i64;
  _ ← expect_key 7;
  previous_payload_hash ← optional_hash;
  _ ← expect_key 8;
  count ← expect_array MAX_KEYSET_KEYS;
  keys ← dec_many count decode_online_key;
  mret (mkKeysetV1 keyset_epoch issued_at not_before expires_at previous_payload_hash keys).

Definition decode_keyset_payload (input : bytes) : result PolicyError KeysetV1 :=
  if MAX_SIGN1_BYTES <? len input
  then Err (TooLarge "keyset payload" (len input) MAX_SIGN1_BYTES) else
  '(value, rest) ← decode_keyset_fields input;
  _ ← finish rest;
  canonical ← encode_keyset_payload value;
  _ ← ensure_canonical input canonical "keyset payload";
  Ok value.

(** ** Endpoint policies *)

Definition encode_pin (pin : ServerPinV2) : bytes :=
  enc_map 5 ++
  enc_u8 1 ++ enc_bytes (pin_fingerprint pin) ++
  enc_u8 2 ++ enc_i64 (pin_not_before pin) ++
  enc_u8 3 ++ enc_i64 (pin_expires_at pin) ++
  enc_u8 4 ++ enc_u8 (PinStatus_repr (pin_status pin)) ++
  enc_u8 5 ++ enc_i64 (pin_status_since pin).

Definition decode_pin : Decoder ServerPinV2 :=
  _ ← expect_map 5;
  _ ← expect_key 1;
  fingerprint ← fixed_bytes 32;
  _ ← expect_key 2;
  not_before ← dec dec_i64;
  _ ← expect_key 3;
  expires_at ← dec dec_i64;
  _ ← expect_key 4;
  status ← try_enum PinStatus_try_from;
  _ ← expect_key 5;
  status_since ← dec dec_i64;
  mret (mkServerPinV2 fingerprint not_before expires_at status status_since).

Definition encode_endpoint (endpoint : RealityEndpointV2) : bytes :=
  enc_map 8 ++
  enc_u8 1 ++ enc_bytes (ep_endpoint_id endpoint) ++
  enc_u8 2 ++ enc_u8 (TransportV2_repr (ep_transport endpoint)) ++
  enc_u8 3 ++ enc_bytes (ep_ipv4 endpoint) ++
  enc_u8 4 ++ enc_u16 (ep_port endpoint) ++
  enc_u8 5 ++ enc_str (ep_locator_name endpoint) ++
  enc_u8 6 ++ enc_str (ep_sni endpoint) ++
  enc_u8 7 ++ enc_bytes (ep_reality_x25519_public_key endpoint) ++
  enc_u8 8 ++ enc_bytes (ep_reality_short_id endpoint).

Definition decode_endpoint : Decoder RealityEndpointV2 :=
  _ ← expect_map 8;
  _ ← expect_key 1;
  endpoint_id ← fixed_bytes 16;
  _ ← expect_key 2;
  transport ← try_enum TransportV2_try_from;
  _ ← expect_key 3;
  ipv4 ← fixed_bytes 4;
  _ ← expect_key 4;
  port ← dec dec_u16;
  _ ← expect_key 5;
  locator_name ← dec dec_str;
  if MAX_LOCATOR_NAME_BYTES <? len locator_name then fail Invalid else
  _ ← expect_key 6;
  sni ← dec dec_str;
  if MAX_SNI_BYTES <? len sni then fail Invalid else
  _ ← expect_key 7;
  reality_x25519_public_key ← fixed_bytes 32;
  _ ← expect_key 8;
  reality_short_id ← dec dec_bytes;
  if MAX_SHORT_ID_BYTES <? len reality_short_id then fail Invalid else
  mret (mkRealityEndpointV2 endpoint_id transport ipv4 port locator_name sni
          reality_x25519_public_key reality_short_id).

Definition encode_service (service : ServiceV2) : bytes :=
  enc_map 3 ++
  enc_u8 1 ++ enc_bytes (svc_service_id service) ++
  enc_u8 2 ++ enc_array (len (svc_pins service)) ++
  flat_map encode_pin (svc_pins service) ++
  enc_u8 3 ++ enc_array (len (svc_endpoints service)) ++
  flat_map encode_endpoint (svc_endpoints service).

Definition decode_service : Decoder ServiceV2 :=
  _ ← expect_map 3;
  _ ← expect_key 1;
  service_id ← fixed_bytes 16;
  _ ← expect_key 2;
  pin_count ← expect_array MAX_PINS_PER_SERVICE;
  pins ← dec_many pin_count decode_pin;
  _ ← expect_key 3;
  endpoint_count ← expect_array MAX_ENDPOINTS_PER_SERVICE;
  endpoints ← dec_many endpoint_count decode_endpoint;
  mret (mkServiceV2 service_id pins endpoints).

Definition encode_rule (rule : PolicyRuleV2) : bytes :=
  enc_map 2 ++
  enc_u8 1 ++ enc_u8 (RuleAction_repr (rule_action rule)) ++
  enc_u8 2 ++ enc_array (len (rule_service_ids rule)) ++
  flat_map enc_bytes (rule_service_ids rule).

Definition decode_rule : Decoder PolicyRuleV2 :=
  _ ← expect_map 2;
  _ ← expect_key 1;
  action ← try_enum RuleAction_try_from;
  _ ← expect_key 2;
  count ← expect_array MAX_SERVICES;
  service_ids ← dec_many count (fixed_bytes 16);
  mret (mkPolicyRuleV2 action service_ids).

(** The bounds loop of [encode_policy_payload]: one endpoint, one service. *)
Definition check_endpoint_bounds (_ : ()) (endpoint : RealityEndpointV2)
  : result PolicyError () :=
  if MAX_LOCATOR_NAME_BYTES <? len (ep_locator_name endpoint) then Err Invalid else
  if MAX_SNI_BYTES <? len (ep_sni endpoint) then Err Invalid else
  if MAX_SHORT_ID_BYTES <? len (ep_reality_short_id endpoint) then Err Invalid else
  Ok ().

Definition check_service_bounds (total_endpoints : Z) (service : ServiceV2)
  : result PolicyError Z :=
  if MAX_PINS_PER_SERVICE <? len (svc_pins service) then Err Invalid else
  if MAX_ENDPOINTS_PER_SERVICE <? len (svc_endpoints service) then Err Invalid else
  total ← ok_or (u64_checked_add total_endpoints (len (svc_endpoints service))) Invalid;
  if MAX_TOTAL_ENDPOINTS <? total then Err Invalid else
  _ ← fold_res check_endpoint_bounds () (svc_endpoints service);
  Ok total.

Definition policy_payload_bytes (policy : EndpointPolicyV2) : bytes :=
  enc_map 13 ++
  enc_u8 1 ++ enc_u8 POLICY_SCHEMA_VERSION ++
  enc_u8 2 ++ enc_u8 POLICY_OBJECT_KIND ++
  enc_u8 3 ++ enc_u64 (pol_keyset_epoch policy) ++
  enc_u8 4 ++ enc_bytes (pol_keyset_payload_hash policy) ++
  enc_u8 5 ++ enc_u64 (pol_policy_epoch policy) ++
  enc_u8 6 ++ enc_u64 (pol_sequence policy) ++
  enc_u8 7 ++ enc_i64 (pol_issued_at policy) ++
  enc_u8 8 ++ enc_i64 (pol_not_before policy) ++
  enc_u8 9 ++ enc_i64 (pol_expires_at policy) ++
  enc_u8 10 ++ encode_optional_hash (pol_previous_payload_hash policy) ++
  enc_u8 11 ++ enc_array (len (pol_services policy)) ++
  flat_map encode_service (pol_services policy) ++
  enc_u8 12 ++ enc_array (len (pol_rules policy)) ++
  flat_map encode_rule (pol_rules policy) ++
  enc_u8 13 ++ enc_array (len (pol_experiment_evidence policy)) ++
  flat_map enc_bytes (pol_experiment_evidence policy).

Definition encode_policy_payload (policy : EndpointPolicyV2) : result PolicyError bytes :=
  if MAX_SERVICES <? len (pol_services policy) then Err Invalid else
  if 1 <? len (pol_rules policy) then Err Invalid else
  if MAX_EVIDENCE_REFS <? len (pol_experiment_evidence policy) then Err Invalid else
  _ ← fold_res check_service_bounds 0 (pol_services policy);
  let encoded := policy_payload_bytes policy in
  if MAX_SIGN1_BYTES <? len encoded
  then Err (TooLarge "policy payload" (len encoded) MAX_SIGN1_BYTES)
  else Ok encoded.

(** The field reads of [decode_policy_payload], up to [finish]. *)
Definition decode_policy_fields : Decoder EndpointPolicyV2 :=
  _ ← expect_map 13;
  _ ← expect_key 1;
  schema ← dec dec_u64;
  if negb (schema =? POLICY_SCHEMA_VERSION) then fail Invalid else
  _ ← expect_key 2;
  kind ← dec dec_u64;
  if negb (kind =? POLICY_OBJECT_KIND) then fail Invalid else
  _ ← expect_key 3;
  keyset_epoch ← dec dec_u64;
  _ ← expect_key 4;
  keyset_payload_hash ← fixed_bytes 32;
  _ ← expect_key 5;
  policy_epoch ← dec dec_u64;
  _ ← expect_key 6;
  sequence ← dec dec_u64;
  _ ← expect_key 7;
  issued_at ← dec dec_i64;
  _ ← expect_key 8;
  not_before ← dec dec_i64;
  _ ← expect_key 9;
  expires_at ← dec dec_i64;
  _ ← expect_key 10;
  previous_payload_hash ← optional_hash;
  _ ← expect_key 11;
  service_count ← expect_array MAX_SERVICES;
  services ← dec_many service_count decode_service;
  _ ← expect_key 12;
  rule_count ← expect_array 1;
  rules ← dec_many rule_count decode_rule;
  _ ← expect_key 13;
  evidence_count ← expect_array MAX_EVIDENCE_REFS;
  experiment_evidence ← dec_many evidence_count (fixed_bytes 32);
  mret (mkEndpointPolicyV2 keyset_epoch keyset_payload_hash policy_epoch sequence
          issued_at not_before expires_at previous_payload_hash services rules
          experiment_evidence).

Definition decode_policy_payload (input : bytes) : result PolicyError EndpointPolicyV2 :=
  if MAX_SIGN1_BYTES <? len input
  then Err (TooLarge "policy payload" (len input) MAX_SIGN1_BYTES) else
  '(value, rest) ← decode_policy_fields input;
  _ ← finish rest;
  canonical ← encode_policy_payload value;
  _ ← ensure_canonical input canonical "endpoint policy payload";
  Ok value.

(** ** The outer bundle *)

Definition bundle_bytes (bundle : BundleBytes) : bytes :=
  enc_map 3 ++
  enc_u8 1 ++ enc_u8 1 ++
  enc_u8 2 ++ enc_bytes (keyset_sign1 bundle) ++
  enc_u8 3 ++ enc_bytes (policy_sign1 bundle).

Definition encode_bundle (bundle : BundleBytes) : result PolicyError bytes :=
  if MAX_SIGN1_BYTES <? len (keyset_sign1 bundle)
  then Err (TooLarge "keyset COSE_Sign1" (len (keyset_sign1 bundle)) MAX_SIGN1_BYTES) else
  if MAX_SIGN1_BYTES <? len (policy_sign1 bundle)
  then Err (TooLarge "policy COSE_Sign1" (len (policy_sign1 bundle)) MAX_SIGN1_BYTES) else
  let encoded := bundle_bytes bundle in
  if MAX_BUNDLE_BYTES <? len encoded
  then Err (TooLarge "policy bundle" (len encoded) MAX_BUNDLE_BYTES)
  else Ok encoded.

Definition decode_bundle_fields : Decoder BundleBytes :=
  _ ← expect_map 3;
  _ ← expect_key 1;
  schema ← dec dec_u64;
  if negb (schema =? 1) then fail Invalid else
  _ ← expect_key 2;
  keyset ← dec dec_bytes;
  if MAX_SIGN1_BYTES <? len keyset
  then fail (TooLarge "keyset COSE_Sign1" (len keyset) MAX_SIGN1_BYTES) else
  _ ← expect_key 3;
  policy ← dec dec_bytes;
  if MAX_SIGN1_BYTES <? len policy
  then fail (TooLarge "policy COSE_Sign1" (len policy) MAX_SIGN1_BYTES) else
  mret (mkBundleBytes keyset policy).

Definition decode_bundle (input : bytes) : result PolicyError BundleBytes :=
  if MAX_BUNDLE_BYTES <? len input
  then Err (TooLarge "policy bundle" (len input) MAX_BUNDLE_BYTES) else
  '(value, rest) ← decode_bundle_fields input;
  _ ← finish rest;
  canonical ← encode_bundle value;
  _ ← ensure_canonical input canonical "policy bundle";
  Ok value.

End Cbor.

(** ** The schema bounds, as predicates *)

Definition endpoint_bounded (e : RealityEndpointV2) : Prop :=
  len (ep_locator_name e) ≤ MAX_LOCATOR_NAME_BYTES
  ∧ len (ep_sni e) ≤ MAX_SNI_BYTES
  ∧ len (ep_reality_short_id e) ≤ MAX_SHORT_ID_BYTES.

Definition service_bounded (s : ServiceV2) : Prop :=
  len (svc_pins s) ≤ MAX_PINS_PER_SERVICE
  ∧ len (svc_endpoints s) ≤ MAX_ENDPOINTS_PER_SERVICE
  ∧ Forall endpoint_bounded (svc_endpoints s).

Fixpoint total_endpoints (l : list ServiceV2) : Z :=
  match l with [] => 0 | s :: l => len (svc_endpoints s) + total_endpoints l end.

Record policy_bounded (p : EndpointPolicyV2) : Prop := {
  bounded_services : len (pol_services p) ≤ MAX_SERVICES;
  bounded_rules : len (pol_rules p) ≤ 1;
  bounded_evidence : len (pol_experiment_evidence p) ≤ MAX_EVIDENCE_REFS;
  bounded_each_service : Forall service_bounded (pol_services p);
  bounded_total : total_endpoints (pol_services p) ≤ MAX_TOTAL_ENDPOINTS;
}.

(** The bound on a rule's service list, which the decoder enforces. *)
Definition rules_bounded (p : EndpointPolicyV2) : Prop :=
  Forall (λ r, len (rule_service_ids r) ≤ MAX_SERVICES) (pol_rules p).

(** ** Reasoning about decoders: [emits d e x] says that [d], run on any input
    that starts with [e], returns [x] and leaves exactly what follows [e]. *)

Definition emits {A} (d : Decoder A) (e : bytes) (x : A) : Prop :=
  ∀ r, d (e ++ r) = Ok (x, r).

Lemma emits_ret {A} (x : A) : emits (mret x) [] x.
Proof. done. Qed.

Lemma emits_bind {A B} (d : Decoder A) (k : A → Decoder B) e e' x y :
  emits d e x → emits (k x) e' y → emits (d ≫= k) (e ++ e') y.
Proof.
  intros Hd Hk r. unfold mbind, Decoder_bind. rewrite <- app_assoc, Hd. apply Hk.
Qed.

Lemma emits_bind_last {A B} (d : Decoder A) (k : A → Decoder B) e x y :
  emits d e x → emits (k x) [] y → emits (d ≫= k) e y.
Proof.
  intros Hd Hk. rewrite <- (app_nil_r e). by eapply emits_bind.
Qed.

Lemma emits_guard {A} (b : bool) err (d : Decoder A) e x :
  b = false → emits d e x → emits (if b then fail err else d) e x.
Proof. by intros ->. Qed.

Lemma emits_many {A} (d : Decoder A) (enc : A → bytes) l :
  Forall (λ x, emits d (enc x) x) l → emits (dec_many (length l) d) (flat_map enc l) l.
Proof.
  induction 1 as [|x l Hx _ IH]; simpl; [apply emits_ret|].
  eapply emits_bind; [exact Hx|]. eapply emits_bind_last; [exact IH|]. apply emits_ret.
Qed.

Section CborTheory.
Context `{M : Minicbor} {L : MinicborLaws M}.

Lemma emits_dec {A} (d : bytes → option (A * bytes)) e x :
  (∀ r, d (e ++ r) = Some (x, r)) → emits (dec d) e x.
Proof. intros Hd r. unfold dec. by rewrite Hd. Qed.

Lemma emits_u64_u8 n : is_u 8 n → emits (dec dec_u64) (enc_u8 n) n.
Proof. intros. apply emits_dec. intros. by apply dec_u64_enc_u8. Qed.
Lemma emits_u64 n : is_u 64 n → emits (dec dec_u64) (enc_u64 n) n.
Proof. intros. apply emits_dec. intros. by apply dec_u64_enc_u64. Qed.
Lemma emits_u16 n : is_u 16 n → emits (dec dec_u16) (enc_u16 n) n.
Proof. intros. apply emits_dec. intros. by apply dec_u16_enc_u16. Qed.
Lemma emits_i64 n : is_i64 n → emits (dec dec_i64) (enc_i64 n) n.
Proof. intros. apply emits_dec. intros. by apply dec_i64_enc_i64. Qed.
Lemma emits_bytes b : is_u 64 (len b) → emits (dec dec_bytes) (enc_bytes b) b.
Proof. intros. apply emits_dec. intros. by apply dec_bytes_enc_bytes. Qed.
Lemma emits_str s :
  utf8_valid s = true → is_u 64 (len s) → emits (dec dec_str) (enc_str s) s.
Proof. intros. apply emits_dec. intros. by apply dec_str_enc_str. Qed.

Lemma emits_expect_map n : is_u 64 n → emits (expect_map n) (enc_map n) ().
Proof.
  intros. eapply emits_bind_last.
  { apply emits_dec. intros. by apply dec_map_enc_map. }
  simpl. by rewrite Z.eqb_refl.
Qed.

Lemma emits_expect_key n : is_u 8 n → emits (expect_key n) (enc_u8 n) ().
Proof.
  intros. eapply emits_bind_last; [by apply emits_u64_u8|].
  by rewrite Z.eqb_refl.
Qed.

Lemma emits_expect_array {A} maximum (l : list A) : len l ≤ maximum → maximum < 2 ^ 64 →
  emits (expect_array maximum) (enc_array (len l)) (length l).
Proof.
  intros Hl Hm. pose proof (len_nonneg l). eapply emits_bind_last.
  { apply emits_dec. intros. apply dec_array_enc_array. unfold is_u. lia. }
  simpl. rewrite (proj2 (Z.leb_le _ _)) by done. unfold len. rewrite Nat2Z.id.
  apply emits_ret.
Qed.

Lemma emits_fixed_bytes n b :
  length b = n → (n ≤ 64)%nat → emits (fixed_bytes n) (enc_bytes b) b.
Proof.
  intros Hb Hn. eapply emits_bind_last.
  { apply emits_bytes. unfold is_u, len. lia. }
  rewrite bool_decide_eq_true_2 by done. apply emits_ret.
Qed.

Lemma emits_optional_hash h :
  opt_hash_wf h → emits optional_hash (encode_optional_hash h) h.
Proof.
  destruct h as [h|]; simpl; intros Hh r; unfold optional_hash.
  - rewrite dec_datatype_bytes by (unfold is_u, len; lia).
    apply (emits_bind_last _ _ _ h); [by apply emits_fixed_bytes; [|lia]|apply emits_ret].
  - rewrite dec_datatype_null.
    apply (emits_bind_last _ _ _ ()); [|apply emits_ret].
    apply emits_dec. intros. apply dec_null_enc_null.
Qed.

Lemma emits_try_enum {A} (f : Z → option A) n a :
  is_u 8 n → f n = Some a → emits (try_enum f) (enc_u8 n) a.
Proof.
  intros Hn Hf. eapply emits_bind_last; [by apply emits_u64_u8|]. by rewrite Hf.
Qed.

End CborTheory.

Create HintDb emits.
#[export] Hint Resolve KeyStatus_repr_u8 PinStatus_repr_u8 TransportV2_repr_u8
  RuleAction_repr_u8 KeyStatus_try_from_repr PinStatus_try_from_repr
  TransportV2_try_from_repr RuleAction_try_from_repr : emits.

(** Side conditions of the [emits] lemmas: ranges, lengths and bounds. *)
Ltac emits_side :=
  solve [ eauto 2 with emits
        | unfold_bounds; unfold is_u, is_i64, len in *; cbn in *; lia
        | by rewrite Z.eqb_refl
        | rewrite Z.ltb_ge; assumption ].

(** The decoder calls that read one item. *)
Ltac emits_leaf :=
  lazymatch goal with
  | |- emits (expect_map _) _ _ => apply emits_expect_map
  | |- emits (expect_key _) _ _ => apply emits_expect_key
  | |- emits (expect_array _) _ _ => apply emits_expect_array
  | |- emits (fixed_bytes _) _ _ => apply emits_fixed_bytes
  | |- emits optional_hash _ _ => apply emits_optional_hash
  | |- emits (try_enum _) _ _ => apply emits_try_enum
  | |- emits (dec_many _ _) _ _ => first [eassumption | apply emits_many]
  | |- emits (dec dec_u64) _ _ => first [apply emits_u64_u8 | apply emits_u64]
  | |- emits (dec dec_u16) _ _ => apply emits_u16
  | |- emits (dec dec_i64) _ _ => apply emits_i64
  | |- emits (dec dec_bytes) _ _ => apply emits_bytes
  | |- emits (dec dec_str) _ _ => apply emits_str
  end; emits_side.

(** Walks a decoder and the encoding of its value in lockstep. *)
Ltac emits_step :=
  cbn beta;
  lazymatch goal with
  | |- emits (mret _) _ _ => apply emits_ret
  | |- emits (if _ then fail _ else _) _ _ => apply emits_guard; [emits_side|]
  | |- emits (_ ≫= _) (_ ++ _) _ => eapply emits_bind; [emits_leaf|]
  | |- emits (_ ≫= _) _ _ => eapply emits_bind_last; [emits_leaf|]
  end.
Ltac solve_emits := repeat emits_step.

Section CborRoundTrip.
Context `{M : Minicbor} {L : MinicborLaws M}.

Lemma emits_online_key key :
  OnlineKeyV1_wf key → emits decode_online_key (encode_online_key key) key.
Proof. intros [? ? ? ? ?]. destruct key. unfold encode_online_key, decode_online_key; simpl in *. solve_emits. Qed.

Lemma emits_pin pin : ServerPinV2_wf pin → emits decode_pin (encode_pin pin) pin.
Proof. intros [? ? ? ?]. destruct pin. unfold encode_pin, decode_pin; simpl in *. solve_emits. Qed.

Lemma emits_endpoint ep : RealityEndpointV2_wf ep → endpoint_bounded ep →
  emits decode_endpoint (encode_endpoint ep) ep.
Proof.
  intros [? ? ? ? ? ?] (? & ? & ?). destruct ep.
  unfold encode_endpoint, decode_endpoint; simpl in *.
  solve_emits.
Qed.

Lemma emits_service s :
  ServiceV2_wf s → service_bounded s → emits decode_service (encode_service s) s.
Proof.
  intros [? Hp He] (? & ? & Hb). destruct s as [id pins eps]. unfold encode_service, decode_service; simpl in *.
  assert (Forall (λ x, emits decode_pin (encode_pin x) x) pins).
  { eapply Forall_impl; [exact Hp|]. apply emits_pin. }
  assert (Forall (λ x, emits decode_endpoint (encode_endpoint x) x) eps).
  { eapply Forall_impl2; [exact He|exact Hb|]. apply emits_endpoint. }
  solve_emits.
Qed.

Lemma emits_fixed_list n l : (n ≤ 64)%nat → Forall (λ b, length b = n) l →
  emits (dec_many (length l) (fixed_bytes n)) (flat_map enc_bytes l) l.
Proof.
  intros Hn Hl. apply emits_many. eapply Forall_impl; [exact Hl|].
  intros b Hb. by apply emits_fixed_bytes.
Qed.

Lemma emits_rule r : PolicyRuleV2_wf r → len (rule_service_ids r) ≤ MAX_SERVICES →
  emits decode_rule (encode_rule r) r.
Proof.
  unfold PolicyRuleV2_wf. intros Hr Hl. destruct r.
  unfold encode_rule, decode_rule; simpl in *.
  pose proof (emits_fixed_list 16 _ ltac:(lia) Hr). solve_emits.
Qed.

Lemma emits_keyset_fields k : KeysetV1_wf k → len (ks_keys k) ≤ MAX_KEYSET_KEYS →
  emits decode_keyset_fields (keyset_payload_bytes k) k.
Proof.
  intros [? ? ? ? ? Hk] Hl. destruct k as [ep ia nb ex prev keys].
  unfold keyset_payload_bytes, decode_keyset_fields; simpl in *.
  assert (Forall (λ x, emits decode_online_key (encode_online_key x) x) keys).
  { eapply Forall_impl; [exact Hk|]. apply emits_online_key. }
  solve_emits.
Qed.

Lemma emits_policy_fields p :
  EndpointPolicyV2_wf p → policy_bounded p → rules_bounded p →
  emits decode_policy_fields (policy_payload_bytes p) p.
Proof.
  intros [? ? ? ? ? ? ? ? Hs Hr He] [? ? ? Hbs _] Hbr. unfold rules_bounded in Hbr.
  destruct p as [ke kh pe sq ia nb ex prev svcs rules ev].
  unfold policy_payload_bytes, decode_policy_fields; simpl in *.
  assert (Forall (λ x, emits decode_service (encode_service x) x) svcs).
  { eapply Forall_impl2; [exact Hs|exact Hbs|]. apply emits_service. }
  assert (Forall (λ x, emits decode_rule (encode_rule x) x) rules).
  { eapply Forall_impl2; [exact Hr|exact Hbr|]. apply emits_rule. }
  pose proof (emits_fixed_list 32 _ ltac:(lia) He). solve_emits.
Qed.

Lemma emits_bundle_fields b :
  len (keyset_sign1 b) ≤ MAX_SIGN1_BYTES → len (policy_sign1 b) ≤ MAX_SIGN1_BYTES →
  emits decode_bundle_fields (bundle_bytes b) b.
Proof.
  intros ? ?. destruct b as [ks ps]. unfold bundle_bytes, decode_bundle_fields; simpl in *.
  solve_emits.
Qed.
End CborRoundTrip.

(** ** Typing of decoders: [yields d P] says that whatever [d] returns satisfies [P]. *)

Definition yields {A} (d : Decoder A) (P : A → Prop) : Prop :=
  ∀ s x r, d s = Ok (x, r) → P x.

Lemma yields_ret {A} (x : A) (P : A → Prop) : P x → yields (mret x) P.
Proof. intros HP s y r [= <- <-]. done. Qed.

Lemma yields_bind {A B} (d : Decoder A) (k : A → Decoder B) P Q :
  yields d P → (∀ x, P x → yields (k x) Q) → yields (d ≫= k) Q.
Proof.
  intros Hd Hk s y r. unfold mbind, Decoder_bind.
  destruct (d s) as [[x s']|] eqn:Hs; [|done]. intros Hy. by eapply Hk; [eapply Hd|].
Qed.

Lemma yields_any {A} (d : Decoder A) : yields d (λ _, True).
Proof. done. Qed.

Lemma yields_guard {A} (b : bool) e (d : Decoder A) Q :
  (b = false → yields d Q) → yields (if b then fail e else d) Q.
Proof. destruct b; intros H; [done|by apply H]. Qed.

Lemma yields_many {A} n (d : Decoder A) P :
  yields d P → yields (dec_many n d) (λ l, Forall P l ∧ length l = n).
Proof.
  intros Hd. induction n as [|n IH]; simpl; [by apply yields_ret|].
  eapply yields_bind; [exact Hd|]. intros x Hx.
  eapply yields_bind; [exact IH|]. intros l [Hl Hn].
  apply yields_ret. split; [by constructor|simpl; lia].
Qed.

Section CborTyping.
Context `{M : Minicbor} {L : MinicborLaws M}.

Lemma yields_dec {A} (d : bytes → option (A * bytes)) P :
  (∀ s x r, d s = Some (x, r) → P x) → yields (dec d) P.
Proof. intros Hd s x r Hs. apply ok_or_Ok in Hs. eauto. Qed.

Lemma yields_u64 : yields (dec dec_u64) (is_u 64).
Proof. apply yields_dec. apply dec_u64_range. Qed.
Lemma yields_u16 : yields (dec dec_u16) (is_u 16).
Proof. apply yields_dec. apply dec_u16_range. Qed.
Lemma yields_i64 : yields (dec dec_i64) is_i64.
Proof. apply yields_dec. apply dec_i64_range. Qed.
Lemma yields_str : yields (dec dec_str) (λ s, utf8_valid s = true).
Proof. apply yields_dec. apply dec_str_utf8. Qed.

Lemma yields_fixed_bytes n : yields (fixed_bytes n) (λ b, length b = n).
Proof.
  eapply yields_bind; [apply yields_any|]. intros b _. case_bool_decide; [|done].
  by apply yields_ret.
Qed.

Lemma yields_expect_array maximum :
  yields (expect_array maximum) (λ n, Z.of_nat n ≤ Z.max 0 maximum).
Proof.
  eapply yields_bind; [apply yields_any|]. intros [n|] _; [|done].
  destruct (Z.leb_spec n maximum); [|done]. apply yields_ret. lia.
Qed.

Lemma yields_optional_hash : yields optional_hash opt_hash_wf.
Proof.
  intros s x r. unfold optional_hash. destruct (dec_datatype s) as [[]|]; try done.
  - by apply (yields_bind (dec dec_null) _ (λ _, True)); [|intros; apply yields_ret].
  - apply (yields_bind (fixed_bytes 32) _ (λ b, length b = 32%nat));
      [apply yields_fixed_bytes|intros; by apply yields_ret].
Qed.

Ltac yields_leaf :=
  first [ apply yields_u64 | apply yields_u16 | apply yields_i64 | apply yields_str
        | apply yields_fixed_bytes | apply yields_optional_hash
        | apply yields_expect_array | eapply yields_many; eassumption
        | apply yields_many, yields_fixed_bytes | apply yields_any ].

Ltac yields_step :=
  cbn beta;
  lazymatch goal with
  | |- yields (mret _) _ => apply yields_ret
  | |- yields (if _ then fail _ else _) _ => apply yields_guard; intros ?
  | |- yields (_ ≫= _) _ => eapply yields_bind; [yields_leaf|intros ? ?]
  end.
Ltac solve_yields := repeat yields_step; simpl in *; destruct_and?; rewrite ?Z.ltb_ge in *.

Lemma yields_online_key : yields decode_online_key OnlineKeyV1_wf.
Proof. unfold decode_online_key. solve_yields. by split. Qed.

Lemma yields_pin : yields decode_pin ServerPinV2_wf.
Proof. unfold decode_pin. solve_yields. by split. Qed.

Lemma yields_endpoint :
  yields decode_endpoint (λ e, RealityEndpointV2_wf e ∧ endpoint_bounded e).
Proof. unfold decode_endpoint. solve_yields. split; by split. Qed.

Lemma yields_service : yields decode_service (λ s, ServiceV2_wf s ∧ service_bounded s).
Proof.
  pose proof yields_pin. pose proof yields_endpoint. unfold decode_service. solve_yields.
  rewrite Forall_and in *. destruct_and?. split; [by split|].
  repeat split; simpl; unfold len; unfold_bounds; try done; lia.
Qed.

Lemma yields_rule :
  yields decode_rule (λ r, PolicyRuleV2_wf r ∧ len (rule_service_ids r) ≤ MAX_SERVICES).
Proof.
  unfold decode_rule. solve_yields. split; [done|]. simpl. unfold len. unfold_bounds. lia.
Qed.

Lemma yields_keyset_fields :
  yields decode_keyset_fields (λ k, KeysetV1_wf k ∧ len (ks_keys k) ≤ MAX_KEYSET_KEYS).
Proof.
  pose proof yields_online_key. unfold decode_keyset_fields. solve_yields.
  split; [by split|]. simpl. unfold len. unfold_bounds. lia.
Qed.

Lemma yields_policy_fields :
  yields decode_policy_fields (λ p, EndpointPolicyV2_wf p ∧ rules_bounded p).
Proof.
  pose proof yields_service. pose proof yields_rule. unfold decode_policy_fields.
  solve_yields. rewrite !Forall_and in *. destruct_and?. split; [by split|done].
Qed.
End CborTyping.

(** ** The bounds checks of the encoders *)

Lemma check_endpoint_bounds_Ok e : check_endpoint_bounds () e = Ok () ↔ endpoint_bounded e.
Proof.
  unfold check_endpoint_bounds, endpoint_bounded. rewrite !if_err_Ok, !Z.ltb_ge. naive_solver.
Qed.

Lemma check_endpoints_Ok l :
  fold_res check_endpoint_bounds () l = Ok () ↔ Forall endpoint_bounded l.
Proof.
  induction l as [|e l IH]; [by split|]. simpl. rewrite Forall_cons, <- IH, bind_Ok.
  split.
  - intros ([] & ? & ?). by rewrite <- check_endpoint_bounds_Ok.
  - intros [? ?]. exists (). by rewrite check_endpoint_bounds_Ok.
Qed.

Lemma check_service_bounds_Ok t s t' : 0 ≤ t ≤ MAX_TOTAL_ENDPOINTS →
  check_service_bounds t s = Ok t' ↔
  service_bounded s ∧ t' = t + len (svc_endpoints s) ∧ t' ≤ MAX_TOTAL_ENDPOINTS.
Proof.
  intros Ht. unfold check_service_bounds, service_bounded.
  rewrite !if_err_Ok, !Z.ltb_ge, bind_Ok. split.
  - intros (? & ? & total & Hadd & H). apply ok_or_Ok, u64_checked_add_Some in Hadd as [-> _].
    apply if_err_Ok in H as [Hle H]. apply bind_Ok in H as ([] & He & [= <-]).
    apply Z.ltb_ge in Hle. apply check_endpoints_Ok in He. done.
  - intros ((? & ? & He) & -> & Hle). split; [done|]. split; [done|].
    eexists. split.
    { apply ok_or_Ok, u64_checked_add_Some. unfold_bounds. split; [done|lia]. }
    rewrite if_err_Ok, Z.ltb_ge. split; [done|].
    apply check_endpoints_Ok in He. by rewrite He.
Qed.

Lemma total_endpoints_nonneg l : 0 ≤ total_endpoints l.
Proof. induction l as [|s l IH]; simpl; [done|]. pose proof (len_nonneg (svc_endpoints s)). lia. Qed.

Lemma check_services_Ok l : ∀ t t', 0 ≤ t ≤ MAX_TOTAL_ENDPOINTS →
  fold_res check_service_bounds t l = Ok t' ↔
  Forall service_bounded l ∧ t' = t + total_endpoints l ∧ t' ≤ MAX_TOTAL_ENDPOINTS.
Proof.
  induction l as [|s l IH]; intros t t' Ht; simpl.
  { split; [intros [= <-]; split_and!; [done|lia|lia]|].
    intros (_ & -> & _). f_equal. lia. }
  pose proof (len_nonneg (svc_endpoints s)). pose proof (total_endpoints_nonneg l).
  rewrite Forall_cons, bind_Ok. split.
  - intros (t1 & H1 & H2). apply check_service_bounds_Ok in H1 as (? & -> & ?); [|done].
    apply IH in H2 as (? & -> & ?); [|lia]. split_and!; [done|done|lia|lia].
  - intros ([? ?] & -> & ?). exists (t + len (svc_endpoints s)).
    rewrite check_service_bounds_Ok, IH by lia. split_and!; try done; lia.
Qed.

Lemma check_endpoints_Err l e : fold_res check_endpoint_bounds () l = Err e → e = Invalid.
Proof.
  induction l as [|x l IH]; simpl; [done|]. rewrite bind_Err. intros [H|([] & _ & H)]; [|eauto].
  unfold check_endpoint_bounds in H. repeat case_match; congruence.
Qed.

Lemma check_services_Err l e : ∀ t, fold_res check_service_bounds t l = Err e → e = Invalid.
Proof.
  induction l as [|s l IH]; intros t; simpl; [done|].
  rewrite bind_Err. intros [H|(t' & _ & H)]; [|eauto]. unfold check_service_bounds in H.
  rewrite !if_err_Err, bind_Err, ok_or_Err in H.
  destruct H as [[_ ->]|[_ [[_ ->]|[_ [[_ ->]|(total & _ & H)]]]]]; try done.
  rewrite if_err_Err, bind_Err in H.
  destruct H as [[_ ->]|[_ [H|(? & _ & H)]]]; [done|by eapply check_endpoints_Err|done].
Qed.

(** ** Encoded sizes *)

Lemma len_flat_map_le {A} (f : A → bytes) c l :
  Forall (λ x, len (f x) ≤ c) l → len (flat_map f l) ≤ c * len l.
Proof.
  induction 1 as [|x l Hx _ IH]; simpl; [rewrite !len_nil, Z.mul_0_r; lia|].
  rewrite len_app, len_cons, Z.mul_add_distr_l. lia.
Qed.

(** Replaces the length of each encoded item by a bounded variable. *)
Ltac bound_items :=
  repeat match goal with
  | |- context [len (enc_u8 ?n)] =>
      pose proof (enc_u8_size n ltac:(emits_side)); generalize dependent (len (enc_u8 n)); intros
  | |- context [len (enc_u16 ?n)] =>
      pose proof (enc_u16_size n ltac:(emits_side)); generalize dependent (len (enc_u16 n)); intros
  | |- context [len (enc_u64 ?n)] =>
      pose proof (enc_u64_size n ltac:(emits_side)); generalize dependent (len (enc_u64 n)); intros
  | |- context [len (enc_i64 ?n)] =>
      pose proof (enc_i64_size n ltac:(emits_side)); generalize dependent (len (enc_i64 n)); intros
  | |- context [len (enc_map ?n)] =>
      pose proof (enc_map_size n ltac:(emits_side)); generalize dependent (len (enc_map n)); intros
  | |- context [len (enc_array ?n)] =>
      pose proof (enc_array_size n ltac:(emits_side)); generalize dependent (len (enc_array n)); intros
  | |- context [len (enc_bytes ?n)] =>
      pose proof (enc_bytes_size n ltac:(emits_side)); generalize dependent (len (enc_bytes n)); intros
  | |- context [len (enc_str ?n)] =>
      pose proof (enc_str_size n ltac:(emits_side)); generalize dependent (len (enc_str n)); intros
  end.

Section CborSizes.
Context `{M : Minicbor} {L : MinicborLaws M}.

Lemma encode_online_key_size k : OnlineKeyV1_wf k → len (encode_online_key k) ≤ 123.
Proof.
  intros [? ? ? ? ?]. unfold encode_online_key. rewrite !len_app. bound_items.
  unfold len in *. lia.
Qed.

Lemma encode_pin_size p : ServerPinV2_wf p → len (encode_pin p) ≤ 89.
Proof.
  intros [? ? ? ?]. unfold encode_pin. rewrite !len_app. bound_items. unfold len in *. lia.
Qed.

Lemma encode_endpoint_size e :
  RealityEndpointV2_wf e → endpoint_bounded e → len (encode_endpoint e) ≤ 650.
Proof.
  intros [? ? ? ? ? ?] (? & ? & ?). unfold encode_endpoint. rewrite !len_app. bound_items.
  unfold_bounds. unfold len in *. lia.
Qed.

Lemma encode_optional_hash_size h : opt_hash_wf h → len (encode_optional_hash h) ≤ 41.
Proof.
  destruct h as [h|]; simpl; intros Hh.
  - bound_items. unfold len in *. lia.
  - pose proof enc_null_size. lia.
Qed.

Lemma fixed_list_size n l : (n ≤ 64)%nat → Forall (λ b, length b = n) l →
  len (flat_map enc_bytes l) ≤ (9 + Z.of_nat n) * len l.
Proof.
  intros Hn Hl. apply len_flat_map_le. eapply Forall_impl; [exact Hl|].
  intros b Hb. simpl. bound_items. unfold len in *. lia.
Qed.

Lemma encode_service_size s : ServiceV2_wf s → service_bounded s →
  len (encode_service s) ≤ 325 + 650 * len (svc_endpoints s).
Proof.
  intros [? Hp He] (? & ? & Hb). unfold encode_service. rewrite !len_app.
  assert (len (flat_map encode_pin (svc_pins s)) ≤ 89 * len (svc_pins s)).
  { apply len_flat_map_le. eapply Forall_impl; [exact Hp|]. apply encode_pin_size. }
  assert (len (flat_map encode_endpoint (svc_endpoints s)) ≤ 650 * len (svc_endpoints s)).
  { apply len_flat_map_le. eapply Forall_impl2; [exact He|exact Hb|]. apply encode_endpoint_size. }
  bound_items. unfold_bounds. unfold len in *. lia.
Qed.

Lemma encode_services_size l : Forall ServiceV2_wf l → Forall service_bounded l →
  len (flat_map encode_service l) ≤ 325 * len l + 650 * total_endpoints l.
Proof.
  induction 1 as [|s l Hs _ IH]; intros Hb; simpl; [done|]. apply Forall_cons in Hb as [? ?].
  rewrite len_app, len_cons. pose proof (encode_service_size s). intuition lia.
Qed.

Lemma encode_rule_size r : PolicyRuleV2_wf r → len (rule_service_ids r) ≤ MAX_SERVICES →
  len (encode_rule r) ≤ 424.
Proof.
  unfold PolicyRuleV2_wf. intros Hr Hl. unfold encode_rule. rewrite !len_app.
  pose proof (fixed_list_size 16 _ ltac:(lia) Hr).
  pose proof (len_nonneg (rule_service_ids r)).
  bound_items. unfold_bounds. lia.
Qed.

Lemma keyset_payload_size k : KeysetV1_wf k → len (ks_keys k) ≤ MAX_KEYSET_KEYS →
  len (keyset_payload_bytes k) ≤ MAX_SIGN1_BYTES.
Proof.
  intros [? ? ? ? Hp Hk] Hl. unfold keyset_payload_bytes. rewrite !len_app.
  assert (len (flat_map encode_online_key (ks_keys k)) ≤ 123 * len (ks_keys k)).
  { apply len_flat_map_le. eapply Forall_impl; [exact Hk|]. apply encode_online_key_size. }
  pose proof (encode_optional_hash_size _ Hp). pose proof (len_nonneg (ks_keys k)).
  bound_items. unfold_bounds. lia.
Qed.

Lemma policy_payload_size p : EndpointPolicyV2_wf p → policy_bounded p → rules_bounded p →
  len (policy_payload_bytes p) ≤ MAX_SIGN1_BYTES.
Proof.
  intros [? ? ? ? ? ? ? Hp Hs Hr He] [? ? ? Hbs ?] Hbr. unfold policy_payload_bytes.
  rewrite !len_app.
  pose proof (encode_services_size _ Hs Hbs).
  assert (len (flat_map encode_rule (pol_rules p)) ≤ 424 * len (pol_rules p)).
  { apply len_flat_map_le. eapply Forall_impl2; [exact Hr|exact Hbr|]. apply encode_rule_size. }
  pose proof (fixed_list_size 32 _ ltac:(lia) He).
  pose proof (encode_optional_hash_size _ Hp).
  pose proof (len_nonneg (pol_services p)). pose proof (len_nonneg (pol_rules p)).
  pose proof (len_nonneg (pol_experiment_evidence p)).
  bound_items. unfold_bounds. unfold len in *. lia.
Qed.
End CborSizes.

(** ** Main theorems *)

Section CborMain.
Context `{M : Minicbor} {L : MinicborLaws M}.

Lemma finish_Ok rest : finish rest = Ok () ↔ rest = [].
Proof. destruct rest; simpl; naive_solver. Qed.

Lemma ensure_canonical_Ok actual canonical what :
  ensure_canonical actual canonical what = Ok () ↔ actual = canonical.
Proof. unfold ensure_canonical. case_bool_decide; naive_solver. Qed.

(** Runs an [emits] fact on an input with nothing after the value. *)
Lemma emits_all {A} (d : Decoder A) e x : emits d e x → d e = Ok (x, []).
Proof. intros H. specialize (H []). by rewrite app_nil_r in H. Qed.

(** What every top-level decoder of this file does: size guard, field reads, nothing
    left over, byte-for-byte re-encoding. *)
Lemma strict_decode_Ok {A} (d : Decoder A) (encode : A → result PolicyError bytes)
    input bound err what x :
  (if bound <? len input then Err err else
   '(value, rest) ← d input;
   _ ← finish rest;
   canonical ← encode value;
   _ ← ensure_canonical input canonical what;
   Ok value) = Ok x ↔
  len input ≤ bound ∧ d input = Ok (x, []) ∧ encode x = Ok input.
Proof.
  rewrite if_err_Ok, Z.ltb_ge, bind_Ok. split.
  - intros (? & [v rest] & Hd & H).
    apply bind_Ok in H as ([] & ->%finish_Ok & H). apply bind_Ok in H as (c & Hc & H).
    apply bind_Ok in H as ([] & ->%ensure_canonical_Ok & H). by simplify_eq.
  - intros (? & Hd & He). split; [done|]. exists (x, []). split; [done|]. simpl.
    rewrite He. simpl. by rewrite (proj2 (ensure_canonical_Ok _ _ _)).
Qed.

Lemma encode_keyset_payload_Ok k b : encode_keyset_payload k = Ok b ↔
  len (ks_keys k) ≤ MAX_KEYSET_KEYS ∧ len b ≤ MAX_SIGN1_BYTES ∧ b = keyset_payload_bytes k.
Proof.
  unfold encode_keyset_payload. rewrite !if_err_Ok, !Z.ltb_ge. naive_solver.
Qed.

Lemma encode_policy_payload_Ok p b : encode_policy_payload p = Ok b ↔
  policy_bounded p ∧ len b ≤ MAX_SIGN1_BYTES ∧ b = policy_payload_bytes p.
Proof.
  unfold encode_policy_payload. rewrite !if_err_Ok, !Z.ltb_ge, bind_Ok. split.
  - intros (? & ? & ? & t & Ht & H). apply check_services_Ok in Ht as (? & -> & ?); [|done].
    rewrite if_err_Ok, Z.ltb_ge in H. destruct H as [? [= <-]]. split; [|done].
    by split.
  - intros ([? ? ? ? ?] & ? & ->). split_and!; [done..|].
    exists (total_endpoints (pol_services p)). rewrite check_services_Ok by done.
    split; [done|]. by rewrite if_err_Ok, Z.ltb_ge.
Qed.

Lemma encode_bundle_Ok x b : encode_bundle x = Ok b ↔
  len (keyset_sign1 x) ≤ MAX_SIGN1_BYTES ∧ len (policy_sign1 x) ≤ MAX_SIGN1_BYTES
  ∧ len b ≤ MAX_BUNDLE_BYTES ∧ b = bundle_bytes x.
Proof. unfold encode_bundle. rewrite !if_err_Ok, !Z.ltb_ge. naive_solver. Qed.

Lemma decode_keyset_payload_Ok input k :
  decode_keyset_payload input = Ok k ↔ KeysetV1_wf k ∧ encode_keyset_payload k = Ok input.
Proof.
  unfold decode_keyset_payload. rewrite strict_decode_Ok. split.
  - intros (_ & Hd & He). split; [|done]. by apply yields_keyset_fields in Hd as [? _].
  - intros [Hwf He]. assert (He' := He). apply encode_keyset_payload_Ok in He as (? & ? & ->).
    split_and!; [done| |done]. by apply emits_all, emits_keyset_fields.
Qed.

Lemma decode_policy_payload_Ok input p :
  decode_policy_payload input = Ok p ↔
  EndpointPolicyV2_wf p ∧ rules_bounded p ∧ encode_policy_payload p = Ok input.
Proof.
  unfold decode_policy_payload. rewrite strict_decode_Ok. split.
  - intros (_ & Hd & He). by apply yields_policy_fields in Hd as [? ?].
  - intros (Hwf & Hr & He). assert (He' := He).
    apply encode_policy_payload_Ok in He as (? & ? & ->).
    split_and!; [done| |done]. by apply emits_all, emits_policy_fields.
Qed.

Lemma decode_bundle_Ok input x : decode_bundle input = Ok x ↔ encode_bundle x = Ok input.
Proof.
  unfold decode_bundle. rewrite strict_decode_Ok. split; [naive_solver|].
  intros He. assert (He' := He). apply encode_bundle_Ok in He as (? & ? & ? & ->).
  split_and!; [done| |done]. by apply emits_all, emits_bundle_fields.
Qed.

Lemma encode_keyset_in_bounds k : KeysetV1_wf k → len (ks_keys k) ≤ MAX_KEYSET_KEYS →
  encode_keyset_payload k = Ok (keyset_payload_bytes k).
Proof.
  intros. apply encode_keyset_payload_Ok. split_and!; [done|by apply keyset_payload_size|done].
Qed.

Lemma encode_policy_in_bounds p :
  EndpointPolicyV2_wf p → policy_bounded p → rules_bounded p →
  encode_policy_payload p = Ok (policy_payload_bytes p).
Proof.
  intros. apply encode_policy_payload_Ok. split_and!; [done|by apply policy_payload_size|done].
Qed.

(** Keyset payloads round-trip and the encoder is total: a well-formed keyset with at
    most sixteen keys encodes and the encoding decodes to the same keyset; with more keys
    the encoder rejects with [Invalid].  The 60 KiB guard never fires. *)
Theorem keyset_payload_roundtrip (k : KeysetV1) :
  KeysetV1_wf k →
  if bool_decide (len (ks_keys k) ≤ MAX_KEYSET_KEYS)
  then ∃ b, encode_keyset_payload k = Ok b ∧ decode_keyset_payload b = Ok k
  else encode_keyset_payload k = Err Invalid.
Proof.
  intros Hwf. case_bool_decide as Hl.
  - exists (keyset_payload_bytes k). pose proof (encode_keyset_in_bounds k Hwf Hl).
    split; [done|]. by apply decode_keyset_payload_Ok.
  - unfold encode_keyset_payload. by rewrite (proj2 (Z.ltb_lt _ _)) by lia.
Qed.

(** Policy payloads round-trip and the encoder is total: a well-formed policy whose
    rule lists at most sixteen services either is within the schema bounds (services,
    pins, endpoints per service and in total, name and short-id lengths, evidence), and
    then encodes to bytes that decode to the same policy, or is rejected with [Invalid].
    The 60 KiB guard never fires. *)
Theorem policy_payload_roundtrip (p : EndpointPolicyV2) :
  EndpointPolicyV2_wf p → rules_bounded p →
  (policy_bounded p
     ∧ ∃ b, encode_policy_payload p = Ok b ∧ decode_policy_payload b = Ok p)
  ∨ (¬ policy_bounded p ∧ encode_policy_payload p = Err Invalid).
Proof.
  intros Hwf Hr. destruct (encode_policy_payload p) as [b|e] eqn:He.
  - left. split; [by apply encode_policy_payload_Ok in He as (? & _)|].
    exists b. split; [done|]. by apply decode_policy_payload_Ok.
  - right. assert (¬ policy_bounded p) as Hn.
    { intros Hb. by rewrite encode_policy_in_bounds in He. }
    split; [done|]. unfold encode_policy_payload in He.
    rewrite !if_err_Err, bind_Err in He.
    destruct He as [[_ ->]|[H1 [[_ ->]|[H2 [[_ ->]|[H3 [He|(t & Ht & _)]]]]]]]; [done..| |].
    { by apply check_services_Err in He as ->. }
    destruct Hn. apply check_services_Ok in Ht as (? & -> & ?); [|done].
    rewrite Z.ltb_ge in *. by split.
Qed.

(** Accepted payloads are canonical: whatever bytes the keyset, policy or bundle
    decoder accepts are the encoding of the value it returns, so no value has two
    accepted encodings, and the value is well formed and within the schema bounds. *)
Theorem accepted_payloads_canonical (input : bytes) :
  (∀ k, decode_keyset_payload input = Ok k →
     input = keyset_payload_bytes k ∧ KeysetV1_wf k ∧ len (ks_keys k) ≤ MAX_KEYSET_KEYS)
  ∧ (∀ p, decode_policy_payload input = Ok p →
     input = policy_payload_bytes p ∧ EndpointPolicyV2_wf p ∧ policy_bounded p
     ∧ rules_bounded p)
  ∧ (∀ x, decode_bundle input = Ok x →
     input = bundle_bytes x ∧ len (keyset_sign1 x) ≤ MAX_SIGN1_BYTES
     ∧ len (policy_sign1 x) ≤ MAX_SIGN1_BYTES).
Proof.
  split_and!.
  - intros k [? (? & ? & ?)%encode_keyset_payload_Ok]%decode_keyset_payload_Ok. done.
  - intros p (? & ? & (? & ? & ?)%encode_policy_payload_Ok)%decode_policy_payload_Ok. done.
  - intros x (? & ? & ? & ?)%decode_bundle_Ok%encode_bundle_Ok. done.
Qed.

End CborMain.

(** ** Concrete values, evaluated with the RFC 8949 codec *)

Module Sample.
Import Rfc8949.

Definition str (s : string) : bytes := String.list_byte_of_string s.

Definition key : OnlineKeyV1 :=
  mkOnlineKeyV1 (replicate 16 Byte.x01) (replicate 32 Byte.x02) 1000 500000 KeyActive 1000.
Definition keyset : KeysetV1 := mkKeysetV1 0 1000 1000 500000 None [key].
Definition pin : ServerPinV2 :=
  mkServerPinV2 (replicate 32 Byte.x03) 1000 500000 PinActive 1000.
Definition endpoint : RealityEndpointV2 :=
  mkRealityEndpointV2 (replicate 16 Byte.x04) RealityTcp (bz <$> [203; 0; 113; 7]) 443
    (str "vpn.example") (str "www.example") (replicate 32 Byte.x05) (replicate 8 Byte.x06).
Definition service : ServiceV2 := mkServiceV2 (replicate 16 Byte.x07) [pin] [endpoint].
Definition policy_with (ids : list ServiceId) : EndpointPolicyV2 :=
  mkEndpointPolicyV2 0 (replicate 32 Byte.x08) 0 0 1000 1000 400000 None [service]
    [mkPolicyRuleV2 ProtectedOnly ids] [].
Definition policy : EndpointPolicyV2 := policy_with [replicate 16 Byte.x07].
Definition policy_too_many_ids : EndpointPolicyV2 :=
  policy_with (replicate 17 (replicate 16 Byte.x07)).
Definition bundle : BundleBytes :=
  mkBundleBytes (replicate 40 Byte.x09) (replicate 300 Byte.x0a).

Ltac wf_side :=
  repeat first [ split | constructor | done ];
  unfold is_i64, is_u, len; unfold_bounds; simpl; try (lia || done).

Lemma keyset_wf : KeysetV1_wf keyset.
Proof. wf_side. Qed.
Lemma policy_wf : EndpointPolicyV2_wf policy.
Proof. wf_side. Qed.
Lemma policy_bounds : policy_bounded policy ∧ rules_bounded policy.
Proof. wf_side. Qed.
Lemma policy_too_many_ids_wf : EndpointPolicyV2_wf policy_too_many_ids.
Proof. wf_side. Qed.

Lemma keyset_payload_roundtrip_witness :
  ∃ b, encode_keyset_payload keyset = Ok b ∧ decode_keyset_payload b = Ok keyset.
Proof. exact (keyset_payload_roundtrip keyset keyset_wf). Defined.

Lemma policy_payload_roundtrip_witness :
  ∃ b, encode_policy_payload policy = Ok b ∧ decode_policy_payload b = Ok policy.
Proof.
  destruct (policy_payload_roundtrip policy policy_wf (proj2 policy_bounds)) as [[_ H]|[H _]].
  - exact H.
  - destruct (H (proj1 policy_bounds)).
Defined.

Lemma accepted_payloads_canonical_witness :
  decode_keyset_payload (keyset_payload_bytes keyset) = Ok keyset
  ∧ keyset_payload_bytes keyset = keyset_payload_bytes keyset ∧ KeysetV1_wf keyset
  ∧ len (ks_keys keyset) ≤ MAX_KEYSET_KEYS.
Proof.
  assert (decode_keyset_payload (keyset_payload_bytes keyset) = Ok keyset) as H
    by (vm_compute; reflexivity).
  split; [exact H|].
  exact (proj1 (accepted_payloads_canonical (keyset_payload_bytes keyset)) keyset H).
Defined.

(** The encoder does not bound a rule's service list, the decoder does: a
    well-formed policy within every bound the encoder checks encodes, and the decoder
    rejects the result. *)
Theorem rule_service_list_not_bounded_by_encoder :
  EndpointPolicyV2_wf policy_too_many_ids ∧ policy_bounded policy_too_many_ids
  ∧ encode_policy_payload policy_too_many_ids = Ok (policy_payload_bytes policy_too_many_ids)
  ∧ decode_policy_payload (policy_payload_bytes policy_too_many_ids) = Err Invalid.
Proof.
  split_and!; [apply policy_too_many_ids_wf|wf_side|vm_compute; reflexivity..].
Qed.

End Sample.
