(* ===== verification/PolicyCose.v ===== *)
(** * Signed endpoint policy: the COSE_Sign1 envelope

    Models [shadowpipe-core/src/signed_policy/cose.rs]: the one protected-header
    profile, the canonical envelope, the bytes that are signed and signature
    verification.  Ed25519 ([ring]) is the parameter [ed25519_verify].  The
    theorems show that the envelope has one accepted encoding, that the signed
    bytes determine header and payload, and that verification returns a payload
    exactly when the input is the canonical envelope of that payload under the
    expected content type and key id with a signature the key verifies. *)

From S2P Require Import Prelude Minicbor PolicySchema PolicyCbor.

(** The signature primitive of the [ring] crate. *)
Class Ed25519 := {
  ed25519_verify : Ed25519PublicKey → bytes → bytes → bool;
}.

Definition COSE_SIGN1_TAG : Z := 210.
Definition COSE_EDDSA : Z := -8.
Definition PRIVATE_SCHEMA_LABEL : Z := 1001.
Definition PRIVATE_SCHEMA_VERSION : Z := 1.
Definition SIGNATURE_LEN : nat := 64.

Definition ascii_bytes (s : string) : bytes := String.list_byte_of_string s.

Definition KEYSET_CONTENT_TYPE : bytes :=
  ascii_bytes "application/shadowpipe-keyset+cbor;v=1".
Definition POLICY_CONTENT_TYPE : bytes :=
  ascii_bytes "application/shadowpipe-endpoint-policy+cbor;v=2".
Definition LEGACY_POLICY_CONTENT_TYPE_V1 : bytes :=
  ascii_bytes "application/shadowpipe-endpoint-policy+cbor;v=1".

Inductive ContentType := CtKeyset | CtEndpointPolicy.

#[export] Instance ContentType_eq_dec : EqDecision ContentType.
Proof. solve_decision. Defined.

Definition ContentType_as_str (c : ContentType) : bytes :=
  match c with CtKeyset => KEYSET_CONTENT_TYPE | CtEndpointPolicy => POLICY_CONTENT_TYPE end.

Definition ContentType_from_str (value : bytes) : result PolicyError ContentType :=
  if bool_decide (value = KEYSET_CONTENT_TYPE) then Ok CtKeyset
  else if bool_decide (value = POLICY_CONTENT_TYPE) then Ok CtEndpointPolicy
  else if bool_decide (value = LEGACY_POLICY_CONTENT_TYPE_V1) then Err Invalid
  else Err Invalid.

Record ProtectedHeader := mkProtectedHeader {
  hdr_content_type : ContentType;
  hdr_kid : Kid;
}.

Record ParsedSign1 := mkParsedSign1 {
  s1_protected : bytes;
  s1_header : ProtectedHeader;
  s1_payload : bytes;
  s1_signature : bytes;
}.

(** A call that does not read from the decoder. *)
Definition lift {A} (m : result PolicyError A) : Decoder A :=
  λ s, match m with Ok a => Ok (a, s) | Err e => Err e end.

Section Cose.
Context `{M : Minicbor}.

(** [dec(decoder.array())?.ok_or(..)?] followed by the exact count check. *)
Definition expect_array_exact (expected : Z) : Decoder () :=
  n ← dec dec_array;
  match n with
  | Some actual => if negb (actual =? expected) then fail Invalid else mret ()
  | None => fail Invalid
  end.

Definition encode_protected_header (header : ProtectedHeader) : bytes :=
  enc_map 5 ++
  enc_u8 1 ++ enc_i8 COSE_EDDSA ++
  enc_u8 2 ++ enc_array 1 ++ enc_u16 PRIVATE_SCHEMA_LABEL ++
  enc_u8 3 ++ enc_str (ContentType_as_str (hdr_content_type header)) ++
  enc_u8 4 ++ enc_bytes (hdr_kid header) ++
  enc_u16 PRIVATE_SCHEMA_LABEL ++ enc_u8 PRIVATE_SCHEMA_VERSION.

Definition decode_header_fields : Decoder ProtectedHeader :=
  _ ← expect_map 5;
  _ ← expect_key 1;
  alg ← dec dec_i64;
  if negb (alg =? COSE_EDDSA) then fail Invalid else
  _ ← expect_key 2;
  _ ← expect_array_exact 1;
  critical_label ← dec dec_u64;
  if negb (critical_label =? PRIVATE_SCHEMA_LABEL) then fail Invalid else
  _ ← expect_key 3;
  raw_content_type ← dec dec_str;
  content_type ← lift (ContentType_from_str raw_content_type);
  _ ← expect_key 4;
  kid ← fixed_bytes 16;
  label ← dec dec_u64;
  if negb (label =? PRIVATE_SCHEMA_LABEL) then fail Invalid else
  schema ← dec dec_u64;
  if negb (schema =? PRIVATE_SCHEMA_VERSION) then fail Invalid else
  mret (mkProtectedHeader content_type kid).

Definition decode_protected_header (input : bytes) : result PolicyError ProtectedHeader :=
  '(header, rest) ← decode_header_fields input;
  _ ← finish rest;
  if bool_decide (input ≠ encode_protected_header header)
  then Err (NonCanonical "COSE protected header")
  else Ok header.

Definition signature_bytes (protected payload : bytes) : bytes :=
  enc_array 4 ++
  enc_str (ascii_bytes "Signature1") ++
  enc_bytes protected ++
  enc_bytes [] ++
  enc_bytes payload.

Definition signature_structure (protected payload : bytes) : result PolicyError bytes :=
  parts_len ← ok_or (u64_checked_add (len protected) (len payload)) Invalid;
  if MAX_SIGN1_BYTES <? parts_len
  then Err (TooLarge "COSE signature input" parts_len MAX_SIGN1_BYTES)
  else Ok (signature_bytes protected payload).

(** The envelope after the tag byte. *)
Definition sign1_body (protected payload signature : bytes) : bytes :=
  enc_array 4 ++
  enc_bytes protected ++
  enc_map 0 ++
  enc_bytes payload ++
  enc_bytes signature.

Definition encode_sign1 (protected payload signature : bytes) : result PolicyError bytes :=
  parts_len ← ok_or (u64_checked_add (len protected) (len payload)) Invalid;
  if MAX_SIGN1_BYTES <? parts_len
  then Err (TooLarge "COSE_Sign1 input" parts_len MAX_SIGN1_BYTES) else
  _ ← decode_protected_header protected;
  let output := bz COSE_SIGN1_TAG :: sign1_body protected payload signature in
  if MAX_SIGN1_BYTES <? len output
  then Err (TooLarge "COSE_Sign1" (len output) MAX_SIGN1_BYTES)
  else Ok output.

Definition inspect_fields : Decoder ParsedSign1 :=
  _ ← expect_array_exact 4;
  protected ← dec dec_bytes;
  header ← lift (decode_protected_header protected);
  _ ← expect_map 0;
  payload ← dec dec_bytes;
  signature ← fixed_bytes SIGNATURE_LEN;
  mret (mkParsedSign1 protected header payload signature).

Definition inspect_sign1 (input : bytes) : result PolicyError ParsedSign1 :=
  if MAX_SIGN1_BYTES <? len input
  then Err (TooLarge "COSE_Sign1" (len input) MAX_SIGN1_BYTES) else
  match input with
  | [] => Err Invalid
  | tag :: body =>
      if bool_decide (tag ≠ bz COSE_SIGN1_TAG) then Err Invalid else
      '(parsed, rest) ← inspect_fields body;
      _ ← finish rest;
      again ← encode_sign1 (s1_protected parsed) (s1_payload parsed) (s1_signature parsed);
      if bool_decide (input ≠ again) then Err (NonCanonical "COSE_Sign1")
      else Ok parsed
  end.

Definition verify_sign1 `{E : Ed25519} (input : bytes) (expected_content_type : ContentType)
    (expected_kid : Kid) (public_key : Ed25519PublicKey) : result PolicyError bytes :=
  parsed ← inspect_sign1 input;
  if bool_decide (hdr_content_type (s1_header parsed) ≠ expected_content_type)
  then Err Invalid else
  if bool_decide (hdr_kid (s1_header parsed) ≠ expected_kid) then Err Invalid else
  to_verify ← signature_structure (s1_protected parsed) (s1_payload parsed);
  if negb (ed25519_verify public_key to_verify (s1_signature parsed))
  then Err Signature
  else Ok (s1_payload parsed).

End Cose.

(** ** Theory *)

Lemma ContentType_from_as c : ContentType_from_str (ContentType_as_str c) = Ok c.
Proof. destruct c; vm_compute; reflexivity. Qed.

Lemma ContentType_as_str_inj c1 c2 : ContentType_as_str c1 = ContentType_as_str c2 → c1 = c2.
Proof.
  intros Hc. pose proof (ContentType_from_as c1) as H1. rewrite Hc, ContentType_from_as in H1.
  by injection H1.
Qed.

Lemma ContentType_from_str_Ok v c : ContentType_from_str v = Ok c ↔ v = ContentType_as_str c.
Proof.
  split; [|intros ->; apply ContentType_from_as].
  unfold ContentType_from_str. repeat case_bool_decide; intros [= <-]; done.
Qed.

Lemma emits_lift {A} (m : result PolicyError A) x : m = Ok x → emits (lift m) [] x.
Proof. intros -> r. done. Qed.

Lemma emits_bind_lift {A B} (m : result PolicyError A) (k : A → Decoder B) e x y :
  m = Ok x → emits (k x) e y → emits (lift m ≫= k) e y.
Proof. intros -> Hk r. apply Hk. Qed.

Lemma yields_lift {A} (m : result PolicyError A) P : (∀ x, m = Ok x → P x) → yields (lift m) P.
Proof. intros HP s x r. unfold lift. destruct m; [|done]. intros [= <- <-]. eauto. Qed.

Section CoseTheory.
Context `{M : Minicbor} {L : MinicborLaws M}.

Lemma emits_array_exact n : is_u 64 n → emits (expect_array_exact n) (enc_array n) ().
Proof.
  intros. eapply emits_bind_last.
  { apply emits_dec. intros. by apply dec_array_enc_array. }
  simpl. by rewrite Z.eqb_refl.
Qed.

Lemma emits_u64_u16 n : is_u 16 n → emits (dec dec_u64) (enc_u16 n) n.
Proof. intros. apply emits_dec. intros. by apply dec_u64_enc_u16. Qed.

Lemma emits_i8 n : -128 ≤ n < 128 → emits (dec dec_i64) (enc_i8 n) n.
Proof. intros. apply emits_dec. intros. by apply dec_i64_enc_i8. Qed.

Lemma ContentType_as_str_ok c :
  utf8_valid (ContentType_as_str c) = true ∧ is_u 64 (len (ContentType_as_str c)).
Proof. destruct c; split; vm_compute; try reflexivity; by split. Qed.

Ltac cose_step :=
  cbn beta;
  lazymatch goal with
  | |- emits (lift _ ≫= _) _ _ => eapply emits_bind_lift; [eassumption|]
  | |- emits (expect_array_exact _ ≫= _) _ _ =>
      eapply emits_bind; [apply emits_array_exact; emits_side|]
  | |- emits (dec dec_u64 ≫= _) (enc_u16 _ ++ _) _ =>
      eapply emits_bind; [apply emits_u64_u16; emits_side|]
  | |- emits (dec dec_i64 ≫= _) (enc_i8 _ ++ _) _ =>
      eapply emits_bind; [apply emits_i8; emits_side|]
  | |- _ => emits_step
  end.

Lemma emits_header_fields h :
  length (hdr_kid h) = 16%nat → emits decode_header_fields (encode_protected_header h) h.
Proof.
  intros Hk. destruct h as [ct kid]. unfold decode_header_fields, encode_protected_header.
  simpl in *. pose proof (ContentType_from_as ct). destruct (ContentType_as_str_ok ct).
  unfold COSE_EDDSA, PRIVATE_SCHEMA_LABEL, PRIVATE_SCHEMA_VERSION.
  repeat cose_step.
Qed.

Lemma yields_header_fields : yields decode_header_fields (λ h, length (hdr_kid h) = 16%nat).
Proof.
  unfold decode_header_fields.
  repeat (cbn beta; first
    [ apply yields_guard; intros _
    | apply yields_ret; assumption
    | apply (yields_bind (fixed_bytes 16) _ _ _ (yields_fixed_bytes 16)); intros ? ?
    | eapply yields_bind; [apply yields_any|intros ? _] ]).
Qed.

Lemma decode_protected_header_Ok input h :
  decode_protected_header input = Ok h ↔
  length (hdr_kid h) = 16%nat ∧ input = encode_protected_header h.
Proof.
  unfold decode_protected_header. rewrite bind_Ok. split.
  - intros ([h' rest] & Hd & H). apply bind_Ok in H as ([] & ->%finish_Ok & H).
    apply yields_header_fields in Hd. case_bool_decide as Hc; [done|].
    injection H as ->. split; [done|]. done.
  - intros [Hk ->]. exists (h, []). split; [by apply emits_all, emits_header_fields|].
    simpl. by rewrite bool_decide_eq_false_2 by (intros Hne; by apply Hne).
Qed.

Lemma signature_structure_Ok protected payload b :
  signature_structure protected payload = Ok b ↔
  len protected + len payload ≤ MAX_SIGN1_BYTES ∧ b = signature_bytes protected payload.
Proof.
  unfold signature_structure. rewrite bind_Ok. split.
  - intros (n & Hn%ok_or_Ok%u64_checked_add_Some & H).
    apply if_err_Ok in H as [H%Z.ltb_ge [= <-]]. split; [lia|done].
  - intros [Hle ->]. eexists. split.
    { apply ok_or_Ok, u64_checked_add_Some. unfold_bounds. split; [done|lia]. }
    by rewrite if_err_Ok, Z.ltb_ge.
Qed.

Lemma encode_sign1_Ok protected payload signature b :
  encode_sign1 protected payload signature = Ok b ↔
  len protected + len payload ≤ MAX_SIGN1_BYTES
  ∧ is_ok (decode_protected_header protected) = true
  ∧ len b ≤ MAX_SIGN1_BYTES
  ∧ b = bz COSE_SIGN1_TAG :: sign1_body protected payload signature.
Proof.
  unfold encode_sign1. rewrite bind_Ok. split.
  - intros (n & Hn%ok_or_Ok%u64_checked_add_Some & H).
    apply if_err_Ok in H as [H1%Z.ltb_ge H]. apply bind_Ok in H as (h & Hh & H).
    apply if_err_Ok in H as [H2%Z.ltb_ge [= <-]]. rewrite Hh. split_and!; [lia|done..].
  - intros (Hle & Hh & Hl & ->). eexists. split.
    { apply ok_or_Ok, u64_checked_add_Some. unfold_bounds. split; [done|lia]. }
    rewrite if_err_Ok, Z.ltb_ge. split; [done|].
    destruct (decode_protected_header protected); [|done]. simpl.
    by rewrite if_err_Ok, Z.ltb_ge.
Qed.

Lemma emits_inspect_fields p :
  decode_protected_header (s1_protected p) = Ok (s1_header p) →
  length (s1_signature p) = SIGNATURE_LEN →
  len (s1_protected p) + len (s1_payload p) ≤ MAX_SIGN1_BYTES →
  emits inspect_fields (sign1_body (s1_protected p) (s1_payload p) (s1_signature p)) p.
Proof.
  intros Hh Hs Hl. destruct p as [prot hdr pay sig]. simpl in *.
  pose proof (len_nonneg prot). pose proof (len_nonneg pay).
  unfold inspect_fields, sign1_body, SIGNATURE_LEN in *. repeat cose_step.
Qed.

Lemma yields_inspect_fields : yields inspect_fields (λ p,
  decode_protected_header (s1_protected p) = Ok (s1_header p)
  ∧ length (s1_signature p) = SIGNATURE_LEN).
Proof.
  unfold inspect_fields.
  repeat (cbn beta; first
    [ apply yields_ret; by split
    | eapply yields_bind; [apply yields_fixed_bytes|intros ? ?]
    | eapply yields_bind; [apply yields_lift; intros ? Hx; exact Hx|intros ? ?]
    | eapply yields_bind; [apply yields_any|intros ? _] ]).
Qed.

Lemma inspect_sign1_Ok input p :
  inspect_sign1 input = Ok p ↔
  decode_protected_header (s1_protected p) = Ok (s1_header p)
  ∧ length (s1_signature p) = SIGNATURE_LEN
  ∧ encode_sign1 (s1_protected p) (s1_payload p) (s1_signature p) = Ok input.
Proof.
  unfold inspect_sign1. rewrite if_err_Ok, Z.ltb_ge. split.
  - intros [_ H]. destruct input as [|tag body]; [done|].
    case_bool_decide as Htag; [done|]. subst tag.
    apply bind_Ok in H as ([p' rest] & Hd & H). apply bind_Ok in H as ([] & ->%finish_Ok & H).
    apply bind_Ok in H as (again & Ha & H). case_bool_decide as Hc; [done|].
    injection H as ->. subst again.
    by apply yields_inspect_fields in Hd as [? ?].
  - intros (Hh & Hs & He). assert (He' := He).
    apply encode_sign1_Ok in He as (Hl & _ & Hlen & ->). split; [done|].
    rewrite bool_decide_eq_false_2 by (intros Hne; by apply Hne).
    rewrite (emits_all _ _ p) by (by apply emits_inspect_fields). simpl.
    rewrite He'. simpl. by rewrite bool_decide_eq_false_2 by (intros Hne; by apply Hne).
Qed.

(** A decoder for the signed bytes; it is not part of the program and only serves to
    show that they determine the header and the payload. *)
Definition read_signature_bytes : Decoder (bytes * bytes) :=
  _ ← expect_array_exact 4;
  _ ← dec dec_str;
  protected ← dec dec_bytes;
  _ ← dec dec_bytes;
  payload ← dec dec_bytes;
  mret (protected, payload).

Lemma emits_signature_bytes protected payload :
  len protected + len payload ≤ MAX_SIGN1_BYTES →
  emits read_signature_bytes (signature_bytes protected payload) (protected, payload).
Proof.
  intros Hl. pose proof (len_nonneg protected). pose proof (len_nonneg payload).
  assert (utf8_valid (ascii_bytes "Signature1") = true) by done.
  unfold read_signature_bytes, signature_bytes. repeat cose_step.
Qed.

(** The signed bytes are unambiguous: two envelopes whose signature structures
    coincide have the same protected header and the same payload. *)
Theorem signature_structure_injective (protected1 payload1 protected2 payload2 b : bytes) :
  signature_structure protected1 payload1 = Ok b →
  signature_structure protected2 payload2 = Ok b →
  protected1 = protected2 ∧ payload1 = payload2.
Proof.
  intros [Hl1 ->]%signature_structure_Ok [Hl2 Hb]%signature_structure_Ok.
  pose proof (emits_all _ _ _ (emits_signature_bytes _ _ Hl1)) as H1.
  pose proof (emits_all _ _ _ (emits_signature_bytes _ _ Hl2)) as H2.
  rewrite Hb, H2 in H1. by injection H1 as -> ->.
Qed.

(** The canonical envelope of [payload] with a signature that [pk] verifies over the
    signature structure of that very header and payload. *)
Definition signed_envelope `{E : Ed25519} (ct : ContentType) (kid : Kid)
    (pk : Ed25519PublicKey) (payload sig envelope : bytes) : Prop :=
  let protected := encode_protected_header (mkProtectedHeader ct kid) in
  length kid = 16%nat ∧ length sig = SIGNATURE_LEN
  ∧ encode_sign1 protected payload sig = Ok envelope
  ∧ ed25519_verify pk (signature_bytes protected payload) sig = true.

Lemma verify_sign1_Ok `{E : Ed25519} input payload ct kid pk :
  verify_sign1 input ct kid pk = Ok payload ↔
  ∃ sig, signed_envelope ct kid pk payload sig input.
Proof.
  unfold verify_sign1. rewrite bind_Ok. split.
  - intros (p & Hp & H). apply inspect_sign1_Ok in Hp as (Hh & Hs & He).
    case_bool_decide; [done|]. case_bool_decide; [done|].
    apply bind_Ok in H as (tbs & [_ ->]%signature_structure_Ok & H).
    destruct (ed25519_verify _ _ _) eqn:Hv; [|done]. injection H as <-.
    apply decode_protected_header_Ok in Hh as [Hk Hp].
    destruct p as [prot [ct' kid'] pay sig]; simpl in *; subst. by exists sig.
  - intros (sig & Hk & Hs & He & Hv).
    set (hdr := mkProtectedHeader ct kid). fold hdr in He, Hv.
    exists (mkParsedSign1 (encode_protected_header hdr) hdr payload sig).
    rewrite inspect_sign1_Ok, decode_protected_header_Ok. simpl. split; [done|].
    rewrite !bool_decide_eq_false_2 by (intros Hne; by apply Hne). simpl.
    apply encode_sign1_Ok in He as (Hl & _).
    rewrite (proj2 (signature_structure_Ok _ _ _) (conj Hl eq_refl)). simpl.
    by rewrite Hv.
Qed.

(** Envelopes are canonical and round-trip: the inspector returns exactly the parts
    whose canonical encoding is the input, with a 64-byte signature and a protected
    header of the one supported profile. *)
Theorem inspect_sign1_iff (input : bytes) (ct : ContentType) (kid : Kid)
    (protected payload sig : bytes) :
  inspect_sign1 input = Ok (mkParsedSign1 protected (mkProtectedHeader ct kid) payload sig) ↔
  length kid = 16%nat ∧ length sig = SIGNATURE_LEN
  ∧ protected = encode_protected_header (mkProtectedHeader ct kid)
  ∧ len protected + len payload ≤ MAX_SIGN1_BYTES
  ∧ len input ≤ MAX_SIGN1_BYTES
  ∧ input = bz COSE_SIGN1_TAG :: sign1_body protected payload sig.
Proof.
  rewrite inspect_sign1_Ok, encode_sign1_Ok. simpl. split.
  - intros ([? ?]%decode_protected_header_Ok & ? & ? & ? & ? & ?). by split_and!.
  - intros (? & ? & ? & ? & ? & ?).
    assert (decode_protected_header protected = Ok (mkProtectedHeader ct kid)) as Hh
      by (by apply decode_protected_header_Ok).
    split_and!; [done..| |done|done]. by rewrite Hh.
Qed.

End CoseTheory.

(** ** Concrete envelopes *)

Module CoseSample.
Import Rfc8949.

(** A toy signature scheme: the signature repeats the key's first byte. *)
#[export] Instance toy_ed25519 : Ed25519 := {|
  ed25519_verify pk msg sig :=
    match pk with b :: _ => bool_decide (sig = replicate 64 b) | [] => false end;
|}.

Definition kid : Kid := replicate 16 Byte.x01.
Definition pk : Ed25519PublicKey := replicate 32 Byte.x02.
Definition header : bytes := encode_protected_header (mkProtectedHeader CtKeyset kid).
Definition payload : bytes := keyset_payload_bytes Sample.keyset.
Definition envelope : bytes :=
  bz COSE_SIGN1_TAG :: sign1_body header payload (replicate 64 Byte.x02).

Lemma signature_structure_injective_witness :
  ∃ b, signature_structure header payload = Ok b
       ∧ signature_structure header payload = Ok b
       ∧ (header = header ∧ payload = payload).
Proof.
  exists (signature_bytes header payload).
  assert (signature_structure header payload = Ok (signature_bytes header payload)) as H
    by (vm_compute; reflexivity).
  split; [exact H|]. split; [exact H|].
  exact (signature_structure_injective header payload header payload _ H H).
Defined.

Lemma inspect_sign1_witness :
  inspect_sign1 envelope =
    Ok (mkParsedSign1 header (mkProtectedHeader CtKeyset kid) payload (replicate 64 Byte.x02)).
Proof.
  apply (inspect_sign1_iff envelope CtKeyset kid header payload (replicate 64 Byte.x02)).
  split_and!; try (vm_compute; reflexivity); vm_compute; discriminate.
Defined.

End CoseSample.
