(* ===== verification/PolicyPlan.v ===== *)
(** * Signed endpoint policy: the verified connection plan

    Models [shadowpipe-core/src/signed_policy/plan.rs] and the constant-time
    comparison [ct_eq] of [shadowpipe-core/src/crypto/mod.rs].  A plan flattens
    the services of a policy into endpoints that carry their service's pin set in
    a fixed three-slot array.  The theorems show that pin matching is membership
    in the signed pin set and that a plan lists exactly the signed endpoints, each
    with the pins of its own service. *)

From S2P Require Import Prelude Minicbor PolicySchema PolicyCbor.

(** ** Constant-time equality *)

Definition ct_eq (a b : bytes) : bool :=
  if negb (len a =? len b) then false else
  foldl (λ diff '(x, y), Z.lor diff (Z.lxor (bv x) (bv y))) 0 (zip a b) =? 0.

(** ** Plan *)

Record VerifiedServerPins := mkVerifiedServerPins {
  vsp_fingerprints : list MlKemFingerprint;
  vsp_len : Z;
}.

Definition zero_array (n : nat) : bytes := replicate n Byte.x00.

Definition VerifiedServerPins_new (pins : list MlKemFingerprint)
  : result PolicyError VerifiedServerPins :=
  if bool_decide (pins = []) || (MAX_PINS_PER_SERVICE <? len pins) then Err Invalid else
  Ok (mkVerifiedServerPins
        (pins ++ replicate (Z.to_nat MAX_PINS_PER_SERVICE - length pins) (zero_array 32))
        (len pins)).

Definition pins_as_slice (v : VerifiedServerPins) : list MlKemFingerprint :=
  take (Z.to_nat (vsp_len v)) (vsp_fingerprints v).

(** [matched |= ct_eq(..) as u8] over every slot, without an early return. *)
Definition pins_matches (v : VerifiedServerPins) (candidate : MlKemFingerprint) : bool :=
  negb (foldl (λ matched fp, Z.lor matched (Z.b2z (ct_eq fp candidate))) 0
          (pins_as_slice v) =? 0).

Record VerifiedRealityEndpoint := mkVerifiedRealityEndpoint {
  vre_service_id : ServiceId;
  vre_endpoint_id : EndpointId;
  vre_socket_addr : bytes * Z;
  vre_locator_name : bytes;
  vre_sni : bytes;
  vre_reality_x25519_public_key : bytes;
  vre_reality_short_id : bytes;
  vre_reality_short_id_len : Z;
  vre_server_pins : VerifiedServerPins;
}.

(** The accessor [reality_short_id()]. *)
Definition reality_short_id (e : VerifiedRealityEndpoint) : bytes :=
  take (Z.to_nat (vre_reality_short_id_len e)) (vre_reality_short_id e).

Record VerifiedRealityPlan := mkVerifiedRealityPlan {
  vrp_policy_epoch : Z;
  vrp_sequence : Z;
  vrp_expires_at : Z;
  vrp_endpoints : list VerifiedRealityEndpoint;
}.

(** One iteration of the inner loop of [build_verified_plan]; the slice copy panics when
    the short id is longer than the array. *)
Definition build_endpoint (service : ServiceV2) (server_pins : VerifiedServerPins)
    (endpoints : list VerifiedRealityEndpoint) (endpoint : RealityEndpointV2)
  : result PolicyError (list VerifiedRealityEndpoint) :=
  if MAX_SHORT_ID_BYTES <? len (ep_reality_short_id endpoint) then Err Panicked else
  let short_id := ep_reality_short_id endpoint ++
    zero_array (Z.to_nat MAX_SHORT_ID_BYTES - length (ep_reality_short_id endpoint)) in
  Ok (endpoints ++
      [mkVerifiedRealityEndpoint (svc_service_id service) (ep_endpoint_id endpoint)
         (ep_ipv4 endpoint, ep_port endpoint) (ep_locator_name endpoint) (ep_sni endpoint)
         (ep_reality_x25519_public_key endpoint) short_id
         (len (ep_reality_short_id endpoint)) server_pins]).

Definition build_service (endpoints : list VerifiedRealityEndpoint) (service : ServiceV2)
  : result PolicyError (list VerifiedRealityEndpoint) :=
  server_pins ← VerifiedServerPins_new (pin_fingerprint <$> svc_pins service);
  fold_res (build_endpoint service server_pins) endpoints (svc_endpoints service).

Definition build_verified_plan (policy : EndpointPolicyV2)
  : result PolicyError VerifiedRealityPlan :=
  endpoints ← fold_res build_service [] (pol_services policy);
  Ok (mkVerifiedRealityPlan (pol_policy_epoch policy) (pol_sequence policy)
        (pol_expires_at policy) endpoints).

(** ** What a plan means *)

(** The observable content of a plan endpoint. *)
Record EndpointView := mkEndpointView {
  view_service : ServiceId;
  view_endpoint : RealityEndpointV2;
  view_pins : list MlKemFingerprint;
}.

Definition endpoint_view (e : VerifiedRealityEndpoint) : EndpointView :=
  mkEndpointView (vre_service_id e)
    (mkRealityEndpointV2 (vre_endpoint_id e) RealityTcp (fst (vre_socket_addr e))
       (snd (vre_socket_addr e)) (vre_locator_name e) (vre_sni e)
       (vre_reality_x25519_public_key e) (reality_short_id e))
    (pins_as_slice (vre_server_pins e)).

(** What the policy signs for connection attempts. *)
Definition service_views (s : ServiceV2) : list EndpointView :=
  (λ e, mkEndpointView (svc_service_id s) e (pin_fingerprint <$> svc_pins s)) <$> svc_endpoints s.

Definition policy_views (p : EndpointPolicyV2) : list EndpointView :=
  flat_map service_views (pol_services p).

(** A service a plan can be built from. *)
Definition service_plannable (s : ServiceV2) : Prop :=
  svc_pins s ≠ [] ∧ len (svc_pins s) ≤ MAX_PINS_PER_SERVICE
  ∧ Forall (λ e, len (ep_reality_short_id e) ≤ MAX_SHORT_ID_BYTES) (svc_endpoints s).

(** ** Constant-time equality is equality *)

Lemma ct_eq_diff_zero l d : 0 ≤ d →
  foldl (λ diff '(x, y), Z.lor diff (Z.lxor (bv x) (bv y))) d l = 0 ↔
  d = 0 ∧ Forall (λ '(x, y), x = y) l.
Proof.
  revert d; induction l as [|[x y] l IH]; intros d Hd; simpl; [naive_solver|].
  pose proof (bv_range x). pose proof (bv_range y).
  assert (0 ≤ Z.lxor (bv x) (bv y)) by (apply Z.lxor_nonneg; lia).
  rewrite IH by (apply Z.lor_nonneg; lia). rewrite Forall_cons, Z.lor_eq_0_iff, Z.lxor_eq_0_iff.
  split; [|naive_solver]. intros [[-> Hxy%byte.unsigned_inj] ?]. done.
Qed.

Lemma ct_eq_spec a b : ct_eq a b = true ↔ a = b.
Proof.
  unfold ct_eq, len. destruct (Z.eqb_spec (Z.of_nat (length a)) (Z.of_nat (length b))) as [Hl|Hl];
    simpl; [|split; [done|intros ->; done]].
  rewrite Z.eqb_eq, ct_eq_diff_zero by done. apply Nat2Z.inj in Hl.
  split; [|intros ->; split; [done|]].
  - intros [_ Hf]. revert b Hl Hf. induction a as [|x a IH]; intros [|y b] Hl Hf; try done.
    simpl in *. apply Forall_cons in Hf as [-> Hf]. f_equal. apply IH; [lia|done].
  - clear Hl. induction b as [|y b IH]; simpl; by constructor.
Qed.

Lemma pins_match_fold l c m : 0 ≤ m →
  foldl (λ matched fp, Z.lor matched (Z.b2z (ct_eq fp c))) m l = 0 ↔ m = 0 ∧ c ∉ l.
Proof.
  revert m; induction l as [|fp l IH]; intros m Hm; simpl.
  { split; [|naive_solver]. intros ->. split; [done|apply not_elem_of_nil]. }
  assert (0 ≤ Z.b2z (ct_eq fp c)) by (destruct (ct_eq fp c); done).
  rewrite IH by (apply Z.lor_nonneg; lia). rewrite Z.lor_eq_0_iff, not_elem_of_cons.
  pose proof (ct_eq_spec fp c). destruct (ct_eq fp c); simpl; naive_solver.
Qed.

Lemma VerifiedServerPins_new_Ok pins v : VerifiedServerPins_new pins = Ok v →
  pins ≠ [] ∧ len pins ≤ MAX_PINS_PER_SERVICE ∧ pins_as_slice v = pins.
Proof.
  unfold VerifiedServerPins_new. case_bool_decide; [done|]. simpl.
  destruct (Z.ltb_spec MAX_PINS_PER_SERVICE (len pins)); [done|]. intros [= <-].
  split_and!; [done..|]. unfold pins_as_slice, len. simpl. by rewrite Nat2Z.id, take_app_length.
Qed.

Lemma VerifiedServerPins_new_total pins : pins ≠ [] → len pins ≤ MAX_PINS_PER_SERVICE →
  ∃ v, VerifiedServerPins_new pins = Ok v ∧ pins_as_slice v = pins.
Proof.
  intros Hne Hl. destruct (VerifiedServerPins_new pins) as [v|e] eqn:Hv.
  - exists v. by apply VerifiedServerPins_new_Ok in Hv as (_ & _ & ?).
  - unfold VerifiedServerPins_new in Hv. rewrite bool_decide_eq_false_2 in Hv by done.
    simpl in Hv. rewrite (proj2 (Z.ltb_ge _ _)) in Hv by done. done.
Qed.

(** A server key fingerprint matches a verified pin set exactly when it is one of the
    pins the set was built from: the padding slots of the fixed array never match. *)
Theorem pins_matches_iff (pins : list MlKemFingerprint) (v : VerifiedServerPins)
    (candidate : MlKemFingerprint) :
  VerifiedServerPins_new pins = Ok v → (pins_matches v candidate = true ↔ candidate ∈ pins).
Proof.
  intros (_ & _ & Hs)%VerifiedServerPins_new_Ok. unfold pins_matches.
  rewrite Hs, negb_true_iff, Z.eqb_neq, pins_match_fold by done.
  destruct (decide (candidate ∈ pins)); naive_solver.
Qed.

(** ** The plan is the policy *)

Lemma build_endpoint_view service v l e :
  len (ep_reality_short_id e) ≤ MAX_SHORT_ID_BYTES →
  ∃ x, build_endpoint service v l e = Ok (l ++ [x])
       ∧ endpoint_view x = mkEndpointView (svc_service_id service) e (pins_as_slice v).
Proof.
  intros Hl. unfold build_endpoint. rewrite (proj2 (Z.ltb_ge _ _)) by done.
  eexists. split; [done|]. unfold endpoint_view, reality_short_id, len. simpl.
  rewrite Nat2Z.id, take_app_length. by destruct e as [? []].
Qed.

Lemma build_endpoints_views service v es l :
  Forall (λ e, len (ep_reality_short_id e) ≤ MAX_SHORT_ID_BYTES) es →
  ∃ l', fold_res (build_endpoint service v) l es = Ok l'
        ∧ endpoint_view <$> l' = (endpoint_view <$> l) ++
            ((λ e, mkEndpointView (svc_service_id service) e (pins_as_slice v)) <$> es).
Proof.
  intros Hes. revert l. induction Hes as [|e es He _ IH]; intros l; simpl.
  { exists l. by rewrite app_nil_r. }
  destruct (build_endpoint_view service v l e He) as (x & -> & Hx). simpl.
  destruct (IH (l ++ [x])) as (l' & -> & Hl'). exists l'. split; [done|].
  rewrite Hl', fmap_app, <- app_assoc. simpl. by rewrite Hx.
Qed.

Lemma build_service_views s l : service_plannable s →
  ∃ l', build_service l s = Ok l'
        ∧ endpoint_view <$> l' = (endpoint_view <$> l) ++ service_views s.
Proof.
  intros (Hne & Hl & He). unfold build_service.
  destruct (VerifiedServerPins_new_total (pin_fingerprint <$> svc_pins s)) as (v & -> & Hv).
  { by intros ?%fmap_nil_inv. }
  { unfold len in *. by rewrite length_fmap. }
  simpl. destruct (build_endpoints_views s v (svc_endpoints s) l He) as (l1 & -> & Hl1).
  exists l1. by rewrite Hl1, Hv.
Qed.

Lemma build_services_views ss l : Forall service_plannable ss →
  ∃ l', fold_res build_service l ss = Ok l'
        ∧ endpoint_view <$> l' = (endpoint_view <$> l) ++ flat_map service_views ss.
Proof.
  intros Hss. revert l. induction Hss as [|s ss Hs _ IH]; intros l; simpl.
  { exists l. by rewrite app_nil_r. }
  destruct (build_service_views s l Hs) as (l1 & -> & Hl1). simpl.
  destruct (IH l1) as (l' & -> & Hl'). exists l'. split; [done|].
  by rewrite Hl', Hl1, <- app_assoc.
Qed.

Lemma build_verified_plan_views p : Forall service_plannable (pol_services p) →
  ∃ plan, build_verified_plan p = Ok plan
    ∧ vrp_policy_epoch plan = pol_policy_epoch p
    ∧ vrp_sequence plan = pol_sequence p
    ∧ vrp_expires_at plan = pol_expires_at p
    ∧ endpoint_view <$> vrp_endpoints plan = policy_views p.
Proof.
  intros Hs. unfold build_verified_plan.
  destruct (build_services_views _ [] Hs) as (l & -> & Hl). by eexists.
Qed.

(** A plan that was built lists exactly what the policy signs. *)
Lemma build_verified_plan_view p plan : build_verified_plan p = Ok plan →
  endpoint_view <$> vrp_endpoints plan = policy_views p.
Proof.
  intros Hp. enough (Forall service_plannable (pol_services p)) as Hs.
  { destruct (build_verified_plan_views p Hs) as (plan' & Hp' & _ & _ & _ & Hv). congruence. }
  unfold build_verified_plan in Hp. apply bind_Ok in Hp as (es & Hes & _). apply Forall_forall.
  revert Hes. apply (fold_res_ind build_service (λ pre _, ∀ s, s ∈ pre → service_plannable s)).
  { intros s H. by apply not_elem_of_nil in H. }
  intros pre s t t' _ IH H x [?| ->%list_elem_of_singleton]%elem_of_app; [by apply IH|].
  unfold build_service in H. apply bind_Ok in H as (v & (Hne & Hl & _)%VerifiedServerPins_new_Ok & H).
  split_and!; [by intros Hn; rewrite Hn in Hne|unfold len in *; by rewrite length_fmap in Hl|].
  apply Forall_forall. revert H.
  apply (fold_res_ind _ (λ pre _, ∀ e, e ∈ pre → len (ep_reality_short_id e) ≤ MAX_SHORT_ID_BYTES)).
  { intros e H. by apply not_elem_of_nil in H. }
  intros pre' e t0 t1 _ IH' H x' [?| ->%list_elem_of_singleton]%elem_of_app; [by apply IH'|].
  unfold build_endpoint in H. by apply if_err_Ok in H as [?%Z.ltb_ge _].
Qed.

Lemma pins_matches_witness :
  ∃ v, VerifiedServerPins_new [replicate 32 Byte.x03] = Ok v
       ∧ (pins_matches v (zero_array 32) = true ↔ zero_array 32 ∈ [replicate 32 Byte.x03]).
Proof.
  eexists. split; [vm_compute; reflexivity|].
  apply (pins_matches_iff [replicate 32 Byte.x03] _ (zero_array 32)).
  vm_compute. reflexivity.
Defined.
