(* ===== verification/PolicyVerify.v ===== *)
(** * Signed endpoint policy: verification of a bundle

    Models [shadowpipe-core/src/signed_policy/verify.rs]: validity windows, the
    keyset and policy validators with their loops, and the bundle verifier that
    chains root signature, keyset, online signature and policy.  SHA-256, X25519
    and Ed25519 are parameters.  The validators are shown equivalent to
    declarative specifications, and a verified bundle is shown to carry every
    guarantee the connection planner relies on. *)

From S2P Require Import Prelude Minicbor PolicySchema PolicyCbor PolicyCose PolicyPlan.

(** The primitives of the [sha2] and [x25519_dalek] crates. *)
Class PolicyCrypto := {
  sha256 : bytes → bytes;
  x25519 : bytes → bytes → bytes;
}.

Definition KEYSET_HASH_DOMAIN : bytes := ascii_bytes "shadowpipe-keyset-v1" ++ [Byte.x00].
Definition POLICY_HASH_DOMAIN : bytes := ascii_bytes "shadowpipe-policy-v2" ++ [Byte.x00].
Definition ROOT_ID_DOMAIN : bytes := ascii_bytes "shadowpipe-policy-root-v1" ++ [Byte.x00].

Record VerifiedKeysetArtifact := mkVerifiedKeysetArtifact {
  vka_root_id : bytes;
  vka_keyset : KeysetV1;
  vka_payload_hash : bytes;
}.

Record VerifiedBundle := mkVerifiedBundle {
  vb_root_id : bytes;
  vb_keyset : KeysetV1;
  vb_policy : EndpointPolicyV2;
  vb_keyset_hash : bytes;
  vb_policy_hash : bytes;
  vb_signer_kid : Kid;
  vb_plan : VerifiedRealityPlan;
}.

Section Hashes.
Context `{C : PolicyCrypto}.

Definition domain_hash (domain payload : bytes) : bytes := sha256 (domain ++ payload).
Definition keyset_payload_hash (canonical_payload : bytes) : bytes :=
  domain_hash KEYSET_HASH_DOMAIN canonical_payload.
Definition policy_payload_hash (canonical_payload : bytes) : bytes :=
  domain_hash POLICY_HASH_DOMAIN canonical_payload.
Definition trusted_root_id (root : TrustedRoot) : bytes :=
  sha256 (ROOT_ID_DOMAIN ++ root_kid root ++ root_ed25519_public_key root).

(** [crate::reality::reality_public_key_is_contributory] *)
Definition reality_public_key_is_contributory (public_key : bytes) : bool :=
  negb (bool_decide (x25519 (replicate 32 (bz 165)) public_key = zero_array 32)).
End Hashes.

(** ** Windows and keysets *)

Definition validate_window (what : string) (issued_at not_before expires_at now maximum_ttl : Z)
  : result PolicyError () :=
  if (issued_at <? 0) || (not_before <? 0) || (expires_at <? 0) then Err Invalid else
  if (issued_at <? not_before) || (expires_at <=? issued_at) then Err Invalid else
  ttl ← ok_or (i64_checked_sub expires_at not_before) Invalid;
  if (ttl <=? 0) || (maximum_ttl <? ttl) then Err Invalid else
  if i64_saturating_add now MAX_CLOCK_SKEW_SECS <? issued_at then Err Invalid else
  if now <? not_before then Err (NotYetValid what) else
  if expires_at <=? now then Err (Expired what) else
  Ok ().

(** The loop variables of [validate_keyset]. *)
Record KeysetScan := mkKeysetScan {
  kscan_previous_kid : option Kid;
  kscan_public_keys : gset bytes;
  kscan_usable_active_key : bool;
}.

Definition validate_keyset_key (keyset : KeysetV1) (now : Z) (st : KeysetScan)
    (key : OnlineKeyV1) : result PolicyError KeysetScan :=
  if (match kscan_previous_kid st with
      | Some previous => bytes_leb (key_kid key) previous
      | None => false end) then Err Invalid else
  if bool_decide (key_ed25519_public_key key ∈ kscan_public_keys st) then Err Invalid else
  if bool_decide (key_ed25519_public_key key = zero_array 32) then Err Invalid else
  if (key_not_before key <? ks_not_before keyset) || (ks_expires_at keyset <? key_expires_at key)
  then Err Invalid else
  if key_expires_at key <=? key_not_before key then Err Invalid else
  if (key_status_since key <? key_not_before key) || (ks_issued_at keyset <? key_status_since key)
  then Err Invalid else
  Ok (mkKeysetScan (Some (key_kid key))
        ({[key_ed25519_public_key key]} ∪ kscan_public_keys st)
        (kscan_usable_active_key st
         || (bool_decide (key_status key = KeyActive)
             && (key_not_before key <=? now) && (now <? key_expires_at key)))).

Definition validate_keyset (keyset : KeysetV1) (now : Z) : result PolicyError () :=
  _ ← validate_window "online-key set" (ks_issued_at keyset) (ks_not_before keyset)
        (ks_expires_at keyset) now KEYSET_MAX_TTL_SECS;
  if bool_decide (ks_keys keyset = []) then Err Invalid else
  st ← fold_res (validate_keyset_key keyset now) (mkKeysetScan None ∅ false) (ks_keys keyset);
  if negb (kscan_usable_active_key st) then Err Invalid else
  Ok ().

(** ** DNS names *)

Definition is_ascii_uppercase (b : byte) : bool := (65 <=? bv b) && (bv b <=? 90).
Definition is_ascii_lowercase (b : byte) : bool := (97 <=? bv b) && (bv b <=? 122).
Definition is_ascii_digit (b : byte) : bool := (48 <=? bv b) && (bv b <=? 57).
Definition is_ascii_alphanumeric (b : byte) : bool :=
  is_ascii_uppercase b || is_ascii_lowercase b || is_ascii_digit b.
Definition is_dot (b : byte) : bool := bv b =? 46.
Definition is_dash (b : byte) : bool := bv b =? 45.

(** [str::split('.')] *)
Fixpoint split_dot (s : bytes) : list bytes :=
  match s with
  | [] => [[]]
  | b :: s =>
      if is_dot b then [] :: split_dot s
      else match split_dot s with
           | [] => [[b]]
           | l :: ls => (b :: l) :: ls
           end
  end.

Definition label_bad (label : bytes) : bool :=
  match label, last label with
  | first :: _, Some final =>
      (63 <? len label) || negb (is_ascii_alphanumeric first)
      || negb (is_ascii_alphanumeric final)
      || existsb (λ b, negb (is_ascii_lowercase b) && negb (is_ascii_digit b)
                       && negb (is_dash b)) label
  | _, _ => true
  end.

Definition validate_canonical_dns_name (value : bytes) : result PolicyError () :=
  if bool_decide (value = []) || (253 <? len value) || negb (forallb (λ b, bv b <? 128) value)
  then Err Invalid else
  if existsb is_ascii_uppercase value
     || (match last value with Some b => is_dot b | None => false end)
  then Err Invalid else
  let labels := split_dot value in
  if len labels <? 2 then Err Invalid else
  if existsb label_bad labels then Err Invalid else
  Ok ().

(** ** IPv4 address classes of [std::net::Ipv4Addr] *)

Definition octets (a : bytes) : list Z := bv <$> a.

Definition ipv4_special (a : bytes) : bool :=
  match octets a with
  | [o0; o1; o2; o3] =>
      ((o0 =? 0) && (o1 =? 0) && (o2 =? 0) && (o3 =? 0))
      || (o0 =? 127)
      || ((o0 =? 169) && (o1 =? 254))
      || ((224 <=? o0) && (o0 <=? 239))
      || ((o0 =? 255) && (o1 =? 255) && (o2 =? 255) && (o3 =? 255))
  | _ => false
  end.

(** ** Policies *)

Definition validate_pin (policy : EndpointPolicyV2) (st : option bytes * bool)
    (pin : ServerPinV2) : result PolicyError (option bytes * bool) :=
  let '(previous_fingerprint, has_active_pin) := st in
  if (match previous_fingerprint with
      | Some previous => bytes_leb (pin_fingerprint pin) previous
      | None => false end) then Err Invalid else
  if bool_decide (pin_fingerprint pin = zero_array 32) then Err Invalid else
  if (pol_not_before policy <? pin_not_before pin)
     || (pin_expires_at pin <? pol_expires_at policy) then Err Invalid else
  if (pin_expires_at pin <=? pin_not_before pin)
     || (pin_status_since pin <? pin_not_before pin)
     || (pol_issued_at policy <? pin_status_since pin) then Err Invalid else
  Ok (Some (pin_fingerprint pin),
      has_active_pin || bool_decide (pin_status pin = PinActive)).

(** (locator_name, ipv4, port, sni) *)
Abbreviation endpoint_tuple := (bytes * bytes * Z * bytes)%type (only parsing).

Definition tuple_of (e : RealityEndpointV2) : endpoint_tuple :=
  (ep_locator_name e, ep_ipv4 e, ep_port e, ep_sni e).

(** The loop variables of [validate_policy]. *)
Record PolicyScan := mkPolicyScan {
  pscan_previous_service_id : option ServiceId;
  pscan_service_ids : list ServiceId;
  pscan_endpoint_ids : gset bytes;
  pscan_endpoint_tuples : gset endpoint_tuple;
  pscan_total_endpoints : Z;
}.

(** The variables the endpoint loop changes. *)
Record EndpointScan := mkEndpointScan {
  escan_previous_endpoint_id : option EndpointId;
  escan_endpoint_ids : gset bytes;
  escan_endpoint_tuples : gset endpoint_tuple;
  escan_total_endpoints : Z;
}.

Section Verify.
Context `{C : PolicyCrypto}.

Definition validate_endpoint (st : EndpointScan) (endpoint : RealityEndpointV2)
  : result PolicyError EndpointScan :=
  if (match escan_previous_endpoint_id st with
      | Some previous => bytes_leb (ep_endpoint_id endpoint) previous
      | None => false end) then Err Invalid else
  if bool_decide (ep_endpoint_id endpoint ∈ escan_endpoint_ids st) then Err Invalid else
  let total_endpoints := escan_total_endpoints st + 1 in
  if MAX_TOTAL_ENDPOINTS <? total_endpoints then Err Invalid else
  if ep_port endpoint =? 0 then Err Invalid else
  if ipv4_special (ep_ipv4 endpoint) then Err Invalid else
  _ ← validate_canonical_dns_name (ep_locator_name endpoint);
  _ ← validate_canonical_dns_name (ep_sni endpoint);
  if negb (reality_public_key_is_contributory (ep_reality_x25519_public_key endpoint))
  then Err Invalid else
  if negb (len (ep_reality_short_id endpoint) =? MAX_SHORT_ID_BYTES) then Err Invalid else
  if bool_decide (tuple_of endpoint ∈ escan_endpoint_tuples st) then Err Invalid else
  Ok (mkEndpointScan (Some (ep_endpoint_id endpoint))
        ({[ep_endpoint_id endpoint]} ∪ escan_endpoint_ids st)
        ({[tuple_of endpoint]} ∪ escan_endpoint_tuples st)
        total_endpoints).

Definition validate_service (policy : EndpointPolicyV2) (st : PolicyScan) (service : ServiceV2)
  : result PolicyError PolicyScan :=
  if (match pscan_previous_service_id st with
      | Some previous => bytes_leb (svc_service_id service) previous
      | None => false end) then Err Invalid else
  if bool_decide (svc_pins service = []) then Err Invalid else
  '(_, has_active_pin) ← fold_res (validate_pin policy) (None, false) (svc_pins service);
  if negb has_active_pin then Err Invalid else
  if bool_decide (svc_endpoints service = []) then Err Invalid else
  est ← fold_res validate_endpoint
          (mkEndpointScan None (pscan_endpoint_ids st) (pscan_endpoint_tuples st)
             (pscan_total_endpoints st)) (svc_endpoints service);
  Ok (mkPolicyScan (Some (svc_service_id service))
        (pscan_service_ids st ++ [svc_service_id service])
        (escan_endpoint_ids est) (escan_endpoint_tuples est) (escan_total_endpoints est)).

(** [windows(2).any(|pair| pair[0] >= pair[1])] *)
Fixpoint unsorted_pair (l : list bytes) : bool :=
  match l with
  | a :: ((b :: _) as l') => bytes_leb b a || unsorted_pair l'
  | _ => false
  end.

Definition validate_policy (policy : EndpointPolicyV2) (now : Z) : result PolicyError () :=
  _ ← validate_window "endpoint policy" (pol_issued_at policy) (pol_not_before policy)
        (pol_expires_at policy) now POLICY_MAX_TTL_SECS;
  if bool_decide (pol_services policy = []) then Err Invalid else
  st ← fold_res (validate_service policy) (mkPolicyScan None [] ∅ ∅ 0) (pol_services policy);
  match pol_rules policy with
  | [rule] =>
      if negb (bool_decide (rule_service_ids rule = pscan_service_ids st)) then Err Invalid else
      if unsorted_pair (pol_experiment_evidence policy) then Err Invalid else
      Ok ()
  | _ => Err Invalid
  end.

Context `{M : Minicbor} `{E : Ed25519}.

Definition verify_keyset_artifact (sign1 : bytes) (root : TrustedRoot) (now : Z)
  : result PolicyError VerifiedKeysetArtifact :=
  if bool_decide (root_ed25519_public_key root = zero_array 32) then Err Invalid else
  payload ← verify_sign1 sign1 CtKeyset (root_kid root) (root_ed25519_public_key root);
  keyset ← decode_keyset_payload payload;
  _ ← validate_keyset keyset now;
  Ok (mkVerifiedKeysetArtifact (trusted_root_id root) keyset (keyset_payload_hash payload)).

Definition find_key (keyset : KeysetV1) (kid : Kid) : option OnlineKeyV1 :=
  List.find (λ key, bool_decide (key_kid key = kid)) (ks_keys keyset).

Definition verify_bundle (input : bytes) (root : TrustedRoot) (now : Z)
  : result PolicyError VerifiedBundle :=
  bundle ← decode_bundle input;
  verified_keyset ← verify_keyset_artifact (keyset_sign1 bundle) root now;
  let keyset := vka_keyset verified_keyset in
  let keyset_hash := vka_payload_hash verified_keyset in
  policy_envelope ← inspect_sign1 (policy_sign1 bundle);
  if bool_decide (hdr_content_type (s1_header policy_envelope) ≠ CtEndpointPolicy)
  then Err Invalid else
  let signer_kid := hdr_kid (s1_header policy_envelope) in
  signer ← ok_or (find_key keyset signer_kid) Invalid;
  if bool_decide (key_status signer ≠ KeyActive) then Err Invalid else
  if now <? key_not_before signer then Err (NotYetValid "policy signer key") else
  if key_expires_at signer <=? now then Err (Expired "policy signer key") else
  policy_payload ← verify_sign1 (policy_sign1 bundle) CtEndpointPolicy signer_kid
                     (key_ed25519_public_key signer);
  policy ← decode_policy_payload policy_payload;
  _ ← validate_policy policy now;
  if negb (pol_keyset_epoch policy =? ks_keyset_epoch keyset) then Err Invalid else
  if bool_decide (pol_keyset_payload_hash policy ≠ keyset_hash) then Err Invalid else
  if (pol_issued_at policy <? ks_issued_at keyset)
     || (pol_not_before policy <? ks_not_before keyset)
     || (ks_expires_at keyset <? pol_expires_at policy) then Err Invalid else
  if (pol_not_before policy <? key_not_before signer)
     || (key_expires_at signer <? pol_expires_at policy) then Err Invalid else
  let policy_hash := policy_payload_hash policy_payload in
  plan ← build_verified_plan policy;
  Ok (mkVerifiedBundle (vka_root_id verified_keyset) keyset policy keyset_hash policy_hash
        signer_kid plan).

End Verify.

(** ** Declarative specifications *)

Definition window_valid (issued_at not_before expires_at now maximum_ttl : Z) : Prop :=
  0 ≤ not_before ≤ issued_at ∧ issued_at < expires_at
  ∧ expires_at - not_before ≤ maximum_ttl
  ∧ issued_at ≤ now + MAX_CLOCK_SKEW_SECS
  ∧ not_before ≤ now < expires_at.

Definition key_valid (keyset : KeysetV1) (key : OnlineKeyV1) : Prop :=
  key_ed25519_public_key key ≠ zero_array 32
  ∧ ks_not_before keyset ≤ key_not_before key
  ∧ key_expires_at key ≤ ks_expires_at keyset
  ∧ key_not_before key < key_expires_at key
  ∧ key_not_before key ≤ key_status_since key ≤ ks_issued_at keyset.

Definition key_usable (now : Z) (key : OnlineKeyV1) : Prop :=
  key_status key = KeyActive ∧ key_not_before key ≤ now < key_expires_at key.

Record keyset_valid (keyset : KeysetV1) (now : Z) : Prop := {
  kv_window : window_valid (ks_issued_at keyset) (ks_not_before keyset)
                (ks_expires_at keyset) now KEYSET_MAX_TTL_SECS;
  kv_sorted : Sorted bytes_lt (key_kid <$> ks_keys keyset);
  kv_public : NoDup (key_ed25519_public_key <$> ks_keys keyset);
  kv_keys : Forall (key_valid keyset) (ks_keys keyset);
  kv_usable : Exists (key_usable now) (ks_keys keyset);
}.

Definition pin_valid (policy : EndpointPolicyV2) (pin : ServerPinV2) : Prop :=
  pin_fingerprint pin ≠ zero_array 32
  ∧ pin_not_before pin ≤ pol_not_before policy
  ∧ pol_expires_at policy ≤ pin_expires_at pin
  ∧ pin_not_before pin < pin_expires_at pin
  ∧ pin_not_before pin ≤ pin_status_since pin ≤ pol_issued_at policy.

Definition label_ok (l : bytes) : Prop :=
  1 ≤ len l ≤ 63
  ∧ Forall (λ b, is_ascii_lowercase b || is_ascii_digit b || is_dash b = true) l
  ∧ (∀ b, head l = Some b → is_dash b = false)
  ∧ (∀ b, last l = Some b → is_dash b = false).

(** Labels joined by dots. *)
Fixpoint join_dot (ls : list bytes) : bytes :=
  match ls with
  | [] => []
  | [l] => l
  | l :: ls => l ++ bz 46 :: join_dot ls
  end.

Definition canonical_dns_name (v : bytes) : Prop :=
  ∃ labels, v = join_dot labels ∧ 2 ≤ len labels ∧ len v ≤ 253 ∧ Forall label_ok labels.

Section Specs.
Context `{C : PolicyCrypto}.

Definition endpoint_valid (e : RealityEndpointV2) : Prop :=
  ep_port e ≠ 0
  ∧ ipv4_special (ep_ipv4 e) = false
  ∧ canonical_dns_name (ep_locator_name e)
  ∧ canonical_dns_name (ep_sni e)
  ∧ reality_public_key_is_contributory (ep_reality_x25519_public_key e) = true
  ∧ len (ep_reality_short_id e) = MAX_SHORT_ID_BYTES.

Record service_valid (policy : EndpointPolicyV2) (s : ServiceV2) : Prop := {
  sv_pins_sorted : Sorted bytes_lt (pin_fingerprint <$> svc_pins s);
  sv_pins : Forall (pin_valid policy) (svc_pins s);
  sv_active : Exists (λ p, pin_status p = PinActive) (svc_pins s);
  sv_endpoints_nonempty : svc_endpoints s ≠ [];
  sv_endpoints_sorted : Sorted bytes_lt (ep_endpoint_id <$> svc_endpoints s);
  sv_endpoints : Forall endpoint_valid (svc_endpoints s);
}.

Record policy_valid (policy : EndpointPolicyV2) (now : Z) : Prop := {
  pv_window : window_valid (pol_issued_at policy) (pol_not_before policy)
                (pol_expires_at policy) now POLICY_MAX_TTL_SECS;
  pv_services_nonempty : pol_services policy ≠ [];
  pv_services_sorted : Sorted bytes_lt (svc_service_id <$> pol_services policy);
  pv_services : Forall (service_valid policy) (pol_services policy);
  pv_endpoint_ids : NoDup (flat_map (λ s, ep_endpoint_id <$> svc_endpoints s)
                             (pol_services policy));
  pv_endpoint_tuples : NoDup (flat_map (λ s, tuple_of <$> svc_endpoints s)
                                (pol_services policy));
  pv_total : total_endpoints (pol_services policy) ≤ MAX_TOTAL_ENDPOINTS;
  pv_rule : ∃ r, pol_rules policy = [r]
                 ∧ rule_service_ids r = svc_service_id <$> pol_services policy;
  pv_evidence : Sorted bytes_lt (pol_experiment_evidence policy);
}.
End Specs.

(** ** Windows *)

Lemma validate_window_Ok what issued_at not_before expires_at now maximum_ttl :
  is_i64 expires_at → is_i64 now →
  validate_window what issued_at not_before expires_at now maximum_ttl = Ok () ↔
  window_valid issued_at not_before expires_at now maximum_ttl.
Proof.
  intros [_ He] [Hn _]. unfold validate_window, window_valid, i64_saturating_add.
  rewrite !if_err_Ok, bind_Ok, !orb_false_iff, !Z.ltb_ge, Z.leb_gt. split.
  - intros (? & ? & ttl & Ht & H). apply ok_or_Ok, i64_checked_sub_Some in Ht as [-> _].
    rewrite !if_err_Ok, !orb_false_iff, !Z.leb_gt, !Z.ltb_ge in H. unfold_bounds. lia.
  - intros H. split; [lia|]. split; [lia|]. exists (expires_at - not_before).
    rewrite ok_or_Ok, i64_checked_sub_Some. unfold is_i64. split; [lia|].
    rewrite !if_err_Ok, !orb_false_iff, !Z.leb_gt, !Z.ltb_ge. unfold_bounds.
    split_and!; lia || done.
Qed.

(** ** Keysets *)

Lemma validate_keyset_key_Ok ks now st k st' :
  validate_keyset_key ks now st k = Ok st' ↔
  (match kscan_previous_kid st with Some p => bytes_leb (key_kid k) p = false | None => True end)
  ∧ (key_ed25519_public_key k ∉ kscan_public_keys st)
  ∧ key_valid ks k
  ∧ st' = mkKeysetScan (Some (key_kid k))
            ({[key_ed25519_public_key k]} ∪ kscan_public_keys st)
            (kscan_usable_active_key st || bool_decide (key_usable now k)).
Proof.
  assert ((bool_decide (key_status k = KeyActive) && (key_not_before k <=? now)
           && (now <? key_expires_at k)) = bool_decide (key_usable now k)) as Hu.
  { apply eq_bool_prop_intro. rewrite !andb_True, !bool_decide_spec, !Is_true_true,
      Z.leb_le, Z.ltb_lt. unfold key_usable. naive_solver lia. }
  unfold validate_keyset_key, key_valid.
  rewrite !if_err_Ok, !bool_decide_eq_false, !orb_false_iff, !Z.ltb_ge, !Z.leb_gt, Hu.
  destruct (kscan_previous_kid st); naive_solver.
Qed.

Lemma Exists_existsb {A} (P : A → Prop) `{∀ x, Decision (P x)} l :
  existsb (λ x, bool_decide (P x)) l = true ↔ Exists P l.
Proof.
  rewrite existsb_exists, Exists_exists. setoid_rewrite bool_decide_eq_true.
  setoid_rewrite <- list_elem_of_In. done.
Qed.

Lemma validate_keyset_keys_Ok ks now l : ∀ st u,
  (∃ st', fold_res (validate_keyset_key ks now) st l = Ok st'
          ∧ kscan_usable_active_key st' = u) ↔
  sorted_after (kscan_previous_kid st) (key_kid <$> l)
  ∧ fresh_after (kscan_public_keys st) (key_ed25519_public_key <$> l)
  ∧ Forall (key_valid ks) l
  ∧ u = (kscan_usable_active_key st || existsb (λ k, bool_decide (key_usable now k)) l).
Proof.
  induction l as [|k l IH]; intros st u; simpl.
  { rewrite orb_false_r. split.
    - intros (st' & [= <-] & <-). split_and!; [|apply fresh_after_nil|done..].
      unfold sorted_after. destruct (kscan_previous_kid st); repeat constructor.
    - intros (_ & _ & _ & ->). by exists st. }
  rewrite sorted_after_cons, fresh_after_cons, Forall_cons. split.
  - intros (st' & H & <-). apply bind_Ok in H as (st1 & Hk & H).
    apply validate_keyset_key_Ok in Hk as (? & ? & ? & ->).
    destruct (proj1 (IH _ _) (ex_intro _ st' (conj H eq_refl))) as (? & ? & ? & ->).
    simpl in *. by rewrite orb_assoc.
  - intros ((? & ?) & (? & ?) & (? & ?) & ->).
    pose (st1 := mkKeysetScan (Some (key_kid k))
      ({[key_ed25519_public_key k]} ∪ kscan_public_keys st)
      (kscan_usable_active_key st || bool_decide (key_usable now k))).
    destruct (proj2 (IH st1 (kscan_usable_active_key st1
      || existsb (λ k, bool_decide (key_usable now k)) l))) as (st' & Hf & Hu); [by split_and!|].
    exists st'. rewrite Hu. split; [|by simpl; rewrite orb_assoc].
    apply bind_Ok. exists st1. split; [|exact Hf]. by apply validate_keyset_key_Ok.
Qed.

Lemma validate_keyset_Ok k now : KeysetV1_wf k → is_i64 now →
  validate_keyset k now = Ok () ↔ keyset_valid k now.
Proof.
  intros Hwf Hnow. unfold validate_keyset. rewrite bind_Ok.
  pose proof (validate_keyset_keys_Ok k now (ks_keys k) (mkKeysetScan None ∅ false) true) as Hl.
  simpl in Hl. rewrite fresh_after_empty in Hl. unfold sorted_after in Hl.
  rewrite (eq_comm true), Exists_existsb in Hl. split.
  - intros ([] & Hw & H). apply validate_window_Ok in Hw; [|apply Hwf|done].
    case_bool_decide; [done|]. apply bind_Ok in H as (st & Hf & H).
    destruct (kscan_usable_active_key st) eqn:Hu; [|done].
    destruct Hl as [Hl _]. destruct Hl as (? & ? & ? & ?); [by exists st|]. by split.
  - intros [Hw ? ? ? Hu]. exists (). rewrite validate_window_Ok by (done || apply Hwf).
    split; [done|]. rewrite bool_decide_eq_false_2
      by (intros Hnil; rewrite Hnil in Hu; by apply Exists_nil in Hu).
    destruct Hl as [_ Hl]. destruct Hl as (st & Hf & Hst); [done|]. rewrite Hf. simpl.
    by rewrite Hst.
Qed.

(** ** DNS names *)

Lemma split_dot_nonempty s : split_dot s ≠ [].
Proof. induction s as [|b s IH]; simpl; [done|]. by repeat case_match. Qed.

Lemma join_split_dot s : join_dot (split_dot s) = s.
Proof.
  induction s as [|b s IH]; [done|]. cbn [split_dot]. pose proof (split_dot_nonempty s).
  unfold is_dot. destruct (Z.eqb_spec (bv b) 46) as [Hb|_].
  - assert (bz 46 = b) as <- by (rewrite <- Hb; apply bz_bv).
    destruct (split_dot s) as [|l ls]; [done|]. by rewrite <- IH.
  - destruct (split_dot s) as [|l ls]; [done|]. rewrite <- IH. by destruct ls.
Qed.

Lemma split_dot_label l s : Forall (λ b, is_dot b = false) l →
  split_dot (l ++ s) = match split_dot s with [] => [l] | l' :: ls => (l ++ l') :: ls end.
Proof.
  induction 1 as [|b l Hb _ IH]; simpl.
  - pose proof (split_dot_nonempty s). by destruct (split_dot s).
  - rewrite Hb, IH. by destruct (split_dot s).
Qed.

Lemma split_dot_sep s : split_dot (bz 46 :: s) = [] :: split_dot s.
Proof. done. Qed.

Lemma split_join_dot ls : ls ≠ [] → Forall (Forall (λ b, is_dot b = false)) ls →
  split_dot (join_dot ls) = ls.
Proof.
  intros Hne Hf. induction Hf as [|l ls Hl Hls IH]; [done|].
  destruct ls as [|l' ls].
  - simpl. rewrite <- (app_nil_r l) at 1. rewrite split_dot_label by done. simpl.
    by rewrite app_nil_r.
  - change (join_dot (l :: l' :: ls)) with (l ++ bz 46 :: join_dot (l' :: ls)).
    rewrite split_dot_label, split_dot_sep, IH by done. by rewrite app_nil_r.
Qed.

Lemma label_bad_false l : label_bad l = false ↔ label_ok l.
Proof.
  unfold label_bad, label_ok. destruct l as [|b l]; [simpl; unfold len; simpl; naive_solver lia|].
  destruct (last (b :: l)) as [f|] eqn:Hlast; [|by apply last_None in Hlast].
  assert (existsb (λ b, negb (is_ascii_lowercase b) && negb (is_ascii_digit b)
            && negb (is_dash b)) (b :: l) = false ↔
          Forall (λ b, is_ascii_lowercase b || is_ascii_digit b || is_dash b = true) (b :: l)) as Hall.
  { rewrite <- not_true_iff_false, existsb_exists, Forall_forall.
    setoid_rewrite list_elem_of_In. split.
    - intros Hn x Hx. destruct (_ || is_dash x) eqn:E; [done|]. destruct Hn. exists x.
      split; [done|]. rewrite !orb_false_iff in E. by destruct E as [[-> ->] ->].
    - intros Hf (x & Hx & Hb). specialize (Hf x Hx).
      destruct (is_ascii_lowercase x), (is_ascii_digit x), (is_dash x); done. }
  rewrite !orb_false_iff, Hall, !negb_false_iff, Z.ltb_ge.
  assert (∀ x, x ∈ b :: l →
    Forall (λ b, is_ascii_lowercase b || is_ascii_digit b || is_dash b = true) (b :: l) →
    (is_ascii_alphanumeric x = true ↔ is_dash x = false)) as Hx.
  { intros x Hin Hf. rewrite Forall_forall in Hf. specialize (Hf x Hin).
    unfold is_ascii_alphanumeric, is_ascii_uppercase, is_ascii_lowercase, is_ascii_digit,
      is_dash in *. lia. }
  pose proof (Hx b ltac:(set_solver)) as Hxb.
  pose proof (Hx f ltac:(eapply last_Some_elem_of; exact Hlast)) as Hxf.
  rewrite len_cons. pose proof (len_nonneg l). simpl. split.
  - intros (((? & ?) & ?) & Hf). split_and!; [lia..|done| |]; naive_solver.
  - intros (? & Hf & Hb & He). split_and!; [lia| | |done]; naive_solver.
Qed.

Lemma Forall_join_dot (P : byte → Prop) ls :
  P (bz 46) → Forall (Forall P) ls → Forall P (join_dot ls).
Proof.
  intros Hdot. induction 1 as [|l ls Hl Hls IH]; [constructor|].
  destruct ls as [|l' ls]; [done|].
  change (Forall P (l ++ bz 46 :: join_dot (l' :: ls))).
  apply Forall_app_2; [done|]. by constructor.
Qed.

Lemma join_dot_nonempty ls : ls ≠ [] → Forall (λ l, l ≠ []) ls → join_dot ls ≠ [].
Proof.
  intros Hne Hf. destruct Hf as [|l ls Hl Hls]; [done|]. destruct ls as [|l' ls]; [done|].
  change (l ++ bz 46 :: join_dot (l' :: ls) ≠ []). by destruct l.
Qed.

Lemma last_join_dot ls : Forall (λ l, l ≠ []) ls →
  last (join_dot ls) = last ls ≫= last.
Proof.
  induction 1 as [|l ls Hl Hls IH]; [done|]. destruct ls as [|l' ls]; [done|].
  change (join_dot (l :: l' :: ls)) with (l ++ bz 46 :: join_dot (l' :: ls)).
  change (last (l :: l' :: ls)) with (last (l' :: ls)). rewrite <- IH, last_app.
  pose proof (join_dot_nonempty (l' :: ls) ltac:(done) Hls).
  destruct (join_dot (l' :: ls)) as [|x t]; [done|].
  change (last (bz 46 :: x :: t)) with (last (x :: t)).
  destruct (last (x :: t)) eqn:Hx; [done|]. by apply last_None in Hx.
Qed.

Lemma label_ok_nonempty l : label_ok l → l ≠ [].
Proof. intros [Hl _] ->. unfold len in Hl; simpl in Hl. lia. Qed.

Lemma label_ok_chars l (P : byte → Prop) : label_ok l →
  (∀ b, is_ascii_lowercase b || is_ascii_digit b || is_dash b = true → P b) → Forall P l.
Proof. intros (_ & Hf & _) HP. eapply Forall_impl; [exact Hf|]. exact HP. Qed.

Ltac char_cases :=
  unfold is_ascii_lowercase, is_ascii_digit, is_dash, is_dot, is_ascii_uppercase in *; lia.

Lemma dns_no_dots labels : Forall label_ok labels →
  Forall (Forall (λ b, is_dot b = false)) labels.
Proof.
  intros Hf. eapply Forall_impl; [exact Hf|]. intros l Hl. apply (label_ok_chars l); [done|].
  intros b Hb. char_cases.
Qed.

Lemma validate_dns_Ok v : validate_canonical_dns_name v = Ok () ↔ canonical_dns_name v.
Proof.
  unfold validate_canonical_dns_name. rewrite !if_err_Ok, !orb_false_iff, !Z.ltb_ge. split.
  - intros (((? & ?) & _) & _ & ? & Hbad & _). exists (split_dot v). rewrite join_split_dot.
    split_and!; [done..|]. apply Forall_forall. intros l Hl. apply label_bad_false.
    apply not_true_iff_false. intros Hb. apply not_true_iff_false in Hbad. apply Hbad.
    apply existsb_exists. exists l. by rewrite <- list_elem_of_In.
  - intros (labels & -> & Hn & Hl & Hf).
    assert (labels ≠ []) as Hne by (intros ->; done).
    assert (Forall (λ l, l ≠ []) labels) as Hne'
      by (eapply Forall_impl; [exact Hf|]; apply label_ok_nonempty).
    rewrite split_join_dot by (done || by apply dns_no_dots).
    assert (∀ P : byte → Prop, P (bz 46) →
      (∀ b, is_ascii_lowercase b || is_ascii_digit b || is_dash b = true → P b) →
      Forall P (join_dot labels)) as Hchars.
    { intros P Hd HP. apply Forall_join_dot; [done|].
      eapply Forall_impl; [exact Hf|]. intros l Hlab. by apply (label_ok_chars l). }
    split_and!; try done.
    + rewrite bool_decide_eq_false_2; [done|]. by apply join_dot_nonempty.
    + rewrite negb_false_iff. apply Is_true_true_1, forallb_True.
      apply (Hchars (λ b, Is_true (bv b <? 128))); [done|].
      intros b Hb. apply Is_true_true. char_cases.
    + apply not_true_iff_false. rewrite existsb_exists. intros (b & Hin & Hu).
      rewrite <- list_elem_of_In in Hin.
      assert (Forall (λ b, is_ascii_uppercase b = false) (join_dot labels)) as Hall
        by (apply Hchars; [done|]; intros; char_cases).
      rewrite Forall_forall in Hall. rewrite Hall in Hu; done.
    + rewrite last_join_dot by done. destruct (last labels) as [l|] eqn:Hlast; [|done]. simpl.
      destruct (last l) as [b|] eqn:Hb; [|done].
      pose proof (dns_no_dots _ Hf) as Hd. rewrite Forall_forall in Hd.
      specialize (Hd l ltac:(by eapply last_Some_elem_of)). rewrite Forall_forall in Hd.
      apply Hd. by eapply last_Some_elem_of.
    + apply not_true_iff_false. rewrite existsb_exists. intros (l & Hin & Hbad).
      rewrite <- list_elem_of_In in Hin. rewrite Forall_forall in Hf.
      apply Hf, label_bad_false in Hin. congruence.
Qed.

(** ** Policies *)

Lemma validate_pin_Ok policy prev act p st' :
  validate_pin policy (prev, act) p = Ok st' ↔
  (match prev with Some q => bytes_leb (pin_fingerprint p) q = false | None => True end)
  ∧ pin_valid policy p
  ∧ st' = (Some (pin_fingerprint p), act || bool_decide (pin_status p = PinActive)).
Proof.
  unfold validate_pin, pin_valid.
  rewrite !if_err_Ok, !bool_decide_eq_false, !orb_false_iff, !Z.ltb_ge, !Z.leb_gt.
  destruct prev; naive_solver.
Qed.

Lemma validate_pins_Ok policy l : ∀ prev act act',
  (∃ prev', fold_res (validate_pin policy) (prev, act) l = Ok (prev', act')) ↔
  sorted_after prev (pin_fingerprint <$> l) ∧ Forall (pin_valid policy) l
  ∧ act' = (act || existsb (λ p, bool_decide (pin_status p = PinActive)) l).
Proof.
  induction l as [|p l IH]; intros prev act act'; simpl.
  { rewrite orb_false_r. split.
    - intros (prev' & [= <- <-]). split_and!; [|done..].
      unfold sorted_after. destruct prev; repeat constructor.
    - intros (_ & _ & ->). by exists prev. }
  rewrite sorted_after_cons, Forall_cons, orb_assoc.
  specialize (IH (Some (pin_fingerprint p)) (act || bool_decide (pin_status p = PinActive)) act').
  split.
  - intros (prev' & H). apply bind_Ok in H as (st1 & Hp & H).
    apply validate_pin_Ok in Hp as (? & ? & ->).
    destruct (proj1 IH) as (? & ? & ?); [by exists prev'|]. done.
  - intros ((? & ?) & (? & ?) & ?). destruct (proj2 IH) as (prev' & Hf); [done|].
    exists prev'. apply bind_Ok. eexists. split; [|exact Hf]. by apply validate_pin_Ok.
Qed.

Section VerifyTheory.
Context `{C : PolicyCrypto}.

Lemma validate_endpoint_Ok st e st' :
  validate_endpoint st e = Ok st' ↔
  (match escan_previous_endpoint_id st with
   | Some q => bytes_leb (ep_endpoint_id e) q = false | None => True end)
  ∧ (ep_endpoint_id e ∉ escan_endpoint_ids st)
  ∧ (tuple_of e ∉ escan_endpoint_tuples st)
  ∧ escan_total_endpoints st + 1 ≤ MAX_TOTAL_ENDPOINTS
  ∧ endpoint_valid e
  ∧ st' = mkEndpointScan (Some (ep_endpoint_id e))
            ({[ep_endpoint_id e]} ∪ escan_endpoint_ids st)
            ({[tuple_of e]} ∪ escan_endpoint_tuples st)
            (escan_total_endpoints st + 1).
Proof.
  unfold validate_endpoint, endpoint_valid.
  rewrite !if_err_Ok, bind_Ok, <- !validate_dns_Ok, bool_decide_eq_false, Z.ltb_ge, Z.eqb_neq.
  split.
  - intros (? & ? & ? & ? & ? & [] & ? & H). apply bind_Ok in H as ([] & ? & H).
    rewrite !if_err_Ok, bool_decide_eq_false, !negb_false_iff, Z.eqb_eq in H.
    destruct H as (? & ? & ? & [= <-]). destruct (escan_previous_endpoint_id st); naive_solver.
  - intros (? & ? & ? & ? & (? & ? & ? & Hs & ? & ?) & ->).
    split; [by destruct (escan_previous_endpoint_id st)|]. split_and!; [done..|].
    exists (). split; [done|]. rewrite Hs. simpl.
    by rewrite !if_err_Ok, bool_decide_eq_false, !negb_false_iff, Z.eqb_eq.
Qed.

(** What the endpoint loop has accumulated after visiting [l]. *)
Definition scanned (st st' : EndpointScan) (l : list RealityEndpointV2) : Prop :=
  escan_endpoint_ids st' = list_to_set (ep_endpoint_id <$> l) ∪ escan_endpoint_ids st
  ∧ escan_endpoint_tuples st' = list_to_set (tuple_of <$> l) ∪ escan_endpoint_tuples st
  ∧ escan_total_endpoints st' = escan_total_endpoints st + len l.

Lemma scanned_cons st st' e l :
  scanned (mkEndpointScan (Some (ep_endpoint_id e))
             ({[ep_endpoint_id e]} ∪ escan_endpoint_ids st)
             ({[tuple_of e]} ∪ escan_endpoint_tuples st)
             (escan_total_endpoints st + 1)) st' l ↔ scanned st st' (e :: l).
Proof.
  unfold scanned. simpl. rewrite len_cons.
  assert (∀ `{Countable A} (x : A) (l : list A) (s : gset A),
    list_to_set l ∪ ({[x]} ∪ s) =@{gset A} {[x]} ∪ list_to_set l ∪ s) as Hs by set_solver.
  rewrite !Hs. replace (escan_total_endpoints st + (1 + len l)) with
    (escan_total_endpoints st + 1 + len l) by lia. done.
Qed.

Lemma validate_endpoints_Ok l : ∀ st,
  escan_total_endpoints st ≤ MAX_TOTAL_ENDPOINTS →
  (∃ st', fold_res validate_endpoint st l = Ok st' ∧ scanned st st' l) ↔
  sorted_after (escan_previous_endpoint_id st) (ep_endpoint_id <$> l)
  ∧ fresh_after (escan_endpoint_ids st) (ep_endpoint_id <$> l)
  ∧ fresh_after (escan_endpoint_tuples st) (tuple_of <$> l)
  ∧ escan_total_endpoints st + len l ≤ MAX_TOTAL_ENDPOINTS
  ∧ Forall endpoint_valid l.
Proof.
  induction l as [|e l IH]; intros st Ht; simpl.
  { split.
    - intros _. split_and!; [|apply fresh_after_nil..|rewrite len_nil; lia|done].
      unfold sorted_after. destruct (escan_previous_endpoint_id st); repeat constructor.
    - intros _. exists st. split; [done|]. unfold scanned. simpl. rewrite len_nil.
      split_and!; [set_solver..|lia]. }
  rewrite sorted_after_cons, !fresh_after_cons, Forall_cons, len_cons.
  pose proof (len_nonneg l) as Hlen.
  pose (st1 := mkEndpointScan (Some (ep_endpoint_id e))
             ({[ep_endpoint_id e]} ∪ escan_endpoint_ids st)
             ({[tuple_of e]} ∪ escan_endpoint_tuples st)
             (escan_total_endpoints st + 1)).
  specialize (IH st1). simpl in IH. split.
  - intros (st' & H & Hsc). apply bind_Ok in H as (st2 & He & H).
    apply validate_endpoint_Ok in He as (? & ? & ? & ? & ? & ->).
    destruct (proj1 (IH ltac:(done))) as (? & ? & ? & ? & ?);
      [exists st'; split; [done|by apply scanned_cons]|].
    split_and!; try done. lia.
  - intros ((? & ?) & (? & ?) & (? & ?) & ? & ? & ?).
    destruct (proj2 (IH ltac:(lia))) as (st' & Hf & Hsc); [split_and!; try done; lia|].
    exists st'. split; [|by apply scanned_cons]. apply bind_Ok. exists st1. split; [|done].
    apply validate_endpoint_Ok. split_and!; try done. lia.
Qed.

Lemma validate_endpoints_scanned l : ∀ st st',
  fold_res validate_endpoint st l = Ok st' → scanned st st' l.
Proof.
  induction l as [|e l IH]; intros st st' H; simpl in H.
  { injection H as <-. unfold scanned. simpl. rewrite len_nil. split_and!; [set_solver..|lia]. }
  apply bind_Ok in H as (st1 & He & H).
  apply validate_endpoint_Ok in He as (? & ? & ? & ? & ? & ->).
  apply scanned_cons. by apply IH.
Qed.

Lemma validate_service_Ok policy st s st' :
  pscan_total_endpoints st ≤ MAX_TOTAL_ENDPOINTS →
  validate_service policy st s = Ok st' ↔
  (match pscan_previous_service_id st with
   | Some q => bytes_leb (svc_service_id s) q = false | None => True end)
  ∧ service_valid policy s
  ∧ fresh_after (pscan_endpoint_ids st) (ep_endpoint_id <$> svc_endpoints s)
  ∧ fresh_after (pscan_endpoint_tuples st) (tuple_of <$> svc_endpoints s)
  ∧ pscan_total_endpoints st + len (svc_endpoints s) ≤ MAX_TOTAL_ENDPOINTS
  ∧ st' = mkPolicyScan (Some (svc_service_id s))
            (pscan_service_ids st ++ [svc_service_id s])
            (list_to_set (ep_endpoint_id <$> svc_endpoints s) ∪ pscan_endpoint_ids st)
            (list_to_set (tuple_of <$> svc_endpoints s) ∪ pscan_endpoint_tuples st)
            (pscan_total_endpoints st + len (svc_endpoints s)).
Proof.
  intros Ht. unfold validate_service.
  pose (est := mkEndpointScan None (pscan_endpoint_ids st) (pscan_endpoint_tuples st)
                 (pscan_total_endpoints st)).
  pose proof (validate_pins_Ok policy (svc_pins s) None false true) as Hpins.
  pose proof (validate_endpoints_Ok (svc_endpoints s) est Ht) as Heps.
  simpl in Hpins. rewrite (eq_comm true), Exists_existsb in Hpins.
  unfold sorted_after in Hpins, Heps. simpl in Heps.
  rewrite !if_err_Ok, bool_decide_eq_false. split.
  - intros (Hprev & Hne & H). apply bind_Ok in H as ([prev act] & Hp & H).
    destruct act; [|done]. simpl in H. apply if_err_Ok in H as [Hne'%bool_decide_eq_false H].
    apply bind_Ok in H as (est' & He & [= <-]). fold est in He.
    pose proof (validate_endpoints_scanned _ _ _ He) as Hsc.
    destruct (proj1 Hpins) as (? & ? & ?); [by exists prev|].
    destruct (proj1 Heps) as (? & ? & ? & ? & ?); [by exists est'|].
    split; [by destruct (pscan_previous_service_id st)|].
    split; [by split|]. destruct Hsc as (-> & -> & ->). done.
  - intros (Hprev & [Hs1 Hs2 Hs3 Hs4 Hs5 Hs6] & Hf1 & Hf2 & Hle & ->).
    split; [by destruct (pscan_previous_service_id st)|].
    split; [intros Hnil; rewrite Hnil in Hs3; by apply Exists_nil in Hs3|].
    destruct (proj2 Hpins) as (prev & ->); [done|]. simpl.
    rewrite bool_decide_eq_false_2 by done.
    destruct (proj2 Heps) as (est' & He & Hsc); [done|]. fold est. rewrite He. simpl.
    destruct Hsc as (-> & -> & ->). done.
Qed.

Abbreviation all_ids l := (flat_map (λ s, ep_endpoint_id <$> svc_endpoints s) l) (only parsing).
Abbreviation all_tuples l := (flat_map (λ s, tuple_of <$> svc_endpoints s) l) (only parsing).

Lemma validate_services_Ok policy l : ∀ st ids,
  pscan_total_endpoints st ≤ MAX_TOTAL_ENDPOINTS →
  (∃ st', fold_res (validate_service policy) st l = Ok st' ∧ pscan_service_ids st' = ids) ↔
  sorted_after (pscan_previous_service_id st) (svc_service_id <$> l)
  ∧ Forall (service_valid policy) l
  ∧ fresh_after (pscan_endpoint_ids st) (all_ids l)
  ∧ fresh_after (pscan_endpoint_tuples st) (all_tuples l)
  ∧ pscan_total_endpoints st + total_endpoints l ≤ MAX_TOTAL_ENDPOINTS
  ∧ ids = pscan_service_ids st ++ (svc_service_id <$> l).
Proof.
  induction l as [|s l IH]; intros st ids Ht; simpl.
  { rewrite app_nil_r. split.
    - intros (st' & [= <-] & <-). split_and!; [|done|apply fresh_after_nil..|lia|done].
      unfold sorted_after. destruct (pscan_previous_service_id st); repeat constructor.
    - intros (_ & _ & _ & _ & _ & ->). by exists st. }
  rewrite sorted_after_cons, !fresh_after_app, Forall_cons.
  pose proof (len_nonneg (svc_endpoints s)) as Hlen.
  pose proof (total_endpoints_nonneg l) as Htot.
  specialize (IH (mkPolicyScan (Some (svc_service_id s))
            (pscan_service_ids st ++ [svc_service_id s])
            (list_to_set (ep_endpoint_id <$> svc_endpoints s) ∪ pscan_endpoint_ids st)
            (list_to_set (tuple_of <$> svc_endpoints s) ∪ pscan_endpoint_tuples st)
            (pscan_total_endpoints st + len (svc_endpoints s))) ids).
  simpl in IH. rewrite <- app_assoc in IH. simpl in IH. split.
  - intros (st' & H & Hids). apply bind_Ok in H as (st1 & Hs & H).
    apply validate_service_Ok in Hs as (? & ? & ? & ? & ? & ->); [|done].
    destruct (proj1 (IH ltac:(done))) as (? & ? & ? & ? & ? & ?); [by exists st'|].
    split_and!; try done. lia.
  - intros ((? & ?) & (? & ?) & (? & ?) & (? & ?) & ? & ?).
    destruct (proj2 (IH ltac:(lia))) as (st' & Hf & Hids); [split_and!; try done; lia|].
    exists st'. split; [|done]. apply bind_Ok. eexists. split; [|exact Hf].
    apply validate_service_Ok; [done|]. split_and!; try done. lia.
Qed.

Lemma unsorted_pair_false l : unsorted_pair l = false ↔ Sorted bytes_lt l.
Proof.
  induction l as [|a l IH]; simpl; [split; [constructor|done]|].
  destruct l as [|b l]; [split; [repeat constructor|done]|].
  rewrite orb_false_iff, bytes_leb_false, IH. split.
  - intros [? ?]. constructor; [done|by constructor].
  - intros [? ?%HdRel_inv]%Sorted_inv. done.
Qed.

Lemma validate_policy_Ok p now : EndpointPolicyV2_wf p → is_i64 now →
  validate_policy p now = Ok () ↔ policy_valid p now.
Proof.
  intros Hwf Hnow. unfold validate_policy. rewrite bind_Ok.
  pose proof (validate_services_Ok p (pol_services p) (mkPolicyScan None [] ∅ ∅ 0)
                (svc_service_id <$> pol_services p) ltac:(done)) as Hl.
  simpl in Hl. rewrite !fresh_after_empty in Hl. unfold sorted_after in Hl. split.
  - intros ([] & Hw & H). apply validate_window_Ok in Hw; [|apply Hwf|done].
    apply if_err_Ok in H as [Hne%bool_decide_eq_false H].
    apply bind_Ok in H as (st & Hf & H).
    destruct (pol_rules p) as [|r [|? ?]] eqn:Hr; [done| |done].
    apply if_err_Ok in H as [Hids%negb_false_iff%bool_decide_eq_true H].
    apply if_err_Ok in H as [Hev%unsorted_pair_false _].
    pose proof (proj1 (validate_services_Ok p (pol_services p) (mkPolicyScan None [] ∅ ∅ 0)
      (pscan_service_ids st) ltac:(done)) (ex_intro _ st (conj Hf eq_refl))) as Hall.
    simpl in Hall. destruct Hall as (_ & _ & _ & _ & _ & Hst). rewrite Hst in Hids.
    destruct (proj1 Hl) as (? & ? & ? & ? & ? & _); [by exists st|].
    split; try done. by exists r.
  - intros [Hw Hne ? ? ? ? ? (r & Hr & Hids) Hev]. exists ().
    rewrite validate_window_Ok by (done || apply Hwf). split; [done|].
    rewrite bool_decide_eq_false_2 by done.
    destruct (proj2 Hl) as (st & -> & Hst); [done|]. simpl. rewrite Hr.
    rewrite bool_decide_eq_true_2 by congruence. simpl.
    by rewrite (proj2 (unsorted_pair_false _) Hev).
Qed.
End VerifyTheory.

(** ** Bundles *)

Section BundleTheory.
Context `{C : PolicyCrypto} `{M : Minicbor} {L : MinicborLaws M} `{E : Ed25519}.

(** What it takes for the trusted [root] to authorise policy [pol] at time [now]: the
    root signs the keyset, a key of that keyset, active and within its own lifetime,
    signs the policy, the policy names this keyset by epoch and hash, and the lifetimes
    of policy, signer and keyset nest. *)
Record authorised (root : TrustedRoot) (now : Z) (ks : KeysetV1) (pol : EndpointPolicyV2)
    (signer : OnlineKeyV1) : Prop := {
  au_root : root_ed25519_public_key root ≠ zero_array 32;
  au_keyset_wf : KeysetV1_wf ks;
  au_keyset : keyset_valid ks now;
  au_policy_wf : EndpointPolicyV2_wf pol;
  au_rules : rules_bounded pol;
  au_policy : policy_valid pol now;
  au_signer : find_key ks (key_kid signer) = Some signer;
  au_usable : key_usable now signer;
  au_epoch : pol_keyset_epoch pol = ks_keyset_epoch ks;
  au_hash : pol_keyset_payload_hash pol = keyset_payload_hash (keyset_payload_bytes ks);
  au_issued : ks_issued_at ks ≤ pol_issued_at pol;
  au_in_keyset : ks_not_before ks ≤ pol_not_before pol ∧ pol_expires_at pol ≤ ks_expires_at ks;
  au_in_signer : key_not_before signer ≤ pol_not_before pol
                 ∧ pol_expires_at pol ≤ key_expires_at signer;
}.

(** The envelope pair that carries an authorised policy. *)
Definition bundle_of (root : TrustedRoot) (ks : KeysetV1) (pol : EndpointPolicyV2)
    (signer : OnlineKeyV1) (input : bytes) : Prop :=
  ∃ x ksig psig,
    encode_bundle x = Ok input
    ∧ encode_keyset_payload ks = Ok (keyset_payload_bytes ks)
    ∧ encode_policy_payload pol = Ok (policy_payload_bytes pol)
    ∧ signed_envelope CtKeyset (root_kid root) (root_ed25519_public_key root)
        (keyset_payload_bytes ks) ksig (keyset_sign1 x)
    ∧ signed_envelope CtEndpointPolicy (key_kid signer) (key_ed25519_public_key signer)
        (policy_payload_bytes pol) psig (policy_sign1 x).

Lemma decode_keyset_Ok input k :
  decode_keyset_payload input = Ok k ↔
  KeysetV1_wf k ∧ encode_keyset_payload k = Ok (keyset_payload_bytes k)
  ∧ input = keyset_payload_bytes k.
Proof.
  rewrite decode_keyset_payload_Ok. split; [|naive_solver].
  intros [? He]. assert (He' := He). apply encode_keyset_payload_Ok in He' as (? & ? & ->). done.
Qed.

Lemma decode_policy_Ok input p :
  decode_policy_payload input = Ok p ↔
  EndpointPolicyV2_wf p ∧ rules_bounded p
  ∧ encode_policy_payload p = Ok (policy_payload_bytes p) ∧ input = policy_payload_bytes p.
Proof.
  rewrite decode_policy_payload_Ok. split; [|naive_solver].
  intros (? & ? & He). assert (He' := He).
  apply encode_policy_payload_Ok in He' as (? & ? & ->). done.
Qed.

Lemma verify_keyset_artifact_Ok sign1 root now a : is_i64 now →
  verify_keyset_artifact sign1 root now = Ok a ↔
  root_ed25519_public_key root ≠ zero_array 32
  ∧ KeysetV1_wf (vka_keyset a) ∧ keyset_valid (vka_keyset a) now
  ∧ encode_keyset_payload (vka_keyset a) = Ok (keyset_payload_bytes (vka_keyset a))
  ∧ (∃ sig, signed_envelope CtKeyset (root_kid root) (root_ed25519_public_key root)
              (keyset_payload_bytes (vka_keyset a)) sig sign1)
  ∧ vka_root_id a = trusted_root_id root
  ∧ vka_payload_hash a = keyset_payload_hash (keyset_payload_bytes (vka_keyset a)).
Proof.
  intros Hnow. unfold verify_keyset_artifact. rewrite if_err_Ok, bool_decide_eq_false. split.
  - intros [? H]. apply bind_Ok in H as (payload & Hs%verify_sign1_Ok & H).
    apply bind_Ok in H as (ks & (Hwf & He & ->)%decode_keyset_Ok & H).
    apply bind_Ok in H as ([] & Hv%validate_keyset_Ok & [= <-]); done.
  - intros (? & Hwf & Hv & He & Hs%verify_sign1_Ok & Hr & Hh). split; [done|]. rewrite Hs. simpl.
    rewrite (proj2 (decode_keyset_Ok _ (vka_keyset a))) by done. simpl.
    rewrite (proj2 (validate_keyset_Ok _ _ Hwf Hnow)) by done. simpl.
    destruct a; simpl in *; congruence.
Qed.

Lemma signed_envelope_inspect ct kid pk payload sig env :
  signed_envelope ct kid pk payload sig env →
  ∃ p, inspect_sign1 env = Ok p ∧ hdr_content_type (s1_header p) = ct
       ∧ hdr_kid (s1_header p) = kid.
Proof.
  intros (Hk & Hs & He & _).
  exists (mkParsedSign1 (encode_protected_header (mkProtectedHeader ct kid))
            (mkProtectedHeader ct kid) payload sig).
  split; [|done]. apply inspect_sign1_Ok. split_and!; [|done..].
  by apply decode_protected_header_Ok.
Qed.

Lemma find_key_Some ks kid k : find_key ks kid = Some k → key_kid k = kid ∧ k ∈ ks_keys ks.
Proof.
  intros [Hin Hb%bool_decide_eq_true]%List.find_some. by rewrite list_elem_of_In.
Qed.

(** The guards after the signatures, as one predicate. *)
Lemma bundle_guards signer now {A} (r : result PolicyError A) a :
  (if bool_decide (key_status signer ≠ KeyActive) then Err Invalid else
   if now <? key_not_before signer then Err (NotYetValid "policy signer key") else
   if key_expires_at signer <=? now then Err (Expired "policy signer key") else r) = Ok a
  ↔ key_usable now signer ∧ r = Ok a.
Proof.
  rewrite !if_err_Ok, bool_decide_eq_false, Z.ltb_ge, Z.leb_gt. unfold key_usable.
  destruct (key_status signer); naive_solver lia.
Qed.

Lemma lifetime_guards ks pol signer {A} (h : bytes) (r : result PolicyError A) a :
  (if negb (pol_keyset_epoch pol =? ks_keyset_epoch ks) then Err Invalid else
   if bool_decide (pol_keyset_payload_hash pol ≠ h) then Err Invalid else
   if (pol_issued_at pol <? ks_issued_at ks)
      || (pol_not_before pol <? ks_not_before ks)
      || (ks_expires_at ks <? pol_expires_at pol) then Err Invalid else
   if (pol_not_before pol <? key_not_before signer)
      || (key_expires_at signer <? pol_expires_at pol) then Err Invalid else r) = Ok a
  ↔ (pol_keyset_epoch pol = ks_keyset_epoch ks ∧ pol_keyset_payload_hash pol = h
     ∧ ks_issued_at ks ≤ pol_issued_at pol
     ∧ (ks_not_before ks ≤ pol_not_before pol ∧ pol_expires_at pol ≤ ks_expires_at ks)
     ∧ (key_not_before signer ≤ pol_not_before pol
        ∧ pol_expires_at pol ≤ key_expires_at signer)) ∧ r = Ok a.
Proof.
  rewrite !if_err_Ok, !orb_false_iff, bool_decide_eq_false, !Z.ltb_ge, negb_false_iff, Z.eqb_eq.
  destruct (decide (pol_keyset_payload_hash pol = h)); naive_solver.
Qed.

Lemma policy_plannable p now : policy_valid p now →
  encode_policy_payload p = Ok (policy_payload_bytes p) →
  Forall service_plannable (pol_services p).
Proof.
  intros Hv (Hb & _)%encode_policy_payload_Ok.
  assert (Forall service_bounded (pol_services p)) as Hs by apply Hb.
  eapply Forall_impl2; [apply (pv_services _ _ Hv)|exact Hs|].
  intros s [_ _ Ha _ _ He] Hsb. split_and!.
  - intros Hnil. rewrite Hnil in Ha. by apply Exists_nil in Ha.
  - apply Hsb.
  - eapply Forall_impl; [exact He|]. intros e (_ & _ & _ & _ & _ & ->). done.
Qed.

Lemma verify_bundle_Ok input root now b : is_i64 now →
  verify_bundle input root now = Ok b ↔
  ∃ signer, authorised root now (vb_keyset b) (vb_policy b) signer
    ∧ bundle_of root (vb_keyset b) (vb_policy b) signer input
    ∧ vb_root_id b = trusted_root_id root
    ∧ vb_keyset_hash b = keyset_payload_hash (keyset_payload_bytes (vb_keyset b))
    ∧ vb_policy_hash b = policy_payload_hash (policy_payload_bytes (vb_policy b))
    ∧ vb_signer_kid b = key_kid signer
    ∧ build_verified_plan (vb_policy b) = Ok (vb_plan b).
Proof.
  intros Hnow. unfold verify_bundle. split.
  - intros H. apply bind_Ok in H as (x & Hx%decode_bundle_Ok & H).
    apply bind_Ok in H as (a & Ha & H). apply verify_keyset_artifact_Ok in Ha; [|done].
    destruct Ha as (Hroot & Hkwf & Hkv & Hke & [ksig Hks] & Hrid & Hkh).
    apply bind_Ok in H as (env & _ & H). apply if_err_Ok in H as [_ H].
    apply bind_Ok in H as (signer & Hfind%ok_or_Ok & H).
    destruct (find_key_Some _ _ _ Hfind) as [Hkid _]. rewrite <- Hkid in *.
    apply bundle_guards in H as [Huse H].
    apply bind_Ok in H as (payload & [psig Hps]%verify_sign1_Ok & H).
    apply bind_Ok in H as (pol & (Hpwf & Hr & Hpe & ->)%decode_policy_Ok & H).
    apply bind_Ok in H as ([] & Hpv & H). apply validate_policy_Ok in Hpv; [|done..].
    apply lifetime_guards in H as [(He & Hh & Hi & Hk & Hs) H].
    apply bind_Ok in H as (plan & Hplan & [= <-]). simpl in *.
    exists signer. rewrite Hkh in Hh.
    split_and!; [by split|by exists x, ksig, psig|done..].
  - intros (signer & [] & (x & ksig & psig & Hx & Hke & Hpe & Hks & Hps) & Hrid & Hkh & Hph
            & Hkid & Hplan).
    rewrite (proj2 (decode_bundle_Ok _ x) Hx). simpl.
    pose (a := mkVerifiedKeysetArtifact (trusted_root_id root) (vb_keyset b)
                 (keyset_payload_hash (keyset_payload_bytes (vb_keyset b)))).
    assert (verify_keyset_artifact (keyset_sign1 x) root now = Ok a) as ->.
    { apply verify_keyset_artifact_Ok; [done|]. split_and!; try done. by exists ksig. }
    destruct (signed_envelope_inspect _ _ _ _ _ _ Hps) as (env & Henv & Hct & Hek).
    simpl. rewrite Henv. simpl. rewrite bool_decide_eq_false_2 by (intros Hne; by apply Hne).
    rewrite Hek, au_signer0. simpl. apply bundle_guards. split; [done|].
    rewrite (proj2 (verify_sign1_Ok _ _ _ _ _) (ex_intro _ psig Hps)). simpl.
    rewrite (proj2 (decode_policy_Ok _ (vb_policy b))) by done. simpl.
    rewrite (proj2 (validate_policy_Ok _ _ au_policy_wf0 Hnow)) by done. simpl.
    apply lifetime_guards. split; [done|]. rewrite Hplan. simpl.
    destruct b; simpl in *; congruence.
Qed.

(** C1: The trust decision: [verify_bundle] accepts an input for keyset [ks], policy
    [pol] and signer exactly when the input is the canonical bundle of an envelope pair
    in which the trusted root signs [ks] and the signer signs [pol], and the root
    authorises [pol] at [now] through [ks] and that signer. *)
Theorem verify_bundle_iff (input : bytes) (root : TrustedRoot) (now : Z) (ks : KeysetV1)
    (pol : EndpointPolicyV2) (kid : Kid) :
  is_i64 now →
  (∃ b, verify_bundle input root now = Ok b
        ∧ vb_keyset b = ks ∧ vb_policy b = pol ∧ vb_signer_kid b = kid)
  ↔ (∃ signer, key_kid signer = kid ∧ authorised root now ks pol signer
               ∧ bundle_of root ks pol signer input).
Proof.
  intros Hnow. split.
  - intros (b & Hb & <- & <- & <-).
    apply verify_bundle_Ok in Hb as (signer & ? & ? & _ & _ & _ & ? & _); [|done].
    by exists signer.
  - intros (signer & <- & Ha & Hb).
    destruct (build_verified_plan_views pol) as (plan & Hplan & _).
    { destruct Hb as (? & ? & ? & _ & _ & He & _). eapply policy_plannable; [|done].
      apply Ha. }
    exists (mkVerifiedBundle (trusted_root_id root) ks pol
              (keyset_payload_hash (keyset_payload_bytes ks))
              (policy_payload_hash (policy_payload_bytes pol)) (key_kid signer) plan).
    split; [|done]. apply verify_bundle_Ok; [done|]. by exists signer.
Qed.

(** A verified bundle carries the hashes of the payloads that were signed and a plan
    whose endpoints are exactly the signed ones, service by service and in order, each
    with the signed address, names, REALITY key and short id and with the pins of its
    service; nothing unsigned enters the plan and nothing signed is lost. *)
Theorem verified_bundle_contents (input : bytes) (root : TrustedRoot) (now : Z)
    (b : VerifiedBundle) :
  is_i64 now → verify_bundle input root now = Ok b →
  vb_root_id b = trusted_root_id root
  ∧ vb_keyset_hash b = keyset_payload_hash (keyset_payload_bytes (vb_keyset b))
  ∧ vb_policy_hash b = policy_payload_hash (policy_payload_bytes (vb_policy b))
  ∧ vrp_policy_epoch (vb_plan b) = pol_policy_epoch (vb_policy b)
  ∧ vrp_sequence (vb_plan b) = pol_sequence (vb_policy b)
  ∧ vrp_expires_at (vb_plan b) = pol_expires_at (vb_policy b)
  ∧ endpoint_view <$> vrp_endpoints (vb_plan b) = policy_views (vb_policy b).
Proof.
  intros Hnow (signer & Ha & Hb & ? & ? & ? & _ & Hplan)%verify_bundle_Ok; [|done].
  destruct (build_verified_plan_views (vb_policy b)) as (plan & Hp & ? & ? & ? & ?).
  { destruct Hb as (? & ? & ? & _ & _ & He & _). eapply policy_plannable; [|done]. apply Ha. }
  rewrite Hplan in Hp. injection Hp as <-. done.
Qed.

End BundleTheory.

(** ** A concrete bundle *)

Module VerifySample.
Import Rfc8949 CoseSample.

(** Toy primitives: the digest keeps the last bytes, no key is degenerate. *)
#[export] Instance toy_crypto : PolicyCrypto := {|
  sha256 b := take 32 (rev b ++ zero_array 32);
  x25519 _ public_key := public_key;
|}.

Definition now : Z := 2000.
Definition root : TrustedRoot := mkTrustedRoot (replicate 16 Byte.x01) (replicate 32 Byte.x02).
Definition endpoint : RealityEndpointV2 :=
  mkRealityEndpointV2 (replicate 16 Byte.x04) RealityTcp (bz <$> [198; 51; 100; 7]) 443
    (Sample.str "vpn.example") (Sample.str "www.example") (replicate 32 Byte.x05)
    (replicate 8 Byte.x06).
Definition service : ServiceV2 := mkServiceV2 (replicate 16 Byte.x07) [Sample.pin] [endpoint].
Definition policy : EndpointPolicyV2 :=
  mkEndpointPolicyV2 0 (keyset_payload_hash (keyset_payload_bytes Sample.keyset)) 0 0
    1000 1000 400000 None [service]
    [mkPolicyRuleV2 ProtectedOnly [replicate 16 Byte.x07]] [].

Definition sign (ct : ContentType) (pk kid payload : bytes) : bytes :=
  bz COSE_SIGN1_TAG :: sign1_body (encode_protected_header (mkProtectedHeader ct kid)) payload
    (replicate 64 (List.hd Byte.x00 pk)).

Definition input : bytes := bundle_bytes (mkBundleBytes
  (sign CtKeyset (root_ed25519_public_key root) (root_kid root)
     (keyset_payload_bytes Sample.keyset))
  (sign CtEndpointPolicy (key_ed25519_public_key Sample.key) (key_kid Sample.key)
     (policy_payload_bytes policy))).

Lemma input_accepted : ∃ b, verify_bundle input root now = Ok b
  ∧ vb_keyset b = Sample.keyset ∧ vb_policy b = policy ∧ vb_signer_kid b = key_kid Sample.key.
Proof. eexists. split_and!; vm_compute; reflexivity. Qed.

Lemma verify_bundle_witness :
  ∃ signer, key_kid signer = key_kid Sample.key
            ∧ authorised root now Sample.keyset policy signer
            ∧ bundle_of root Sample.keyset policy signer input.
Proof.
  apply (verify_bundle_iff input root now Sample.keyset policy (key_kid Sample.key)).
  - split; vm_compute; congruence.
  - exact input_accepted.
Defined.

Lemma verified_bundle_contents_witness :
  ∃ b, verify_bundle input root now = Ok b
       ∧ endpoint_view <$> vrp_endpoints (vb_plan b) = policy_views policy.
Proof.
  destruct input_accepted as (b & Hb & _ & Hp & _). exists b. split; [exact Hb|]. rewrite <- Hp.
  refine (proj2 (proj2 (proj2 (proj2 (proj2 (proj2 (verified_bundle_contents input root now b
    _ Hb))))))).
  split; vm_compute; congruence.
Defined.

End VerifySample.
