(* ===== verification/PolicyState.v ===== *)
(** * Signed endpoint policy: the accepted state and its updates

    Models [shadowpipe-core/src/signed_policy/state.rs]: the durable state of a
    client, the checks that order keysets and policies, key and pin rotation, and
    the update functions.  A client's history is the step relation [update_step];
    the theorems follow it over arbitrarily many updates. *)

From S2P Require Import Prelude Minicbor PolicySchema PolicyCbor PolicyCose.
From S2P Require Import PolicyPlan PolicyVerify.

Record AcceptedPolicyState := mkAcceptedPolicyState {
  accepted : VerifiedBundle;
  max_issued_at : Z;
  max_wall_clock_seen : Z;
}.

Inductive Transition :=
| Applied (state : AcceptedPolicyState)
| Idempotent (state : AcceptedPolicyState).

Definition Transition_state (t : Transition) : AcceptedPolicyState :=
  match t with Applied state | Idempotent state => state end.

Definition elapsed_at_least (later earlier minimum : Z) : bool :=
  match i64_checked_sub later earlier with
  | Some elapsed => minimum <=? elapsed
  | None => false
  end.

Definition required_overlap_end (issued_at : Z) : result PolicyError Z :=
  ok_or (i64_checked_add issued_at MIN_ROTATION_OVERLAP_SECS) Rotation.

Definition ensure_live_at_apply (candidate : VerifiedBundle) (now : Z)
  : result PolicyError () :=
  let keyset := vb_keyset candidate in
  let policy := vb_policy candidate in
  if now <? 0 then Err Invalid else
  if (i64_saturating_add now MAX_CLOCK_SKEW_SECS <? ks_issued_at keyset)
     || (i64_saturating_add now MAX_CLOCK_SKEW_SECS <? pol_issued_at policy)
  then Err Invalid else
  if now <? ks_not_before keyset then Err (NotYetValid "online-key set") else
  if ks_expires_at keyset <=? now then Err (Expired "online-key set") else
  if now <? pol_not_before policy then Err (NotYetValid "endpoint policy") else
  if pol_expires_at policy <=? now then Err (Expired "endpoint policy") else
  signer ← ok_or (find_key keyset (vb_signer_kid candidate)) Invalid;
  if now <? key_not_before signer then Err (NotYetValid "policy signer key") else
  if key_expires_at signer <=? now then Err (Expired "policy signer key") else
  Ok ().

(** ** Key rotation *)

Definition key_live (s : KeyStatus) : bool :=
  match s with KeyActive | KeyRetiring => true | KeyRevoked => false end.

(** The body of the loop over the previous keys. *)
Definition rotate_key (candidate : KeysetV1) (overlap_end : Z) (has_live_overlap : bool)
    (old : OnlineKeyV1) : result PolicyError bool :=
  match find_key candidate (key_kid old) with
  | Some new =>
      if bool_decide (key_ed25519_public_key new ≠ key_ed25519_public_key old)
         || negb (key_not_before new =? key_not_before old)
         || negb (key_expires_at new =? key_expires_at old) then Err Rotation else
      let has_live_overlap' :=
        if key_live (key_status old) && key_live (key_status new)
           && (overlap_end <=? key_expires_at old) && (overlap_end <=? ks_expires_at candidate)
        then true else has_live_overlap in
      if bool_decide (key_status old = key_status new) then
        if negb (key_status_since new =? key_status_since old) then Err Rotation
        else Ok has_live_overlap'
      else
        match key_status old, key_status new with
        | KeyActive, KeyRetiring =>
            if negb (key_status_since new =? ks_issued_at candidate)
               || (key_expires_at old <? overlap_end)
               || (ks_expires_at candidate <? overlap_end)
            then Err Rotation else Ok has_live_overlap'
        | KeyRetiring, KeyRevoked =>
            if negb (key_status_since new =? ks_issued_at candidate)
               || negb (elapsed_at_least (ks_issued_at candidate) (key_status_since old)
                          MIN_ROTATION_OVERLAP_SECS)
            then Err Rotation else Ok has_live_overlap'
        | _, _ => Err Rotation
        end
  | None =>
      match key_status old with
      | KeyRevoked => Ok has_live_overlap
      | KeyRetiring =>
          if elapsed_at_least (ks_issued_at candidate) (key_status_since old)
               MIN_ROTATION_OVERLAP_SECS
          then Ok has_live_overlap else Err Rotation
      | KeyActive => Err Rotation
      end
  end.

(** The body of the loop over the candidate's keys. *)
Definition enter_key (previous candidate : KeysetV1) (new : OnlineKeyV1) : bool :=
  negb (forallb (λ old, bool_decide (key_kid old ≠ key_kid new)) (ks_keys previous)
        && (bool_decide (key_status new ≠ KeyActive)
            || negb (key_status_since new =? ks_issued_at candidate))).

Definition validate_key_rotation (previous candidate : KeysetV1) : result PolicyError () :=
  overlap_end ← required_overlap_end (ks_issued_at candidate);
  has_live_overlap ← fold_res (rotate_key candidate overlap_end) false (ks_keys previous);
  if negb (forallb (enter_key previous candidate) (ks_keys candidate)) then Err Rotation else
  if negb has_live_overlap then Err Rotation else Ok ().

(** ** Pin rotation *)

Definition find_pin (service : ServiceV2) (fingerprint : MlKemFingerprint)
  : option ServerPinV2 :=
  List.find (λ new, bool_decide (pin_fingerprint new = fingerprint)) (svc_pins service).

Definition rotate_pin (candidate : ServiceV2) (candidate_issued_at candidate_expires_at
    overlap_end : Z) (has_overlap : bool) (old : ServerPinV2) : result PolicyError bool :=
  match find_pin candidate (pin_fingerprint old) with
  | Some new =>
      if negb (pin_not_before new =? pin_not_before old)
         || negb (pin_expires_at new =? pin_expires_at old) then Err Rotation else
      if bool_decide (pin_status old = pin_status new) then
        if negb (pin_status_since new =? pin_status_since old) then Err Rotation else Ok true
      else
        match pin_status old, pin_status new with
        | PinActive, PinRetiring =>
            if negb (pin_status_since new =? candidate_issued_at)
               || (pin_expires_at old <? overlap_end)
               || (candidate_expires_at <? overlap_end)
            then Err Rotation else Ok true
        | _, _ => Err Rotation
        end
  | None =>
      if bool_decide (pin_status old ≠ PinRetiring)
         || negb (elapsed_at_least candidate_issued_at (pin_status_since old)
                    MIN_ROTATION_OVERLAP_SECS)
      then Err Rotation else Ok has_overlap
  end.

Definition enter_pin (previous : ServiceV2) (candidate_issued_at candidate_expires_at
    overlap_end : Z) (new : ServerPinV2) : bool :=
  if forallb (λ old, bool_decide (pin_fingerprint old ≠ pin_fingerprint new))
       (svc_pins previous)
  then negb (bool_decide (pin_status new ≠ PinActive)
             || negb (pin_status_since new =? candidate_issued_at))
       && negb (candidate_expires_at <? overlap_end)
  else true.

Definition validate_pin_rotation (previous candidate : ServiceV2)
    (candidate_issued_at candidate_expires_at : Z) : result PolicyError () :=
  overlap_end ← required_overlap_end candidate_issued_at;
  has_overlap ← fold_res
    (rotate_pin candidate candidate_issued_at candidate_expires_at overlap_end) false
    (svc_pins previous);
  if negb (forallb (enter_pin previous candidate_issued_at candidate_expires_at overlap_end)
             (svc_pins candidate)) then Err Rotation else
  if negb has_overlap then Err Rotation else Ok ().

(** ** Coordinates *)

Definition check_keyset_coordinate_parts (previous : KeysetV1) (previous_hash : PayloadHash)
    (candidate : KeysetV1) (candidate_hash : PayloadHash) : result PolicyError bool :=
  let old_epoch := ks_keyset_epoch previous in
  let new_epoch := ks_keyset_epoch candidate in
  if new_epoch <? old_epoch then Err Rollback else
  if new_epoch =? old_epoch then
    if bool_decide (candidate_hash ≠ previous_hash) then Err Fork else
    if bool_decide (candidate ≠ previous) then Err Fork else
    Ok false
  else
  expected ← ok_or (u64_checked_add old_epoch 1) Gap;
  if negb (new_epoch =? expected) then Err Gap else
  if bool_decide (ks_previous_payload_hash candidate ≠ Some previous_hash)
  then Err Chain else
  if ks_issued_at candidate <? ks_issued_at previous then Err Rollback else
  _ ← validate_key_rotation previous candidate;
  Ok true.

Definition check_keyset_coordinate (previous candidate : VerifiedBundle)
  : result PolicyError bool :=
  check_keyset_coordinate_parts (vb_keyset previous) (vb_keyset_hash previous)
    (vb_keyset candidate) (vb_keyset_hash candidate).

Definition validate_keyset_successor (previous : VerifiedBundle)
    (candidate : VerifiedKeysetArtifact) : result PolicyError () :=
  if bool_decide (vka_root_id candidate ≠ vb_root_id previous) then Err Rotation else
  advanced ← check_keyset_coordinate_parts (vb_keyset previous) (vb_keyset_hash previous)
               (vka_keyset candidate) (vka_payload_hash candidate);
  if negb advanced then Err Fork else Ok ().

Definition check_policy_coordinate (previous candidate : VerifiedBundle)
  : result PolicyError bool :=
  let old_epoch := pol_policy_epoch (vb_policy previous) in
  let old_sequence := pol_sequence (vb_policy previous) in
  let new_epoch := pol_policy_epoch (vb_policy candidate) in
  let new_sequence := pol_sequence (vb_policy candidate) in
  if (new_epoch <? old_epoch) || ((new_epoch =? old_epoch) && (new_sequence <? old_sequence))
  then Err Rollback else
  if (new_epoch =? old_epoch) && (new_sequence =? old_sequence) then
    if bool_decide (vb_policy_hash candidate ≠ vb_policy_hash previous) then Err Fork else
    if bool_decide (vb_policy candidate ≠ vb_policy previous) then Err Fork else
    Ok false
  else
  _ ← (if new_epoch =? old_epoch then
         expected ← ok_or (u64_checked_add old_sequence 1) Gap;
         if negb (new_sequence =? expected) then Err Gap else Ok ()
       else
         expected_epoch ← ok_or (u64_checked_add old_epoch 1) Gap;
         if negb (new_epoch =? expected_epoch) || negb (new_sequence =? 0)
         then Err Gap else Ok ());
  if bool_decide (pol_previous_payload_hash (vb_policy candidate)
                  ≠ Some (vb_policy_hash previous)) then Err Chain else
  if pol_issued_at (vb_policy candidate) <? pol_issued_at (vb_policy previous)
  then Err Rollback else
  let previous_service_ids := svc_service_id <$> pol_services (vb_policy previous) in
  let candidate_service_ids := svc_service_id <$> pol_services (vb_policy candidate) in
  if bool_decide (candidate_service_ids ≠ previous_service_ids) then Err Rotation else
  _ ← fold_res (λ _ '(old_service, new_service),
        validate_pin_rotation old_service new_service
          (pol_issued_at (vb_policy candidate)) (pol_expires_at (vb_policy candidate)))
      () (zip (pol_services (vb_policy previous)) (pol_services (vb_policy candidate)));
  Ok true.

(** ** Updates *)

Definition apply_verified_update (previous : option AcceptedPolicyState)
    (candidate : VerifiedBundle) (now : Z) : result PolicyError Transition :=
  let candidate_max_issued :=
    Z.max (ks_issued_at (vb_keyset candidate)) (pol_issued_at (vb_policy candidate)) in
  match previous with
  | None =>
      _ ← ensure_live_at_apply candidate now;
      if negb (ks_keyset_epoch (vb_keyset candidate) =? 0)
         || negb (pol_policy_epoch (vb_policy candidate) =? 0)
         || negb (pol_sequence (vb_policy candidate) =? 0) then Err Gap else
      if bool_decide (is_Some (ks_previous_payload_hash (vb_keyset candidate)))
         || bool_decide (is_Some (pol_previous_payload_hash (vb_policy candidate)))
      then Err Chain else
      Ok (Applied (mkAcceptedPolicyState candidate candidate_max_issued now))
  | Some previous =>
      if i64_saturating_add now MAX_CLOCK_SKEW_SECS <? max_wall_clock_seen previous
      then Err Rollback else
      _ ← ensure_live_at_apply candidate now;
      if bool_decide (vb_root_id candidate ≠ vb_root_id (accepted previous))
      then Err Rotation else
      if candidate_max_issued <? max_issued_at previous then Err Rollback else
      keyset_changed ← check_keyset_coordinate (accepted previous) candidate;
      policy_changed ← check_policy_coordinate (accepted previous) candidate;
      if keyset_changed && negb policy_changed then Err Fork else
      let state := mkAcceptedPolicyState candidate
        (Z.max (max_issued_at previous) candidate_max_issued)
        (Z.max (max_wall_clock_seen previous) now) in
      if keyset_changed || policy_changed then Ok (Applied state) else Ok (Idempotent state)
  end.

Definition apply_verified_successor (previous candidate : VerifiedBundle) (now : Z)
  : result PolicyError Transition :=
  _ ← ensure_live_at_apply previous now;
  let previous_max_issued :=
    Z.max (ks_issued_at (vb_keyset previous)) (pol_issued_at (vb_policy previous)) in
  let previous_state := mkAcceptedPolicyState previous previous_max_issued now in
  apply_verified_update (Some previous_state) candidate now.

(** ** What a rotation step allows *)

(** [later] is at least the rotation overlap after [earlier], computed without
    overflow. *)
Definition overlap_elapsed (later earlier : Z) : Prop :=
  is_i64 (later - earlier) ∧ MIN_ROTATION_OVERLAP_SECS ≤ later - earlier.

(** The status life cycle of a key: active, then retiring for the complete overlap,
    then revoked. *)
Inductive key_status_next (cand : KeysetV1) (overlap_end : Z) (old new : OnlineKeyV1) : Prop :=
| key_unchanged :
    key_status old = key_status new → key_status_since new = key_status_since old →
    key_status_next cand overlap_end old new
| key_retires :
    key_status old = KeyActive → key_status new = KeyRetiring →
    key_status_since new = ks_issued_at cand →
    overlap_end ≤ key_expires_at old → overlap_end ≤ ks_expires_at cand →
    key_status_next cand overlap_end old new
| key_revoked :
    key_status old = KeyRetiring → key_status new = KeyRevoked →
    key_status_since new = ks_issued_at cand →
    overlap_elapsed (ks_issued_at cand) (key_status_since old) →
    key_status_next cand overlap_end old new.

Definition same_key (old new : OnlineKeyV1) : Prop :=
  key_ed25519_public_key new = key_ed25519_public_key old
  ∧ key_not_before new = key_not_before old ∧ key_expires_at new = key_expires_at old.

Definition key_next (cand : KeysetV1) (overlap_end : Z) (old : OnlineKeyV1) : Prop :=
  match find_key cand (key_kid old) with
  | Some new => same_key old new ∧ key_status_next cand overlap_end old new
  | None => key_status old = KeyRevoked
            ∨ key_status old = KeyRetiring
              ∧ overlap_elapsed (ks_issued_at cand) (key_status_since old)
  end.

(** A key that both keysets verify with until the end of the overlap. *)
Definition key_overlaps (cand : KeysetV1) (overlap_end : Z) (old : OnlineKeyV1) : bool :=
  match find_key cand (key_kid old) with
  | Some new => key_live (key_status old) && key_live (key_status new)
                && (overlap_end <=? key_expires_at old) && (overlap_end <=? ks_expires_at cand)
  | None => false
  end.

Definition key_enters (prev cand : KeysetV1) (new : OnlineKeyV1) : Prop :=
  key_kid new ∉ key_kid <$> ks_keys prev →
  key_status new = KeyActive ∧ key_status_since new = ks_issued_at cand.

Record key_rotation (prev cand : KeysetV1) (overlap_end : Z) : Prop := {
  kr_end : overlap_end = ks_issued_at cand + MIN_ROTATION_OVERLAP_SECS ∧ is_i64 overlap_end;
  kr_each : Forall (key_next cand overlap_end) (ks_keys prev);
  kr_new : Forall (key_enters prev cand) (ks_keys cand);
  kr_overlap : existsb (key_overlaps cand overlap_end) (ks_keys prev) = true;
}.

Definition pin_next (cand : ServiceV2) (issued expires overlap_end : Z) (old : ServerPinV2)
  : Prop :=
  match find_pin cand (pin_fingerprint old) with
  | Some new =>
      (pin_not_before new = pin_not_before old ∧ pin_expires_at new = pin_expires_at old)
      ∧ (pin_status old = pin_status new ∧ pin_status_since new = pin_status_since old
         ∨ pin_status old = PinActive ∧ pin_status new = PinRetiring
           ∧ pin_status_since new = issued
           ∧ overlap_end ≤ pin_expires_at old ∧ overlap_end ≤ expires)
  | None => pin_status old = PinRetiring ∧ overlap_elapsed issued (pin_status_since old)
  end.

Definition pin_stays (cand : ServiceV2) (old : ServerPinV2) : bool :=
  bool_decide (is_Some (find_pin cand (pin_fingerprint old))).

Definition pin_enters (prev : ServiceV2) (issued expires overlap_end : Z) (new : ServerPinV2)
  : Prop :=
  pin_fingerprint new ∉ pin_fingerprint <$> svc_pins prev →
  pin_status new = PinActive ∧ pin_status_since new = issued ∧ overlap_end ≤ expires.

Record pin_rotation (prev cand : ServiceV2) (issued expires overlap_end : Z) : Prop := {
  pr_end : overlap_end = issued + MIN_ROTATION_OVERLAP_SECS ∧ is_i64 overlap_end;
  pr_each : Forall (pin_next cand issued expires overlap_end) (svc_pins prev);
  pr_new : Forall (pin_enters prev issued expires overlap_end) (svc_pins cand);
  pr_overlap : existsb (pin_stays cand) (svc_pins prev) = true;
}.

(** ** The rotation loops compute exactly that *)

Lemma elapsed_at_least_true later earlier :
  elapsed_at_least later earlier MIN_ROTATION_OVERLAP_SECS = true ↔
  overlap_elapsed later earlier.
Proof.
  unfold elapsed_at_least, overlap_elapsed.
  destruct (i64_checked_sub later earlier) as [e|] eqn:He.
  - apply i64_checked_sub_Some in He as [-> ?]. rewrite Z.leb_le. naive_solver.
  - split; [done|]. intros [Hi _].
    by rewrite (proj2 (i64_checked_sub_Some _ _ _) (conj eq_refl Hi)) in He.
Qed.

Lemma required_overlap_end_Ok issued e :
  required_overlap_end issued = Ok e ↔ e = issued + MIN_ROTATION_OVERLAP_SECS ∧ is_i64 e.
Proof.
  unfold required_overlap_end. rewrite ok_or_Ok, i64_checked_add_Some. naive_solver.
Qed.

(** A loop whose body checks a predicate and accumulates a disjunction. *)
Lemma fold_res_check {E A} (f : bool → A → result E bool) (P : A → Prop) (q : A → bool) l :
  (∀ b a b', f b a = Ok b' ↔ P a ∧ b' = b || q a) →
  ∀ b b', fold_res f b l = Ok b' ↔ Forall P l ∧ b' = b || existsb q l.
Proof.
  intros Hf. induction l as [|a l IH]; intros b b'; simpl.
  { rewrite orb_false_r. split; [intros [= <-]; done|intros [_ ->]; done]. }
  rewrite bind_Ok, Forall_cons. setoid_rewrite Hf. setoid_rewrite IH. split.
  - intros (? & [? ->] & ? & ->). by rewrite orb_assoc.
  - intros [[? ?] ->]. eexists. split; [done|]. by rewrite orb_assoc.
Qed.

Lemma if_true_orb (b c : bool) : (if c then true else b) = b || c.
Proof. by destruct b, c. Qed.

Lemma key_status_next_inv cand e old new :
  key_status_next cand e old new ↔
  (key_status old = key_status new ∧ key_status_since new = key_status_since old)
  ∨ (key_status old = KeyActive ∧ key_status new = KeyRetiring
     ∧ key_status_since new = ks_issued_at cand
     ∧ e ≤ key_expires_at old ∧ e ≤ ks_expires_at cand)
  ∨ (key_status old = KeyRetiring ∧ key_status new = KeyRevoked
     ∧ key_status_since new = ks_issued_at cand
     ∧ overlap_elapsed (ks_issued_at cand) (key_status_since old)).
Proof.
  split.
  - intros []; naive_solver.
  - intros [[]|[(?&?&?&?&?)|(?&?&?&?)]]; [by apply key_unchanged|by apply key_retires|
      by apply key_revoked].
Qed.

Lemma rotate_key_Ok cand e b old b' :
  rotate_key cand e b old = Ok b' ↔ key_next cand e old ∧ b' = b || key_overlaps cand e old.
Proof.
  unfold rotate_key, key_next, key_overlaps.
  destruct (find_key cand (key_kid old)) as [new|] eqn:Hfind.
  - rewrite if_true_orb, if_err_Ok, !orb_false_iff, bool_decide_eq_false, !negb_false_iff,
      !Z.eqb_eq, key_status_next_inv.
    unfold same_key. set (o := key_live _ && _ && _ && _).
    assert ((if bool_decide (key_status old = key_status new)
      then if negb (key_status_since new =? key_status_since old) then Err Rotation
           else Ok (b || o)
      else match key_status old, key_status new with
        | KeyActive, KeyRetiring =>
            if negb (key_status_since new =? ks_issued_at cand)
               || (key_expires_at old <? e) || (ks_expires_at cand <? e)
            then Err Rotation else Ok (b || o)
        | KeyRetiring, KeyRevoked =>
            if negb (key_status_since new =? ks_issued_at cand)
               || negb (elapsed_at_least (ks_issued_at cand) (key_status_since old)
                          MIN_ROTATION_OVERLAP_SECS)
            then Err Rotation else Ok (b || o)
        | _, _ => Err Rotation
        end) = Ok b' ↔
      ((key_status old = key_status new ∧ key_status_since new = key_status_since old)
       ∨ (key_status old = KeyActive ∧ key_status new = KeyRetiring
          ∧ key_status_since new = ks_issued_at cand
          ∧ e ≤ key_expires_at old ∧ e ≤ ks_expires_at cand)
       ∨ (key_status old = KeyRetiring ∧ key_status new = KeyRevoked
          ∧ key_status_since new = ks_issued_at cand
          ∧ overlap_elapsed (ks_issued_at cand) (key_status_since old))) ∧ b' = b || o) as ->.
    { clearbody o. destruct (key_status old), (key_status new); simpl;
        rewrite ?if_err_Ok, ?orb_false_iff, ?negb_false_iff, ?Z.eqb_eq, ?Z.ltb_ge,
          ?elapsed_at_least_true; naive_solver. }
    destruct (decide (key_ed25519_public_key new = key_ed25519_public_key old)); naive_solver.
  - rewrite orb_false_r. pose proof (elapsed_at_least_true (ks_issued_at cand)
      (key_status_since old)). destruct (key_status old); [naive_solver| |naive_solver].
    destruct (elapsed_at_least _ _ _); naive_solver.
Qed.

Lemma not_in_forallb {A} (f : A → bytes) (x : bytes) l :
  forallb (λ a, bool_decide (f a ≠ x)) l = true ↔ x ∉ f <$> l.
Proof.
  rewrite forallb_forall, list_elem_of_fmap. setoid_rewrite bool_decide_eq_true.
  setoid_rewrite <- list_elem_of_In. naive_solver.
Qed.

Lemma enter_key_true prev cand new : enter_key prev cand new = true ↔ key_enters prev cand new.
Proof.
  unfold enter_key, key_enters. pose proof (not_in_forallb key_kid (key_kid new) (ks_keys prev)).
  destruct (forallb _ _); simpl; [|naive_solver].
  rewrite negb_true_iff, orb_false_iff, bool_decide_eq_false, negb_false_iff, Z.eqb_eq.
  destruct (key_status new); naive_solver.
Qed.

Lemma forallb_Forall_iff {A} (f : A → bool) (P : A → Prop) l :
  (∀ a, f a = true ↔ P a) → forallb f l = true ↔ Forall P l.
Proof.
  intros Hf. rewrite forallb_forall, Forall_forall. setoid_rewrite list_elem_of_In.
  naive_solver.
Qed.

Lemma validate_key_rotation_Ok prev cand :
  validate_key_rotation prev cand = Ok () ↔ ∃ e, key_rotation prev cand e.
Proof.
  unfold validate_key_rotation. rewrite bind_Ok. setoid_rewrite required_overlap_end_Ok.
  setoid_rewrite bind_Ok.
  setoid_rewrite (fold_res_check _ _ _ _ (rotate_key_Ok cand _)).
  setoid_rewrite if_err_Ok. setoid_rewrite negb_false_iff.
  setoid_rewrite (forallb_Forall_iff _ _ _ (enter_key_true prev cand)). simpl. split.
  - intros (e & He & b & [Hall ->] & Hnew & Hb). exists e.
    destruct (existsb _ _) eqn:?; [|done]. by split.
  - intros (e & [He ? ? Ho]). exists e. split; [done|]. exists true. by rewrite Ho.
Qed.

Lemma rotate_pin_Ok cand issued expires e b old b' :
  rotate_pin cand issued expires e b old = Ok b' ↔
  pin_next cand issued expires e old ∧ b' = b || pin_stays cand old.
Proof.
  unfold rotate_pin, pin_next, pin_stays.
  destruct (find_pin cand (pin_fingerprint old)) as [new|] eqn:Hfind.
  - rewrite (bool_decide_eq_true_2 (is_Some (Some new))) by (by eexists).
    rewrite orb_true_r.
    rewrite if_err_Ok, !orb_false_iff, !negb_false_iff, !Z.eqb_eq.
    destruct (pin_status old), (pin_status new); simpl;
      rewrite ?if_err_Ok, ?orb_false_iff, ?negb_false_iff, ?Z.eqb_eq, ?Z.ltb_ge; naive_solver.
  - rewrite (bool_decide_eq_false_2 (is_Some None)) by (intros []; done).
    rewrite orb_false_r.
    rewrite if_err_Ok, orb_false_iff, bool_decide_eq_false, negb_false_iff,
      elapsed_at_least_true. destruct (pin_status old); naive_solver.
Qed.

Lemma enter_pin_true prev issued expires e new :
  enter_pin prev issued expires e new = true ↔ pin_enters prev issued expires e new.
Proof.
  unfold enter_pin, pin_enters.
  pose proof (not_in_forallb pin_fingerprint (pin_fingerprint new) (svc_pins prev)).
  destruct (forallb _ _); simpl; [|naive_solver].
  rewrite andb_true_iff, !negb_true_iff, orb_false_iff, bool_decide_eq_false, negb_false_iff,
    Z.eqb_eq, Z.ltb_ge.
  destruct (pin_status new); naive_solver.
Qed.

Lemma validate_pin_rotation_Ok prev cand issued expires :
  validate_pin_rotation prev cand issued expires = Ok () ↔
  ∃ e, pin_rotation prev cand issued expires e.
Proof.
  unfold validate_pin_rotation. rewrite bind_Ok. setoid_rewrite required_overlap_end_Ok.
  setoid_rewrite bind_Ok.
  setoid_rewrite (fold_res_check _ _ _ _ (rotate_pin_Ok cand issued expires _)).
  setoid_rewrite if_err_Ok. setoid_rewrite negb_false_iff.
  setoid_rewrite (forallb_Forall_iff _ _ _ (enter_pin_true prev issued expires _)). simpl. split.
  - intros (e & He & b & [Hall ->] & Hnew & Hb). exists e.
    destruct (existsb _ _) eqn:?; [|done]. by split.
  - intros (e & [He ? ? Ho]). exists e. split; [done|]. exists true. by rewrite Ho.
Qed.

(** ** Successors *)

Record keyset_successor (prev : KeysetV1) (prev_hash : PayloadHash) (cand : KeysetV1) : Prop := {
  kss_epoch : ks_keyset_epoch cand = ks_keyset_epoch prev + 1
              ∧ ks_keyset_epoch prev + 1 < 2 ^ 64;
  kss_chain : ks_previous_payload_hash cand = Some prev_hash;
  kss_issued : ks_issued_at prev ≤ ks_issued_at cand;
  kss_rotation : ∃ e, key_rotation prev cand e;
}.

(** The next coordinate in the order of (policy epoch, sequence). *)
Definition next_coordinate (old_epoch old_sequence new_epoch new_sequence : Z) : Prop :=
  (new_epoch = old_epoch ∧ new_sequence = old_sequence + 1 ∧ old_sequence + 1 < 2 ^ 64)
  ∨ (new_epoch = old_epoch + 1 ∧ new_sequence = 0 ∧ old_epoch + 1 < 2 ^ 64).

Definition service_successor (cand : EndpointPolicyV2) (old new : ServiceV2) : Prop :=
  svc_service_id new = svc_service_id old
  ∧ ∃ e, pin_rotation old new (pol_issued_at cand) (pol_expires_at cand) e.

Record policy_successor (prev : EndpointPolicyV2) (prev_hash : PayloadHash)
    (cand : EndpointPolicyV2) : Prop := {
  ps_coordinate : next_coordinate (pol_policy_epoch prev) (pol_sequence prev)
                    (pol_policy_epoch cand) (pol_sequence cand);
  ps_chain : pol_previous_payload_hash cand = Some prev_hash;
  ps_issued : pol_issued_at prev ≤ pol_issued_at cand;
  ps_services : Forall2 (service_successor cand) (pol_services prev) (pol_services cand);
}.

Lemma check_keyset_coordinate_parts_Ok prev ph cand ch changed :
  check_keyset_coordinate_parts prev ph cand ch = Ok changed ↔
  if changed then keyset_successor prev ph cand
  else cand = prev ∧ ch = ph.
Proof.
  unfold check_keyset_coordinate_parts. rewrite if_err_Ok, Z.ltb_ge.
  destruct (Z.eqb_spec (ks_keyset_epoch cand) (ks_keyset_epoch prev)) as [He|He].
  - rewrite !if_err_Ok, !bool_decide_eq_false. destruct changed.
    + split; [naive_solver|]. intros [[? _] _ _ _]. lia.
    + split.
      * intros (_ & Hh & Hc & _). by split; apply dec_stable.
      * intros [-> ->]. split; [lia|]. naive_solver.
  - rewrite bind_Ok. setoid_rewrite ok_or_Ok. setoid_rewrite u64_checked_add_Some.
    setoid_rewrite if_err_Ok. setoid_rewrite if_err_Ok. setoid_rewrite if_err_Ok.
    setoid_rewrite negb_false_iff. setoid_rewrite Z.eqb_eq. setoid_rewrite bool_decide_eq_false.
    setoid_rewrite Z.ltb_ge. setoid_rewrite bind_Ok. split.
    + intros (_ & ? & [-> ?] & Hn & Hc & Hi & [] & Hr%validate_key_rotation_Ok & [= <-]).
      split; [done|by apply dec_stable|done|done].
    + destruct changed; [|by intros [-> _]].
      intros [[Hn ?] Hc ? Hr]. split; [lia|]. eexists. split; [done|].
      split; [done|]. split; [naive_solver|]. split; [done|].
      exists (). by rewrite validate_key_rotation_Ok.
Qed.

Lemma rotate_services_Ok cand l1 l2 :
  svc_service_id <$> l2 = svc_service_id <$> l1 →
  fold_res (λ _ '(old_service, new_service),
    validate_pin_rotation old_service new_service (pol_issued_at cand) (pol_expires_at cand))
    () (zip l1 l2) = Ok () ↔ Forall2 (service_successor cand) l1 l2.
Proof.
  revert l2; induction l1 as [|o l1 IH]; intros [|n l2] Hids; try done.
  rewrite !fmap_cons in Hids. injection Hids as Hid Hrest. simpl. rewrite bind_Ok, Forall2_cons. unfold service_successor at 1.
  split.
  - intros ([] & Hr%validate_pin_rotation_Ok & Hf%IH); done.
  - intros [[? Hr] ?]. exists (). by rewrite validate_pin_rotation_Ok, IH.
Qed.

Lemma check_policy_coordinate_Ok prev cand changed :
  check_policy_coordinate prev cand = Ok changed ↔
  if changed
  then policy_successor (vb_policy prev) (vb_policy_hash prev) (vb_policy cand)
  else vb_policy cand = vb_policy prev ∧ vb_policy_hash cand = vb_policy_hash prev.
Proof.
  unfold check_policy_coordinate. set (p := vb_policy prev). set (c := vb_policy cand).
  rewrite if_err_Ok, orb_false_iff, andb_false_iff, Z.ltb_ge, Z.eqb_neq, Z.ltb_ge.
  destruct (decide (pol_policy_epoch c = pol_policy_epoch p
                    ∧ pol_sequence c = pol_sequence p)) as [[He Hs]|Hn].
  - rewrite He, Hs, !Z.eqb_refl. simpl. rewrite !if_err_Ok, !bool_decide_eq_false.
    destruct changed.
    + split; [naive_solver|]. intros [[?|?] _ _ _]; lia.
    + split.
      * intros (_ & Hh & Hc & _). by split; apply dec_stable.
      * intros [-> ->]. split; [lia|]. naive_solver.
  - assert ((pol_policy_epoch c =? pol_policy_epoch p) && (pol_sequence c =? pol_sequence p)
            = false) as -> by (rewrite andb_false_iff, !Z.eqb_neq; lia).
    assert (∀ x, (if pol_policy_epoch c =? pol_policy_epoch p then
         expected ← ok_or (u64_checked_add (pol_sequence p) 1) Gap;
         if negb (pol_sequence c =? expected) then Err Gap else Ok ()
       else
         expected_epoch ← ok_or (u64_checked_add (pol_policy_epoch p) 1) Gap;
         if negb (pol_policy_epoch c =? expected_epoch) || negb (pol_sequence c =? 0)
         then Err Gap else Ok ()) = Ok x ↔
       next_coordinate (pol_policy_epoch p) (pol_sequence p)
         (pol_policy_epoch c) (pol_sequence c)) as Hcoord.
    { intros []. unfold next_coordinate. destruct (Z.eqb_spec (pol_policy_epoch c)
        (pol_policy_epoch p)) as [He|He]; rewrite bind_Ok; split.
      - intros (x & [-> ?]%ok_or_Ok%u64_checked_add_Some & [Hx _]%if_err_Ok).
        rewrite negb_false_iff, Z.eqb_eq in Hx. lia.
      - intros Hx. exists (pol_sequence p + 1).
        rewrite ok_or_Ok, u64_checked_add_Some, if_err_Ok, negb_false_iff, Z.eqb_eq. naive_solver lia.
      - intros (x & [-> ?]%ok_or_Ok%u64_checked_add_Some & [Hx _]%if_err_Ok).
        rewrite orb_false_iff, !negb_false_iff, !Z.eqb_eq in Hx. lia.
      - intros Hx. exists (pol_policy_epoch p + 1). rewrite ok_or_Ok, u64_checked_add_Some,
          if_err_Ok, orb_false_iff, !negb_false_iff, !Z.eqb_eq. naive_solver lia. }
    rewrite bind_Ok. split.
    + intros (_ & x & Hx%Hcoord & H). apply if_err_Ok in H as [Hc%bool_decide_eq_false H].
      apply if_err_Ok in H as [Hi%Z.ltb_ge H].
      apply if_err_Ok in H as [Hids%bool_decide_eq_false H].
      apply bind_Ok in H as ([] & Hf & [= <-]). apply dec_stable in Hc, Hids.
      apply rotate_services_Ok in Hf; [|done]. by split.
    + destruct changed; [|intros [Hc _]; destruct Hn; fold p c in Hc; by rewrite Hc].
      intros [Hco Hc ? Hsv]. split; [destruct Hco; lia|]. exists (). rewrite Hcoord.
      split; [done|]. rewrite !if_err_Ok, !bool_decide_eq_false, Z.ltb_ge, bind_Ok.
      split; [naive_solver|]. split; [done|].
      assert (svc_service_id <$> pol_services c = svc_service_id <$> pol_services p) as Hids.
      { clear -Hsv. induction Hsv as [|o n ? ? [Hid _] _ IH]; [done|].
        by rewrite !fmap_cons, Hid, IH. }
      split; [naive_solver|]. exists (). by rewrite rotate_services_Ok.
Qed.

(** ** Updates *)

(** Every object of the bundle is valid at [now] and was not issued in the future. *)
Record live_at (c : VerifiedBundle) (now : Z) : Prop := {
  la_now : 0 ≤ now;
  la_keyset_issued : ks_issued_at (vb_keyset c) ≤ i64_saturating_add now MAX_CLOCK_SKEW_SECS;
  la_policy_issued : pol_issued_at (vb_policy c) ≤ i64_saturating_add now MAX_CLOCK_SKEW_SECS;
  la_keyset : ks_not_before (vb_keyset c) ≤ now < ks_expires_at (vb_keyset c);
  la_policy : pol_not_before (vb_policy c) ≤ now < pol_expires_at (vb_policy c);
  la_signer : ∃ k, find_key (vb_keyset c) (vb_signer_kid c) = Some k
                   ∧ key_not_before k ≤ now < key_expires_at k;
}.

Lemma ensure_live_at_apply_Ok c now : ensure_live_at_apply c now = Ok () ↔ live_at c now.
Proof.
  unfold ensure_live_at_apply.
  rewrite !if_err_Ok, orb_false_iff, !Z.ltb_ge, !Z.leb_gt, bind_Ok. split.
  - intros (? & [? ?] & ? & ? & ? & ? & k & Hk%ok_or_Ok & Hl).
    rewrite !if_err_Ok, Z.ltb_ge, Z.leb_gt in Hl. split; try done. exists k. naive_solver.
  - intros [? ? ? [? ?] [? ?] (k & Hk & ? & ?)]. do 6 (split; [done|]).
    exists k. rewrite ok_or_Ok, !if_err_Ok, Z.ltb_ge, Z.leb_gt. done.
Qed.

Definition issued_floor (c : VerifiedBundle) : Z :=
  Z.max (ks_issued_at (vb_keyset c)) (pol_issued_at (vb_policy c)).

Definition same_keyset (p c : VerifiedBundle) : Prop :=
  vb_keyset c = vb_keyset p ∧ vb_keyset_hash c = vb_keyset_hash p.
Definition same_policy (p c : VerifiedBundle) : Prop :=
  vb_policy c = vb_policy p ∧ vb_policy_hash c = vb_policy_hash p.
Definition next_keyset (p c : VerifiedBundle) : Prop :=
  keyset_successor (vb_keyset p) (vb_keyset_hash p) (vb_keyset c).
Definition next_policy (p c : VerifiedBundle) : Prop :=
  policy_successor (vb_policy p) (vb_policy_hash p) (vb_policy c).

(** What an update of [s] by [c] at [now] needs besides its place in the order. *)
Record update_guard (s : AcceptedPolicyState) (c : VerifiedBundle) (now : Z) : Prop := {
  ug_clock : max_wall_clock_seen s ≤ i64_saturating_add now MAX_CLOCK_SKEW_SECS;
  ug_live : live_at c now;
  ug_root : vb_root_id c = vb_root_id (accepted s);
  ug_floor : max_issued_at s ≤ issued_floor c;
}.

Definition updated (s : AcceptedPolicyState) (c : VerifiedBundle) (now : Z)
  : AcceptedPolicyState :=
  mkAcceptedPolicyState c (Z.max (max_issued_at s) (issued_floor c))
    (Z.max (max_wall_clock_seen s) now).

Lemma apply_update_Ok s c now t :
  apply_verified_update (Some s) c now = Ok t ↔
  update_guard s c now
  ∧ ((next_keyset (accepted s) c ∨ same_keyset (accepted s) c) ∧ next_policy (accepted s) c
       ∧ t = Applied (updated s c now)
     ∨ same_keyset (accepted s) c ∧ same_policy (accepted s) c
       ∧ t = Idempotent (updated s c now)).
Proof.
  unfold apply_verified_update. fold (issued_floor c). split.
  - intros [Hclock%Z.ltb_ge H]%if_err_Ok.
    apply bind_Ok in H as ([] & Hlive%ensure_live_at_apply_Ok & H).
    apply if_err_Ok in H as [Hroot%bool_decide_eq_false H]. apply dec_stable in Hroot.
    apply if_err_Ok in H as [Hfloor%Z.ltb_ge H].
    apply bind_Ok in H as (kc & Hk & H). apply bind_Ok in H as (pc & Hp & H).
    apply if_err_Ok in H as [Hkp H]. unfold check_keyset_coordinate in Hk.
    apply check_keyset_coordinate_parts_Ok in Hk. apply check_policy_coordinate_Ok in Hp.
    split; [by split|]. destruct kc, pc; simpl in *; try done; injection H as <-.
    + left. split; [by left|done].
    + left. split; [by right|done].
    + by right.
  - intros [[Hclock Hlive Hroot Hfloor] Hc].
    rewrite if_err_Ok, Z.ltb_ge, bind_Ok. split; [done|]. exists ().
    rewrite ensure_live_at_apply_Ok. split; [done|].
    rewrite !if_err_Ok, bool_decide_eq_false, Z.ltb_ge. split; [naive_solver|]. split; [done|].
    rewrite bind_Ok.
    destruct Hc as [(Hk & Hp & ->)|(Hk & Hp & ->)].
    + exists (bool_decide (ks_keyset_epoch (vb_keyset c)
                           ≠ ks_keyset_epoch (vb_keyset (accepted s)))).
      split; [|rewrite (proj2 (check_policy_coordinate_Ok _ _ true) Hp); simpl;
               by rewrite andb_false_r, orb_true_r].
      unfold check_keyset_coordinate. apply check_keyset_coordinate_parts_Ok.
      destruct Hk as [Hk|Hk]; case_bool_decide as Hb; try done.
      * destruct Hk as [[? _] _ _ _]. lia.
      * destruct Hk as [Hk _]. by rewrite Hk in Hb.
    + exists false. unfold check_keyset_coordinate. rewrite check_keyset_coordinate_parts_Ok.
      split; [done|]. by rewrite (proj2 (check_policy_coordinate_Ok _ _ false) Hp).
Qed.

(** Updates, completely: an update is applied exactly when the candidate is live, from
    the same root, within the clock and issue-time floors, and is the immediate successor
    of the accepted policy in the hash-linked order, under the accepted keyset or its
    immediate, correctly rotated successor.  The new state is the candidate with floors
    raised. *)
Theorem apply_verified_update_iff (s s' : AcceptedPolicyState) (c : VerifiedBundle) (now : Z) :
  apply_verified_update (Some s) c now = Ok (Applied s') ↔
  update_guard s c now
  ∧ (next_keyset (accepted s) c ∨ same_keyset (accepted s) c)
  ∧ next_policy (accepted s) c
  ∧ s' = updated s c now.
Proof. rewrite apply_update_Ok. naive_solver. Qed.

(** Applying an update again is idempotent: right after a bundle was accepted, the same
    bundle at the same time is accepted as [Idempotent] and leaves the state as it is. *)
Theorem reapply_idempotent (s : AcceptedPolicyState) (c : VerifiedBundle) (now : Z)
    (t : Transition) :
  is_i64 now → apply_verified_update (Some s) c now = Ok t →
  apply_verified_update (Some (Transition_state t)) c now = Ok (Idempotent (Transition_state t)).
Proof.
  intros Hnow [[Hclock Hlive Hroot Hfloor] Ht]%apply_update_Ok.
  assert (Transition_state t = updated s c now) as -> by naive_solver.
  apply apply_update_Ok. split.
  - split; [|done|done|].
    + assert (now ≤ i64_saturating_add now MAX_CLOCK_SKEW_SECS); [|simpl; lia].
      destruct Hlive as [? _ _ _ _ _]. unfold i64_saturating_add, is_i64 in *. unfold_bounds.
      lia.
    + simpl. lia.
  - right. split_and!; [done..|]. f_equal. unfold updated. simpl. f_equal; lia.
Qed.

(** ** Histories *)

(** One accepted update of a client's state. *)
Inductive update_step : AcceptedPolicyState → AcceptedPolicyState → Prop :=
| update_step_intro s c now t :
    apply_verified_update (Some s) c now = Ok t → update_step s (Transition_state t).

Lemma update_step_inv s s' : update_step s s' →
  ∃ now, update_guard s (accepted s') now ∧ s' = updated s (accepted s') now
    ∧ (next_keyset (accepted s) (accepted s') ∨ same_keyset (accepted s) (accepted s'))
    ∧ (next_policy (accepted s) (accepted s') ∨ same_policy (accepted s) (accepted s')).
Proof.
  intros [s0 c now t [Hg Ht]%apply_update_Ok]. exists now.
  destruct Ht as [(Hk & Hp & ->)|(Hk & Hp & ->)]; simpl.
  - split_and!; [done..|by left].
  - split_and!; [done|done|by right|by right].
Qed.

Definition coordinate_lt (p q : EndpointPolicyV2) : Prop :=
  pol_policy_epoch p < pol_policy_epoch q
  ∨ pol_policy_epoch p = pol_policy_epoch q ∧ pol_sequence p < pol_sequence q.

Lemma step_keyset s s' : update_step s s' →
  same_keyset (accepted s) (accepted s')
  ∨ ks_keyset_epoch (vb_keyset (accepted s)) < ks_keyset_epoch (vb_keyset (accepted s')).
Proof.
  intros (now & _ & _ & [[[? _] _ _ _]|?] & _)%update_step_inv; [right; lia|by left].
Qed.

Lemma step_policy s s' : update_step s s' →
  same_policy (accepted s) (accepted s')
  ∨ coordinate_lt (vb_policy (accepted s)) (vb_policy (accepted s')).
Proof.
  intros (now & _ & _ & _ & [[Hc _ _ _]|?])%update_step_inv; [|by left]. right.
  unfold coordinate_lt. destruct Hc; lia.
Qed.

Lemma history_keyset s s' : rtc update_step s s' →
  same_keyset (accepted s) (accepted s')
  ∨ ks_keyset_epoch (vb_keyset (accepted s)) < ks_keyset_epoch (vb_keyset (accepted s')).
Proof.
  induction 1 as [s|s s1 s' Hs _ IH]; [by left; split|].
  destruct (step_keyset _ _ Hs) as [[H1 H2]|H1].
  - unfold same_keyset in *. by rewrite H1, H2 in IH.
  - right. destruct IH as [[-> _]|?]; lia.
Qed.

Lemma history_policy s s' : rtc update_step s s' →
  same_policy (accepted s) (accepted s')
  ∨ coordinate_lt (vb_policy (accepted s)) (vb_policy (accepted s')).
Proof.
  induction 1 as [s|s s1 s' Hs _ IH]; [by left; split|].
  destruct (step_policy _ _ Hs) as [[H1 H2]|H1].
  - unfold same_policy in *. by rewrite H1, H2 in IH.
  - right. unfold coordinate_lt in *. destruct IH as [[-> _]|?]; [done|lia].
Qed.

(** C3: No rollback and no fork, over any number of updates: the root never changes, the
    issue-time and wall-clock floors, the keyset epoch and the policy coordinate never
    decrease, and as long as the epoch (or the coordinate) stays the same, so does the
    keyset (or the policy) and its hash. *)
Theorem history_monotone (s s' : AcceptedPolicyState) :
  rtc update_step s s' →
  vb_root_id (accepted s') = vb_root_id (accepted s)
  ∧ max_issued_at s ≤ max_issued_at s'
  ∧ max_wall_clock_seen s ≤ max_wall_clock_seen s'
  ∧ (same_keyset (accepted s) (accepted s')
     ∨ ks_keyset_epoch (vb_keyset (accepted s)) < ks_keyset_epoch (vb_keyset (accepted s')))
  ∧ (same_policy (accepted s) (accepted s')
     ∨ coordinate_lt (vb_policy (accepted s)) (vb_policy (accepted s'))).
Proof.
  intros H. split_and!; [..|by apply history_keyset|by apply history_policy];
    induction H as [s|s s1 s' (now & [_ _ ? _] & -> & _)%update_step_inv _ IH]; simpl in *;
    congruence || lia || done.
Qed.

(** ** Rotation over histories *)

(** The key of [ks] with identifier [kid] still verifies, as the key [k] it was: active,
    or retiring since [since] at the earliest. *)
Definition key_retained (k : OnlineKeyV1) (since : Z) (ks : KeysetV1) : Prop :=
  ∃ k', find_key ks (key_kid k) = Some k' ∧ key_kid k' = key_kid k ∧ same_key k k'
        ∧ (key_status k' = KeyActive
           ∨ key_status k' = KeyRetiring ∧ since ≤ key_status_since k').

Lemma find_key_kid ks kid k : find_key ks kid = Some k → key_kid k = kid ∧ k ∈ ks_keys ks.
Proof.
  intros [Hin Hb%bool_decide_eq_true]%List.find_some. by rewrite list_elem_of_In.
Qed.

Lemma same_key_trans k1 k2 k3 : same_key k1 k2 → same_key k2 k3 → same_key k1 k3.
Proof. unfold same_key. intros (? & ? & ?) (? & ? & ?). split_and!; congruence. Qed.

Lemma key_retained_step k since prev cand e :
  key_retained k since prev → key_rotation prev cand e → since ≤ ks_issued_at cand →
  key_retained k since cand ∨ since + MIN_ROTATION_OVERLAP_SECS ≤ ks_issued_at cand.
Proof.
  intros (k1 & Hf & Hkid & Hsame & Hst) [_ Heach _ _] Hs.
  apply find_key_kid in Hf as [_ Hin].
  pose proof (proj1 (Forall_forall _ _) Heach _ Hin) as Hn. unfold key_next in Hn.
  rewrite Hkid in Hn. destruct (find_key cand (key_kid k)) as [k2|] eqn:Hf2.
  - destruct Hn as [Hsame2 Hn]. apply key_status_next_inv in Hn.
    destruct (find_key_kid _ _ _ Hf2) as [Hkid2 _].
    pose proof (same_key_trans _ _ _ Hsame Hsame2).
    destruct Hn as [[He Hsi]|[(_ & He & Hsi & _)|(He & _ & _ & [_ ?])]].
    + left. exists k2. split_and!; [done..|]. by rewrite <- He, Hsi.
    + left. exists k2. split_and!; [done..|]. right. split; [done|]. by rewrite Hsi.
    + right. destruct Hst as [?|[_ ?]]; [congruence|]. lia.
  - right. destruct Hn as [?|[? [_ ?]]], Hst as [?|[? ?]]; congruence || lia.
Qed.

Lemma step_keyset_issued s s' : update_step s s' →
  ks_issued_at (vb_keyset (accepted s)) ≤ ks_issued_at (vb_keyset (accepted s')).
Proof.
  intros (now & _ & _ & [[_ _ ? _]|[-> _]] & _)%update_step_inv; lia.
Qed.

Lemma step_policy_issued s s' : update_step s s' →
  pol_issued_at (vb_policy (accepted s)) ≤ pol_issued_at (vb_policy (accepted s')).
Proof.
  intros (now & _ & _ & _ & [[_ _ ? _]|[-> _]])%update_step_inv; lia.
Qed.

(** C35: Key rotation leaves every client the complete overlap, over any number of updates:
    a key that is active in an accepted keyset is, in every later accepted keyset, still
    there with the same material and lifetime, active or retiring, unless that keyset was
    issued at least twenty-four hours later. *)
Theorem key_overlap (s s' : AcceptedPolicyState) (k : OnlineKeyV1) :
  rtc update_step s s' →
  find_key (vb_keyset (accepted s)) (key_kid k) = Some k → key_status k = KeyActive →
  key_retained k (ks_issued_at (vb_keyset (accepted s))) (vb_keyset (accepted s'))
  ∨ ks_issued_at (vb_keyset (accepted s)) + MIN_ROTATION_OVERLAP_SECS
    ≤ ks_issued_at (vb_keyset (accepted s')).
Proof.
  intros Hrtc Hf Ha. set (since := ks_issued_at (vb_keyset (accepted s))).
  enough ((key_retained k since (vb_keyset (accepted s'))
           ∧ since ≤ ks_issued_at (vb_keyset (accepted s')))
          ∨ since + MIN_ROTATION_OVERLAP_SECS ≤ ks_issued_at (vb_keyset (accepted s')))
    by naive_solver.
  revert s' Hrtc. apply rtc_ind_r; [|intros s1 s2 _ Hs IH].
  - left. split; [|subst since; lia]. exists k. split_and!; [done|done|by unfold same_key|by left].
  - pose proof (step_keyset_issued _ _ Hs). destruct IH as [[IH ?]|?]; [|right; lia].
    apply update_step_inv in Hs as (now & _ & _ & [[_ _ _ [e Hr]]|[Heq _]] & _).
    + destruct (key_retained_step _ _ _ _ _ IH Hr); [lia|left; split; [done|lia]|by right].
    + left. by rewrite Heq.
Qed.

Definition pin_retained (p : ServerPinV2) (since : Z) (s : ServiceV2) : Prop :=
  ∃ p', find_pin s (pin_fingerprint p) = Some p'
        ∧ pin_not_before p' = pin_not_before p ∧ pin_expires_at p' = pin_expires_at p
        ∧ (pin_status p' = PinActive
           ∨ pin_status p' = PinRetiring ∧ since ≤ pin_status_since p').

Lemma find_pin_fingerprint s fp p :
  find_pin s fp = Some p → pin_fingerprint p = fp ∧ p ∈ svc_pins s.
Proof.
  intros [Hin Hb%bool_decide_eq_true]%List.find_some. by rewrite list_elem_of_In.
Qed.

Lemma pin_retained_step p since prev cand issued expires e :
  pin_retained p since prev → pin_rotation prev cand issued expires e → since ≤ issued →
  pin_retained p since cand ∨ since + MIN_ROTATION_OVERLAP_SECS ≤ issued.
Proof.
  intros (p1 & Hf & Hnb & Hex & Hst) [_ Heach _ _] Hs.
  apply find_pin_fingerprint in Hf as [Hfp Hin].
  pose proof (proj1 (Forall_forall _ _) Heach _ Hin) as Hn. unfold pin_next in Hn.
  rewrite Hfp in Hn. destruct (find_pin cand (pin_fingerprint p)) as [p2|] eqn:Hf2.
  - left. exists p2. destruct Hn as [[? ?] Hn]. split_and!; [done|congruence..|].
    destruct Hn as [[He Hsi]|(_ & He & Hsi & _)]; [by rewrite <- He, Hsi|].
    right. split; [done|]. by rewrite Hsi.
  - right. destruct Hn as [? [_ ?]], Hst as [?|[? ?]]; congruence || lia.
Qed.

(** Pin rotation leaves every client the complete overlap, over any number of updates:
    the services of later accepted policies are the enrolled ones in the same order, and a
    server pin that is active in an accepted policy is still pinned by the same service,
    with the same lifetime, in every later accepted policy, unless that policy was issued
    at least twenty-four hours later. *)
Theorem pin_overlap (s s' : AcceptedPolicyState) (i : nat) (sv : ServiceV2) (p : ServerPinV2) :
  rtc update_step s s' →
  pol_services (vb_policy (accepted s)) !! i = Some sv →
  find_pin sv (pin_fingerprint p) = Some p → pin_status p = PinActive →
  ∃ sv', pol_services (vb_policy (accepted s')) !! i = Some sv'
         ∧ svc_service_id sv' = svc_service_id sv
         ∧ (pin_retained p (pol_issued_at (vb_policy (accepted s))) sv'
            ∨ pol_issued_at (vb_policy (accepted s)) + MIN_ROTATION_OVERLAP_SECS
              ≤ pol_issued_at (vb_policy (accepted s'))).
Proof.
  intros Hrtc Hi Hf Ha. set (since := pol_issued_at (vb_policy (accepted s))).
  enough (∃ sv', pol_services (vb_policy (accepted s')) !! i = Some sv'
     ∧ svc_service_id sv' = svc_service_id sv
     ∧ ((pin_retained p since sv' ∧ since ≤ pol_issued_at (vb_policy (accepted s')))
        ∨ since + MIN_ROTATION_OVERLAP_SECS ≤ pol_issued_at (vb_policy (accepted s'))))
    as (sv' & ? & ? & ?) by (exists sv'; naive_solver).
  revert s' Hrtc. apply rtc_ind_r; [|intros s1 s2 _ Hs (sv1 & Hi1 & Hid1 & IH)].
  - exists sv. split_and!; [done..|]. left. split; [|subst since; lia].
    exists p. split_and!; [done..|by left].
  - pose proof (step_policy_issued _ _ Hs).
    apply update_step_inv in Hs as (now & _ & _ & _ & [[_ _ _ Hsv]|[Heq _]]).
    + destruct (Forall2_lookup_l _ _ _ _ _ Hsv Hi1) as (sv2 & Hi2 & Hid2 & e & Hr).
      exists sv2. split; [done|]. split; [congruence|].
      destruct IH as [[IH ?]|?]; [|right; lia].
      destruct (pin_retained_step _ _ _ _ _ _ _ IH Hr); [lia|left; split; [done|lia]|by right].
    + rewrite Heq. by exists sv1.
Qed.

(** No direct swap: an update that changes the keyset keeps a key that both keysets
    verify with and that outlives the overlap, and an update that changes the policy keeps,
    for every service, a server pin of the previous policy. *)
Theorem update_keeps_overlap (s : AcceptedPolicyState) (c : VerifiedBundle) (now : Z)
    (t : Transition) :
  apply_verified_update (Some s) c now = Ok t →
  (vb_keyset c ≠ vb_keyset (accepted s) →
     ∃ k k', find_key (vb_keyset c) (key_kid k) = Some k' ∧ k ∈ ks_keys (vb_keyset (accepted s))
       ∧ same_key k k' ∧ key_status k ≠ KeyRevoked ∧ key_status k' ≠ KeyRevoked
       ∧ ks_issued_at (vb_keyset c) + MIN_ROTATION_OVERLAP_SECS ≤ key_expires_at k')
  ∧ (vb_policy c ≠ vb_policy (accepted s) →
     Forall2 (λ old new, ∃ p, p ∈ svc_pins old ∧ is_Some (find_pin new (pin_fingerprint p)))
       (pol_services (vb_policy (accepted s))) (pol_services (vb_policy c))).
Proof.
  intros [_ Ht]%apply_update_Ok. split.
  - intros Hne. destruct Ht as [([[_ _ _ [e [[-> _] Heach _ Ho]]]|[? _]] & _)|([? _] & _)];
      try done.
    apply existsb_exists in Ho as (k & Hin%list_elem_of_In & Ho). unfold key_overlaps in Ho.
    pose proof (proj1 (Forall_forall _ _) Heach _ Hin) as Hn. unfold key_next in Hn.
    destruct (find_key (vb_keyset c) (key_kid k)) as [k'|] eqn:Hf; [|done].
    rewrite !andb_true_iff, !Z.leb_le in Ho. destruct Ho as [[[Hl Hl'] ?] ?].
    destruct Hn as [(? & ? & Hx) _]. exists k, k'. split_and!; try done.
    + by intros Hk; rewrite Hk in Hl.
    + by intros Hk; rewrite Hk in Hl'.
    + by rewrite Hx.
  - intros Hne. destruct Ht as [(_ & [_ _ _ Hsv] & _)|(_ & [? _] & _)]; [|done].
    eapply Forall2_impl; [exact Hsv|]. intros old new (_ & e & [_ _ _ Ho]).
    apply existsb_exists in Ho as (p & Hin%list_elem_of_In & Hp%bool_decide_eq_true).
    by exists p.
Qed.

(** ** From the trusted root to the accepted state *)

Lemma apply_genesis_Ok c now t :
  apply_verified_update None c now = Ok t ↔
  live_at c now
  ∧ ks_keyset_epoch (vb_keyset c) = 0 ∧ pol_policy_epoch (vb_policy c) = 0
  ∧ pol_sequence (vb_policy c) = 0
  ∧ ks_previous_payload_hash (vb_keyset c) = None
  ∧ pol_previous_payload_hash (vb_policy c) = None
  ∧ t = Applied (mkAcceptedPolicyState c (issued_floor c) now).
Proof.
  unfold apply_verified_update. fold (issued_floor c). rewrite bind_Ok. split.
  - intros ([] & ?%ensure_live_at_apply_Ok & H). rewrite !if_err_Ok, !orb_false_iff,
      !negb_false_iff, !Z.eqb_eq, !bool_decide_eq_false, <- !eq_None_not_Some in H.
    destruct H as ([[? ?] ?] & [? ?] & [= <-]). done.
  - intros (? & ? & ? & ? & ? & ? & ->). exists (). rewrite ensure_live_at_apply_Ok,
      !if_err_Ok, !orb_false_iff, !negb_false_iff, !Z.eqb_eq, !bool_decide_eq_false,
      <- !eq_None_not_Some. done.
Qed.

Section Reachable.
Context `{C : PolicyCrypto} `{M : Minicbor} {L : MinicborLaws M} `{E : Ed25519}.

(** The states a client that trusts [root] can reach: a verified genesis bundle, then
    verified updates.  Verification and application may read the clock at different
    times. *)
Inductive reachable (root : TrustedRoot) : AcceptedPolicyState → Prop :=
| reachable_genesis input verified_at now b t :
    is_i64 verified_at → is_i64 now → verify_bundle input root verified_at = Ok b →
    apply_verified_update None b now = Ok t →
    reachable root (Transition_state t)
| reachable_update s input verified_at now b t :
    reachable root s →
    is_i64 verified_at → is_i64 now → verify_bundle input root verified_at = Ok b →
    apply_verified_update (Some s) b now = Ok t →
    reachable root (Transition_state t).

(** The invariant of an accepted state. *)
Record accepted_invariant (root : TrustedRoot) (s : AcceptedPolicyState) : Prop := {
  ai_root : vb_root_id (accepted s) = trusted_root_id root;
  ai_authorised : ∃ at_time signer,
    authorised root at_time (vb_keyset (accepted s)) (vb_policy (accepted s)) signer
    ∧ vb_signer_kid (accepted s) = key_kid signer;
  ai_keyset_hash : vb_keyset_hash (accepted s)
                   = keyset_payload_hash (keyset_payload_bytes (vb_keyset (accepted s)));
  ai_policy_hash : vb_policy_hash (accepted s)
                   = policy_payload_hash (policy_payload_bytes (vb_policy (accepted s)));
  ai_plan : build_verified_plan (vb_policy (accepted s)) = Ok (vb_plan (accepted s));
  ai_floor : max_issued_at s = issued_floor (accepted s);
  ai_not_future : max_issued_at s ≤ max_wall_clock_seen s + MAX_CLOCK_SKEW_SECS;
}.

Lemma verified_invariant root input at_time b m w :
  is_i64 at_time → verify_bundle input root at_time = Ok b →
  m = issued_floor b → m ≤ w + MAX_CLOCK_SKEW_SECS →
  accepted_invariant root (mkAcceptedPolicyState b m w).
Proof.
  intros Ht (signer & ? & _ & ? & ? & ? & ? & ?)%verify_bundle_Ok -> ?; [|done].
  split; simpl; try done. by exists at_time, signer.
Qed.

Lemma live_floor c now : live_at c now → issued_floor c ≤ now + MAX_CLOCK_SKEW_SECS.
Proof.
  intros [? ? ? _ _ _]. unfold issued_floor, i64_saturating_add in *. unfold_bounds. lia.
Qed.

(** C2: Authority reaches the accepted state: in every state a client can reach from a
    trusted root, the accepted policy is authorised by that root, the stored hashes are
    those of the accepted payloads, the plan is built from the accepted policy, the
    issue-time floor is that of the accepted bundle and lies at most the clock skew ahead
    of the wall-clock floor. *)
Theorem reachable_invariant (root : TrustedRoot) (s : AcceptedPolicyState) :
  reachable root s → accepted_invariant root s.
Proof.
  intros [input at_time now b t Hv Hn Hb (Hl & _ & _ & _ & _ & _ & ->)%apply_genesis_Ok
    |s0 input at_time now b t _ Hv Hn Hb [[_ Hl _ Hf] Ht]%apply_update_Ok]; simpl.
  - pose proof (live_floor _ _ Hl). by apply (verified_invariant root input at_time).
  - assert (Transition_state t = updated s0 b now) as -> by naive_solver.
    pose proof (live_floor _ _ Hl). apply (verified_invariant root input at_time); [done..|lia|lia].
Qed.

Lemma reachable_floor root s : reachable root s → max_issued_at s = issued_floor (accepted s).
Proof.
  intros [input at_time now b t _ _ _ (_ & _ & _ & _ & _ & _ & ->)%apply_genesis_Ok
    |s0 input at_time now b t _ _ _ _ [[_ _ _ Hf] Ht]%apply_update_Ok]; [done|].
  assert (Transition_state t = updated s0 b now) as -> by naive_solver. simpl. lia.
Qed.

(** The release tool agrees with the client: for a client whose accepted bundle is
    live and whose clock has not moved backwards, checking a candidate against the public
    predecessor bundle gives the very transition or error that the client computes from
    its durable state. *)
Theorem successor_agrees (root : TrustedRoot) (s : AcceptedPolicyState) (c : VerifiedBundle)
    (now : Z) :
  reachable root s → is_i64 now → max_wall_clock_seen s ≤ now → live_at (accepted s) now →
  apply_verified_successor (accepted s) c now = apply_verified_update (Some s) c now.
Proof.
  intros Hr Hnow Hw Hl. unfold apply_verified_successor.
  rewrite (proj2 (ensure_live_at_apply_Ok _ _) Hl). cbn [mbind result_bind].
  fold (issued_floor (accepted s)). rewrite <- (reachable_floor _ _ Hr).
  pose proof (la_now _ _ Hl).
  assert (now ≤ i64_saturating_add now MAX_CLOCK_SKEW_SECS)
    by (unfold i64_saturating_add, is_i64 in *; unfold_bounds; lia).
  unfold apply_verified_update. cbn [max_wall_clock_seen max_issued_at accepted].
  rewrite (proj2 (Z.ltb_ge _ now)), (proj2 (Z.ltb_ge _ (max_wall_clock_seen s))) by lia.
  by rewrite Z.max_id, (Z.max_r (max_wall_clock_seen s) now) by done.
Qed.

End Reachable.

(** ** A concrete history: genesis, then a rotation of the online key *)

Module StateSample.
Import Rfc8949 CoseSample VerifySample.

Definition no_bundle : VerifiedBundle :=
  mkVerifiedBundle [] Sample.keyset policy [] [] [] (mkVerifiedRealityPlan 0 0 0 []).
Definition verified (input : bytes) (now : Z) : VerifiedBundle :=
  match verify_bundle input root now with Ok b => b | Err _ => no_bundle end.

Definition bundle0 : VerifiedBundle := verified input 2000.
Definition state0 : AcceptedPolicyState := mkAcceptedPolicyState bundle0 1000 2000.

(** The old key retires, a new one enters and signs. *)
Definition new_key : OnlineKeyV1 :=
  mkOnlineKeyV1 (replicate 16 Byte.x02) (replicate 32 Byte.x0b) 3000 500000 KeyActive 3000.
Definition keyset1 : KeysetV1 :=
  mkKeysetV1 1 3000 1000 500000 (Some (vb_keyset_hash bundle0))
    [mkOnlineKeyV1 (key_kid Sample.key) (key_ed25519_public_key Sample.key) 1000 500000
       KeyRetiring 3000; new_key].
Definition policy1 : EndpointPolicyV2 :=
  mkEndpointPolicyV2 1 (keyset_payload_hash (keyset_payload_bytes keyset1)) 0 1
    3000 3000 400000 (Some (vb_policy_hash bundle0)) [service]
    [mkPolicyRuleV2 ProtectedOnly [replicate 16 Byte.x07]] [].
Definition input1 : bytes := bundle_bytes (mkBundleBytes
  (sign CtKeyset (root_ed25519_public_key root) (root_kid root) (keyset_payload_bytes keyset1))
  (sign CtEndpointPolicy (key_ed25519_public_key new_key) (key_kid new_key)
     (policy_payload_bytes policy1))).
Definition bundle1 : VerifiedBundle := verified input1 4000.
Definition state1 : AcceptedPolicyState := mkAcceptedPolicyState bundle1 3000 4000.

Lemma genesis_verifies : verify_bundle input root 2000 = Ok bundle0.
Proof. vm_compute. reflexivity. Qed.
Lemma genesis_applies : apply_verified_update None bundle0 2000 = Ok (Applied state0).
Proof. vm_compute. reflexivity. Qed.
Lemma update_applies :
  apply_verified_update (Some state0) bundle1 4000 = Ok (Applied state1).
Proof. vm_compute. reflexivity. Qed.

Lemma reachable0 : reachable root state0.
Proof.
  apply (reachable_genesis root input 2000 2000 bundle0 (Applied state0));
    [done|done|apply genesis_verifies|apply genesis_applies].
Qed.

Lemma history01 : rtc update_step state0 state1.
Proof. apply rtc_once, (update_step_intro state0 bundle1 4000 _ update_applies). Qed.

Lemma live0 : live_at (accepted state0) 4000.
Proof. apply ensure_live_at_apply_Ok. vm_compute. reflexivity. Qed.

Lemma apply_verified_update_witness :
  update_guard state0 bundle1 4000
  ∧ (next_keyset (accepted state0) bundle1 ∨ same_keyset (accepted state0) bundle1)
  ∧ next_policy (accepted state0) bundle1 ∧ state1 = updated state0 bundle1 4000.
Proof. exact (proj1 (apply_verified_update_iff state0 state1 bundle1 4000) update_applies). Defined.

Lemma reapply_idempotent_witness :
  apply_verified_update (Some state1) bundle1 4000 = Ok (Idempotent state1).
Proof.
  refine (reapply_idempotent state0 bundle1 4000 (Applied state1) _ update_applies). done.
Defined.

Lemma history_monotone_witness :
  vb_root_id (accepted state1) = vb_root_id (accepted state0)
  ∧ max_issued_at state0 ≤ max_issued_at state1.
Proof.
  destruct (history_monotone state0 state1 history01) as (H1 & H2 & _). split; [exact H1|exact H2].
Defined.

Lemma key_overlap_witness :
  key_retained Sample.key 1000 (vb_keyset (accepted state1))
  ∨ 1000 + MIN_ROTATION_OVERLAP_SECS ≤ ks_issued_at (vb_keyset (accepted state1)).
Proof.
  exact (key_overlap state0 state1 Sample.key history01 ltac:(vm_compute; reflexivity)
           ltac:(reflexivity)).
Defined.

Lemma pin_overlap_witness :
  ∃ sv', pol_services (vb_policy (accepted state1)) !! 0%nat = Some sv'
         ∧ svc_service_id sv' = svc_service_id service
         ∧ (pin_retained Sample.pin 1000 sv'
            ∨ 1000 + MIN_ROTATION_OVERLAP_SECS ≤ pol_issued_at (vb_policy (accepted state1))).
Proof.
  exact (pin_overlap state0 state1 0%nat service Sample.pin history01
           ltac:(vm_compute; reflexivity) ltac:(vm_compute; reflexivity) ltac:(reflexivity)).
Defined.

Lemma update_keeps_overlap_witness :
  Forall2 (λ old new, ∃ p, p ∈ svc_pins old ∧ is_Some (find_pin new (pin_fingerprint p)))
    (pol_services (vb_policy (accepted state0))) (pol_services (vb_policy bundle1)).
Proof.
  refine (proj2 (update_keeps_overlap state0 bundle1 4000 _ update_applies) _).
  vm_compute. discriminate.
Defined.

Lemma reachable_invariant_witness : accepted_invariant root state0.
Proof. exact (reachable_invariant root state0 reachable0). Defined.

Lemma successor_agrees_witness :
  apply_verified_successor (accepted state0) bundle1 4000 = Ok (Applied state1).
Proof.
  rewrite <- update_applies.
  refine (successor_agrees root state0 bundle1 4000 reachable0 _ _ live0); done.
Defined.

End StateSample.
