(* ===== verification/PolicyStore.v ===== *)
(** * Signed endpoint policy: the durable store

    Models [shadowpipe-core/src/policy_state.rs]: the two files in which a client keeps the
    accepted bundle with its floors and the tombstone of an expired policy, their encodings,
    and the operations of [PolicyStateStore].  A file is absent, unsafe (a symbolic link,
    wrong owner, mode or link count) or has contents; publishing it is staging, an atomic
    rename and a synchronisation of the directory, each of which can fail, the last one
    after the rename took effect.  Taking the lock and reading the clock are arguments. *)

From S2P Require Import Prelude Minicbor PolicySchema PolicyCbor PolicyCose.
From S2P Require Import PolicyPlan PolicyVerify PolicyState.

(** SHA-256 digests have 32 bytes. *)
Class PolicyCryptoLaws (C : PolicyCrypto) := {
  sha256_length m : length (sha256 m) = 32%nat;
}.

Definition MAGIC : bytes := ascii_bytes "SPPOLST1".
Definition VERSION : Z := 1.
Definition RESERVED : Z := 0.
Definition PREFIX_BYTES : Z := 8 + 2 + 2 + 32 + 8 + 8 + 4.
Definition CHECKSUM_BYTES : Z := 32.
Definition MIN_STATE_BYTES : Z := PREFIX_BYTES + CHECKSUM_BYTES.
Definition MAX_STATE_BYTES : Z := MIN_STATE_BYTES + MAX_BUNDLE_BYTES.
Definition STATE_HASH_DOMAIN : bytes := ascii_bytes "shadowpipe-policy-state-v1" ++ [Byte.x00].
Definition EXPIRY_MAGIC : bytes := ascii_bytes "SPPOLEX1".
Definition EXPIRY_VERSION : Z := 1.
Definition EXPIRY_BYTES : Z := 8 + 2 + 2 + 32 + 32 + 8 + 8 + 8 + CHECKSUM_BYTES.
Definition EXPIRY_HASH_DOMAIN : bytes := ascii_bytes "shadowpipe-policy-expiry-v1" ++ [Byte.x00].

Inductive StoreError :=
| NotFound | Io | Busy | Malformed | OtherRoot | Policy (e : PolicyError)
| AlreadyEnrolled | MissingAnchor | ClockBehind | FloorBelow
| Retired | TombstoneConflict | NotCurrent.

Definition policy_context {A} (m : result PolicyError A) : result StoreError A :=
  match m with Ok a => Ok a | Err e => Err (Policy e) end.

Record DiskState := mkDiskState {
  disk_root_id : bytes;
  disk_max_issued_at : Z;
  disk_max_wall_clock_seen : Z;
  disk_accepted_bundle : bytes;
}.

Record PolicyExpiryCheckpoint := mkPolicyExpiryCheckpoint {
  cp_root_id : bytes;
  cp_policy_hash : bytes;
  cp_policy_epoch : Z;
  cp_sequence : Z;
  cp_expires_at : Z;
}.

#[export] Instance PolicyExpiryCheckpoint_eq_dec : EqDecision PolicyExpiryCheckpoint.
Proof. solve_decision. Defined.

Definition checkpoint_from_state (state : AcceptedPolicyState) : PolicyExpiryCheckpoint :=
  mkPolicyExpiryCheckpoint (vb_root_id (accepted state)) (vb_policy_hash (accepted state))
    (vrp_policy_epoch (vb_plan (accepted state))) (vrp_sequence (vb_plan (accepted state)))
    (vrp_expires_at (vb_plan (accepted state))).

(** [i64::from_be_bytes] *)
Definition be_i64 (l : bytes) : Z :=
  let v := be_value l in if v <? 2 ^ 63 then v else v - 2 ^ 64.

Definition take_array (n : Z) (input : bytes) (cursor : Z) : result StoreError (bytes * Z) :=
  finish ← ok_or (u64_checked_add cursor n) Malformed;
  if len input <? finish then Err Malformed
  else Ok (take (Z.to_nat n) (drop (Z.to_nat cursor) input), finish).

Section Codec.
Context `{C : PolicyCrypto}.

Definition state_checksum (contents : bytes) : bytes := sha256 (STATE_HASH_DOMAIN ++ contents).
Definition expiry_checksum (contents : bytes) : bytes := sha256 (EXPIRY_HASH_DOMAIN ++ contents).

Definition expiry_fields (c : PolicyExpiryCheckpoint) : bytes :=
  EXPIRY_MAGIC ++ be_bytes 2 EXPIRY_VERSION ++ be_bytes 2 RESERVED ++ cp_root_id c
  ++ cp_policy_hash c ++ be_bytes 8 (cp_policy_epoch c) ++ be_bytes 8 (cp_sequence c)
  ++ be_bytes 8 (cp_expires_at c).

Definition encode_expiry (c : PolicyExpiryCheckpoint) : result StoreError bytes :=
  if cp_expires_at c <? 0 then Err Malformed else
  let fields := expiry_fields c in
  Ok (fields ++ expiry_checksum fields).

Definition decode_expiry (input expected_root_id : bytes)
  : result StoreError PolicyExpiryCheckpoint :=
  if negb (len input =? EXPIRY_BYTES) then Err Malformed else
  let authenticated_len := EXPIRY_BYTES - CHECKSUM_BYTES in
  let expected := expiry_checksum (take (Z.to_nat authenticated_len) input) in
  if bool_decide (expected ≠ drop (Z.to_nat authenticated_len) input) then Err Malformed else
  '(magic, cursor) ← take_array 8 input 0;
  if bool_decide (magic ≠ EXPIRY_MAGIC) then Err Malformed else
  '(version, cursor) ← take_array 2 input cursor;
  if negb (be_value version =? EXPIRY_VERSION) then Err Malformed else
  '(reserved, cursor) ← take_array 2 input cursor;
  if negb (be_value reserved =? RESERVED) then Err Malformed else
  '(actual_root_id, cursor) ← take_array 32 input cursor;
  if bool_decide (actual_root_id ≠ expected_root_id) then Err OtherRoot else
  '(policy_hash, cursor) ← take_array 32 input cursor;
  '(policy_epoch, cursor) ← take_array 8 input cursor;
  '(sequence, cursor) ← take_array 8 input cursor;
  '(expires_at, cursor) ← take_array 8 input cursor;
  if be_i64 expires_at <? 0 then Err Malformed else
  if negb (cursor =? authenticated_len) then Err Malformed else
  Ok (mkPolicyExpiryCheckpoint actual_root_id policy_hash (be_value policy_epoch)
        (be_value sequence) (be_i64 expires_at)).

Definition disk_fields (d : DiskState) : bytes :=
  MAGIC ++ be_bytes 2 VERSION ++ be_bytes 2 RESERVED ++ disk_root_id d
  ++ be_bytes 8 (disk_max_issued_at d) ++ be_bytes 8 (disk_max_wall_clock_seen d)
  ++ be_bytes 4 (len (disk_accepted_bundle d)) ++ disk_accepted_bundle d.

Definition encode_disk (d : DiskState) : result StoreError bytes :=
  if (disk_max_issued_at d <? 0) || (disk_max_wall_clock_seen d <? 0) then Err Malformed else
  if bool_decide (disk_accepted_bundle d = []) || (MAX_BUNDLE_BYTES <? len (disk_accepted_bundle d))
  then Err Malformed else
  if 2 ^ 32 <=? len (disk_accepted_bundle d) then Err Malformed else
  let fields := disk_fields d in
  Ok (fields ++ state_checksum fields).

Definition decode_disk (input expected_root_id : bytes) : result StoreError DiskState :=
  if negb ((MIN_STATE_BYTES <=? len input) && (len input <=? MAX_STATE_BYTES))
  then Err Malformed else
  let authenticated_len := len input - CHECKSUM_BYTES in
  let expected := state_checksum (take (Z.to_nat authenticated_len) input) in
  if bool_decide (expected ≠ drop (Z.to_nat authenticated_len) input) then Err Malformed else
  '(magic, cursor) ← take_array 8 input 0;
  if bool_decide (magic ≠ MAGIC) then Err Malformed else
  '(version, cursor) ← take_array 2 input cursor;
  if negb (be_value version =? VERSION) then Err Malformed else
  '(reserved, cursor) ← take_array 2 input cursor;
  if negb (be_value reserved =? RESERVED) then Err Malformed else
  '(actual_root_id, cursor) ← take_array 32 input cursor;
  if bool_decide (actual_root_id ≠ expected_root_id) then Err OtherRoot else
  '(issued, cursor) ← take_array 8 input cursor;
  '(wall, cursor) ← take_array 8 input cursor;
  if (be_i64 issued <? 0) || (be_i64 wall <? 0) then Err Malformed else
  '(bundle_len, cursor) ← take_array 4 input cursor;
  let bundle_len := be_value bundle_len in
  if negb ((1 <=? bundle_len) && (bundle_len <=? MAX_BUNDLE_BYTES)) then Err Malformed else
  bundle_end ← ok_or (u64_checked_add cursor bundle_len) Malformed;
  if negb (bundle_end =? authenticated_len) then Err Malformed else
  '(accepted_bundle, _) ← take_array bundle_len input cursor;
  Ok (mkDiskState actual_root_id (be_i64 issued) (be_i64 wall) accepted_bundle).
End Codec.

(** ** Files *)

Inductive StateFile := NoFile | UnsafeFile | FileWith (contents : bytes).

Record PolicyDir := mkPolicyDir { anchor_file : StateFile; expiry_file : StateFile }.

Definition read_bounded (f : StateFile) : result StoreError bytes :=
  match f with
  | NoFile => Err NotFound
  | UnsafeFile => Err Io
  | FileWith b => if MAX_STATE_BYTES <? len b then Err Io else Ok b
  end.

(** Where publishing a file goes wrong. *)
Inductive PublishIo := StageFails | RenameFails | SyncFails | PublishDone.

Definition publish_file (target : StateFile) (contents : bytes) (replacing : bool) (io : PublishIo)
  : StateFile * result StoreError () :=
  if MAX_STATE_BYTES <? len contents then (target, Err Io) else
  match io with
  | StageFails => (target, Err Io)
  | RenameFails => (target, Err Io)
  | SyncFails | PublishDone =>
      match replacing, target with
      | false, (UnsafeFile | FileWith _) => (target, Err Io)
      | _, _ => (FileWith contents, match io with PublishDone => Ok () | _ => Err Io end)
      end
  end.

(** ** The store *)

Section Store.
Context `{C : PolicyCrypto} `{M : Minicbor} `{E : Ed25519}.

Definition load_expiry (dir : PolicyDir) (root : TrustedRoot)
  : result StoreError (option PolicyExpiryCheckpoint) :=
  match read_bounded (expiry_file dir) with
  | Err NotFound => Ok None
  | Err e => Err e
  | Ok b => t ← decode_expiry b (trusted_root_id root); Ok (Some t)
  end.

Definition ensure_not_tombstoned (dir : PolicyDir) (root : TrustedRoot) (accepted : VerifiedBundle)
  : result StoreError () :=
  expiry ← load_expiry dir root;
  match expiry with
  | None => Ok ()
  | Some tombstone =>
      if bool_decide (cp_policy_hash tombstone ≠ vb_policy_hash accepted) then Ok () else
      let plan := vb_plan accepted in
      if negb ((cp_policy_epoch tombstone =? vrp_policy_epoch plan)
               && (cp_sequence tombstone =? vrp_sequence plan)
               && (cp_expires_at tombstone =? vrp_expires_at plan))
      then Err TombstoneConflict else Err Retired
  end.

Definition accepted_max_issued (b : VerifiedBundle) : Z :=
  Z.max (ks_issued_at (vb_keyset b)) (pol_issued_at (vb_policy b)).

Definition load_anchor (dir : PolicyDir) (root : TrustedRoot)
  : result StoreError (option AcceptedPolicyState) :=
  match read_bounded (anchor_file dir) with
  | Err NotFound => Ok None
  | Err e => Err e
  | Ok b =>
      disk ← decode_disk b (trusted_root_id root);
      accepted ← policy_context
        (verify_bundle (disk_accepted_bundle disk) root (disk_max_wall_clock_seen disk));
      if disk_max_issued_at disk <? accepted_max_issued accepted then Err FloorBelow else
      Ok (Some (mkAcceptedPolicyState accepted (disk_max_issued_at disk)
                  (disk_max_wall_clock_seen disk)))
  end.

Definition load_active (locked : bool) (dir : PolicyDir) (root : TrustedRoot) (now : Z)
  : result StoreError AcceptedPolicyState :=
  if negb locked then Err Busy else
  b ← read_bounded (anchor_file dir);
  disk ← decode_disk b (trusted_root_id root);
  if i64_saturating_add now MAX_CLOCK_SKEW_SECS <? disk_max_wall_clock_seen disk
  then Err ClockBehind else
  accepted ← policy_context (verify_bundle (disk_accepted_bundle disk) root now);
  if disk_max_issued_at disk <? accepted_max_issued accepted then Err FloorBelow else
  _ ← ensure_not_tombstoned dir root accepted;
  Ok (mkAcceptedPolicyState accepted (disk_max_issued_at disk) (disk_max_wall_clock_seen disk)).

Definition persist_transition (dir : PolicyDir) (root : TrustedRoot) (candidate_bundle : bytes)
    (transition : Transition) (replacing : bool) (io : PublishIo)
  : PolicyDir * result StoreError () :=
  let state := Transition_state transition in
  match encode_disk (mkDiskState (trusted_root_id root) (max_issued_at state)
                       (max_wall_clock_seen state) candidate_bundle) with
  | Err e => (dir, Err e)
  | Ok encoded =>
      let '(f, r) := publish_file (anchor_file dir) encoded replacing io in
      (mkPolicyDir f (expiry_file dir), r)
  end.

(** Verification and application of a candidate, before anything is written. *)
Definition candidate_transition (dir : PolicyDir) (root : TrustedRoot) (candidate_bundle : bytes)
    (now : Z) (previous : option AcceptedPolicyState) : result StoreError Transition :=
  candidate ← policy_context (verify_bundle candidate_bundle root now);
  _ ← ensure_not_tombstoned dir root candidate;
  policy_context (apply_verified_update previous candidate now).

Definition publish_transition (dir : PolicyDir) (root : TrustedRoot) (candidate_bundle : bytes)
    (m : result StoreError Transition) (replacing : bool) (io : PublishIo)
  : PolicyDir * result StoreError Transition :=
  match m with
  | Err e => (dir, Err e)
  | Ok transition =>
      match persist_transition dir root candidate_bundle transition replacing io with
      | (dir, Ok _) => (dir, Ok transition)
      | (dir, Err e) => (dir, Err e)
      end
  end.

Definition enroll (locked : bool) (io : PublishIo) (dir : PolicyDir) (root : TrustedRoot)
    (candidate_bundle : bytes) (now : Z) : PolicyDir * result StoreError Transition :=
  publish_transition dir root candidate_bundle
    (if negb locked then Err Busy else
     anchor ← load_anchor dir root;
     if bool_decide (is_Some anchor) then Err AlreadyEnrolled else
     candidate_transition dir root candidate_bundle now None) false io.

Definition update (locked : bool) (io : PublishIo) (dir : PolicyDir) (root : TrustedRoot)
    (candidate_bundle : bytes) (now : Z) : PolicyDir * result StoreError Transition :=
  publish_transition dir root candidate_bundle
    (if negb locked then Err Busy else
     anchor ← load_anchor dir root;
     previous ← ok_or anchor MissingAnchor;
     candidate_transition dir root candidate_bundle now (Some previous)) true io.

Definition checkpoint_expired (locked : bool) (io : PublishIo) (dir : PolicyDir)
    (root : TrustedRoot) (checkpoint : PolicyExpiryCheckpoint) : PolicyDir * result StoreError () :=
  let checks :=
    if negb locked then Err Busy else
    if bool_decide (cp_root_id checkpoint ≠ trusted_root_id root) then Err OtherRoot else
    anchor ← load_anchor dir root;
    current ← ok_or anchor MissingAnchor;
    if bool_decide (checkpoint_from_state current ≠ checkpoint) then Err NotCurrent else
    load_expiry dir root in
  match checks with
  | Err e => (dir, Err e)
  | Ok existing =>
      if bool_decide (existing = Some checkpoint) then (dir, Ok ()) else
      if bool_decide (cp_policy_hash <$> existing = Some (cp_policy_hash checkpoint))
      then (dir, Err TombstoneConflict) else
      match encode_expiry checkpoint with
      | Err e => (dir, Err e)
      | Ok b =>
          let '(f, r) := publish_file (expiry_file dir) b true io in
          (mkPolicyDir (anchor_file dir) f, r)
      end
  end.
End Store.

(** ** Encodings *)

(** A decoder at [cursor] has [rest] in front of it. *)
Definition reads (input : bytes) (cursor : Z) (rest : bytes) : Prop :=
  ∃ p, input = p ++ rest ∧ cursor = len p ∧ len input < 2 ^ 64.

Lemma reads_start input : len input < 2 ^ 64 → reads input 0 input.
Proof. by exists []. Qed.

Lemma reads_app input cursor a r n : reads input cursor (a ++ r) → n = len a → reads input (cursor + n) r.
Proof. intros (p & -> & -> & Hl) ->. exists (p ++ a). by rewrite <- app_assoc, len_app. Qed.

Lemma to_nat_len {A} (l : list A) : Z.to_nat (len l) = length l.
Proof. apply Nat2Z.id. Qed.

Lemma take_array_reads input cursor rest n a c' : reads input cursor rest → 0 ≤ n →
  take_array n input cursor = Ok (a, c') ↔ ∃ r, rest = a ++ r ∧ len a = n ∧ c' = cursor + n.
Proof.
  intros (p & -> & -> & Hl) Hn. pose proof (len_nonneg p). pose proof (len_nonneg rest).
  rewrite len_app in Hl. unfold take_array. rewrite bind_Ok. split.
  - intros (f & [-> _]%ok_or_Ok%u64_checked_add_Some & H1).
    apply if_err_Ok in H1 as [Hlt%Z.ltb_ge [= <- <-]]. rewrite len_app in Hlt.
    exists (drop (Z.to_nat n) rest). rewrite to_nat_len, drop_app_length, take_drop.
    split_and!; [done| |done]. unfold len in *. rewrite length_take. lia.
  - intros (r & -> & <- & ->). rewrite len_app in Hl. pose proof (len_nonneg r). exists (len p + len a).
    rewrite ok_or_Ok, u64_checked_add_Some, !len_app, (proj2 (Z.ltb_ge _ _)) by lia.
    split; [lia|]. do 2 f_equal. by rewrite !to_nat_len, drop_app_length, take_app_length.
Qed.

(** Reading a field that is in front. *)
Lemma take_array_field input cursor a r n {B} (k : bytes * Z → result StoreError B) :
  reads input cursor (a ++ r) → n = len a → take_array n input cursor ≫= k = k (a, cursor + n).
Proof.
  intros Hr ->. rewrite (proj2 (take_array_reads _ _ _ _ a (cursor + len a) Hr (len_nonneg a))); [done|].
  by exists r.
Qed.

Lemma be_bytes_of_value n l : length l = n → be_bytes n (be_value l) = l.
Proof. intros <-. apply be_bytes_be_value. Qed.

Lemma be_i64_nonneg l : len l = 8 → 0 ≤ be_i64 l →
  be_i64 l = be_value l ∧ be_bytes 8 (be_i64 l) = l ∧ is_i64 (be_i64 l).
Proof.
  intros Hl. pose proof (be_value_bound l) as Hb. rewrite Hl in Hb. unfold be_i64, is_i64.
  destruct (Z.ltb_spec (be_value l) (2 ^ 63)); [|lia]. intros _. split_and!; [done| |lia|lia].
  apply be_bytes_of_value. unfold len in Hl. lia.
Qed.

Lemma be_i64_be_bytes z : 0 ≤ z → is_i64 z → be_i64 (be_bytes 8 z) = z.
Proof.
  intros Hz [_ Hi]. unfold be_i64. rewrite be_value_be_bytes_small by lia.
  by rewrite (proj2 (Z.ltb_lt _ _)).
Qed.

Section CodecTheory.
Context `{C : PolicyCrypto} {CL : PolicyCryptoLaws C}.

Lemma len_sha256 m : len (sha256 m) = 32.
Proof. unfold len. by rewrite sha256_length. Qed.

(** The next field of a decoder that succeeds, and of one that is to be run. *)
Ltac field_of H Hr a Hl :=
  let c := fresh "c" in let Ha := fresh "Ha" in let r := fresh "r" in
  apply bind_Ok in H as ([a c] & Ha & H);
  apply (take_array_reads _ _ _ _ _ _ Hr) in Ha as (r & -> & Hl & ->); [|done || lia];
  let Hn := fresh "Hn" in
  pose proof (reads_app _ _ _ _ _ Hr (eq_sym Hl)) as Hn; clear Hr; rename Hn into Hr.
Ltac run_field Hr :=
  rewrite (take_array_field _ _ _ _ _ _ Hr) by (rewrite ?len_be_bytes; done || lia);
  eapply reads_app in Hr; [|rewrite ?len_be_bytes; done || lia].

Record disk_wf (d : DiskState) : Prop := {
  dw_root : len (disk_root_id d) = 32;
  dw_issued : 0 ≤ disk_max_issued_at d ∧ is_i64 (disk_max_issued_at d);
  dw_wall : 0 ≤ disk_max_wall_clock_seen d ∧ is_i64 (disk_max_wall_clock_seen d);
  dw_bundle : 1 ≤ len (disk_accepted_bundle d) ≤ MAX_BUNDLE_BYTES;
}.

Definition disk_bytes (d : DiskState) : bytes := disk_fields d ++ state_checksum (disk_fields d).

Lemma encode_disk_Ok d b : encode_disk d = Ok b ↔
  0 ≤ disk_max_issued_at d ∧ 0 ≤ disk_max_wall_clock_seen d
  ∧ 1 ≤ len (disk_accepted_bundle d) ≤ MAX_BUNDLE_BYTES ∧ b = disk_bytes d.
Proof.
  unfold encode_disk, MAX_BUNDLE_BYTES. rewrite !if_err_Ok, !orb_false_iff, !Z.ltb_ge, Z.leb_gt,
    bool_decide_eq_false, <- len_zero. fold (disk_bytes d).
  pose proof (len_nonneg (disk_accepted_bundle d)). naive_solver lia.
Qed.

Lemma len_disk_fields d : disk_wf d → len (disk_fields d) = PREFIX_BYTES + len (disk_accepted_bundle d).
Proof.
  intros [Hr _ _ _]. unfold disk_fields. rewrite !len_app, !len_be_bytes, Hr. unfold PREFIX_BYTES.
  change (len MAGIC) with 8. lia.
Qed.

Lemma len_disk_bytes d : disk_wf d → len (disk_bytes d) = MIN_STATE_BYTES + len (disk_accepted_bundle d).
Proof.
  intros Hd. unfold disk_bytes, state_checksum. rewrite len_app, len_disk_fields, len_sha256 by done.
  unfold MIN_STATE_BYTES, CHECKSUM_BYTES. lia.
Qed.

Lemma disk_bytes_fits d : disk_wf d → len (disk_bytes d) ≤ MAX_STATE_BYTES.
Proof. intros Hd. rewrite len_disk_bytes by done. destruct Hd as [_ _ _ ?]. unfold MAX_STATE_BYTES. lia. Qed.

Lemma decode_disk_bytes d : disk_wf d → decode_disk (disk_bytes d) (disk_root_id d) = Ok d.
Proof.
  intros Hd. pose proof (len_disk_bytes _ Hd) as Hlen. pose proof (len_disk_fields _ Hd) as Hf.
  destruct Hd as [Hroot [Hi0 Hi] [Hw0 Hw] Hb].
  unfold MAX_STATE_BYTES, MIN_STATE_BYTES, PREFIX_BYTES, CHECKSUM_BYTES, MAX_BUNDLE_BYTES in *.
  unfold decode_disk, MAX_STATE_BYTES, MIN_STATE_BYTES, PREFIX_BYTES, CHECKSUM_BYTES, MAX_BUNDLE_BYTES.
  rewrite (proj2 (Z.leb_le _ (len (disk_bytes d)))), (proj2 (Z.leb_le (len (disk_bytes d)) _)) by lia.
  cbn [negb andb]. replace (len (disk_bytes d) - 32) with (len (disk_fields d)) by lia.
  assert (take (Z.to_nat (len (disk_fields d))) (disk_bytes d) = disk_fields d) as ->
    by (rewrite to_nat_len; apply take_app_length).
  assert (drop (Z.to_nat (len (disk_fields d))) (disk_bytes d) = state_checksum (disk_fields d)) as ->
    by (rewrite to_nat_len; apply drop_app_length).
  rewrite bool_decide_eq_false_2 by (by intros Hn; apply Hn).
  pose proof (reads_start (disk_bytes d) ltac:(lia)) as Hr. unfold disk_bytes in Hr at 2.
  unfold disk_fields in Hr at 1. rewrite <- !app_assoc in Hr.
  run_field Hr. rewrite bool_decide_eq_false_2 by (by intros Hn; apply Hn).
  run_field Hr. change (be_value (be_bytes 2 VERSION) =? VERSION) with true. cbn [negb].
  run_field Hr. change (be_value (be_bytes 2 RESERVED) =? RESERVED) with true. cbn [negb].
  run_field Hr. rewrite bool_decide_eq_false_2 by (by intros Hn; apply Hn).
  run_field Hr. run_field Hr. rewrite !be_i64_be_bytes, !(proj2 (Z.ltb_ge _ 0)) by done. cbn [orb].
  run_field Hr. cbn zeta. rewrite be_value_be_bytes_small by lia.
  rewrite (proj2 (Z.leb_le 1 _)), (proj2 (Z.leb_le _ (64 * 1024))) by lia. cbn [negb andb].
  rewrite (proj2 (ok_or_Ok (u64_checked_add _ _) Malformed (len (disk_fields d))))
    by (rewrite u64_checked_add_Some; change (len MAGIC) with 8; lia).
  cbn [mbind result_bind]. rewrite Z.eqb_refl. cbn [negb]. run_field Hr. by destruct d.
Qed.

Lemma decode_disk_Ok input rid d : decode_disk input rid = Ok d →
  disk_root_id d = rid ∧ disk_wf d ∧ input = disk_bytes d.
Proof.
  unfold decode_disk. intros H. apply if_err_Ok in H as [Hlen H].
  rewrite negb_false_iff, andb_true_iff, !Z.leb_le in Hlen.
  apply if_err_Ok in H as [Hsum%bool_decide_eq_false H]. apply dec_stable in Hsum.
  unfold MAX_STATE_BYTES, MIN_STATE_BYTES, PREFIX_BYTES, CHECKSUM_BYTES, MAX_BUNDLE_BYTES in *.
  remember (Z.to_nat (len input - 32)) as auth eqn:Hauth.
  pose proof (reads_start input ltac:(lia)) as Hr. remember input as rest eqn:Hin in Hr at 2.
  field_of H Hr magic Hl0. apply if_err_Ok in H as [Hm%bool_decide_eq_false H]. apply dec_stable in Hm.
  field_of H Hr ver Hl1. apply if_err_Ok in H as [Hv%negb_false_iff%Z.eqb_eq H].
  field_of H Hr res Hl2. apply if_err_Ok in H as [Hz%negb_false_iff%Z.eqb_eq H].
  field_of H Hr root Hl3. apply if_err_Ok in H as [Hroot%bool_decide_eq_false H]. apply dec_stable in Hroot.
  field_of H Hr iss Hl4. field_of H Hr wall Hl5. apply if_err_Ok in H as [Hneg H].
  apply orb_false_iff in Hneg as [Hi%Z.ltb_ge Hw%Z.ltb_ge].
  field_of H Hr blen Hl6. cbn zeta in H. apply if_err_Ok in H as [Hb H].
  rewrite negb_false_iff, andb_true_iff, !Z.leb_le in Hb.
  apply bind_Ok in H as (fin & [-> _]%ok_or_Ok%u64_checked_add_Some & H).
  apply if_err_Ok in H as [Hend%negb_false_iff%Z.eqb_eq H].
  field_of H Hr bnd Hl7. injection H as <-.
  destruct (be_i64_nonneg _ Hl4 Hi) as (_ & Hib & Hi64). destruct (be_i64_nonneg _ Hl5 Hw) as (_ & Hwb & Hw64).
  set (d := mkDiskState root (be_i64 iss) (be_i64 wall) bnd).
  assert (disk_wf d) as Hd by (split; cbn; [lia|done..|unfold MAX_BUNDLE_BYTES; lia]). split_and!; [done|done|].
  assert (∃ r, input = disk_fields d ++ r) as [r Heq].
  { eexists. unfold disk_fields, d. cbn [disk_root_id disk_max_issued_at disk_max_wall_clock_seen disk_accepted_bundle]. rewrite Hib, Hwb, Hl7, <- Hin, <- Hm, <- Hv, <- Hz.
    rewrite !be_bytes_of_value by (unfold len in *; lia). by rewrite <- !app_assoc. }
  assert (auth = length (disk_fields d)) as Hauth'.
  { rewrite Hauth, <- Hend, <- to_nat_len, len_disk_fields by done. unfold PREFIX_BYTES, d. cbn. f_equal. lia. }
  rewrite Heq, Hauth', take_app_length, drop_app_length in Hsum. unfold disk_bytes. by rewrite Heq, Hsum.
Qed.

Record checkpoint_wf (c : PolicyExpiryCheckpoint) : Prop := {
  cw_root : len (cp_root_id c) = 32;
  cw_hash : len (cp_policy_hash c) = 32;
  cw_epoch : is_u 64 (cp_policy_epoch c);
  cw_sequence : is_u 64 (cp_sequence c);
  cw_expires : 0 ≤ cp_expires_at c ∧ is_i64 (cp_expires_at c);
}.

Definition expiry_bytes (c : PolicyExpiryCheckpoint) : bytes :=
  expiry_fields c ++ expiry_checksum (expiry_fields c).

Lemma encode_expiry_Ok c b : encode_expiry c = Ok b ↔ 0 ≤ cp_expires_at c ∧ b = expiry_bytes c.
Proof. unfold encode_expiry. rewrite if_err_Ok, Z.ltb_ge. fold (expiry_bytes c). naive_solver. Qed.

Lemma len_expiry_fields c : checkpoint_wf c → len (expiry_fields c) = EXPIRY_BYTES - CHECKSUM_BYTES.
Proof.
  intros [Hr Hh _ _ _]. unfold expiry_fields. rewrite !len_app, !len_be_bytes, Hr, Hh.
  change (len EXPIRY_MAGIC) with 8. done.
Qed.

Lemma decode_expiry_bytes c : checkpoint_wf c → decode_expiry (expiry_bytes c) (cp_root_id c) = Ok c.
Proof.
  intros Hc. pose proof (len_expiry_fields _ Hc) as Hf.
  assert (len (expiry_bytes c) = EXPIRY_BYTES) as Hlen.
  { unfold expiry_bytes, expiry_checksum. rewrite len_app, len_sha256, Hf. done. }
  destruct Hc as [Hroot Hhash He Hs [Hx0 Hx]].
  unfold decode_expiry. rewrite Hlen, Z.eqb_refl. cbn [negb]. rewrite <- Hf.
  assert (take (Z.to_nat (len (expiry_fields c))) (expiry_bytes c) = expiry_fields c) as ->
    by (rewrite to_nat_len; apply take_app_length).
  assert (drop (Z.to_nat (len (expiry_fields c))) (expiry_bytes c) = expiry_checksum (expiry_fields c)) as ->
    by (rewrite to_nat_len; apply drop_app_length).
  rewrite bool_decide_eq_false_2 by (by intros Hn; apply Hn).
  pose proof (reads_start (expiry_bytes c) ltac:(rewrite Hlen; done)) as Hr. unfold expiry_bytes in Hr at 2.
  unfold expiry_fields in Hr at 1. rewrite <- !app_assoc in Hr.
  run_field Hr. rewrite bool_decide_eq_false_2 by (by intros Hn; apply Hn).
  run_field Hr. change (be_value (be_bytes 2 EXPIRY_VERSION) =? EXPIRY_VERSION) with true. cbn [negb].
  run_field Hr. change (be_value (be_bytes 2 RESERVED) =? RESERVED) with true. cbn [negb].
  run_field Hr. rewrite bool_decide_eq_false_2 by (by intros Hn; apply Hn).
  run_field Hr. run_field Hr. run_field Hr. run_field Hr.
  rewrite be_i64_be_bytes, (proj2 (Z.ltb_ge _ 0)) by done.
  rewrite Hf. change (0 + 8 + 2 + 2 + 32 + 32 + 8 + 8 + 8 =? EXPIRY_BYTES - CHECKSUM_BYTES) with true.
  unfold is_u in *. rewrite !be_value_be_bytes_small by (change (Z.of_nat 8 * 8) with 64; lia). by destruct c.
Qed.

Lemma decode_expiry_Ok input rid c : decode_expiry input rid = Ok c →
  cp_root_id c = rid ∧ checkpoint_wf c ∧ input = expiry_bytes c.
Proof.
  unfold decode_expiry. intros H. apply if_err_Ok in H as [Hlen%negb_false_iff%Z.eqb_eq H].
  apply if_err_Ok in H as [Hsum%bool_decide_eq_false H]. apply dec_stable in Hsum.
  pose proof (reads_start input ltac:(rewrite Hlen; done)) as Hr. remember input as rest eqn:Hin in Hr at 2.
  field_of H Hr magic Hl0. apply if_err_Ok in H as [Hm%bool_decide_eq_false H]. apply dec_stable in Hm.
  field_of H Hr ver Hl1. apply if_err_Ok in H as [Hv%negb_false_iff%Z.eqb_eq H].
  field_of H Hr res Hl2. apply if_err_Ok in H as [Hz%negb_false_iff%Z.eqb_eq H].
  field_of H Hr root Hl3. apply if_err_Ok in H as [Hroot%bool_decide_eq_false H]. apply dec_stable in Hroot.
  field_of H Hr hash Hl4. field_of H Hr ep Hl5. field_of H Hr sq Hl6. field_of H Hr xp Hl7.
  apply if_err_Ok in H as [Hx%Z.ltb_ge H]. apply if_err_Ok in H as [_ [= <-]].
  destruct (be_i64_nonneg _ Hl7 Hx) as (_ & Hxb & Hx64).
  set (c := mkPolicyExpiryCheckpoint root hash (be_value ep) (be_value sq) (be_i64 xp)).
  assert (∀ l, len l = 8 → is_u 64 (be_value l)) as Hu.
  { intros l Hl. pose proof (be_value_bound l) as Hb. by rewrite Hl in Hb. }
  assert (checkpoint_wf c) as Hc by (split; cbn; auto). split_and!; [done|done|].
  assert (∃ r, input = expiry_fields c ++ r) as [r Heq].
  { eexists. unfold expiry_fields, c. cbn [cp_root_id cp_policy_hash cp_policy_epoch cp_sequence cp_expires_at].
    rewrite Hxb, <- Hin, <- Hm, <- Hv, <- Hz.
    rewrite !be_bytes_of_value by (unfold len in *; lia). by rewrite <- !app_assoc. }
  rewrite Heq, <- (len_expiry_fields c Hc), to_nat_len, take_app_length, drop_app_length in Hsum.
  unfold expiry_bytes. by rewrite Heq, Hsum.
Qed.
End CodecTheory.

(** ** Verification at another time *)

Section StoreTheory.
Context `{C : PolicyCrypto} {CL : PolicyCryptoLaws C}.
Context `{M : Minicbor} {L : MinicborLaws M} `{E : Ed25519}.

(** The clock decides whether a bundle verifies, not what it verifies to. *)
Lemma verify_bundle_same input root t1 t2 b1 b2 :
  verify_bundle input root t1 = Ok b1 → verify_bundle input root t2 = Ok b2 → b1 = b2.
Proof.
  unfold verify_bundle, verify_keyset_artifact. intros H1 H2.
  apply bind_Ok in H1 as (x & Hx & H1). rewrite Hx in H2. cbn [mbind result_bind] in H2.
  apply bind_Ok in H1 as (a1 & Ha1 & H1). apply bind_Ok in H2 as (a2 & Ha2 & H2).
  assert (a1 = a2) as ->.
  { apply if_err_Ok in Ha1 as [_ Ha1]. apply if_err_Ok in Ha2 as [_ Ha2].
    apply bind_Ok in Ha1 as (p & Hp & Ha1). rewrite Hp in Ha2. cbn [mbind result_bind] in Ha2.
    apply bind_Ok in Ha1 as (k & Hk & Ha1). rewrite Hk in Ha2. cbn [mbind result_bind] in Ha2.
    apply bind_Ok in Ha1 as (? & _ & [= <-]). apply bind_Ok in Ha2 as (? & _ & [= <-]). done. }
  apply bind_Ok in H1 as (env & Henv & H1). rewrite Henv in H2. cbn [mbind result_bind] in H2.
  apply if_err_Ok in H1 as [_ H1]. apply if_err_Ok in H2 as [_ H2].
  apply bind_Ok in H1 as (signer & Hs & H1). rewrite Hs in H2. cbn [mbind result_bind] in H2.
  apply bundle_guards in H1 as [_ H1]. apply bundle_guards in H2 as [_ H2].
  apply bind_Ok in H1 as (pp & Hpp & H1). rewrite Hpp in H2. cbn [mbind result_bind] in H2.
  apply bind_Ok in H1 as (pol & Hpol & H1). rewrite Hpol in H2. cbn [mbind result_bind] in H2.
  apply bind_Ok in H1 as (? & _ & H1). apply bind_Ok in H2 as (? & _ & H2).
  apply lifetime_guards in H1 as [_ H1]. apply lifetime_guards in H2 as [_ H2]. congruence.
Qed.

Lemma authorised_later root t1 t2 ks pol signer : t1 ≤ t2 < pol_expires_at pol →
  authorised root t1 ks pol signer → authorised root t2 ks pol signer.
Proof.
  intros Ht [? ? Hk ? ? Hp Hf Hu ? ? ? [? ?] [? ?]]. split; try done.
  - destruct Hk as [(? & ? & ? & ? & ?) ? ? ? _]. split; try done; [split_and!; lia|].
    apply Exists_exists. exists signer. apply find_key_Some in Hf as [_ Hin]. split; [done|].
    destruct Hu as [? ?]. split; [done|lia].
  - destruct Hp as [(? & ? & ? & ? & ?) ? ? ? ? ? ? ? ?]. split; try done. split_and!; lia.
  - destruct Hu as [? ?]. split; [done|lia].
Qed.

(** A bundle that verified once verifies later exactly until its policy expires. *)
Lemma verify_bundle_later input root t1 t2 b : is_i64 t1 → is_i64 t2 → t1 ≤ t2 →
  verify_bundle input root t1 = Ok b →
  (is_ok (verify_bundle input root t2) = true ↔ t2 < pol_expires_at (vb_policy b))
  ∧ (t2 < pol_expires_at (vb_policy b) → verify_bundle input root t2 = Ok b).
Proof.
  intros H1 H2 Hle Hb. assert (t2 < pol_expires_at (vb_policy b) → verify_bundle input root t2 = Ok b) as Hl.
  { intros Hlt. pose proof (proj1 (verify_bundle_Ok _ _ _ _ H1) Hb) as (signer & Ha & Hrest).
    apply verify_bundle_Ok; [done|]. exists signer. split; [|done]. by eapply authorised_later. }
  split; [|done]. split; [|by intros ->%Hl]. destruct (verify_bundle input root t2) as [b'|] eqn:H'; [intros _|done].
  assert (b' = b) as -> by (by eapply verify_bundle_same).
  apply verify_bundle_Ok in H' as (signer & Ha & _); [|done]. destruct (au_policy _ _ _ _ _ Ha) as [(_ & _ & _ & _ & ?)].
  lia.
Qed.

(** ** What the anchor holds *)

Definition disk_of (root : TrustedRoot) (s : AcceptedPolicyState) (bundle : bytes) : DiskState :=
  mkDiskState (trusted_root_id root) (max_issued_at s) (max_wall_clock_seen s) bundle.

Definition policy_expiry (s : AcceptedPolicyState) : Z := pol_expires_at (vb_policy (accepted s)).

(** The anchor file holds the accepted state [s]. *)
Definition holds (root : TrustedRoot) (dir : PolicyDir) (s : AcceptedPolicyState) : Prop :=
  reachable root s
  ∧ ∃ bundle t, is_i64 t ∧ t ≤ max_wall_clock_seen s ∧ verify_bundle bundle root t = Ok (accepted s)
    ∧ disk_wf (disk_of root s bundle) ∧ anchor_file dir = FileWith (disk_bytes (disk_of root s bundle)).

Lemma read_disk root s bundle f : disk_wf (disk_of root s bundle) →
  f = FileWith (disk_bytes (disk_of root s bundle)) →
  read_bounded f = Ok (disk_bytes (disk_of root s bundle))
  ∧ decode_disk (disk_bytes (disk_of root s bundle)) (trusted_root_id root) = Ok (disk_of root s bundle).
Proof.
  intros Hw ->. split.
  - unfold read_bounded. rewrite (proj2 (Z.ltb_ge _ _) (disk_bytes_fits _ Hw)). reflexivity.
  - by apply (decode_disk_bytes (disk_of root s bundle)).
Qed.

Lemma load_anchor_holds root dir s : holds root dir s →
  if max_wall_clock_seen s <? policy_expiry s then load_anchor dir root = Ok (Some s)
  else ∃ e, load_anchor dir root = Err (Policy e).
Proof.
  intros (Hreach & bundle & t & Ht & Hle & Hv & Hw & Hf). unfold load_anchor.
  destruct (read_disk _ _ _ _ Hw Hf) as [-> Hd]. rewrite Hd. cbn [mbind result_bind disk_of disk_accepted_bundle
    disk_max_wall_clock_seen disk_max_issued_at].
  destruct (dw_wall _ Hw) as [_ Hwall]. cbn [disk_of disk_max_wall_clock_seen] in Hwall.
  destruct (verify_bundle_later _ _ _ _ _ Ht Hwall Hle Hv) as [Hiff Hlater]. fold (policy_expiry s) in *.
  destruct (Z.ltb_spec (max_wall_clock_seen s) (policy_expiry s)) as [Hlt|Hge].
  - rewrite (Hlater Hlt). cbn [policy_context mbind result_bind]. unfold accepted_max_issued.
    fold (issued_floor (accepted s)). rewrite <- (reachable_floor _ _ Hreach), (proj2 (Z.ltb_ge _ _)) by lia.
    by destruct s.
  - destruct (verify_bundle bundle root (max_wall_clock_seen s)) as [b|e] eqn:Hvb; [|by exists e].
    pose proof (proj1 Hiff eq_refl). lia.
Qed.


Lemma policy_context_Ok {A} (m : result PolicyError A) a : policy_context m = Ok a ↔ m = Ok a.
Proof. destruct m; cbn; naive_solver. Qed.

Lemma load_active_holds locked root dir s now s' : holds root dir s →
  load_active locked dir root now = Ok s' →
  s' = s ∧ ensure_not_tombstoned dir root (accepted s) = Ok ()
  ∧ max_wall_clock_seen s ≤ i64_saturating_add now MAX_CLOCK_SKEW_SECS
  ∧ ∃ bundle, verify_bundle bundle root now = Ok (accepted s).
Proof.
  intros (Hreach & bundle & t & Ht & Hle & Hv & Hw & Hf) H. unfold load_active in H.
  apply if_err_Ok in H as [_ H]. destruct (read_disk _ _ _ _ Hw Hf) as [Hrd Hd].
  rewrite Hrd in H. cbn [mbind result_bind] in H. rewrite Hd in H.
  cbn [mbind result_bind disk_of disk_accepted_bundle disk_max_wall_clock_seen disk_max_issued_at] in H.
  apply if_err_Ok in H as [Hclock%Z.ltb_ge H]. apply bind_Ok in H as (b & Hb%policy_context_Ok & H).
  assert (b = accepted s) as -> by (by eapply verify_bundle_same).
  apply if_err_Ok in H as [_ H]. apply bind_Ok in H as ([] & Hn & [= <-]).
  split_and!; [by destruct s|done|done|by exists bundle].
Qed.

(** Whether an active policy loads: the clock, the tombstone and the window decide. *)
Lemma load_active_ready root dir s now : holds root dir s → is_i64 now →
  max_wall_clock_seen s ≤ i64_saturating_add now MAX_CLOCK_SKEW_SECS →
  max_wall_clock_seen s ≤ now < policy_expiry s →
  ensure_not_tombstoned dir root (accepted s) = Ok () → load_active true dir root now = Ok s.
Proof.
  intros (Hreach & bundle & t & Ht & Hle & Hv & Hw & Hf) Hnow Hclock Hwin Hn. unfold load_active. cbn [negb].
  destruct (read_disk _ _ _ _ Hw Hf) as [-> Hd]. cbn [mbind result_bind]. rewrite Hd.
  cbn [mbind result_bind disk_of disk_accepted_bundle disk_max_wall_clock_seen disk_max_issued_at].
  rewrite (proj2 (Z.ltb_ge _ (max_wall_clock_seen s))) by done.
  rewrite (proj2 (verify_bundle_later _ _ _ now _ Ht Hnow ltac:(lia) Hv)) by apply Hwin.
  cbn [policy_context mbind result_bind]. unfold accepted_max_issued.
  fold (issued_floor (accepted s)). rewrite <- (reachable_floor _ _ Hreach), (proj2 (Z.ltb_ge _ _)) by lia.
  rewrite Hn. cbn. by destruct s.
Qed.

(** ** Publishing *)

Lemma publish_file_cases target b replacing io f r : publish_file target b replacing io = (f, r) →
  f = target ∧ is_ok r = false ∨ f = FileWith b ∧ (replacing = false → target = NoFile).
Proof.
  unfold publish_file. destruct (MAX_STATE_BYTES <? len b); [by intros [= <- <-]; left|].
  destruct io, replacing, target; intros [= <- <-]; naive_solver.
Qed.

(** The two ways [enroll] and [update] end: nothing is written, or the anchor is the new
    state. *)
Lemma publish_transition_cases dir root b m replacing io dir' r :
  publish_transition dir root b m replacing io = (dir', r) →
  dir' = dir ∧ is_ok r = false
  ∨ ∃ t, m = Ok t ∧ expiry_file dir' = expiry_file dir
      ∧ (replacing = false → anchor_file dir = NoFile)
      ∧ encode_disk (disk_of root (Transition_state t) b) = Ok (disk_bytes (disk_of root (Transition_state t) b))
      ∧ anchor_file dir' = FileWith (disk_bytes (disk_of root (Transition_state t) b))
      ∧ (r = Ok t ∨ is_ok r = false).
Proof.
  unfold publish_transition, persist_transition. destruct m as [t|e]; [|intros [= <- <-]; by left].
  fold (disk_of root (Transition_state t) b).
  destruct (encode_disk (disk_of root (Transition_state t) b)) as [enc|e] eqn:He; [|intros [= <- <-]; by left].
  assert (enc = disk_bytes (disk_of root (Transition_state t) b)) as -> by (apply encode_disk_Ok in He; tauto).
  destruct (publish_file _ _ _ _) as [f rr] eqn:Hp. apply publish_file_cases in Hp as [[-> Hr]|[-> Hr]].
  - destruct rr; [done|]. intros [= <- <-]. left. by destruct dir.
  - intros H. right. exists t. destruct rr; injection H as <- <-; cbn; naive_solver.
Qed.

Lemma candidate_transition_Ok dir root b now previous t :
  candidate_transition dir root b now previous = Ok t ↔
  ∃ c, verify_bundle b root now = Ok c ∧ ensure_not_tombstoned dir root c = Ok ()
    ∧ apply_verified_update previous c now = Ok t.
Proof.
  unfold candidate_transition. rewrite bind_Ok. setoid_rewrite policy_context_Ok. split.
  - intros (c & Hc & H). apply bind_Ok in H as ([] & Hn & Ha%policy_context_Ok). by exists c.
  - intros (c & Hc & Hn & Ha). exists c. split; [done|]. rewrite Hn. cbn. by apply policy_context_Ok.
Qed.

Lemma transition_accepted previous c now t : apply_verified_update previous c now = Ok t →
  accepted (Transition_state t) = c ∧ now ≤ max_wall_clock_seen (Transition_state t)
  ∧ max_wall_clock_seen (Transition_state t)
    = match previous with Some s => Z.max (max_wall_clock_seen s) now | None => now end.
Proof.
  destruct previous as [s|].
  - intros [_ Ht]%apply_update_Ok. assert (Transition_state t = updated s c now) as -> by naive_solver.
    cbn. split_and!; [done|lia|done].
  - intros (_ & _ & _ & _ & _ & _ & ->)%apply_genesis_Ok. done.
Qed.

Lemma verified_wf input root now b : is_i64 now → verify_bundle input root now = Ok b →
  KeysetV1_wf (vb_keyset b) ∧ EndpointPolicyV2_wf (vb_policy b) ∧ policy_valid (vb_policy b) now.
Proof. intros Hn (signer & [] & _)%verify_bundle_Ok; [|done]. done. Qed.

(** What was written holds the new state. *)
Lemma written_holds root dir b c now t previous : is_i64 now →
  verify_bundle b root now = Ok c → apply_verified_update previous c now = Ok t →
  match previous with Some s => reachable root s ∧ is_i64 (max_wall_clock_seen s) | None => True end →
  encode_disk (disk_of root (Transition_state t) b) = Ok (disk_bytes (disk_of root (Transition_state t) b)) →
  anchor_file dir = FileWith (disk_bytes (disk_of root (Transition_state t) b)) →
  holds root dir (Transition_state t).
Proof.
  intros Hn Hv Ha Hprev He Hf. destruct (transition_accepted _ _ _ _ Ha) as (Hacc & Hle & Hwall).
  assert (reachable root (Transition_state t)) as Hreach.
  { destruct previous as [s|]; [by eapply reachable_update; [apply Hprev|..]|by eapply reachable_genesis]. }
  split; [done|]. exists b, now. rewrite Hacc. split_and!; [done|done|done| |done].
  apply encode_disk_Ok in He as (Hi0 & Hw0 & Hb & _). destruct (verified_wf _ _ _ _ Hn Hv) as (Hk & Hp & _).
  pose proof (reachable_floor _ _ Hreach) as Hfl. rewrite Hacc in Hfl.
  split; [apply len_sha256|split; [exact Hi0|]|split; [exact Hw0|]|exact Hb].
  - cbn [disk_of disk_max_issued_at]. rewrite Hfl. unfold issued_floor.
    destruct Hk, Hp. unfold is_i64 in *. lia.
  - cbn [disk_of disk_max_wall_clock_seen]. rewrite Hwall. destruct previous as [s|]; [|done].
    destruct Hprev as [_ ?]. unfold is_i64 in *. lia.
Qed.

(** ** Operations on a held anchor *)

Lemma holds_anchor root d d' s : anchor_file d' = anchor_file d → holds root d s → holds root d' s.
Proof. intros He (Hr & H). split; [done|]. by rewrite He. Qed.

Lemma load_anchor_held root dir s o : holds root dir s → load_anchor dir root = Ok o → o = Some s.
Proof.
  intros Hh. pose proof (load_anchor_holds _ _ _ Hh) as Hl.
  destruct (max_wall_clock_seen s <? policy_expiry s); [|destruct Hl as [e Hl]]; congruence.
Qed.

Lemma holds_wall root dir s : holds root dir s → reachable root s ∧ is_i64 (max_wall_clock_seen s).
Proof. intros (Hr & b & t & _ & _ & _ & Hw & _). split; [done|]. apply (dw_wall _ Hw). Qed.

Lemma enroll_held root dir s locked io b now dir' r : holds root dir s →
  enroll locked io dir root b now = (dir', r) → dir' = dir ∧ is_ok r = false.
Proof.
  intros Hh [?|(t & Hm & _)]%publish_transition_cases; [done|]. exfalso.
  apply if_err_Ok in Hm as [_ Hm]. apply bind_Ok in Hm as (o & ->%(load_anchor_held _ _ _ _ Hh) & Hm).
  apply if_err_Ok in Hm as [Hb _]. by apply bool_decide_eq_false in Hb; destruct Hb.
Qed.

Lemma enroll_fresh root dir locked io b now dir' r : is_i64 now → anchor_file dir = NoFile →
  enroll locked io dir root b now = (dir', r) →
  dir' = dir ∧ is_ok r = false
  ∨ ∃ t, holds root dir' (Transition_state t) ∧ (r = Ok t ∨ is_ok r = false).
Proof.
  intros Hn Hf [?|(t & Hm & _ & _ & He & Ha & Hr)]%publish_transition_cases; [by left|right].
  apply if_err_Ok in Hm as [_ Hm]. apply bind_Ok in Hm as (o & _ & Hm). apply if_err_Ok in Hm as [_ Hm].
  apply candidate_transition_Ok in Hm as (c & Hv & _ & Hc). exists t. split; [|done]. by eapply written_holds.
Qed.

Lemma update_held root dir s locked io b now dir' r : is_i64 now → holds root dir s →
  update locked io dir root b now = (dir', r) →
  dir' = dir ∧ is_ok r = false
  ∨ ∃ t c, apply_verified_update (Some s) c now = Ok t ∧ ensure_not_tombstoned dir root c = Ok ()
      ∧ load_anchor dir root = Ok (Some s) ∧ holds root dir' (Transition_state t)
      ∧ expiry_file dir' = expiry_file dir ∧ (r = Ok t ∨ is_ok r = false).
Proof.
  intros Hn Hh [?|(t & Hm & Hx & _ & He & Ha & Hr)]%publish_transition_cases; [by left|right].
  apply if_err_Ok in Hm as [_ Hm]. apply bind_Ok in Hm as (o & Hl & Hm).
  pose proof (load_anchor_held _ _ _ _ Hh Hl) as ->. cbn [ok_or mbind result_bind] in Hm.
  apply candidate_transition_Ok in Hm as (c & Hv & Hnt & Hc). exists t, c. split_and!; try done.
  eapply written_holds; [done..|by eapply holds_wall|done|done].
Qed.

Lemma update_missing root dir locked io b now dir' r : anchor_file dir = NoFile →
  update locked io dir root b now = (dir', r) → dir' = dir ∧ is_ok r = false.
Proof.
  intros Hf [?|(t & Hm & _)]%publish_transition_cases; [done|]. exfalso.
  apply if_err_Ok in Hm as [_ Hm]. unfold load_anchor in Hm. by rewrite Hf in Hm.
Qed.

Lemma checkpoint_cases root dir locked io cp dir' r :
  checkpoint_expired locked io dir root cp = (dir', r) →
  anchor_file dir' = anchor_file dir
  ∧ (dir' = dir ∧ (is_ok r = true → ∃ s, load_anchor dir root = Ok (Some s)
                     ∧ cp = checkpoint_from_state s ∧ load_expiry dir root = Ok (Some cp))
     ∨ ∃ s existing, load_anchor dir root = Ok (Some s) ∧ cp = checkpoint_from_state s
         ∧ load_expiry dir root = Ok existing
         ∧ cp_policy_hash <$> existing ≠ Some (cp_policy_hash cp)
         ∧ expiry_file dir' = FileWith (expiry_bytes cp)).
Proof.
  unfold checkpoint_expired.
  match goal with |- context [match ?m with Ok _ => _ | Err _ => _ end] => destruct m as [existing|e] eqn:Hm end;
    [|intros [= <- <-]; split; [done|]; by left].
  apply if_err_Ok in Hm as [_ Hm]. apply if_err_Ok in Hm as [_ Hm].
  apply bind_Ok in Hm as (o & Ho & Hm). apply bind_Ok in Hm as (s & ->%ok_or_Ok & Hm).
  apply if_err_Ok in Hm as [Hcp%bool_decide_eq_false Hm]. apply dec_stable in Hcp.
  case_bool_decide as Hex. { intros [= <- <-]. split; [done|]. left. split; [done|]. intros _. exists s. by subst existing. }
  case_bool_decide as Hh. { intros [= <- <-]. split; [done|]. left. by split. }
  destruct (encode_expiry cp) as [b|e] eqn:He; [|intros [= <- <-]; split; [done|]; left; by split].
  apply encode_expiry_Ok in He as [_ ->].
  destruct (publish_file _ _ _ _) as [f rr] eqn:Hp. intros [= <- <-]. split; [done|].
  apply publish_file_cases in Hp as [[-> Hr]|[-> _]].
  - left. split; [by destruct dir|]. by rewrite Hr.
  - right. by exists s, existing.
Qed.

(** ** Histories of the store *)

(** One operation of a process that uses the store, with any outcome of lock and files. *)
Inductive store_step (root : TrustedRoot) : PolicyDir → PolicyDir → Prop :=
| step_enroll locked io d b now d' r : is_i64 now →
    enroll locked io d root b now = (d', r) → store_step root d d'
| step_update locked io d b now d' r : is_i64 now →
    update locked io d root b now = (d', r) → store_step root d d'
| step_checkpoint locked io d cp d' r :
    checkpoint_expired locked io d root cp = (d', r) → store_step root d d'.

Definition fresh : PolicyDir := mkPolicyDir NoFile NoFile.

Lemma step_held root d d' s : store_step root d d' → holds root d s →
  ∃ s', holds root d' s' ∧ rtc update_step s s'.
Proof.
  intros [locked io d0 b now d1 r Hn H|locked io d0 b now d1 r Hn H|locked io d0 cp d1 r H] Hh.
  - destruct (enroll_held _ _ _ _ _ _ _ _ _ Hh H) as [-> _]. by exists s.
  - destruct (update_held _ _ _ _ _ _ _ _ _ Hn Hh H) as [[-> _]|(t & c & Ha & _ & _ & Hh' & _)]; [by exists s|].
    exists (Transition_state t). split; [done|]. apply rtc_once. by eapply update_step_intro.
  - apply checkpoint_cases in H as [Ha _]. exists s. split; [by eapply holds_anchor|done].
Qed.

Lemma run_held root d d' s : rtc (store_step root) d d' → holds root d s →
  ∃ s', holds root d' s' ∧ rtc update_step s s'.
Proof.
  intros Hrun. revert s. induction Hrun as [d|d d1 d' Hs _ IH]; intros s Hh; [by exists s|].
  destruct (step_held _ _ _ _ Hs Hh) as (s1 & Hh1 & Hst). destruct (IH _ Hh1) as (s' & Hh' & Hst').
  exists s'. split; [done|]. by etrans.
Qed.

Lemma run_fresh root d d' : rtc (store_step root) d d' → anchor_file d = NoFile →
  anchor_file d' = NoFile ∨ ∃ s, holds root d' s.
Proof.
  induction 1 as [d|d d1 d' Hs Hrun IH]; intros Hf; [by left|].
  destruct Hs as [locked io d0 b now d1 r Hn H|locked io d0 b now d1 r Hn H|locked io d0 cp d1 r H].
  - destruct (enroll_fresh _ _ _ _ _ _ _ _ Hn Hf H) as [[-> _]|(t & Hh & _)]; [by apply IH|].
    destruct (run_held _ _ _ _ Hrun Hh) as (s' & Hh' & _). right. by exists s'.
  - destruct (update_missing _ _ _ _ _ _ _ _ Hf H) as [-> _]. by apply IH.
  - apply checkpoint_cases in H as [Ha _]. apply IH. by rewrite Ha.
Qed.

Lemma loaded_held root d locked now s : rtc (store_step root) fresh d →
  load_active locked d root now = Ok s → holds root d s.
Proof.
  intros Hrun Hl. destruct (run_fresh _ _ _ Hrun eq_refl) as [Hf|(s' & Hh)].
  - unfold load_active in Hl. apply if_err_Ok in Hl as [_ Hl]. by rewrite Hf in Hl.
  - by destruct (load_active_holds _ _ _ _ _ _ Hh Hl) as (-> & _).
Qed.

(** C4: Restarts do not roll back: whatever a process loads from the store was reached from
    the trusted root by verified updates, verifies at the time of loading, and what any
    later process loads follows from it by updates, over any sequence of enrolments,
    updates and expiry checkpoints, whether or not they succeed and wherever their writes
    fail. *)
Theorem store_no_rollback (root : TrustedRoot) (d1 d2 : PolicyDir) (l1 l2 : bool) (now1 now2 : Z)
    (s1 s2 : AcceptedPolicyState) :
  rtc (store_step root) fresh d1 → load_active l1 d1 root now1 = Ok s1 →
  rtc (store_step root) d1 d2 → load_active l2 d2 root now2 = Ok s2 →
  reachable root s1 ∧ (∃ bundle, verify_bundle bundle root now1 = Ok (accepted s1))
  ∧ rtc update_step s1 s2
  ∧ (same_policy (accepted s1) (accepted s2)
     ∨ coordinate_lt (vb_policy (accepted s1)) (vb_policy (accepted s2))).
Proof.
  intros H1 Hl1 H12 Hl2. pose proof (loaded_held _ _ _ _ _ H1 Hl1) as Hh1.
  destruct (load_active_holds _ _ _ _ _ _ Hh1 Hl1) as (_ & _ & _ & Hv).
  destruct (run_held _ _ _ _ H12 Hh1) as (s & Hh2 & Hst).
  destruct (load_active_holds _ _ _ _ _ _ Hh2 Hl2) as (-> & _).
  split_and!; [apply Hh1|done|done|by apply history_policy].
Qed.

(** ** Retirement *)

Lemma held_checkpoint root d s : holds root d s → let cp := checkpoint_from_state s in
  checkpoint_wf cp ∧ cp_root_id cp = trusted_root_id root
  ∧ cp_policy_hash cp = vb_policy_hash (accepted s)
  ∧ cp_policy_epoch cp = pol_policy_epoch (vb_policy (accepted s))
  ∧ cp_sequence cp = pol_sequence (vb_policy (accepted s)).
Proof.
  intros (_ & b & t & Ht & _ & Hv & _). cbn.
  destruct (verified_bundle_contents _ _ _ _ Ht Hv) as (Hr & _ & Hh & He & Hs & Hx & _).
  destruct (verified_wf _ _ _ _ Ht Hv) as (_ & Hp & [Hwin]). split_and!; try done.
  unfold checkpoint_from_state. rewrite Hr, Hh, He, Hs, Hx.
  split; cbn; try apply len_sha256; try apply Hp. split; [|apply Hp]. destruct Hwin as (? & ? & _). lia.
Qed.

Lemma load_expiry_written root d cp : checkpoint_wf cp → cp_root_id cp = trusted_root_id root →
  expiry_file d = FileWith (expiry_bytes cp) → load_expiry d root = Ok (Some cp).
Proof.
  intros Hw Hr Hf. unfold load_expiry. rewrite Hf. unfold read_bounded.
  assert (len (expiry_bytes cp) = EXPIRY_BYTES) as Hl.
  { unfold expiry_bytes, expiry_checksum. rewrite len_app, len_expiry_fields, len_sha256 by done. done. }
  rewrite (proj2 (Z.ltb_ge _ _)) by (rewrite Hl; by vm_compute).
  by rewrite <- Hr, decode_expiry_bytes.
Qed.

Lemma tombstoned root d cp b : load_expiry d root = Ok (Some cp) → cp_policy_hash cp = vb_policy_hash b →
  ensure_not_tombstoned d root b ≠ Ok ().
Proof.
  intros Hl Hh. unfold ensure_not_tombstoned. rewrite Hl. cbn [mbind result_bind].
  rewrite bool_decide_eq_false_2 by (intros Hn; by apply Hn). by case_match.
Qed.

(** The policy of [s1] is retired: it is superseded, or still in place with its tombstone. *)
Definition retired (root : TrustedRoot) (s1 : AcceptedPolicyState) (d : PolicyDir) : Prop :=
  ∃ s, holds root d s
    ∧ (coordinate_lt (vb_policy (accepted s1)) (vb_policy (accepted s))
       ∨ same_policy (accepted s1) (accepted s)
         ∧ load_expiry d root = Ok (Some (checkpoint_from_state s1))).

Lemma coordinate_lt_trans p q r : coordinate_lt p q → coordinate_lt q r → coordinate_lt p r.
Proof. unfold coordinate_lt. lia. Qed.

Lemma retired_step root s1 d d' : store_step root d d' → retired root s1 d → retired root s1 d'.
Proof.
  intros Hs (s & Hh & Hcase).
  destruct Hs as [locked io d0 b now d1 r Hn H|locked io d0 b now d1 r Hn H|locked io d0 cp d1 r H].
  - destruct (enroll_held _ _ _ _ _ _ _ _ _ Hh H) as [-> _]. by exists s.
  - destruct (update_held _ _ _ _ _ _ _ _ _ Hn Hh H) as [[-> _]|(t & c & Ha & Hnt & _ & Hh' & _)]; [by exists s|].
    exists (Transition_state t). split; [done|left].
    destruct (transition_accepted _ _ _ _ Ha) as (Hacc & _).
    destruct (step_policy s (Transition_state t) (update_step_intro _ _ _ _ Ha)) as [[Hp Hph]|Hlt].
    + destruct Hcase as [Hlt|[[Hsp Hsh] Hx]]; [by rewrite Hp|]. exfalso.
      apply (tombstoned _ _ _ c Hx); [|done]. rewrite <- Hacc, Hph, Hsh. done.
    + destruct Hcase as [Hlt'|[[Hsp _] _]]; [by eapply coordinate_lt_trans|by rewrite <- Hsp].
  - apply checkpoint_cases in H as [Hanch Hx]. exists s. split; [by eapply holds_anchor|].
    destruct Hcase as [Hlt|[Hsp Hex]]; [by left|right]. split; [done|].
    destruct Hx as [[-> _]|(s' & existing & Hl & -> & Hle & Hne & _)]; [done|]. exfalso. apply Hne.
    pose proof (load_anchor_held _ _ _ _ Hh Hl) as [= ->]. rewrite Hex in Hle. injection Hle as <-.
    cbn. by rewrite (proj2 Hsp).
Qed.

Lemma retired_run root s1 d d' : rtc (store_step root) d d' → retired root s1 d → retired root s1 d'.
Proof. induction 1; [done|]. intros H1. eauto using retired_step. Qed.

(** A retired policy stays retired: once an expiry checkpoint has been written, no
    process ever loads that policy again from the store, whatever its clock says and
    whatever bundle is offered for an update or an enrolment; only policies that come
    strictly after it in the signed order are loaded. *)
Theorem retired_stays_retired (root : TrustedRoot) (d d1 d2 : PolicyDir) (locked l2 : bool)
    (io : PublishIo) (cp : PolicyExpiryCheckpoint) (now : Z) (s2 : AcceptedPolicyState) :
  rtc (store_step root) fresh d → checkpoint_expired locked io d root cp = (d1, Ok ()) →
  rtc (store_step root) d1 d2 → load_active l2 d2 root now = Ok s2 →
  cp_policy_epoch cp < pol_policy_epoch (vb_policy (accepted s2))
  ∨ cp_policy_epoch cp = pol_policy_epoch (vb_policy (accepted s2))
    ∧ cp_sequence cp < pol_sequence (vb_policy (accepted s2)).
Proof.
  intros Hrun Hcp Hrun2 Hl. pose proof (checkpoint_cases _ _ _ _ _ _ _ Hcp) as [Hanch Hc].
  assert (∃ s1, load_anchor d root = Ok (Some s1) ∧ cp = checkpoint_from_state s1
    ∧ (d1 = d ∧ load_expiry d root = Ok (Some cp) ∨ expiry_file d1 = FileWith (expiry_bytes cp))) as (s1 & Ha & -> & Hx).
  { destruct Hc as [[-> Hok]|(s1 & ex & ? & ? & _ & _ & ?)]; [destruct (Hok eq_refl) as (s1 & ? & ? & ?)|]; exists s1; naive_solver. }
  destruct (run_fresh _ _ _ Hrun eq_refl) as [Hf|(s & Hh)].
  { unfold load_anchor in Ha. by rewrite Hf in Ha. }
  pose proof (load_anchor_held _ _ _ _ Hh Ha) as [= ->]. destruct (held_checkpoint _ _ _ Hh) as (Hwf & Hr & Hhash & -> & ->).
  assert (retired root s d1) as Hret.
  { exists s. split; [by eapply holds_anchor|right]. split; [done|].
    destruct Hx as [[-> Hx]|Hx]; [done|]. by apply load_expiry_written. }
  destruct (retired_run _ _ _ _ Hrun2 Hret) as (s' & Hh' & Hcase).
  destruct (load_active_holds _ _ _ _ _ _ Hh' Hl) as (-> & Hnt & _). destruct Hcase as [Hlt|[[_ Hsh] Hex]]; [done|].
  exfalso. apply (tombstoned _ _ _ (accepted s') Hex); [|done]. by rewrite Hhash.
Qed.

(** ** Recovery *)

(** What [enroll] and [update] return is in the store. *)
Lemma accepted_held root d d' locked io b now t : rtc (store_step root) fresh d → is_i64 now →
  enroll locked io d root b now = (d', Ok t) ∨ update locked io d root b now = (d', Ok t) →
  holds root d' (Transition_state t) ∧ verify_bundle b root now = Ok (accepted (Transition_state t))
  ∧ ensure_not_tombstoned d' root (accepted (Transition_state t)) = Ok ().
Proof.
  intros Hrun Hn Hop.
  assert (∃ m replacing previous, publish_transition d root b m replacing io = (d', Ok t)
    ∧ (m = Ok t → candidate_transition d root b now previous = Ok t
         ∧ match previous with Some s => holds root d s | None => True end)) as (m & rep & prev & Hp & Hm).
  { destruct (run_fresh _ _ _ Hrun eq_refl) as [Hf|(s & Hh)];
      destruct Hop as [H|H]; do 2 eexists; [exists None|exists None|exists None|exists (Some s)]; (split; [exact H|]);
      intros Hm; apply if_err_Ok in Hm as [_ Hm]; apply bind_Ok in Hm as (o & Ho & Hm).
    - by apply if_err_Ok in Hm as [_ Hm].
    - exfalso. unfold load_anchor in Ho. rewrite Hf in Ho. by injection Ho as <-.
    - by apply if_err_Ok in Hm as [_ Hm].
    - pose proof (load_anchor_held _ _ _ _ Hh Ho) as ->. done. }
  apply publish_transition_cases in Hp as [[_ ?]|(t' & Hm' & Hx & _ & He & Ha & [[= <-]|?])]; [done| |done].
  destruct (Hm Hm') as [Hc Hprev]. apply candidate_transition_Ok in Hc as (c & Hv & Hnt & Happ).
  destruct (transition_accepted _ _ _ _ Happ) as (Hacc & _). rewrite Hacc. split_and!; [|done|].
  - eapply written_holds; [done..| |done|done]. destruct prev; [|done]. by eapply holds_wall.
  - unfold ensure_not_tombstoned, load_expiry in *. by rewrite Hx.
Qed.

Lemma saturating_skew now : is_i64 now → now ≤ i64_saturating_add now MAX_CLOCK_SKEW_SECS.
Proof. unfold is_i64, i64_saturating_add, MAX_CLOCK_SKEW_SECS. lia. Qed.

Lemma active_window root now b input : is_i64 now → verify_bundle input root now = Ok b →
  now < pol_expires_at (vb_policy b).
Proof. intros Hn Hv. destruct (verified_wf _ _ _ _ Hn Hv) as (_ & _ & [(_ & _ & _ & _ & ?)]). lia. Qed.

(** What was accepted is recovered: after an enrolment or an update that returned a
    transition with a clock that is not behind the durable floor, the same clock loads
    exactly the new state for use and the next update starts from it; in general the next
    update finds the new state exactly when the wall-clock floor lies before the expiry of
    its policy. *)
Theorem accepted_recoverable (root : TrustedRoot) (d d' : PolicyDir) (locked : bool) (io : PublishIo)
    (b : bytes) (now : Z) (t : Transition) :
  rtc (store_step root) fresh d → is_i64 now →
  enroll locked io d root b now = (d', Ok t) ∨ update locked io d root b now = (d', Ok t) →
  let s := Transition_state t in
  (max_wall_clock_seen s ≤ now →
     load_active true d' root now = Ok s ∧ load_anchor d' root = Ok (Some s))
  ∧ (load_anchor d' root = Ok (Some s) ↔ max_wall_clock_seen s < policy_expiry s).
Proof.
  intros Hrun Hn Hop s. destruct (accepted_held _ _ _ _ _ _ _ _ Hrun Hn Hop) as (Hh & Hv & Hnt).
  pose proof (load_anchor_holds _ _ _ Hh) as Hl. pose proof (active_window _ _ _ _ Hn Hv) as Hwin.
  fold s in Hh, Hl, Hnt, Hwin. fold (policy_expiry s) in Hwin.
  destruct (Z.ltb_spec (max_wall_clock_seen s) (policy_expiry s)) as [Hlt|Hge].
  - split; [|done]. intros Hle. split; [|done].
    apply load_active_ready; [done|done| |split; [done|exact Hwin]|done].
    pose proof (saturating_skew _ Hn). lia.
  - split; [lia|]. destruct Hl as [e He]. split; [|lia]. congruence.
Qed.

Lemma unreadable_step root d d' e : load_anchor d root = Err e → store_step root d d' → d' = d.
Proof.
  intros Hl Hs. revert Hl.
  destruct Hs as [locked io d0 b now d1 r _ H|locked io d0 b now d1 r _ H|locked io d0 cp d1 r H]; intros Hl.
  - apply publish_transition_cases in H as [[-> _]|(t & Hm & _)]; [done|].
    apply if_err_Ok in Hm as [_ Hm]. by rewrite Hl in Hm.
  - apply publish_transition_cases in H as [[-> _]|(t & Hm & _)]; [done|].
    apply if_err_Ok in Hm as [_ Hm]. by rewrite Hl in Hm.
  - apply checkpoint_cases in H as [_ [[-> _]|(s & ex & Hs & _)]]; [done|]. congruence.
Qed.

(** C37: An update can leave the store unable to update again: if the clock of an accepted
    update is behind the durable floor (within the permitted skew) and the new policy
    expires before that floor, every later update and enrolment fails, whatever is offered
    and whenever, and no operation of the store changes the directory any more. *)
Theorem stranded_by_clock (root : TrustedRoot) (d d' : PolicyDir) (locked : bool) (io : PublishIo)
    (b : bytes) (now : Z) (t : Transition) :
  rtc (store_step root) fresh d → is_i64 now →
  update locked io d root b now = (d', Ok t) →
  policy_expiry (Transition_state t) ≤ max_wall_clock_seen (Transition_state t) →
  ∀ d2, rtc (store_step root) d' d2 →
    d2 = d' ∧ ∀ locked2 io2 b2 now2, is_ok (update locked2 io2 d2 root b2 now2).2 = false
                                     ∧ is_ok (enroll locked2 io2 d2 root b2 now2).2 = false.
Proof.
  intros Hrun Hn Hop Hexp d2 Hrun2. destruct (accepted_held _ _ _ _ _ _ _ _ Hrun Hn (or_intror Hop)) as (Hh & _).
  pose proof (load_anchor_holds _ _ _ Hh) as Hl. rewrite (proj2 (Z.ltb_ge _ _)) in Hl by done.
  destruct Hl as [e Hl]. assert (d2 = d') as ->.
  { clear Hop Hh. induction Hrun2 as [d'|d' d3 d2 Hs _ IH]; [done|].
    pose proof (unreadable_step _ _ _ _ Hl Hs) as ->. by apply IH. }
  split; [done|]. intros locked2 io2 b2 now2. unfold update, enroll, publish_transition. rewrite Hl.
  destruct locked2; done.
Qed.
End StoreTheory.

(** ** A concrete store: enrolment, rotation, a short-lived policy *)

Module StoreSample.
Import Rfc8949 CoseSample VerifySample StateSample.

#[export] Instance toy_laws : PolicyCryptoLaws toy_crypto.
Proof.
  split. intros m. change (sha256 m) with (take 32 (rev m ++ zero_array 32)).
  rewrite length_take, length_app. change (length (zero_array 32)) with 32%nat. lia.
Qed.

(** The policy after [policy1] expires at 3900; it is offered at 3850, when the floor is
    already at 4000. *)
Definition policy2 : EndpointPolicyV2 :=
  mkEndpointPolicyV2 1 (keyset_payload_hash (keyset_payload_bytes keyset1)) 0 2
    3000 3000 3900 (Some (vb_policy_hash bundle1)) [service]
    [mkPolicyRuleV2 ProtectedOnly [replicate 16 Byte.x07]] [replicate 32 Byte.x09].
Definition input2 : bytes := bundle_bytes (mkBundleBytes
  (sign CtKeyset (root_ed25519_public_key root) (root_kid root) (keyset_payload_bytes keyset1))
  (sign CtEndpointPolicy (key_ed25519_public_key new_key) (key_kid new_key)
     (policy_payload_bytes policy2))).
Definition bundle2 : VerifiedBundle := verified input2 3850.
Definition state2 : AcceptedPolicyState := mkAcceptedPolicyState bundle2 3000 4000.

Definition dir1 : PolicyDir := (enroll true PublishDone fresh root input 2000).1.
Definition dir2 : PolicyDir := (update true SyncFails dir1 root input1 4000).1.
Definition dir3 : PolicyDir := (update true PublishDone dir2 root input2 3850).1.
Definition retired1 : PolicyExpiryCheckpoint := checkpoint_from_state state1.
Definition dir4 : PolicyDir := (checkpoint_expired true PublishDone dir2 root retired1).1.
Definition dir5 : PolicyDir := (update true PublishDone dir4 root input2 3850).1.

Lemma enrolled : enroll true PublishDone fresh root input 2000 = (dir1, Ok (Applied state0)).
Proof. vm_compute. reflexivity. Qed.
Lemma rotated : update true SyncFails dir1 root input1 4000 = (dir2, Err Io).
Proof. vm_compute. reflexivity. Qed.
Lemma shortened : update true PublishDone dir2 root input2 3850 = (dir3, Ok (Applied state2)).
Proof. vm_compute. reflexivity. Qed.
Lemma checkpointed : checkpoint_expired true PublishDone dir2 root retired1 = (dir4, Ok ()).
Proof. vm_compute. reflexivity. Qed.
Lemma replaced : update true PublishDone dir4 root input2 3850 = (dir5, Ok (Applied state2)).
Proof. vm_compute. reflexivity. Qed.

Lemma run1 : rtc (store_step root) fresh dir1.
Proof. apply rtc_once. eapply step_enroll; [|apply enrolled]. done. Qed.
Lemma run12 : rtc (store_step root) dir1 dir2.
Proof. apply rtc_once. eapply step_update; [|apply rotated]. done. Qed.
Lemma run2 : rtc (store_step root) fresh dir2.
Proof. etrans; [apply run1|apply run12]. Qed.
Lemma run45 : rtc (store_step root) dir4 dir5.
Proof. apply rtc_once. eapply step_update; [|apply replaced]. done. Qed.

Lemma load1 : load_active true dir1 root 2100 = Ok state0.
Proof. vm_compute. reflexivity. Qed.
Lemma load2 : load_active true dir2 root 4100 = Ok state1.
Proof. vm_compute. reflexivity. Qed.
Lemma load4 : load_active true dir4 root 4100 = Err Retired.
Proof. vm_compute. reflexivity. Qed.
Lemma load5 : load_active true dir5 root 3860 = Ok state2.
Proof. vm_compute. reflexivity. Qed.

Lemma store_no_rollback_witness : reachable root state0 ∧ rtc update_step state0 state1.
Proof.
  destruct (store_no_rollback root dir1 dir2 true true 2100 4100 state0 state1 run1 load1 run12 load2)
    as (H1 & _ & H2 & _). exact (conj H1 H2).
Defined.

Lemma retired_witness : cp_policy_epoch retired1 < pol_policy_epoch (vb_policy (accepted state2))
  ∨ cp_policy_epoch retired1 = pol_policy_epoch (vb_policy (accepted state2))
    ∧ cp_sequence retired1 < pol_sequence (vb_policy (accepted state2)).
Proof.
  exact (retired_stays_retired root dir2 dir4 dir5 true true PublishDone retired1 3860 state2
    run2 checkpointed run45 load5).
Defined.

Lemma accepted_recoverable_witness : load_active true dir1 root 2000 = Ok state0
  ∧ load_anchor dir1 root = Ok (Some state0).
Proof.
  assert (is_i64 2000) as Hn by done.
  refine (proj1 (accepted_recoverable root fresh dir1 true PublishDone input 2000 (Applied state0)
    (rtc_refl _ _) Hn (or_introl enrolled)) _). by apply Z.leb_le.
Defined.

(** The short-lived policy is in the store, and every later offer is refused. *)
Lemma stranded_witness : is_ok (update true PublishDone dir3 root input 5000).2 = false.
Proof.
  assert (is_i64 3850) as Hn by done.
  assert (policy_expiry (Transition_state (Applied state2))
    ≤ max_wall_clock_seen (Transition_state (Applied state2))) as He by (by vm_compute).
  exact (proj1 (proj2 (stranded_by_clock root dir2 dir3 true PublishDone input2 3850 (Applied state2)
    run2 Hn shortened He dir3 (rtc_refl _ _)) true PublishDone input 5000)).
Defined.
End StoreSample.
