(* ===== verification/Wire.v ===== *)
(** * The inner wire protocol: varints, frames and handshake messages

    Models [shadowpipe-core/src/proto/mod.rs] and the frame-size estimate and byte
    budget of [volume_guard.rs].  A reader consumes a byte stream and returns the
    value with the rest of the stream; a writer returns the bytes it put on the
    stream together with its result, because a writer that fails has already
    written a prefix.  Every reader is shown to accept exactly the output of the
    corresponding writer. *)

From S2P Require Import Prelude.

(** ** Streams *)

(** [anyhow] errors, without their text. *)
Inductive WireError := UnexpectedEof | Malformed.

Definition Reader (A : Type) : Type := bytes → result WireError (A * bytes).

#[export] Instance Reader_ret : MRet Reader := λ A a s, Ok (a, s).
#[export] Instance Reader_bind : MBind Reader := λ A B f m s,
  match m s with Ok (a, s') => f a s' | Err e => Err e end.

Definition reject {A} (e : WireError) : Reader A := λ _, Err e.

(** [AsyncReadExt::read_exact] *)
Definition read_exact (n : Z) : Reader bytes := λ s, ok_or (split_exact n s) UnexpectedEof.

(** [read_u8], [read_u16], [read_u32] and [from_be_bytes] of an exact read *)
Definition read_be (n : nat) : Reader Z :=
  b ← read_exact (Z.of_nat n); mret (be_value b).

(** Bytes written so far, and the result. *)
Definition Writer : Type := bytes * result WireError ().

Definition write_all (b : bytes) : Writer := (b, Ok ()).
Definition write_err (e : WireError) : Writer := ([], Err e).
Definition wseq (m k : Writer) : Writer :=
  match m with
  | (b, Ok ()) => (b ++ k.1, k.2)
  | (b, Err e) => (b, Err e)
  end.
Declare Scope wire_scope.
Infix ";;;" := wseq (at level 90, right associativity) : wire_scope.
Open Scope wire_scope.

(** ** Constants and enumerations *)

Definition MAX_FRAME_PAYLOAD : Z := 64 * 1024.
Definition MAX_PADDING : Z := 512.
Definition MAX_FRAME_HEADER : Z := 9.
Definition MLKEM_PUBLIC_KEY_SIZE : Z := 1184.
Definition MLKEM_CIPHERTEXT_SIZE : Z := 1088.

Inductive CamouflageMode := Raw | H2Chunk | DnsChunk.
Inductive CarrierBinding :=
| DirectTcp | CarrierRealityTcp | BrowserTlsTcp | QuicRaw | Http2Tls | Http3Quic.
Inductive PaddingProfile := Balanced | PreferAscii | PreferEntropy.

Definition CamouflageMode_repr (m : CamouflageMode) : Z :=
  match m with Raw => 0 | H2Chunk => 1 | DnsChunk => 2 end.
Definition CamouflageMode_from_u8 (v : Z) : result WireError CamouflageMode :=
  if v =? 0 then Ok Raw else if v =? 1 then Ok H2Chunk else if v =? 2 then Ok DnsChunk
  else Err Malformed.

Definition CarrierBinding_repr (m : CarrierBinding) : Z :=
  match m with
  | DirectTcp => 0 | CarrierRealityTcp => 1 | BrowserTlsTcp => 2
  | QuicRaw => 3 | Http2Tls => 4 | Http3Quic => 5
  end.
Definition CarrierBinding_from_u8 (v : Z) : result WireError CarrierBinding :=
  if v =? 0 then Ok DirectTcp else if v =? 1 then Ok CarrierRealityTcp
  else if v =? 2 then Ok BrowserTlsTcp else if v =? 3 then Ok QuicRaw
  else if v =? 4 then Ok Http2Tls else if v =? 5 then Ok Http3Quic
  else Err Malformed.

Definition PaddingProfile_repr (m : PaddingProfile) : Z :=
  match m with Balanced => 0 | PreferAscii => 1 | PreferEntropy => 2 end.
Definition PaddingProfile_from_u8 (v : Z) : result WireError PaddingProfile :=
  if v =? 0 then Ok Balanced else if v =? 1 then Ok PreferAscii
  else if v =? 2 then Ok PreferEntropy else Err Malformed.

(** [FrameFlags] is its [u8]. *)
Definition FLAG_DATA : Z := 1.
Definition FLAG_FIN : Z := 2.
Definition FLAG_PING : Z := 4.
Definition FLAG_PADDING : Z := 8.
Definition flags_contains (flags flag : Z) : bool := negb (Z.land flags flag =? 0).

Record ClientHello := mkClientHello {
  ch_magic : Z;
  ch_version : Z;
  ch_client_random : bytes;
  ch_x25519_public : bytes;
  ch_mlkem_ciphertext : bytes;
  ch_camouflage : CamouflageMode;
  ch_padding_profile : PaddingProfile;
}.

Record ServerHello := mkServerHello {
  sh_server_random : bytes;
  sh_x25519_public : bytes;
  sh_session_id : bytes;
}.

Record Frame := mkFrame {
  fr_stream_id : Z;
  fr_flags : Z;
  fr_payload : bytes;
  fr_padding : bytes;
}.

#[export] Instance CamouflageMode_eq_dec : EqDecision CamouflageMode.
Proof. solve_decision. Defined.
#[export] Instance PaddingProfile_eq_dec : EqDecision PaddingProfile.
Proof. solve_decision. Defined.

(** ** Varints *)

(** [while value >= 0x80]; ten rounds are enough for a [u64]. *)
Fixpoint write_uvarint_loop (fuel : nat) (value : Z) : bytes :=
  match fuel with
  | O => [bz value]
  | S fuel =>
      if 128 <=? value
      then bz (Z.lor (value mod 256) 128) :: write_uvarint_loop fuel (Z.shiftr value 7)
      else [bz value]
  end.
Definition write_uvarint (value : Z) : bytes := write_uvarint_loop 10 value.

(** The loop over [buf.iter().enumerate()], from index [i] with [value] read so far. *)
Fixpoint read_uvarint_loop (i : Z) (value : Z) (buf : bytes) : result WireError (Z * bytes) :=
  match buf with
  | [] => Err Malformed
  | byte :: rest =>
      if (10 <=? i) || ((i =? 9) && negb (Z.land (bv byte) 126 =? 0)) then Err Malformed else
      let payload := Z.land (bv byte) 127 in
      let value := Z.lor value (Z.shiftl payload (i * 7) mod 2 ^ 64) in
      if Z.land (bv byte) 128 =? 0 then
        if (0 <? i) && (payload =? 0) then Err Malformed else Ok (value, rest)
      else read_uvarint_loop (i + 1) value rest
  end.
Definition read_uvarint (buf : bytes) : result WireError (Z * bytes) :=
  read_uvarint_loop 0 0 buf.

(** ** Length-prefixed blobs *)

Definition write_blob16 (data : bytes) : Writer :=
  if 65535 <? len data then write_err Malformed else
  write_all (be_bytes 2 (len data)) ;;;
  (if bool_decide (data = []) then write_all [] else write_all data).

Definition read_blob16_bounded (maximum : Z) : Reader bytes :=
  n ← read_be 2;
  if maximum <? n then reject Malformed else read_exact n.

Definition read_blob16_exact (expected : Z) : Reader bytes :=
  n ← read_be 2;
  if negb (n =? expected) then reject Malformed else read_exact n.

(** ** Handshake messages *)

Definition write_client_hello (hello : ClientHello) : Writer :=
  write_all (be_bytes 4 (ch_magic hello)) ;;;
  write_all (be_bytes 1 (ch_version hello)) ;;;
  write_all (ch_client_random hello) ;;;
  write_all (ch_x25519_public hello) ;;;
  (if negb (len (ch_mlkem_ciphertext hello) =? MLKEM_CIPHERTEXT_SIZE)
   then write_err Malformed
   else write_blob16 (ch_mlkem_ciphertext hello) ;;;
        write_all (be_bytes 1 (CamouflageMode_repr (ch_camouflage hello))) ;;;
        write_all (be_bytes 1 (PaddingProfile_repr (ch_padding_profile hello)))).

Definition of_result {A} (m : result WireError A) : Reader A := λ s,
  match m with Ok a => Ok (a, s) | Err e => Err e end.

Definition read_client_hello : Reader ClientHello :=
  magic ← read_be 4;
  version ← read_be 1;
  client_random ← read_exact 16;
  x25519_public ← read_exact 32;
  mlkem_ciphertext ← read_blob16_exact MLKEM_CIPHERTEXT_SIZE;
  c ← read_be 1;
  camouflage ← of_result (CamouflageMode_from_u8 c);
  p ← read_be 1;
  padding_profile ← of_result (PaddingProfile_from_u8 p);
  mret (mkClientHello magic version client_random x25519_public mlkem_ciphertext camouflage
          padding_profile).

Definition write_server_hello (hello : ServerHello) : Writer :=
  write_all (sh_server_random hello) ;;;
  write_all (sh_x25519_public hello) ;;;
  write_all (sh_session_id hello).

Definition read_server_hello : Reader ServerHello :=
  server_random ← read_exact 16;
  x25519_public ← read_exact 32;
  session_id ← read_exact 8;
  mret (mkServerHello server_random x25519_public session_id).

Definition write_mlkem_public (pk : bytes) : Writer :=
  if negb (len pk =? MLKEM_PUBLIC_KEY_SIZE) then write_err Malformed else
  write_all (be_bytes 2 (len pk)) ;;; write_all pk.

Definition read_mlkem_public : Reader bytes := read_blob16_exact MLKEM_PUBLIC_KEY_SIZE.

(** ** Frames *)

Definition frame_header (frame : Frame) : bytes :=
  write_uvarint (fr_stream_id frame) ++ bz (fr_flags frame)
    :: write_uvarint (len (fr_payload frame)).

Definition write_frame (frame : Frame) : Writer :=
  write_blob16 (frame_header frame) ;;;
  (if bool_decide (fr_payload frame = []) then write_all [] else write_all (fr_payload frame)) ;;;
  (if bool_decide (fr_padding frame = []) then write_all [] else write_all (fr_padding frame)).

Definition KNOWN_FLAGS : Z := Z.lor (Z.lor (Z.lor FLAG_DATA FLAG_FIN) FLAG_PING) FLAG_PADDING.

(** The padding block of [read_frame]. *)
Definition read_padding : Reader bytes :=
  pad_len ← read_be 2;
  if pad_len =? 0 then reject Malformed else
  if MAX_PADDING <? pad_len then reject Malformed else
  read_exact pad_len.

Definition read_frame : Reader Frame :=
  header ← read_blob16_bounded MAX_FRAME_HEADER;
  '(stream_id, rest) ← of_result (read_uvarint header);
  if 2 ^ 32 <=? stream_id then reject Malformed else
  match rest with
  | [] => reject Malformed
  | b :: rest =>
      let flags := bv b in
      if negb (Z.land flags (Z.lnot KNOWN_FLAGS mod 256) =? 0) then reject Malformed else
      '(payload_len, trailing) ← of_result (read_uvarint rest);
      if negb (bool_decide (trailing = [])) then reject Malformed else
      if MAX_FRAME_PAYLOAD <? payload_len then reject Malformed else
      payload ← (if 0 <? payload_len then read_exact payload_len else mret []);
      padding ← (if flags_contains flags FLAG_PADDING then read_padding else mret []);
      mret (mkFrame stream_id flags payload padding)
  end.

(** ** Reading is the inverse of writing: streams *)

Lemma reader_bind_Ok {A B} (m : Reader A) (f : A → Reader B) s b r :
  (m ≫= f) s = Ok (b, r) ↔ ∃ a s', m s = Ok (a, s') ∧ f a s' = Ok (b, r).
Proof.
  unfold mbind, Reader_bind. destruct (m s) as [[a s']|e]; split; try done.
  - by exists a, s'.
  - by intros (? & ? & [= <- <-] & ?).
  - by intros (? & ? & ? & ?).
Qed.

Lemma reader_ret_Ok {A} (a b : A) s r :
  (mret a : Reader A) s = Ok (b, r) ↔ b = a ∧ r = s.
Proof. unfold mret, Reader_ret. naive_solver. Qed.

Lemma reader_guard_Ok {A} (c : bool) e (m : Reader A) s b r :
  (if c then reject e else m) s = Ok (b, r) ↔ c = false ∧ m s = Ok (b, r).
Proof. destruct c; unfold reject; naive_solver. Qed.

Lemma of_result_Ok {A} (m : result WireError A) s a r :
  of_result m s = Ok (a, r) ↔ m = Ok a ∧ r = s.
Proof. unfold of_result. destruct m; naive_solver. Qed.

Lemma read_exact_Ok n s a r : read_exact n s = Ok (a, r) ↔ s = a ++ r ∧ n = len a.
Proof. unfold read_exact. by rewrite ok_or_Ok, split_exact_Some. Qed.

Lemma read_be_Ok n s z r :
  read_be n s = Ok (z, r) ↔ s = be_bytes n z ++ r ∧ 0 ≤ z < 2 ^ (Z.of_nat n * 8).
Proof.
  unfold read_be. rewrite reader_bind_Ok. setoid_rewrite read_exact_Ok.
  setoid_rewrite reader_ret_Ok. split.
  - intros (b & s' & [-> Hn] & -> & ->). unfold len in Hn. apply Nat2Z.inj in Hn as ->.
    rewrite be_bytes_be_value. split; [done|]. rewrite Z.mul_comm. apply be_value_bound.
  - intros [-> Hz]. exists (be_bytes n z), r. unfold len. rewrite length_be_bytes.
    by rewrite be_value_be_bytes_small.
Qed.

Lemma wseq_Ok m k b :
  (m ;;; k) = (b, Ok ()) ↔ ∃ b1 b2, m = (b1, Ok ()) ∧ k = (b2, Ok ()) ∧ b = b1 ++ b2.
Proof.
  destruct m as [b1 [[]|e]], k as [b2 r]; simpl; split.
  - intros [= <- ->]. by exists b1, b2.
  - by intros (? & ? & [= <-] & [= <- ->] & ->).
  - done.
  - by intros (? & ? & ? & _).
Qed.

Lemma write_all_Ok b b' : write_all b = (b', Ok ()) ↔ b' = b.
Proof. unfold write_all. naive_solver. Qed.

(** ** Varints *)

(** A decidable fact about bytes holds when it holds for the 256 values. *)
Lemma byte_check (P : Z → bool) :
  forallb P (seqZ 0 256) = true → ∀ z, 0 ≤ z < 256 → P z = true.
Proof.
  intros Hf z Hz. rewrite forallb_forall in Hf. apply Hf, list_elem_of_In, elem_of_seqZ. lia.
Qed.

Lemma cont_byte_bits z : 0 ≤ z < 256 →
  128 ≤ Z.lor z 128 < 256 ∧ Z.lor z 128 mod 128 = z mod 128
  ∧ Z.land (Z.lor z 128) 128 ≠ 0.
Proof.
  intros Hz. pose proof (byte_check (λ z, (128 <=? Z.lor z 128) && (Z.lor z 128 <? 256)
    && (Z.lor z 128 mod 128 =? z mod 128) && negb (Z.land (Z.lor z 128) 128 =? 0))
    ltac:(vm_compute; reflexivity) z Hz) as H. simpl in H.
  rewrite !andb_true_iff, negb_true_iff, Z.leb_le, Z.ltb_lt, Z.eqb_eq, Z.eqb_neq in H. tauto.
Qed.

Lemma top_bit z : 0 ≤ z < 256 → Z.land z 128 = 0 ↔ z < 128.
Proof.
  intros Hz. pose proof (byte_check (λ z, Bool.eqb (Z.land z 128 =? 0) (z <? 128))
    ltac:(vm_compute; reflexivity) z Hz) as H. simpl in H. apply Bool.eqb_prop in H.
  rewrite <- Z.eqb_eq, H. apply Z.ltb_lt.
Qed.

Lemma low_bits z : Z.land z 127 = z mod 128.
Proof. apply (Z.land_ones z 7). lia. Qed.

Lemma last_byte z : 0 ≤ z < 256 → Z.land z 126 = 0 ↔ z mod 128 ≤ 1.
Proof.
  intros Hz. pose proof (byte_check (λ z, Bool.eqb (Z.land z 126 =? 0) (z mod 128 <=? 1))
    ltac:(vm_compute; reflexivity) z Hz) as H. simpl in H. apply Bool.eqb_prop in H.
  rewrite <- Z.eqb_eq, H. apply Z.leb_le.
Qed.

(** Adding a digit above the bits read so far. *)
Lemma lor_digit acc p i : 0 ≤ i → 0 ≤ acc < 2 ^ (i * 7) → 0 ≤ p → p * 2 ^ (i * 7) < 2 ^ 64 →
  Z.lor acc (Z.shiftl p (i * 7) mod 2 ^ 64) = acc + p * 2 ^ (i * 7).
Proof.
  intros Hi Hacc Hp Hb. rewrite Z.shiftl_mul_pow2, Z.mod_small by lia.
  rewrite <- Z.shiftl_mul_pow2 by lia.
  assert (Z.land acc (Z.shiftl p (i * 7)) = 0) as Hd.
  { apply Z.bits_inj'. intros n Hn. rewrite Z.land_spec, Z.bits_0, Z.shiftl_spec by done.
    destruct (Z.ltb_spec n (i * 7)).
    - rewrite (Z.testbit_neg_r p) by lia. apply andb_false_r.
    - rewrite <- (Z.mod_small acc (2 ^ (i * 7))) by done.
      by rewrite Z.mod_pow2_bits_high by lia. }
  pose proof (Z.add_lor_land acc (Z.shiftl p (i * 7))). lia.
Qed.

Lemma read_write_uvarint_loop fuel : ∀ i acc w r,
  0 ≤ i → 0 ≤ acc < 2 ^ (i * 7) → 0 ≤ w < 2 ^ (7 * (Z.of_nat fuel + 1)) →
  acc + w * 2 ^ (i * 7) < 2 ^ 64 → (i = 0 ∨ 0 < w) →
  read_uvarint_loop i acc (write_uvarint_loop fuel w ++ r) = Ok (acc + w * 2 ^ (i * 7), r).
Proof.
  assert (∀ i, 10 ≤ i → 2 ^ 70 ≤ 2 ^ (i * 7)) as H10 by (intros; apply Z.pow_le_mono_r; lia).
  assert (∀ i acc w r, 0 ≤ i → 0 ≤ acc < 2 ^ (i * 7) → 0 ≤ w < 128 →
    acc + w * 2 ^ (i * 7) < 2 ^ 64 → (i = 0 ∨ 0 < w) →
    read_uvarint_loop i acc ([bz w] ++ r) = Ok (acc + w * 2 ^ (i * 7), r)) as Hlast.
  { intros i acc w r Hi Hacc Hw Hv Hne. simpl. rewrite bv_bz_small by lia.
    destruct (Z.leb_spec 10 i) as [Hi10|_]; [specialize (H10 i Hi10); nia|]. simpl.
    assert ((i =? 9) && negb (Z.land w 126 =? 0) = false) as ->.
    { destruct (Z.eqb_spec i 9) as [->|_]; [|done]. simpl. apply negb_false_iff, Z.eqb_eq.
      apply last_byte; [lia|]. rewrite Z.mod_small by lia. lia. }
    rewrite low_bits, (Z.mod_small w 128), lor_digit by lia.
    rewrite (proj2 (Z.eqb_eq _ 0)) by (apply top_bit; lia).
    by replace ((0 <? i) && (w =? 0)) with false by lia. }
  induction fuel as [|fuel IH]; intros i acc w r Hi Hacc Hw Hv Hne; cbn [write_uvarint_loop].
  { apply Hlast; lia || done. }
  destruct (Z.leb_spec 128 w) as [Hw128|Hw128]; [|apply Hlast; lia || done].
  set (b := Z.lor (w mod 256) 128).
  destruct (cont_byte_bits (w mod 256)) as (Hb & Hbm & Hbt); [apply Z.mod_pos_bound; lia|].
  fold b in Hb, Hbm, Hbt. simpl. rewrite bv_bz_small by lia.
  assert (i ≤ 8).
  { destruct (Z.le_gt_cases i 8); [done|].
    assert (2 ^ 63 ≤ 2 ^ (i * 7)) by (apply Z.pow_le_mono_r; lia). nia. }
  rewrite (proj2 (Z.leb_gt 10 i)), (proj2 (Z.eqb_neq i 9)) by lia. simpl.
  assert (b mod 128 = w mod 128) as Hm.
  { rewrite Hbm. apply Z.mod_mod_divide. by exists 2. }
  pose proof (Z.div_mod w 128 ltac:(lia)). pose proof (Z.mod_pos_bound w 128 ltac:(lia)).
  assert (1 ≤ w / 128) by (apply Z.div_le_lower_bound; lia).
  assert (2 ^ ((i + 1) * 7) = 128 * 2 ^ (i * 7)) as Hpow.
  { replace ((i + 1) * 7) with (7 + i * 7) by lia. rewrite Z.pow_add_r by lia. lia. }
  rewrite low_bits, Hm, lor_digit by nia.
  rewrite (proj2 (Z.eqb_neq _ 0) Hbt), Z.shiftr_div_pow2 by lia. change (2 ^ 7) with 128.
  assert (w / 128 < 2 ^ (7 * (Z.of_nat fuel + 1))).
  { apply Z.div_lt_upper_bound; [lia|]. change 128 with (2 ^ 7). rewrite <- Z.pow_add_r by lia.
    replace (7 + 7 * (Z.of_nat fuel + 1)) with (7 * (Z.of_nat (S fuel) + 1)) by lia. lia. }
  rewrite IH; [|lia|nia|lia|nia|lia]. do 2 f_equal. nia.
Qed.

Lemma read_uvarint_loop_canonical buf : ∀ fuel i acc v r,
  0 ≤ i → 0 ≤ acc < 2 ^ (i * 7) → 10 ≤ Z.of_nat fuel + i →
  read_uvarint_loop i acc buf = Ok (v, r) →
  ∃ w, v = acc + w * 2 ^ (i * 7) ∧ 0 ≤ w ∧ v < 2 ^ 64 ∧ (i = 0 ∨ 0 < w)
       ∧ buf = write_uvarint_loop fuel w ++ r.
Proof.
  induction buf as [|b buf IH]; intros fuel i acc v r Hi Hacc Hf H; simpl in H; [done|].
  pose proof (bv_range b) as Hb. apply if_err_Ok in H as [Hg H].
  rewrite orb_false_iff, Z.leb_gt in Hg. destruct Hg as [Hi10 Hg].
  pose proof (Z.mod_pos_bound (bv b) 128 ltac:(lia)) as Hm.
  pose proof (Z.div_mod (bv b) 128 ltac:(lia)).
  assert (bv b mod 128 * 2 ^ (i * 7) < 2 ^ 64 ∧
          acc + bv b mod 128 * 2 ^ (i * 7) < 2 ^ 64) as [Hd Hd'].
  { destruct (Z.eqb_spec i 9) as [->|Hi9]; simpl in Hg.
    - apply negb_false_iff, Z.eqb_eq, last_byte in Hg; [|done]. lia.
    - assert (2 ^ (i * 7) ≤ 2 ^ 56) by (apply Z.pow_le_mono_r; lia). nia. }
  rewrite low_bits, lor_digit in H by lia.
  destruct (Z.eqb_spec (Z.land (bv b) 128) 0) as [Ht|Ht].
  - apply top_bit in Ht; [|done]. rewrite Z.mod_small in * by lia.
    apply if_err_Ok in H as [Hz [= <- <-]]. exists (bv b). split_and!; [done|lia|lia|lia|].
    destruct fuel; simpl; [|rewrite (proj2 (Z.leb_gt 128 _)) by lia; simpl]; by rewrite bz_bv.
  - assert (128 ≤ bv b).
    { destruct (Z.le_gt_cases 128 (bv b)); [done|]. destruct Ht. by apply top_bit. }
    assert (2 ^ ((i + 1) * 7) = 128 * 2 ^ (i * 7)) as Hpow.
    { replace ((i + 1) * 7) with (7 + i * 7) by lia. rewrite Z.pow_add_r by lia. lia. }
    destruct fuel as [|fuel]; [lia|].
    assert (0 ≤ acc + bv b mod 128 * 2 ^ (i * 7) < 2 ^ ((i + 1) * 7)) as Hacc' by nia.
    destruct (IH fuel (i + 1) _ v r ltac:(lia) Hacc' ltac:(lia) H)
      as (w & -> & Hw & Hv & Hne & ->).
    exists (bv b mod 128 + 128 * w). split_and!; [nia|lia|lia|lia|]. cbn [write_uvarint_loop].
    rewrite (proj2 (Z.leb_le 128 _)) by lia. simpl. f_equal.
    + destruct (cont_byte_bits ((bv b mod 128 + 128 * w) mod 256)) as (Hc & Hcm & _);
        [apply Z.mod_pos_bound; lia|]. set (c := Z.lor _ _) in *.
      rewrite Z.mod_mod_divide in Hcm by (by exists 2).
      rewrite Z.mul_comm, Z.mod_add, Zmod_mod in Hcm by lia.
      assert (c = bv b) as -> by (pose proof (Z.div_mod c 128 ltac:(lia)); lia).
      by rewrite bz_bv.
    + do 2 f_equal. rewrite Z.shiftr_div_pow2 by lia. change (2 ^ 7) with 128.
      rewrite Z.mul_comm, Z.div_add by lia. rewrite (Z.div_small (bv b mod 128)) by lia. lia.
Qed.

Lemma read_uvarint_Ok buf v r :
  read_uvarint buf = Ok (v, r) ↔ is_u 64 v ∧ buf = write_uvarint v ++ r.
Proof.
  unfold read_uvarint, write_uvarint, is_u. split.
  - intros H. apply (read_uvarint_loop_canonical _ 10) in H as (w & -> & Hw & Hv & _ & ->);
      [|lia..]. change (2 ^ (0 * 7)) with 1 in *. rewrite Z.mul_1_r, Z.add_0_l in *. done.
  - intros [Hv ->]. rewrite (read_write_uvarint_loop 10 0 0 v r); [|lia..].
    change (2 ^ (0 * 7)) with 1. by rewrite Z.mul_1_r, Z.add_0_l.
Qed.

Lemma length_uvarint_loop fuel : ∀ v (n : Z), 1 ≤ n → 0 ≤ v < 2 ^ (7 * n) →
  len (write_uvarint_loop fuel v) ≤ n.
Proof.
  induction fuel as [|fuel IH]; intros v n Hn Hv; cbn [write_uvarint_loop].
  { by autorewrite with shadowpipe. }
  destruct (Z.leb_spec 128 v); autorewrite with shadowpipe; [|lia].
  rewrite Z.shiftr_div_pow2 by lia. change (2 ^ 7) with 128.
  assert (n ≠ 1) by (intros ->; lia).
  assert (len (write_uvarint_loop fuel (v / 128)) ≤ n - 1); [|lia].
  apply IH; [lia|]. split; [apply Z.div_pos; lia|]. apply Z.div_lt_upper_bound; [lia|].
  change 128 with (2 ^ 7). rewrite <- Z.pow_add_r by lia.
  replace (7 + 7 * (n - 1)) with (7 * n) by lia. lia.
Qed.

Lemma length_uvarint v n : 1 ≤ n → 0 ≤ v < 2 ^ (7 * n) → len (write_uvarint v) ≤ n.
Proof. apply length_uvarint_loop. Qed.

(** ** Blobs and handshake messages *)

(** Project records without computing byte strings. *)
Ltac proj := cbn [ch_magic ch_version ch_client_random ch_x25519_public ch_mlkem_ciphertext
  ch_camouflage ch_padding_profile sh_server_random sh_x25519_public sh_session_id
  fr_stream_id fr_flags fr_payload fr_padding fst snd wseq write_all write_err negb] in *.

Lemma write_if_empty (b : bytes) :
  (if bool_decide (b = []) then write_all [] else write_all b) = write_all b.
Proof. case_bool_decide; by subst. Qed.

Lemma write_blob16_Ok data b :
  write_blob16 data = (b, Ok ()) ↔ len data ≤ 65535 ∧ b = be_bytes 2 (len data) ++ data.
Proof.
  unfold write_blob16. rewrite write_if_empty. destruct (Z.ltb_spec 65535 (len data)).
  - split; [done|]. intros [? _]. lia.
  - simpl. naive_solver.
Qed.

Lemma read_blob16_bounded_Ok maximum s b r : maximum ≤ 65535 →
  read_blob16_bounded maximum s = Ok (b, r) ↔
  len b ≤ maximum ∧ s = be_bytes 2 (len b) ++ b ++ r.
Proof.
  intros Hm. unfold read_blob16_bounded. rewrite reader_bind_Ok. split.
  - intros (n & s' & [-> Hn]%read_be_Ok & [Hb [-> ->]%read_exact_Ok]%reader_guard_Ok).
    rewrite Z.ltb_ge in Hb. done.
  - intros [Hb ->]. exists (len b), (b ++ r). pose proof (len_nonneg b).
    rewrite read_be_Ok, reader_guard_Ok, read_exact_Ok, Z.ltb_ge. simpl. split_and!; lia || done.
Qed.

Lemma read_blob16_exact_Ok expected s b r : expected ≤ 65535 →
  read_blob16_exact expected s = Ok (b, r) ↔
  len b = expected ∧ s = be_bytes 2 (len b) ++ b ++ r.
Proof.
  intros Hm. unfold read_blob16_exact. rewrite reader_bind_Ok. split.
  - intros (n & s' & [-> Hn]%read_be_Ok & [Hb [-> ->]%read_exact_Ok]%reader_guard_Ok).
    rewrite negb_false_iff, Z.eqb_eq in Hb. done.
  - intros [Hb ->]. exists (len b), (b ++ r). pose proof (len_nonneg b).
    rewrite read_be_Ok, reader_guard_Ok, read_exact_Ok, negb_false_iff, Z.eqb_eq. simpl.
    split_and!; lia || done.
Qed.

Lemma CamouflageMode_from_u8_Ok v m :
  CamouflageMode_from_u8 v = Ok m ↔ v = CamouflageMode_repr m.
Proof.
  unfold CamouflageMode_from_u8. split; [|by intros ->; destruct m].
  destruct (Z.eqb_spec v 0), (Z.eqb_spec v 1), (Z.eqb_spec v 2); intros [= <-]; done.
Qed.

Lemma PaddingProfile_from_u8_Ok v m :
  PaddingProfile_from_u8 v = Ok m ↔ v = PaddingProfile_repr m.
Proof.
  unfold PaddingProfile_from_u8. split; [|by intros ->; destruct m].
  destruct (Z.eqb_spec v 0), (Z.eqb_spec v 1), (Z.eqb_spec v 2); intros [= <-]; done.
Qed.

(** Carrier bindings decode to exactly the carrier with that discriminant, and every
    other byte is rejected. *)
Theorem CarrierBinding_from_u8_iff (v : Z) (m : CarrierBinding) :
  CarrierBinding_from_u8 v = Ok m ↔ v = CarrierBinding_repr m.
Proof.
  unfold CarrierBinding_from_u8. split; [|by intros ->; destruct m].
  destruct (Z.eqb_spec v 0), (Z.eqb_spec v 1), (Z.eqb_spec v 2), (Z.eqb_spec v 3),
    (Z.eqb_spec v 4), (Z.eqb_spec v 5); intros [= <-]; done.
Qed.

Record ClientHello_wf (h : ClientHello) : Prop := {
  ch_magic_wf : is_u 32 (ch_magic h);
  ch_version_wf : is_u 8 (ch_version h);
  ch_random_wf : len (ch_client_random h) = 16;
  ch_x25519_wf : len (ch_x25519_public h) = 32;
}.

Lemma write_client_hello_Ok h b :
  write_client_hello h = (b, Ok ()) ↔
  len (ch_mlkem_ciphertext h) = MLKEM_CIPHERTEXT_SIZE
  ∧ b = be_bytes 4 (ch_magic h) ++ be_bytes 1 (ch_version h) ++ ch_client_random h
        ++ ch_x25519_public h ++ (be_bytes 2 (len (ch_mlkem_ciphertext h))
        ++ ch_mlkem_ciphertext h) ++ be_bytes 1 (CamouflageMode_repr (ch_camouflage h))
        ++ be_bytes 1 (PaddingProfile_repr (ch_padding_profile h)).
Proof.
  unfold write_client_hello.
  destruct (Z.eqb_spec (len (ch_mlkem_ciphertext h)) MLKEM_CIPHERTEXT_SIZE) as [He|He].
  - assert (write_blob16 (ch_mlkem_ciphertext h) = write_all (be_bytes 2
      (len (ch_mlkem_ciphertext h)) ++ ch_mlkem_ciphertext h)) as ->.
    { apply write_blob16_Ok. rewrite He. split; [|done]. unfold MLKEM_CIPHERTEXT_SIZE. lia. }
    cbn [negb wseq write_all fst snd]. naive_solver.
  - cbn [negb wseq write_all write_err fst snd]. split; [done|]. by intros [? _].
Qed.

(** Client hellos: the reader accepts a stream exactly when it starts with what the
    writer emits for the hello it returns. *)
Theorem read_client_hello_iff (s rest : bytes) (h : ClientHello) :
  read_client_hello s = Ok (h, rest) ↔
  ClientHello_wf h ∧ ∃ b, write_client_hello h = (b, Ok ()) ∧ s = b ++ rest.
Proof.
  setoid_rewrite write_client_hello_Ok. unfold read_client_hello. split.
  - intros (magic & s1 & [-> ?]%read_be_Ok & Hk)%reader_bind_Ok.
    apply reader_bind_Ok in Hk as (version & s2 & [-> ?]%read_be_Ok & Hk).
    apply reader_bind_Ok in Hk as (random & s3 & [-> ?]%read_exact_Ok & Hk).
    apply reader_bind_Ok in Hk as (public & s4 & [-> ?]%read_exact_Ok & Hk).
    apply reader_bind_Ok in Hk as (ct & s5 & Hct & Hk).
    apply read_blob16_exact_Ok in Hct as [Hct ->]; [|done].
    apply reader_bind_Ok in Hk as (c & s6 & [-> ?]%read_be_Ok & Hk).
    apply reader_bind_Ok in Hk as (mode & s7 & [->%CamouflageMode_from_u8_Ok ->]%of_result_Ok & Hk).
    apply reader_bind_Ok in Hk as (p & s8 & [-> ?]%read_be_Ok & Hk).
    apply reader_bind_Ok in Hk as (prof & s9 & [->%PaddingProfile_from_u8_Ok ->]%of_result_Ok & Hk).
    apply reader_ret_Ok in Hk as [-> ->]. proj. split; [by split|].
    eexists. split; [done|]. by rewrite <- !app_assoc.
  - intros [[Hm Hv Hr Hx] (b & [Hct ->] & ->)]. destruct h as [m v rn x ct c p]. proj.
    rewrite <- !app_assoc.
    apply reader_bind_Ok. eexists _, _. split; [by apply read_be_Ok|].
    apply reader_bind_Ok. eexists _, _. split; [by apply read_be_Ok|].
    apply reader_bind_Ok. eexists _, _. split; [by apply read_exact_Ok|].
    apply reader_bind_Ok. eexists _, _. split; [by apply read_exact_Ok|].
    apply reader_bind_Ok. eexists _, _. split; [by apply read_blob16_exact_Ok|].
    apply reader_bind_Ok. eexists _, _. split; [apply read_be_Ok; split; [done|by destruct c]|].
    apply reader_bind_Ok. eexists _, _.
    split; [apply of_result_Ok; by rewrite CamouflageMode_from_u8_Ok|].
    apply reader_bind_Ok. eexists _, _. split; [apply read_be_Ok; split; [done|by destruct p]|].
    apply reader_bind_Ok. eexists _, _.
    split; [apply of_result_Ok; by rewrite PaddingProfile_from_u8_Ok|]. done.
Qed.

(** Server hellos and ML-KEM public keys: each reader accepts a stream exactly when it
    starts with what the writer emits for the value it returns. *)
Theorem read_server_messages_iff (s rest : bytes) (h : ServerHello) (pk : bytes) :
  (read_server_hello s = Ok (h, rest) ↔
     len (sh_server_random h) = 16 ∧ len (sh_x25519_public h) = 32
     ∧ len (sh_session_id h) = 8
     ∧ ∃ b, write_server_hello h = (b, Ok ()) ∧ s = b ++ rest)
  ∧ (read_mlkem_public s = Ok (pk, rest) ↔
     ∃ b, write_mlkem_public pk = (b, Ok ()) ∧ s = b ++ rest).
Proof.
  split.
  - unfold read_server_hello, write_server_hello, write_all. proj. split.
    + intros (random & s1 & [-> ?]%read_exact_Ok & Hk)%reader_bind_Ok.
      apply reader_bind_Ok in Hk as (public & s2 & [-> ?]%read_exact_Ok & Hk).
      apply reader_bind_Ok in Hk as (sid & s3 & [-> ?]%read_exact_Ok & [-> ->]%reader_ret_Ok).
      proj. split_and!; [done..|]. eexists. split; [done|]. by rewrite <- !app_assoc.
    + intros (? & ? & ? & b & [= <-] & ->). destruct h as [rn x sid]. proj.
      rewrite <- !app_assoc.
      apply reader_bind_Ok. eexists _, _. split; [by apply read_exact_Ok|].
      apply reader_bind_Ok. eexists _, _. split; [by apply read_exact_Ok|].
      apply reader_bind_Ok. eexists _, _. split; [by apply read_exact_Ok|]. done.
  - unfold read_mlkem_public, write_mlkem_public. rewrite read_blob16_exact_Ok by done.
    destruct (Z.eqb_spec (len pk) MLKEM_PUBLIC_KEY_SIZE) as [He|He]; proj; split.
    + intros [_ ->]. eexists. split; [done|]. by rewrite <- app_assoc.
    + intros (b & Hb%(f_equal fst) & ->). cbn [fst] in Hb. subst b. by rewrite <- app_assoc.
    + by intros [? _].
    + by intros (? & ? & _).
Qed.

(** ** Frames *)

(** The padding block as it travels: its length, then its bytes. *)
Definition wire_padding (padding : bytes) : bytes :=
  if bool_decide (padding = []) then [] else be_bytes 2 (len padding) ++ padding.

(** The frame a sender hands to [write_frame] for the receiver to read [f]. *)
Definition on_wire (f : Frame) : Frame :=
  mkFrame (fr_stream_id f) (fr_flags f) (fr_payload f) (wire_padding (fr_padding f)).

Record frame_ok (f : Frame) : Prop := {
  fo_stream : is_u 32 (fr_stream_id f);
  fo_flags : 0 ≤ fr_flags f < 16;
  fo_payload : len (fr_payload f) ≤ MAX_FRAME_PAYLOAD;
  fo_padding : if flags_contains (fr_flags f) FLAG_PADDING
               then 1 ≤ len (fr_padding f) ≤ MAX_PADDING else fr_padding f = [];
}.

Lemma known_flags b : 0 ≤ b < 256 → Z.land b (Z.lnot KNOWN_FLAGS mod 256) = 0 ↔ b < 16.
Proof.
  intros Hb. pose proof (byte_check (λ z,
    Bool.eqb (Z.land z (Z.lnot KNOWN_FLAGS mod 256) =? 0) (z <? 16))
    ltac:(vm_compute; reflexivity) b Hb) as H. cbn beta in H. apply Bool.eqb_prop in H.
  by rewrite <- Z.eqb_eq, H, Z.ltb_lt.
Qed.

Lemma frame_header_length f : frame_ok f → len (frame_header f) ≤ MAX_FRAME_HEADER.
Proof.
  intros [Hs _ Hp _]. unfold frame_header. autorewrite with shadowpipe.
  pose proof (length_uvarint (fr_stream_id f) 5 ltac:(lia)) as H1.
  pose proof (length_uvarint (len (fr_payload f)) 3 ltac:(lia)) as H2.
  pose proof (len_nonneg (fr_payload f)).
  unfold is_u, MAX_FRAME_PAYLOAD, MAX_FRAME_HEADER in *. lia.
Qed.

Lemma write_frame_Ok f b :
  write_frame f = (b, Ok ()) ↔
  len (frame_header f) ≤ 65535
  ∧ b = be_bytes 2 (len (frame_header f)) ++ frame_header f ++ fr_payload f ++ fr_padding f.
Proof.
  unfold write_frame. rewrite !write_if_empty, wseq_Ok. split.
  - intros (b1 & b2 & [? ->]%write_blob16_Ok & Hw & ->). proj. injection Hw as <-.
    by rewrite <- app_assoc.
  - intros [Hl ->]. eexists _, _. split; [by apply write_blob16_Ok|]. proj.
    split; [done|]. by rewrite <- app_assoc.
Qed.

Lemma write_frame_total f : frame_ok f → ∃ b, write_frame (on_wire f) = (b, Ok ()).
Proof.
  intros Hok. pose proof (frame_header_length f Hok) as Hl. unfold MAX_FRAME_HEADER in Hl.
  eexists. apply write_frame_Ok. split; [|done].
  change (frame_header (on_wire f)) with (frame_header f). lia.
Qed.

Lemma read_padding_Ok s p r :
  read_padding s = Ok (p, r) ↔ 1 ≤ len p ≤ MAX_PADDING ∧ s = wire_padding p ++ r.
Proof.
  unfold read_padding, wire_padding. rewrite reader_bind_Ok. split.
  - intros (n & s' & [-> Hn]%read_be_Ok & [Hz [Hm [-> ->]%read_exact_Ok]%reader_guard_Ok]
      %reader_guard_Ok). rewrite Z.eqb_neq in Hz. rewrite Z.ltb_ge in Hm.
    pose proof (len_nonneg p). rewrite bool_decide_eq_false_2.
    + rewrite <- app_assoc. split; [lia|done].
    + intros ->. by rewrite len_nil in Hz.
  - intros [Hp ->]. rewrite bool_decide_eq_false_2 by (intros ->; rewrite len_nil in Hp; lia).
    exists (len p), (p ++ r). unfold MAX_PADDING in *.
    rewrite read_be_Ok, !reader_guard_Ok, read_exact_Ok, Z.eqb_neq, Z.ltb_ge, <- app_assoc.
    split_and!; lia || done.
Qed.

Lemma read_opt_exact n s b r : 0 ≤ n →
  (if 0 <? n then read_exact n else mret []) s = Ok (b, r) ↔ s = b ++ r ∧ n = len b.
Proof.
  intros Hn. destruct (Z.ltb_spec 0 n).
  - apply read_exact_Ok.
  - assert (n = 0) as -> by lia. rewrite reader_ret_Ok. split.
    + by intros [-> ->].
    + intros [-> Hb]. symmetry in Hb. by apply len_zero in Hb as ->.
Qed.

Lemma read_opt_padding (c : bool) s p r :
  (if c then read_padding else mret []) s = Ok (p, r) ↔
  (if c then 1 ≤ len p ≤ MAX_PADDING else p = []) ∧ s = wire_padding p ++ r.
Proof.
  destruct c; [apply read_padding_Ok|]. rewrite reader_ret_Ok. unfold wire_padding.
  split; [by intros [-> ->]|]. intros [-> ->]. done.
Qed.

Lemma read_frame_Ok s f rest :
  read_frame s = Ok (f, rest) ↔
  frame_ok f ∧ ∃ w, write_frame (on_wire f) = (w, Ok ()) ∧ s = w ++ rest.
Proof.
  unfold read_frame. setoid_rewrite write_frame_Ok. split.
  - intros (header & s1 & Hh & Hk)%reader_bind_Ok.
    apply read_blob16_bounded_Ok in Hh as [Hh ->]; [|done].
    apply reader_bind_Ok in Hk as ([sid r1] & s2 & [[Hs ->]%read_uvarint_Ok ->]%of_result_Ok & Hk).
    apply reader_guard_Ok in Hk as [Hs32 Hk]. rewrite Z.leb_gt in Hs32.
    destruct r1 as [|b r1]; [done|].
    apply reader_guard_Ok in Hk as [Hfl Hk]. rewrite negb_false_iff, Z.eqb_eq in Hfl.
    apply known_flags in Hfl; [|apply bv_range].
    apply reader_bind_Ok in Hk as ([n r2] & s3 & [[Hn ->]%read_uvarint_Ok ->]%of_result_Ok & Hk).
    apply reader_guard_Ok in Hk as [->%negb_false_iff%bool_decide_eq_true Hk].
    apply reader_guard_Ok in Hk as [Hmax%Z.ltb_ge Hk]. rewrite app_nil_r in *.
    apply reader_bind_Ok in Hk as (payload & s4 & Hp & Hk).
    apply read_opt_exact in Hp as [-> ->]; [|apply Hn].
    apply reader_bind_Ok in Hk as (padding & s5 & [Hpad ->]%read_opt_padding & [-> ->]%reader_ret_Ok).
    split.
    + split; proj; [unfold is_u in *; lia|pose proof (bv_range b); lia|done..].
    + eexists. unfold on_wire, frame_header. proj. rewrite bz_bv.
      unfold MAX_FRAME_HEADER in Hh. split; [split; [lia|done]|]. by rewrite <- !app_assoc.
  - intros (Hok & w & [_ ->] & ->). assert (Hok' := Hok). destruct Hok' as [Hs Hf Hp Hpad].
    pose proof (frame_header_length f Hok) as Hlen.
    change (frame_header (on_wire f)) with (frame_header f).
    apply reader_bind_Ok. exists (frame_header f), (fr_payload f ++ wire_padding (fr_padding f) ++ rest).
    split; [apply read_blob16_bounded_Ok; [done|]; split; [done|]; unfold on_wire; proj;
            by rewrite <- !app_assoc|].
    apply reader_bind_Ok. eexists (_, _), _. split.
    { apply of_result_Ok. split; [|done]. apply read_uvarint_Ok. split; [|done].
      unfold is_u in *. lia. }
    apply reader_guard_Ok. split; [apply Z.leb_gt; apply Hs|].
    apply reader_guard_Ok. rewrite bv_bz_small, negb_false_iff, Z.eqb_eq, known_flags by lia.
    split; [lia|]. pose proof (len_nonneg (fr_payload f)).
    apply reader_bind_Ok. eexists (len (fr_payload f), []), _. split.
    { apply of_result_Ok. split; [|done]. apply read_uvarint_Ok. rewrite app_nil_r.
      split; [|done]. unfold is_u, MAX_FRAME_PAYLOAD in *. lia. }
    apply reader_guard_Ok. split; [done|]. apply reader_guard_Ok. split; [by apply Z.ltb_ge|].
    apply reader_bind_Ok. eexists _, _. split; [by apply read_opt_exact|].
    apply reader_bind_Ok. eexists _, _. split; [by apply read_opt_padding|].
    by destruct f.
Qed.

(** ** Byte budgets *)

Definition DEFAULT_THRESHOLD : Z := 8192.

Record VolumeGuardConfig := mkVolumeGuardConfig { threshold : Z; enabled : bool }.
Record VolumeGuard := mkVolumeGuard { config : VolumeGuardConfig; sent : Z; recv : Z }.
Inductive RotateSignal := RotateSignalMark.

Definition VolumeGuardConfig_default : VolumeGuardConfig :=
  mkVolumeGuardConfig DEFAULT_THRESHOLD true.
Definition VolumeGuard_new (config : VolumeGuardConfig) : VolumeGuard := mkVolumeGuard config 0 0.
Definition VolumeGuard_disabled : VolumeGuard :=
  VolumeGuard_new (mkVolumeGuardConfig (threshold VolumeGuardConfig_default) false).

(** [fetch_add] wraps, and so does the addition of a release build. *)
Definition record_sent (g : VolumeGuard) (wire_bytes : Z)
  : VolumeGuard * result RotateSignal () :=
  if negb (enabled (config g)) then (g, Ok ()) else
  let total := (sent g + wire_bytes) mod 2 ^ 64 in
  (mkVolumeGuard (config g) total (recv g),
   if threshold (config g) <=? total then Err RotateSignalMark else Ok ()).

Definition record_recv (g : VolumeGuard) (wire_bytes : Z)
  : VolumeGuard * result RotateSignal () :=
  if negb (enabled (config g)) then (g, Ok ()) else
  let total := (recv g + wire_bytes) mod 2 ^ 64 in
  (mkVolumeGuard (config g) (sent g) total,
   if threshold (config g) <=? total then Err RotateSignalMark else Ok ()).

Fixpoint uvarint_len_loop (fuel : nat) (value : Z) : Z :=
  match fuel with
  | O => 1
  | S fuel => if 128 <=? value then 1 + uvarint_len_loop fuel (Z.shiftr value 7) else 1
  end.
Definition uvarint_len (value : Z) : Z := uvarint_len_loop 10 value.

Definition estimate_frame_wire_bytes (payload_len padding_len stream_id : Z) : Z :=
  2 + (uvarint_len stream_id + 1 + uvarint_len payload_len) + payload_len + padding_len.

Lemma uvarint_len_loop_spec fuel : ∀ v, uvarint_len_loop fuel v = len (write_uvarint_loop fuel v).
Proof.
  induction fuel as [|fuel IH]; intros v; cbn [uvarint_len_loop write_uvarint_loop]; [done|].
  destruct (128 <=? v); [|done]. by rewrite IH, len_cons.
Qed.

Lemma write_frame_length f b :
  write_frame f = (b, Ok ()) →
  len b = estimate_frame_wire_bytes (len (fr_payload f)) (len (fr_padding f)) (fr_stream_id f).
Proof.
  intros [_ ->]%write_frame_Ok. unfold estimate_frame_wire_bytes, uvarint_len, frame_header.
  rewrite !uvarint_len_loop_spec. fold (write_uvarint (fr_stream_id f)).
  fold (write_uvarint (len (fr_payload f))). rewrite !len_app.
  assert (∀ z, len (be_bytes 2 z) = 2) as -> by (intros; unfold len; by rewrite length_be_bytes).
  rewrite len_cons. lia.
Qed.

(** C38: Frames: the reader accepts a stream exactly when it starts with the bytes the writer
    emits for the frame it returns, with the padding length in front of the padding, and
    the size estimate of the byte budget is the exact number of those bytes.  In particular
    frame headers are canonical: no frame has two accepted encodings. *)
Theorem read_frame_iff (s rest : bytes) (f : Frame) :
  read_frame s = Ok (f, rest) ↔
  frame_ok f ∧ ∃ w, write_frame (on_wire f) = (w, Ok ()) ∧ s = w ++ rest
    ∧ len w = estimate_frame_wire_bytes (len (fr_payload f)) (len (wire_padding (fr_padding f)))
                (fr_stream_id f).
Proof.
  rewrite read_frame_Ok. split.
  - intros (Hok & w & Hw & ->). split; [done|]. exists w. split_and!; [done..|].
    by apply write_frame_length in Hw.
  - intros (Hok & w & Hw & -> & _). split; [done|]. by exists w.
Qed.

(** The guard after sending frames of the given sizes, and the first signal. *)
Fixpoint record_all (g : VolumeGuard) (l : list Z) : VolumeGuard * list (result RotateSignal ()) :=
  match l with
  | [] => (g, [])
  | n :: l => let '(g', r) := record_sent g n in
              let '(g'', rs) := record_all g' l in (g'', r :: rs)
  end.

Fixpoint prefix_sums (acc : Z) (l : list Z) : list Z :=
  match l with [] => [] | n :: l => (acc + n) :: prefix_sums (acc + n) l end.

Lemma record_all_spec l : ∀ g,
  enabled (config g) = true → 0 ≤ sent g → Forall (λ n, 0 ≤ n) l →
  sent g + foldr Z.add 0 l < 2 ^ 64 →
  record_all g l = (mkVolumeGuard (config g) (sent g + foldr Z.add 0 l) (recv g),
    (λ total, if threshold (config g) <=? total then Err RotateSignalMark else Ok ())
      <$> prefix_sums (sent g) l).
Proof.
  induction l as [|n l IH]; intros g He Hs Hl Hb; simpl in *.
  { rewrite Z.add_0_r. by destruct g. }
  apply Forall_cons in Hl as [Hn Hl]. unfold record_sent. rewrite He. simpl.
  assert (0 ≤ foldr Z.add 0 l).
  { clear -Hl. induction Hl; simpl; lia. }
  rewrite Z.mod_small by lia. rewrite IH by (done || (simpl; lia)). simpl.
  by rewrite Z.add_assoc.
Qed.

(** The byte budget signals rotation exactly from the frame on with which the bytes sent
    reach the threshold: with an enabled guard and less than 2^64 bytes in total, the k-th
    record returns the signal exactly when the first k sizes sum to the threshold or more,
    and the counter is the sum. *)
Theorem budget_signals_at_threshold (cfg : VolumeGuardConfig) (l : list Z) :
  enabled cfg = true → Forall (λ n, 0 ≤ n) l → foldr Z.add 0 l < 2 ^ 64 →
  (record_all (VolumeGuard_new cfg) l).1 = mkVolumeGuard cfg (foldr Z.add 0 l) 0
  ∧ (record_all (VolumeGuard_new cfg) l).2
    = (λ total, if threshold cfg <=? total then Err RotateSignalMark else Ok ())
        <$> prefix_sums 0 l.
Proof. intros. rewrite record_all_spec by done. done. Qed.

Module WireSample.

Definition hello : ClientHello :=
  mkClientHello 305419896 3 (replicate 16 Byte.x01) (replicate 32 Byte.x02)
    (replicate 1088 Byte.x03) H2Chunk PreferAscii.

Lemma read_client_hello_witness :
  read_client_hello ((write_client_hello hello).1 ++ [Byte.xff]) = Ok (hello, [Byte.xff]).
Proof.
  apply (read_client_hello_iff _ [Byte.xff] hello). split.
  - split; (vm_compute; repeat split; congruence).
  - exists (write_client_hello hello).1. split; vm_compute; reflexivity.
Defined.

Definition frame : Frame := mkFrame 300 9 [Byte.x01; Byte.x02] [Byte.x03].

Lemma read_frame_witness :
  read_frame ((write_frame (on_wire frame)).1 ++ [Byte.xff]) = Ok (frame, [Byte.xff]).
Proof.
  apply (read_frame_iff _ [Byte.xff] frame). split.
  - split; (vm_compute; repeat split; congruence).
  - exists (write_frame (on_wire frame)).1. repeat split; vm_compute; reflexivity.
Defined.

Lemma budget_witness :
  (record_all (VolumeGuard_new (mkVolumeGuardConfig 100 true)) [50; 49; 2]).2
  = [Ok (); Ok (); Err RotateSignalMark].
Proof.
  refine (proj2 (budget_signals_at_threshold (mkVolumeGuardConfig 100 true) [50; 49; 2] _ _ _)).
  - reflexivity.
  - repeat constructor; lia.
  - vm_compute. reflexivity.
Defined.

End WireSample.
