(* ===== verification/Network.v ===== *)
(** * Processes and the network

    A side of a protocol is a process that writes bytes and reads messages.  It runs either
    alone, against a stream of arbitrary bytes, or connected to its peer by two queues with
    any interleaving of steps.  Shown: readers that do not look ahead make the network
    confluent, so one run that ends decides all runs. *)

From S2P Require Import Prelude Wire.

(** ** Processes *)

(** A process is done, writes bytes, or waits for a message; [h] is the error it returns if
    the message is malformed or the stream ends. *)
Inductive Proc (E A : Type) : Type :=
| Done (r : result E A)
| Write (b : bytes) (k : Proc E A)
| Read (X : Type) (r : Reader X) (h : WireError → E) (k : X → Proc E A).
Arguments Done {E A} _.
Arguments Write {E A} _ _.
Arguments Read {E A X} _ _ _.

Fixpoint proc_bind {E A B} (f : A → Proc E B) (m : Proc E A) : Proc E B :=
  match m with
  | Done (Ok a) => f a
  | Done (Err e) => Done (Err e)
  | Write b k => Write b (proc_bind f k)
  | Read r h k => Read r h (λ x, proc_bind f (k x))
  end.
#[export] Instance Proc_ret {E} : MRet (Proc E) := λ A a, Done (Ok a).
#[export] Instance Proc_bind {E} : MBind (Proc E) := λ A B f m, proc_bind f m.

(** A step that does not touch the stream, with its error converted. *)
Definition lift {E F A} (h : F → E) (m : result F A) : Proc E A :=
  Done (match m with Ok a => Ok a | Err e => Err (h e) end).
Definition ensure {E} (b : bool) (e : E) : Proc E () :=
  Done (if b then Ok () else Err e).
Definition put {E} (h : WireError → E) (w : Writer) : Proc E () :=
  Write w.1 (Done (match w.2 with Ok () => Ok () | Err e => Err (h e) end)).
Definition get {E X} (r : Reader X) (h : WireError → E) : Proc E X :=
  Read r h (λ x, Done (Ok x)).

(** [map_err] on what a process returns. *)
Fixpoint map_err {E F A} (g : E → F) (p : Proc E A) : Proc F A :=
  match p with
  | Done (Ok a) => Done (Ok a)
  | Done (Err e) => Done (Err (g e))
  | Write b k => Write b (map_err g k)
  | Read r h k => Read r (g ∘ h) (λ x, map_err g (k x))
  end.

(** Alone against a stream: what was written, and the result with the rest of the stream. *)
Fixpoint drive {E A} (p : Proc E A) (s : bytes) : bytes * result E (A * bytes) :=
  match p with
  | Done (Ok a) => ([], Ok (a, s))
  | Done (Err e) => ([], Err e)
  | Write b k => let '(out, r) := drive k s in (b ++ out, r)
  | Read r h k => match r s with
                  | Ok (x, s') => drive (k x) s'
                  | Err e => ([], Err (h e))
                  end
  end.

(** ** Running a process alone *)

Section Drive.
Context {E A B : Type}.
Implicit Types (f : A → Proc E B) (s o : bytes) (x : B * bytes).

Lemma drive_lift {F} (h : F → E) (m : result F A) f s :
  drive (lift h m ≫= f) s = match m with Ok a => drive (f a) s | Err e => ([], Err (h e)) end.
Proof. by destruct m. Qed.
Lemma drive_lift_Ok {F} (h : F → E) (m : result F A) f s o x :
  drive (lift h m ≫= f) s = (o, Ok x) ↔ ∃ a, m = Ok a ∧ drive (f a) s = (o, Ok x).
Proof. destruct m; cbn; naive_solver. Qed.

Lemma drive_get (r : Reader A) h f s :
  drive (get r h ≫= f) s = match r s with Ok (a, s') => drive (f a) s' | Err e => ([], Err (h e)) end.
Proof. cbn. by destruct (r s) as [[a s']|e]. Qed.
Lemma drive_get_Ok (r : Reader A) h f s o x :
  drive (get r h ≫= f) s = (o, Ok x) ↔ ∃ a s', r s = Ok (a, s') ∧ drive (f a) s' = (o, Ok x).
Proof. cbn. destruct (r s) as [[a s']|e]; naive_solver. Qed.
End Drive.

Section DriveUnit.
Context {E B : Type}.
Implicit Types (f : () → Proc E B) (s o : bytes) (x : B * bytes).

Lemma drive_ensure b e f s :
  drive (ensure b e ≫= f) s = if b then drive (f ()) s else ([], Err e).
Proof. by destruct b. Qed.
Lemma drive_ensure_Ok b e f s o x :
  drive (ensure b e ≫= f) s = (o, Ok x) ↔ b = true ∧ drive (f ()) s = (o, Ok x).
Proof. destruct b; cbn; naive_solver. Qed.

Lemma drive_write h b f s :
  drive (put h (write_all b) ≫= f) s = let '(out, r) := drive (f ()) s in (b ++ out, r).
Proof. done. Qed.
Lemma drive_put_Ok h w f s o x :
  drive (put h w ≫= f) s = (o, Ok x) ↔
  ∃ b o', w = (b, Ok ()) ∧ drive (f ()) s = (o', Ok x) ∧ o = b ++ o'.
Proof.
  destruct w as [b [[]|e]]; cbn; [|naive_solver].
  destruct (drive (f ()) s) as [o' r]. naive_solver.
Qed.

Lemma drive_ret_Ok (b : B) s o x : drive (mret b : Proc E B) s = (o, Ok x) ↔ o = [] ∧ x = (b, s).
Proof. cbn. naive_solver. Qed.
End DriveUnit.

(** A process followed by another. *)
Lemma drive_bind {E A B} (m : Proc E A) (f : A → Proc E B) : ∀ s,
  drive (m ≫= f) s =
    let '(out, r) := drive m s in
    match r with
    | Ok (a, s') => let '(out', r') := drive (f a) s' in (out ++ out', r')
    | Err e => (out, Err e)
    end.
Proof.
  induction m as [[a|e]|b k IH|X r h k IH]; intros s; cbn.
  - by destruct (drive (f a) s).
  - done.
  - change (proc_bind f k) with (k ≫= f). rewrite IH. destruct (drive k s) as [out [[a s']|e]]; [|done].
    destruct (drive (f a) s'). by rewrite app_assoc.
  - destruct (r s) as [[x s']|e]; [|done]. apply IH.
Qed.

Lemma drive_bind_mret {E A} (p : Proc E A) s : drive (p ≫= mret) s = drive p s.
Proof. rewrite drive_bind. destruct (drive p s) as [out [[a s']|e]]; cbn; by rewrite ?app_nil_r. Qed.

Lemma drive_map_err {E F A} (g : E → F) (p : Proc E A) : ∀ s,
  drive (map_err g p) s = let '(out, r) := drive p s in
    (out, match r with Ok x => Ok x | Err e => Err (g e) end).
Proof.
  induction p as [[a|e]|b k IH|X r h k IH]; intros s; cbn; [done..| |].
  - rewrite IH. by destruct (drive k s).
  - destruct (r s) as [[x s']|e]; [|done]. apply IH.
Qed.

(** ** Two processes and the network between them *)

(** What a process can do with the bytes that have arrived: its next state, what it sends and
    what is left of the bytes.  A read that needs more bytes waits. *)
Definition act {E A} (p : Proc E A) (arrived : bytes) : option (Proc E A * bytes * bytes) :=
  match p with
  | Done _ => None
  | Write b k => Some (k, b, arrived)
  | Read r h k => match r arrived with
                  | Ok (x, more) => Some (k x, [], more)
                  | Err UnexpectedEof => None
                  | Err e => Some (Done (Err (h e)), [], arrived)
                  end
  end.

Record Net (E F A B : Type) := mkNet {
  n_client : Proc E A;
  n_server : Proc F B;
  n_up : bytes;
  n_down : bytes;
}.
Arguments mkNet {E F A B} _ _ _ _.

Inductive net_step {E F A B} : Net E F A B → Net E F A B → Prop :=
| client_acts c c' s up down out more :
    act c down = Some (c', out, more) → net_step (mkNet c s up down) (mkNet c' s (up ++ out) more)
| server_acts c s s' up down out more :
    act s up = Some (s', out, more) → net_step (mkNet c s up down) (mkNet c s' more (down ++ out)).

(** Later bytes do not change what a reader has already decided. *)
Definition stable_reader {X} (r : Reader X) : Prop := ∀ q z,
  match r q with
  | Ok (x, q') => r (q ++ z) = Ok (x, q' ++ z)
  | Err UnexpectedEof => True
  | Err e => r (q ++ z) = Err e
  end.

Fixpoint stable {E A} (p : Proc E A) : Prop :=
  match p with
  | Done _ => True
  | Write _ k => stable k
  | Read r _ k => stable_reader r ∧ ∀ x, stable (k x)
  end.

Lemma act_stable {E A} (p p' : Proc E A) q out more z : stable p →
  act p q = Some (p', out, more) → act p (q ++ z) = Some (p', out, more ++ z) ∧ stable p'.
Proof.
  destruct p as [r|b k|X r h k]; cbn; [done|by intros ? [= <- <- <-]|].
  intros [Hr Hk] H. specialize (Hr q z).
  destruct (r q) as [[x q']|[]]; rewrite ?Hr; [|done|]; injection H as <- <- <-; by auto.
Qed.

Definition net_stable {E F A B} (n : Net E F A B) : Prop := stable (n_client _ _ _ _ n) ∧ stable (n_server _ _ _ _ n).

Lemma net_step_stable {E F A B} (n n' : Net E F A B) : net_stable n → net_step n n' → net_stable n'.
Proof.
  intros [Hcs Hss] Hn. destruct Hn as [c c' s up down out more H|c s s' up down out more H];
    cbn in Hcs, Hss.
  - split; [|done]. by apply (act_stable c c' down out more []).
  - split; [done|]. by apply (act_stable s s' up out more []).
Qed.

Lemma net_diamond {E F A B} (n a b : Net E F A B) : net_stable n → net_step n a → net_step n b →
  a = b ∨ ∃ d, net_step a d ∧ net_step b d.
Proof.
  intros [Hc Hs] Ha Hb. destruct Ha as [c c' s up down out more Ha|c s s' up down out more Ha];
    inversion Hb as [? ? ? ? ? out' more' Hb'|? ? ? ? ? out' more' Hb']; subst.
  - left. congruence.
  - right. eexists. cbn in *. split.
    + apply server_acts. by eapply act_stable.
    + apply client_acts. by eapply act_stable.
  - right. eexists. cbn in *. split.
    + apply client_acts. by eapply act_stable.
    + apply server_acts. by eapply act_stable.
  - left. congruence.
Qed.

(** One run that ends decides all runs: none is longer, and each can be continued to the
    same end. *)
Lemma net_confluent {E F A B} n : ∀ (a z b : Net E F A B), net_stable a → nsteps net_step n a z →
  (∀ z', ¬ net_step z z') → net_step a b → ∃ m, n = S m ∧ nsteps net_step m b z.
Proof.
  induction n as [|n IH]; intros a z b Hst Hn Hz Hb.
  - inversion Hn; subst. by destruct (Hz b).
  - inversion Hn as [|? ? a1 ? Ha1 Hrest]; subst. exists n. split; [done|].
    destruct (net_diamond a a1 b Hst Ha1 Hb) as [->|(d & Hd & Hd')]; [done|].
    assert (net_stable a1) by (by eapply net_step_stable).
    destruct (IH a1 z d) as (m & -> & Hm); [done..|]. by eapply nsteps_l.
Qed.

Lemma all_runs {E F A B} m : ∀ n (a z b : Net E F A B), net_stable a → nsteps net_step n a z →
  (∀ z', ¬ net_step z z') → nsteps net_step m a b →
  (m ≤ n)%nat ∧ nsteps net_step (n - m) b z.
Proof.
  induction m as [|m IH]; intros n a z b Hst Hn Hz Hm.
  - inversion Hm; subst. split; [lia|]. by rewrite Nat.sub_0_r.
  - inversion Hm as [|? ? a1 ? Ha1 Hrest]; subst.
    destruct (net_confluent n a z a1) as (n' & -> & Hn'); [done..|].
    destruct (IH n' a1 z b) as [Hle Hrun]; [by eapply net_step_stable|done..|].
    split; [lia|done].
Qed.

(** ** Readers and processes that do not look ahead *)

Lemma stable_bind_reader {X Y} (m : Reader X) (f : X → Reader Y) :
  stable_reader m → (∀ x, stable_reader (f x)) → stable_reader (m ≫= f).
Proof.
  intros Hm Hf q z. specialize (Hm q z). unfold mbind, Reader_bind.
  destruct (m q) as [[x q']|[]]; [rewrite Hm; apply Hf|done|by rewrite Hm].
Qed.
Lemma stable_ret_reader {X} (x : X) : stable_reader (mret x : Reader X).
Proof. done. Qed.
Lemma stable_reject {X} e : stable_reader (reject e : Reader X).
Proof. by destruct e. Qed.
Lemma stable_of_result {X} (m : result WireError X) : stable_reader (of_result m).
Proof. by destruct m as [|[]]. Qed.
Lemma stable_read_exact n : stable_reader (read_exact n).
Proof.
  intros q z. destruct (read_exact n q) as [[x q']|e] eqn:H.
  - apply read_exact_Ok in H as [-> ->]. apply read_exact_Ok. by rewrite <- app_assoc.
  - unfold read_exact in H. by apply ok_or_Err in H as [_ ->].
Qed.
Lemma stable_read_be n : stable_reader (read_be n).
Proof. apply stable_bind_reader; [apply stable_read_exact|]. intros; apply stable_ret_reader. Qed.
Lemma stable_if_reader {X} (b : bool) (r r' : Reader X) :
  stable_reader r → stable_reader r' → stable_reader (if b then r else r').
Proof. by destruct b. Qed.

Create HintDb stable.
#[export] Hint Resolve stable_bind_reader stable_ret_reader stable_reject stable_of_result
  stable_read_exact stable_read_be stable_if_reader : stable.

Lemma stable_bind {E A B} (m : Proc E A) (f : A → Proc E B) :
  stable m → (∀ a, stable (f a)) → stable (m ≫= f).
Proof.
  intros Hm Hf. induction m as [[a|e]|b k IH|X r h k IH]; cbn in *; auto.
  split; [apply Hm|]. intros x. apply IH, Hm.
Qed.
Lemma stable_lift {E F A} (h : F → E) (m : result F A) : stable (lift h m).
Proof. done. Qed.
Lemma stable_ensure {E} b (e : E) : stable (ensure b e).
Proof. done. Qed.
Lemma stable_put {E} (h : WireError → E) w : stable (put h w).
Proof. done. Qed.
Lemma stable_get {E X} (r : Reader X) (h : WireError → E) : stable_reader r → stable (get r h).
Proof. by intros. Qed.
Lemma stable_mret {E A} (a : A) : stable (mret a : Proc E A).
Proof. done. Qed.

#[export] Hint Resolve stable_lift stable_ensure stable_put stable_get stable_mret : stable.

Lemma stable_map_err {E F A} (g : E → F) (p : Proc E A) : stable p → stable (map_err g p).
Proof. induction p as [[]| |]; cbn; naive_solver. Qed.
#[export] Hint Resolve stable_map_err : stable.

(** One operation of a process at a time. *)
Ltac stable_proc :=
  repeat first
    [ apply stable_bind; [solve [auto with stable]|intros ?; cbv beta]
    | match goal with |- stable (let '(_, _) := ?p in _) => destruct p end
    | solve [auto with stable] ].

(** ** Reaching a state *)

(** A network state from which one satisfying [P] is reached. *)
Definition reaches {E F A B} (P : Net E F A B → Prop) (n : Net E F A B) : Prop := ∃ n', rtc net_step n n' ∧ P n'.

Lemma reaches_step {E F A B} (P : Net E F A B → Prop) n n' : net_step n n' → reaches P n' → reaches P n.
Proof. intros Hs (z & Hz & HP). exists z. split; [by eapply rtc_l|done]. Qed.

Section Runs.
Context {E F A B X : Type} (P : Net E F A B → Prop).
Implicit Types (c : Proc E A) (s : Proc F B) (up down : bytes).

Lemma client_lift {G} (h : G → E) (m : result G X) (f : X → Proc E A) s up down x :
  m = Ok x → reaches P (mkNet (f x) s up down) → reaches P (mkNet (lift h m ≫= f) s up down).
Proof. by intros ->. Qed.
Lemma server_lift {G} (h : G → F) (m : result G X) (f : X → Proc F B) c up down x :
  m = Ok x → reaches P (mkNet c (f x) up down) → reaches P (mkNet c (lift h m ≫= f) up down).
Proof. by intros ->. Qed.
Lemma client_ensure b e (f : () → Proc E A) s up down :
  b = true → reaches P (mkNet (f ()) s up down) → reaches P (mkNet (ensure b e ≫= f) s up down).
Proof. by intros ->. Qed.
Lemma server_ensure b e (f : () → Proc F B) c up down :
  b = true → reaches P (mkNet c (f ()) up down) → reaches P (mkNet c (ensure b e ≫= f) up down).
Proof. by intros ->. Qed.
Lemma client_put h w b (f : () → Proc E A) s up down :
  w = (b, Ok ()) → reaches P (mkNet (f ()) s (up ++ b) down) →
  reaches P (mkNet (put h w ≫= f) s up down).
Proof. intros ->. apply reaches_step. by apply client_acts. Qed.
Lemma server_put h w b (f : () → Proc F B) c up down :
  w = (b, Ok ()) → reaches P (mkNet c (f ()) up (down ++ b)) →
  reaches P (mkNet c (put h w ≫= f) up down).
Proof. intros ->. apply reaches_step. by apply server_acts. Qed.
Lemma client_get (r : Reader X) h (f : X → Proc E A) s up down x down' :
  r down = Ok (x, down') → reaches P (mkNet (f x) s up down') →
  reaches P (mkNet (get r h ≫= f) s up down).
Proof.
  intros Hr. apply reaches_step. rewrite <- (app_nil_r up) at 2. apply client_acts. cbn. by rewrite Hr.
Qed.
Lemma server_get (r : Reader X) h (f : X → Proc F B) c up down x up' :
  r up = Ok (x, up') → reaches P (mkNet c (f x) up' down) →
  reaches P (mkNet c (get r h ≫= f) up down).
Proof.
  intros Hr. apply reaches_step. rewrite <- (app_nil_r down) at 2. apply server_acts. cbn. by rewrite Hr.
Qed.
End Runs.

Lemma reaches_end {E F A B} (P : Net E F A B → Prop) n : P n → reaches P n.
Proof. intros. by exists n. Qed.

(** A process that runs alone over what has arrived does so in the network too, also in a
    context [K] that continues with [f]. *)
Section Alone.
Context {E F A B : Type} (P : Net E F A B → Prop).

Lemma client_alone_in {G X} (K : Proc G X → Proc E A) (f : X → Proc E A) (s : Proc F B) (p : Proc G X) :
  (∀ b k, K (Write b k) = Write b (K k)) →
  (∀ Y (r : Reader Y) h k, ∃ h', K (Read r h k) = Read r h' (λ y, K (k y))) →
  (∀ x, K (Done (Ok x)) = f x) →
  ∀ up down out x rest, drive p down = (out, Ok (x, rest)) →
  reaches P (mkNet (f x) s (up ++ out) rest) → reaches P (mkNet (K p) s up down).
Proof.
  intros HW HR HD. induction p as [[y|e]|b k IH|Y r h k IH]; intros up down out x rest; cbn.
  - intros [= <- <- <-]. by rewrite HD, app_nil_r.
  - done.
  - destruct (drive k down) as [o q] eqn:Hk. intros [= <- ->] HP. rewrite HW.
    eapply reaches_step; [by apply client_acts|]. eapply IH; [done|]. by rewrite <-app_assoc.
  - destruct (r down) as [[y down']|e] eqn:Hr; [|done]. intros Hk HP. destruct (HR Y r h k) as [h' ->].
    eapply reaches_step; [apply client_acts; cbn; by rewrite Hr|]. rewrite app_nil_r. by eapply IH.
Qed.

Lemma server_alone_in {G X} (K : Proc G X → Proc F B) (f : X → Proc F B) (c : Proc E A) (p : Proc G X) :
  (∀ b k, K (Write b k) = Write b (K k)) →
  (∀ Y (r : Reader Y) h k, ∃ h', K (Read r h k) = Read r h' (λ y, K (k y))) →
  (∀ x, K (Done (Ok x)) = f x) →
  ∀ up down out x rest, drive p up = (out, Ok (x, rest)) →
  reaches P (mkNet c (f x) rest (down ++ out)) → reaches P (mkNet c (K p) up down).
Proof.
  intros HW HR HD. induction p as [[y|e]|b k IH|Y r h k IH]; intros up down out x rest; cbn.
  - intros [= <- <- <-]. by rewrite HD, app_nil_r.
  - done.
  - destruct (drive k up) as [o q] eqn:Hk. intros [= <- ->] HP. rewrite HW.
    eapply reaches_step; [by apply server_acts|]. eapply IH; [done|]. by rewrite <-app_assoc.
  - destruct (r up) as [[y up']|e] eqn:Hr; [|done]. intros Hk HP. destruct (HR Y r h k) as [h' ->].
    eapply reaches_step; [apply server_acts; cbn; by rewrite Hr|]. rewrite app_nil_r. by eapply IH.
Qed.
Lemma server_alone {X} (c : Proc E A) (p : Proc F X) (f : X → Proc F B) up down out x rest :
  drive p up = (out, Ok (x, rest)) →
  reaches P (mkNet c (f x) rest (down ++ out)) → reaches P (mkNet c (p ≫= f) up down).
Proof. apply (server_alone_in (λ p, p ≫= f)); eauto. Qed.
End Alone.
