(* ===== verification/Session.v ===== *)
(** * The authenticated session: AEAD counters, frame sealing, padding

    Models the application-traffic part of [shadowpipe-core/src/session.rs]
    ([frame_aad], [prepare_outbound_frame], [send], [recv]), the AEAD wrappers of
    [crypto/mod.rs] and [random_padding] of [proto/mod.rs].  ChaCha20-Poly1305 and
    the random generator are parameters.  A sender and a receiver that share a key
    are shown to be an ordered, lossless channel; nonces are never reused; a
    failed direction stays failed. *)

From S2P Require Import Prelude Wire.

(** The [chacha20poly1305] crate: sealing and opening with associated data. *)
Class Aead := {
  seal : bytes → bytes → bytes → bytes → option bytes;
  unseal : bytes → bytes → bytes → bytes → option bytes;
}.

(** What the session relies on: opening inverts sealing and accepts nothing else (the
    tag is recomputed), the tag is sixteen bytes, and messages of a moderate size can
    always be sealed. *)
Class AeadLaws (A : Aead) := {
  unseal_seal k n a p c : seal k n a p = Some c → unseal k n a c = Some p;
  seal_unseal k n a p c : unseal k n a c = Some p → seal k n a p = Some c;
  seal_length k n a p c : seal k n a p = Some c → len c = len p + 16;
  seal_total k n a p : len p < 2 ^ 32 → len a < 2 ^ 32 → is_Some (seal k n a p);
}.

Inductive SessionError :=
| Poisoned
| NonceOverflow
| CipherFailed
| Rejected
| WireFailed (e : WireError).

Section Session.
Context `{A : Aead}.

(** ** AEAD directions *)

Record AeadTx := mkAeadTx { tx_cipher : bytes; tx_nonce : Z; tx_failed : bool }.
Record AeadRx := mkAeadRx { rx_cipher : bytes; rx_nonce : Z; rx_failed : bool }.
Record AeadSession := mkAeadSession {
  as_send : bytes;
  as_recv : bytes;
  as_send_nonce : Z;
  as_recv_nonce : Z;
  as_send_failed : bool;
  as_recv_failed : bool;
}.

Definition AeadSession_new (send_key recv_key : bytes) : AeadSession :=
  mkAeadSession send_key recv_key 0 0 false false.

Definition AeadSession_split (s : AeadSession) : AeadTx * AeadRx :=
  (mkAeadTx (as_send s) (as_send_nonce s) (as_send_failed s),
   mkAeadRx (as_recv s) (as_recv_nonce s) (as_recv_failed s)).

(** Four zero bytes, then the counter. *)
Definition nonce_from_counter (counter : Z) : bytes :=
  replicate 4 Byte.x00 ++ be_bytes 8 counter.

Definition AeadTx_encrypt (tx : AeadTx) (plaintext aad : bytes)
  : AeadTx * result SessionError bytes :=
  if tx_failed tx then (tx, Err Poisoned) else
  let nonce := nonce_from_counter (tx_nonce tx) in
  match u64_checked_add (tx_nonce tx) 1 with
  | None => (mkAeadTx (tx_cipher tx) (tx_nonce tx) true, Err NonceOverflow)
  | Some next_nonce =>
      match seal (tx_cipher tx) nonce aad plaintext with
      | Some ciphertext => (mkAeadTx (tx_cipher tx) next_nonce (tx_failed tx), Ok ciphertext)
      | None => (mkAeadTx (tx_cipher tx) (tx_nonce tx) true, Err CipherFailed)
      end
  end.

Definition AeadRx_decrypt (rx : AeadRx) (ciphertext aad : bytes)
  : AeadRx * result SessionError bytes :=
  if rx_failed rx then (rx, Err Poisoned) else
  let nonce := nonce_from_counter (rx_nonce rx) in
  match u64_checked_add (rx_nonce rx) 1 with
  | None => (mkAeadRx (rx_cipher rx) (rx_nonce rx) true, Err NonceOverflow)
  | Some next_nonce =>
      match unseal (rx_cipher rx) nonce aad ciphertext with
      | Some plaintext => (mkAeadRx (rx_cipher rx) next_nonce (rx_failed rx), Ok plaintext)
      | None => (mkAeadRx (rx_cipher rx) (rx_nonce rx) true, Err CipherFailed)
      end
  end.

Definition AeadSession_encrypt (s : AeadSession) (plaintext aad : bytes)
  : AeadSession * result SessionError bytes :=
  let with_send nonce failed :=
    mkAeadSession (as_send s) (as_recv s) nonce (as_recv_nonce s) failed (as_recv_failed s) in
  if as_send_failed s then (s, Err Poisoned) else
  let nonce := nonce_from_counter (as_send_nonce s) in
  match u64_checked_add (as_send_nonce s) 1 with
  | None => (with_send (as_send_nonce s) true, Err NonceOverflow)
  | Some next_nonce =>
      match seal (as_send s) nonce aad plaintext with
      | Some ciphertext => (with_send next_nonce (as_send_failed s), Ok ciphertext)
      | None => (with_send (as_send_nonce s) true, Err CipherFailed)
      end
  end.

Definition AeadSession_decrypt (s : AeadSession) (ciphertext aad : bytes)
  : AeadSession * result SessionError bytes :=
  let with_recv nonce failed :=
    mkAeadSession (as_send s) (as_recv s) (as_send_nonce s) nonce (as_send_failed s) failed in
  if as_recv_failed s then (s, Err Poisoned) else
  let nonce := nonce_from_counter (as_recv_nonce s) in
  match u64_checked_add (as_recv_nonce s) 1 with
  | None => (with_recv (as_recv_nonce s) true, Err NonceOverflow)
  | Some next_nonce =>
      match unseal (as_recv s) nonce aad ciphertext with
      | Some plaintext => (with_recv next_nonce (as_recv_failed s), Ok plaintext)
      | None => (with_recv (as_recv_nonce s) true, Err CipherFailed)
      end
  end.

(** ** Frames *)

Definition FRAME_AAD_DOMAIN : bytes :=
  String.list_byte_of_string "shadowpipe-v3/application-frame" ++ [Byte.x00].
Definition CHACHA20_POLY1305_TAG_LEN : Z := 16.

Definition frame_aad (stream_id flags ciphertext_len : Z) (padding : bytes) : bytes :=
  FRAME_AAD_DOMAIN ++ be_bytes 4 stream_id ++ [bz flags] ++ be_bytes 8 ciphertext_len
    ++ be_bytes 4 (len padding) ++ padding.

(** The random generator: a 32-bit word and [n] bytes for [fill_bytes]. *)
Record Rng := mkRng { next_u32 : Z; fill_bytes : Z → bytes }.

Definition padding_max (profile : PaddingProfile) : Z :=
  match profile with PreferAscii => 128 | PreferEntropy => MAX_PADDING | Balanced => 256 end.

Definition random_padding (profile : PaddingProfile) (rng : Rng) : bytes :=
  let n := next_u32 rng mod (padding_max profile + 1) in
  if n =? 0 then [] else
  let buf := fill_bytes rng n in
  if bool_decide (profile = PreferAscii)
  then (λ b, bz (65 + bv b mod 26)) <$> buf
  else buf.

Record PreparedOutboundFrame := mkPreparedOutboundFrame {
  po_flags : Z;
  po_padding : bytes;
  po_wire_padding : bytes;
  po_ciphertext_len : Z;
}.

Definition prepare_outbound_frame (padding_profile : PaddingProfile) (rng : Rng)
    (flags plaintext_len : Z) : result SessionError PreparedOutboundFrame :=
  if negb ((flags =? FLAG_DATA) || (flags =? FLAG_FIN) || (flags =? FLAG_PING))
  then Err Rejected else
  ciphertext_len ← ok_or (u64_checked_add plaintext_len CHACHA20_POLY1305_TAG_LEN) Rejected;
  if MAX_FRAME_PAYLOAD <? ciphertext_len then Err Rejected else
  let padding := random_padding padding_profile rng in
  if MAX_PADDING <? len padding then Err Rejected else
  let flags := if bool_decide (padding = []) then flags else Z.lor flags FLAG_PADDING in
  let wire_padding :=
    if bool_decide (padding = []) then [] else be_bytes 2 (len padding) ++ padding in
  Ok (mkPreparedOutboundFrame flags padding wire_padding ciphertext_len).

Record AuthenticatedSessionTx := mkTx { s_aead : AeadTx; s_padding_profile : PaddingProfile }.

(** [AuthenticatedSessionTx::send]: the new state, the bytes put on the stream, and the
    result. *)
Definition send (tx : AuthenticatedSessionTx) (rng : Rng) (stream_id flags : Z) (payload : bytes)
  : AuthenticatedSessionTx * bytes * result SessionError Z :=
  match prepare_outbound_frame (s_padding_profile tx) rng flags (len payload) with
  | Err e => (tx, [], Err e)
  | Ok prepared =>
      let '(aead, encrypted) := AeadTx_encrypt (s_aead tx) payload
        (frame_aad stream_id (po_flags prepared) (po_ciphertext_len prepared)
           (po_padding prepared)) in
      let tx := mkTx aead (s_padding_profile tx) in
      match encrypted with
      | Err e => (tx, [], Err e)
      | Ok encrypted =>
          if negb (len encrypted =? po_ciphertext_len prepared) then (tx, [], Err Rejected) else
          let wire := estimate_frame_wire_bytes (len encrypted)
                        (len (po_wire_padding prepared)) stream_id in
          match write_frame (mkFrame stream_id (po_flags prepared) encrypted
                               (po_wire_padding prepared)) with
          | (b, Ok ()) => (tx, b, Ok wire)
          | (b, Err e) => (tx, b, Err (WireFailed e))
          end
      end
  end.

(** What [recv] delivers: stream, flags, plaintext and the bytes it took. *)
Record Delivery := mkDelivery { d_stream : Z; d_flags : Z; d_plaintext : bytes; d_wire : Z }.

(** [AuthenticatedSessionRx::recv] on a stream, which it returns without what it read. *)
Definition receive (rx : AeadRx) (stream : bytes)
  : AeadRx * result SessionError (Delivery * bytes) :=
  match read_frame stream with
  | Err e => (rx, Err (WireFailed e))
  | Ok (frame, rest) =>
      let pad_wire := if flags_contains (fr_flags frame) FLAG_PADDING
                      then 2 + len (fr_padding frame) else 0 in
      let wire := estimate_frame_wire_bytes (len (fr_payload frame)) pad_wire
                    (fr_stream_id frame) in
      let '(rx, plaintext) := AeadRx_decrypt rx (fr_payload frame)
        (frame_aad (fr_stream_id frame) (fr_flags frame) (len (fr_payload frame))
           (fr_padding frame)) in
      match plaintext with
      | Err e => (rx, Err e)
      | Ok plaintext =>
          (rx, Ok (mkDelivery (fr_stream_id frame) (fr_flags frame) plaintext wire, rest))
      end
  end.

(** The unsplit session, as the handshake returns it. *)
Record AuthenticatedSession := mkAuthenticatedSession {
  au_aead : AeadSession;
  au_padding_profile : PaddingProfile;
  au_client_key_id : bytes;
}.

Definition AuthenticatedSession_split (s : AuthenticatedSession) : AuthenticatedSessionTx * AeadRx :=
  let '(tx, rx) := AeadSession_split (au_aead s) in (mkTx tx (au_padding_profile s), rx).

Definition AuthenticatedSession_send (s : AuthenticatedSession) (rng : Rng) (stream_id flags : Z)
    (payload : bytes) : AuthenticatedSession * bytes * result SessionError Z :=
  match prepare_outbound_frame (au_padding_profile s) rng flags (len payload) with
  | Err e => (s, [], Err e)
  | Ok prepared =>
      let '(aead, encrypted) := AeadSession_encrypt (au_aead s) payload
        (frame_aad stream_id (po_flags prepared) (po_ciphertext_len prepared)
           (po_padding prepared)) in
      let s := mkAuthenticatedSession aead (au_padding_profile s) (au_client_key_id s) in
      match encrypted with
      | Err e => (s, [], Err e)
      | Ok encrypted =>
          if negb (len encrypted =? po_ciphertext_len prepared) then (s, [], Err Rejected) else
          let wire := estimate_frame_wire_bytes (len encrypted)
                        (len (po_wire_padding prepared)) stream_id in
          match write_frame (mkFrame stream_id (po_flags prepared) encrypted
                               (po_wire_padding prepared)) with
          | (b, Ok ()) => (s, b, Ok wire)
          | (b, Err e) => (s, b, Err (WireFailed e))
          end
      end
  end.

Definition AuthenticatedSession_recv (s : AuthenticatedSession) (stream : bytes)
  : AuthenticatedSession * result SessionError (Delivery * bytes) :=
  match read_frame stream with
  | Err e => (s, Err (WireFailed e))
  | Ok (frame, rest) =>
      let pad_wire := if flags_contains (fr_flags frame) FLAG_PADDING
                      then 2 + len (fr_padding frame) else 0 in
      let wire := estimate_frame_wire_bytes (len (fr_payload frame)) pad_wire
                    (fr_stream_id frame) in
      let '(aead, plaintext) := AeadSession_decrypt (au_aead s) (fr_payload frame)
        (frame_aad (fr_stream_id frame) (fr_flags frame) (len (fr_payload frame))
           (fr_padding frame)) in
      let s := mkAuthenticatedSession aead (au_padding_profile s) (au_client_key_id s) in
      match plaintext with
      | Err e => (s, Err e)
      | Ok plaintext =>
          (s, Ok (mkDelivery (fr_stream_id frame) (fr_flags frame) plaintext wire, rest))
      end
  end.

End Session.

(** ** Nonces *)

Lemma app_inv_length {X} (a b c d : list X) : length a = length c → a ++ b = c ++ d → a = c ∧ b = d.
Proof. intros. by apply app_inj_1. Qed.

Lemma nonce_from_counter_inj x y : is_u 64 x → is_u 64 y →
  nonce_from_counter x = nonce_from_counter y → x = y.
Proof.
  intros Hx Hy H. apply app_inv_length in H as [_ H]; [|done].
  by apply (be_bytes_inj 8) in H.
Qed.

Section Theory.
Context {A : Aead} {L : AeadLaws A}.

(** Encrypting a sequence of messages: the ciphertexts that were produced, each with the
    nonce it was sealed under and the message's associated data. *)
Fixpoint encrypt_run (tx : AeadTx) (l : list (bytes * bytes)) : list (bytes * bytes * bytes) :=
  match l with
  | [] => []
  | (plaintext, aad) :: l =>
      let nonce := nonce_from_counter (tx_nonce tx) in
      match AeadTx_encrypt tx plaintext aad with
      | (tx', Ok c) => (nonce, aad, c) :: encrypt_run tx' l
      | (tx', Err _) => encrypt_run tx' l
      end
  end.

Lemma AeadTx_encrypt_Ok tx p a tx' c :
  AeadTx_encrypt tx p a = (tx', Ok c) ↔
  tx_failed tx = false ∧ tx_nonce tx + 1 < 2 ^ 64
  ∧ seal (tx_cipher tx) (nonce_from_counter (tx_nonce tx)) a p = Some c
  ∧ tx' = mkAeadTx (tx_cipher tx) (tx_nonce tx + 1) false.
Proof.
  unfold AeadTx_encrypt. destruct (tx_failed tx); [naive_solver|].
  destruct (u64_checked_add _ _) as [n|] eqn:Hn.
  - apply u64_checked_add_Some in Hn as [-> ?]. destruct (seal _ _ _ _); naive_solver.
  - split; [done|]. intros (_ & Hlt & _).
    by rewrite (proj2 (u64_checked_add_Some _ _ _) (conj eq_refl Hlt)) in Hn.
Qed.

Lemma AeadTx_encrypt_Err tx p a tx' e :
  AeadTx_encrypt tx p a = (tx', Err e) → tx_failed tx' = true.
Proof.
  unfold AeadTx_encrypt. destruct (tx_failed tx) eqn:?; [naive_solver|].
  destruct (u64_checked_add _ _); [destruct (seal _ _ _ _)|]; naive_solver.
Qed.

Lemma AeadRx_decrypt_Ok rx c a rx' p :
  AeadRx_decrypt rx c a = (rx', Ok p) ↔
  rx_failed rx = false ∧ rx_nonce rx + 1 < 2 ^ 64
  ∧ unseal (rx_cipher rx) (nonce_from_counter (rx_nonce rx)) a c = Some p
  ∧ rx' = mkAeadRx (rx_cipher rx) (rx_nonce rx + 1) false.
Proof.
  unfold AeadRx_decrypt. destruct (rx_failed rx); [naive_solver|].
  destruct (u64_checked_add _ _) as [n|] eqn:Hn.
  - apply u64_checked_add_Some in Hn as [-> ?]. destruct (unseal _ _ _ _); naive_solver.
  - split; [done|]. intros (_ & Hlt & _).
    by rewrite (proj2 (u64_checked_add_Some _ _ _) (conj eq_refl Hlt)) in Hn.
Qed.

Lemma AeadRx_decrypt_Err rx c a rx' e :
  AeadRx_decrypt rx c a = (rx', Err e) → rx_failed rx' = true.
Proof.
  unfold AeadRx_decrypt. destruct (rx_failed rx) eqn:?; [naive_solver|].
  destruct (u64_checked_add _ _); [destruct (unseal _ _ _ _)|]; naive_solver.
Qed.

Lemma encrypt_run_poisoned tx l : tx_failed tx = true → encrypt_run tx l = [].
Proof.
  intros Hf. induction l as [|[p a] l IH]; [done|]. simpl. unfold AeadTx_encrypt. by rewrite Hf.
Qed.

Lemma encrypt_run_nonces l : ∀ tx,
  0 ≤ tx_nonce tx →
  (λ x, x.1.1) <$> encrypt_run tx l
  = (λ i, nonce_from_counter (tx_nonce tx + Z.of_nat i)) <$> seq 0 (length (encrypt_run tx l))
  ∧ (encrypt_run tx l ≠ [] → tx_nonce tx + len (encrypt_run tx l) < 2 ^ 64).
Proof.
  induction l as [|[p a] l IH]; intros tx Hn; [done|]. cbn [encrypt_run].
  destruct (AeadTx_encrypt tx p a) as [tx' [c|e]] eqn:He.
  - apply AeadTx_encrypt_Ok in He as (_ & Hlt & _ & ->).
    destruct (IH (mkAeadTx (tx_cipher tx) (tx_nonce tx + 1) false)) as [IH1 IH2]; [simpl; lia|].
    set (run := encrypt_run _ l) in *. cbn [tx_nonce] in IH1, IH2. split.
    + cbn [length seq]. rewrite !fmap_cons, IH1, Z.add_0_r, <- fmap_S_seq, <- list_fmap_compose.
      f_equal. apply list_fmap_ext. intros _ i _. unfold compose. f_equal. lia.
    + intros _. rewrite len_cons. destruct run as [|x run]; [rewrite len_nil; lia|].
      specialize (IH2 ltac:(done)). lia.
  - apply AeadTx_encrypt_Err in He. by rewrite encrypt_run_poisoned.
Qed.

(** Nonces are never reused: whatever is encrypted in one direction, the nonces of the
    ciphertexts it produces are the counters from the current one on, pairwise distinct,
    and the counter does not wrap. *)
Theorem nonces_distinct (tx : AeadTx) (l : list (bytes * bytes)) :
  0 ≤ tx_nonce tx →
  NoDup ((λ x, x.1.1) <$> encrypt_run tx l)
  ∧ (encrypt_run tx l ≠ [] → tx_nonce tx + len (encrypt_run tx l) < 2 ^ 64).
Proof.
  intros Hn. destruct (encrypt_run_nonces l tx Hn) as [Heq Hb]. split; [|done]. rewrite Heq.
  destruct (decide (encrypt_run tx l = [])) as [->|Hne]; [constructor|].
  specialize (Hb Hne). unfold len in Hb.
  apply NoDup_fmap_2_strong; [|apply NoDup_seq].
  intros i j Hi%elem_of_seq Hj%elem_of_seq Hij.
  apply nonce_from_counter_inj in Hij; unfold is_u; lia.
Qed.

(** A failed direction stays failed: once an operation on a direction fails, every later
    operation on it fails with [Poisoned] and leaves it unchanged, so no further ciphertext
    is produced and no further plaintext is delivered. *)
Theorem failure_is_permanent (tx tx' : AeadTx) (rx rx' : AeadRx) (m a m' a' : bytes)
    (e : SessionError) :
  (AeadTx_encrypt tx m a = (tx', Err e) → AeadTx_encrypt tx' m' a' = (tx', Err Poisoned))
  ∧ (AeadRx_decrypt rx m a = (rx', Err e) → AeadRx_decrypt rx' m' a' = (rx', Err Poisoned)).
Proof.
  split.
  - intros H%AeadTx_encrypt_Err. unfold AeadTx_encrypt. by rewrite H.
  - intros H%AeadRx_decrypt_Err. unfold AeadRx_decrypt. by rewrite H.
Qed.

Lemma encrypt_split (s s' : AeadSession) (m a : bytes) r :
  AeadSession_encrypt s m a = (s', r) →
  AeadTx_encrypt (AeadSession_split s).1 m a = ((AeadSession_split s').1, r)
  ∧ (AeadSession_split s').2 = (AeadSession_split s).2.
Proof.
  unfold AeadSession_encrypt, AeadTx_encrypt, AeadSession_split.
  destruct s as [sk rk sn rn sf rf]; simpl. intros H.
  destruct sf; [by simplify_eq|]. destruct (u64_checked_add sn 1); [|by simplify_eq].
  destruct (seal _ _ _ _); by simplify_eq.
Qed.

Lemma decrypt_split (s s' : AeadSession) (m a : bytes) r :
  AeadSession_decrypt s m a = (s', r) →
  AeadRx_decrypt (AeadSession_split s).2 m a = ((AeadSession_split s').2, r)
  ∧ (AeadSession_split s').1 = (AeadSession_split s).1.
Proof.
  unfold AeadSession_decrypt, AeadRx_decrypt, AeadSession_split.
  destruct s as [sk rk sn rn sf rf]; simpl. intros H.
  destruct rf; [by simplify_eq|]. destruct (u64_checked_add rn 1); [|by simplify_eq].
  destruct (unseal _ _ _ _); by simplify_eq.
Qed.

(** The two halves of a session are the session: splitting an authenticated session and
    then sending or receiving gives the same bytes, the same result and the same state as
    doing so before splitting, and leaves the other half untouched. *)
Theorem split_commutes (s : AuthenticatedSession) (rng : Rng) (sid flags : Z) (m stream : bytes) :
  (let '(s', b, r) := AuthenticatedSession_send s rng sid flags m in
   (AuthenticatedSession_split s', b, r))
  = (let '(tx', b, r) := send (AuthenticatedSession_split s).1 rng sid flags m in
     ((tx', (AuthenticatedSession_split s).2), b, r))
  ∧ (let '(s', r) := AuthenticatedSession_recv s stream in (AuthenticatedSession_split s', r))
    = (let '(rx', r) := receive (AuthenticatedSession_split s).2 stream in
       (((AuthenticatedSession_split s).1, rx'), r)).
Proof.
  unfold AuthenticatedSession_send, AuthenticatedSession_recv, send, receive,
    AuthenticatedSession_split. destruct s as [aead profile kid].
  cbn [au_aead au_padding_profile au_client_key_id]. split.
  - destruct (AeadSession_split aead) as [tx rx] eqn:Hs. cbn [fst snd s_aead s_padding_profile].
    destruct (prepare_outbound_frame _ _ _ _) as [p|e]; [|cbn [au_aead au_padding_profile]; by rewrite Hs].
    destruct (AeadSession_encrypt _ _ _) as [aead' r] eqn:He.
    apply encrypt_split in He as [He Hrx]. rewrite Hs in He, Hrx. cbn [fst snd] in He, Hrx.
    rewrite He. destruct (AeadSession_split aead') as [tx' rx'] eqn:Hs'.
    cbn [fst snd] in *. subst rx'. destruct r as [c|e]; [|cbn [au_aead au_padding_profile]; by rewrite Hs'].
    destruct (negb _); [cbn [au_aead au_padding_profile]; by rewrite Hs'|].
    destruct (write_frame _) as [b [[]|e]]; cbn [au_aead au_padding_profile]; by rewrite Hs'.
  - destruct (AeadSession_split aead) as [tx rx] eqn:Hs. cbn [fst snd s_aead s_padding_profile].
    destruct (read_frame _) as [[f rest]|e]; [|cbn [au_aead au_padding_profile]; by rewrite Hs].
    destruct (AeadSession_decrypt _ _ _) as [aead' r] eqn:He.
    apply decrypt_split in He as [He Htx]. rewrite Hs in He, Htx. cbn [fst snd] in He, Htx.
    rewrite He. destruct (AeadSession_split aead') as [tx' rx'] eqn:Hs'.
    cbn [fst snd] in *. subst tx'. destruct r as [c|e]; cbn [au_aead au_padding_profile]; by rewrite Hs'.
Qed.

(** Associated data determines the frame: two frames with the same associated data have
    the same stream, flags, ciphertext length and padding. *)
Theorem frame_aad_injective (s1 f1 n1 s2 f2 n2 : Z) (p1 p2 : bytes) :
  is_u 32 s1 → is_u 32 s2 → is_u 8 f1 → is_u 8 f2 → is_u 64 n1 → is_u 64 n2 →
  frame_aad s1 f1 n1 p1 = frame_aad s2 f2 n2 p2 →
  s1 = s2 ∧ f1 = f2 ∧ n1 = n2 ∧ p1 = p2.
Proof.
  intros Hs1 Hs2 Hf1 Hf2 Hn1 Hn2 H. unfold frame_aad in H.
  apply app_inv_length in H as [_ H]; [|done].
  apply app_inv_length in H as [Hs H]; [|by rewrite !length_be_bytes].
  apply app_inv_length in H as [Hf H]; [|done].
  apply app_inv_length in H as [Hn H]; [|by rewrite !length_be_bytes].
  apply app_inv_length in H as [_ H]; [|by rewrite !length_be_bytes].
  apply (be_bytes_inj 4) in Hs; [|done..]. apply (be_bytes_inj 8) in Hn; [|done..].
  injection Hf as Hf%(f_equal bv). rewrite !bv_bz_small in Hf by done. done.
Qed.

(** ** The channel *)

(** Same key, same counter, neither side failed. *)
Definition synced (tx : AuthenticatedSessionTx) (rx : AeadRx) : Prop :=
  tx_cipher (s_aead tx) = rx_cipher rx ∧ tx_nonce (s_aead tx) = rx_nonce rx
  ∧ tx_failed (s_aead tx) = false ∧ rx_failed rx = false.

Definition app_flags (flags : Z) : Prop := flags = FLAG_DATA ∨ flags = FLAG_FIN ∨ flags = FLAG_PING.

Lemma app_flags_bool flags :
  negb ((flags =? FLAG_DATA) || (flags =? FLAG_FIN) || (flags =? FLAG_PING)) = false
  ↔ app_flags flags.
Proof. rewrite negb_false_iff, !orb_true_iff, !Z.eqb_eq. unfold app_flags. tauto. Qed.

Lemma prepare_outbound_frame_Ok profile rng flags n p : 0 ≤ n →
  prepare_outbound_frame profile rng flags n = Ok p ↔
  app_flags flags ∧ n + 16 ≤ MAX_FRAME_PAYLOAD
  ∧ len (random_padding profile rng) ≤ MAX_PADDING
  ∧ p = mkPreparedOutboundFrame
          (if bool_decide (random_padding profile rng = []) then flags
           else Z.lor flags FLAG_PADDING)
          (random_padding profile rng) (wire_padding (random_padding profile rng)) (n + 16).
Proof.
  intros Hn. unfold prepare_outbound_frame. rewrite if_err_Ok, app_flags_bool, bind_Ok.
  fold (wire_padding (random_padding profile rng)). split.
  - intros (Hf & c & [-> _]%ok_or_Ok%u64_checked_add_Some & Hk).
    rewrite !if_err_Ok, !Z.ltb_ge in Hk. destruct Hk as (? & ? & [= <-]). done.
  - intros (Hf & Hm & Hp & ->). split; [done|]. exists (n + 16).
    rewrite ok_or_Ok, u64_checked_add_Some, !if_err_Ok, !Z.ltb_ge.
    unfold MAX_FRAME_PAYLOAD, CHACHA20_POLY1305_TAG_LEN in *. split_and!; lia || done.
Qed.

Lemma prepared_frame_ok profile rng flags n p sid c : 0 ≤ n → is_u 32 sid →
  prepare_outbound_frame profile rng flags n = Ok p → len c = po_ciphertext_len p →
  let f := mkFrame sid (po_flags p) c (po_padding p) in
  frame_ok f ∧ on_wire f = mkFrame sid (po_flags p) c (po_wire_padding p)
  ∧ Z.land (po_flags p) 7 = flags
  ∧ (if flags_contains (po_flags p) FLAG_PADDING then 2 + len (po_padding p) else 0)
    = len (po_wire_padding p).
Proof.
  intros Hn Hs (Hf & Hm & Hp & ->)%prepare_outbound_frame_Ok Hc; [|done].
  cbn [po_flags po_padding po_wire_padding po_ciphertext_len] in *.
  pose proof (len_nonneg (random_padding profile rng)).
  set (pad := random_padding profile rng) in *.
  assert (0 ≤ (if bool_decide (pad = []) then flags else Z.lor flags FLAG_PADDING) < 16
    ∧ Z.land (if bool_decide (pad = []) then flags else Z.lor flags FLAG_PADDING) 7 = flags
    ∧ flags_contains (if bool_decide (pad = []) then flags else Z.lor flags FLAG_PADDING)
        FLAG_PADDING = negb (bool_decide (pad = []))) as (? & ? & Hc8).
  { destruct Hf as [-> | [-> | -> ]]; case_bool_decide; vm_compute; repeat split; congruence. }
  split_and!; [|done|done|].
  - split; cbn [fr_stream_id fr_flags fr_payload fr_padding]; [done|done|lia|].
    rewrite Hc8. case_bool_decide as Hpad; simpl; [done|].
    split; [|done]. assert (len pad ≠ 0) by (by rewrite len_zero). lia.
  - rewrite Hc8. unfold wire_padding. case_bool_decide; [done|]. rewrite len_app.
    unfold len at 2. rewrite length_be_bytes. simpl. lia.
Qed.

(** A frame that was sent is delivered, and both sides stay in step. *)
Lemma send_receive tx rx rng sid flags payload tx' b w rest :
  is_u 32 sid → synced tx rx →
  send tx rng sid flags payload = (tx', b, Ok w) →
  ∃ rx' flags', receive rx (b ++ rest) = (rx', Ok (mkDelivery sid flags' payload w, rest))
    ∧ synced tx' rx' ∧ Z.land flags' 7 = flags ∧ len b = w.
Proof.
  intros Hs (Hk & Hn & Htf & Hrf) H. unfold send in H.
  pose proof (len_nonneg payload).
  destruct (prepare_outbound_frame _ _ _ _) as [p|err] eqn:Hp; [|done].
  destruct (AeadTx_encrypt _ _ _) as [aead [c|err]] eqn:He; [|done].
  apply AeadTx_encrypt_Ok in He as (_ & Hlt & Hseal & ->).
  destruct (Z.eqb_spec (len c) (po_ciphertext_len p)) as [Hc|]; [|done]. cbn [negb] in H.
  destruct (prepared_frame_ok _ _ _ _ _ sid c ltac:(done) Hs Hp Hc) as (Hok & Hw & Hfl & Hpw).
  destruct (write_frame _) as [b' [u|err]] eqn:Hwf; [destruct u|done]. injection H as <- <- <-.
  set (f := mkFrame sid (po_flags p) c (po_padding p)) in *.
  assert (read_frame (b' ++ rest) = Ok (f, rest)) as Hread.
  { apply read_frame_Ok. split; [done|]. exists b'. by rewrite Hw. }
  unfold receive. rewrite Hread. cbn [fr_stream_id fr_flags fr_payload fr_padding f].
  rewrite Hc, Hk, Hn in *. apply unseal_seal in Hseal.
  assert (AeadRx_decrypt rx c (frame_aad sid (po_flags p) (po_ciphertext_len p) (po_padding p))
    = (mkAeadRx (rx_cipher rx) (rx_nonce rx + 1) false, Ok payload)) as ->
    by (by apply AeadRx_decrypt_Ok).
  eexists _, _. rewrite Hpw. split; [done|]. split; [done|]. split; [done|].
  apply write_frame_length in Hwf. cbn [fr_payload fr_padding fr_stream_id] in Hwf.
  by rewrite Hc in Hwf.
Qed.

(** Messages with the randomness their padding draws. *)
Record Message := mkMessage { m_rng : Rng; m_stream : Z; m_flags : Z; m_payload : bytes }.

Fixpoint send_all (tx : AuthenticatedSessionTx) (l : list Message)
  : AuthenticatedSessionTx * bytes * result SessionError (list Z) :=
  match l with
  | [] => (tx, [], Ok [])
  | m :: l =>
      match send tx (m_rng m) (m_stream m) (m_flags m) (m_payload m) with
      | (tx, b, Err e) => (tx, b, Err e)
      | (tx, b, Ok w) =>
          let '(tx, b', r) := send_all tx l in
          (tx, b ++ b', match r with Ok ws => Ok (w :: ws) | Err e => Err e end)
      end
  end.

Fixpoint receive_all (rx : AeadRx) (n : nat) (stream : bytes)
  : AeadRx * result SessionError (list Delivery * bytes) :=
  match n with
  | O => (rx, Ok ([], stream))
  | S n =>
      match receive rx stream with
      | (rx, Err e) => (rx, Err e)
      | (rx, Ok (d, rest)) =>
          let '(rx, r) := receive_all rx n rest in
          (rx, match r with Ok (ds, rest) => Ok (d :: ds, rest) | Err e => Err e end)
      end
  end.

Definition delivers (m : Message) (d : Delivery) : Prop :=
  d_stream d = m_stream m ∧ Z.land (d_flags d) 7 = m_flags m ∧ d_plaintext d = m_payload m.

(** C22: The session is an ordered, lossless channel: if a sender sends a sequence of
    messages, a receiver in step with it that reads the resulting bytes, whatever follows
    them, delivers exactly these messages in order, with the same byte counts the sender
    reported, consumes exactly their bytes and stays in step. *)
Theorem channel_in_order (l : list Message) (tx tx' : AuthenticatedSessionTx) (rx : AeadRx)
    (b rest : bytes) (ws : list Z) :
  Forall (λ m, is_u 32 (m_stream m)) l → synced tx rx →
  send_all tx l = (tx', b, Ok ws) →
  ∃ rx' ds, receive_all rx (length l) (b ++ rest) = (rx', Ok (ds, rest))
    ∧ synced tx' rx' ∧ Forall2 delivers l ds ∧ d_wire <$> ds = ws
    ∧ len b = foldr Z.add 0 ws.
Proof.
  intros Hl. revert tx tx' rx b rest ws.
  induction Hl as [|m l Hm Hl IH]; intros tx tx' rx b rest ws Hsync H; simpl in H.
  { injection H as <- <- <-. exists rx, []. by split_and!. }
  destruct (send _ _ _ _ _) as [[tx1 b1] [w|err]] eqn:Hs; [|done].
  destruct (send_all tx1 l) as [[tx2 b2] [ws2|err]] eqn:Hall; [|done]. injection H as <- <- <-.
  rewrite <- app_assoc.
  destruct (send_receive _ _ _ _ _ _ _ _ _ (b2 ++ rest) Hm Hsync Hs)
    as (rx1 & fl & Hr & Hsync1 & Hfl & Hlen).
  destruct (IH _ _ rx1 _ rest _ Hsync1 Hall) as (rx2 & ds & Hra & Hsync2 & Hd & Hw & Hl2).
  exists rx2, (mkDelivery (m_stream m) fl (m_payload m) w :: ds). cbn [length receive_all].
  rewrite Hr, Hra. split_and!; [done|done|by constructor|by rewrite fmap_cons, Hw|].
  rewrite len_app. simpl. lia.
Qed.

(** The random generator fills as many bytes as it is asked for. *)
Definition rng_ok (rng : Rng) : Prop := 0 ≤ next_u32 rng ∧ ∀ n, 0 ≤ n → len (fill_bytes rng n) = n.

Lemma random_padding_bound profile rng : rng_ok rng →
  len (random_padding profile rng) ≤ padding_max profile.
Proof.
  intros [Hn Hf]. unfold random_padding. set (n := next_u32 rng mod _).
  assert (0 ≤ n ≤ padding_max profile) as Hb.
  { pose proof (Z.mod_pos_bound (next_u32 rng) (padding_max profile + 1)) as Hb.
    assert (0 < padding_max profile + 1) as Hp by (by destruct profile).
    specialize (Hb Hp). subst n. lia. }
  destruct (Z.eqb_spec n 0); [rewrite len_nil; lia|].
  assert (len (fill_bytes rng n) = n) as Hl by (apply Hf; lia).
  case_bool_decide; [|lia]. unfold len. rewrite length_fmap. fold (len (fill_bytes rng n)). lia.
Qed.

Lemma frame_aad_length sid fl n p : len p ≤ MAX_PADDING → len (frame_aad sid fl n p) < 2 ^ 32.
Proof.
  intros Hp. unfold frame_aad. rewrite !len_app.
  unfold len at 2 4 5. rewrite !length_be_bytes. unfold MAX_PADDING in *.
  assert (len FRAME_AAD_DOMAIN = 32) as -> by (vm_compute; reflexivity).
  assert (len [bz fl] = 1) as -> by done. lia.
Qed.

(** Sending does not fail: on a direction that has not failed and whose counter is not
    exhausted, a message with one of the three application flags and at most 65520 bytes is
    always sent, whatever padding is drawn. *)
Theorem send_total (tx : AuthenticatedSessionTx) (rng : Rng) (sid flags : Z) (payload : bytes) :
  rng_ok rng → is_u 32 sid → app_flags flags → len payload + 16 ≤ MAX_FRAME_PAYLOAD →
  tx_failed (s_aead tx) = false → tx_nonce (s_aead tx) + 1 < 2 ^ 64 →
  ∃ b w, send tx rng sid flags payload
         = (mkTx (mkAeadTx (tx_cipher (s_aead tx)) (tx_nonce (s_aead tx) + 1) false)
              (s_padding_profile tx), b, Ok w).
Proof.
  intros Hrng Hs Hf Hp Hfail Hn. pose proof (len_nonneg payload).
  assert (len (random_padding (s_padding_profile tx) rng) ≤ MAX_PADDING) as Hpad.
  { pose proof (random_padding_bound (s_padding_profile tx) rng Hrng).
    unfold MAX_PADDING. by destruct (s_padding_profile tx); simpl in *; unfold MAX_PADDING in *; lia. }
  pose proof (prepare_outbound_frame_Ok (s_padding_profile tx) rng flags (len payload)) as Hprep.
  unfold send. destruct (prepare_outbound_frame _ _ _ _) as [p|e] eqn:Hpr.
  2:{ pose proof (proj2 (Hprep _ ltac:(done)) (conj Hf (conj Hp (conj Hpad eq_refl)))). done. }
  clear Hprep. assert (Hpr' := Hpr).
  apply prepare_outbound_frame_Ok in Hpr' as (_ & _ & _ & Hpeq); [|done].
  destruct (seal_total (tx_cipher (s_aead tx)) (nonce_from_counter (tx_nonce (s_aead tx)))
    (frame_aad sid (po_flags p) (po_ciphertext_len p) (po_padding p)) payload) as [c Hc].
  { unfold MAX_FRAME_PAYLOAD in *. lia. }
  { apply frame_aad_length. by rewrite Hpeq. }
  rewrite (proj2 (AeadTx_encrypt_Ok _ _ _ _ c) (conj Hfail (conj Hn (conj Hc eq_refl)))).
  pose proof (seal_length _ _ _ _ _ Hc) as Hcl.
  assert (len c = po_ciphertext_len p) as Hcp by (rewrite Hpeq; simpl; lia).
  rewrite (proj2 (Z.eqb_eq _ _) Hcp). cbn [negb].
  destruct (prepared_frame_ok _ _ _ _ _ sid c ltac:(done) Hs Hpr Hcp) as (Hok & Hw & _).
  rewrite <- Hw. destruct (write_frame_total _ Hok) as [b ->]. by eexists _, _.
Qed.

(** Whatever is delivered was sealed for exactly this frame: if the receiver delivers a
    message, the bytes it read are one canonical frame whose ciphertext is the sealing,
    under the receiver's key and counter, of the delivered plaintext with the frame's
    stream, flags, ciphertext length and padding as associated data. *)
Theorem delivered_is_sealed (rx rx' : AeadRx) (stream rest : bytes) (d : Delivery) :
  receive rx stream = (rx', Ok (d, rest)) →
  ∃ f w, frame_ok f ∧ write_frame (on_wire f) = (w, Ok ()) ∧ stream = w ++ rest
    ∧ fr_stream_id f = d_stream d ∧ fr_flags f = d_flags d ∧ len w = d_wire d
    ∧ seal (rx_cipher rx) (nonce_from_counter (rx_nonce rx))
        (frame_aad (fr_stream_id f) (fr_flags f) (len (fr_payload f)) (fr_padding f))
        (d_plaintext d) = Some (fr_payload f)
    ∧ rx_failed rx = false ∧ rx_nonce rx' = rx_nonce rx + 1.
Proof.
  unfold receive. destruct (read_frame stream) as [[f rest0]|err] eqn:Hr; [|done].
  apply read_frame_Ok in Hr as (Hok & w & Hw & ->).
  destruct (AeadRx_decrypt _ _ _) as [rx1 [p|err]] eqn:Hd; [|done]. intros [= <- <- <-].
  apply AeadRx_decrypt_Ok in Hd as (Hf & _ & Hu & ->). exists f, w.
  apply seal_unseal in Hu. split_and!; try done.
  apply write_frame_length in Hw. rewrite Hw. cbn [d_wire on_wire fr_payload fr_padding
    fr_stream_id]. f_equal. destruct Hok as [_ _ _ Hpad]. unfold wire_padding.
  destruct (flags_contains _ _).
  - rewrite bool_decide_eq_false_2 by (intros He; rewrite He, len_nil in Hpad; lia).
    rewrite len_app. unfold len at 1. by rewrite length_be_bytes.
  - by rewrite Hpad.
Qed.

End Theory.

(** ** A concrete channel *)

Module SessionSample.

(** A toy scheme: the message followed by a sixteen-byte tag computed from key, nonce and
    associated data. *)
Definition tag (k n a : bytes) : bytes := take 16 (rev (k ++ n ++ a) ++ replicate 16 Byte.x00).

#[export] Instance toy_aead : Aead := {|
  seal k n a p := Some (p ++ tag k n a);
  unseal k n a c :=
    let m := (length c - 16)%nat in
    if bool_decide (drop m c = tag k n a) then Some (take m c) else None;
|}.

Lemma tag_length k n a : length (tag k n a) = 16%nat.
Proof. unfold tag. rewrite length_take, length_app, length_replicate. lia. Qed.

#[export] Instance toy_aead_laws : AeadLaws toy_aead.
Proof.
  split.
  - intros k n a p c [= <-]. simpl. rewrite length_app, tag_length, Nat.add_sub.
    by rewrite drop_app_length, bool_decide_eq_true_2, take_app_length.
  - intros k n a p c H. simpl in *. case_bool_decide as Ht; [|done]. injection H as <-.
    by rewrite <- Ht, take_drop.
  - intros k n a p c [= <-]. rewrite len_app. unfold len. by rewrite tag_length.
  - intros. by eexists.
Qed.

Definition key : bytes := replicate 32 Byte.x2a.
Definition tx0 : AuthenticatedSessionTx := mkTx (mkAeadTx key 0 false) Balanced.
Definition rx0 : AeadRx := mkAeadRx key 0 false.
Definition rng (n : Z) : Rng := mkRng n (λ n, replicate (Z.to_nat n) Byte.x07).
Definition messages : list Message :=
  [mkMessage (rng 5) 1 FLAG_DATA [Byte.x01; Byte.x02]; mkMessage (rng 0) 2 FLAG_FIN []].

Lemma rng_sample_ok n : 0 ≤ n → rng_ok (rng n).
Proof. intros Hn. split; [done|]. intros m Hm. simpl. unfold len. rewrite length_replicate. lia. Qed.

Definition sent_state : AuthenticatedSessionTx := (send_all tx0 messages).1.1.
Definition sent_bytes : bytes := (send_all tx0 messages).1.2.

Lemma sends : send_all tx0 messages = (sent_state, sent_bytes, Ok [30; 21]).
Proof. vm_compute. reflexivity. Qed.

Lemma channel_in_order_witness :
  ∃ rx' ds, receive_all rx0 2 (sent_bytes ++ [Byte.xff]) = (rx', Ok (ds, [Byte.xff]))
    ∧ synced sent_state rx' ∧ Forall2 delivers messages ds.
Proof.
  destruct (channel_in_order messages tx0 sent_state rx0 sent_bytes [Byte.xff] [30; 21])
    as (rx' & ds & H1 & H2 & H3 & _).
  - repeat constructor; vm_compute; congruence.
  - repeat split.
  - exact sends.
  - exists rx', ds. split; [exact H1|]. split; [exact H2|exact H3].
Defined.

Lemma send_total_witness :
  ∃ b w, send tx0 (rng 5) 1 FLAG_DATA [Byte.x01]
         = (mkTx (mkAeadTx key 1 false) Balanced, b, Ok w).
Proof.
  refine (send_total tx0 (rng 5) 1 FLAG_DATA [Byte.x01] _ _ _ _ _ _).
  - apply rng_sample_ok. lia.
  - split; vm_compute; congruence.
  - left. reflexivity.
  - vm_compute. congruence.
  - reflexivity.
  - vm_compute. reflexivity.
Defined.

Lemma delivered_is_sealed_witness :
  ∃ rx' d rest, receive rx0 sent_bytes = (rx', Ok (d, rest))
    ∧ ∃ f w, frame_ok f ∧ sent_bytes = w ++ rest ∧ fr_stream_id f = d_stream d.
Proof.
  assert (∃ rx' d rest, receive rx0 sent_bytes = (rx', Ok (d, rest))) as (rx' & d & rest & H).
  { eexists _, _, _. vm_compute. reflexivity. }
  exists rx', d, rest. split; [exact H|].
  destruct (delivered_is_sealed rx0 rx' sent_bytes rest d H) as (f & w & H1 & _ & H2 & H3 & _).
  exists f, w. split; [exact H1|]. split; [exact H2|exact H3].
Defined.

Lemma nonces_distinct_witness :
  NoDup ((λ x, x.1.1) <$> encrypt_run (s_aead tx0) [([Byte.x01], []); ([Byte.x02], [])]).
Proof.
  refine (proj1 (nonces_distinct (s_aead tx0) [([Byte.x01], []); ([Byte.x02], [])] _)).
  vm_compute. congruence.
Defined.

Lemma failure_is_permanent_witness :
  AeadRx_decrypt (mkAeadRx key 0 true) [] [] = (mkAeadRx key 0 true, Err Poisoned).
Proof.
  refine (proj2 (failure_is_permanent (s_aead tx0) (s_aead tx0) rx0 (mkAeadRx key 0 true)
    [Byte.x01] [] [] [] CipherFailed) _).
  vm_compute. reflexivity.
Defined.

Lemma frame_aad_injective_witness : 1 = 1 ∧ 9 = 9 ∧ 20 = 20 ∧ [Byte.x01] = [Byte.x01].
Proof.
  refine (frame_aad_injective 1 9 20 1 9 20 [Byte.x01] [Byte.x01] _ _ _ _ _ _ eq_refl);
    split; vm_compute; congruence.
Defined.

End SessionSample.
