(* ===== verification/Mux.v ===== *)
(** * Packet fragmentation and reassembly

    Models [shadowpipe-core/src/mux/mod.rs].  The reassembler's maps are finite
    maps; its operations thread the state explicitly and return it also on errors,
    because an early return keeps what was mutated so far. *)

From S2P Require Import Prelude.

Inductive MuxError := BadConfig | UnknownType | TooShort | InvalidFragment | TotalMismatch
| MissingFragment.

Definition MSG_IP_DATA : Z := 1.
Definition MAX_PENDING_PACKETS : Z := 256.
Definition MAX_PENDING_BYTES : Z := 8 * 1024 * 1024.
Definition MAX_FRAG_TOTAL : Z := 512.

Record MuxConfig := mkMuxConfig { stream_count : Z; max_chunk_size : Z }.
Definition MuxConfig_default : MuxConfig := mkMuxConfig 24 4096.

(** ** Fragmentation *)

(** [slice::chunks]; the length is enough fuel when the size is positive. *)
Fixpoint chunks_loop (fuel n : nat) (l : bytes) : list bytes :=
  match fuel, l with
  | _, [] => []
  | O, _ => []
  | S fuel, _ => take n l :: chunks_loop fuel n (drop n l)
  end.
Definition chunks (n : Z) (l : bytes) : list bytes := chunks_loop (length l) (Z.to_nat n) l.

Definition fragment_payload (packet_id frag_idx frag_total : Z) (chunk : bytes) : bytes :=
  bz MSG_IP_DATA :: be_bytes 4 packet_id ++ be_bytes 2 (frag_idx mod 2 ^ 16)
    ++ be_bytes 2 frag_total ++ chunk.

Definition encode_packet (packet : bytes) (packet_id : Z) (cfg : MuxConfig)
  : result MuxError (list (Z * bytes)) :=
  if bool_decide (packet = []) then Ok [] else
  if stream_count cfg =? 0 then Err BadConfig else
  if max_chunk_size cfg =? 0 then Err BadConfig else
  let chunks := chunks (max_chunk_size cfg) packet in
  let frag_total := Z.min (len chunks) 65535 in
  Ok (imap (λ frag_idx chunk,
        ((packet_id + Z.of_nat frag_idx mod 2 ^ 32) mod 2 ^ 32 mod stream_count cfg,
         fragment_payload packet_id (Z.of_nat frag_idx) frag_total chunk)) chunks).

(** ** Reassembly *)

Record PendingPacket := mkPendingPacket { frag_total : Z; frags : gmap Z bytes }.
Record Reassembler := mkReassembler { pending : gmap Z PendingPacket; total_bytes : Z }.

Definition Reassembler_new : Reassembler := mkReassembler ∅ 0.

Definition saturating_sub (a b : Z) : Z := Z.max 0 (a - b).

(** [frags.values().map(|v| v.len()).sum()] *)
Definition frag_bytes (m : gmap Z bytes) : Z := map_fold (λ _ v acc, len v + acc) 0 m.

(** [keys().copied().min()] *)
Definition min_key {A} (m : gmap Z A) : option Z :=
  map_fold (λ k _ acc, match acc with None => Some k | Some a => Some (Z.min k a) end) None m.

Definition evict_oldest (s : Reassembler) : Reassembler :=
  match min_key (pending s) with
  | None => s
  | Some oldest =>
      match pending s !! oldest with
      | None => s
      | Some entry => mkReassembler (delete oldest (pending s))
                        (saturating_sub (total_bytes s) (frag_bytes (frags entry)))
      end
  end.

(** [while pending is full or the bytes do not fit]; one round per pending packet and one
    more are enough. *)
Fixpoint evict_loop (fuel : nat) (s : Reassembler) (data_len : Z) : Reassembler :=
  match fuel with
  | O => s
  | S fuel =>
      if (MAX_PENDING_PACKETS <=? Z.of_nat (size (pending s)))
         || (MAX_PENDING_BYTES <? total_bytes s + data_len)
      then let s' := evict_oldest s in
           if bool_decide (pending s' = ∅) then s' else evict_loop fuel s' data_len
      else s
  end.

(** The loop that takes the fragments out in order. *)
Fixpoint assemble (idxs : list Z) (m : gmap Z bytes) (total : Z) (acc : bytes)
  : gmap Z bytes * Z * option bytes :=
  match idxs with
  | [] => (m, total, Some acc)
  | idx :: idxs =>
      match m !! idx with
      | None => (m, total, None)
      | Some part => assemble idxs (delete idx m) (saturating_sub total (len part)) (acc ++ part)
      end
  end.

(** [feed] from the eviction loop on, for a fragment whose header is valid. *)
Definition place_fragment (s : Reassembler) (packet_id frag_idx total : Z) (data : bytes)
  : Reassembler * result MuxError (option bytes) :=
  let s := evict_loop (S (size (pending s))) s (len data) in
  let entry := default (mkPendingPacket total ∅) (pending s !! packet_id) in
  let s := mkReassembler (<[packet_id := entry]> (pending s)) (total_bytes s) in
  if negb (frag_total entry =? total) then (s, Err TotalMismatch) else
  let replaced := frags entry !! frag_idx in
  let entry := mkPendingPacket (frag_total entry) (<[frag_idx := data]> (frags entry)) in
  let bytes_now := total_bytes s + len data in
  let bytes_now := match replaced with
                   | Some old => saturating_sub bytes_now (len old)
                   | None => bytes_now
                   end in
  let s := mkReassembler (<[packet_id := entry]> (pending s)) bytes_now in
  if negb (Z.of_nat (size (frags entry)) =? total) then (s, Ok None) else
  match assemble (seqZ 0 total) (frags entry) (total_bytes s) [] with
  | (remaining, bytes_now, None) =>
      (mkReassembler (<[packet_id := mkPendingPacket (frag_total entry) remaining]> (pending s))
         bytes_now, Err MissingFragment)
  | (_, bytes_now, Some assembled) =>
      (mkReassembler (delete packet_id (pending s)) bytes_now, Ok (Some assembled))
  end.

Definition feed (s : Reassembler) (payload : bytes)
  : Reassembler * result MuxError (option bytes) :=
  match payload with
  | [] => (s, Ok None)
  | kind :: _ =>
      if negb (bv kind =? MSG_IP_DATA) then (s, Err UnknownType) else
      if len payload <? 9 then (s, Err TooShort) else
      let packet_id := be_value (take 4 (drop 1 payload)) in
      let frag_idx := be_value (take 2 (drop 5 payload)) in
      let total := be_value (take 2 (drop 7 payload)) in
      let data := drop 9 payload in
      if (total =? 0) || (total <=? frag_idx) || (MAX_FRAG_TOTAL <? total)
      then (s, Err InvalidFragment) else
      place_fragment s packet_id frag_idx total data
  end.

(** ** Sums over maps *)

Definition sum_map {A} (f : A → Z) (m : gmap Z A) : Z := map_fold (λ _ v acc, f v + acc) 0 m.

Definition pending_bytes (m : gmap Z PendingPacket) : Z := sum_map (λ e, frag_bytes (frags e)) m.

Section Sums.
Context {A : Type} (f : A → Z).
Implicit Types (m : gmap Z A) (k : Z) (v : A).

Lemma sum_map_empty : sum_map f ∅ = 0.
Proof. apply map_fold_empty. Qed.

Lemma sum_map_fresh m k v : m !! k = None → sum_map f (<[k := v]> m) = f v + sum_map f m.
Proof. intros. unfold sum_map. rewrite map_fold_insert_L; [done|intros; lia|done]. Qed.

Lemma sum_map_delete m k v : m !! k = Some v → sum_map f m = f v + sum_map f (delete k m).
Proof.
  intros Hk. rewrite <- (insert_delete_id m k v Hk) at 1.
  apply sum_map_fresh, lookup_delete_eq.
Qed.

Lemma sum_map_insert m k v : sum_map f (<[k := v]> m) = f v + sum_map f (delete k m).
Proof. rewrite <- insert_delete_eq. apply sum_map_fresh, lookup_delete_eq. Qed.

Lemma sum_map_nonneg m : (∀ v, 0 ≤ f v) → 0 ≤ sum_map f m.
Proof.
  intros Hf. induction m as [|k v m Hk IH] using map_ind; [by rewrite sum_map_empty|].
  rewrite sum_map_fresh by done. specialize (Hf v). lia.
Qed.
End Sums.

Lemma frag_bytes_sum m : frag_bytes m = sum_map len m.
Proof. done. Qed.

Lemma frag_bytes_delete m k v :
  m !! k = Some v → frag_bytes m = len v + frag_bytes (delete k m).
Proof. apply (sum_map_delete len). Qed.

Lemma frag_bytes_insert m k v : frag_bytes (<[k := v]> m) = len v + frag_bytes (delete k m).
Proof. apply (sum_map_insert len). Qed.

Lemma frag_bytes_nonneg m : 0 ≤ frag_bytes m.
Proof. rewrite frag_bytes_sum. apply sum_map_nonneg. intros. apply len_nonneg. Qed.

Lemma pending_bytes_nonneg m : 0 ≤ pending_bytes m.
Proof. apply sum_map_nonneg. intros. apply frag_bytes_nonneg. Qed.

(** ** The oldest packet *)

Lemma min_key_spec {A} (m : gmap Z A) :
  match min_key m with
  | Some k => is_Some (m !! k) ∧ ∀ j, is_Some (m !! j) → k ≤ j
  | None => m = ∅
  end.
Proof.
  unfold min_key.
  apply (map_fold_weak_ind (λ r m, match r with
    | Some k => is_Some (m !! k) ∧ ∀ j, is_Some (m !! j) → k ≤ j
    | None => m = ∅ end)); [done|].
  intros k v m' r Hk IH. destruct r as [a|].
  - destruct IH as [Ha IH]. split.
    + destruct (Z.min_spec k a) as [[? ->]|[? ->]]; [rewrite lookup_insert_eq; by eexists|].
      destruct (decide (k = a)) as [->|]; [rewrite lookup_insert_eq; by eexists|].
      by rewrite lookup_insert_ne.
    + intros j Hj. destruct (decide (k = j)) as [->|]; [lia|].
      rewrite lookup_insert_ne in Hj by done. specialize (IH j Hj). lia.
  - subst m'. split; [rewrite lookup_insert_eq; by eexists|].
    intros j Hj. destruct (decide (k = j)) as [->|]; [lia|].
    rewrite lookup_insert_ne, lookup_empty in Hj by done. by destruct Hj.
Qed.

(** ** The invariant *)

Record packet_wf (e : PendingPacket) : Prop := {
  pw_total : 1 ≤ frag_total e ≤ MAX_FRAG_TOTAL;
  pw_keys : ∀ i v, frags e !! i = Some v → 0 ≤ i < frag_total e;
  pw_incomplete : Z.of_nat (size (frags e)) < frag_total e;
}.

Record reassembler_wf (s : Reassembler) : Prop := {
  rw_packets : ∀ id e, pending s !! id = Some e → packet_wf e;
  rw_total : total_bytes s = pending_bytes (pending s);
  rw_size : Z.of_nat (size (pending s)) ≤ MAX_PENDING_PACKETS;
  rw_bytes : total_bytes s ≤ MAX_PENDING_BYTES;
}.

Lemma reassembler_new_wf : reassembler_wf Reassembler_new.
Proof. split; simpl; [intros ? ? H; by rewrite lookup_empty in H|done..]. Qed.

Lemma evict_oldest_spec s : total_bytes s = pending_bytes (pending s) →
  (pending s = ∅ ∧ evict_oldest s = s)
  ∨ ∃ k e, pending s !! k = Some e ∧ (∀ j, is_Some (pending s !! j) → k ≤ j)
      ∧ evict_oldest s = mkReassembler (delete k (pending s))
                           (pending_bytes (delete k (pending s))).
Proof.
  intros Ht. unfold evict_oldest. pose proof (min_key_spec (pending s)) as Hm.
  destruct (min_key (pending s)) as [k|]; [|by left].
  destruct Hm as [[e He] Hmin]. rewrite He. right. exists k, e. split_and!; [done..|].
  f_equal. unfold saturating_sub. rewrite Ht. unfold pending_bytes at 1.
  rewrite (sum_map_delete _ _ _ _ He). fold (pending_bytes (delete k (pending s))).
  pose proof (pending_bytes_nonneg (delete k (pending s))). lia.
Qed.

Definition must_evict (s : Reassembler) (n : Z) : bool :=
  (MAX_PENDING_PACKETS <=? Z.of_nat (size (pending s)))
  || (MAX_PENDING_BYTES <? total_bytes s + n).

(** What the eviction loop leaves: a submap, with room unless it is empty. *)
Lemma evict_loop_spec fuel : ∀ s n,
  (size (pending s) < fuel)%nat → total_bytes s = pending_bytes (pending s) →
  let s' := evict_loop fuel s n in
  pending s' ⊆ pending s ∧ total_bytes s' = pending_bytes (pending s')
  ∧ (pending s' = ∅ ∨ must_evict s' n = false)
  ∧ (must_evict s n = false → s' = s).
Proof.
  induction fuel as [|fuel IH]; intros s n Hf Ht; [lia|]. cbn [evict_loop].
  fold (must_evict s n). destruct (must_evict s n) eqn:Hm; [|split_and!; [done|done|by right|done]].
  destruct (evict_oldest_spec s Ht) as [[He ->]|(k & e & Hk & _ & ->)].
  - rewrite bool_decide_eq_true_2 by done. split_and!; [done|done|by left|done].
  - cbn [pending]. case_bool_decide as Hd.
    + cbn [pending total_bytes]. split_and!; [apply delete_subseteq|done|by left|done].
    + destruct (IH (mkReassembler (delete k (pending s)) (pending_bytes (delete k (pending s)))) n)
        as (H1 & H2 & H3 & _); [|done|].
      { cbn [pending]. rewrite map_size_delete_Some by (by eexists).
        assert (size (pending s) ≠ 0%nat); [|lia]. rewrite map_size_ne_0_lookup. by exists k, e. }
      cbn [pending total_bytes] in *. split_and!; [|done|done|done].
      etrans; [exact H1|apply delete_subseteq].
Qed.

(** ** Taking the fragments out *)

Lemma full_map {A} (m : gmap Z A) n : 0 ≤ n →
  (∀ i v, m !! i = Some v → 0 ≤ i < n) → Z.of_nat (size m) = n →
  ∀ i, 0 ≤ i < n → is_Some (m !! i).
Proof.
  intros Hn Hk Hs i Hi.
  assert (dom m = (list_to_set (seqZ 0 n) : gset Z)) as Hd.
  { apply set_subseteq_size_eq.
    - intros j [v Hv]%elem_of_dom. apply elem_of_list_to_set, elem_of_seqZ.
      specialize (Hk j v Hv). lia.
    - rewrite size_list_to_set by apply NoDup_seqZ. rewrite size_dom, length_seqZ. lia. }
  apply elem_of_dom. rewrite Hd. apply elem_of_list_to_set, elem_of_seqZ. lia.
Qed.

Lemma assemble_spec idxs : ∀ m total acc,
  NoDup idxs → (∀ i, i ∈ idxs → is_Some (m !! i)) → frag_bytes m ≤ total →
  ∃ m' parts,
    assemble idxs m total acc
      = (m', total - (frag_bytes m - frag_bytes m'), Some (acc ++ concat parts))
    ∧ Forall2 (λ i part, m !! i = Some part) idxs parts
    ∧ ∀ i, is_Some (m' !! i) → is_Some (m !! i) ∧ i ∉ idxs.
Proof.
  induction idxs as [|i idxs IH]; intros m total acc Hnd Hin Ht; simpl.
  { exists m, []. simpl. rewrite app_nil_r, Z.sub_diag, Z.sub_0_r.
    split_and!; [done|done|]. intros j ?. split; [done|apply not_elem_of_nil]. }
  apply NoDup_cons in Hnd as [Hni Hnd]. destruct (Hin i) as [part Hp]; [by left|]. rewrite Hp.
  pose proof (frag_bytes_delete m i part Hp) as Hsum. pose proof (frag_bytes_nonneg (delete i m)).
  destruct (IH (delete i m) (saturating_sub total (len part)) (acc ++ part))
    as (m' & parts & -> & Hf & Hm'); [done| |unfold saturating_sub; lia|].
  { intros j Hj. rewrite lookup_delete_ne by (by intros ->). apply Hin. by right. }
  exists m', (part :: parts). simpl. rewrite <- app_assoc. split_and!.
  - assert (saturating_sub total (len part) - (frag_bytes (delete i m) - frag_bytes m')
            = total - (frag_bytes m - frag_bytes m')) as ->; [|done].
    pose proof (len_nonneg part). unfold saturating_sub. lia.
  - constructor; [done|]. eapply Forall2_impl; [exact Hf|].
    intros j q Hq. by apply lookup_delete_Some in Hq as [_ ?].
  - intros j Hj. destruct (Hm' j Hj) as [[? ?]%lookup_delete_is_Some Hnj].
    split; [done|]. rewrite not_elem_of_cons. naive_solver.
Qed.

Lemma sum_map_subseteq {A} (f : A → Z) (m1 m2 : gmap Z A) :
  (∀ v, 0 ≤ f v) → m1 ⊆ m2 → sum_map f m1 ≤ sum_map f m2.
Proof.
  intros Hf. revert m2. induction m1 as [|k v m1 Hk IH] using map_ind; intros m2 Hs.
  { rewrite sum_map_empty. by apply sum_map_nonneg. }
  rewrite sum_map_fresh by done.
  assert (m2 !! k = Some v) as Hk2.
  { eapply lookup_weaken; [|exact Hs]. apply lookup_insert_eq. }
  rewrite (sum_map_delete _ _ _ _ Hk2). assert (m1 ⊆ delete k m2); [|specialize (IH _ H); lia].
  rewrite <- (delete_insert_id m1 k v Hk). by apply delete_mono.
Qed.

Lemma submap_wf s m : reassembler_wf s → m ⊆ pending s →
  reassembler_wf (mkReassembler m (pending_bytes m)).
Proof.
  intros [Hp Ht Hs Hb] Hsub. split; cbn [pending total_bytes]; [|done|..].
  - intros id e He. eapply Hp, lookup_weaken; done.
  - pose proof (map_subseteq_size _ _ Hsub). lia.
  - rewrite Ht in Hb. etrans; [|exact Hb]. apply sum_map_subseteq; [|done].
    intros. apply frag_bytes_nonneg.
Qed.

(** The state after eviction. *)
Definition evicted (s : Reassembler) (n : Z) : gmap Z PendingPacket :=
  pending (evict_loop (S (size (pending s))) s n).

Lemma evicted_spec s n : reassembler_wf s → n ≤ MAX_PENDING_BYTES →
  evict_loop (S (size (pending s))) s n
    = mkReassembler (evicted s n) (pending_bytes (evicted s n))
  ∧ evicted s n ⊆ pending s
  ∧ Z.of_nat (size (evicted s n)) < MAX_PENDING_PACKETS
  ∧ pending_bytes (evicted s n) + n ≤ MAX_PENDING_BYTES
  ∧ (must_evict s n = false → evicted s n = pending s).
Proof.
  intros [Hp Ht Hs Hb] Hn. unfold evicted.
  destruct (evict_loop_spec (S (size (pending s))) s n) as (H1 & H2 & H3 & H4); [lia|done|].
  set (s' := evict_loop _ s n) in *. split_and!; [|done|..].
  - rewrite <- H2. by destruct s'.
  - destruct H3 as [-> | H3]; [by rewrite map_size_empty|].
    unfold must_evict in H3. rewrite orb_false_iff, Z.leb_gt in H3. lia.
  - destruct H3 as [-> | H3]; [unfold pending_bytes; rewrite sum_map_empty; lia|].
    unfold must_evict in H3. rewrite orb_false_iff, Z.ltb_ge in H3. lia.
  - intros Hm. by rewrite H4.
Qed.

Definition entry_of (m : gmap Z PendingPacket) (id total : Z) : PendingPacket :=
  default (mkPendingPacket total ∅) (m !! id).

Lemma entry_of_wf s id total m : reassembler_wf s → m ⊆ pending s →
  1 ≤ total ≤ MAX_FRAG_TOTAL → packet_wf (entry_of m id total).
Proof.
  intros Hwf Hm Ht. unfold entry_of. destruct (m !! id) as [e|] eqn:He; simpl.
  - eapply rw_packets; [done|]. by eapply lookup_weaken.
  - split; simpl; [done| |rewrite map_size_empty; lia].
    intros i v Hi. by rewrite lookup_empty in Hi.
Qed.

Lemma pending_bytes_entry m id total :
  pending_bytes m = frag_bytes (frags (entry_of m id total)) + pending_bytes (delete id m).
Proof.
  unfold entry_of. destruct (m !! id) as [e|] eqn:He; simpl.
  - unfold pending_bytes. by rewrite (sum_map_delete _ _ _ _ He).
  - rewrite delete_id by done. rewrite frag_bytes_sum, sum_map_empty. lia.
Qed.

Lemma frag_bytes_entry (m : gmap Z bytes) idx :
  frag_bytes m = match m !! idx with Some old => len old | None => 0 end
                 + frag_bytes (delete idx m).
Proof.
  destruct (m !! idx) as [old|] eqn:Ho.
  - by apply frag_bytes_delete.
  - by rewrite delete_id.
Qed.

Lemma place_fragment_spec s id idx total data :
  reassembler_wf s → 0 ≤ idx < total → total ≤ MAX_FRAG_TOTAL → len data ≤ MAX_PENDING_BYTES →
  let m := evicted s (len data) in
  let e := entry_of m id total in
  let fr := <[idx := data]> (frags e) in
  let m' := <[id := mkPendingPacket total fr]> m in
  (frag_total e ≠ total
     ∧ place_fragment s id idx total data
       = (mkReassembler m (pending_bytes m), Err TotalMismatch))
  ∨ (frag_total e = total ∧ Z.of_nat (size fr) ≠ total
     ∧ place_fragment s id idx total data = (mkReassembler m' (pending_bytes m'), Ok None))
  ∨ (frag_total e = total ∧ Z.of_nat (size fr) = total
     ∧ ∃ parts, Forall2 (λ i part, fr !! i = Some part) (seqZ 0 total) parts
        ∧ place_fragment s id idx total data
          = (mkReassembler (delete id m) (pending_bytes (delete id m)),
             Ok (Some (concat parts)))).
Proof.
  intros Hwf Hi Htot Hd. cbn zeta. set (m := evicted s (len data)).
  destruct (evicted_spec s (len data) Hwf Hd) as (Hev & Hsub & Hsz & Hb & _).
  fold m in Hev, Hsub, Hsz, Hb.
  pose proof (entry_of_wf s id total m Hwf Hsub ltac:(lia)) as Hewf.
  unfold place_fragment. rewrite Hev. cbn [pending total_bytes]. fold (entry_of m id total).
  pose proof (pending_bytes_entry m id total) as Hpb. set (e := entry_of m id total) in *.
  destruct (Z.eqb_spec (frag_total e) total) as [Het|Het]; cbn [negb].
  2:{ left. split; [done|]. f_equal. f_equal. apply insert_id. subst e.
      unfold entry_of in *. destruct (m !! id); simpl in *; done. }
  right. set (fr := <[idx := data]> (frags e)).
  pose proof (frag_bytes_nonneg (frags e)). pose proof (frag_bytes_nonneg (delete idx (frags e))).
  pose proof (pending_bytes_nonneg (delete id m)). pose proof (len_nonneg data).
  assert (frag_bytes fr = len data + frag_bytes (delete idx (frags e))) as Hfr.
  { apply frag_bytes_insert. }
  pose proof (frag_bytes_entry (frags e) idx) as Hfe.
  assert (match frags e !! idx with
          | Some old => saturating_sub (pending_bytes m + len data) (len old)
          | None => pending_bytes m + len data
          end = frag_bytes fr + pending_bytes (delete id m)) as ->.
  { unfold saturating_sub. destruct (frags e !! idx) as [old|]; lia. }
  rewrite insert_insert_eq, Het. cbn [frags frag_total].
  assert (pending_bytes (<[id := mkPendingPacket total fr]> m)
          = frag_bytes fr + pending_bytes (delete id m)) as Hm'.
  { unfold pending_bytes. by rewrite sum_map_insert. }
  destruct (Z.eqb_spec (Z.of_nat (size fr)) total) as [Hc|Hc]; cbn [negb].
  2:{ left. split_and!; [done..|]. by rewrite Hm'. }
  right. split_and!; [done..|].
  assert (∀ i v, fr !! i = Some v → 0 ≤ i < total) as Hkeys.
  { intros i v [[<- _]|[_ Hv]]%lookup_insert_Some; [done|].
    rewrite <- Het. by eapply (pw_keys _ Hewf). }
  destruct (assemble_spec (seqZ 0 total) fr (frag_bytes fr + pending_bytes (delete id m)) [])
    as (rest & parts & -> & Hparts & Hrest); [apply NoDup_seqZ| |lia|].
  { intros i Hin%elem_of_seqZ. eapply (full_map fr total); [lia|done|done|lia]. }
  exists parts. split; [done|]. simpl.
  assert (rest = ∅) as ->.
  { apply map_empty. intros i. apply eq_None_not_Some. intros Hi'.
    destruct (Hrest i Hi') as [[v Hv] Hni]. apply Hni, elem_of_seqZ. specialize (Hkeys i v Hv). lia. }
  rewrite delete_insert_eq. do 2 f_equal. rewrite (frag_bytes_sum ∅), sum_map_empty. lia.
Qed.

(** ** Feeding preserves the invariant *)

Lemma feed_cases s payload :
  (∃ r, feed s payload = (s, r) ∧ r ≠ Err MissingFragment ∧ ∀ p, r ≠ Ok (Some p))
  ∨ ∃ id idx total data, feed s payload = place_fragment s id idx total data
      ∧ 0 ≤ idx < total ∧ total ≤ MAX_FRAG_TOTAL ∧ len data ≤ len payload.
Proof.
  unfold feed. destruct payload as [|kind payload']; [left; by eexists|].
  set (payload := kind :: payload').
  destruct (negb _); [left; by eexists|]. destruct (Z.ltb_spec (len payload) 9); [left; by eexists|].
  destruct (_ || _) eqn:Hg; [left; by eexists|]. right.
  rewrite !orb_false_iff, Z.eqb_neq, Z.leb_gt, Z.ltb_ge in Hg.
  eexists _, _, _, _. split; [done|]. pose proof (be_value_bound (take 2 (drop 5 payload))).
  split; [lia|]. split; [lia|]. unfold len. rewrite length_drop. lia.
Qed.

Lemma place_fragment_wf s id idx total data :
  reassembler_wf s → 0 ≤ idx < total → total ≤ MAX_FRAG_TOTAL → len data ≤ MAX_PENDING_BYTES →
  reassembler_wf (place_fragment s id idx total data).1
  ∧ (place_fragment s id idx total data).2 ≠ Err MissingFragment.
Proof.
  intros Hwf Hi Ht Hd.
  pose proof (place_fragment_spec s id idx total data Hwf Hi Ht Hd) as Hspec. cbn zeta in Hspec.
  destruct (evicted_spec s (len data) Hwf Hd) as (_ & Hsub & Hsz & Hb & _).
  set (m := evicted s (len data)) in *.
  pose proof (entry_of_wf s id total m Hwf Hsub ltac:(lia)) as Hewf.
  pose proof (pending_bytes_entry m id total) as Hpb. set (e := entry_of m id total) in *.
  destruct Hspec as [(_ & ->)|[(Het & Hc & ->)|(Het & _ & parts & _ & ->)]]; cbn [fst snd];
    split; try done.
  - by apply (submap_wf s).
  - split; cbn [pending total_bytes]; [|done|..].
    + intros id' e' [[<- <-]|[_ He]]%lookup_insert_Some; [|by eapply Hwf, lookup_weaken].
      split; cbn [frag_total frags]; [lia|..].
      * intros i v [[<- _]|[_ Hv]]%lookup_insert_Some; [done|].
        rewrite <- Het. by eapply (pw_keys _ Hewf).
      * pose proof (pw_incomplete _ Hewf). rewrite map_size_insert in *.
        destruct (frags e !! idx); unfold Datatypes.id in *; lia.
    + rewrite map_size_insert. destruct (m !! id); unfold Datatypes.id; lia.
    + unfold pending_bytes. rewrite sum_map_insert. cbn [frags].
      fold (pending_bytes (delete id m)). rewrite frag_bytes_insert.
      pose proof (frag_bytes_entry (frags e) idx) as Hfe.
      destruct (frags e !! idx) as [old|]; [pose proof (len_nonneg old)|]; lia.
  - apply (submap_wf s); [done|]. etrans; [apply delete_subseteq|done].
Qed.

(** C39: Reassembly is bounded and sound on any input: feeding any payload (of at most the
    byte budget) keeps at most 256 pending packets and at most 8 MiB, keeps the byte counter
    equal to the bytes actually buffered, keeps every pending packet incomplete with
    in-range fragment indices, and never ends in the missing-fragment error. *)
Theorem feed_invariant (s : Reassembler) (payload : bytes) :
  reassembler_wf s → len payload ≤ MAX_PENDING_BYTES →
  reassembler_wf (feed s payload).1 ∧ (feed s payload).2 ≠ Err MissingFragment.
Proof.
  intros Hwf Hlen. destruct (feed_cases s payload) as [(r & -> & Hr & _)|Hp]; [done|].
  destruct Hp as (id & idx & total & data & -> & Hi & Ht & Hd).
  apply place_fragment_wf; [done|done|done|lia].
Qed.

(** ** Fragments and packets *)

Lemma chunks_loop_spec fuel n : ∀ l, (length l ≤ fuel)%nat → (0 < n)%nat →
  concat (chunks_loop fuel n l) = l ∧ Forall (λ c, c ≠ []) (chunks_loop fuel n l).
Proof.
  induction fuel as [|fuel IH]; intros [|b l] Hl Hn; simpl in *; try (split; [done|constructor]); [lia|].
  destruct (IH (drop n (b :: l))) as [Hc Hf]; [rewrite length_drop; simpl; lia|done|].
  simpl. rewrite Hc, take_drop. split; [done|]. constructor; [|done]. by destruct n; [lia|].
Qed.

Lemma chunks_spec n l : 0 < n →
  concat (chunks n l) = l ∧ (l ≠ [] → chunks n l ≠ []).
Proof.
  intros Hn. unfold chunks. destruct (chunks_loop_spec (length l) (Z.to_nat n) l) as [Hc _]; [lia..|].
  split; [done|]. intros Hl He. rewrite He in Hc. by subst.
Qed.

Lemma take_app_exact {A} (a b : list A) n : length a = n → take n (a ++ b) = a.
Proof. intros <-. apply take_app_length. Qed.
Lemma drop_app_exact {A} (a b : list A) n : length a = n → drop n (a ++ b) = b.
Proof. intros <-. apply drop_app_length. Qed.

Lemma feed_fragment s id idx total chunk :
  is_u 32 id → 0 ≤ idx < total → total ≤ MAX_FRAG_TOTAL →
  feed s (fragment_payload id idx total chunk) = place_fragment s id idx total chunk.
Proof.
  intros Hid Hi Ht. unfold MAX_FRAG_TOTAL in Ht. unfold fragment_payload, feed.
  rewrite Z.mod_small by lia.
  set (a := be_bytes 4 id). set (b := be_bytes 2 idx). set (c := be_bytes 2 total).
  assert (length a = 4%nat ∧ length b = 2%nat ∧ length c = 2%nat) as (La & Lb & Lc)
    by (subst a b c; by rewrite !length_be_bytes).
  set (payload := bz MSG_IP_DATA :: a ++ b ++ c ++ chunk).
  assert (drop 1 payload = a ++ b ++ c ++ chunk) as H1 by done.
  assert (drop 5 payload = b ++ c ++ chunk) as H5.
  { change 5%nat with (1 + 4)%nat. by rewrite <- drop_drop, H1, drop_app_exact. }
  assert (drop 7 payload = c ++ chunk) as H7.
  { change 7%nat with (5 + 2)%nat. by rewrite <- drop_drop, H5, drop_app_exact. }
  assert (drop 9 payload = chunk) as H9.
  { change 9%nat with (7 + 2)%nat. by rewrite <- drop_drop, H7, drop_app_exact. }
  rewrite bv_bz_small by (unfold MSG_IP_DATA; lia). cbn [negb Z.eqb MSG_IP_DATA Pos.eqb].
  assert (9 ≤ len payload).
  { subst payload. rewrite len_cons, !len_app. unfold len. rewrite La, Lb, Lc. lia. }
  rewrite (proj2 (Z.ltb_ge _ 9)) by done. rewrite H1, H5, H7, H9, !take_app_exact by done.
  subst a b c. rewrite !be_value_be_bytes_small by (unfold is_u in *; lia).
  by replace ((total =? 0) || (total <=? idx) || (MAX_FRAG_TOTAL <? total)) with false
    by (unfold MAX_FRAG_TOTAL; lia).
Qed.

(** Feeding a sequence of payloads. *)
Fixpoint feed_all (s : Reassembler) (l : list bytes)
  : Reassembler * list (result MuxError (option bytes)) :=
  match l with
  | [] => (s, [])
  | p :: l => let '(s, r) := feed s p in let '(s, rs) := feed_all s l in (s, r :: rs)
  end.

Definition pieces (cs : list bytes) : list (Z * bytes) := imap (λ i c, (Z.of_nat i, c)) cs.

Lemma pieces_elem cs i c : (i, c) ∈ pieces cs ↔ ∃ j, i = Z.of_nat j ∧ cs !! j = Some c.
Proof. unfold pieces. rewrite elem_of_lookup_imap. naive_solver. Qed.

Lemma pieces_bytes cs : foldr (λ p acc, len p.2 + acc) 0 (pieces cs) = len (concat cs).
Proof.
  assert (∀ f : nat → Z, foldr (λ p acc, len p.2 + acc) 0 (imap (λ i c, (f i, c)) cs)
                         = len (concat cs)) as H; [|apply H].
  induction cs as [|c cs IH]; intros f; [done|]. simpl. rewrite len_app. f_equal.
  apply (IH (f ∘ S)).
Qed.

Lemma pieces_NoDup cs : NoDup (pieces cs).*1.
Proof.
  assert (∀ (f : nat → Z) k, (∀ i, f i = Z.of_nat (k + i)) →
    (imap (λ i c, (f i, c)) cs).*1 = Z.of_nat <$> seq k (length cs)) as H.
  { induction cs as [|c cs IH]; intros f k Hf; [done|]. cbn [imap length seq].
    rewrite !fmap_cons. cbn [fst]. rewrite Hf, Nat.add_0_r. f_equal.
    apply (IH (f ∘ S)). intros i. unfold compose. rewrite Hf. f_equal. lia. }
  unfold pieces. rewrite (H _ 0%nat) by done.
  apply NoDup_fmap_2; [apply _|apply NoDup_seq].
Qed.

Lemma sum_perm (l l' : list (Z * bytes)) : l ≡ₚ l' →
  foldr (λ p acc, len p.2 + acc) 0 l = foldr (λ p acc, len p.2 + acc) 0 l'.
Proof. induction 1; simpl; lia. Qed.

Lemma frag_bytes_list (l : list (Z * bytes)) : NoDup l.*1 →
  frag_bytes (list_to_map l) = foldr (λ p acc, len p.2 + acc) 0 l.
Proof.
  induction l as [|[i c] l IH]; intros Hnd; [done|].
  apply NoDup_cons in Hnd as [Hni Hnd]. cbn [list_to_map foldr]. rewrite frag_bytes_insert.
  simpl. rewrite delete_id, IH by (done || by apply not_elem_of_list_to_map_1). done.
Qed.

(** ** Any order *)

Section AnyOrder.
Context (s : Reassembler) (id : Z) (cs : list bytes).
Context (Hwf : reassembler_wf s) (Hid : is_u 32 id) (Hfresh : pending s !! id = None).
Context (Hn : 1 ≤ len cs ≤ MAX_FRAG_TOTAL).
Context (Hroom : Z.of_nat (size (pending s)) + 1 < MAX_PENDING_PACKETS).
Context (Hbytes : total_bytes s + len (concat cs) ≤ MAX_PENDING_BYTES).

(** The state after the fragments [got] of the packet arrived, in any order. *)
Definition partial (got : list (Z * bytes)) : Reassembler :=
  match got with
  | [] => s
  | _ => let m := <[id := mkPendingPacket (len cs) (list_to_map got)]> (pending s) in
         mkReassembler m (pending_bytes m)
  end.

Lemma partial_pending got :
  entry_of (pending (partial got)) id (len cs) = mkPendingPacket (len cs) (list_to_map got)
  ∧ (∀ e, <[id := e]> (pending (partial got)) = <[id := e]> (pending s))
  ∧ delete id (pending (partial got)) = pending s
  ∧ Z.of_nat (size (pending (partial got))) < MAX_PENDING_PACKETS.
Proof.
  unfold entry_of. destruct got as [|p got]; cbn [partial pending].
  - rewrite Hfresh. split_and!; [done|done|by apply delete_id|lia].
  - rewrite lookup_insert_eq. split_and!; [done| | |].
    + intros e. apply insert_insert_eq.
    + by apply delete_insert_id.
    + rewrite map_size_insert_None by done. lia.
Qed.

Lemma partial_bytes got : NoDup got.*1 →
  total_bytes (partial got) = total_bytes s + foldr (λ p acc, len p.2 + acc) 0 got.
Proof.
  intros Hnd. destruct got as [|p got]; cbn [partial total_bytes]; [simpl; lia|].
  unfold pending_bytes. rewrite sum_map_insert, delete_id by done.
  fold (pending_bytes (pending s)). cbn [frags]. rewrite frag_bytes_list by done.
  rewrite (rw_total _ Hwf). lia.
Qed.

Lemma sum_nonneg (l : list (Z * bytes)) : 0 ≤ foldr (λ p acc, len p.2 + acc) 0 l.
Proof. induction l as [|p l IH]; simpl; [lia|]. pose proof (len_nonneg p.2). lia. Qed.

Lemma pieces_lookup l i : l ≡ₚ pieces cs → (list_to_map l : gmap Z bytes) !! Z.of_nat i = cs !! i.
Proof.
  intros Hl. assert (NoDup l.*1) as Hnd by (rewrite Hl; apply pieces_NoDup).
  destruct (cs !! i) as [c|] eqn:Hc.
  - apply elem_of_list_to_map_1; [done|]. rewrite Hl. apply pieces_elem. by exists i.
  - apply not_elem_of_list_to_map_1. rewrite Hl. intros ([j c] & Hj & Hin)%list_elem_of_fmap.
    simpl in Hj. apply pieces_elem in Hin as (k & -> & Hk). apply Nat2Z.inj in Hj as ->. congruence.
Qed.

(** One more fragment: either the packet is still incomplete, or it comes out. *)
Lemma feed_piece i c got todo :
  got ++ (i, c) :: todo ≡ₚ pieces cs → reassembler_wf (partial got) →
  feed (partial got) (fragment_payload id i (len cs) c)
  = (if bool_decide (todo = []) then (s, Ok (Some (concat cs)))
     else (partial ((i, c) :: got), Ok None))
  ∧ (todo ≠ [] → reassembler_wf (partial ((i, c) :: got))).
Proof.
  intros Hperm Hpwf.
  assert ((i, c) ∈ pieces cs) as (j & -> & Hj)%pieces_elem.
  { rewrite <- Hperm. apply elem_of_app. right. by left. }
  pose proof (lookup_lt_Some _ _ _ Hj) as Hjl.
  assert (0 ≤ Z.of_nat j < len cs) as Hi by (unfold len; lia).
  assert ((Z.of_nat j, c) :: got ++ todo ≡ₚ pieces cs) as Hperm'
    by (rewrite <- Hperm; by rewrite Permutation_middle).
  assert (NoDup ((Z.of_nat j, c) :: got ++ todo).*1) as Hnd
    by (rewrite Hperm'; apply pieces_NoDup).
  assert (NoDup ((Z.of_nat j, c) :: got).*1) as Hnd1.
  { rewrite app_comm_cons, fmap_app in Hnd. by apply NoDup_app in Hnd as (? & _). }
  pose proof (sum_perm _ _ Hperm') as Hsum. rewrite pieces_bytes in Hsum. cbn [foldr snd] in Hsum.
  rewrite foldr_app in Hsum.
  assert (foldr (λ p acc, len p.2 + acc) (foldr (λ p acc, len p.2 + acc) 0 todo) got
          = foldr (λ p acc, len p.2 + acc) 0 got + foldr (λ p acc, len p.2 + acc) 0 todo) as Hs2.
  { clear. induction got as [|p done IH]; simpl; lia. }
  pose proof (sum_nonneg todo). pose proof (sum_nonneg got).
  pose proof (pending_bytes_nonneg (pending s)). pose proof (rw_total _ Hwf).
  assert (len c ≤ MAX_PENDING_BYTES) as Hc by lia.
  pose proof (partial_bytes got (NoDup_cons_1_2 _ _ Hnd1)) as Hpb.
  destruct (partial_pending got) as (Hentry & Hins & Hdel & Hsz).
  assert (evicted (partial got) (len c) = pending (partial got)) as Hev.
  { apply evicted_spec; [done..|]. unfold must_evict.
    rewrite orb_false_iff, Z.leb_gt, Z.ltb_ge. lia. }
  rewrite feed_fragment by (done || apply Hn).
  pose proof (place_fragment_spec (partial got) id (Z.of_nat j) (len cs) c Hpwf Hi
    ltac:(apply Hn) Hc) as Hspec.
  pose proof (proj1 (place_fragment_wf (partial got) id (Z.of_nat j) (len cs) c Hpwf Hi
    ltac:(apply Hn) Hc)) as Hwf'.
  cbn zeta in Hspec. rewrite Hev, Hentry, Hins, Hdel in Hspec. cbn [frags frag_total] in Hspec.
  change (<[Z.of_nat j := c]> (list_to_map got : gmap Z bytes))
    with (list_to_map ((Z.of_nat j, c) :: got) : gmap Z bytes) in Hspec.
  rewrite map_size_list_to_map in Hspec by done.
  assert (length got + S (length todo) = length cs)%nat as Hlen.
  { pose proof (Permutation_length Hperm) as Hl. rewrite length_app in Hl. simpl in Hl.
    rewrite Hl. unfold pieces. by rewrite length_imap. }
  destruct Hspec as [[? _]|[(_ & Hinc & Heq)|(_ & Hfull & parts & Hparts & Heq)]]; [done|..].
  - rewrite bool_decide_eq_false_2 by (intros ->; simpl in *; unfold len in Hinc; lia).
    rewrite Heq in Hwf' |- *. done.
  - assert (todo = []) as ->.
    { destruct todo; [done|]. simpl in *. unfold len in Hfull. lia. }
    rewrite bool_decide_eq_true_2, Heq by done. split; [|done]. rewrite app_nil_r in Hperm'.
    assert (parts = cs) as ->.
    { apply list_eq. intros k. destruct (decide (k < length cs)%nat) as [Hk|Hk].
      - destruct (lookup_lt_is_Some_2 cs k Hk) as [ck Hck].
        assert (seqZ 0 (len cs) !! k = Some (Z.of_nat k)) as Hseq
          by (rewrite lookup_seqZ_lt; [f_equal; lia|unfold len; lia]).
        destruct (Forall2_lookup_l _ _ _ _ _ Hparts Hseq) as (part & -> & Hpart).
        rewrite <- (pieces_lookup _ k Hperm'). done.
      - pose proof (Forall2_length _ _ _ Hparts) as Hl. rewrite length_seqZ in Hl.
        unfold len in Hl. rewrite Nat2Z.id in Hl. rewrite !lookup_ge_None_2 by lia. done. }
    rewrite <- (rw_total _ Hwf). by destruct s.
Qed.

Lemma feed_pieces todo : ∀ got,
  todo ≠ [] → got ++ todo ≡ₚ pieces cs → reassembler_wf (partial got) →
  feed_all (partial got) ((λ p, fragment_payload id p.1 (len cs) p.2) <$> todo)
  = (s, replicate (length todo - 1) (Ok None) ++ [Ok (Some (concat cs))]).
Proof.
  induction todo as [|[i c] todo IH]; intros got Hne Hperm Hpwf; [done|].
  destruct (feed_piece i c got todo Hperm Hpwf) as [Hf Hwf'].
  rewrite fmap_cons. cbn [feed_all fst snd]. rewrite Hf.
  destruct todo as [|q todo]; [done|]. rewrite bool_decide_eq_false_2 by done.
  rewrite (IH ((i, c) :: got)); [|done| |by apply Hwf'].
  - cbn [length]. rewrite !Nat.sub_succ, !Nat.sub_0_r. done.
  - rewrite <- Hperm. apply Permutation_middle.
Qed.
End AnyOrder.

(** C27: Packets survive fragmentation in any order of arrival: if a packet is split into at
    most 512 fragments and these reach a reassembler that does not know the packet yet and
    has room for it, then, in whatever order they arrive, every fragment but the last is
    buffered, the last one returns exactly the packet, and the reassembler is left as it
    was. *)
Theorem reassembly_any_order (s : Reassembler) (packet : bytes) (id : Z) (cfg : MuxConfig)
    (frames : list (Z * bytes)) (order : list bytes) :
  packet ≠ [] → is_u 32 id → is_u 64 (max_chunk_size cfg) →
  encode_packet packet id cfg = Ok frames → len frames ≤ MAX_FRAG_TOTAL →
  order ≡ₚ frames.*2 →
  reassembler_wf s → pending s !! id = None →
  Z.of_nat (size (pending s)) + 1 < MAX_PENDING_PACKETS →
  total_bytes s + len packet ≤ MAX_PENDING_BYTES →
  feed_all s order = (s, replicate (length order - 1) (Ok None) ++ [Ok (Some packet)]).
Proof.
  intros Hne Hid Hcfg Henc Hlen Hord Hwf Hfresh Hroom Hb. unfold encode_packet in Henc.
  rewrite bool_decide_eq_false_2 in Henc by done.
  apply if_err_Ok in Henc as [_ Henc]. apply if_err_Ok in Henc as [Hz%Z.eqb_neq Henc].
  injection Henc as <-. set (cs := chunks (max_chunk_size cfg) packet) in *.
  destruct (chunks_spec (max_chunk_size cfg) packet) as [Hcat Hnil]; [unfold is_u in Hcfg; lia|].
  fold cs in Hcat, Hnil. specialize (Hnil Hne).
  unfold len in Hlen. rewrite length_imap in Hlen. fold (len cs) in Hlen.
  assert (len cs ≠ 0) by (by rewrite len_zero). pose proof (len_nonneg cs).
  rewrite Z.min_l in Hord by (unfold MAX_FRAG_TOTAL in *; lia).
  assert ((imap (λ i c, ((id + Z.of_nat i mod 2 ^ 32) mod 2 ^ 32 mod stream_count cfg,
      fragment_payload id (Z.of_nat i) (len cs) c)) cs).*2
    = (λ p, fragment_payload id p.1 (len cs) p.2) <$> pieces cs) as Himap
    by (unfold pieces; by rewrite !fmap_imap).
  rewrite Himap in Hord. clear Himap.
  apply Permutation_map_inv in Hord as (todo & -> & Hperm).
  change (map ?f todo) with (f <$> todo). rewrite length_fmap, <- Hcat. rewrite <- Hcat in Hb.
  apply (feed_pieces s id cs Hwf Hid Hfresh ltac:(lia) Hroom Hb todo []).
  - intros ->. apply Permutation_nil_r in Hperm. unfold pieces in Hperm.
    apply (f_equal length) in Hperm. rewrite length_imap in Hperm. by destruct cs.
  - by symmetry.
  - done.
Qed.

Module MuxSample.

Definition cfg : MuxConfig := mkMuxConfig 8 4.
Definition packet : bytes := bz <$> seqZ 0 10.
Definition frames : list (Z * bytes) :=
  match encode_packet packet 7 cfg with Ok l => l | Err _ => [] end.
Definition order : list bytes := rev frames.*2.

Lemma feed_invariant_witness :
  reassembler_wf (feed Reassembler_new (List.hd [] order)).1
  ∧ (feed Reassembler_new (List.hd [] order)).2 ≠ Err MissingFragment.
Proof.
  apply (feed_invariant Reassembler_new (List.hd [] order)).
  - apply reassembler_new_wf.
  - vm_compute. discriminate.
Defined.

Lemma reassembly_any_order_witness :
  feed_all Reassembler_new order
  = (Reassembler_new, [Ok None; Ok None; Ok (Some packet)]).
Proof.
  refine (reassembly_any_order Reassembler_new packet 7 cfg frames order _ _ _ _ _ _ _ _ _ _).
  - vm_compute. discriminate.
  - split; vm_compute; congruence.
  - split; vm_compute; congruence.
  - vm_compute. reflexivity.
  - vm_compute. discriminate.
  - unfold order. symmetry. apply Permutation_rev.
  - apply reassembler_new_wf.
  - vm_compute. reflexivity.
  - vm_compute. reflexivity.
  - vm_compute. discriminate.
Defined.

(** The first of two fragments of the packets 0 to 255, which fill the table. *)
Definition halves : list bytes :=
  (λ i, fragment_payload i 0 2 [Byte.x41]) <$> seqZ 0 256.
Definition full : Reassembler := (feed_all Reassembler_new halves).1.

(** A full table loses the packet it is about to complete: with 256 packets pending, the
    missing fragment of the packet with the smallest id is not delivered, because that
    packet is evicted to make room for a fragment that needs none; with one packet fewer
    the same fragment completes it. *)
Example full_table_evicts_completing_packet :
  feed_all Reassembler_new (halves ++ [fragment_payload 0 1 2 [Byte.x42]])
  = (mkReassembler
       (<[0 := mkPendingPacket 2 {[1 := [Byte.x42]]}]> (delete 0 (pending full))) 256,
     replicate 257 (Ok None))
  ∧ (feed_all Reassembler_new (take 255 halves ++ [fragment_payload 0 1 2 [Byte.x42]])).2
    = replicate 255 (Ok None) ++ [Ok (Some [Byte.x41; Byte.x42])].
Proof. split; vm_compute; reflexivity. Qed.

End MuxSample.
