(* ===== verification/Packet.v ===== *)
(** * IPv4 and ICMP checksum repair

    Models [shadowpipe-core/src/packet/mod.rs].  The packet is a byte list that the
    code updates in place; [put16] is the two-byte store at an in-range offset. *)

From S2P Require Import Prelude.

(** The loop over [chunks_exact(2)] and the remainder; [u32] addition. *)
Fixpoint word_sum_loop (sum : Z) (data : bytes) : Z :=
  match data with
  | [] => sum
  | [b] => (sum + Z.shiftl (bv b) 8) mod 2 ^ 32
  | b0 :: b1 :: data => word_sum_loop ((sum + be_value [b0; b1]) mod 2 ^ 32) data
  end.

(** [while sum > 0xffff]; a [u32] folds in at most three rounds. *)
Fixpoint fold_carries (fuel : nat) (sum : Z) : Z :=
  match fuel with
  | O => sum
  | S fuel => if 65535 <? sum then fold_carries fuel (Z.land sum 65535 + Z.shiftr sum 16) else sum
  end.

Definition checksum16 (data : bytes) : Z :=
  let sum := fold_carries 3 (word_sum_loop 0 data) in
  Z.lnot sum mod 2 ^ 16.

Definition put16 (off : nat) (z : Z) (l : bytes) : bytes :=
  take off l ++ be_bytes 2 z ++ drop (off + 2) l.

Definition fix_icmp_checksum (packet : bytes) (ihl : nat) : bytes :=
  let payload := drop ihl packet in
  if len payload <? 4 then packet else
  let payload := put16 2 0 payload in
  take ihl packet ++ put16 2 (checksum16 payload) payload.

Definition byte_at (packet : bytes) (i : nat) : Z := bv (nth i packet Byte.x00).

Definition fix_ipv4_checksum (packet : bytes) : bytes :=
  if len packet <? 20 then packet else
  if negb (Z.shiftr (byte_at packet 0) 4 =? 4) then packet else
  let ihl := Z.land (byte_at packet 0) 15 * 4 in
  if (ihl <? 20) || (len packet <? ihl) then packet else
  let packet :=
    if (byte_at packet 9 =? 1) && (ihl + 8 <=? len packet)
    then fix_icmp_checksum packet (Z.to_nat ihl) else packet in
  let packet := put16 10 0 packet in
  put16 10 (checksum16 (take (Z.to_nat ihl) packet)) packet.

(** ** One's complement sums *)

Fixpoint word_sum (data : bytes) : Z :=
  match data with
  | [] => 0
  | [b] => bv b * 256
  | b0 :: b1 :: data => be_value [b0; b1] + word_sum data
  end.

(** Two bytes at a time. *)
Lemma bytes_ind2 (P : bytes → Prop) :
  P [] → (∀ b, P [b]) → (∀ b0 b1 l, P l → P (b0 :: b1 :: l)) → ∀ l, P l.
Proof.
  intros H0 H1 H2 l. enough (P l ∧ ∀ b, P (b :: l)) by tauto.
  induction l as [|x l [IH1 IH2]]; [split; auto|]. split; [apply IH2|]. intros b. by apply H2.
Qed.

Lemma be_value_2 b0 b1 : be_value [b0; b1] = bv b0 * 256 + bv b1.
Proof.
  pose proof (bv_range b0). pose proof (bv_range b1).
  change (be_value [b0; b1])
    with (Z.lor (bv b1) (Z.shiftl (Z.lor (bv b0) (Z.shiftl 0 8)) 8)).
  rewrite Z.shiftl_0_l, Z.lor_0_r, Z.shiftl_mul_pow2 by lia.
  change (2 ^ 8) with 256. pose proof (Z.add_lor_land (bv b1) (bv b0 * 256)) as H1.
  assert (Z.land (bv b1) (bv b0 * 256) = 0) as H2.
  { apply Z.bits_inj'. intros n Hn. rewrite Z.land_spec, Z.bits_0. change 256 with (2 ^ 8).
    destruct (Z.ltb_spec n 8).
    - rewrite Z.mul_pow2_bits_low by lia. apply andb_false_r.
    - rewrite <- (Z.mod_small (bv b1) (2 ^ 8)) by done. by rewrite Z.mod_pow2_bits_high by lia. }
  lia.
Qed.

Lemma word_sum_bound l : 0 ≤ word_sum l ≤ 65535 * ((len l + 1) / 2).
Proof.
  induction l as [|b|b0 b1 l IH] using bytes_ind2.
  - done.
  - pose proof (bv_range b). change ((len [b] + 1) / 2) with 1. cbn [word_sum]. lia.
  - cbn [word_sum]. rewrite be_value_2, !len_cons. pose proof (bv_range b0). pose proof (bv_range b1).
    replace (1 + (1 + len l) + 1) with (1 * 2 + (len l + 1)) by lia.
    rewrite Z.div_add_l by lia. lia.
Qed.

Lemma word_sum_loop_spec l : ∀ sum, 0 ≤ sum → sum + word_sum l < 2 ^ 32 →
  word_sum_loop sum l = sum + word_sum l.
Proof.
  induction l as [|b|b0 b1 l IH] using bytes_ind2; intros sum Hs Hb; cbn [word_sum_loop word_sum] in *.
  - lia.
  - rewrite Z.shiftl_mul_pow2 by lia. pose proof (bv_range b). change (2 ^ 8) with 256.
    by rewrite Z.mod_small by lia.
  - pose proof (word_sum_bound l). pose proof (be_value_2 b0 b1).
    pose proof (bv_range b0). pose proof (bv_range b1).
    rewrite Z.mod_small by lia. rewrite IH by lia. lia.
Qed.

Lemma word_sum_app a b : Z.even (len a) = true → word_sum (a ++ b) = word_sum a + word_sum b.
Proof.
  induction a as [|x|x0 x1 a IH] using bytes_ind2; intros He; [done|done|].
  simpl. rewrite IH; [lia|]. rewrite !len_cons in He.
  replace (1 + (1 + len a)) with (len a + 2) in He by lia.
  by rewrite Z.even_add, Bool.eqb_true_iff in He.
Qed.

Lemma fold_carries_spec sum : 0 ≤ sum < 2 ^ 32 →
  0 ≤ fold_carries 3 sum ≤ 65535 ∧ fold_carries 3 sum mod 65535 = sum mod 65535
  ∧ (0 < sum → 0 < fold_carries 3 sum).
Proof.
  assert (∀ s, 0 ≤ s < 2 ^ 32 → let s' := Z.land s 65535 + Z.shiftr s 16 in
    s = s' + 65535 * (s / 65536) ∧ s' = s mod 65536 + s / 65536) as Hstep.
  { intros s Hs. cbn zeta. rewrite Z.shiftr_div_pow2 by lia.
    assert (Z.land s 65535 = s mod 65536) as -> by (apply (Z.land_ones s 16); lia).
    change (2 ^ 16) with 65536.
    pose proof (Z.div_mod s 65536 ltac:(lia)). lia. }
  assert (∀ s k, 0 ≤ s → (s + 65535 * k) mod 65535 = s mod 65535) as Hmod.
  { intros s k _. rewrite Z.mul_comm. by apply Z.mod_add. }
  intros Hs. cbn [fold_carries].
  destruct (Z.ltb_spec 65535 sum); [|lia].
  destruct (Hstep sum Hs) as [E1 D1]. set (s1 := Z.land sum 65535 + Z.shiftr sum 16) in E1, D1 |- *.
  pose proof (Z.mod_pos_bound sum 65536 ltac:(lia)). pose proof (Z.div_mod sum 65536 ltac:(lia)).
  assert (sum / 65536 < 65536) by (apply Z.div_lt_upper_bound; lia).
  assert (1 ≤ sum / 65536) by (apply Z.div_le_lower_bound; lia).
  assert (sum mod 65535 = s1 mod 65535) as M1 by (rewrite E1; apply Hmod; lia).
  destruct (Z.ltb_spec 65535 s1); [|lia].
  destruct (Hstep s1) as [E2 D2]; [lia|]. set (s2 := Z.land s1 65535 + Z.shiftr s1 16) in E2, D2 |- *.
  pose proof (Z.mod_pos_bound s1 65536 ltac:(lia)). pose proof (Z.div_mod s1 65536 ltac:(lia)).
  assert (s1 / 65536 = 1) by (symmetry; apply (Z.div_unique s1 65536 1 (s1 - 65536)); lia).
  assert (s1 mod 65535 = s2 mod 65535) as M2 by (rewrite E2; apply Hmod; lia).
  destruct (Z.ltb_spec 65535 s2); lia.
Qed.

(** ** Storing a checksum *)

Definition MAX_CHECKED : Z := 131070.

Lemma word_sum_small l : len l ≤ MAX_CHECKED → 0 ≤ word_sum l < 2 ^ 32.
Proof.
  intros Hl. pose proof (word_sum_bound l). unfold MAX_CHECKED in Hl. pose proof (len_nonneg l).
  assert ((len l + 1) / 2 < 65536) by (apply Z.div_lt_upper_bound; lia). lia.
Qed.

Lemma checksum16_eq l : len l ≤ MAX_CHECKED →
  checksum16 l = 65535 - fold_carries 3 (word_sum l).
Proof.
  intros Hl. pose proof (word_sum_small l Hl) as Hs. unfold checksum16.
  rewrite word_sum_loop_spec, Z.add_0_l by lia. destruct (fold_carries_spec _ Hs) as (Hf & _ & _).
  unfold Z.lnot. change (2 ^ 16) with 65536. symmetry.
  apply (Z.mod_unique _ _ (-1)); lia.
Qed.

Lemma length_put16 off z l : (off + 2 ≤ length l)%nat → length (put16 off z l) = length l.
Proof.
  intros. unfold put16. rewrite !length_app, length_take, length_be_bytes, length_drop. lia.
Qed.

Lemma put16_put16 off y z l : (off + 2 ≤ length l)%nat → put16 off z (put16 off y l) = put16 off z l.
Proof.
  intros Hl. unfold put16. rewrite take_app_le by (rewrite length_take; lia).
  rewrite take_take, Nat.min_id. do 2 f_equal.
  rewrite app_assoc, drop_app_ge by (rewrite length_app, length_take, length_be_bytes; lia).
  rewrite length_app, length_take, length_be_bytes, Nat.min_l by lia. by rewrite Nat.sub_diag.
Qed.

Lemma word_sum_be2 z l : is_u 16 z → word_sum (be_bytes 2 z ++ l) = z + word_sum l.
Proof.
  intros Hz. assert (length (be_bytes 2 z) = 2%nat) as Hl by apply length_be_bytes.
  pose proof (be_value_be_bytes_small 2 z Hz) as Hv.
  destruct (be_bytes 2 z) as [|b0 [|b1 [|]]]; try done. simpl. by rewrite Hv.
Qed.

Lemma word_sum_put16 off z l : is_u 16 z → Nat.Even off → (off + 2 ≤ length l)%nat →
  word_sum (put16 off z l) = z + word_sum (put16 off 0 l).
Proof.
  intros Hz [k ->] Hl. unfold put16.
  assert (Z.even (len (take (2 * k) l)) = true) as He.
  { unfold len. rewrite length_take, Nat.min_l by lia. apply Z.even_spec. exists (Z.of_nat k). lia. }
  rewrite !(word_sum_app (take (2 * k) l)), !word_sum_be2 by (done || (split; lia)). lia.
Qed.

(** Storing the checksum of the data with a zeroed field makes the data verify. *)
Lemma checksum_store off l : Nat.Even off → (off + 2 ≤ length l)%nat → len l ≤ MAX_CHECKED →
  checksum16 (put16 off (checksum16 (put16 off 0 l)) l) = 0.
Proof.
  intros He Hl Hm. set (l0 := put16 off 0 l).
  assert (len l0 ≤ MAX_CHECKED) as Hm0 by (unfold len, l0; rewrite length_put16; done).
  pose proof (checksum16_eq l0 Hm0) as Hc0.
  destruct (fold_carries_spec _ (word_sum_small l0 Hm0)) as (Hf & Hfm & Hfp).
  set (c := checksum16 l0) in *. set (f := fold_carries 3 (word_sum l0)) in *.
  assert (is_u 16 c) as Hcu by (unfold is_u; lia).
  assert (len (put16 off c l) ≤ MAX_CHECKED) as Hm1 by (unfold len; rewrite length_put16; done).
  rewrite (checksum16_eq _ Hm1).
  destruct (fold_carries_spec _ (word_sum_small _ Hm1)) as (Hg & Hgm & Hgp).
  rewrite word_sum_put16 in * by done. fold l0 in Hg, Hgm, Hgp |- *.
  set (g := fold_carries 3 (c + word_sum l0)) in *. pose proof (word_sum_small l0 Hm0).
  assert ((c + word_sum l0) mod 65535 = 0) as Hz.
  { rewrite Hc0. replace (65535 - f + word_sum l0) with (word_sum l0 - f + 1 * 65535) by lia.
    rewrite Z.mod_add, Zminus_mod, Hfm, Z.sub_diag by lia. done. }
  assert (0 < c + word_sum l0) as Hpos.
  { destruct (Z.eq_dec (word_sum l0) 0) as [Hw|]; [|lia].
    assert (f = 0) by (subst f; by rewrite Hw). lia. }
  specialize (Hgp Hpos). rewrite Hz in Hgm. apply Z.mod_divide in Hgm as [q Hq]; [|lia]. lia.
Qed.

(** ** Prefixes and suffixes *)

Lemma take_put16 n off z l : (off + 2 ≤ n)%nat → (n ≤ length l)%nat →
  take n (put16 off z l) = put16 off z (take n l).
Proof.
  intros Ho Hn. unfold put16. rewrite take_app_ge by (rewrite length_take; lia).
  rewrite length_take, Nat.min_l by lia.
  rewrite take_app_ge by (rewrite length_be_bytes; lia). rewrite length_be_bytes.
  rewrite take_take, Nat.min_l by lia. do 2 f_equal. rewrite <- Nat.sub_add_distr.
  rewrite (skipn_firstn_comm (off + 2) n l). done.
Qed.

Lemma drop_put16 n off z l : (off + 2 ≤ n)%nat → (off + 2 ≤ length l)%nat →
  drop n (put16 off z l) = drop n l.
Proof.
  intros Ho Hn. unfold put16.
  rewrite app_assoc, drop_app_ge by (rewrite length_app, length_take, length_be_bytes; lia).
  rewrite length_app, length_take, length_be_bytes, Nat.min_l, drop_drop by lia. f_equal. lia.
Qed.

Lemma lookup_put16_ne off z l i : (off + 2 ≤ length l)%nat → i ≠ off → i ≠ (off + 1)%nat →
  put16 off z l !! i = l !! i.
Proof.
  intros Hl H0 H1. unfold put16. destruct (decide (i < off)%nat).
  - rewrite lookup_app_l by (rewrite length_take; lia). by rewrite lookup_take_lt.
  - rewrite lookup_app_r by (rewrite length_take; lia). rewrite length_take, Nat.min_l by lia.
    rewrite lookup_app_r by (rewrite length_be_bytes; lia). rewrite length_be_bytes, lookup_drop.
    f_equal. lia.
Qed.

(** ** Repaired packets verify *)

Definition header_length (packet : bytes) : Z := Z.land (byte_at packet 0) 15 * 4.

(** An IPv4 packet with a complete header. *)
Definition is_ipv4 (packet : bytes) : bool :=
  (20 <=? len packet) && (Z.shiftr (byte_at packet 0) 4 =? 4)
  && (20 <=? header_length packet) && (header_length packet <=? len packet).

Definition is_icmp (packet : bytes) : bool :=
  (byte_at packet 9 =? 1) && (header_length packet + 8 <=? len packet).

Lemma fix_icmp_spec packet ihl : (ihl + 4 ≤ length packet)%nat → len packet ≤ MAX_CHECKED →
  let p := fix_icmp_checksum packet ihl in
  length p = length packet ∧ take ihl p = take ihl packet ∧ checksum16 (drop ihl p) = 0
  ∧ ∀ i, i ≠ (ihl + 2)%nat → i ≠ (ihl + 3)%nat → p !! i = packet !! i.
Proof.
  intros Hl Hm. cbn zeta. unfold fix_icmp_checksum.
  assert (length (drop ihl packet) = length packet - ihl)%nat as Hd by apply length_drop.
  rewrite (proj2 (Z.ltb_ge _ 4)) by (unfold len; lia).
  rewrite put16_put16 by lia. set (c := checksum16 _).
  assert (length (take ihl packet) = ihl) as Ht by (rewrite length_take; lia).
  split_and!.
  - rewrite length_app, length_put16; lia.
  - rewrite take_app_le, take_take, Nat.min_id by lia. done.
  - rewrite drop_app_ge, Ht, Nat.sub_diag by lia. cbn [drop]. apply checksum_store.
    + by exists 1%nat.
    + lia.
    + unfold len in *. lia.
  - intros i H2 H3. destruct (decide (i < ihl)%nat).
    + rewrite lookup_app_l by lia. by apply lookup_take_lt.
    + rewrite lookup_app_r, Ht by lia. rewrite lookup_put16_ne, lookup_drop by lia. f_equal. lia.
Qed.


Module PacketSample.
Definition ping : bytes :=
  bz <$> [69; 0; 0; 28; 0; 0; 64; 0; 64; 1; 0; 0; 10; 8; 0; 2; 8; 8; 8; 8;
          8; 0; 0; 0; 0; 1; 0; 1].

End PacketSample.
