(* ===== verification/Replay.v ===== *)
(** * The durable replay cache of the REALITY acceptor

    Models [shadowpipe-reality/src/replay.rs]: the authenticated fixed-slot store
    (header and slot records, loading), the in-memory index with its bounded
    pruning, and the admission function.  The store file is a byte string; an
    admission takes the outcome of its durable write as an argument, so that torn
    writes and lost descriptors are covered.  The main theorem follows a server
    over admissions and restarts: no session id is admitted twice while it is
    valid.  The path, ownership and locking checks are reduced to their outcomes. *)

From S2P Require Import Prelude.

(** The [hmac], [sha2] and [x25519_dalek] crates. *)
Class ReplayCrypto := {
  hmac_sha256 : bytes → bytes → bytes;
  store_sha256 : bytes → bytes;
  x25519_public : bytes → bytes;
}.
Class ReplayCryptoLaws (C : ReplayCrypto) := {
  hmac_length k m : length (hmac_sha256 k m) = 32%nat;
  sha_length m : length (store_sha256 m) = 32%nat;
}.

Definition DEFAULT_REPLAY_CACHE_CAPACITY : Z := 16384.
Definition REPLAY_PRUNE_BUDGET : nat := 64.
Definition HEADER_SIZE : nat := 96.
Definition SLOT_SIZE : nat := 96.
Definition zeros (n : nat) : bytes := replicate n Byte.x00.
Definition domain (s : string) : bytes := String.list_byte_of_string s ++ [Byte.x00].
Definition STORE_MAGIC : bytes := String.list_byte_of_string "SPRPv001".
Definition STORE_VERSION : Z := 1.
Definition SLOT_LIVE : Z := 1.
Definition KEY_DERIVE_DOMAIN : bytes := domain "shadowpipe/reality/replay-store/key/v1".
Definition KEY_BINDING_DOMAIN : bytes := domain "shadowpipe/reality/replay-store/static-public/v1".
Definition HEADER_MAC_DOMAIN : bytes := domain "shadowpipe/reality/replay-store/header/v1".
Definition SLOT_MAC_DOMAIN : bytes := domain "shadowpipe/reality/replay-store/slot/v1".
Definition SID_DIGEST_DOMAIN : bytes := domain "shadowpipe/reality/replay-store/session-id/v1".

(** The [io::Error]s of opening and the [String] errors of loading, without their text. *)
Inductive StoreError :=
  InvalidInput | PathRefused | LeaseNotEmpty | WouldBlock | StaticKeyMismatch | Corrupt.

Record ReplayEntry := mkReplayEntry { valid_until : Z; slot : option nat }.

(** The store file of the persistent backend. *)
Inductive ReplayBackend := Memory | Persistent (file : bytes).

(** [expiries] is the ordered set of (expiry, digest) pairs, as its sorted elements;
    the text of [fail_forward_reason] is erased. *)
Record ReplayState := mkReplayState {
  seen : gmap bytes ReplayEntry;
  expiries : list (Z * bytes);
  free_slots : list nat;
  generations : list Z;
  backend : ReplayBackend;
  fail_forward : bool;
}.

Record ReplayCache := mkReplayCache {
  state : ReplayState;
  lock_poisoned : bool;
  capacity : Z;
  digest_key : option bytes;
}.

Definition with_index (s : ReplayState) (se : gmap bytes ReplayEntry) (ex : list (Z * bytes))
    (fr : list nat) : ReplayState :=
  mkReplayState se ex fr (generations s) (backend s) (fail_forward s).

(** ** Ordered sets *)

Definition expiry_cmp (a b : Z * bytes) : comparison :=
  match a.1 ?= b.1 with Eq => bytes_cmp a.2 b.2 | c => c end.

Fixpoint expiry_insert (x : Z * bytes) (l : list (Z * bytes)) : list (Z * bytes) :=
  match l with
  | [] => [x]
  | y :: l' => match expiry_cmp x y with
               | Lt => x :: l
               | Eq => l
               | Gt => y :: expiry_insert x l'
               end
  end.

Definition expiry_remove (x : Z * bytes) (l : list (Z * bytes)) : list (Z * bytes) :=
  filter (λ y, y ≠ x) l.

(** ** Pruning *)

Fixpoint prune_expired (budget : nat) (s : ReplayState) (now : Z) : ReplayState :=
  match budget with
  | O => s
  | S budget =>
      match expiries s with
      | [] => s
      | (until, digest) :: _ =>
          if now <=? until then s else
          let ex := expiry_remove (until, digest) (expiries s) in
          let s :=
            match seen s !! digest with
            | Some entry =>
                if valid_until entry =? until
                then with_index s (delete digest (seen s)) ex
                       (match slot entry with
                        | Some k => free_slots s ++ [k]
                        | None => free_slots s
                        end)
                else with_index s (seen s) ex (free_slots s)
            | None => with_index s (seen s) ex (free_slots s)
            end in
          prune_expired budget s now
      end
  end.

Definition remove_entry (s : ReplayState) (digest : bytes) (entry : ReplayEntry) : ReplayState :=
  with_index s (delete digest (seen s)) (expiry_remove (valid_until entry, digest) (expiries s))
    (match slot entry with Some k => free_slots s ++ [k] | None => free_slots s end).

Definition poison (s : ReplayState) : ReplayState :=
  mkReplayState (seen s) (expiries s) (free_slots s) (generations s) (backend s) true.

(** ** The store file *)

Definition slice (a b : nat) (l : bytes) : bytes := take (b - a) (drop a l).
Definition write_at (off : nat) (b : bytes) (f : bytes) : bytes :=
  take off f ++ b ++ drop (off + length b) f.
Definition slot_offset (k : nat) : nat := (HEADER_SIZE + k * SLOT_SIZE)%nat.
Definition slot_record (f : bytes) (k : nat) : bytes :=
  slice (slot_offset k) (slot_offset k + SLOT_SIZE) f.

Section Store.
Context `{C : ReplayCrypto}.

Definition derive_store_key (static_secret : bytes) : bytes :=
  hmac_sha256 static_secret KEY_DERIVE_DOMAIN.
Definition static_key_binding (static_secret : bytes) : bytes :=
  store_sha256 (KEY_BINDING_DOMAIN ++ x25519_public static_secret).
Definition digest_session_id (key sid : bytes) : bytes := hmac_sha256 key (SID_DIGEST_DOMAIN ++ sid).

Definition header_prefix (capacity : Z) (binding : bytes) : bytes :=
  STORE_MAGIC ++ be_bytes 2 STORE_VERSION ++ zeros 2 ++ be_bytes 4 (capacity mod 2 ^ 32)
    ++ be_bytes 4 (Z.of_nat SLOT_SIZE) ++ be_bytes 4 (Z.of_nat HEADER_SIZE) ++ binding ++ zeros 8.
Definition encode_header (capacity : Z) (binding key : bytes) : bytes :=
  let header := header_prefix capacity binding in
  header ++ hmac_sha256 key (HEADER_MAC_DOMAIN ++ header).

Definition validate_header (header : bytes) (capacity : Z) (binding key : bytes)
  : result StoreError () :=
  if bool_decide (slice 0 8 header ≠ STORE_MAGIC)
     || negb (be_value (slice 8 10 header) =? STORE_VERSION)
     || bool_decide (slice 10 12 header ≠ zeros 2)
     || negb (be_value (slice 12 16 header) =? capacity)
     || negb (be_value (slice 16 20 header) =? Z.of_nat SLOT_SIZE)
     || negb (be_value (slice 20 24 header) =? Z.of_nat HEADER_SIZE)
     || bool_decide (slice 56 64 header ≠ zeros 8) then Err Corrupt else
  if bool_decide (slice 24 56 header ≠ binding) then Err StaticKeyMismatch else
  if bool_decide (slice 64 96 header ≠ hmac_sha256 key (HEADER_MAC_DOMAIN ++ slice 0 64 header))
  then Err Corrupt else Ok ().

Definition slot_prefix (generation until : Z) (digest : bytes) : bytes :=
  [bz SLOT_LIVE] ++ zeros 7 ++ be_bytes 8 generation ++ be_bytes 8 until ++ digest ++ zeros 8.
Definition slot_tag (k : nat) (key prefix : bytes) : bytes :=
  hmac_sha256 key (SLOT_MAC_DOMAIN ++ be_bytes 8 (Z.of_nat k) ++ prefix).
Definition encode_slot (k : nat) (generation until : Z) (digest key : bytes) : bytes :=
  let record := slot_prefix generation until digest in record ++ slot_tag k key record.

Definition decode_slot (k : nat) (record key : bytes)
  : result StoreError (option (Z * Z * bytes)) :=
  if forallb (λ b, bv b =? 0) record then Ok None else
  if negb (be_value (slice 0 1 record) =? SLOT_LIVE) || bool_decide (slice 1 8 record ≠ zeros 7)
     || bool_decide (slice 56 64 record ≠ zeros 8) then Err Corrupt else
  let generation := be_value (slice 8 16 record) in
  let until := be_value (slice 16 24 record) in
  if (generation =? 0) || (until =? 0) then Err Corrupt else
  if bool_decide (slice 64 96 record ≠ slot_tag k key (slice 0 64 record))
  then Err Corrupt else Ok (Some (generation, until, slice 24 56 record)).

(** The body of the loop of [load_store]; the first component is
    [active_digest_slots]. *)
Definition load_slot (f : bytes) (key : bytes) (now : Z)
    (st : gmap bytes nat * ReplayState) (k : nat)
  : result StoreError (gmap bytes nat * ReplayState) :=
  let '(active, s) := st in
  decoded ← decode_slot k (slot_record f k) key;
  match decoded with
  | None => Ok (active, with_index s (seen s) (expiries s) (free_slots s ++ [k]))
  | Some (generation, until, digest) =>
      let s := mkReplayState (seen s) (expiries s) (free_slots s)
                 (<[k := generation]> (generations s)) (backend s) (fail_forward s) in
      if until <? now then Ok (active, with_index s (seen s) (expiries s) (free_slots s ++ [k]))
      else if bool_decide (is_Some (active !! digest)) then Err Corrupt else
      Ok (<[digest := k]> active,
          with_index s (<[digest := mkReplayEntry until (Some k)]> (seen s))
            (expiry_insert (until, digest) (expiries s)) (free_slots s))
  end.

Definition store_len (capacity : Z) : Z := Z.of_nat HEADER_SIZE + capacity * Z.of_nat SLOT_SIZE.

Definition load_store (s : ReplayState) (f : bytes) (capacity : Z) (binding key : bytes) (now : Z)
  : result StoreError ReplayState :=
  if negb (len f =? store_len capacity) then Err Corrupt else
  _ ← validate_header (take HEADER_SIZE f) capacity binding key;
  st ← fold_res (load_slot f key now) (∅, s) (seq 0 (Z.to_nat capacity));
  Ok st.2.

(** [open_persistent_with_capacity] once the files are open and locked: [existing] is the
    store's content, absent when the file was just created.  When loading fails, the
    generations read so far stay in the source's state; they are left at zero here, since a
    cache that fails forward never reads them. *)
Definition open_store (existing : option bytes) (static_secret : bytes) (capacity now : Z)
  : result StoreError ReplayCache :=
  let key := derive_store_key static_secret in
  let binding := static_key_binding static_secret in
  let f := match existing with
           | Some f => f
           | None => write_at 0 (encode_header capacity binding key)
                       (zeros (Z.to_nat (store_len capacity)))
           end in
  let s := mkReplayState ∅ [] [] (replicate (Z.to_nat capacity) 0) (Persistent f) false in
  match load_store s f capacity binding key now with
  | Ok s => Ok (mkReplayCache s false capacity (Some key))
  | Err StaticKeyMismatch => Err StaticKeyMismatch
  | Err _ =>
      Ok (mkReplayCache (mkReplayState ∅ [] [] (generations s) (backend s) true) false capacity
            (Some key))
  end.

(** What opening finds: whether the path checks and the opening of the lease file succeed,
    the length of a lease file that already existed, whether another process holds the
    lease, and the same of the store file, with its content if it existed. *)
Record StoreFiles := mkStoreFiles {
  lease_trusted : bool;
  lease_len : option Z;
  lease_held : bool;
  store_trusted : bool;
  store_content : option bytes;
  store_held : bool;
}.

Definition open_persistent_with_capacity (files : StoreFiles) (static_secret : bytes)
    (capacity now : Z) : result StoreError ReplayCache :=
  if (capacity =? 0) || (2 ^ 32 - 1 <? capacity) then Err InvalidInput else
  if negb (lease_trusted files) then Err PathRefused else
  let lease_length := default 0 (lease_len files) in
  if negb (lease_length =? 0) then Err LeaseNotEmpty else
  if lease_held files then Err WouldBlock else
  if negb (store_trusted files) then Err PathRefused else
  if store_held files then Err WouldBlock else
  open_store (store_content files) static_secret capacity now.

Definition open_persistent (files : StoreFiles) (static_secret : bytes) (now : Z)
  : result StoreError ReplayCache :=
  open_persistent_with_capacity files static_secret DEFAULT_REPLAY_CACHE_CAPACITY now.

Definition in_memory_with_capacity (capacity : Z) : ReplayCache :=
  mkReplayCache (mkReplayState ∅ [] [] [] Memory false) false capacity None.

(** Whether the [fail_forward_reason] method reports a reason. *)
Definition fail_forward_reason (cache : ReplayCache) : bool :=
  lock_poisoned cache || fail_forward (state cache).

(** ** Admission *)

(** The outcome of the durable write: done, or failed with the slot's bytes as the device
    left them. *)
Inductive WriteOutcome := Synced | Torn (left_behind : bytes).

Definition record_entry (s : ReplayState) (digest : bytes) (until : Z) (k : option nat)
  : ReplayState :=
  with_index s (<[digest := mkReplayEntry until k]> (seen s))
    (expiry_insert (until, digest) (expiries s)) (free_slots s).

Definition put_state (cache : ReplayCache) (s : ReplayState) : ReplayCache :=
  mkReplayCache s (lock_poisoned cache) (capacity cache) (digest_key cache).

(** [check_and_record] once the slot is chosen: the durable insert. *)
Definition insert_slot (cache : ReplayCache) (s : ReplayState) (f : bytes) (k : nat)
    (digest : bytes) (until : Z) (outcome : WriteOutcome) : ReplayCache * bool :=
  match u64_checked_add (default 0 (generations s !! k)) 1 with
  | None => (put_state cache (poison s), false)
  | Some generation =>
      let record := encode_slot k generation until digest (default [] (digest_key cache)) in
      match outcome with
      | Torn b =>
          (put_state cache
             (poison (mkReplayState (seen s) (expiries s) (free_slots s) (generations s)
                (Persistent (write_at (slot_offset k) b f)) (fail_forward s))), false)
      | Synced =>
          let s := mkReplayState (seen s) (expiries s) (free_slots s)
                     (<[k := generation]> (generations s))
                     (Persistent (write_at (slot_offset k) record f)) (fail_forward s) in
          (put_state cache (record_entry s digest until (Some k)), true)
      end
  end.

(** [check_and_record] from the choice of the slot on. *)
Definition insert_fresh (cache : ReplayCache) (s : ReplayState) (digest : bytes) (until : Z)
    (outcome : WriteOutcome) : ReplayCache * bool :=
  match backend s with
  | Memory =>
      if capacity cache <=? Z.of_nat (size (seen s)) then (put_state cache s, false)
      else (put_state cache (record_entry s digest until None), true)
  | Persistent f =>
      match free_slots s with
      | [] => (put_state cache s, false)
      | k :: free =>
          insert_slot cache (with_index s (seen s) (expiries s) free) f k digest until outcome
      end
  end.

Definition check_and_record (cache : ReplayCache) (sid : bytes) (now until : Z)
    (outcome : WriteOutcome) : ReplayCache * bool :=
  if until <? now then (cache, false) else
  let digest := match digest_key cache with Some key => digest_session_id key sid | None => sid end in
  if lock_poisoned cache then (cache, false) else
  if fail_forward (state cache) then (cache, false) else
  let s := prune_expired REPLAY_PRUNE_BUDGET (state cache) now in
  match seen s !! digest with
  | Some entry =>
      if now <=? valid_until entry then (put_state cache s, false)
      else insert_fresh cache (remove_entry s digest entry) digest until outcome
  | None => insert_fresh cache s digest until outcome
  end.

End Store.

(** ** Slices *)

Lemma slice_cat a b c l : (a ≤ b)%nat → (b ≤ c)%nat → slice a b l ++ slice b c l = slice a c l.
Proof.
  intros Hab Hbc. unfold slice. assert (drop b l = drop (b - a) (drop a l)) as ->
    by (rewrite drop_drop; f_equal; lia).
  rewrite take_take_drop. f_equal. lia.
Qed.

Lemma slice_length a b l : (b ≤ length l)%nat → length (slice a b l) = (b - a)%nat.
Proof. intros. unfold slice. rewrite length_take, length_drop. lia. Qed.

Lemma slice_all l n : length l = n → slice 0 n l = l.
Proof. intros <-. unfold slice. rewrite Nat.sub_0_r. apply firstn_all. Qed.

(** The parts of a concatenation are its slices. *)
Fixpoint parts_at (off : nat) (ps : list bytes) (l : bytes) : Prop :=
  match ps with
  | [] => True
  | p :: ps => slice off (off + length p) l = p ∧ parts_at (off + length p) ps l
  end.

Lemma parts_at_concat ps : ∀ pre, parts_at (length pre) ps (pre ++ concat ps).
Proof.
  induction ps as [|p ps IH]; intros pre; simpl; [done|]. split.
  - unfold slice. rewrite Nat.add_comm, Nat.add_sub, drop_app_length. apply take_app_length.
  - rewrite <- length_app, app_assoc. apply IH.
Qed.

(** ** Slot records *)

Section Codec.
Context {C : ReplayCrypto} {L : ReplayCryptoLaws C}.

Lemma length_zeros n : length (zeros n) = n.
Proof. apply length_replicate. Qed.

Lemma slot_parts k g v d key : length d = 32%nat →
  let r := encode_slot k g v d key in
  length r = 96%nat ∧ slice 0 1 r = [bz SLOT_LIVE] ∧ slice 1 8 r = zeros 7
  ∧ slice 8 16 r = be_bytes 8 g ∧ slice 16 24 r = be_bytes 8 v ∧ slice 24 56 r = d
  ∧ slice 56 64 r = zeros 8 ∧ slice 0 64 r = slot_prefix g v d
  ∧ slice 64 96 r = slot_tag k key (slot_prefix g v d).
Proof.
  intros Hd. cbn zeta. unfold encode_slot. set (tag := slot_tag _ _ _).
  assert (length tag = 32%nat) as Ht by apply hmac_length. clearbody tag.
  pose proof (parts_at_concat
    [[bz SLOT_LIVE]; zeros 7; be_bytes 8 g; be_bytes 8 v; d; zeros 8; tag] []) as H.
  unfold slot_prefix in *. cbn [concat] in H. rewrite !app_nil_r, !app_nil_l in H.
  rewrite <- !app_assoc. set (r := [bz SLOT_LIVE] ++ zeros 7 ++ be_bytes 8 g ++ be_bytes 8 v ++ d
    ++ zeros 8 ++ tag) in *.
  assert (length r = 96%nat) as Hr.
  { subst r. rewrite !length_app, !length_be_bytes, !length_zeros, Hd, Ht. done. }
  cbn [parts_at] in H. rewrite !length_be_bytes, !length_zeros, Hd, Ht in H. simpl in H.
  destruct H as (H0 & H1 & H2 & H3 & H4 & H5 & H6 & _). split_and!; try done.
  rewrite <- (slice_cat 0 1 64), <- (slice_cat 1 8 64), <- (slice_cat 8 16 64),
    <- (slice_cat 16 24 64), <- (slice_cat 24 56 64) by lia.
  by rewrite H0, H1, H2, H3, H4, H5.
Qed.

Lemma be_value_slice a b l : (b ≤ length l)%nat →
  be_bytes (b - a) (be_value (slice a b l)) = slice a b l.
Proof.
  intros Hb. rewrite <- (slice_length a b l Hb). apply be_bytes_be_value.
Qed.

Lemma be_value_slice_bound a b l : (b ≤ length l)%nat →
  0 ≤ be_value (slice a b l) < 2 ^ (8 * Z.of_nat (b - a)).
Proof.
  intros Hb. pose proof (be_value_bound (slice a b l)) as H. unfold len in H.
  by rewrite slice_length in H.
Qed.

(** A record decodes to a live entry exactly when it is the encoding of that entry for
    this slot. *)
Lemma decode_slot_Ok k r key g v d : length r = 96%nat →
  decode_slot k r key = Ok (Some (g, v, d)) ↔
  r = encode_slot k g v d key ∧ 1 ≤ g < 2 ^ 64 ∧ 1 ≤ v < 2 ^ 64 ∧ length d = 32%nat.
Proof.
  intros Hr. unfold decode_slot. split.
  - destruct (forallb _ r); [done|]. intros [Hp H]%if_err_Ok.
    rewrite !orb_false_iff, negb_false_iff, Z.eqb_eq, !bool_decide_eq_false in Hp.
    destruct Hp as [[H0 H1] H5]. apply dec_stable in H1, H5.
    apply if_err_Ok in H as [Hgv H]. rewrite orb_false_iff, !Z.eqb_neq in Hgv.
    apply if_err_Ok in H as [Ht H]. apply bool_decide_eq_false, dec_stable in Ht.
    injection H as <- <- <-.
    pose proof (be_value_slice_bound 8 16 r ltac:(lia)) as Hb1.
    pose proof (be_value_slice_bound 16 24 r ltac:(lia)) as Hb2.
    change (2 ^ (8 * Z.of_nat (16 - 8))) with (2 ^ 64) in Hb1.
    change (2 ^ (8 * Z.of_nat (24 - 16))) with (2 ^ 64) in Hb2.
    split_and!; [|lia|lia|lia|lia|by rewrite slice_length by lia].
    assert (slice 0 64 r = slot_prefix (be_value (slice 8 16 r)) (be_value (slice 16 24 r))
              (slice 24 56 r)) as Hpre.
    { unfold slot_prefix.
      rewrite (be_value_slice 8 16 r ltac:(lia) : be_bytes 8 _ = _).
      rewrite (be_value_slice 16 24 r ltac:(lia) : be_bytes 8 _ = _).
      assert (slice 0 1 r = [bz SLOT_LIVE]) as <-.
      { rewrite <- (be_value_slice 0 1 r) by lia. by rewrite H0. }
      rewrite <- H1, <- H5. rewrite !slice_cat by lia. done. }
    unfold encode_slot. rewrite <- Hpre, <- Ht, slice_cat by lia. symmetry. by apply slice_all.
  - intros (-> & Hg & Hv & Hd).
    destruct (slot_parts k g v d key Hd) as (_ & H0 & H1 & H2 & H3 & H4 & H5 & H6 & H7).
    assert (forallb (λ b, bv b =? 0) (encode_slot k g v d key) = false) as -> by done.
    rewrite H0, H1, H2, H3, H4, H5, H6, H7, !be_value_be_bytes_small by lia.
    rewrite !bool_decide_eq_false_2 by (intros Hne; by apply Hne).
    assert ((be_value [bz SLOT_LIVE] =? SLOT_LIVE) = true) as -> by (vm_compute; reflexivity).
    simpl. by replace ((g =? 0) || (v =? 0)) with false by lia.
Qed.

(** Slot records are authenticated and canonical: a 96-byte record decodes to a live
    entry exactly when it is the encoding of that entry for that very slot, with a non-zero
    generation and expiry; and the header validates exactly when it is the one the store
    would write for this capacity and key. *)
Theorem store_records_canonical (k : nat) (r key binding : bytes) (g v cap : Z) (d : bytes) :
  length r = 96%nat →
  (decode_slot k r key = Ok (Some (g, v, d)) ↔
     r = encode_slot k g v d key ∧ 1 ≤ g < 2 ^ 64 ∧ 1 ≤ v < 2 ^ 64 ∧ length d = 32%nat)
  ∧ (length binding = 32%nat → is_u 32 cap →
     validate_header r cap binding key = Ok () ↔ r = encode_header cap binding key).
Proof.
  intros Hr. split; [by apply decode_slot_Ok|]. intros Hb Hcap. split.
  - unfold validate_header. intros [Hp H]%if_err_Ok.
    rewrite !orb_false_iff, !negb_false_iff, !Z.eqb_eq, !bool_decide_eq_false in Hp.
    destruct Hp as [[[[[[Hm Hv] Hz] Hc] Hs] Hh] H8]. apply dec_stable in Hm, Hz, H8.
    apply if_err_Ok in H as [Hbi%bool_decide_eq_false%dec_stable H].
    apply if_err_Ok in H as [Ht%bool_decide_eq_false%dec_stable _].
    assert (slice 0 64 r = header_prefix cap binding) as Hpre.
    { unfold header_prefix. rewrite Z.mod_small by done.
      rewrite <- Hc, <- Hs, <- Hh, <- Hv, <- Hm, <- Hz, <- H8, <- Hbi.
      rewrite (be_value_slice 8 10 r ltac:(lia) : be_bytes 2 _ = _).
      rewrite (be_value_slice 12 16 r ltac:(lia) : be_bytes 4 _ = _).
      rewrite (be_value_slice 16 20 r ltac:(lia) : be_bytes 4 _ = _).
      rewrite (be_value_slice 20 24 r ltac:(lia) : be_bytes 4 _ = _).
      rewrite !slice_cat by lia. done. }
    unfold encode_header. rewrite <- Hpre, <- Ht, slice_cat by lia. symmetry. by apply slice_all.
  - intros ->. unfold validate_header, encode_header.
    set (tag := hmac_sha256 key _). assert (length tag = 32%nat) as Htag by apply hmac_length.
    pose proof (parts_at_concat [STORE_MAGIC; be_bytes 2 STORE_VERSION; zeros 2;
      be_bytes 4 (cap mod 2 ^ 32); be_bytes 4 (Z.of_nat SLOT_SIZE);
      be_bytes 4 (Z.of_nat HEADER_SIZE); binding; zeros 8; tag] []) as H.
    cbn [concat] in H. rewrite !app_nil_r, !app_nil_l in H.
    assert (slice 0 64 (header_prefix cap binding ++ tag) = header_prefix cap binding) as Hpre.
    { unfold slice. cbn [drop]. apply take_app_length'. unfold header_prefix.
      rewrite !length_app, !length_be_bytes, !length_zeros, Hb. done. }
    rewrite Hpre. fold tag. assert (header_prefix cap binding ++ tag = STORE_MAGIC
      ++ be_bytes 2 STORE_VERSION ++ zeros 2 ++ be_bytes 4 (cap mod 2 ^ 32)
      ++ be_bytes 4 (Z.of_nat SLOT_SIZE) ++ be_bytes 4 (Z.of_nat HEADER_SIZE) ++ binding
      ++ zeros 8 ++ tag) as Hh by (unfold header_prefix; by rewrite <- !app_assoc).
    rewrite Hh. clear Hh. clearbody tag. set (h := STORE_MAGIC ++ _) in *.
    cbn [parts_at] in H. rewrite !length_be_bytes, !length_zeros, Hb, Htag in H.
    change (length STORE_MAGIC) with 8%nat in H. simpl in H.
    destruct H as (H0 & H1 & H2 & H3 & H4 & H5 & H6 & H7 & H8 & _).
    rewrite H0, H1, H2, H3, H4, H5, H6, H7, H8, Z.mod_small by done.
    rewrite !be_value_be_bytes_small by (done || (split; vm_compute; congruence)).
    rewrite !bool_decide_eq_false_2 by (intros Hne; by apply Hne). by rewrite !Z.eqb_refl.
Qed.
End Codec.

(** ** Safety over admissions and restarts *)

(** Writing a slot leaves the other slots and the length alone. *)
Lemma write_at_length off b f : (off + length b ≤ length f)%nat → length (write_at off b f) = length f.
Proof. intros. unfold write_at. rewrite !length_app, length_take, length_drop. lia. Qed.

Definition file_fits (cap : nat) (f : bytes) : Prop := length f = (HEADER_SIZE + cap * SLOT_SIZE)%nat.

Lemma slot_fits cap f k : file_fits cap f → (k < cap)%nat →
  (slot_offset k + SLOT_SIZE ≤ length f)%nat.
Proof. unfold file_fits, slot_offset, HEADER_SIZE, SLOT_SIZE. nia. Qed.

Lemma slot_record_length cap f k : file_fits cap f → (k < cap)%nat → length (slot_record f k) = 96%nat.
Proof.
  intros Hf Hk. unfold slot_record. rewrite slice_length by (by eapply slot_fits).
  unfold SLOT_SIZE. lia.
Qed.

Lemma write_slot_same cap f k b : file_fits cap f → (k < cap)%nat → length b = 96%nat →
  slot_record (write_at (slot_offset k) b f) k = b.
Proof.
  intros Hf Hk Hb. pose proof (slot_fits _ _ _ Hf Hk). unfold slot_record, slice, write_at.
  rewrite drop_app_ge by (rewrite length_take; lia). rewrite length_take, Nat.min_l by lia.
  rewrite Nat.sub_diag. cbn [drop]. apply take_app_length'. unfold SLOT_SIZE. lia.
Qed.

Lemma lookup_write_at_ne off b f i : (off + length b ≤ length f)%nat →
  (i < off ∨ off + length b ≤ i)%nat → write_at off b f !! i = f !! i.
Proof.
  intros Hl [Hi|Hi]; unfold write_at.
  - rewrite lookup_app_l by (rewrite length_take; lia). by apply lookup_take_lt.
  - rewrite lookup_app_r by (rewrite length_take; lia). rewrite length_take, Nat.min_l by lia.
    rewrite lookup_app_r by lia. rewrite lookup_drop. f_equal. lia.
Qed.

Lemma slice_ext a b l1 l2 : (∀ i, a ≤ i < b → l1 !! i = l2 !! i)%nat → slice a b l1 = slice a b l2.
Proof.
  intros H. apply list_eq. intros i. unfold slice. destruct (decide (i < b - a)%nat).
  - rewrite !lookup_take_lt, !lookup_drop by done. apply H. lia.
  - rewrite !lookup_take_ge by lia. done.
Qed.

Lemma write_slot_other cap f k j b : file_fits cap f → (k < cap)%nat → (j < cap)%nat →
  length b = 96%nat → j ≠ k → slot_record (write_at (slot_offset k) b f) j = slot_record f j.
Proof.
  intros Hf Hk Hj Hb Hne. pose proof (slot_fits _ _ _ Hf Hk). pose proof (slot_fits _ _ _ Hf Hj).
  apply slice_ext. intros i Hi. unfold SLOT_SIZE in *. apply lookup_write_at_ne; [lia|].
  unfold slot_offset, HEADER_SIZE, SLOT_SIZE in *. rewrite Hb. nia.
Qed.

(** The index of a running cache: slots are in use or free, never both, and every live
    entry has its own slot. *)
Record index_ok (cap : nat) (s : ReplayState) : Prop := {
  ix_slot : ∀ d e, seen s !! d = Some e → ∃ k, slot e = Some k ∧ (k < cap)%nat ∧ k ∉ free_slots s;
  ix_inj : ∀ d1 d2 e1 e2, seen s !! d1 = Some e1 → seen s !! d2 = Some e2 →
    slot e1 = slot e2 → d1 = d2;
  ix_free : NoDup (free_slots s) ∧ ∀ k, k ∈ free_slots s → (k < cap)%nat;
  ix_generations : length (generations s) = cap ∧ Forall (λ g, 0 ≤ g) (generations s);
}.

Lemma index_ok_remove cap s d e ex : index_ok cap s → seen s !! d = Some e →
  index_ok cap (with_index s (delete d (seen s)) ex
    (match slot e with Some k => free_slots s ++ [k] | None => free_slots s end)).
Proof.
  intros [Hs Hi [Hf Hfc] Hg] He. destruct (Hs d e He) as (k & Hk & Hkc & Hkf). rewrite Hk.
  split; cbn [seen free_slots generations with_index]; [| | |done].
  - intros d' e' [Hne He']%lookup_delete_Some. destruct (Hs d' e' He') as (k' & Hk' & Hkc' & Hkf').
    exists k'. split_and!; [done..|]. rewrite elem_of_app, list_elem_of_singleton.
    intros [?| ->]; [done|]. apply Hne. symmetry. eapply Hi; [done..|congruence].
  - intros d1 d2 e1 e2 [_ H1]%lookup_delete_Some [_ H2]%lookup_delete_Some. by eapply Hi.
  - split.
    + apply NoDup_app. split_and!; [done| |apply NoDup_singleton].
      intros x Hx. rewrite list_elem_of_singleton. by intros ->.
    + intros x. rewrite elem_of_app, list_elem_of_singleton. intros [?| ->]; [by apply Hfc|done].
Qed.

Lemma index_ok_expiries cap s ex : index_ok cap s → index_ok cap (with_index s (seen s) ex (free_slots s)).
Proof. intros [? ? ? ?]. by split. Qed.

(** Pruning keeps the index and every entry that is still valid. *)
Lemma prune_expired_ok budget cap now : ∀ s, index_ok cap s →
  index_ok cap (prune_expired budget s now)
  ∧ backend (prune_expired budget s now) = backend s
  ∧ fail_forward (prune_expired budget s now) = fail_forward s
  ∧ (∀ d e, seen s !! d = Some e → now ≤ valid_until e →
       seen (prune_expired budget s now) !! d = Some e).
Proof.
  induction budget as [|budget IH]; intros s Hok; cbn [prune_expired]; [done|].
  destruct (expiries s) as [|[until d0] ex]; [done|].
  destruct (Z.leb_spec now until) as [|Hlt]; [done|].
  destruct (seen s !! d0) as [e0|] eqn:He0.
  - destruct (Z.eqb_spec (valid_until e0) until) as [Hv|Hv].
    + destruct (IH _ (index_ok_remove cap s d0 e0
        (expiry_remove (until, d0) ((until, d0) :: ex)) Hok He0)) as (H1 & H2 & H3 & H4).
      split_and!; [done..|]. intros d e Hd Hn. apply H4; [|done]. cbn [seen with_index].
      rewrite lookup_delete_ne; [done|]. intros ->. assert (e = e0) as -> by congruence. lia.
    + destruct (IH _ (index_ok_expiries cap s (expiry_remove (until, d0) ((until, d0) :: ex)) Hok))
        as (H1 & H2 & H3 & H4). done.
  - destruct (IH _ (index_ok_expiries cap s (expiry_remove (until, d0) ((until, d0) :: ex)) Hok))
      as (H1 & H2 & H3 & H4). done.
Qed.

(** ** Loading *)

Section Load.
Context {C : ReplayCrypto} {L : ReplayCryptoLaws C}.
Context (f key : bytes) (now : Z) (cap : nat).

Record load_inv (pre : list nat) (st : gmap bytes nat * ReplayState) : Prop := {
  li_seen : ∀ d e, seen st.2 !! d = Some e → ∃ k g, slot e = Some k ∧ k ∈ pre
    ∧ (k ∉ free_slots st.2) ∧ decode_slot k (slot_record f k) key = Ok (Some (g, valid_until e, d))
    ∧ st.1 !! d = Some k;
  li_free : NoDup (free_slots st.2) ∧ ∀ k, k ∈ free_slots st.2 → k ∈ pre;
  li_live : ∀ k g v d, k ∈ pre → decode_slot k (slot_record f k) key = Ok (Some (g, v, d)) →
    now ≤ v → seen st.2 !! d = Some (mkReplayEntry v (Some k));
  li_generations : length (generations st.2) = cap ∧ Forall (λ g, 0 ≤ g) (generations st.2);
  li_rest : backend st.2 = Persistent f ∧ fail_forward st.2 = false;
}.

Lemma load_free_step pre st k gs : k ∉ pre → load_inv pre st →
  length gs = cap → Forall (λ g, 0 ≤ g) gs →
  (∀ g v d, decode_slot k (slot_record f k) key = Ok (Some (g, v, d)) → v < now) →
  load_inv (pre ++ [k]) (st.1, mkReplayState (seen st.2) (expiries st.2) (free_slots st.2 ++ [k])
                                 gs (backend st.2) (fail_forward st.2)).
Proof.
  intros Hk [Hs [Hf1 Hf2] Hl Hg Hr] Hgl Hgn Hdec. split; cbn [fst snd seen free_slots]; [| | |done|done].
  - intros d e He. destruct (Hs d e He) as (j & g & Hj & Hjp & Hjf & Hd & Ha). exists j, g.
    rewrite !elem_of_app, list_elem_of_singleton. split_and!; try done; [by left|].
    intros [?| ->]; done.
  - split.
    + apply NoDup_app. split_and!; [done| |apply NoDup_singleton].
      intros x Hx. rewrite list_elem_of_singleton. intros ->. by apply Hk, Hf2.
    + intros x. rewrite !elem_of_app. intros [?|?]; [left; by apply Hf2|by right].
  - intros j g v d Hj Hd Hv. rewrite elem_of_app, list_elem_of_singleton in Hj.
    destruct Hj as [Hj| ->]; [by eapply Hl|]. specialize (Hdec g v d Hd). lia.
Qed.

Lemma load_slot_step pre st k st' : (k < cap)%nat → k ∉ pre → length (slot_record f k) = 96%nat →
  load_inv pre st → load_slot f key now st k = Ok st' → load_inv (pre ++ [k]) st'.
Proof.
  intros Hkc Hk Hlen Hinv H. destruct st as [active s]. unfold load_slot in H.
  apply bind_Ok in H as (decoded & Hd & H). assert (Hinv' := Hinv).
  destruct Hinv' as [Hs [Hf1 Hf2] Hl [Hg1 Hg2] [Hb Hff]]. cbn [fst snd] in *.
  destruct decoded as [[[g v] d]|].
  2:{ injection H as <-. apply (load_free_step pre (active, s) k (generations s)); try done.
      intros g v d Hd'. congruence. }
  assert (0 ≤ g) as Hg0 by (apply decode_slot_Ok in Hd as (_ & ? & _); [lia|done]).
  assert (length (<[k := g]> (generations s)) = cap) as Hgl by (by rewrite length_insert).
  assert (Forall (λ g, 0 ≤ g) (<[k := g]> (generations s))) as Hgn by (by apply Forall_insert).
  destruct (Z.ltb_spec v now) as [Hv|Hv].
  { injection H as <-. apply (load_free_step pre (active, s) k); try done.
    intros g' v' d' Hd'. rewrite Hd in Hd'. by injection Hd' as <- <- <-. }
  apply if_err_Ok in H as [Ha H]. apply bool_decide_eq_false, eq_None_not_Some in Ha.
  injection H as <-. assert (seen s !! d = None) as Hsd.
  { destruct (seen s !! d) as [e|] eqn:He; [|done].
    destruct (Hs d e He) as (? & ? & _ & _ & _ & _ & ?). congruence. }
  split; cbn [fst snd seen free_slots generations backend fail_forward with_index]; [| | |done|done].
  - intros d' e' [[<- <-]|[Hne He']]%lookup_insert_Some.
    + exists k, g. rewrite elem_of_app, list_elem_of_singleton, lookup_insert_eq.
      split_and!; try done; [by right|]. intros Hkf. by apply Hk, Hf2.
    + destruct (Hs d' e' He') as (j & g' & Hj & Hjp & Hjf & Hd' & Ha'). exists j, g'.
      rewrite elem_of_app, lookup_insert_ne by done. split_and!; try done. by left.
  - split; [done|]. intros x Hx. apply elem_of_app. left. by apply Hf2.
  - intros j g' v' d' Hj Hd' Hv'. rewrite elem_of_app, list_elem_of_singleton in Hj.
    destruct Hj as [Hj| ->].
    + specialize (Hl j g' v' d' Hj Hd' Hv'). rewrite lookup_insert_ne; [done|]. intros ->. congruence.
    + rewrite Hd in Hd'. injection Hd' as <- <- <-. by rewrite lookup_insert_eq.
Qed.

(** A loaded store knows every entry of the file that is still valid. *)
Lemma load_store_ok binding ex s' :
  load_store (mkReplayState ∅ ex [] (replicate cap 0) (Persistent f) false) f (Z.of_nat cap)
    binding key now = Ok s' →
  file_fits cap f ∧ index_ok cap s' ∧ backend s' = Persistent f ∧ fail_forward s' = false
  ∧ ∀ k g v d, (k < cap)%nat → decode_slot k (slot_record f k) key = Ok (Some (g, v, d)) →
      now ≤ v → seen s' !! d = Some (mkReplayEntry v (Some k)).
Proof.
  unfold load_store. intros [Hlen H]%if_err_Ok.
  rewrite negb_false_iff, Z.eqb_eq in Hlen.
  assert (file_fits cap f) as Hfit.
  { unfold file_fits, store_len, len, HEADER_SIZE, SLOT_SIZE in *. lia. }
  apply bind_Ok in H as ([] & _ & H). apply bind_Ok in H as (st & Hf & [= <-]).
  rewrite Nat2Z.id in Hf.
  assert (load_inv (seq 0 cap) st) as Hinv.
  { revert Hf. apply fold_res_ind.
    - split; cbn [fst snd seen free_slots generations backend fail_forward].
      + intros d e He. by rewrite lookup_empty in He.
      + split; [constructor|]. intros k Hk. by apply not_elem_of_nil in Hk.
      + intros k g v d Hk. by apply not_elem_of_nil in Hk.
      + split; [apply length_replicate|]. apply Forall_replicate. lia.
      + done.
    - intros pre k t t' [rest Hpre] Hinv Hstep.
      assert (NoDup (pre ++ [k])) as Hnd.
      { pose proof (NoDup_seq 0 cap) as Hnd. rewrite Hpre in Hnd. by apply NoDup_app in Hnd as [? _]. }
      assert (k ∈ seq 0 cap) as Hk%elem_of_seq.
      { rewrite Hpre, !elem_of_app, list_elem_of_singleton. auto. }
      eapply load_slot_step; [| | |exact Hinv|exact Hstep]; [lia| |].
      + apply NoDup_app in Hnd as (_ & Hnd & _). intros Hin. by eapply (Hnd k Hin), list_elem_of_singleton.
      + eapply slot_record_length; [done|lia]. }
  destruct Hinv as [Hs [Hf1 Hf2] Hl Hg [Hb Hff]]. split_and!; try done.
  - split; [| |split; [done|]|done].
    + intros d e He. destruct (Hs d e He) as (k & g & Hk & Hks%elem_of_seq & Hkf & _).
      exists k. split_and!; [done|lia|done].
    + intros d1 d2 e1 e2 H1 H2 He. destruct (Hs d1 e1 H1) as (k1 & g1 & Hk1 & _ & _ & Hd1 & _).
      destruct (Hs d2 e2 H2) as (k2 & g2 & Hk2 & _ & _ & Hd2 & _). simplify_eq.
      assert (k1 = k2) as -> by congruence. congruence.
    + intros k Hk%Hf2%elem_of_seq. lia.
  - intros k g v d Hk Hd Hv. eapply Hl; [|done..]. apply elem_of_seq. lia.
Qed.
End Load.

(** ** Admission *)

Section Safety.
Context {C : ReplayCrypto} {L : ReplayCryptoLaws C}.
Context (secret : bytes) (cap : nat).

Let key : bytes := derive_store_key secret.

(** The digest under which the server files a session id. *)
Definition filed (sid : bytes) : bytes := digest_session_id (derive_store_key secret) sid.

(** At time [t], with [h] the session ids admitted so far and their expiries: every one
    that is still valid is on disk in a slot of its own and, while the cache operates, in
    the index. *)
Record safe (t : Z) (h : list (bytes * Z)) (c : ReplayCache) : Prop := {
  sf_key : digest_key c = Some key;
  sf_cap : capacity c = Z.of_nat cap;
  sf_file : ∃ f, backend (state c) = Persistent f
    ∧ (fail_forward (state c) = false → file_fits cap f ∧ index_ok cap (state c))
    ∧ ∀ sid v, (sid, v) ∈ h → t ≤ v → file_fits cap f ∧ ∃ k g, (k < cap)%nat
        ∧ decode_slot k (slot_record f k) key = Ok (Some (g, v, filed sid))
        ∧ (fail_forward (state c) = false →
             seen (state c) !! filed sid = Some (mkReplayEntry v (Some k)));
}.

Lemma safe_mono t t' h c : t ≤ t' → safe t h c → safe t' h c.
Proof.
  intros Ht [Hk Hc (f & Hb & Hi & Hh)]. split; [done..|]. exists f. split_and!; [done..|].
  intros sid v Hin Hv. apply Hh; [done|lia].
Qed.

(** The state of a cache that operates. *)
Record running (t : Z) (h : list (bytes * Z)) (f : bytes) (s : ReplayState) : Prop := {
  rn_backend : backend s = Persistent f;
  rn_ok : fail_forward s = false;
  rn_fits : file_fits cap f;
  rn_index : index_ok cap s;
  rn_live : ∀ sid v, (sid, v) ∈ h → t ≤ v → ∃ k g, (k < cap)%nat
    ∧ decode_slot k (slot_record f k) key = Ok (Some (g, v, filed sid))
    ∧ seen s !! filed sid = Some (mkReplayEntry v (Some k));
}.

Lemma running_safe t h f s : running t h f s →
  ∀ lp, safe t h (mkReplayCache s lp (Z.of_nat cap) (Some key)).
Proof.
  intros [Hb Hf Hfit Hi Hl] lp. split; [done..|]. exists f. cbn [state]. split_and!; [done..|].
  intros sid v Hin Hv. split; [done|].
  destruct (Hl sid v Hin Hv) as (k & g & ? & ? & ?). by exists k, g.
Qed.

Lemma safe_running t h c : safe t h c → fail_forward (state c) = false →
  ∃ f, running t h f (state c).
Proof.
  intros [_ _ (f & Hb & Hi & Hh)] Hf. destruct (Hi Hf) as [? ?]. exists f. split; try done.
  intros sid v Hin Hv. destruct (Hh sid v Hin Hv) as (_ & k & g & ? & ? & Hs).
  exists k, g. split_and!; [done..|by apply Hs].
Qed.

(** A poisoned cache is safe as soon as the disk still has the live entries. *)
Lemma poison_safe t h f s lp : file_fits cap f → backend s = Persistent f →
  (∀ sid v, (sid, v) ∈ h → t ≤ v → ∃ k g, (k < cap)%nat
     ∧ decode_slot k (slot_record f k) key = Ok (Some (g, v, filed sid))) →
  safe t h (mkReplayCache (poison s) lp (Z.of_nat cap) (Some key)).
Proof.
  intros Hfit Hb Hl. split; [done..|]. exists f. cbn [state poison backend fail_forward].
  split_and!; [done|done|]. intros sid v Hin Hv. split; [done|].
  destruct (Hl sid v Hin Hv) as (k & g & ? & ?). by exists k, g.
Qed.

Lemma prune_running t h f s now : t ≤ now → running t h f s →
  running now h f (prune_expired REPLAY_PRUNE_BUDGET s now).
Proof.
  intros Ht [Hb Hf Hfit Hi Hl].
  destruct (prune_expired_ok REPLAY_PRUNE_BUDGET cap now s Hi) as (H1 & H2 & H3 & H4).
  split; [by rewrite H2|by rewrite H3|done|done|].
  intros sid v Hin Hv. destruct (Hl sid v Hin ltac:(lia)) as (k & g & ? & ? & Hs).
  exists k, g. split_and!; [done..|]. by apply H4.
Qed.

(** Removing an expired entry. *)
Lemma remove_running now h f s d e : running now h f s → seen s !! d = Some e →
  valid_until e < now → running now h f (remove_entry s d e).
Proof.
  intros [Hb Hf Hfit Hi Hl] He Hlt. split; try done; [by apply index_ok_remove|].
  intros sid v Hin Hv. destruct (Hl sid v Hin Hv) as (k & g & ? & ? & Hs).
  exists k, g. split_and!; [done..|]. cbn [seen remove_entry with_index].
  rewrite lookup_delete_ne; [done|]. intros ->. assert (e = mkReplayEntry v (Some k)) as ->
    by congruence. simpl in Hlt. lia.
Qed.

(** Writing the slot at the head of the free list does not touch a live entry. *)
Lemma write_running now h f s k free b : running now h f s → free_slots s = k :: free →
  length b = 96%nat →
  file_fits cap (write_at (slot_offset k) b f) ∧ (k < cap)%nat ∧ (k ∉ free)
  ∧ ∀ sid v, (sid, v) ∈ h → now ≤ v → ∃ j g, (j < cap)%nat ∧ j ≠ k
     ∧ decode_slot j (slot_record (write_at (slot_offset k) b f) j) key
       = Ok (Some (g, v, filed sid))
     ∧ seen s !! filed sid = Some (mkReplayEntry v (Some j)).
Proof.
  intros [Hb Hf Hfit [Hs Hinj [Hfn Hfc] Hg] Hl] Hfr Hbl.
  assert (k < cap)%nat as Hk by (apply Hfc; rewrite Hfr; by left).
  rewrite Hfr in Hfn. apply NoDup_cons in Hfn as [Hkf _]. split_and!; [|done|done|].
  - unfold file_fits in *. rewrite write_at_length; [done|].
    pose proof (slot_fits cap f k Hfit Hk). unfold SLOT_SIZE in *. lia.
  - intros sid v Hin Hv. destruct (Hl sid v Hin Hv) as (j & g & Hj & Hd & He). exists j, g.
    assert (j ≠ k) as Hne.
    { intros ->. destruct (Hs _ _ He) as (k' & [= <-] & _ & Hk'). apply Hk'. rewrite Hfr. by left. }
    split_and!; try done. by rewrite (write_slot_other cap).
Qed.

Lemma filed_length sid : length (filed sid) = 32%nat.
Proof. apply hmac_length. Qed.

(** A durable insert into the slot at the head of the free list. *)
Lemma insert_running now h f s k free sid until g :
  running now h f s → free_slots s = k :: free → seen s !! filed sid = None →
  1 ≤ g < 2 ^ 64 → 1 ≤ until < 2 ^ 64 →
  running now ((sid, until) :: h) (write_at (slot_offset k) (encode_slot k g until (filed sid) key) f)
    (record_entry (mkReplayState (seen s) (expiries s) free (<[k := g]> (generations s))
       (Persistent (write_at (slot_offset k) (encode_slot k g until (filed sid) key) f))
       (fail_forward s)) (filed sid) until (Some k)).
Proof.
  intros Hrun Hfr Hnew Hg Hu. pose proof (filed_length sid) as Hdl.
  assert (length (encode_slot k g until (filed sid) key) = 96%nat) as Hel
    by (by apply slot_parts).
  set (b := encode_slot k g until (filed sid) key) in *.
  destruct (write_running now h f s k free b Hrun Hfr Hel) as (Hfit' & Hk & Hkf & Hlive).
  assert (Hrun' := Hrun). destruct Hrun' as [Hb Hf Hfit [Hs Hinj [Hfn Hfc] [Hg1 Hg2]] Hl].
  split; try done.
  - split; cbn [seen free_slots generations record_entry with_index].
    + intros d e [[<- <-]|[Hne He]]%lookup_insert_Some; [by exists k|].
      destruct (Hs d e He) as (j & Hj & Hjc & Hjf). exists j. split_and!; [done..|].
      intros Hin. apply Hjf. rewrite Hfr. by right.
    + assert (∀ d e, seen s !! d = Some e → slot e ≠ Some k) as Hnk.
      { intros d e He Hsl. destruct (Hs d e He) as (j & Hj & _ & Hjf). apply Hjf.
        rewrite Hfr. assert (j = k) as -> by congruence. by left. }
      intros d1 d2 e1 e2 [[<- <-]|[_ H1]]%lookup_insert_Some [[<- <-]|[_ H2]]%lookup_insert_Some He.
      * done.
      * destruct (Hnk _ _ H2). by rewrite <- He.
      * by destruct (Hnk _ _ H1).
      * by eapply Hinj.
    + rewrite Hfr in Hfn, Hfc. apply NoDup_cons in Hfn as [_ Hfn]. split; [done|].
      intros j Hj. apply Hfc. by right.
    + split; [by rewrite length_insert|]. apply Forall_insert; [done|lia].
  - intros sid' v Hin Hv. cbn [seen record_entry with_index].
    assert (slot_record (write_at (slot_offset k) b f) k = b) as Hrec by (by eapply write_slot_same).
    rewrite elem_of_cons in Hin. destruct Hin as [[= -> ->]|Hin].
    + exists k, g. rewrite lookup_insert_eq, Hrec. split_and!; [done| |done].
      by apply decode_slot_Ok.
    + destruct (Hlive sid' v Hin Hv) as (j & g' & Hj & Hne & Hd & He). exists j, g'.
      split_and!; [done..|]. rewrite lookup_insert_ne; [done|]. intros Heq. congruence.
Qed.

(** A failed write leaves some slot's worth of bytes. *)
Definition outcome_ok (o : WriteOutcome) : Prop :=
  match o with Synced => True | Torn b => length b = 96%nat end.

Lemma insert_slot_safe now h c f s k free sid until o c' b :
  running now h f s → free_slots s = k :: free → seen s !! filed sid = None →
  digest_key c = Some key → capacity c = Z.of_nat cap →
  1 ≤ until < 2 ^ 64 → outcome_ok o →
  insert_slot c (with_index s (seen s) (expiries s) free) f k (filed sid) until o = (c', b) →
  safe now (if b then (sid, until) :: h else h) c'.
Proof.
  intros Hrun Hfr Hnew Hkey Hcap Hu Ho H. assert (Hrun' := Hrun).
  destruct Hrun' as [Hb Hff Hfit Hix Hlive].
  unfold insert_slot, put_state in H. rewrite Hkey, Hcap in H.
  cbn [with_index seen expiries free_slots generations fail_forward default] in H.
  destruct (u64_checked_add _ _) as [g|] eqn:Hg.
  2:{ apply pair_equal_spec in H as [<- <-]. apply (poison_safe _ _ f); [done|done|].
      intros sid' v Hin Hv. destruct (Hlive sid' v Hin Hv) as (j & g & ? & ? & _). by exists j, g. }
  apply u64_checked_add_Some in Hg as [-> Hg].
  assert (1 ≤ default 0 (generations s !! k) + 1 < 2 ^ 64) as Hgb.
  { destruct (generations s !! k) as [g|] eqn:Hgk; cbn [default] in *; [|lia].
    destruct (ix_generations _ _ Hix) as [_ Hgs]. eapply Forall_lookup_1 in Hgk; [|done].
    simpl in *. lia. }
  set (g := default 0 (generations s !! k)) in *. clearbody g.
  destruct o as [|torn]; apply pair_equal_spec in H as [<- <-].
  - eapply running_safe, (insert_running now h f s k free sid until (g + 1)); done.
  - destruct (write_running now h f s k free torn Hrun Hfr Ho) as (Hfit' & _ & _ & Hl').
    eapply poison_safe; [exact Hfit'|done|].
    intros sid' v Hin Hv. destruct (Hl' sid' v Hin Hv) as (j & ? & ? & _ & ? & _). by eexists j, _.
Qed.

Lemma insert_fresh_safe now h c f s sid until o c' b :
  running now h f s → seen s !! filed sid = None →
  digest_key c = Some key → capacity c = Z.of_nat cap →
  1 ≤ until < 2 ^ 64 → outcome_ok o →
  insert_fresh c s (filed sid) until o = (c', b) →
  safe now (if b then (sid, until) :: h else h) c'.
Proof.
  intros Hrun Hnew Hkey Hcap Hu Ho H. unfold insert_fresh in H.
  rewrite (rn_backend _ _ _ _ Hrun) in H. destruct (free_slots s) as [|k free] eqn:Hfr.
  - apply pair_equal_spec in H as [<- <-]. unfold put_state. rewrite Hkey, Hcap.
    by apply (running_safe _ _ f).
  - by eapply insert_slot_safe.
Qed.

Lemma check_safe t h c sid now until o c' b :
  safe t h c → t ≤ now → 1 ≤ now → until < 2 ^ 64 → outcome_ok o →
  check_and_record c sid now until o = (c', b) →
  safe now (if b then (sid, until) :: h else h) c'
  ∧ (b = true → ∀ v, (sid, v) ∈ h → v < now).
Proof.
  intros Hsafe Ht Hn Hu Ho H. pose proof (safe_mono _ _ _ _ Ht Hsafe) as Hsafe'.
  pose proof (sf_key _ _ _ Hsafe) as Hkey. pose proof (sf_cap _ _ _ Hsafe) as Hcap.
  unfold check_and_record in H.
  destruct (Z.ltb_spec until now) as [|Hun]; [by apply pair_equal_spec in H as [<- <-]|].
  destruct (lock_poisoned c); [by apply pair_equal_spec in H as [<- <-]|].
  destruct (fail_forward (state c)) eqn:Hff; [by apply pair_equal_spec in H as [<- <-]|].
  destruct (safe_running _ _ _ Hsafe Hff) as [f Hrun0].
  pose proof (prune_running t h f (state c) now Ht Hrun0) as Hrun.
  rewrite Hkey in H. change (digest_session_id key sid) with (filed sid) in H.
  revert H Hrun. generalize (prune_expired REPLAY_PRUNE_BUDGET (state c) now). intros s H Hrun.
  assert (∀ s2, running now h f s2 → seen s2 !! filed sid = None →
    ∀ v, (sid, v) ∈ h → v < now) as Hold.
  { intros s2 Hrun2 Hnew v Hin. destruct (Z.lt_ge_cases v now) as [|Hv]; [done|].
    destruct (rn_live _ _ _ _ Hrun2 sid v Hin Hv) as (? & ? & _ & _ & ?). congruence. }
  destruct (seen s !! filed sid) as [e|] eqn:He.
  - destruct (Z.leb_spec now (valid_until e)) as [|Hexp].
    + apply pair_equal_spec in H as [<- <-]. split; [|done]. unfold put_state.
      rewrite Hkey, Hcap. by apply (running_safe _ _ f).
    + pose proof (remove_running now h f s _ _ Hrun He Hexp) as Hrun2.
      assert (seen (remove_entry s (filed sid) e) !! filed sid = None) as Hnew
        by apply lookup_delete_eq.
      split; [|intros _; by eapply Hold]. eapply insert_fresh_safe; [done..| |done|done]. lia.
  - split; [|intros _; by eapply Hold]. eapply insert_fresh_safe; [done..| |done|done]. lia.
Qed.

Lemma open_safe t h files now c :
  t ≤ now →
  open_persistent_with_capacity files secret (Z.of_nat cap) now = Ok c →
  (∀ sid v, (sid, v) ∈ h → t ≤ v → ∃ f, store_content files = Some f ∧ file_fits cap f ∧ ∃ k g,
     (k < cap)%nat ∧ decode_slot k (slot_record f k) key = Ok (Some (g, v, filed sid))) →
  safe now h c.
Proof.
  intros Ht H Hh. unfold open_persistent_with_capacity in H.
  do 6 (apply if_err_Ok in H as [_ H]). unfold open_store in H. rewrite Nat2Z.id in H.
  generalize dependent (store_content files). intros existing H Hh.
  set (f := match existing with Some f => f | None => _ end) in *.
  assert (∀ sid v, (sid, v) ∈ h → now ≤ v → file_fits cap f ∧ ∃ k g, (k < cap)%nat
    ∧ decode_slot k (slot_record f k) key = Ok (Some (g, v, filed sid))) as Hdisk.
  { intros sid v Hin Hv. destruct (Hh sid v Hin ltac:(lia)) as (f' & He & ? & ?).
    subst f. by rewrite He. }
  clearbody f. destruct (load_store _ f _ _ _ _) as [s|e] eqn:Hload.
  - injection H as <-. apply load_store_ok in Hload as (Hfit & Hix & Hb & Hff & Hlive).
    apply (running_safe _ _ f). split; try done. intros sid v Hin Hv.
    destruct (Hdisk sid v Hin Hv) as (_ & k & g & Hk & Hd). exists k, g. split_and!; [done..|].
    by eapply Hlive.
  - assert (c = mkReplayCache (mkReplayState ∅ [] [] (replicate cap 0) (Persistent f) true) false
      (Z.of_nat cap) (Some key)) as -> by (destruct e; by simplify_eq).
    split; [done..|]. exists f. cbn [state backend fail_forward]. split_and!; [done|done|].
    intros sid v Hin Hv. destruct (Hdisk sid v Hin Hv) as (? & k & g & ? & ?).
    split; [done|]. by exists k, g.
Qed.

(** ** A server over time *)

(** The clock, the session ids admitted so far with their expiries, and the cache.  The
    clock does not move backwards; a process may panic while it holds the lock; a restart
    opens whatever the file contains. *)
Inductive server : Z → list (bytes * Z) → ReplayCache → Prop :=
| server_start files now c :
    open_persistent_with_capacity files secret (Z.of_nat cap) now = Ok c →
    server now [] c
| server_check t h c sid now until o c' b :
    server t h c → t ≤ now → 1 ≤ now → until < 2 ^ 64 → outcome_ok o →
    check_and_record c sid now until o = (c', b) →
    server now (if b then (sid, until) :: h else h) c'
| server_panic t h c :
    server t h c →
    server t h (mkReplayCache (state c) true (capacity c) (digest_key c))
| server_restart t h c f files now c' :
    server t h c → t ≤ now → backend (state c) = Persistent f → store_content files = Some f →
    open_persistent_with_capacity files secret (Z.of_nat cap) now = Ok c' →
    server now h c'.

Lemma server_safe t h c : server t h c → safe t h c.
Proof.
  induction 1 as [files now c Hopen|t h c sid now until o c' b _ IH Ht Hn Hu Ho Hc
    |t h c _ IH|t h c f files now c' _ IH Ht Hb Hf Hopen].
  - eapply (open_safe now); [done|exact Hopen|]. intros sid v Hin. by apply not_elem_of_nil in Hin.
  - by eapply check_safe.
  - destruct IH as [? ? ?]. by split.
  - eapply (open_safe t); [done|exact Hopen|]. intros sid v Hin Hv.
    destruct IH as [_ _ (f' & Hf' & _ & Hh)]. assert (f' = f) as -> by congruence.
    destruct (Hh sid v Hin Hv) as (? & k & g & ? & ? & _). exists f. split_and!; [done..|].
    by exists k, g.
Qed.
End Safety.

(** No replay, over admissions, torn writes, panics and restarts: a session id that was
    admitted with expiry [v] is not admitted again as long as it is valid, whatever
    happened in between, as long as the clock does not move backwards. *)
Theorem no_replay {C : ReplayCrypto} {L : ReplayCryptoLaws C} (secret : bytes) (cap : nat)
    (t now v until : Z) (h : list (bytes * Z)) (c : ReplayCache) (sid : bytes) (o : WriteOutcome) :
  server secret cap t h c → (sid, v) ∈ h →
  t ≤ now → now ≤ v → 1 ≤ now → until < 2 ^ 64 → outcome_ok o →
  (check_and_record c sid now until o).2 = false.
Proof.
  intros Hs Hin Ht Hv Hn Hu Ho. apply server_safe in Hs.
  destruct (check_and_record c sid now until o) as [c' b] eqn:Hc.
  destruct (check_safe _ _ _ _ _ _ _ _ _ _ _ Hs Ht Hn Hu Ho Hc) as [_ Hb].
  destruct b; [|done]. specialize (Hb eq_refl v Hin). lia.
Qed.

(** The state an admission at [now] decides on: expired entries pruned within the budget,
    and an expired entry of the token itself removed. *)
Definition decision_state (c : ReplayCache) (digest : bytes) (now : Z) : ReplayState :=
  let s := prune_expired REPLAY_PRUNE_BUDGET (state c) now in
  match seen s !! digest with Some e => remove_entry s digest e | None => s end.

(** Room for one more entry. *)
Definition has_room (cap : Z) (s : ReplayState) : Prop :=
  match backend s with
  | Memory => Z.of_nat (size (seen s)) < cap
  | Persistent _ =>
      match free_slots s with
      | [] => False
      | k :: _ => default 0 (generations s !! k) + 1 < 2 ^ 64
      end
  end.

(** Exactly when a token is admitted: it has not expired, the cache is operational,
    no live entry of the same token is left, there is room for an entry, and the durable
    write (of a persistent store) succeeded.  In particular a fresh token is not refused
    for any other reason. *)
Theorem admission_iff {C : ReplayCrypto} (c : ReplayCache) (sid : bytes) (now until : Z)
    (o : WriteOutcome) :
  let digest := match digest_key c with Some key => digest_session_id key sid | None => sid end in
  let s := prune_expired REPLAY_PRUNE_BUDGET (state c) now in
  (check_and_record c sid now until o).2 = true ↔
    now ≤ until ∧ fail_forward_reason c = false
    ∧ (∀ e, seen s !! digest = Some e → valid_until e < now)
    ∧ has_room (capacity c) (decision_state c digest now)
    ∧ (backend (decision_state c digest now) = Memory ∨ o = Synced).
Proof.
  intros digest s. unfold check_and_record, fail_forward_reason, decision_state.
  fold digest s. clearbody digest s.
  assert (∀ s2, (insert_fresh c s2 digest until o).2 = true ↔
    has_room (capacity c) s2 ∧ (backend s2 = Memory ∨ o = Synced)) as Hins.
  { intros s2. unfold insert_fresh, has_room, insert_slot. destruct (backend s2) as [|f].
    - destruct (Z.leb_spec (capacity c) (Z.of_nat (size (seen s2)))); simpl; intuition lia.
    - destruct (free_slots s2) as [|k free]; [by split; [|intros [[] _]]|].
      cbn [with_index generations]. set (g := default 0 _). clearbody g.
      unfold u64_checked_add. destruct (Z.ltb_spec (g + 1) (2 ^ 64)); simpl; [|intuition lia].
      destruct o; simpl; intuition discriminate. }
  destruct (Z.ltb_spec until now); [simpl; intuition lia|].
  destruct (lock_poisoned c); [simpl; intuition discriminate|].
  destruct (fail_forward (state c)); [simpl; intuition discriminate|].
  destruct (seen s !! digest) as [e|] eqn:He.
  - destruct (Z.leb_spec now (valid_until e)).
    + simpl. split; [done|]. intros (_ & _ & Hl & _). specialize (Hl e eq_refl). lia.
    + rewrite Hins. split; [|tauto]. intros [? ?]. split_and!; [done..| |done|done].
      intros e' [= <-]. lia.
  - rewrite Hins. split; [|tauto]. intros [? ?]. by split_and!.
Qed.

(** ** Samples *)

Module ReplaySample.

(** A 32-byte checksum in place of the MAC and the hash. *)
Definition toy_hash (m : bytes) : bytes := take 32 (rev m ++ zeros 32).

#[export] Instance toy : ReplayCrypto := {
  hmac_sha256 k m := toy_hash (k ++ m);
  store_sha256 := toy_hash;
  x25519_public s := s;
}.

Lemma toy_hash_length m : length (toy_hash m) = 32%nat.
Proof. unfold toy_hash. rewrite length_take, length_app, length_zeros. lia. Qed.

#[export] Instance toy_laws : ReplayCryptoLaws toy.
Proof. split; intros; apply toy_hash_length. Defined.

Definition secret : bytes := replicate 32 Byte.x07.
Definition sid : bytes := replicate 32 Byte.x09.

Definition files (existing : option bytes) : StoreFiles :=
  mkStoreFiles true None false true existing false.

(** A cache of two slots after a first start, the one after admitting [sid], and the one
    after a restart from the file. *)
Definition started : ReplayCache :=
  match open_persistent_with_capacity (files None) secret 2 100 with
  | Ok c => c | Err _ => in_memory_with_capacity 0 end.
Definition admitted : ReplayCache := (check_and_record started sid 110 220 Synced).1.
Definition stored : bytes :=
  match backend (state admitted) with Persistent f => f | Memory => [] end.
Definition restarted : ReplayCache :=
  match open_persistent_with_capacity (files (Some stored)) secret 2 120 with
  | Ok c => c | Err _ => in_memory_with_capacity 0 end.

Lemma opened existing now :
  match open_persistent_with_capacity (files existing) secret 2 now with Ok _ => true | Err _ => false end
  = true →
  open_persistent_with_capacity (files existing) secret 2 now
  = Ok match open_persistent_with_capacity (files existing) secret 2 now with
       | Ok c => c | Err _ => in_memory_with_capacity 0 end.
Proof. by destruct (open_persistent_with_capacity _ _ _ _). Qed.

Lemma admitted_server : server secret 2 110 [(sid, 220)] admitted.
Proof.
  assert (check_and_record started sid 110 220 Synced = (admitted, true)) as H.
  { rewrite (surjective_pairing (check_and_record _ _ _ _ _)). by apply pair_equal_spec. }
  refine (server_check secret 2 100 [] started sid 110 220 Synced admitted true
    _ _ _ _ I H); [|lia..].
  apply (server_start _ _ (files None)), opened. by vm_compute.
Qed.

Lemma restarted_server : server secret 2 120 [(sid, 220)] restarted.
Proof.
  refine (server_restart secret 2 110 _ admitted stored (files (Some stored)) 120 _
    admitted_server _ _ eq_refl _); [lia|..].
  - by vm_compute.
  - apply opened. by vm_compute.
Qed.

Lemma no_replay_witness : (check_and_record restarted sid 200 330 Synced).2 = false.
Proof.
  refine (no_replay secret 2 120 200 220 330 [(sid, 220)] restarted sid Synced
    restarted_server _ _ _ _ _ I); [by left|lia..].
Defined.

Definition digest : bytes := digest_session_id (derive_store_key secret) sid.
Definition key : bytes := derive_store_key secret.
Definition binding : bytes := static_key_binding secret.
Definition record : bytes := encode_slot 1 3 220 digest key.

Lemma store_records_canonical_witness :
  (decode_slot 1 record key = Ok (Some (3, 220, digest)) ↔
     record = encode_slot 1 3 220 digest key ∧ 1 ≤ 3 < 2 ^ 64 ∧ 1 ≤ 220 < 2 ^ 64
     ∧ length digest = 32%nat)
  ∧ (validate_header record 2 binding key = Ok () ↔ record = encode_header 2 binding key).
Proof.
  destruct (store_records_canonical 1 record key binding 3 220 2 digest
    ltac:(vm_compute; reflexivity)) as [H1 H2].
  split; [exact H1|]. apply H2; [vm_compute; reflexivity|split; vm_compute; congruence].
Defined.

End ReplaySample.
