(* ===== verification/TlsMessages.v ===== *)
(** * TLS 1.3 messages of the REALITY carrier

    [shadowpipe-reality/src/wire.rs], [parse.rs], the message builders of [lib.rs],
    [reality.rs] and [tls13/server.rs], and the parsers of [tls13/client.rs].  The writer
    reserves a length field and patches it afterwards; shown: it emits what a plain
    length prefix emits.  Parsers distinguish a [None] from a panic; shown: no input makes
    one panic, and each reads back what the builder of the other side wrote. *)

From S2P Require Import Prelude.

(** ** Outcomes *)

(** A function that returns an [Option] or panics. *)
Inductive outcome (A : Type) : Type :=
| Val (a : A)
| Nothing
| Panics.
Arguments Val {A} _.
Arguments Nothing {A}.
Arguments Panics {A}.

#[export] Instance outcome_ret : MRet outcome := λ A a, Val a.
#[export] Instance outcome_bind : MBind outcome :=
  λ A B f m, match m with Val a => f a | Nothing => Nothing | Panics => Panics end.

(** An inner [Option] as a value. *)
Definition to_option {A} (m : outcome A) : outcome (option A) :=
  match m with Val a => Val (Some a) | Nothing => Val None | Panics => Panics end.

(** [*b.get(i)?], [b[i]], [b.get(i..j)?] and [b[i..j]] *)
Definition get_byte (b : bytes) (i : nat) : outcome byte :=
  match b !! i with Some x => Val x | None => Nothing end.
Definition index_byte (b : bytes) (i : nat) : outcome byte :=
  match b !! i with Some x => Val x | None => Panics end.
Definition range (b : bytes) (i j : nat) : bytes := take (j - i) (drop i b).
Definition get_range (b : bytes) (i j : nat) : outcome bytes :=
  if (i <=? j)%nat && (j <=? length b)%nat then Val (range b i j) else Nothing.
Definition index_range (b : bytes) (i j : nat) : outcome bytes :=
  if (i <=? j)%nat && (j <=? length b)%nat then Val (range b i j) else Panics.

(** [u16::from_be_bytes([a, b]) as usize] and the three-byte length *)
Definition u16_of (a b : byte) : nat := Z.to_nat (be_value [a; b]).
Definition u24_of (a b c : byte) : nat := Z.to_nat (be_value [a; b; c]).

(** [<[u8; 32]>::try_from(slice).ok()?] *)
Definition array32 (b : bytes) : outcome bytes := if (length b =? 32)%nat then Val b else Nothing.

(** ** The writer *)

(** A step of a writer extends the buffer, or panics. *)
Definition TlsWriter : Type := bytes → option bytes.

Definition w_u8 (v : Z) : TlsWriter := λ buf, Some (buf ++ be_bytes 1 v).
Definition w_u16 (v : Z) : TlsWriter := λ buf, Some (buf ++ be_bytes 2 v).
Definition w_raw (d : bytes) : TlsWriter := λ buf, Some (buf ++ d).
Definition w_nothing : TlsWriter := λ buf, Some buf.

Fixpoint w_all (l : list TlsWriter) : TlsWriter :=
  match l with [] => w_nothing | f :: l => λ buf, f buf ≫= w_all l end.

(** The length field of [size] bytes is reserved, the body written, the field patched. *)
Definition w_len (size : nat) (f : TlsWriter) : TlsWriter :=
  λ buf,
    let p := length buf in
    buf ← f (buf ++ replicate size Byte.x00);
    let n := len buf - Z.of_nat p - Z.of_nat size in
    if n <=? 2 ^ (8 * Z.of_nat size) - 1
    then Some (take p buf ++ be_bytes size n ++ drop (p + size) buf)
    else None.
Definition w_len8 : TlsWriter → TlsWriter := w_len 1.
Definition w_len16 : TlsWriter → TlsWriter := w_len 2.
Definition w_len24 : TlsWriter → TlsWriter := w_len 3.

(** [Writer::new()], a sequence of steps, and [w.buf] *)
Definition written (f : TlsWriter) : option bytes := f [].

(** ** Building *)

Definition SID_OFFSET : nat := 44.
Definition CLIENT_VERSION : bytes := [Byte.x00; Byte.x01; Byte.x00].
Definition GREASE : list Z :=
  [0x0a0a; 0x1a1a; 0x2a2a; 0x3a3a; 0x4a4a; 0x5a5a; 0x6a6a; 0x7a7a; 0x8a8a; 0x9a9a; 0xaaaa; 0xbaba;
   0xcaca; 0xdada; 0xeaea; 0xfafa].
Definition CIPHERS : list Z :=
  [0x1301; 0x1302; 0x1303; 0xc02b; 0xc02f; 0xc02c; 0xc030; 0xcca9; 0xcca8; 0xc013; 0xc014; 0x009c;
   0x009d; 0x002f; 0x0035].
Definition SIGALGS : list Z := [0x0403; 0x0804; 0x0401; 0x0503; 0x0805; 0x0501; 0x0806; 0x0601].
Definition GROUPS : list Z := [0x001d; 0x0017; 0x0018].
Definition X25519 : Z := 0x001d.

Record Grease := mkGrease {
  g_cipher : Z;
  g_group : Z;
  g_ext_lead : Z;
  g_version : Z;
  g_ext_trail : Z }.

Definition ext (ext_type : Z) (body : TlsWriter) : TlsWriter := w_all [w_u16 ext_type; w_len16 body].

Definition ascii (s : string) : bytes := String.list_byte_of_string s.

(** Every extension but the padding. *)
Definition hello_extensions (sni x25519_pub : bytes) (g : Grease) : list (Z * TlsWriter) :=
  [(g_ext_lead g, w_nothing);
   (0x0000, w_len16 (w_all [w_u8 0; w_len16 (w_raw sni)]));
   (0x0017, w_nothing);
   (0xff01, w_u8 0);
   (0x000a, w_len16 (w_all (w_u16 (g_group g) :: (w_u16 <$> GROUPS))));
   (0x000b, w_len8 (w_u8 0));
   (0x0023, w_nothing);
   (0x0010, w_len16 (w_all [w_len8 (w_raw (ascii "h2")); w_len8 (w_raw (ascii "http/1.1"))]));
   (0x0005, w_all [w_u8 1; w_u16 0; w_u16 0]);
   (0x000d, w_len16 (w_all (w_u16 <$> SIGALGS)));
   (0x0012, w_nothing);
   (0x0033, w_len16 (w_all [w_u16 (g_group g); w_len16 (w_u8 0); w_u16 X25519; w_len16 (w_raw x25519_pub)]));
   (0x002d, w_len8 (w_u8 1));
   (0x002b, w_len8 (w_all [w_u16 (g_version g); w_u16 0x0304; w_u16 0x0303]));
   (0x001b, w_len8 (w_u16 0x0002));
   (0x4469, w_len16 (w_len8 (w_raw (ascii "h2"))));
   (g_ext_trail g, w_u8 0)].

(** The record without its padding; [saturating_sub] is [Z.max 0]. *)
Definition fixed_len (exts_wo_pad : bytes) : Z :=
  5 + 4 + 2 + 32 + 33 + (2 + 2 * (len CIPHERS + 1)) + 2 + 2 + len exts_wo_pad + 4.
Definition padding_len (record_len : Z) (exts_wo_pad : bytes) : nat :=
  Z.to_nat (Z.max (Z.max 0 (record_len - fixed_len exts_wo_pad)) 1).

Definition build_client_hello (sni random session_id x25519_pub : bytes) (g : Grease) (record_len : Z)
  : option bytes :=
  exts_wo_pad ← written (w_all ((λ e, ext e.1 e.2) <$> hello_extensions sni x25519_pub g));
  let pad := padding_len record_len exts_wo_pad in
  written (w_all [w_u8 0x16; w_u16 0x0301; w_len16 (w_all [w_u8 0x01; w_len24 (w_all
    [w_u16 0x0303;
     w_raw random;
     w_len8 (w_raw session_id);
     w_len16 (w_all (w_u16 (g_cipher g) :: (w_u16 <$> CIPHERS)));
     w_len8 (w_u8 0);
     w_len16 (w_all [w_raw exts_wo_pad; ext 0x0015 (w_raw (replicate pad Byte.x00))])])])]).

Definition build_server_hello (server_random sid_echo server_pub : bytes) (cipher : Z) : option bytes :=
  written (w_all [w_u8 0x16; w_u16 0x0303; w_len16 (w_all [w_u8 0x02; w_len24 (w_all
    [w_u16 0x0303;
     w_raw server_random;
     w_len8 (w_raw sid_echo);
     w_u16 cipher;
     w_u8 0;
     w_len16 (w_all
       [w_u16 0x002b; w_len16 (w_u16 0x0304);
        w_u16 0x0033; w_len16 (w_all [w_u16 0x001d; w_len16 (w_raw server_pub)])])])])]).

Definition reality_cert_msg (leaf_pub : bytes) (pad_len : nat) : option bytes :=
  written (w_all [w_u8 0x0b; w_len24 (w_all
    [w_u8 0;
     w_len24 (w_all
       ([w_len24 (w_raw leaf_pub); w_u16 0]
        ++ if (0 <? pad_len)%nat then [w_len24 (w_raw (replicate pad_len Byte.x00)); w_u16 0] else []))])]).

Definition certverify_msg (sig : bytes) : option bytes :=
  written (w_all [w_u8 0x0f; w_len24 (w_all [w_u16 0x0807; w_len16 (w_raw sig)])]).

(** ** Parsing *)

Record HelloFields := mkHelloFields {
  hf_random : bytes;
  hf_session_id : bytes;
  hf_x25519_pub : bytes }.

Definition u16at (b : bytes) (i : nat) : outcome nat :=
  x ← get_byte b i; y ← get_byte b (i + 1); Val (u16_of x y).

(** The loop of [parse_key_share]; a round moves on by at least four bytes. *)
Fixpoint key_share_loop (fuel : nat) (data : bytes) (p end_ : nat) : outcome bytes :=
  match fuel with
  | O => Nothing
  | S fuel =>
      if (p + 4 <=? end_)%nat then
        g0 ← index_byte data p; g1 ← index_byte data (p + 1);
        k0 ← index_byte data (p + 2); k1 ← index_byte data (p + 3);
        let group := u16_of g0 g1 in
        let klen := u16_of k0 k1 in
        let kstart := (p + 4)%nat in
        let kend := (kstart + klen)%nat in
        if (length data <? kend)%nat then Nothing else
        if (group =? 0x001d)%nat && (klen =? 32)%nat
        then key ← index_range data kstart kend; array32 key
        else key_share_loop fuel data kend end_
      else Nothing
  end.
Definition parse_key_share (data : bytes) : outcome bytes :=
  total ← u16at data 0;
  key_share_loop (length data) data 2 (Nat.min (2 + total) (length data)).

(** The loop over the extensions; a round moves on by at least four bytes. *)
Fixpoint extension_loop (fuel : nat) (rec : bytes) (p ext_end : nat) (x25519_pub : option bytes)
  : outcome (option bytes) :=
  match fuel with
  | O => Nothing
  | S fuel =>
      if (p + 4 <=? ext_end)%nat then
        etype ← u16at rec p;
        elen ← u16at rec (p + 2);
        let data_start := (p + 4)%nat in
        let data_end := (data_start + elen)%nat in
        if (ext_end <? data_end)%nat then Nothing else
        x25519_pub ←
          (if (etype =? 0x0033)%nat
           then data ← index_range rec data_start data_end; to_option (parse_key_share data)
           else Val x25519_pub);
        extension_loop fuel rec data_end ext_end x25519_pub
      else Val x25519_pub
  end.

Definition extract_client_hello_fields (rec : bytes) : outcome HelloFields :=
  t ← get_byte rec 0;
  if negb (bv t =? 0x16) then Nothing else
  h ← get_byte rec 5;
  if negb (bv h =? 0x01) then Nothing else
  _ ← u16at rec 9;
  random ← get_range rec 11 43; random ← array32 random;
  sid_len ← get_byte rec 43;
  if negb (bv sid_len =? 32) then Nothing else
  session_id ← get_range rec 44 76; session_id ← array32 session_id;
  cipher_len ← u16at rec 76;
  let p := (78 + cipher_len)%nat in
  comp_len ← get_byte rec p;
  let p := (p + 1 + Z.to_nat (bv comp_len))%nat in
  ext_total ← u16at rec p;
  let p := (p + 2)%nat in
  let ext_end := (p + ext_total)%nat in
  if (length rec <? ext_end)%nat then Nothing else
  x25519_pub ← extension_loop (length rec) rec p ext_end None;
  match x25519_pub with
  | Some x25519_pub => Val (mkHelloFields random session_id x25519_pub)
  | None => Nothing
  end.

Definition take_hs_msg (buf : bytes) : outcome (byte * bytes * nat) :=
  if (length buf <? 4)%nat then Nothing else
  a ← index_byte buf 1; b ← index_byte buf 2; c ← index_byte buf 3;
  let n := u24_of a b c in
  if (length buf <? 4 + n)%nat then Nothing else
  t ← index_byte buf 0; msg ← index_range buf 0 (4 + n);
  Val (t, msg, (4 + n)%nat).

Fixpoint server_extension_loop (fuel : nat) (msg : bytes) (p ext_end : nat) (server_pub : option bytes)
  : outcome (option bytes) :=
  match fuel with
  | O => Nothing
  | S fuel =>
      if (p + 4 <=? ext_end)%nat then
        t0 ← index_byte msg p; t1 ← index_byte msg (p + 1); l0 ← index_byte msg (p + 2); l1 ← index_byte msg (p + 3);
        let etype := u16_of t0 t1 in
        let elen := u16_of l0 l1 in
        let ds := (p + 4)%nat in
        let de := (ds + elen)%nat in
        if (length msg <? de)%nat then Nothing else
        server_pub ←
          (if (etype =? 0x0033)%nat && (4 <=? elen)%nat then
             g0 ← index_byte msg ds; g1 ← index_byte msg (ds + 1);
             k0 ← index_byte msg (ds + 2); k1 ← index_byte msg (ds + 3);
             if (u16_of g0 g1 =? 0x001d)%nat && (u16_of k0 k1 =? 32)%nat
             then key ← get_range msg (ds + 4) (ds + 4 + 32); to_option (array32 key)
             else Val server_pub
           else Val server_pub);
        server_extension_loop fuel msg de ext_end server_pub
      else Val server_pub
  end.

Definition parse_server_hello (msg : bytes) : outcome (Z * bytes) :=
  t ← get_byte msg 0;
  if negb (bv t =? 0x02) then Nothing else
  sid_len ← get_byte msg 38;
  let p := (39 + Z.to_nat (bv sid_len))%nat in
  c0 ← get_byte msg p; c1 ← get_byte msg (p + 1);
  let cipher := be_value [c0; c1] in
  let p := (p + 3)%nat in
  e0 ← get_byte msg p; e1 ← get_byte msg (p + 1);
  let p := (p + 2)%nat in
  let ext_end := Nat.min (p + u16_of e0 e1) (length msg) in
  server_pub ← server_extension_loop (length msg) msg p ext_end None;
  match server_pub with
  | Some server_pub => Val (cipher, server_pub)
  | None => Nothing
  end.

Definition u24 (b : bytes) (i : nat) : outcome nat :=
  x ← get_byte b i; y ← get_byte b (i + 1); z ← get_byte b (i + 2); Val (u24_of x y z).

Definition extract_leaf_pub (msg : bytes) : outcome bytes :=
  ctx_len ← get_byte msg 4;
  let p := (5 + Z.to_nat (bv ctx_len))%nat in
  _ ← u24 msg p;
  cd_len ← u24 msg (p + 3);
  let p := (p + 6)%nat in
  leaf ← get_range msg p (p + cd_len); array32 leaf.

Definition extract_certverify_sig (msg : bytes) : outcome bytes :=
  a ← get_byte msg 6; b ← get_byte msg 7;
  get_range msg 8 (8 + u16_of a b).

(** ** What the writer emits *)

Definition prefixed (size : nat) (b : bytes) : bytes := be_bytes size (len b) ++ b.

(** A writer appends [b] to every buffer, exactly when [P] holds. *)
Definition emits (f : TlsWriter) (b : bytes) (P : Prop) : Prop :=
  ∀ buf, (P → f buf = Some (buf ++ b)) ∧ (∀ out, f buf = Some out → out = buf ++ b ∧ P).

Lemma emits_nothing : emits w_nothing [] True.
Proof. intros buf. unfold w_nothing. rewrite app_nil_r. naive_solver. Qed.
Lemma emits_u8 v : emits (w_u8 v) (be_bytes 1 v) True.
Proof. intros buf. unfold w_u8. naive_solver. Qed.
Lemma emits_w_u16 v : emits (w_u16 v) (be_bytes 2 v) True.
Proof. intros buf. unfold w_u16. naive_solver. Qed.
Lemma emits_raw d : emits (w_raw d) d True.
Proof. intros buf. unfold w_raw. naive_solver. Qed.
Lemma emits_nil : emits (w_all []) [] True.
Proof. apply emits_nothing. Qed.
Lemma emits_cons f l b1 b2 P1 P2 :
  emits f b1 P1 → emits (w_all l) b2 P2 → emits (w_all (f :: l)) (b1 ++ b2) (P1 ∧ P2).
Proof.
  intros H1 H2 buf. destruct (H1 buf) as [Hf Hf']. destruct (H2 (buf ++ b1)) as [Hl Hl'].
  cbn. split.
  - intros [HP1 HP2]. rewrite (Hf HP1). cbn. rewrite (Hl HP2). by rewrite <-app_assoc.
  - intros out. destruct (f buf) as [out1|]; [|done]. cbn. destruct (Hf' out1 eq_refl) as [-> HP1].
    intros Ho. destruct (Hl' out Ho) as [-> HP2]. by rewrite <-app_assoc.
Qed.
Lemma emits_one f b P : emits f b P → emits (w_all [f]) b P.
Proof.
  intros Hf buf. destruct (Hf buf) as [H1 H2]. cbn. unfold w_nothing. split.
  - intros HP. by rewrite (H1 HP).
  - intros out. destruct (f buf) as [out1|]; [|done]. intros [= <-]. auto.
Qed.
Lemma emits_len size f b P :
  emits f b P → emits (w_len size f) (prefixed size b) (P ∧ len b ≤ 2 ^ (8 * Z.of_nat size) - 1).
Proof.
  intros Hf buf. destruct (Hf (buf ++ replicate size Byte.x00)) as [H1 H2]. unfold w_len.
  assert (∀ out, out = (buf ++ replicate size Byte.x00) ++ b →
    len out - Z.of_nat (length buf) - Z.of_nat size = len b
    ∧ take (length buf) out = buf ∧ drop (length buf + size) out = b) as Hout.
  { intros out ->. rewrite !len_app, <-app_assoc, take_app_length.
    rewrite drop_app, drop_ge, Nat.add_comm, Nat.add_sub, drop_app, drop_ge, length_replicate,
      Nat.sub_diag by (rewrite ?length_replicate; lia).
    unfold len. rewrite length_replicate. split_and!; [lia|done|done]. }
  split.
  - intros [HP Hb]. rewrite (H1 HP). cbn. destruct (Hout _ eq_refl) as (-> & -> & ->).
    destruct (Z.leb_spec (len b) (2 ^ (8 * Z.of_nat size) - 1)); [done|lia].
  - intros out. destruct (f _) as [out1|]; [|done]. destruct (H2 out1 eq_refl) as [E HP]. cbn.
    destruct (Hout _ E) as (-> & -> & ->).
    destruct (Z.leb_spec (len b) (2 ^ (8 * Z.of_nat size) - 1)); [|done]. by intros [= <-].
Qed.
Lemma emits_ext t f b P :
  emits f b P → emits (ext t f) (be_bytes 2 t ++ prefixed 2 b) (P ∧ len b ≤ 65535).
Proof.
  intros Hf buf. pose proof (emits_cons _ _ _ _ _ _ (emits_w_u16 t)
    (emits_cons _ _ _ _ _ _ (emits_len 2 _ _ _ Hf) emits_nil)) as He.
  unfold ext. destruct (He buf) as [H1 H2]. rewrite app_nil_r in H1, H2.
  change (2 ^ (8 * Z.of_nat 2) - 1) with 65535 in *. naive_solver.
Qed.
Lemma emits_iff f b P Q : emits f b P → (P ↔ Q) → emits f b Q.
Proof. intros Hf HPQ buf. destruct (Hf buf). naive_solver. Qed.
Lemma emits_written f b P : emits f b P → (P → written f = Some b) ∧ (∀ out, written f = Some out → out = b ∧ P).
Proof. intros Hf. exact (Hf []). Qed.
Lemma emits_u16s l : emits (w_all (w_u16 <$> l)) (l ≫= be_bytes 2) True.
Proof.
  induction l as [|v l IH]; [apply emits_nil|]. eapply emits_iff; [by apply emits_cons, IH; apply emits_w_u16|].
  done.
Qed.

(** An extension as bytes, and a list of them. *)
Definition ext_bytes (e : Z * bytes) : bytes := be_bytes 2 e.1 ++ prefixed 2 e.2.

Lemma emits_exts (l : list (Z * TlsWriter)) (bodies : list (Z * bytes)) :
  Forall2 (λ e b, e.1 = b.1 ∧ ∃ P : Prop, emits e.2 b.2 P ∧ (len b.2 ≤ 65535 → P)) l bodies →
  emits (w_all ((λ e, ext e.1 e.2) <$> l)) (bodies ≫= ext_bytes) (Forall (λ b, len b.2 ≤ 65535) bodies).
Proof.
  induction 1 as [|[t f] [t' b] l bodies (Ht & P & Hf & HP) _ IH].
  { eapply emits_iff; [apply emits_nil|]. split; [by constructor|done]. }
  cbn in *. subst t'. eapply emits_iff; [by apply emits_cons, IH; apply emits_ext, Hf|].
  rewrite Forall_cons. naive_solver.
Qed.

Definition hello_bodies (sni x25519_pub : bytes) (g : Grease) : list (Z * bytes) :=
  [(g_ext_lead g, []);
   (0x0000, prefixed 2 (be_bytes 1 0 ++ prefixed 2 sni));
   (0x0017, []);
   (0xff01, be_bytes 1 0);
   (0x000a, prefixed 2 (be_bytes 2 (g_group g) ++ (GROUPS ≫= be_bytes 2)));
   (0x000b, prefixed 1 (be_bytes 1 0));
   (0x0023, []);
   (0x0010, prefixed 2 (prefixed 1 (ascii "h2") ++ prefixed 1 (ascii "http/1.1")));
   (0x0005, be_bytes 1 1 ++ be_bytes 2 0 ++ be_bytes 2 0);
   (0x000d, prefixed 2 (SIGALGS ≫= be_bytes 2));
   (0x0012, []);
   (0x0033, prefixed 2 (be_bytes 2 (g_group g) ++ prefixed 2 (be_bytes 1 0) ++ be_bytes 2 X25519
                        ++ prefixed 2 x25519_pub));
   (0x002d, prefixed 1 (be_bytes 1 1));
   (0x002b, prefixed 1 (be_bytes 2 (g_version g) ++ be_bytes 2 0x0304 ++ be_bytes 2 0x0303));
   (0x001b, prefixed 1 (be_bytes 2 0x0002));
   (0x4469, prefixed 2 (prefixed 1 (ascii "h2")));
   (g_ext_trail g, be_bytes 1 0)].

Lemma len_prefixed n b : len (prefixed n b) = Z.of_nat n + len b.
Proof. unfold prefixed. by rewrite len_app, len_be_bytes. Qed.

Lemma len_prefixed_nat n b : length (prefixed n b) = (n + length b)%nat.
Proof. unfold prefixed. by rewrite length_app, length_be_bytes. Qed.

(** Follow the structure of a writer. *)
Ltac emit :=
  repeat lazymatch goal with
    | |- emits w_nothing _ _ => apply emits_nothing
    | |- emits (w_u8 _) _ _ => apply emits_u8
    | |- emits (w_u16 _) _ _ => apply emits_w_u16
    | |- emits (w_raw _) _ _ => apply emits_raw
    | |- emits (w_all (w_u16 <$> _)) _ _ => apply emits_u16s
    | |- emits (w_all [_]) _ _ => eapply emits_one
    | |- emits (w_all (_ :: _)) _ _ => eapply emits_cons
    | |- emits (w_len8 _) _ _ => eapply emits_len
    | |- emits (w_len16 _) _ _ => eapply emits_len
    | |- emits (w_len24 _) _ _ => eapply emits_len
    end.

(** Lengths of what was emitted. *)
Ltac lens :=
  repeat rewrite ?len_app, ?len_prefixed, ?len_be_bytes, ?len_nil;
  change (len (GROUPS ≫= be_bytes 2)) with 6; change (len (SIGALGS ≫= be_bytes 2)) with 16;
  change (len (CIPHERS ≫= be_bytes 2)) with 30;
  change (len (ascii "h2")) with 2; change (len (ascii "http/1.1")) with 8.

Lemma hello_extensions_emit sni x25519_pub g :
  len x25519_pub = 32 →
  emits (w_all ((λ e, ext e.1 e.2) <$> hello_extensions sni x25519_pub g))
    (hello_bodies sni x25519_pub g ≫= ext_bytes) (len sni ≤ 65530).
Proof.
  intros Hp. eapply emits_iff.
  - apply (emits_exts _ (hello_bodies sni x25519_pub g)).
    repeat (apply Forall2_cons; split; [split; [done|]|]); [..|by constructor].
    all: eexists; split; [cbn [fst snd]; emit|]; cbn [fst snd]; lens; lia.
  - unfold hello_bodies. rewrite !Forall_cons. cbn [fst snd]. lens.
    split; [lia|]. intros Hsni. split_and!; try lia. by constructor.
Qed.

(** The ClientHello as nested length prefixes. *)
Definition cipher_bytes (g : Grease) : bytes := be_bytes 2 (g_cipher g) ++ (CIPHERS ≫= be_bytes 2).
Definition all_bodies (sni x25519_pub : bytes) (g : Grease) (record_len : Z) : list (Z * bytes) :=
  hello_bodies sni x25519_pub g
  ++ [(0x0015, replicate (padding_len record_len (hello_bodies sni x25519_pub g ≫= ext_bytes)) Byte.x00)].
Definition hello_body (sni random session_id x25519_pub : bytes) (g : Grease) (record_len : Z) : bytes :=
  be_bytes 2 0x0303 ++ random ++ prefixed 1 session_id ++ prefixed 2 (cipher_bytes g)
  ++ prefixed 1 (be_bytes 1 0) ++ prefixed 2 (all_bodies sni x25519_pub g record_len ≫= ext_bytes).
Definition hello_bytes (sni random session_id x25519_pub : bytes) (g : Grease) (record_len : Z) : bytes :=
  be_bytes 1 0x16 ++ be_bytes 2 0x0301 ++ prefixed 2
    (be_bytes 1 0x01 ++ prefixed 3 (hello_body sni random session_id x25519_pub g record_len)).

Lemma len_hello_bodies sni x25519_pub g :
  len x25519_pub = 32 → len (hello_bodies sni x25519_pub g ≫= ext_bytes) = 184 + len sni.
Proof.
  intros Hp. unfold hello_bodies, ext_bytes. cbn [mbind list_bind fst snd]. lens. lia.
Qed.

(** The second half of [build_client_hello], over the extensions. *)
Definition record_writer (random session_id exts_wo_pad : bytes) (g : Grease) (pad : nat) : TlsWriter :=
  w_all [w_u8 0x16; w_u16 0x0301; w_len16 (w_all [w_u8 0x01; w_len24 (w_all
    [w_u16 0x0303;
     w_raw random;
     w_len8 (w_raw session_id);
     w_len16 (w_all (w_u16 (g_cipher g) :: (w_u16 <$> CIPHERS)));
     w_len8 (w_u8 0);
     w_len16 (w_all [w_raw exts_wo_pad; ext 0x0015 (w_raw (replicate pad Byte.x00))])])])].
Definition record_bytes (random session_id exts : bytes) (g : Grease) : bytes :=
  be_bytes 1 0x16 ++ be_bytes 2 0x0301 ++ prefixed 2 (be_bytes 1 0x01 ++ prefixed 3
    (be_bytes 2 0x0303 ++ random ++ prefixed 1 session_id ++ prefixed 2 (cipher_bytes g)
     ++ prefixed 1 (be_bytes 1 0) ++ prefixed 2 exts)).

Lemma record_writer_emits random session_id exts g pad :
  len random = 32 → len session_id = 32 →
  emits (record_writer random session_id exts g pad)
    (record_bytes random session_id (exts ++ ext_bytes (0x0015, replicate pad Byte.x00)) g)
    (len exts + Z.of_nat pad + 118 ≤ 65540).
Proof.
  intros Hr Hs. assert (len (replicate pad Byte.x00) = Z.of_nat pad) as Hlp
    by (unfold len; by rewrite length_replicate).
  eapply emits_iff.
  - unfold record_writer, record_bytes, cipher_bytes. emit. apply emits_ext. emit.
  - unfold ext_bytes. cbn [fst snd]. lens. split; [lia|]. intros ?. pose proof (len_nonneg exts). split_and!; lia.
Qed.

(** [build_client_hello] panics only when something is too long for its length field. *)
Lemma build_client_hello_spec sni random session_id x25519_pub g record_len :
  len random = 32 → len session_id = 32 → len x25519_pub = 32 →
  let hello := hello_bytes sni random session_id x25519_pub g record_len in
  (len hello ≤ 65540 → build_client_hello sni random session_id x25519_pub g record_len = Some hello)
  ∧ (∀ out, build_client_hello sni random session_id x25519_pub g record_len = Some out →
       out = hello ∧ len hello ≤ 65540)
  ∧ len hello = Z.max record_len (303 + len sni).
Proof.
  intros Hr Hsid Hp. cbv zeta. unfold build_client_hello.
  destruct (emits_written _ _ _ (hello_extensions_emit sni x25519_pub g Hp)) as [H1 H2].
  set (exts := hello_bodies sni x25519_pub g ≫= ext_bytes) in *.
  assert (len exts = 184 + len sni) as Hexts by by apply len_hello_bodies.
  set (pad := padding_len record_len exts).
  assert (Z.of_nat pad = Z.max (record_len - 302 - len sni) 1) as Hpad.
  { unfold pad, padding_len, fixed_len. rewrite Hexts. change (len CIPHERS) with 15. lia. }
  assert (hello_bytes sni random session_id x25519_pub g record_len
    = record_bytes random session_id (exts ++ ext_bytes (0x0015, replicate pad Byte.x00)) g) as Hh.
  { unfold hello_bytes, record_bytes, hello_body, all_bodies. rewrite bind_app. fold exts.
    cbn [mbind list_bind]. by rewrite app_nil_r. }
  assert (len (hello_bytes sni random session_id x25519_pub g record_len)
          = Z.max record_len (303 + len sni)) as Hlen.
  { rewrite Hh. unfold record_bytes, cipher_bytes, ext_bytes. cbn [fst snd]. lens.
    assert (len (replicate pad Byte.x00) = Z.of_nat pad) by (unfold len; by rewrite length_replicate).
    lia. }
  destruct (emits_written _ _ _ (record_writer_emits random session_id exts g pad Hr Hsid)) as [H3 H4].
  unfold record_writer in H3, H4. rewrite <-Hh in H3, H4. split_and!; [..|done].
  - intros Hle. rewrite H1 by lia. cbn [mbind option_bind]. apply H3. lia.
  - intros out. destruct (written _) as [e|] eqn:E; [|done]. destruct (H2 e eq_refl) as [-> _].
    cbn [mbind option_bind]. intros [-> Hb]%H4. split; [done|]. lia.
Qed.

(** ** Parsing at an offset *)

Section At.
Context (rec : bytes).

Lemma at_next p b post : drop p rec = b ++ post → drop (p + length b) rec = post.
Proof. intros Hd. rewrite <-drop_drop, Hd. apply drop_app_length. Qed.
Lemma at_lookup p x post : drop p rec = x :: post → rec !! p = Some x.
Proof. intros Hd. rewrite <-(Nat.add_0_r p), <-lookup_drop, Hd. done. Qed.
Lemma at_length p b post : drop p rec = b ++ post → (0 < length b)%nat → (p + length b ≤ length rec)%nat.
Proof. intros Hd%(f_equal length) ?. rewrite length_drop, length_app in Hd. lia. Qed.
Lemma get_at p x post : drop p rec = x :: post → get_byte rec p = Val x.
Proof. unfold get_byte. by intros ->%at_lookup. Qed.
Lemma index_at p x post : drop p rec = x :: post → index_byte rec p = Val x.
Proof. unfold index_byte. by intros ->%at_lookup. Qed.
Lemma range_at p b post q : drop p rec = b ++ post → q = (p + length b)%nat → range rec p q = b.
Proof.
  intros Hd ->. unfold range. rewrite Hd. replace (p + length b - p)%nat with (length b) by lia.
  apply take_app_length.
Qed.
Lemma ranges_at p b post q :
  drop p rec = b ++ post → (0 < length b)%nat → q = (p + length b)%nat →
  get_range rec p q = Val b ∧ index_range rec p q = Val b.
Proof.
  intros Hd Hb Hq. unfold get_range, index_range. rewrite (range_at _ _ _ _ Hd Hq).
  pose proof (at_length _ _ _ Hd Hb).
  destruct (Nat.leb_spec p q), (Nat.leb_spec q (length rec)); cbn; [done|lia..].
Qed.
End At.

Lemma be_bytes_1 v : be_bytes 1 v = [bz v].
Proof. done. Qed.
Lemma be_bytes_2 v : 0 ≤ v < 65536 → ∃ a b, be_bytes 2 v = [a; b] ∧ be_value [a; b] = v ∧ u16_of a b = Z.to_nat v.
Proof.
  intros Hv. pose proof (length_be_bytes 2 v) as Hl. pose proof (be_value_be_bytes_small 2 v) as Hb.
  destruct (be_bytes 2 v) as [|a [|b [|]]]; try done. exists a, b. rewrite Hb by done. unfold u16_of.
  by rewrite Hb.
Qed.
Lemma be_bytes_3 v : 0 ≤ v < 16777216 → ∃ a b c, be_bytes 3 v = [a; b; c] ∧ u24_of a b c = Z.to_nat v.
Proof.
  intros Hv. pose proof (length_be_bytes 3 v) as Hl. pose proof (be_value_be_bytes_small 3 v) as Hb.
  destruct (be_bytes 3 v) as [|a [|b [|c [|]]]]; try done. exists a, b, c. unfold u24_of.
  by rewrite Hb.
Qed.

Lemma u16at_be rec p v post :
  0 ≤ v < 65536 → drop p rec = be_bytes 2 v ++ post → u16at rec p = Val (Z.to_nat v).
Proof.
  intros Hv Hd. destruct (be_bytes_2 v Hv) as (a & b & E & _ & Hu). rewrite E in Hd.
  unfold u16at. rewrite (get_at rec p a (b :: post)) by done. cbn [mbind outcome_bind].
  rewrite (get_at rec (p + 1) b post); [cbn; by rewrite Hu|].
  by apply (at_next rec p [a]).
Qed.

(** Which key share a list of extensions has. *)
Definition key_share_of (acc : option bytes) (e : Z * bytes) : option bytes :=
  if e.1 =? 0x0033 then match parse_key_share e.2 with Val k => Some k | _ => None end else acc.

(** No input makes a parser panic. *)
Lemma index_lt b i : (i < length b)%nat → ∃ x, index_byte b i = Val x.
Proof. intros Hi. unfold index_byte. destruct (lookup_lt_is_Some_2 b i Hi) as [x ->]. eauto. Qed.
Lemma index_range_le b i j : (i ≤ j)%nat → (j ≤ length b)%nat → index_range b i j = Val (range b i j).
Proof.
  intros Hi Hj. unfold index_range. destruct (Nat.leb_spec i j), (Nat.leb_spec j (length b)); [done|lia..].
Qed.

Lemma key_share_safe data : parse_key_share data ≠ Panics.
Proof.
  unfold parse_key_share. unfold u16at, get_byte. destruct (data !! 0%nat); [|done].
  cbn [mbind outcome_bind]. destruct (data !! (0 + 1)%nat); [|done]. cbn [mbind outcome_bind].
  set (end_ := Nat.min _ _). assert (end_ ≤ length data)%nat as Hend by (unfold end_; lia).
  generalize 2%nat. generalize (length data) at 1. intros fuel.
  induction fuel as [|fuel IH]; intros p; [done|]. cbn [key_share_loop].
  destruct (Nat.leb_spec (p + 4) end_); [|done].
  destruct (index_lt data p) as [g0 ->]; [lia|]. destruct (index_lt data (p + 1)) as [g1 ->]; [lia|].
  destruct (index_lt data (p + 2)) as [k0 ->]; [lia|]. destruct (index_lt data (p + 3)) as [k1 ->]; [lia|].
  cbn [mbind outcome_bind]. destruct (Nat.ltb_spec (length data) (p + 4 + u16_of k0 k1)); [done|].
  destruct (_ && _); [|apply IH]. rewrite index_range_le by lia. cbn. unfold array32. by destruct (_ =? _)%nat.
Qed.

Lemma extension_loop_safe fuel rec ext_end : (ext_end ≤ length rec)%nat →
  ∀ p acc, extension_loop fuel rec p ext_end acc ≠ Panics.
Proof.
  intros Hend. induction fuel as [|fuel IH]; intros p acc; [done|]. cbn [extension_loop].
  destruct (Nat.leb_spec (p + 4) ext_end); [|done].
  destruct (u16at rec p) as [etype| |] eqn:E1; [|done|]; cbn [mbind outcome_bind].
  2:{ revert E1. unfold u16at, get_byte. by repeat case_match. }
  destruct (u16at rec (p + 2)) as [elen| |] eqn:E2; [|done|]; cbn [mbind outcome_bind].
  2:{ revert E2. unfold u16at, get_byte. by repeat case_match. }
  destruct (Nat.ltb_spec ext_end (p + 4 + elen)); [done|].
  destruct (etype =? 0x0033)%nat; [|apply IH]. rewrite index_range_le by lia. cbn [mbind outcome_bind].
  pose proof (key_share_safe (range rec (p + 4) (p + 4 + elen))).
  by destruct (parse_key_share _); cbn [to_option mbind outcome_bind]; [apply IH..|].
Qed.

Lemma bind_safe {A B} (m : outcome A) (k : A → outcome B) :
  m ≠ Panics → (∀ a, m = Val a → k a ≠ Panics) → m ≫= k ≠ Panics.
Proof. destruct m; cbn; auto. Qed.
Lemma get_safe b i : get_byte b i ≠ Panics.
Proof. unfold get_byte. by case_match. Qed.
Lemma u16at_safe b i : u16at b i ≠ Panics.
Proof. unfold u16at, get_byte. by repeat case_match. Qed.
Lemma get_range_safe b i j : get_range b i j ≠ Panics.
Proof. unfold get_range. by case_match. Qed.
Lemma array32_safe b : array32 b ≠ Panics.
Proof. unfold array32. by case_match. Qed.
Lemma guard_safe {A} (b : bool) (m : outcome A) : m ≠ Panics → (if b then Nothing else m) ≠ Panics.
Proof. by destruct b. Qed.
Lemma index_safe b i : (i < length b)%nat → index_byte b i ≠ Panics.
Proof. intros Hi. by destruct (index_lt b i Hi) as [x ->]. Qed.
Lemma index_range_safe b i j : (i ≤ j)%nat → (j ≤ length b)%nat → index_range b i j ≠ Panics.
Proof. intros Hi Hj. by rewrite index_range_le. Qed.
Lemma to_option_safe {A} (m : outcome A) : m ≠ Panics → to_option m ≠ Panics.
Proof. by destruct m. Qed.

Create HintDb safe.
#[export] Hint Resolve get_safe u16at_safe get_range_safe array32_safe index_safe
  index_range_safe to_option_safe : safe.

(** Follow the structure of a parser. *)
Ltac safe :=
  repeat first
    [ done
    | solve [eauto with safe]
    | apply bind_safe; [|intros ? ?]
    | lazymatch goal with |- (if negb _ then _ else _) ≠ _ => apply guard_safe end ].

Lemma extract_safe rec : extract_client_hello_fields rec ≠ Panics.
Proof.
  unfold extract_client_hello_fields. safe.
  destruct (length rec <? _)%nat eqn:E; [done|]. apply Nat.ltb_ge in E.
  apply bind_safe; [by apply extension_loop_safe|]. intros [x|] _; done.
Qed.

Lemma take_hs_msg_safe buf : take_hs_msg buf ≠ Panics.
Proof.
  unfold take_hs_msg. destruct (Nat.ltb_spec (length buf) 4); [done|].
  apply bind_safe; [apply index_safe; lia|intros a _].
  apply bind_safe; [apply index_safe; lia|intros b _].
  apply bind_safe; [apply index_safe; lia|intros c _].
  destruct (Nat.ltb_spec (length buf) (4 + u24_of a b c)); [done|].
  apply bind_safe; [apply index_safe; lia|intros t _].
  apply bind_safe; [apply index_range_safe; lia|done].
Qed.

Lemma server_extension_loop_safe fuel msg ext_end : (ext_end ≤ length msg)%nat →
  ∀ p acc, server_extension_loop fuel msg p ext_end acc ≠ Panics.
Proof.
  intros Hend. induction fuel as [|fuel IH]; intros p acc; [done|]. cbn [server_extension_loop].
  destruct (Nat.leb_spec (p + 4) ext_end); [|done].
  apply bind_safe; [apply index_safe; lia|intros t0 _].
  apply bind_safe; [apply index_safe; lia|intros t1 _].
  apply bind_safe; [apply index_safe; lia|intros l0 _].
  apply bind_safe; [apply index_safe; lia|intros l1 _].
  destruct (Nat.ltb_spec (length msg) (p + 4 + u16_of l0 l1)); [done|].
  apply bind_safe; [|auto].
  destruct (_ && (4 <=? _)%nat) eqn:E; [|done]. apply andb_prop in E as [_ E%Nat.leb_le].
  apply bind_safe; [apply index_safe; lia|intros g0 _].
  apply bind_safe; [apply index_safe; lia|intros g1 _].
  apply bind_safe; [apply index_safe; lia|intros k0 _].
  apply bind_safe; [apply index_safe; lia|intros k1 _].
  destruct (_ && _); [safe|done].
Qed.

Lemma parse_server_hello_safe msg : parse_server_hello msg ≠ Panics.
Proof.
  unfold parse_server_hello. safe; [apply server_extension_loop_safe; lia|by case_match].
Qed.

Lemma certificate_parsers_safe msg : extract_leaf_pub msg ≠ Panics ∧ extract_certverify_sig msg ≠ Panics.
Proof. unfold extract_leaf_pub, extract_certverify_sig, u24. split; safe. Qed.

(** ** Reading back *)

Lemma key_share_round fuel data p end_ group key post :
  (p + 4 ≤ end_)%nat → 0 ≤ group < 65536 → len key ≤ 65535 →
  drop p data = be_bytes 2 group ++ prefixed 2 key ++ post →
  key_share_loop (S fuel) data p end_ =
    if (group =? X25519) && (len key =? 32) then Val key
    else key_share_loop fuel data (p + 4 + length key) end_.
Proof.
  intros Hend Hg Hk Hd. pose proof (len_nonneg key).
  destruct (be_bytes_2 group Hg) as (g0 & g1 & Eg & _ & Hg').
  destruct (be_bytes_2 (len key) ltac:(lia)) as (k0 & k1 & Ek & _ & Hk').
  pose proof (f_equal length Hd) as Hl. rewrite length_drop, !length_app, length_be_bytes, len_prefixed_nat in Hl.
  unfold prefixed in Hd. rewrite Eg, Ek in Hd. cbn [app] in Hd.
  cbn [key_share_loop]. destruct (Nat.leb_spec (p + 4) end_); [|lia].
  pose proof (at_next data p [g0] _ Hd) as Hd1. pose proof (at_next data p [g0; g1] _ Hd) as Hd2.
  pose proof (at_next data p [g0; g1; k0] _ Hd) as Hd3. pose proof (at_next data p [g0; g1; k0; k1] _ Hd) as Hd4.
  cbn [length] in Hd1, Hd2, Hd3, Hd4.
  rewrite (index_at _ _ _ _ Hd), (index_at _ _ _ _ Hd1), (index_at _ _ _ _ Hd2), (index_at _ _ _ _ Hd3).
  cbn [mbind outcome_bind]. rewrite Hg', Hk'. replace (Z.to_nat (len key)) with (length key) by (unfold len; lia).
  destruct (Nat.ltb_spec (length data) (p + 4 + length key)); [lia|].
  replace (Z.to_nat group =? 29)%nat with (group =? X25519)
    by (unfold X25519; destruct (Nat.eqb_spec (Z.to_nat group) 29), (Z.eqb_spec group 29); lia).
  replace (length key =? 32)%nat with (len key =? 32)
    by (unfold len; destruct (Nat.eqb_spec (length key) 32), (Z.eqb_spec (Z.of_nat (length key)) 32); lia).
  destruct ((group =? X25519) && (len key =? 32)) eqn:E; [|done].
  rewrite index_range_le by lia. rewrite (range_at data _ _ _ _ Hd4 eq_refl).
  apply andb_prop in E as [_ E%Z.eqb_eq]. cbn. unfold array32, len in *.
  by destruct (Nat.eqb_spec (length key) 32); [|lia].
Qed.

Lemma parse_key_share_built group x25519_pub :
  0 ≤ group < 65536 → group ≠ X25519 → len x25519_pub = 32 →
  parse_key_share (prefixed 2 (be_bytes 2 group ++ prefixed 2 (be_bytes 1 0) ++ be_bytes 2 X25519
                               ++ prefixed 2 x25519_pub)) = Val x25519_pub.
Proof.
  intros Hg Hne Hp. set (body := be_bytes 2 group ++ _). set (data := prefixed 2 body).
  assert (len body = 41) as Hbody by (unfold body; lens; lia).
  assert (length data = 43%nat) as Hd by (unfold data; rewrite len_prefixed_nat; unfold len in *; lia).
  assert (drop 2 data = body) as Hdrop.
  { unfold data, prefixed. apply (at_next _ 0 (be_bytes 2 (len body)) body eq_refl). }
  unfold parse_key_share. rewrite (u16at_be data 0 (len body) body); [|lia|done].
  cbn [mbind outcome_bind]. rewrite Hd, Hbody. change (Nat.min (2 + Z.to_nat 41) 43) with 43%nat.
  change 43%nat with (S (S 41)) at 1.
  rewrite (key_share_round _ _ _ _ group (be_bytes 1 0) (be_bytes 2 X25519 ++ prefixed 2 x25519_pub));
    [|lia|done|by rewrite len_be_bytes|rewrite Hdrop; unfold body; done].
  destruct (Z.eqb_spec group X25519); [done|]. cbn [andb].
  rewrite length_be_bytes.
  rewrite (key_share_round _ _ _ _ X25519 x25519_pub []); [|lia|unfold X25519; lia|lia|].
  { by rewrite Hp. }
  rewrite app_nil_r. unfold body in Hdrop.
  apply (at_next data 2 (be_bytes 2 group ++ prefixed 2 (be_bytes 1 0))).
  by rewrite Hdrop, <-!app_assoc.
Qed.

(** Over the extensions, the loop keeps the last key share. *)
Lemma extension_loop_exts exts : ∀ rec p post acc fuel,
  drop p rec = (exts ≫= ext_bytes) ++ post →
  Forall (λ e, 0 ≤ e.1 < 65536 ∧ len e.2 ≤ 65535) exts → (length exts < fuel)%nat →
  extension_loop fuel rec p (p + length (exts ≫= ext_bytes)) acc = Val (foldl key_share_of acc exts).
Proof.
  induction exts as [|[t body] exts IH]; intros rec p post acc fuel Hd Hok Hfuel.
  { destruct fuel; [lia|]. cbn [extension_loop mbind list_bind length].
    destruct (Nat.leb_spec (p + 4) (p + 0)); [lia|done]. }
  destruct fuel as [|fuel]; [lia|]. apply Forall_cons in Hok as [[Ht Hb] Hok]. cbn [fst snd] in Ht, Hb.
  cbn [mbind list_bind] in *. unfold ext_bytes in Hd at 1. cbn [fst snd] in Hd.
  rewrite <-!app_assoc in Hd. set (rest := exts ≫= ext_bytes) in *.
  pose proof (at_next rec _ _ _ Hd) as Hd1. rewrite length_be_bytes in Hd1.
  unfold prefixed in Hd1. rewrite <-app_assoc in Hd1.
  pose proof (at_next rec _ _ _ Hd1) as Hd2. rewrite length_be_bytes in Hd2.
  replace (p + 2 + 2)%nat with (p + 4)%nat in Hd2 by lia.
  pose proof (at_next rec _ _ _ Hd2) as Hd3.
  pose proof (len_nonneg body). cbn [extension_loop].
  assert (length (ext_bytes (t, body) ++ rest) = 4 + length body + length rest)%nat as Hl.
  { unfold ext_bytes, prefixed. cbn [fst snd]. rewrite !length_app, !length_be_bytes. lia. }
  rewrite Hl. destruct (Nat.leb_spec (p + 4) (p + (4 + length body + length rest))); [|lia].
  rewrite (u16at_be rec p t _ Ht Hd). cbn [mbind outcome_bind].
  rewrite (u16at_be rec (p + 2) (len body) _ ltac:(lia) Hd1). cbn [mbind outcome_bind].
  replace (Z.to_nat (len body)) with (length body) by (unfold len; lia).
  destruct (Nat.ltb_spec (p + (4 + length body + length rest)) (p + 4 + length body)); [lia|].
  assert (∀ acc', extension_loop fuel rec (p + 4 + length body) (p + (4 + length body + length rest)) acc'
          = Val (foldl key_share_of acc' exts)) as Hnext.
  { intros acc'. rewrite <-(IH rec (p + 4 + length body)%nat post acc' fuel Hd3 Hok) by (cbn in Hfuel; lia).
    f_equal. lia. }
  assert ((Z.to_nat t =? 51)%nat = (t =? 0x0033)) as -> by (destruct (Nat.eqb_spec (Z.to_nat t) 51), (Z.eqb_spec t 51); lia).
  cbn [foldl]. unfold key_share_of at 2. cbn [fst snd]. destruct (t =? 0x0033); [|apply Hnext].
  apply (f_equal length) in Hd. rewrite length_drop, !length_app, length_be_bytes, len_prefixed_nat in Hd.
  rewrite index_range_le by lia. rewrite (range_at rec _ _ _ _ Hd2 eq_refl). cbn [mbind outcome_bind].
  pose proof (key_share_safe body). destruct (parse_key_share body); cbn [to_option mbind outcome_bind]; [apply Hnext..|done].
Qed.

Record grease_ok (g : Grease) : Prop := {
  go_cipher : g_cipher g ∈ GREASE;
  go_group : g_group g ∈ GREASE;
  go_ext_lead : g_ext_lead g ∈ GREASE;
  go_version : g_version g ∈ GREASE;
  go_ext_trail : g_ext_trail g ∈ GREASE }.

Lemma grease_value v : v ∈ GREASE → 0 ≤ v < 65536 ∧ v ≠ 0x0033 ∧ v ≠ X25519.
Proof.
  intros Hv. assert (Forall (λ v, 0 ≤ v < 65536 ∧ v ≠ 0x0033 ∧ v ≠ X25519) GREASE) as HF.
  { unfold GREASE, X25519. repeat constructor; lia. }
  rewrite Forall_forall in HF. auto.
Qed.

Lemma array32_ok b : len b = 32 → array32 b = Val b.
Proof. unfold array32, len. intros Hb. by destruct (Nat.eqb_spec (length b) 32); [|lia]. Qed.

(** The parser on any record that is laid out like a ClientHello. *)
Lemma extract_laid_out rec head random session_id ciphers comp exts post :
  rec = head ++ be_bytes 2 0x0303 ++ random ++ prefixed 1 session_id ++ prefixed 2 ciphers
        ++ prefixed 1 comp ++ prefixed 2 (exts ≫= ext_bytes) ++ post →
  length head = 9%nat → get_byte rec 0 = Val Byte.x16 → get_byte rec 5 = Val Byte.x01 →
  len random = 32 → len session_id = 32 → len ciphers ≤ 65535 → len comp ≤ 255 →
  len (exts ≫= ext_bytes) ≤ 65535 →
  Forall (λ e, 0 ≤ e.1 < 65536 ∧ len e.2 ≤ 65535) exts → (length exts < length rec)%nat →
  extract_client_hello_fields rec =
    match foldl key_share_of None exts with
    | Some x25519_pub => Val (mkHelloFields random session_id x25519_pub)
    | None => Nothing
    end.
Proof.
  intros Hrec Hhead H0 H5 Hr Hs Hc Hco Hel Hok Hfuel. unfold extract_client_hello_fields.
  rewrite H0, H5. cbn [mbind outcome_bind]. change (bv Byte.x16 =? 22) with true.
  change (bv Byte.x01 =? 1) with true. cbn [negb].
  assert (length random = 32 ∧ length session_id = 32)%nat as [Hr' Hs'] by (unfold len in *; lia).
  pose proof (at_next rec 0 head _ Hrec) as D9. rewrite Hhead in D9. cbn [plus Nat.add] in D9.
  pose proof (at_next rec _ _ _ D9) as D11. rewrite length_be_bytes in D11. cbn [plus Nat.add] in D11.
  pose proof (at_next rec _ _ _ D11) as D43. rewrite Hr' in D43. cbn [plus Nat.add] in D43.
  unfold prefixed at 1 in D43. rewrite Hs, be_bytes_1 in D43. cbn [app] in D43.
  pose proof (at_next rec 43 [bz 32] _ D43) as D44. cbn [length plus Nat.add] in D44.
  pose proof (at_next rec _ _ _ D44) as D76. rewrite Hs' in D76. cbn [plus Nat.add] in D76.
  unfold prefixed at 1 in D76. rewrite <-app_assoc in D76.
  pose proof (at_next rec _ _ _ D76) as D78. rewrite length_be_bytes in D78. cbn [plus Nat.add] in D78.
  pose proof (at_next rec _ _ _ D78) as Dc. unfold prefixed at 1 in Dc. rewrite be_bytes_1 in Dc. cbn [app] in Dc.
  pose proof (at_next rec _ [bz (len comp)] _ Dc) as Dc1. cbn [length] in Dc1.
  pose proof (at_next rec _ _ _ Dc1) as De. unfold prefixed in De. rewrite <-app_assoc in De.
  pose proof (at_next rec _ _ _ De) as De2. rewrite length_be_bytes in De2.
  pose proof (len_nonneg ciphers). pose proof (len_nonneg comp). pose proof (len_nonneg (exts ≫= ext_bytes)).
  rewrite (u16at_be rec 9 0x0303 _ ltac:(lia) D9). cbn [mbind outcome_bind].
  rewrite (proj1 (ranges_at rec 11 random _ 43 D11 ltac:(lia) ltac:(lia))). cbn [mbind outcome_bind].
  rewrite (array32_ok random Hr). cbn [mbind outcome_bind].
  rewrite (get_at rec 43 _ _ D43). cbn [mbind outcome_bind]. change (bv (bz 32) =? 32) with true. cbn [negb].
  rewrite (proj1 (ranges_at rec 44 session_id _ 76 D44 ltac:(lia) ltac:(lia))). cbn [mbind outcome_bind].
  rewrite (array32_ok session_id Hs). cbn [mbind outcome_bind].
  rewrite (u16at_be rec 76 (len ciphers) _ ltac:(lia) D76). cbn [mbind outcome_bind].
  replace (Z.to_nat (len ciphers)) with (length ciphers) by (unfold len; lia).
  rewrite (get_at rec _ _ _ Dc). cbn [mbind outcome_bind]. rewrite (bv_bz_small (len comp)) by lia.
  replace (Z.to_nat (len comp)) with (length comp) by (unfold len; lia).
  assert (0 ≤ len (exts ≫= ext_bytes) < 65536) as Hx by lia. rewrite (u16at_be rec _ _ _ Hx De). cbn [mbind outcome_bind].
  replace (Z.to_nat (len (exts ≫= ext_bytes))) with (length (exts ≫= ext_bytes)) by (unfold len; lia).
  apply (f_equal length) in De. rewrite length_drop, !length_app, length_be_bytes in De.
  destruct (Nat.ltb_spec (length rec) (78 + length ciphers + 1 + length comp + 2 + length (exts ≫= ext_bytes))); [lia|].
  by rewrite (extension_loop_exts exts rec _ post None (length rec) De2 Hok Hfuel).
Qed.

Lemma all_bodies_key sni x25519_pub g record_len :
  len x25519_pub = 32 → grease_ok g →
  foldl key_share_of None (all_bodies sni x25519_pub g record_len) = Some x25519_pub.
Proof.
  intros Hp Hg. destruct (grease_value _ (go_group _ Hg)) as (Hg1 & _ & Hg2).
  destruct (grease_value _ (go_ext_lead _ Hg)) as (_ & Hl & _).
  destruct (grease_value _ (go_ext_trail _ Hg)) as (_ & Ht & _).
  pose proof (parse_key_share_built (g_group g) x25519_pub Hg1 Hg2 Hp) as Hk.
  unfold all_bodies, hello_bodies. rewrite foldl_app. cbn [foldl app]. unfold key_share_of. cbn [fst snd].
  rewrite Hk. rewrite (proj2 (Z.eqb_neq _ _) Hl), (proj2 (Z.eqb_neq _ _) Ht). reflexivity.
Qed.

Lemma all_bodies_ok sni x25519_pub g record_len :
  len x25519_pub = 32 → grease_ok g → Z.max record_len (303 + len sni) ≤ 65540 →
  let exts := all_bodies sni x25519_pub g record_len in
  Forall (λ e, 0 ≤ e.1 < 65536 ∧ len e.2 ≤ 65535) exts ∧ len (exts ≫= ext_bytes) ≤ 65535.
Proof.
  intros Hp Hg Hle. cbv zeta. pose proof (len_hello_bodies sni x25519_pub g Hp) as Hb.
  unfold all_bodies. set (pad := padding_len _ _).
  assert (Z.of_nat pad = Z.max (record_len - 302 - len sni) 1) as Hpad.
  { unfold pad, padding_len, fixed_len. rewrite Hb. change (len CIPHERS) with 15. lia. }
  assert (len (replicate pad Byte.x00) = Z.of_nat pad) as Hlp by (unfold len; by rewrite length_replicate).
  pose proof (len_nonneg sni). split.
  - destruct (grease_value _ (go_ext_lead _ Hg)) as [Hlead _].
    destruct (grease_value _ (go_ext_trail _ Hg)) as [Htrail _].
    apply Forall_app. split; [|apply Forall_singleton; cbn [fst snd]; lia].
    unfold hello_bodies. rewrite !Forall_cons. cbn [fst snd]. lens. split_and!; try lia.
    all: done || by constructor.
  - rewrite bind_app, len_app, Hb. cbn [mbind list_bind]. rewrite app_nil_r. unfold ext_bytes. cbn [fst snd].
    lens. lia.
Qed.

(** The fields the server extracts are those the client put in. *)
Lemma extract_built sni random session_id x25519_pub g record_len hello :
  len random = 32 → len session_id = 32 → len x25519_pub = 32 → grease_ok g →
  build_client_hello sni random session_id x25519_pub g record_len = Some hello →
  extract_client_hello_fields hello = Val (mkHelloFields random session_id x25519_pub).
Proof.
  intros Hr Hs Hp Hg Hb.
  destruct (build_client_hello_spec sni random session_id x25519_pub g record_len Hr Hs Hp) as (_ & Hout & Hlen).
  destruct (Hout _ Hb) as [-> Hle]. rewrite Hlen in Hle.
  destruct (all_bodies_ok sni x25519_pub g record_len Hp Hg Hle) as [Hok Hel].
  pose proof (all_bodies_key sni x25519_pub g record_len Hp Hg) as Hkey.
  assert (length (all_bodies sni x25519_pub g record_len) = 18%nat) as Hcount by done.
  revert Hlen. unfold hello_bytes, hello_body. set (exts := all_bodies sni x25519_pub g record_len) in *.
  set (inner := be_bytes 2 0x0303 ++ _). intros Hlen.
  set (head := be_bytes 1 0x16 ++ be_bytes 2 0x0301 ++ be_bytes 2 (len (be_bytes 1 0x01 ++ prefixed 3 inner))
               ++ be_bytes 1 0x01 ++ be_bytes 3 (len inner)).
  assert (be_bytes 1 0x16 ++ be_bytes 2 0x0301 ++ prefixed 2 (be_bytes 1 0x01 ++ prefixed 3 inner)
          = head ++ inner) as E by (unfold head, prefixed; by rewrite <-!app_assoc).
  rewrite E in *. pose proof (len_nonneg sni).
  rewrite (extract_laid_out (head ++ inner) head random session_id (cipher_bytes g) (be_bytes 1 0) exts []);
    [by rewrite Hkey|..|].
  all: try done.
  - unfold inner. by rewrite app_nil_r.
  - rewrite Hcount. unfold len in Hlen. lia.
Qed.

(** A handshake message: type, length, body. *)
Definition hs_message (t : Z) (body : bytes) : bytes := be_bytes 1 t ++ prefixed 3 body.

Lemma take_hs_msg_header t a b c rest :
  take_hs_msg (t :: a :: b :: c :: rest) =
    if (length rest <? u24_of a b c)%nat then Nothing
    else Val (t, t :: a :: b :: c :: take (u24_of a b c) rest, (4 + u24_of a b c)%nat).
Proof.
  unfold take_hs_msg, index_byte, index_range, range.
  destruct (Nat.ltb_spec (length (t :: a :: b :: c :: rest)) 4) as [Hl|_]; [cbn in Hl; lia|].
  cbn [lookup list_lookup mbind outcome_bind]. change (length (t :: a :: b :: c :: rest)) with (4 + length rest)%nat.
  generalize (u24_of a b c). intros n. destruct (Nat.ltb_spec (4 + length rest) (4 + n)), (Nat.ltb_spec (length rest) n); [done|lia|lia|].
  destruct (Nat.leb_spec (4 + n) (4 + length rest)); [done|lia].
Qed.

Lemma hs_message_header t body :
  len body < 16777216 →
  ∃ a b c, hs_message t body = bz t :: a :: b :: c :: body ∧ u24_of a b c = length body.
Proof.
  intros Hb. pose proof (len_nonneg body).
  destruct (be_bytes_3 (len body) ltac:(lia)) as (a & b & c & E & Hu). exists a, b, c.
  unfold hs_message, prefixed. rewrite E, be_bytes_1, Hu. split; [done|unfold len; lia].
Qed.

Lemma take_hs_msg_at t body rest :
  len body < 16777216 →
  take_hs_msg (hs_message t body ++ rest) = Val (bz t, hs_message t body, length (hs_message t body)).
Proof.
  intros Hb. destruct (hs_message_header t body Hb) as (a & b & c & -> & Hu). cbn [app].
  rewrite take_hs_msg_header, Hu, length_app, take_app_length.
  by destruct (Nat.ltb_spec (length body + length rest) (length body)); [lia|].
Qed.

(** A message that has not arrived completely. *)
Lemma take_hs_msg_partial t body part rest :
  len body < 16777216 → part ++ rest = hs_message t body → rest ≠ [] → take_hs_msg part = Nothing.
Proof.
  intros Hb Hp Hr. destruct (hs_message_header t body Hb) as (a & b & c & E & Hu). rewrite E in Hp.
  destruct part as [|p0 [|p1 [|p2 [|p3 part]]]]; try done.
  cbn [app] in Hp. injection Hp as -> -> -> -> Hp. rewrite take_hs_msg_header, Hu.
  apply (f_equal length) in Hp. rewrite length_app in Hp. destruct rest; [done|]. cbn [length] in Hp.
  destruct (Nat.ltb_spec (length part) (length body)); [done|lia].
Qed.

Definition server_hello_body (server_random sid_echo server_pub : bytes) (cipher : Z) : bytes :=
  be_bytes 2 0x0303 ++ server_random ++ prefixed 1 sid_echo ++ be_bytes 2 cipher ++ be_bytes 1 0
  ++ prefixed 2 (be_bytes 2 0x002b ++ prefixed 2 (be_bytes 2 0x0304) ++ be_bytes 2 0x0033
                 ++ prefixed 2 (be_bytes 2 0x001d ++ prefixed 2 server_pub)).

Lemma build_server_hello_spec server_random sid_echo server_pub cipher :
  len server_random = 32 → len sid_echo = 32 → len server_pub = 32 →
  build_server_hello server_random sid_echo server_pub cipher
  = Some (be_bytes 1 0x16 ++ be_bytes 2 0x0303
          ++ prefixed 2 (hs_message 0x02 (server_hello_body server_random sid_echo server_pub cipher))).
Proof.
  intros Hr Hs Hp. unfold build_server_hello, hs_message, server_hello_body.
  unshelve eapply (proj1 (emits_written _ _ (_ : Prop) _)); [..|emit|]. lens. lia.
Qed.

(** One round of the client's loop over the server's extensions. *)
Lemma server_extension_round fuel msg p ext_end t body post acc :
  (p + 4 ≤ ext_end)%nat → 0 ≤ t < 65536 → len body ≤ 65535 →
  drop p msg = be_bytes 2 t ++ prefixed 2 body ++ post →
  (t ≠ 0x0033 → server_extension_loop (S fuel) msg p ext_end acc
                = server_extension_loop fuel msg (p + 4 + length body) ext_end acc)
  ∧ (∀ key, t = 0x0033 → body = be_bytes 2 0x001d ++ prefixed 2 key → len key = 32 →
       server_extension_loop (S fuel) msg p ext_end acc
       = server_extension_loop fuel msg (p + 4 + length body) ext_end (Some key)).
Proof.
  intros Hend Ht Hb Hd. pose proof (len_nonneg body).
  destruct (be_bytes_2 t Ht) as (t0 & t1 & Et & _ & Ht').
  destruct (be_bytes_2 (len body) ltac:(lia)) as (l0 & l1 & El & _ & Hl').
  pose proof (f_equal length Hd) as Hl. rewrite length_drop, !length_app, length_be_bytes, len_prefixed_nat in Hl.
  unfold prefixed in Hd. rewrite Et, El in Hd. cbn [app] in Hd.
  cbn [server_extension_loop]. destruct (Nat.leb_spec (p + 4) ext_end); [|lia].
  pose proof (at_next msg p [t0] _ Hd) as Hd1. pose proof (at_next msg p [t0; t1] _ Hd) as Hd2.
  pose proof (at_next msg p [t0; t1; l0] _ Hd) as Hd3. pose proof (at_next msg p [t0; t1; l0; l1] _ Hd) as Hd4.
  cbn [length] in Hd1, Hd2, Hd3, Hd4.
  rewrite (index_at _ _ _ _ Hd), (index_at _ _ _ _ Hd1), (index_at _ _ _ _ Hd2), (index_at _ _ _ _ Hd3).
  cbn [mbind outcome_bind]. rewrite Ht', Hl'. replace (Z.to_nat (len body)) with (length body) by (unfold len; lia).
  destruct (Nat.ltb_spec (length msg) (p + 4 + length body)); [lia|].
  assert ((Z.to_nat t =? 51)%nat = (t =? 0x0033)) as -> by (destruct (Nat.eqb_spec (Z.to_nat t) 51), (Z.eqb_spec t 51); lia).
  split.
  { intros Hne. by rewrite (proj2 (Z.eqb_neq _ _) Hne). }
  intros key -> Hbody Hk. cbn [Z.eqb Pos.eqb andb].
  assert (length body = 36%nat) as Hl36.
  { rewrite Hbody, length_app, length_be_bytes, len_prefixed_nat. unfold len in Hk. lia. }
  rewrite Hl36. cbn [Nat.leb]. unfold prefixed in Hbody. rewrite Hk in Hbody.
  destruct (be_bytes_2 0x001d ltac:(lia)) as (g0 & g1 & Eg & _ & Hg').
  destruct (be_bytes_2 32 ltac:(lia)) as (k0 & k1 & Ek & _ & Hk').
  rewrite Eg, Ek in Hbody. rewrite Hbody in Hd4. cbn [app] in Hd4.
  pose proof (at_next msg _ [g0] _ Hd4) as D1. pose proof (at_next msg _ [g0; g1] _ Hd4) as D2.
  pose proof (at_next msg _ [g0; g1; k0] _ Hd4) as D3. pose proof (at_next msg _ [g0; g1; k0; k1] _ Hd4) as D4.
  cbn [length] in D1, D2, D3, D4.
  rewrite (index_at _ _ _ _ Hd4), (index_at _ _ _ _ D1), (index_at _ _ _ _ D2), (index_at _ _ _ _ D3).
  cbn [mbind outcome_bind]. rewrite Hg', Hk'. cbn [Nat.eqb andb Z.to_nat Pos.to_nat]. 
  rewrite (proj1 (ranges_at msg _ key _ (p + 4 + 4 + 32) D4 ltac:(unfold len in Hk; lia) ltac:(unfold len in Hk; lia))).
  cbn [mbind outcome_bind]. rewrite (array32_ok key Hk). done.
Qed.

Lemma parse_server_hello_built server_random sid_echo server_pub cipher :
  len server_random = 32 → len sid_echo = 32 → len server_pub = 32 → 0 ≤ cipher < 65536 →
  parse_server_hello (hs_message 0x02 (server_hello_body server_random sid_echo server_pub cipher))
  = Val (cipher, server_pub).
Proof.
  intros Hr Hs Hp Hc. set (body := server_hello_body _ _ _ _).
  assert (len body = 118) as Hbody by (unfold body, server_hello_body; lens; lia).
  set (msg := hs_message 2 body).
  assert (length msg = 122%nat) as Hlen.
  { unfold msg, hs_message. rewrite length_app, length_be_bytes, len_prefixed_nat. unfold len in Hbody. lia. }
  assert (length server_random = 32 ∧ length sid_echo = 32 ∧ length server_pub = 32)%nat as (Hr' & Hs' & Hp')
    by (unfold len in *; lia).
  assert (drop 4 msg = body) as D4.
  { unfold msg, hs_message, prefixed. by apply (at_next _ 0 (be_bytes 1 2 ++ be_bytes 3 (len body))). }
  unfold body, server_hello_body in D4.
  pose proof (at_next msg _ _ _ D4) as D6. rewrite length_be_bytes in D6. cbn [plus Nat.add] in D6.
  pose proof (at_next msg _ _ _ D6) as D38. rewrite Hr' in D38. cbn [plus Nat.add] in D38.
  pose proof D38 as D39. unfold prefixed at 1 in D38. rewrite Hs, be_bytes_1 in D38. cbn [app] in D38.
  pose proof (at_next msg _ _ _ D39) as D71. rewrite len_prefixed_nat, Hs' in D71. cbn [plus Nat.add] in D71.
  destruct (be_bytes_2 cipher Hc) as (c0 & c1 & Ec & Hcv & _). pose proof D71 as D71'. rewrite Ec in D71'.
  pose proof (at_next msg _ [c0] _ D71') as D72. cbn [length plus Nat.add] in D72.
  pose proof (at_next msg _ _ _ D71) as D73. rewrite length_be_bytes in D73. cbn [plus Nat.add] in D73.
  pose proof (at_next msg _ _ _ D73) as D74. rewrite length_be_bytes in D74. cbn [plus Nat.add] in D74.
  set (exts := be_bytes 2 0x002b ++ _) in D74.
  assert (len exts = 46) as Hexts by (unfold exts; lens; lia).
  unfold prefixed in D74. rewrite Hexts in D74.
  destruct (be_bytes_2 46 ltac:(lia)) as (e0 & e1 & Ee & _ & Hev). pose proof D74 as D74'. rewrite Ee in D74'.
  pose proof (at_next msg _ [e0] _ D74') as D75. cbn [length plus Nat.add] in D75.
  pose proof (at_next msg _ _ _ D74) as D76. rewrite length_be_bytes in D76. cbn [plus Nat.add] in D76.
  assert (get_byte msg 0 = Val (bz 2)) as H0 by done.
  unfold parse_server_hello. rewrite H0, (get_at _ _ _ _ D38). cbn [mbind outcome_bind].
  change (negb (bv (bz 2) =? 2)) with false. change (39 + Z.to_nat (bv (bz 32)))%nat with 71%nat.
  cbn [plus Nat.add]. rewrite (get_at _ _ _ _ D71'), (get_at _ _ _ _ D72). cbn [mbind outcome_bind].
  rewrite (get_at _ _ _ _ D74'), (get_at _ _ _ _ D75). cbn [mbind outcome_bind].
  rewrite Hev, Hlen, Hcv. change (Nat.min (76 + Z.to_nat 46) 122) with 122%nat.
  change 122%nat with (S (S (S 119))) at 1. unfold exts in D76.
  rewrite (proj1 (server_extension_round _ msg 76 122 0x002b (be_bytes 2 0x0304) _ None ltac:(lia) ltac:(lia) ltac:(done) D76)) by done.
  pose proof (at_next msg _ _ _ D76) as D78. rewrite length_be_bytes in D78. cbn [plus Nat.add] in D78.
  pose proof (at_next msg _ _ _ D78) as D82. rewrite len_prefixed_nat, length_be_bytes in D82.
  rewrite length_be_bytes. cbn [plus Nat.add] in *. rewrite <-(app_nil_r (prefixed 2 (_ ++ _))) in D82.
  rewrite (proj2 (server_extension_round _ msg 82 122 0x0033 (be_bytes 2 0x001d ++ prefixed 2 server_pub) _ None
             ltac:(lia) ltac:(lia) ltac:(lens; lia) D82)
             server_pub eq_refl eq_refl Hp).
  rewrite length_app, length_be_bytes, len_prefixed_nat, Hp'. done.
Qed.

Definition certificate_body (leaf_pub : bytes) (pad_len : nat) : bytes :=
  be_bytes 1 0 ++ prefixed 3 (prefixed 3 leaf_pub ++ be_bytes 2 0
    ++ (if (0 <? pad_len)%nat then prefixed 3 (replicate pad_len Byte.x00) ++ be_bytes 2 0 else [])).

Lemma reality_cert_msg_spec leaf_pub pad_len :
  len leaf_pub = 32 → Z.of_nat pad_len ≤ 65535 →
  reality_cert_msg leaf_pub pad_len = Some (hs_message 0x0b (certificate_body leaf_pub pad_len))
  ∧ len (certificate_body leaf_pub pad_len) ≤ 46 + Z.of_nat pad_len.
Proof.
  intros Hl Hp. unfold reality_cert_msg, hs_message, certificate_body.
  assert (len (replicate pad_len Byte.x00) = Z.of_nat pad_len) as Hr by (unfold len; by rewrite length_replicate).
  destruct (0 <? pad_len)%nat; cbn [app]; rewrite ?app_nil_r.
  all: split; [unshelve eapply (proj1 (emits_written _ _ (_ : Prop) _)); [..|emit|]|].
  all: lens; lia.
Qed.

Lemma extract_leaf_pub_built leaf_pub pad_len :
  len leaf_pub = 32 → Z.of_nat pad_len ≤ 65535 →
  extract_leaf_pub (hs_message 0x0b (certificate_body leaf_pub pad_len)) = Val leaf_pub.
Proof.
  intros Hl Hp. destruct (reality_cert_msg_spec leaf_pub pad_len Hl Hp) as [_ Hb].
  unfold certificate_body in *. set (list := prefixed 3 leaf_pub ++ _) in *.
  set (body := be_bytes 1 0 ++ _) in *. destruct (hs_message_header 0x0b body ltac:(lia)) as (a & b & c & -> & _).
  unfold body in *. rewrite be_bytes_1. cbn [app]. rewrite len_app, len_prefixed, len_be_bytes in Hb.
  pose proof (len_nonneg list). unfold prefixed.
  destruct (be_bytes_3 (len list) ltac:(lia)) as (l0 & l1 & l2 & -> & _). unfold list, prefixed. rewrite Hl.
  destruct (be_bytes_3 32 ltac:(lia)) as (c0 & c1 & c2 & -> & Hu). cbn [app].
  unfold extract_leaf_pub, u24, get_byte. cbn [lookup list_lookup mbind outcome_bind].
  change (5 + Z.to_nat (bv (bz 0)))%nat with 5%nat. cbn [plus Nat.add lookup list_lookup mbind outcome_bind].
  rewrite Hu.
  assert (length leaf_pub = 32%nat) as Hl' by (unfold len in Hl; lia).
  match goal with |- get_range ?r 11 _ ≫= _ = _ =>
    change (get_range r 11 43 ≫= (λ leaf, array32 leaf) = Val leaf_pub);
    rewrite (proj1 (ranges_at r 11 leaf_pub _ 43 eq_refl ltac:(lia) ltac:(lia))) end.
  cbn [mbind outcome_bind]. by apply array32_ok.
Qed.

Definition certverify_body (sig : bytes) : bytes := be_bytes 2 0x0807 ++ prefixed 2 sig.

Lemma certverify_msg_spec sig :
  len sig ≤ 65535 → certverify_msg sig = Some (hs_message 0x0f (certverify_body sig)).
Proof.
  intros Hs. unfold certverify_msg, hs_message, certverify_body.
  unshelve eapply (proj1 (emits_written _ _ (_ : Prop) _)); [..|emit|]. lens. lia.
Qed.

Lemma extract_certverify_sig_built sig :
  0 < len sig ≤ 65535 → extract_certverify_sig (hs_message 0x0f (certverify_body sig)) = Val sig.
Proof.
  intros Hs. set (body := certverify_body sig).
  assert (len body = 4 + len sig) as Hb by (unfold body, certverify_body; lens; lia).
  destruct (hs_message_header 0x0f body ltac:(lia)) as (a & b & c & -> & _).
  unfold body, certverify_body, prefixed.
  destruct (be_bytes_2 0x0807 ltac:(lia)) as (v0 & v1 & -> & _ & _).
  destruct (be_bytes_2 (len sig) ltac:(lia)) as (l0 & l1 & -> & _ & Hu). cbn [app].
  unfold extract_certverify_sig, get_byte. cbn [lookup list_lookup mbind outcome_bind]. rewrite Hu.
  assert (length sig = Z.to_nat (len sig)) as Hl by (unfold len; lia). rewrite <-Hl.
  apply (ranges_at _ 8 sig []); [|unfold len in Hs; lia|done]. by rewrite app_nil_r.
Qed.
