(* ===== verification/Tls13.v ===== *)
(** * TLS 1.3 of the REALITY carrier

    [shadowpipe-reality/src/tls13/]: key derivation ([kdf.rs]), key schedule ([schedule.rs]),
    record protection ([record.rs]) and the two handshake drivers ([client.rs], [server.rs]).
    [asio.rs] has the same drivers over an asynchronous stream; here a driver is a process
    ([Network]) that writes bytes and reads exactly as many as it asks for.  X25519, the
    hashes, HKDF, HMAC and the AEADs are parameters, and random values are arguments.  An
    [expect] that fails is the error [TlsPanic]. *)

From S2P Require Import Prelude Wire Network TlsMessages.

(** ** Third-party cryptography *)

Inductive Hash := Sha256 | Sha384.
Inductive AeadKind := Aes128Gcm | Aes256Gcm | ChaCha20Poly1305.

Definition hash_len (h : Hash) : nat := match h with Sha256 => 32 | Sha384 => 48 end.
Definition aead_key_len (a : AeadKind) : nat := match a with Aes128Gcm => 16 | _ => 32 end.

(** [x25519_dalek], [sha2], [hkdf], [hmac], [aes_gcm] and [chacha20poly1305]: [hkdf_expand]
    is [from_prk] followed by [expand]; an AEAD takes key, nonce, associated data and
    message. *)
Class TlsCrypto := {
  dh_public : bytes → bytes;
  dh_shared : bytes → bytes → bytes;
  was_contributory : bytes → bool;
  hash_bytes : Hash → bytes → bytes;
  hkdf_extract : Hash → bytes → bytes → bytes;
  hkdf_expand : Hash → bytes → bytes → nat → option bytes;
  hmac_bytes : Hash → bytes → bytes → bytes;
  hmac_sha512 : bytes → bytes → bytes;
  aead_encrypt : AeadKind → bytes → bytes → bytes → bytes → option bytes;
  aead_decrypt : AeadKind → bytes → bytes → bytes → bytes → option bytes;
}.

(** Both ends of a key exchange compute the same secret; outputs have their standard sizes;
    HKDF delivers up to 255 blocks from a key of at least one block; opening inverts sealing and
    accepts nothing else; a tag has sixteen bytes; messages of a moderate size can be sealed. *)
Class TlsCryptoLaws (C : TlsCrypto) := {
  dh_public_length s : len (dh_public s) = 32;
  dh_comm s t : dh_shared s (dh_public t) = dh_shared t (dh_public s);
  hash_bytes_length h m : length (hash_bytes h m) = hash_len h;
  hkdf_extract_length h s i : length (hkdf_extract h s i) = hash_len h;
  hkdf_expand_total h k i n : (hash_len h ≤ length k)%nat → (n ≤ 255 * hash_len h)%nat →
    ∃ out, hkdf_expand h k i n = Some out ∧ length out = n;
  hmac_bytes_length h k m : length (hmac_bytes h k m) = hash_len h;
  hmac_sha512_length k m : len (hmac_sha512 k m) = 64;
  aead_decrypt_encrypt a k n d p c : aead_encrypt a k n d p = Some c → aead_decrypt a k n d c = Some p;
  aead_encrypt_decrypt a k n d p c : aead_decrypt a k n d c = Some p → aead_encrypt a k n d p = Some c;
  aead_encrypt_length a k n d p c : aead_encrypt a k n d p = Some c → len c = len p + 16;
  aead_encrypt_total a k n d p : length k = aead_key_len a → length n = 12%nat →
    len p < 2 ^ 32 → len d < 2 ^ 32 → is_Some (aead_encrypt a k n d p);
}.

(** ** Cipher suites *)

Inductive Suite := Aes128GcmSha256 | ChaCha20Poly1305Sha256 | Aes256GcmSha384.

Definition Suite_from_id (id : Z) : option Suite :=
  if id =? 0x1301 then Some Aes128GcmSha256 else
  if id =? 0x1302 then Some Aes256GcmSha384 else
  if id =? 0x1303 then Some ChaCha20Poly1305Sha256 else None.
Definition Suite_id (s : Suite) : Z :=
  match s with Aes128GcmSha256 => 0x1301 | Aes256GcmSha384 => 0x1302 | ChaCha20Poly1305Sha256 => 0x1303 end.
Definition Suite_hash (s : Suite) : Hash := match s with Aes256GcmSha384 => Sha384 | _ => Sha256 end.
Definition key_len (s : Suite) : nat :=
  match s with Aes128GcmSha256 => 16 | ChaCha20Poly1305Sha256 => 32 | Aes256GcmSha384 => 32 end.
Definition Suite_aead (s : Suite) : AeadKind :=
  match s with
  | Aes128GcmSha256 => Aes128Gcm
  | Aes256GcmSha384 => Aes256Gcm
  | ChaCha20Poly1305Sha256 => ChaCha20Poly1305
  end.

(** The errors by their messages; [TlsRounds] is not one of the code, see [read_flight]. *)
Inductive TlsError :=
| TlsEof | TlsPanic | TlsRounds
| NotServerHelloRecord | BadServerHello | UnsupportedSuite | LowOrderServerShare
| DecryptServerFlight | NonHandshakeInFlight | AlertInFlight | UnexpectedInFlight
| ServerFinishedFailed | NoCertificate | NoCertificateVerify | BadCertificate
| BadCertificateVerify | ServerHmacMismatch
| NotClientHelloRecord | BadClientHello | LowOrderClientShare | DecryptClientFinished
| NonHandshakeFromClient | PartialClientFinished | NotFinished | ClientFinishedFailed
| AlertFromClient | UnexpectedFromClient
| DecryptApplicationData | AlertInApplicationData | PlaintextAlert.

(** [expect], [ok_or_else] on a parser's answer, [read_exact] and [write_all]. *)
Definition expect {A} (m : option A) : Proc TlsError A :=
  Done (match m with Some a => Ok a | None => Err TlsPanic end).
Definition parsed {A} (m : outcome A) (e : TlsError) : Proc TlsError A :=
  Done (match m with Val a => Ok a | Nothing => Err e | Panics => Err TlsPanic end).
Definition read_bytes (n : nat) : Proc TlsError bytes := get (read_exact (Z.of_nat n)) (λ _, TlsEof).
Definition write_bytes (b : bytes) : Proc TlsError () := put (λ _, TlsEof) (write_all b).
Definition fail {A} (e : TlsError) : Proc TlsError A := Done (Err e).

(** [&rec[5..]] *)
Definition after_header (rec : bytes) : outcome bytes := index_range rec 5 (length rec).

Record Transcript := mkTranscript { tr_hash : Hash; tr_messages : bytes }.

Section Tls.
Context {C : TlsCrypto}.

(** ** Key derivation *)

Definition hkdf_expand_label (secret label context : bytes) (n : nat) (hash : Hash) : option bytes :=
  let full := ascii "tls13 " ++ label in
  let info := be_bytes 2 (Z.of_nat n) ++ be_bytes 1 (len full) ++ full
              ++ be_bytes 1 (len context) ++ context in
  hkdf_expand hash secret info n.

Definition derive_secret (secret label transcript_hash : bytes) (hash : Hash) : option bytes :=
  hkdf_expand_label secret label transcript_hash (hash_len hash) hash.

Definition hash_empty (hash : Hash) : bytes := hash_bytes hash [].

(** The running hash is kept as what was hashed so far. *)
Definition Transcript_new (hash : Hash) : Transcript := mkTranscript hash [].
Definition Transcript_update (t : Transcript) (handshake_msg : bytes) : Transcript :=
  mkTranscript (tr_hash t) (tr_messages t ++ handshake_msg).
Definition Transcript_hash (t : Transcript) : bytes := hash_bytes (tr_hash t) (tr_messages t).

(** ** Key schedule *)

Record HandshakeSecrets := mkHandshakeSecrets {
  client_hs_traffic : bytes;
  server_hs_traffic : bytes;
  handshake_secret : bytes;
  hs_hash : Hash;
}.

Definition derive_handshake (ecdhe th_ch_sh : bytes) (hash : Hash) : option HandshakeSecrets :=
  let zero := replicate (hash_len hash) Byte.x00 in
  let early := hkdf_extract hash zero zero in
  derived ← derive_secret early (ascii "derived") (hash_empty hash) hash;
  let handshake_secret := hkdf_extract hash derived ecdhe in
  client ← derive_secret handshake_secret (ascii "c hs traffic") th_ch_sh hash;
  server ← derive_secret handshake_secret (ascii "s hs traffic") th_ch_sh hash;
  Some (mkHandshakeSecrets client server handshake_secret hash).

(** The client's and the server's secret. *)
Definition application_secrets (hs : HandshakeSecrets) (th_ch_sfin : bytes) : option (bytes * bytes) :=
  let h := hs_hash hs in
  derived ← derive_secret (handshake_secret hs) (ascii "derived") (hash_empty h) h;
  let master := hkdf_extract h derived (replicate (hash_len h) Byte.x00) in
  client ← derive_secret master (ascii "c ap traffic") th_ch_sfin h;
  server ← derive_secret master (ascii "s ap traffic") th_ch_sfin h;
  Some (client, server).

Definition finished_verify_data (traffic_secret transcript_hash : bytes) (hash : Hash) : option bytes :=
  fk ← hkdf_expand_label traffic_secret (ascii "finished") [] (hash_len hash) hash;
  Some (hmac_bytes hash fk transcript_hash).

(** ** Record protection *)

Record RecordCrypto := mkRecordCrypto {
  rc_aead : AeadKind;
  rc_key : bytes;
  rc_iv : bytes;
  rc_seq : Z;
}.

Definition RecordCrypto_new (traffic_secret : bytes) (suite : Suite) : option RecordCrypto :=
  let h := Suite_hash suite in
  key ← hkdf_expand_label traffic_secret (ascii "key") [] (key_len suite) h;
  iv ← hkdf_expand_label traffic_secret (ascii "iv") [] 12 h;
  if negb (length iv =? 12)%nat then None else
  if negb (length key =? aead_key_len (Suite_aead suite))%nat then None else
  Some (mkRecordCrypto (Suite_aead suite) key iv 0).

Definition xor_byte (a b : byte) : byte := bz (Z.lxor (bv a) (bv b)).

Definition record_nonce (rc : RecordCrypto) : bytes :=
  take 4 (rc_iv rc) ++ zip_with xor_byte (drop 4 (rc_iv rc)) (be_bytes 8 (rc_seq rc)).

(** [self.seq += 1] *)
Definition next_seq (rc : RecordCrypto) : RecordCrypto :=
  mkRecordCrypto (rc_aead rc) (rc_key rc) (rc_iv rc) ((rc_seq rc + 1) mod 2 ^ 64).

Definition seal_padded (rc : RecordCrypto) (content_type : Z) (content : bytes) (pad : nat)
  : option (RecordCrypto * bytes) :=
  let inner := content ++ be_bytes 1 content_type ++ replicate pad Byte.x00 in
  let header := [Byte.x17; Byte.x03; Byte.x03] ++ be_bytes 2 (len inner + 16) in
  ct ← aead_encrypt (rc_aead rc) (rc_key rc) (record_nonce rc) header inner;
  Some (next_seq rc, header ++ ct).

Definition RecordCrypto_seal (rc : RecordCrypto) (content_type : Z) (content : bytes)
  : option (RecordCrypto * bytes) :=
  seal_padded rc content_type content 0.

(** [while inner.last() == Some(&0) { inner.pop(); }], on the reversed bytes *)
Fixpoint skip_zeros (l : bytes) : bytes :=
  match l with
  | b :: l' => if bv b =? 0 then skip_zeros l' else l
  | [] => []
  end.

Definition RecordCrypto_open (rc : RecordCrypto) (record : bytes) : RecordCrypto * option (Z * bytes) :=
  if (length record <? 5 + 16)%nat then (rc, None) else
  match aead_decrypt (rc_aead rc) (rc_key rc) (record_nonce rc) (take 5 record) (drop 5 record) with
  | None => (rc, None)
  | Some inner =>
      (next_seq rc,
       match skip_zeros (reverse inner) with
       | [] => None
       | content_type :: content => Some (bv content_type, reverse content)
       end)
  end.

(** ** Records on the stream *)

Definition read_record : Proc TlsError (Z * bytes) :=
  hdr ← read_bytes 5;
  match hdr with
  | [t; _; _; a; b] => body ← read_bytes (u16_of a b); mret (bv t, hdr ++ body)
  | _ => fail TlsPanic
  end.

(** ** The client *)

Inductive CertVerify := Skip | RealityHmac (auth_key : bytes).

Record ClientConnection := mkClientConnection {
  cl_client_app : RecordCrypto;
  cl_server_app : RecordCrypto;
}.

Definition reality_cert_hmac (auth_key leaf_pub : bytes) : bytes := hmac_sha512 auth_key leaf_pub.

(** What the loop over the server's flight keeps. *)
Record Flight := mkFlight {
  fl_tr : Transcript;
  fl_buf : bytes;
  fl_cert : option bytes;
  fl_certverify : option bytes;
}.

(** A message of the flight other than Finished. *)
Definition note_message (st : Flight) (mtype : Z) (msg buf : bytes) : Flight :=
  mkFlight (Transcript_update (fl_tr st) msg) buf
    (if mtype =? 0x0b then Some msg else fl_cert st)
    (if (mtype =? 0x0f) then Some msg else fl_certverify st).

(** The inner loop: take messages off the buffer up to the Finished; each has four bytes or
    more. *)
Fixpoint drain_messages (fuel : nat) (st : Flight) : outcome (Flight * option bytes) :=
  match fuel with
  | O => Val (st, None)
  | S fuel =>
      match take_hs_msg (fl_buf st) with
      | Nothing => Val (st, None)
      | Panics => Panics
      | Val (mtype, msg, used) =>
          let buf := drop used (fl_buf st) in
          if bv mtype =? 0x14
          then Val (mkFlight (fl_tr st) buf (fl_cert st) (fl_certverify st), Some msg)
          else drain_messages fuel (note_message st (bv mtype) msg buf)
      end
  end.

Definition extend_buf (st : Flight) (pt : bytes) : Flight :=
  mkFlight (fl_tr st) (fl_buf st ++ pt) (fl_cert st) (fl_certverify st).

(** The outer loop, for at most [rounds] records. *)
Fixpoint read_flight (rounds : nat) (server_hs : RecordCrypto) (st : Flight)
  : Proc TlsError (Flight * bytes) :=
  match rounds with
  | O => fail TlsRounds
  | S rounds =>
      '(st, fin) ← parsed (drain_messages (length (fl_buf st)) st) TlsPanic;
      match fin with
      | Some msg => mret (st, msg)
      | None =>
          '(outer, rec) ← read_record;
          if outer =? 0x14 then read_flight rounds server_hs st
          else if outer =? 0x17 then
            let '(server_hs, opened) := RecordCrypto_open server_hs rec in
            match opened with
            | None => fail DecryptServerFlight
            | Some (ct, pt) =>
                if negb (ct =? 0x16) then fail NonHandshakeInFlight
                else read_flight rounds server_hs (extend_buf st pt)
            end
          else if outer =? 0x15 then fail AlertInFlight
          else fail UnexpectedInFlight
      end
  end.

(** [msg[4..] != expected[..]] *)
Definition finished_is (msg expected : bytes) : bool := bool_decide (drop 4 msg = expected).

(** The REALITY check of certificate and signature. *)
Definition check_certificate (verify : CertVerify) (st : Flight) : Proc TlsError () :=
  match verify with
  | Skip => mret ()
  | RealityHmac auth_key =>
      match fl_cert st with
      | None => fail NoCertificate
      | Some cert =>
          match fl_certverify st with
          | None => fail NoCertificateVerify
          | Some cv =>
              leaf ← parsed (extract_leaf_pub cert) BadCertificate;
              sig ← parsed (extract_certverify_sig cv) BadCertificateVerify;
              ensure (bool_decide (sig = reality_cert_hmac auth_key leaf)) ServerHmacMismatch
          end
      end
  end.

Definition CHANGE_CIPHER_SPEC : bytes := [Byte.x14; Byte.x03; Byte.x03; Byte.x00; Byte.x01; Byte.x01].

(** [vec![0x14, 0, 0, vd.len() as u8]] and the data *)
Definition finished_msg (vd : bytes) : bytes := [Byte.x14; Byte.x00; Byte.x00] ++ be_bytes 1 (len vd) ++ vd.

(** After the ServerHello. *)
Definition client_after_hello (rounds : nat) (suite : Suite) (tr : Transcript) (ecdhe : bytes)
    (verify : CertVerify) : Proc TlsError ClientConnection :=
  let hash := Suite_hash suite in
  hs ← expect (derive_handshake ecdhe (Transcript_hash tr) hash);
  server_hs ← expect (RecordCrypto_new (server_hs_traffic hs) suite);
  '(st, server_fin_msg) ← read_flight rounds server_hs (mkFlight tr [] None None);
  expected ← expect (finished_verify_data (server_hs_traffic hs) (Transcript_hash (fl_tr st)) hash);
  _ ← ensure (finished_is server_fin_msg expected) ServerFinishedFailed;
  _ ← check_certificate verify st;
  let th_app := Transcript_hash (Transcript_update (fl_tr st) server_fin_msg) in
  '(c_ap, s_ap) ← expect (application_secrets hs th_app);
  _ ← write_bytes CHANGE_CIPHER_SPEC;
  client_hs ← expect (RecordCrypto_new (client_hs_traffic hs) suite);
  cfin_vd ← expect (finished_verify_data (client_hs_traffic hs) th_app hash);
  '(_, rec) ← expect (RecordCrypto_seal client_hs 0x16 (finished_msg cfin_vd));
  _ ← write_bytes rec;
  client_app ← expect (RecordCrypto_new c_ap suite);
  server_app ← expect (RecordCrypto_new s_ap suite);
  mret (mkClientConnection client_app server_app).

(** From the ServerHello on. *)
Definition client_after_write (rounds : nat) (hello_record client_eph : bytes) (verify : CertVerify)
  : Proc TlsError ClientConnection :=
  '(sh_outer, sh_rec) ← read_record;
  _ ← ensure (sh_outer =? 0x16) NotServerHelloRecord;
  sh_msg ← parsed (after_header sh_rec) TlsPanic;
  '(cipher, server_pub) ← parsed (parse_server_hello sh_msg) BadServerHello;
  suite ← parsed (match Suite_from_id cipher with Some s => Val s | None => Nothing end) UnsupportedSuite;
  ch_msg ← parsed (after_header hello_record) TlsPanic;
  let tr := Transcript_update (Transcript_update (Transcript_new (Suite_hash suite)) ch_msg) sh_msg in
  let ecdhe := dh_shared client_eph server_pub in
  _ ← ensure (was_contributory ecdhe) LowOrderServerShare;
  client_after_hello rounds suite tr ecdhe verify.

Definition client_handshake (rounds : nat) (hello_record client_eph : bytes) (verify : CertVerify)
  : Proc TlsError ClientConnection :=
  _ ← write_bytes hello_record;
  client_after_write rounds hello_record client_eph verify.

(** ** The server *)

Record ServerConnection := mkServerConnection {
  sv_server_app : RecordCrypto;
  sv_client_app : RecordCrypto;
}.

Definition RECORD_MAX : nat := Z.to_nat 16384.

(** [flight.chunks(MAX)] and the last loop; a round takes a byte or more. *)
Fixpoint record_chunks (fuel : nat) (flight : bytes) : list bytes :=
  match fuel with
  | O => []
  | S fuel =>
      match flight with
      | [] => []
      | _ => take RECORD_MAX flight :: record_chunks fuel (drop RECORD_MAX flight)
      end
  end.

(** The loop over the plan, and then the remainder. *)
Fixpoint planned_chunks (flight : bytes) (plan : list nat) : list bytes :=
  match plan with
  | [] => record_chunks (length flight) flight
  | want :: plan =>
      match flight with
      | [] => []
      | _ => let n := Nat.min (Nat.min (Nat.max want 1) RECORD_MAX) (length flight) in
             take n flight :: planned_chunks (drop n flight) plan
      end
  end.

Definition split_for_records (flight : bytes) (plan : list nat) : list bytes :=
  match plan with
  | [] => match flight with [] => [[]] | _ => record_chunks (length flight) flight end
  | _ => planned_chunks flight plan
  end.

(** One record per chunk. *)
Fixpoint write_chunks (server_hs : RecordCrypto) (chunks : list bytes) : Proc TlsError RecordCrypto :=
  match chunks with
  | [] => mret server_hs
  | chunk :: chunks =>
      '(server_hs, rec) ← expect (RecordCrypto_seal server_hs 0x16 chunk);
      _ ← write_bytes rec;
      write_chunks server_hs chunks
  end.

Definition ENCRYPTED_EXTENSIONS : bytes := [Byte.x08; Byte.x00; Byte.x00; Byte.x02; Byte.x00; Byte.x00].

(** The key exchange and everything the server writes: the ServerHello and the flight. *)
Definition server_flight (ch_rec : bytes) (f : HelloFields) (cert_msg certverify_msg : bytes)
    (suite : Suite) (record_plan : list nat) (server_eph server_random : bytes)
  : Proc TlsError (HandshakeSecrets * bytes) :=
  ch_msg ← parsed (after_header ch_rec) TlsPanic;
  let hash := Suite_hash suite in
  let tr := Transcript_update (Transcript_new hash) ch_msg in
  let ecdhe := dh_shared server_eph (hf_x25519_pub f) in
  _ ← ensure (was_contributory ecdhe) LowOrderClientShare;
  sh ← expect (build_server_hello server_random (hf_session_id f) (dh_public server_eph) (Suite_id suite));
  sh_msg ← parsed (after_header sh) TlsPanic;
  let tr := Transcript_update tr sh_msg in
  _ ← write_bytes sh;
  hs ← expect (derive_handshake ecdhe (Transcript_hash tr) hash);
  server_hs ← expect (RecordCrypto_new (server_hs_traffic hs) suite);
  _ ← write_bytes CHANGE_CIPHER_SPEC;
  let tr := Transcript_update (Transcript_update (Transcript_update tr ENCRYPTED_EXTENSIONS) cert_msg)
              certverify_msg in
  sfin_vd ← expect (finished_verify_data (server_hs_traffic hs) (Transcript_hash tr) hash);
  let sfin := finished_msg sfin_vd in
  let flight := ENCRYPTED_EXTENSIONS ++ cert_msg ++ certverify_msg ++ sfin in
  _ ← write_chunks server_hs (split_for_records flight record_plan);
  mret (hs, Transcript_hash (Transcript_update tr sfin)).

(** The loop that waits for the client's Finished, for at most [rounds] records. *)
Fixpoint read_client_finished (rounds : nat) (client_hs : RecordCrypto) (expected : bytes)
  : Proc TlsError () :=
  match rounds with
  | O => fail TlsRounds
  | S rounds =>
      '(outer, rec) ← read_record;
      if outer =? 0x14 then read_client_finished rounds client_hs expected
      else if outer =? 0x17 then
        let '(_, opened) := RecordCrypto_open client_hs rec in
        match opened with
        | None => fail DecryptClientFinished
        | Some (ct, pt) =>
            _ ← ensure (ct =? 0x16) NonHandshakeFromClient;
            '(mtype, msg, _) ← parsed (take_hs_msg pt) PartialClientFinished;
            _ ← ensure (bv mtype =? 0x14) NotFinished;
            ensure (finished_is msg expected) ClientFinishedFailed
        end
      else if outer =? 0x15 then fail AlertFromClient
      else fail UnexpectedFromClient
  end.

(** The application secrets and the client's Finished. *)
Definition server_finish (rounds : nat) (suite : Suite) (hs : HandshakeSecrets) (th_app : bytes)
  : Proc TlsError ServerConnection :=
  '(c_ap, s_ap) ← expect (application_secrets hs th_app);
  client_hs ← expect (RecordCrypto_new (client_hs_traffic hs) suite);
  expected ← expect (finished_verify_data (client_hs_traffic hs) th_app (Suite_hash suite));
  _ ← read_client_finished rounds client_hs expected;
  server_app ← expect (RecordCrypto_new s_ap suite);
  client_app ← expect (RecordCrypto_new c_ap suite);
  mret (mkServerConnection server_app client_app).

Definition drive_server (rounds : nat) (ch_rec : bytes) (f : HelloFields)
    (cert_msg certverify_msg : bytes) (suite : Suite) (record_plan : list nat)
    (server_eph server_random : bytes) : Proc TlsError ServerConnection :=
  '(hs, th_app) ← server_flight ch_rec f cert_msg certverify_msg suite record_plan server_eph server_random;
  server_finish rounds suite hs th_app.

Definition server_handshake (rounds : nat) (cert_msg certverify_msg server_eph server_random : bytes)
  : Proc TlsError ServerConnection :=
  '(t, ch_rec) ← read_record;
  _ ← ensure (t =? 0x16) NotClientHelloRecord;
  f ← parsed (extract_client_hello_fields ch_rec) BadClientHello;
  drive_server rounds ch_rec f cert_msg certverify_msg Aes128GcmSha256 [] server_eph server_random.

(** ** Application data *)

(** [send], for the direction [rc]. *)
Definition send_data (rc : RecordCrypto) (data : bytes) : Proc TlsError RecordCrypto :=
  '(rc, rec) ← expect (RecordCrypto_seal rc 0x17 data);
  _ ← write_bytes rec;
  mret rc.

(** [recv], for at most [rounds] records. *)
Fixpoint recv_data (rounds : nat) (rc : RecordCrypto) : Proc TlsError (RecordCrypto * bytes) :=
  match rounds with
  | O => fail TlsRounds
  | S rounds =>
      '(outer, rec) ← read_record;
      if outer =? 0x17 then
        let '(rc, opened) := RecordCrypto_open rc rec in
        match opened with
        | None => fail DecryptApplicationData
        | Some (ct, pt) =>
            if ct =? 0x17 then mret (rc, pt)
            else if ct =? 0x15 then fail AlertInApplicationData
            else recv_data rounds rc
        end
      else if outer =? 0x15 then fail PlaintextAlert
      else recv_data rounds rc
  end.

End Tls.

(** ** The key schedule never fails *)

(** Keys of the sizes their AEAD takes. *)
Record rc_ok (rc : RecordCrypto) : Prop := {
  ro_key : length (rc_key rc) = aead_key_len (rc_aead rc);
  ro_iv : length (rc_iv rc) = 12%nat;
  ro_seq : 0 ≤ rc_seq rc < 2 ^ 64;
}.

Section KeySchedule.
Context {C : TlsCrypto} {L : TlsCryptoLaws C}.

Lemma expand_label_total secret label context n hash :
  (hash_len hash ≤ length secret)%nat → (n ≤ 255 * hash_len hash)%nat →
  ∃ out, hkdf_expand_label secret label context n hash = Some out ∧ length out = n.
Proof. intros. by apply hkdf_expand_total. Qed.

Lemma derive_secret_total secret label th hash :
  length secret = hash_len hash →
  ∃ out, derive_secret secret label th hash = Some out ∧ length out = hash_len hash.
Proof. intros Hs. apply expand_label_total; [lia|]. destruct hash; cbn; lia. Qed.

Lemma derive_handshake_total ecdhe th hash :
  ∃ hs, derive_handshake ecdhe th hash = Some hs ∧ hs_hash hs = hash
    ∧ length (client_hs_traffic hs) = hash_len hash ∧ length (server_hs_traffic hs) = hash_len hash
    ∧ length (handshake_secret hs) = hash_len hash.
Proof.
  unfold derive_handshake.
  edestruct (derive_secret_total (hkdf_extract hash (replicate (hash_len hash) Byte.x00)
    (replicate (hash_len hash) Byte.x00)) (ascii "derived") (hash_empty hash) hash) as (d & -> & _);
    [apply hkdf_extract_length|]. cbn [mbind option_bind].
  destruct (derive_secret_total (hkdf_extract hash d ecdhe) (ascii "c hs traffic") th hash) as (c & -> & Hc);
    [apply hkdf_extract_length|].
  destruct (derive_secret_total (hkdf_extract hash d ecdhe) (ascii "s hs traffic") th hash) as (s & -> & Hs);
    [apply hkdf_extract_length|].
  cbn [mbind option_bind]. eexists. split; [done|]. cbn. split_and!; [done..|]. apply hkdf_extract_length.
Qed.

Lemma application_secrets_total hs th :
  length (handshake_secret hs) = hash_len (hs_hash hs) →
  ∃ c s, application_secrets hs th = Some (c, s)
    ∧ length c = hash_len (hs_hash hs) ∧ length s = hash_len (hs_hash hs).
Proof.
  intros Hh. unfold application_secrets.
  destruct (derive_secret_total (handshake_secret hs) (ascii "derived") (hash_empty (hs_hash hs)) _ Hh)
    as (d & -> & _). cbn [mbind option_bind]. set (m := hkdf_extract _ _ _).
  assert (length m = hash_len (hs_hash hs)) as Hm by apply hkdf_extract_length.
  destruct (derive_secret_total m (ascii "c ap traffic") th _ Hm) as (c & -> & Hc).
  destruct (derive_secret_total m (ascii "s ap traffic") th _ Hm) as (s & -> & Hs).
  by exists c, s.
Qed.

Lemma finished_total secret th hash :
  length secret = hash_len hash →
  ∃ vd, finished_verify_data secret th hash = Some vd ∧ length vd = hash_len hash.
Proof.
  intros Hs. unfold finished_verify_data.
  destruct (expand_label_total secret (ascii "finished") [] (hash_len hash) hash) as (fk & -> & _);
    [lia|destruct hash; cbn; lia|].
  eexists. split; [done|]. apply hmac_bytes_length.
Qed.

Lemma RecordCrypto_new_total secret suite :
  length secret = hash_len (Suite_hash suite) →
  ∃ rc, RecordCrypto_new secret suite = Some rc ∧ rc_ok rc ∧ rc_seq rc = 0.
Proof.
  intros Hs. unfold RecordCrypto_new.
  destruct (expand_label_total secret (ascii "key") [] (key_len suite) (Suite_hash suite)) as (k & -> & Hk);
    [lia|destruct suite; cbn; lia|].
  destruct (expand_label_total secret (ascii "iv") [] 12 (Suite_hash suite)) as (iv & -> & Hiv);
    [lia|destruct suite; cbn; lia|].
  cbn [mbind option_bind]. rewrite Hk, Hiv. cbn [Nat.eqb negb].
  assert (key_len suite = aead_key_len (Suite_aead suite)) as Hl by by destruct suite.
  rewrite Hl, Nat.eqb_refl. cbn [negb]. eexists. split; [done|]. split; [|done].
  split; cbn; [by rewrite Hk|done|done].
Qed.
End KeySchedule.

Lemma Suite_from_to suite : Suite_from_id (Suite_id suite) = Some suite.
Proof. by destruct suite. Qed.

(** ** Sealed records open *)

Lemma skip_zeros_pad n t l : bv t ≠ 0 → skip_zeros (replicate n Byte.x00 ++ t :: l) = t :: l.
Proof.
  intros Ht. induction n as [|n IH]; cbn; [|done]. destruct (Z.eqb_spec (bv t) 0); [done|done].
Qed.

Section Records.
Context {C : TlsCrypto} {L : TlsCryptoLaws C}.

Lemma record_nonce_length rc : rc_ok rc → length (record_nonce rc) = 12%nat.
Proof.
  intros [_ Hiv _]. unfold record_nonce. rewrite length_app, length_zip_with, length_take, length_drop, length_be_bytes.
  lia.
Qed.
Lemma next_seq_ok rc : rc_ok rc → rc_ok (next_seq rc).
Proof. intros [? ? ?]. split; [done..|]. cbn. apply Z.mod_pos_bound. lia. Qed.

(** A record of type [t] that is as long as its header says. *)
Definition framed (t : Z) (rec : bytes) : Prop :=
  ∃ t0 v w a b body, rec = t0 :: v :: w :: a :: b :: body ∧ t = bv t0 ∧ u16_of a b = length body.

Lemma seal_padded_total rc ct content pad :
  rc_ok rc → len content + Z.of_nat pad < 2 ^ 31 →
  ∃ rec, seal_padded rc ct content pad = Some (next_seq rc, rec).
Proof.
  intros Hrc Hl. unfold seal_padded.
  edestruct (aead_encrypt_total (rc_aead rc) (rc_key rc) (record_nonce rc)) as [c ->].
  - apply Hrc.
  - by apply record_nonce_length.
  - rewrite !len_app, len_be_bytes. unfold len at 2. rewrite length_replicate. lia.
  - rewrite len_app, len_be_bytes. unfold len. cbn. lia.
  - eexists. done.
Qed.

Lemma seal_padded_spec rc rc' ct content pad rec :
  0 < ct < 256 → seal_padded rc ct content pad = Some (rc', rec) →
  rc' = next_seq rc ∧ RecordCrypto_open rc rec = (rc', Some (ct, content))
  ∧ len rec = 22 + len content + Z.of_nat pad
  ∧ (len content + Z.of_nat pad + 17 ≤ 65535 → framed 0x17 rec).
Proof.
  intros Hct H. unfold seal_padded in H. set (inner := content ++ _) in *. set (header := _ ++ be_bytes 2 _) in *.
  destruct (aead_encrypt _ _ _ _ _) as [c|] eqn:He; [|done]. apply (inj Some), pair_equal_spec in H as [<- <-].
  assert (len inner = len content + 1 + Z.of_nat pad) as Hi.
  { unfold inner. rewrite !len_app, len_be_bytes. unfold len at 2. rewrite length_replicate. lia. }
  pose proof (aead_encrypt_length _ _ _ _ _ _ He) as Hc. pose proof (len_nonneg content).
  assert (length header = 5%nat) as Hh by (unfold header; by rewrite length_app, length_be_bytes).
  split_and!; [done|..].
  - unfold RecordCrypto_open. rewrite length_app, Hh. destruct (Nat.ltb_spec (5 + length c) (5 + 16)).
    { unfold len in *. lia. }
    rewrite <-Hh at 1 2. rewrite take_app_length, drop_app_length, (aead_decrypt_encrypt _ _ _ _ _ _ He).
    unfold inner. rewrite be_bytes_1, !reverse_app, reverse_replicate, <-app_assoc. cbn [reverse rev_append app].
    rewrite skip_zeros_pad by (rewrite bv_bz_small; lia). by rewrite bv_bz_small, reverse_involutive by lia.
  - rewrite len_app. unfold len at 1. rewrite Hh. lia.
  - intros Hs. unfold header. destruct (be_bytes_2 (len inner + 16)) as (a & b & -> & _ & Hu); [lia|].
    exists Byte.x17, Byte.x03, Byte.x03, a, b, c. split_and!; [done..|]. rewrite Hu. unfold len in *. lia.
Qed.
End Records.

Lemma framed_length t rec : framed t rec → (5 ≤ length rec)%nat.
Proof. intros (t0 & v & w & a & b & body & -> & _). cbn. lia. Qed.

(** ** A concrete instance *)

Module TlsSample.

(** Everything is padding and reversal; the AEAD appends a tag. *)
Definition fit (n : nat) (b : bytes) : bytes := take n (b ++ replicate n Byte.x00).
Definition mix (a b : bytes) : bytes := zip_with (λ x y, bz (bv x + bv y)) a b.
Definition tag (k n d p : bytes) : bytes := fit 16 (rev (k ++ n ++ d ++ p)).

Lemma fit_length n b : length (fit n b) = n.
Proof. unfold fit. rewrite length_take, length_app, length_replicate. lia. Qed.
Lemma fit_len n b : len (fit n b) = Z.of_nat n.
Proof. unfold len. by rewrite fit_length. Qed.
Lemma mix_comm a b : mix a b = mix b a.
Proof. revert b; induction a as [|x a IH]; intros [|y b]; try done. cbn. by rewrite Z.add_comm, <-IH. Qed.

#[export] Instance toy_tls : TlsCrypto := {
  dh_public := fit 32;
  dh_shared s p := mix (fit 32 s) p;
  was_contributory s := negb (bool_decide (s = replicate 32 Byte.x00));
  hash_bytes h m := fit (hash_len h) (rev m);
  hkdf_extract h s i := fit (hash_len h) (rev (s ++ i));
  hkdf_expand h k i n := Some (fit n (rev (k ++ i)));
  hmac_bytes h k m := fit (hash_len h) (rev (k ++ m));
  hmac_sha512 k m := fit 64 (rev (k ++ m));
  aead_encrypt a k n d p := Some (p ++ tag k n d p);
  aead_decrypt a k n d c :=
    let p := take (length c - 16) c in
    if bool_decide (c = p ++ tag k n d p) then Some p else None;
}.

#[export] Instance toy_tls_laws : TlsCryptoLaws toy_tls.
Proof.
  split; intros; cbn [dh_public dh_shared hash_bytes hkdf_extract hkdf_expand hmac_bytes hmac_sha512
    aead_encrypt aead_decrypt toy_tls] in *; try apply fit_len; try apply fit_length.
  - apply mix_comm.
  - eexists. split; [done|]. apply fit_length.
  - simplify_eq. rewrite length_app. unfold tag. rewrite fit_length, Nat.add_sub, take_app_length.
    by rewrite bool_decide_eq_true_2.
  - case_bool_decide as Hc; [|done]. simplify_eq. by rewrite <-Hc.
  - simplify_eq. rewrite len_app. unfold tag. rewrite fit_len. lia.
  - done.
Qed.
End TlsSample.
