(* ===== verification/TlsHandshake.v ===== *)
(** * Theorems about the TLS 1.3 handshake of the carrier

    What a driver accepts from arbitrary bytes, and that two drivers connected by a network
    complete.  A flight is a list of records that open to a list of handshake messages,
    whatever the boundaries between them. *)

From S2P Require Import Prelude Wire Network TlsMessages Tls13.

(** ** Reading records *)

Lemma framed_record t v b :
  0 ≤ t < 256 → 0 ≤ v < 65536 → len b ≤ 65535 → framed t (be_bytes 1 t ++ be_bytes 2 v ++ prefixed 2 b).
Proof.
  intros Ht Hv Hb. pose proof (len_nonneg b). unfold prefixed.
  destruct (be_bytes_2 v Hv) as (x & y & -> & _). destruct (be_bytes_2 (len b) ltac:(lia)) as (c & d & -> & _ & Hu).
  rewrite be_bytes_1. exists (bz t), x, y, c, d, b. split_and!; [done|by rewrite bv_bz_small|].
  rewrite Hu. unfold len. lia.
Qed.

Section ReadRecord.
Context {A : Type} (f : Z * bytes → Proc TlsError A).

Lemma drive_read_record t rec rest :
  framed t rec → drive (read_record ≫= f) (rec ++ rest) = drive (f (t, rec)) rest.
Proof.
  intros (t0 & v & w & a & b & body & -> & -> & Hu). unfold read_record, read_bytes.
  change ((t0 :: v :: w :: a :: b :: body) ++ rest) with ([t0; v; w; a; b] ++ body ++ rest).
  cbn [mbind Proc_bind proc_bind get drive].
  rewrite (proj2 (read_exact_Ok (Z.of_nat 5) _ [t0; v; w; a; b] (body ++ rest))) by done.
  cbn [proc_bind drive]. rewrite (proj2 (read_exact_Ok (Z.of_nat (u16_of a b)) _ body rest)); [done|].
  split; [done|]. unfold len. by rewrite Hu.
Qed.

Lemma drive_read_record_cases s :
  (∃ t rec rest, framed t rec ∧ s = rec ++ rest ∧ drive (read_record ≫= f) s = drive (f (t, rec)) rest)
  ∨ drive (read_record ≫= f) s = ([], Err TlsEof).
Proof.
  destruct (read_exact (Z.of_nat 5) s) as [[hdr s1]|e] eqn:H1.
  - pose proof H1 as [-> Hh]%read_exact_Ok. unfold len in Hh.
    destruct hdr as [|t0 [|v [|w [|a [|b [|]]]]]]; cbn in Hh; try lia.
    destruct (read_exact (Z.of_nat (u16_of a b)) s1) as [[body s2]|e] eqn:H2.
    + apply read_exact_Ok in H2 as [-> Hb]. left.
      assert (framed (bv t0) ([t0; v; w; a; b] ++ body)) as Hf.
      { exists t0, v, w, a, b, body. unfold len in Hb. split_and!; [done..|lia]. }
      exists (bv t0), ([t0; v; w; a; b] ++ body), s2. rewrite app_assoc.
      split_and!; [done..|]. by apply drive_read_record.
    + right. unfold read_record, read_bytes. cbn [mbind Proc_bind proc_bind get drive].
      rewrite H1. cbn [proc_bind drive]. by rewrite H2.
  - right. unfold read_record, read_bytes. cbn [mbind Proc_bind proc_bind get drive]. by rewrite H1.
Qed.

Lemma drive_read_record_Ok s o x :
  drive (read_record ≫= f) s = (o, Ok x) →
  ∃ t rec rest, framed t rec ∧ s = rec ++ rest ∧ drive (f (t, rec)) rest = (o, Ok x).
Proof.
  intros H. destruct (drive_read_record_cases s) as [(t & rec & rest & Hf & -> & He)|He].
  - rewrite He in H. eauto 10.
  - by rewrite H in He.
Qed.

Lemma drive_read_record_ind (Q : bytes * result TlsError (A * bytes) → Prop) s :
  Q ([], Err TlsEof) →
  (∀ t rec rest, framed t rec → s = rec ++ rest → Q (drive (f (t, rec)) rest)) →
  Q (drive (read_record ≫= f) s).
Proof.
  intros HE HQ. destruct (drive_read_record_cases s) as [(t & rec & rest & Hf & Hs & He)|He]; rewrite He; auto.
Qed.
End ReadRecord.

Lemma drive_record_alone t rec rest :
  framed t rec → drive read_record (rec ++ rest) = ([], Ok ((t, rec), rest)).
Proof. intros Hf. rewrite <-drive_bind_mret. by rewrite (drive_read_record _ _ _ _ Hf). Qed.

(** ** Steps *)

Section Steps.
Context {A B : Type}.

Lemma drive_expect_Ok (m : option A) (f : A → Proc TlsError B) s o x :
  drive (expect m ≫= f) s = (o, Ok x) ↔ ∃ a, m = Some a ∧ drive (f a) s = (o, Ok x).
Proof. destruct m; cbn; naive_solver. Qed.
Lemma drive_parsed_Ok (m : outcome A) e (f : A → Proc TlsError B) s o x :
  drive (parsed m e ≫= f) s = (o, Ok x) ↔ ∃ a, m = Val a ∧ drive (f a) s = (o, Ok x).
Proof. destruct m; cbn; naive_solver. Qed.
Lemma drive_expect (m : option A) (f : A → Proc TlsError B) s a :
  m = Some a → drive (expect m ≫= f) s = drive (f a) s.
Proof. by intros ->. Qed.
Lemma drive_parsed (m : outcome A) e (f : A → Proc TlsError B) s a :
  m = Val a → drive (parsed m e ≫= f) s = drive (f a) s.
Proof. by intros ->. Qed.
End Steps.

Lemma drive_write_bytes_Ok {B} b (f : () → Proc TlsError B) s o x :
  drive (write_bytes b ≫= f) s = (o, Ok x) ↔ ∃ o', drive (f ()) s = (o', Ok x) ∧ o = b ++ o'.
Proof.
  unfold write_bytes. rewrite drive_put_Ok. unfold write_all. naive_solver.
Qed.
Lemma drive_write_bytes {B} b (f : () → Proc TlsError B) s o r :
  drive (f ()) s = (o, r) → drive (write_bytes b ≫= f) s = (b ++ o, r).
Proof. intros H. unfold write_bytes. rewrite drive_write. by rewrite H. Qed.
Lemma drive_ensure_true {B} b e (f : () → Proc TlsError B) s :
  b = true → drive (ensure b e ≫= f) s = drive (f ()) s.
Proof. by intros ->. Qed.

Lemma after_header_app (hdr msg : bytes) : length hdr = 5%nat → after_header (hdr ++ msg) = Val msg.
Proof.
  intros Hh. unfold after_header. rewrite index_range_le; [|rewrite length_app; lia|done].
  unfold range. rewrite <-Hh, drop_app_length, take_ge; [done|]. rewrite length_app. lia.
Qed.
Lemma after_header_Val rec msg : after_header rec = Val msg → ∃ hdr, rec = hdr ++ msg ∧ length hdr = 5%nat.
Proof.
  unfold after_header, index_range. destruct (Nat.leb_spec 5 (length rec)); [|done].
  rewrite Nat.leb_refl. cbn [andb]. intros [= <-]. exists (take 5 rec). unfold range.
  rewrite (take_ge (drop 5 rec)) by (rewrite length_drop; lia). rewrite take_drop, length_take. split; [done|lia].
Qed.

(** ** Handshake messages *)

(** A message of type [t] that is as long as its header says. *)
Definition is_message (t : Z) (m : bytes) : Prop :=
  ∃ t0 a b c body, m = t0 :: a :: b :: c :: body ∧ bv t0 = t ∧ u24_of a b c = length body.

Lemma is_message_length t m : is_message t m → (4 ≤ length m)%nat.
Proof. intros (? & ? & ? & ? & ? & -> & _). cbn. lia. Qed.

Lemma hs_message_is t body : 0 ≤ t < 256 → len body < 16777216 → is_message t (hs_message t body).
Proof.
  intros Ht Hb. destruct (hs_message_header t body Hb) as (a & b & c & -> & Hu).
  exists (bz t), a, b, c, body. split_and!; [done|by apply bv_bz_small|done].
Qed.

Lemma finished_msg_is vd : len vd < 256 → is_message 0x14 (finished_msg vd).
Proof.
  intros Hv. exists Byte.x14, Byte.x00, Byte.x00, (bz (len vd)), vd. split_and!; [done..|].
  pose proof (len_nonneg vd). unfold u24_of.
  assert (be_value [Byte.x00; Byte.x00; bz (len vd)] = bv (bz (len vd))) as ->.
  { by destruct (bz (len vd)). }
  rewrite bv_bz_small by lia. unfold len. lia.
Qed.

Lemma take_hs_msg_is t m rest : is_message t m →
  ∃ t0, bv t0 = t ∧ take_hs_msg (m ++ rest) = Val (t0, m, length m).
Proof.
  intros (t0 & a & b & c & body & -> & Ht & Hu). exists t0. split; [done|]. cbn [app].
  rewrite take_hs_msg_header, Hu, length_app, take_app_length.
  by destruct (Nat.ltb_spec (length body + length rest) (length body)); [lia|].
Qed.

Lemma take_hs_msg_short t m part rest :
  is_message t m → part ++ rest = m → rest ≠ [] → take_hs_msg part = Nothing.
Proof.
  intros (t0 & a & b & c & body & -> & Ht & Hu) Hp Hr.
  destruct part as [|p0 [|p1 [|p2 [|p3 part]]]]; try done.
  cbn [app] in Hp. injection Hp as -> -> -> -> Hp. rewrite take_hs_msg_header, Hu.
  apply (f_equal length) in Hp. rewrite length_app in Hp. destruct rest; [done|]. cbn [length] in Hp.
  destruct (Nat.ltb_spec (length part) (length body)); [done|lia].
Qed.

Lemma take_hs_msg_Val buf t m n : take_hs_msg buf = Val (t, m, n) →
  is_message (bv t) m ∧ n = length m ∧ buf = m ++ drop n buf.
Proof.
  destruct buf as [|t0 [|a [|b [|c rest]]]]; try done. rewrite take_hs_msg_header.
  destruct (Nat.ltb_spec (length rest) (u24_of a b c)); [done|]. intros [= <- <- <-].
  split_and!.
  - exists t0, a, b, c, (take (u24_of a b c) rest). split_and!; [done..|]. rewrite length_take. lia.
  - cbn [length]. rewrite length_take. lia.
  - cbn. by rewrite take_drop.
Qed.

(** ** The server's flight *)

Definition messages (ms : list (Z * bytes)) : bytes := concat (ms.*2).

(** Messages of a flight before its Finished. *)
Definition before_finished (ms : list (Z * bytes)) : Prop :=
  Forall (λ e, is_message e.1 e.2 ∧ e.1 ≠ 0x14) ms.

Definition set_buf (st : Flight) (buf : bytes) : Flight :=
  mkFlight (fl_tr st) buf (fl_cert st) (fl_certverify st).

(** The state after messages were noted. *)
Definition noted (st : Flight) (ms : list (Z * bytes)) : Flight :=
  foldl (λ st e, note_message st e.1 e.2 []) st ms.

Lemma noted_set_buf ms st buf b : set_buf (noted (set_buf st buf) ms) b = set_buf (noted st ms) b.
Proof. by destruct ms. Qed.
Lemma noted_app st ms ms' : noted st (ms ++ ms') = noted (noted st ms) ms'.
Proof. unfold noted. by rewrite foldl_app. Qed.

(** The buffer with a part of the flight: either the Finished is complete, or more has to
    come. *)
Lemma drain_part ms : ∀ fuel st later fin,
  before_finished ms → is_message 0x14 fin → fl_buf st ++ later = messages ms ++ fin →
  (length (fl_buf st) ≤ fuel)%nat →
  (later = [] → drain_messages fuel st = Val (set_buf (noted st ms) [], Some fin))
  ∧ (later ≠ [] → ∃ ms1 ms2 buf, ms = ms1 ++ ms2 ∧ buf ++ later = messages ms2 ++ fin
       ∧ drain_messages fuel st = Val (set_buf (noted st ms1) buf, None)).
Proof.
  induction ms as [|[t m] ms IH]; intros fuel st later fin Hms Hfin Hbuf Hfuel.
  - change (messages [] ++ fin) with fin in Hbuf. split.
    + intros ->. rewrite app_nil_r in Hbuf. pose proof (is_message_length _ _ Hfin).
      destruct fuel as [|fuel]; [rewrite Hbuf in Hfuel; lia|]. cbn [drain_messages].
      destruct (take_hs_msg_is _ _ [] Hfin) as (t0 & Ht & Htake). rewrite app_nil_r in Htake.
      rewrite Hbuf, Htake, Ht. cbn [Z.eqb Pos.eqb]. by rewrite drop_all.
    + intros Hl. exists [], [], (fl_buf st). split_and!; [done..|]. destruct st.
      destruct fuel as [|fuel]; [done|]. cbn [drain_messages].
      by rewrite (take_hs_msg_short _ _ _ _ Hfin Hbuf Hl).
  - apply Forall_cons in Hms as [[Hm Ht] Hms]. cbn [fst snd] in Hm, Ht.
    change (messages ((t, m) :: ms)) with (m ++ messages ms) in Hbuf. rewrite <-app_assoc in Hbuf.
    assert ((∃ buf2, fl_buf st = m ++ buf2 ∧ buf2 ++ later = messages ms ++ fin)
            ∨ ∃ k, k ≠ [] ∧ fl_buf st ++ k = m ∧ later ≠ []) as [(buf2 & Hb2 & Hrest)|(k & Hk & Hshort & Hl)].
    { apply app_eq_inv in Hbuf as [(k & -> & ->)|([|x k] & -> & ->)]; [by left; exists k|left|right].
      - exists []. by rewrite !app_nil_r.
      - by exists (x :: k). }
    + pose proof (is_message_length _ _ Hm). rewrite Hb2, length_app in Hfuel.
      destruct fuel as [|fuel]; [lia|]. cbn [drain_messages].
      destruct (take_hs_msg_is _ _ buf2 Hm) as (t0 & Ht0 & Htake). rewrite Hb2, Htake, Ht0.
      rewrite (proj2 (Z.eqb_neq t 0x14) Ht), drop_app_length.
      change (note_message st t m buf2) with (set_buf (note_message st t m []) buf2).
      destruct (IH fuel (set_buf (note_message st t m []) buf2) later fin) as [I1 I2];
        [done|done|done|cbn; lia|].
      split.
      * intros Hl. rewrite (I1 Hl). by rewrite noted_set_buf.
      * intros Hl. destruct (I2 Hl) as (ms1 & ms2 & buf & -> & Hb & Hd).
        exists ((t, m) :: ms1), ms2, buf. split_and!; [done..|]. rewrite Hd. by rewrite noted_set_buf.
    + split; [done|]. intros _. exists [], ((t, m) :: ms), (fl_buf st). split_and!; [done| |].
      { change (messages ((t, m) :: ms)) with (m ++ messages ms). by rewrite <-app_assoc. }
      destruct st. destruct fuel as [|fuel]; [done|]. cbn [drain_messages].
      by rewrite (take_hs_msg_short _ _ _ _ Hm Hshort Hk).
Qed.

Lemma drain_Val fuel : ∀ st st' fin, drain_messages fuel st = Val (st', fin) →
  ∃ ms, before_finished ms ∧ st' = set_buf (noted st ms) (fl_buf st')
    ∧ match fin with
      | None => fl_buf st = messages ms ++ fl_buf st'
      | Some m => is_message 0x14 m ∧ fl_buf st = messages ms ++ m ++ fl_buf st'
      end.
Proof.
  induction fuel as [|fuel IH]; intros st st' fin; cbn [drain_messages].
  { intros [= <- <-]. exists []. split; [by constructor|]. by destruct st. }
  destruct (take_hs_msg (fl_buf st)) as [[[t m] n]| |] eqn:Htake; [| |done].
  - apply take_hs_msg_Val in Htake as (Hm & -> & Hbuf).
    destruct (Z.eqb_spec (bv t) 0x14) as [Ht|Ht].
    + intros [= <- <-]. exists []. split; [by constructor|]. rewrite Ht in Hm. by split_and!.
    + intros (ms & Hms & Hst & Hfin)%IH. exists ((bv t, m) :: ms).
      change (messages ((bv t, m) :: ms)) with (m ++ messages ms).
      split; [by constructor|]. split.
      * rewrite Hst at 1. change (note_message st (bv t) m (drop (length m) (fl_buf st)))
          with (set_buf (note_message st (bv t) m []) (drop (length m) (fl_buf st))).
        by rewrite noted_set_buf.
      * cbn [note_message fl_buf] in Hfin. destruct fin as [fin|]; [destruct Hfin as [? Hfin]; split; [done|]|];
          rewrite Hbuf, Hfin; by rewrite <-!app_assoc.
  - intros [= <- <-]. exists []. split; [by constructor|]. by destruct st.
Qed.

Lemma drain_safe fuel : ∀ st, drain_messages fuel st ≠ Panics.
Proof.
  induction fuel as [|fuel IH]; intros st; [done|]. cbn [drain_messages].
  pose proof (take_hs_msg_safe (fl_buf st)). destruct (take_hs_msg (fl_buf st)) as [[[t m] n]| |]; [|done..].
  by destruct (bv t =? 0x14).
Qed.

Section Flight.
Context {C : TlsCrypto}.

(** Records as the server writes them, one per chunk. *)
Inductive sealed : RecordCrypto → list bytes → list bytes → RecordCrypto → Prop :=
| sealed_nil rc : sealed rc [] [] rc
| sealed_cons rc rc1 rc' rec recs chunk chunks :
    RecordCrypto_seal rc 0x16 chunk = Some (rc1, rec) → sealed rc1 recs chunks rc' →
    sealed rc (rec :: recs) (chunk :: chunks) rc'.

(** Records as the client accepts them: those of type 0x14 are skipped, the others open, in
    order, to handshake content. *)
Inductive opened_records : RecordCrypto → list bytes → bytes → RecordCrypto → Prop :=
| opened_nil rc : opened_records rc [] [] rc
| opened_skip rc rc' rec recs pt :
    framed 0x14 rec → opened_records rc recs pt rc' → opened_records rc (rec :: recs) pt rc'
| opened_data rc rc1 rc' rec recs p pt :
    framed 0x17 rec → RecordCrypto_open rc rec = (rc1, Some (0x16, p)) →
    opened_records rc1 recs pt rc' → opened_records rc (rec :: recs) (p ++ pt) rc'.

Lemma read_flight_Ok rounds : ∀ rc st s o st' fin rest,
  drive (read_flight rounds rc st) s = (o, Ok ((st', fin), rest)) →
  o = [] ∧ ∃ recs pt rc' ms, s = concat recs ++ rest ∧ opened_records rc recs pt rc'
    ∧ before_finished ms ∧ is_message 0x14 fin ∧ st' = set_buf (noted st ms) (fl_buf st')
    ∧ fl_buf st ++ pt = messages ms ++ fin ++ fl_buf st'.
Proof.
  induction rounds as [|rounds IH]; intros rc st s o st' fin rest H; [done|]. cbn [read_flight] in H.
  apply drive_parsed_Ok in H as ([st1 fin1] & Hd & H).
  apply drain_Val in Hd as (ms1 & Hms1 & Hst1 & Hfin1). destruct fin1 as [fin1|].
  - injection H as <- -> -> ->. split; [done|]. exists [], [], rc, ms1. destruct Hfin1 as [? Hbuf].
    rewrite app_nil_r. split_and!; [done|constructor|done..].
  - apply drive_read_record_Ok in H as (t & rec & s1 & Hrec & -> & H).
    destruct (Z.eqb_spec t 0x14) as [->|Hne].
    + apply IH in H as (-> & recs & pt & rc' & ms & -> & Hop & Hms & Hfin & Hst & Hbuf).
      split; [done|]. exists (rec :: recs), pt, rc', (ms1 ++ ms). cbn [concat].
      split_and!; [by rewrite <-app_assoc|by apply opened_skip|by apply Forall_app|done| |].
      * rewrite noted_app, Hst at 1. rewrite Hst1. by rewrite noted_set_buf.
      * rewrite Hfin1, <-app_assoc, Hbuf. unfold messages. by rewrite fmap_app, concat_app, <-app_assoc.
    + destruct (Z.eqb_spec t 0x17) as [->|Hne2]; [|by destruct (t =? 0x15)].
      destruct (RecordCrypto_open rc rec) as [rc1 [[ct pt1]|]] eqn:Hopen; [|done].
      destruct (Z.eqb_spec ct 0x16) as [->|Hct]; [|done]. cbn [negb] in H.
      apply IH in H as (-> & recs & pt & rc' & ms & -> & Hop & Hms & Hfin & Hst & Hbuf).
      split; [done|]. exists (rec :: recs), (pt1 ++ pt), rc', (ms1 ++ ms). cbn [concat].
      split_and!; [by rewrite <-app_assoc|by eapply opened_data|by apply Forall_app|done| |].
      * rewrite noted_app, Hst at 1. rewrite Hst1. change (extend_buf ?a ?b) with (set_buf a (fl_buf a ++ b)).
        by rewrite !noted_set_buf.
      * cbn [extend_buf fl_buf] in Hbuf. rewrite Hfin1, <-app_assoc, (app_assoc (fl_buf st1)), Hbuf.
        unfold messages. by rewrite fmap_app, concat_app, <-app_assoc.
Qed.

(** More rounds than bytes are enough. *)
Lemma read_flight_rounds rounds : ∀ rc st s,
  (length s < rounds)%nat → (drive (read_flight rounds rc st) s).2 ≠ Err TlsRounds.
Proof.
  induction rounds as [|rounds IH]; intros rc st s Hs; [lia|]. cbn [read_flight].
  pose proof (drain_safe (length (fl_buf st)) st).
  destruct (drain_messages _ st) as [[st1 [fin|]]| |]; [done| |done..].
  cbn [parsed mbind Proc_bind proc_bind].
  apply (drive_read_record_ind _ (λ r, r.2 ≠ Err TlsRounds)); [done|].
  intros t rec rest Hf%framed_length ->. rewrite length_app in Hs.
  destruct (t =? 0x14); [apply IH; lia|]. destruct (t =? 0x17); [|by destruct (t =? 0x15)].
  destruct (RecordCrypto_open rc rec) as [rc1 [[ct pt]|]]; [|done].
  destruct (ct =? 0x16); [|done]. apply IH. lia.
Qed.
End Flight.

(** ** Chunks *)

Definition chunk_ok (c : bytes) : Prop := c ≠ [] ∧ (length c ≤ RECORD_MAX)%nat.

Lemma record_chunks_spec fuel : ∀ flight, (length flight ≤ fuel)%nat →
  concat (record_chunks fuel flight) = flight ∧ Forall chunk_ok (record_chunks fuel flight).
Proof.
  induction fuel as [|fuel IH]; intros flight Hl.
  { destruct flight; [|cbn in Hl; lia]. by split. }
  destruct flight as [|b flight]; [by split|]. cbn [record_chunks concat].
  assert (0 < RECORD_MAX)%nat by (unfold RECORD_MAX; lia).
  destruct (IH (drop RECORD_MAX (b :: flight))) as [Hc Hf].
  { rewrite length_drop. cbn [length] in *. lia. }
  rewrite Hc, take_drop. split; [done|]. constructor; [|done]. split; [|rewrite length_take; lia].
  intros He%(f_equal length). rewrite length_take in He. cbn [length] in He. lia.
Qed.

Lemma planned_chunks_spec plan : ∀ flight,
  concat (planned_chunks flight plan) = flight ∧ Forall chunk_ok (planned_chunks flight plan).
Proof.
  induction plan as [|want plan IH]; intros flight; [by apply record_chunks_spec|].
  destruct flight as [|b flight]; [by split|]. cbn [planned_chunks]. cbv zeta.
  assert (0 < RECORD_MAX)%nat by (unfold RECORD_MAX; lia).
  set (n := Nat.min _ _). assert (0 < n ≤ RECORD_MAX)%nat as Hn by (unfold n; cbn [length]; lia).
  assert (n ≤ length (b :: flight))%nat as Hn2 by (unfold n; lia).
  destruct (IH (drop n (b :: flight))) as [Hc Hf]. cbn [concat]. rewrite Hc, take_drop. split; [done|].
  constructor; [|done]. split; [|rewrite length_take; lia].
  intros He%(f_equal length). rewrite length_take in He. cbn [length] in He. cbn [length] in Hn2. lia.
Qed.

(** Whatever the plan, the records carry the flight and stay within the limit. *)
Lemma split_for_records_spec flight plan :
  flight ≠ [] →
  concat (split_for_records flight plan) = flight ∧ Forall chunk_ok (split_for_records flight plan).
Proof.
  intros Hf. destruct plan; [|apply planned_chunks_spec]. destruct flight; [done|]. by apply record_chunks_spec.
Qed.

Section Honest.
Context {C : TlsCrypto} {L : TlsCryptoLaws C}.

Lemma seal_chunk rc chunk : rc_ok rc → chunk_ok chunk →
  ∃ rec, RecordCrypto_seal rc 0x16 chunk = Some (next_seq rc, rec) ∧ framed 0x17 rec
    ∧ RecordCrypto_open rc rec = (next_seq rc, Some (0x16, chunk)).
Proof.
  intros Hrc [_ Hc]. assert (len chunk ≤ 16384) as Hl by (unfold len, RECORD_MAX in *; lia).
  destruct (seal_padded_total rc 0x16 chunk 0 Hrc ltac:(lia)) as [rec Hs]. exists rec. split; [done|].
  apply seal_padded_spec in Hs as (_ & Ho & _ & Hfr); [|lia]. split; [|done]. apply Hfr. lia.
Qed.

Lemma write_chunks_run chunks : ∀ rc, rc_ok rc → Forall chunk_ok chunks →
  ∃ recs rc', sealed rc recs chunks rc' ∧ length recs = length chunks
    ∧ ∀ s, drive (write_chunks rc chunks) s = (concat recs, Ok (rc', s)).
Proof.
  induction chunks as [|chunk chunks IH]; intros rc Hrc Hc.
  { exists [], rc. split_and!; [constructor|done..]. }
  apply Forall_cons in Hc as [Hchunk Hc]. destruct (seal_chunk rc chunk Hrc Hchunk) as (rec & Hs & _).
  destruct (IH (next_seq rc) (next_seq_ok rc Hrc) Hc) as (recs & rc' & Hsealed & Hlen & Hrun).
  exists (rec :: recs), rc'. split_and!; [by eapply sealed_cons|cbn; by rewrite Hlen|].
  intros s. cbn [write_chunks]. rewrite (drive_expect _ _ _ _ Hs). cbn [concat].
  by apply drive_write_bytes.
Qed.

Lemma read_flight_run rc recs chunks rc' : sealed rc recs chunks rc' → ∀ rounds st ms fin rest,
  rc_ok rc → Forall chunk_ok chunks → before_finished ms → is_message 0x14 fin →
  fl_buf st ++ concat chunks = messages ms ++ fin → (length recs < rounds)%nat →
  drive (read_flight rounds rc st) (concat recs ++ rest) = ([], Ok ((set_buf (noted st ms) [], fin), rest)).
Proof.
  induction 1 as [rc|rc rc1 rc' rec recs chunk chunks Hseal Hsealed IH];
    intros rounds st ms fin rest Hrc Hch Hms Hfin Hbuf Hr.
  - destruct rounds as [|rounds]; [cbn in Hr; lia|]. cbn [read_flight concat app].
    destruct (drain_part ms (length (fl_buf st)) st [] fin Hms Hfin Hbuf (le_n _)) as [Hd _].
    by rewrite (drive_parsed _ _ _ _ _ (Hd eq_refl)).
  - destruct rounds as [|rounds]; [cbn in Hr; lia|]. cbn [read_flight concat] in *.
    apply Forall_cons in Hch as [Hchunk Hch].
    destruct (seal_chunk rc chunk Hrc Hchunk) as (rec' & Hs & Hfr & Ho). rewrite Hs in Hseal.
    injection Hseal as <- <-.
    destruct (drain_part ms (length (fl_buf st)) st (chunk ++ concat chunks) fin Hms Hfin Hbuf (le_n _)) as [_ Hd].
    destruct Hd as (ms1 & ms2 & buf & -> & Hb & Hd); [by destruct Hchunk, chunk|].
    rewrite (drive_parsed _ _ _ _ _ Hd). rewrite <-app_assoc, (drive_read_record _ _ _ _ Hfr).
    cbn [Z.eqb Pos.eqb]. rewrite Ho. cbn [negb Z.eqb Pos.eqb]. apply Forall_app in Hms as [_ Hms].
    rewrite (IH rounds _ ms2 fin rest); [|by apply next_seq_ok|done|done|done| |cbn in Hr; lia].
    + change (extend_buf ?a ?b) with (set_buf a (fl_buf a ++ b)). by rewrite !noted_set_buf, noted_app.
    + cbn [extend_buf set_buf fl_buf]. by rewrite <-app_assoc.
Qed.
End Honest.

(** ** The keys of one conversation *)

Section Schedule.
Context {C : TlsCrypto}.

(** [pre] are the two hellos, [flight] the server's messages up to its Finished [fin]: the
    secrets, the check of [fin], and the data of the client's Finished. *)
Record schedule (suite : Suite) (ecdhe pre flight fin : bytes) (hs : HandshakeSecrets)
    (th_app c_ap s_ap cvd : bytes) : Prop := {
  sch_hs : derive_handshake ecdhe (hash_bytes (Suite_hash suite) pre) (Suite_hash suite) = Some hs;
  sch_fin : finished_verify_data (server_hs_traffic hs) (hash_bytes (Suite_hash suite) (pre ++ flight))
              (Suite_hash suite) = Some (drop 4 fin);
  sch_th : th_app = hash_bytes (Suite_hash suite) (pre ++ flight ++ fin);
  sch_app : application_secrets hs th_app = Some (c_ap, s_ap);
  sch_cvd : finished_verify_data (client_hs_traffic hs) th_app (Suite_hash suite) = Some cvd;
}.

(** The last message of a type. *)
Definition last_of (t : Z) (ms : list (Z * bytes)) : option bytes :=
  foldl (λ acc e, if e.1 =? t then Some e.2 else acc) None ms.

Lemma noted_flight tr ms :
  let st := noted (mkFlight tr [] None None) ms in
  fl_tr st = mkTranscript (tr_hash tr) (tr_messages tr ++ messages ms)
  ∧ fl_cert st = last_of 0x0b ms ∧ fl_certverify st = last_of 0x0f ms.
Proof.
  cbv zeta. unfold last_of.
  assert (∀ st, fl_tr (noted st ms) = mkTranscript (tr_hash (fl_tr st)) (tr_messages (fl_tr st) ++ messages ms)
    ∧ fl_cert (noted st ms) = foldl (λ acc e, if e.1 =? 0x0b then Some e.2 else acc) (fl_cert st) ms
    ∧ fl_certverify (noted st ms) = foldl (λ acc e, if e.1 =? 0x0f then Some e.2 else acc) (fl_certverify st) ms)
    as H; [|apply H].
  induction ms as [|[t m] ms IH]; intros st.
  - change (messages []) with (@nil byte). rewrite app_nil_r. by destruct st as [[]].
  - change (messages ((t, m) :: ms)) with (m ++ messages ms).
    change (noted st ((t, m) :: ms)) with (noted (note_message st t m []) ms).
    destruct (IH (note_message st t m [])) as (-> & -> & ->). split_and!; [|done..].
    cbn [note_message fl_tr Transcript_update tr_hash tr_messages]. by rewrite app_assoc.
Qed.

(** What the client has checked when it returns a connection. *)
Record client_accepts (hello_record client_eph : bytes) (verify : CertVerify) (inbound out rest : bytes)
    (conn : ClientConnection) (suite : Suite) (server_pub : bytes) (ms : list (Z * bytes))
    (fin : bytes) : Prop := {
  ca_streams : ∃ sh_rec recs server_hs rc' pt extra hs th_app c_ap s_ap cvd client_hs rc rec,
    inbound = sh_rec ++ concat recs ++ rest ∧ framed 0x16 sh_rec
    ∧ parse_server_hello (drop 5 sh_rec) = Val (Suite_id suite, server_pub)
    ∧ schedule suite (dh_shared client_eph server_pub) (drop 5 hello_record ++ drop 5 sh_rec)
        (messages ms) fin hs th_app c_ap s_ap cvd
    ∧ RecordCrypto_new (server_hs_traffic hs) suite = Some server_hs
    ∧ opened_records server_hs recs pt rc' ∧ pt = messages ms ++ fin ++ extra
    ∧ RecordCrypto_new (client_hs_traffic hs) suite = Some client_hs
    ∧ RecordCrypto_seal client_hs 0x16 (finished_msg cvd) = Some (rc, rec)
    ∧ out = hello_record ++ CHANGE_CIPHER_SPEC ++ rec
    ∧ RecordCrypto_new c_ap suite = Some (cl_client_app conn)
    ∧ RecordCrypto_new s_ap suite = Some (cl_server_app conn);
  ca_contributory : was_contributory (dh_shared client_eph server_pub) = true;
  ca_messages : before_finished ms ∧ is_message 0x14 fin;
  ca_certificate : ∀ auth_key, verify = RealityHmac auth_key → ∃ cert cv leaf,
    last_of 0x0b ms = Some cert ∧ last_of 0x0f ms = Some cv ∧ extract_leaf_pub cert = Val leaf
    ∧ extract_certverify_sig cv = Val (reality_cert_hmac auth_key leaf);
}.

Lemma Suite_from_id_Some id suite : Suite_from_id id = Some suite → id = Suite_id suite.
Proof.
  unfold Suite_from_id. destruct (Z.eqb_spec id 0x1301); [by intros [= <-]|].
  destruct (Z.eqb_spec id 0x1302); [by intros [= <-]|]. destruct (Z.eqb_spec id 0x1303); [by intros [= <-]|done].
Qed.

Lemma check_certificate_Ok {B} verify st (f : () → Proc TlsError B) s o x :
  drive (check_certificate verify st ≫= f) s = (o, Ok x) →
  drive (f ()) s = (o, Ok x) ∧ ∀ auth_key, verify = RealityHmac auth_key → ∃ cert cv leaf,
    fl_cert st = Some cert ∧ fl_certverify st = Some cv ∧ extract_leaf_pub cert = Val leaf
    ∧ extract_certverify_sig cv = Val (reality_cert_hmac auth_key leaf).
Proof.
  unfold check_certificate. destruct verify as [|auth_key]; [done|].
  destruct (fl_cert st) as [cert|]; [|done]. destruct (fl_certverify st) as [cv|]; [|done].
  destruct (extract_leaf_pub cert) as [leaf| |] eqn:Hleaf; [|done..].
  destruct (extract_certverify_sig cv) as [sig| |] eqn:Hsig; [|done..].
  cbn [parsed mbind Proc_bind proc_bind]. intros [Hs%bool_decide_eq_true H]%drive_ensure_Ok.
  split; [done|]. intros key [= <-]. exists cert, cv, leaf. by rewrite Hsig, Hs.
Qed.

Lemma client_after_hello_Ok rounds suite pre ecdhe verify s o conn rest :
  drive (client_after_hello rounds suite (mkTranscript (Suite_hash suite) pre) ecdhe verify) s
    = (o, Ok (conn, rest)) →
  ∃ recs server_hs rc' pt extra hs th_app c_ap s_ap cvd client_hs rc rec ms fin,
    s = concat recs ++ rest
    ∧ schedule suite ecdhe pre (messages ms) fin hs th_app c_ap s_ap cvd
    ∧ RecordCrypto_new (server_hs_traffic hs) suite = Some server_hs
    ∧ opened_records server_hs recs pt rc' ∧ pt = messages ms ++ fin ++ extra
    ∧ RecordCrypto_new (client_hs_traffic hs) suite = Some client_hs
    ∧ RecordCrypto_seal client_hs 0x16 (finished_msg cvd) = Some (rc, rec)
    ∧ o = CHANGE_CIPHER_SPEC ++ rec
    ∧ RecordCrypto_new c_ap suite = Some (cl_client_app conn)
    ∧ RecordCrypto_new s_ap suite = Some (cl_server_app conn)
    ∧ (before_finished ms ∧ is_message 0x14 fin)
    ∧ ∀ auth_key, verify = RealityHmac auth_key → ∃ cert cv leaf,
        last_of 0x0b ms = Some cert ∧ last_of 0x0f ms = Some cv ∧ extract_leaf_pub cert = Val leaf
        ∧ extract_certverify_sig cv = Val (reality_cert_hmac auth_key leaf).
Proof.
  intros H. unfold client_after_hello in H. cbv zeta in H.
  apply drive_expect_Ok in H as (hs & Hhs & H). apply drive_expect_Ok in H as (server_hs & Hshs & H).
  rewrite drive_bind in H.
  destruct (drive (read_flight _ _ _) s) as [o1 [[[st fin] s1]|e]] eqn:Hflight; [|done].
  apply read_flight_Ok in Hflight as (-> & recs & pt & rc' & ms & -> & Hop & Hms & Hfin & Hst & Hpt).
  destruct (noted_flight (mkTranscript (Suite_hash suite) pre) ms) as (Htr & Hcert & Hcv).
  destruct (drive _ s1) as [o2 r2] eqn:H2 in H. injection H as <- ->.
  apply drive_expect_Ok in H2 as (svd & Hsvd & H).
  apply drive_ensure_Ok in H as [Hf%bool_decide_eq_true H].
  apply check_certificate_Ok in H as [H Hcheck].
  apply drive_expect_Ok in H as ([c_ap s_ap] & Happ & H).
  apply drive_write_bytes_Ok in H as (o3 & H & ->).
  apply drive_expect_Ok in H as (client_hs & Hchs & H). apply drive_expect_Ok in H as (cvd & Hcvd & H).
  apply drive_expect_Ok in H as ([rc rec] & Hseal & H).
  apply drive_write_bytes_Ok in H as (o4 & H & ->).
  apply drive_expect_Ok in H as (client_app & Hca & H). apply drive_expect_Ok in H as (server_app & Hsa & H).
  injection H as <- <- <-.
  rewrite Hst in Hsvd, Happ, Hcvd, Hcheck. cbn [set_buf fl_tr fl_cert fl_certverify] in Hsvd, Happ, Hcvd, Hcheck.
  rewrite Htr in Hsvd, Happ, Hcvd. rewrite Hcert, Hcv in Hcheck.
  unfold Transcript_hash, Transcript_update in Hsvd, Happ, Hcvd.
  cbn [tr_hash tr_messages] in Hsvd, Happ, Hcvd. rewrite <-app_assoc in Happ, Hcvd.
  exists recs, server_hs, rc', pt, (fl_buf st), hs, (hash_bytes (Suite_hash suite) (pre ++ messages ms ++ fin)),
    c_ap, s_ap, cvd, client_hs, rc, rec, ms, fin.
  rewrite app_nil_r. split_and!; try done. by split; rewrite ?Hf.
Qed.

Lemma client_handshake_Ok rounds hello_record client_eph verify inbound out conn rest :
  drive (client_handshake rounds hello_record client_eph verify) inbound = (out, Ok (conn, rest)) →
  ∃ suite server_pub ms fin,
    client_accepts hello_record client_eph verify inbound out rest conn suite server_pub ms fin.
Proof.
  intros H. unfold client_handshake, client_after_write in H.
  apply drive_write_bytes_Ok in H as (o & H & ->).
  apply drive_read_record_Ok in H as (t & sh_rec & s1 & Hfr & -> & H).
  apply drive_ensure_Ok in H as [->%Z.eqb_eq H].
  apply drive_parsed_Ok in H as (sh_msg & Hsh & H). apply drive_parsed_Ok in H as ([cipher server_pub] & Hparse & H).
  apply drive_parsed_Ok in H as (suite & Hsuite & H). apply drive_parsed_Ok in H as (ch_msg & Hch & H).
  cbv zeta in H. apply drive_ensure_Ok in H as [Hcon H].
  apply after_header_Val in Hsh as (hdr & -> & Hhdr). apply after_header_Val in Hch as (hdr' & -> & Hhdr').
  destruct (Suite_from_id cipher) as [su|] eqn:Hid; [|done]. injection Hsuite as ->.
  apply Suite_from_id_Some in Hid as ->.
  apply client_after_hello_Ok in H as (recs & server_hs & rc' & pt & extra & hs & th_app & c_ap & s_ap & cvd
    & client_hs & rc & rec & ms & fin & -> & Hsch & Hshs & Hop & Hpt & Hchs & Hseal & -> & Hca & Hsa & Hms & Hcert).
  exists suite, server_pub, ms, fin. split; [|done..].
  exists (hdr ++ sh_msg), recs, server_hs, rc', pt, extra, hs, th_app, c_ap, s_ap, cvd, client_hs, rc, rec.
  assert (drop 5 (hdr ++ sh_msg) = sh_msg ∧ drop 5 (hdr' ++ ch_msg) = ch_msg) as [-> ->]
    by (split; [rewrite <-Hhdr|rewrite <-Hhdr']; apply drop_app_length).
  split_and!; done.
Qed.

(** What the server has checked when it returns a connection. *)
Record server_accepts (ch_rec : bytes) (f : HelloFields) (cert_msg certverify_msg : bytes) (suite : Suite)
    (plan : list nat) (server_eph server_random : bytes) (inbound out rest : bytes)
    (conn : ServerConnection) : Prop := {
  sa_streams : ∃ sh recs server_hs rc' svd hs th_app c_ap s_ap client_hs skipped rec rc1 msg extra,
    let flight := ENCRYPTED_EXTENSIONS ++ cert_msg ++ certverify_msg in
    build_server_hello server_random (hf_session_id f) (dh_public server_eph) (Suite_id suite) = Some sh
    ∧ schedule suite (dh_shared server_eph (hf_x25519_pub f)) (drop 5 ch_rec ++ drop 5 sh) flight
        (finished_msg svd) hs th_app c_ap s_ap (drop 4 msg)
    ∧ RecordCrypto_new (server_hs_traffic hs) suite = Some server_hs
    ∧ sealed server_hs recs (split_for_records (flight ++ finished_msg svd) plan) rc'
    ∧ out = sh ++ CHANGE_CIPHER_SPEC ++ concat recs
    ∧ inbound = concat skipped ++ rec ++ rest ∧ Forall (framed 0x14) skipped ∧ framed 0x17 rec
    ∧ RecordCrypto_new (client_hs_traffic hs) suite = Some client_hs
    ∧ RecordCrypto_open client_hs rec = (rc1, Some (0x16, msg ++ extra)) ∧ is_message 0x14 msg
    ∧ RecordCrypto_new s_ap suite = Some (sv_server_app conn)
    ∧ RecordCrypto_new c_ap suite = Some (sv_client_app conn);
  sa_contributory : was_contributory (dh_shared server_eph (hf_x25519_pub f)) = true;
}.

Lemma write_chunks_Ok {B} chunks : ∀ rc (f : RecordCrypto → Proc TlsError B) s o x,
  drive (write_chunks rc chunks ≫= f) s = (o, Ok x) →
  ∃ recs rc' o', sealed rc recs chunks rc' ∧ o = concat recs ++ o' ∧ drive (f rc') s = (o', Ok x).
Proof.
  induction chunks as [|chunk chunks IH]; intros rc f s o x H.
  { exists [], rc, o. split_and!; [constructor|done..]. }
  rewrite drive_bind in H. destruct (drive (write_chunks rc (chunk :: chunks)) s) as [o1 [[rc2 s2]|e]] eqn:Hw; [|done].
  cbn [write_chunks] in Hw. apply drive_expect_Ok in Hw as ([rc1 rec] & Hseal & Hw).
  apply drive_write_bytes_Ok in Hw as (o2 & Hw & ->).
  destruct (drive (f rc2) s2) as [o3 r3] eqn:Hf. injection H as <- ->.
  destruct (IH rc1 f s (o2 ++ o3) x) as (recs & rc' & o' & Hs & Ho & Hd).
  { rewrite drive_bind, Hw, Hf. done. }
  exists (rec :: recs), rc', o'. split_and!; [by eapply sealed_cons| |done]. cbn [concat].
  by rewrite <-!app_assoc, Ho.
Qed.

Lemma read_client_finished_Ok rounds : ∀ client_hs expected s o x,
  drive (read_client_finished rounds client_hs expected) s = (o, Ok x) →
  o = [] ∧ ∃ skipped rec rc1 msg extra, s = concat skipped ++ rec ++ x.2
    ∧ Forall (framed 0x14) skipped ∧ framed 0x17 rec
    ∧ RecordCrypto_open client_hs rec = (rc1, Some (0x16, msg ++ extra)) ∧ is_message 0x14 msg
    ∧ drop 4 msg = expected.
Proof.
  induction rounds as [|rounds IH]; intros client_hs expected s o x H; [done|]. cbn [read_client_finished] in H.
  apply drive_read_record_Ok in H as (t & rec & s1 & Hfr & -> & H).
  destruct (Z.eqb_spec t 0x14) as [->|Hne].
  - apply IH in H as (-> & skipped & rec' & rc1 & msg & extra & -> & Hsk & Hrest). split; [done|].
    exists (rec :: skipped), rec', rc1, msg, extra. cbn [concat].
    split_and!; [by rewrite <-app_assoc|by constructor|apply Hrest..].
  - destruct (Z.eqb_spec t 0x17) as [->|]; [|by destruct (t =? 0x15)].
    destruct (RecordCrypto_open client_hs rec) as [rc1 [[ct pt]|]] eqn:Ho; [|done].
    apply drive_ensure_Ok in H as [->%Z.eqb_eq H]. apply drive_parsed_Ok in H as ([[mt msg] n] & Hm & H).
    apply drive_ensure_Ok in H as [Ht%Z.eqb_eq H].
    destruct (finished_is msg expected) eqn:Hf; [|done]. injection H as <- <-. apply bool_decide_eq_true in Hf.
    apply take_hs_msg_Val in Hm as (Him & -> & Hpt). rewrite Ht in Him.
    split; [done|]. exists [], rec, rc1, msg, (drop (length msg) pt). rewrite <-Hpt. split_and!; [done|by constructor|done..].
Qed.

Lemma server_flight_Ok {B} ch_rec f cert cv suite plan eph random (k : _ → Proc TlsError B) s o x :
  drive (server_flight ch_rec f cert cv suite plan eph random ≫= k) s = (o, Ok x) →
  ∃ sh recs server_hs rc' svd hs o',
    let hash := Suite_hash suite in
    let flight := ENCRYPTED_EXTENSIONS ++ cert ++ cv in
    let pre := drop 5 ch_rec ++ drop 5 sh in
    build_server_hello random (hf_session_id f) (dh_public eph) (Suite_id suite) = Some sh
    ∧ was_contributory (dh_shared eph (hf_x25519_pub f)) = true
    ∧ derive_handshake (dh_shared eph (hf_x25519_pub f)) (hash_bytes hash pre) hash = Some hs
    ∧ finished_verify_data (server_hs_traffic hs) (hash_bytes hash (pre ++ flight)) hash = Some svd
    ∧ RecordCrypto_new (server_hs_traffic hs) suite = Some server_hs
    ∧ sealed server_hs recs (split_for_records (flight ++ finished_msg svd) plan) rc'
    ∧ o = (sh ++ CHANGE_CIPHER_SPEC ++ concat recs) ++ o'
    ∧ drive (k (hs, hash_bytes hash (pre ++ flight ++ finished_msg svd))) s = (o', Ok x).
Proof.
  intros H. rewrite drive_bind in H.
  destruct (drive (server_flight _ _ _ _ _ _ _ _) s) as [o1 [[[hs th] s1]|e]] eqn:Hs; [|done].
  destruct (drive (k (hs, th)) s1) as [o2 r2] eqn:Hk. injection H as <- ->.
  unfold server_flight in Hs. cbv zeta in Hs.
  apply drive_parsed_Ok in Hs as (ch_msg & Hch & Hs). apply drive_ensure_Ok in Hs as [Hcon Hs].
  apply drive_expect_Ok in Hs as (sh & Hsh & Hs). apply drive_parsed_Ok in Hs as (sh_msg & Hshm & Hs).
  apply after_header_Val in Hch as (hdr' & -> & Hhdr'). apply after_header_Val in Hshm as (hdr & -> & Hhdr).
  apply drive_write_bytes_Ok in Hs as (o3 & Hs & ->). apply drive_expect_Ok in Hs as (hs' & Hhs & Hs).
  apply drive_expect_Ok in Hs as (server_hs & Hshs & Hs). apply drive_write_bytes_Ok in Hs as (o4 & Hs & ->).
  apply drive_expect_Ok in Hs as (svd & Hsvd & Hs). apply write_chunks_Ok in Hs as (recs & rc' & o5 & Hsealed & -> & Hs).
  injection Hs as <- -> <- <-. exists (hdr ++ sh_msg), recs, server_hs, rc', svd, hs, o2. cbv zeta.
  assert (drop 5 (hdr ++ sh_msg) = sh_msg ∧ drop 5 (hdr' ++ ch_msg) = ch_msg) as [-> ->]
    by (split; [rewrite <-Hhdr|rewrite <-Hhdr']; apply drop_app_length).
  unfold Transcript_hash, Transcript_update, Transcript_new in *. cbn [tr_hash tr_messages] in *.
  rewrite !app_nil_l in *. rewrite <-!app_assoc in *. split_and!; try done.
Qed.

Lemma drive_server_Ok rounds ch_rec f cert cv suite plan eph random inbound out conn rest :
  drive (drive_server rounds ch_rec f cert cv suite plan eph random) inbound = (out, Ok (conn, rest)) →
  server_accepts ch_rec f cert cv suite plan eph random inbound out rest conn.
Proof.
  intros H. unfold drive_server in H.
  apply server_flight_Ok in H as (sh & recs & server_hs & rc' & svd & hs & o & Hsh & Hcon & Hhs & Hsvd & Hshs
    & Hsealed & -> & H).
  unfold server_finish in H. apply drive_expect_Ok in H as ([c_ap s_ap] & Happ & H).
  apply drive_expect_Ok in H as (client_hs & Hchs & H). apply drive_expect_Ok in H as (cvd & Hcvd & H).
  rewrite drive_bind in H. destruct (drive (read_client_finished _ _ _) inbound) as [o1 [[[] s1]|e]] eqn:Hr; [|done].
  apply read_client_finished_Ok in Hr as (-> & skipped & rec & rc1 & msg & extra & -> & Hsk & Hfr & Ho & Hm & Hd).
  destruct (drive _ s1) as [o2 r2] eqn:H2 in H. injection H as <- ->.
  apply drive_expect_Ok in H2 as (sa & Hsa & H). apply drive_expect_Ok in H as (ca & Hca & H).
  injection H as <- <- <-. split; [|done].
  exists sh, recs, server_hs, rc', svd, hs, (hash_bytes (Suite_hash suite)
    ((drop 5 ch_rec ++ drop 5 sh) ++ (ENCRYPTED_EXTENSIONS ++ cert ++ cv) ++ finished_msg svd)),
    c_ap, s_ap, client_hs, skipped, rec, rc1, msg, extra. cbv zeta. rewrite app_nil_r.
  split_and!; try done. by split; rewrite ?Hd.
Qed.
End Schedule.

(** ** The honest run *)

Lemma drop_finished vd : drop 4 (finished_msg vd) = vd.
Proof. unfold finished_msg. by rewrite be_bytes_1. Qed.
Lemma hash_len_small h : (hash_len h ≤ 48)%nat.
Proof. destruct h; cbn; lia. Qed.
Lemma framed_ccs : framed 0x14 CHANGE_CIPHER_SPEC.
Proof. by exists Byte.x14, Byte.x03, Byte.x03, Byte.x00, Byte.x01, [Byte.x01]. Qed.
Lemma message_ee : is_message 0x08 ENCRYPTED_EXTENSIONS.
Proof. by exists Byte.x08, Byte.x00, Byte.x00, Byte.x02, [Byte.x00; Byte.x00]. Qed.

Section Run.
Context {C : TlsCrypto} {L : TlsCryptoLaws C}.

(** The record keys of the two directions of the handshake and of the application data. *)
Record record_keys (suite : Suite) (hs : HandshakeSecrets) (c_ap s_ap : bytes)
    (server_hs client_hs server_app client_app : RecordCrypto) : Prop := {
  rk_server_hs : RecordCrypto_new (server_hs_traffic hs) suite = Some server_hs ∧ rc_ok server_hs;
  rk_client_hs : RecordCrypto_new (client_hs_traffic hs) suite = Some client_hs ∧ rc_ok client_hs;
  rk_server_app : RecordCrypto_new s_ap suite = Some server_app ∧ rc_ok server_app;
  rk_client_app : RecordCrypto_new c_ap suite = Some client_app ∧ rc_ok client_app;
}.

Lemma schedule_total suite ecdhe pre flight :
  ∃ svd hs th_app c_ap s_ap cvd server_hs client_hs server_app client_app,
    schedule suite ecdhe pre flight (finished_msg svd) hs th_app c_ap s_ap cvd
    ∧ record_keys suite hs c_ap s_ap server_hs client_hs server_app client_app
    ∧ length svd = hash_len (Suite_hash suite) ∧ length cvd = hash_len (Suite_hash suite).
Proof.
  set (h := Suite_hash suite).
  destruct (derive_handshake_total ecdhe (hash_bytes h pre) h) as (hs & Hhs & Hh & Hc & Hs & Hm).
  destruct (finished_total (server_hs_traffic hs) (hash_bytes h (pre ++ flight)) h Hs) as (svd & Hsvd & Hsl).
  set (th := hash_bytes h (pre ++ flight ++ finished_msg svd)).
  destruct (application_secrets_total hs th) as (c & s & Happ & Hcl & Hsl'); [by rewrite Hh|].
  destruct (finished_total (client_hs_traffic hs) th h Hc) as (cvd & Hcvd & Hcvl).
  rewrite Hh in Hcl, Hsl'.
  destruct (RecordCrypto_new_total (server_hs_traffic hs) suite Hs) as (r1 & ? & ? & _).
  destruct (RecordCrypto_new_total (client_hs_traffic hs) suite Hc) as (r2 & ? & ? & _).
  destruct (RecordCrypto_new_total s suite Hsl') as (r3 & ? & ? & _).
  destruct (RecordCrypto_new_total c suite Hcl) as (r4 & ? & ? & _).
  exists svd, hs, th, c, s, cvd, r1, r2, r3, r4. split_and!; [by split; rewrite ?drop_finished|by split|done..].
Qed.

Lemma server_flight_run ch_msg hdr' f cert cv suite plan eph random hdr sh_msg svd hs th_app c_ap s_ap cvd server_hs :
  let flight := ENCRYPTED_EXTENSIONS ++ cert ++ cv in
  length hdr = 5%nat → length hdr' = 5%nat →
  build_server_hello random (hf_session_id f) (dh_public eph) (Suite_id suite) = Some (hdr ++ sh_msg) →
  was_contributory (dh_shared eph (hf_x25519_pub f)) = true →
  schedule suite (dh_shared eph (hf_x25519_pub f)) (ch_msg ++ sh_msg) flight (finished_msg svd)
    hs th_app c_ap s_ap cvd →
  RecordCrypto_new (server_hs_traffic hs) suite = Some server_hs → rc_ok server_hs →
  ∃ recs rc', sealed server_hs recs (split_for_records (flight ++ finished_msg svd) plan) rc'
    ∧ length recs = length (split_for_records (flight ++ finished_msg svd) plan)
    ∧ ∀ s, drive (server_flight (hdr' ++ ch_msg) f cert cv suite plan eph random) s
           = (hdr ++ sh_msg ++ CHANGE_CIPHER_SPEC ++ concat recs, Ok ((hs, th_app), s)).
Proof.
  intros flight Hhdr Hhdr' Hsh Hcon [Hhs Hfin -> _ _] Hnew Hrc. rewrite drop_finished in Hfin.
  destruct (split_for_records_spec (flight ++ finished_msg svd) plan) as [_ Hok]; [done|].
  destruct (write_chunks_run _ server_hs Hrc Hok) as (recs & rc' & Hsealed & Hlen & Hw).
  exists recs, rc'. split_and!; [done..|]. intros s. unfold server_flight. cbv zeta.
  rewrite (drive_parsed _ _ _ _ ch_msg) by (by apply after_header_app).
  rewrite (drive_ensure_true _ _ _ _ Hcon), (drive_expect _ _ _ _ Hsh).
  rewrite (drive_parsed _ _ _ _ sh_msg) by (by apply after_header_app).
  rewrite (app_assoc hdr). apply drive_write_bytes.
  unfold Transcript_hash, Transcript_update, Transcript_new. cbn [tr_hash tr_messages].
  rewrite !app_nil_l, <-!app_assoc. unfold flight in *. rewrite <-!app_assoc in *.
  rewrite (drive_expect _ _ _ _ Hhs), (drive_expect _ _ _ _ Hnew). apply drive_write_bytes.
  rewrite (drive_expect _ _ _ _ Hfin). rewrite drive_bind, Hw.
  cbn [mret Proc_ret drive]. by rewrite app_nil_r, <-!app_assoc.
Qed.

Lemma check_certificate_run verify st :
  (∀ auth_key, verify = RealityHmac auth_key → ∃ cert cv leaf,
    fl_cert st = Some cert ∧ fl_certverify st = Some cv ∧ extract_leaf_pub cert = Val leaf
    ∧ extract_certverify_sig cv = Val (reality_cert_hmac auth_key leaf)) →
  check_certificate verify st = mret ().
Proof.
  unfold check_certificate. destruct verify as [|k]; [done|].
  intros H. destruct (H k eq_refl) as (cert & cv & leaf & -> & -> & -> & ->).
  cbn [parsed mbind Proc_bind proc_bind]. unfold ensure. by rewrite bool_decide_eq_true_2.
Qed.

Lemma client_run rounds suite pre ecdhe verify cert cv plan svd hs th_app c_ap s_ap cvd
    server_hs client_hs server_app client_app recs rc' rest :
  let flight := ENCRYPTED_EXTENSIONS ++ cert ++ cv in
  is_message 0x0b cert → is_message 0x0f cv →
  schedule suite ecdhe pre flight (finished_msg svd) hs th_app c_ap s_ap cvd →
  record_keys suite hs c_ap s_ap server_hs client_hs server_app client_app →
  length svd = hash_len (Suite_hash suite) → length cvd = hash_len (Suite_hash suite) →
  sealed server_hs recs (split_for_records (flight ++ finished_msg svd) plan) rc' →
  (∀ auth_key, verify = RealityHmac auth_key → ∃ leaf, extract_leaf_pub cert = Val leaf
     ∧ extract_certverify_sig cv = Val (reality_cert_hmac auth_key leaf)) →
  (S (length recs) < rounds)%nat →
  ∃ cfin, RecordCrypto_seal client_hs 0x16 (finished_msg cvd) = Some (next_seq client_hs, cfin)
    ∧ drive (client_after_hello rounds suite (mkTranscript (Suite_hash suite) pre) ecdhe verify)
        (CHANGE_CIPHER_SPEC ++ concat recs ++ rest)
      = (CHANGE_CIPHER_SPEC ++ cfin, Ok (mkClientConnection client_app server_app, rest)).
Proof.
  intros flight Hcert Hcv [Hhs Hfin -> Happ Hcvd] [[Hk1 Hr1] [Hk2 Hr2] [Hk3 _] [Hk4 _]] Hsl Hcl Hsealed Hcheck Hrounds.
  set (ms := [(0x08, ENCRYPTED_EXTENSIONS); (0x0b, cert); (0x0f, cv)]).
  assert (messages ms = flight) as Hms by (unfold messages, ms; cbn [fmap list_fmap snd concat]; by rewrite app_nil_r).
  pose proof (hash_len_small (Suite_hash suite)) as H48.
  assert (is_message 0x14 (finished_msg svd)) as Hsf by (apply finished_msg_is; unfold len; lia).
  destruct (seal_chunk client_hs (finished_msg cvd) Hr2) as (cfin & Hseal & _).
  { split; [done|]. unfold finished_msg, RECORD_MAX. rewrite !length_app, length_be_bytes. cbn [length]. lia. }
  exists cfin. split; [done|]. unfold client_after_hello. cbv zeta.
  unfold Transcript_hash at 1. cbn [tr_hash tr_messages]. rewrite (drive_expect _ _ _ _ Hhs), (drive_expect _ _ _ _ Hk1).
  rewrite drive_bind. destruct rounds as [|rounds]; [lia|]. cbn [read_flight].
  rewrite (drive_parsed _ _ _ _ (mkFlight (mkTranscript (Suite_hash suite) pre) [] None None, None)) by done.
  rewrite (drive_read_record _ _ _ _ framed_ccs). cbn [Z.eqb Pos.eqb].
  destruct (split_for_records_spec (flight ++ finished_msg svd) plan) as [Hcat Hok]; [done|].
  rewrite (read_flight_run _ _ _ _ Hsealed rounds _ ms (finished_msg svd) rest);
    [|done|done| |done|cbn [fl_buf app]; by rewrite Hcat, Hms|lia].
  2:{ unfold before_finished, ms. rewrite !Forall_cons. cbn [fst snd]. pose proof message_ee. split_and!; done. }
  destruct (noted_flight (mkTranscript (Suite_hash suite) pre) ms) as (Htr & Hc & Hv).
  cbn [set_buf fl_tr]. rewrite Htr, Hms. unfold Transcript_hash, Transcript_update. cbn [tr_hash tr_messages].
  rewrite (drive_expect _ _ _ _ Hfin).
  rewrite drive_ensure_true by (by apply bool_decide_eq_true).
  rewrite check_certificate_run.
  2:{ intros k Hk. destruct (Hcheck k Hk) as (leaf & ? & ?). by exists cert, cv, leaf. }
  cbn [mret Proc_ret mbind Proc_bind proc_bind]. rewrite <-app_assoc.
  rewrite (drive_expect _ _ _ _ Happ).
  erewrite drive_write_bytes; [done|].
  rewrite (drive_expect _ _ _ _ Hk2), (drive_expect _ _ _ _ Hcvd), (drive_expect _ _ _ _ Hseal).
  erewrite drive_write_bytes; [by rewrite app_nil_r|].
  by rewrite (drive_expect _ _ _ _ Hk4), (drive_expect _ _ _ _ Hk3).
Qed.

Lemma server_finish_run rounds suite ecdhe pre flight svd hs th_app c_ap s_ap cvd server_hs client_hs
    server_app client_app cfin rest :
  schedule suite ecdhe pre flight (finished_msg svd) hs th_app c_ap s_ap cvd →
  record_keys suite hs c_ap s_ap server_hs client_hs server_app client_app →
  length cvd = hash_len (Suite_hash suite) →
  RecordCrypto_seal client_hs 0x16 (finished_msg cvd) = Some (next_seq client_hs, cfin) →
  (1 < rounds)%nat →
  drive (server_finish rounds suite hs th_app) (CHANGE_CIPHER_SPEC ++ cfin ++ rest)
  = ([], Ok (mkServerConnection server_app client_app, rest)).
Proof.
  intros [_ _ _ Happ Hcvd] [_ [Hk2 _] [Hk3 _] [Hk4 _]] Hl Hseal Hr. unfold server_finish.
  pose proof (hash_len_small (Suite_hash suite)) as H48.
  rewrite (drive_expect _ _ _ _ Happ), (drive_expect _ _ _ _ Hk2), (drive_expect _ _ _ _ Hcvd), drive_bind.
  destruct rounds as [|[|rounds]]; [lia..|]. cbn [read_client_finished].
  rewrite (drive_read_record _ _ _ _ framed_ccs). cbn [Z.eqb Pos.eqb].
  assert (len (finished_msg cvd) ≤ 64) as Hfl.
  { unfold finished_msg. rewrite !len_app, len_be_bytes. unfold len. rewrite Hl. cbn [length]. lia. }
  apply seal_padded_spec in Hseal as (_ & Ho & _ & Hfr); [|lia].
  rewrite (drive_read_record _ _ _ _ (Hfr ltac:(lia))). cbn [Z.eqb Pos.eqb]. rewrite Ho.
  rewrite drive_ensure_true by done.
  assert (is_message 0x14 (finished_msg cvd)) as Hm by (apply finished_msg_is; unfold len; lia).
  destruct (take_hs_msg_is _ _ [] Hm) as (t0 & Ht & Htake). rewrite app_nil_r in Htake.
  rewrite (drive_parsed _ _ _ _ _ Htake). rewrite drive_ensure_true by (by apply Z.eqb_eq).
  unfold finished_is. rewrite drop_finished, bool_decide_eq_true_2 by done. cbn [ensure drive].
  by rewrite (drive_expect _ _ _ _ Hk3), (drive_expect _ _ _ _ Hk4).
Qed.

(** The ServerHello as the client reads it. *)
Lemma server_hello_run suite server_eph random session_id :
  len random = 32 → len session_id = 32 →
  ∃ hdr sh_msg, build_server_hello random session_id (dh_public server_eph) (Suite_id suite) = Some (hdr ++ sh_msg)
    ∧ length hdr = 5%nat ∧ framed 0x16 (hdr ++ sh_msg)
    ∧ parse_server_hello sh_msg = Val (Suite_id suite, dh_public server_eph).
Proof.
  intros Hr Hs. pose proof (dh_public_length server_eph) as Hp.
  rewrite build_server_hello_spec by done. set (body := server_hello_body _ _ _ _).
  assert (len body = 118) as Hbody by (unfold body, server_hello_body; lens; lia).
  set (msg := hs_message 0x02 body). assert (len msg = 122) as Hmsg by (unfold msg, hs_message; lens; lia).
  exists (be_bytes 1 0x16 ++ be_bytes 2 0x0303 ++ be_bytes 2 (len msg)), msg.
  pose proof (framed_record 0x16 0x0303 msg ltac:(lia) ltac:(lia) ltac:(lia)) as Hfr.
  unfold prefixed in *. rewrite <-!app_assoc. split_and!; [done|by rewrite !length_app, !length_be_bytes|done|].
  apply parse_server_hello_built; [done..|]. destruct suite; cbn; lia.
Qed.

Lemma client_after_write_run rounds hdr' ch_msg eph verify hdr sh_msg suite server_pub s r :
  length hdr = 5%nat → length hdr' = 5%nat → framed 0x16 (hdr ++ sh_msg) →
  parse_server_hello sh_msg = Val (Suite_id suite, server_pub) →
  was_contributory (dh_shared eph server_pub) = true →
  drive (client_after_hello rounds suite (mkTranscript (Suite_hash suite) (ch_msg ++ sh_msg))
           (dh_shared eph server_pub) verify) s = r →
  drive (client_after_write rounds (hdr' ++ ch_msg) eph verify) ((hdr ++ sh_msg) ++ s) = r.
Proof.
  intros Hhdr Hhdr' Hfr Hparse Hcon Hrun. unfold client_after_write.
  rewrite (drive_read_record _ _ _ _ Hfr). rewrite drive_ensure_true by done.
  rewrite (drive_parsed _ _ _ _ sh_msg) by (by apply after_header_app). rewrite (drive_parsed _ _ _ _ _ Hparse).
  rewrite Suite_from_to. rewrite (drive_parsed _ _ _ _ suite) by done.
  rewrite (drive_parsed _ _ _ _ ch_msg) by (by apply after_header_app). cbv zeta.
  by rewrite drive_ensure_true.
Qed.
End Run.

(** ** No input makes a driver panic *)

(** The run ends, and not in a panic. *)
Definition orderly {A} (r : bytes * result TlsError (A * bytes)) : Prop :=
  r.2 ≠ Err TlsPanic ∧ r.2 ≠ Err TlsRounds.

Section Orderly.
Context {A B : Type}.
Lemma orderly_expect (m : option A) (f : A → Proc TlsError B) s a :
  m = Some a → orderly (drive (f a) s) → orderly (drive (expect m ≫= f) s).
Proof. by intros ->. Qed.
Lemma orderly_parsed (m : outcome A) e (f : A → Proc TlsError B) s :
  m ≠ Panics → e ≠ TlsPanic → e ≠ TlsRounds → (∀ a, m = Val a → orderly (drive (f a) s)) →
  orderly (drive (parsed m e ≫= f) s).
Proof. intros Hm ? ? Hf. destruct m; [by apply Hf| |done]. split; cbn; congruence. Qed.
Lemma orderly_bind (m : Proc TlsError A) (f : A → Proc TlsError B) s :
  orderly (drive m s) → (∀ o a s', drive m s = (o, Ok (a, s')) → orderly (drive (f a) s')) →
  orderly (drive (m ≫= f) s).
Proof.
  intros [H1 H2] Hf. rewrite drive_bind. destruct (drive m s) as [o [[a s']|e]].
  - specialize (Hf o a s' eq_refl). by destruct (drive (f a) s').
  - split; cbn in *; congruence.
Qed.
End Orderly.

Lemma orderly_ensure {B} b e (f : () → Proc TlsError B) s :
  e ≠ TlsPanic → e ≠ TlsRounds → (b = true → orderly (drive (f ()) s)) → orderly (drive (ensure b e ≫= f) s).
Proof. intros. destruct b; [auto|]. split; cbn; congruence. Qed.
Lemma orderly_write {B} b (f : () → Proc TlsError B) s :
  orderly (drive (f ()) s) → orderly (drive (write_bytes b ≫= f) s).
Proof. unfold write_bytes. rewrite drive_write. by destruct (drive (f ()) s). Qed.
Lemma orderly_record {B} (f : Z * bytes → Proc TlsError B) s :
  (∀ t rec rest, framed t rec → s = rec ++ rest → orderly (drive (f (t, rec)) rest)) →
  orderly (drive (read_record ≫= f) s).
Proof. intros. by apply drive_read_record_ind. Qed.
Lemma orderly_fail {A} e s : e ≠ TlsPanic → e ≠ TlsRounds → orderly (drive (fail e : Proc TlsError A) s).
Proof. intros. split; cbn; congruence. Qed.

Section NoPanic.
Context {C : TlsCrypto} {L : TlsCryptoLaws C}.

Lemma read_flight_orderly rounds : ∀ rc st s,
  (length s < rounds)%nat → orderly (drive (read_flight rounds rc st) s).
Proof.
  induction rounds as [|rounds IH]; intros rc st s Hs; [lia|]. cbn [read_flight].
  pose proof (drain_safe (length (fl_buf st)) st) as Hd.
  assert (drain_messages (length (fl_buf st)) st ≠ Nothing) as Hn.
  { clear. generalize (length (fl_buf st)). intros fuel. revert st.
    induction fuel as [|fuel IH]; intros st; [done|]. cbn [drain_messages].
    destruct (take_hs_msg (fl_buf st)) as [[[t m] n]| |]; [|done..]. by destruct (bv t =? 0x14). }
  destruct (drain_messages _ st) as [[st1 [fin|]]| |]; [done| |done..].
  cbn [parsed mbind Proc_bind proc_bind]. apply orderly_record.
  intros t rec rest Hf%framed_length ->. rewrite length_app in Hs.
  destruct (t =? 0x14); [apply IH; lia|]. destruct (t =? 0x17); [|by destruct (t =? 0x15)].
  destruct (RecordCrypto_open rc rec) as [rc1 [[ct pt]|]]; [|done].
  destruct (ct =? 0x16); [|done]. apply IH. lia.
Qed.

Lemma read_client_finished_orderly rounds : ∀ rc expected s,
  (length s < rounds)%nat → orderly (drive (read_client_finished rounds rc expected) s).
Proof.
  induction rounds as [|rounds IH]; intros rc expected s Hs; [lia|]. cbn [read_client_finished].
  apply orderly_record. intros t rec rest Hf%framed_length ->. rewrite length_app in Hs.
  destruct (t =? 0x14); [apply IH; lia|]. destruct (t =? 0x17); [|by destruct (t =? 0x15)].
  destruct (RecordCrypto_open rc rec) as [rc1 [[ct pt]|]]; [|done].
  apply orderly_ensure; [done..|]. intros _. apply orderly_parsed; [apply take_hs_msg_safe|done..|].
  intros [[mt msg] n] _. apply orderly_ensure; [done..|]. intros _. unfold ensure. by destruct (finished_is _ _).
Qed.

Lemma check_certificate_orderly verify st s : orderly (drive (check_certificate verify st) s).
Proof.
  unfold check_certificate. destruct verify as [|k]; [done|].
  destruct (fl_cert st) as [cert|]; [|done]. destruct (fl_certverify st) as [cv|]; [|done].
  apply orderly_parsed; [apply certificate_parsers_safe|done..|]. intros leaf _.
  apply orderly_parsed; [apply certificate_parsers_safe|done..|]. intros sig _.
  unfold ensure. by destruct (bool_decide _).
Qed.

Lemma finished_chunk suite vd : length vd = hash_len (Suite_hash suite) → chunk_ok (finished_msg vd).
Proof.
  intros Hv. pose proof (hash_len_small (Suite_hash suite)). split; [done|].
  unfold finished_msg, RECORD_MAX. rewrite !length_app, length_be_bytes. cbn [length]. lia.
Qed.

Lemma client_after_hello_orderly rounds suite pre ecdhe verify s :
  (length s < rounds)%nat →
  orderly (drive (client_after_hello rounds suite (mkTranscript (Suite_hash suite) pre) ecdhe verify) s).
Proof.
  intros Hs. unfold client_after_hello. cbv zeta.
  destruct (derive_handshake_total ecdhe (Transcript_hash (mkTranscript (Suite_hash suite) pre)) (Suite_hash suite))
    as (hs & Hhs & Hh & Hc & Hsl & Hm).
  apply (orderly_expect _ _ _ _ Hhs).
  destruct (RecordCrypto_new_total (server_hs_traffic hs) suite Hsl) as (server_hs & Hshs & _).
  apply (orderly_expect _ _ _ _ Hshs). apply orderly_bind; [by apply read_flight_orderly|].
  intros o [st fin] s1 _.
  destruct (finished_total (server_hs_traffic hs) (Transcript_hash (fl_tr st)) (Suite_hash suite) Hsl)
    as (svd & Hsvd & _). apply (orderly_expect _ _ _ _ Hsvd).
  apply orderly_ensure; [done..|]. intros _. apply orderly_bind; [apply check_certificate_orderly|].
  intros _ _ s2 _. set (th := Transcript_hash _).
  destruct (application_secrets_total hs th) as (c & sa & Happ & Hcl & Hsl'); [by rewrite Hh|].
  rewrite Hh in Hcl, Hsl'. apply (orderly_expect _ _ _ _ Happ). apply orderly_write.
  destruct (RecordCrypto_new_total (client_hs_traffic hs) suite Hc) as (client_hs & Hchs & Hok & _).
  apply (orderly_expect _ _ _ _ Hchs).
  destruct (finished_total (client_hs_traffic hs) th (Suite_hash suite) Hc) as (cvd & Hcvd & Hcvl).
  apply (orderly_expect _ _ _ _ Hcvd).
  destruct (seal_chunk client_hs (finished_msg cvd) Hok) as (rec & Hseal & _); [by eapply finished_chunk|].
  apply (orderly_expect _ _ _ _ Hseal). apply orderly_write.
  destruct (RecordCrypto_new_total c suite Hcl) as (ca & Hca & _). apply (orderly_expect _ _ _ _ Hca).
  destruct (RecordCrypto_new_total sa suite Hsl') as (sap & Hsap & _). by apply (orderly_expect _ _ _ _ Hsap).
Qed.

Lemma client_handshake_orderly rounds hello_record client_eph verify inbound :
  (5 ≤ length hello_record)%nat → (length inbound < rounds)%nat →
  orderly (drive (client_handshake rounds hello_record client_eph verify) inbound).
Proof.
  intros Hh Hs. unfold client_handshake, client_after_write. apply orderly_write, orderly_record.
  intros t rec rest Hf ->. pose proof (framed_length _ _ Hf). rewrite length_app in Hs.
  assert (∀ b, (5 ≤ length b)%nat → after_header b = Val (drop 5 b)) as Ha.
  { intros b Hb. rewrite <-(take_drop 5 b) at 1. apply after_header_app. rewrite length_take. lia. }
  apply orderly_ensure; [done..|]. intros _. rewrite !Ha by done.
  rewrite (drive_parsed _ _ _ _ (drop 5 rec)) by done.
  apply orderly_parsed; [apply parse_server_hello_safe|done..|]. intros [cipher pub] _.
  apply orderly_parsed; [by destruct (Suite_from_id cipher)|done..|]. intros suite _.
  rewrite (drive_parsed _ _ _ _ (drop 5 hello_record)) by done. cbv zeta.
  apply orderly_ensure; [done..|]. intros _. apply client_after_hello_orderly. lia.
Qed.

Lemma drive_server_orderly rounds ch_rec f cert cv suite plan eph random inbound :
  (5 ≤ length ch_rec)%nat → len (hf_session_id f) = 32 → len random = 32 → (length inbound < rounds)%nat →
  orderly (drive (drive_server rounds ch_rec f cert cv suite plan eph random) inbound).
Proof.
  intros Hch Hsid Hr Hs. unfold drive_server.
  destruct (was_contributory (dh_shared eph (hf_x25519_pub f))) eqn:Hcon.
  - destruct (server_hello_run suite eph random (hf_session_id f) Hr Hsid) as (hdr & sh_msg & Hsh & Hhdr & _).
    destruct (schedule_total suite (dh_shared eph (hf_x25519_pub f)) (drop 5 ch_rec ++ sh_msg)
      (ENCRYPTED_EXTENSIONS ++ cert ++ cv)) as (svd & hs & th & c & s & cvd & r1 & r2 & r3 & r4 & Hsch & Hk & Hsl & Hcl).
    destruct (server_flight_run (drop 5 ch_rec) (take 5 ch_rec) f cert cv suite plan eph random hdr sh_msg svd
      hs th c s cvd r1) as (recs & rc' & _ & _ & Hrun); [done|rewrite length_take; lia|done|done|done|apply Hk..|].
    rewrite take_drop in Hrun. rewrite drive_bind, Hrun.
    assert (orderly (drive (server_finish rounds suite hs th) inbound)) as [H1 H2].
    { destruct Hsch as [_ _ _ Happ Hcvd], Hk as [_ [H2 _] [H3 _] [H4 _]]. unfold server_finish.
      apply (orderly_expect _ _ _ _ Happ), (orderly_expect _ _ _ _ H2), (orderly_expect _ _ _ _ Hcvd).
      apply orderly_bind; [by apply read_client_finished_orderly|]. intros _ _ s' _.
      by apply (orderly_expect _ _ _ _ H3), (orderly_expect _ _ _ _ H4). }
    destruct (drive (server_finish _ _ _ _) _) as [o r]. by split.
  - unfold server_flight. cbv zeta.
    assert (after_header ch_rec = Val (drop 5 ch_rec)) as Ha.
    { rewrite <-(take_drop 5 ch_rec) at 1. apply after_header_app. rewrite length_take. lia. }
    rewrite Ha, Hcon. by split.
Qed.
End NoPanic.

(** ** The drivers do not look ahead *)

Lemma stable_expect {A} (m : option A) : stable (expect m).
Proof. done. Qed.
Lemma stable_parsed {A} (m : outcome A) e : stable (parsed m e).
Proof. done. Qed.
Lemma stable_write_bytes b : stable (write_bytes b).
Proof. done. Qed.
Lemma stable_fail {A} e : stable (fail e : Proc TlsError A).
Proof. done. Qed.
Lemma stable_read_bytes n : stable (read_bytes n).
Proof. apply stable_get, stable_read_exact. Qed.
#[export] Hint Resolve stable_expect stable_parsed stable_write_bytes stable_fail stable_read_bytes : stable.

Lemma stable_read_record : stable read_record.
Proof.
  unfold read_record. apply stable_bind; [auto with stable|]. intros hdr.
  destruct hdr as [|? [|? [|? [|? [|? [|]]]]]]; stable_proc.
Qed.
#[export] Hint Resolve stable_read_record : stable.

Section StableTls.
Context {C : TlsCrypto}.

Lemma stable_read_flight rounds : ∀ rc st, stable (read_flight rounds rc st).
Proof.
  induction rounds as [|rounds IH]; intros rc st; [done|]. cbn [read_flight].
  apply stable_bind; [auto with stable|]. intros [st1 [fin|]]; [done|].
  apply stable_bind; [auto with stable|]. intros [outer rec].
  destruct (outer =? 0x14); [apply IH|]. destruct (outer =? 0x17); [|by destruct (outer =? 0x15)].
  destruct (RecordCrypto_open rc rec) as [rc1 [[ct pt]|]]; [|done]. by destruct (negb _).
Qed.
Lemma stable_read_client_finished rounds : ∀ rc expected, stable (read_client_finished rounds rc expected).
Proof.
  induction rounds as [|rounds IH]; intros rc expected; [done|]. cbn [read_client_finished].
  apply stable_bind; [auto with stable|]. intros [outer rec].
  destruct (outer =? 0x14); [apply IH|]. destruct (outer =? 0x17); [|by destruct (outer =? 0x15)].
  destruct (RecordCrypto_open rc rec) as [rc1 [[ct pt]|]]; [|done].
  apply stable_bind; [done|]. intros _. apply stable_bind; [done|]. intros [[mt msg] n]. stable_proc.
Qed.
Lemma stable_write_chunks chunks : ∀ rc, stable (write_chunks rc chunks).
Proof.
  induction chunks as [|chunk chunks IH]; intros rc; [done|]. cbn [write_chunks].
  apply stable_bind; [done|]. intros [rc1 rec]. apply stable_bind; [done|]. intros _. apply IH.
Qed.
Lemma stable_check_certificate verify st : stable (check_certificate verify st).
Proof. unfold check_certificate. repeat case_match; try done; stable_proc. Qed.
#[local] Hint Resolve stable_read_flight stable_read_client_finished stable_write_chunks
  stable_check_certificate : stable.

(** One operation at a time, through the pairs the operations return. *)
Ltac stable_tls :=
  repeat first
    [ apply stable_bind; [solve [auto with stable]|]
    | intros ?; cbv beta
    | match goal with |- stable (match ?p with _ => _ end) => destruct p end
    | solve [auto with stable] ].

Lemma client_handshake_stable rounds hello_record client_eph verify :
  stable (client_handshake rounds hello_record client_eph verify).
Proof. unfold client_handshake, client_after_write, client_after_hello. cbv zeta. stable_tls. Qed.

Lemma drive_server_stable rounds ch_rec f cert cv suite plan eph random :
  stable (drive_server rounds ch_rec f cert cv suite plan eph random).
Proof.
  unfold drive_server. apply stable_bind.
  - unfold server_flight. cbv zeta. stable_tls.
  - unfold server_finish. stable_tls.
Qed.
End StableTls.
