(* ===== verification/Reality.v ===== *)
(** * The REALITY carrier

    [shadowpipe-reality/src/auth.rs], [build_authed_client_hello] of [lib.rs] and the acceptor
    of [reality.rs].  The client hides a sealed token in the session id of its ClientHello.
    The acceptor takes over a connection whose token is genuine and fresh, and splices every
    other one to the cover site.  The acceptor is a process ([Network]) over the TLS drivers
    ([Tls13]) and the replay cache ([Replay]), whose new state it returns also when it fails;
    the clock and random values are arguments. *)

From S2P Require Import Prelude Wire Network TlsMessages Tls13 TlsHandshake Replay.

(** ** The token *)

Definition REALITY_INFO : bytes := ascii "REALITY".
Definition SESSION_ID_LEN : nat := 32.
Definition AUTH_PLAINTEXT_LEN : nat := 16.
Definition RECORD_HEADER : nat := 5.

(** The bytes [off..off + n] set to zero. *)
Definition zero_range (b : bytes) (off n : nat) : bytes :=
  take off b ++ replicate n Byte.x00 ++ drop (off + n) b.

(** [version(3) reserved(1) unix_time(4) short_id(8)] *)
Definition auth_plaintext (version : bytes) (unix_time : Z) (short_id : bytes) : bytes :=
  let id := take 8 short_id in
  version ++ [Byte.x00] ++ be_bytes 4 unix_time ++ id ++ replicate (8 - length id) Byte.x00.

Section Token.
Context {C : TlsCrypto}.

Definition ecdh (secret peer_pub : bytes) : option bytes :=
  let shared := dh_shared secret peer_pub in
  if was_contributory shared then Some shared else None.

(** [Hkdf::new] followed by [expand] *)
Definition derive_auth_key (ecdh_shared client_random : bytes) : option bytes :=
  hkdf_expand Sha256 (hkdf_extract Sha256 (take 20 client_random) ecdh_shared) REALITY_INFO 32.

Definition seal_into_session_id (hello : bytes) (sid_off : nat) (auth_key client_random plaintext : bytes)
  : option bytes :=
  if negb (sid_off + SESSION_ID_LEN <=? length hello)%nat then None else
  let hello := zero_range hello sid_off SESSION_ID_LEN in
  ct ← aead_encrypt Aes256Gcm auth_key (range client_random 20 32) (drop RECORD_HEADER hello) plaintext;
  if negb (length ct =? SESSION_ID_LEN)%nat then None else
  Some (take sid_off hello ++ ct ++ drop (sid_off + SESSION_ID_LEN) hello).

Definition open_session_id (hello : bytes) (sid_off : nat) (auth_key client_random : bytes) : outcome bytes :=
  ct ← index_range hello sid_off (sid_off + SESSION_ID_LEN);
  let aad := zero_range (drop RECORD_HEADER hello) (sid_off - RECORD_HEADER) SESSION_ID_LEN in
  match aead_decrypt Aes256Gcm auth_key (range client_random 20 32) aad ct with
  | None => Nothing
  | Some pt => if (length pt =? AUTH_PLAINTEXT_LEN)%nat then Val pt else Panics
  end.

(** Of [random] and the ephemeral secret [eph]; [Nothing] is the error
    [NonContributoryPublicKey]. *)
Definition build_authed_client_hello (sni server_static_pub short_id : bytes) (unix_time : Z) (g : Grease)
    (record_len : Z) (random eph : bytes) : outcome (bytes * bytes * bytes) :=
  match build_client_hello sni random (replicate 32 Byte.x00) (dh_public eph) g record_len with
  | None => Panics
  | Some hello =>
      match ecdh eph server_static_pub with
      | None => Nothing
      | Some shared =>
          match derive_auth_key shared random with
          | None => Panics
          | Some key =>
              let pt := auth_plaintext CLIENT_VERSION unix_time short_id in
              match seal_into_session_id hello SID_OFFSET key random pt with
              | None => Panics
              | Some hello => Val (hello, eph, key)
              end
          end
      end
  end.

(** ** The configuration *)

Record CoverProfile := mkCoverProfile {
  cp_cipher : Z;
  cp_flight_len : Z;
  cp_record_lens : list Z;
}.

(** The address of the cover and the replay cache are arguments of the acceptor. *)
Record RealityServerConfig := mkRealityServerConfig {
  static_secret : bytes;
  short_ids : list bytes;
  max_time_skew_secs : option Z;
  cover_profile : option CoverProfile;
}.

Definition mimic_params (cfg : RealityServerConfig) : Suite * nat :=
  match cover_profile cfg with
  | Some p =>
      let suite := default Aes128GcmSha256 (Suite_from_id (cp_cipher p)) in
      let overhead := 270 + (Z.of_nat (hash_len (Suite_hash suite)) - 32) in
      (suite, Z.to_nat (Z.min (Z.max 0 (cp_flight_len p - overhead)) 16000))
  | None => (Aes128GcmSha256, 0%nat)
  end.

Definition flight_record_plan (cfg : RealityServerConfig) : list nat :=
  match cover_profile cfg with
  | Some p => (λ l, Z.to_nat (Z.max (Z.max 0 (l - 22)) 1))
                <$> filter (λ l, l ≠ 6) (drop 1 (cp_record_lens p))
  | None => []
  end.

Definition reality_certverify_msg (auth_key leaf_pub : bytes) : option bytes :=
  certverify_msg (reality_cert_hmac auth_key leaf_pub).

(** ** The check of a token *)

(** [windows(2).all(|pair| pair[0] < pair[1])] *)
Fixpoint ascending (l : list bytes) : bool :=
  match l with
  | a :: ((b :: _) as l') => bool_decide (bytes_cmp a b = Lt) && ascending l'
  | _ => true
  end.

Definition padded_id (id : bytes) : bytes := id ++ replicate (8 - length id) Byte.x00.

Definition short_id_ok (cfg : RealityServerConfig) (pt : bytes) : bool :=
  let ids := short_ids cfg in
  if negb ((1 <=? length ids)%nat && (length ids <=? 16)%nat)
     || existsb (λ id, negb ((1 <=? length id)%nat && (length id <=? 8)%nat)) ids
     || negb (ascending ids)
  then false
  else foldl (λ accepted id, accepted || bool_decide (padded_id id = range pt 8 16)) false ids.

Record TokenAuthorization := mkTokenAuthorization { ta_now : Z; ta_valid_until : option Z }.

Definition token_authorized_at (cfg : RealityServerConfig) (pt : bytes) (now : Z)
  : option TokenAuthorization :=
  if negb (bool_decide (range pt 0 3 = CLIENT_VERSION)) || negb (bool_decide (range pt 3 4 = [Byte.x00]))
     || negb (short_id_ok cfg pt)
  then None
  else
    match max_time_skew_secs cfg with
    | Some window =>
        let token_time := be_value (range pt 4 8) in
        if window <? Z.abs (now - token_time) then None
        else Some (mkTokenAuthorization now (Some (Z.min (token_time + window) (2 ^ 64 - 1))))
    | None => Some (mkTokenAuthorization now None)
    end.
End Token.

(** ** The acceptor *)

Inductive RealityError := CarrierFailed (e : TlsError) | CoverUnreachable.

(** A connection taken over, or one whose first record was passed to the cover. *)
Inductive RealityAccept := TokenAccepted (conn : ServerConnection) | Forwarded (prefix : bytes).

(** What the acceptor decides on a first record. *)
Inductive Verdict := Forward | Accept (f : HelloFields) (auth_key : bytes) | Panic.

(** What the acceptor draws: the leaf, the ephemeral secret and the random. *)
Record AcceptorCoins := mkAcceptorCoins {
  k_leaf_pub : bytes;
  k_server_eph : bytes;
  k_tls_random : bytes;
}.

Section Acceptor.
Context {C : TlsCrypto} {Rc : ReplayCrypto}.

(** The decision, from the first record to the entry in the replay cache; [o] is the outcome
    of the durable write. *)
Definition classify (cfg : RealityServerConfig) (cache : ReplayCache) (now : Z) (o : WriteOutcome)
    (t : Z) (ch_rec : bytes) : ReplayCache * Verdict :=
  if negb (t =? 0x16) then (cache, Forward) else
  match extract_client_hello_fields ch_rec with
  | Nothing => (cache, Forward)
  | Panics => (cache, Panic)
  | Val f =>
      match ecdh (static_secret cfg) (hf_x25519_pub f) with
      | None => (cache, Forward)
      | Some shared =>
          match derive_auth_key shared (hf_random f) with
          | None => (cache, Panic)
          | Some auth_key =>
              match open_session_id ch_rec SID_OFFSET auth_key (hf_random f) with
              | Panics => (cache, Panic)
              | Nothing => (cache, Forward)
              | Val pt =>
                  match token_authorized_at cfg pt now with
                  | None => (cache, Forward)
                  | Some authorization =>
                      match ta_valid_until authorization with
                      | None => (cache, Accept f auth_key)
                      | Some valid_until =>
                          let '(cache, fresh) := check_and_record cache (hf_session_id f)
                                                   (ta_now authorization) valid_until o in
                          (cache, if fresh then Accept f auth_key else Forward)
                      end
                  end
              end
          end
      end
  end.

(** The handshake of an accepted connection. *)
Definition take_over (rounds : nat) (cfg : RealityServerConfig) (coins : AcceptorCoins) (ch_rec : bytes)
    (f : HelloFields) (auth_key : bytes) : Proc TlsError ServerConnection :=
  let '(suite, pad) := mimic_params cfg in
  cert ← expect (reality_cert_msg (k_leaf_pub coins) pad);
  cv ← expect (reality_certverify_msg auth_key (k_leaf_pub coins));
  drive_server rounds ch_rec f cert cv suite (flight_record_plan cfg) (k_server_eph coins) (k_tls_random coins).

(** [cover_up] says whether the cover is reached and takes the first record. *)
Definition reality_accept (rounds : nat) (cfg : RealityServerConfig) (cache : ReplayCache) (now : Z)
    (o : WriteOutcome) (cover_up : bool) (coins : AcceptorCoins)
  : Proc (ReplayCache * RealityError) (ReplayCache * RealityAccept) :=
  '(t, ch_rec) ← map_err (λ e, (cache, CarrierFailed e)) read_record;
  let '(cache, verdict) := classify cfg cache now o t ch_rec in
  match verdict with
  | Panic => Done (Err (cache, CarrierFailed TlsPanic))
  | Forward =>
      _ ← ensure cover_up (cache, CoverUnreachable);
      mret (cache, Forwarded ch_rec)
  | Accept f auth_key =>
      conn ← map_err (λ e, (cache, CarrierFailed e)) (take_over rounds cfg coins ch_rec f auth_key);
      mret (cache, TokenAccepted conn)
  end.
End Acceptor.

(** ** Sealing and opening *)

Lemma zero_range_app (a b c : bytes) n :
  length b = n → zero_range (a ++ b ++ c) (length a) n = a ++ replicate n Byte.x00 ++ c.
Proof.
  intros Hb. unfold zero_range. rewrite take_app_length. f_equal. f_equal.
  rewrite drop_app, drop_ge, Nat.add_comm, Nat.add_sub by lia. rewrite <-Hb. apply drop_app_length.
Qed.
Lemma drop_off (a b : bytes) k : (k ≤ length a)%nat → drop k (a ++ b) = drop k a ++ b.
Proof. intros Hk. rewrite drop_app. by replace (k - length a)%nat with 0%nat by lia. Qed.

Section Sealing.
Context {C : TlsCrypto} {L : TlsCryptoLaws C}.

(** The associated data of a token in a record with [a] before and [c] after the session id. *)
Definition token_aad (a c : bytes) : bytes := drop RECORD_HEADER a ++ replicate SESSION_ID_LEN Byte.x00 ++ c.

Lemma seal_into_session_id_Some a sid c key random pt hello' :
  length sid = SESSION_ID_LEN → (RECORD_HEADER ≤ length a)%nat →
  seal_into_session_id (a ++ sid ++ c) (length a) key random pt = Some hello' ↔
  ∃ ct, aead_encrypt Aes256Gcm key (range random 20 32) (token_aad a c) pt = Some ct
    ∧ length ct = SESSION_ID_LEN ∧ hello' = a ++ ct ++ c.
Proof.
  intros Hsid Ha. unfold seal_into_session_id, token_aad.
  destruct (Nat.leb_spec (length a + SESSION_ID_LEN) (length (a ++ sid ++ c))) as [_|Hn];
    [|rewrite !length_app, Hsid in Hn; lia]. cbn [negb].
  rewrite (zero_range_app a sid c _ Hsid), (drop_off a _ RECORD_HEADER) by done.
  destruct (aead_encrypt _ _ _ _ _) as [ct|]; cbn [mbind option_bind]; [|naive_solver].
  destruct (Nat.eqb_spec (length ct) SESSION_ID_LEN) as [Hct|Hct]; cbn [negb].
  - rewrite take_app_length. rewrite drop_app, drop_ge, Nat.add_comm, Nat.add_sub by lia. cbn [app].
    rewrite drop_app_length' by (by rewrite length_replicate). split; [intros [= <-]; eauto|naive_solver].
  - naive_solver.
Qed.

Lemma open_session_id_Val a sid c key random pt :
  length sid = SESSION_ID_LEN → (RECORD_HEADER ≤ length a)%nat →
  open_session_id (a ++ sid ++ c) (length a) key random ≠ Panics
  ∧ (open_session_id (a ++ sid ++ c) (length a) key random = Val pt ↔
     aead_encrypt Aes256Gcm key (range random 20 32) (token_aad a c) pt = Some sid).
Proof.
  intros Hsid Ha. unfold open_session_id.
  rewrite (proj2 (ranges_at (a ++ sid ++ c) (length a) sid c (length a + SESSION_ID_LEN)
    (drop_app_length _ _) ltac:(rewrite Hsid; unfold SESSION_ID_LEN; lia) ltac:(by rewrite Hsid))).
  cbn [mbind outcome_bind]. rewrite (drop_off a _ RECORD_HEADER) by done.
  replace (length a - RECORD_HEADER)%nat with (length (drop RECORD_HEADER a)) by (rewrite length_drop; lia).
  rewrite (zero_range_app _ sid c _ Hsid). fold (token_aad a c).
  assert (∀ p, aead_encrypt Aes256Gcm key (range random 20 32) (token_aad a c) p = Some sid →
    (length p =? AUTH_PLAINTEXT_LEN)%nat = true) as Hlen.
  { intros p Hp%aead_encrypt_length. apply Nat.eqb_eq. unfold len, AUTH_PLAINTEXT_LEN, SESSION_ID_LEN in *. lia. }
  destruct (aead_decrypt _ _ _ _ _) as [p|] eqn:Hd.
  - pose proof (aead_encrypt_decrypt _ _ _ _ _ _ Hd) as He. rewrite (Hlen p He). split; [done|]. split.
    + by intros [= <-].
    + intros Hp%aead_decrypt_encrypt. congruence.
  - split; [done|]. split; [done|]. intros Hp%aead_decrypt_encrypt. congruence.
Qed.
End Sealing.

(** ** Tokens *)

(** An allowlist of short ids the acceptor works with. *)
Record short_ids_ok (ids : list bytes) : Prop := {
  si_count : (1 ≤ length ids ≤ 16)%nat;
  si_sizes : Forall (λ id, (1 ≤ length id ≤ 8)%nat) ids;
  si_ascending : ascending ids = true;
}.

Lemma foldl_or {A} (f : A → bool) l acc : foldl (λ b x, b || f x) acc l = acc || existsb f l.
Proof.
  revert acc. induction l as [|x l IH]; intros acc; cbn; [by rewrite orb_false_r|]. by rewrite IH, orb_assoc.
Qed.

Lemma short_id_ok_iff cfg pt :
  short_id_ok cfg pt = true ↔
  short_ids_ok (short_ids cfg) ∧ ∃ id, id ∈ short_ids cfg ∧ padded_id id = range pt 8 16.
Proof.
  unfold short_id_ok. set (ids := short_ids cfg). rewrite foldl_or. cbn [orb].
  assert (existsb (λ id, bool_decide (padded_id id = range pt 8 16)) ids = true
          ↔ ∃ id, id ∈ ids ∧ padded_id id = range pt 8 16) as Hex.
  { rewrite existsb_exists. setoid_rewrite bool_decide_eq_true. by setoid_rewrite list_elem_of_In. }
  destruct (_ || _ || _) eqn:Hbad.
  - split; [done|]. intros [[Hc Hs Ha] _].
    revert Hbad. destruct (Nat.leb_spec 1 (length ids)), (Nat.leb_spec (length ids) 16); try lia. cbn [negb andb orb]; intros Hbad.
    rewrite Ha, orb_false_r in Hbad. apply existsb_exists in Hbad as (id & Hin & Hn).
    rewrite Forall_forall in Hs. specialize (Hs id (proj2 (list_elem_of_In _ _) Hin)).
    revert Hn. destruct (Nat.leb_spec 1 (length id)), (Nat.leb_spec (length id) 8); cbn; (lia || congruence).
  - rewrite Hex. split; [|naive_solver]. intros Hid. split; [|done].
    apply orb_false_iff in Hbad as [[Hc Hs]%orb_false_iff Ha%negb_false_iff].
    apply negb_false_iff, andb_true_iff in Hc as [Hc1%Nat.leb_le Hc2%Nat.leb_le]. split; [lia| |done].
    apply Forall_forall. intros id Hin. apply not_true_iff_false in Hs. 
    destruct (decide (1 ≤ length id ≤ 8)%nat) as [|Hn]; [done|]. destruct Hs. apply existsb_exists.
    exists id. split; [by apply list_elem_of_In|]. apply negb_true_iff, andb_false_iff.
    rewrite !Nat.leb_gt. lia.
Qed.

(** A plaintext that a client with a configured short id has made at a time within the
    window, and until when the cache has to remember it. *)
Definition genuine (cfg : RealityServerConfig) (now : Z) (pt : bytes) (until : option Z) : Prop :=
  short_ids_ok (short_ids cfg)
  ∧ ∃ time id, 0 ≤ time < 2 ^ 32 ∧ id ∈ short_ids cfg ∧ pt = auth_plaintext CLIENT_VERSION time id
    ∧ match max_time_skew_secs cfg with
      | None => until = None
      | Some window => Z.abs (now - time) ≤ window ∧ until = Some (Z.min (time + window) (2 ^ 64 - 1))
      end.

Lemma sixteen_bytes (pt : bytes) : length pt = 16%nat →
  pt = range pt 0 3 ++ range pt 3 4 ++ range pt 4 8 ++ range pt 8 16
  ∧ length (range pt 4 8) = 4%nat.
Proof. intros Hl. do 16 (destruct pt as [|? pt]; [done|]). by destruct pt. Qed.

Lemma padded_id_length id : (length id ≤ 8)%nat → length (padded_id id) = 8%nat.
Proof. intros Hi. unfold padded_id. rewrite length_app, length_replicate. lia. Qed.

Lemma auth_plaintext_fields time id : (length id ≤ 8)%nat →
  let pt := auth_plaintext CLIENT_VERSION time id in
  pt = CLIENT_VERSION ++ [Byte.x00] ++ be_bytes 4 time ++ padded_id id
  ∧ length pt = 16%nat ∧ range pt 0 3 = CLIENT_VERSION ∧ range pt 3 4 = [Byte.x00]
  ∧ range pt 4 8 = be_bytes 4 time ∧ range pt 8 16 = padded_id id.
Proof.
  intros Hi pt. assert (pt = CLIENT_VERSION ++ [Byte.x00] ++ be_bytes 4 time ++ padded_id id) as Hpt.
  { unfold pt, auth_plaintext, padded_id. rewrite !(take_ge id) by done. done. }
  rewrite Hpt. pose proof (padded_id_length id Hi) as Hp. split; [done|]. split.
  { rewrite !length_app, length_be_bytes, Hp. done. }
  pose proof (length_be_bytes 4 time) as Ht. unfold CLIENT_VERSION. cbn [app].
  destruct (be_bytes 4 time) as [|t0 [|t1 [|t2 [|t3 [|]]]]]; try done. cbn [app]. split_and!; [done..|].
  unfold range. cbn [Nat.sub drop]. by rewrite <-Hp, firstn_all.
Qed.

Lemma token_authorized_at_iff cfg pt now a : length pt = 16%nat →
  token_authorized_at cfg pt now = Some a ↔ ta_now a = now ∧ genuine cfg now pt (ta_valid_until a).
Proof.
  intros Hl. destruct (sixteen_bytes pt Hl) as [Hpt Htime]. unfold token_authorized_at, genuine.
  assert (∀ id time, id ∈ short_ids cfg → short_ids_ok (short_ids cfg) → 0 ≤ time < 2 ^ 32 →
    pt = auth_plaintext CLIENT_VERSION time id →
    range pt 0 3 = CLIENT_VERSION ∧ range pt 3 4 = [Byte.x00] ∧ short_id_ok cfg pt = true
    ∧ be_value (range pt 4 8) = time) as Hfwd.
  { intros id time Hid Hok Ht ->. pose proof (si_sizes _ Hok) as Hs. rewrite Forall_forall in Hs.
    destruct (Hs id Hid) as [_ Hi]. destruct (auth_plaintext_fields time id Hi) as (_ & _ & -> & -> & -> & E).
    split_and!; [done..| |by apply be_value_be_bytes_small]. apply short_id_ok_iff. split; [done|].
    exists id. by rewrite E. }
  destruct (_ || _ || _) eqn:Hbad.
  - split; [done|]. intros (_ & Hok & time & id & Ht & Hid & He & _).
    destruct (Hfwd id time Hid Hok Ht He) as (E1 & E2 & E3 & _).
    by rewrite E1, E2, E3, !bool_decide_eq_true_2 in Hbad.
  - apply orb_false_iff in Hbad as [[Hv%negb_false_iff Hz%negb_false_iff]%orb_false_iff Hs%negb_false_iff].
    apply bool_decide_eq_true in Hv. apply bool_decide_eq_true in Hz.
    apply short_id_ok_iff in Hs as (Hok & id & Hid & He).
    assert (pt = auth_plaintext CLIENT_VERSION (be_value (range pt 4 8)) id
            ∧ 0 ≤ be_value (range pt 4 8) < 2 ^ 32) as [Hgen Hbound].
    { pose proof (si_sizes _ Hok) as Hss. rewrite Forall_forall in Hss. destruct (Hss id Hid) as [_ Hi].
      split.
      - rewrite (proj1 (auth_plaintext_fields _ _ Hi)), He. rewrite <-Htime at 1. rewrite be_bytes_be_value.
        rewrite <-Hv, <-Hz. exact Hpt.
      - pose proof (be_value_bound (range pt 4 8)) as Hb. unfold len in Hb. by rewrite Htime in Hb. }
    destruct a as [anow auntil]. cbn [ta_now ta_valid_until]. destruct (max_time_skew_secs cfg) as [w|].
    + destruct (Z.ltb_spec w (Z.abs (now - be_value (range pt 4 8)))).
      * split; [done|]. intros (_ & _ & time & id' & Ht & Hid' & He' & Hw & _).
        destruct (Hfwd id' time Hid' Hok Ht He') as (_ & _ & _ & E). lia.
      * split.
        -- intros [= <- <-]. split_and!; [done..|]. by exists (be_value (range pt 4 8)), id.
        -- intros (-> & _ & time & id' & Ht & Hid' & He' & Hw & ->).
           destruct (Hfwd id' time Hid' Hok Ht He') as (_ & _ & _ & <-). done.
    + split.
      * intros [= <- <-]. split_and!; [done..|]. by exists (be_value (range pt 4 8)), id.
      * by intros (-> & _ & time & id' & _ & _ & _ & ->).
Qed.

(** ** The decision *)

Lemma extract_Val rec f : extract_client_hello_fields rec = Val f →
  ∃ a c, rec = a ++ hf_session_id f ++ c ∧ length a = SID_OFFSET
    ∧ length (hf_session_id f) = SESSION_ID_LEN ∧ length (hf_random f) = 32%nat.
Proof.
  unfold extract_client_hello_fields. intros H.
  assert (∀ {A B} (m : outcome A) (k : A → outcome B) b, m ≫= k = Val b → ∃ a, m = Val a ∧ k a = Val b) as Hbind.
  { intros A B m k b Hm. destruct m; [by eauto|done..]. }
  apply Hbind in H as (t & _ & H). destruct (negb _); [done|].
  apply Hbind in H as (h & _ & H). destruct (negb _); [done|].
  apply Hbind in H as (v & _ & H). apply Hbind in H as (r0 & _ & H). apply Hbind in H as (random & Hr & H).
  apply Hbind in H as (sl & _ & H). destruct (negb _); [done|].
  apply Hbind in H as (s0 & Hs0 & H). apply Hbind in H as (sid & Hs & H).
  apply Hbind in H as (cl & _ & H). apply Hbind in H as (co & _ & H). apply Hbind in H as (et & _ & H).
  destruct (length rec <? _)%nat; [done|]. apply Hbind in H as ([x|] & _ & H); [|done]. injection H as <-.
  assert (∀ x y, array32 x = Val y → y = x ∧ length x = 32%nat) as Harr.
  { intros x0 y. unfold array32. destruct (Nat.eqb_spec (length x0) 32); [by intros [= <-]|done]. }
  apply Harr in Hr as [-> Hr]. apply Harr in Hs as [-> Hs].
  unfold get_range in Hs0. destruct (Nat.leb_spec 76 (length rec)) as [Hl|]; [|done]. injection Hs0 as <-.
  cbn [hf_session_id hf_random]. exists (take 44 rec), (drop 76 rec). unfold range. cbn [Nat.sub].
  split_and!; [|rewrite length_take; unfold SID_OFFSET; lia|done|done].
  rewrite <-(take_drop 44 rec) at 1. f_equal. rewrite <-(take_drop 32 (drop 44 rec)) at 1. by rewrite drop_drop.
Qed.

Section Decision.
Context {C : TlsCrypto} {L : TlsCryptoLaws C} {Rc : ReplayCrypto}.

(** The record is a ClientHello whose session id is the sealing of [pt] under the key that
    the static secret and the key share of the client give. *)
Definition carries (cfg : RealityServerConfig) (t : Z) (ch_rec : bytes) (f : HelloFields)
    (auth_key pt : bytes) : Prop :=
  t = 0x16 ∧ extract_client_hello_fields ch_rec = Val f
  ∧ was_contributory (dh_shared (static_secret cfg) (hf_x25519_pub f)) = true
  ∧ derive_auth_key (dh_shared (static_secret cfg) (hf_x25519_pub f)) (hf_random f) = Some auth_key
  ∧ ∃ a c, ch_rec = a ++ hf_session_id f ++ c ∧ length a = SID_OFFSET
    ∧ aead_encrypt Aes256Gcm auth_key (range (hf_random f) 20 32) (token_aad a c) pt
      = Some (hf_session_id f).

(** The cache admits the token, if it has to be asked. *)
Definition admitted_by (cache : ReplayCache) (sid : bytes) (now : Z) (until : option Z) (o : WriteOutcome) : Prop :=
  match until with None => True | Some u => (check_and_record cache sid now u o).2 = true end.

Lemma derive_auth_key_total shared random : ∃ key, derive_auth_key shared random = Some key ∧ length key = 32%nat.
Proof. apply hkdf_expand_total; [by rewrite hkdf_extract_length|cbn; lia]. Qed.

Lemma carries_inj cfg t ch_rec f key pt f' key' pt' :
  carries cfg t ch_rec f key pt → carries cfg t ch_rec f' key' pt' → f' = f ∧ key' = key ∧ pt' = pt.
Proof.
  intros (_ & Hf & _ & Hk & a & c & Hrec & Ha & He) (_ & Hf' & _ & Hk' & a' & c' & Hrec' & Ha' & He').
  assert (f' = f) as -> by congruence. assert (key' = key) as -> by congruence.
  rewrite Hrec in Hrec'. apply app_inj_1 in Hrec' as [<- Hrec']; [|congruence]. apply app_inv_head in Hrec' as <-.
  apply aead_decrypt_encrypt in He, He'. split_and!; [done..|congruence].
Qed.

Lemma classify_carries cfg cache now o t ch_rec f key pt :
  carries cfg t ch_rec f key pt →
  classify cfg cache now o t ch_rec =
    match token_authorized_at cfg pt now with
    | None => (cache, Forward)
    | Some authorization =>
        match ta_valid_until authorization with
        | None => (cache, Accept f key)
        | Some u => let '(cache, fresh) := check_and_record cache (hf_session_id f) (ta_now authorization) u o in
                    (cache, if fresh then Accept f key else Forward)
        end
    end.
Proof.
  intros (-> & Hf & Hcon & Hk & a & c & -> & Ha & He). unfold classify. cbn [Z.eqb Pos.eqb negb].
  rewrite Hf. unfold ecdh. cbv zeta. rewrite Hcon, Hk.
  destruct (extract_Val _ _ Hf) as (_ & _ & _ & _ & Hs & _). rewrite <-Ha.
  rewrite (proj2 (proj2 (open_session_id_Val a (hf_session_id f) c key (hf_random f) pt Hs
    ltac:(rewrite Ha; unfold SID_OFFSET, RECORD_HEADER; lia))) He). done.
Qed.

Lemma classify_not_carries cfg cache now o t ch_rec :
  (∀ f key pt, ¬ carries cfg t ch_rec f key pt) → classify cfg cache now o t ch_rec = (cache, Forward).
Proof.
  intros Hno. unfold classify. destruct (Z.eqb_spec t 0x16) as [->|]; [|done]. cbn [negb].
  pose proof (extract_safe ch_rec) as Hsafe. destruct (extract_client_hello_fields ch_rec) as [f| |] eqn:Hf; [|done..].
  unfold ecdh. cbv zeta. destruct (was_contributory _) eqn:Hcon; [|done].
  destruct (derive_auth_key_total (dh_shared (static_secret cfg) (hf_x25519_pub f)) (hf_random f)) as (key & Hk & _).
  rewrite Hk. destruct (extract_Val _ _ Hf) as (a & c & Hrec & Ha & Hs & _).
  assert (RECORD_HEADER ≤ length a)%nat as Hh by (rewrite Ha; unfold SID_OFFSET, RECORD_HEADER; lia).
  destruct (open_session_id ch_rec SID_OFFSET key (hf_random f)) as [pt| |] eqn:Ho; [|done|].
  - exfalso. apply (Hno f key pt). rewrite <-Ha, Hrec in Ho.
    apply (open_session_id_Val a _ c key (hf_random f) pt Hs Hh) in Ho. split_and!; [done..|]. by exists a, c.
  - exfalso. rewrite <-Ha, Hrec in Ho. by apply (open_session_id_Val a _ c key (hf_random f) [] Hs Hh) in Ho.
Qed.

Lemma carries_length cfg t ch_rec f key pt : carries cfg t ch_rec f key pt → length pt = 16%nat.
Proof.
  intros (_ & Hf & _ & _ & a & c & _ & _ & He%aead_encrypt_length).
  destruct (extract_Val _ _ Hf) as (_ & _ & _ & _ & Hs & _). unfold len, SESSION_ID_LEN in *. lia.
Qed.

Lemma carries_or_not cfg t ch_rec :
  (∃ f key pt, carries cfg t ch_rec f key pt) ∨ ∀ f key pt, ¬ carries cfg t ch_rec f key pt.
Proof.
  destruct (decide (t = 0x16)) as [->|]; [|right; by intros f key pt (? & _)].
  destruct (extract_client_hello_fields ch_rec) as [f| |] eqn:Hf;
    [|right; intros f key pt (_ & ? & _); congruence..].
  destruct (was_contributory (dh_shared (static_secret cfg) (hf_x25519_pub f))) eqn:Hcon;
    [|right; intros f' key pt (_ & ? & ? & _); congruence].
  destruct (derive_auth_key_total (dh_shared (static_secret cfg) (hf_x25519_pub f)) (hf_random f)) as (key & Hk & _).
  destruct (extract_Val _ _ Hf) as (a & c & Hrec & Ha & _).
  destruct (aead_decrypt Aes256Gcm key (range (hf_random f) 20 32) (token_aad a c) (hf_session_id f)) as [pt|] eqn:Hd.
  - left. exists f, key, pt. split_and!; [done..|]. exists a, c. split_and!; [done..|]. by apply aead_encrypt_decrypt.
  - right. intros f' key' pt (_ & Hf' & _ & Hk' & a' & c' & Hrec' & Ha' & He).
    assert (f' = f) as -> by congruence. assert (key' = key) as -> by congruence.
    rewrite Hrec in Hrec'. apply app_inj_1 in Hrec' as [<- Hrec']; [|congruence]. apply app_inv_head in Hrec' as <-.
    apply aead_decrypt_encrypt in He. congruence.
Qed.

(** Exactly when a record is accepted; the decision never panics. *)
Lemma classify_spec cfg cache now o t ch_rec :
  let '(cache', verdict) := classify cfg cache now o t ch_rec in
  verdict ≠ Panic
  ∧ (∀ f key, verdict = Accept f key ↔
       ∃ pt until, carries cfg t ch_rec f key pt ∧ genuine cfg now pt until
         ∧ admitted_by cache (hf_session_id f) now until o)
  ∧ (cache' = cache ∨ ∃ f key pt u, carries cfg t ch_rec f key pt ∧ genuine cfg now pt (Some u)
       ∧ cache' = (check_and_record cache (hf_session_id f) now u o).1).
Proof.
  destruct (carries_or_not cfg t ch_rec) as [(f & key & pt & Hc)|Hno].
  - rewrite (classify_carries _ _ _ _ _ _ _ _ _ Hc). pose proof (carries_length _ _ _ _ _ _ Hc) as Hl.
    assert (∀ f' key' pt' until, carries cfg t ch_rec f' key' pt' → genuine cfg now pt' until →
      f' = f ∧ key' = key ∧ token_authorized_at cfg pt now = Some (mkTokenAuthorization now until)) as Hinv.
    { intros f' key' pt' until Hc' Hg. destruct (carries_inj _ _ _ _ _ _ _ _ _ Hc Hc') as (-> & -> & ->).
      split_and!; [done..|]. by apply token_authorized_at_iff. }
    destruct (token_authorized_at cfg pt now) as [[anow until]|] eqn:Hta.
    + pose proof Hta as [Hn Hg]%token_authorized_at_iff; [|done]. cbn [ta_now ta_valid_until] in *. subst anow.
      destruct until as [u|]; cbn [admitted_by].
      * destruct (check_and_record cache (hf_session_id f) now u o) as [cache' fresh] eqn:Hcr.
        split; [by destruct fresh|]. split; [|right; exists f, key, pt, u; by rewrite Hcr].
        intros f' key'. split.
        -- destruct fresh; [|done]. intros [= <- <-]. exists pt, (Some u). split_and!; [done..|]. cbn. by rewrite Hcr.
        -- intros (pt' & until' & Hc' & Hg' & Hadm). destruct (Hinv _ _ _ _ Hc' Hg') as (-> & -> & [= <-]).
           cbn in Hadm. rewrite Hcr in Hadm. cbn in Hadm. by rewrite Hadm.
      * split; [done|]. split; [|by left]. intros f' key'. split.
        -- intros [= <- <-]. by exists pt, None.
        -- intros (pt' & until' & Hc' & Hg' & _). by destruct (Hinv _ _ _ _ Hc' Hg') as (-> & -> & _).
    + split; [done|]. split; [|by left]. intros f' key'. split; [done|].
      intros (pt' & until' & Hc' & Hg' & _). by destruct (Hinv _ _ _ _ Hc' Hg') as (_ & _ & ?).
  - rewrite (classify_not_carries _ _ _ _ _ _ Hno). split; [done|]. split; [|by left].
    intros f key. split; [done|]. intros (pt & until & Hc & _). by apply Hno in Hc.
Qed.
End Decision.

(** ** The acceptor alone *)

Section Gate.
Context {C : TlsCrypto} {L : TlsCryptoLaws C} {Rc : ReplayCrypto}.

(** The record carries a genuine token that the cache admits. *)
Definition accepted (cfg : RealityServerConfig) (cache : ReplayCache) (now : Z) (o : WriteOutcome) (t : Z)
    (ch_rec : bytes) (f : HelloFields) (auth_key : bytes) : Prop :=
  ∃ pt until, carries cfg t ch_rec f auth_key pt ∧ genuine cfg now pt until
    ∧ admitted_by cache (hf_session_id f) now until o.

(** What follows once the record was read. *)
Definition after_record (rounds : nat) (cfg : RealityServerConfig) (cache : ReplayCache) (now : Z)
    (o : WriteOutcome) (cover_up : bool) (coins : AcceptorCoins) (t : Z) (ch_rec rest : bytes)
  : bytes * result (ReplayCache * RealityError) ((ReplayCache * RealityAccept) * bytes) :=
  let '(cache, verdict) := classify cfg cache now o t ch_rec in
  match verdict with
  | Panic => ([], Err (cache, CarrierFailed TlsPanic))
  | Forward => ([], if cover_up then Ok ((cache, Forwarded ch_rec), rest) else Err (cache, CoverUnreachable))
  | Accept f auth_key =>
      let '(out, r) := drive (take_over rounds cfg coins ch_rec f auth_key) rest in
      (out, match r with
            | Ok (conn, rest) => Ok ((cache, TokenAccepted conn), rest)
            | Err e => Err (cache, CarrierFailed e)
            end)
  end.

Lemma drive_reality_accept rounds cfg cache now o cover_up coins inbound :
  (∀ t ch_rec rest, framed t ch_rec → inbound = ch_rec ++ rest →
     drive (reality_accept rounds cfg cache now o cover_up coins) inbound
     = after_record rounds cfg cache now o cover_up coins t ch_rec rest)
  ∧ ((∀ t ch_rec rest, framed t ch_rec → inbound ≠ ch_rec ++ rest) →
     drive (reality_accept rounds cfg cache now o cover_up coins) inbound
     = ([], Err (cache, CarrierFailed TlsEof))).
Proof.
  unfold reality_accept. rewrite drive_bind, drive_map_err. split.
  - intros t ch_rec rest Hfr ->. rewrite (drive_record_alone _ _ _ Hfr).
    unfold after_record. destruct (classify cfg cache now o t ch_rec) as [cache' [|f key|]]; cbn [app].
    + rewrite drive_ensure. by destruct cover_up.
    + rewrite drive_bind, drive_map_err. destruct (drive (take_over _ _ _ _ _ _) rest) as [out [[conn s']|e]]; [|done].
      cbn. by rewrite app_nil_r.
    + done.
  - intros Hno. destruct (drive_read_record_cases mret inbound) as [(t & rec & rest & Hfr & Hs & _)|He].
    + by destruct (Hno t rec rest Hfr).
    + rewrite drive_bind_mret in He. by rewrite He.
Qed.

Lemma mimic_params_pad cfg : Z.of_nat (mimic_params cfg).2 ≤ 16000.
Proof. unfold mimic_params. destruct (cover_profile cfg); cbn; lia. Qed.

Lemma take_over_orderly rounds cfg coins ch_rec f auth_key inbound :
  len (k_leaf_pub coins) = 32 → len (k_tls_random coins) = 32 → (5 ≤ length ch_rec)%nat →
  len (hf_session_id f) = 32 → (length inbound < rounds)%nat →
  orderly (drive (take_over rounds cfg coins ch_rec f auth_key) inbound).
Proof.
  intros Hl Hr Hch Hs Hrounds. unfold take_over. pose proof (mimic_params_pad cfg) as Hp.
  destruct (mimic_params cfg) as [suite pad]. cbn [snd] in Hp.
  apply (orderly_expect _ _ _ _ (proj1 (reality_cert_msg_spec (k_leaf_pub coins) pad Hl ltac:(lia)))).
  apply (orderly_expect _ _ _ (hs_message 0x0f (certverify_body (reality_cert_hmac auth_key (k_leaf_pub coins))))).
  - apply certverify_msg_spec. unfold reality_cert_hmac. rewrite hmac_sha512_length. lia.
  - by apply drive_server_orderly.
Qed.

(** C15: The gate of the carrier, against arbitrary bytes: the acceptor takes over a connection
    exactly when its first record is a ClientHello whose session id seals, under the key
    that only the static secret and the client's key share give, a plaintext with the
    protocol version, a configured short id and a time within the window, and the replay
    cache admits it.  Every other first record goes to the cover byte for byte, the rest of
    the stream is untouched, and nothing at all was written to the peer.  No input makes the
    acceptor panic. *)
Theorem reality_gate (rounds : nat) (cfg : RealityServerConfig) (cache : ReplayCache) (now : Z)
    (o : WriteOutcome) (cover_up : bool) (coins : AcceptorCoins) (inbound : bytes) :
  len (k_leaf_pub coins) = 32 → len (k_tls_random coins) = 32 → (length inbound < rounds)%nat →
  let '(out, r) := drive (reality_accept rounds cfg cache now o cover_up coins) inbound in
  (∀ t ch_rec rest, framed t ch_rec → inbound = ch_rec ++ rest →
     let cache' := (classify cfg cache now o t ch_rec).1 in
     (∀ f key, accepted cfg cache now o t ch_rec f key →
        let '(out', r') := drive (take_over rounds cfg coins ch_rec f key) rest in
        out = out' ∧ r = match r' with
                         | Ok (conn, rest') => Ok ((cache', TokenAccepted conn), rest')
                         | Err e => Err (cache', CarrierFailed e)
                         end)
     ∧ ((∀ f key, ¬ accepted cfg cache now o t ch_rec f key) →
        out = [] ∧ r = if cover_up then Ok ((cache', Forwarded ch_rec), rest) else Err (cache', CoverUnreachable)))
  ∧ ((∀ t ch_rec rest, framed t ch_rec → inbound ≠ ch_rec ++ rest) →
     out = [] ∧ r = Err (cache, CarrierFailed TlsEof))
  ∧ ∀ c, r ≠ Err (c, CarrierFailed TlsPanic) ∧ r ≠ Err (c, CarrierFailed TlsRounds).
Proof.
  intros Hl Hr Hrounds. destruct (drive_reality_accept rounds cfg cache now o cover_up coins inbound) as [H1 H2].
  destruct (drive (reality_accept _ _ _ _ _ _ _) inbound) as [out r]. split_and!.
  - intros t ch_rec rest Hfr Hin. specialize (H1 t ch_rec rest Hfr Hin). unfold after_record in H1.
    pose proof (classify_spec cfg cache now o t ch_rec) as Hspec.
    destruct (classify cfg cache now o t ch_rec) as [cache' verdict]. cbv zeta. cbn [fst].
    destruct Hspec as (Hnp & Hacc & _). split.
    + intros f key Ha%Hacc. subst verdict.
      destruct (drive (take_over _ _ _ _ _ _) rest) as [out' r']. by injection H1 as -> ->.
    + intros Hno. destruct verdict as [|f key|]; [by injection H1 as -> ->| |done].
      by destruct (Hno f key); apply Hacc.
  - intros Hno. specialize (H2 Hno). by injection H2 as -> ->.
  - intros c.
    assert ((∃ t ch_rec rest, framed t ch_rec ∧ inbound = ch_rec ++ rest)
            ∨ ∀ t ch_rec rest, framed t ch_rec → inbound ≠ ch_rec ++ rest) as [(t & ch_rec & rest & Hfr & Hin)|Hno].
    { destruct (drive_read_record_cases mret inbound) as [(t & rec & rest & Hfr & Hs & _)|He]; [left; eauto 10|right].
      intros t rec rest Hfr Hs. rewrite Hs, (drive_read_record _ _ _ _ Hfr) in He. done. }
    + specialize (H1 t ch_rec rest Hfr Hin). unfold after_record in H1.
      pose proof (classify_spec cfg cache now o t ch_rec) as Hspec.
      destruct (classify cfg cache now o t ch_rec) as [cache' verdict]. destruct Hspec as (Hnp & Hacc & _).
      destruct verdict as [|f key|]; [|destruct (proj1 (Hacc f key) eq_refl) as (pt & until & Hc & _)|done].
      * injection H1 as -> ->. by destruct cover_up.
      * destruct Hc as (_ & Hf & _). destruct (extract_Val _ _ Hf) as (_ & _ & _ & _ & Hs & _).
        subst inbound. rewrite length_app in Hrounds.
        destruct (take_over_orderly rounds cfg coins ch_rec f key rest) as [Ho1 Ho2];
          [done|done|by eapply framed_length|unfold len, SESSION_ID_LEN in *; lia|lia|].
        destruct (drive (take_over _ _ _ _ _ _) rest) as [out' [[conn s']|e]]; injection H1 as -> ->; [done|].
        split; intros [=]; subst; done.
    + specialize (H2 Hno). by injection H2 as -> ->.
Qed.
End Gate.

(** ** The ClientHello with a token *)

(** The bytes before and after the session id. *)
Definition hello_head (sni random x25519_pub : bytes) (g : Grease) (record_len : Z) : bytes :=
  let body := hello_body sni random (replicate 32 Byte.x00) x25519_pub g record_len in
  be_bytes 1 0x16 ++ be_bytes 2 0x0301 ++ be_bytes 2 (len (be_bytes 1 0x01 ++ prefixed 3 body))
  ++ be_bytes 1 0x01 ++ be_bytes 3 (len body) ++ be_bytes 2 0x0303 ++ random ++ be_bytes 1 32.
Definition hello_tail (sni x25519_pub : bytes) (g : Grease) (record_len : Z) : bytes :=
  prefixed 2 (cipher_bytes g) ++ prefixed 1 (be_bytes 1 0)
  ++ prefixed 2 (all_bodies sni x25519_pub g record_len ≫= ext_bytes).

Lemma hello_bytes_parts sni random sid x25519_pub g record_len :
  len sid = 32 →
  hello_bytes sni random sid x25519_pub g record_len
  = hello_head sni random x25519_pub g record_len ++ sid ++ hello_tail sni x25519_pub g record_len.
Proof.
  intros Hs. unfold hello_bytes, hello_head. cbv zeta.
  assert (len (hello_body sni random sid x25519_pub g record_len)
    = len (hello_body sni random (replicate 32 Byte.x00) x25519_pub g record_len)) as Hl.
  { unfold hello_body. rewrite !len_app, !len_prefixed, Hs. done. }
  unfold prefixed at 1 2. rewrite !len_app, !len_prefixed, !len_be_bytes, Hl.
  unfold hello_body at 3, hello_tail.
  unfold prefixed at 1. rewrite Hs. by rewrite <-!app_assoc.
Qed.

Lemma hello_head_length sni random x25519_pub g record_len :
  len random = 32 → length (hello_head sni random x25519_pub g record_len) = SID_OFFSET.
Proof.
  intros Hr. unfold hello_head. cbv zeta. rewrite !length_app, !length_be_bytes. unfold len, SID_OFFSET in *. lia.
Qed.

Section Authed.
Context {C : TlsCrypto} {L : TlsCryptoLaws C}.

(** What [build_authed_client_hello] returns: a record that the acceptor of the same static
    key reads as a token of the given time and short id. *)
Lemma build_authed_Val sni short_id time g record_len random eph cfg hello eph' key :
  len random = 32 → grease_ok g →
  build_authed_client_hello sni (dh_public (static_secret cfg)) short_id time g record_len random eph
    = Val (hello, eph', key) →
  eph' = eph ∧ framed 0x16 hello ∧ len hello ≤ 65540
  ∧ ∃ sid, length sid = 32%nat
    ∧ carries cfg 0x16 hello (mkHelloFields random sid (dh_public eph)) key
        (auth_plaintext CLIENT_VERSION time short_id).
Proof.
  intros Hr Hg H. unfold build_authed_client_hello in H. pose proof (dh_public_length eph) as Hp.
  set (zeros := replicate 32 Byte.x00) in H. assert (len zeros = 32) as Hz by done.
  destruct (build_client_hello_spec sni random zeros (dh_public eph) g record_len Hr Hz Hp) as (_ & Hb & Hlen).
  destruct (build_client_hello sni random zeros (dh_public eph) g record_len) as [hello0|]; [|done].
  destruct (Hb hello0 eq_refl) as [-> Hle]. rewrite (hello_bytes_parts _ _ zeros) in H by done.
  pose proof (hello_head_length sni random (dh_public eph) g record_len Hr) as Hhead.
  set (head := hello_head _ _ _ _ _) in *. set (tail := hello_tail _ _ _ _) in *.
  unfold ecdh in H. cbv zeta in H. destruct (was_contributory _) eqn:Hcon; [|done].
  destruct (derive_auth_key _ random) as [k|] eqn:Hk; [|done].
  destruct (seal_into_session_id _ _ _ _ _) as [hello1|] eqn:Hseal; [|done]. injection H as -> <- ->.
  rewrite <-Hhead in Hseal. apply seal_into_session_id_Some in Hseal as (ct & He & Hct & ->);
    [|done|rewrite Hhead; unfold SID_OFFSET, RECORD_HEADER; lia].
  assert (len ct = 32) as Hct' by (unfold len, SESSION_ID_LEN in *; lia).
  assert (head ++ ct ++ tail = hello_bytes sni random ct (dh_public eph) g record_len) as Heq
    by (symmetry; by apply hello_bytes_parts).
  destruct (build_client_hello_spec sni random ct (dh_public eph) g record_len Hr Hct' Hp) as (Hbuild & _ & Hlen').
  rewrite Hlen in Hle. rewrite Hlen' in Hbuild. specialize (Hbuild Hle).
  pose proof (extract_built _ _ _ _ _ _ _ Hr Hct' Hp Hg Hbuild) as Hx.
  split; [done|]. split_and!.
  - rewrite Heq. rewrite <-Hlen' in Hle. unfold hello_bytes in *. rewrite !len_app, len_prefixed, !len_be_bytes in Hle.
    apply framed_record; lia.
  - by rewrite Heq, Hlen'.
  - exists ct. split; [done|]. split_and!; [done|by rewrite Heq|..]; cbn [hf_x25519_pub hf_random hf_session_id].
    + by rewrite dh_comm.
    + by rewrite dh_comm.
    + by exists head, tail.
Qed.
End Authed.

(** ** Client and acceptor complete *)

Lemma chunks_count cs : Forall chunk_ok cs → (length cs ≤ length (concat cs))%nat.
Proof.
  induction 1 as [|c cs [Hc _] _ IH]; [done|]. cbn. rewrite length_app. destruct c; [done|]. cbn. lia.
Qed.

Section Completes.
Context {C : TlsCrypto} {L : TlsCryptoLaws C} {Rc : ReplayCrypto}.

Lemma reality_accept_stable rounds cfg cache now o cover_up coins :
  stable (reality_accept rounds cfg cache now o cover_up coins).
Proof.
  unfold reality_accept. apply stable_bind; [auto with stable|]. intros [t ch_rec].
  destruct (classify cfg cache now o t ch_rec) as [cache' [|f key|]]; [stable_proc| |done].
  apply stable_bind; [|done]. apply stable_map_err. unfold take_over. destruct (mimic_params cfg) as [suite pad].
  apply stable_bind; [done|]. intros cert. apply stable_bind; [done|]. intros cv. apply drive_server_stable.
Qed.

(** Both sides have returned connections with the same keys of the sizes their AEAD takes, and
    nothing is left unread. *)
Definition carrier_up
    (n : Net TlsError (ReplayCache * RealityError) ClientConnection (ReplayCache * RealityAccept)) : Prop :=
  ∃ conn_c conn_s cache', n = mkNet (Done (Ok conn_c)) (Done (Ok (cache', TokenAccepted conn_s))) [] []
    ∧ cl_client_app conn_c = sv_client_app conn_s ∧ cl_server_app conn_c = sv_server_app conn_s
    ∧ rc_ok (cl_client_app conn_c) ∧ rc_ok (cl_server_app conn_c).

(** From the point where the server has written its flight. *)
Lemma reality_tail rounds coins hello eph key cache' suite cert cv hdr sh_msg plan
    svd hs th_app c_ap s_ap cvd server_hs client_hs server_app client_app recs rc' :
  let flight := ENCRYPTED_EXTENSIONS ++ cert ++ cv in
  let ecdhe := dh_shared (k_server_eph coins) (dh_public eph) in
  is_message 0x0b cert → is_message 0x0f cv →
  extract_leaf_pub cert = Val (k_leaf_pub coins) →
  extract_certverify_sig cv = Val (reality_cert_hmac key (k_leaf_pub coins)) →
  (5 ≤ length hello)%nat → length hdr = 5%nat → framed 0x16 (hdr ++ sh_msg) →
  parse_server_hello sh_msg = Val (Suite_id suite, dh_public (k_server_eph coins)) →
  was_contributory ecdhe = true →
  schedule suite ecdhe (drop 5 hello ++ sh_msg) flight (finished_msg svd) hs th_app c_ap s_ap cvd →
  record_keys suite hs c_ap s_ap server_hs client_hs server_app client_app →
  length svd = hash_len (Suite_hash suite) → length cvd = hash_len (Suite_hash suite) →
  sealed server_hs recs (split_for_records (flight ++ finished_msg svd) plan) rc' →
  length recs = length (split_for_records (flight ++ finished_msg svd) plan) →
  (length cert + length cv + 100 ≤ rounds)%nat →
  reaches carrier_up
    (mkNet (client_after_write rounds hello eph (RealityHmac key))
       (map_err (λ e, (cache', CarrierFailed e)) (server_finish rounds suite hs th_app)
         ≫= λ conn, mret (cache', TokenAccepted conn)) [] (hdr ++ sh_msg ++ CHANGE_CIPHER_SPEC ++ concat recs)).
Proof.
  intros flight ecdhe Hcert Hcv Hleaf Hsig Hl5 Hhdr Hfr Hparse Hcon Hsch Hk Hsl Hcl Hsealed Hcount Hrounds.
  destruct (split_for_records_spec (flight ++ finished_msg svd) plan) as [Hcat Hok]; [done|].
  pose proof (hash_len_small (Suite_hash suite)) as H48.
  assert (length recs ≤ 6 + length cert + length cv + 52)%nat as Hrecs.
  { rewrite Hcount. etrans; [by apply chunks_count|]. rewrite Hcat. unfold flight, finished_msg.
    rewrite !length_app, length_be_bytes. change (length ENCRYPTED_EXTENSIONS) with 6%nat. cbn [length]. lia. }
  assert (dh_shared eph (dh_public (k_server_eph coins)) = ecdhe) as Hdh by apply dh_comm.
  destruct (client_run rounds suite (drop 5 hello ++ sh_msg) ecdhe (RealityHmac key) cert cv plan svd hs th_app
    c_ap s_ap cvd server_hs client_hs server_app client_app recs rc' []) as (cfin & Hseal & Hclient);
    [done..| |lia|]. { intros k [= <-]. by exists (k_leaf_pub coins). }
  apply (client_alone_in _ (λ p, p) (λ conn, Done (Ok conn))) with (out := CHANGE_CIPHER_SPEC ++ cfin)
    (x := mkClientConnection client_app server_app) (rest := []); [done|by eexists|done| |].
  { rewrite (app_assoc hdr), <-(take_drop 5 hello). rewrite app_nil_r in Hclient.
    apply (client_after_write_run _ _ _ _ _ _ _ suite (dh_public (k_server_eph coins)));
      [done|rewrite length_take; lia|done|done|by rewrite Hdh|by rewrite Hdh]. }
  cbn [app]. pose proof (server_finish_run rounds suite _ _ _ _ _ _ _ _ _ _ _ _ _ cfin [] Hsch Hk Hcl Hseal ltac:(lia))
    as Hserver. rewrite app_nil_r in Hserver.
  apply (server_alone_in _ (λ p, map_err (λ e, (cache', CarrierFailed e)) p ≫= λ conn, mret (cache', TokenAccepted conn))
    (λ conn, mret (cache', TokenAccepted conn))) with (out := []) (x := mkServerConnection server_app client_app)
    (rest := []); [done|by eexists|done|exact Hserver|].
  apply reaches_end. exists (mkClientConnection client_app server_app), (mkServerConnection server_app client_app), cache'.
  by split_and!; [..|apply (rk_client_app _ _ _ _ _ _ _ _ Hk)|apply (rk_server_app _ _ _ _ _ _ _ _ Hk)].
Qed.

Lemma reality_run rounds cfg cache now o cover_up coins hello eph key sid pt until random :
  let f := mkHelloFields random sid (dh_public eph) in
  len sid = 32 → framed 0x16 hello → carries cfg 0x16 hello f key pt → genuine cfg now pt until →
  admitted_by cache sid now until o →
  len (k_leaf_pub coins) = 32 → len (k_tls_random coins) = 32 →
  was_contributory (dh_shared (k_server_eph coins) (dh_public eph)) = true → 20000 ≤ Z.of_nat rounds →
  reaches carrier_up (mkNet (client_handshake rounds hello eph (RealityHmac key))
                        (reality_accept rounds cfg cache now o cover_up coins) [] []).
Proof.
  intros f Hsid Hfr Hcar Hgen Hadm Hleaf Hrand Hcon Hrounds.
  pose proof (classify_spec cfg cache now o 0x16 hello) as Hspec.
  unfold reality_accept. 
  assert (∃ cache', classify cfg cache now o 0x16 hello = (cache', Accept f key)) as [cache' Hcl].
  { destruct (classify cfg cache now o 0x16 hello) as [cache' v]. destruct Hspec as (_ & Ha & _). exists cache'.
    by rewrite (proj2 (Ha f key)) by (by exists pt, until). }
  pose proof (drive_record_alone _ hello [] Hfr) as Hrec. rewrite app_nil_r in Hrec.
  eapply client_put; [done|]. cbn [app].
  eapply server_alone; [rewrite drive_map_err, Hrec; reflexivity|].
  cbn beta iota. rewrite Hcl. cbn beta iota. unfold take_over.
  pose proof (mimic_params_pad cfg) as Hpad. destruct (mimic_params cfg) as [suite pad]. cbn [snd] in Hpad.
  set (leaf := k_leaf_pub coins) in *. set (sig := reality_cert_hmac key leaf).
  assert (len sig = 64) as Hsig by apply hmac_sha512_length.
  destruct (reality_cert_msg_spec leaf pad Hleaf ltac:(lia)) as [Hcm Hcl'].
  assert (reality_certverify_msg key leaf = Some (hs_message 0x0f (certverify_body sig))) as Hcv
    by (apply certverify_msg_spec; lia).
  rewrite Hcm, Hcv. set (cert := hs_message 0x0b _). set (cv := hs_message 0x0f _).
  destruct (server_hello_run suite (k_server_eph coins) (k_tls_random coins) sid Hrand Hsid)
    as (hdr & sh_msg & Hsh & Hhdr & Hshfr & Hparse).
  pose proof (framed_length _ _ Hfr) as Hl5.
  destruct (schedule_total suite (dh_shared (k_server_eph coins) (dh_public eph)) (drop 5 hello ++ sh_msg)
      (ENCRYPTED_EXTENSIONS ++ cert ++ cv)) as (svd & hs & th & c & s & cvd & r1 & r2 & r3 & r4 & Hsch & Hk & Hsl & Hcvl).
  destruct (server_flight_run (drop 5 hello) (take 5 hello) f cert cv suite (flight_record_plan cfg)
    (k_server_eph coins) (k_tls_random coins) hdr sh_msg svd hs th c s cvd r1)
    as (recs & rc' & Hsealed & Hcount & Hrun); [done|rewrite length_take; lia|done|done|done|apply Hk..|].
  rewrite take_drop in Hrun.
  apply (server_alone_in _ (λ p, map_err (λ e, (cache', CarrierFailed e))
             (p ≫= λ '(hs, th), server_finish rounds suite hs th) ≫= λ conn, mret (cache', TokenAccepted conn))
           (λ '(hs, th), map_err (λ e, (cache', CarrierFailed e)) (server_finish rounds suite hs th)
             ≫= λ conn, mret (cache', TokenAccepted conn)) _
           (server_flight hello f cert cv suite (flight_record_plan cfg) (k_server_eph coins) (k_tls_random coins)))
    with (out := hdr ++ sh_msg ++ CHANGE_CIPHER_SPEC ++ concat recs) (x := (hs, th)) (rest := []);
    [done|by eexists|by intros []|done|]. cbn [app].
  eapply reality_tail; [| | | |done|done|done|done|done|exact Hsch|exact Hk|done|done|exact Hsealed|done|].
  - apply hs_message_is; lia.
  - apply hs_message_is; [lia|]. unfold certverify_body. lens. lia.
  - apply extract_leaf_pub_built; [done|lia].
  - apply (extract_certverify_sig_built sig). lia.
  - assert (len (certverify_body sig) = 68) by (unfold certverify_body; lens; lia).
    unfold cert, cv, hs_message. rewrite !length_app, !len_prefixed_nat, !length_be_bytes. unfold len in *. lia.
Qed.

Lemma auth_plaintext_length time id : len (auth_plaintext CLIENT_VERSION time id) = 16.
Proof.
  unfold auth_plaintext. cbv zeta. rewrite !len_app, len_be_bytes. unfold len. rewrite length_replicate, length_take.
  unfold CLIENT_VERSION. cbn [length]. lia.
Qed.

(** The client's side cannot fail on a contributory key and sizes that fit a record. *)
Lemma build_authed_total sni server_pub short_id time g record_len random eph :
  len random = 32 → Z.max record_len (303 + len sni) ≤ 65540 →
  was_contributory (dh_shared eph server_pub) = true →
  ∃ hello key, build_authed_client_hello sni server_pub short_id time g record_len random eph = Val (hello, eph, key).
Proof.
  intros Hr Hle Hcon. unfold build_authed_client_hello. pose proof (dh_public_length eph) as Hp.
  set (zeros := replicate 32 Byte.x00). assert (len zeros = 32) as Hz by done.
  destruct (build_client_hello_spec sni random zeros (dh_public eph) g record_len Hr Hz Hp) as (Hb & _ & Hlen).
  rewrite Hlen in Hb. rewrite (Hb Hle). unfold ecdh. cbv zeta. rewrite Hcon.
  destruct (derive_auth_key_total (dh_shared eph server_pub) random) as (key & -> & Hk).
  rewrite (hello_bytes_parts _ _ zeros) in * by done.
  pose proof (hello_head_length sni random (dh_public eph) g record_len Hr) as Hhead.
  set (head := hello_head _ _ _ _ _) in *. set (tail := hello_tail _ _ _ _) in *.
  set (pt := auth_plaintext _ _ _). assert (len pt = 16) as Hpt by apply auth_plaintext_length.
  destruct (aead_encrypt_total Aes256Gcm key (range random 20 32) (token_aad head tail) pt) as [ct Hct];
    [done|unfold range; rewrite length_take, length_drop; unfold len in Hr; lia|lia| |].
  { rewrite !len_app in Hlen. unfold token_aad. rewrite !len_app.
    assert (len (drop RECORD_HEADER head) ≤ len head) by (unfold len; rewrite length_drop; lia).
    change (len (replicate SESSION_ID_LEN Byte.x00)) with 32. lia. }
  pose proof (aead_encrypt_length _ _ _ _ _ _ Hct) as Hcl.
  rewrite <-Hhead. rewrite (proj2 (seal_into_session_id_Some head zeros tail key random pt (head ++ ct ++ tail) eq_refl
    ltac:(rewrite Hhead; unfold SID_OFFSET, RECORD_HEADER; lia))); [eauto|].
  exists ct. split_and!; [done| |done]. unfold len, SESSION_ID_LEN in *. lia.
Qed.

(** C16: A client that knows the acceptor's public key and a configured short id, with a clock
    within the window, builds a ClientHello when it fits (65540 bytes with its padding and
    server name), its GREASE values and random have their form and its secret with the static
    key is contributory.  If the acceptor's replay cache admits the token of that ClientHello
    (a cache that is full, has failed or cannot be written forwards it to the cover instead),
    the secret of the two ephemeral keys is contributory too, and the acceptor's leaf key and
    random have 32 bytes, the acceptor takes over, whatever the cover profile makes of cipher
    suite, certificate size and record boundaries: under every interleaving of the two, all
    runs have a bounded length and lead to the same final state, in which both have returned
    connections with the same keys for both directions and no byte is left over.  Each of the
    loops is given at least 20000 rounds, which is enough. *)
Theorem reality_completes (rounds : nat) (cfg : RealityServerConfig) (cache : ReplayCache) (now : Z)
    (o : WriteOutcome) (cover_up : bool) (coins : AcceptorCoins) (sni short_id : bytes) (time : Z) (g : Grease)
    (record_len : Z) (random eph : bytes) (until : option Z) :
  len random = 32 → grease_ok g → Z.max record_len (303 + len sni) ≤ 65540 →
  len (k_leaf_pub coins) = 32 → len (k_tls_random coins) = 32 → 20000 ≤ Z.of_nat rounds →
  was_contributory (dh_shared eph (dh_public (static_secret cfg))) = true →
  was_contributory (dh_shared (k_server_eph coins) (dh_public eph)) = true →
  genuine cfg now (auth_plaintext CLIENT_VERSION time short_id) until →
  ∃ hello key f,
    build_authed_client_hello sni (dh_public (static_secret cfg)) short_id time g record_len random eph
      = Val (hello, eph, key)
    ∧ extract_client_hello_fields hello = Val f
    ∧ (admitted_by cache (hf_session_id f) now until o →
       let start := mkNet (client_handshake rounds hello eph (RealityHmac key))
                      (reality_accept rounds cfg cache now o cover_up coins) [] [] in
       ∃ steps final, nsteps net_step steps start final ∧ carrier_up final
         ∧ ∀ m n, nsteps net_step m start n → (m ≤ steps)%nat ∧ nsteps net_step (steps - m) n final).
Proof.
  intros Hr Hg Hle Hleaf Hrand Hrounds Hcon Hcon' Hgen.
  destruct (build_authed_total sni (dh_public (static_secret cfg)) short_id time g record_len random eph Hr Hle Hcon)
    as (hello & key & Hb).
  destruct (build_authed_Val _ _ _ _ _ _ _ cfg _ _ _ Hr Hg Hb) as (_ & Hfr & _ & sid & Hsid & Hcar).
  exists hello, key, (mkHelloFields random sid (dh_public eph)).
  split_and!; [done|apply Hcar|]. intros Hadm start.
  destruct (reality_run rounds cfg cache now o cover_up coins hello eph key sid
    (auth_plaintext CLIENT_VERSION time short_id) until random) as (final & Hrun & Hup);
    [unfold len; lia|done..|].
  apply rtc_nsteps in Hrun as [steps Hrun]. exists steps, final. split_and!; [done..|]. intros m n Hm.
  eapply (all_runs m steps start final n); [|done| |done].
  - split; [apply client_handshake_stable|apply reality_accept_stable].
  - destruct Hup as (? & ? & ? & -> & _). intros z Hz. by inversion Hz.
Qed.
End Completes.

(** ** What each side has checked *)

Section Authentication.
Context {C : TlsCrypto} {L : TlsCryptoLaws C} {Rc : ReplayCrypto}.

Lemma take_over_Ok rounds cfg coins ch_rec f key inbound out conn rest :
  len (k_leaf_pub coins) = 32 →
  drive (take_over rounds cfg coins ch_rec f key) inbound = (out, Ok (conn, rest)) →
  let '(suite, pad) := mimic_params cfg in
  server_accepts ch_rec f (hs_message 0x0b (certificate_body (k_leaf_pub coins) pad))
    (hs_message 0x0f (certverify_body (reality_cert_hmac key (k_leaf_pub coins)))) suite
    (flight_record_plan cfg) (k_server_eph coins) (k_tls_random coins) inbound out rest conn.
Proof.
  intros Hl H. unfold take_over in H. pose proof (mimic_params_pad cfg) as Hp.
  destruct (mimic_params cfg) as [suite pad]. cbn [snd] in Hp.
  apply drive_expect_Ok in H as (cert & Hcert & H). apply drive_expect_Ok in H as (cv & Hcv & H).
  destruct (reality_cert_msg_spec (k_leaf_pub coins) pad Hl ltac:(lia)) as [Hcert' _].
  unfold reality_certverify_msg in Hcv. rewrite certverify_msg_spec in Hcv
    by (unfold reality_cert_hmac; rewrite hmac_sha512_length; lia).
  rewrite Hcert' in Hcert. injection Hcert as <-. injection Hcv as <-. by apply drive_server_Ok in H.
Qed.

(** C17: Against arbitrary bytes: a client that returns a connection has read a ServerHello with
    a contributory key share and a flight, every handshake byte of which came from records
    that opened in order under the key of this exchange, whose Finished is the MAC over the
    transcript of exactly these messages, and whose certificate signature is the HMAC of the
    leaf under the key only the holder of the static secret shares; an acceptor that returns
    a taken-over connection had accepted the token of its ClientHello and has read a Finished
    with the MAC over the transcript it sent.  Both derive the application keys from that
    transcript. *)
Theorem reality_authenticates (rounds : nat) (cfg : RealityServerConfig) (cache cache' : ReplayCache) (now : Z)
    (o : WriteOutcome) (cover_up : bool) (coins : AcceptorCoins) (hello eph : bytes) (verify : CertVerify)
    (inbound out rest : bytes) :
  (∀ conn, drive (client_handshake rounds hello eph verify) inbound = (out, Ok (conn, rest)) →
     ∃ suite server_pub ms fin,
       client_accepts hello eph verify inbound out rest conn suite server_pub ms fin)
  ∧ (∀ conn, len (k_leaf_pub coins) = 32 →
       drive (reality_accept rounds cfg cache now o cover_up coins) inbound
         = (out, Ok ((cache', TokenAccepted conn), rest)) →
       ∃ ch_rec f key more, inbound = ch_rec ++ more ∧ framed 0x16 ch_rec
         ∧ accepted cfg cache now o 0x16 ch_rec f key
         ∧ let '(suite, pad) := mimic_params cfg in
           server_accepts ch_rec f (hs_message 0x0b (certificate_body (k_leaf_pub coins) pad))
             (hs_message 0x0f (certverify_body (reality_cert_hmac key (k_leaf_pub coins)))) suite
             (flight_record_plan cfg) (k_server_eph coins) (k_tls_random coins) more out rest conn).
Proof.
  split; [intros conn; apply client_handshake_Ok|]. intros conn Hl H.
  destruct (drive_reality_accept rounds cfg cache now o cover_up coins inbound) as [H1 H2].
  destruct (drive_read_record_cases mret inbound) as [(t & ch_rec & more & Hfr & -> & _)|He].
  - rewrite (H1 t ch_rec more Hfr eq_refl) in H. unfold after_record in H.
    pose proof (classify_spec cfg cache now o t ch_rec) as Hspec.
    destruct (classify cfg cache now o t ch_rec) as [c verdict]. destruct Hspec as (_ & Hacc & _).
    destruct verdict as [|f key|]; [by destruct cover_up| |done].
    destruct (drive (take_over _ _ _ _ _ _) more) as [out' [[conn' rest']|e]] eqn:Ht; [|done].
    injection H as -> -> -> ->. pose proof (proj1 (Hacc f key) eq_refl) as Ha.
    assert (t = 0x16) as -> by (by destruct Ha as (pt & until & (? & _) & _)).
    exists ch_rec, f, key, more. split_and!; [done..|]. by apply (take_over_Ok rounds).
  - rewrite H2 in H; [done|]. intros t rec more Hfr Hs. rewrite Hs, (drive_read_record _ _ _ _ Hfr) in He. done.
Qed.
End Authentication.

(** ** A ClientHello is accepted once *)

Section Once.
Context {C : TlsCrypto} {L : TlsCryptoLaws C} {Rc : ReplayCrypto} {RL : ReplayCryptoLaws Rc}.
Context (cfg : RealityServerConfig) (cap : nat).

(** The clock, the first records accepted so far, and the cache, over connections with
    arbitrary first records, panics and restarts. *)
Inductive carrier : Z → list (Z * bytes) → ReplayCache → Prop :=
| carrier_start files now c :
    open_persistent_with_capacity files (static_secret cfg) (Z.of_nat cap) now = Ok c → carrier now [] c
| carrier_connection t h c now o ty ch_rec c' verdict :
    carrier t h c → t ≤ now → 1 ≤ now → outcome_ok o →
    classify cfg c now o ty ch_rec = (c', verdict) →
    carrier now (match verdict with Accept _ _ => (ty, ch_rec) :: h | _ => h end) c'
| carrier_panic t h c :
    carrier t h c → carrier t h (mkReplayCache (state c) true (capacity c) (digest_key c))
| carrier_restart t h c f files now c' :
    carrier t h c → t ≤ now → backend (state c) = Persistent f → store_content files = Some f →
    open_persistent_with_capacity files (static_secret cfg) (Z.of_nat cap) now = Ok c' → carrier now h c'.

(** Every accepted record is in the history of the cache with its expiry. *)
Lemma carrier_server window t h c : max_time_skew_secs cfg = Some window → carrier t h c →
  ∃ t0 admitted, t0 ≤ t ∧ server (static_secret cfg) cap t0 admitted c
    ∧ ∀ ty ch_rec, (ty, ch_rec) ∈ h → ∃ f key time id,
        carries cfg ty ch_rec f key (auth_plaintext CLIENT_VERSION time id) ∧ 0 ≤ time < 2 ^ 32
        ∧ id ∈ short_ids cfg ∧ short_ids_ok (short_ids cfg)
        ∧ (hf_session_id f, Z.min (time + window) (2 ^ 64 - 1)) ∈ admitted.
Proof.
  intros Hw. induction 1 as [files now c Hopen|t h c now o ty ch_rec c' verdict _ IH Ht Hn Ho Hcl
    |t h c _ IH|t h c f files now c' _ IH Ht Hb Hf Hopen].
  - exists now, []. split_and!; [done|by eapply server_start|]. intros ty ch_rec Hin. by apply not_elem_of_nil in Hin.
  - destruct IH as (t0 & adm & Ht0 & Hs & Hh).
    assert (c' = c ∧ verdict = Forward → ∃ t0 admitted, t0 ≤ now ∧ server (static_secret cfg) cap t0 admitted c'
      ∧ ∀ ty' rec, (ty', rec) ∈ match verdict with Accept _ _ => (ty, ch_rec) :: h | _ => h end → ∃ f key time id,
        carries cfg ty' rec f key (auth_plaintext CLIENT_VERSION time id) ∧ 0 ≤ time < 2 ^ 32
        ∧ id ∈ short_ids cfg ∧ short_ids_ok (short_ids cfg)
        ∧ (hf_session_id f, Z.min (time + window) (2 ^ 64 - 1)) ∈ admitted) as Hskip.
    { intros [-> ->]. exists t0, adm. split_and!; [lia|done..]. }
    destruct (carries_or_not cfg ty ch_rec) as [(f & key & pt & Hc)|Hno].
    2:{ apply Hskip. rewrite (classify_not_carries _ _ _ _ _ _ Hno) in Hcl. by injection Hcl as <- <-. }
    rewrite (classify_carries _ _ _ _ _ _ _ _ _ Hc) in Hcl.
    destruct (token_authorized_at cfg pt now) as [[anow until]|] eqn:Hta; [|apply Hskip; by injection Hcl as <- <-].
    apply token_authorized_at_iff in Hta as [Hnow (Hok & time & id & Htime & Hid & -> & Hwin)];
      [|by eapply carries_length]. cbn [ta_now ta_valid_until] in *. subst anow. rewrite Hw in Hwin.
    destruct Hwin as [_ ->].
    destruct (check_and_record c (hf_session_id f) now _ o) as [c1 fresh] eqn:Hcr. injection Hcl as -> <-.
    exists now, (if fresh then (hf_session_id f, Z.min (time + window) (2 ^ 64 - 1)) :: adm else adm).
    split_and!; [done|eapply server_check; [done|lia|lia|lia|done|done]|].
    intros ty' rec Hin. destruct fresh; [|by apply Hh].
    apply elem_of_cons in Hin as [[= -> ->]|Hin].
    + exists f, key, time, id. do 4 (split; [done|]). by left.
    + destruct (Hh ty' rec Hin) as (f' & key' & time' & id' & ? & ? & ? & ? & ?).
      exists f', key', time', id'. do 4 (split; [done|]). by right.
  - destruct IH as (t0 & adm & Ht0 & Hs & Hh). exists t0, adm. split_and!; [done|by apply server_panic|done].
  - destruct IH as (t0 & adm & Ht0 & Hs & Hh). exists now, adm.
    split_and!; [done|eapply server_restart; [done|lia|done|done|done]|done].
Qed.
End Once.

(** C18: A ClientHello that was accepted once is never accepted again: over any sequence of
    connections with arbitrary first records, failing durable writes, panics and restarts of
    the server, while the clock does not go back, a record that was taken over goes to the cover
    whenever it arrives again.
    While the token is in the window the cache remembers it; afterwards its time is
    refused. *)
Theorem reality_no_replay {C : TlsCrypto} {L : TlsCryptoLaws C} {Rc : ReplayCrypto} {RL : ReplayCryptoLaws Rc}
    (cfg : RealityServerConfig) (cap : nat) (t now window ty : Z) (h : list (Z * bytes)) (c : ReplayCache)
    (ch_rec : bytes) (o : WriteOutcome) :
  max_time_skew_secs cfg = Some window → carrier cfg cap t h c → (ty, ch_rec) ∈ h →
  t ≤ now → 1 ≤ now < 2 ^ 64 → outcome_ok o →
  (classify cfg c now o ty ch_rec).2 = Forward.
Proof.
  intros Hw Hcar Hin Ht Hn Ho.
  destruct (carrier_server cfg cap window t h c Hw Hcar) as (t0 & adm & Ht0 & Hs & Hh).
  destruct (Hh ty ch_rec Hin) as (f & key & time & id & Hc & Htime & Hid & Hok & Hadm).
  rewrite (classify_carries _ _ _ _ _ _ _ _ _ Hc).
  destruct (token_authorized_at cfg _ now) as [[anow until]|] eqn:Hta; [|done].
  apply token_authorized_at_iff in Hta as [Hnow (_ & time' & id' & Htime' & Hid' & Hpt & Hwin)];
    [|by eapply carries_length]. cbn [ta_now ta_valid_until] in *. subst anow. rewrite Hw in Hwin.
  assert (time' = time) as ->.
  { pose proof (si_sizes _ Hok) as Hsz. rewrite Forall_forall in Hsz.
    destruct (auth_plaintext_fields time id (proj2 (Hsz id Hid))) as (_ & _ & _ & _ & E & _).
    destruct (auth_plaintext_fields time' id' (proj2 (Hsz id' Hid'))) as (_ & _ & _ & _ & E' & _).
    rewrite Hpt, E' in E. apply (f_equal be_value) in E. by rewrite !be_value_be_bytes_small in E. }
  destruct Hwin as [Hwin ->].
  pose proof (no_replay (static_secret cfg) cap t0 now (Z.min (time + window) (2 ^ 64 - 1))
    (Z.min (time + window) (2 ^ 64 - 1)) adm c (hf_session_id f) o Hs Hadm ltac:(lia) ltac:(lia) ltac:(lia)
    ltac:(lia) Ho) as Hfalse.
  destruct (check_and_record c (hf_session_id f) now _ o) as [c1 fresh]. cbn in Hfalse. by rewrite Hfalse.
Qed.

(** ** A concrete carrier *)

Module RealitySample.
Import TlsSample ReplaySample.

Definition run_of (n : Z) (k : nat) : bytes := replicate k (bz n).
Definition cfg : RealityServerConfig :=
  mkRealityServerConfig secret [run_of 3 4; run_of 5 8] (Some 60)
    (Some (mkCoverProfile 0x1302 4000 [127; 6; 1500; 900])).
Definition coins : AcceptorCoins := mkAcceptorCoins (run_of 11 32) (run_of 12 32) (run_of 13 32).
Definition grease : Grease := mkGrease 0x0a0a 0x1a1a 0x2a2a 0x3a3a 0x4a4a.
Definition random : bytes := run_of 14 32.
Definition eph : bytes := run_of 15 32.
Definition rounds : nat := Z.to_nat 20000.

Definition dialled : bytes * bytes * bytes :=
  match build_authed_client_hello (ascii "example.org") (dh_public (static_secret cfg)) (run_of 3 4) 100 grease 517 random eph with
  | Val d => d | _ => ([], [], []) end.
Definition hello : bytes := dialled.1.1.
Definition auth_key : bytes := dialled.2.

Lemma genuine_sample : genuine cfg 110 (auth_plaintext CLIENT_VERSION 100 (run_of 3 4)) (Some 160).
Proof.
  split.
  - split; [cbn; lia|repeat constructor; cbn; lia|by vm_compute].
  - exists 100, (run_of 3 4). split; [lia|]. split; [by left|]. split; [done|]. cbn. split; [lia|done].
Qed.

(** A first record that is no TLS is passed on. *)
Definition http : bytes := [Byte.x47; Byte.x45; Byte.x54; Byte.x00; Byte.x02; Byte.x2f; Byte.x31].
Lemma reality_gate_witness :
  drive (reality_accept rounds cfg started 110 Synced true coins) (http ++ hello)
  = ([], Ok ((started, Forwarded http), hello)).
Proof.
  pose proof (reality_gate rounds cfg started 110 Synced true coins (http ++ hello) eq_refl eq_refl
    ltac:(apply Nat.ltb_lt; vm_compute; reflexivity)) as H.
  destruct (drive (reality_accept rounds cfg started 110 Synced true coins) (http ++ hello)) as [out r].
  destruct H as [H _]. destruct (H 0x47 http hello) as [_ [-> ->]].
  - exists Byte.x47, Byte.x45, Byte.x54, Byte.x00, Byte.x02, [Byte.x2f; Byte.x31]. by split_and!.
  - done.
  - intros f key (pt & until & (Ht & _) & _). discriminate Ht.
  - done.
Defined.

Lemma reality_completes_witness :
  let start := mkNet (client_handshake rounds hello eph (RealityHmac auth_key))
                 (reality_accept rounds cfg started 110 Synced true coins) [] [] in
  ∃ steps final, nsteps net_step steps start final ∧ carrier_up final.
Proof.
  destruct (reality_completes rounds cfg started 110 Synced true coins (ascii "example.org") (run_of 3 4) 100 grease
    517 random eph (Some 160)) as (h & key & f & Hb & Hf & Hrun);
    [done|split; by apply list_elem_of_In; vm_compute; auto 20|by vm_compute|done|done|unfold rounds; lia
    |by vm_compute|by vm_compute|exact genuine_sample|].
  assert (dialled = (h, eph, key)) as Hd by (unfold dialled; by rewrite Hb).
  assert (match extract_client_hello_fields hello with
          | Val f => (check_and_record started (hf_session_id f) 110 160 Synced).2 | _ => false end = true) as Hadm
    by (by vm_compute).
  unfold hello, auth_key in *. rewrite Hd in *. cbn [fst snd] in *. rewrite Hf in Hadm.
  destruct (Hrun Hadm) as (steps & final & Hn & Hup & _). exact (ex_intro _ steps (ex_intro _ final (conj Hn Hup))).
Defined.

(** The acceptor's flight for this ClientHello, what the client answers, and what the acceptor
    reads in all. *)
Definition client : Proc TlsError ClientConnection := client_handshake rounds hello eph (RealityHmac auth_key).
Definition acceptor : Proc (ReplayCache * RealityError) (ReplayCache * RealityAccept) :=
  reality_accept rounds cfg started 110 Synced true coins.
Definition flight : bytes := (drive acceptor hello).1.
Definition answer : bytes := (drive client flight).1.

Lemma drive_result {E A} (p : Proc E A) s :
  match (drive p s).2 with Ok (_, []) => true | _ => false end = true →
  ∃ a, drive p s = ((drive p s).1, Ok (a, [])).
Proof. destruct (drive p s) as [out [[a [|]]|]]; cbn; try done. by exists a. Qed.

Lemma drive_accepted (p : Proc (ReplayCache * RealityError) (ReplayCache * RealityAccept)) s :
  match (drive p s).2 with Ok ((_, TokenAccepted _), _) => true | _ => false end = true →
  ∃ c conn rest out, drive p s = (out, Ok ((c, TokenAccepted conn), rest)).
Proof. destruct (drive p s) as [out [[[c [conn|]] rest]|]]; cbn; try done. by exists c, conn, rest, out. Qed.

Lemma reality_authenticates_witness :
  (∃ conn suite server_pub ms fin,
     client_accepts hello eph (RealityHmac auth_key) flight answer [] conn suite server_pub ms fin)
  ∧ ∃ ch_rec f key more, answer = ch_rec ++ more ∧ accepted cfg started 110 Synced 0x16 ch_rec f key.
Proof.
  split.
  - destruct (drive_result client flight) as [conn Hc]; [by vm_compute|]. exists conn.
    exact (proj1 (reality_authenticates rounds cfg started started 110 Synced true coins hello eph
      (RealityHmac auth_key) flight answer []) conn Hc).
  - destruct (drive_accepted acceptor answer) as (c & conn & rest & out & Ha); [by vm_compute|].
    destruct (proj2 (reality_authenticates rounds cfg started c 110 Synced true coins hello eph
      (RealityHmac auth_key) answer out rest) conn eq_refl Ha) as (ch_rec & f & key & more & H1 & _ & H2 & _).
    exists ch_rec, f, key, more. exact (conj H1 H2).
Defined.

Lemma verdict_accepted (x : ReplayCache * Verdict) :
  match x.2 with Accept _ _ => true | _ => false end = true → ∃ f key, x = (x.1, Accept f key).
Proof. destruct x as [c [|f key|]]; cbn; try done. by exists f, key. Qed.

Definition admitted_cache : ReplayCache := (classify cfg started 110 Synced 0x16 hello).1.

Lemma reality_no_replay_witness : (classify cfg admitted_cache 130 Synced 0x16 hello).2 = Forward.
Proof.
  destruct (verdict_accepted (classify cfg started 110 Synced 0x16 hello)) as (f & key & Hc); [by vm_compute|].
  refine (reality_no_replay cfg 2 110 130 60 0x16 [(0x16, hello)] admitted_cache hello Synced eq_refl _ _ _ _ I);
    [|by left|lia..].
  refine (carrier_connection cfg 2 100 [] started 110 Synced 0x16 hello admitted_cache (Accept f key) _ _ _ I Hc);
    [|lia..].
  apply (carrier_start cfg 2 (files None)), opened. by vm_compute.
Defined.
End RealitySample.
