(* ===== verification/RealityStream.v ===== *)
(** * The carrier as a byte stream

    [shadowpipe-reality/src/tls13/stream.rs]: the adapter that turns a carrier connection into
    a stream.  Every call of the transport below is an event: a write takes some of the
    offered bytes, a read returns a fragment, and either can be pending or fail.  Shown: the
    two ends form an ordered, lossless channel under every such schedule, and the lengths of
    the first records are the ones the plan of the connection says. *)

From S2P Require Import Prelude Wire Network TlsMessages Tls13 TlsHandshake Replay Reality.

(** ** The plan of record lengths *)

Definition MAX_PLAINTEXT : nat := Z.to_nat 16384.
Definition SHAPED_RECORDS : nat := 8.
Definition SHAPE_MIN : Z := 512.
Definition SHAPE_MAX : Z := 8192.

Record RecordShaper := mkRecordShaper { targets : list nat; idx : nat }.

Definition wrapping (z : Z) : Z := z mod 2 ^ 64.

(** One step of the generator: the next state, and the target. *)
Definition shaper_step (s : Z) : Z * nat :=
  let s := wrapping (s + 0x9E3779B97F4A7C15) in
  let z := wrapping (Z.lxor s (Z.shiftr s 30) * 0xBF58476D1CE4E5B9) in
  let z := wrapping (Z.lxor z (Z.shiftr z 27) * 0x94D049BB133111EB) in
  let z := Z.lxor z (Z.shiftr z 31) in
  (s, Z.to_nat (SHAPE_MIN + z mod (SHAPE_MAX - SHAPE_MIN + 1))).

Fixpoint shaper_targets (n : nat) (s : Z) : list nat :=
  match n with
  | O => []
  | S n => let '(s, t) := shaper_step s in t :: shaper_targets n s
  end.

Definition RecordShaper_new (seed : Z) : RecordShaper :=
  mkRecordShaper (shaper_targets SHAPED_RECORDS (Z.lxor seed 0xA5A55A5AC3C33C3C)) 0.

Definition next_target (sh : RecordShaper) : RecordShaper * option nat :=
  match targets sh !! idx sh with
  | Some t => (mkRecordShaper (targets sh) (idx sh + 1), Some t)
  | None => (sh, None)
  end.

(** ** Polling *)

Inductive Poll (A : Type) := Ready (a : A) | Pending.
Arguments Ready {A} _.
Arguments Pending {A}.

Inductive StreamError := WriteZero | TransportFailed | RecordOpenFailed | SealPanic.

(** One call of the transport's [poll_write], and of its [poll_read]; an empty fragment is the
    end of the stream. *)
Inductive WriteEvent := Accepts (n : nat) | WriteFails | WritePending.
Inductive ReadEvent := Fragment (b : bytes) | ReadFails | ReadPending.

(** The writing half. *)
Record StreamTx := mkStreamTx {
  st_tx : RecordCrypto;
  st_write_buf : bytes;
  st_write_off : nat;
  st_shaper : RecordShaper;
}.

(** The reading half. *)
Record StreamRx := mkStreamRx {
  st_rx : RecordCrypto;
  st_read_raw : bytes;
  st_read_plain : bytes;
  st_read_off : nat;
}.

Definition stream_tx (tx : RecordCrypto) (seed : Z) : StreamTx := mkStreamTx tx [] 0 (RecordShaper_new seed).
Definition stream_rx (rx : RecordCrypto) : StreamRx := mkStreamRx rx [] [] 0.

(** [into_stream] of the two connections *)
Definition client_stream (conn : ClientConnection) (seed : Z) : StreamTx * StreamRx :=
  (stream_tx (cl_client_app conn) seed, stream_rx (cl_server_app conn)).
Definition server_stream (conn : ServerConnection) (seed : Z) : StreamTx * StreamRx :=
  (stream_tx (sv_server_app conn) seed, stream_rx (sv_client_app conn)).

Section Stream.
Context {C : TlsCrypto}.

Definition with_off (st : StreamTx) (off : nat) : StreamTx :=
  mkStreamTx (st_tx st) (st_write_buf st) off (st_shaper st).

(** The state, what the transport took, the result, and the events that are left; when there
    is none left, the transport is pending. *)
Fixpoint flush_write_buf (events : list WriteEvent) (st : StreamTx)
  : StreamTx * bytes * Poll (result StreamError ()) * list WriteEvent :=
  if (st_write_off st <? length (st_write_buf st))%nat then
    match events with
    | [] => (st, [], Pending, [])
    | WritePending :: events => (st, [], Pending, events)
    | WriteFails :: events => (st, [], Ready (Err TransportFailed), events)
    | Accepts n :: events =>
        let rest := drop (st_write_off st) (st_write_buf st) in
        let n := Nat.min n (length rest) in
        if (n =? 0)%nat then (st, [], Ready (Err WriteZero), events)
        else
          let '(st, out, r, events) := flush_write_buf events (with_off st (st_write_off st + n)) in
          (st, take n rest ++ out, r, events)
    end
  else (mkStreamTx (st_tx st) [] 0 (st_shaper st), [], Ready (Ok ()), events).

(** How much of a write goes into the next record, and its padding. *)
Definition shape (sh : RecordShaper) (n : nat) : RecordShaper * nat * nat :=
  let '(sh, target) := next_target sh in
  match target with
  | Some t => let take := Nat.min n t in (sh, take, (t - take)%nat)
  | None => (sh, Nat.min n MAX_PLAINTEXT, 0%nat)
  end.

Definition poll_write (events : list WriteEvent) (st : StreamTx) (buf : bytes)
  : StreamTx * bytes * Poll (result StreamError nat) :=
  let '(st, out, r, events) := flush_write_buf events st in
  match r with
  | Pending => (st, out, Pending)
  | Ready (Err e) => (st, out, Ready (Err e))
  | Ready (Ok ()) =>
      match buf with
      | [] => (st, out, Ready (Ok 0%nat))
      | _ =>
          let '(sh, n, pad) := shape (st_shaper st) (length buf) in
          match seal_padded (st_tx st) 0x17 (take n buf) pad with
          | None => (st, out, Ready (Err SealPanic))
          | Some (tx, rec) =>
              let '(st, out', r, _) := flush_write_buf events (mkStreamTx tx rec 0 sh) in
              match r with
              | Ready (Err e) => (st, out ++ out', Ready (Err e))
              | _ => (st, out ++ out', Ready (Ok n))
              end
          end
      end
  end.

(** The transport's own flush follows, and for [poll_shutdown] its shutdown. *)
Definition poll_flush (events : list WriteEvent) (st : StreamTx)
  : StreamTx * bytes * Poll (result StreamError ()) :=
  let '(st, out, r, _) := flush_write_buf events st in (st, out, r).

Definition full_record_len (raw : bytes) : option nat :=
  match raw with
  | _ :: _ :: _ :: a :: b :: _ =>
      let total := (5 + u16_of a b)%nat in
      if (total <=? length raw)%nat then Some total else None
  | _ => None
  end.

(** Step 2 of the loop of [poll_read], repeated: the records that are complete, up to one with
    application data; a record has five bytes or more. *)
Inductive Opened := Plaintext | CloseNotify | OpenFailed | NeedMore.
Fixpoint open_buffered (fuel : nat) (st : StreamRx) : StreamRx * Opened :=
  match fuel with
  | O => (st, NeedMore)
  | S fuel =>
      match full_record_len (st_read_raw st) with
      | None => (st, NeedMore)
      | Some n =>
          let raw := drop n (st_read_raw st) in
          match RecordCrypto_open (st_rx st) (take n (st_read_raw st)) with
          | (rx, None) => (mkStreamRx rx raw (st_read_plain st) (st_read_off st), OpenFailed)
          | (rx, Some (ct, pt)) =>
              if ct =? 0x17 then
                match pt with
                | [] => open_buffered fuel (mkStreamRx rx raw [] 0)
                | _ => (mkStreamRx rx raw pt 0, Plaintext)
                end
              else if ct =? 0x15 then (mkStreamRx rx raw (st_read_plain st) (st_read_off st), CloseNotify)
              else open_buffered fuel (mkStreamRx rx raw (st_read_plain st) (st_read_off st))
          end
      end
  end.

(** Step 1: hand out at most [room] bytes of what is decrypted. *)
Definition hand_out (st : StreamRx) (room : nat) : StreamRx * bytes :=
  let remain := drop (st_read_off st) (st_read_plain st) in
  let n := Nat.min (length remain) room in
  let off := (st_read_off st + n)%nat in
  (if (length (st_read_plain st) <=? off)%nat
   then mkStreamRx (st_rx st) (st_read_raw st) [] 0
   else mkStreamRx (st_rx st) (st_read_raw st) (st_read_plain st) off, take n remain).

(** The bytes put into the caller's buffer; none is the end of the stream. *)
Fixpoint poll_read (events : list ReadEvent) (st : StreamRx) (room : nat)
  : StreamRx * Poll (result StreamError bytes) * list ReadEvent :=
  if (st_read_off st <? length (st_read_plain st))%nat
  then let '(st, d) := hand_out st room in (st, Ready (Ok d), events)
  else
    let '(st, opened) := open_buffered (length (st_read_raw st)) st in
    match opened with
    | Plaintext => let '(st, d) := hand_out st room in (st, Ready (Ok d), events)
    | CloseNotify => (st, Ready (Ok []), events)
    | OpenFailed => (st, Ready (Err RecordOpenFailed), events)
    | NeedMore =>
        match events with
        | [] => (st, Pending, [])
        | ReadPending :: events => (st, Pending, events)
        | ReadFails :: events => (st, Ready (Err TransportFailed), events)
        | Fragment [] :: events => (st, Ready (Ok []), events)
        | Fragment b :: events =>
            poll_read events (mkStreamRx (st_rx st) (st_read_raw st ++ b) (st_read_plain st) (st_read_off st)) room
        end
    end.
End Stream.

(** ** The plan *)

Lemma target_range z : 512 ≤ Z.of_nat (Z.to_nat (SHAPE_MIN + z mod (SHAPE_MAX - SHAPE_MIN + 1))) ≤ 8192.
Proof.
  unfold SHAPE_MIN, SHAPE_MAX. pose proof (Z.mod_pos_bound z (8192 - 512 + 1) ltac:(lia)). lia.
Qed.
Lemma shaper_step_bounds s : let '(_, t) := shaper_step s in 512 ≤ Z.of_nat t ≤ 8192.
Proof. apply target_range. Qed.

Definition target_ok (t : nat) : Prop := 512 ≤ Z.of_nat t ≤ 8192.

Lemma shaper_targets_ok n : ∀ s, Forall target_ok (shaper_targets n s) ∧ length (shaper_targets n s) = n.
Proof.
  induction n as [|n IH]; intros s; [by split|]. cbn [shaper_targets].
  pose proof (shaper_step_bounds s) as Hs. destruct (shaper_step s) as [s' t]. destruct (IH s') as [? Hl].
  split; [by constructor|]. cbn. by rewrite Hl.
Qed.

Lemma shape_spec sh n : Forall target_ok (targets sh) → (0 < n)%nat →
  let '(sh', k, pad) := shape sh n in
  (0 < k ≤ n)%nat ∧ targets sh' = targets sh
  ∧ match targets sh !! idx sh with
    | Some t => (k + pad = t)%nat ∧ idx sh' = (idx sh + 1)%nat
    | None => (k ≤ MAX_PLAINTEXT)%nat ∧ pad = 0%nat ∧ sh' = sh
    end.
Proof.
  intros Ht Hn. unfold shape, next_target. destruct (targets sh !! idx sh) as [t|] eqn:E; cbn [targets idx].
  - apply (Forall_lookup_1 _ _ _ _ Ht) in E. unfold target_ok in E. split_and!; [lia..|done|lia|done].
  - unfold MAX_PLAINTEXT. split_and!; [lia..|done|lia|done|done].
Qed.

(** ** What was written and not yet taken *)

Definition unsent (st : StreamTx) : bytes := drop (st_write_off st) (st_write_buf st).

Lemma flush_spec events : ∀ st,
  let '(st', out, r, _) := flush_write_buf events st in
  unsent st = out ++ unsent st' ∧ st_tx st' = st_tx st ∧ st_shaper st' = st_shaper st
  ∧ (r = Ready (Ok ()) → unsent st' = []).
Proof.
  induction events as [|ev events IH]; intros st; cbn [flush_write_buf];
    (destruct (Nat.ltb_spec (st_write_off st) (length (st_write_buf st)));
     [|unfold unsent at 1; by rewrite drop_ge by lia]); [done|].
  destruct ev as [n| |]; [|done..]. cbv zeta. fold (unsent st).
  destruct (Nat.min n (length (unsent st)) =? 0)%nat; [done|].
  set (k := Nat.min _ _). specialize (IH (with_off st (st_write_off st + k))).
  destruct (flush_write_buf events _) as [[[st' out] r] ev]. destruct IH as (Hu & ? & ? & ?).
  split_and!; [|done..]. rewrite <-app_assoc, <-Hu. unfold unsent at 3. cbn [with_off st_write_off st_write_buf].
  rewrite <-drop_drop. by rewrite take_drop.
Qed.

Section Channel.
Context {C : TlsCrypto} {L : TlsCryptoLaws C}.

(** ** Records in transit *)

(** Records of application data from the key state of the reader to that of the writer. *)
Inductive line : RecordCrypto → list bytes → list bytes → RecordCrypto → Prop :=
| line_nil rc : line rc [] [] rc
| line_cons rc rc1 rc' chunk pad rec chunks recs :
    chunk ≠ [] → (length chunk + pad ≤ MAX_PLAINTEXT)%nat →
    seal_padded rc 0x17 chunk pad = Some (rc1, rec) → line rc1 chunks recs rc' →
    line rc (chunk :: chunks) (rec :: recs) rc'.

Lemma line_snoc rc chunks recs rc1 chunk pad rec rc2 :
  line rc chunks recs rc1 → chunk ≠ [] → (length chunk + pad ≤ MAX_PLAINTEXT)%nat →
  seal_padded rc1 0x17 chunk pad = Some (rc2, rec) → line rc (chunks ++ [chunk]) (recs ++ [rec]) rc2.
Proof.
  intros Hl Hc Hp Hs. induction Hl; cbn; eapply line_cons; eauto. constructor.
Qed.

(** A prefix of the records: the first one is there completely, or not. *)
Lemma full_record_len_framed t rec rest raw later :
  framed t rec → raw ++ later = rec ++ rest →
  full_record_len raw = if (length rec <=? length raw)%nat then Some (length rec) else None.
Proof.
  intros (t0 & v & w & a & b & body & -> & _ & Hu) Hr.
  destruct raw as [|x0 [|x1 [|x2 [|x3 [|x4 raw]]]]]; try done.
  cbn [app] in Hr. injection Hr as -> -> -> -> -> Hr. cbn [full_record_len]. rewrite Hu.
  by destruct (_ <=? _)%nat.
Qed.

Lemma line_cons_inv rc chunk chunks rec recs rc' : line rc (chunk :: chunks) (rec :: recs) rc' →
  chunk ≠ [] ∧ framed 0x17 rec ∧ RecordCrypto_open rc rec = (next_seq rc, Some (0x17, chunk))
  ∧ line (next_seq rc) chunks recs rc'.
Proof.
  intros Hl. inversion Hl as [|? rc1 ? ? pad ? ? ? Hc Hp Hs Hrest]; subst.
  apply seal_padded_spec in Hs as (-> & Ho & _ & Hfr); [|lia]. split_and!; [done| |done|done].
  apply Hfr. unfold len, MAX_PLAINTEXT in *. lia.
Qed.

Lemma app_prefix {A} (a b c d : list A) : a ++ b = c ++ d → (length c ≤ length a)%nat → ∃ k, a = c ++ k ∧ d = k ++ b.
Proof.
  intros H Hl. apply app_eq_inv in H as [?|(k & -> & ->)]; [done|]. rewrite length_app in Hl.
  destruct k; [|cbn in Hl; lia]. exists []. by rewrite !app_nil_r.
Qed.

Lemma open_buffered_line st chunks recs rc' later :
  line (st_rx st) chunks recs rc' → st_read_raw st ++ later = concat recs →
  (∃ chunk chunks' rec recs' raw', chunks = chunk :: chunks' ∧ recs = rec :: recs' ∧ chunk ≠ []
     ∧ open_buffered (length (st_read_raw st)) st = (mkStreamRx (next_seq (st_rx st)) raw' chunk 0, Plaintext)
     ∧ line (next_seq (st_rx st)) chunks' recs' rc' ∧ raw' ++ later = concat recs')
  ∨ (open_buffered (length (st_read_raw st)) st = (st, NeedMore) ∧ (later = [] → chunks = [])).
Proof.
  intros Hl Hraw. destruct recs as [|rec recs].
  - inversion Hl; subst. right. cbn in Hraw. apply app_eq_nil in Hraw as [-> _]. by split.
  - destruct chunks as [|chunk chunks]; [inversion Hl|].
    destruct (line_cons_inv _ _ _ _ _ _ Hl) as (Hc & Hfr & Ho & Hl'). cbn [concat] in Hraw.
    pose proof (full_record_len_framed _ _ _ _ _ Hfr Hraw) as Hfull. pose proof (framed_length _ _ Hfr).
    destruct (Nat.leb_spec (length rec) (length (st_read_raw st))) as [Hle|Hlt].
    + left. destruct (app_prefix _ _ _ _ Hraw Hle) as (raw' & Hr & Hrest).
      exists chunk, chunks, rec, recs, raw'. split_and!; [done..| |done|done].
      destruct (length (st_read_raw st)) as [|fuel]; [lia|]. cbn [open_buffered]. rewrite Hfull, Hr.
      rewrite take_app_length, drop_app_length, Ho. cbn [Z.eqb Pos.eqb]. by destruct chunk.
    + right. split.
      * destruct (length (st_read_raw st)) as [|fuel]; [done|]. cbn [open_buffered]. by rewrite Hfull.
      * intros ->. rewrite app_nil_r in Hraw. rewrite Hraw, length_app in Hlt. lia.
Qed.

(** ** Reading *)

Definition pending_plain (st : StreamRx) : bytes := drop (st_read_off st) (st_read_plain st).

(** The bytes the transport delivered, and a transport that neither fails nor ends. *)
Definition fragments (events : list ReadEvent) : bytes :=
  concat ((λ ev, match ev with Fragment b => b | _ => [] end) <$> events).
Definition healthy (events : list ReadEvent) : Prop :=
  Forall (λ ev, match ev with Fragment b => b ≠ [] | ReadFails => False | ReadPending => True end) events.

Lemma hand_out_spec st room :
  let '(st', d) := hand_out st room in
  st_rx st' = st_rx st ∧ st_read_raw st' = st_read_raw st ∧ pending_plain st = d ++ pending_plain st'
  ∧ (pending_plain st ≠ [] → (0 < room)%nat → d ≠ []).
Proof.
  unfold hand_out. cbv zeta. fold (pending_plain st). set (n := Nat.min _ _).
  assert (pending_plain st ≠ [] → (0 < room)%nat → take n (pending_plain st) ≠ []) as Hne.
  { intros Hp Hr He%(f_equal length). rewrite length_take in He. unfold n in He.
    destruct (pending_plain st); [done|]. cbn [length] in He. lia. }
  assert (drop (st_read_off st + n) (st_read_plain st) = drop n (pending_plain st)) as Hd
    by (unfold pending_plain; by rewrite drop_drop).
  destruct (Nat.leb_spec (length (st_read_plain st)) (st_read_off st + n)); split_and!; try done.
  - rewrite drop_ge in Hd by done. change (pending_plain (mkStreamRx _ _ [] 0)) with (@nil byte).
    rewrite Hd. by rewrite take_drop.
  - unfold pending_plain at 3. cbn [st_read_off st_read_plain]. by rewrite Hd, take_drop.
Qed.

(** What a read on a healthy transport does: it never fails, never reports an end, and hands
    out the next bytes; it is pending only when nothing is left to hand out. *)
Lemma poll_read_line events : ∀ st room chunks recs rc' later,
  healthy events → line (st_rx st) chunks recs rc' →
  st_read_raw st ++ fragments events ++ later = concat recs →
  let '(st', r, events') := poll_read events st room in
  ∃ chunks' recs' d, line (st_rx st') chunks' recs' rc'
    ∧ st_read_raw st' ++ fragments events' ++ later = concat recs'
    ∧ pending_plain st ++ concat chunks = d ++ pending_plain st' ++ concat chunks'
    ∧ ((r = Ready (Ok d) ∧ ((0 < room)%nat → d ≠ []))
       ∨ (r = Pending ∧ d = [] ∧ pending_plain st' = [] ∧ (fragments events' ++ later = [] → chunks' = []))).
Proof.
  induction events as [|ev events IH]; intros st room chunks recs rc' later Hh Hl Hraw; cbn [poll_read];
    (destruct (Nat.ltb_spec (st_read_off st) (length (st_read_plain st))) as [Hoff|Hoff];
     [pose proof (hand_out_spec st room) as Hho; destruct (hand_out st room) as [st' d];
      destruct Hho as (Hrx & Hrr & Hp & Hne); exists chunks, recs, d; rewrite Hrx, Hrr;
      split_and!; [done|done|by rewrite app_assoc, Hp|left; split; [done|]];
      apply Hne; unfold pending_plain; intros He%(f_equal length); rewrite length_drop in He; cbn in He; lia|]);
    (assert (pending_plain st = []) as Hpend by (unfold pending_plain; by rewrite drop_ge));
    (destruct (open_buffered_line st chunks recs rc' _ Hl Hraw)
       as [(chunk & chunks' & rec & recs' & raw' & -> & -> & Hc & -> & Hl' & Hraw')|[-> Hmore]];
     [pose proof (hand_out_spec (mkStreamRx (next_seq (st_rx st)) raw' chunk 0) room) as Hho;
      destruct (hand_out _ room) as [st' d]; destruct Hho as (Hrx & Hrr & Hp & Hne);
      exists chunks', recs', d; rewrite Hrx, Hrr; split_and!;
      [done|done|rewrite Hpend; cbn [concat app]; unfold pending_plain in Hp at 1; cbn in Hp; by rewrite app_assoc, <-Hp
      |left; split; [done|]; by apply Hne]|]).
  - exists chunks, recs, []. split_and!; [done..|]. right. split_and!; done.
  - apply Forall_cons in Hh as [Hev Hh]. destruct ev as [b| |]; [|done|].
    + destruct b as [|x b]; [done|].
      specialize (IH (mkStreamRx (st_rx st) (st_read_raw st ++ x :: b) (st_read_plain st) (st_read_off st)) room
        chunks recs rc' later Hh Hl). cbn [st_read_raw st_rx] in IH.
      change (pending_plain (mkStreamRx _ _ _ _)) with (pending_plain st) in IH.
      change (fragments (Fragment (x :: b) :: events)) with ((x :: b) ++ fragments events) in Hraw.
      apply IH. by rewrite <-!app_assoc in *.
    + exists chunks, recs, []. split_and!; [done..|]. right. split_and!; done.
Qed.

(** ** Writing *)

(** The bytes a write has accepted. *)
Definition accepts (r : Poll (result StreamError nat)) (buf : bytes) : bytes :=
  match r with Ready (Ok n) => take n buf | _ => [] end.

Lemma poll_write_spec events st buf :
  rc_ok (st_tx st) → Forall target_ok (targets (st_shaper st)) →
  let '(st', out, r) := poll_write events st buf in
  (∀ e, r ≠ Ready (Err e)) →
  (accepts r buf = [] ∧ st_tx st' = st_tx st ∧ st_shaper st' = st_shaper st ∧ unsent st = out ++ unsent st'
   ∧ (buf ≠ [] → r = Pending))
  ∨ (∃ n pad rec, r = Ready (Ok n) ∧ (0 < n ≤ length buf)%nat
      ∧ seal_padded (st_tx st) 0x17 (take n buf) pad = Some (st_tx st', rec)
      ∧ unsent st ++ rec = out ++ unsent st' ∧ targets (st_shaper st') = targets (st_shaper st)
      ∧ match targets (st_shaper st) !! idx (st_shaper st) with
        | Some t => (n + pad = t)%nat ∧ idx (st_shaper st') = (idx (st_shaper st) + 1)%nat
        | None => (n ≤ MAX_PLAINTEXT)%nat ∧ pad = 0%nat ∧ st_shaper st' = st_shaper st
        end).
Proof.
  intros Hrc Ht. unfold poll_write. pose proof (flush_spec events st) as Hf.
  destruct (flush_write_buf events st) as [[[st1 out1] r1] ev1]. destruct Hf as (Hu & Htx & Hsh & Hdone).
  destruct r1 as [[[]|e]|].
  - specialize (Hdone eq_refl). rewrite Hdone, app_nil_r in Hu. destruct buf as [|x buf].
    { intros _. left. split_and!; [done..| |done]. by rewrite Hu, Hdone, app_nil_r. }
    set (b := x :: buf). pose proof (shape_spec (st_shaper st1) (length b)) as Hshape. rewrite Hsh in *.
    specialize (Hshape Ht). destruct (shape (st_shaper st) (length b)) as [[sh n] pad].
    destruct Hshape as (Hn & Htg & Hcase); [cbn; lia|]. rewrite Htx.
    destruct (seal_padded (st_tx st) 0x17 (take n b) pad) as [[tx rec]|] eqn:Hseal; [|intros Hne; by destruct (Hne SealPanic)].
    pose proof (flush_spec ev1 (mkStreamTx tx rec 0 sh)) as Hf2.
    destruct (flush_write_buf ev1 (mkStreamTx tx rec 0 sh)) as [[[st2 out2] r2] ev2].
    destruct Hf2 as (Hu2 & Htx2 & Hsh2 & _). cbn [st_tx st_shaper] in Htx2, Hsh2.
    change (unsent (mkStreamTx tx rec 0 sh)) with rec in Hu2.
    destruct r2 as [[[]|e]|]; [|intros Hne; by destruct (Hne e)|];
      intros _; right; exists n, pad, rec; rewrite Htx2, Hsh2; (split_and!; [done|lia|lia|done| |done|done]);
      by rewrite Hu, Hu2, <-app_assoc.
  - intros Hne. by destruct (Hne e).
  - intros _. left. by split_and!.
Qed.

(** ** The two ends *)

(** Both halves, the bytes in the network, everything accepted from the writer's caller and
    handed to the reader's, and everything given to the transport. *)
Record Link := mkLink {
  l_tx : StreamTx;
  l_wire : bytes;
  l_rx : StreamRx;
  l_accepted : bytes;
  l_delivered : bytes;
  l_sent : bytes;
}.

Definition link_start (rc : RecordCrypto) (seed : Z) : Link :=
  mkLink (stream_tx rc seed) [] (stream_rx rc) [] [] [].

(** Each direction between the streams of a completed handshake starts like this. *)
Lemma carrier_links {Rc : ReplayCrypto} n : carrier_up n →
  ∃ conn_c conn_s cache', n = mkNet (Done (Ok conn_c)) (Done (Ok (cache', TokenAccepted conn_s))) [] []
    ∧ rc_ok (cl_client_app conn_c) ∧ rc_ok (cl_server_app conn_c)
    ∧ ∀ seed seed',
        mkLink (client_stream conn_c seed).1 [] (server_stream conn_s seed').2 [] [] []
          = link_start (cl_client_app conn_c) seed
        ∧ mkLink (server_stream conn_s seed').1 [] (client_stream conn_c seed).2 [] [] []
          = link_start (cl_server_app conn_c) seed'.
Proof.
  intros (conn_c & conn_s & cache' & -> & Hc & Hs & Hk1 & Hk2). exists conn_c, conn_s, cache'.
  split_and!; [done..|]. intros seed seed'. unfold link_start, client_stream, server_stream. cbn. by rewrite Hc, Hs.
Qed.

(** A write, a flush, and a read of fragments of what is in the network; a failed transport
    ends the run. *)
Inductive link_step : Link → Link → Prop :=
| link_write l events buf tx out r :
    poll_write events (l_tx l) buf = (tx, out, r) → (∀ e, r ≠ Ready (Err e)) →
    link_step l (mkLink tx (l_wire l ++ out) (l_rx l) (l_accepted l ++ accepts r buf) (l_delivered l) (l_sent l ++ out))
| link_flush l events tx out r :
    poll_flush events (l_tx l) = (tx, out, r) → (∀ e, r ≠ Ready (Err e)) →
    link_step l (mkLink tx (l_wire l ++ out) (l_rx l) (l_accepted l) (l_delivered l) (l_sent l ++ out))
| link_read l events room rx r wire :
    healthy events → l_wire l = fragments events ++ wire →
    poll_read events (l_rx l) room = (rx, r, []) →
    link_step l (mkLink (l_tx l) wire rx (l_accepted l)
                   (l_delivered l ++ match r with Ready (Ok d) => d | _ => [] end) (l_sent l)).

(** The lengths of the records written so far, by the plan. *)
Definition by_plan (plan : list nat) (i : nat) (rec : bytes) : Prop :=
  match plan !! i with
  | Some t => length rec = (22 + t)%nat
  | None => (length rec ≤ 22 + MAX_PLAINTEXT)%nat
  end.

Record link_ok (plan : list nat) (l : Link) : Prop := {
  lk_keys : rc_ok (st_tx (l_tx l));
  lk_plan : targets (st_shaper (l_tx l)) = plan ∧ Forall target_ok plan;
  lk_transit : ∃ chunks recs, line (st_rx (l_rx l)) chunks recs (st_tx (l_tx l))
    ∧ l_accepted l = l_delivered l ++ pending_plain (l_rx l) ++ concat chunks
    ∧ st_read_raw (l_rx l) ++ l_wire l ++ unsent (l_tx l) = concat recs;
  lk_records : ∃ recs, l_sent l ++ unsent (l_tx l) = concat recs
    ∧ idx (st_shaper (l_tx l)) = Nat.min (length recs) (length plan)
    ∧ ∀ i rec, recs !! i = Some rec → by_plan plan i rec;
}.

Lemma write_keeps plan l events buf tx out r :
  link_ok plan l → poll_write events (l_tx l) buf = (tx, out, r) → (∀ e, r ≠ Ready (Err e)) →
  link_ok plan (mkLink tx (l_wire l ++ out) (l_rx l) (l_accepted l ++ accepts r buf) (l_delivered l) (l_sent l ++ out)).
Proof.
  intros [Hk [Hp Hpo] (chunks & recs & Hl & Hacc & Hraw) (all & Hall & Hidx & Hby)] Hw Hne.
  pose proof (poll_write_spec events (l_tx l) buf Hk) as Hs. rewrite Hw, Hp in Hs.
  destruct (Hs Hpo Hne) as [(Ha & Htx & Hsh & Hu & _)|(n & pad & rec & -> & Hn & Hseal & Hu & Htg & Hcase)]; clear Hs.
  - rewrite Ha, app_nil_r. split; cbn [l_tx l_rx l_wire l_accepted l_delivered l_sent]; rewrite ?Htx, ?Hsh; [done|done| |].
    + exists chunks, recs. rewrite <-!app_assoc, <-Hu. by split_and!.
    + exists all. rewrite <-!app_assoc, <-Hu. by split_and!.
  - assert (length (take n buf) = n) as Hlen by (rewrite length_take; lia).
    assert (length (take n buf) + pad ≤ MAX_PLAINTEXT)%nat as Hmax.
    { rewrite Hlen. destruct (plan !! idx (st_shaper (l_tx l))) as [t|] eqn:E.
      - apply (Forall_lookup_1 _ _ _ _ Hpo) in E. unfold target_ok, MAX_PLAINTEXT in *. lia.
      - destruct Hcase as (? & -> & _). lia. }
    assert (take n buf ≠ []) as Hnn by (intros He; rewrite He in Hlen; cbn in Hlen; lia).
    pose proof (seal_padded_spec _ _ 0x17 _ _ _ ltac:(lia) Hseal) as (Hnext & _ & Hrl & _).
    assert (length rec = (22 + n + pad)%nat) as Hrec by (unfold len in Hrl; lia).
    split; cbn [l_tx l_rx l_wire l_accepted l_delivered l_sent accepts].
    + rewrite Hnext. by apply next_seq_ok.
    + by rewrite Htg.
    + exists (chunks ++ [take n buf]), (recs ++ [rec]). rewrite !concat_app. cbn [concat]. rewrite !app_nil_r.
      split_and!; [by eapply line_snoc|by rewrite Hacc, <-!app_assoc|].
      by rewrite <-Hraw, <-!app_assoc, <-Hu.
    + exists (all ++ [rec]). rewrite concat_app. cbn [concat]. rewrite app_nil_r.
      split_and!; [by rewrite <-Hall, <-!app_assoc, Hu| |].
      * rewrite length_app. cbn [length]. destruct (plan !! idx (st_shaper (l_tx l))) as [t|] eqn:E.
        -- destruct Hcase as [_ ->]. apply lookup_lt_Some in E. lia.
        -- destruct Hcase as (_ & _ & ->). apply lookup_ge_None in E. lia.
      * intros i rec' Hi. apply lookup_snoc_Some in Hi as [[_ Hi]|[-> <-]]; [by apply Hby|].
        unfold by_plan. destruct (decide (length all < length plan)%nat) as [Hlt|Hge].
        -- rewrite Nat.min_l in Hidx by lia. rewrite Hidx in Hcase.
           destruct (lookup_lt_is_Some_2 plan (length all) Hlt) as [t Hlt']. rewrite Hlt' in *. lia.
        -- rewrite Nat.min_r in Hidx by lia. rewrite Hidx in Hcase.
           rewrite (lookup_ge_None_2 plan (length plan)) in Hcase by lia.
           rewrite (lookup_ge_None_2 plan (length all)) by lia. lia.
Qed.

Lemma flush_keeps plan l events tx out r :
  link_ok plan l → poll_flush events (l_tx l) = (tx, out, r) →
  link_ok plan (mkLink tx (l_wire l ++ out) (l_rx l) (l_accepted l) (l_delivered l) (l_sent l ++ out)).
Proof.
  intros [Hk Hp (chunks & recs & Hl & Hacc & Hraw) (all & Hall & Hby)] Hf. unfold poll_flush in Hf.
  pose proof (flush_spec events (l_tx l)) as Hs. destruct (flush_write_buf events (l_tx l)) as [[[st' out'] r'] ev].
  destruct Hs as (Hu & Htx & Hsh & _). apply pair_equal_spec in Hf as [[-> ->]%pair_equal_spec _].
  split; cbn [l_tx l_rx l_wire l_accepted l_delivered l_sent]; rewrite ?Htx, ?Hsh; [done|done| |].
  - exists chunks, recs. rewrite <-!app_assoc, <-Hu. by split_and!.
  - exists all. by rewrite <-!app_assoc, <-Hu.
Qed.

Lemma read_keeps plan l events room rx r wire :
  link_ok plan l → healthy events → l_wire l = fragments events ++ wire →
  poll_read events (l_rx l) room = (rx, r, []) →
  link_ok plan (mkLink (l_tx l) wire rx (l_accepted l)
                  (l_delivered l ++ match r with Ready (Ok d) => d | _ => [] end) (l_sent l)).
Proof.
  intros [Hk Hp (chunks & recs & Hl & Hacc & Hraw) Hrec] Hh Hw Hr. rewrite Hw, <-app_assoc in Hraw.
  pose proof (poll_read_line events (l_rx l) room chunks recs _ _ Hh Hl Hraw) as Hs. rewrite Hr in Hs.
  destruct Hs as (chunks' & recs' & d & Hl' & Hraw' & Hd & Hcase).
  split; cbn [l_tx l_rx l_wire l_accepted l_delivered l_sent]; [done..| |done].
  exists chunks', recs'. split_and!; [done| |done].
  rewrite Hacc, Hd, <-!app_assoc. by destruct Hcase as [[-> _]|(-> & -> & _)].
Qed.

Lemma start_ok rc seed : rc_ok rc → link_ok (targets (RecordShaper_new seed)) (link_start rc seed).
Proof.
  intros Hrc. split; cbn [l_tx l_rx l_wire l_accepted l_delivered l_sent link_start stream_tx stream_rx st_tx st_rx st_shaper].
  - done.
  - split; [done|]. apply shaper_targets_ok.
  - exists [], []. by split_and!; [constructor|..].
  - exists []. by split_and!.
Qed.

Lemma link_reaches_ok rc seed l :
  rc_ok rc → rtc link_step (link_start rc seed) l → link_ok (targets (RecordShaper_new seed)) l.
Proof.
  intros Hrc Hr. generalize (start_ok rc seed Hrc). induction Hr as [|l1 l2 l3 Hs _ IH]; [done|].
  intros Hok. apply IH. destruct Hs; eauto using write_keeps, flush_keeps, read_keeps.
Qed.

Lemma flush_errors events : ∀ st st' out r left,
  flush_write_buf events st = (st', out, r, left) → r ≠ Ready (Err SealPanic).
Proof.
  induction events as [|ev events IH]; intros st st' out r left; cbn [flush_write_buf];
    destruct (_ <? _)%nat; try (by intros H; simplify_eq).
  destruct ev as [n| |]; [|by intros H; simplify_eq..]. destruct (_ =? 0)%nat; [by intros H; simplify_eq|].
  destruct (flush_write_buf events _) as [[[st2 out2] r2] left2] eqn:E. intros H. apply IH in E.
  by apply pair_equal_spec in H as [[_ <-]%pair_equal_spec _].
Qed.

(** A write with room in its buffer makes progress, waits, or fails with the transport. *)
Lemma poll_write_result events st buf :
  rc_ok (st_tx st) → Forall target_ok (targets (st_shaper st)) → buf ≠ [] →
  match (poll_write events st buf).2 with
  | Pending => True
  | Ready (Ok n) => (0 < n ≤ length buf)%nat
  | Ready (Err e) => e ≠ SealPanic
  end.
Proof.
  intros Hrc Ht Hb. unfold poll_write. pose proof (flush_spec events st) as Hf.
  destruct (flush_write_buf events st) as [[[st1 out1] r1] ev1] eqn:E1. apply flush_errors in E1.
  destruct Hf as (_ & Htx & Hsh & _). destruct r1 as [[[]|e]|]; [|by intros ->|done].
  destruct buf as [|x buf]; [done|]. rewrite Htx, Hsh. set (b := x :: buf).
  pose proof (shape_spec (st_shaper st) (length b) Ht) as Hs.
  destruct (shape (st_shaper st) (length b)) as [[sh n] pad]. destruct Hs as (Hn & _ & Hcase); [cbn; lia|].
  assert (n + pad ≤ MAX_PLAINTEXT)%nat as Hmax.
  { destruct (targets _ !! _) as [t|] eqn:E; [|lia].
    apply (Forall_lookup_1 _ _ _ _ Ht) in E. unfold target_ok, MAX_PLAINTEXT in *. lia. }
  destruct (seal_padded_total (st_tx st) 0x17 (take n b) pad Hrc) as [rec ->].
  { unfold len. rewrite length_take. unfold MAX_PLAINTEXT in Hmax. lia. }
  destruct (flush_write_buf ev1 _) as [[[st2 out2] r2] ev2] eqn:E2. apply flush_errors in E2.
  destruct r2 as [[[]|e]|]; cbn [snd]; [lia|by intros ->|lia].
Qed.

End Channel.

(** ** A concrete run *)

Module StreamSample.
Import TlsSample.

Definition write_step (l : Link) (events : list WriteEvent) (buf : bytes) : Link :=
  let '(tx, out, r) := poll_write events (l_tx l) buf in
  mkLink tx (l_wire l ++ out) (l_rx l) (l_accepted l ++ accepts r buf) (l_delivered l) (l_sent l ++ out).
Definition flush_step (l : Link) (events : list WriteEvent) : Link :=
  let '(tx, out, r) := poll_flush events (l_tx l) in
  mkLink tx (l_wire l ++ out) (l_rx l) (l_accepted l) (l_delivered l) (l_sent l ++ out).
(** A read of the first [n] bytes in the network as one fragment. *)
Definition read_step (l : Link) (n room : nat) : Link :=
  let '(rx, r, _) := poll_read [Fragment (take n (l_wire l))] (l_rx l) room in
  mkLink (l_tx l) (drop n (l_wire l)) rx (l_accepted l)
    (l_delivered l ++ match r with Ready (Ok d) => d | _ => [] end) (l_sent l).

Lemma write_step_ok l events buf :
  match (poll_write events (l_tx l) buf).2 with Ready (Err _) => false | _ => true end = true →
  link_step l (write_step l events buf).
Proof.
  unfold write_step. destruct (poll_write events (l_tx l) buf) as [[tx out] r] eqn:E. cbn. intros Hr.
  apply (link_write l events buf tx out r E). by intros e ->.
Qed.
Lemma flush_step_ok l events :
  match (poll_flush events (l_tx l)).2 with Ready (Err _) => false | _ => true end = true →
  link_step l (flush_step l events).
Proof.
  unfold flush_step. destruct (poll_flush events (l_tx l)) as [[tx out] r] eqn:E. cbn. intros Hr.
  apply (link_flush l events tx out r E). by intros e ->.
Qed.
Lemma read_step_ok l n room :
  match take n (l_wire l) with [] => false | _ => true end = true →
  match (poll_read [Fragment (take n (l_wire l))] (l_rx l) room).2 with [] => true | _ => false end = true →
  link_step l (read_step l n room).
Proof.
  unfold read_step. intros Hn He. destruct (poll_read _ (l_rx l) room) as [[rx r] left] eqn:E.
  destruct left; [|done]. refine (link_read l [Fragment (take n (l_wire l))] room rx r _ _ _ E).
  - repeat constructor. by destruct (take n (l_wire l)).
  - cbn. by rewrite app_nil_r, take_drop.
Qed.

Definition rc0 : RecordCrypto :=
  default (mkRecordCrypto Aes128Gcm [] [] 0) (RecordCrypto_new (replicate 32 Byte.x05) Aes128GcmSha256).
Lemma rc0_ok : rc_ok rc0.
Proof.
  destruct (RecordCrypto_new_total (replicate 32 Byte.x05) Aes128GcmSha256) as (rc & Hrc & Hok & _); [done|].
  unfold rc0. by rewrite Hrc.
Qed.

(** A write of which the transport takes three bytes, the flush of the rest, and two reads. *)
Definition l1 : Link := write_step (link_start rc0 7) [Accepts 3; WritePending] (ascii "hello").
Definition l2 : Link := flush_step l1 [Accepts (Z.to_nat 20000)].
Definition l3 : Link := read_step l2 100 16.
Definition l4 : Link := read_step l3 (Z.to_nat 20000) 16.

Lemma l4_reached : rtc link_step (link_start rc0 7) l4.
Proof.
  apply (rtc_l _ _ l1); [|apply (rtc_l _ _ l2); [|apply (rtc_l _ _ l3); [|apply rtc_once]]].
  - apply write_step_ok. by vm_compute.
  - apply flush_step_ok. by vm_compute.
  - apply read_step_ok; by vm_compute.
  - apply read_step_ok; by vm_compute.
Qed.

End StreamSample.
