(* ===== verification/CoverRelay.v ===== *)
(** * The splice to the cover site

    [ForwardedConnection::run_with_idle_timeout] and [copy_with_shared_idle] of
    [shadowpipe-reality/src/reality.rs]: after the acceptor has passed a first record to the
    cover, two copy loops relay the rest of the connection, one per direction, under an idle
    bound that progress in either direction renews.  A loop is a machine between its awaits;
    the environment completes the call a loop waits for, or its timer, at a time that never
    goes back.  The lock around the shared time is not poisoned, since nothing panics under
    it. *)

From S2P Require Import Prelude.

(** ** One direction *)

Inductive RelayError := IdleExceeded | RelayFailed | RelayWroteZero | IdleZero.

(** Where a loop waits: for the reader or the writer, with the deadline of [timeout_at], or
    for [shutdown]; or what it has returned. *)
Inductive CopyAt :=
| AtRead (deadline : Z)
| AtWrite (deadline : Z) (rest : bytes)
| AtShutdown
| Returned (r : result RelayError Z).

(** [cp_in] and [cp_out] are what was read from the one side and written to the other. *)
Record Copy := mkCopy {
  cp_at : CopyAt;
  cp_copied : Z;
  cp_in : bytes;
  cp_out : bytes;
}.

(** What completes: a read of at most the buffer (nothing is the end of the stream), a write
    of a number of bytes, the shutdown, or the timer, which [timeout_at] reports only from its
    deadline on. *)
Inductive CopyEvent :=
| ReadDone (data : option bytes)
| WriteDone (progress : option nat)
| ShutdownDone (ok : bool)
| TimerFires.

Definition BUFFER : nat := Z.to_nat (16 * 1024).
Definition saturating_u64 (z : Z) : Z := Z.min z (2 ^ 64 - 1).

Definition activity_deadline (activity idle : Z) : Z := activity + idle.
Definition idle_really_elapsed (now activity idle : Z) : bool := idle <=? Z.max 0 (now - activity).

Definition moved (c : Copy) (at_ : CopyAt) : Copy := mkCopy at_ (cp_copied c) (cp_in c) (cp_out c).

(** The timer of a wait that [again] repeats. *)
Definition timer (idle now deadline activity : Z) (again : Z → CopyAt) (c : Copy) : option (Z * Copy) :=
  if now <? deadline then None
  else if negb (idle_really_elapsed now activity idle)
  then Some (activity, moved c (again (activity_deadline activity idle)))
  else Some (activity, moved c (Returned (Err IdleExceeded))).

(** From one await of [copy_with_shared_idle] to the next: the shared time and the loop.
    There is no step for an event that cannot occur. *)
Definition copy_with_shared_idle (idle now activity : Z) (c : Copy) (ev : CopyEvent) : option (Z * Copy) :=
  match cp_at c, ev with
  | AtRead deadline, TimerFires => timer idle now deadline activity AtRead c
  | AtRead _, ReadDone None => Some (activity, moved c (Returned (Err RelayFailed)))
  | AtRead _, ReadDone (Some []) => Some (activity, moved c AtShutdown)
  | AtRead _, ReadDone (Some data) =>
      if negb (length data <=? BUFFER)%nat then None
      else Some (now, mkCopy (AtWrite (activity_deadline now idle) data) (cp_copied c) (cp_in c ++ data) (cp_out c))
  | AtWrite deadline rest, TimerFires => timer idle now deadline activity (λ d, AtWrite d rest) c
  | AtWrite _ _, WriteDone None => Some (activity, moved c (Returned (Err RelayFailed)))
  | AtWrite _ rest, WriteDone (Some progress) =>
      if negb (progress <=? length rest)%nat then None
      else if (progress =? 0)%nat then Some (activity, moved c (Returned (Err RelayWroteZero)))
      else
        let rest' := drop progress rest in
        let deadline := activity_deadline now idle in
        Some (now, mkCopy (match rest' with [] => AtRead deadline | _ => AtWrite deadline rest' end)
                     (saturating_u64 (cp_copied c + Z.of_nat progress)) (cp_in c) (cp_out c ++ take progress rest))
  | AtShutdown, ShutdownDone ok =>
      Some (activity, moved c (Returned (if ok then Ok (cp_copied c) else Err RelayFailed)))
  | _, _ => None
  end.

(** ** Both directions *)

Inductive Direction := ToCover | ToClient.
#[export] Instance direction_eq_dec : EqDecision Direction.
Proof. solve_decision. Defined.

Record Relay := mkRelay {
  r_activity : Z;
  r_up : Copy;
  r_down : Copy;
}.

Definition copy_start (now idle : Z) (sent : bytes) : Copy := mkCopy (AtRead (activity_deadline now idle)) 0 sent sent.

(** The cover has the first record already. *)
Definition run_with_idle_timeout (prefix : bytes) (idle now : Z) : result RelayError Relay :=
  if idle =? 0 then Err IdleZero
  else Ok (mkRelay now (copy_start now idle prefix) (copy_start now idle [])).

(** [try_join!]: the first error, or success once both have returned. *)
Definition relay_result (r : Relay) : option (result RelayError ()) :=
  match cp_at (r_up r), cp_at (r_down r) with
  | Returned (Err e), _ => Some (Err e)
  | _, Returned (Err e) => Some (Err e)
  | Returned (Ok _), Returned (Ok _) => Some (Ok ())
  | _, _ => None
  end.

(** A step of one loop, while the join has not returned. *)
Definition relay_step (idle now : Z) (d : Direction) (ev : CopyEvent) (r : Relay) : option Relay :=
  match relay_result r with
  | Some _ => None
  | None =>
      match d with
      | ToCover =>
          '(activity, c) ← copy_with_shared_idle idle now (r_activity r) (r_up r) ev;
          Some (mkRelay activity c (r_down r))
      | ToClient =>
          '(activity, c) ← copy_with_shared_idle idle now (r_activity r) (r_down r) ev;
          Some (mkRelay activity (r_up r) c)
      end
  end.

(** A run: what completed, in which direction and when. *)
Inductive relayed (prefix : bytes) (idle start : Z) : Z → list (Z * Direction * CopyEvent) → Relay → Prop :=
| relayed_start r : run_with_idle_timeout prefix idle start = Ok r → relayed prefix idle start start [] r
| relayed_step t h r now d ev r' :
    relayed prefix idle start t h r → t ≤ now → relay_step idle now d ev r = Some r' →
    relayed prefix idle start now ((now, d, ev) :: h) r'.

(** ** The relay *)

(** Bytes went through. *)
Definition progress (ev : CopyEvent) : bool :=
  match ev with ReadDone (Some (_ :: _)) | WriteDone (Some (S _)) => true | _ => false end.

(** What one side has sent, newest event first. *)
Fixpoint received (d : Direction) (h : list (Z * Direction * CopyEvent)) : bytes :=
  match h with
  | [] => []
  | (_, d', ReadDone (Some data)) :: h => received d h ++ (if decide (d' = d) then data else [])
  | _ :: h => received d h
  end.

Definition copy_of (r : Relay) (d : Direction) : Copy := match d with ToCover => r_up r | ToClient => r_down r end.
Definition sent_before (prefix : bytes) (d : Direction) : bytes := match d with ToCover => prefix | ToClient => [] end.

(** What a loop has read and not written, and until when it waits. *)
Definition in_hand (c : Copy) : bytes := match cp_at c with AtWrite _ rest => rest | _ => [] end.
Definition deadline_of (c : Copy) : option Z :=
  match cp_at c with AtRead d | AtWrite d _ => Some d | _ => None end.

Record copy_ok (idle activity : Z) (before : bytes) (c : Copy) : Prop := {
  co_order : ∃ hand, cp_in c = cp_out c ++ hand ∧ ((∀ e, cp_at c ≠ Returned (Err e)) → hand = in_hand c);
  co_before : ∃ relayed, cp_out c = before ++ relayed ∧ cp_copied c = saturating_u64 (len relayed)
    ∧ ∀ n, cp_at c = Returned (Ok n) → n = cp_copied c;
  co_deadline : ∀ d, deadline_of c = Some d → d ≤ activity + idle;
}.

Lemma moved_ok idle activity before c at_ :
  copy_ok idle activity before c → (∀ e, cp_at c ≠ Returned (Err e)) →
  ((∀ e, at_ ≠ Returned (Err e)) → in_hand (moved c at_) = in_hand c) →
  (∀ d, deadline_of (moved c at_) = Some d → d ≤ activity + idle) →
  (∀ n, at_ = Returned (Ok n) → n = cp_copied c) → copy_ok idle activity before (moved c at_).
Proof.
  intros [(hand & Hin & Hhand) (relayed & Hout & Hcop & Hres) Hd] Hne Hh Hdl Hr. split; [| |done].
  - exists hand. split; [done|]. intros Ha. cbn in Ha. by rewrite Hh, Hhand.
  - by exists relayed.
Qed.

Lemma failed_ok idle activity before c e :
  copy_ok idle activity before c → (∀ e, cp_at c ≠ Returned (Err e)) →
  copy_ok idle activity before (moved c (Returned (Err e))).
Proof. intros Hok Hne. apply moved_ok; try done. intros Ha. by destruct (Ha e). Qed.

Lemma timer_ok idle now activity before c deadline again activity' c' :
  0 < idle → copy_ok idle activity before c → (∀ e, cp_at c ≠ Returned (Err e)) →
  (∀ d, in_hand (moved c (again d)) = in_hand c) → (∀ d d', deadline_of (moved c (again d)) = Some d' → d' = d) →
  (∀ d r, again d ≠ Returned r) →
  timer idle now deadline activity again c = Some (activity', c') →
  copy_ok idle activity' before c' ∧ activity' = activity ∧ cp_in c' = cp_in c ++ []
  ∧ (cp_at c' = Returned (Err IdleExceeded) → activity' + idle ≤ now).
Proof.
  intros Hi Hok Hne Hh Hd Hr. unfold timer. destruct (now <? deadline); [done|].
  unfold idle_really_elapsed. destruct (Z.leb_spec idle (Z.max 0 (now - activity))) as [He|He]; cbn [negb];
    intros [= <- <-]; rewrite app_nil_r; (split; [first [by apply failed_ok|apply moved_ok; try done]|]).
  - split_and!; [done..|]. lia.
  - intros d ->%Hd. unfold activity_deadline. lia.
  - intros n Hn. by destruct (Hr _ _ Hn).
  - split_and!; [done..|]. intros Hn. by destruct (Hr _ _ Hn).
Qed.

(** Every step of a loop: what it reads, when it renews the shared time, and when it gives up. *)
Lemma copy_step_ok idle now activity before c ev activity' c' :
  0 < idle → activity ≤ now → copy_ok idle activity before c →
  copy_with_shared_idle idle now activity c ev = Some (activity', c') →
  copy_ok idle activity' before c' ∧ activity' = (if progress ev then now else activity)
  ∧ cp_in c' = cp_in c ++ (match ev with ReadDone (Some data) => data | _ => [] end)
  ∧ (cp_at c' = Returned (Err IdleExceeded) → activity' + idle ≤ now).
Proof.
  intros Hi Hn Hok. unfold copy_with_shared_idle. destruct (cp_at c) as [dl|dl rest| |r] eqn:Hat; [| | |done].
  - destruct ev as [[[|x data]|]| | |]; try done.
    + intros [= <- <-]. rewrite app_nil_r. split_and!; [|done..].
      apply moved_ok; try done; [by rewrite Hat|]. intros _. unfold in_hand. by rewrite Hat.
    + destruct (length _ <=? BUFFER)%nat; [|done]. cbn [negb]. intros [= <- <-]. split_and!; [|done..].
      destruct Hok as [(hand & Hin & Hhand) (relayed & Hout & Hcop & _) _].
      rewrite Hhand in Hin by (by rewrite Hat). unfold in_hand in Hin. rewrite Hat, app_nil_r in Hin. split.
      * exists (x :: data). split; [|done]. cbn. by rewrite Hin.
      * by exists relayed.
      * unfold activity_deadline. cbn. intros d [= <-]. lia.
    + intros [= <- <-]. rewrite app_nil_r. split_and!; [|done..]. apply failed_ok; [done|by rewrite Hat].
    + apply (timer_ok idle now activity before); [done|done|by rewrite Hat| |by intros d d' [= ->]|done].
      intros d. unfold in_hand. by rewrite Hat.
  - destruct ev as [|[n|]| |]; try done.
    + destruct (Nat.leb_spec n (length rest)) as [Hle|]; [|done]. cbn [negb].
      destruct n as [|n]; cbn [Nat.eqb].
      { intros [= <- <-]. rewrite app_nil_r. split_and!; [|done..]. apply failed_ok; [done|by rewrite Hat]. }
      intros [= <- <-]. rewrite app_nil_r.
      destruct Hok as [(hand & Hin & Hhand) (relayed & Hout & Hcop & _) _].
      rewrite Hhand in Hin by (by rewrite Hat). unfold in_hand in Hin. rewrite Hat in Hin.
      split_and!; [|done..|by destruct (drop _ rest)]. split.
      * exists (drop (S n) rest). cbn [cp_in cp_out]. rewrite <-app_assoc, take_drop. split; [done|].
        intros _. unfold in_hand. cbn [cp_at]. by destruct (drop (S n) rest).
      * exists (relayed ++ take (S n) rest). cbn [cp_out cp_copied cp_at]. rewrite Hout, <-app_assoc. split_and!; [done| |].
        -- rewrite Hcop, len_app. unfold saturating_u64, len. rewrite length_take. lia.
        -- intros m. by destruct (drop (S n) rest).
      * unfold deadline_of, activity_deadline. cbn [cp_at]. intros d. destruct (drop (S n) rest); intros [= <-]; lia.
    + intros [= <- <-]. rewrite app_nil_r. split_and!; [|done..]. apply failed_ok; [done|by rewrite Hat].
    + apply (timer_ok idle now activity before); [done|done|by rewrite Hat| |by intros d d' [= ->]|done].
      intros d. unfold in_hand. by rewrite Hat.
  - destruct ev; try done. intros [= <- <-]. rewrite app_nil_r. split_and!; [|done..|by destruct ok].
    apply moved_ok; [done|by rewrite Hat|unfold in_hand; by rewrite Hat|done|]. intros n. destruct ok; [|done]. by intros [= <-].
Qed.

(** A loop that closes the other side has seen the end of its own. *)
Definition closing (c : Copy) : bool := match cp_at c with AtShutdown | Returned (Ok _) => true | _ => false end.

Lemma copy_step_closing idle now activity c ev activity' c' :
  copy_with_shared_idle idle now activity c ev = Some (activity', c') → closing c' = true →
  ev = ReadDone (Some []) ∨ closing c = true.
Proof.
  unfold copy_with_shared_idle, closing, timer. destruct (cp_at c) as [dl|dl rest| |r]; [| |by right|done].
  - destruct ev as [[[|x data]|]| | |]; try done; [by left|by destruct (length _ <=? BUFFER)%nat; [intros [= <- <-]|]
      |by intros [= <- <-]|].
    destruct (now <? dl); [done|]. by destruct (negb _); intros [= <- <-].
  - destruct ev as [|[n|]| |]; try done; [|by intros [= <- <-]|].
    + destruct (negb _); [done|]. destruct (n =? 0)%nat; intros [= <- <-]; [done|]. cbn. by destruct (drop n rest).
    + destruct (now <? dl); [done|]. by destruct (negb _); intros [= <- <-].
Qed.

Lemma relay_step_Some idle now d ev r r' :
  relay_step idle now d ev r = Some r' →
  relay_result r = None
  ∧ copy_with_shared_idle idle now (r_activity r) (copy_of r d) ev = Some (r_activity r', copy_of r' d)
  ∧ ∀ d', d' ≠ d → copy_of r' d' = copy_of r d'.
Proof.
  unfold relay_step. destruct (relay_result r); [done|].
  destruct d; cbn [copy_of]; (destruct (copy_with_shared_idle idle now (r_activity r) _ ev) as [[a c]|]; [|done]);
    intros [= <-]; (split_and!; [done..|]); by intros [] Hd.
Qed.

Lemma no_result r : relay_result r = None → ∀ d e, cp_at (copy_of r d) ≠ Returned (Err e).
Proof.
  unfold relay_result. intros H [] e He; cbn [copy_of] in He; rewrite He in H; [done|].
  by destruct (cp_at (r_up r)) as [| | |[]].
Qed.

Lemma copy_ok_later idle activity activity' before c :
  activity ≤ activity' → copy_ok idle activity before c → copy_ok idle activity' before c.
Proof. intros Ha [H1 H2 H3]. split; [done..|]. intros d Hd%H3. lia. Qed.

(** The shared time is that of the last progress, or of the start. *)
Record relay_ok (prefix : bytes) (idle start t : Z) (h : list (Z * Direction * CopyEvent)) (r : Relay) : Prop := {
  rl_copies d : copy_ok idle (r_activity r) (sent_before prefix d) (copy_of r d);
  rl_read d : cp_in (copy_of r d) = sent_before prefix d ++ received d h;
  rl_time : start ≤ r_activity r ≤ t;
  rl_progress t' d ev : (t', d, ev) ∈ h → progress ev = true → t' ≤ r_activity r;
  rl_active : r_activity r = start ∨ ∃ d ev, (r_activity r, d, ev) ∈ h ∧ progress ev = true;
  rl_idle d : cp_at (copy_of r d) = Returned (Err IdleExceeded) → r_activity r + idle ≤ t;
  rl_closing d : closing (copy_of r d) = true → ∃ t', (t', d, ReadDone (Some [])) ∈ h;
}.

Lemma relay_step_ok prefix idle start t h r now d ev r' :
  0 < idle → t ≤ now → relay_ok prefix idle start t h r → relay_step idle now d ev r = Some r' →
  relay_ok prefix idle start now ((now, d, ev) :: h) r'.
Proof.
  intros Hi Ht [Hc Hin Htime Hp Hact Hidle Hcl] (Hres & Hstep & Hother)%relay_step_Some.
  destruct (copy_step_ok idle now (r_activity r) _ _ _ _ _ Hi ltac:(lia) (Hc d) Hstep) as (Hok & Ha & Hread & Hgive).
  assert (r_activity r ≤ r_activity r' ≤ now) as Hle by (rewrite Ha; destruct (progress ev); lia).
  split.
  - intros d'. destruct (decide (d' = d)) as [->|Hd]; [done|]. rewrite Hother by done. by eapply copy_ok_later; [apply Hle|].
  - intros d'. cbn [received]. destruct (decide (d' = d)) as [->|Hd].
    + rewrite Hread, Hin. destruct ev as [[data|]| | |]; rewrite ?app_nil_r; try done.
      by rewrite decide_True, app_assoc by done.
    + rewrite Hother, Hin by done. destruct ev as [[data|]| | |]; try done. by rewrite decide_False, app_nil_r by done.
  - lia.
  - intros t' d' ev' [[= -> -> ->]|Hin']%elem_of_cons Hpr; [by rewrite Ha, Hpr|]. specialize (Hp _ _ _ Hin' Hpr). lia.
  - rewrite Ha. destruct (progress ev) eqn:Hpr; [right; exists d, ev; by split; [left|]|].
    destruct Hact as [Hs|(d' & ev' & Hin' & Hpr')]; [by left|right]. exists d', ev'. by split; [right|].
  - intros d'. destruct (decide (d' = d)) as [->|Hd]; [done|]. rewrite Hother by done. intros He.
    by destruct (no_result r Hres d' IdleExceeded).
  - intros d' Hcl'. destruct (decide (d' = d)) as [->|Hd].
    + destruct (copy_step_closing _ _ _ _ _ _ _ Hstep Hcl') as [->|Hc'%Hcl]; [exists now; by left|].
      destruct Hc' as [t' ?]. exists t'. by right.
    + rewrite Hother in Hcl' by done. destruct (Hcl d' Hcl') as [t' ?]. exists t'. by right.
Qed.

Lemma relayed_ok prefix idle start t h r :
  0 ≤ idle → relayed prefix idle start t h r → 0 < idle ∧ relay_ok prefix idle start t h r.
Proof.
  intros Hi. induction 1 as [r Hr|t h r now d ev r' _ [Hpos IH] Ht Hs].
  - unfold run_with_idle_timeout in Hr. destruct (Z.eqb_spec idle 0); [done|]. injection Hr as <-. split; [lia|].
    split; cbn [r_activity copy_of].
    + intros []; (split; [exists []; cbn; by rewrite ?app_nil_r|exists []; by rewrite ?app_nil_r|]);
        intros d [= <-]; unfold activity_deadline; lia.
    + intros []; cbn; by rewrite ?app_nil_r.
    + lia.
    + intros t' d ev Hin. by apply not_elem_of_nil in Hin.
    + by left.
    + by intros [].
    + by intros [].
  - split; [done|]. by eapply relay_step_ok.
Qed.

(** C32: The splice of a rejected connection to the cover ([run_with_idle_timeout]), over every
    order in which reads, writes, timers and failures complete.  What each side receives is,
    in order and without a gap, what the other has sent, starting at the cover with the first
    record the acceptor had read.  The splice ends well only after both sides have closed and
    everything was passed on.  It ends for idleness only when, for the whole idle time, nothing
    was read or written in either direction; and once that time has passed, the timer of a
    waiting loop is due and ends it. *)
Theorem cover_relay (prefix : bytes) (idle start t : Z) (h : list (Z * Direction * CopyEvent)) (r : Relay) :
  0 ≤ idle → relayed prefix idle start t h r →
  (∀ d, ∃ out hand, cp_out (copy_of r d) = sent_before prefix d ++ out ∧ received d h = out ++ hand)
  ∧ (relay_result r = Some (Ok ()) →
       ∀ d, cp_out (copy_of r d) = sent_before prefix d ++ received d h ∧ ∃ t', (t', d, ReadDone (Some [])) ∈ h)
  ∧ (relay_result r = Some (Err IdleExceeded) →
       start + idle ≤ t ∧ ∀ t' d ev, (t', d, ev) ∈ h → progress ev = true → t' + idle ≤ t)
  ∧ (∀ now d deadline, relay_result r = None → deadline_of (copy_of r d) = Some deadline →
       t ≤ now → start + idle ≤ now → (∀ t' d ev, (t', d, ev) ∈ h → progress ev = true → t' + idle ≤ now) →
       ∃ r', relay_step idle now d TimerFires r = Some r' ∧ relay_result r' = Some (Err IdleExceeded)).
Proof.
  intros Hi Hr. destruct (relayed_ok _ _ _ _ _ _ Hi Hr) as [Hpos [Hc Hin Htime Hp Hact Hidle Hcl]]. split_and!.
  - intros d. destruct (Hc d) as [(hand & Hh & _) (out & Ho & _) _]. exists out, hand. split; [done|].
    rewrite Hin, Ho, <-app_assoc in Hh. by apply app_inv_head in Hh.
  - intros Hres d. assert (∃ n, cp_at (copy_of r d) = Returned (Ok n)) as [n Hn].
    { unfold relay_result in Hres. destruct d; cbn [copy_of];
        destruct (cp_at (r_up r)) as [| | |[]], (cp_at (r_down r)) as [| | |[]]; naive_solver. }
    split; [|apply Hcl; unfold closing; by rewrite Hn].
    destruct (Hc d) as [(hand & Hh & Hhand) _ _]. rewrite Hhand in Hh by (by rewrite Hn).
    unfold in_hand in Hh. rewrite Hn, app_nil_r in Hh. by rewrite <-Hh.
  - intros Hres. assert (r_activity r + idle ≤ t) as Ha.
    { unfold relay_result in Hres. destruct (cp_at (r_up r)) as [| | |[|e]] eqn:Hu; [..|apply (Hidle ToCover); cbn; congruence];
        destruct (cp_at (r_down r)) as [| | |[|e]] eqn:Hd; try done; apply (Hidle ToClient); cbn; congruence. }
    split; [lia|]. intros t' d ev Hev Hpr. specialize (Hp _ _ _ Hev Hpr). lia.
  - intros now d deadline Hres Hdl Ht Hs Hq. assert (r_activity r + idle ≤ now) as Ha.
    { destruct Hact as [->|(d' & ev & Hev & Hpr)]; [done|]. by apply (Hq _ d' ev). }
    pose proof (co_deadline _ _ _ _ (Hc d) _ Hdl) as Hdead.
    assert (∀ again, timer idle now deadline (r_activity r) again (copy_of r d)
      = Some (r_activity r, moved (copy_of r d) (Returned (Err IdleExceeded)))) as Htimer.
    { intros again. unfold timer, idle_really_elapsed. destruct (Z.ltb_spec now deadline); [lia|].
      destruct (Z.leb_spec idle (Z.max 0 (now - r_activity r))); [done|lia]. }
    assert (copy_with_shared_idle idle now (r_activity r) (copy_of r d) TimerFires
      = Some (r_activity r, moved (copy_of r d) (Returned (Err IdleExceeded)))) as Hstep.
    { unfold copy_with_shared_idle, deadline_of in *. destruct (cp_at (copy_of r d)); naive_solver. }
    unfold relay_step. rewrite Hres. pose proof (no_result r Hres) as Hne.
    destruct d; cbn [copy_of] in *; rewrite Hstep; (eexists; split; [done|]); unfold relay_result; cbn; [done|].
    pose proof (Hne ToCover) as Hup. cbn in Hup. destruct (cp_at (r_up r)) as [| | |[|e]]; try done. by destruct (Hup e).
Qed.

(** ** A concrete splice *)

Module RelaySample.

Definition first_record : bytes := [Byte.x16; Byte.x03].
Definition events : list (Z * Direction * CopyEvent) :=
  [(12, ToClient, TimerFires); (10, ToClient, TimerFires); (2, ToCover, WriteDone (Some 3%nat));
   (1, ToCover, ReadDone (Some [Byte.x61; Byte.x62; Byte.x63]))].

Fixpoint play (h : list (Z * Direction * CopyEvent)) : option Relay :=
  match h with
  | [] => match run_with_idle_timeout first_record 10 0 with Ok r => Some r | Err _ => None end
  | (now, d, ev) :: h => r ← play h; relay_step 10 now d ev r
  end.

Definition time_of (h : list (Z * Direction * CopyEvent)) : Z := match h with [] => 0 | (now, _, _) :: _ => now end.

Fixpoint in_time (h : list (Z * Direction * CopyEvent)) : Prop :=
  match h with [] => True | (now, _, _) :: h => time_of h ≤ now ∧ in_time h end.

Lemma play_relayed h : ∀ r, in_time h → play h = Some r → relayed first_record 10 0 (time_of h) h r.
Proof.
  induction h as [|[[now d] ev] h IH]; intros r; cbn [play in_time].
  - intros _ [= <-]. by apply relayed_start.
  - intros [Ht Hh] Hp. destruct (play h) as [r0|]; [|done]. by eapply relayed_step; [apply IH| |].
Qed.

(** The first timer finds progress since it was set; the second ends the splice. *)
Definition ended : Relay := default (mkRelay 0 (copy_start 0 0 []) (copy_start 0 0 [])) (play events).

Lemma cover_relay_witness :
  relay_result ended = Some (Err IdleExceeded) ∧ cp_out (r_up ended) = first_record ++ received ToCover events
  ∧ ∀ t' d ev, (t', d, ev) ∈ events → progress ev = true → t' + 10 ≤ 12.
Proof.
  split; [reflexivity|]. split; [reflexivity|].
  refine (proj2 (proj1 (proj2 (proj2 (cover_relay first_record 10 0 12 events ended _ _))) _)); [lia| |reflexivity].
  apply (play_relayed events); [cbn; lia|reflexivity].
Defined.
End RelaySample.
