(* ===== verification/EndpointPlan.v ===== *)
(** * Live endpoints: identities, candidates and transition plans

    Models the first half of [shadowpipe-core/src/endpoint.rs]: endpoint identities and
    authorities, candidate states, the dial snapshot, the reference counts of host
    access, the ordered transition plan and its validator, and the refresh schedule.
    [Host] is the host the plans act on: the firewall tuples that are allowed and the
    bypass routes that exist.  The lemmas follow the execution of a plan operation by
    operation: nothing that is published loses its access, and any executed prefix can be
    rolled back. *)

From S2P Require Import Prelude PolicyVerify.

(** [anyhow] errors without their text; [Panicked] is a failed [expect]. *)
Inductive EndpointError := Refused | Panicked.

Definition MIN_TTL_SECS : Z := 5.
Definition MAX_TTL_SECS : Z := 3600.
Definition DEFAULT_NEGATIVE_TTL_SECS : Z := 30.
Definition MAX_NEGATIVE_TTL_SECS : Z := 300.
Definition RETRY_BASE_MS : Z := 1000.
Definition RETRY_CAP_MS : Z := 30000.

Definition u64_saturating_add (a b : Z) : Z := Z.min (2 ^ 64 - 1) (a + b).
Definition u64_saturating_mul (a b : Z) : Z := Z.min (2 ^ 64 - 1) (a * b).
Definition u32_saturating_add (a b : Z) : Z := Z.min (2 ^ 32 - 1) (a + b).
Definition clamp (x lo hi : Z) : Z := Z.max lo (Z.min x hi).

(** ** Identities

    An [Ipv4Addr] is its 32-bit value, a [LogicalEndpointId] and an [AuthConfigRef] are
    their numbers. *)

Inductive CarrierProtocol := ProtoTcp | ProtoUdp.
Record CarrierTuple := mkCarrierTuple { ct_ip : Z; ct_port : Z; ct_protocol : CarrierProtocol }.
Record CandidateKey := mkCandidateKey { ck_logical : Z; ck_ip : Z }.

#[export] Instance CarrierProtocol_eq_dec : EqDecision CarrierProtocol.
Proof. solve_decision. Defined.
#[export] Instance CarrierTuple_eq_dec : EqDecision CarrierTuple.
Proof. solve_decision. Defined.
#[export] Instance CandidateKey_eq_dec : EqDecision CandidateKey.
Proof. solve_decision. Defined.

#[export] Instance CarrierTuple_countable : Countable CarrierTuple.
Proof.
  refine (inj_countable' (λ t, (ct_ip t, ct_port t, bool_decide (ct_protocol t = ProtoTcp)))
    (λ '(ip, port, b), mkCarrierTuple ip port (if b : bool then ProtoTcp else ProtoUdp)) _).
  by intros [ip port []].
Defined.
#[export] Instance CandidateKey_countable : Countable CandidateKey.
Proof.
  refine (inj_countable' (λ k, (ck_logical k, ck_ip k)) (λ '(l, ip), mkCandidateKey l ip) _).
  by intros [].
Defined.

(** ** Ordered maps

    A [BTreeMap] is a finite map whose keys are listed in the order of their type. *)

Definition key_le (a b : CandidateKey) : Prop :=
  ck_logical a < ck_logical b ∨ (ck_logical a = ck_logical b ∧ ck_ip a ≤ ck_ip b).
Definition protocol_rank (p : CarrierProtocol) : Z := match p with ProtoTcp => 0 | ProtoUdp => 1 end.
Definition tuple_le (a b : CarrierTuple) : Prop :=
  ct_ip a < ct_ip b ∨ (ct_ip a = ct_ip b ∧
    (ct_port a < ct_port b ∨ (ct_port a = ct_port b
       ∧ protocol_rank (ct_protocol a) ≤ protocol_rank (ct_protocol b)))).

#[export] Instance key_le_dec a b : Decision (key_le a b).
Proof. unfold key_le. apply _. Defined.
#[export] Instance tuple_le_dec a b : Decision (tuple_le a b).
Proof. unfold tuple_le. apply _. Defined.

Definition in_order {K} `{Countable K} (R : relation K) `{∀ x y, Decision (R x y)}
    (s : gset K) : list K := merge_sort R (elements s).

(** ** Endpoints *)

Record VerifiedIpv4Authority := mkVerifiedIpv4Authority {
  manifest_generation : Z;
  allowed : gset Z;
}.

Definition from_preverified_manifest (generation : Z) (addresses : list Z)
  : result EndpointError VerifiedIpv4Authority :=
  let allowed := list_to_set addresses in
  if bool_decide (allowed = ∅) then Err Refused else
  Ok (mkVerifiedIpv4Authority generation allowed).

Definition addresses (a : VerifiedIpv4Authority) : list Z := in_order Z.le (allowed a).

(** The predicates of [Ipv4Addr]. *)
Definition octet (i ip : Z) : Z := ip / 256 ^ (3 - i) mod 256.
Definition is_unspecified (ip : Z) : bool := ip =? 0.
Definition is_loopback (ip : Z) : bool := octet 0 ip =? 127.
Definition is_link_local (ip : Z) : bool := (octet 0 ip =? 169) && (octet 1 ip =? 254).
Definition is_multicast (ip : Z) : bool := (224 <=? octet 0 ip) && (octet 0 ip <=? 239).
Definition is_broadcast (ip : Z) : bool := ip =? 2 ^ 32 - 1.
Definition is_private (ip : Z) : bool :=
  (octet 0 ip =? 10) || ((octet 0 ip =? 172) && (16 <=? octet 1 ip) && (octet 1 ip <=? 31))
  || ((octet 0 ip =? 192) && (octet 1 ip =? 168)).

Record AddressPolicy := mkAddressPolicy { allow_private : bool }.

Definition permits (p : AddressPolicy) (ip : Z) : bool :=
  if is_unspecified ip || is_loopback ip || is_link_local ip || is_multicast ip || is_broadcast ip
  then false else allow_private p || negb (is_private ip).

Record LogicalEndpoint := mkLogicalEndpoint {
  le_id : Z;
  le_hostname : bytes;
  le_port : Z;
  le_protocol : CarrierProtocol;
  le_auth : Z;
  le_authority : VerifiedIpv4Authority;
  le_address_policy : AddressPolicy;
}.

Definition LogicalEndpoint_tuple (e : LogicalEndpoint) (ip : Z) : CarrierTuple :=
  mkCarrierTuple ip (le_port e) (le_protocol e).

Record CandidateState := mkCandidateState {
  valid_until_ms : option Z;
  dialable : bool;
  cs_leases : Z;
}.

Record LogicalState := mkLogicalState {
  spec : LogicalEndpoint;
  latest_query_sequence : Z;
  last_applied_sequence : Z;
  failure_streak : Z;
  next_refresh_at_ms : Z;
}.

(** ** The dial snapshot *)

Record DialCandidate := mkDialCandidate {
  dc_key : CandidateKey;
  dc_ip : Z;
  dc_port : Z;
  dc_protocol : CarrierProtocol;
  dc_auth : Z;
  dc_authority_generation : Z;
}.
Record DialSnapshot := mkDialSnapshot { generation : Z; ds_candidates : list DialCandidate }.

#[export] Instance DialCandidate_eq_dec : EqDecision DialCandidate.
Proof. solve_decision. Defined.

Fixpoint map_res {E A B} (f : A → result E B) (l : list A) : result E (list B) :=
  match l with
  | [] => Ok []
  | a :: l => b ← f a; bs ← map_res f l; Ok (b :: bs)
  end.

Definition dial_candidate (logical : gmap Z LogicalState) (key : CandidateKey)
  : result EndpointError DialCandidate :=
  state ← ok_or (logical !! ck_logical key) Panicked;
  Ok (mkDialCandidate key (ck_ip key) (le_port (spec state)) (le_protocol (spec state))
        (le_auth (spec state)) (manifest_generation (le_authority (spec state)))).

(** The keys of the dialable candidates. *)
Definition dialable_keys (candidates : gmap CandidateKey CandidateState) : gset CandidateKey :=
  dom (filter (λ kc, dialable kc.2 = true) candidates).

Definition build_snapshot (generation : Z) (logical : gmap Z LogicalState)
    (candidates : gmap CandidateKey CandidateState) : result EndpointError DialSnapshot :=
  l ← map_res (dial_candidate logical) (in_order key_le (dialable_keys candidates));
  Ok (mkDialSnapshot generation l).

(** ** Transition plans *)

Inductive FirewallOperation := Allow (t : CarrierTuple) | Deny (t : CarrierTuple).
Inductive RouteOperation := AddBypass (ip : Z) | RemoveBypass (ip : Z).
Inductive TransitionOperation :=
| Firewall (op : FirewallOperation)
| Route (op : RouteOperation)
| PublishSnapshot (from to : Z).

Definition host_inverse (op : TransitionOperation) : option TransitionOperation :=
  match op with
  | Firewall (Allow t) => Some (Firewall (Deny t))
  | Firewall (Deny t) => Some (Firewall (Allow t))
  | Route (AddBypass ip) => Some (Route (RemoveBypass ip))
  | Route (RemoveBypass ip) => Some (Route (AddBypass ip))
  | PublishSnapshot _ _ => None
  end.

Record TransitionPlan := mkTransitionPlan {
  operations : list TransitionOperation;
  plan_snapshot : DialSnapshot;
}.

Definition unchanged (snapshot : DialSnapshot) : TransitionPlan := mkTransitionPlan [] snapshot.

Definition is_publish (op : TransitionOperation) : bool :=
  match op with PublishSnapshot _ _ => true | _ => false end.

(** [iter().position(..)] *)
Fixpoint position {A} (f : A → bool) (l : list A) : option nat :=
  match l with
  | [] => None
  | a :: l => if f a then Some O else S <$> position f l
  end.

Definition check_around_publish (publish : option nat) (index : nat) (op : TransitionOperation)
  : result EndpointError nat :=
  let before := match publish with Some p => (index <? p)%nat | None => false end in
  match op with
  | Firewall (Allow _) => if negb before then Err Refused else Ok (S index)
  | Route (AddBypass _) => if negb before then Err Refused else Ok (S index)
  | Firewall (Deny _) | Route (RemoveBypass _) =>
      match publish with
      | Some p => if negb (p <? index)%nat then Err Refused else Ok (S index)
      | None => Ok (S index)
      end
  | PublishSnapshot _ _ => Ok (S index)
  end.

Definition check_firewall_first (seen : bool * bool) (op : TransitionOperation)
  : result EndpointError (bool * bool) :=
  let '(seen_route_add, seen_route_remove) := seen in
  match op with
  | Route (AddBypass _) => Ok (true, seen_route_remove)
  | Firewall (Allow _) => if seen_route_add then Err Refused else Ok seen
  | Route (RemoveBypass _) => Ok (seen_route_add, true)
  | Firewall (Deny _) => if seen_route_remove then Err Refused else Ok seen
  | PublishSnapshot _ _ => Ok seen
  end.

Definition validate_order (plan : TransitionPlan) : result EndpointError () :=
  let publish := position is_publish (operations plan) in
  _ ← fold_res (check_around_publish publish) O (operations plan);
  _ ← fold_res check_firewall_first (false, false) (operations plan);
  Ok ().

Definition count_ref {K} `{Countable K} (k : K) (m : gmap K Z) : gmap K Z :=
  <[k := default 0 (m !! k) + 1]> m.

Definition access_refs (logical : gmap Z LogicalState)
    (candidates : gmap CandidateKey CandidateState)
  : result EndpointError (gmap CarrierTuple Z * gmap Z Z) :=
  fold_res (λ '(tuples, ips) key,
      state ← ok_or (logical !! ck_logical key) Panicked;
      Ok (count_ref (LogicalEndpoint_tuple (spec state) (ck_ip key)) tuples,
          count_ref (ck_ip key) ips))
    (∅, ∅) (in_order key_le (dom candidates)).

(** The keys of one map, in order, that another one does not have. *)
Definition missing_from {K A} `{Countable K} (R : relation K) `{∀ x y, Decision (R x y)}
    (m other : gmap K A) : list K := filter (λ k, other !! k = None) (in_order R (dom m)).

Definition transition_plan (logical : gmap Z LogicalState)
    (old new : gmap CandidateKey CandidateState) (old_generation : Z) (snapshot : DialSnapshot)
    (publish : bool) : result EndpointError TransitionPlan :=
  '(old_tuples, old_ips) ← access_refs logical old;
  '(new_tuples, new_ips) ← access_refs logical new;
  Ok (mkTransitionPlan
    (((λ t, Firewall (Allow t)) <$> missing_from tuple_le new_tuples old_tuples)
     ++ ((λ ip, Route (AddBypass ip)) <$> missing_from Z.le new_ips old_ips)
     ++ (if publish then [PublishSnapshot old_generation (generation snapshot)] else [])
     ++ ((λ t, Firewall (Deny t)) <$> missing_from tuple_le old_tuples new_tuples)
     ++ ((λ ip, Route (RemoveBypass ip)) <$> missing_from Z.le old_ips new_ips))
    snapshot).

(** ** The refresh schedule *)

Definition jittered_ttl_ms (ttl_secs entropy : Z) : Z :=
  let ttl := clamp ttl_secs MIN_TTL_SECS MAX_TTL_SECS in
  let basis_points := 7000 + entropy mod 2001 in
  u64_saturating_mul (u64_saturating_mul ttl 1000) basis_points / 10000.

Definition retry_delay_ms (streak entropy : Z) : Z :=
  let shift := Z.min (Z.max 0 (streak - 1)) 31 in
  let ceiling := Z.min (u64_saturating_mul RETRY_BASE_MS (Z.shiftl 1 shift)) RETRY_CAP_MS in
  250 + entropy mod Z.max (Z.max 0 (ceiling - 249)) 1.

(** ** The host

    The host a plan acts on, and the execution of a plan by the runtime. *)

Record Host := mkHost { fw : gset CarrierTuple; routes : gset Z }.

Definition exec_op (h : Host) (op : TransitionOperation) : Host :=
  match op with
  | Firewall (Allow t) => mkHost ({[t]} ∪ fw h) (routes h)
  | Firewall (Deny t) => mkHost (fw h ∖ {[t]}) (routes h)
  | Route (AddBypass ip) => mkHost (fw h) ({[ip]} ∪ routes h)
  | Route (RemoveBypass ip) => mkHost (fw h) (routes h ∖ {[ip]})
  | PublishSnapshot _ _ => h
  end.
Definition exec_all (ops : list TransitionOperation) (h : Host) : Host := foldl exec_op h ops.

(** Undoing an executed prefix: the inverses, last operation first. *)
Definition rollback (ops : list TransitionOperation) : list TransitionOperation :=
  omap host_inverse (rev ops).

Definition host_sub (h1 h2 : Host) : Prop := fw h1 ⊆ fw h2 ∧ routes h1 ⊆ routes h2.

(** The access that a set of candidates needs. *)
Definition key_tuple (logical : gmap Z LogicalState) (key : CandidateKey) : option CarrierTuple :=
  (λ st, LogicalEndpoint_tuple (spec st) (ck_ip key)) <$> logical !! ck_logical key.
Definition access (logical : gmap Z LogicalState) (keys : gset CandidateKey) : Host :=
  mkHost (list_to_set (omap (key_tuple logical) (elements keys)))
    (list_to_set (ck_ip <$> elements keys)).

(** *** Order *)

Definition is_add (op : TransitionOperation) : bool :=
  match op with Firewall (Allow _) | Route (AddBypass _) => true | _ => false end.
Definition is_removal (op : TransitionOperation) : bool :=
  match op with Firewall (Deny _) | Route (RemoveBypass _) => true | _ => false end.
Definition is_route_add (op : TransitionOperation) : bool :=
  match op with Route (AddBypass _) => true | _ => false end.
Definition is_route_removal (op : TransitionOperation) : bool :=
  match op with Route (RemoveBypass _) => true | _ => false end.

(** Additions come before the publication, which must exist, removals after it, if it
    exists; the firewall is opened before routes are added and closed before they are
    removed. *)
Record well_ordered (ops : list TransitionOperation) : Prop := {
  wo_add pre op post : ops = pre ++ op :: post → is_add op = true →
    existsb is_publish pre = false ∧ existsb is_publish post = true;
  wo_removal pre op post : ops = pre ++ op :: post → is_removal op = true →
    existsb is_publish ops = true → existsb is_publish pre = true;
  wo_allow pre t post : ops = pre ++ Firewall (Allow t) :: post → existsb is_route_add pre = false;
  wo_deny pre t post : ops = pre ++ Firewall (Deny t) :: post →
    existsb is_route_removal pre = false;
}.

Lemma position_Some {A} (f : A → bool) l n :
  position f l = Some n → (n < length l)%nat ∧ existsb f l = true.
Proof.
  revert n. induction l as [|x l IH]; intros n; simpl; [done|]. destruct (f x).
  - intros [= <-]. split; [lia|done].
  - intros (m & Hm & ->)%fmap_Some. apply IH in Hm as [? ->]. split; [lia|done].
Qed.

Lemma position_None {A} (f : A → bool) l : position f l = None ↔ existsb f l = false.
Proof.
  induction l as [|x l IH]; simpl; [done|]. destruct (f x); simpl; [done|].
  rewrite fmap_None. apply IH.
Qed.

Lemma position_app {A} (f : A → bool) l k :
  position f (l ++ k)
  = match position f l with Some n => Some n | None => (λ n, (length l + n)%nat) <$> position f k end.
Proof.
  induction l as [|x l IH]; simpl.
  - by destruct (position f k).
  - destruct (f x); [done|]. rewrite IH. destruct (position f l); [done|].
    by destruct (position f k).
Qed.

(** Where the publication is relative to a place in the list. *)
Lemma position_around pre op post : is_publish op = false →
  match position is_publish (pre ++ op :: post) with
  | Some p => (length pre <? p)%nat = negb (existsb is_publish pre)
              ∧ (p <? length pre)%nat = existsb is_publish pre
              ∧ existsb is_publish (pre ++ op :: post) = true
              ∧ (existsb is_publish pre = false → existsb is_publish post = true)
  | None => existsb is_publish (pre ++ op :: post) = false ∧ existsb is_publish post = false
            ∧ existsb is_publish pre = false
  end.
Proof.
  intros Hop. rewrite position_app, existsb_app. cbn [position existsb]. rewrite Hop.
  destruct (position is_publish pre) as [p|] eqn:Hpre.
  - apply position_Some in Hpre as [Hl ->]. cbn.
    split_and!; [apply Nat.ltb_ge; lia|by apply Nat.ltb_lt|done|done].
  - apply position_None in Hpre as ->. destruct (position is_publish post) as [p|] eqn:Hpost; cbn.
    + apply position_Some in Hpost as [_ ->].
      split_and!; [apply Nat.ltb_lt; lia|apply Nat.ltb_ge; lia|done|done].
    + by apply position_None in Hpost as ->.
Qed.

Lemma fold_res_unit_iff {E S A} (f : S → A → result E S) (g : list A → S) (P : list A → A → Prop) l :
  (∀ pre x post, l = pre ++ x :: post → (∃ s, f (g pre) x = Ok s) ↔ P pre x) →
  (∀ pre x s, f (g pre) x = Ok s → s = g (pre ++ [x])) →
  (∃ s, fold_res f (g []) l = Ok s) ↔ ∀ pre x post, l = pre ++ x :: post → P pre x.
Proof.
  intros HP Hg. enough (∀ todo pre, l = pre ++ todo →
    (∃ s, fold_res f (g pre) todo = Ok s) ↔
    ∀ p x post, todo = p ++ x :: post → P (pre ++ p) x) as Hgen by (by apply (Hgen l [])).
  induction todo as [|x todo IH]; intros pre Hl; simpl.
  - split; [|by eexists]. by intros _ [] ? ?.
  - split.
    + intros [s (s1 & Hs1 & Hs)%bind_Ok] p y post Heq. destruct p as [|z p]; simplify_eq/=.
      * rewrite app_nil_r. eapply HP; [done|by eexists].
      * pose proof (Hg _ _ _ Hs1) as ->.
        rewrite (app_assoc pre [z] p : pre ++ z :: p = _).
        eapply (IH (pre ++ [z])); [by rewrite <- app_assoc|by eexists|done].
    + intros H. destruct (proj2 (HP pre x todo Hl)) as [s1 Hs1].
      { rewrite <- (app_nil_r pre). by eapply (H [] x todo). }
      pose proof (Hg _ _ _ Hs1) as ->.
      destruct (proj2 (IH (pre ++ [x]) ltac:(by rewrite <- app_assoc))) as [s Hs].
      { intros p y post ->. rewrite <- app_assoc. by eapply (H (x :: p)). }
      exists s. apply bind_Ok. by eexists.
Qed.

Lemma guard_ex {E A} (b : bool) (e : E) (a : A) :
  (∃ s, (if b then Err e else Ok a) = Ok s) ↔ b = false.
Proof. destruct b; split; [by intros [? ?]|done|done|by eexists]. Qed.
Lemma ok_ex {E A} (a : A) : (∃ s, @Ok E A a = Ok s) ↔ True.
Proof. split; [done|by eexists]. Qed.

Lemma err_ex {E A} (e : E) : (∃ s, @Err E A e = Ok s) ↔ False.
Proof. split; [by intros [? ?]|done]. Qed.
Lemma true_true : true = true ↔ True. Proof. done. Qed.
Lemma false_false : false = false ↔ True. Proof. done. Qed.
Lemma true_false : true = false ↔ False. Proof. done. Qed.
Lemma false_true : false = true ↔ False. Proof. done. Qed.
Ltac bool_props :=
  rewrite ?true_true, ?false_false, ?true_false, ?false_true in *.

Lemma check_around_iff pre op post :
  (∃ s, check_around_publish (position is_publish (pre ++ op :: post)) (length pre) op = Ok s) ↔
  (is_add op = true → existsb is_publish pre = false ∧ existsb is_publish post = true)
  ∧ (is_removal op = true → existsb is_publish (pre ++ op :: post) = true →
     existsb is_publish pre = true).
Proof.
  destruct (is_publish op) eqn:Hop.
  - destruct op as [[]|[]|]; try done. simpl. split; [done|]. by eexists.
  - pose proof (position_around pre op post Hop) as H.
    destruct (position is_publish (pre ++ op :: post)) as [p|].
    + destruct H as (Hlt & Hgt & Hall & Himp). rewrite Hall.
      destruct op as [[]|[]|]; try done; cbn [check_around_publish is_add is_removal];
        rewrite ?Hlt, ?Hgt, ?negb_involutive, ?guard_ex; clear Hlt Hgt Hall.
      all: destruct (existsb is_publish pre); cbn [negb]; bool_props; tauto.
    + destruct H as (Hall & -> & ->). rewrite Hall.
      destruct op as [[]|[]|]; try done; cbn [check_around_publish is_add is_removal negb];
        rewrite ?ok_ex, ?err_ex; bool_props; tauto.
Qed.

Lemma check_firewall_iff pre op :
  (∃ s, check_firewall_first (existsb is_route_add pre, existsb is_route_removal pre) op = Ok s) ↔
  (∀ t, op = Firewall (Allow t) → existsb is_route_add pre = false)
  ∧ (∀ t, op = Firewall (Deny t) → existsb is_route_removal pre = false).
Proof.
  destruct op as [[t|t]|[ip|ip]|from to]; cbn [check_firewall_first];
    destruct (existsb is_route_add pre), (existsb is_route_removal pre); naive_solver.
Qed.

(** The validator accepts exactly the well-ordered plans. *)
Lemma validate_order_Ok plan : validate_order plan = Ok () ↔ well_ordered (operations plan).
Proof.
  unfold validate_order. set (ops := operations plan). clearbody ops. clear plan.
  pose proof (fold_res_unit_iff (check_around_publish (position is_publish ops)) length
    (λ pre op, ∃ s, check_around_publish (position is_publish ops) (length pre) op = Ok s)
    ops ltac:(done)) as H1. cbn [length] in H1.
  pose proof (fold_res_unit_iff check_firewall_first
    (λ pre, (existsb is_route_add pre, existsb is_route_removal pre))
    (λ pre op, ∃ s, check_firewall_first (existsb is_route_add pre, existsb is_route_removal pre) op
                    = Ok s) ops ltac:(done)) as H2. cbn [existsb] in H2.
  specialize (H1 ltac:(intros pre op s; rewrite length_app; simpl; unfold check_around_publish;
    destruct op as [[]|[]|]; repeat case_match; naive_solver lia)).
  specialize (H2 ltac:(intros pre op s; rewrite !existsb_app; simpl;
    destruct op as [[]|[]|]; simpl; repeat case_match; rewrite ?orb_false_r, ?orb_true_r;
    naive_solver)).
  transitivity ((∃ s, fold_res (check_around_publish (position is_publish ops)) O ops = Ok s)
    ∧ ∃ s, fold_res check_firewall_first (false, false) ops = Ok s).
  { split.
    - intros (s1 & Hs1 & (s2 & Hs2 & _)%bind_Ok)%bind_Ok. by split; eexists.
    - intros [[s1 ->] [s2 ->]]. done. }
  rewrite H1, H2. clear H1 H2. split.
  - intros [H1 H2]. split.
    + intros pre op post -> Ha. specialize (H1 pre op post eq_refl).
      apply check_around_iff in H1 as [H1 _]. by apply H1.
    + intros pre op post -> Hr. specialize (H1 pre op post eq_refl).
      apply check_around_iff in H1 as [_ H1]. by apply H1.
    + intros pre t post Heq. specialize (H2 pre _ post Heq). apply check_firewall_iff in H2.
      by eapply H2.
    + intros pre t post Heq. specialize (H2 pre _ post Heq). apply check_firewall_iff in H2.
      by eapply H2.
  - intros H. split.
    + intros pre op post Heq. rewrite Heq. apply check_around_iff. rewrite <- Heq. split.
      * by eapply wo_add.
      * by eapply wo_removal.
    + intros pre op post Heq. apply check_firewall_iff. split; intros t ->.
      * by eapply wo_allow.
      * by eapply wo_deny.
Qed.

(** *** Execution *)

(** A plan that makes exactly the changes from one access to another. *)
Record takes_to (ops : list TransitionOperation) (A B : Host) : Prop := {
  tt_nodup : NoDup ops;
  tt_allow t : Firewall (Allow t) ∈ ops ↔ t ∈ fw B ∧ t ∉ fw A;
  tt_deny t : Firewall (Deny t) ∈ ops ↔ t ∈ fw A ∧ t ∉ fw B;
  tt_add ip : Route (AddBypass ip) ∈ ops ↔ ip ∈ routes B ∧ ip ∉ routes A;
  tt_remove ip : Route (RemoveBypass ip) ∈ ops ↔ ip ∈ routes A ∧ ip ∉ routes B;
}.

Lemma exec_all_snoc pre op h : exec_all (pre ++ [op]) h = exec_op (exec_all pre h) op.
Proof. unfold exec_all. by rewrite foldl_app. Qed.

Lemma host_eq h1 h2 : fw h1 = fw h2 → routes h1 = routes h2 → h1 = h2.
Proof. destruct h1, h2. simpl. by intros -> ->. Qed.

(** Equations between operations as equations between their arguments. *)
Ltac op_eqs :=
  repeat match goal with
  | |- context [?x = ?y :> TransitionOperation] =>
      first [ assert ((x = y) ↔ False) as -> by (by split)
            | match x with
              | Firewall (_ ?a) => match y with Firewall (_ ?b) =>
                  assert ((x = y) ↔ a = b) as -> by naive_solver end
              | Route (_ ?a) => match y with Route (_ ?b) =>
                  assert ((x = y) ↔ a = b) as -> by naive_solver end
              end ]
  end.

Section Execution.
Context (ops : list TransitionOperation) (A B : Host).
Hypothesis Hops : takes_to ops A B.

Lemma prefix_elem pre post op : ops = pre ++ post → op ∈ pre → op ∈ ops.
Proof. intros ->. rewrite elem_of_app. tauto. Qed.

(** What an executed prefix leaves allowed and routed. *)
Lemma exec_prefix pre post : ops = pre ++ post →
  (∀ t, t ∈ fw (exec_all pre A) ↔
     (t ∈ fw A ∧ Firewall (Deny t) ∉ pre) ∨ Firewall (Allow t) ∈ pre)
  ∧ (∀ ip, ip ∈ routes (exec_all pre A) ↔
     (ip ∈ routes A ∧ Route (RemoveBypass ip) ∉ pre) ∨ Route (AddBypass ip) ∈ pre).
Proof.
  revert post. induction pre as [|op pre IH] using rev_ind; intros post Hp.
  { split; intros; simpl; rewrite !elem_of_nil; tauto. }
  rewrite <- app_assoc in Hp. destruct (IH _ Hp) as [IHf IHr]. rewrite exec_all_snoc.
  assert (op ∈ ops) as Hin by (rewrite Hp; set_solver).
  assert (∀ o, o ∈ pre → o ∈ ops) as Hsub by (intros; by eapply prefix_elem).
  split; [intros t|intros ip]; rewrite !elem_of_app, !list_elem_of_singleton.
  - specialize (IHf t). pose proof (tt_allow _ _ _ Hops t) as Ha.
    pose proof (tt_deny _ _ _ Hops t) as Hd. specialize (Hsub (Firewall (Allow t))).
    clear IHr IH Hops Hp. destruct op as [[u|u]|[u|u]|]; op_eqs; simpl;
      rewrite ?elem_of_union, ?elem_of_difference, ?elem_of_singleton;
      try destruct (decide (t = u)) as [->|]; tauto.
  - specialize (IHr ip). pose proof (tt_add _ _ _ Hops ip) as Ha.
    pose proof (tt_remove _ _ _ Hops ip) as Hd. specialize (Hsub (Route (AddBypass ip))).
    clear IHf IH Hops Hp. destruct op as [[u|u]|[u|u]|]; op_eqs; simpl;
      rewrite ?elem_of_union, ?elem_of_difference, ?elem_of_singleton;
      try destruct (decide (ip = u)) as [->|]; tauto.
Qed.

Lemma exec_whole : exec_all ops A = B.
Proof.
  destruct (exec_prefix ops [] ltac:(by rewrite app_nil_r)) as [Hf Hr].
  apply host_eq; apply set_eq; intros x.
  - rewrite Hf, (tt_deny _ _ _ Hops), (tt_allow _ _ _ Hops).
    destruct (decide (x ∈ fw A)), (decide (x ∈ fw B)); tauto.
  - rewrite Hr, (tt_remove _ _ _ Hops), (tt_add _ _ _ Hops).
    destruct (decide (x ∈ routes A)), (decide (x ∈ routes B)); tauto.
Qed.

Lemma exec_within pre post : ops = pre ++ post →
  fw (exec_all pre A) ⊆ fw A ∪ fw B ∧ routes (exec_all pre A) ⊆ routes A ∪ routes B.
Proof.
  intros Hp. destruct (exec_prefix pre post Hp) as [Hf Hr]. split; intros x.
  - rewrite Hf, elem_of_union. intros [[? _]|Ha%(prefix_elem _ _ _ Hp)]; [by left|].
    apply (tt_allow _ _ _ Hops) in Ha as [? _]. by right.
  - rewrite Hr, elem_of_union. intros [[? _]|Ha%(prefix_elem _ _ _ Hp)]; [by left|].
    apply (tt_add _ _ _ Hops) in Ha as [? _]. by right.
Qed.

Lemma undo_op pre op post : ops = pre ++ op :: post →
  exec_all (option_list (host_inverse op)) (exec_op (exec_all pre A) op) = exec_all pre A.
Proof.
  intros Hp. destruct (exec_prefix pre _ Hp) as [Hf Hr].
  assert (op ∈ ops) as Hin by (rewrite Hp; set_solver).
  assert (op ∉ pre) as Hnew.
  { pose proof (tt_nodup _ _ _ Hops) as Hnd. rewrite Hp in Hnd.
    apply NoDup_app in Hnd as (_ & Hnd & _). intros Hop. apply (Hnd _ Hop). set_solver. }
  destruct (exec_all pre A) as [f r]. cbn [fw routes] in *.
  destruct op as [[t|t]|[ip|ip]|]; simpl; f_equal.
  - apply (tt_allow _ _ _ Hops) in Hin. assert (t ∉ f) by (rewrite Hf; tauto). set_solver.
  - assert (t ∈ f) by (rewrite Hf; apply (tt_deny _ _ _ Hops) in Hin; tauto).
    apply set_eq. intros x. destruct (decide (x = t)); set_solver.
  - apply (tt_add _ _ _ Hops) in Hin. assert (ip ∉ r) by (rewrite Hr; tauto). set_solver.
  - assert (ip ∈ r) by (rewrite Hr; apply (tt_remove _ _ _ Hops) in Hin; tauto).
    apply set_eq. intros x. destruct (decide (x = ip)); set_solver.
Qed.

Lemma exec_rollback pre post : ops = pre ++ post →
  exec_all (rollback pre) (exec_all pre A) = A.
Proof.
  revert post. induction pre as [|op pre IH] using rev_ind; intros post Hp; [done|].
  rewrite <- app_assoc in Hp. unfold rollback. rewrite rev_app_distr. cbn [rev app].
  assert (omap host_inverse (op :: rev pre) = option_list (host_inverse op) ++ rollback pre) as ->
    by (simpl; by destruct (host_inverse op)).
  unfold exec_all at 1. rewrite foldl_app. rewrite exec_all_snoc.
  fold (exec_all (option_list (host_inverse op)) (exec_op (exec_all pre A) op)).
  rewrite (undo_op pre op post Hp). by eapply IH.
Qed.

Lemma publish_split (pre post : list TransitionOperation) op :
  op ∈ pre → ∃ p1 p2, pre = p1 ++ op :: p2 ∧ pre ++ post = p1 ++ op :: (p2 ++ post).
Proof.
  intros (p1 & p2 & ->)%list_elem_of_split. exists p1, p2. by rewrite <- app_assoc.
Qed.

(** While a well-ordered plan executes, the host keeps the access that was there before
    as long as the new snapshot is not published, and has the new access afterwards. *)
Lemma exec_safe pre post : well_ordered ops → ops = pre ++ post →
  (existsb is_publish pre = false → existsb is_publish ops = true → host_sub A (exec_all pre A))
  ∧ (existsb is_publish pre = true ∨ existsb is_publish ops = false →
     host_sub B (exec_all pre A)).
Proof.
  intros Hwo Hp. destruct (exec_prefix pre post Hp) as [Hf Hr]. split.
  - intros Hpre Hpub. assert (∀ op, op ∈ pre → is_removal op = false) as Hno.
    { intros op (p1 & p2 & -> & Heq)%(publish_split pre post). destruct (is_removal op) eqn:Ho; [|done].
      rewrite Heq in Hp. pose proof (wo_removal _ Hwo _ _ _ Hp Ho Hpub) as He.
      by rewrite existsb_app, He in Hpre. }
    split; intros x Hx; [apply Hf|apply Hr]; left; (split; [done|]);
      intros Hin; specialize (Hno _ Hin); done.
  - intros Hcase. assert (∀ op, op ∈ ops → is_add op = true → op ∈ pre) as Hadd.
    { intros op Hin Ho. rewrite Hp in Hin. apply elem_of_app in Hin as [?|Hin]; [done|].
      apply list_elem_of_split in Hin as (p1 & p2 & ->).
      destruct (wo_add _ Hwo (pre ++ p1) op p2) as [Hn Hy]; [by rewrite Hp, <- app_assoc|done|].
      rewrite existsb_app, orb_false_iff in Hn. destruct Hn as [Hn _].
      destruct Hcase as [Hc|Hc]; [congruence|].
      rewrite Hp, !existsb_app in Hc. cbn [existsb] in Hc. rewrite Hy, !orb_true_r in Hc. done. }
    split; intros x Hx; [apply Hf|apply Hr].
    + destruct (decide (x ∈ fw A)); [left|right].
      * split; [done|]. intros Hd%(prefix_elem _ _ _ Hp). apply (tt_deny _ _ _ Hops) in Hd. tauto.
      * apply Hadd; [|done]. by apply (tt_allow _ _ _ Hops).
    + destruct (decide (x ∈ routes A)); [left|right].
      * split; [done|]. intros Hd%(prefix_elem _ _ _ Hp). apply (tt_remove _ _ _ Hops) in Hd. tauto.
      * apply Hadd; [|done]. by apply (tt_add _ _ _ Hops).
Qed.
End Execution.

(** *** Plans from candidate maps *)

Lemma elem_of_in_order {K} `{Countable K} (R : relation K) `{∀ x y, Decision (R x y)}
    (s : gset K) x : x ∈ in_order R s ↔ x ∈ s.
Proof. unfold in_order. by rewrite merge_sort_Permutation, elem_of_elements. Qed.

Lemma NoDup_in_order {K} `{Countable K} (R : relation K) `{∀ x y, Decision (R x y)}
    (s : gset K) : NoDup (in_order R s).
Proof. unfold in_order. rewrite merge_sort_Permutation. apply NoDup_elements. Qed.

Lemma elem_of_missing_from {K A} `{Countable K} (R : relation K) `{∀ x y, Decision (R x y)}
    (m other : gmap K A) k : k ∈ missing_from R m other ↔ k ∈ dom m ∧ k ∉ dom other.
Proof.
  unfold missing_from. rewrite list_elem_of_filter, elem_of_in_order, not_elem_of_dom. tauto.
Qed.

Lemma NoDup_missing_from {K A} `{Countable K} (R : relation K) `{∀ x y, Decision (R x y)}
    (m other : gmap K A) : NoDup (missing_from R m other).
Proof. apply NoDup_filter, NoDup_in_order. Qed.

Lemma elem_of_access_fw logical keys t :
  t ∈ fw (access logical keys) ↔ ∃ k, k ∈ keys ∧ key_tuple logical k = Some t.
Proof.
  unfold access. cbn [fw]. rewrite elem_of_list_to_set, list_elem_of_omap.
  by setoid_rewrite elem_of_elements.
Qed.

Lemma elem_of_access_routes logical keys ip :
  ip ∈ routes (access logical keys) ↔ ∃ k, k ∈ keys ∧ ck_ip k = ip.
Proof.
  unfold access. cbn [routes]. rewrite elem_of_list_to_set, list_elem_of_fmap.
  setoid_rewrite elem_of_elements. naive_solver.
Qed.

Lemma access_mono logical keys1 keys2 : keys1 ⊆ keys2 →
  host_sub (access logical keys1) (access logical keys2).
Proof.
  intros Hs. split; intros x; rewrite ?elem_of_access_fw, ?elem_of_access_routes;
    intros (k & ? & ?); exists k; (split; [by apply Hs|done]).
Qed.

(** Every candidate belongs to a configured endpoint. *)
Definition known (logical : gmap Z LogicalState) (keys : gset CandidateKey) : Prop :=
  ∀ k, k ∈ keys → is_Some (logical !! ck_logical k).

Lemma dom_count_ref {K} `{Countable K} (k : K) (m : gmap K Z) :
  dom (count_ref k m) = {[k]} ∪ dom m.
Proof. apply dom_insert_L. Qed.

Lemma access_refs_Ok logical candidates : known logical (dom candidates) →
  ∃ ts ips, access_refs logical candidates = Ok (ts, ips)
    ∧ dom ts = fw (access logical (dom candidates))
    ∧ dom ips = routes (access logical (dom candidates)).
Proof.
  intros Hk. unfold access_refs. set (f := λ '(tuples, ips) key, _).
  assert (∀ l ts0 ips0, (∀ k, k ∈ l → is_Some (logical !! ck_logical k)) →
    ∃ ts ips, fold_res f (ts0, ips0) l = Ok (ts, ips)
      ∧ (∀ t, t ∈ dom ts ↔ t ∈ dom ts0 ∨ ∃ k, k ∈ l ∧ key_tuple logical k = Some t)
      ∧ (∀ ip, ip ∈ dom ips ↔ ip ∈ dom ips0 ∨ ∃ k, k ∈ l ∧ ck_ip k = ip)) as Hgen.
  { induction l as [|k l IH]; intros ts0 ips0 Hl.
    - exists ts0, ips0. split; [done|]. split; intros ?; set_solver.
    - destruct (Hl k ltac:(by left)) as [st Hst].
      destruct (IH (count_ref (LogicalEndpoint_tuple (spec st) (ck_ip k)) ts0)
        (count_ref (ck_ip k) ips0)) as (ts & ips & Hf & Ht & Hi); [intros; apply Hl; by right|].
      assert (key_tuple logical k = Some (LogicalEndpoint_tuple (spec st) (ck_ip k))) as Hkt
        by (unfold key_tuple; by rewrite Hst).
      exists ts, ips. split; [simpl; rewrite Hst; exact Hf|].
      split; intros x; [rewrite Ht|rewrite Hi]; rewrite dom_count_ref; set_solver. }
  destruct (Hgen (in_order key_le (dom candidates)) ∅ ∅) as (ts & ips & Hf & Ht & Hi).
  { intros k. rewrite elem_of_in_order. apply Hk. }
  exists ts, ips. split; [done|]. split; apply set_eq; intros x.
  - rewrite Ht, elem_of_access_fw, dom_empty_L. setoid_rewrite elem_of_in_order. set_solver.
  - rewrite Hi, elem_of_access_routes, dom_empty_L. setoid_rewrite elem_of_in_order. set_solver.
Qed.

(** The phase of an operation in a plan. *)
Definition phase (op : TransitionOperation) : Z :=
  match op with
  | Firewall (Allow _) => 0 | Route (AddBypass _) => 1 | PublishSnapshot _ _ => 2
  | Firewall (Deny _) => 3 | Route (RemoveBypass _) => 4
  end.

Lemma existsb_phase (f : TransitionOperation → bool) (P : Z → Prop) l :
  (∀ op, op ∈ l → P (phase op)) → (∀ op, P (phase op) → f op = false) → existsb f l = false.
Proof.
  intros Hl Hf. induction l as [|op l IH]; simpl; [done|].
  rewrite (Hf op), IH; [done|intros; apply Hl; by right|apply Hl; by left].
Qed.

Lemma phases_well_ordered ops : StronglySorted (λ a b, phase a ≤ phase b) ops →
  (existsb is_add ops = true → existsb is_publish ops = true) → well_ordered ops.
Proof.
  intros Hs Hadd.
  assert (∀ pre op post, ops = pre ++ op :: post →
    (∀ o, o ∈ pre → phase o ≤ phase op) ∧ (∀ o, o ∈ post → phase op ≤ phase o)) as Hsplit.
  { intros pre op post ->. apply StronglySorted_app in Hs as (H1 & _ & H2). split.
    - intros o Ho. apply (H1 o op Ho). by left.
    - intros o Ho. apply StronglySorted_inv in H2 as [_ H2]. by eapply Forall_forall in H2. }
  split.
  - intros pre op post Heq Ho. destruct (Hsplit _ _ _ Heq) as [Hpre _].
    assert (existsb is_publish pre = false) as Hn.
    { apply (existsb_phase _ (λ p, p ≤ 1)).
      - intros o Hin. specialize (Hpre o Hin). destruct op as [[]|[]|]; simpl in *; lia || done.
      - intros [[]|[]|]; simpl; lia || done. }
    split; [done|]. specialize (Hadd ltac:(rewrite Heq, existsb_app; simpl; by rewrite Ho, orb_true_r)).
    rewrite Heq, existsb_app in Hadd. simpl in Hadd. rewrite Hn in Hadd. simpl in Hadd.
    by destruct op as [[]|[]|].
  - intros pre op post Heq Ho Hpub. destruct (Hsplit _ _ _ Heq) as [_ Hpost].
    rewrite Heq, existsb_app in Hpub. simpl in Hpub.
    rewrite (existsb_phase is_publish (λ p, 3 ≤ p) post) in Hpub.
    + destruct op as [[]|[]|]; simpl in *; rewrite ?orb_false_r in Hpub; done.
    + intros o Hin. specialize (Hpost o Hin). destruct op as [[]|[]|]; simpl in *; lia || done.
    + intros [[]|[]|]; simpl; lia || done.
  - intros pre t post Heq. destruct (Hsplit _ _ _ Heq) as [Hpre _].
    apply (existsb_phase _ (λ p, p ≤ 0)); [done|]. intros [[]|[]|]; simpl; lia || done.
  - intros pre t post Heq. destruct (Hsplit _ _ _ Heq) as [Hpre _].
    apply (existsb_phase _ (λ p, p ≤ 3)); [done|]. intros [[]|[]|]; simpl; lia || done.
Qed.

Lemma sorted_const {A} (f : A → TransitionOperation) (c : Z) (l : list A) : (∀ a, phase (f a) = c) →
  StronglySorted (λ a b, phase a ≤ phase b) (f <$> l).
Proof.
  intros Hf. induction l as [|a l IH]; simpl; constructor; [done|].
  apply Forall_forall. intros o (b & -> & _)%list_elem_of_fmap. by rewrite !Hf.
Qed.

Lemma phase_fmap {A} (f : A → TransitionOperation) (c : Z) (l : list A) o : (∀ a, phase (f a) = c) →
  o ∈ f <$> l → phase o = c.
Proof. intros Hf (a & -> & _)%list_elem_of_fmap. apply Hf. Qed.

Lemma plan_phases ts ips pub ds rs : (∀ o, o ∈ pub → phase o = 2) → (length pub ≤ 1)%nat →
  StronglySorted (λ a b, phase a ≤ phase b)
    (((λ t, Firewall (Allow t)) <$> ts) ++ ((λ ip, Route (AddBypass ip)) <$> ips) ++ pub
     ++ ((λ t, Firewall (Deny t)) <$> ds) ++ ((λ ip, Route (RemoveBypass ip)) <$> rs)).
Proof.
  intros Hpub Hlen.
  assert (∀ o, o ∈ (λ t, Firewall (Allow t)) <$> ts → phase o = 0) as H0
    by (intros o; by apply phase_fmap).
  assert (∀ o, o ∈ (λ ip, Route (AddBypass ip)) <$> ips → phase o = 1) as H1
    by (intros o; by apply phase_fmap).
  assert (∀ o, o ∈ (λ t, Firewall (Deny t)) <$> ds → phase o = 3) as H3
    by (intros o; by apply phase_fmap).
  assert (∀ o, o ∈ (λ ip, Route (RemoveBypass ip)) <$> rs → phase o = 4) as H4
    by (intros o; by apply phase_fmap).
  repeat (apply StronglySorted_app_2);
    try first [by apply (sorted_const _ 0) | by apply (sorted_const _ 1)
              |by apply (sorted_const _ 3) | by apply (sorted_const _ 4)].
  - intros o1 o2 Ho1 Ho2. rewrite !elem_of_app in Ho2. rewrite (H0 _ Ho1).
    destruct Ho2 as [H|[H|[H|H]]]; [apply H1 in H|apply Hpub in H|apply H3 in H|apply H4 in H]; lia.
  - intros o1 o2 Ho1 Ho2. rewrite !elem_of_app in Ho2. rewrite (H1 _ Ho1).
    destruct Ho2 as [H|[H|H]]; [apply Hpub in H|apply H3 in H|apply H4 in H]; lia.
  - intros o1 o2 Ho1 Ho2. rewrite !elem_of_app in Ho2. rewrite (Hpub _ Ho1).
    destruct Ho2 as [H|H]; [apply H3 in H|apply H4 in H]; lia.
  - destruct pub as [|o [|o' pub]]; simpl in Hlen; [constructor|repeat constructor|lia].
  - intros o1 o2 Ho1 Ho2. rewrite (H3 _ Ho1), (H4 _ Ho2). lia.
Qed.

Lemma existsb_fmap {A B} (f : A → B) (g : B → bool) (l : list A) :
  existsb g (f <$> l) = existsb (g ∘ f) l.
Proof. induction l as [|a l IH]; [done|]. rewrite fmap_cons. cbn [existsb]. by rewrite IH. Qed.
Lemma existsb_const {A} (l : list A) : existsb (λ _, false) l = false.
Proof. induction l; done. Qed.

Lemma NoDup_plan ts ips pub ds rs : NoDup ts → NoDup ips → NoDup pub → NoDup ds → NoDup rs →
  (∀ o, o ∈ pub → phase o = 2) →
  NoDup (((λ t, Firewall (Allow t)) <$> ts) ++ ((λ ip, Route (AddBypass ip)) <$> ips) ++ pub
     ++ ((λ t, Firewall (Deny t)) <$> ds) ++ ((λ ip, Route (RemoveBypass ip)) <$> rs)).
Proof.
  intros Hts Hips Hpub Hds Hrs Hph.
  assert (∀ A (f : A → TransitionOperation) (l : list A), Inj (=) (=) f → NoDup l →
    NoDup (f <$> l)) as Hnd by (intros; by apply NoDup_fmap_2).
  assert (∀ (o : TransitionOperation) c1 c2 (l1 l2 : list TransitionOperation), (∀ o, o ∈ l1 → phase o = c1) → (∀ o, o ∈ l2 → phase o = c2) →
    c1 ≠ c2 → o ∈ l1 → o ∈ l2 → False) as Hdis.
  { intros o c1 c2 l1 l2 H1 H2 Hne Ho1 Ho2. apply Hne. by rewrite <- (H1 o Ho1), (H2 o Ho2). }
  repeat (apply NoDup_app; split_and!); try (apply Hnd; [by intros ? ? [=]|done]); try done.
  all: intros o Ho Ho2; rewrite ?elem_of_app in Ho2; destruct_or?.
  all: eapply (Hdis o); [..|exact Ho|eassumption]; try exact Hph;
    try (intros ?; first [by apply (phase_fmap _ 0)|by apply (phase_fmap _ 1)
                         |by apply (phase_fmap _ 3)|by apply (phase_fmap _ 4)]); lia.
Qed.

Lemma transition_plan_Ok logical old new g snap publish :
  known logical (dom old) → known logical (dom new) →
  ∃ plan, transition_plan logical old new g snap publish = Ok plan
    ∧ plan_snapshot plan = snap
    ∧ takes_to (operations plan) (access logical (dom old)) (access logical (dom new))
    ∧ existsb is_publish (operations plan) = publish
    ∧ (∀ from to, PublishSnapshot from to ∈ operations plan → from = g ∧ to = generation snap)
    ∧ (publish = true ∨ dom new ⊆ dom old → well_ordered (operations plan)).
Proof.
  intros Hko Hkn. unfold transition_plan.
  destruct (access_refs_Ok logical old Hko) as (ots & ois & -> & Hot & Hoi).
  destruct (access_refs_Ok logical new Hkn) as (nts & nis & -> & Hnt & Hni).
  cbn [mbind result_bind]. eexists. split; [done|]. cbn [operations plan_snapshot].
  set (pub := if publish then _ else _).
  assert (∀ o, o ∈ pub → phase o = 2) as Hph.
  { intros o. subst pub. destruct publish; [|by intros ?%not_elem_of_nil].
    by intros ->%list_elem_of_singleton. }
  assert (existsb is_publish pub = publish ∧ existsb is_add pub = false) as [Hpub Hpa]
    by (subst pub; by destruct publish).
  set (ops := _ ++ _).
  assert (existsb is_publish ops = publish) as Hpo.
  { subst ops. rewrite !existsb_app, !existsb_fmap, Hpub. unfold compose; simpl.
    rewrite !existsb_const. by destruct publish. }
  assert (∀ o, o ∈ ops ↔ (∃ t, o = Firewall (Allow t) ∧ t ∈ dom nts ∧ t ∉ dom ots)
    ∨ (∃ ip, o = Route (AddBypass ip) ∧ ip ∈ dom nis ∧ ip ∉ dom ois) ∨ o ∈ pub
    ∨ (∃ t, o = Firewall (Deny t) ∧ t ∈ dom ots ∧ t ∉ dom nts)
    ∨ (∃ ip, o = Route (RemoveBypass ip) ∧ ip ∈ dom ois ∧ ip ∉ dom nis)) as Hin.
  { intros o. subst ops. rewrite !elem_of_app, !list_elem_of_fmap.
    by setoid_rewrite elem_of_missing_from. }
  assert (∀ from to, PublishSnapshot from to ∈ pub → from = g ∧ to = generation snap) as Hmark.
  { intros from to. subst pub. destruct publish; [|by intros ?%not_elem_of_nil].
    by intros [= -> ->]%list_elem_of_singleton. }
  split_and!; [done| |done| |].
  2:{ intros from to [(? & [=] & _)|[(? & [=] & _)|[H|[(? & [=] & _)|(? & [=] & _)]]]]%Hin.
      by apply Hmark. }
  - split.
    + subst ops. apply NoDup_plan; try apply NoDup_missing_from; [|done].
      subst pub. destruct publish; [apply NoDup_singleton|constructor].
    + intros t. rewrite Hin, <- Hot, <- Hnt. clear -Hph.
      split; [|intros ?; left; by eexists].
      intros [(? & [= <-] & ?)|[(? & [=] & _)|[H|[(? & [=] & _)|(? & [=] & _)]]]]; [done|].
      by apply Hph in H.
    + intros t. rewrite Hin, <- Hot, <- Hnt. clear -Hph.
      split; [|intros ?; right; right; right; left; by eexists].
      intros [(? & [=] & ?)|[(? & [=] & _)|[H|[(? & [= <-] & ?)|(? & [=] & _)]]]]; [|done].
      by apply Hph in H.
    + intros ip. rewrite Hin, <- Hoi, <- Hni. clear -Hph.
      split; [|intros ?; right; left; by eexists].
      intros [(? & [=] & ?)|[(? & [= <-] & ?)|[H|[(? & [=] & _)|(? & [=] & _)]]]]; [done|].
      by apply Hph in H.
    + intros ip. rewrite Hin, <- Hoi, <- Hni. clear -Hph.
      split; [|intros ?; right; right; right; right; by eexists].
      intros [(? & [=] & ?)|[(? & [=] & _)|[H|[(? & [=] & _)|(? & [= <-] & ?)]]]]; [|done].
      by apply Hph in H.
  - intros Hcase. apply phases_well_ordered.
    + subst ops. apply plan_phases; [done|]. subst pub. destruct publish; simpl; lia.
    + rewrite Hpo. destruct Hcase as [->|Hsub]; [done|].
      destruct (access_mono logical _ _ Hsub) as [Hf Hr].
      subst ops. rewrite !existsb_app, !existsb_fmap, Hpa. unfold compose; simpl.
      rewrite !existsb_const, !orb_false_r.
      destruct (missing_from tuple_le nts ots) as [|t l] eqn:Hm.
      2:{ assert (t ∈ missing_from tuple_le nts ots) as Ht by (rewrite Hm; by left).
          apply elem_of_missing_from in Ht as [Ht Hn]. exfalso. apply Hn.
          rewrite Hot. apply Hf. by rewrite <- Hnt. }
      destruct (missing_from Z.le nis ois) as [|ip l] eqn:Hm'; [done|].
      assert (ip ∈ missing_from Z.le nis ois) as Ht by (rewrite Hm'; by left).
      apply elem_of_missing_from in Ht as [Ht Hn]. exfalso. apply Hn.
      rewrite Hoi. apply Hr. by rewrite <- Hni.
Qed.

(** *** Snapshots *)

Lemma map_res_Ok {E A B} (f : A → result E B) l bs :
  map_res f l = Ok bs ↔ Forall2 (λ a b, f a = Ok b) l bs.
Proof.
  revert bs. induction l as [|a l IH]; intros bs; simpl.
  - split; [intros [= <-]; constructor|]. by intros ->%Forall2_nil_inv_l.
  - rewrite bind_Ok. setoid_rewrite bind_Ok. split.
    + intros (b & Hb & bs' & Hbs & [= <-]). constructor; [done|]. by apply IH.
    + intros (b & bs' & Hb & Hbs%IH & ->)%Forall2_cons_inv_l. exists b. split; [done|]. by exists bs'.
Qed.

Lemma map_res_total {E A B} (f : A → result E B) l :
  (∀ a, a ∈ l → ∃ b, f a = Ok b) → ∃ bs, map_res f l = Ok bs.
Proof.
  induction l as [|a l IH]; intros Hl; simpl; [by eexists|].
  destruct (Hl a ltac:(by left)) as [b ->]. destruct IH as [bs ->]; [|by eexists].
  intros; apply Hl; by right.
Qed.

Lemma map_res_ext {E A B} (f g : A → result E B) l :
  (∀ a, a ∈ l → f a = g a) → map_res f l = map_res g l.
Proof.
  induction l as [|a l IH]; intros Hl; simpl; [done|].
  rewrite (Hl a ltac:(by left)), IH; [done|]. intros; apply Hl; by right.
Qed.

(** What an endpoint's configuration fixes; queries and schedules do not touch it. *)
Definition specs (logical : gmap Z LogicalState) : gmap Z LogicalEndpoint := spec <$> logical.

Lemma specs_lookup l1 l2 i st : specs l1 = specs l2 → l1 !! i = Some st →
  ∃ st', l2 !! i = Some st' ∧ spec st' = spec st.
Proof.
  intros Hs Hi. assert (specs l2 !! i = Some (spec st)) as H
    by (rewrite <- Hs; unfold specs; by rewrite lookup_fmap, Hi).
  unfold specs in H. rewrite lookup_fmap in H. apply fmap_Some in H as (st' & ? & ?). by exists st'.
Qed.

Lemma specs_None l1 l2 i : specs l1 = specs l2 → l1 !! i = None → l2 !! i = None.
Proof.
  intros Hs Hi. destruct (l2 !! i) as [st|] eqn:H; [|done].
  destruct (specs_lookup l2 l1 i st) as (? & ? & _); [done|done|]. congruence.
Qed.

Lemma dial_candidate_specs l1 l2 k : specs l1 = specs l2 → dial_candidate l1 k = dial_candidate l2 k.
Proof.
  intros Hs. unfold dial_candidate. destruct (l1 !! ck_logical k) as [st|] eqn:H1.
  - destruct (specs_lookup _ _ _ _ Hs H1) as (st' & -> & He). simpl. by rewrite He.
  - by rewrite (specs_None _ _ _ Hs H1).
Qed.

Lemma access_specs l1 l2 keys : specs l1 = specs l2 → access l1 keys = access l2 keys.
Proof.
  intros Hs. unfold access. f_equal. f_equal. apply list_omap_ext.
  apply Forall_Forall2_diag, Forall_true. intros k. unfold key_tuple.
  destruct (l1 !! ck_logical k) as [st|] eqn:H1.
  - destruct (specs_lookup _ _ _ _ Hs H1) as (st' & -> & He). simpl. by rewrite He.
  - by rewrite (specs_None _ _ _ Hs H1).
Qed.

Lemma known_specs l1 l2 keys : specs l1 = specs l2 → known l1 keys → known l2 keys.
Proof.
  intros Hs Hk k [st Hst]%Hk. destruct (specs_lookup _ _ _ _ Hs Hst) as (st' & -> & _). by eexists.
Qed.

Lemma build_snapshot_ext g l1 l2 c1 c2 :
  specs l1 = specs l2 → dialable_keys c1 = dialable_keys c2 →
  build_snapshot g l1 c1 = build_snapshot g l2 c2.
Proof.
  intros Hs Hd. unfold build_snapshot. rewrite Hd.
  rewrite (map_res_ext _ (dial_candidate l2)); [done|]. intros. by apply dial_candidate_specs.
Qed.

Lemma build_snapshot_keys g logical c s : build_snapshot g logical c = Ok s →
  generation s = g ∧ dc_key <$> ds_candidates s = in_order key_le (dialable_keys c)
  ∧ ∀ d, d ∈ ds_candidates s → dial_candidate logical (dc_key d) = Ok d ∧ dc_key d ∈ dialable_keys c.
Proof.
  unfold build_snapshot. intros (l & Hl%map_res_Ok & [= <-])%bind_Ok. cbn [generation ds_candidates].
  split; [done|]. assert (∀ k d, dial_candidate logical k = Ok d → dc_key d = k) as Hdc.
  { unfold dial_candidate. by intros k d (st & _ & [= <-])%bind_Ok. }
  split.
  - clear -Hl Hdc. induction Hl as [|k d ks ds Hk _ IH]; [done|].
    by rewrite fmap_cons, IH, (Hdc _ _ Hk).
  - intros d Hd. apply list_elem_of_lookup in Hd as [i Hi].
    destruct (Forall2_lookup_r _ _ _ _ _ Hl Hi) as (k & Hk & Hkd).
    rewrite (Hdc _ _ Hkd). split; [done|]. apply (elem_of_in_order key_le).
    by apply list_elem_of_lookup_2 in Hk.
Qed.

Lemma build_snapshot_total g logical c : known logical (dialable_keys c) →
  ∃ s, build_snapshot g logical c = Ok s.
Proof.
  intros Hk. unfold build_snapshot. destruct (map_res_total (dial_candidate logical)
    (in_order key_le (dialable_keys c))) as [l ->]; [|by eexists].
  intros k [st Hst]%elem_of_in_order%Hk. unfold dial_candidate. rewrite Hst. by eexists.
Qed.

(** Snapshots over the same configuration agree exactly when the dialable keys do. *)
Lemma build_snapshot_same g1 g2 logical c1 c2 s1 s2 :
  build_snapshot g1 logical c1 = Ok s1 → build_snapshot g2 logical c2 = Ok s2 →
  ds_candidates s1 = ds_candidates s2 ↔ dialable_keys c1 = dialable_keys c2.
Proof.
  intros H1 H2. split.
  - intros Heq. apply build_snapshot_keys in H1 as (_ & H1 & _).
    apply build_snapshot_keys in H2 as (_ & H2 & _). apply set_eq. intros k.
    rewrite <- !(elem_of_in_order key_le), <- H1, <- H2. by rewrite Heq.
  - intros Heq. unfold build_snapshot in H1, H2. rewrite Heq in H1.
    apply bind_Ok in H1 as (l1 & Hl1 & [= <-]). apply bind_Ok in H2 as (l2 & Hl2 & [= <-]).
    simpl. congruence.
Qed.

Lemma elem_of_dialable k (c : gmap CandidateKey CandidateState) :
  k ∈ dialable_keys c ↔ ∃ cs, c !! k = Some cs ∧ dialable cs = true.
Proof.
  unfold dialable_keys. rewrite elem_of_dom. split.
  - intros [cs [? ?]%map_lookup_filter_Some]. by exists cs.
  - intros (cs & ? & ?). exists cs. by apply map_lookup_filter_Some.
Qed.

Lemma dialable_sub (c : gmap CandidateKey CandidateState) : dialable_keys c ⊆ dom c.
Proof. intros k (cs & Hc & _)%elem_of_dialable. by apply elem_of_dom_2 in Hc. Qed.
