(* ===== verification/Endpoint.v ===== *)
(** * Live endpoints: the coordinator

    Models [EndpointCoordinator] of [shadowpipe-core/src/endpoint.rs]: construction from
    configured endpoints and seeds, DNS queries and observations, authority rehydration,
    leases, and the two-phase transactions (prepare, then commit or abort) by which all of
    them change the state.  [Sys] is the coordinator together with the transactions that
    are prepared but not finished, so that their interleavings are explicit.  The theorems
    show that no DNS answer leaves the signed authority, that a transaction only commits
    on the very state it was prepared from, that executing its plan never cuts off a
    published or leased endpoint, and that no internal check of the code ever fires. *)

From S2P Require Import Prelude PolicyVerify EndpointPlan.

Inductive ResolutionObservation :=
| Positive (records : list (Z * Z))
| NxDomain (negative_ttl_secs : option Z)
| NoData (negative_ttl_secs : option Z)
| TransientFailure.

Record QueryStamp := mkQueryStamp { qs_logical : Z; qs_sequence : Z }.
Record SeedCandidate := mkSeedCandidate { seed_logical : Z; seed_ip : Z }.

Inductive ObservationDisposition :=
| ObsApplied
| RetainedNegative
| RetainedEmptyPositive
| RejectedOutsideAuthority (ips : list Z)
| RejectedAddressPolicy (ips : list Z)
| IgnoredOutOfOrder.

Record ObservationResult := mkObservationResult {
  disposition : ObservationDisposition;
  or_plan : TransitionPlan;
  or_next_refresh_at_ms : Z;
}.

Record EndpointLease := mkEndpointLease { lease_id : Z; lease_key : CandidateKey }.

Record EndpointCoordinator := mkEndpointCoordinator {
  revision : Z;
  logical : gmap Z LogicalState;
  candidates : gmap CandidateKey CandidateState;
  leases : gmap Z CandidateKey;
  next_lease_id : Z;
  snapshot : DialSnapshot;
}.

Definition set_revision (c : EndpointCoordinator) (r : Z) : EndpointCoordinator :=
  mkEndpointCoordinator r (logical c) (candidates c) (leases c) (next_lease_id c) (snapshot c).
Definition set_logical (c : EndpointCoordinator) (l : gmap Z LogicalState) : EndpointCoordinator :=
  mkEndpointCoordinator (revision c) l (candidates c) (leases c) (next_lease_id c) (snapshot c).
Definition set_candidates (c : EndpointCoordinator) (m : gmap CandidateKey CandidateState)
    (s : DialSnapshot) : EndpointCoordinator :=
  mkEndpointCoordinator (revision c) (logical c) m (leases c) (next_lease_id c) s.

(** ** Construction *)

(** [trim_end_matches('.')] *)
Definition trim_end_dots (s : bytes) : bytes :=
  rev ((fix drop_dots l := match l with b :: l' => if is_dot b then drop_dots l' else l | [] => [] end)
         (rev s)).

Definition validate_hostname (hostname : bytes) : result EndpointError () :=
  let hostname := trim_end_dots hostname in
  if bool_decide (hostname = []) then Err Refused else
  if 253 <? len hostname then Err Refused else
  fold_res (λ _ label,
      if bool_decide (label = []) then Err Refused else
      if 63 <? len label then Err Refused else Ok ())
    () (split_dot hostname).

Definition add_endpoint (now_ms : Z) (m : gmap Z LogicalState) (e : LogicalEndpoint)
  : result EndpointError (gmap Z LogicalState) :=
  _ ← validate_hostname (le_hostname e);
  if le_port e =? 0 then Err Refused else
  if negb (forallb (permits (le_address_policy e)) (addresses (le_authority e)))
  then Err Refused else
  if bool_decide (is_Some (m !! le_id e)) then Err Refused else
  Ok (<[le_id e := mkLogicalState e 0 0 0 (u64_saturating_add now_ms 5000)]> m).

Definition add_seed (logical : gmap Z LogicalState) (m : gmap CandidateKey CandidateState)
    (seed : SeedCandidate) : result EndpointError (gmap CandidateKey CandidateState) :=
  state ← ok_or (logical !! seed_logical seed) Refused;
  if bool_decide (seed_ip seed ∉ allowed (le_authority (spec state))) then Err Refused else
  if negb (permits (le_address_policy (spec state)) (seed_ip seed)) then Err Refused else
  Ok (<[mkCandidateKey (seed_logical seed) (seed_ip seed) := mkCandidateState None true 0]> m).

Definition EndpointCoordinator_new (endpoints : list LogicalEndpoint) (seeds : list SeedCandidate)
    (now_ms : Z) : result EndpointError EndpointCoordinator :=
  logical ← fold_res (add_endpoint now_ms) ∅ endpoints;
  if bool_decide (logical = ∅) then Err Refused else
  candidates ← fold_res (add_seed logical) ∅ seeds;
  if bool_decide (candidates = ∅) then Err Refused else
  snapshot ← build_snapshot 1 logical candidates;
  Ok (mkEndpointCoordinator 1 logical candidates ∅ 1 snapshot).

(** ** Queries and observations *)

Definition with_latest (st : LogicalState) (n : Z) : LogicalState :=
  mkLogicalState (spec st) n (last_applied_sequence st) (failure_streak st) (next_refresh_at_ms st).
Definition with_applied (st : LogicalState) (n : Z) : LogicalState :=
  mkLogicalState (spec st) (latest_query_sequence st) n (failure_streak st) (next_refresh_at_ms st).
Definition with_schedule (st : LogicalState) (streak next : Z) : LogicalState :=
  mkLogicalState (spec st) (latest_query_sequence st) (last_applied_sequence st) streak next.

Definition begin_query (c : EndpointCoordinator) (id : Z)
  : result EndpointError (EndpointCoordinator * QueryStamp) :=
  next_revision ← ok_or (u64_checked_add (revision c) 1) Refused;
  state ← ok_or (logical c !! id) Refused;
  sequence ← ok_or (u64_checked_add (latest_query_sequence state) 1) Refused;
  Ok (set_revision (set_logical c (<[id := with_latest state sequence]> (logical c))) next_revision,
      mkQueryStamp id sequence).

(** Reschedule an endpoint without touching its candidates; the snapshot stays. *)
Definition reschedule (c : EndpointCoordinator) (id streak delay now_ms : Z)
    (d : ObservationDisposition) : result EndpointError (EndpointCoordinator * ObservationResult) :=
  state ← ok_or (logical c !! id) Panicked;
  let next := u64_saturating_add now_ms delay in
  Ok (set_logical c (<[id := with_schedule state streak next]> (logical c)),
      mkObservationResult d (unchanged (snapshot c)) next).

Definition retain_with_negative_schedule (c : EndpointCoordinator) (id now_ms entropy : Z)
    (ttl : option Z) (d : ObservationDisposition)
  : result EndpointError (EndpointCoordinator * ObservationResult) :=
  let ttl := clamp (default DEFAULT_NEGATIVE_TTL_SECS ttl) MIN_TTL_SECS MAX_NEGATIVE_TTL_SECS in
  reschedule c id 0 (jittered_ttl_ms ttl entropy) now_ms d.

Definition reject_observation (c : EndpointCoordinator) (id now_ms entropy : Z)
    (d : ObservationDisposition) : result EndpointError (EndpointCoordinator * ObservationResult) :=
  state ← ok_or (logical c !! id) Panicked;
  let streak := u32_saturating_add (failure_streak state) 1 in
  reschedule c id streak (retry_delay_ms streak entropy) now_ms d.

(** The smallest TTL of every address. *)
Definition dedup_records (records : list (Z * Z)) : gmap Z Z :=
  foldl (λ m '(ip, ttl), <[ip := match m !! ip with Some t => Z.min t ttl | None => ttl end]> m)
    ∅ records.

(** Mark an observed address dialable for its TTL. *)
Definition refresh_candidate (id now_ms : Z) (dedup : gmap Z Z)
    (m : gmap CandidateKey CandidateState) (ip : Z) : gmap CandidateKey CandidateState :=
  let ttl := clamp (default 0 (dedup !! ip)) MIN_TTL_SECS MAX_TTL_SECS in
  let key := mkCandidateKey id ip in
  let candidate := default (mkCandidateState None true 0) (m !! key) in
  <[key := mkCandidateState (Some (u64_saturating_add now_ms (u64_saturating_mul ttl 1000))) true
             (cs_leases candidate)]> m.

Definition depublish (m : gmap CandidateKey CandidateState) (key : CandidateKey)
  : gmap CandidateKey CandidateState :=
  alter (λ cs, mkCandidateState (valid_until_ms cs) false (cs_leases cs)) key m.

Definition observed_candidates (id now_ms : Z) (dedup : gmap Z Z)
    (m : gmap CandidateKey CandidateState) : gmap CandidateKey CandidateState :=
  let m := foldl (refresh_candidate id now_ms dedup) m (in_order Z.le (dom dedup)) in
  let existing_keys := filter (λ key, ck_logical key = id ∧ ck_ip key ∉ dom dedup)
                         (in_order key_le (dom m)) in
  foldl depublish m existing_keys.

Definition min_ttl (dedup : gmap Z Z) : Z :=
  match snd <$> map_to_list dedup with
  | [] => MIN_TTL_SECS
  | t :: ts => foldl Z.min t ts
  end.

(** [apply_positive] from the updated candidates on. *)
Definition publish_observation (c : EndpointCoordinator) (id now_ms entropy : Z)
    (dedup : gmap Z Z) (updated : gmap CandidateKey CandidateState)
  : result EndpointError (EndpointCoordinator * ObservationResult) :=
  state ← ok_or (logical c !! id) Panicked;
  let next := u64_saturating_add now_ms (jittered_ttl_ms (min_ttl dedup) entropy) in
  let logical' := <[id := with_schedule state 0 next]> (logical c) in
  let old_snapshot := snapshot c in
  view ← build_snapshot (generation old_snapshot) logical' updated;
  let changed := negb (bool_decide (ds_candidates old_snapshot = ds_candidates view)) in
  let new_snapshot := if changed
    then mkDialSnapshot (u64_saturating_add (generation old_snapshot) 1) (ds_candidates view)
    else old_snapshot in
  plan ← transition_plan logical' (candidates c) updated (generation old_snapshot) new_snapshot
           changed;
  _ ← validate_order plan;
  Ok (set_candidates (set_logical c logical') updated new_snapshot,
      mkObservationResult ObsApplied plan next).

Definition apply_positive (c : EndpointCoordinator) (id : Z) (records : list (Z * Z))
    (now_ms entropy : Z) : result EndpointError (EndpointCoordinator * ObservationResult) :=
  state ← ok_or (logical c !! id) Panicked;
  let dedup := dedup_records records in
  let ips := in_order Z.le (dom dedup) in
  let outside := filter (λ ip, ip ∉ allowed (le_authority (spec state))) ips in
  if bool_decide (outside ≠ [])
  then reject_observation c id now_ms entropy (RejectedOutsideAuthority outside) else
  let rejected := filter (λ ip, permits (le_address_policy (spec state)) ip = false) ips in
  if bool_decide (rejected ≠ [])
  then reject_observation c id now_ms entropy (RejectedAddressPolicy rejected) else
  let updated := observed_candidates id now_ms dedup (candidates c) in
  if bool_decide (dialable_keys updated = ∅)
  then retain_with_negative_schedule c id now_ms entropy None RetainedEmptyPositive else
  publish_observation c id now_ms entropy dedup updated.

Definition apply_observation (c : EndpointCoordinator) (stamp : QueryStamp)
    (observation : ResolutionObservation) (now_ms entropy : Z)
  : result EndpointError (EndpointCoordinator * ObservationResult) :=
  let id := qs_logical stamp in
  state ← ok_or (logical c !! id) Refused;
  if negb (qs_sequence stamp =? latest_query_sequence state)
     || (qs_sequence stamp <=? last_applied_sequence state)
  then Ok (c, mkObservationResult IgnoredOutOfOrder (unchanged (snapshot c))
                (next_refresh_at_ms state)) else
  let c := set_logical c (<[id := with_applied state (qs_sequence stamp)]> (logical c)) in
  match observation with
  | Positive [] => retain_with_negative_schedule c id now_ms entropy None RetainedEmptyPositive
  | Positive records => apply_positive c id records now_ms entropy
  | NxDomain ttl | NoData ttl =>
      retain_with_negative_schedule c id now_ms entropy ttl RetainedNegative
  | TransientFailure => reject_observation c id now_ms entropy RetainedNegative
  end.

(** ** Transactions *)

Record PreparedObservation := mkPreparedObservation {
  po_base_revision : Z;
  po_projected : EndpointCoordinator;
  po_result : ObservationResult;
}.

Definition prepare_observation (c : EndpointCoordinator) (stamp : QueryStamp)
    (observation : ResolutionObservation) (now_ms entropy : Z)
  : result EndpointError PreparedObservation :=
  '(projected, r) ← apply_observation c stamp observation now_ms entropy;
  next ← ok_or (u64_checked_add (revision c) 1) Refused;
  Ok (mkPreparedObservation (revision c) (set_revision projected next) r).

Definition commit_observation (c : EndpointCoordinator) (prepared : PreparedObservation)
  : result EndpointError (EndpointCoordinator * ObservationResult) :=
  if negb (revision c =? po_base_revision prepared) then Err Refused else
  Ok (po_projected prepared, po_result prepared).

Definition abort_observation (c : EndpointCoordinator) (prepared : PreparedObservation)
  : result EndpointError () :=
  if negb (revision c =? po_base_revision prepared) then Err Refused else Ok ().

Record AuthorityRehydrationResult := mkAuthorityRehydrationResult {
  revived_candidates : list CandidateKey;
  rr_plan : TransitionPlan;
}.
Record PreparedAuthorityRehydration := mkPreparedAuthorityRehydration {
  pa_base_revision : Z;
  pa_projected : EndpointCoordinator;
  pa_result : AuthorityRehydrationResult;
}.

(** Every address of every configured authority. *)
Definition authority_keys (l : gmap Z LogicalState) : list CandidateKey :=
  flat_map (λ id, match l !! id with
                  | Some state => mkCandidateKey id <$> addresses (le_authority (spec state))
                  | None => []
                  end) (in_order Z.le (dom l)).

Definition revive (st : gmap CandidateKey CandidateState * list CandidateKey) (key : CandidateKey)
  : gmap CandidateKey CandidateState * list CandidateKey :=
  let '(m, revived) := st in
  match m !! key with
  | Some candidate =>
      if negb (dialable candidate)
      then (<[key := mkCandidateState None true (cs_leases candidate)]> m, revived ++ [key])
      else st
  | None => (<[key := mkCandidateState None true 0]> m, revived ++ [key])
  end.

Definition prepare_authority_rehydration (c : EndpointCoordinator)
  : result EndpointError PreparedAuthorityRehydration :=
  let '(updated, revived) := foldl revive (candidates c, []) (authority_keys (logical c)) in
  let revived := merge_sort key_le revived in
  let old_snapshot := snapshot c in
  if bool_decide (revived = []) then
    Ok (mkPreparedAuthorityRehydration (revision c) (set_candidates c updated old_snapshot)
          (mkAuthorityRehydrationResult revived (unchanged old_snapshot)))
  else
  view ← build_snapshot (generation old_snapshot) (logical c) updated;
  if bool_decide (ds_candidates view = ds_candidates old_snapshot) then Err Refused else
  next_generation ← ok_or (u64_checked_add (generation old_snapshot) 1) Refused;
  let next_snapshot := mkDialSnapshot next_generation (ds_candidates view) in
  plan ← transition_plan (logical c) (candidates c) updated (generation old_snapshot)
           next_snapshot true;
  if negb (forallb (λ op, negb (is_removal op)) (operations plan)) then Err Refused else
  _ ← validate_order plan;
  next ← ok_or (u64_checked_add (revision c) 1) Refused;
  Ok (mkPreparedAuthorityRehydration (revision c)
        (set_revision (set_candidates c updated next_snapshot) next)
        (mkAuthorityRehydrationResult revived plan)).

Definition commit_authority_rehydration (c : EndpointCoordinator)
    (prepared : PreparedAuthorityRehydration)
  : result EndpointError (EndpointCoordinator * AuthorityRehydrationResult) :=
  if negb (revision c =? pa_base_revision prepared) then Err Refused else
  Ok (pa_projected prepared, pa_result prepared).

Definition abort_authority_rehydration (c : EndpointCoordinator)
    (prepared : PreparedAuthorityRehydration) : result EndpointError () :=
  if negb (revision c =? pa_base_revision prepared) then Err Refused else Ok ().

(** ** Leases and retirement *)

Definition u32_checked_add (a b : Z) : option Z := if a + b <? 2 ^ 32 then Some (a + b) else None.
Definition u32_checked_sub (a b : Z) : option Z := if b <=? a then Some (a - b) else None.

Definition acquire (c : EndpointCoordinator) (key : CandidateKey)
  : result EndpointError (EndpointCoordinator * EndpointLease) :=
  next_revision ← ok_or (u64_checked_add (revision c) 1) Refused;
  next_id ← ok_or (u64_checked_add (next_lease_id c) 1) Refused;
  if bool_decide (is_Some (leases c !! next_lease_id c)) then Err Refused else
  candidate ← ok_or (candidates c !! key) Refused;
  if negb (dialable candidate) then Err Refused else
  count ← ok_or (u32_checked_add (cs_leases candidate) 1) Refused;
  let id := next_lease_id c in
  Ok (mkEndpointCoordinator next_revision (logical c)
        (<[key := mkCandidateState (valid_until_ms candidate) (dialable candidate) count]>
           (candidates c))
        (<[id := key]> (leases c)) next_id (snapshot c),
      mkEndpointLease id key).

Record PreparedLeaseRelease := mkPreparedLeaseRelease {
  pl_base_revision : Z;
  pl_projected : EndpointCoordinator;
  pl_plan : TransitionPlan;
}.

Definition apply_release (c : EndpointCoordinator) (lease : EndpointLease)
  : result EndpointError (EndpointCoordinator * TransitionPlan) :=
  key ← ok_or (leases c !! lease_id lease) Refused;
  if bool_decide (key ≠ lease_key lease) then Err Refused else
  candidate ← ok_or (candidates c !! key) Refused;
  count ← ok_or (u32_checked_sub (cs_leases candidate) 1) Refused;
  let updated :=
    if (count =? 0) && negb (dialable candidate) then delete key (candidates c)
    else <[key := mkCandidateState (valid_until_ms candidate) (dialable candidate) count]>
           (candidates c) in
  plan ← transition_plan (logical c) (candidates c) updated (generation (snapshot c))
           (snapshot c) false;
  _ ← validate_order plan;
  Ok (mkEndpointCoordinator (revision c) (logical c) updated (delete (lease_id lease) (leases c))
        (next_lease_id c) (snapshot c), plan).

Definition prepare_release (c : EndpointCoordinator) (lease : EndpointLease)
  : result EndpointError PreparedLeaseRelease :=
  '(projected, plan) ← apply_release c lease;
  next ← ok_or (u64_checked_add (revision c) 1) Refused;
  Ok (mkPreparedLeaseRelease (revision c) (set_revision projected next) plan).

Definition commit_release (c : EndpointCoordinator) (prepared : PreparedLeaseRelease)
  : result EndpointError (EndpointCoordinator * TransitionPlan) :=
  if negb (revision c =? pl_base_revision prepared) then Err Refused else
  Ok (pl_projected prepared, pl_plan prepared).

Definition abort_release (c : EndpointCoordinator) (prepared : PreparedLeaseRelease)
  : result EndpointError () :=
  if negb (revision c =? pl_base_revision prepared) then Err Refused else Ok ().

Record PreparedRetirement := mkPreparedRetirement {
  pr_base_revision : Z;
  pr_projected : EndpointCoordinator;
  pr_plan : TransitionPlan;
}.

Definition prepare_retirement (c : EndpointCoordinator)
  : result EndpointError (option PreparedRetirement) :=
  let updated := filter (λ kc, dialable kc.2 = true ∨ cs_leases kc.2 ≠ 0) (candidates c) in
  if bool_decide (size updated = size (candidates c)) then Ok None else
  plan ← transition_plan (logical c) (candidates c) updated (generation (snapshot c))
           (snapshot c) false;
  _ ← validate_order plan;
  next ← ok_or (u64_checked_add (revision c) 1) Refused;
  Ok (Some (mkPreparedRetirement (revision c)
              (set_revision (set_candidates c updated (snapshot c)) next) plan)).

Definition commit_retirement (c : EndpointCoordinator) (prepared : PreparedRetirement)
  : result EndpointError (EndpointCoordinator * TransitionPlan) :=
  if negb (revision c =? pr_base_revision prepared) then Err Refused else
  Ok (pr_projected prepared, pr_plan prepared).

Definition abort_retirement (c : EndpointCoordinator) (prepared : PreparedRetirement)
  : result EndpointError () :=
  if negb (revision c =? pr_base_revision prepared) then Err Refused else Ok ().

(** ** The invariant *)

(** A candidate is one of the addresses its endpoint's signed authority lists, and the
    endpoint's address policy permits it. *)
Definition in_authority (l : gmap Z LogicalState) (k : CandidateKey) : Prop :=
  ∃ st, l !! ck_logical k = Some st ∧ ck_ip k ∈ allowed (le_authority (spec st))
        ∧ permits (le_address_policy (spec st)) (ck_ip k) = true.

Definition lease_count (m : gmap Z CandidateKey) (k : CandidateKey) : Z :=
  Z.of_nat (size (filter (λ x, x.2 = k) m)).

Record coord_ok (c : EndpointCoordinator) : Prop := {
  co_policy id st ip : logical c !! id = Some st → ip ∈ allowed (le_authority (spec st)) →
    permits (le_address_policy (spec st)) ip = true;
  co_authority k : k ∈ dom (candidates c) → in_authority (logical c) k;
  co_snapshot : build_snapshot (generation (snapshot c)) (logical c) (candidates c) = Ok (snapshot c);
  co_dialable : dialable_keys (candidates c) ≠ ∅;
  co_leased id k : leases c !! id = Some k → k ∈ dom (candidates c);
  co_count k cs : candidates c !! k = Some cs → cs_leases cs = lease_count (leases c) k;
  co_fresh id k : leases c !! id = Some k → id < next_lease_id c;
}.

Lemma co_known c : coord_ok c → known (logical c) (dom (candidates c)).
Proof. intros Hc k Hk. destruct (co_authority _ Hc k Hk) as (st & ? & _). by eexists. Qed.

Lemma in_authority_specs l1 l2 k : specs l1 = specs l2 → in_authority l1 k → in_authority l2 k.
Proof.
  intros Hs (st & Hst & ? & ?). destruct (specs_lookup _ _ _ _ Hs Hst) as (st' & ? & He).
  exists st'. by rewrite He.
Qed.

Lemma specs_insert l id st st' : l !! id = Some st → spec st' = spec st →
  specs (<[id := st']> l) = specs l.
Proof.
  intros Hl Hs. unfold specs. rewrite fmap_insert, Hs. apply insert_id. by rewrite lookup_fmap, Hl.
Qed.

Lemma lease_count_zero m k : (∀ id, m !! id ≠ Some k) → lease_count m k = 0.
Proof.
  intros Hm. unfold lease_count. assert (filter (λ x, x.2 = k) m = ∅) as ->.
  { apply map_empty. intros id. apply map_lookup_filter_None. right. intros k' Hid Heq.
    simpl in Heq. subst. by eapply Hm. }
  by rewrite map_size_empty.
Qed.

Lemma lease_count_insert m id k k' : m !! id = None →
  lease_count (<[id := k]> m) k' = lease_count m k' + (if decide (k = k') then 1 else 0).
Proof.
  intros Hm. unfold lease_count. rewrite map_filter_insert; simpl.
  destruct (decide (k = k')).
  - rewrite map_size_insert_None; [lia|]. apply map_lookup_filter_None. by left.
  - rewrite (delete_id m) by done. lia.
Qed.

Lemma lease_count_delete m id k k' : m !! id = Some k →
  lease_count (delete id m) k' = lease_count m k' - (if decide (k = k') then 1 else 0).
Proof.
  intros Hm. rewrite <- (insert_delete_id m id k Hm) at 2.
  rewrite lease_count_insert by apply lookup_delete_eq. lia.
Qed.

(** A change of the configuration's bookkeeping and of the candidates, without leases. *)
Lemma coord_ok_update c l' m' s' r : coord_ok c → specs l' = specs (logical c) →
  (∀ k, k ∈ dom m' → in_authority (logical c) k) →
  (∀ k cs', m' !! k = Some cs' → cs_leases cs' = lease_count (leases c) k) →
  (∀ id k, leases c !! id = Some k → k ∈ dom m') →
  dialable_keys m' ≠ ∅ → build_snapshot (generation s') l' m' = Ok s' →
  coord_ok (mkEndpointCoordinator r l' m' (leases c) (next_lease_id c) s').
Proof.
  intros Hc Hs Hauth Hcount Hleased Hd Hsnap.
  split; cbn [logical candidates leases snapshot next_lease_id]; try done.
  - intros id st ip Hst Hip. destruct (specs_lookup _ _ _ _ Hs Hst) as (st' & Hst' & He).
    rewrite <- He in *. by eapply co_policy.
  - intros k Hk. eapply in_authority_specs; [symmetry; exact Hs|]. by apply Hauth.
  - intros id k. by apply co_fresh.
Qed.

Lemma coord_ok_logical c l' r : coord_ok c → specs l' = specs (logical c) →
  coord_ok (mkEndpointCoordinator r l' (candidates c) (leases c) (next_lease_id c) (snapshot c)).
Proof.
  intros Hc Hs. apply coord_ok_update; try done; try apply Hc.
  rewrite (build_snapshot_ext _ _ (logical c) _ (candidates c)); [apply Hc|done|done].
Qed.

(** What a prepared transaction promises: the projected state is sound, the plan takes the
    host from the old access to the new one in a safe order, and publishes the new
    snapshot.  A stage only adds; the other transitions only remove and publish nothing. *)
Record good_transition (stage : bool) (c c' : EndpointCoordinator) (plan : TransitionPlan)
  : Prop := {
  gt_ok : coord_ok c';
  gt_specs : specs (logical c') = specs (logical c);
  gt_takes : takes_to (operations plan) (access (logical c) (dom (candidates c)))
               (access (logical c) (dom (candidates c')));
  gt_order : well_ordered (operations plan);
  gt_publish : existsb is_publish (operations plan) = false → snapshot c' = snapshot c;
  gt_snapshot : plan_snapshot plan = snapshot c';
  gt_marker from to : PublishSnapshot from to ∈ operations plan →
    from = generation (snapshot c) ∧ to = generation (snapshot c')
    ∧ to = u64_saturating_add from 1;
  gt_stage : if stage then dom (candidates c) ⊆ dom (candidates c')
    else dom (candidates c') ⊆ dom (candidates c) ∧ existsb is_publish (operations plan) = false;
  gt_leases id k : leases c' !! id = Some k → leases c !! id = Some k;
}.

Lemma takes_to_nil h : takes_to [] h h.
Proof. split; [constructor|..]; intros; rewrite elem_of_nil; tauto. Qed.

Lemma well_ordered_nil : well_ordered [].
Proof. split; by intros [] ? ? ?. Qed.

Lemma unchanged_transition stage c l' r : coord_ok c → specs l' = specs (logical c) →
  good_transition stage c
    (mkEndpointCoordinator r l' (candidates c) (leases c) (next_lease_id c) (snapshot c))
    (unchanged (snapshot c)).
Proof.
  intros Hc Hs. split; try done.
  - by apply coord_ok_logical.
  - apply takes_to_nil.
  - apply well_ordered_nil.
  - intros from to H. by apply not_elem_of_nil in H.
  - by destruct stage.
Qed.

(** ** Observations *)

Definition lease_of (m : gmap CandidateKey CandidateState) (k : CandidateKey) : Z :=
  match m !! k with Some cs => cs_leases cs | None => 0 end.

Lemma lease_of_count c k : coord_ok c → lease_of (candidates c) k = lease_count (leases c) k.
Proof.
  intros Hc. unfold lease_of. destruct (candidates c !! k) as [cs|] eqn:Hk; [by eapply co_count|].
  symmetry. apply lease_count_zero. intros id Hid. apply (co_leased _ Hc) in Hid.
  by apply not_elem_of_dom in Hk.
Qed.

Lemma refresh_lookup id now dd m ip k :
  refresh_candidate id now dd m ip !! k
  = if decide (k = mkCandidateKey id ip)
    then Some (mkCandidateState (Some (u64_saturating_add now (u64_saturating_mul
           (clamp (default 0 (dd !! ip)) MIN_TTL_SECS MAX_TTL_SECS) 1000))) true (lease_of m k))
    else m !! k.
Proof.
  unfold refresh_candidate, lease_of. destruct (decide (k = _)) as [->|Hne].
  - rewrite lookup_insert_eq. by destruct (m !! _).
  - by rewrite lookup_insert_ne by congruence.
Qed.

Lemma refresh_all_lookup id now dd ips : ∀ m k,
  (ck_logical k = id ∧ ck_ip k ∈ ips →
     ∃ v, foldl (refresh_candidate id now dd) m ips !! k = Some (mkCandidateState v true (lease_of m k)))
  ∧ (¬ (ck_logical k = id ∧ ck_ip k ∈ ips) →
     foldl (refresh_candidate id now dd) m ips !! k = m !! k).
Proof.
  induction ips as [|ip ips IH]; intros m k; cbn [foldl].
  { split; [|done]. intros [_ H]. by apply not_elem_of_nil in H. }
  destruct (IH (refresh_candidate id now dd m ip) k) as [IH1 IH2].
  pose proof (refresh_lookup id now dd m ip k) as Hr.
  assert (lease_of (refresh_candidate id now dd m ip) k = lease_of m k) as Hl.
  { unfold lease_of at 1. rewrite Hr. unfold lease_of. by destruct (decide _). }
  split.
  - intros [Hid Hin]. destruct (decide (ck_ip k ∈ ips)) as [Hi|Hi].
    + rewrite <- Hl. by apply IH1.
    + rewrite IH2 by tauto. apply elem_of_cons in Hin as [Hip|]; [|done].
      rewrite Hr, decide_True by (destruct k; simpl in *; congruence). by eexists.
  - intros Hn. rewrite elem_of_cons in Hn. rewrite IH2 by tauto.
    rewrite Hr, decide_False; [done|]. intros ->. apply Hn. simpl. tauto.
Qed.

Lemma depublish_all_lookup ks : ∀ m k,
  foldl depublish m ks !! k
  = if decide (k ∈ ks)
    then (λ cs, mkCandidateState (valid_until_ms cs) false (cs_leases cs)) <$> m !! k
    else m !! k.
Proof.
  induction ks as [|k' ks IH]; intros m k; cbn [foldl]; [done|].
  rewrite IH. unfold depublish. destruct (decide (k = k')) as [->|Hne].
  - rewrite lookup_alter_eq, (decide_True (P := k' ∈ k' :: ks)) by (by left).
    destruct (decide _); [|done]. by destruct (m !! k').
  - rewrite lookup_alter_ne by done. destruct (decide (k ∈ ks)) as [Hi|Hi].
    + by rewrite decide_True by (by right).
    + rewrite decide_False; [done|]. by intros [?|?]%elem_of_cons.
Qed.

(** What a positive answer does to a candidate. *)
Lemma observed_lookup id now dd m k :
  (ck_logical k = id ∧ ck_ip k ∈ dom dd →
     ∃ v, observed_candidates id now dd m !! k = Some (mkCandidateState v true (lease_of m k)))
  ∧ (ck_logical k = id → (ck_ip k ∉ dom dd) → observed_candidates id now dd m !! k
     = (λ cs, mkCandidateState (valid_until_ms cs) false (cs_leases cs)) <$> m !! k)
  ∧ (ck_logical k ≠ id → observed_candidates id now dd m !! k = m !! k).
Proof.
  unfold observed_candidates. set (m1 := foldl _ m _).
  destruct (refresh_all_lookup id now dd (in_order Z.le (dom dd)) m k) as [H1 H2]. fold m1 in H1, H2.
  rewrite elem_of_in_order in H1, H2. rewrite depublish_all_lookup.
  assert (k ∈ filter (λ key, ck_logical key = id ∧ (ck_ip key ∉ dom dd)) (in_order key_le (dom m1))
    ↔ (ck_logical k = id ∧ (ck_ip k ∉ dom dd)) ∧ k ∈ dom m1) as Hf.
  { by rewrite list_elem_of_filter, elem_of_in_order. }
  split_and!.
  - intros [Hid Hin]. rewrite decide_False by tauto. by apply H1.
  - intros Hid Hin. rewrite <- H2 by tauto. destruct (decide _) as [|Hn]; [done|].
    rewrite Hf in Hn. assert (k ∉ dom m1) as Hd by tauto. apply not_elem_of_dom in Hd.
    by rewrite Hd.
  - intros Hid. rewrite decide_False by tauto. by rewrite H2 by tauto.
Qed.

Lemma observed_lookup_Some id now dd m k cs' :
  observed_candidates id now dd m !! k = Some cs' →
  cs_leases cs' = lease_of m k
  ∧ ((ck_logical k = id ∧ ck_ip k ∈ dom dd ∧ dialable cs' = true) ∨ k ∈ dom m).
Proof.
  destruct (observed_lookup id now dd m k) as (H1 & H2 & H3). intros Hk.
  destruct (decide (ck_logical k = id)) as [Hid|Hid];
    [destruct (decide (ck_ip k ∈ dom dd)) as [Hin|Hin]|].
  - destruct H1 as [v Hv]; [done|]. rewrite Hv in Hk. injection Hk as <-. simpl. tauto.
  - rewrite H2 in Hk by done. apply fmap_Some in Hk as (cs & Hm & ->). unfold lease_of.
    rewrite Hm. split; [done|]. right. by eapply elem_of_dom_2.
  - rewrite H3 in Hk by done. unfold lease_of. rewrite Hk. split; [done|]. right.
    by eapply elem_of_dom_2.
Qed.

Lemma observed_dom id now dd m : dom m ⊆ dom (observed_candidates id now dd m).
Proof.
  intros k [cs Hm]%elem_of_dom. destruct (observed_lookup id now dd m k) as (H1 & H2 & H3).
  apply elem_of_dom. destruct (decide (ck_logical k = id)) as [Hid|Hid];
    [destruct (decide (ck_ip k ∈ dom dd)) as [Hin|Hin]|].
  - destruct H1 as [v ->]; [done|]. by eexists.
  - rewrite H2, Hm by done. by eexists.
  - rewrite H3 by done. by eexists.
Qed.

Lemma dedup_dom records : records ≠ [] → dom (dedup_records records) ≠ ∅.
Proof.
  unfold dedup_records. set (f := λ m '(ip, ttl), _).
  assert (∀ l m, dom m ⊆ dom (foldl f m l)) as Hmono.
  { induction l as [|[ip ttl] l IH]; intros m; cbn [foldl]; [done|]. etrans; [|apply IH].
    subst f. simpl. rewrite dom_insert. set_solver. }
  destruct records as [|[ip ttl] l]; [done|]. intros _ He.
  assert (ip ∈ dom (foldl f (f ∅ (ip, ttl)) l)) as Hin; [|cbn [foldl] in He; set_solver].
  apply Hmono. subst f. simpl. rewrite dom_insert. set_solver.
Qed.

Lemma good_transition_from stage c l' c' plan : specs l' = specs (logical c) →
  good_transition stage (set_logical c l') c' plan → good_transition stage c c' plan.
Proof.
  intros Hs [H1 H2 H3 H4 H5 H6 H7 H8 H9]. cbn [set_logical logical candidates leases snapshot] in *.
  split; try done.
  - by rewrite H2.
  - by rewrite !(access_specs _ _ _ Hs) in H3.
Qed.

Lemma authority_known l (m : gmap CandidateKey CandidateState) :
  (∀ k, k ∈ dom m → in_authority l k) → known l (dom m).
Proof. intros H k Hk. destruct (H k Hk) as (st & ? & _). by eexists. Qed.

Lemma existsb_false_elem {A} (f : A → bool) l x : existsb f l = false → x ∈ l → f x = false.
Proof.
  intros Hf Hx. destruct (f x) eqn:E; [|done]. rewrite <- Hf. symmetry. apply existsb_exists.
  exists x. by rewrite <- list_elem_of_In.
Qed.

(** Replacing the candidates by a plan, without leases: the plan exists, passes the
    validator and leads to a sound state. *)
Lemma candidates_transition (stage publish : bool) c l' upd g ns r : coord_ok c → specs l' = specs (logical c) →
  (∀ k, k ∈ dom upd → in_authority (logical c) k) →
  (∀ k cs', upd !! k = Some cs' → cs_leases cs' = lease_count (leases c) k) →
  (∀ id k, leases c !! id = Some k → k ∈ dom upd) →
  dialable_keys upd ≠ ∅ → build_snapshot (generation ns) l' upd = Ok ns →
  (if publish then generation ns = u64_saturating_add g 1 else ns = snapshot c) →
  g = generation (snapshot c) → (publish = true ∨ dom upd ⊆ dom (candidates c)) →
  (if stage then dom (candidates c) ⊆ dom upd
   else publish = false ∧ dom upd ⊆ dom (candidates c)) →
  ∃ plan, transition_plan l' (candidates c) upd g ns publish = Ok plan
    ∧ validate_order plan = Ok ()
    ∧ good_transition stage c
        (mkEndpointCoordinator r l' upd (leases c) (next_lease_id c) ns) plan.
Proof.
  intros Hc Hs Hauth Hcount Hleased Hd Hsnap Hpub -> Hord Hstage.
  destruct (transition_plan_Ok l' (candidates c) upd (generation (snapshot c)) ns publish)
    as (plan & Hp & Hps & Htt & He & Hm & Hwo).
  { eapply known_specs; [symmetry; exact Hs|by apply co_known]. }
  { eapply known_specs; [symmetry; exact Hs|by apply authority_known]. }
  specialize (Hwo Hord). exists plan. split_and!; [done|by apply validate_order_Ok|].
  split; cbn [logical candidates leases snapshot]; try done.
  - by apply coord_ok_update.
  - by rewrite !(access_specs _ _ _ Hs) in Htt.
  - rewrite He. by intros ->.
  - intros from to Hin. destruct (Hm from to Hin) as [-> ->]. split_and!; [done..|].
    destruct publish; [done|]. exfalso. apply (existsb_false_elem _ _ _ He) in Hin. done.
  - rewrite He. destruct stage; [done|]. by destruct Hstage.
Qed.

Lemma snapshot_view g l m view g' : build_snapshot g l m = Ok view →
  build_snapshot g' l m = Ok (mkDialSnapshot g' (ds_candidates view)).
Proof. unfold build_snapshot. intros (ds & -> & [= <-])%bind_Ok. done. Qed.

Lemma publish_observation_good c id now entropy dd st : coord_ok c →
  logical c !! id = Some st → dom dd ≠ ∅ →
  (∀ ip, ip ∈ dom dd → ip ∈ allowed (le_authority (spec st))) →
  ∃ c' r, publish_observation c id now entropy dd (observed_candidates id now dd (candidates c))
          = Ok (c', r)
    ∧ good_transition true c c' (or_plan r) ∧ revision c' = revision c
    ∧ or_next_refresh_at_ms r = u64_saturating_add now (jittered_ttl_ms (min_ttl dd) entropy).
Proof.
  intros Hc Hst Hne Hdd. unfold publish_observation. rewrite Hst. cbn [ok_or mbind result_bind].
  set (l' := <[id := _]> (logical c)). set (upd := observed_candidates id now dd (candidates c)).
  assert (specs l' = specs (logical c)) as Hs by (by eapply specs_insert).
  assert (∀ k, k ∈ dom upd → in_authority (logical c) k) as Hauth.
  { intros k [cs' Hk]%elem_of_dom. apply observed_lookup_Some in Hk as [_ [(Hid & Hip & _)|Hk]].
    - exists st. rewrite Hid. split_and!; [done|by apply Hdd|]. eapply co_policy; [done..|by apply Hdd].
    - by apply (co_authority _ Hc). }
  destruct (build_snapshot_total (generation (snapshot c)) l' upd) as [view Hview].
  { intros k Hk%dialable_sub. eapply known_specs; [symmetry; exact Hs|by apply authority_known|done]. }
  rewrite Hview. cbn [mbind result_bind].
  set (changed := negb _). set (ns := if changed then _ else _).
  assert (build_snapshot (generation (snapshot c)) l' (candidates c) = Ok (snapshot c)) as Hold.
  { rewrite (build_snapshot_ext _ _ (logical c) _ (candidates c)); [apply Hc|done|done]. }
  destruct (candidates_transition true changed c l' upd (generation (snapshot c)) ns (revision c))
    as (plan & -> & Hv & Hg); try done.
  - intros k cs' Hk. apply observed_lookup_Some in Hk as [-> _]. by apply lease_of_count.
  - intros i k Hi. apply observed_dom. by eapply co_leased.
  - apply set_choose_L in Hne as [ip Hip]. apply (non_empty_inhabited_L (mkCandidateKey id ip)).
    destruct (observed_lookup id now dd (candidates c) (mkCandidateKey id ip)) as [[v Hv] _]; [done|].
    apply elem_of_dialable. by eexists.
  - subst ns changed. case_bool_decide as He; cbn [negb].
    + rewrite Hview. apply (snapshot_view _ _ _ _ (generation (snapshot c))) in Hview as Hview'.
      rewrite Hview in Hview'. injection Hview' as ->. rewrite <- He. by destruct (snapshot c).
    + by eapply snapshot_view.
  - subst ns. by destruct changed.
  - destruct changed eqn:Hch; [by left|right]. subst changed.
    apply negb_false_iff, bool_decide_eq_true in Hch.
    apply (build_snapshot_same _ _ _ _ _ _ _ Hold Hview) in Hch.
    intros k [cs' Hk]%elem_of_dom. pose proof Hk as Hk'.
    apply observed_lookup_Some in Hk as [_ [(Hid & Hip & Hd)|Hk]]; [|done].
    apply dialable_sub. rewrite Hch. apply elem_of_dialable. by exists cs'.
  - apply observed_dom.
  - cbn [mbind result_bind]. rewrite Hv. by eexists _, _.
Qed.

Lemma reschedule_good c id streak delay now d st : coord_ok c → logical c !! id = Some st →
  ∃ c' r, reschedule c id streak delay now d = Ok (c', r)
    ∧ good_transition true c c' (or_plan r) ∧ revision c' = revision c
    ∧ or_next_refresh_at_ms r = u64_saturating_add now delay.
Proof.
  intros Hc Hst. unfold reschedule. rewrite Hst. eexists _, _. split; [done|]. split_and!; [|done|done].
  apply unchanged_transition; [done|]. by eapply specs_insert.
Qed.

(** ** The schedule *)

Lemma jittered_bounds ttl entropy :
  let t := clamp ttl MIN_TTL_SECS MAX_TTL_SECS in
  5 ≤ t ≤ 3600 ∧ 700 * t ≤ jittered_ttl_ms ttl entropy ≤ 900 * t.
Proof.
  intros t. assert (5 ≤ t ≤ 3600) as Ht
    by (subst t; unfold clamp, MIN_TTL_SECS, MAX_TTL_SECS; lia).
  split; [done|]. unfold jittered_ttl_ms, u64_saturating_mul. fold t. clearbody t.
  pose proof (Z.mod_pos_bound entropy 2001 ltac:(lia)) as He.
  set (e := entropy mod 2001) in *. clearbody e.
  assert (0 ≤ t * e ≤ t * 2000) as Hte by nia.
  rewrite (Z.min_r _ (t * 1000)) by lia.
  replace (t * 1000 * (7000 + e)) with (7000000 * t + 1000 * (t * e)) by lia.
  rewrite Z.min_r by lia.
  split; [apply Z.div_le_lower_bound|apply Z.div_le_upper_bound]; lia.
Qed.

Lemma retry_bounds streak entropy :
  250 ≤ retry_delay_ms streak entropy
  ≤ Z.min (RETRY_BASE_MS * 2 ^ Z.min (Z.max 0 (streak - 1)) 31) RETRY_CAP_MS.
Proof.
  unfold retry_delay_ms, u64_saturating_mul. set (n := Z.min (Z.max 0 (streak - 1)) 31). assert (0 ≤ n ≤ 31) as Hn by lia.
  rewrite Z.shiftl_mul_pow2, Z.mul_1_l by lia.
  pose proof (Z.pow_le_mono_r 2 n 31 ltac:(lia) ltac:(lia)) as Hp.
  pose proof (Z.pow_le_mono_r 2 0 n ltac:(lia) ltac:(lia)) as Hp0.
  set (p := 2 ^ n) in *. clearbody p. unfold RETRY_BASE_MS, RETRY_CAP_MS in *.
  rewrite (Z.min_r _ (1000 * p)) by lia. set (ceil := Z.min (1000 * p) 30000).
  assert (1000 ≤ ceil) by lia. rewrite (Z.max_r 0), (Z.max_l (ceil - 249)) by lia.
  pose proof (Z.mod_pos_bound entropy (ceil - 249) ltac:(lia)). lia.
Qed.

(** The next refresh lies ahead, by at least a quarter of a second and at most 54 minutes. *)
Definition scheduled (now next : Z) : Prop :=
  ∃ delay, 250 ≤ delay ≤ 3240000 ∧ next = u64_saturating_add now delay.

Lemma jittered_scheduled now ttl entropy :
  scheduled now (u64_saturating_add now (jittered_ttl_ms ttl entropy)).
Proof. eexists. split; [|done]. pose proof (jittered_bounds ttl entropy). simpl in *. lia. Qed.

Lemma reject_good c id now entropy d st : coord_ok c → logical c !! id = Some st →
  ∃ c' r, reject_observation c id now entropy d = Ok (c', r)
    ∧ good_transition true c c' (or_plan r) ∧ revision c' = revision c
    ∧ scheduled now (or_next_refresh_at_ms r).
Proof.
  intros Hc Hst. unfold reject_observation. rewrite Hst. cbn [ok_or mbind result_bind].
  set (n := u32_saturating_add _ _).
  destruct (reschedule_good c id n (retry_delay_ms n entropy) now d st Hc Hst)
    as (c' & r & Hr & Hg & Hrev & Hnext).
  exists c', r. split_and!; [done..|]. rewrite Hnext. eexists. split; [|done].
  pose proof (retry_bounds n entropy). unfold RETRY_CAP_MS in *. lia.
Qed.

Lemma retain_good c id now entropy ttl d st : coord_ok c → logical c !! id = Some st →
  ∃ c' r, retain_with_negative_schedule c id now entropy ttl d = Ok (c', r)
    ∧ good_transition true c c' (or_plan r) ∧ revision c' = revision c
    ∧ scheduled now (or_next_refresh_at_ms r).
Proof.
  intros Hc Hst. unfold retain_with_negative_schedule.
  destruct (reschedule_good c id 0 (jittered_ttl_ms (clamp (default DEFAULT_NEGATIVE_TTL_SECS ttl)
    MIN_TTL_SECS MAX_NEGATIVE_TTL_SECS) entropy) now d st Hc Hst) as (c' & r & ? & ? & ? & Hnext).
  exists c', r. split_and!; [done..|]. rewrite Hnext. apply jittered_scheduled.
Qed.

Lemma apply_positive_good c id records now entropy st : coord_ok c → logical c !! id = Some st →
  records ≠ [] →
  ∃ c' r, apply_positive c id records now entropy = Ok (c', r)
    ∧ good_transition true c c' (or_plan r) ∧ revision c' = revision c
    ∧ scheduled now (or_next_refresh_at_ms r).
Proof.
  intros Hc Hst Hne. unfold apply_positive. rewrite Hst. cbn [ok_or mbind result_bind].
  set (dd := dedup_records records). pose proof (dedup_dom records Hne) as Hdd. fold dd in Hdd.
  case_bool_decide as Hout; [by eapply reject_good|].
  case_bool_decide as Hrej; [by eapply reject_good|].
  case_bool_decide; [by eapply retain_good|].
  destruct (publish_observation_good c id now entropy dd st Hc Hst Hdd) as (c' & r & ? & ? & ? & Hnext).
  { intros ip Hip. destruct (decide (ip ∈ allowed (le_authority (spec st))))
      as [|Hn]; [done|]. assert (ip ∈ ([] : list Z)) as Hin; [|by apply not_elem_of_nil in Hin].
    rewrite <- Hout. apply list_elem_of_filter. split; [done|]. by apply elem_of_in_order. }
  exists c', r. split_and!; [done..|]. rewrite Hnext. apply jittered_scheduled.
Qed.

(** Every observation of a configured endpoint has a result. *)
Lemma apply_observation_good c stamp obs now entropy st : coord_ok c →
  logical c !! qs_logical stamp = Some st →
  ∃ c' r, apply_observation c stamp obs now entropy = Ok (c', r)
    ∧ good_transition true c c' (or_plan r) ∧ revision c' = revision c
    ∧ (disposition r = IgnoredOutOfOrder ∧ c' = c ∨ scheduled now (or_next_refresh_at_ms r)).
Proof.
  intros Hc Hst. unfold apply_observation. rewrite Hst. cbn [ok_or mbind result_bind].
  destruct (_ || _).
  { eexists _, _. split; [done|]. split_and!; [|done|by left].
    destruct c. by apply unchanged_transition. }
  set (l' := <[qs_logical stamp := _]> (logical c)).
  assert (specs l' = specs (logical c)) as Hs by (by eapply specs_insert).
  pose proof (coord_ok_logical c l' (revision c) Hc Hs) as Hc1. fold (set_logical c l') in Hc1.
  assert (logical (set_logical c l') !! qs_logical stamp
    = Some (with_applied st (qs_sequence stamp))) as Hst1 by apply lookup_insert_eq.
  assert (∀ m : result EndpointError _, (∃ c' r, m = Ok (c', r)
     ∧ good_transition true (set_logical c l') c' (or_plan r)
     ∧ revision c' = revision (set_logical c l') ∧ scheduled now (or_next_refresh_at_ms r)) →
    ∃ c' r, m = Ok (c', r) ∧ good_transition true c c' (or_plan r) ∧ revision c' = revision c
     ∧ (disposition r = IgnoredOutOfOrder ∧ c' = c ∨ scheduled now (or_next_refresh_at_ms r))) as Hm.
  { intros m (c' & r & -> & Hg & Hrev & Hsch). exists c', r. split; [done|].
    split_and!; [by eapply good_transition_from|done|by right]. }
  destruct obs as [[|rec records]|ttl|ttl|]; apply Hm.
  - by eapply retain_good.
  - by eapply apply_positive_good.
  - by eapply retain_good.
  - by eapply retain_good.
  - by eapply reject_good.
Qed.

(** ** Authority rehydration *)

Lemma elem_of_authority_keys l k : k ∈ authority_keys l ↔
  ∃ st, l !! ck_logical k = Some st ∧ ck_ip k ∈ allowed (le_authority (spec st)).
Proof.
  unfold authority_keys. rewrite list_elem_of_In, in_flat_map. setoid_rewrite <- list_elem_of_In.
  split.
  - intros (id & Hid & Hk). destruct (l !! id) as [st|] eqn:Hst; [|by apply not_elem_of_nil in Hk].
    apply list_elem_of_fmap in Hk as (ip & -> & Hip). unfold addresses in Hip.
    rewrite elem_of_in_order in Hip. by exists st.
  - intros (st & Hst & Hip). exists (ck_logical k). split.
    + apply elem_of_in_order. by eapply elem_of_dom_2.
    + rewrite Hst. apply list_elem_of_fmap. exists (ck_ip k). split; [by destruct k|].
      by apply elem_of_in_order.
Qed.

Lemma revive_eq m rv k : revive (m, rv) k =
  if decide (k ∈ dialable_keys m) then (m, rv)
  else (<[k := mkCandidateState None true (lease_of m k)]> m, rv ++ [k]).
Proof.
  unfold revive, lease_of. destruct (decide (k ∈ dialable_keys m)) as [(cs & -> & ->)%elem_of_dialable|Hn];
    [done|]. destruct (m !! k) as [cs|] eqn:Hk; [|done]. destruct (dialable cs) eqn:Hd; [|done].
  exfalso. apply Hn, elem_of_dialable. by exists cs.
Qed.

Lemma dialable_insert k cs m : dialable cs = true →
  dialable_keys (<[k := cs]> m) = {[k]} ∪ dialable_keys m.
Proof.
  intros Hd. apply set_eq. intros k'. rewrite elem_of_union, elem_of_singleton, !elem_of_dialable.
  destruct (decide (k' = k)) as [->|Hne].
  - rewrite lookup_insert_eq. naive_solver.
  - rewrite lookup_insert_ne by done. naive_solver.
Qed.

Lemma lease_of_insert k v d m k' :
  lease_of (<[k := mkCandidateState v d (lease_of m k)]> m) k' = lease_of m k'.
Proof.
  unfold lease_of at 1. destruct (decide (k' = k)) as [->|Hne].
  - by rewrite lookup_insert_eq.
  - by rewrite lookup_insert_ne.
Qed.

Lemma revive_all keys : ∀ m rv m' rv', foldl revive (m, rv) keys = (m', rv') →
  dom m' = dom m ∪ list_to_set keys
  ∧ (∀ k, lease_of m' k = lease_of m k)
  ∧ dialable_keys m' = dialable_keys m ∪ list_to_set keys
  ∧ (∀ k, k ∈ rv' ↔ k ∈ rv ∨ (k ∈ keys ∧ (k ∉ dialable_keys m)))
  ∧ ((∀ k, k ∈ keys → k ∈ dialable_keys m) → m' = m).
Proof.
  induction keys as [|key keys IH]; intros m rv m' rv' H; cbn [foldl] in H.
  { injection H as <- <-. split_and!; [set_solver..| |done]. intros k.
    rewrite elem_of_nil. tauto. }
  rewrite revive_eq in H. destruct (decide (key ∈ dialable_keys m)) as [Hin|Hin].
  - destruct (IH _ _ _ _ H) as (H1 & H2 & H3 & H4 & H5). pose proof (dialable_sub m key Hin) as Hm.
    split_and!; [rewrite H1; clear -Hm; set_solver|done|rewrite H3; clear -Hin; set_solver| |].
    + intros k. rewrite H4, elem_of_cons. split; [tauto|]. intros [?|[[->|?] ?]]; tauto.
    + intros Hk. apply H5. intros; apply Hk; by right.
  - destruct (IH _ _ _ _ H) as (H1 & H2 & H3 & H4 & H5). rewrite dom_insert_L in H1.
    rewrite dialable_insert in H3, H4, H5 by done.
    split_and!; [rewrite H1; clear; set_solver| |rewrite H3; clear; set_solver| |].
    + intros k. by rewrite H2, lease_of_insert.
    + intros k. rewrite H4, elem_of_app, list_elem_of_singleton, elem_of_cons, elem_of_union,
        elem_of_singleton. destruct (decide (k = key)) as [->|]; tauto.
    + intros Hk. exfalso. apply Hin, Hk. by left.
Qed.

(** A transition that keeps all candidates removes nothing. *)
Lemma monotone_plan stage c c' plan : good_transition stage c c' plan →
  dom (candidates c) ⊆ dom (candidates c') →
  forallb (λ op, negb (is_removal op)) (operations plan) = true.
Proof.
  intros Hg Hsub. destruct (access_mono (logical c) _ _ Hsub) as [Hf Hr].
  pose proof (gt_takes _ _ _ _ Hg) as Htt. apply forallb_forall. intros op Hop%list_elem_of_In.
  destruct op as [[t|t]|[ip|ip]|]; try done.
  - apply (tt_deny _ _ _ Htt) in Hop. set_solver.
  - apply (tt_remove _ _ _ Htt) in Hop. set_solver.
Qed.

(** Rehydration fails only when a counter is exhausted. *)
Lemma rehydration_good c : coord_ok c →
  (∃ p, prepare_authority_rehydration c = Ok p
    ∧ good_transition true c (pa_projected p) (rr_plan (pa_result p))
    ∧ pa_base_revision p = revision c
    ∧ (pa_projected p = c ∨ revision (pa_projected p) = revision c + 1)
    ∧ dialable_keys (candidates (pa_projected p)) = list_to_set (authority_keys (logical c)))
  ∨ (prepare_authority_rehydration c = Err Refused
     ∧ (2 ^ 64 ≤ revision c + 1 ∨ 2 ^ 64 ≤ generation (snapshot c) + 1)).
Proof.
  intros Hc. unfold prepare_authority_rehydration.
  destruct (foldl revive _ _) as [upd rv] eqn:Hfold.
  destruct (revive_all _ _ _ _ _ Hfold) as (Hdom & Hlease & Hdial & Hrv & Hsame).
  assert (dialable_keys (candidates c) ⊆ list_to_set (authority_keys (logical c))) as Hsub.
  { intros k Hk. apply elem_of_list_to_set, elem_of_authority_keys.
    destruct (co_authority _ Hc k (dialable_sub _ _ Hk)) as (st & ? & ? & _). by exists st. }
  assert (dialable_keys upd = list_to_set (authority_keys (logical c))) as Hall by set_solver.
  case_bool_decide as Hempty.
  - left. eexists. split; [done|]. cbn [pa_projected pa_result rr_plan pa_base_revision].
    assert (upd = candidates c) as Hupd.
    { apply Hsame. intros k Hk. destruct (decide (k ∈ dialable_keys (candidates c))); [done|].
      exfalso. assert (k ∈ merge_sort key_le rv) as Hin; [|rewrite Hempty in Hin; by apply not_elem_of_nil in Hin].
      rewrite merge_sort_Permutation. apply Hrv. by right. }
    subst upd. split_and!; [|done|left; by destruct c|done].
    destruct c. by apply unchanged_transition.
  - assert (∃ k, k ∈ authority_keys (logical c) ∧ (k ∉ dialable_keys (candidates c))) as (k0 & Hk0 & Hn0).
    { destruct rv as [|k rv]; [done|]. exists k.
      destruct (proj1 (Hrv k) ltac:(by left)) as [Hin|]; [by apply not_elem_of_nil in Hin|done]. }
    assert (∀ k, k ∈ dom upd → in_authority (logical c) k) as Hauth.
    { intros k Hk. rewrite Hdom in Hk. apply elem_of_union in Hk as [Hk|Hk]; [by apply Hc|].
      apply elem_of_list_to_set, elem_of_authority_keys in Hk as (st & Hst & Hip).
      exists st. split_and!; [done..|]. by eapply co_policy. }
    destruct (build_snapshot_total (generation (snapshot c)) (logical c) upd) as [view Hview].
    { intros k Hk%dialable_sub. by apply (authority_known _ _ Hauth). }
    rewrite Hview. cbn [mbind result_bind]. rewrite bool_decide_eq_false_2.
    2:{ rewrite (build_snapshot_same _ _ _ _ _ _ _ Hview (co_snapshot _ Hc)). intros He.
        apply Hn0. rewrite <- He, Hall. by apply elem_of_list_to_set. }
    unfold u64_checked_add.
    destruct (Z.ltb_spec (generation (snapshot c) + 1) (2 ^ 64)); [|right; split; [done|lia]].
    cbn [ok_or mbind result_bind]. set (ns := mkDialSnapshot _ _).
    destruct (candidates_transition true true c (logical c) upd (generation (snapshot c)) ns
      (revision c + 1)) as (plan & -> & Hv & Hg); try done.
    + intros k cs' Hk. rewrite <- (lease_of_count _ _ Hc), <- Hlease. unfold lease_of. by rewrite Hk.
    + intros i k Hi%(co_leased _ Hc). set_solver.
    + rewrite Hall. apply (non_empty_inhabited_L k0). by apply elem_of_list_to_set.
    + by eapply snapshot_view.
    + cbn [generation ns]. unfold u64_saturating_add. lia.
    + by left.
    + rewrite Hdom. set_solver.
    + cbn [mbind result_bind]. rewrite (monotone_plan _ c _ plan Hg) by (simpl; set_solver).
      cbn [negb]. rewrite Hv. cbn [mbind result_bind].
      destruct (Z.ltb_spec (revision c + 1) (2 ^ 64)); [|right; split; [done|lia]].
      left. eexists. split; [done|]. by split_and!; [|done|right|].
Qed.

(** ** Leases and retirement *)

Lemma dialable_same k cs v n (m : gmap CandidateKey CandidateState) : m !! k = Some cs →
  dialable_keys (<[k := mkCandidateState v (dialable cs) n]> m) = dialable_keys m.
Proof.
  intros Hk. apply set_eq. intros k'. rewrite !elem_of_dialable.
  destruct (decide (k' = k)) as [->|Hne].
  - rewrite lookup_insert_eq, Hk. split; intros (cs' & [= <-] & Hd); by eexists.
  - by rewrite lookup_insert_ne.
Qed.

Lemma dialable_delete k cs (m : gmap CandidateKey CandidateState) : m !! k = Some cs →
  dialable cs = false → dialable_keys (delete k m) = dialable_keys m.
Proof.
  intros Hk Hd. apply set_eq. intros k'. rewrite !elem_of_dialable.
  destruct (decide (k' = k)) as [->|Hne].
  - rewrite lookup_delete_eq, Hk. split; intros (cs' & [= <-] & Hd'); congruence.
  - by rewrite lookup_delete_ne.
Qed.

Lemma dom_insert_same k cs' (m : gmap CandidateKey CandidateState) : k ∈ dom m →
  dom (<[k := cs']> m) = dom m.
Proof. intros Hk. rewrite dom_insert_L. set_solver. Qed.

Lemma acquire_good c key c' lease : coord_ok c → acquire c key = Ok (c', lease) →
  coord_ok c' ∧ revision c' = revision c + 1 ∧ specs (logical c') = specs (logical c)
  ∧ dom (candidates c') = dom (candidates c) ∧ snapshot c' = snapshot c
  ∧ lease = mkEndpointLease (next_lease_id c) key ∧ key ∈ dialable_keys (candidates c)
  ∧ leases c' = <[next_lease_id c := key]> (leases c).
Proof.
  intros Hc H. unfold acquire in H.
  apply bind_Ok in H as (r & [-> _]%ok_or_Ok%u64_checked_add_Some & H).
  apply bind_Ok in H as (i & [-> _]%ok_or_Ok%u64_checked_add_Some & H).
  apply if_err_Ok in H as [Hfree H]. apply bool_decide_eq_false, eq_None_not_Some in Hfree.
  apply bind_Ok in H as (cs & Hcs%ok_or_Ok & H).
  apply if_err_Ok in H as [Hd%negb_false_iff H].
  apply bind_Ok in H as (n & Hn%ok_or_Ok & [= <- <-]). unfold u32_checked_add in Hn.
  destruct (Z.ltb_spec (cs_leases cs + 1) (2 ^ 32)); [|done]. injection Hn as <-.
  cbn [revision logical candidates snapshot leases].
  assert (key ∈ dom (candidates c)) as Hin by (by eapply elem_of_dom_2).
  assert (key ∈ dialable_keys (candidates c)) as Hdk by (apply elem_of_dialable; by exists cs).
  split_and!; try done; [|by apply dom_insert_same].
  split; cbn [logical candidates leases snapshot next_lease_id].
  - apply Hc.
  - intros k. rewrite dom_insert_same by done. apply Hc.
  - rewrite (build_snapshot_ext _ _ (logical c) _ (candidates c)); [apply Hc|done|].
    by apply dialable_same.
  - rewrite (dialable_same _ cs) by done. apply Hc.
  - intros id k. rewrite dom_insert_same by done. intros [[_ <-]|[_ ?]]%lookup_insert_Some; [done|].
    by eapply co_leased.
  - intros k cs'. rewrite lease_count_insert by done. intros [[<- <-]|[Hne Hk]]%lookup_insert_Some.
    + cbn [cs_leases]. rewrite decide_True by done. rewrite (co_count _ Hc _ _ Hcs). lia.
    + rewrite decide_False by done. rewrite (co_count _ Hc _ _ Hk). lia.
  - intros id k [[<- _]|[_ Hid]]%lookup_insert_Some; [lia|]. apply (co_fresh _ Hc) in Hid. lia.
Qed.

Lemma lease_count_pos m id k : m !! id = Some k → 1 ≤ lease_count m k.
Proof.
  intros Hm. pose proof (lease_count_delete m id k k Hm) as H. rewrite decide_True in H by done.
  unfold lease_count in *. lia.
Qed.

(** The candidates after a lease of one of them is given back. *)
Lemma released_spec c id key cs : coord_ok c → leases c !! id = Some key →
  candidates c !! key = Some cs →
  let upd :=
    if (cs_leases cs - 1 =? 0) && negb (dialable cs) then delete key (candidates c)
    else <[key := mkCandidateState (valid_until_ms cs) (dialable cs) (cs_leases cs - 1)]>
           (candidates c) in
  dialable_keys upd = dialable_keys (candidates c) ∧ dom upd ⊆ dom (candidates c)
  ∧ (∀ k cs', upd !! k = Some cs' → cs_leases cs' = lease_count (delete id (leases c)) k)
  ∧ (∀ k, k ∈ dom (candidates c) → 1 ≤ lease_count (delete id (leases c)) k → k ∈ dom upd).
Proof.
  intros Hc Hl Hcs upd.
  assert (∀ k, lease_count (delete id (leases c)) k
    = lease_count (leases c) k - (if decide (key = k) then 1 else 0)) as Hlc
    by (intros; by apply lease_count_delete).
  subst upd. destruct (_ && _) eqn:Hgone.
  - apply andb_true_iff in Hgone as [Hz%Z.eqb_eq Hd%negb_true_iff].
    split_and!; [by apply (dialable_delete _ cs)|rewrite dom_delete; set_solver|..].
    + intros k cs' [Hne Hk]%lookup_delete_Some. rewrite Hlc, decide_False by done.
      rewrite (co_count _ Hc _ _ Hk). lia.
    + intros k Hk. rewrite Hlc, dom_delete. destruct (decide (key = k)) as [<-|Hne]; [|set_solver].
      rewrite <- (co_count _ Hc _ _ Hcs). lia.
  - assert (key ∈ dom (candidates c)) by (by eapply elem_of_dom_2).
    split_and!; [by apply dialable_same|by rewrite dom_insert_same|..].
    + intros k cs' [[<- <-]|[Hne Hk]]%lookup_insert_Some; rewrite Hlc.
      * rewrite decide_True by done. cbn [cs_leases]. by rewrite (co_count _ Hc _ _ Hcs).
      * rewrite decide_False by done. rewrite (co_count _ Hc _ _ Hk). lia.
    + intros k Hk _. by rewrite dom_insert_same.
Qed.

Lemma release_good c lease : coord_ok c → leases c !! lease_id lease = Some (lease_key lease) →
  revision c + 1 < 2 ^ 64 →
  ∃ p, prepare_release c lease = Ok p
    ∧ good_transition false c (pl_projected p) (pl_plan p)
    ∧ pl_base_revision p = revision c ∧ revision (pl_projected p) = revision c + 1
    ∧ leases (pl_projected p) = delete (lease_id lease) (leases c).
Proof.
  intros Hc Hl Hrev. unfold prepare_release, apply_release. rewrite Hl.
  set (key := lease_key lease) in *. cbn [ok_or mbind result_bind].
  rewrite bool_decide_eq_false_2 by (intros H; by apply H).
  pose proof (co_leased _ Hc _ _ Hl) as Hin. apply elem_of_dom in Hin as [cs Hcs]. rewrite Hcs.
  cbn [ok_or mbind result_bind].
  pose proof (lease_count_pos _ _ _ Hl) as Hpos. rewrite <- (co_count _ Hc _ _ Hcs) in Hpos.
  unfold u32_checked_sub. rewrite (proj2 (Z.leb_le _ _) Hpos). cbn [ok_or mbind result_bind].
  destruct (released_spec c _ key cs Hc Hl Hcs) as (Hdial & Hdom & Hcount & Hkeep).
  set (upd := if (_ && _ : bool) then delete key _ else _) in *.
  destruct (transition_plan_Ok (logical c) (candidates c) upd (generation (snapshot c)) (snapshot c)
    false) as (plan & -> & Hps & Htt & He & Hm & Hwo);
    [by apply co_known|intros k Hk; by apply (co_known _ Hc), Hdom|].
  specialize (Hwo (or_intror Hdom)). cbn [mbind result_bind].
  rewrite (proj2 (validate_order_Ok plan) Hwo). cbn [mbind result_bind].
  unfold u64_checked_add. rewrite (proj2 (Z.ltb_lt _ _) Hrev). cbn [ok_or mbind result_bind].
  eexists. split; [done|]. cbn [pl_projected pl_plan pl_base_revision]. unfold set_revision.
  split_and!; try done. split; cbn [logical candidates leases snapshot]; try done.
  2:{ intros from to Hin. by apply (existsb_false_elem _ _ _ He) in Hin. }
  2:{ intros id k [_ ?]%lookup_delete_Some. done. }
  split; cbn [logical candidates leases snapshot next_lease_id].
  - apply Hc.
  - intros k Hk. by apply Hc, Hdom.
  - rewrite (build_snapshot_ext _ _ (logical c) _ (candidates c)); [apply Hc|done|done].
  - rewrite Hdial. apply Hc.
  - intros id k Hid. apply Hkeep; [|by eapply lease_count_pos].
    apply lookup_delete_Some in Hid as [_ Hid]. by eapply co_leased.
  - done.
  - intros id k [_ Hid]%lookup_delete_Some. by eapply co_fresh.
Qed.

Lemma retirement_good c : coord_ok c → revision c + 1 < 2 ^ 64 →
  ∃ o, prepare_retirement c = Ok o
    ∧ ∀ p, o = Some p → good_transition false c (pr_projected p) (pr_plan p)
        ∧ pr_base_revision p = revision c ∧ revision (pr_projected p) = revision c + 1.
Proof.
  intros Hc Hrev. unfold prepare_retirement. set (upd := filter _ (candidates c)).
  case_bool_decide; [by eexists|].
  assert (∀ k cs, upd !! k = Some cs ↔ candidates c !! k = Some cs
    ∧ (dialable cs = true ∨ cs_leases cs ≠ 0)) as Hupd by (intros; apply map_lookup_filter_Some).
  assert (dom upd ⊆ dom (candidates c)) as Hdom by apply dom_filter_subseteq.
  assert (dialable_keys upd = dialable_keys (candidates c)) as Hdial.
  { apply set_eq. intros k. rewrite !elem_of_dialable. setoid_rewrite Hupd. naive_solver. }
  destruct (candidates_transition false false c (logical c) upd (generation (snapshot c)) (snapshot c)
    (revision c + 1)) as (plan & -> & Hv & Hg); try done.
  - intros k Hk. by apply Hc, Hdom.
  - intros k cs' [Hk _]%Hupd. by eapply co_count.
  - intros id k Hid. pose proof (co_leased _ Hc _ _ Hid) as Hin. apply elem_of_dom in Hin as [cs Hcs].
    apply elem_of_dom. exists cs. apply Hupd. split; [done|]. right.
    rewrite (co_count _ Hc _ _ Hcs). pose proof (lease_count_pos _ _ _ Hid). lia.
  - rewrite Hdial. apply Hc.
  - rewrite (build_snapshot_ext _ _ (logical c) _ (candidates c)); [apply Hc|done|done].
  - by right.
  - cbn [mbind result_bind]. rewrite Hv. cbn [mbind result_bind].
    unfold u64_checked_add. rewrite (proj2 (Z.ltb_lt _ _) Hrev). eexists. split; [done|].
    by intros p [= <-].
Qed.

Lemma good_transition_revision stage c c' plan r :
  good_transition stage c c' plan → good_transition stage c (set_revision c' r) plan.
Proof.
  intros [[] ? ? ? ? ? ? ? ?]. unfold set_revision. split; [|done..]. by split.
Qed.

Lemma begin_query_good c id c' stamp : coord_ok c → begin_query c id = Ok (c', stamp) →
  coord_ok c' ∧ revision c' = revision c + 1 ∧ specs (logical c') = specs (logical c)
  ∧ candidates c' = candidates c ∧ snapshot c' = snapshot c ∧ leases c' = leases c.
Proof.
  intros Hc H. unfold begin_query in H.
  apply bind_Ok in H as (r & [-> _]%ok_or_Ok%u64_checked_add_Some & H).
  apply bind_Ok in H as (st & Hst%ok_or_Ok & H).
  apply bind_Ok in H as (n & _ & [= <- <-]).
  assert (specs (<[id := with_latest st n]> (logical c)) = specs (logical c)) as Hs
    by (by eapply specs_insert).
  split_and!; try done. by apply (coord_ok_logical c).
Qed.

(** ** Construction *)

Lemma add_endpoints_ok now endpoints l : fold_res (add_endpoint now) ∅ endpoints = Ok l →
  ∀ id st ip, l !! id = Some st → ip ∈ allowed (le_authority (spec st)) →
    permits (le_address_policy (spec st)) ip = true.
Proof.
  apply (fold_res_ind (add_endpoint now) (λ _ (m : gmap Z LogicalState), ∀ id st ip,
    m !! id = Some st → ip ∈ allowed (le_authority (spec st)) →
    permits (le_address_policy (spec st)) ip = true)).
  { intros id st ip H. by rewrite lookup_empty in H. }
  intros pre e m m' _ IH H. unfold add_endpoint in H. apply bind_Ok in H as (_ & _ & H).
  apply if_err_Ok in H as [_ H]. apply if_err_Ok in H as [Hp%negb_false_iff H].
  apply if_err_Ok in H as [_ [= <-]].
  intros id st ip [[_ <-]|[_ Hst]]%lookup_insert_Some Hip; [|by eapply IH].
  cbn [spec] in *. rewrite forallb_forall in Hp. apply Hp, list_elem_of_In.
  by apply elem_of_in_order.
Qed.

Lemma add_seeds_ok l seeds m : fold_res (add_seed l) ∅ seeds = Ok m →
  ∀ k cs, m !! k = Some cs → in_authority l k ∧ cs = mkCandidateState None true 0.
Proof.
  apply (fold_res_ind (add_seed l) (λ _ (m : gmap CandidateKey CandidateState), ∀ k cs,
    m !! k = Some cs → in_authority l k ∧ cs = mkCandidateState None true 0)).
  { intros k cs H. by rewrite lookup_empty in H. }
  intros pre e m0 m' _ IH H. unfold add_seed in H. apply bind_Ok in H as (st & Hst%ok_or_Ok & H).
  apply if_err_Ok in H as [Hin%bool_decide_eq_false%dec_stable H].
  apply if_err_Ok in H as [Hp%negb_false_iff [= <-]].
  intros k cs [[<- <-]|[_ Hk]]%lookup_insert_Some; [|by apply IH].
  split; [|done]. by exists st.
Qed.

Lemma new_ok endpoints seeds now c : EndpointCoordinator_new endpoints seeds now = Ok c → coord_ok c.
Proof.
  unfold EndpointCoordinator_new. intros (l & Hl & H)%bind_Ok. apply if_err_Ok in H as [_ H].
  apply bind_Ok in H as (m & Hm & H). apply if_err_Ok in H as [Hne%bool_decide_eq_false H].
  apply bind_Ok in H as (s & Hs & [= <-]). pose proof (add_seeds_ok _ _ _ Hm) as Hseeds.
  split; cbn [logical candidates leases snapshot next_lease_id].
  - by eapply add_endpoints_ok.
  - intros k [cs Hk]%elem_of_dom. by apply Hseeds in Hk as [? _].
  - destruct (build_snapshot_keys _ _ _ _ Hs) as [-> _]. done.
  - apply map_choose in Hne as (k & cs & Hk). destruct (Hseeds k cs Hk) as [_ ->].
    apply (non_empty_inhabited_L k), elem_of_dialable. by eexists.
  - intros id k H. by rewrite lookup_empty in H.
  - intros k cs Hk. destruct (Hseeds k cs Hk) as [_ ->]. cbn [cs_leases]. symmetry.
    apply lease_count_zero. intros id. by rewrite lookup_empty.
  - intros id k H. by rewrite lookup_empty in H.
Qed.
