(* ===== verification/EndpointSystem.v ===== *)
(** * Live endpoints: interleaved transactions and their execution

    The coordinator of [Endpoint] together with the transactions that are prepared but not
    finished.  A query, a lease or another commit may come between preparing and
    committing, in any order; the revision check of the source decides which commits still
    go through.  The theorems are stated for every reachable state of this system. *)

From S2P Require Import Prelude EndpointPlan Endpoint.

(** ** Transactions of all kinds *)

Inductive Prepared :=
| PObservation (p : PreparedObservation)
| PRehydration (p : PreparedAuthorityRehydration)
| PRelease (p : PreparedLeaseRelease)
| PRetirement (p : PreparedRetirement).

Definition prepared_from (c : EndpointCoordinator) (p : Prepared) : Prop :=
  match p with
  | PObservation q => ∃ stamp obs now entropy, prepare_observation c stamp obs now entropy = Ok q
  | PRehydration q => prepare_authority_rehydration c = Ok q
  | PRelease q => ∃ lease, prepare_release c lease = Ok q
  | PRetirement q => prepare_retirement c = Ok (Some q)
  end.

Definition base_of (p : Prepared) : Z :=
  match p with
  | PObservation q => po_base_revision q | PRehydration q => pa_base_revision q
  | PRelease q => pl_base_revision q | PRetirement q => pr_base_revision q
  end.
Definition projected_of (p : Prepared) : EndpointCoordinator :=
  match p with
  | PObservation q => po_projected q | PRehydration q => pa_projected q
  | PRelease q => pl_projected q | PRetirement q => pr_projected q
  end.
Definition plan_of (p : Prepared) : TransitionPlan :=
  match p with
  | PObservation q => or_plan (po_result q) | PRehydration q => rr_plan (pa_result q)
  | PRelease q => pl_plan q | PRetirement q => pr_plan q
  end.

(** Whether the transaction only adds host access. *)
Definition stage_of (p : Prepared) : bool :=
  match p with PObservation _ | PRehydration _ => true | PRelease _ | PRetirement _ => false end.

Definition commit (c : EndpointCoordinator) (p : Prepared)
  : result EndpointError EndpointCoordinator :=
  match p with
  | PObservation q => fst <$> commit_observation c q
  | PRehydration q => fst <$> commit_authority_rehydration c q
  | PRelease q => fst <$> commit_release c q
  | PRetirement q => fst <$> commit_retirement c q
  end.

Definition abort (c : EndpointCoordinator) (p : Prepared) : result EndpointError () :=
  match p with
  | PObservation q => abort_observation c q
  | PRehydration q => abort_authority_rehydration c q
  | PRelease q => abort_release c q
  | PRetirement q => abort_retirement c q
  end.

Lemma commit_Ok c p c' : commit c p = Ok c' ↔ revision c = base_of p ∧ c' = projected_of p.
Proof.
  destruct p; simpl; unfold commit_observation, commit_authority_rehydration, commit_release,
    commit_retirement;
    match goal with |- context [?a =? ?b] => destruct (Z.eqb_spec a b) end; simpl; naive_solver.
Qed.

Lemma abort_Ok c p : abort c p = Ok () ↔ revision c = base_of p.
Proof.
  destruct p; simpl; unfold abort_observation, abort_authority_rehydration, abort_release,
    abort_retirement;
    match goal with |- context [?a =? ?b] => destruct (Z.eqb_spec a b) end; simpl; naive_solver.
Qed.

(** ** The system *)

Record Sys := mkSys { sy_coord : EndpointCoordinator; sy_pending : list Prepared }.

Inductive sys_step : Sys → Sys → Prop :=
| step_query c ps id c' stamp :
    begin_query c id = Ok (c', stamp) → sys_step (mkSys c ps) (mkSys c' ps)
| step_acquire c ps key c' lease :
    acquire c key = Ok (c', lease) → sys_step (mkSys c ps) (mkSys c' ps)
| step_prepare c ps p :
    prepared_from c p → sys_step (mkSys c ps) (mkSys c (p :: ps))
| step_commit c ps1 p ps2 c' :
    commit c p = Ok c' → sys_step (mkSys c (ps1 ++ p :: ps2)) (mkSys c' (ps1 ++ ps2))
| step_drop c ps1 p ps2 :
    (* aborted, or found stale *)
    sys_step (mkSys c (ps1 ++ p :: ps2)) (mkSys c (ps1 ++ ps2)).

(** States reachable from a coordinator built by [new]. *)
Definition reachable_from (c0 : EndpointCoordinator) (s : Sys) : Prop :=
  rtc sys_step (mkSys c0 []) s.

(** What the system maintains: the coordinator is sound, its configuration is the initial
    one, and a pending transaction that is not stale was prepared from this very state. *)
Record sys_ok (c0 : EndpointCoordinator) (s : Sys) : Prop := {
  so_coord : coord_ok (sy_coord s);
  so_specs : specs (logical (sy_coord s)) = specs (logical c0);
  so_pending p : p ∈ sy_pending s → base_of p ≤ revision (sy_coord s)
    ∧ (base_of p = revision (sy_coord s) → prepared_from (sy_coord s) p);
}.

Lemma prepared_good c p : coord_ok c → prepared_from c p →
  good_transition (stage_of p) c (projected_of p) (plan_of p) ∧ base_of p = revision c
  ∧ (projected_of p = c ∨ revision (projected_of p) = revision c + 1).
Proof.
  intros Hc. destruct p as [q|q|q|q]; simpl.
  - intros (stamp & obs & now & entropy & H). unfold prepare_observation in H.
    apply bind_Ok in H as ([c' r] & Ha & H).
    apply bind_Ok in H as (n & [-> _]%ok_or_Ok%u64_checked_add_Some & [= <-]).
    destruct (logical c !! qs_logical stamp) as [st|] eqn:Hst.
    2:{ unfold apply_observation in Ha. by rewrite Hst in Ha. }
    destruct (apply_observation_good c stamp obs now entropy st Hc Hst)
      as (c'' & r' & Ha' & Hg & Hrev & _). rewrite Ha in Ha'. injection Ha' as <- <-.
    cbn [po_projected po_result po_base_revision]. split_and!; [|done|right; by cbn].
    by apply good_transition_revision.
  - intros H. destruct (rehydration_good c Hc) as [(p & Hp & Hg & Hb & Hr & _)|[He _]]; [|congruence].
    rewrite H in Hp. by injection Hp as <-.
  - intros (lease & H). pose proof H as H'. unfold prepare_release, apply_release in H'.
    apply bind_Ok in H' as ([c' pl] & Ha & H').
    apply bind_Ok in H' as (n & [-> Hlt]%ok_or_Ok%u64_checked_add_Some & _).
    apply bind_Ok in Ha as (key & Hkey%ok_or_Ok & Ha).
    apply if_err_Ok in Ha as [->%bool_decide_eq_false%dec_stable _].
    destruct (release_good c lease Hc Hkey) as (p & Hp & Hg & Hb & Hr & _); [apply Hlt|].
    rewrite H in Hp. injection Hp as <-. by split_and!; [..|right].
  - intros H. assert (revision c + 1 < 2 ^ 64) as Hrev.
    { unfold prepare_retirement in H. case_bool_decide; [done|].
      apply bind_Ok in H as (pl & _ & H). apply bind_Ok in H as (_ & _ & H).
      by apply bind_Ok in H as (n & [-> ?]%ok_or_Ok%u64_checked_add_Some & _). }
    destruct (retirement_good c Hc Hrev) as (o & Ho & Hp). rewrite H in Ho. injection Ho as <-.
    destruct (Hp q eq_refl) as (? & ? & ?). by split_and!; [..|right].
Qed.

Lemma sys_ok_start c0 : coord_ok c0 → sys_ok c0 (mkSys c0 []).
Proof. intros. split; [done|done|]. intros p Hp. by apply not_elem_of_nil in Hp. Qed.

(** A step that advances the revision makes everything pending stale. *)
Lemma sys_ok_advance c0 c ps c' ps' : sys_ok c0 (mkSys c ps) → coord_ok c' →
  specs (logical c') = specs (logical c) → revision c' = revision c + 1 →
  (∀ p, p ∈ ps' → p ∈ ps) → sys_ok c0 (mkSys c' ps').
Proof.
  intros [_ Hs Hp] Hc Hs' Hrev Hsub. cbn [sy_coord sy_pending] in *. split; cbn [sy_coord sy_pending].
  - done.
  - by rewrite Hs'.
  - intros p Hin. destruct (Hp p (Hsub p Hin)). split; lia.
Qed.

Lemma sys_ok_step c0 s s' : sys_ok c0 s → sys_step s s' → sys_ok c0 s'.
Proof.
  intros Hs Hstep. destruct Hstep as [c ps id c' stamp H|c ps key c' lease H|c ps p H
    |c ps1 p ps2 c' H|c ps1 p ps2]; pose proof (so_coord _ _ Hs) as Hc; cbn [sy_coord] in Hc.
  - destruct (begin_query_good _ _ _ _ Hc H) as (? & ? & ? & _).
    by eapply sys_ok_advance.
  - destruct (acquire_good _ _ _ _ Hc H) as (? & ? & ? & _). by eapply sys_ok_advance.
  - destruct (prepared_good c p Hc H) as (_ & Hb & _). split; [apply Hs|apply Hs|].
    cbn [sy_coord sy_pending]. intros p' [->|Hin]%elem_of_cons; [by split; [lia|]|].
    by apply (so_pending _ _ Hs).
  - apply commit_Ok in H as [Hb ->].
    assert (p ∈ ps1 ++ p :: ps2) as Hin by set_solver.
    destruct (so_pending _ _ Hs p Hin) as [_ Hfrom]. specialize (Hfrom (eq_sym Hb)).
    destruct (prepared_good c p Hc Hfrom) as (Hg & _ & [Heq|Hrev]).
    + rewrite Heq. split; [apply Hs|apply Hs|]. cbn [sy_coord sy_pending]. intros p' Hp'.
      apply (so_pending _ _ Hs). simpl. set_solver.
    + eapply sys_ok_advance; [exact Hs|apply Hg|apply Hg|done|]. set_solver.
  - split; [apply Hs|apply Hs|]. cbn [sy_coord sy_pending]. intros p' Hp'.
    apply (so_pending _ _ Hs). simpl. set_solver.
Qed.

Lemma reachable_ok endpoints seeds now c0 s :
  EndpointCoordinator_new endpoints seeds now = Ok c0 → reachable_from c0 s → sys_ok c0 s.
Proof.
  intros Hnew Hr. assert (sys_ok c0 (mkSys c0 [])) as H0 by (apply sys_ok_start; by eapply new_ok).
  unfold reachable_from in Hr. remember (mkSys c0 []) as s0 eqn:Heq. clear Heq.
  induction Hr as [|s1 s2 s3 Hstep _ IH]; [done|]. apply IH. by eapply sys_ok_step.
Qed.

(** The endpoints of the configuration, by their id. *)
Definition configured (endpoints : list LogicalEndpoint) (l : gmap Z LogicalState) : Prop :=
  ∀ id st, l !! id = Some st → spec st ∈ endpoints ∧ le_id (spec st) = id.

Lemma new_configured endpoints seeds now c0 :
  EndpointCoordinator_new endpoints seeds now = Ok c0 → configured endpoints (logical c0).
Proof.
  unfold EndpointCoordinator_new. intros (l & Hl & H)%bind_Ok. apply if_err_Ok in H as [_ H].
  apply bind_Ok in H as (m & _ & H). apply if_err_Ok in H as [_ H].
  apply bind_Ok in H as (s & _ & [= <-]). cbn [logical]. revert Hl.
  apply (fold_res_ind (add_endpoint now) (λ pre (m : gmap Z LogicalState), configured pre m)).
  { intros id st H. by rewrite lookup_empty in H. }
  intros pre e m0 m' _ IH H. unfold add_endpoint in H. apply bind_Ok in H as (_ & _ & H).
  do 2 (apply if_err_Ok in H as [_ H]). apply if_err_Ok in H as [_ [= <-]].
  intros id st [[<- <-]|[_ Hst]]%lookup_insert_Some; cbn [spec].
  - split; [|done]. apply elem_of_app. right. by left.
  - destruct (IH id st Hst). split; [|done]. apply elem_of_app. by left.
Qed.

Lemma configured_specs endpoints l1 l2 : specs l1 = specs l2 →
  configured endpoints l2 → configured endpoints l1.
Proof.
  intros Hs Hl id st Hst. destruct (specs_lookup _ _ _ _ Hs Hst) as (st' & Hst' & He).
  rewrite <- He. by apply Hl.
Qed.

(** ** Theorems *)

(** An endpoint the dialer may use: it belongs to a configured endpoint, its address is in
    that endpoint's verified authority and permitted by its policy, and it carries that
    endpoint's port, protocol and authentication. *)
Definition confined (endpoints : list LogicalEndpoint) (d : DialCandidate) : Prop :=
  ∃ e, e ∈ endpoints ∧ le_id e = ck_logical (dc_key d) ∧ dc_ip d = ck_ip (dc_key d)
    ∧ dc_ip d ∈ allowed (le_authority e) ∧ permits (le_address_policy e) (dc_ip d) = true
    ∧ dc_port d = le_port e ∧ dc_protocol d = le_protocol e ∧ dc_auth d = le_auth e
    ∧ dc_authority_generation d = manifest_generation (le_authority e).

Lemma snapshot_confined endpoints c d : coord_ok c → configured endpoints (logical c) →
  d ∈ ds_candidates (snapshot c) → confined endpoints d.
Proof.
  intros Hc Hcf Hd. destruct (build_snapshot_keys _ _ _ _ (co_snapshot _ Hc)) as (_ & _ & Hds).
  destruct (Hds d Hd) as [Hdc Hk]. destruct (co_authority _ Hc _ (dialable_sub _ _ Hk))
    as (st & Hst & Hip & Hp). unfold dial_candidate in Hdc. rewrite Hst in Hdc.
  destruct (Hcf _ _ Hst) as [Hin Hid]. exists (spec st).
  injection Hdc as Hdc. rewrite <- Hdc in *. cbn [dc_key dc_ip dc_port dc_protocol dc_auth
    dc_authority_generation ck_logical] in *. done.
Qed.

Lemma snapshot_nonempty c : coord_ok c → ds_candidates (snapshot c) ≠ [].
Proof.
  intros Hc. destruct (build_snapshot_keys _ _ _ _ (co_snapshot _ Hc)) as (_ & Hks & _). intros He.
  rewrite He in Hks. destruct (set_choose_L _ (co_dialable _ Hc)) as [k Hk].
  apply (elem_of_in_order key_le) in Hk. rewrite <- Hks in Hk. by apply not_elem_of_nil in Hk.
Qed.

(** C7: No locator answer widens the signed authority, and the dialer never runs dry: in
    every state the coordinator can reach, over queries, observations, rehydrations, leases
    and retirements in any interleaving, the published snapshot is not empty and every
    address in it is in the verified authority of a configured endpoint, permitted by its
    address policy and paired with that endpoint's authentication; and every lease is
    counted at a candidate that still exists. *)
Theorem endpoint_invariant (endpoints : list LogicalEndpoint) (seeds : list SeedCandidate) (now : Z)
    (c0 : EndpointCoordinator) (s : Sys) :
  EndpointCoordinator_new endpoints seeds now = Ok c0 → reachable_from c0 s →
  ds_candidates (snapshot (sy_coord s)) ≠ []
  ∧ (∀ d, d ∈ ds_candidates (snapshot (sy_coord s)) → confined endpoints d)
  ∧ (∀ id k, leases (sy_coord s) !! id = Some k → ∃ cs, candidates (sy_coord s) !! k = Some cs
       ∧ cs_leases cs = lease_count (leases (sy_coord s)) k ∧ id < next_lease_id (sy_coord s)).
Proof.
  intros Hnew Hr. pose proof (reachable_ok _ _ _ _ _ Hnew Hr) as [Hc Hs _]. split_and!.
  - by apply snapshot_nonempty.
  - intros d. apply snapshot_confined; [done|].
    eapply configured_specs; [exact Hs|by eapply new_configured].
  - intros id k Hid. pose proof (co_leased _ Hc _ _ Hid) as Hin. apply elem_of_dom in Hin as [cs Hcs].
    exists cs. split_and!; [done|by eapply co_count|by eapply co_fresh].
Qed.

(** Transactions are serial: in every reachable state, a pending transaction commits
    only if the state is exactly the one it was prepared from, and the result is exactly
    what was projected then; anything that happened in between makes it stale, for a
    commit and for an abort alike. *)
Theorem commit_serial (endpoints : list LogicalEndpoint) (seeds : list SeedCandidate) (now : Z)
    (c0 : EndpointCoordinator) (s : Sys) (p : Prepared) (c' : EndpointCoordinator) :
  EndpointCoordinator_new endpoints seeds now = Ok c0 → reachable_from c0 s →
  p ∈ sy_pending s →
  (commit (sy_coord s) p = Ok c' ↔
     base_of p = revision (sy_coord s) ∧ prepared_from (sy_coord s) p ∧ c' = projected_of p)
  ∧ (abort (sy_coord s) p = Ok () ↔ base_of p = revision (sy_coord s)).
Proof.
  intros Hnew Hr Hin. pose proof (reachable_ok _ _ _ _ _ Hnew Hr) as Hs.
  destruct (so_pending _ _ Hs p Hin) as [_ Hfrom]. rewrite commit_Ok, abort_Ok. naive_solver.
Qed.

(** The access that the candidates of a coordinator have on the host. *)
Definition host_of (c : EndpointCoordinator) : Host := access (logical c) (dom (candidates c)).

(** A candidate of a snapshot can be reached on a host. *)
Definition reachable_on (h : Host) (d : DialCandidate) : Prop :=
  mkCarrierTuple (dc_ip d) (dc_port d) (dc_protocol d) ∈ fw h ∧ dc_ip d ∈ routes h.

Lemma snapshot_access c d : coord_ok c → d ∈ ds_candidates (snapshot c) → reachable_on (host_of c) d.
Proof.
  intros Hc Hd. destruct (build_snapshot_keys _ _ _ _ (co_snapshot _ Hc)) as (_ & _ & Hds).
  destruct (Hds d Hd) as [Hdc Hk]. apply dialable_sub in Hk. pose proof (co_known _ Hc _ Hk) as [st Hst].
  unfold dial_candidate in Hdc. rewrite Hst in Hdc. injection Hdc as Hdc. split.
  - apply elem_of_access_fw. exists (dc_key d). split; [done|]. unfold key_tuple. rewrite Hst.
    simpl. unfold LogicalEndpoint_tuple. rewrite <- Hdc. done.
  - apply elem_of_access_routes. exists (dc_key d). split; [done|]. by rewrite <- Hdc.
Qed.

Lemma reachable_on_sub h1 h2 d : host_sub h1 h2 → reachable_on h1 d → reachable_on h2 d.
Proof. intros [Hf Hr] [? ?]. split; [by apply Hf|by apply Hr]. Qed.

(** The snapshot the dialer sees after a prefix of a plan was executed. *)
Definition published (c : EndpointCoordinator) (p : Prepared) (executed : list TransitionOperation)
  : DialSnapshot := if existsb is_publish executed then snapshot (projected_of p) else snapshot c.

(** Executing a plan never cuts off what is in use.  Take a pending transaction that can
    still commit, and stop the execution of its plan after any prefix: every endpoint of
    the snapshot published at that point, and every endpoint whose lease the transaction
    keeps, is allowed by the firewall and routed; nothing is open that neither the old nor
    the new candidates need; undoing the executed operations in reverse order restores the
    host exactly.  The whole plan leaves exactly the access of the committed state. *)
Theorem plan_execution_safe (endpoints : list LogicalEndpoint) (seeds : list SeedCandidate) (now : Z)
    (c0 : EndpointCoordinator) (s : Sys) (p : Prepared) (executed rest : list TransitionOperation) :
  EndpointCoordinator_new endpoints seeds now = Ok c0 → reachable_from c0 s →
  p ∈ sy_pending s → base_of p = revision (sy_coord s) →
  operations (plan_of p) = executed ++ rest →
  let h := exec_all executed (host_of (sy_coord s)) in
  (∀ d, d ∈ ds_candidates (published (sy_coord s) p executed) → reachable_on h d)
  ∧ (∀ id k, leases (projected_of p) !! id = Some k → host_sub (access (logical (sy_coord s)) {[k]}) h)
  ∧ fw h ⊆ fw (host_of (sy_coord s)) ∪ fw (host_of (projected_of p))
  ∧ exec_all (rollback executed) h = host_of (sy_coord s)
  ∧ exec_all (operations (plan_of p)) (host_of (sy_coord s)) = host_of (projected_of p).
Proof.
  intros Hnew Hr Hin Hb Hops h. pose proof (reachable_ok _ _ _ _ _ Hnew Hr) as Hs.
  destruct (so_pending _ _ Hs p Hin) as [_ Hfrom]. specialize (Hfrom Hb).
  pose proof (so_coord _ _ Hs) as Hc.
  destruct (prepared_good _ _ Hc Hfrom) as ([Hok Hsp Htt Hwo Hpub Hsnap _ _ Hls] & _).
  assert (host_of (projected_of p) = access (logical (sy_coord s)) (dom (candidates (projected_of p))))
    as HB by (unfold host_of; by apply access_specs).
  rewrite <- HB in Htt. fold (host_of (sy_coord s)) in Htt.
  destruct (exec_safe _ _ _ Htt executed rest Hwo Hops) as [HsA HsB]. fold h in HsA, HsB.
  assert (host_sub (host_of (projected_of p)) h ∨
    (existsb is_publish executed = false ∧ host_sub (host_of (sy_coord s)) h)) as Hcase.
  { destruct (existsb is_publish executed) eqn:He; [left; apply HsB; by left|].
    destruct (existsb is_publish (operations (plan_of p))) eqn:Ho; [right; by split; [|apply HsA]|].
    left. apply HsB. by right. }
  split_and!.
  - intros d Hd. unfold published in Hd. destruct (existsb is_publish executed) eqn:He.
    + eapply reachable_on_sub; [apply HsB; by left|]. by apply snapshot_access.
    + destruct Hcase as [HB'|[_ HA]].
      * destruct (existsb is_publish (operations (plan_of p))) eqn:Ho.
        -- eapply reachable_on_sub; [by apply HsA|]. by apply snapshot_access.
        -- rewrite <- (Hpub eq_refl) in Hd. eapply reachable_on_sub; [exact HB'|].
           by apply snapshot_access.
      * eapply reachable_on_sub; [exact HA|]. by apply snapshot_access.
  - intros id k Hid. destruct Hcase as [[Hf Hro]|[_ [Hf Hro]]].
    + pose proof (co_leased _ Hok _ _ Hid) as Hk. rewrite HB in Hf, Hro.
      destruct (access_mono (logical (sy_coord s)) {[k]} (dom (candidates (projected_of p)))) as [? ?];
        [set_solver|]. split; by etrans.
    + pose proof (co_leased _ Hc _ _ (Hls _ _ Hid)) as Hk.
      destruct (access_mono (logical (sy_coord s)) {[k]} (dom (candidates (sy_coord s)))) as [? ?];
        [set_solver|]. split; by etrans.
  - by destruct (exec_within _ _ _ Htt executed rest Hops).
  - by eapply exec_rollback.
  - by apply exec_whole.
Qed.

(** The internal checks never fire: in every reachable state an observation of a
    configured endpoint can be prepared whatever the answer says, a held lease can be
    released, depublished endpoints can be retired and the signed authority can be
    restored, to exactly the full authority, unless a 64-bit counter is exhausted.  No
    [expect] panics and no plan is refused by its own order check. *)
Theorem coordinator_total (endpoints : list LogicalEndpoint) (seeds : list SeedCandidate) (now : Z)
    (c0 : EndpointCoordinator) (s : Sys) :
  EndpointCoordinator_new endpoints seeds now = Ok c0 → reachable_from c0 s →
  let c := sy_coord s in
  revision c + 1 < 2 ^ 64 →
  (∀ stamp obs now entropy, is_Some (logical c !! qs_logical stamp) →
     ∃ p, prepare_observation c stamp obs now entropy = Ok p)
  ∧ (∀ lease, leases c !! lease_id lease = Some (lease_key lease) →
       ∃ p, prepare_release c lease = Ok p)
  ∧ (∃ o, prepare_retirement c = Ok o)
  ∧ (generation (snapshot c) + 1 < 2 ^ 64 → ∃ p, prepare_authority_rehydration c = Ok p
       ∧ dialable_keys (candidates (pa_projected p)) = list_to_set (authority_keys (logical c))).
Proof.
  intros Hnew Hr c Hrev. pose proof (so_coord _ _ (reachable_ok _ _ _ _ _ Hnew Hr)) as Hc.
  fold c in Hc. split_and!.
  - intros stamp obs t entropy [st Hst].
    destruct (apply_observation_good c stamp obs t entropy st Hc Hst) as (c' & r & Ha & _).
    unfold prepare_observation. rewrite Ha. cbn [mbind result_bind]. unfold u64_checked_add.
    rewrite (proj2 (Z.ltb_lt _ _) Hrev). by eexists.
  - intros lease Hl. destruct (release_good c lease Hc Hl Hrev) as (p & ? & _). by exists p.
  - destruct (retirement_good c Hc Hrev) as (o & ? & _). by exists o.
  - intros Hgen. destruct (rehydration_good c Hc) as [(p & ? & _ & _ & _ & ?)|[_ ?]]; [|lia].
    by exists p.
Qed.

(** The refresh schedule keeps its documented bounds: a TTL is refreshed between 70 and
    90 percent of its clamped value, a retry waits at least 250 milliseconds and at most
    the exponential ceiling of its streak and 30 seconds; so, whatever an accepted answer
    or failure says, the next refresh of the endpoint lies at least a quarter of a second
    and at most 54 minutes ahead. *)
Theorem refresh_schedule_bounds (c : EndpointCoordinator) (stamp : QueryStamp)
    (obs : ResolutionObservation) (now entropy ttl streak : Z) (p : PreparedObservation) :
  coord_ok c → prepare_observation c stamp obs now entropy = Ok p →
  (let t := clamp ttl MIN_TTL_SECS MAX_TTL_SECS in
   700 * t ≤ jittered_ttl_ms ttl entropy ≤ 900 * t)
  ∧ 250 ≤ retry_delay_ms streak entropy
    ≤ Z.min (RETRY_BASE_MS * 2 ^ Z.min (Z.max 0 (streak - 1)) 31) RETRY_CAP_MS
  ∧ (disposition (po_result p) ≠ IgnoredOutOfOrder → now + 3240000 < 2 ^ 64 →
     now + 250 ≤ or_next_refresh_at_ms (po_result p) ≤ now + 3240000).
Proof.
  intros Hc H. split_and!; [apply jittered_bounds..|apply retry_bounds|apply retry_bounds|].
  unfold prepare_observation in H. apply bind_Ok in H as ([c' r] & Ha & H).
  apply bind_Ok in H as (n & _ & [= <-]). cbn [po_result].
  destruct (logical c !! qs_logical stamp) as [st|] eqn:Hst.
  2:{ unfold apply_observation in Ha. by rewrite Hst in Ha. }
  destruct (apply_observation_good c stamp obs now entropy st Hc Hst)
    as (c'' & r' & Ha' & _ & _ & Hsch). rewrite Ha in Ha'. injection Ha' as <- <-.
  intros Hd Hnow. destruct Hsch as [[? _]|(delay & ? & ->)]; [done|].
  unfold u64_saturating_add. lia.
Qed.

(** The order validator accepts exactly the safe orders: additions before the
    publication, removals after it, the firewall opened before routes are added and closed
    before they are removed. *)
Theorem validate_order_iff (plan : TransitionPlan) :
  validate_order plan = Ok () ↔ well_ordered (operations plan).
Proof. apply validate_order_Ok. Qed.

(** ** Samples *)

Module EndpointSample.

(** One endpoint with two signed addresses, 9.9.9.1 and 9.9.9.2, seeded with the first;
    then a DNS answer that selects the second. *)
Definition ip1 : Z := 151587073.
Definition ip2 : Z := 151587074.
Definition sample_endpoint : LogicalEndpoint :=
  mkLogicalEndpoint 7 (bz <$> [97; 46; 98]) 443 ProtoTcp 1
    (mkVerifiedIpv4Authority 4 {[ip1; ip2]}) (mkAddressPolicy false).
Definition seeds : list SeedCandidate := [mkSeedCandidate 7 ip1].

Definition empty : EndpointCoordinator :=
  mkEndpointCoordinator 0 ∅ ∅ ∅ 0 (mkDialSnapshot 0 []).
Definition unwrap {E A} (d : A) (m : result E A) : A := match m with Ok a => a | Err _ => d end.

Lemma unwrap_ok {E A} (d : A) (m : result E A) : is_ok m = true → m = Ok (unwrap d m).
Proof. by destruct m. Qed.

Definition c0 : EndpointCoordinator := unwrap empty (EndpointCoordinator_new [sample_endpoint] seeds 0).
Definition c1 : EndpointCoordinator := (unwrap (empty, mkQueryStamp 0 0) (begin_query c0 7)).1.
Definition answer : PreparedObservation :=
  unwrap (mkPreparedObservation 0 empty (mkObservationResult ObsApplied (unchanged (mkDialSnapshot 0 [])) 0))
    (prepare_observation c1 (mkQueryStamp 7 1) (Positive [(ip2, 60)]) 1000 5).
Definition s1 : Sys := mkSys c1 [PObservation answer].

Lemma new_c0 : EndpointCoordinator_new [sample_endpoint] seeds 0 = Ok c0.
Proof. apply unwrap_ok. by vm_compute. Qed.

Lemma answer_prepared :
  prepare_observation c1 (mkQueryStamp 7 1) (Positive [(ip2, 60)]) 1000 5 = Ok answer.
Proof. apply unwrap_ok. by vm_compute. Qed.

Lemma reachable_s1 : reachable_from c0 s1.
Proof.
  apply (rtc_l _ _ (mkSys c1 [])).
  - assert (begin_query c0 7 = Ok (unwrap (empty, mkQueryStamp 0 0) (begin_query c0 7))) as H
      by (apply unwrap_ok; by vm_compute).
    rewrite (surjective_pairing (unwrap _ _)) in H. by eapply step_query.
  - apply rtc_once. apply step_prepare. eexists _, _, _, _. apply answer_prepared.
Qed.

Lemma endpoint_invariant_witness :
  ds_candidates (snapshot c1) ≠ [] ∧ ∀ d, d ∈ ds_candidates (snapshot c1) → confined [sample_endpoint] d.
Proof.
  destruct (endpoint_invariant [sample_endpoint] seeds 0 c0 s1 new_c0 reachable_s1) as (H1 & H2 & _).
  exact (conj H1 H2).
Defined.

Lemma commit_serial_witness : commit c1 (PObservation answer) = Ok (po_projected answer).
Proof.
  apply (commit_serial [sample_endpoint] seeds 0 c0 s1 (PObservation answer) _ new_c0 reachable_s1);
    [by left|]. split_and!; [by vm_compute| |done]. eexists _, _, _, _. apply answer_prepared.
Defined.

(** The plan opens the firewall and the route for the second address and then publishes;
    here after its first operation. *)
Lemma plan_execution_witness :
  exec_all (rollback (take 1 (operations (or_plan (po_result answer)))))
    (exec_all (take 1 (operations (or_plan (po_result answer)))) (host_of c1)) = host_of c1
  ∧ length (operations (or_plan (po_result answer))) = 3%nat.
Proof.
  split; [|by vm_compute].
  apply (plan_execution_safe [sample_endpoint] seeds 0 c0 s1 (PObservation answer)
    (take 1 (operations (or_plan (po_result answer))))
    (drop 1 (operations (or_plan (po_result answer)))) new_c0 reachable_s1); [by left|by vm_compute|].
  symmetry. apply take_drop.
Defined.

Lemma coordinator_total_witness : ∃ o, prepare_retirement c1 = Ok o.
Proof.
  apply (coordinator_total [sample_endpoint] seeds 0 c0 s1 new_c0 reachable_s1).
  by vm_compute.
Defined.

Lemma refresh_schedule_witness :
  1000 + 250 ≤ or_next_refresh_at_ms (po_result answer) ≤ 1000 + 3240000.
Proof.
  apply (refresh_schedule_bounds c1 (mkQueryStamp 7 1) (Positive [(ip2, 60)]) 1000 5 0 0 answer
    (so_coord _ _ (reachable_ok _ _ _ _ _ new_c0 reachable_s1)) answer_prepared).
  - by vm_compute.
  - by vm_compute.
Defined.

End EndpointSample.
