(* ===== verification/EndpointRuntime.v ===== *)
(** * Live endpoints: transactional execution on the host

    Models [shadowpipe-core/src/endpoint_runtime.rs]: the validation of a transition plan
    for its kind of transaction, its execution through a host adapter, and compensation in
    reverse order when an operation fails.  The adapter is the source's trait, a class
    here; what its documentation requires of an implementation is the class
    [EndpointHostAdapterLaws].  The theorems show that a transaction is all or nothing
    whenever the compensation goes through, and that every plan the coordinator of
    [Endpoint] prepares passes the validation, so that the two modules fit. *)

From S2P Require Import Prelude EndpointPlan Endpoint EndpointSystem.

(** ** The adapter *)

Inductive ExactHostOperation :=
| FirewallAllow (t : CarrierTuple)
| FirewallDeny (t : CarrierTuple)
| RouteAddBypass (ip : Z)
| RouteRemoveBypass (ip : Z).

#[export] Instance ExactHostOperation_eq_dec : EqDecision ExactHostOperation.
Proof. solve_decision. Defined.
#[export] Instance ExactHostOperation_countable : Countable ExactHostOperation.
Proof.
  refine (inj_countable' (λ o, match o with
      | FirewallAllow t => inl (inl t) | FirewallDeny t => inl (inr t)
      | RouteAddBypass ip => inr (inl ip) | RouteRemoveBypass ip => inr (inr ip) end)
    (λ x, match x with
      | inl (inl t) => FirewallAllow t | inl (inr t) => FirewallDeny t
      | inr (inl ip) => RouteAddBypass ip | inr (inr ip) => RouteRemoveBypass ip end) _).
  by intros [].
Defined.

Definition inverse (o : ExactHostOperation) : ExactHostOperation :=
  match o with
  | FirewallAllow t => FirewallDeny t
  | FirewallDeny t => FirewallAllow t
  | RouteAddBypass ip => RouteRemoveBypass ip
  | RouteRemoveBypass ip => RouteAddBypass ip
  end.

Definition exact_ip (o : ExactHostOperation) : Z :=
  match o with
  | FirewallAllow t | FirewallDeny t => ct_ip t
  | RouteAddBypass ip | RouteRemoveBypass ip => ip
  end.

Inductive OwnedMutation := Changed | AlreadyExact.

(** The trait: a host of type [H] whose operations fail with an [E]. *)
Class EndpointHostAdapter (H E : Type) := {
  firewall_allow : H → CarrierTuple → H * result E OwnedMutation;
  firewall_deny : H → CarrierTuple → H * result E OwnedMutation;
  route_add_bypass : H → Z → H * result E OwnedMutation;
  route_remove_bypass : H → Z → H * result E OwnedMutation;
}.

(** ** Validation *)

Inductive HostTransactionKind :=
| ObservationStage | AuthorityRehydration | Retirement | LeaseRelease.

Definition is_monotonic_stage (k : HostTransactionKind) : bool :=
  match k with ObservationStage | AuthorityRehydration => true | _ => false end.

Record SnapshotPublication := mkSnapshotPublication { sp_from : Z; sp_to : Z }.

Inductive PlanRejection :=
| MultiplePublishMarkers
| PublishForbidden
| PublishNotFinal
| MissingPublishMarker
| PublishTargetMismatch (marker_to plan_target : Z)
| NonAdvancingPublish (from to : Z)
| OperationNotAllowed (o : ExactHostOperation)
| DuplicateHostOperation (o : ExactHostOperation)
| UnsafeHostOrder
| RouteWithoutMatchingFirewall (ip : Z)
| ModelOrderRejected.

Record PlanValidationError := mkPlanValidationError {
  pve_kind : HostTransactionKind;
  pve_rejection : PlanRejection;
}.

Record ValidatedHostPlan := mkValidatedHostPlan {
  vh_operations : list ExactHostOperation;
  vh_publication : option SnapshotPublication;
}.

(** The local variables of the loop of [validate_plan]. *)
Record PlanScan := mkPlanScan {
  sc_index : nat;
  sc_operations : list ExactHostOperation;
  sc_publication : option SnapshotPublication;
  sc_seen : gset ExactHostOperation;
  sc_firewall_ips : gset Z;
  sc_route_phase : bool;
}.

Definition scan_start : PlanScan := mkPlanScan 0 [] None ∅ ∅ false.

(** The end of the loop body: no operation occurs twice. *)
Definition scan_push (sc : PlanScan) (ips : gset Z) (route_phase : bool) (exact : ExactHostOperation)
  : result PlanRejection PlanScan :=
  if bool_decide (exact ∈ sc_seen sc) then Err (DuplicateHostOperation exact) else
  Ok (mkPlanScan (S (sc_index sc)) (sc_operations sc ++ [exact]) (sc_publication sc)
        ({[exact]} ∪ sc_seen sc) ips route_phase).

Definition scan_firewall (sc : PlanScan) (exact : ExactHostOperation)
  : result PlanRejection PlanScan :=
  if sc_route_phase sc then Err UnsafeHostOrder else
  scan_push sc ({[exact_ip exact]} ∪ sc_firewall_ips sc) (sc_route_phase sc) exact.

Definition scan_route (sc : PlanScan) (exact : ExactHostOperation)
  : result PlanRejection PlanScan :=
  if bool_decide (exact_ip exact ∉ sc_firewall_ips sc)
  then Err (RouteWithoutMatchingFirewall (exact_ip exact)) else
  scan_push sc (sc_firewall_ips sc) true exact.

Definition scan_operation (plan : TransitionPlan) (kind : HostTransactionKind) (sc : PlanScan)
    (op : TransitionOperation) : result PlanRejection PlanScan :=
  let stage := is_monotonic_stage kind in
  match op with
  | PublishSnapshot from to =>
      if negb stage then Err PublishForbidden else
      if negb (S (sc_index sc) =? length (operations plan))%nat then Err PublishNotFinal else
      if negb (to =? generation (plan_snapshot plan))
      then Err (PublishTargetMismatch to (generation (plan_snapshot plan))) else
      if to <=? from then Err (NonAdvancingPublish from to) else
      Ok (mkPlanScan (S (sc_index sc)) (sc_operations sc) (Some (mkSnapshotPublication from to))
            (sc_seen sc) (sc_firewall_ips sc) (sc_route_phase sc))
  | Firewall (Allow t) =>
      if stage then scan_firewall sc (FirewallAllow t) else Err (OperationNotAllowed (FirewallAllow t))
  | Route (AddBypass ip) =>
      if stage then scan_route sc (RouteAddBypass ip)
      else Err (OperationNotAllowed (RouteAddBypass ip))
  | Firewall (Deny t) =>
      if stage then Err (OperationNotAllowed (FirewallDeny t)) else scan_firewall sc (FirewallDeny t)
  | Route (RemoveBypass ip) =>
      if stage then Err (OperationNotAllowed (RouteRemoveBypass ip))
      else scan_route sc (RouteRemoveBypass ip)
  end.

Definition publish_count (plan : TransitionPlan) : nat :=
  length (filter (λ op, is_publish op = true) (operations plan)).

Definition validate_plan_rejection (plan : TransitionPlan) (kind : HostTransactionKind)
  : result PlanRejection ValidatedHostPlan :=
  if (1 <? publish_count plan)%nat then Err MultiplePublishMarkers else
  sc ← fold_res (scan_operation plan kind) scan_start (operations plan);
  if is_monotonic_stage kind && negb (bool_decide (sc_operations sc = []))
     && negb (bool_decide (is_Some (sc_publication sc)))
  then Err MissingPublishMarker else
  match validate_order plan with
  | Err _ => Err ModelOrderRejected
  | Ok _ => Ok (mkValidatedHostPlan (sc_operations sc) (sc_publication sc))
  end.

Definition validate_plan (plan : TransitionPlan) (kind : HostTransactionKind)
  : result PlanValidationError ValidatedHostPlan :=
  match validate_plan_rejection plan kind with
  | Ok v => Ok v
  | Err r => Err (mkPlanValidationError kind r)
  end.

(** ** Execution *)

Section Execution.
Context {H E : Type} {A : EndpointHostAdapter H E}.

Record HostOperationFailure := mkHostOperationFailure { hf_operation : ExactHostOperation; hf_error : E }.
Record HostTransactionFailure := mkHostTransactionFailure {
  tf_kind : HostTransactionKind;
  primary : HostOperationFailure;
  rollback_failures : list HostOperationFailure;
  changed_prefix : list ExactHostOperation;
}.
Inductive TransitionExecutionError :=
| InvalidPlan (e : PlanValidationError)
| HostFailed (f : HostTransactionFailure).

Record HostOperationRecord := mkHostOperationRecord {
  rec_operation : ExactHostOperation;
  rec_outcome : OwnedMutation;
}.
Record AppliedHostTransaction := mkAppliedHostTransaction {
  ap_kind : HostTransactionKind;
  ap_operations : list HostOperationRecord;
  ap_publication : option SnapshotPublication;
}.
Record RollbackError := mkRollbackError {
  rb_kind : HostTransactionKind;
  rb_failures : list HostOperationFailure;
}.

Definition changed_operations (a : AppliedHostTransaction) : list ExactHostOperation :=
  omap (λ r, match rec_outcome r with Changed => Some (rec_operation r) | AlreadyExact => None end)
    (ap_operations a).

Definition apply_exact (host : H) (o : ExactHostOperation) : H * result E OwnedMutation :=
  match o with
  | FirewallAllow t => firewall_allow host t
  | FirewallDeny t => firewall_deny host t
  | RouteAddBypass ip => route_add_bypass host ip
  | RouteRemoveBypass ip => route_remove_bypass host ip
  end.

(** The loop of [rollback_changed] over the inverses, the last change first. *)
Fixpoint undo_all (host : H) (todo : list ExactHostOperation) : H * list HostOperationFailure :=
  match todo with
  | [] => (host, [])
  | o :: todo =>
      match apply_exact host o with
      | (host, Ok _) => undo_all host todo
      | (host, Err e) =>
          let '(host, failures) := undo_all host todo in
          (host, mkHostOperationFailure o e :: failures)
      end
  end.

Definition rollback_changed (host : H) (changed : list ExactHostOperation)
  : H * list HostOperationFailure := undo_all host (inverse <$> rev changed).

(** The loop of [execute]; [records] and [changed] are its local vectors. *)
Fixpoint execute_loop (host : H) (kind : HostTransactionKind) (todo : list ExactHostOperation)
    (records : list HostOperationRecord) (changed : list ExactHostOperation)
  : H * result HostTransactionFailure (list HostOperationRecord) :=
  match todo with
  | [] => (host, Ok records)
  | o :: todo =>
      match apply_exact host o with
      | (host, Ok outcome) =>
          execute_loop host kind todo (records ++ [mkHostOperationRecord o outcome])
            (match outcome with Changed => changed ++ [o] | AlreadyExact => changed end)
      | (host, Err e) =>
          let '(host, failures) := rollback_changed host changed in
          (host, Err (mkHostTransactionFailure kind (mkHostOperationFailure o e) failures changed))
      end
  end.

Definition execute (host : H) (plan : TransitionPlan) (kind : HostTransactionKind)
  : H * result TransitionExecutionError AppliedHostTransaction :=
  match validate_plan plan kind with
  | Err e => (host, Err (InvalidPlan e))
  | Ok validated =>
      match execute_loop host kind (vh_operations validated) [] [] with
      | (host, Ok records) =>
          (host, Ok (mkAppliedHostTransaction kind records (vh_publication validated)))
      | (host, Err f) => (host, Err (HostFailed f))
      end
  end.

Definition stage_observation (host : H) (plan : TransitionPlan) := execute host plan ObservationStage.
Definition stage_authority_rehydration (host : H) (plan : TransitionPlan) :=
  execute host plan AuthorityRehydration.
Definition execute_retirement (host : H) (plan : TransitionPlan) := execute host plan Retirement.
Definition execute_release (host : H) (plan : TransitionPlan) := execute host plan LeaseRelease.

Definition rollback_applied (host : H) (applied : AppliedHostTransaction)
  : H * result RollbackError () :=
  match rollback_changed host (changed_operations applied) with
  | (host, []) => (host, Ok ())
  | (host, failures) => (host, Err (mkRollbackError (ap_kind applied) failures))
  end.
End Execution.
Arguments HostOperationFailure : clear implicits.
Arguments HostTransactionFailure : clear implicits.
Arguments TransitionExecutionError : clear implicits.
Arguments RollbackError : clear implicits.

(** ** What the validation accepts *)

Definition is_firewall (op : TransitionOperation) : bool :=
  match op with Firewall _ => true | _ => false end.
Definition is_route (op : TransitionOperation) : bool :=
  match op with Route _ => true | _ => false end.

(** The host operation of a step, and its address; none for a publication. *)
Definition exact_of (op : TransitionOperation) : option ExactHostOperation :=
  match op with
  | Firewall (Allow t) => Some (FirewallAllow t)
  | Firewall (Deny t) => Some (FirewallDeny t)
  | Route (AddBypass ip) => Some (RouteAddBypass ip)
  | Route (RemoveBypass ip) => Some (RouteRemoveBypass ip)
  | PublishSnapshot _ _ => None
  end.
Definition firewall_ip (op : TransitionOperation) : option Z :=
  match op with Firewall (Allow t) | Firewall (Deny t) => Some (ct_ip t) | _ => None end.
Definition route_ip (op : TransitionOperation) : option Z :=
  match op with Route (AddBypass ip) | Route (RemoveBypass ip) => Some ip | _ => None end.
Definition publication_of (ops : list TransitionOperation) : option SnapshotPublication :=
  foldl (λ acc op, match op with
    | PublishSnapshot from to => Some (mkSnapshotPublication from to) | _ => acc end) None ops.

(** The steps a kind of transaction may contain. *)
Definition permitted (stage : bool) (op : TransitionOperation) : bool :=
  if stage then is_add op || is_publish op else is_removal op.

(** The contract of a plan: only steps of its kind, none twice; the publication last and
    advancing to the plan's snapshot; the firewall before the routes; no route without a
    firewall step for its address; and no change staged without a publication. *)
Record admissible (stage : bool) (plan : TransitionPlan) : Prop := {
  ad_kind op : op ∈ operations plan → permitted stage op = true;
  ad_nodup : NoDup (operations plan);
  ad_publish pre from to post : operations plan = pre ++ PublishSnapshot from to :: post →
    post = [] ∧ to = generation (plan_snapshot plan) ∧ from < to;
  ad_firewall pre op post : operations plan = pre ++ op :: post → is_firewall op = true →
    existsb is_route pre = false;
  ad_route pre op post ip : operations plan = pre ++ op :: post → route_ip op = Some ip →
    ∃ fop, fop ∈ pre ∧ firewall_ip fop = Some ip;
  ad_published : stage = true → operations plan ≠ [] → existsb is_publish (operations plan) = true;
}.

(** The scan's state after a prefix of the plan. *)
Definition scanned (pre : list TransitionOperation) : PlanScan :=
  mkPlanScan (length pre) (omap exact_of pre) (publication_of pre)
    (list_to_set (omap exact_of pre)) (list_to_set (omap firewall_ip pre)) (existsb is_route pre).

(** What one iteration of the loop demands. *)
Definition scan_ok (plan : TransitionPlan) (stage : bool) (pre : list TransitionOperation)
    (op : TransitionOperation) : Prop :=
  permitted stage op = true
  ∧ match op with
    | PublishSnapshot from to =>
        S (length pre) = length (operations plan) ∧ to = generation (plan_snapshot plan) ∧ from < to
    | Firewall _ => existsb is_route pre = false ∧ op ∉ pre
    | Route _ => (∀ ip, route_ip op = Some ip → ip ∈ omap firewall_ip pre) ∧ op ∉ pre
    end.

(** The step that stands for a host operation in a plan. *)
Definition step_of (o : ExactHostOperation) : TransitionOperation :=
  match o with
  | FirewallAllow t => Firewall (Allow t)
  | FirewallDeny t => Firewall (Deny t)
  | RouteAddBypass ip => Route (AddBypass ip)
  | RouteRemoveBypass ip => Route (RemoveBypass ip)
  end.

Lemma exact_of_Some op o : exact_of op = Some o ↔ op = step_of o.
Proof. destruct op as [[]|[]|], o; simpl; naive_solver. Qed.

Lemma elem_of_exact (pre : list TransitionOperation) o : o ∈ omap exact_of pre ↔ step_of o ∈ pre.
Proof. rewrite list_elem_of_omap. setoid_rewrite exact_of_Some. naive_solver. Qed.

Lemma scan_push_Ok sc ips rp o sc' : scan_push sc ips rp o = Ok sc' ↔
  (o ∉ sc_seen sc) ∧ sc' = mkPlanScan (S (sc_index sc)) (sc_operations sc ++ [o]) (sc_publication sc)
    ({[o]} ∪ sc_seen sc) ips rp.
Proof. unfold scan_push. case_bool_decide; naive_solver. Qed.

Lemma omap_snoc {A B} (f : A → option B) (l : list A) x : omap f (l ++ [x]) = omap f l ++ option_list (f x).
Proof. rewrite omap_app. simpl. by destruct (f x). Qed.

Definition add_opt {A} `{Countable A} (o : option A) (s : gset A) : gset A :=
  match o with Some x => {[x]} ∪ s | None => s end.

Lemma list_to_set_snoc {A B} `{Countable B} (f : A → option B) (l : list A) x :
  list_to_set (C := gset B) (omap f (l ++ [x])) = add_opt (f x) (list_to_set (omap f l)).
Proof. rewrite omap_snoc. destruct (f x); simpl; set_solver. Qed.

Lemma scanned_snoc pre op : scanned (pre ++ [op]) =
  mkPlanScan (S (length pre)) (omap exact_of pre ++ option_list (exact_of op))
    (match op with PublishSnapshot from to => Some (mkSnapshotPublication from to)
     | _ => publication_of pre end)
    (add_opt (exact_of op) (list_to_set (omap exact_of pre)))
    (add_opt (firewall_ip op) (list_to_set (omap firewall_ip pre)))
    (existsb is_route pre || is_route op).
Proof.
  unfold scanned, publication_of. rewrite !list_to_set_snoc, omap_snoc, foldl_app, existsb_app.
  cbn [foldl existsb]. by rewrite orb_false_r, length_app, Nat.add_1_r.
Qed.

(** One iteration goes through exactly when its demands are met, and records the step. *)
Lemma scan_operation_Ok plan kind pre op sc :
  scan_operation plan kind (scanned pre) op = Ok sc ↔
  scan_ok plan (is_monotonic_stage kind) pre op ∧ sc = scanned (pre ++ [op]).
Proof.
  rewrite scanned_snoc. unfold scan_ok, permitted.
  destruct op as [[t|t]|[ip|ip]|from to];
    cbn [scan_operation is_add is_publish is_removal orb exact_of firewall_ip route_ip add_opt
         is_route]; destruct (is_monotonic_stage kind); cbn [negb];
    unfold scan_firewall, scan_route;
    cbn [scanned sc_route_phase sc_firewall_ips sc_index sc_operations sc_publication sc_seen exact_ip].
  all: try (split; [done|by intros [[] _]]).
  1-2: destruct (existsb is_route pre) eqn:Hr; [naive_solver|].
  1-2: rewrite scan_push_Ok; cbn [scanned sc_seen sc_index sc_operations sc_publication];
       rewrite elem_of_list_to_set, elem_of_exact; simpl; tauto.
  1-2: case_bool_decide as Hip; rewrite elem_of_list_to_set in Hip.
  1,3: split; [done|]; intros ((_ & Hm & _) & _); by destruct Hip; apply Hm.
  1-2: rewrite scan_push_Ok; cbn [scanned sc_seen sc_index sc_operations sc_publication];
       rewrite elem_of_list_to_set, elem_of_exact, orb_true_r; simpl; naive_solver.
  destruct (Nat.eqb_spec (S (length pre)) (length (operations plan))); cbn [negb]; [|naive_solver].
  destruct (Z.eqb_spec to (generation (plan_snapshot plan))); cbn [negb]; [|naive_solver].
  destruct (Z.leb_spec to from); [naive_solver lia|].
  simpl. rewrite app_nil_r, orb_false_r. naive_solver.
Qed.

(** The whole loop. *)
Lemma scan_Ok plan kind sc :
  fold_res (scan_operation plan kind) scan_start (operations plan) = Ok sc ↔
  (∀ pre op post, operations plan = pre ++ op :: post →
     scan_ok plan (is_monotonic_stage kind) pre op)
  ∧ sc = scanned (operations plan).
Proof.
  rewrite <- (fold_res_unit_iff (scan_operation plan kind) scanned).
  - change (scanned []) with scan_start. split.
    + intros H. split; [by eexists|]. revert H.
      apply (fold_res_ind _ (λ pre s, s = scanned pre)); [done|].
      intros pre op t t' _ -> H. by apply scan_operation_Ok in H as [_ ->].
    + intros [[s Hs] ->]. rewrite Hs. f_equal. revert Hs.
      apply (fold_res_ind _ (λ pre s, s = scanned pre)); [done|].
      intros pre op t t' _ -> H. by apply scan_operation_Ok in H as [_ ->].
  - intros pre op post _. setoid_rewrite scan_operation_Ok. naive_solver.
  - intros pre op s. rewrite scan_operation_Ok. by intros [_ ->].
Qed.

Lemma NoDup_splits {A} (l : list A) :
  NoDup l ↔ ∀ pre x post, l = pre ++ x :: post → x ∉ pre.
Proof.
  split.
  - intros Hnd pre x post ->. apply NoDup_app in Hnd as (_ & Hd & _).
    intros Hx. apply (Hd x Hx). by left.
  - intros H. induction l as [|x l IH] using rev_ind; [constructor|]. apply NoDup_app. split_and!.
    + apply IH. intros pre y post ->. apply (H _ _ (post ++ [x])). by rewrite <- app_assoc.
    + intros y Hy ->%list_elem_of_singleton. by apply (H l x []).
    + apply NoDup_singleton.
Qed.

Lemma existsb_elem {A} (f : A → bool) (l : list A) :
  existsb f l = true ↔ ∃ x, x ∈ l ∧ f x = true.
Proof. rewrite existsb_exists. by setoid_rewrite <- list_elem_of_In. Qed.

Lemma existsb_weaken {A} (f g : A → bool) (l : list A) :
  (∀ x, g x = true → f x = true) → existsb f l = false → existsb g l = false.
Proof.
  intros Hfg. rewrite <- !not_true_iff_false, !existsb_elem. naive_solver.
Qed.

Lemma publication_of_Some ops : is_Some (publication_of ops) ↔ existsb is_publish ops = true.
Proof.
  induction ops as [|op ops IH] using rev_ind; [by split; [intros []|]|].
  unfold publication_of in *. rewrite foldl_app, existsb_app. cbn [foldl existsb].
  destruct op; cbn [is_publish]; rewrite ?orb_false_r, ?orb_true_r; [done|done|].
  by split; [|eexists].
Qed.

Lemma publish_is_publish op : is_publish op = true → ∃ from to, op = PublishSnapshot from to.
Proof. destruct op; simpl; naive_solver. Qed.

(** The order check of the model is implied by the contract. *)
Lemma admissible_ordered stage plan : admissible stage plan → well_ordered (operations plan).
Proof.
  intros [Hk Hnd Hpub Hfw Hrt Hp].
  assert (∀ pre op post, operations plan = pre ++ op :: post → is_add op = true → stage = true) as Hst.
  { intros pre op post Heq Ho. specialize (Hk op). rewrite Heq in Hk. destruct stage; [done|].
    specialize (Hk ltac:(set_solver)). by destruct op as [[]|[]|]. }
  assert (∀ pre op post, operations plan = pre ++ op :: post → existsb is_publish pre = false) as Hno.
  { intros pre op post Heq. apply not_true_iff_false. intros (x & Hx & Hpx)%existsb_elem.
    apply publish_is_publish in Hpx as (from & to & ->). apply list_elem_of_split in Hx as (p1 & p2 & ->).
    rewrite <- app_assoc in Heq. destruct (Hpub _ _ _ _ Heq) as [H _]. by destruct p2. }
  split.
  - intros pre op post Heq Ho. pose proof (Hno _ _ _ Heq) as Hn. split; [done|].
    specialize (Hp (Hst _ _ _ Heq Ho) ltac:(by rewrite Heq; destruct pre)).
    rewrite Heq, existsb_app, Hn in Hp. by destruct op as [[]|[]|].
  - intros pre op post Heq Ho (x & Hx & Hpx)%existsb_elem. pose proof (Hk x Hx) as Hkx.
    specialize (Hk op ltac:(rewrite Heq; set_solver)).
    destruct stage; [by destruct op as [[]|[]|]|by destruct x as [[]|[]|]].
  - intros pre t post Heq. apply (existsb_weaken is_route); [by intros []|by eapply Hfw].
  - intros pre t post Heq. apply (existsb_weaken is_route); [by intros []|by eapply Hfw].
Qed.

(** The demands of all iterations, with those after the loop, are the contract. *)
Lemma scans_admissible stage plan :
  (∀ pre op post, operations plan = pre ++ op :: post → scan_ok plan stage pre op)
  ∧ (stage = true → operations plan ≠ [] → existsb is_publish (operations plan) = true)
  ↔ admissible stage plan.
Proof.
  split.
  - intros [H Hp]. split; [..|done].
    + intros op (pre & post & Heq)%list_elem_of_split. by destruct (H _ _ _ Heq).
    + apply NoDup_splits. intros pre op post Heq. destruct (H _ _ _ Heq) as [_ Hok].
      destruct op as [fo|ro|from to]; [tauto..|]. intros (p1 & p2 & ->)%list_elem_of_split.
      rewrite <- app_assoc in Heq. destruct (H _ _ _ Heq) as (_ & Hl & _).
      rewrite Heq, !length_app in Hl. simpl in Hl. lia.
    + intros pre from to post Heq. destruct (H _ _ _ Heq) as (_ & Hl & ? & ?). split_and!; [|done..].
      rewrite Heq, length_app in Hl. simpl in Hl. destruct post; [done|simpl in Hl; lia].
    + intros pre op post Heq Hf. destruct (H _ _ _ Heq) as [_ Hok]. destruct op; [tauto|done|done].
    + intros pre op post ip Heq Hr. destruct (H _ _ _ Heq) as [_ Hok]. destruct op; try done.
      apply list_elem_of_omap. by apply Hok.
  - intros Ha. split; [|apply Ha]. intros pre op post Heq. split.
    { apply Ha. rewrite Heq. set_solver. }
    pose proof (proj1 (NoDup_splits _) (ad_nodup _ _ Ha) _ _ _ Heq) as Hnd.
    destruct op as [fo|ro|from to].
    + split; [|done]. by eapply (ad_firewall _ _ Ha).
    + split; [|done]. intros ip Hip. apply list_elem_of_omap. by eapply (ad_route _ _ Ha).
    + destruct (ad_publish _ _ Ha _ _ _ _ Heq) as (-> & ? & ?). rewrite Heq, length_app. simpl.
      split_and!; [lia|done..].
Qed.

Lemma length_le_1 {A} (l : list A) : NoDup l → (∀ x y, x ∈ l → y ∈ l → x = y) → (length l ≤ 1)%nat.
Proof.
  intros Hnd Heq. destruct l as [|x [|y l]]; simpl; [lia..|].
  rewrite (Heq x y) in Hnd by set_solver. apply NoDup_cons in Hnd as [Hn _]. set_solver.
Qed.

Lemma publish_count_le stage plan : admissible stage plan → (publish_count plan ≤ 1)%nat.
Proof.
  intros Ha. assert (∀ x, x ∈ operations plan → is_publish x = true → last (operations plan) = Some x)
    as Hlast.
  { intros x (pre & post & Heq)%list_elem_of_split (from & to & ->)%publish_is_publish.
    destruct (ad_publish _ _ Ha _ _ _ _ Heq) as (-> & _). rewrite Heq. apply last_snoc. }
  apply length_le_1; [apply NoDup_filter, Ha|].
  intros x y [Hx Hxin]%list_elem_of_filter [Hy Hyin]%list_elem_of_filter.
  pose proof (Hlast x Hxin Hx). pose proof (Hlast y Hyin Hy). congruence.
Qed.

(** The check after the loop, on the scanned plan. *)
Lemma missing_marker_iff stage ops :
  stage && negb (bool_decide (omap exact_of ops = []))
    && negb (bool_decide (is_Some (publication_of ops))) = false ↔
  (stage = true → ops ≠ [] → existsb is_publish ops = true).
Proof.
  rewrite !andb_false_iff, !negb_false_iff, !bool_decide_eq_true, publication_of_Some.
  destruct stage; [|naive_solver]. split.
  - intros [[?|He]|?] _ Hne; [done| |done]. destruct ops as [|op ops]; [done|].
    destruct op as [[]|[]|]; try done.
  - intros H. destruct ops as [|op ops]; [by left; right|]. right. by apply H.
Qed.

(** The validation accepts exactly the admissible plans, and passes their host operations
    on in order. *)
Lemma validate_plan_Ok plan kind v :
  validate_plan plan kind = Ok v ↔
  admissible (is_monotonic_stage kind) plan
  ∧ v = mkValidatedHostPlan (omap exact_of (operations plan)) (publication_of (operations plan)).
Proof.
  unfold validate_plan, validate_plan_rejection. split.
  - destruct (Nat.ltb_spec 1 (publish_count plan)); [done|].
    destruct (fold_res _ _ _) as [sc|] eqn:Hf; [|done]. apply scan_Ok in Hf as [Hsc ->].
    cbn [mbind result_bind scanned sc_operations sc_publication].
    destruct (is_monotonic_stage kind && _ && _) eqn:Hm; [done|]. pose proof (proj1 (missing_marker_iff _ _) Hm).
    destruct (validate_order plan); [|done]. intros [= <-].
    split; [|done]. by apply scans_admissible.
  - intros [Ha ->]. pose proof (publish_count_le _ _ Ha) as Hc.
    rewrite (proj2 (Nat.ltb_ge _ _) Hc).
    pose proof (proj2 (scans_admissible _ _) Ha) as [Hs Hp].
    rewrite (proj2 (scan_Ok plan kind _) (conj Hs eq_refl)).
    cbn [mbind result_bind scanned sc_operations sc_publication].
    rewrite (proj2 (missing_marker_iff _ _) Hp).
    by rewrite (proj2 (validate_order_Ok plan)) by (by eapply admissible_ordered).
Qed.

(** ** Sites

    What one host operation acts on, and whether it is open there. *)

Definition site (o : ExactHostOperation) : CarrierTuple + Z :=
  match o with
  | FirewallAllow t | FirewallDeny t => inl t
  | RouteAddBypass ip | RouteRemoveBypass ip => inr ip
  end.
Definition open_at (h : Host) (s : CarrierTuple + Z) : bool :=
  match s with inl t => bool_decide (t ∈ fw h) | inr ip => bool_decide (ip ∈ routes h) end.
Definition opens (o : ExactHostOperation) : bool :=
  match o with FirewallAllow _ | RouteAddBypass _ => true | _ => false end.

Definition exec_exact (h : Host) (os : list ExactHostOperation) : Host := exec_all (step_of <$> os) h.

Lemma open_at_exec h o s :
  open_at (exec_op h (step_of o)) s = if decide (s = site o) then opens o else open_at h s.
Proof.
  destruct o, s; cbn [step_of exec_op site open_at opens fw routes]; destruct decide; try congruence;
    simplify_eq; first [apply bool_decide_eq_true_2; set_solver | apply bool_decide_eq_false_2; set_solver
      | apply bool_decide_ext; set_solver].
Qed.

Lemma host_ext h1 h2 : (∀ s, open_at h1 s = open_at h2 s) → h1 = h2.
Proof.
  intros H. apply host_eq; apply set_eq; intros x; [specialize (H (inl x))|specialize (H (inr x))];
    cbn [open_at] in H; do 2 case_bool_decide; done.
Qed.

(** Executing operations at one site depends on that site only. *)
Lemma open_at_local os h1 h2 s : open_at h1 s = open_at h2 s →
  open_at (exec_exact h1 os) s = open_at (exec_exact h2 os) s.
Proof.
  revert h1 h2. induction os as [|o os IH]; intros h1 h2 H; [done|]. unfold exec_exact. cbn.
  apply IH. rewrite !open_at_exec. by destruct decide.
Qed.

Lemma site_inverse o : site (inverse o) = site o.
Proof. by destruct o. Qed.
Lemma opens_inverse o : opens (inverse o) = negb (opens o).
Proof. by destruct o. Qed.

(** An operation that changed something is undone by its inverse. *)
Lemma undo_effective h o : exec_op h (step_of o) ≠ h →
  exec_op (exec_op h (step_of o)) (step_of (inverse o)) = h.
Proof.
  intros Hne. assert (open_at h (site o) ≠ opens o) as Hd.
  { intros Heq. apply Hne, host_ext. intros s. rewrite open_at_exec. by destruct decide as [->|]. }
  apply host_ext. intros s. rewrite !open_at_exec, site_inverse, opens_inverse.
  destruct decide as [->|]; [|done]. by destruct (open_at h (site o)), (opens o).
Qed.

(** A sequence of operations each of which changed something. *)
Fixpoint effective_run (h : Host) (os : list ExactHostOperation) : Prop :=
  match os with
  | [] => True
  | o :: os => exec_op h (step_of o) ≠ h ∧ effective_run (exec_op h (step_of o)) os
  end.

Lemma exec_exact_app h os1 os2 : exec_exact h (os1 ++ os2) = exec_exact (exec_exact h os1) os2.
Proof. unfold exec_exact, exec_all. by rewrite fmap_app, foldl_app. Qed.

Lemma effective_snoc h os o : effective_run h os → exec_op (exec_exact h os) (step_of o) ≠ exec_exact h os →
  effective_run h (os ++ [o]).
Proof. revert h. induction os as [|o' os IH]; intros h; [done|]. intros [? ?] ?. split; [done|]. by apply IH. Qed.

Lemma effective_undone h os : effective_run h os →
  exec_exact (exec_exact h os) (inverse <$> rev os) = h.
Proof.
  revert h. induction os as [|o os IH]; intros h; [done|]. intros [Ho Hos].
  cbn [rev]. rewrite fmap_app, exec_exact_app.
  change (exec_exact h (o :: os)) with (exec_exact (exec_op h (step_of o)) os).
  rewrite (IH _ Hos). by apply undo_effective.
Qed.

(** ** Execution through an adapter *)

(** What an adapter owes: success means the operation is in effect, [Changed] that this
    call made it so; a failed call touches no other site, and may or may not have taken
    effect at its own. *)
Class EndpointHostAdapterLaws (H E : Type) `{EndpointHostAdapter H E} (view : H → Host) := {
  adapter_ok h o h' m : apply_exact h o = (h', Ok m) →
    view h' = exec_op (view h) (step_of o)
    ∧ match m with Changed => view h' ≠ view h | AlreadyExact => view h' = view h end;
  adapter_err h o h' e s : apply_exact h o = (h', Err e) →
    s ≠ site o → open_at (view h') s = open_at (view h) s;
}.

Section AdapterSpec.
Context {H E : Type} {A : EndpointHostAdapter H E} (view : H → Host).
Context {L : EndpointHostAdapterLaws H E view}.

Definition failed_sites (fs : list (HostOperationFailure E)) : list (CarrierTuple + Z) :=
  (λ f, site (hf_operation f)) <$> fs.

Lemma undo_all_spec todo h h' fs s : undo_all h todo = (h', fs) → s ∉ failed_sites fs →
  open_at (view h') s = open_at (exec_exact (view h) todo) s.
Proof.
  revert h fs. induction todo as [|o todo IH]; intros h fs; cbn [undo_all].
  { by intros [= <- <-]. }
  destruct (apply_exact h o) as [h1 [m|e]] eqn:Ha.
  - intros Hu Hs. rewrite (IH _ _ Hu Hs). apply adapter_ok in Ha as [-> _]. done.
  - destruct (undo_all h1 todo) as [h2 fs2] eqn:Hu. intros [= <- <-] Hs.
    apply not_elem_of_cons in Hs as [Hso Hs]. cbn [hf_operation] in Hso. rewrite (IH _ _ Hu Hs).
    change (exec_exact (view h) (o :: todo)) with (exec_exact (exec_op (view h) (step_of o)) todo).
    apply open_at_local. rewrite open_at_exec. destruct decide; [done|]. by eapply adapter_err.
Qed.

Lemma rollback_changed_spec h0 h changed h' fs s t : effective_run h0 changed →
  (t ≠ Some s → open_at (view h) s = open_at (exec_exact h0 changed) s) →
  rollback_changed h changed = (h', fs) → t ≠ Some s → s ∉ failed_sites fs →
  open_at (view h') s = open_at h0 s.
Proof.
  intros Hrun Hh Hr Ht Hs. unfold rollback_changed in Hr. rewrite (undo_all_spec _ _ _ _ _ Hr Hs).
  rewrite (open_at_local _ _ (exec_exact h0 changed)) by (by apply Hh). by rewrite effective_undone.
Qed.

(** The operations that a list of receipts says have changed something. *)
Definition changed_of (records : list HostOperationRecord) : list ExactHostOperation :=
  omap (λ r, match rec_outcome r with Changed => Some (rec_operation r) | AlreadyExact => None end)
    records.

Lemma execute_loop_spec todo h kind records changed h0 h' r :
  changed_of records = changed → effective_run h0 changed → view h = exec_exact h0 changed →
  execute_loop h kind todo records changed = (h', r) →
  match r with
  | Ok records' => rec_operation <$> records' = (rec_operation <$> records) ++ todo
      ∧ view h' = exec_exact (view h) todo
      ∧ effective_run h0 (changed_of records') ∧ view h' = exec_exact h0 (changed_of records')
  | Err f => tf_kind f = kind ∧ hf_operation (primary f) ∈ todo
      ∧ ∀ s, s ∉ failed_sites (primary f :: rollback_failures f) → open_at (view h') s = open_at h0 s
  end.
Proof.
  revert h records changed. induction todo as [|o todo IH]; intros h records changed Hc Hrun Hv;
    cbn [execute_loop].
  { intros [= <- <-]. rewrite app_nil_r, Hc. done. }
  destruct (apply_exact h o) as [h1 [m|e]] eqn:Ha.
  - intros He. pose proof (adapter_ok _ _ _ _ Ha) as [Hv1 Hm].
    specialize (IH h1 (records ++ [mkHostOperationRecord o m])
      (match m with Changed => changed ++ [o] | AlreadyExact => changed end)).
    lapply IH; [clear IH; intros IH|].
    2:{ unfold changed_of. rewrite omap_snoc. cbn. fold (changed_of records). rewrite Hc.
        destruct m; simpl; [done|apply app_nil_r]. }
    lapply IH; [clear IH; intros IH|].
    2:{ destruct m; [|done]. apply effective_snoc; [done|]. rewrite <- Hv, <- Hv1. done. }
    lapply IH; [clear IH; intros IH|].
    2:{ destruct m; [|by rewrite Hm]. rewrite exec_exact_app, <- Hv. done. }
    specialize (IH He). destruct r as [records'|f].
    + destruct IH as (Hr & Hvv & ?). rewrite Hr, fmap_app, <- app_assoc. split_and!; [done| |tauto..].
      by rewrite Hvv, Hv1.
    + destruct IH as (? & ? & ?). split_and!; [done|by right|done].
  - destruct (rollback_changed h1 changed) as [h2 fs] eqn:Hr. intros [= <- <-].
    split_and!; [done|by left|]. cbn [primary rollback_failures failed_sites fmap list_fmap hf_operation].
    intros s [Hso Hs]%not_elem_of_cons.
    eapply (rollback_changed_spec h0 h1 changed h2 fs s (Some (site o))); [done| |done|congruence|done].
    intros _. rewrite <- Hv. by eapply adapter_err.
Qed.

Lemma exec_all_exact ops h : exec_all ops h = exec_exact h (omap exact_of ops).
Proof.
  revert h. induction ops as [|op ops IH]; intros h; [done|]. cbn [exec_all foldl]. fold (exec_all ops).
  fold (exec_all ops (exec_op h op)). rewrite IH. by destruct op as [[]|[]|].
Qed.

(** The host is what it was, except perhaps where an operation failed. *)
Definition restored (h0 : Host) (host : H) (fs : list (HostOperationFailure E)) : Prop :=
  ∀ s, s ∉ failed_sites fs → open_at (view host) s = open_at h0 s.

Lemma restored_clean h0 host : restored h0 host [] → view host = h0.
Proof. intros Hr. apply host_ext. intros s. apply Hr. by apply not_elem_of_nil. Qed.

Lemma rollback_applied_spec h0 host applied host' r :
  effective_run h0 (changed_operations applied) →
  view host = exec_exact h0 (changed_operations applied) →
  rollback_applied host applied = (host', r) →
  match r with
  | Ok _ => view host' = h0
  | Err e => rb_kind e = ap_kind applied ∧ rb_failures e ≠ [] ∧ restored h0 host' (rb_failures e)
  end.
Proof.
  intros Hrun Hv. unfold rollback_applied.
  destruct (rollback_changed host (changed_operations applied)) as [h2 fs] eqn:Hr.
  assert (restored h0 h2 fs) as Hres.
  { intros s Hs. eapply (rollback_changed_spec h0 host _ h2 fs s None); [done|by rewrite Hv|done..]. }
  destruct fs; intros [= <- <-]; [by apply restored_clean|done].
Qed.

(** The outcome of an execution. *)
Lemma execute_spec (host host' : H) (plan : TransitionPlan) (kind : HostTransactionKind)
    (r : result (TransitionExecutionError E) AppliedHostTransaction) :
  execute host plan kind = (host', r) →
  match r with
  | Ok applied =>
      view host' = exec_all (operations plan) (view host)
      ∧ rec_operation <$> ap_operations applied = omap exact_of (operations plan)
      ∧ ap_publication applied = publication_of (operations plan)
      ∧ ∀ host'' r', rollback_applied host' applied = (host'', r') →
          match r' with
          | Ok _ => view host'' = view host
          | Err e => rb_failures e ≠ [] ∧ restored (view host) host'' (rb_failures e)
          end
  | Err (InvalidPlan e) => host' = host ∧ validate_plan plan kind = Err e
  | Err (HostFailed f) => step_of (hf_operation (primary f)) ∈ operations plan
      ∧ restored (view host) host' (primary f :: rollback_failures f)
  end.
Proof.
  unfold execute. destruct (validate_plan plan kind) as [v|e] eqn:Hv; [|by intros [= <- <-]].
  apply validate_plan_Ok in Hv as [_ ->]. cbn [vh_operations vh_publication].
  destruct (execute_loop host kind _ [] []) as [h1 r1] eqn:Hl.
  pose proof (execute_loop_spec _ host kind [] [] (view host) h1 r1 eq_refl I eq_refl Hl) as Hs.
  destruct r1 as [records|f]; intros [= <- <-].
  - destruct Hs as (Hrec & Hview & Hrun & Hch). split_and!; [by rewrite exec_all_exact|done|done|].
    intros h2 r2 Hr. pose proof (rollback_applied_spec (view host) h1
      (mkAppliedHostTransaction kind records _) h2 r2 Hrun Hch Hr).
    destruct r2; [done|]. tauto.
  - destruct Hs as (_ & Hin & Hs). split; [by apply elem_of_exact|done].
Qed.

(** C24: Host transactions are all or nothing.  A plan that fails validation never reaches
    the host.  Otherwise either every operation of the plan is in effect, in a receipt that
    lists them in order, and rolling the receipt back restores the host as it was before;
    or an operation failed, its error is reported, and everything the transaction changed
    is restored except where an operation or its compensation failed, which the report
    names.  What had been there before the transaction is never taken away by
    compensation. *)
Theorem execute_atomic (host host' : H) (plan : TransitionPlan) (kind : HostTransactionKind)
    (r : result (TransitionExecutionError E) AppliedHostTransaction) :
  execute host plan kind = (host', r) →
  match r with
  | Ok applied =>
      view host' = exec_all (operations plan) (view host)
      ∧ rec_operation <$> ap_operations applied = omap exact_of (operations plan)
      ∧ ap_publication applied = publication_of (operations plan)
      ∧ ∀ host'' r', rollback_applied host' applied = (host'', r') →
          match r' with
          | Ok _ => view host'' = view host
          | Err e => rb_failures e ≠ [] ∧ restored (view host) host'' (rb_failures e)
          end
  | Err (InvalidPlan e) => host' = host ∧ validate_plan plan kind = Err e
  | Err (HostFailed f) => step_of (hf_operation (primary f)) ∈ operations plan
      ∧ restored (view host) host' (primary f :: rollback_failures f)
  end.
Proof. apply execute_spec. Qed.
End AdapterSpec.

(** ** The coordinator's plans on the host *)

Definition kind_of (p : Prepared) : HostTransactionKind :=
  match p with
  | PObservation _ => ObservationStage
  | PRehydration _ => AuthorityRehydration
  | PRelease _ => LeaseRelease
  | PRetirement _ => Retirement
  end.

Lemma kind_of_stage p : is_monotonic_stage (kind_of p) = stage_of p.
Proof. by destruct p. Qed.

(** An address is routed exactly for the tuples that are allowed at it. *)
Lemma access_ip logical keys t : t ∈ fw (access logical keys) → ct_ip t ∈ routes (access logical keys).
Proof.
  rewrite elem_of_access_fw, elem_of_access_routes. intros (k & Hk & Ht). exists k. split; [done|].
  unfold key_tuple in Ht. destruct (logical !! ck_logical k); [|done]. by injection Ht as <-.
Qed.

Lemma access_tuple logical keys ip : known logical keys → ip ∈ routes (access logical keys) →
  ∃ t, t ∈ fw (access logical keys) ∧ ct_ip t = ip.
Proof.
  intros Hkn. rewrite elem_of_access_routes. intros (k & Hk & <-). destruct (Hkn k Hk) as [st Hst].
  exists (LogicalEndpoint_tuple (spec st) (ck_ip k)). split; [|done].
  apply elem_of_access_fw. exists k. split; [done|]. unfold key_tuple. by rewrite Hst.
Qed.

Section PlanAdmissible.
Context (stage : bool) (c c' : EndpointCoordinator) (plan : TransitionPlan).
Hypothesis Hc : coord_ok c.
Hypothesis Hg : good_transition stage c c' plan.

Lemma plan_permitted op : op ∈ operations plan → permitted stage op = true.
Proof.
  destruct Hg as [_ _ Htt _ _ _ _ Hst _]. intros Hin. destruct stage; cbn [permitted].
  - destruct (access_mono (logical c) _ _ Hst) as [Hf Hr]. destruct op as [[t|t]|[ip|ip]|]; try done.
    + apply (tt_deny _ _ _ Htt) in Hin. set_solver.
    + apply (tt_remove _ _ _ Htt) in Hin. set_solver.
  - destruct Hst as [Hst Hp]. destruct (access_mono (logical c) _ _ Hst) as [Hf Hr].
    destruct op as [[t|t]|[ip|ip]|from to]; try done.
    + apply (tt_allow _ _ _ Htt) in Hin. set_solver.
    + apply (tt_add _ _ _ Htt) in Hin. set_solver.
    + apply not_true_iff_false in Hp. destruct Hp. apply existsb_elem. by eexists.
Qed.

(** A route step has a firewall step for its address. *)
Lemma plan_route_firewall op ip : op ∈ operations plan → route_ip op = Some ip →
  ∃ fop, fop ∈ operations plan ∧ firewall_ip fop = Some ip ∧ is_add fop = is_add op.
Proof.
  destruct Hg as [Hc' Hsp Htt _ _ _ _ _ _]. intros Hin Hip.
  assert (known (logical c) (dom (candidates c'))) as Hkn.
  { intros k Hk. destruct (co_known _ Hc' k Hk) as [st Hst].
    destruct (specs_lookup _ _ _ _ Hsp Hst) as (st' & Hst' & _). by eexists. }
  destruct op as [|[ip'|ip']|]; try done; injection Hip as ->.
  - apply (tt_add _ _ _ Htt) in Hin as [HB HA]. destruct (access_tuple _ _ _ Hkn HB) as (t & Ht & Hti).
    exists (Firewall (Allow t)). split_and!; [|by cbn; rewrite Hti|done].
    apply (tt_allow _ _ _ Htt). split; [done|]. intros HtA%access_ip. by rewrite Hti in HtA.
  - apply (tt_remove _ _ _ Htt) in Hin as [HA HB].
    destruct (access_tuple _ _ _ (co_known _ Hc) HA) as (t & Ht & Hti).
    exists (Firewall (Deny t)). split_and!; [|by cbn; rewrite Hti|done].
    apply (tt_deny _ _ _ Htt). split; [done|]. intros HtB%access_ip. by rewrite Hti in HtB.
Qed.

Lemma plan_publish_last pre from to post : operations plan = pre ++ PublishSnapshot from to :: post →
  post = [].
Proof.
  intros Heq. destruct post as [|op post]; [done|]. exfalso.
  assert (op ∈ operations plan) as Hin by (rewrite Heq; set_solver).
  pose proof (plan_permitted op Hin) as Hp. pose proof (gt_stage _ _ _ _ Hg) as Hst.
  destruct stage; cbn [permitted] in Hp.
  - destruct (is_add op) eqn:Ha.
    + destruct (wo_add _ (gt_order _ _ _ _ Hg) (pre ++ [PublishSnapshot from to]) op post) as [Hn _];
        [by rewrite Heq, <- app_assoc|done|]. rewrite existsb_app, orb_false_iff in Hn. by destruct Hn.
    + apply publish_is_publish in Hp as (from' & to' & ->).
      destruct (gt_marker _ _ _ _ Hg _ _ Hin) as (-> & -> & _).
      destruct (gt_marker _ _ _ _ Hg from to) as (-> & -> & _); [rewrite Heq; set_solver|].
      pose proof (tt_nodup _ _ _ (gt_takes _ _ _ _ Hg)) as Hnd. rewrite Heq in Hnd.
      apply NoDup_app in Hnd as (_ & _ & [Hn _]%NoDup_cons). set_solver.
  - destruct Hst as [_ Hst]. rewrite Heq, existsb_app in Hst. cbn in Hst. by rewrite orb_true_r in Hst.
Qed.

Lemma plan_firewall_first pre op post : operations plan = pre ++ op :: post → is_firewall op = true →
  existsb is_route pre = false.
Proof.
  intros Heq Hf. pose proof (gt_order _ _ _ _ Hg) as Hwo. apply not_true_iff_false.
  intros (x & Hx & Hrx)%existsb_elem.
  assert (permitted stage op = true) as Hop by (apply plan_permitted; rewrite Heq; set_solver).
  assert (permitted stage x = true) as Hxp by (apply plan_permitted; rewrite Heq; set_solver).
  destruct op as [[t|t]| |]; try done; destruct x as [|[ip|ip]|]; try done; destruct stage; try done.
  - pose proof (wo_allow _ Hwo _ _ _ Heq) as Hn. apply not_true_iff_false in Hn.
    apply Hn, existsb_elem. by eexists.
  - pose proof (wo_deny _ Hwo _ _ _ Heq) as Hn. apply not_true_iff_false in Hn.
    apply Hn, existsb_elem. by eexists.
Qed.

Lemma plan_admissible : (stage = true → generation (snapshot c) + 1 < 2 ^ 64) → admissible stage plan.
Proof.
  intros Hgen. split.
  - apply plan_permitted.
  - apply Hg.
  - intros pre from to post Heq.
    destruct (gt_marker _ _ _ _ Hg from to) as (-> & Hto & Hnext); [rewrite Heq; set_solver|].
    split_and!; [by eapply plan_publish_last|by rewrite (gt_snapshot _ _ _ _ Hg)|].
    rewrite Hnext. pose proof (gt_stage _ _ _ _ Hg) as Hst. destruct stage.
    + unfold u64_saturating_add. specialize (Hgen eq_refl). lia.
    + destruct Hst as [_ Hst]. rewrite Heq, existsb_app in Hst. cbn in Hst. by rewrite orb_true_r in Hst.
  - apply plan_firewall_first.
  - intros pre op post ip Heq Hip.
    destruct (plan_route_firewall op ip) as (fop & Hin & Hf & _); [rewrite Heq; set_solver|done|].
    exists fop. split; [|done]. rewrite Heq in Hin. apply elem_of_app in Hin as [?|Hin]; [done|].
    apply elem_of_cons in Hin as [->|(p1 & p2 & ->)%list_elem_of_split]; [by destruct op as [[]|[]|]|].
    rewrite (app_assoc pre (op :: p1) (fop :: p2) : pre ++ op :: p1 ++ fop :: p2 = _) in Heq.
    assert (existsb is_route (pre ++ op :: p1) = false) as Hn.
    { eapply plan_firewall_first; [exact Heq|]. by destruct fop as [[]|[]|]. }
    rewrite existsb_app in Hn. cbn in Hn. by destruct op; rewrite ?orb_true_r in Hn.
  - intros Hst Hne. destruct (operations plan) as [|op post] eqn:Heq; [done|].
    pose proof (plan_permitted op) as Hp. rewrite Heq, Hst in Hp. specialize (Hp ltac:(by left)).
    cbn in Hp. destruct (is_add op) eqn:Ha; [|cbn in *; by rewrite Hp].
    destruct (wo_add _ (gt_order _ _ _ _ Hg) [] op post Heq Ha) as [_ Hpost]. cbn. by rewrite Hpost, orb_true_r.
Qed.
End PlanAdmissible.

Lemma fold_res_Err {Er S X} (f : S → X → result Er S) l : ∀ s e,
  fold_res f s l = Err e → ∃ s' x, f s' x = Err e.
Proof.
  induction l as [|x l IH]; intros s e; cbn [fold_res]; [done|].
  destruct (f s x) as [s1|e1] eqn:Hf; cbn [mbind result_bind]; [by apply IH|].
  intros [= ->]. by eexists _, _.
Qed.

Lemma scan_rejection plan kind sc op : scan_operation plan kind sc op ≠ Err ModelOrderRejected.
Proof.
  destruct op as [[]|[]|]; cbn [scan_operation]; unfold scan_firewall, scan_route, scan_push;
    destruct (is_monotonic_stage kind); repeat case_match; done.
Qed.

(** The runtime accepts a plan exactly when it keeps its contract, and then passes the
    plan's host operations on unchanged, in order; the order check that follows the
    validation never refuses a plan that the validation let through. *)
Theorem validate_plan_iff (plan : TransitionPlan) (kind : HostTransactionKind) (v : ValidatedHostPlan) :
  (validate_plan plan kind = Ok v ↔
     admissible (is_monotonic_stage kind) plan
     ∧ v = mkValidatedHostPlan (omap exact_of (operations plan)) (publication_of (operations plan)))
  ∧ validate_plan plan kind ≠ Err (mkPlanValidationError kind ModelOrderRejected).
Proof.
  split; [apply validate_plan_Ok|]. intros He.
  assert (¬ admissible (is_monotonic_stage kind) plan) as Hna.
  { intros Ha. rewrite (proj2 (validate_plan_Ok plan kind _) (conj Ha eq_refl)) in He. done. }
  apply Hna. apply scans_admissible. revert He. unfold validate_plan, validate_plan_rejection.
  destruct (1 <? publish_count plan)%nat; [done|].
  destruct (fold_res _ _ _) as [sc|r] eqn:Hf; cbn [mbind result_bind].
  - apply scan_Ok in Hf as [Hsc ->]. cbn [scanned sc_operations sc_publication].
    destruct (is_monotonic_stage kind && _ && _) eqn:Hm; [done|].
    intros _. split; [done|]. exact (proj1 (missing_marker_iff _ _) Hm).
  - intros [= ->]. apply fold_res_Err in Hf as (sc & op & Hf). by apply scan_rejection in Hf.
Qed.

(** The coordinator and the runtime fit: in every reachable state, the plan of a pending
    transaction that can still commit is accepted by the runtime under its own kind, as
    long as the 64-bit snapshot counter is not exhausted. *)
Theorem coordinator_plans_accepted (endpoints : list LogicalEndpoint) (seeds : list SeedCandidate)
    (now : Z) (c0 : EndpointCoordinator) (s : Sys) (p : Prepared) :
  EndpointCoordinator_new endpoints seeds now = Ok c0 → reachable_from c0 s →
  p ∈ sy_pending s → base_of p = revision (sy_coord s) →
  generation (snapshot (sy_coord s)) + 1 < 2 ^ 64 →
  ∃ v, validate_plan (plan_of p) (kind_of p) = Ok v.
Proof.
  intros Hnew Hr Hin Hb Hgen. pose proof (reachable_ok _ _ _ _ _ Hnew Hr) as Hs.
  destruct (so_pending _ _ Hs p Hin) as [_ Hfrom]. specialize (Hfrom Hb).
  destruct (prepared_good _ _ (so_coord _ _ Hs) Hfrom) as [Hg _].
  eexists. apply validate_plan_Ok. split; [|done]. rewrite kind_of_stage.
  eapply plan_admissible; [apply Hs|exact Hg|done].
Qed.

(** ** Samples *)

Module RuntimeSample.
Import EndpointSample.

(** A host kept in memory on which some operations fail. *)
Record MemoryHost := mkMemoryHost { mh_host : Host; mh_broken : list ExactHostOperation }.

Definition memory_apply (o : ExactHostOperation) (m : MemoryHost)
  : MemoryHost * result () OwnedMutation :=
  if bool_decide (o ∈ mh_broken m) then (m, Err ()) else
  if eqb (open_at (mh_host m) (site o)) (opens o) then (m, Ok AlreadyExact) else
  (mkMemoryHost (exec_op (mh_host m) (step_of o)) (mh_broken m), Ok Changed).

#[export] Instance memory_adapter : EndpointHostAdapter MemoryHost () := {
  firewall_allow m t := memory_apply (FirewallAllow t) m;
  firewall_deny m t := memory_apply (FirewallDeny t) m;
  route_add_bypass m ip := memory_apply (RouteAddBypass ip) m;
  route_remove_bypass m ip := memory_apply (RouteRemoveBypass ip) m;
}.

Lemma memory_apply_exact m o : apply_exact m o = memory_apply o m.
Proof. by destruct o. Qed.

#[export] Instance memory_laws : EndpointHostAdapterLaws MemoryHost () mh_host.
Proof.
  split.
  - intros h o h' m. rewrite memory_apply_exact. unfold memory_apply. case_bool_decide; [done|].
    destruct (eqb _ _) eqn:He; intros [= <- <-]; cbn [mh_host].
    + apply eqb_prop in He. split; [|done]. apply host_ext. intros s. rewrite open_at_exec.
      by destruct decide as [->|].
    + split; [done|]. apply eqb_false_iff in He. intros Heq. apply He. rewrite <- Heq, open_at_exec.
      by rewrite decide_True.
  - intros h o h' e s. rewrite memory_apply_exact. unfold memory_apply. case_bool_decide.
    + by intros [= <- _].
    + by destruct (eqb _ _).
Qed.

(** The route of the second address cannot be added: the firewall step is undone. *)
Definition broken_host : MemoryHost := mkMemoryHost (host_of c1) [RouteAddBypass ip2].
Definition answer_plan : TransitionPlan := or_plan (po_result answer).

Lemma execute_atomic_witness :
  mh_host (fst (execute broken_host answer_plan ObservationStage)) = host_of c1
  ∧ is_ok (snd (execute broken_host answer_plan ObservationStage)) = false.
Proof.
  split; [|by vm_compute].
  pose proof (execute_atomic mh_host broken_host _ answer_plan ObservationStage _
    (surjective_pairing _)) as Hx.
  destruct (execute broken_host answer_plan ObservationStage).2 as [a|[e|f]] eqn:He.
  - exfalso. assert (is_ok (execute broken_host answer_plan ObservationStage).2 = false) as Hf
      by (by vm_compute). by rewrite He in Hf.
  - by destruct Hx as [-> _].
  - by vm_compute.
Defined.

Lemma plans_accepted_witness : ∃ v, validate_plan answer_plan ObservationStage = Ok v.
Proof.
  apply (coordinator_plans_accepted [sample_endpoint] seeds 0 c0 s1 (PObservation answer)
    new_c0 reachable_s1); [by left|by vm_compute|by vm_compute].
Defined.
End RuntimeSample.
