(* ===== verification/EndpointClient.v ===== *)
(** * Live endpoints: the client's transactions

    Models the functions of [shadowpipe-client/src/main.rs] that run one endpoint
    transaction: [commit_observation_transaction], [commit_authority_rehydration_transaction],
    [commit_retirement_transaction], [commit_release_transaction], [release_endpoint_lease]
    and the loop [cleanup_retired_endpoints].  Each one executes the host part of a prepared
    transaction, checks the deadline of the signed policy where it publishes, and commits
    or aborts the coordinator.  The state is the pair of the coordinator ([Endpoint], held
    by the verified policy) and the host behind its adapter ([EndpointRuntime]); the
    reading of the clocks in [signed_policy_expired] is an argument, its answer.  The error
    messages are values of [TransactionError]. *)

From S2P Require Import Prelude EndpointPlan Endpoint EndpointSystem EndpointRuntime.

Section Client.
Context {H E : Type} {A : EndpointHostAdapter H E}.

Inductive TransactionError :=
| PrepareFailed (e : EndpointError)
| StageFailed (e : TransitionExecutionError E) (abort : option EndpointError)
| ExpiredIncomplete (abort : result EndpointError ()) (rollback : result (RollbackError E) ())
| CommitFailed (e : EndpointError) (rollback : result (RollbackError E) ())
| CandidateCountChanged.

Definition err {Er X} (m : result Er X) : option Er :=
  match m with Ok _ => None | Err e => Some e end.

Definition rollback_after_model_failure (guards : H) (applied : AppliedHostTransaction)
    (model_error : EndpointError) : H * TransactionError :=
  let '(guards, rollback) := rollback_applied guards applied in
  (guards, CommitFailed model_error rollback).

Inductive ObservationCommit :=
| ObservationCommitted (r : ObservationResult)
| ObservationPolicyExpired.

Definition commit_observation_transaction (policy : EndpointCoordinator) (guards : H)
    (prepared : PreparedObservation) (expired : bool)
  : EndpointCoordinator * H * result TransactionError ObservationCommit :=
  match stage_observation guards (or_plan (po_result prepared)) with
  | (guards, Err error) =>
      (policy, guards, Err (StageFailed error (err (abort_observation policy prepared))))
  | (guards, Ok applied) =>
      if expired then
        let abort := abort_observation policy prepared in
        let '(guards, rollback) := rollback_applied guards applied in
        match abort, rollback with
        | Ok _, Ok _ => (policy, guards, Ok ObservationPolicyExpired)
        | _, _ => (policy, guards, Err (ExpiredIncomplete abort rollback))
        end
      else
      match commit_observation policy prepared with
      | Ok (policy, result) => (policy, guards, Ok (ObservationCommitted result))
      | Err error =>
          let '(guards, error) := rollback_after_model_failure guards applied error in
          (policy, guards, Err error)
      end
  end.

Inductive AuthorityRehydrationCommit :=
| RehydrationCommitted (revived : nat)
| RehydrationPolicyExpired.

Definition commit_authority_rehydration_transaction (policy : EndpointCoordinator) (guards : H)
    (expired : bool)
  : EndpointCoordinator * H * result TransactionError AuthorityRehydrationCommit :=
  match prepare_authority_rehydration policy with
  | Err error => (policy, guards, Err (PrepareFailed error))
  | Ok prepared =>
      let revived := length (revived_candidates (pa_result prepared)) in
      match stage_authority_rehydration guards (rr_plan (pa_result prepared)) with
      | (guards, Err error) =>
          (policy, guards, Err (StageFailed error (err (abort_authority_rehydration policy prepared))))
      | (guards, Ok applied) =>
          if expired then
            let abort := abort_authority_rehydration policy prepared in
            let '(guards, rollback) := rollback_applied guards applied in
            match abort, rollback with
            | Ok _, Ok _ => (policy, guards, Ok RehydrationPolicyExpired)
            | _, _ => (policy, guards, Err (ExpiredIncomplete abort rollback))
            end
          else
          match commit_authority_rehydration policy prepared with
          | Ok (policy, result) =>
              if negb (length (revived_candidates result) =? revived)%nat
              then (policy, guards, Err CandidateCountChanged)
              else (policy, guards, Ok (RehydrationCommitted revived))
          | Err error =>
              let '(guards, error) := rollback_after_model_failure guards applied error in
              (policy, guards, Err error)
          end
      end
  end.

Definition commit_retirement_transaction (policy : EndpointCoordinator) (guards : H)
    (prepared : PreparedRetirement) : EndpointCoordinator * H * result TransactionError () :=
  match execute_retirement guards (pr_plan prepared) with
  | (guards, Err error) =>
      (policy, guards, Err (StageFailed error (err (abort_retirement policy prepared))))
  | (guards, Ok applied) =>
      match commit_retirement policy prepared with
      | Ok (policy, _) => (policy, guards, Ok ())
      | Err error =>
          let '(guards, error) := rollback_after_model_failure guards applied error in
          (policy, guards, Err error)
      end
  end.

(** The loop, with fuel for its iterations; [None] when the fuel does not last. *)
Fixpoint cleanup_retired_endpoints (fuel : nat) (policy : EndpointCoordinator) (guards : H)
  : option (EndpointCoordinator * H * result TransactionError ()) :=
  match fuel with
  | O => None
  | S fuel =>
      match prepare_retirement policy with
      | Err error => Some (policy, guards, Err (PrepareFailed error))
      | Ok None => Some (policy, guards, Ok ())
      | Ok (Some prepared) =>
          match commit_retirement_transaction policy guards prepared with
          | (policy, guards, Err error) => Some (policy, guards, Err error)
          | (policy, guards, Ok _) => cleanup_retired_endpoints fuel policy guards
          end
      end
  end.

Definition commit_release_transaction (policy : EndpointCoordinator) (guards : H)
    (prepared : PreparedLeaseRelease) : EndpointCoordinator * H * result TransactionError () :=
  match execute_release guards (pl_plan prepared) with
  | (guards, Err error) =>
      (policy, guards, Err (StageFailed error (err (abort_release policy prepared))))
  | (guards, Ok applied) =>
      match commit_release policy prepared with
      | Ok (policy, _) => (policy, guards, Ok ())
      | Err error =>
          let '(guards, error) := rollback_after_model_failure guards applied error in
          (policy, guards, Err error)
      end
  end.

Definition release_endpoint_lease (policy : EndpointCoordinator) (guards : H) (lease : EndpointLease)
  : EndpointCoordinator * H * result TransactionError () :=
  match prepare_release policy lease with
  | Err error => (policy, guards, Err (PrepareFailed error))
  | Ok prepared => commit_release_transaction policy guards prepared
  end.
End Client.
Arguments TransactionError : clear implicits.

(** ** The common shape *)

Section Shape.
Context {H E : Type} {A : EndpointHostAdapter H E} (view : H → Host).
Context {L : EndpointHostAdapterLaws H E view}.

(** A transaction of any kind: [expired] makes it back out after the host part. *)
Inductive Finish := Committed | BackedOut.

Definition transact (policy : EndpointCoordinator) (guards : H) (p : Prepared) (expired : bool)
  : EndpointCoordinator * H * result (TransactionError E) Finish :=
  match execute guards (plan_of p) (kind_of p) with
  | (guards, Err error) => (policy, guards, Err (StageFailed error (err (abort policy p))))
  | (guards, Ok applied) =>
      if expired then
        let '(guards, rollback) := rollback_applied guards applied in
        match abort policy p, rollback with
        | Ok _, Ok _ => (policy, guards, Ok BackedOut)
        | _, _ => (policy, guards, Err (ExpiredIncomplete (abort policy p) rollback))
        end
      else
      match commit policy p with
      | Ok policy => (policy, guards, Ok Committed)
      | Err error =>
          let '(guards, error) := rollback_after_model_failure guards applied error in
          (policy, guards, Err error)
      end
  end.

Definition map_result {X Y} (f : X → Y)
    (o : EndpointCoordinator * H * result (TransactionError E) X)
  : EndpointCoordinator * H * result (TransactionError E) Y := (o.1, f <$> o.2).

Definition observation_finish (o : ObservationCommit) : Finish :=
  match o with ObservationCommitted _ => Committed | ObservationPolicyExpired => BackedOut end.
Definition rehydration_finish (o : AuthorityRehydrationCommit) : Finish :=
  match o with RehydrationCommitted _ => Committed | RehydrationPolicyExpired => BackedOut end.

Lemma observation_transact c h q expired :
  map_result observation_finish (commit_observation_transaction c h q expired)
  = transact c h (PObservation q) expired.
Proof.
  unfold commit_observation_transaction, transact, stage_observation, rollback_after_model_failure,
    map_result. cbn [plan_of kind_of abort commit].
  repeat (case_match; simplify_eq/=; try done).
Qed.

Lemma rehydration_transact c h q expired : prepare_authority_rehydration c = Ok q →
  map_result rehydration_finish (commit_authority_rehydration_transaction c h expired)
  = transact c h (PRehydration q) expired.
Proof.
  intros Hq. unfold commit_authority_rehydration_transaction, transact, stage_authority_rehydration,
    rollback_after_model_failure, map_result. rewrite Hq. cbn [plan_of kind_of abort commit].
  unfold commit_authority_rehydration.
  repeat (case_match; simplify_eq/=; try done). by rewrite Nat.eqb_refl in *.
Qed.

Lemma retirement_transact c h q :
  map_result (λ _, Committed) (commit_retirement_transaction c h q) = transact c h (PRetirement q) false.
Proof.
  unfold commit_retirement_transaction, transact, execute_retirement, rollback_after_model_failure,
    map_result. cbn [plan_of kind_of abort commit]. repeat (case_match; simplify_eq/=; try done).
Qed.

Lemma release_transact c h q :
  map_result (λ _, Committed) (commit_release_transaction c h q) = transact c h (PRelease q) false.
Proof.
  unfold commit_release_transaction, transact, execute_release, rollback_after_model_failure,
    map_result. cbn [plan_of kind_of abort commit]. repeat (case_match; simplify_eq/=; try done).
Qed.

(** The failed host operations an error reports. *)
Definition failures_of (e : TransactionError E) : list (HostOperationFailure E) :=
  match e with
  | StageFailed (HostFailed f) _ => primary f :: rollback_failures f
  | ExpiredIncomplete _ (Err rb) | CommitFailed _ (Err rb) => rb_failures rb
  | _ => []
  end.

(** Only the host can be at fault: an operation of the plan, or a compensation. *)
Definition host_at_fault (expired : bool) (e : TransactionError E) : Prop :=
  match e with
  | StageFailed (HostFailed _) None => True
  | ExpiredIncomplete (Ok _) (Err _) => expired = true
  | _ => False
  end.

(** The outcome of a transaction that started with the host in line with the coordinator:
    they are in line again, with what was prepared if it committed and as before if not,
    except where the error reports a failed host operation. *)
Definition in_line (c : EndpointCoordinator) (expired : bool)
    (o : EndpointCoordinator * H * result (TransactionError E) Finish) : Prop :=
  match o with
  | (c', h', Ok Committed) => expired = false ∧ view h' = host_of c'
  | (c', h', Ok BackedOut) => expired = true ∧ c' = c ∧ view h' = host_of c
  | (c', h', Err e) => c' = c ∧ restored view (host_of c) h' (failures_of e)
  end.

Lemma transact_in_line c h p expired : coord_ok c → view h = host_of c →
  (base_of p = revision c → prepared_from c p) → in_line c expired (transact c h p expired).
Proof.
  intros Hc Hh Hp. unfold transact. destruct (execute h (plan_of p) (kind_of p)) as [h1 r1] eqn:He.
  pose proof (execute_spec view _ _ _ _ _ He) as Hx. rewrite Hh in Hx. destruct r1 as [a|[e|f]].
  - destruct Hx as (Hv & _ & _ & Hrb). destruct (rollback_applied h1 a) as [h2 r2] eqn:Hr.
    specialize (Hrb _ _ eq_refl).
    assert (match r2 with Ok _ => view h2 = host_of c
      | Err rb => restored view (host_of c) h2 (rb_failures rb) end) as Hrb' by (destruct r2; [done|tauto]).
    destruct expired.
    + destruct (abort c p), r2; simpl; split; try done; intros s _; by rewrite Hrb'.
    + destruct (commit c p) as [c'|e] eqn:Hcm.
      * split; [done|]. apply commit_Ok in Hcm as [Hb ->].
        destruct (prepared_good c p Hc (Hp (eq_sym Hb))) as [[_ Hsp Htt _ _ _ _ _ _] _].
        rewrite Hv. unfold host_of. rewrite (access_specs _ _ _ Hsp). by apply exec_whole.
      * unfold rollback_after_model_failure. rewrite Hr. split; [done|].
        destruct r2; simpl; [|done]. intros s _. by rewrite Hrb'.
  - destruct Hx as [-> _]. split; [done|]. intros s _. by rewrite Hh.
  - split; [done|]. apply Hx.
Qed.

(** A transaction that is not stale fails only if the host does. *)
Lemma transact_at_fault c h p expired c' h' e : coord_ok c → prepared_from c p →
  generation (snapshot c) + 1 < 2 ^ 64 → transact c h p expired = (c', h', Err e) →
  host_at_fault expired e.
Proof.
  intros Hc Hp Hgen. destruct (prepared_good c p Hc Hp) as (Hg & Hb & _).
  assert (admissible (is_monotonic_stage (kind_of p)) (plan_of p)) as Ha
    by (rewrite kind_of_stage; by eapply plan_admissible).
  unfold transact, execute.
  rewrite (proj2 (validate_plan_Ok _ _ _) (conj Ha eq_refl)), (proj2 (abort_Ok c p) (eq_sym Hb)),
    (proj2 (commit_Ok c p _) (conj (eq_sym Hb) eq_refl)).
  destruct (execute_loop _ _ _ _ _) as [h1 [rs|f]]; [|by intros [= <- <- <-]].
  destruct expired; [|done]. destruct (rollback_applied _ _) as [h2 [|]]; [done|]. by intros [= <- <- <-].
Qed.
End Shape.

(** ** Cleaning up *)

Definition retained (kc : CandidateKey * CandidateState) : Prop :=
  dialable kc.2 = true ∨ cs_leases kc.2 ≠ 0.

Lemma retirement_done c p : prepare_retirement c = Ok (Some p) →
  prepare_retirement (pr_projected p) = Ok None.
Proof.
  unfold prepare_retirement at 1. case_bool_decide; [done|].
  intros (plan & _ & (? & _ & (n & _ & [= <-])%bind_Ok)%bind_Ok)%bind_Ok.
  unfold prepare_retirement. rewrite bool_decide_eq_true_2; [done|].
  cbn [pr_projected set_revision set_candidates candidates]. f_equal. apply map_filter_id.
  by intros k cs [_ ?]%map_lookup_filter_Some.
Qed.

Lemma nothing_retired c : prepare_retirement c = Ok None →
  ∀ k cs, candidates c !! k = Some cs → retained (k, cs).
Proof.
  unfold prepare_retirement. case_bool_decide as Hs.
  2:{ by intros (? & _ & (? & _ & (? & _ & ?)%bind_Ok)%bind_Ok)%bind_Ok. }
  intros _ k cs Hk. set (upd := filter _ (candidates c)) in Hs.
  assert (dom upd = dom (candidates c)) as Hd.
  { apply set_eq. apply set_subseteq_size_equiv; [apply dom_filter_subseteq|].
    rewrite !size_dom. by rewrite Hs. }
  assert (k ∈ dom upd) as [cs' Hcs']%elem_of_dom by (rewrite Hd; by eapply elem_of_dom_2).
  apply map_lookup_filter_Some in Hcs' as [Hk' Hr]. by rewrite Hk in Hk'; injection Hk' as ->.
Qed.

Section Theorems.
Context {H E : Type} {A : EndpointHostAdapter H E} (view : H → Host).
Context {L : EndpointHostAdapterLaws H E view}.

Lemma transact_reachable c0 s p guards expired c' h' r :
  reachable_from c0 (mkSys (sy_coord s) (p :: sy_pending s)) →
  transact (sy_coord s) guards p expired = (c', h', r) → ∃ ps, reachable_from c0 (mkSys c' ps).
Proof.
  intros Hr Ht. assert (c' = sy_coord s ∨ commit (sy_coord s) p = Ok c') as [->|Hc].
  { revert Ht. unfold transact, rollback_after_model_failure. repeat (case_match; simplify_eq/=); naive_solver. }
  - by eexists.
  - exists (sy_pending s). eapply rtc_r; [exact Hr|]. by apply (step_commit _ []).
Qed.

(** In line, and in a state from which everything said here applies again. *)
Definition good_outcome (c0 c : EndpointCoordinator) (expired : bool)
    (o : EndpointCoordinator * H * result (TransactionError E) Finish) : Prop :=
  in_line view c expired o ∧ ∃ ps, reachable_from c0 (mkSys o.1.1 ps).

Section Reachable.
Context (endpoints : list LogicalEndpoint) (seeds : list SeedCandidate) (now : Z).
Context (c0 : EndpointCoordinator) (s : Sys) (guards : H).
Hypothesis Hnew : EndpointCoordinator_new endpoints seeds now = Ok c0.
Hypothesis Hreach : reachable_from c0 s.

Lemma transact_good p expired : view guards = host_of (sy_coord s) →
  (base_of p = revision (sy_coord s) → prepared_from (sy_coord s) p) →
  good_outcome c0 (sy_coord s) expired (transact (sy_coord s) guards p expired).
Proof.
  intros Hh Hp. pose proof (reachable_ok _ _ _ _ _ Hnew Hreach) as [Hc _ _].
  split; [by apply transact_in_line|].
  destruct (transact (sy_coord s) guards p expired) as [[c' h'] r] eqn:Ht. cbn [fst].
  destruct (decide (base_of p = revision (sy_coord s))) as [Hb|Hb].
  - eapply transact_reachable; [|exact Ht]. destruct s as [c ps]. eapply rtc_r; [exact Hreach|].
    apply step_prepare. by apply Hp.
  - exists (sy_pending s). assert (c' = sy_coord s) as ->; [|by destruct s].
    revert Ht. unfold transact, rollback_after_model_failure.
    destruct (commit (sy_coord s) p) as [c1|e] eqn:Hcm; [by apply commit_Ok in Hcm as [? _]|].
    repeat (case_match; simplify_eq/=); naive_solver.
Qed.

Lemma unprepared_good expired e : view guards = host_of (sy_coord s) →
  good_outcome c0 (sy_coord s) expired (sy_coord s, guards, Err (PrepareFailed e)).
Proof.
  intros Hh. split; [|exists (sy_pending s); by destruct s].
  split; [done|]. intros site _. by rewrite Hh.
Qed.

Lemma pending_prepared p : p ∈ sy_pending s → base_of p = revision (sy_coord s) →
  prepared_from (sy_coord s) p.
Proof. intros Hin. by destruct (so_pending _ _ (reachable_ok _ _ _ _ _ Hnew Hreach) p Hin). Qed.
End Reachable.


Lemma map_result_Err {X Y} (f : X → Y) (o : EndpointCoordinator * H * result (TransactionError E) X)
    c' h' e : o = (c', h', Err e) → map_result f o = (c', h', Err e).
Proof. by intros ->. Qed.

(** Only the host can make a transaction fail: in every reachable state whose counters
    are not exhausted, a pending observation or retirement that is not stale, the restored
    authority and the release of a held lease go through the runtime's validation, the
    coordinator's revision check and the candidate count check; an error means that an
    operation of the host or its compensation failed. *)
Theorem client_errors_from_host (endpoints : list LogicalEndpoint) (seeds : list SeedCandidate)
    (now : Z) (c0 : EndpointCoordinator) (s : Sys) (guards : H) (expired : bool)
    (c' : EndpointCoordinator) (h' : H) (e : TransactionError E) :
  EndpointCoordinator_new endpoints seeds now = Ok c0 → reachable_from c0 s →
  let c := sy_coord s in
  generation (snapshot c) + 1 < 2 ^ 64 → revision c + 1 < 2 ^ 64 →
  (∀ q, PObservation q ∈ sy_pending s → po_base_revision q = revision c →
     commit_observation_transaction c guards q expired = (c', h', Err e) → host_at_fault expired e)
  ∧ (commit_authority_rehydration_transaction c guards expired = (c', h', Err e) →
       host_at_fault expired e)
  ∧ (∀ q, PRetirement q ∈ sy_pending s → pr_base_revision q = revision c →
       commit_retirement_transaction c guards q = (c', h', Err e) → host_at_fault false e)
  ∧ (∀ lease, leases c !! lease_id lease = Some (lease_key lease) →
       release_endpoint_lease c guards lease = (c', h', Err e) → host_at_fault false e).
Proof.
  intros Hnew Hreach c Hgen Hrev. pose proof (so_coord _ _ (reachable_ok _ _ _ _ _ Hnew Hreach)) as Hc.
  split_and!.
  - intros q Hq Hb Ht%(map_result_Err observation_finish). rewrite observation_transact in Ht.
    eapply transact_at_fault; [exact Hc| |exact Hgen|exact Ht]. by eapply pending_prepared.
  - intros Ht. destruct (rehydration_good c Hc) as [(q & Hq & _)|[_ ?]]; [|lia].
    apply (map_result_Err rehydration_finish) in Ht. rewrite (rehydration_transact _ _ _ _ Hq) in Ht.
    eapply (transact_at_fault c _ (PRehydration q)); [exact Hc|exact Hq|exact Hgen|exact Ht].
  - intros q Hq Hb Ht%(map_result_Err (λ _, Committed)). rewrite retirement_transact in Ht.
    eapply transact_at_fault; [exact Hc| |exact Hgen|exact Ht]. by eapply pending_prepared.
  - intros lease Hl Ht%(map_result_Err (λ _, Committed)).
    destruct (release_good c lease Hc Hl Hrev) as (q & Hq & _).
    unfold release_endpoint_lease in Ht. rewrite Hq, release_transact in Ht.
    eapply (transact_at_fault c _ (PRelease q)); [exact Hc|by exists lease|exact Hgen|exact Ht].
Qed.

(** Cleaning up ends: from every reachable state in line with its host, the loop over
    retirements returns after at most two looks at the candidates, whatever the host does;
    if it reports success, no candidate is left that is neither dialable nor leased and
    the host has exactly the access of the ones that remain, and otherwise the error comes
    with the host as it was except where it reports a failure. *)
Theorem cleanup_terminates (endpoints : list LogicalEndpoint) (seeds : list SeedCandidate) (now : Z)
    (c0 : EndpointCoordinator) (s : Sys) (guards : H) :
  EndpointCoordinator_new endpoints seeds now = Ok c0 → reachable_from c0 s →
  view guards = host_of (sy_coord s) →
  ∃ c' h' r, (∀ fuel, (2 ≤ fuel)%nat →
      cleanup_retired_endpoints fuel (sy_coord s) guards = Some (c', h', r))
    ∧ match r with
      | Ok _ => (∀ k cs, candidates c' !! k = Some cs → retained (k, cs)) ∧ view h' = host_of c'
          ∧ snapshot c' = snapshot (sy_coord s)
      | Err e => c' = sy_coord s ∧ restored view (host_of (sy_coord s)) h' (failures_of e)
      end.
Proof.
  intros Hnew Hreach Hh. pose proof (so_coord _ _ (reachable_ok _ _ _ _ _ Hnew Hreach)) as Hc.
  set (c := sy_coord s) in *. destruct (prepare_retirement c) as [[q|]|e] eqn:Hq.
  - pose proof (transact_good _ _ _ _ _ guards Hnew Hreach (PRetirement q) false Hh (λ _, Hq)) as [Hg _].
    fold c in Hg. rewrite <- retirement_transact in Hg.
    destruct (commit_retirement_transaction c guards q) as [[c' h'] r] eqn:Ht.
    exists c', h', r. destruct r as [[]|e]; cbn in Hg.
    + assert (c' = pr_projected q) as ->.
      { pose proof (retirement_transact c guards q) as Hrt. rewrite Ht in Hrt. symmetry in Hrt.
        revert Hrt. unfold transact, rollback_after_model_failure, map_result.
        destruct (commit c (PRetirement q)) as [c1|] eqn:Hcm; [apply commit_Ok in Hcm as [_ ->]|];
          repeat (case_match; simplify_eq/=); naive_solver. }
      pose proof (retirement_done _ _ Hq) as Hdone. split_and!.
      * intros [|[|fuel]] Hf; [lia..|]. cbn [cleanup_retired_endpoints]. by rewrite Hq, Ht, Hdone.
      * by apply nothing_retired.
      * apply Hg.
      * destruct (prepared_good c (PRetirement q) Hc Hq) as [[_ _ _ _ Hp _ _ [_ Hs] _] _]. by apply Hp.
    + split; [|exact Hg]. intros [|fuel] Hf; [lia|]. cbn [cleanup_retired_endpoints]. by rewrite Hq, Ht.
  - exists c, guards, (Ok ()). split_and!; [|by apply nothing_retired|done|done].
    intros [|fuel] Hf; [lia|]. cbn [cleanup_retired_endpoints]. by rewrite Hq.
  - exists c, guards, (Err (PrepareFailed e)). split_and!; [|done|intros x _; by rewrite Hh].
    intros [|fuel] Hf; [lia|]. cbn [cleanup_retired_endpoints]. by rewrite Hq.
Qed.
End Theorems.

(** ** Samples *)

Module ClientSample.
Import EndpointSample RuntimeSample.

Definition good_host : MemoryHost := mkMemoryHost (host_of c1) [].


(** With the second route broken the same transaction reports the host. *)
Definition broken_run := commit_observation_transaction c1 broken_host answer false.
Definition broken_error : TransactionError () :=
  match broken_run.2 with Err e => e | Ok _ => CandidateCountChanged end.

Lemma broken_run_fails : commit_observation_transaction c1 broken_host answer false
  = (broken_run.1.1, broken_run.1.2, Err broken_error).
Proof.
  fold broken_run.
  assert (is_ok broken_run.2 = false) as H by (by vm_compute). unfold broken_error.
  destruct broken_run as [[c h] [r|e]]; [done|]. done.
Qed.

Lemma client_errors_witness : host_at_fault false broken_error.
Proof.
  assert (generation (snapshot c1) + 1 < 2 ^ 64) as Hg by (by vm_compute).
  assert (revision c1 + 1 < 2 ^ 64) as Hr by (by vm_compute).
  assert (po_base_revision answer = revision c1) as Hb by (by vm_compute).
  exact (proj1 (client_errors_from_host [sample_endpoint] seeds 0 c0 s1 broken_host false
    broken_run.1.1 broken_run.1.2 broken_error new_c0 reachable_s1 Hg Hr) answer
    (list_elem_of_here _ _) Hb broken_run_fails).
Defined.

Lemma cleanup_witness : ∃ c' h' r, ∀ fuel, (2 ≤ fuel)%nat →
  cleanup_retired_endpoints fuel c1 good_host = Some (c', h', r).
Proof.
  destruct (cleanup_terminates mh_host [sample_endpoint] seeds 0 c0 s1 good_host new_c0 reachable_s1
    (eq_refl (host_of c1))) as (c' & h' & r & Hf & _). by exists c', h', r.
Defined.
End ClientSample.
