(* ===== verification/EndpointPolicy.v ===== *)
(** * Live endpoints: from the signed plan to the dialer

    Models [shadowpipe-core/src/endpoint_policy.rs] and the pin set [ServerPins] of
    [shadowpipe-core/src/session.rs]: the endpoints of a verified plan are grouped by what
    authenticates them, each group becomes one logical endpoint with compact identifiers cut
    from SHA-256 digests, and a registry releases the authentication material for a dial
    candidate after checking it against its group.  The theorems join the signed policy of
    [PolicyPlan] to the coordinator of [Endpoint]: whatever a resolver answers, what the
    dialer gets is one endpoint of the signed policy, address, name, keys and pins
    together. *)

From S2P Require Import Prelude Minicbor PolicySchema PolicyCbor PolicyCose PolicyPlan PolicyVerify.
From S2P Require Import EndpointPlan Endpoint EndpointSystem.

(** ** Runtime pins *)

Definition MAX_SERVER_PINS : Z := 3.

Record ServerPins := mkServerPins { sp_slots : list bytes; sp_len : Z }.

(** The loop over the pins: none occurs among those before it. *)
Fixpoint has_duplicate_pin (before pins : list bytes) : bool :=
  match pins with
  | [] => false
  | pin :: pins => existsb (λ existing, ct_eq existing pin) before || has_duplicate_pin (before ++ [pin]) pins
  end.

Definition ServerPins_new (pins : list bytes) : result EndpointError ServerPins :=
  if bool_decide (pins = []) || (MAX_SERVER_PINS <? len pins) then Err Refused else
  if has_duplicate_pin [] pins then Err Refused else
  Ok (mkServerPins (pins ++ replicate (Z.to_nat MAX_SERVER_PINS - length pins) (zero_array 32))
        (len pins)).

Definition ServerPins_as_slice (p : ServerPins) : list bytes := take (Z.to_nat (sp_len p)) (sp_slots p).

(** [matched |= equal & active] over all the slots. *)
Definition ServerPins_matches (p : ServerPins) (fingerprint : bytes) : bool :=
  negb ((foldl (λ '(index, matched) pin,
      (index + 1, Z.lor matched (Z.land (Z.b2z (ct_eq fingerprint pin)) (Z.b2z (index <? sp_len p)))))
    (0, 0) (sp_slots p)).2 =? 0).

(** ** Groups *)

Record VerifiedPolicyGeneration := mkVerifiedPolicyGeneration {
  vpg_policy_epoch : Z;
  vpg_sequence : Z;
}.
Definition from_plan (plan : VerifiedRealityPlan) : VerifiedPolicyGeneration :=
  mkVerifiedPolicyGeneration (vrp_policy_epoch plan) (vrp_sequence plan).

Record AuthGroupKey := mkAuthGroupKey {
  ak_locator_name : bytes;
  ak_sni : bytes;
  ak_port : Z;
  ak_reality_x25519_public_key : bytes;
  ak_reality_short_id : bytes;
  ak_server_pins : list bytes;
}.

#[export] Instance AuthGroupKey_eq_dec : EqDecision AuthGroupKey.
Proof. solve_decision. Defined.
#[export] Instance AuthGroupKey_countable : Countable AuthGroupKey.
Proof.
  refine (inj_countable' (λ k, (ak_locator_name k, ak_sni k, ak_port k,
      ak_reality_x25519_public_key k, ak_reality_short_id k, ak_server_pins k))
    (λ '(a, b, c, d, e, f), mkAuthGroupKey a b c d e f) _). by intros [].
Defined.

(** The derived order: field by field. *)
Definition cmp_then (a b : comparison) : comparison := match a with Eq => b | _ => a end.
Fixpoint pins_cmp (a b : list bytes) : comparison :=
  match a, b with
  | [], [] => Eq
  | [], _ => Lt
  | _, [] => Gt
  | x :: a, y :: b => cmp_then (bytes_cmp x y) (pins_cmp a b)
  end.
Definition group_cmp (a b : AuthGroupKey) : comparison :=
  cmp_then (bytes_cmp (ak_locator_name a) (ak_locator_name b))
    (cmp_then (bytes_cmp (ak_sni a) (ak_sni b))
       (cmp_then (ak_port a ?= ak_port b)
          (cmp_then (bytes_cmp (ak_reality_x25519_public_key a) (ak_reality_x25519_public_key b))
             (cmp_then (bytes_cmp (ak_reality_short_id a) (ak_reality_short_id b))
                (pins_cmp (ak_server_pins a) (ak_server_pins b)))))).
Definition group_le (a b : AuthGroupKey) : Prop := group_cmp a b ≠ Gt.
#[export] Instance group_le_dec a b : Decision (group_le a b).
Proof. unfold group_le. destruct (group_cmp a b); [left|left|right]; naive_solver. Defined.

(** The IPv4 address and port of a plan's endpoint. *)
Definition endpoint_ip (e : VerifiedRealityEndpoint) : Z := be_value (fst (vre_socket_addr e)).
Definition endpoint_port (e : VerifiedRealityEndpoint) : Z := snd (vre_socket_addr e).

Definition from_verified_endpoint (e : VerifiedRealityEndpoint) : result EndpointError AuthGroupKey :=
  if bool_decide (vre_locator_name e = []) then Err Refused else
  if bool_decide (vre_sni e = []) then Err Refused else
  if endpoint_port e =? 0 then Err Refused else
  if negb (len (reality_short_id e) =? MAX_SHORT_ID_BYTES) then Err Refused else
  if bool_decide (pins_as_slice (vre_server_pins e) = []) then Err Refused else
  Ok (mkAuthGroupKey (vre_locator_name e) (vre_sni e) (endpoint_port e)
        (vre_reality_x25519_public_key e) (reality_short_id e) (pins_as_slice (vre_server_pins e))).

(** ** Registry *)

Record RegistryEntry := mkRegistryEntry {
  re_logical : Z;
  re_auth : Z;
  re_authority_generation : Z;
  re_authority_digest : bytes;
  re_authorized_addresses : gset Z;
  re_sni : bytes;
  re_port : Z;
  re_reality_x25519_public_key : bytes;
  re_reality_short_id : bytes;
  re_server_pins : ServerPins;
}.

Record VerifiedRealityAuthRegistry := mkVerifiedRealityAuthRegistry {
  ar_policy_generation : VerifiedPolicyGeneration;
  ar_entries : gmap Z RegistryEntry;
  ar_logical_to_auth : gmap Z Z;
}.

Record VerifiedRealityDialTarget := mkVerifiedRealityDialTarget {
  dt_policy_generation : VerifiedPolicyGeneration;
  dt_logical : Z;
  dt_auth : Z;
  dt_authority_digest : bytes;
  dt_address : Z * Z;
  dt_sni : bytes;
  dt_reality_x25519_public_key : bytes;
  dt_reality_short_id : bytes;
  dt_server_pins : ServerPins;
}.

Definition lookup_target (r : VerifiedRealityAuthRegistry) (candidate : DialCandidate)
  : result EndpointError VerifiedRealityDialTarget :=
  entry ← ok_or (ar_entries r !! dc_auth candidate) Refused;
  if negb (bool_decide (ar_logical_to_auth r !! ck_logical (dc_key candidate) = Some (dc_auth candidate)))
  then Err Refused else
  if negb ((re_logical entry =? ck_logical (dc_key candidate)) && (re_auth entry =? dc_auth candidate))
  then Err Refused else
  if negb (bool_decide (dc_protocol candidate = ProtoTcp)) then Err Refused else
  if negb (ck_ip (dc_key candidate) =? dc_ip candidate) then Err Refused else
  if negb (dc_port candidate =? re_port entry) then Err Refused else
  if negb (bool_decide (ck_ip (dc_key candidate) ∈ re_authorized_addresses entry)) then Err Refused else
  if negb (dc_authority_generation candidate =? re_authority_generation entry) then Err Refused else
  Ok (mkVerifiedRealityDialTarget (ar_policy_generation r) (re_logical entry) (re_auth entry)
        (re_authority_digest entry) (dc_ip candidate, dc_port candidate) (re_sni entry)
        (re_reality_x25519_public_key entry) (re_reality_short_id entry) (re_server_pins entry)).

(** ** Identifiers *)

Definition AUTH_REF_DOMAIN : bytes := ascii_bytes "shadowpipe-endpoint-auth-ref-v2" ++ [Byte.x00].
Definition LOGICAL_ID_DOMAIN : bytes := ascii_bytes "shadowpipe-logical-endpoint-id-v2" ++ [Byte.x00].
Definition AUTHORITY_DOMAIN : bytes := ascii_bytes "shadowpipe-endpoint-authority-v2" ++ [Byte.x00].

(** The hasher's state is what it was fed: these functions return the bytes appended. *)
Definition update_length_prefixed (b : bytes) : bytes := be_bytes 8 (len b) ++ b.

Definition update_auth_group (g : AuthGroupKey) : bytes :=
  update_length_prefixed (ak_locator_name g) ++ update_length_prefixed (ak_sni g)
  ++ be_bytes 2 (ak_port g) ++ ak_reality_x25519_public_key g
  ++ update_length_prefixed (ak_reality_short_id g)
  ++ be_bytes 8 (len (ak_server_pins g)) ++ concat (ak_server_pins g).

(** What [authority_digest] hashes. *)
Definition authority_preimage (generation : VerifiedPolicyGeneration) (g : AuthGroupKey)
    (addresses : gset Z) : bytes :=
  AUTHORITY_DOMAIN ++ be_bytes 8 (vpg_policy_epoch generation) ++ be_bytes 8 (vpg_sequence generation)
  ++ update_auth_group g ++ be_bytes 8 (Z.of_nat (size addresses))
  ++ concat (be_bytes 4 <$> in_order Z.le addresses).

Definition first_u32 (digest : bytes) : Z := be_value (take 4 digest).
Definition first_u64 (digest : bytes) : Z := be_value (take 8 digest).

Definition reject_identifier_collision (occupied : gmap Z bytes) (compact : Z) (full_digest : bytes)
  : result EndpointError (gmap Z bytes) :=
  match occupied !! compact with
  | Some _ => Err Refused
  | None => Ok (<[compact := full_digest]> occupied)
  end.

Section FromPlan.
Context `{C : PolicyCrypto}.

Definition auth_group_digest (domain : bytes) (g : AuthGroupKey) : bytes :=
  sha256 (domain ++ update_auth_group g).
Definition authority_digest (generation : VerifiedPolicyGeneration) (g : AuthGroupKey)
    (addresses : gset Z) : bytes := sha256 (authority_preimage generation g addresses).

(** ** Construction *)

Record VerifiedEndpointPolicy := mkVerifiedEndpointPolicy {
  vep_policy_generation : VerifiedPolicyGeneration;
  vep_coordinator : EndpointCoordinator;
  vep_auth_registry : VerifiedRealityAuthRegistry;
  vep_scheduler_endpoints : list (Z * bytes);
}.

(** The first loop of [from_verified_plan]. *)
Definition group_endpoint (st : gset bytes * gmap AuthGroupKey (gset Z)) (e : VerifiedRealityEndpoint)
  : result EndpointError (gset bytes * gmap AuthGroupKey (gset Z)) :=
  let '(seen_endpoint_ids, groups) := st in
  if bool_decide (vre_endpoint_id e ∈ seen_endpoint_ids) then Err Refused else
  group ← from_verified_endpoint e;
  let addresses := default ∅ (groups !! group) in
  if bool_decide (endpoint_ip e ∈ addresses) then Err Refused else
  Ok ({[vre_endpoint_id e]} ∪ seen_endpoint_ids, <[group := {[endpoint_ip e]} ∪ addresses]> groups).

(** The local variables of the second loop. *)
Record Build := mkBuild {
  auth_ref_digests : gmap Z bytes;
  logical_id_digests : gmap Z bytes;
  authority_token_digests : gmap Z bytes;
  b_entries : gmap Z RegistryEntry;
  b_logical_to_auth : gmap Z Z;
  b_endpoints : list LogicalEndpoint;
  b_seeds : list SeedCandidate;
  b_scheduler : list (Z * bytes);
}.

Definition build_group (generation : VerifiedPolicyGeneration) (b : Build)
    (group_addresses : AuthGroupKey * gset Z) : result EndpointError Build :=
  let '(group, addresses) := group_addresses in
  let auth_digest := auth_group_digest AUTH_REF_DOMAIN group in
  let auth := first_u32 auth_digest in
  auth_refs ← reject_identifier_collision (auth_ref_digests b) auth auth_digest;
  let logical_digest := auth_group_digest LOGICAL_ID_DOMAIN group in
  let logical := first_u64 logical_digest in
  logical_ids ← reject_identifier_collision (logical_id_digests b) logical logical_digest;
  let authority_digest := authority_digest generation group addresses in
  let authority_generation := first_u64 authority_digest in
  authority_tokens ←
    reject_identifier_collision (authority_token_digests b) authority_generation authority_digest;
  authority ← from_preverified_manifest authority_generation (in_order Z.le addresses);
  server_pins ← ServerPins_new (ak_server_pins group);
  let endpoint := mkLogicalEndpoint logical (ak_locator_name group) (ak_port group) ProtoTcp auth
                    authority (mkAddressPolicy false) in
  let entry := mkRegistryEntry logical auth authority_generation authority_digest addresses
                 (ak_sni group) (ak_port group) (ak_reality_x25519_public_key group)
                 (ak_reality_short_id group) server_pins in
  if bool_decide (is_Some (b_entries b !! auth)) then Err Refused else
  if bool_decide (is_Some (b_logical_to_auth b !! logical)) then Err Refused else
  Ok (mkBuild auth_refs logical_ids authority_tokens (<[auth := entry]> (b_entries b))
        (<[logical := auth]> (b_logical_to_auth b)) (b_endpoints b ++ [endpoint])
        (b_seeds b ++ (mkSeedCandidate logical <$> in_order Z.le addresses))
        (b_scheduler b ++ [(logical, ak_locator_name group)])).

Definition sched_le (a b : Z * bytes) : Prop :=
  a.1 < b.1 ∨ (a.1 = b.1 ∧ bytes_cmp a.2 b.2 ≠ Gt).
#[export] Instance sched_le_dec a b : Decision (sched_le a b).
Proof. unfold sched_le. destruct (bytes_cmp a.2 b.2) eqn:Hc; apply _. Defined.

(** The groups in the order of their keys. *)
Definition sorted_groups (groups : gmap AuthGroupKey (gset Z)) : list (AuthGroupKey * gset Z) :=
  (λ g, (g, default ∅ (groups !! g))) <$> in_order group_le (dom groups).

Definition from_verified_plan (plan : VerifiedRealityPlan) (now_ms : Z)
  : result EndpointError VerifiedEndpointPolicy :=
  if bool_decide (vrp_endpoints plan = []) then Err Refused else
  let policy_generation := from_plan plan in
  '(_, groups) ← fold_res group_endpoint (∅, ∅) (vrp_endpoints plan);
  if bool_decide (groups = ∅) then Err Refused else
  b ← fold_res (build_group policy_generation) (mkBuild ∅ ∅ ∅ ∅ ∅ [] [] []) (sorted_groups groups);
  coordinator ← EndpointCoordinator_new (b_endpoints b) (b_seeds b) now_ms;
  Ok (mkVerifiedEndpointPolicy policy_generation coordinator
        (mkVerifiedRealityAuthRegistry policy_generation (b_entries b) (b_logical_to_auth b))
        (merge_sort sched_le (b_scheduler b))).

(** ** Pins *)

Lemma has_duplicate_pin_false before pins :
  has_duplicate_pin before pins = false ↔
  (∀ p, p ∈ pins → p ∉ before) ∧ NoDup pins.
Proof.
  revert before. induction pins as [|p pins IH]; intros before; cbn [has_duplicate_pin].
  { split; [|done]. intros _. split; [set_solver|constructor]. }
  assert (existsb (λ existing, ct_eq existing p) before = false ↔ p ∉ before) as Hex.
  { rewrite <- not_true_iff_false, existsb_exists. setoid_rewrite <- list_elem_of_In.
    setoid_rewrite ct_eq_spec. naive_solver. }
  rewrite orb_false_iff, Hex, IH, NoDup_cons. setoid_rewrite elem_of_app.
  setoid_rewrite list_elem_of_singleton. setoid_rewrite elem_of_cons. naive_solver.
Qed.

Lemma ServerPins_new_Ok pins p : ServerPins_new pins = Ok p →
  ServerPins_as_slice p = pins ∧ NoDup pins ∧ pins ≠ [] ∧ len pins ≤ MAX_SERVER_PINS.
Proof.
  unfold ServerPins_new. intros [Hn H]%if_err_Ok. apply if_err_Ok in H as [Hd [= <-]].
  apply orb_false_iff in Hn as [Hn%bool_decide_eq_false Hl%Z.ltb_ge].
  apply has_duplicate_pin_false in Hd as [_ Hd]. split_and!; [|done..].
  unfold ServerPins_as_slice, len. cbn [sp_len sp_slots]. by rewrite Nat2Z.id, take_app_length.
Qed.

Lemma ServerPins_matches_fold fp n slots : ∀ i m, 0 ≤ m →
  (foldl (λ '(index, matched) pin,
     (index + 1, Z.lor matched (Z.land (Z.b2z (ct_eq fp pin)) (Z.b2z (index <? n))))) (i, m) slots).2 = 0
  ↔ m = 0 ∧ ∀ k, slots !! k = Some fp → n ≤ i + Z.of_nat k.
Proof.
  induction slots as [|pin slots IH]; intros i m Hm; cbn [foldl snd].
  { split; [|by intros [? _]]. intros ->. split; [done|]. intros k Hk. by rewrite lookup_nil in Hk. }
  assert (0 ≤ Z.land (Z.b2z (ct_eq fp pin)) (Z.b2z (i <? n))) as Hl
    by (apply Z.land_nonneg; left; by destruct (ct_eq fp pin)).
  rewrite IH by (by apply Z.lor_nonneg). rewrite Z.lor_eq_0_iff.
  assert (Z.land (Z.b2z (ct_eq fp pin)) (Z.b2z (i <? n)) = 0 ↔ (pin = fp → n ≤ i)) as Hhead.
  { destruct (ct_eq fp pin) eqn:Hc; [apply ct_eq_spec in Hc as ->|]; destruct (Z.ltb_spec i n); cbn.
    - split; [done|]. intros Hle. specialize (Hle eq_refl). lia.
    - by split; [intros _ _|].
    - split; [|done]. intros _ ->. by rewrite (proj2 (ct_eq_spec fp fp) eq_refl) in Hc.
    - by split; [intros _ _|]. }
  rewrite Hhead. split.
  - intros [[-> Hp] Hk]. split; [done|]. intros [|k]; cbn [lookup list_lookup].
    + intros [= <-]. specialize (Hp eq_refl). lia.
    + intros H. specialize (Hk k H). lia.
  - intros [-> Hk]. split_and!; [done|..].
    + intros ->. specialize (Hk 0%nat eq_refl). lia.
    + intros k H. specialize (Hk (S k) H). lia.
Qed.

(** The session accepts exactly the pins of its set; the padding never matches. *)
Lemma ServerPins_matches_iff pins p fp : ServerPins_new pins = Ok p →
  ServerPins_matches p fp = true ↔ fp ∈ pins.
Proof.
  unfold ServerPins_new. intros [_ H]%if_err_Ok. apply if_err_Ok in H as [_ [= <-]].
  unfold ServerPins_matches. cbn [sp_slots sp_len].
  rewrite negb_true_iff, Z.eqb_neq, (ServerPins_matches_fold fp (len pins)) by done.
  rewrite list_elem_of_lookup. split.
  - intros Hn. destruct (decide (fp ∈ pins)) as [Hin|Hno]; [by apply list_elem_of_lookup|].
    destruct Hn. split; [done|]. intros k Hk. unfold len. destruct (decide (k < length pins)%nat); [|lia].
    rewrite lookup_app_l in Hk by done. destruct Hno. by eapply list_elem_of_lookup_2.
  - intros [k Hk] [_ Hall]. pose proof (lookup_lt_Some _ _ _ Hk) as Hlt.
    specialize (Hall k). rewrite lookup_app_l in Hall by done. specialize (Hall Hk). unfold len in Hall. lia.
Qed.

(** ** Grouping *)

(** The groups cover exactly the endpoints of the plan. *)
Definition groups_of (es : list VerifiedRealityEndpoint) (groups : gmap AuthGroupKey (gset Z)) : Prop :=
  (∀ e, e ∈ es → is_ok (from_verified_endpoint e) = true)
  ∧ ∀ g ip, (∃ ips, groups !! g = Some ips ∧ ip ∈ ips) ↔
      ∃ e, e ∈ es ∧ from_verified_endpoint e = Ok g ∧ endpoint_ip e = ip.

Lemma group_endpoint_groups es seen groups :
  fold_res group_endpoint (∅, ∅) es = Ok (seen, groups) → groups_of es groups.
Proof.
  apply (fold_res_ind group_endpoint (λ pre st, groups_of pre st.2)).
  { split; [intros e He; by apply not_elem_of_nil in He|]. intros g ip. cbn [snd].
    setoid_rewrite lookup_empty. setoid_rewrite elem_of_nil. naive_solver. }
  intros pre e [seen1 gs] [seen2 gs'] _ [Hok IH] H. cbn [snd] in *. unfold group_endpoint in H.
  apply if_err_Ok in H as [_ H]. apply bind_Ok in H as (g & Hg & H).
  apply if_err_Ok in H as [_ [= <- <-]]. split.
  { intros e' [?| ->%list_elem_of_singleton]%elem_of_app; [by apply Hok|by rewrite Hg]. }
  intros g' ip. setoid_rewrite elem_of_app. setoid_rewrite list_elem_of_singleton.
  destruct (decide (g' = g)) as [->|Hne].
  - setoid_rewrite lookup_insert_eq. specialize (IH g ip).
    destruct (gs !! g) as [ips|]; simpl; split.
    + intros (? & [= <-] & [->%elem_of_singleton|Hin]%elem_of_union); [naive_solver|].
      destruct (proj1 IH) as (e' & ? & ? & ?); [by exists ips|]. naive_solver.
    + intros (e' & [Hin| ->] & He' & Hip); (eexists; split; [done|]); apply elem_of_union.
      * right. destruct (proj2 IH) as (? & [= <-] & ?); [by exists e'|done].
      * left. set_solver.
    + intros (? & [= <-] & Hin). assert (ip = endpoint_ip e) as -> by set_solver. naive_solver.
    + intros (e' & [Hin| ->] & He' & Hip); (eexists; split; [done|]).
      * destruct (proj2 IH) as (? & ? & ?); [by exists e'|done].
      * set_solver.
  - setoid_rewrite lookup_insert_ne; [|done]. rewrite IH. clear -Hg Hne. split.
    + intros (e' & ? & ?). exists e'. tauto.
    + intros (e' & [?| ->] & He' & ?); [by exists e'|congruence].
Qed.

(** ** Building *)

Definition auth_of (g : AuthGroupKey) : Z := first_u32 (auth_group_digest AUTH_REF_DOMAIN g).
Definition logical_of (g : AuthGroupKey) : Z := first_u64 (auth_group_digest LOGICAL_ID_DOMAIN g).

Section Built.
Context (generation : VerifiedPolicyGeneration).

Definition token_of (ga : AuthGroupKey * gset Z) : Z := first_u64 (authority_digest generation ga.1 ga.2).
Definition endpoint_of (ga : AuthGroupKey * gset Z) : LogicalEndpoint :=
  mkLogicalEndpoint (logical_of ga.1) (ak_locator_name ga.1) (ak_port ga.1) ProtoTcp (auth_of ga.1)
    (mkVerifiedIpv4Authority (token_of ga) ga.2) (mkAddressPolicy false).
Definition seeds_of (ga : AuthGroupKey * gset Z) : list SeedCandidate :=
  mkSeedCandidate (logical_of ga.1) <$> in_order Z.le ga.2.
Definition entry_of (ga : AuthGroupKey * gset Z) (pins : ServerPins) : RegistryEntry :=
  mkRegistryEntry (logical_of ga.1) (auth_of ga.1) (token_of ga) (authority_digest generation ga.1 ga.2)
    ga.2 (ak_sni ga.1) (ak_port ga.1) (ak_reality_x25519_public_key ga.1) (ak_reality_short_id ga.1) pins.

(** The registry, the endpoints and the seeds after some groups. *)
Record built (gs : list (AuthGroupKey * gset Z)) (b : Build) : Prop := {
  bu_endpoints : b_endpoints b = endpoint_of <$> gs;
  bu_seeds : b_seeds b = flat_map seeds_of gs;
  bu_entries auth entry : b_entries b !! auth = Some entry →
    ∃ ga pins, ga ∈ gs ∧ auth = auth_of ga.1 ∧ ServerPins_new (ak_server_pins ga.1) = Ok pins
      ∧ entry = entry_of ga pins;
  bu_registered ga : ga ∈ gs → ga.2 ≠ ∅ ∧ (∃ pins, ServerPins_new (ak_server_pins ga.1) = Ok pins
      ∧ b_entries b !! auth_of ga.1 = Some (entry_of ga pins))
      ∧ b_logical_to_auth b !! logical_of ga.1 = Some (auth_of ga.1);
}.

Lemma list_to_set_in_order (s : gset Z) : list_to_set (in_order Z.le s) = s.
Proof. apply set_eq. intros x. by rewrite elem_of_list_to_set, elem_of_in_order. Qed.

Lemma build_group_built gs b :
  fold_res (build_group generation) (mkBuild ∅ ∅ ∅ ∅ ∅ [] [] []) gs = Ok b → built gs b.
Proof.
  apply (fold_res_ind _ built).
  { split; cbn; [done|done|intros ? ?; by rewrite lookup_empty|]. intros ga H. by apply not_elem_of_nil in H. }
  intros pre [g ips] b0 b1 _ [He Hs Hen Hreg] H. unfold build_group in H.
  apply bind_Ok in H as (ar & _ & H). apply bind_Ok in H as (li & _ & H).
  apply bind_Ok in H as (at' & _ & H). apply bind_Ok in H as (auth & Hauth & H).
  apply bind_Ok in H as (pins & Hpins & H). apply if_err_Ok in H as [Hf1%bool_decide_eq_false H].
  apply if_err_Ok in H as [Hf2%bool_decide_eq_false [= <-]].
  apply eq_None_not_Some in Hf1, Hf2.
  unfold from_preverified_manifest in Hauth. rewrite list_to_set_in_order in Hauth.
  apply if_err_Ok in Hauth as [Hne%bool_decide_eq_false [= <-]].
  split; cbn [b_endpoints b_seeds b_entries b_logical_to_auth].
  - by rewrite fmap_app, He.
  - rewrite flat_map_app, Hs. cbn. by rewrite app_nil_r.
  - intros a en [[<- <-]|[_ Hin]]%lookup_insert_Some.
    + exists (g, ips), pins. split_and!; [apply elem_of_app; right; by left|done..].
    + destruct (Hen _ _ Hin) as (ga & p & ? & ?). exists ga, p. split; [|done]. apply elem_of_app. by left.
  - intros ga [Hin| ->%list_elem_of_singleton]%elem_of_app.
    + destruct (Hreg ga Hin) as (? & (p & ? & Hp) & Hl). split_and!; [done| |].
      * exists p. split; [done|]. rewrite lookup_insert_ne; [done|]. intros Heq.
        by rewrite <- Heq, Hf1 in Hp.
      * rewrite lookup_insert_ne; [done|]. intros Heq. by rewrite <- Heq, Hf2 in Hl.
    + split_and!; [done| |]; cbn [fst].
      * exists pins. split; [done|]. by rewrite lookup_insert_eq.
      * by rewrite lookup_insert_eq.
Qed.
End Built.

(** ** Theorems *)

Lemma elem_of_sorted_groups (groups : gmap AuthGroupKey (gset Z)) ga :
  ga ∈ sorted_groups groups ↔ groups !! ga.1 = Some ga.2.
Proof.
  unfold sorted_groups. rewrite list_elem_of_fmap. setoid_rewrite elem_of_in_order. split.
  - intros (g & -> & [ips Hips]%elem_of_dom). cbn [fst snd]. by rewrite Hips.
  - intros H. exists ga.1. split; [rewrite H; by destruct ga|]. by eapply elem_of_dom_2.
Qed.

Lemma from_verified_plan_Ok plan now pol : from_verified_plan plan now = Ok pol →
  ∃ groups b, groups_of (vrp_endpoints plan) groups ∧ built (from_plan plan) (sorted_groups groups) b
    ∧ EndpointCoordinator_new (b_endpoints b) (b_seeds b) now = Ok (vep_coordinator pol)
    ∧ vep_auth_registry pol
      = mkVerifiedRealityAuthRegistry (from_plan plan) (b_entries b) (b_logical_to_auth b).
Proof.
  unfold from_verified_plan. intros [_ H]%if_err_Ok. apply bind_Ok in H as ([seen groups] & Hg & H).
  apply if_err_Ok in H as [_ H]. apply bind_Ok in H as (b & Hb & H). apply bind_Ok in H as (c & Hc & [= <-]).
  exists groups, b. split_and!; [by eapply group_endpoint_groups|by apply build_group_built|done|done].
Qed.

Lemma from_verified_endpoint_Ok e g : from_verified_endpoint e = Ok g →
  g = mkAuthGroupKey (vre_locator_name e) (vre_sni e) (endpoint_port e)
        (vre_reality_x25519_public_key e) (reality_short_id e) (pins_as_slice (vre_server_pins e)).
Proof. unfold from_verified_endpoint. intros H. repeat apply if_err_Ok in H as [_ H]. by injection H as <-. Qed.

(** What a dial target must be: one endpoint of the plan, in every part. *)
Definition released (plan : VerifiedRealityPlan) (t : VerifiedRealityDialTarget)
    (e : VerifiedRealityEndpoint) : Prop :=
  dt_policy_generation t = from_plan plan
  ∧ dt_address t = (endpoint_ip e, endpoint_port e)
  ∧ dt_sni t = vre_sni e
  ∧ dt_reality_x25519_public_key t = vre_reality_x25519_public_key e
  ∧ dt_reality_short_id t = reality_short_id e
  ∧ ∀ fp, ServerPins_matches (dt_server_pins t) fp = true ↔ fp ∈ pins_as_slice (vre_server_pins e).

Lemma group_released plan (ga : AuthGroupKey * gset Z) pins e t :
  from_verified_endpoint e = Ok ga.1 → ServerPins_new (ak_server_pins ga.1) = Ok pins →
  dt_policy_generation t = from_plan plan → dt_address t = (endpoint_ip e, ak_port ga.1) →
  dt_sni t = ak_sni ga.1 → dt_reality_x25519_public_key t = ak_reality_x25519_public_key ga.1 →
  dt_reality_short_id t = ak_reality_short_id ga.1 → dt_server_pins t = pins → released plan t e.
Proof.
  intros Hg%from_verified_endpoint_Ok Hp Ht Ha Hs Hk Hi Hsp. rewrite Hg in *. unfold released.
  rewrite Ht, Ha, Hs, Hk, Hi, Hsp. split_and!; [done..|]. intros fp. by apply ServerPins_matches_iff.
Qed.

Lemma lookup_target_Ok r d t : lookup_target r d = Ok t → ∃ entry,
  ar_entries r !! dc_auth d = Some entry ∧ dc_ip d ∈ re_authorized_addresses entry
  ∧ ck_ip (dc_key d) = dc_ip d ∧ dc_port d = re_port entry ∧ dc_protocol d = ProtoTcp
  ∧ ck_logical (dc_key d) = re_logical entry ∧ dc_authority_generation d = re_authority_generation entry
  ∧ t = mkVerifiedRealityDialTarget (ar_policy_generation r) (re_logical entry) (re_auth entry)
        (re_authority_digest entry) (dc_ip d, dc_port d) (re_sni entry)
        (re_reality_x25519_public_key entry) (re_reality_short_id entry) (re_server_pins entry).
Proof.
  unfold lookup_target. intros (entry & He%ok_or_Ok & H)%bind_Ok.
  apply if_err_Ok in H as [_ H]. apply if_err_Ok in H as [Hl%negb_false_iff H].
  apply andb_true_iff in Hl as [Hl%Z.eqb_eq _].
  apply if_err_Ok in H as [Hp%negb_false_iff%bool_decide_eq_true H].
  apply if_err_Ok in H as [Hip%negb_false_iff%Z.eqb_eq H].
  apply if_err_Ok in H as [Hport%negb_false_iff%Z.eqb_eq H].
  apply if_err_Ok in H as [Hin%negb_false_iff%bool_decide_eq_true H].
  apply if_err_Ok in H as [Hgen%negb_false_iff%Z.eqb_eq [= <-]].
  rewrite Hip in Hin. exists entry. done.
Qed.

Lemma lookup_released plan now pol d t : from_verified_plan plan now = Ok pol →
  lookup_target (vep_auth_registry pol) d = Ok t →
  ∃ e, e ∈ vrp_endpoints plan ∧ released plan t e ∧ dc_ip d = endpoint_ip e ∧ dc_port d = endpoint_port e.
Proof.
  intros (groups & b & Hgr & Hb & _ & Hreg)%from_verified_plan_Ok Hl. rewrite Hreg in Hl.
  apply lookup_target_Ok in Hl as (entry & Hen & Hin & _ & Hport & _ & _ & _ & ->).
  cbn [ar_entries ar_policy_generation] in *.
  destruct (bu_entries _ _ _ Hb _ _ Hen) as (ga & pins & Hga & _ & Hpins & ->).
  apply elem_of_sorted_groups in Hga. cbn in Hin, Hport. destruct Hgr as [Hok Hgr].
  destruct (proj1 (Hgr ga.1 (dc_ip d))) as (e & He & Heg & Hip); [by exists ga.2|].
  exists e. split_and!; [done| |done|].
  - eapply group_released; [done|done|done| |done..]. cbn. by rewrite Hip, Hport.
  - rewrite Hport. by rewrite (from_verified_endpoint_Ok _ _ Heg).
Qed.

(** The registry releases nothing but what was signed: for any dial candidate at all,
    forged or real, a successful lookup returns an endpoint of the verified plan, with its
    address and port, SNI, REALITY key, short id and pins all belonging together, and the
    plan's epoch and sequence; and the address is the one the candidate asked for. *)
Theorem lookup_target_signed (plan : VerifiedRealityPlan) (now : Z) (pol : VerifiedEndpointPolicy)
    (d : DialCandidate) (t : VerifiedRealityDialTarget) :
  from_verified_plan plan now = Ok pol → lookup_target (vep_auth_registry pol) d = Ok t →
  ∃ e, e ∈ vrp_endpoints plan ∧ released plan t e ∧ dt_address t = (dc_ip d, dc_port d)
    ∧ dc_protocol d = ProtoTcp.
Proof.
  intros Hp Hl. destruct (lookup_released _ _ _ _ _ Hp Hl) as (e & ? & Hr & -> & ->).
  apply lookup_target_Ok in Hl as (entry & _ & _ & _ & _ & Ht & _). exists e. split_and!; [done|done| |done].
  apply Hr.
Qed.

(** A candidate of an endpoint that was built resolves. *)
Lemma built_resolves plan groups b d :
  built (from_plan plan) (sorted_groups groups) b → confined (b_endpoints b) d →
  ∃ t, lookup_target (mkVerifiedRealityAuthRegistry (from_plan plan) (b_entries b) (b_logical_to_auth b)) d
       = Ok t.
Proof.
  intros Hb (e & He & Hid & Hip & Hin & _ & Hport & Hproto & Hauth & Hgen).
  rewrite (bu_endpoints _ _ _ Hb) in He. apply list_elem_of_fmap in He as (ga & -> & Hga).
  destruct (bu_registered _ _ _ Hb ga Hga) as (_ & (pins & _ & Hen) & Hla).
  cbn [endpoint_of le_id le_authority allowed le_port le_protocol le_auth manifest_generation] in *.
  unfold lookup_target. cbn [ar_entries ar_logical_to_auth ar_policy_generation].
  rewrite Hauth, Hen, <- Hid. cbn [ok_or mbind result_bind entry_of re_logical re_auth re_port
    re_authorized_addresses re_authority_generation]. rewrite bool_decide_eq_true_2 by done.
  rewrite !Z.eqb_refl, Hproto, <- Hip, Z.eqb_refl, Hport, Z.eqb_refl, Hgen, Z.eqb_refl.
  cbn [negb andb bool_decide decide]. rewrite !bool_decide_eq_true_2 by done. cbn [negb]. by eexists.
Qed.

(** A dial target as the policy signs it. *)
Definition target_of_view (t : VerifiedRealityDialTarget) (v : EndpointView) : Prop :=
  dt_address t = (be_value (ep_ipv4 (view_endpoint v)), ep_port (view_endpoint v))
  ∧ dt_sni t = ep_sni (view_endpoint v)
  ∧ dt_reality_x25519_public_key t = ep_reality_x25519_public_key (view_endpoint v)
  ∧ dt_reality_short_id t = ep_reality_short_id (view_endpoint v)
  ∧ ∀ fp, ServerPins_matches (dt_server_pins t) fp = true ↔ fp ∈ view_pins v.

Lemma released_view plan policy t e : build_verified_plan policy = Ok plan →
  e ∈ vrp_endpoints plan → released plan t e → ∃ v, v ∈ policy_views policy ∧ target_of_view t v.
Proof.
  intros Hv He (_ & Ha & Hs & Hk & Hi & Hp). exists (endpoint_view e). split.
  - rewrite <- (build_verified_plan_view _ _ Hv). apply list_elem_of_fmap. by exists e.
  - unfold target_of_view. rewrite Ha, Hs, Hk, Hi. done.
Qed.

(** C25: From the signed policy to the dialer: take the plan of a policy, the coordinator and
    registry built from it, and any state the coordinator can reach over queries, resolver
    answers, leases, rehydrations and retirements in any order.  Every candidate of the
    published snapshot resolves in the registry, to an endpoint that the policy signs:
    address, port, SNI, key, short id and server pins of one and the same entry. *)
Theorem dial_targets_signed (policy : EndpointPolicyV2) (plan : VerifiedRealityPlan) (now : Z)
    (pol : VerifiedEndpointPolicy) (s : Sys) (d : DialCandidate) :
  build_verified_plan policy = Ok plan → from_verified_plan plan now = Ok pol →
  reachable_from (vep_coordinator pol) s → d ∈ ds_candidates (snapshot (sy_coord s)) →
  ∃ t v, lookup_target (vep_auth_registry pol) d = Ok t ∧ v ∈ policy_views policy ∧ target_of_view t v.
Proof.
  intros Hplan Hp Hr Hd. pose proof (from_verified_plan_Ok _ _ _ Hp) as (groups & b & Hgr & Hb & Hnew & Hreg).
  pose proof (reachable_ok _ _ _ _ _ Hnew Hr) as [Hc Hs _].
  assert (confined (b_endpoints b) d) as Hcf.
  { apply (snapshot_confined _ (sy_coord s)); [done| |done].
    eapply configured_specs; [exact Hs|by eapply new_configured]. }
  destruct (built_resolves _ _ _ _ Hb Hcf) as [t Ht]. rewrite <- Hreg in Ht.
  destruct (lookup_released _ _ _ _ _ Hp Ht) as (e & He & Hrel & _).
  destruct (released_view _ _ _ _ Hplan He Hrel) as (v & ? & ?). by exists t, v.
Qed.

Lemma add_seeds_all l seeds m seed : fold_res (add_seed l) ∅ seeds = Ok m → seed ∈ seeds →
  m !! mkCandidateKey (seed_logical seed) (seed_ip seed) = Some (mkCandidateState None true 0).
Proof.
  intros Hm. revert seed. revert Hm.
  apply (fold_res_ind (add_seed l) (λ pre (m : gmap CandidateKey CandidateState), ∀ seed, seed ∈ pre →
    m !! mkCandidateKey (seed_logical seed) (seed_ip seed) = Some (mkCandidateState None true 0))).
  { intros ? H. by apply not_elem_of_nil in H. }
  intros pre x m0 m1 _ IH H. unfold add_seed in H. apply bind_Ok in H as (st & _ & H).
  apply if_err_Ok in H as [_ H]. apply if_err_Ok in H as [_ [= <-]].
  intros seed [Hin| ->%list_elem_of_singleton]%elem_of_app; [|by rewrite lookup_insert_eq].
  destruct (decide (mkCandidateKey (seed_logical x) (seed_ip x) = mkCandidateKey (seed_logical seed) (seed_ip seed)))
    as [->|]; [by rewrite lookup_insert_eq|]. rewrite lookup_insert_ne by done. by apply IH.
Qed.

Lemma new_seeded endpoints seeds now c seed : EndpointCoordinator_new endpoints seeds now = Ok c →
  seed ∈ seeds → ∃ d, d ∈ ds_candidates (snapshot c)
    ∧ dc_key d = mkCandidateKey (seed_logical seed) (seed_ip seed).
Proof.
  intros Hnew Hin. pose proof (new_ok _ _ _ _ Hnew) as Hc. revert Hnew.
  unfold EndpointCoordinator_new. intros (l & Hl & H)%bind_Ok. apply if_err_Ok in H as [_ H].
  apply bind_Ok in H as (m & Hm & H). apply if_err_Ok in H as [_ H]. apply bind_Ok in H as (sn & Hs & [= <-]).
  cbn [snapshot]. destruct (build_snapshot_keys _ _ _ _ Hs) as (_ & Hks & _).
  assert (mkCandidateKey (seed_logical seed) (seed_ip seed) ∈ dc_key <$> ds_candidates sn) as Hd.
  { rewrite Hks. apply elem_of_in_order, elem_of_dialable. eexists. split; [by eapply add_seeds_all|done]. }
  apply list_elem_of_fmap in Hd as (d & ? & ?). by exists d.
Qed.

(** Nothing signed is lost: after construction the snapshot offers every endpoint of the
    verified plan, and the registry resolves it to that endpoint's own address, SNI, keys
    and pins. *)
Theorem plan_fully_dialable (plan : VerifiedRealityPlan) (now : Z) (pol : VerifiedEndpointPolicy)
    (e : VerifiedRealityEndpoint) :
  from_verified_plan plan now = Ok pol → e ∈ vrp_endpoints plan →
  ∃ d t, d ∈ ds_candidates (snapshot (vep_coordinator pol))
    ∧ lookup_target (vep_auth_registry pol) d = Ok t ∧ released plan t e.
Proof.
  intros Hp He. pose proof (from_verified_plan_Ok _ _ _ Hp) as (groups & b & Hgr & Hb & Hnew & Hreg).
  destruct Hgr as [Hok Hgr]. specialize (Hok e He).
  destruct (from_verified_endpoint e) as [g|] eqn:Hg; [|done].
  destruct (proj2 (Hgr g (endpoint_ip e))) as (ips & Hips & Hip); [by exists e|].
  assert ((g, ips) ∈ sorted_groups groups) as Hga by (by apply elem_of_sorted_groups).
  assert (mkSeedCandidate (logical_of g) (endpoint_ip e) ∈ b_seeds b) as Hseed.
  { rewrite (bu_seeds _ _ _ Hb). apply list_elem_of_In, in_flat_map. exists (g, ips).
    split; [by apply list_elem_of_In|]. apply list_elem_of_In. unfold seeds_of. apply list_elem_of_fmap.
    exists (endpoint_ip e). split; [done|]. by apply elem_of_in_order. }
  destruct (new_seeded _ _ _ _ _ Hnew Hseed) as (d & Hd & Hkey). cbn [seed_logical seed_ip] in Hkey.
  pose proof (new_ok _ _ _ _ Hnew) as Hc.
  pose proof (snapshot_confined _ _ _ Hc (new_configured _ _ _ _ Hnew) Hd) as Hcf.
  destruct (built_resolves _ _ _ _ Hb Hcf) as [t Ht]. exists d, t.
  split_and!; [done|by rewrite Hreg|].
  apply lookup_target_Ok in Ht as (entry & Hen & _ & Hipd & Hport & _ & _ & _ & ->).
  destruct (bu_registered _ _ _ Hb _ Hga) as (_ & (pins & Hpins & Hreg1) & Hla1).
  assert (entry = entry_of (from_plan plan) (g, ips) pins) as ->.
  { destruct Hcf as (e' & He' & Hid & _ & _ & _ & _ & _ & Hauth & _).
    rewrite (bu_endpoints _ _ _ Hb) in He'. apply list_elem_of_fmap in He' as (ga' & -> & Hga').
    destruct (bu_registered _ _ _ Hb _ Hga') as (_ & _ & Hla2). cbn in Hid, Hauth, Hla1, Hreg1, Hen.
    rewrite Hid, Hkey in Hla2. cbn in Hla2. rewrite Hla1 in Hla2. injection Hla2 as Hla2.
    rewrite Hauth, <- Hla2, Hreg1 in Hen. by injection Hen as <-. }
  eapply (group_released plan (g, ips)); [done..| |done|done|done|done]. cbn.
  rewrite <- Hipd, Hkey, Hport. done.
Qed.
End FromPlan.

(** ** The digests bind what they identify *)

Lemma be_bytes_app_inj n a b (r r' : bytes) : is_u (8 * Z.of_nat n) a → is_u (8 * Z.of_nat n) b →
  be_bytes n a ++ r = be_bytes n b ++ r' → a = b ∧ r = r'.
Proof.
  intros Ha Hb H. apply app_inj_1 in H as [H ->]; [|by rewrite !length_be_bytes]. split; [|done].
  unfold is_u in *. rewrite Z.mul_comm in Ha, Hb. by apply (be_bytes_inj n).
Qed.

Lemma length_prefixed_inj (a b r r' : bytes) : is_u 64 (len a) → is_u 64 (len b) →
  update_length_prefixed a ++ r = update_length_prefixed b ++ r' → a = b ∧ r = r'.
Proof.
  unfold update_length_prefixed. rewrite <- !app_assoc. intros Ha Hb H.
  apply be_bytes_app_inj in H as [Hl H]; [|done..]. apply app_inj_1 in H; [done|].
  unfold len in Hl. lia.
Qed.

Lemma concat_inj (n : nat) (l1 l2 : list bytes) (r1 r2 : bytes) :
  Forall (λ b, length b = n) l1 → Forall (λ b, length b = n) l2 → length l1 = length l2 →
  concat l1 ++ r1 = concat l2 ++ r2 → l1 = l2 ∧ r1 = r2.
Proof.
  intros H1. revert l2. induction H1 as [|x l1 Hx _ IH]; intros l2 H2 Hl; destruct H2 as [|y l2 Hy H2];
    try done; cbn [concat]; rewrite <- ?app_assoc.
  intros [-> H]%app_inj_1; [|congruence]. apply IH in H as [-> ->]; [done|done|].
  cbn in Hl. lia.
Qed.

(** The widths the types of the source guarantee. *)
Definition group_wf (g : AuthGroupKey) : Prop :=
  is_u 64 (len (ak_locator_name g)) ∧ is_u 64 (len (ak_sni g)) ∧ is_u 16 (ak_port g)
  ∧ length (ak_reality_x25519_public_key g) = 32%nat ∧ is_u 64 (len (ak_reality_short_id g))
  ∧ is_u 64 (len (ak_server_pins g)) ∧ Forall (λ b, length b = 32%nat) (ak_server_pins g).
Definition generation_wf (v : VerifiedPolicyGeneration) : Prop :=
  is_u 64 (vpg_policy_epoch v) ∧ is_u 64 (vpg_sequence v).
Definition addresses_wf (s : gset Z) : Prop :=
  is_u 64 (Z.of_nat (size s)) ∧ ∀ ip, ip ∈ s → is_u 32 ip.

Lemma update_auth_group_inj g1 g2 (r1 r2 : bytes) : group_wf g1 → group_wf g2 →
  update_auth_group g1 ++ r1 = update_auth_group g2 ++ r2 → g1 = g2 ∧ r1 = r2.
Proof.
  destruct g1 as [ln1 sn1 po1 pk1 si1 ps1], g2 as [ln2 sn2 po2 pk2 si2 ps2]. unfold group_wf, update_auth_group.
  cbn [ak_locator_name ak_sni ak_port ak_reality_x25519_public_key ak_reality_short_id ak_server_pins].
  intros (Hl1 & Hs1 & Hp1 & Hk1 & Hi1 & Hn1 & Hf1) (Hl2 & Hs2 & Hp2 & Hk2 & Hi2 & Hn2 & Hf2).
  rewrite <- !app_assoc. intros H. apply length_prefixed_inj in H as [-> H]; [|done..].
  apply length_prefixed_inj in H as [-> H]; [|done..].
  apply (be_bytes_app_inj 2) in H as [-> H]; [|done..].
  apply app_inj_1 in H as [-> H]; [|congruence].
  apply length_prefixed_inj in H as [-> H]; [|done..].
  apply (be_bytes_app_inj 8) in H as [Hn H]; [|done..].
  apply (concat_inj 32) in H as [-> ->]; [done|done|done|]. unfold len in Hn. lia.
Qed.

Lemma be_bytes_list_inj (n : nat) l1 l2 : Forall (is_u (8 * Z.of_nat n)) l1 → Forall (is_u (8 * Z.of_nat n)) l2 →
  be_bytes n <$> l1 = be_bytes n <$> l2 → l1 = l2.
Proof.
  intros H1. revert l2. induction H1 as [|x l1 Hx _ IH]; intros [|y l2] H2; try done.
  apply Forall_cons in H2 as [Hy H2]. rewrite !fmap_cons. intros [= Hxy H]. f_equal; [|by apply IH].
  apply (be_bytes_app_inj n x y [] []); [done|done|]. by rewrite Hxy.
Qed.

(** What is hashed determines what it names: the preimage of the authority digest is
    injective in the policy epoch and sequence, the authentication group and the address
    set together, and the group's encoding is injective under each of the identifier
    domains; no two authorities, and no identifier of one kind and one of another, share a
    preimage. *)
Theorem preimages_injective (v1 v2 : VerifiedPolicyGeneration) (g1 g2 : AuthGroupKey) (a1 a2 : gset Z) :
  generation_wf v1 → generation_wf v2 → group_wf g1 → group_wf g2 → addresses_wf a1 → addresses_wf a2 →
  (authority_preimage v1 g1 a1 = authority_preimage v2 g2 a2 → v1 = v2 ∧ g1 = g2 ∧ a1 = a2)
  ∧ (∀ domain, domain ++ update_auth_group g1 = domain ++ update_auth_group g2 → g1 = g2)
  ∧ AUTH_REF_DOMAIN ++ update_auth_group g1 ≠ LOGICAL_ID_DOMAIN ++ update_auth_group g2
  ∧ AUTH_REF_DOMAIN ++ update_auth_group g1 ≠ authority_preimage v2 g2 a2
  ∧ LOGICAL_ID_DOMAIN ++ update_auth_group g1 ≠ authority_preimage v2 g2 a2.
Proof.
  intros [He1 Hs1] [He2 Hs2] Hg1 Hg2 [Hn1 Ha1] [Hn2 Ha2]. split_and!.
  - destruct v1 as [e1 s1], v2 as [e2 s2]. unfold authority_preimage. cbn [vpg_policy_epoch vpg_sequence] in *.
    intros H%app_inv_head. apply (be_bytes_app_inj 8) in H as [-> H]; [|done..].
    apply (be_bytes_app_inj 8) in H as [-> H]; [|done..].
    apply update_auth_group_inj in H as [-> H]; [|done..].
    apply (be_bytes_app_inj 8) in H as [Hn H]; [|done..]. split_and!; [done|done|].
    rewrite <- (app_nil_r (concat _)), <- (app_nil_r (concat (_ <$> in_order _ a2))) in H.
    apply (concat_inj 4) in H as [H _].
    + apply (be_bytes_list_inj 4) in H.
      * rewrite <- (list_to_set_in_order a1), H. apply list_to_set_in_order.
      * apply Forall_forall. intros x Hx%elem_of_in_order. by apply Ha1.
      * apply Forall_forall. intros x Hx%elem_of_in_order. by apply Ha2.
    + apply Forall_fmap, Forall_true. intros x. apply length_be_bytes.
    + apply Forall_fmap, Forall_true. intros x. apply length_be_bytes.
    + rewrite !length_fmap. unfold in_order. rewrite !merge_sort_Permutation.
      fold (size a1). unfold size, set_size in Hn. cbn in Hn. lia.
  - intros domain H%app_inv_head.
    apply (update_auth_group_inj g1 g2 [] []); [done|done|by rewrite !app_nil_r].
  - intros H. by apply (f_equal (λ l, l !! 11%nat)) in H.
  - intros H. by apply (f_equal (λ l, l !! 24%nat)) in H.
  - intros H. by apply (f_equal (λ l, l !! 11%nat)) in H.
Qed.

(** ** Samples *)

Module EndpointPolicySample.
Import EndpointSample.

(** A checksum in place of SHA-256. *)
#[export] Instance checksum_crypto : PolicyCrypto := {|
  sha256 b := be_bytes 32 (foldl (λ acc x, (acc * 7919 + bv x + 1) mod 2 ^ 256) 5 b);
  x25519 _ _ := [];
|}.

(** Two services: one with two addresses under one name and key, one with its own pin. *)
Definition endpoint_at (n : Z) (id name : byte) : RealityEndpointV2 :=
  mkRealityEndpointV2 (replicate 16 id) RealityTcp (bz <$> [9; 9; 9; n]) 443
    [name; Byte.x2e; Byte.x62] [name] (replicate 32 Byte.x05) (replicate 8 Byte.x06).
Definition pin_of (b : byte) : ServerPinV2 := mkServerPinV2 (replicate 32 b) 1000 500000 PinActive 1000.
Definition two_services : EndpointPolicyV2 :=
  mkEndpointPolicyV2 3 (replicate 32 Byte.x08) 0 9 1000 1000 400000 None
    [mkServiceV2 (replicate 16 Byte.x07) [pin_of Byte.x03]
       [endpoint_at 1 Byte.x11 Byte.x61; endpoint_at 2 Byte.x12 Byte.x61];
     mkServiceV2 (replicate 16 Byte.x08) [pin_of Byte.x04; pin_of Byte.x05] [endpoint_at 3 Byte.x13 Byte.x63]]
    [] [].
Definition sample_plan : VerifiedRealityPlan :=
  match build_verified_plan two_services with Ok p => p | Err _ => mkVerifiedRealityPlan 0 0 0 [] end.
Definition sample_policy : VerifiedEndpointPolicy :=
  unwrap (mkVerifiedEndpointPolicy (from_plan sample_plan) empty
    (mkVerifiedRealityAuthRegistry (from_plan sample_plan) ∅ ∅) []) (from_verified_plan sample_plan 0).

Lemma sample_plan_built : build_verified_plan two_services = Ok sample_plan.
Proof. by vm_compute. Qed.
Lemma sample_policy_built : from_verified_plan sample_plan 0 = Ok sample_policy.
Proof. apply unwrap_ok. by vm_compute. Qed.

(** The snapshot has a candidate for each of the three endpoints. *)
Definition third : DialCandidate :=
  default (mkDialCandidate (mkCandidateKey 0 0) 0 0 ProtoTcp 0 0)
    (ds_candidates (snapshot (vep_coordinator sample_policy)) !! 2%nat).
Lemma default_elem {X} (x : X) (l : list X) i : bool_decide (is_Some (l !! i)) = true →
  default x (l !! i) ∈ l.
Proof.
  intros [y Hy]%bool_decide_eq_true. rewrite Hy. by apply (list_elem_of_lookup_2 _ i).
Qed.
Lemma third_offered : third ∈ ds_candidates (snapshot (vep_coordinator sample_policy)).
Proof. apply default_elem. by vm_compute. Qed.

Lemma dial_targets_signed_witness : ∃ t v, lookup_target (vep_auth_registry sample_policy) third = Ok t
  ∧ v ∈ policy_views two_services ∧ target_of_view t v.
Proof.
  exact (dial_targets_signed two_services sample_plan 0 sample_policy
    (mkSys (vep_coordinator sample_policy) []) third sample_plan_built sample_policy_built
    (rtc_refl _ _) third_offered).
Defined.

Definition third_target : VerifiedRealityDialTarget :=
  unwrap (mkVerifiedRealityDialTarget (from_plan sample_plan) 0 0 [] (0, 0) [] [] [] (mkServerPins [] 0))
    (lookup_target (vep_auth_registry sample_policy) third).
Lemma third_resolves : lookup_target (vep_auth_registry sample_policy) third = Ok third_target.
Proof. apply unwrap_ok. by vm_compute. Qed.

Lemma lookup_target_signed_witness : ∃ e, e ∈ vrp_endpoints sample_plan ∧ released sample_plan third_target e.
Proof.
  destruct (lookup_target_signed sample_plan 0 sample_policy third third_target sample_policy_built
    third_resolves) as (e & He & Hr & _). exact (ex_intro _ e (conj He Hr)).
Defined.

Definition some_endpoint : VerifiedRealityEndpoint :=
  default (mkVerifiedRealityEndpoint [] [] ([], 0) [] [] [] [] 0 (mkVerifiedServerPins [] 0))
    (vrp_endpoints sample_plan !! 1%nat).

Lemma plan_fully_dialable_witness :
  ∃ d t, d ∈ ds_candidates (snapshot (vep_coordinator sample_policy))
    ∧ lookup_target (vep_auth_registry sample_policy) d = Ok t ∧ released sample_plan t some_endpoint.
Proof.
  assert (some_endpoint ∈ vrp_endpoints sample_plan) as He
    by (apply default_elem; by vm_compute).
  exact (plan_fully_dialable sample_plan 0 sample_policy some_endpoint sample_policy_built He).
Defined.

Definition some_group : AuthGroupKey :=
  mkAuthGroupKey [Byte.x61] [Byte.x62] 443 (replicate 32 Byte.x05) (replicate 8 Byte.x06)
    [replicate 32 Byte.x03].

Lemma preimages_injective_witness :
  AUTH_REF_DOMAIN ++ update_auth_group some_group ≠ LOGICAL_ID_DOMAIN ++ update_auth_group some_group.
Proof.
  assert (generation_wf (from_plan sample_plan)) as Hv by (by vm_compute).
  assert (group_wf some_group) as Hg.
  { unfold group_wf. split_and!; [by vm_compute..|]. repeat constructor. }
  assert (addresses_wf {[1]}) as Ha.
  { split; [by vm_compute|]. intros ip ->%elem_of_singleton. by vm_compute. }
  exact (proj1 (proj2 (proj2 (preimages_injective _ _ some_group some_group _ _ Hv Hv Hg Hg Ha Ha)))).
Defined.
End EndpointPolicySample.
