(* ===== verification/EndpointDns.v ===== *)
(** * Live endpoints: the DNS resolver

    Models [shadowpipe-core/src/endpoint_dns.rs]: the query builder, the bounded parser of
    answers with name decompression and the CNAME chain, and the exchange over UDP with its
    TCP retry; and the conversion of an answer to an observation
    ([From<ParsedDnsAnswer>] in [endpoint.rs]).  A packet is a byte string and a [usize] an
    integer; an index outside the packet would panic and is the error [DnsPanicked], and
    the loop of [parse_name] has fuel with the error [DnsOutOfFuel] of its own: the
    theorems show that neither occurs, whatever arrives.  The sockets are their outcome:
    what was sent and received, an I/O error, or a deadline that passed. *)

From S2P Require Import Prelude PolicyVerify EndpointPlan Endpoint EndpointSystem.

(** ** Errors and configuration *)

Inductive TcpFrameSection := LengthPrefix | Body.

Inductive EndpointDnsError :=
| Configuration
| InvalidQueryName
| DnsIo
| DnsTimeout
| TransactionMismatch (expected actual : Z)
| QuestionMismatch
| TcpFallbackRequired
| ShortTcpFrame (section : TcpFrameSection) (expected received : Z)
| TcpFrameTooLarge (declared maximum : Z)
| Malformed
| DnsPanicked
| DnsOutOfFuel.

Definition DNS_HEADER_LEN : Z := 12.
Definition QTYPE_A : Z := 1.
Definition QTYPE_CNAME : Z := 5.
Definition QTYPE_SOA : Z := 6.
Definition QCLASS_IN : Z := 1.
Definition FLAG_QR : Z := 0x8000.
Definition FLAG_TC : Z := 0x0200.
Definition FLAG_RD : Z := 0x0100.
Definition RCODE_MASK : Z := 0x000f.
Definition MAX_POINTER_HOPS : Z := 32.

(** Durations are in nanoseconds. *)
Record EndpointDnsConfig := mkEndpointDnsConfig {
  timeout : Z;
  tcp_connect_timeout : Z;
  tcp_write_timeout : Z;
  tcp_read_timeout : Z;
  max_packet_size : Z;
  max_resource_records : Z;
  max_cname_depth : Z;
  max_addresses : Z;
  default_negative_ttl_secs : Z;
}.

Definition EndpointDnsConfig_default : EndpointDnsConfig :=
  mkEndpointDnsConfig 3000000000 3000000000 3000000000 3000000000 4096 64 8 16 30.

Definition config_validate (c : EndpointDnsConfig) : result EndpointDnsError () :=
  if (timeout c =? 0) || (tcp_connect_timeout c =? 0) || (tcp_write_timeout c =? 0)
     || (tcp_read_timeout c =? 0) then Err Configuration else
  if negb ((512 <=? max_packet_size c) && (max_packet_size c <=? 65535)) then Err Configuration else
  if (max_resource_records c =? 0) || (max_cname_depth c =? 0) || (max_addresses c =? 0)
  then Err Configuration else
  Ok ().

Record ParsedARecord := mkParsedARecord { pa_ip : Z; pa_ttl_secs : Z }.

Inductive ParsedDnsAnswer :=
| AnsPositive (records : list ParsedARecord)
| AnsNxDomain (negative_ttl_secs : Z)
| AnsNoData (negative_ttl_secs : Z)
| AnsTransientRcode (rcode : Z).

(** ** Reading *)

(** [packet[i]] *)
Definition byte_at (packet : bytes) (i : Z) : result EndpointDnsError Z :=
  ok_or (bv <$> packet !! Z.to_nat i) DnsPanicked.

(** [packet.get(from..to)] *)
Definition get_range (packet : bytes) (from to : Z) : option bytes :=
  if (from <=? to) && (to <=? len packet)
  then Some (take (Z.to_nat (to - from)) (drop (Z.to_nat from) packet)) else None.

Definition read_u16 (packet : bytes) (offset : Z) : result EndpointDnsError Z :=
  e ← ok_or (u64_checked_add offset 2) Malformed;
  b ← ok_or (get_range packet offset e) Malformed;
  Ok (be_value b).

Definition read_u32 (packet : bytes) (offset : Z) : result EndpointDnsError Z :=
  e ← ok_or (u64_checked_add offset 4) Malformed;
  b ← ok_or (get_range packet offset e) Malformed;
  Ok (be_value b).

(** ** Names *)

Definition is_ascii (b : byte) : bool := bv b <? 128.
Definition to_ascii_lowercase (s : bytes) : bytes :=
  (λ b, if (65 <=? bv b) && (bv b <=? 90) then bz (bv b + 32) else b) <$> s.

(** The loop of [parse_name] over its local variables. *)
Fixpoint parse_name_loop (fuel : nat) (packet : bytes) (labels : list bytes) (position : Z)
    (next : option Z) (visited : gset Z) (expanded_len pointer_hops : Z)
  : result EndpointDnsError (bytes * Z) :=
  match fuel with
  | O => Err DnsOutOfFuel
  | S fuel =>
      if len packet <=? position then Err Malformed else
      if bool_decide (position ∈ visited) then Err Malformed else
      let visited := {[position]} ∪ visited in
      length ← byte_at packet position;
      if Z.land length 0xc0 =? 0xc0 then
        if len packet <=? position + 1 then Err Malformed else
        low ← byte_at packet (position + 1);
        let pointer := Z.lor (Z.shiftl (Z.land length 0x3f) 8) low in
        if len packet <=? pointer then Err Malformed else
        let pointer_hops := pointer_hops + 1 in
        if MAX_POINTER_HOPS <? pointer_hops then Err Malformed else
        let next := match next with Some n => Some n | None => Some (position + 2) end in
        parse_name_loop fuel packet labels pointer next visited expanded_len pointer_hops
      else if Z.land length 0xc0 =? 0 then
        if length =? 0 then
          Ok (join_dot labels, match next with Some n => n | None => position + 1 end)
        else
        if 63 <? length then Err Malformed else
        let label_start := position + 1 in
        label_end ← ok_or (u64_checked_add label_start length) Malformed;
        if len packet <? label_end then Err Malformed else
        label ← ok_or (get_range packet label_start label_end) DnsPanicked;
        if negb (forallb is_ascii label) then Err Malformed else
        expanded_len ← ok_or (u64_checked_add expanded_len
                          (length + (if bool_decide (labels = []) then 0 else 1))) Malformed;
        if 253 <? expanded_len then Err Malformed else
        parse_name_loop fuel packet (labels ++ [to_ascii_lowercase label]) label_end next visited
          expanded_len pointer_hops
      else Err Malformed
  end.

(** No position is visited twice, so one more step than there are bytes is enough. *)
Definition parse_name (packet : bytes) (start : Z) : result EndpointDnsError (bytes * Z) :=
  if len packet <=? start then Err Malformed else
  parse_name_loop (S (length packet)) packet [] start None ∅ 0 0.

Definition canonical_label (canonical : list bytes) (label : bytes)
  : result EndpointDnsError (list bytes) :=
  if bool_decide (label = []) || (63 <? len label) then Err InvalidQueryName else
  if match label with b :: _ => is_dash b | [] => false end
     || match last label with Some b => is_dash b | None => false end
     || negb (forallb (λ b, is_ascii_alphanumeric b || is_dash b) label)
  then Err InvalidQueryName else
  Ok (canonical ++ [to_ascii_lowercase label]).

Definition canonical_qname (qname : bytes) : result EndpointDnsError bytes :=
  let qname := trim_end_dots qname in
  if bool_decide (qname = []) then Err InvalidQueryName else
  if (253 <? len qname) || negb (forallb is_ascii qname) then Err InvalidQueryName else
  canonical ← fold_res canonical_label [] (split_dot qname);
  Ok (join_dot canonical).

Definition encode_label (output label : bytes) : result EndpointDnsError bytes :=
  if 255 <? len label then Err InvalidQueryName else
  Ok (output ++ [bz (len label)] ++ label).

Definition encode_name (name output : bytes) : result EndpointDnsError bytes :=
  output ← fold_res encode_label output (split_dot name);
  Ok (output ++ [Byte.x00]).

Definition build_a_query (qname : bytes) (txid : Z) : result EndpointDnsError bytes :=
  canonical ← canonical_qname qname;
  packet ← encode_name canonical
    (be_bytes 2 txid ++ be_bytes 2 FLAG_RD ++ be_bytes 2 1 ++ be_bytes 2 0 ++ be_bytes 2 0 ++ be_bytes 2 0);
  Ok (packet ++ be_bytes 2 QTYPE_A ++ be_bytes 2 QCLASS_IN).

(** ** Records *)

Record ResourceRecord := mkResourceRecord {
  owner : bytes;
  rr_type : Z;
  rr_class : Z;
  ttl : Z;
  rdata_start : Z;
  rdata_end : Z;
}.

Definition parse_rr (packet : bytes) (start : Z) : result EndpointDnsError (ResourceRecord * Z) :=
  '(owner, cursor) ← parse_name packet start;
  rr_type ← read_u16 packet cursor;
  class ← read_u16 packet (cursor + 2);
  ttl ← read_u32 packet (cursor + 4);
  rdlength ← read_u16 packet (cursor + 8);
  rdata_start ← ok_or (u64_checked_add cursor 10) Malformed;
  rdata_end ← ok_or (u64_checked_add rdata_start rdlength) Malformed;
  if len packet <? rdata_end then Err Malformed else
  Ok (mkResourceRecord owner rr_type class ttl rdata_start rdata_end, rdata_end).

(** [for _ in 0..count]: the records read one after the other. *)
Fixpoint parse_rrs (count : nat) (packet : bytes) (cursor : Z)
  : result EndpointDnsError (list ResourceRecord * Z) :=
  match count with
  | O => Ok ([], cursor)
  | S count =>
      '(rr, next) ← parse_rr packet cursor;
      '(rrs, cursor) ← parse_rrs count packet next;
      Ok (rr :: rrs, cursor)
  end.

(** *** The CNAME chain *)

Definition ChainMaps : Type := gmap bytes (bytes * Z) * gmap bytes (list ParsedARecord).

(** One record of the answer section. *)
Definition collect_rr (packet : bytes) (maps : ChainMaps) (rr : ResourceRecord)
  : result EndpointDnsError ChainMaps :=
  let '(cnames, address_records) := maps in
  if negb (rr_class rr =? QCLASS_IN) then Ok maps else
  if rr_type rr =? QTYPE_A then
    if negb (rdata_end rr - rdata_start rr =? 4) then Err Malformed else
    b0 ← byte_at packet (rdata_start rr);
    b1 ← byte_at packet (rdata_start rr + 1);
    b2 ← byte_at packet (rdata_start rr + 2);
    b3 ← byte_at packet (rdata_start rr + 3);
    let ip := ((b0 * 256 + b1) * 256 + b2) * 256 + b3 in
    Ok (cnames, <[owner rr := default [] (address_records !! owner rr) ++ [mkParsedARecord ip (ttl rr)]]>
                  address_records)
  else if rr_type rr =? QTYPE_CNAME then
    '(target, next) ← parse_name packet (rdata_start rr);
    if negb (next =? rdata_end rr) then Err Malformed else
    match cnames !! owner rr with
    | Some (existing, t) =>
        if bool_decide (existing = target)
        then Ok (<[owner rr := (existing, Z.min t (ttl rr))]> cnames, address_records)
        else Err Malformed
    | None => Ok (<[owner rr := (target, ttl rr)]> cnames, address_records)
    end
  else Ok maps.

Definition dedup_record (path_ttl : Z) (dedup : gmap Z Z) (record : ParsedARecord) : gmap Z Z :=
  let t := Z.min (pa_ttl_secs record) path_ttl in
  match dedup !! pa_ip record with
  | Some existing => <[pa_ip record := Z.min existing t]> dedup
  | None => <[pa_ip record := t]> dedup
  end.

(** The records of a map in the order of the addresses. *)
Definition sorted_records (dedup : gmap Z Z) : list ParsedARecord :=
  (λ ip, mkParsedARecord ip (default 0 (dedup !! ip))) <$> in_order Z.le (dom dedup).

(** [for depth in 0..=max_cname_depth], with the iterations left; running out of them is
    the [unreachable!] at the end of the loop. *)
Fixpoint chain_loop (iterations : nat) (config : EndpointDnsConfig) (maps : ChainMaps) (depth : Z)
    (current : bytes) (path_ttl : Z) (seen : gset bytes) : result EndpointDnsError (list ParsedARecord) :=
  match iterations with
  | O => Err DnsPanicked
  | S iterations =>
      if bool_decide (current ∈ seen) then Err Malformed else
      let seen := {[current]} ∪ seen in
      match maps.2 !! current with
      | Some records =>
          let dedup := foldl (dedup_record path_ttl) ∅ records in
          if max_addresses config <? Z.of_nat (size dedup) then Err Malformed else
          Ok (sorted_records dedup)
      | None =>
          match maps.1 !! current with
          | None => Ok []
          | Some (target, t) =>
              if depth =? max_cname_depth config then Err Malformed else
              chain_loop iterations config maps (depth + 1) target (Z.min path_ttl t) seen
          end
      end
  end.

Definition follow_cname_chain (packet : bytes) (answers : list ResourceRecord) (qname : bytes)
    (config : EndpointDnsConfig) : result EndpointDnsError (list ParsedARecord) :=
  maps ← fold_res (collect_rr packet) (∅, ∅) answers;
  if existsb (λ o, bool_decide (is_Some (maps.2 !! o))) (elements (dom maps.1)) then Err Malformed else
  chain_loop (S (Z.to_nat (max_cname_depth config))) config maps 0 qname (2 ^ 32 - 1) ∅.

(** *** Negative answers *)

Definition parse_soa_minimum (packet : bytes) (rr : ResourceRecord) : result EndpointDnsError Z :=
  '(_, after_mname) ← parse_name packet (rdata_start rr);
  if rdata_end rr <? after_mname then Err Malformed else
  '(_, after_rname) ← parse_name packet after_mname;
  fixed_end ← ok_or (u64_checked_add after_rname 20) Malformed;
  if negb (fixed_end =? rdata_end rr) then Err Malformed else
  minimum ← read_u32 packet (after_rname + 16);
  Ok (Z.min (ttl rr) minimum).

Definition soa_step (packet : bytes) (minimum : option Z) (rr : ResourceRecord)
  : result EndpointDnsError (option Z) :=
  value ← parse_soa_minimum packet rr;
  Ok (Some (match minimum with Some current => Z.min current value | None => value end)).

Definition soa_negative_ttl (packet : bytes) (authority : list ResourceRecord)
  : result EndpointDnsError (option Z) :=
  fold_res (soa_step packet) None
    (filter (λ rr, rr_class rr = QCLASS_IN ∧ rr_type rr = QTYPE_SOA) authority).

(** ** The answer *)

Definition parse_a_response (packet : bytes) (expected_txid : Z) (expected_qname : bytes)
    (config : EndpointDnsConfig) : result EndpointDnsError ParsedDnsAnswer :=
  _ ← config_validate config;
  if len packet <? DNS_HEADER_LEN then Err Malformed else
  if max_packet_size config <? len packet then Err Malformed else
  txid ← read_u16 packet 0;
  if negb (txid =? expected_txid) then Err (TransactionMismatch expected_txid txid) else
  flags ← read_u16 packet 2;
  if Z.land flags FLAG_QR =? 0 then Err Malformed else
  if negb (Z.land (Z.shiftr flags 11) 0x0f =? 0) then Err Malformed else
  if negb (Z.land flags 0x0040 =? 0) then Err Malformed else
  qdcount ← read_u16 packet 4;
  ancount ← read_u16 packet 6;
  nscount ← read_u16 packet 8;
  arcount ← read_u16 packet 10;
  if negb (qdcount =? 1) then Err Malformed else
  rr_count ← ok_or (c ← u64_checked_add ancount nscount; u64_checked_add c arcount) Malformed;
  if max_resource_records config <? rr_count then Err Malformed else
  expected_qname ← canonical_qname expected_qname;
  '(question_name, cursor) ← parse_name packet DNS_HEADER_LEN;
  qtype ← read_u16 packet cursor;
  qclass ← read_u16 packet (cursor + 2);
  cursor ← ok_or (u64_checked_add cursor 4) Malformed;
  if negb (bool_decide (question_name = expected_qname)) || negb (qtype =? QTYPE_A)
     || negb (qclass =? QCLASS_IN) then Err QuestionMismatch else
  '(answers, cursor) ← parse_rrs (Z.to_nat ancount) packet cursor;
  '(authority, cursor) ← parse_rrs (Z.to_nat nscount) packet cursor;
  '(_, cursor) ← parse_rrs (Z.to_nat arcount) packet cursor;
  if negb (cursor =? len packet) then Err Malformed else
  if negb (Z.land flags FLAG_TC =? 0) then Err TcpFallbackRequired else
  let rcode := Z.land flags RCODE_MASK in
  soa ← soa_negative_ttl packet authority;
  let negative_ttl := default (default_negative_ttl_secs config) soa in
  if rcode =? 3 then Ok (AnsNxDomain negative_ttl) else
  if negb (rcode =? 0) then Ok (AnsTransientRcode rcode) else
  records ← follow_cname_chain packet answers expected_qname config;
  if bool_decide (records = []) then Ok (AnsNoData negative_ttl) else Ok (AnsPositive records).

(** ** The exchange *)

(** What the network did: one datagram, and one TCP connection whose reads return chunks
    until the stream ends, fails or stalls past the deadline. *)
Inductive StreamEnd := Eof | StreamError | Stalled.
Record Net := mkNet {
  udp_socket_ok : bool;                    (* bind and connect *)
  udp_sent : option Z;                     (* bytes accepted by send *)
  udp_received : option (option bytes);    (* None: deadline; Some None: error *)
  tcp_connected : option bool;             (* None: deadline; Some false: error *)
  tcp_written : option bool;
  tcp_chunks : list bytes;
  tcp_end : StreamEnd;
}.

Definition resolve_a_connected_with_txid (net : Net) (qname : bytes) (config : EndpointDnsConfig)
    (txid : Z) : result EndpointDnsError ParsedDnsAnswer :=
  _ ← config_validate config;
  query ← build_a_query qname txid;
  if negb (udp_socket_ok net) then Err DnsIo else
  sent ← ok_or (udp_sent net) DnsIo;
  if negb (sent =? len query) then Err DnsIo else
  r ← ok_or (udp_received net) DnsTimeout;
  datagram ← ok_or r DnsIo;
  (* the buffer has one byte more than the bound; the kernel cuts off the rest *)
  let received := take (Z.to_nat (max_packet_size config + 1)) datagram in
  if max_packet_size config <? len received then Err Malformed else
  parse_a_response received txid qname config.

(** The loop fills [output] from the chunks; an empty read is the end of the stream. *)
Fixpoint read_tcp_frame_section (chunks : list bytes) (fin : StreamEnd) (output : bytes) (size : Z)
    (section : TcpFrameSection) : result EndpointDnsError (bytes * list bytes) :=
  if size <=? len output then Ok (output, chunks) else
  match chunks with
  | [] => Err match fin with
              | Eof => ShortTcpFrame section size (len output)
              | StreamError => DnsIo
              | Stalled => DnsTimeout
              end
  | [] :: chunks => Err (ShortTcpFrame section size (len output))
  | chunk :: chunks =>
      let room := Z.to_nat (size - len output) in
      if (length chunk <=? room)%nat
      then read_tcp_frame_section chunks fin (output ++ chunk) size section
      else Ok (output ++ take room chunk, drop room chunk :: chunks)
  end.

Definition resolve_a_tcp_with_txid (net : Net) (qname : bytes) (config : EndpointDnsConfig) (txid : Z)
  : result EndpointDnsError ParsedDnsAnswer :=
  _ ← config_validate config;
  query ← build_a_query qname txid;
  if 65535 <? len query then Err Configuration else
  connected ← ok_or (tcp_connected net) DnsTimeout;
  if negb connected then Err DnsIo else
  written ← ok_or (tcp_written net) DnsTimeout;
  if negb written then Err DnsIo else
  '(length_prefix, chunks) ← read_tcp_frame_section (tcp_chunks net) (tcp_end net) [] 2 LengthPrefix;
  let declared := be_value length_prefix in
  if max_packet_size config <? declared then Err (TcpFrameTooLarge declared (max_packet_size config)) else
  '(packet, _) ← read_tcp_frame_section chunks (tcp_end net) [] declared Body;
  parse_a_response packet txid qname config.

Definition resolve_a_with_txid (net : Net) (qname : bytes) (config : EndpointDnsConfig) (txid : Z)
  : result EndpointDnsError ParsedDnsAnswer :=
  match resolve_a_connected_with_txid net qname config txid with
  | Err TcpFallbackRequired => resolve_a_tcp_with_txid net qname config txid
  | result => result
  end.

(** ** Observations *)

Definition observation_from (answer : ParsedDnsAnswer) : ResolutionObservation :=
  match answer with
  | AnsPositive records => Positive ((λ r, (pa_ip r, pa_ttl_secs r)) <$> records)
  | AnsNxDomain t => NxDomain (Some t)
  | AnsNoData t => NoData (Some t)
  | AnsTransientRcode _ => TransientFailure
  end.

(** [resolve_endpoint_observation] of the client. *)
Definition resolve_endpoint_observation (c : EndpointCoordinator) (net : Net) (config : EndpointDnsConfig)
    (txid logical : Z) (hostname : bytes) (now_ms entropy : Z)
  : EndpointCoordinator * result EndpointError PreparedObservation :=
  match begin_query c logical with
  | Err e => (c, Err e)
  | Ok (c, stamp) =>
      let observation := match resolve_a_with_txid net hostname config txid with
                         | Ok answer => observation_from answer
                         | Err _ => TransientFailure
                         end in
      (c, prepare_observation c stamp observation now_ms entropy)
  end.

(** ** Reading stays in the packet *)

Lemma byte_at_range packet i : 0 ≤ i < len packet → ∃ z, byte_at packet i = Ok z ∧ 0 ≤ z < 256.
Proof.
  intros Hi. unfold byte_at, len in *. destruct (lookup_lt_is_Some_2 packet (Z.to_nat i)) as [b Hb]; [lia|].
  rewrite Hb. exists (bv b). split; [done|apply bv_range].
Qed.

Lemma get_range_Some packet from to : 0 ≤ from ≤ to → to ≤ len packet → ∃ b,
  get_range packet from to = Some b ∧ len b = to - from.
Proof.
  intros Hf Ht. unfold get_range.
  rewrite (proj2 (Z.leb_le _ _)), (proj2 (Z.leb_le to _)) by lia. eexists. split; [done|].
  unfold len in *. rewrite length_take, length_drop. lia.
Qed.

Lemma get_range_len packet from to b : 0 ≤ from → get_range packet from to = Some b →
  from ≤ to ≤ len packet ∧ len b = to - from.
Proof.
  intros Hf H. unfold get_range in H. destruct (Z.leb_spec from to), (Z.leb_spec to (len packet)); try done.
  cbn in H. injection H as <-. split; [lia|]. unfold len in *. rewrite length_take, length_drop. lia.
Qed.

(** A parser that either yields a value with a property, or rejects the packet. *)
Definition parses {A} (P : A → Prop) (m : result EndpointDnsError A) : Prop :=
  match m with Ok a => P a | Err e => e = Malformed end.

Lemma parses_bind {A B} (P : A → Prop) (Q : B → Prop) m (f : A → result EndpointDnsError B) :
  parses P m → (∀ a, P a → parses Q (f a)) → parses Q (a ← m; f a).
Proof. destruct m as [a|e]; cbn; [by intros Ha Hf; apply Hf|done]. Qed.

Lemma parses_impl {A} (P Q : A → Prop) m : parses P m → (∀ a, P a → Q a) → parses Q m.
Proof. destruct m; cbn; [by intros Ha Hf; apply Hf|done]. Qed.

Lemma parses_ok_or {A} (P : A → Prop) (o : option A) : (∀ a, o = Some a → P a) →
  parses P (ok_or o Malformed).
Proof. destruct o; cbn; [by intros Ha; apply Ha|done]. Qed.

Lemma parses_checked_add a b :
  parses (λ c, c = a + b ∧ c < 2 ^ 64) (ok_or (u64_checked_add a b) Malformed).
Proof. apply parses_ok_or. intros c [-> ?]%u64_checked_add_Some. done. Qed.

Lemma parses_read_u16 packet offset : 0 ≤ offset →
  parses (λ v, 0 ≤ v < 2 ^ 16 ∧ offset + 2 ≤ len packet) (read_u16 packet offset).
Proof.
  intros Ho. unfold read_u16. eapply parses_bind; [apply parses_checked_add|]. intros e [-> _].
  eapply parses_bind; [apply (parses_ok_or (λ b, get_range packet offset (offset + 2) = Some b)); done|].
  intros b [Hr Hl]%get_range_len; [|done]. cbn. pose proof (be_value_bound b) as Hb.
  replace (8 * len b) with 16 in Hb by lia. split; [done|lia].
Qed.

Lemma parses_read_u32 packet offset : 0 ≤ offset →
  parses (λ v, 0 ≤ v < 2 ^ 32 ∧ offset + 4 ≤ len packet) (read_u32 packet offset).
Proof.
  intros Ho. unfold read_u32. eapply parses_bind; [apply parses_checked_add|]. intros e [-> _].
  eapply parses_bind; [apply (parses_ok_or (λ b, get_range packet offset (offset + 4) = Some b)); done|].
  intros b [Hr Hl]%get_range_len; [|done]. cbn. pose proof (be_value_bound b) as Hb.
  replace (8 * len b) with 32 in Hb by lia. split; [done|lia].
Qed.

Lemma size_below (s : gset Z) (n : nat) : (∀ v, v ∈ s → 0 ≤ v < Z.of_nat n) → (size s ≤ n)%nat.
Proof.
  intros Hs. transitivity (size (list_to_set (C := gset Z) (seqZ 0 (Z.of_nat n)))).
  - apply subseteq_size. intros v Hv. apply elem_of_list_to_set, elem_of_seqZ. specialize (Hs v Hv). lia.
  - rewrite size_list_to_set by apply NoDup_seqZ. rewrite length_seqZ. lia.
Qed.

(** Every step of the loop visits a new byte of the packet, so the fuel lasts; what it
    returns lies behind the start of the name and inside the packet. *)
Lemma parse_name_loop_parses fuel packet lo labels pos next visited el ph :
  0 ≤ pos → (∀ v, v ∈ visited → 0 ≤ v < len packet) → (length packet < fuel + size visited)%nat →
  match next with Some n => lo < n ≤ len packet | None => lo ≤ pos end →
  parses (λ '(_, n), lo < n ≤ len packet) (parse_name_loop fuel packet labels pos next visited el ph).
Proof.
  revert labels pos next visited el ph.
  induction fuel as [|fuel IH]; intros labels pos next visited el ph Hpos Hvis Hfuel Hnext; cbn [parse_name_loop].
  { pose proof (size_below visited (length packet) Hvis). lia. }
  destruct (Z.leb_spec (len packet) pos) as [|Hlt]; [done|]. case_bool_decide as Hin; [done|].
  assert (∀ v, v ∈ {[pos]} ∪ visited → 0 ≤ v < len packet) as Hvis' by set_solver.
  assert (length packet < fuel + size ({[pos]} ∪ visited))%nat as Hfuel'
    by (rewrite size_union by set_solver; rewrite size_singleton; lia).
  destruct (byte_at_range packet pos) as (z & Hz & Hzr); [lia|]. rewrite Hz. cbn [mbind result_bind].
  destruct (Z.land z 192 =? 192).
  - destruct (Z.leb_spec (len packet) (pos + 1)); [done|].
    destruct (byte_at_range packet (pos + 1)) as (w & Hw & Hwr); [lia|]. rewrite Hw. cbn [mbind result_bind].
    destruct (Z.leb_spec (len packet) (Z.lor (Z.shiftl (Z.land z 63) 8) w)); [done|].
    destruct (_ <? _); [done|]. apply IH; [|done|done|].
    + apply Z.lor_nonneg. split; [|lia]. apply Z.shiftl_nonneg, Z.land_nonneg. lia.
    + destruct next; lia.
  - destruct (Z.land z 192 =? 0); [|done]. destruct (Z.eqb_spec z 0).
    + cbn. destruct next; lia.
    + destruct (63 <? z); [done|]. eapply parses_bind; [apply parses_checked_add|]. intros e [-> _].
      destruct (Z.ltb_spec (len packet) (pos + 1 + z)); [done|].
      destruct (get_range_Some packet (pos + 1) (pos + 1 + z)) as (label & Hlabel & _); [lia..|].
      rewrite Hlabel. cbn [ok_or mbind result_bind]. destruct (negb (forallb is_ascii label)); [done|].
      eapply parses_bind; [apply parses_checked_add|]. intros el' _. destruct (253 <? el'); [done|].
      apply IH; [lia|done|done|]. destruct next; lia.
Qed.

Lemma parses_name packet start : 0 ≤ start →
  parses (λ '(_, n), start < n ≤ len packet) (parse_name packet start).
Proof.
  intros Hs. unfold parse_name. destruct (len packet <=? start); [done|].
  apply parse_name_loop_parses; [done|set_solver|rewrite size_empty; lia|lia].
Qed.

(** Where a record lies. *)
Definition rr_inside (packet : bytes) (rr : ResourceRecord) : Prop :=
  0 ≤ rdata_start rr ≤ rdata_end rr ∧ rdata_end rr ≤ len packet ∧ 0 ≤ ttl rr < 2 ^ 32.

Lemma parses_rr packet start : 0 ≤ start →
  parses (λ '(rr, n), rr_inside packet rr ∧ start < n ≤ len packet) (parse_rr packet start).
Proof.
  intros Hs. unfold parse_rr. eapply parses_bind; [by apply parses_name|]. intros [o cursor] Hc.
  eapply parses_bind; [apply parses_read_u16; lia|]. intros t _.
  eapply parses_bind; [apply parses_read_u16; lia|]. intros cl _.
  eapply parses_bind; [apply parses_read_u32; lia|]. intros tt [Htt _].
  eapply parses_bind; [apply parses_read_u16; lia|]. intros l [Hl _].
  eapply parses_bind; [apply parses_checked_add|]. intros rs [-> _].
  eapply parses_bind; [apply parses_checked_add|]. intros re [-> _].
  destruct (Z.ltb_spec (len packet) (cursor + 10 + l)); [done|]. cbn. unfold rr_inside. cbn. lia.
Qed.

Lemma parses_rrs packet count cursor : 0 ≤ cursor →
  parses (λ '(rrs, n), Forall (rr_inside packet) rrs ∧ cursor ≤ n) (parse_rrs count packet cursor).
Proof.
  revert cursor. induction count as [|count IH]; intros cursor Hc; cbn [parse_rrs].
  { cbn. split; [constructor|lia]. }
  eapply parses_bind; [by apply parses_rr|]. intros [rr next] [Hrr Hn].
  eapply parses_bind; [apply IH; lia|]. intros [rrs n] [Hrrs ?]. cbn. split; [by constructor|lia].
Qed.

(** ** What the records of an answer say *)

Section Records.
Context (packet : bytes).

(** A CNAME record from [o] to [target]. *)
Definition is_cname (rr : ResourceRecord) (o target : bytes) : Prop :=
  rr_class rr = QCLASS_IN ∧ rr_type rr = QTYPE_CNAME ∧ owner rr = o
  ∧ parse_name packet (rdata_start rr) = Ok (target, rdata_end rr).

(** An A record of [o] with an address, its four bytes in the packet. *)
Definition is_a (rr : ResourceRecord) (o : bytes) (r : ParsedARecord) : Prop :=
  rr_class rr = QCLASS_IN ∧ rr_type rr = QTYPE_A ∧ owner rr = o ∧ pa_ttl_secs r = ttl rr
  ∧ ∃ b, get_range packet (rdata_start rr) (rdata_end rr) = Some b ∧ len b = 4 ∧ pa_ip r = be_value b.

Lemma be_value_snoc l x : be_value (l ++ [x]) = be_value l * 256 + bv x.
Proof.
  unfold be_value. rewrite rev_app_distr.
  change (le_combine (rev [x] ++ rev l)) with (Z.lor (bv x) (Z.shiftl (le_combine (rev l)) 8)).
  set (b := le_combine (rev l)).
  pose proof (bv_range x) as Hx. assert (Z.land (bv x) (Z.shiftl b 8) = 0) as Hl.
  { apply Z.bits_inj'. intros n Hn. rewrite Z.land_spec, Z.bits_0.
    destruct (Z.lt_ge_cases n 8); [rewrite Z.shiftl_spec_low by lia; apply andb_false_r|].
    rewrite <- (Z.mod_small (bv x) (2 ^ 8)), Z.mod_pow2_bits_high by lia. done. }
  rewrite <- Z.lxor_lor, <- Z.add_nocarry_lxor by done. rewrite Z.shiftl_mul_pow2 by lia. lia.
Qed.

Lemma be_value_4 b0 b1 b2 b3 :
  be_value [b0; b1; b2; b3] = ((bv b0 * 256 + bv b1) * 256 + bv b2) * 256 + bv b3.
Proof.
  rewrite (be_value_snoc [b0; b1; b2] b3 : be_value [b0; b1; b2; b3] = _).
  rewrite (be_value_snoc [b0; b1] b2 : be_value [b0; b1; b2] = _).
  rewrite (be_value_snoc [b0] b1 : be_value [b0; b1] = _).
  by rewrite (be_value_snoc [] b0 : be_value [b0] = _).
Qed.

Lemma get_range_4 start b : 0 ≤ start → get_range packet start (start + 4) = Some b →
  ∃ b0 b1 b2 b3, b = [b0; b1; b2; b3] ∧ byte_at packet start = Ok (bv b0)
    ∧ byte_at packet (start + 1) = Ok (bv b1) ∧ byte_at packet (start + 2) = Ok (bv b2)
    ∧ byte_at packet (start + 3) = Ok (bv b3).
Proof.
  intros Hs Hg. pose proof (get_range_len _ _ _ _ Hs Hg) as [Hr Hl]. unfold get_range in Hg.
  rewrite (proj2 (Z.leb_le _ _)), (proj2 (Z.leb_le (start + 4) _)) in Hg by lia. injection Hg as <-.
  replace (Z.to_nat (start + 4 - start)) with 4%nat by lia.
  assert (∀ i : nat, (i < 4)%nat → ∃ x, packet !! (Z.to_nat start + i)%nat = Some x) as Hx.
  { intros i Hi. apply lookup_lt_is_Some_2. unfold len in Hr. lia. }
  destruct (Hx 0%nat) as [b0 H0]; [lia|]. destruct (Hx 1%nat) as [b1 H1]; [lia|].
  destruct (Hx 2%nat) as [b2 H2]; [lia|]. destruct (Hx 3%nat) as [b3 H3]; [lia|].
  exists b0, b1, b2, b3. split.
  - apply list_eq_same_length with (n := 4%nat); [done| |].
    { unfold len in Hr. rewrite length_take, length_drop. lia. }
    intros i x y Hi Hx' Hy. rewrite lookup_take_lt, lookup_drop in Hx' by lia.
    destruct i as [|[|[|[|]]]]; [..|lia]; cbn in Hy; congruence.
  - unfold byte_at. replace (Z.to_nat start) with (Z.to_nat start + 0)%nat by lia.
    replace (Z.to_nat (start + 1)) with (Z.to_nat start + 1)%nat by lia.
    replace (Z.to_nat (start + 2)) with (Z.to_nat start + 2)%nat by lia.
    replace (Z.to_nat (start + 3)) with (Z.to_nat start + 3)%nat by lia.
    by rewrite H0, H1, H2, H3.
Qed.

(** One record more in the maps. *)
Lemma collect_rr_parses maps rr : rr_inside packet rr →
  parses (λ maps', 
    (maps' = maps ∧ (∀ o t, ¬ is_cname rr o t) ∧ (∀ o r, ¬ is_a rr o r))
    ∨ (∃ r, is_a rr (owner rr) r ∧ maps' = (maps.1, <[owner rr := default [] (maps.2 !! owner rr) ++ [r]]> maps.2)
        ∧ ∀ o t, ¬ is_cname rr o t)
    ∨ (∃ target, is_cname rr (owner rr) target ∧ maps'.2 = maps.2 ∧ (∀ o r, ¬ is_a rr o r)
        ∧ match maps.1 !! owner rr with
          | Some (t, tl) => t = target ∧ maps'.1 = <[owner rr := (target, Z.min tl (ttl rr))]> maps.1
          | None => maps'.1 = <[owner rr := (target, ttl rr)]> maps.1
          end)) (collect_rr packet maps rr).
Proof.
  intros (Hs & He & Ht). destruct maps as [cn ad]. unfold collect_rr.
  destruct (Z.eqb_spec (rr_class rr) QCLASS_IN) as [Hc|Hc]; cbn [negb].
  2:{ left. split_and!; [done| |]; intros; by intros (? & _). }
  destruct (Z.eqb_spec (rr_type rr) QTYPE_A) as [Hta|Hta].
  - destruct (Z.eqb_spec (rdata_end rr - rdata_start rr) 4) as [H4|]; cbn [negb]; [|done].
    destruct (get_range_Some packet (rdata_start rr) (rdata_end rr)) as (b & Hb & Hbl); [lia..|].
    replace (rdata_end rr) with (rdata_start rr + 4) in Hb by lia. pose proof Hb as Hb'.
    apply get_range_4 in Hb as (b0 & b1 & b2 & b3 & -> & -> & -> & -> & ->); [|lia].
    cbn [mbind result_bind]. right. left. eexists. split_and!; [|done|].
    + split_and!; [done..|]. replace (rdata_end rr) with (rdata_start rr + 4) by lia.
      exists [b0; b1; b2; b3]. split_and!; [done|done|]. cbn [pa_ip]. by rewrite be_value_4.
    + intros o t (_ & Htc & _). by rewrite Hta in Htc.
  - destruct (Z.eqb_spec (rr_type rr) QTYPE_CNAME) as [Htc|Htc].
    + destruct (parse_name packet (rdata_start rr)) as [[target next]|e] eqn:Hn; cbn [mbind result_bind].
      2:{ pose proof (parses_name packet (rdata_start rr) ltac:(lia)) as Hp. by rewrite Hn in Hp. }
      destruct (Z.eqb_spec next (rdata_end rr)) as [->|]; cbn [negb]; [|done].
      assert (∀ o r, ¬ is_a rr o r) as Hna by (intros o r (_ & ? & _); congruence).
      assert (is_cname rr (owner rr) target) as Hcn by done.
      destruct (cn !! owner rr) as [[ex tl]|] eqn:Hl.
      * case_bool_decide as Hex; [|done]. subst ex. right. right. exists target. cbn [fst snd]. by rewrite Hl.
      * right. right. exists target. cbn [fst snd]. by rewrite Hl.
    + left. split_and!; [done| |]; intros; [by intros (_ & ? & _)|by intros (_ & ? & _)].
Qed.

Lemma is_a_fun rr o o' r r' : is_a rr o r → is_a rr o' r' → o = o' ∧ r = r'.
Proof.
  destruct r, r'. intros (_ & _ & <- & Ht & b & Hb & _ & Hi) (_ & _ & <- & Ht' & b' & Hb' & _ & Hi').
  cbn in *. split; [done|]. congruence.
Qed.
Lemma is_cname_fun rr o o' t t' : is_cname rr o t → is_cname rr o' t' → o = o' ∧ t = t'.
Proof. intros (_ & _ & <- & H) (_ & _ & <- & H'). split; [done|]. congruence. Qed.

(** The maps hold what the records of a list say. *)
Record cnames_of (l : list ResourceRecord) (cnames : gmap bytes (bytes * Z)) : Prop := {
  cn_entry o t tl : cnames !! o = Some (t, tl) → (∃ rr, rr ∈ l ∧ is_cname rr o t)
    ∧ ∀ rr t', rr ∈ l → is_cname rr o t' → t' = t ∧ tl ≤ ttl rr;
  cn_all rr o t : rr ∈ l → is_cname rr o t → is_Some (cnames !! o);
}.
Record addresses_of (l : list ResourceRecord) (records : gmap bytes (list ParsedARecord)) : Prop := {
  ad_entry o rs r : records !! o = Some rs → r ∈ rs ↔ ∃ rr, rr ∈ l ∧ is_a rr o r;
  ad_all rr o r : rr ∈ l → is_a rr o r → is_Some (records !! o);
}.
Definition collected (l : list ResourceRecord) (maps : ChainMaps) : Prop :=
  cnames_of l maps.1 ∧ addresses_of l maps.2.

Lemma collected_nil : collected [] (∅, ∅).
Proof.
  split; split; cbn; intros *; rewrite ?lookup_empty; try done; intros H; by apply not_elem_of_nil in H.
Qed.

Lemma cnames_skip l cn rr : cnames_of l cn → (∀ o t, ¬ is_cname rr o t) → cnames_of (l ++ [rr]) cn.
Proof.
  intros [H1 H2] Hc. split.
  - intros o t tl Hl. destruct (H1 o t tl Hl) as [Hex Hall]. rewrite ex_snoc. split; [by left|].
    intros rr0 t' [?| ->%list_elem_of_singleton]%elem_of_app Hx; [by apply Hall|by destruct (Hc _ _ Hx)].
  - intros rr0 o t [?| ->%list_elem_of_singleton]%elem_of_app Hx; [by eapply H2|by destruct (Hc _ _ Hx)].
Qed.

Lemma addresses_skip l ad rr : addresses_of l ad → (∀ o r, ¬ is_a rr o r) → addresses_of (l ++ [rr]) ad.
Proof.
  intros [H3 H4] Ha. split.
  - intros o rs r Hl. rewrite (H3 o rs r Hl), ex_snoc. specialize (Ha o r). tauto.
  - intros rr0 o r [?| ->%list_elem_of_singleton]%elem_of_app Hx; [by eapply H4|by destruct (Ha _ _ Hx)].
Qed.

Lemma addresses_add l ad rr r : addresses_of l ad → is_a rr (owner rr) r →
  addresses_of (l ++ [rr]) (<[owner rr := default [] (ad !! owner rr) ++ [r]]> ad).
Proof.
  intros [H3 H4] Ha. split.
  - intros o rs r0 [[<- <-]|[Hne Hl]]%lookup_insert_Some; rewrite ex_snoc.
    + rewrite elem_of_app, list_elem_of_singleton.
      assert (r0 ∈ default [] (ad !! owner rr) ↔ ∃ rr', rr' ∈ l ∧ is_a rr' (owner rr) r0) as ->.
      { destruct (ad !! owner rr) as [rs0|] eqn:Hl; [by apply H3|]. cbn. split.
        - intros H. by apply not_elem_of_nil in H.
        - intros (rr' & Hin & Hx). destruct (H4 _ _ _ Hin Hx) as [? Hs]. by rewrite Hl in Hs. }
      split; (intros [?|Hx]; [by left|right]); [by rewrite Hx|by destruct (is_a_fun _ _ _ _ _ Hx Ha)].
    + rewrite (H3 o rs r0 Hl). split; [by left|]. intros [?|Hx]; [done|].
      by destruct (is_a_fun _ _ _ _ _ Hx Ha).
  - intros rr0 o r0 [Hin| ->%list_elem_of_singleton]%elem_of_app Hx; apply lookup_insert_is_Some.
    + destruct (decide (owner rr = o)); [by left|right]. split; [done|]. by eapply H4.
    + left. by destruct (is_a_fun _ _ _ _ _ Ha Hx).
Qed.

Lemma cnames_add l cn rr t tl : cnames_of l cn → is_cname rr (owner rr) t → tl ≤ ttl rr →
  (∀ t0 tl0, cn !! owner rr = Some (t0, tl0) → t0 = t ∧ tl ≤ tl0) →
  cnames_of (l ++ [rr]) (<[owner rr := (t, tl)]> cn).
Proof.
  intros [H1 H2] Hc Htl Hold. split.
  - intros o t' tl' [[<- [= <- <-]]|[Hne Hl]]%lookup_insert_Some; rewrite ex_snoc.
    + split; [by right|]. intros rr0 t' [Hin| ->%list_elem_of_singleton]%elem_of_app Hx.
      * destruct (H2 _ _ _ Hin Hx) as [[t0 tl0] Hl]. destruct (Hold _ _ Hl) as [-> ?].
        destruct (H1 _ _ _ Hl) as [_ Hall]. destruct (Hall _ _ Hin Hx). split; [done|lia].
      * by destruct (is_cname_fun _ _ _ _ _ Hx Hc) as [_ ->].
    + destruct (H1 o t' tl' Hl) as [Hex Hall]. split; [by left|].
      intros rr0 t'' [?| ->%list_elem_of_singleton]%elem_of_app Hx; [by apply Hall|].
      by destruct (is_cname_fun _ _ _ _ _ Hx Hc).
  - intros rr0 o t' [Hin| ->%list_elem_of_singleton]%elem_of_app Hx; apply lookup_insert_is_Some.
    + destruct (decide (owner rr = o)); [by left|right]. split; [done|]. by eapply H2.
    + left. by destruct (is_cname_fun _ _ _ _ _ Hc Hx).
Qed.

Lemma collect_collected l maps rr maps' : rr_inside packet rr → collected l maps →
  collect_rr packet maps rr = Ok maps' → collected (l ++ [rr]) maps'.
Proof.
  intros Hin [Hcn0 Had0] Hc. pose proof (collect_rr_parses maps rr Hin) as Hp. rewrite Hc in Hp. cbn in Hp.
  destruct Hp as [(-> & ? & ?)|[(r & Ha & -> & Hnc)|(t & Hcn & H2 & Hna & Hm)]].
  - by split; [apply cnames_skip|apply addresses_skip].
  - by split; [apply cnames_skip|apply addresses_add].
  - split; [|rewrite H2; by apply addresses_skip]. destruct (maps.1 !! owner rr) as [[t0 tl0]|] eqn:Hl.
    + destruct Hm as [-> ->]. apply cnames_add; [done|done|lia|].
      intros t1 tl1 Hl1. rewrite Hl1 in Hl. injection Hl as -> ->. split; [done|lia].
    + rewrite Hm. apply cnames_add; [done|done|lia|]. intros t1 tl1 Hl1. by rewrite Hl1 in Hl.
Qed.

Lemma collect_all answers : Forall (rr_inside packet) answers →
  parses (collected answers) (fold_res (collect_rr packet) (∅, ∅) answers).
Proof.
  intros Hf. destruct (fold_res _ _ _) as [maps|e] eqn:Hr; cbn.
  - revert Hr. apply (fold_res_ind (collect_rr packet) collected); [apply collected_nil|].
    intros pre rr m m' Hp Hm Hc. eapply collect_collected; [|done|done].
    rewrite Forall_forall in Hf. apply Hf. destruct Hp as [k ->]. set_solver.
  - clear -Hf Hr. revert Hr. generalize ((∅, ∅) : ChainMaps). induction Hf as [|rr l Hrr _ IH]; intros m; [done|].
    cbn [fold_res]. pose proof (collect_rr_parses m rr Hrr) as Hp.
    destruct (collect_rr packet m rr) as [m'|e']; cbn [mbind result_bind]; [apply IH|]. cbn in Hp. congruence.
Qed.

(** Following CNAME records: from a name over the names left behind to a final one. *)
Inductive chain (l : list ResourceRecord) : bytes → list bytes → bytes → Prop :=
| chain_end a : chain l a [] a
| chain_step a b path c rr : rr ∈ l → is_cname rr a b → chain l b path c → chain l a (a :: path) c.

(** *** Duplicates *)

(** The addresses of a record set, each with the least TTL it has there, cut at [pt]. *)
Definition deduped (pt : Z) (rs : list ParsedARecord) (dedup : gmap Z Z) : Prop :=
  (∀ r, r ∈ rs → is_Some (dedup !! pa_ip r))
  ∧ ∀ ip t, dedup !! ip = Some t → t ≤ pt ∧ (∀ r, r ∈ rs → pa_ip r = ip → t ≤ pa_ttl_secs r)
      ∧ ∃ r, r ∈ rs ∧ pa_ip r = ip ∧ t = Z.min (pa_ttl_secs r) pt.

Lemma dedup_record_deduped pt rs dedup r : deduped pt rs dedup → deduped pt (rs ++ [r]) (dedup_record pt dedup r).
Proof.
  intros [Hall Hent]. unfold dedup_record.
  assert (∀ t', (match dedup !! pa_ip r with Some e => t' = Z.min e (Z.min (pa_ttl_secs r) pt)
      | None => t' = Z.min (pa_ttl_secs r) pt end) → deduped pt (rs ++ [r]) (<[pa_ip r := t']> dedup)) as Hins.
  { intros t' Ht'. split.
    - intros x [Hx| ->%list_elem_of_singleton]%elem_of_app; apply lookup_insert_is_Some; [|by left].
      destruct (decide (pa_ip r = pa_ip x)); [by left|right; split; [done|by apply Hall]].
    - intros ip t [[<- <-]|[Hne Hl]]%lookup_insert_Some.
      + destruct (dedup !! pa_ip r) as [e|] eqn:He.
        * destruct (Hent _ _ He) as (? & Hle & x & Hx & Hxi & Hxt). split_and!; [lia|..].
          -- intros y [Hy| ->%list_elem_of_singleton]%elem_of_app Hyi; [specialize (Hle y Hy Hyi)|]; lia.
          -- destruct (Z.le_ge_cases e (Z.min (pa_ttl_secs r) pt)).
             ++ exists x. split_and!; [apply elem_of_app; by left|done|lia].
             ++ exists r. split_and!; [apply elem_of_app; right; by left|done|lia].
        * split_and!; [lia|..].
          -- intros y [Hy| ->%list_elem_of_singleton]%elem_of_app Hyi; [|lia].
             destruct (Hall y Hy) as [? Hs]. by rewrite Hyi, He in Hs.
          -- exists r. split_and!; [apply elem_of_app; right; by left|done|done].
      + destruct (Hent _ _ Hl) as (? & Hle & x & Hx & Hxi & Hxt). split_and!; [done|..].
        * intros y [Hy| ->%list_elem_of_singleton]%elem_of_app Hyi; [by apply Hle|done].
        * exists x. split_and!; [apply elem_of_app; by left|done|done]. }
  destruct (dedup !! pa_ip r); by apply Hins.
Qed.

Lemma dedup_all pt rs : deduped pt rs (foldl (dedup_record pt) ∅ rs).
Proof.
  induction rs as [|r rs IH] using rev_ind.
  - cbn [foldl]. split; [intros r H; by apply not_elem_of_nil in H|]. intros ip t H. by rewrite lookup_empty in H.
  - rewrite foldl_app. by apply dedup_record_deduped.
Qed.

Lemma elem_of_sorted_records dedup r : r ∈ sorted_records dedup ↔ dedup !! pa_ip r = Some (pa_ttl_secs r).
Proof.
  unfold sorted_records. rewrite list_elem_of_fmap. setoid_rewrite elem_of_in_order. split.
  - intros (ip & -> & [t Ht]%elem_of_dom). cbn. by rewrite Ht.
  - intros H. exists (pa_ip r). rewrite H. split; [by destruct r|by eapply elem_of_dom_2].
Qed.

Lemma sorted_records_ips dedup : pa_ip <$> sorted_records dedup = in_order Z.le (dom dedup).
Proof. unfold sorted_records. rewrite <- list_fmap_compose. apply list_fmap_id. Qed.

(** *** The chain *)

(** What the chain from a name yields: the complete record set of the name at its end. *)
Definition chain_result (l : list ResourceRecord) (config : EndpointDnsConfig) (from : bytes) (depth pt0 : Z)
    (records : list ParsedARecord) : Prop :=
  ∃ path final, chain l from path final ∧ len path ≤ max_cname_depth config - depth
    ∧ NoDup (pa_ip <$> records) ∧ len records ≤ max_addresses config
    ∧ (∀ r, r ∈ records → pa_ttl_secs r ≤ pt0 ∧ ∃ rr r', rr ∈ l ∧ is_a rr final r' ∧ pa_ip r' = pa_ip r)
    ∧ (∀ rr r', rr ∈ l → is_a rr final r' →
         ∃ r, r ∈ records ∧ pa_ip r = pa_ip r' ∧ pa_ttl_secs r ≤ pa_ttl_secs r')
    ∧ (∀ r rr o t, r ∈ records → rr ∈ l → o ∈ path → is_cname rr o t → pa_ttl_secs r ≤ ttl rr)
    ∧ (records = [] → ∀ rr t, rr ∈ l → ¬ is_cname rr final t).

Lemma chain_loop_records l config maps current rs depth pt : collected l maps → depth ≤ max_cname_depth config →
  maps.2 !! current = Some rs →
  Z.of_nat (size (foldl (dedup_record pt) ∅ rs)) ≤ max_addresses config → dom maps.1 ## dom maps.2 →
  chain_result l config current depth pt (sorted_records (foldl (dedup_record pt) ∅ rs)).
Proof.
  intros [[Hcn1 Hcn2] [Had1 Had2]] Hd Hrs Hsz Hdis. destruct (dedup_all pt rs) as [Hall Hent].
  set (dedup := foldl (dedup_record pt) ∅ rs) in *. exists [], current. split_and!.
  - constructor.
  - unfold len. cbn. lia.
  - rewrite sorted_records_ips. apply NoDup_in_order.
  - unfold len. rewrite <- (length_fmap pa_ip), sorted_records_ips. unfold in_order.
    rewrite merge_sort_Permutation. change (length (elements (dom dedup))) with (size (dom dedup)).
    by rewrite size_dom.
  - intros r Hr%elem_of_sorted_records. destruct (Hent _ _ Hr) as (? & _ & r' & Hr' & Hip & _).
    split; [done|]. apply (Had1 _ _ _ Hrs) in Hr' as (rr & ? & ?). by exists rr, r'.
  - intros rr r' Hrr Ha. assert (r' ∈ rs) as Hin by (apply (Had1 _ _ _ Hrs); by exists rr).
    destruct (Hall _ Hin) as [t Ht]. exists (mkParsedARecord (pa_ip r') t).
    split_and!; [by apply elem_of_sorted_records|done|]. cbn. destruct (Hent _ _ Ht) as (_ & Hle & _). by apply Hle.
  - intros r rr o t _ _ Ho. by apply not_elem_of_nil in Ho.
  - intros _ rr t Hrr Hc. pose proof (Hcn2 _ _ _ Hrr Hc) as Hs%elem_of_dom. apply (Hdis current Hs).
    by eapply elem_of_dom_2.
Qed.

Lemma chain_loop_parses l config maps iterations depth current pt seen :
  collected l maps → dom maps.1 ## dom maps.2 →
  Z.of_nat iterations + depth = max_cname_depth config + 1 → depth ≤ max_cname_depth config →
  0 ≤ max_addresses config →
  parses (chain_result l config current depth pt) (chain_loop iterations config maps depth current pt seen).
Proof.
  intros Hcl Hdis. revert depth current pt seen.
  induction iterations as [|n IH]; intros depth current pt seen Hit Hd Hma; [lia|]. cbn [chain_loop].
  case_bool_decide; [done|]. destruct (maps.2 !! current) as [rs|] eqn:Hrs.
  { destruct (Z.ltb_spec (max_addresses config) (Z.of_nat (size (foldl (dedup_record pt) ∅ rs)))); [done|].
    by eapply chain_loop_records. }
  destruct Hcl as [[Hcn1 Hcn2] [Had1 Had2]].
  destruct (maps.1 !! current) as [[target t]|] eqn:Hc.
  2:{ exists [], current. split_and!; [constructor|unfold len; cbn; lia|constructor|done|..].
      - intros r Hr. by apply not_elem_of_nil in Hr.
      - intros rr r' Hrr Ha. destruct (Had2 _ _ _ Hrr Ha) as [? Hs]. by rewrite Hrs in Hs.
      - intros r rr o t Hr. by apply not_elem_of_nil in Hr.
      - intros _ rr t Hrr Hx. destruct (Hcn2 _ _ _ Hrr Hx) as [? Hs]. by rewrite Hc in Hs. }
  destruct (Z.eqb_spec depth (max_cname_depth config)); [done|].
  eapply parses_impl; [apply (IH (depth + 1) target (Z.min pt t)); lia|].
  destruct (Hcn1 _ _ _ Hc) as [(rr0 & Hrr0 & Hx0) Hall].
  intros records (path & final & Hch & Hlen & Hnd & Hsz & H1 & H2 & H3 & H4).
  exists (current :: path), final. split_and!; [by econstructor|rewrite len_cons; lia|done|done|..].
  - intros r Hr. destruct (H1 r Hr) as [? ?]. split; [lia|done].
  - done.
  - intros r rr o t' Hr Hrr [->|Ho]%elem_of_cons Hx; [|by eapply H3].
    destruct (Hall _ _ Hrr Hx) as [_ ?]. destruct (H1 r Hr) as [? _]. lia.
  - done.
Qed.

Lemma follow_chain_parses answers qname config : Forall (rr_inside packet) answers →
  0 ≤ max_cname_depth config → 0 ≤ max_addresses config →
  parses (chain_result answers config qname 0 (2 ^ 32 - 1)) (follow_cname_chain packet answers qname config).
Proof.
  intros Hf Hd Hma. unfold follow_cname_chain. eapply parses_bind; [by apply collect_all|]. intros maps Hm.
  destruct (existsb _ _) eqn:Hex; [done|]. apply chain_loop_parses; [done| |lia|lia|lia].
  intros o Ho [rs Hrs]%elem_of_dom. apply not_true_iff_false in Hex. apply Hex, existsb_exists. exists o.
  split; [by apply list_elem_of_In, elem_of_elements|]. apply bool_decide_eq_true. by eexists.
Qed.

Lemma parses_soa_minimum rr : rr_inside packet rr →
  parses (λ t, 0 ≤ t < 2 ^ 32) (parse_soa_minimum packet rr).
Proof.
  intros (Hs & He & Ht). unfold parse_soa_minimum. eapply parses_bind; [apply parses_name; lia|].
  intros [? a] Ha. destruct (rdata_end rr <? a); [done|]. eapply parses_bind; [apply parses_name; lia|].
  intros [? b] Hb. eapply parses_bind; [apply parses_checked_add|]. intros fe _.
  destruct (negb (fe =? rdata_end rr)); [done|].
  eapply parses_bind; [apply parses_read_u32; lia|]. intros m [Hm _]. cbn. lia.
Qed.

Lemma parses_soa_ttl authority : Forall (rr_inside packet) authority →
  parses (λ _, True) (soa_negative_ttl packet authority).
Proof.
  intros Hf. unfold soa_negative_ttl. set (l := filter _ authority).
  assert (Forall (rr_inside packet) l) as Hl.
  { apply Forall_forall. intros rr [_ Hrr]%list_elem_of_filter. by eapply Forall_forall in Hf. }
  clearbody l. clear Hf. generalize (None : option Z). induction Hl as [|rr l Hrr _ IH]; intros o; [done|].
  cbn [fold_res]. apply (parses_bind (λ _, True)); [|intros ? _; apply IH]. unfold soa_step.
  eapply parses_bind; [by apply parses_soa_minimum|]. by intros.
Qed.
End Records.

(** ** The parser on any packet *)

Definition harmless (e : EndpointDnsError) : Prop := e ≠ DnsPanicked ∧ e ≠ DnsOutOfFuel.
Definition tame {A} (Q : A → Prop) (m : result EndpointDnsError A) : Prop :=
  match m with Ok a => Q a | Err e => harmless e end.

Lemma tame_bind {A B} (P : A → Prop) (Q : B → Prop) m (f : A → result EndpointDnsError B) :
  tame P m → (∀ a, m = Ok a → P a → tame Q (f a)) → tame Q (a ← m; f a).
Proof. destruct m as [a|e]; cbn; [by intros Ha Hf; apply Hf|done]. Qed.
Lemma tame_if {A} (Q : A → Prop) (b : bool) e m : harmless e → (b = false → tame Q m) →
  tame Q (if b then Err e else m).
Proof. destruct b; cbn; auto. Qed.
Lemma parses_tame {A} (P : A → Prop) m : parses P m → tame P m.
Proof. by destruct m; cbn; [|intros ->]. Qed.
Lemma tame_impl {A} (P Q : A → Prop) m : tame P m → (∀ a, P a → Q a) → tame Q m.
Proof. destruct m; cbn; auto. Qed.

Lemma config_validate_tame config : tame (λ _, True) (config_validate config).
Proof. unfold config_validate. by repeat (apply tame_if; [done|intros _]). Qed.

Lemma canonical_label_tame acc label : tame (λ _, True) (canonical_label acc label).
Proof. unfold canonical_label. by repeat (apply tame_if; [done|intros _]). Qed.

Lemma fold_res_tame {S X} (f : S → X → result EndpointDnsError S) l :
  (∀ s x, tame (λ _, True) (f s x)) → ∀ s, tame (λ _, True) (fold_res f s l).
Proof.
  intros Hf. induction l as [|x l IH]; intros s; [done|]. cbn [fold_res].
  eapply tame_bind; [apply Hf|]. intros a _ _. apply IH.
Qed.

Lemma canonical_qname_tame qname : tame (λ _, True) (canonical_qname qname).
Proof.
  unfold canonical_qname. apply tame_if; [done|intros _]. apply tame_if; [done|intros _].
  eapply tame_bind; [apply fold_res_tame, canonical_label_tame|]. done.
Qed.

(** A response to a question, with its answer records. *)
Record answers_to (packet : bytes) (txid : Z) (qname : bytes) (flags : Z) (q : bytes)
    (answers : list ResourceRecord) : Prop := {
  at_txid : read_u16 packet 0 = Ok txid;
  at_flags : read_u16 packet 2 = Ok flags;
  at_response : Z.land flags FLAG_QR ≠ 0;
  at_complete : Z.land flags FLAG_TC = 0;
  at_name : canonical_qname qname = Ok q;
  at_records : ∃ cursor n cursor', parse_name packet DNS_HEADER_LEN = Ok (q, cursor)
    ∧ read_u16 packet cursor = Ok QTYPE_A ∧ read_u16 packet (cursor + 2) = Ok QCLASS_IN
    ∧ read_u16 packet 6 = Ok n ∧ parse_rrs (Z.to_nat n) packet (cursor + 4) = Ok (answers, cursor');
}.

(** What an answer says of the packet. *)
Definition answer_means (packet : bytes) (config : EndpointDnsConfig) (flags : Z) (q : bytes)
    (answers : list ResourceRecord) (a : ParsedDnsAnswer) : Prop :=
  match a with
  | AnsPositive records => Z.land flags RCODE_MASK = 0 ∧ records ≠ []
      ∧ chain_result packet answers config q 0 (2 ^ 32 - 1) records
  | AnsNoData _ => Z.land flags RCODE_MASK = 0 ∧ chain_result packet answers config q 0 (2 ^ 32 - 1) []
  | AnsNxDomain _ => Z.land flags RCODE_MASK = 3
  | AnsTransientRcode rcode => rcode = Z.land flags RCODE_MASK ∧ rcode ≠ 0 ∧ rcode ≠ 3
  end.

Lemma parse_a_response_tame packet txid qname config : 0 ≤ max_cname_depth config → 0 ≤ max_addresses config →
  tame (λ a, len packet ≤ max_packet_size config
             ∧ ∃ flags q answers, answers_to packet txid qname flags q answers
                 ∧ answer_means packet config flags q answers a)
    (parse_a_response packet txid qname config).
Proof.
  intros Hd Hma. unfold parse_a_response. eapply tame_bind; [apply config_validate_tame|]. intros [] _ _.
  apply tame_if; [done|]. intros _. apply tame_if; [done|]. intros Hsz%Z.ltb_ge.
  eapply tame_bind; [apply parses_tame, parses_read_u16; lia|]. intros tx Htx _.
  apply tame_if; [done|]. intros ->%negb_false_iff%Z.eqb_eq.
  eapply tame_bind; [apply parses_tame, parses_read_u16; lia|]. intros flags Hflags _.
  apply tame_if; [done|]. intros Hqr%Z.eqb_neq. do 2 (apply tame_if; [done|intros _]).
  eapply tame_bind; [apply parses_tame, parses_read_u16; lia|]. intros qd _ _.
  eapply tame_bind; [apply parses_tame, parses_read_u16; lia|]. intros an Han _.
  eapply tame_bind; [apply parses_tame, parses_read_u16; lia|]. intros ns _ _.
  eapply tame_bind; [apply parses_tame, parses_read_u16; lia|]. intros ar _ _.
  apply tame_if; [done|]. intros _.
  eapply tame_bind; [apply parses_tame, (parses_ok_or (λ _, True)); done|]. intros rc _ _.
  apply tame_if; [done|]. intros _. eapply tame_bind; [apply canonical_qname_tame|]. intros q Hq _.
  eapply tame_bind; [apply parses_tame, parses_name; done|]. intros [qn cursor] Hqn Hcur.
  unfold DNS_HEADER_LEN in Hcur.
  eapply tame_bind; [apply parses_tame, parses_read_u16; lia|]. intros qt Hqt _.
  eapply tame_bind; [apply parses_tame, parses_read_u16; lia|]. intros qc Hqc _.
  eapply tame_bind; [apply parses_tame, parses_checked_add|]. intros c4 _ [-> _].
  apply tame_if; [done|]. rewrite !orb_false_iff, !negb_false_iff, bool_decide_eq_true, !Z.eqb_eq.
  intros [[-> ->] ->].
  eapply tame_bind; [apply parses_tame, parses_rrs; lia|]. intros [answers c1] Hans [Hf1 Hc1].
  eapply tame_bind; [apply parses_tame, parses_rrs; lia|]. intros [authority c2] _ [Hf2 Hc2].
  eapply tame_bind; [apply parses_tame, parses_rrs; lia|]. intros [? c3] _ _.
  apply tame_if; [done|]. intros _. apply tame_if; [done|]. intros Htc%negb_false_iff%Z.eqb_eq.
  assert (answers_to packet txid qname flags q answers) as Hto.
  { split; [done..|]. exists cursor, an, c1. done. }
  eapply tame_bind; [by apply parses_tame, parses_soa_ttl|]. intros soa _ _.
  destruct (Z.eqb_spec (Z.land flags RCODE_MASK) 3); [cbn; split; [done|by exists flags, q, answers]|].
  destruct (Z.eqb_spec (Z.land flags RCODE_MASK) 0); cbn [negb];
    [|cbn; split; [done|by exists flags, q, answers]].
  eapply tame_bind; [by apply parses_tame, follow_chain_parses|]. intros records _ Hrec.
  case_bool_decide as Hne; cbn; (split; [done|]); exists flags, q, answers; (split; [done|]).
  - rewrite Hne in Hrec. done.
  - done.
Qed.

(** ** The exchange *)

Lemma build_a_query_tame qname txid : tame (λ _, True) (build_a_query qname txid).
Proof.
  unfold build_a_query, encode_name. eapply tame_bind; [apply canonical_qname_tame|]. intros c _ _.
  apply (tame_bind (λ _, True)); [|done]. eapply tame_bind; [|done]. apply fold_res_tame.
  intros s x. unfold encode_label. by apply tame_if.
Qed.

(** However the stream is cut into chunks, a section is the next bytes of the stream. *)
Lemma read_section_spec chunks fin section size output : Forall (λ c, c ≠ []) chunks →
  0 ≤ size → len output ≤ size →
  let stream := output ++ concat chunks in
  match read_tcp_frame_section chunks fin output size section with
  | Ok (b, rest) => b = take (Z.to_nat size) stream ∧ concat rest = drop (Z.to_nat size) stream
      ∧ size ≤ len stream ∧ Forall (λ c, c ≠ []) rest
  | Err e => len stream < size
      ∧ e = match fin with Eof => ShortTcpFrame section size (len stream)
                         | StreamError => DnsIo | Stalled => DnsTimeout end
  end.
Proof.
  intros Hne Hsz. revert output. induction Hne as [|c chunks Hc Hcs IH]; intros output Hout stream.
  - subst stream. cbn [read_tcp_frame_section concat]. rewrite app_nil_r.
    destruct (Z.leb_spec size (len output)) as [Hle|Hgt]; [|done]. unfold len in *. cbn [concat].
    rewrite firstn_all2, skipn_all2 by lia. split_and!; [done|done|lia|constructor].
  - cbn [read_tcp_frame_section]. destruct (Z.leb_spec size (len output)) as [Hle|Hgt].
    { subst stream. unfold len in *. assert (Z.to_nat size = length output) as -> by lia.
      rewrite take_app_length, drop_app_length. split_and!; [done|done| |by constructor].
      rewrite length_app. lia. }
    destruct c as [|x c]; [done|]. set (ch := x :: c) in *.
    destruct (Nat.leb_spec (length ch) (Z.to_nat (size - len output))) as [Hfit|Hbig].
    + specialize (IH (output ++ ch)). rewrite <- app_assoc in IH. apply IH.
      unfold len in *. rewrite length_app. lia.
    + subst stream. cbn [concat]. unfold len in *. set (room := Z.to_nat (size - Z.of_nat (length output))) in *.
      assert (Z.to_nat size = (length output + room)%nat) as -> by lia. split_and!.
      * rewrite take_app_add, take_app_le by lia. done.
      * rewrite drop_app_add, drop_app_le by lia. done.
      * rewrite !length_app. lia.
      * constructor; [|done]. intros Hn%(f_equal length). rewrite length_drop in Hn. cbn [length] in Hn. lia.
Qed.

Lemma read_section_tame chunks fin section size output :
  tame (λ _, True) (read_tcp_frame_section chunks fin output size section).
Proof.
  revert output. induction chunks as [|c chunks IH]; intros output; cbn [read_tcp_frame_section].
  - destruct (_ <=? _); [done|]. by destruct fin.
  - destruct (_ <=? _); [done|]. destruct c as [|x c]; [done|]. destruct (_ <=? _)%nat; [apply IH|done].
Qed.

(** What a successful resolution means: some packet of at most the configured size, which
    came over the network, answers the question. *)
Definition resolved (net : Net) (qname : bytes) (config : EndpointDnsConfig) (txid : Z)
    (a : ParsedDnsAnswer) : Prop :=
  ∃ packet, len packet ≤ max_packet_size config
    ∧ (udp_received net = Some (Some packet) ∨ ∃ prefix, length prefix = 2%nat
        ∧ be_value prefix = len packet ∧ prefix ++ packet `prefix_of` concat (tcp_chunks net))
    ∧ ∃ flags q answers, answers_to packet txid qname flags q answers
        ∧ answer_means packet config flags q answers a.

Lemma udp_tame net qname config txid : 0 ≤ max_cname_depth config → 0 ≤ max_addresses config →
  tame (resolved net qname config txid) (resolve_a_connected_with_txid net qname config txid).
Proof.
  intros Hd Hma. unfold resolve_a_connected_with_txid.
  eapply tame_bind; [apply config_validate_tame|]. intros [] _ _.
  eapply tame_bind; [apply build_a_query_tame|]. intros query _ _.
  apply tame_if; [done|]. intros _. destruct (udp_sent net) as [sent|]; [|done]. cbn [ok_or mbind result_bind].
  apply tame_if; [done|]. intros _. destruct (udp_received net) as [[datagram|]|] eqn:Hr; [|done..].
  cbn [ok_or mbind result_bind]. apply tame_if; [done|]. intros Hl%Z.ltb_ge.
  assert (take (Z.to_nat (max_packet_size config + 1)) datagram = datagram) as Heq.
  { apply take_ge. unfold len in Hl. rewrite length_take in Hl. lia. }
  rewrite Heq in *. eapply tame_impl; [by apply parse_a_response_tame|].
  intros a [? Hex]. exists datagram. split_and!; [done|by left|done].
Qed.

Lemma tcp_tame net qname config txid : 0 ≤ max_cname_depth config → 0 ≤ max_addresses config →
  Forall (λ c, c ≠ []) (tcp_chunks net) →
  tame (resolved net qname config txid) (resolve_a_tcp_with_txid net qname config txid).
Proof.
  intros Hd Hma Hch. unfold resolve_a_tcp_with_txid.
  eapply tame_bind; [apply config_validate_tame|]. intros [] _ _.
  eapply tame_bind; [apply build_a_query_tame|]. intros query _ _.
  apply tame_if; [done|]. intros _. destruct (tcp_connected net) as [[]|]; [|done..].
  cbn [ok_or mbind result_bind negb]. destruct (tcp_written net) as [[]|]; [|done..].
  cbn [ok_or mbind result_bind negb].
  eapply tame_bind; [apply read_section_tame|]. intros [prefix rest] Hp _.
  pose proof (read_section_spec (tcp_chunks net) (tcp_end net) LengthPrefix 2 [] Hch) as Hsp.
  rewrite Hp in Hsp. destruct Hsp as (Hprefix & Hrest & Hlen & Hne); [done|done|]. cbn [app] in *.
  apply tame_if; [done|]. intros _.
  eapply tame_bind; [apply read_section_tame|]. intros [packet rest'] Hb _.
  pose proof (be_value_bound prefix) as Hpos.
  pose proof (read_section_spec rest (tcp_end net) Body (be_value prefix) [] Hne) as Hsb.
  rewrite Hb in Hsb. destruct Hsb as (Hpacket & _ & Hblen & _); [lia|unfold len; cbn; lia|]. cbn [app] in *.
  eapply tame_impl; [by apply parse_a_response_tame|]. intros a [? Hex]. exists packet.
  split_and!; [done| |done]. right. exists prefix. unfold len in *. split_and!.
  - rewrite Hprefix, length_take. lia.
  - rewrite Hpacket, length_take. lia.
  - exists (drop (Z.to_nat (be_value prefix)) (concat rest)).
    rewrite Hpacket, <- app_assoc, take_drop, Hrest. rewrite Hprefix at 1. by rewrite take_drop.
Qed.

(** Resolution always comes back, whatever the network sends: for every behaviour of the
    resolver's socket and stream, the exchange ends in an answer or an error, never in a
    panic of an index out of range and never by running out of steps; and an answer stems
    from a packet of bounded size with the transaction id and the question that were asked,
    over TCP from exactly the framed bytes. *)
Theorem resolve_total (net : Net) (qname : bytes) (config : EndpointDnsConfig) (txid : Z) :
  0 ≤ max_cname_depth config → 0 ≤ max_addresses config → Forall (λ c, c ≠ []) (tcp_chunks net) →
  match resolve_a_with_txid net qname config txid with
  | Ok a => resolved net qname config txid a
  | Err e => e ≠ DnsPanicked ∧ e ≠ DnsOutOfFuel
  end.
Proof.
  intros Hd Hma Hch. unfold resolve_a_with_txid. pose proof (udp_tame net qname config txid Hd Hma) as Hu.
  pose proof (tcp_tame net qname config txid Hd Hma Hch) as Ht.
  destruct (resolve_a_connected_with_txid net qname config txid) as [a|[]]; try done.
Qed.

(** C28: A positive answer is what the resolver's records say of the name that was asked: it
    is not empty and within the address bound, no address occurs twice, and the addresses
    are exactly those of the A records at the end of a chain of CNAME records that starts
    at the asked name and is within the depth bound, each with a TTL no larger than that of
    its own records and of every CNAME record on the way.  Records of other names have no
    say. *)
Theorem positive_answer_sound (packet : bytes) (txid : Z) (qname : bytes) (config : EndpointDnsConfig)
    (records : list ParsedARecord) :
  0 ≤ max_cname_depth config → 0 ≤ max_addresses config →
  parse_a_response packet txid qname config = Ok (AnsPositive records) →
  ∃ flags q answers, answers_to packet txid qname flags q answers ∧ records ≠ []
    ∧ chain_result packet answers config q 0 (2 ^ 32 - 1) records.
Proof.
  intros Hd Hma Hp. pose proof (parse_a_response_tame packet txid qname config Hd Hma) as Ht.
  rewrite Hp in Ht. destruct Ht as (_ & flags & q & answers & ? & _ & ? & ?). by exists flags, q, answers.
Qed.

(** ** Well-formed messages are understood *)

(** Reading at a place inside a concatenation. *)
Lemma get_range_app (pre b rest : bytes) : get_range (pre ++ b ++ rest) (len pre) (len pre + len b) = Some b.
Proof.
  unfold get_range. rewrite (proj2 (Z.leb_le _ _)), (proj2 (Z.leb_le (len pre + len b) _)); cbn [andb].
  - unfold len. rewrite Nat2Z.id, drop_app_length.
    replace (Z.to_nat _) with (length b) by lia. by rewrite take_app_length.
  - rewrite !len_app. pose proof (len_nonneg rest). lia.
  - pose proof (len_nonneg b). lia.
Qed.

Lemma checked_add_small a b : a + b < 2 ^ 64 → u64_checked_add a b = Some (a + b).
Proof. intros H. unfold u64_checked_add. by rewrite (proj2 (Z.ltb_lt _ _) H). Qed.

Lemma byte_at_app (pre : bytes) b rest : byte_at (pre ++ b :: rest) (len pre) = Ok (bv b).
Proof. unfold byte_at, len. by rewrite Nat2Z.id, list_lookup_middle. Qed.

Section InPacket.
Context (packet : bytes).
Hypothesis Hpacket : len packet < 2 ^ 63.

Lemma read_u16_app pre v rest : packet = pre ++ be_bytes 2 v ++ rest → is_u 16 v →
  read_u16 packet (len pre) = Ok v.
Proof.
  intros -> Hv. unfold read_u16. rewrite len_app in Hpacket.
  pose proof (len_nonneg (be_bytes 2 v ++ rest)).
  rewrite checked_add_small by lia. cbn [ok_or mbind result_bind].
  pose proof (get_range_app pre (be_bytes 2 v) rest) as Hg.
  replace (len (be_bytes 2 v)) with 2 in Hg by (unfold len; by rewrite length_be_bytes). rewrite Hg.
  cbn [ok_or mbind result_bind]. by rewrite be_value_be_bytes_small.
Qed.

Lemma read_u32_app pre v rest : packet = pre ++ be_bytes 4 v ++ rest → is_u 32 v →
  read_u32 packet (len pre) = Ok v.
Proof.
  intros -> Hv. unfold read_u32. rewrite len_app in Hpacket.
  pose proof (len_nonneg (be_bytes 4 v ++ rest)).
  rewrite checked_add_small by lia. cbn [ok_or mbind result_bind].
  pose proof (get_range_app pre (be_bytes 4 v) rest) as Hg.
  replace (len (be_bytes 4 v)) with 4 in Hg by (unfold len; by rewrite length_be_bytes). rewrite Hg.
  cbn [ok_or mbind result_bind]. by rewrite be_value_be_bytes_small.
Qed.

(** The wire form of labels. *)
Definition label_bytes (l : bytes) : bytes := bz (len l) :: l.
Definition labels_bytes (ls : list bytes) : bytes := concat (label_bytes <$> ls).

(** A label as a canonical name has it. *)
Definition canonical (l : bytes) : Prop :=
  1 ≤ len l ≤ 63 ∧ forallb is_ascii l = true ∧ to_ascii_lowercase l = l ∧ Forall (λ b, is_dot b = false) l.

Lemma land_192 z : 0 ≤ z < 64 → Z.land z 192 = 0.
Proof.
  intros Hz. assert (Forall (λ z, Z.land z 192 = 0) (seqZ 0 64)) as Hf by (by vm_compute; repeat constructor).
  rewrite Forall_forall in Hf. apply Hf, elem_of_seqZ. lia.
Qed.

Lemma len_join_snoc ls l : len (join_dot (ls ++ [l])) = len (join_dot ls) + len l + (if bool_decide (ls = []) then 0 else 1).
Proof.
  induction ls as [|x ls IH]; [cbn; unfold len; cbn; lia|].
  destruct ls as [|y ls].
  - cbn [app join_dot]. rewrite len_app, len_cons. cbn. lia.
  - change ((x :: y :: ls) ++ [l]) with (x :: y :: (ls ++ [l])).
    change (join_dot (x :: y :: ls ++ [l])) with (x ++ bz 46 :: join_dot ((y :: ls) ++ [l])).
    change (join_dot (x :: y :: ls)) with (x ++ bz 46 :: join_dot (y :: ls)).
    rewrite !len_app, !len_cons, IH. cbn. lia.
Qed.

Lemma len_join_mono ls ls' : len (join_dot ls) ≤ len (join_dot (ls ++ ls')).
Proof.
  induction ls' as [|l ls' IH] using rev_ind; [rewrite app_nil_r; lia|].
  rewrite app_assoc, len_join_snoc. pose proof (len_nonneg l). destruct (bool_decide _); lia.
Qed.

Lemma labels_fewer labels : Z.of_nat (length labels) ≤ len (labels_bytes labels).
Proof.
  induction labels as [|l labels IH]; [done|]. cbn [length].
  change (labels_bytes (l :: labels)) with (bz (len l) :: l ++ labels_bytes labels).
  rewrite len_cons, len_app. pose proof (len_nonneg l). lia.
Qed.

Lemma parse_labels labels fuel pre acc rest next visited el ph :
  packet = pre ++ labels_bytes labels ++ Byte.x00 :: rest → Forall canonical labels →
  len (join_dot (acc ++ labels)) ≤ 253 → el = len (join_dot acc) → (length labels < fuel)%nat →
  (∀ v, v ∈ visited → v < len pre ∨ len pre + len (labels_bytes labels) < v) →
  parse_name_loop fuel packet acc (len pre) next visited el ph
  = Ok (join_dot (acc ++ labels),
        match next with Some n => n | None => len pre + len (labels_bytes labels) + 1 end).
Proof.
  intros Hpk Hcan. revert fuel pre acc visited el Hpk.
  induction Hcan as [|l labels (Hl & Hascii & Hlow & Hdot) Hls IH];
    intros fuel pre acc visited el Hpk Hbound -> Hfuel Hvis; (destruct fuel as [|fuel]; [cbn in Hfuel; lia|]);
    cbn [parse_name_loop].
  - cbn [labels_bytes concat fmap list_fmap app] in Hpk. assert (len pre < len packet) as Hlt
      by (rewrite Hpk, len_app, len_cons; pose proof (len_nonneg rest); lia).
    rewrite (proj2 (Z.leb_gt _ _)) by done.
    rewrite bool_decide_eq_false_2 by (intros Hv; destruct (Hvis _ Hv); unfold len in *; cbn in *; lia).
    rewrite Hpk, byte_at_app. cbn. rewrite app_nil_r. destruct next; [done|].
    do 2 f_equal. unfold len. cbn. lia.
  - assert (labels_bytes (l :: labels) = bz (len l) :: l ++ labels_bytes labels) as Hlb by done.
    assert (packet = pre ++ bz (len l) :: (l ++ labels_bytes labels ++ Byte.x00 :: rest)) as Hpk1.
    { rewrite Hpk, Hlb. cbn. by rewrite <- app_assoc. }
    assert (packet = (pre ++ [bz (len l)]) ++ l ++ (labels_bytes labels ++ Byte.x00 :: rest)) as Hpk2.
    { rewrite Hpk1, <- app_assoc. done. }
    assert (len (pre ++ [bz (len l)]) = len pre + 1) as Hlp by (by rewrite len_app).
    assert (len pre + 1 + len l < len packet) as Hlt.
    { rewrite Hpk2, len_app, Hlp, !len_app, len_cons. pose proof (len_nonneg (labels_bytes labels)).
      pose proof (len_nonneg rest). lia. }
    pose proof (len_nonneg pre) as Hpre.
    rewrite (proj2 (Z.leb_gt _ _)) by lia.
    rewrite bool_decide_eq_false_2.
    2:{ intros Hv. destruct (Hvis _ Hv) as [|Hgt]; [lia|]. pose proof (len_nonneg (labels_bytes (l :: labels))). lia. }
    assert (byte_at packet (len pre) = Ok (len l)) as ->.
    { rewrite Hpk1, byte_at_app. by rewrite bv_bz_small by lia. }
    cbn [mbind result_bind].
    rewrite land_192 by lia. cbn [Z.eqb].
    rewrite (proj2 (Z.eqb_neq (len l) 0)), (proj2 (Z.ltb_ge 63 (len l))) by lia.
    rewrite (checked_add_small (len pre + 1) (len l)) by lia.
    cbn [ok_or mbind result_bind]. rewrite (proj2 (Z.ltb_ge (len packet) _)) by lia.
    pose proof (get_range_app (pre ++ [bz (len l)]) l (labels_bytes labels ++ Byte.x00 :: rest)) as Hg.
    rewrite <- Hpk2, Hlp in Hg. rewrite Hg. cbn [ok_or mbind result_bind]. rewrite Hascii. cbn [negb].
    pose proof (len_join_snoc acc l) as Hj.
    assert (len (join_dot acc) + (len l + (if bool_decide (acc = []) then 0 else 1))
      = len (join_dot (acc ++ [l]))) as Hel by lia.
    assert (len (join_dot (acc ++ [l])) ≤ 253) as Hb1.
    { pose proof (len_join_mono (acc ++ [l]) labels) as Hm. rewrite <- app_assoc in Hm. cbn [app] in Hm. lia. }
    rewrite (checked_add_small (len (join_dot acc))), Hel by lia. cbn [ok_or mbind result_bind].
    rewrite (proj2 (Z.ltb_ge 253 _)) by lia. rewrite Hlow.
    assert (len pre + 1 + len l = len (pre ++ label_bytes l)) as Hnext.
    { rewrite len_app. unfold label_bytes. rewrite len_cons. lia. }
    rewrite Hnext. rewrite (IH fuel (pre ++ label_bytes l) (acc ++ [l])).
    + rewrite <- app_assoc. cbn [app]. f_equal. f_equal. destruct next; [done|].
      rewrite <- Hnext, Hlb, len_cons, len_app. lia.
    + rewrite Hpk1. unfold label_bytes. by rewrite <- app_assoc.
    + by rewrite <- app_assoc.
    + done.
    + cbn in Hfuel. lia.
    + intros v [->%elem_of_singleton|Hv]%elem_of_union.
      * left. rewrite <- Hnext. lia.
      * destruct (Hvis v Hv) as [|Hgt]; [left; rewrite <- Hnext; lia|right].
        rewrite <- Hnext. rewrite Hlb, len_cons, len_app in Hgt. lia.
Qed.

Lemma labels_short labels : len (join_dot labels) ≤ 253 →
  len (labels_bytes labels) ≤ 254.
Proof.
  intros Hl. enough (len (labels_bytes labels) ≤ len (join_dot labels) + 1) by lia. clear Hl.
  induction labels as [|l labels IH]; [cbn; unfold len; cbn; lia|].
  change (labels_bytes (l :: labels)) with (bz (len l) :: l ++ labels_bytes labels).
  rewrite len_cons, len_app. destruct labels as [|l' labels]; [unfold len; cbn; lia|].
  change (join_dot (l :: l' :: labels)) with (l ++ bz 46 :: join_dot (l' :: labels)).
  rewrite len_app, len_cons. lia.
Qed.

(** A name that is written out, read at its start. *)
Lemma parse_name_plain pre labels rest : packet = pre ++ labels_bytes labels ++ Byte.x00 :: rest →
  Forall canonical labels → len (join_dot labels) ≤ 253 →
  parse_name packet (len pre) = Ok (join_dot labels, len pre + len (labels_bytes labels) + 1).
Proof.
  intros Hpk Hcan Hb. unfold parse_name.
  pose proof (labels_fewer labels). assert (len pre + len (labels_bytes labels) < len packet) as Hlt.
  { rewrite Hpk, !len_app, len_cons. pose proof (len_nonneg rest). lia. }
  pose proof (len_nonneg pre). rewrite (proj2 (Z.leb_gt _ _)) by (pose proof (len_nonneg (labels_bytes labels)); lia).
  apply (parse_labels labels _ pre [] rest None ∅ 0 0 Hpk Hcan Hb); [done| |set_solver].
  unfold len in *. lia.
Qed.

(** A compressed name: the pointer 0xc00c to the name behind the header. *)
Lemma parse_name_pointer hdr labels rest pre rest' : packet = hdr ++ labels_bytes labels ++ Byte.x00 :: rest →
  len hdr = 12 → packet = pre ++ Byte.xc0 :: Byte.x0c :: rest' → 12 + len (labels_bytes labels) < len pre →
  Forall canonical labels → len (join_dot labels) ≤ 253 →
  parse_name packet (len pre) = Ok (join_dot labels, len pre + 2).
Proof.
  intros Hpk Hh Hpk' Hbehind Hcan Hb. unfold parse_name. pose proof (labels_fewer labels).
  assert (len pre + 1 < len packet) as Hlt.
  { rewrite Hpk', len_app, !len_cons. pose proof (len_nonneg rest'). lia. }
  pose proof (len_nonneg (labels_bytes labels)).
  rewrite (proj2 (Z.leb_gt _ _)) by lia. cbn [parse_name_loop]. rewrite (proj2 (Z.leb_gt _ _)) by lia.
  rewrite bool_decide_eq_false_2 by set_solver.
  assert (byte_at packet (len pre) = Ok 192) as -> by (rewrite Hpk'; apply byte_at_app).
  cbn [mbind result_bind]. change (Z.land 192 192 =? 192) with true. cbn iota.
  rewrite (proj2 (Z.leb_gt _ _)) by lia.
  assert (byte_at packet (len pre + 1) = Ok 12) as ->.
  { rewrite Hpk'. change (Byte.xc0 :: Byte.x0c :: rest') with ([Byte.xc0] ++ Byte.x0c :: rest').
    rewrite app_assoc. replace (len pre + 1) with (len (pre ++ [Byte.xc0])) by (by rewrite len_app).
    apply byte_at_app. }
  cbn [mbind result_bind]. change (Z.lor (Z.shiftl (Z.land 192 63) 8) 12) with 12.
  rewrite (proj2 (Z.leb_gt _ _)) by lia. change (MAX_POINTER_HOPS <? 0 + 1) with false. cbn iota.
  rewrite <- Hh. rewrite (parse_labels labels _ hdr [] rest (Some (len pre + 2)) _ 0 _ Hpk Hcan Hb);
    [done|done|unfold len in *; lia|]. intros v. rewrite union_empty_r_L. intros ->%elem_of_singleton. right. lia.
Qed.
End InPacket.

(** ** Queries and ordinary answers *)

Lemma lowercase_byte b : is_ascii_alphanumeric b || is_dash b = true →
  let b' := if (65 <=? bv b) && (bv b <=? 90) then bz (bv b + 32) else b in
  is_ascii b' = true ∧ (if (65 <=? bv b') && (bv b' <=? 90) then bz (bv b' + 32) else b') = b'
  ∧ is_dot b' = false.
Proof. by destruct b; vm_compute. Qed.

Lemma canonical_lowercase l : 1 ≤ len l ≤ 63 →
  forallb (λ b, is_ascii_alphanumeric b || is_dash b) l = true → canonical (to_ascii_lowercase l).
Proof.
  intros Hl Hb. unfold canonical, to_ascii_lowercase. split; [unfold len in *; by rewrite length_fmap|].
  clear Hl. induction l as [|b l IH]; [by repeat split|]. cbn in Hb. apply andb_true_iff in Hb as [Hb Hbs].
  destruct (lowercase_byte b Hb) as (Ha & Hlo & Hd). destruct (IH Hbs) as (IHa & IHlo & IHd).
  rewrite fmap_cons. split_and!.
  - cbn [forallb]. by rewrite Ha, IHa.
  - rewrite fmap_cons. by rewrite Hlo, IHlo.
  - by constructor.
Qed.

Lemma len_join_lowercase ls : len (join_dot (to_ascii_lowercase <$> ls)) = len (join_dot ls).
Proof.
  induction ls as [|l ls IH] using rev_ind; [done|]. rewrite fmap_app. cbn [fmap list_fmap].
  rewrite !len_join_snoc, IH.
  assert (len (to_ascii_lowercase l) = len l) as -> by (unfold to_ascii_lowercase, len; by rewrite length_fmap).
  by destruct ls.
Qed.

Lemma canonical_qname_Ok q c : canonical_qname q = Ok c →
  ∃ labels, labels ≠ [] ∧ Forall canonical labels ∧ c = join_dot labels ∧ len c ≤ 253.
Proof.
  unfold canonical_qname. intros [_ H]%if_err_Ok. apply if_err_Ok in H as [[Hl%Z.ltb_ge _]%orb_false_iff H].
  apply bind_Ok in H as (cs & Hcs & [= <-]).
  assert (cs = to_ascii_lowercase <$> split_dot (trim_end_dots q) ∧ Forall canonical cs) as [-> Hf].
  { revert Hcs. apply (fold_res_ind canonical_label (λ pre acc, acc = to_ascii_lowercase <$> pre ∧ Forall canonical acc));
      [done|]. intros pre x acc acc' _ [-> Hacc] H. unfold canonical_label in H.
    apply if_err_Ok in H as [[Hne%bool_decide_eq_false Hx%Z.ltb_ge]%orb_false_iff H].
    apply if_err_Ok in H as [[_ Hb%negb_false_iff]%orb_false_iff [= <-]]. rewrite fmap_app. split; [done|].
    apply Forall_app. split; [done|]. constructor; [|constructor]. apply canonical_lowercase; [|done].
    pose proof (len_nonneg x). assert (len x ≠ 0) by (by rewrite len_zero). lia. }
  exists (to_ascii_lowercase <$> split_dot (trim_end_dots q)). split_and!; [|done|done|].
  - intros Hn%fmap_nil_inv. by apply split_dot_nonempty in Hn.
  - by rewrite len_join_lowercase, join_split_dot.
Qed.

Lemma encode_labels labels output : Forall canonical labels →
  fold_res encode_label output labels = Ok (output ++ labels_bytes labels).
Proof.
  intros Hc. revert output. induction Hc as [|l labels (Hl & _) _ IH]; intros output; cbn [fold_res].
  { by rewrite app_nil_r. }
  assert (encode_label output l = Ok (output ++ [bz (len l)] ++ l)) as ->
    by (unfold encode_label; by rewrite (proj2 (Z.ltb_ge _ _)) by lia).
  cbn [mbind result_bind]. rewrite IH.
  by rewrite <- app_assoc.
Qed.

Definition header (txid flags ancount : Z) : bytes :=
  be_bytes 2 txid ++ be_bytes 2 flags ++ be_bytes 2 1 ++ be_bytes 2 ancount ++ be_bytes 2 0 ++ be_bytes 2 0.

(** A question in a message: header, name, type and class. *)
Definition question (txid flags ancount : Z) (labels : list bytes) : bytes :=
  header txid flags ancount ++ labels_bytes labels ++ Byte.x00 :: be_bytes 2 QTYPE_A ++ be_bytes 2 QCLASS_IN.

Lemma build_a_query_bytes q c labels txid : canonical_qname q = Ok c → c = join_dot labels → labels ≠ [] →
  Forall canonical labels → build_a_query q txid = Ok (question txid FLAG_RD 0 labels).
Proof.
  intros Hq -> Hne Hf. unfold build_a_query. rewrite Hq. cbn [mbind result_bind]. unfold encode_name.
  rewrite split_join_dot; [|done|].
  2:{ eapply Forall_impl; [exact Hf|]. intros l (_ & _ & _ & ?). done. }
  rewrite encode_labels by done. cbn [mbind result_bind]. unfold question, header. by rewrite <- !app_assoc.
Qed.

(** An A record of the asked name, its owner compressed. *)
Definition a_record_bytes (r : ParsedARecord) : bytes :=
  Byte.xc0 :: Byte.x0c :: be_bytes 2 QTYPE_A ++ be_bytes 2 QCLASS_IN ++ be_bytes 4 (pa_ttl_secs r)
  ++ be_bytes 2 4 ++ be_bytes 4 (pa_ip r).

Definition record_wf (r : ParsedARecord) : Prop := is_u 32 (pa_ip r) ∧ is_u 32 (pa_ttl_secs r).

(** The response a resolver gives for a list of A records. *)
Definition ordinary_response (txid : Z) (labels : list bytes) (rs : list ParsedARecord) : bytes :=
  question txid (FLAG_QR + FLAG_RD) (len rs) labels ++ concat (a_record_bytes <$> rs).

Lemma len_a_record r : len (a_record_bytes r) = 16.
Proof. unfold a_record_bytes. by rewrite !len_cons, !len_app, !len_be_bytes. Qed.

Lemma len_a_records rs : len (concat (a_record_bytes <$> rs)) = 16 * len rs.
Proof.
  induction rs as [|r rs IH]; [done|]. rewrite fmap_cons. cbn [concat].
  rewrite len_app, len_a_record, IH, len_cons. lia.
Qed.

Lemma len_header txid flags n : len (header txid flags n) = 12.
Proof. unfold header. by rewrite !len_app, !len_be_bytes. Qed.

Lemma size_dedup pt rs : (size (foldl (dedup_record pt) ∅ rs) ≤ length rs)%nat.
Proof.
  induction rs as [|r rs IH] using rev_ind; [done|]. rewrite foldl_app, length_app.
  cbn [foldl length]. unfold dedup_record at 1. destruct (_ !! pa_ip r) as [e|] eqn:He.
  - rewrite map_size_insert_Some by done. lia.
  - rewrite map_size_insert_None by done. lia.
Qed.

Lemma sorted_records_ne pt rs : rs ≠ [] → sorted_records (foldl (dedup_record pt) ∅ rs) ≠ [].
Proof.
  intros Hne. destruct rs as [|r rs]; [done|]. destruct (dedup_all pt (r :: rs)) as [Hall _].
  destruct (Hall r) as [t Ht]; [by left|]. intros Hn.
  assert (mkParsedARecord (pa_ip r) t ∈ sorted_records (foldl (dedup_record pt) ∅ (r :: rs))) as Hin
    by (by apply elem_of_sorted_records). rewrite Hn in Hin. by apply not_elem_of_nil in Hin.
Qed.

(** Answers that are all A records of the asked name. *)
Lemma follow_single packet rrs rs q config :
  (∀ maps, fold_res (collect_rr packet) maps rrs
     = Ok (maps.1, match rs with [] => maps.2 | _ => <[q := default [] (maps.2 !! q) ++ rs]> maps.2 end)) →
  rs ≠ [] → len rs ≤ max_addresses config →
  follow_cname_chain packet rrs q config = Ok (sorted_records (foldl (dedup_record (2 ^ 32 - 1)) ∅ rs)).
Proof.
  intros Hcol Hne Hma. unfold follow_cname_chain. rewrite Hcol. cbn [mbind result_bind fst snd].
  rewrite dom_empty_L, elements_empty. cbn [existsb chain_loop].
  rewrite bool_decide_eq_false_2 by set_solver. cbn [fst snd]. destruct rs as [|r rs]; [done|].
  rewrite lookup_insert_eq, lookup_empty. cbn [default from_option app].
  rewrite (proj2 (Z.ltb_ge _ _)); [done|]. pose proof (size_dedup (2 ^ 32 - 1) (r :: rs)). unfold len in Hma. lia.
Qed.

Section Ordinary.
Context (txid : Z) (labels : list bytes) (rs : list ParsedARecord).
Hypothesis Htxid : is_u 16 txid.
Hypothesis Hlabels : Forall canonical labels.
Hypothesis Hbound : len (join_dot labels) ≤ 253.
Hypothesis Hrs : Forall record_wf rs.
Let packet : bytes := ordinary_response txid labels rs.
Hypothesis Hsize : len packet ≤ 65535.
Let q_end : Z := 12 + len (labels_bytes labels) + 1.

Lemma packet_small : len packet < 2 ^ 63.
Proof. lia. Qed.

(** Where the question name stands. *)
Lemma packet_name : ∃ rest, packet = header txid (FLAG_QR + FLAG_RD) (len rs) ++ labels_bytes labels ++ Byte.x00 :: rest.
Proof. unfold packet, ordinary_response, question. eexists. rewrite <- !app_assoc. done. Qed.

Lemma count_small : 0 ≤ len rs < 2 ^ 16.
Proof.
  split; [apply len_nonneg|]. unfold packet, ordinary_response in Hsize. rewrite len_app, len_a_records in Hsize.
  pose proof (len_nonneg (question txid (FLAG_QR + FLAG_RD) (len rs) labels)). lia.
Qed.

Lemma read_u16_at pos pre v rest : packet = pre ++ be_bytes 2 v ++ rest → pos = len pre → is_u 16 v →
  read_u16 packet pos = Ok v.
Proof. intros Hp -> Hv. eapply read_u16_app; [apply packet_small|done|done]. Qed.

Lemma read_header :
  read_u16 packet 0 = Ok txid ∧ read_u16 packet 2 = Ok (FLAG_QR + FLAG_RD) ∧ read_u16 packet 4 = Ok 1
  ∧ read_u16 packet 6 = Ok (len rs) ∧ read_u16 packet 8 = Ok 0 ∧ read_u16 packet 10 = Ok 0.
Proof.
  destruct packet_name as [rest Hp]. unfold header in Hp. rewrite <- !app_assoc in Hp. pose proof count_small.
  split_and!.
  - by eapply (read_u16_at _ []).
  - by eapply (read_u16_at _ (be_bytes 2 txid)).
  - eapply (read_u16_at _ (be_bytes 2 txid ++ be_bytes 2 _)); [by rewrite Hp, <- !app_assoc|done|done].
  - eapply (read_u16_at _ (be_bytes 2 txid ++ be_bytes 2 _ ++ be_bytes 2 _));
      [by rewrite Hp, <- !app_assoc|done|done].
  - eapply (read_u16_at _ (be_bytes 2 txid ++ be_bytes 2 _ ++ be_bytes 2 _ ++ be_bytes 2 _));
      [by rewrite Hp, <- !app_assoc|done|done].
  - eapply (read_u16_at _ (be_bytes 2 txid ++ be_bytes 2 _ ++ be_bytes 2 _ ++ be_bytes 2 _ ++ be_bytes 2 _));
      [by rewrite Hp, <- !app_assoc|done|done].
Qed.

Lemma read_question : parse_name packet 12 = Ok (join_dot labels, q_end)
  ∧ read_u16 packet q_end = Ok QTYPE_A ∧ read_u16 packet (q_end + 2) = Ok QCLASS_IN.
Proof.
  set (pre := header txid (FLAG_QR + FLAG_RD) (len rs) ++ labels_bytes labels ++ [Byte.x00]).
  assert (len pre = q_end) as Hpre by (unfold pre, q_end; rewrite !len_app, len_header; change (len [Byte.x00]) with 1; lia).
  assert (packet = pre ++ be_bytes 2 QTYPE_A ++ be_bytes 2 QCLASS_IN ++ concat (a_record_bytes <$> rs)) as Hp.
  { unfold packet, ordinary_response, question, pre. rewrite <- !app_assoc. cbn [app]. by rewrite <- !app_assoc. }
  split_and!.
  - destruct packet_name as [rest Hn]. pose proof (parse_name_plain packet packet_small _ _ _ Hn Hlabels Hbound) as H.
    by rewrite len_header in H.
  - by eapply (read_u16_at _ pre).
  - eapply (read_u16_at _ (pre ++ be_bytes 2 QTYPE_A)); [by rewrite Hp, <- !app_assoc| |done].
    by rewrite len_app, Hpre, len_be_bytes.
Qed.

(** The record as the parser sees it. *)
Definition parsed_rr (start : Z) (r : ParsedARecord) : ResourceRecord :=
  mkResourceRecord (join_dot labels) QTYPE_A QCLASS_IN (pa_ttl_secs r) (start + 12) (start + 16).

Lemma parse_a_record pre r rest : packet = pre ++ a_record_bytes r ++ rest → q_end + 4 ≤ len pre → record_wf r →
  parse_rr packet (len pre) = Ok (parsed_rr (len pre) r, len pre + 16)
  ∧ get_range packet (len pre + 12) (len pre + 16) = Some (be_bytes 4 (pa_ip r)).
Proof.
  intros Hp Hq [Hip Httl]. unfold a_record_bytes in Hp. set (p2 := pre ++ [Byte.xc0; Byte.x0c]).
  assert (packet = p2 ++ be_bytes 2 QTYPE_A ++ be_bytes 2 QCLASS_IN ++ be_bytes 4 (pa_ttl_secs r)
    ++ be_bytes 2 4 ++ be_bytes 4 (pa_ip r) ++ rest) as Hp2.
  { rewrite Hp. unfold p2. cbn [app]. rewrite <- !app_assoc. done. }
  assert (len p2 = len pre + 2) as Hl2 by (unfold p2; by rewrite len_app).
  assert (len pre + 16 ≤ len packet) as Hend.
  { rewrite Hp2, !len_app, Hl2, !len_be_bytes. pose proof (len_nonneg rest). lia. }
  unfold parse_rr. destruct packet_name as [rest0 Hn].
  rewrite (parse_name_pointer packet packet_small _ labels rest0 pre _ Hn (len_header _ _ _) Hp);
    [|unfold q_end in Hq; lia|done|done].
  cbn [mbind result_bind]. rewrite (read_u16_at (len pre + 2) p2 QTYPE_A _ Hp2); [|lia|done]. cbn [mbind result_bind].
  rewrite (read_u16_at (len pre + 2 + 2) (p2 ++ be_bytes 2 QTYPE_A) QCLASS_IN
    (be_bytes 4 (pa_ttl_secs r) ++ be_bytes 2 4 ++ be_bytes 4 (pa_ip r) ++ rest));
    [|by rewrite Hp2, <- !app_assoc|rewrite len_app, len_be_bytes; lia|done]. cbn [mbind result_bind].
  replace (len pre + 2 + 4) with (len (p2 ++ be_bytes 2 QTYPE_A ++ be_bytes 2 QCLASS_IN))
    by (rewrite !len_app, !len_be_bytes; lia).
  rewrite (read_u32_app packet packet_small _ (pa_ttl_secs r) (be_bytes 2 4 ++ be_bytes 4 (pa_ip r) ++ rest));
    [|by rewrite Hp2, <- !app_assoc|done]. cbn [mbind result_bind].
  rewrite (read_u16_at (len pre + 2 + 8)
    (p2 ++ be_bytes 2 QTYPE_A ++ be_bytes 2 QCLASS_IN ++ be_bytes 4 (pa_ttl_secs r)) 4
    (be_bytes 4 (pa_ip r) ++ rest)); [|by rewrite Hp2, <- !app_assoc|rewrite !len_app, !len_be_bytes; lia|done].
  cbn [mbind result_bind]. rewrite checked_add_small by lia. cbn [ok_or mbind result_bind].
  rewrite checked_add_small by lia. cbn [ok_or mbind result_bind].
  rewrite (proj2 (Z.ltb_ge _ _)) by lia. split.
  - unfold parsed_rr. by replace (len pre + 2 + 10 + 4) with (len pre + 16) by lia;
      replace (len pre + 2 + 10) with (len pre + 12) by lia.
  - pose proof (get_range_app (p2 ++ be_bytes 2 QTYPE_A ++ be_bytes 2 QCLASS_IN ++ be_bytes 4 (pa_ttl_secs r)
      ++ be_bytes 2 4) (be_bytes 4 (pa_ip r)) rest) as Hg.
    rewrite <- !app_assoc, <- Hp2, !len_app, !len_be_bytes, Hl2 in Hg.
    by replace (len pre + 2 + (Z.of_nat 2 + (Z.of_nat 2 + (Z.of_nat 4 + Z.of_nat 2)))) with (len pre + 12) in Hg by lia;
      replace (len pre + 12 + Z.of_nat 4) with (len pre + 16) in Hg by lia.
Qed.

Lemma collect_a_record (pre : bytes) r maps : 0 ≤ len pre →
  get_range packet (len pre + 12) (len pre + 16) = Some (be_bytes 4 (pa_ip r)) → record_wf r →
  collect_rr packet maps (parsed_rr (len pre) r)
  = Ok (maps.1, <[join_dot labels := default [] (maps.2 !! join_dot labels) ++ [r]]> maps.2).
Proof.
  intros Hpre Hg [Hip _]. destruct maps as [cn ad]. unfold collect_rr, parsed_rr.
  cbn [rr_class rr_type rdata_start rdata_end owner ttl fst snd].
  replace (len pre + 16 - (len pre + 12)) with 4 by lia. change (negb (QCLASS_IN =? QCLASS_IN)) with false.
  change (QTYPE_A =? QTYPE_A) with true. change (negb (4 =? 4)) with false. cbn iota.
  replace (len pre + 16) with (len pre + 12 + 4) in Hg by lia. pose proof Hg as Hg'.
  apply get_range_4 in Hg' as (b0 & b1 & b2 & b3 & Hb & -> & -> & -> & ->); [|lia].
  cbn [mbind result_bind]. rewrite <- be_value_4, <- Hb, be_value_be_bytes_small by done. by destruct r.
Qed.

Lemma parse_a_records todo pre : packet = pre ++ concat (a_record_bytes <$> todo) → q_end + 4 ≤ len pre →
  Forall record_wf todo → ∃ rrs, parse_rrs (length todo) packet (len pre) = Ok (rrs, len packet)
    ∧ ∀ maps, fold_res (collect_rr packet) maps rrs
        = Ok (maps.1, match todo with [] => maps.2
                      | _ => <[join_dot labels := default [] (maps.2 !! join_dot labels) ++ todo]> maps.2 end).
Proof.
  intros Hp Hq Hwf. revert pre Hp Hq. induction Hwf as [|r todo Hr _ IH]; intros pre Hp Hq.
  { exists []. cbn in Hp. rewrite app_nil_r in Hp. rewrite Hp. split; [done|]. by intros []. }
  rewrite fmap_cons in Hp. cbn [concat] in Hp.
  destruct (parse_a_record pre r _ Hp Hq Hr) as [Hrr Hg].
  destruct (IH (pre ++ a_record_bytes r)) as (rrs & Hrrs & Hcol).
  { by rewrite Hp, <- app_assoc. }
  { rewrite len_app, len_a_record. lia. }
  rewrite len_app, len_a_record in Hrrs. exists (parsed_rr (len pre) r :: rrs). split.
  - cbn [length parse_rrs]. rewrite Hrr. cbn [mbind result_bind]. rewrite Hrrs. done.
  - intros maps. cbn [fold_res]. rewrite (collect_a_record pre r maps (len_nonneg pre) Hg Hr).
    cbn [mbind result_bind]. rewrite Hcol. cbn [fst snd]. destruct todo as [|r' todo]; [done|].
    rewrite lookup_insert_eq, insert_insert_eq. simpl. by rewrite <- app_assoc.
Qed.

Lemma ordinary_answer_parses q config : config_validate config = Ok () → canonical_qname q = Ok (join_dot labels) →
  rs ≠ [] → len rs ≤ max_resource_records config → len rs ≤ max_addresses config →
  len packet ≤ max_packet_size config →
  parse_a_response packet txid q config
  = Ok (AnsPositive (sorted_records (foldl (dedup_record (2 ^ 32 - 1)) ∅ rs))).
Proof.
  intros Hcfg Hq Hne Hrr Hma Hps. unfold parse_a_response. rewrite Hcfg. cbn [mbind result_bind].
  destruct read_header as (H0 & H2 & H4 & H6 & H8 & H10). destruct read_question as (Hn & Hqt & Hqc).
  pose proof count_small as Hcs. pose proof (len_nonneg (labels_bytes labels)) as Hnn.
  assert (q_end + 4 ≤ len packet) as Hqe.
  { unfold packet, ordinary_response, question, q_end. rewrite !len_app, len_header, len_cons, !len_app, !len_be_bytes.
    pose proof (len_nonneg (concat (a_record_bytes <$> rs))). lia. }
  unfold DNS_HEADER_LEN. rewrite (proj2 (Z.ltb_ge _ _)) by (unfold q_end in Hqe; lia).
  rewrite (proj2 (Z.ltb_ge _ _)) by done. rewrite H0. cbn [mbind result_bind]. rewrite Z.eqb_refl. cbn [negb].
  rewrite H2. cbn [mbind result_bind].
  change (Z.land (FLAG_QR + FLAG_RD) FLAG_QR =? 0) with false.
  change (negb (Z.land (Z.shiftr (FLAG_QR + FLAG_RD) 11) 15 =? 0)) with false.
  change (negb (Z.land (FLAG_QR + FLAG_RD) 64 =? 0)) with false. cbn iota.
  rewrite H4, H6, H8, H10. cbn [mbind result_bind]. change (negb (1 =? 1)) with false. cbn iota.
  rewrite (checked_add_small (len rs) 0) by lia. cbn [mbind option_bind].
  rewrite (checked_add_small (len rs + 0) 0) by lia. cbn [ok_or mbind result_bind].
  rewrite (proj2 (Z.ltb_ge _ _)) by lia. rewrite Hq. cbn [mbind result_bind]. rewrite Hn. cbn [mbind result_bind].
  rewrite Hqt. cbn [mbind result_bind]. rewrite Hqc. cbn [mbind result_bind].
  rewrite checked_add_small by lia. cbn [ok_or mbind result_bind].
  rewrite bool_decide_eq_true_2 by done. cbn [negb orb]. change (negb (QTYPE_A =? QTYPE_A)) with false.
  change (negb (QCLASS_IN =? QCLASS_IN)) with false. cbn [orb].
  set (pre := question txid (FLAG_QR + FLAG_RD) (len rs) labels).
  assert (len pre = q_end + 4) as Hpre.
  { unfold pre, question, q_end. rewrite !len_app, len_header, len_cons, !len_app, !len_be_bytes. lia. }
  destruct (parse_a_records rs pre eq_refl ltac:(lia) Hrs) as (rrs & Hrrs & Hcol).
  replace (Z.to_nat (len rs)) with (length rs) by (unfold len; lia). rewrite <- Hpre, Hrrs. cbn [mbind result_bind Z.to_nat parse_rrs].
  rewrite Z.eqb_refl. cbn [negb]. change (negb (Z.land (FLAG_QR + FLAG_RD) FLAG_TC =? 0)) with false.
  change (Z.land (FLAG_QR + FLAG_RD) RCODE_MASK =? 3) with false.
  change (Z.land (FLAG_QR + FLAG_RD) RCODE_MASK =? 0) with true. cbn [negb].
  change (Z.to_nat 0) with O. cbn [mbind result_bind parse_rrs]. rewrite Z.eqb_refl. cbn [negb].
  change (soa_negative_ttl packet []) with (Ok None : result EndpointDnsError (option Z)). cbn [mbind result_bind].
  rewrite (follow_single packet rrs rs (join_dot labels) config Hcol Hne Hma). cbn [mbind result_bind].
  by rewrite bool_decide_eq_false_2 by (by apply sorted_records_ne).
Qed.
End Ordinary.

(** Query and answer meet: for every name that can be asked, the query is the encoding
    of its canonical form, and reads back as that name, type A, class IN; and a resolver's
    ordinary response to it, the question with any number of A records within the bounds,
    is accepted and yields exactly those addresses, each with its least TTL. *)
Theorem query_and_answer (q c : bytes) (txid : Z) (rs : list ParsedARecord) (config : EndpointDnsConfig) :
  canonical_qname q = Ok c → is_u 16 txid → config_validate config = Ok () →
  rs ≠ [] → Forall record_wf rs → len rs ≤ max_resource_records config → len rs ≤ max_addresses config →
  ∃ labels, c = join_dot labels
    ∧ build_a_query q txid = Ok (question txid FLAG_RD 0 labels)
    ∧ (∃ cursor, parse_name (question txid FLAG_RD 0 labels) DNS_HEADER_LEN = Ok (c, cursor))
    ∧ (len (ordinary_response txid labels rs) ≤ max_packet_size config →
       parse_a_response (ordinary_response txid labels rs) txid q config
       = Ok (AnsPositive (sorted_records (foldl (dedup_record (2 ^ 32 - 1)) ∅ rs)))).
Proof.
  intros Hq Htx Hcfg Hne Hwf Hrr Hma. destruct (canonical_qname_Ok _ _ Hq) as (labels & Hls & Hcan & -> & Hlen).
  exists labels. split_and!; [done|by eapply build_a_query_bytes|..].
  - exists (len (header txid FLAG_RD 0) + len (labels_bytes labels) + 1).
    change DNS_HEADER_LEN with 12. rewrite <- (len_header txid FLAG_RD 0) at 1.
    eapply parse_name_plain; [|reflexivity|done|done]. pose proof (labels_short labels Hlen).
    unfold question. rewrite !len_app, len_header, len_cons, !len_app, !len_be_bytes. lia.
  - intros Hsz. apply ordinary_answer_parses; try done.
    assert (max_packet_size config ≤ 65535); [|lia]. unfold config_validate in Hcfg.
    apply if_err_Ok in Hcfg as [_ Hcfg]. apply if_err_Ok in Hcfg as [Hb%negb_false_iff _].
    apply andb_true_iff in Hb as [_ ?%Z.leb_le]. done.
Qed.

(** ** Refresh *)

(** The network cannot widen what is signed: in every reachable state, a refresh over
    any network at all leaves the coordinator in a reachable state, and committing the
    observation it prepares leads to one whose snapshot is not empty and holds only
    addresses of the verified authority of a configured endpoint, under its own
    authentication. *)
Theorem refresh_confined (endpoints : list LogicalEndpoint) (seeds : list SeedCandidate) (now : Z)
    (c0 c' : EndpointCoordinator) (s : Sys) (net : Net) (config : EndpointDnsConfig) (txid logical : Z)
    (hostname : bytes) (now_ms entropy : Z) (r : result EndpointError PreparedObservation) :
  EndpointCoordinator_new endpoints seeds now = Ok c0 → reachable_from c0 s →
  resolve_endpoint_observation (sy_coord s) net config txid logical hostname now_ms entropy = (c', r) →
  reachable_from c0 (mkSys c' (sy_pending s))
  ∧ ∀ p, r = Ok p → reachable_from c0 (mkSys (po_projected p) (sy_pending s))
      ∧ ds_candidates (snapshot (po_projected p)) ≠ []
      ∧ ∀ d, d ∈ ds_candidates (snapshot (po_projected p)) → confined endpoints d.
Proof.
  intros Hnew Hr. destruct s as [c ps]. unfold resolve_endpoint_observation. cbn [sy_coord sy_pending].
  destruct (begin_query c logical) as [[c1 stamp]|e] eqn:Hb; [|by intros [= <- <-]].
  set (obs := match resolve_a_with_txid net hostname config txid with Ok _ => _ | Err _ => _ end).
  intros [= <- <-]. assert (reachable_from c0 (mkSys c1 ps)) as Hr1.
  { eapply rtc_r; [exact Hr|]. by eapply step_query. }
  split; [done|]. intros p Hp. assert (prepared_from c1 (PObservation p)) as Hfrom by (by eexists _, _, _, _).
  assert (reachable_from c0 (mkSys (po_projected p) ps)) as Hr2.
  { eapply rtc_r; [eapply rtc_r; [exact Hr1|by apply step_prepare]|].
    apply (step_commit c1 [] (PObservation p) ps). apply commit_Ok. split; [|done].
    destruct (prepared_good c1 _ (so_coord _ _ (reachable_ok _ _ _ _ _ Hnew Hr1)) Hfrom) as (_ & Hbase & _).
    done. }
  split; [done|]. pose proof (reachable_ok _ _ _ _ _ Hnew Hr2) as [Hc Hs _]. cbn [sy_coord] in *. split.
  - by apply snapshot_nonempty.
  - intros d. apply snapshot_confined; [done|]. eapply configured_specs; [exact Hs|by eapply new_configured].
Qed.

(** ** Samples *)

Module DnsSample.
Import EndpointSample.

(** A response with a CNAME record from the asked name a.b and an A record of its target,
    and the same question with the truncation flag. *)
Definition labels_ab : list bytes := [[Byte.x61]; [Byte.x62]].
Definition target_record : bytes :=
  labels_bytes [[Byte.x65]; [Byte.x62]] ++ [Byte.x00] ++ be_bytes 2 QTYPE_A ++ be_bytes 2 QCLASS_IN
  ++ be_bytes 4 30 ++ be_bytes 2 4 ++ be_bytes 4 ip2.
Definition cname_record : bytes :=
  [Byte.xc0; Byte.x0c] ++ be_bytes 2 QTYPE_CNAME ++ be_bytes 2 QCLASS_IN ++ be_bytes 4 120 ++ be_bytes 2 5
  ++ labels_bytes [[Byte.x65]; [Byte.x62]] ++ [Byte.x00].
Definition cname_response : bytes :=
  question 7 (FLAG_QR + FLAG_RD) 2 labels_ab ++ cname_record ++ target_record.
Definition truncated_response : bytes := question 7 (FLAG_QR + FLAG_RD + FLAG_TC) 0 labels_ab.

Definition name_ab : bytes := join_dot labels_ab.
Definition sample_net : Net :=
  mkNet true (Some 21) (Some (Some truncated_response)) (Some true) (Some true)
    [be_bytes 2 (len cname_response) ++ take 9 cname_response; drop 9 cname_response] Eof.
Definition answer : ParsedDnsAnswer := AnsPositive [mkParsedARecord ip2 30].

Lemma cname_response_parses : parse_a_response cname_response 7 name_ab EndpointDnsConfig_default = Ok answer.
Proof. by vm_compute. Qed.

Lemma positive_answer_sound_witness :
  ∃ flags q answers, answers_to cname_response 7 name_ab flags q answers
    ∧ chain_result cname_response answers EndpointDnsConfig_default q 0 (2 ^ 32 - 1) [mkParsedARecord ip2 30].
Proof.
  destruct (positive_answer_sound cname_response 7 name_ab EndpointDnsConfig_default [mkParsedARecord ip2 30]
    ltac:(done) ltac:(done) cname_response_parses) as (flags & q & answers & Ha & _ & Hc).
  exact (ex_intro _ flags (ex_intro _ q (ex_intro _ answers (conj Ha Hc)))).
Defined.

(** The datagram is truncated, the stream carries the answer in two pieces. *)
Lemma resolve_total_witness : resolve_a_with_txid sample_net name_ab EndpointDnsConfig_default 7 = Ok answer
  ∧ resolved sample_net name_ab EndpointDnsConfig_default 7 answer.
Proof.
  assert (resolve_a_with_txid sample_net name_ab EndpointDnsConfig_default 7 = Ok answer) as Hr by (by vm_compute).
  split; [exact Hr|].
  assert (Forall (λ c, c ≠ []) (tcp_chunks sample_net)) as Hc by (by vm_compute; repeat constructor).
  pose proof (resolve_total sample_net name_ab EndpointDnsConfig_default 7 ltac:(done) ltac:(done) Hc) as H.
  rewrite Hr in H. exact H.
Defined.

Lemma query_and_answer_witness : ∃ labels, name_ab = join_dot labels
  ∧ build_a_query name_ab 7 = Ok (question 7 FLAG_RD 0 labels).
Proof.
  destruct (query_and_answer name_ab name_ab 7 [mkParsedARecord ip1 60] EndpointDnsConfig_default
    ltac:(by vm_compute) ltac:(done) ltac:(by vm_compute) ltac:(done) ltac:(by repeat constructor)
    ltac:(by vm_compute) ltac:(by vm_compute)) as (labels & H1 & H2 & _).
  exact (ex_intro _ labels (conj H1 H2)).
Defined.

Definition refreshed :=
  resolve_endpoint_observation c0 sample_net EndpointDnsConfig_default 7 7 name_ab 1000 5.

Lemma refresh_confined_witness : reachable_from c0 (mkSys (refreshed.1) []).
Proof.
  exact (proj1 (refresh_confined [sample_endpoint] seeds 0 c0 refreshed.1 (mkSys c0 []) sample_net
    EndpointDnsConfig_default 7 7 name_ab 1000 5 refreshed.2 new_c0 (rtc_refl _ _)
    (surjective_pairing _))).
Defined.
End DnsSample.
