(* ===== verification/EndpointFailover.v ===== *)
(** * Live endpoints: failover of the client

    Models what the signed session loop of [shadowpipe-client/src/main.rs] does between two
    carrier sessions: the choice of the next candidate ([select_signed_candidate],
    [next_signed_candidate_preference]), the bookkeeping of failed candidates
    ([SignedFailureEpoch]), the backoff ([Backoff], [next_fail_streak]) and the branch on
    the result of a session, [after_session], which decides when the complete signed
    authority is restored.  Whether a session lasted [STABLE_AFTER], whether the policy has
    expired and whether the watcher asks for a restart are arguments.  The jitter of a delay
    is computed in floating point and is left out. *)

From S2P Require Import Prelude EndpointPlan Endpoint EndpointSystem EndpointRuntime EndpointClient.

(** ** Candidates *)

Inductive ReconnectAction := RemoteClose | Rotate | BackOff.

#[export] Instance ReconnectAction_eq_dec : EqDecision ReconnectAction.
Proof. solve_decision. Defined.

(** The errors of a session: [RotateConnection] or any other one. *)
Inductive SessionError := RotateConnection | OtherError.

Definition classify_run_result (res : result SessionError ()) : ReconnectAction :=
  match res with
  | Ok _ => RemoteClose
  | Err RotateConnection => Rotate
  | Err OtherError => BackOff
  end.

Definition has_key (key : CandidateKey) (d : DialCandidate) : bool := bool_decide (dc_key d = key).

Definition select_signed_candidate (policy : EndpointCoordinator) (preferred : option CandidateKey)
  : result EndpointError DialCandidate :=
  let snapshot := snapshot policy in
  let found := match preferred with
    | Some key => snd <$> list_find (λ d, has_key key d) (ds_candidates snapshot)
    | None => None
    end in
  ok_or (match found with Some d => Some d | None => head (ds_candidates snapshot) end) Refused.

Definition next_signed_candidate_preference (policy : EndpointCoordinator) (current : CandidateKey)
    (action : ReconnectAction) : option CandidateKey :=
  let candidates := ds_candidates (snapshot policy) in
  match action, position (has_key current) candidates with
  | (BackOff | RemoteClose), Some index =>
      if (1 <? length candidates)%nat
      then dc_key <$> candidates !! ((index + 1) mod length candidates)%nat
      else dc_key <$> candidates !! index
  | _, Some index => dc_key <$> candidates !! index
  | _, None => dc_key <$> head candidates
  end.

(** ** Failed candidates *)

Record SignedFailureEpoch := mkSignedFailureEpoch {
  snapshot_generation : Z;
  attempted_candidates : gset CandidateKey;
  rehydrated : bool;
}.

Definition SignedFailureEpoch_new (generation : Z) : SignedFailureEpoch :=
  mkSignedFailureEpoch generation ∅ false.

Definition synchronize (e : SignedFailureEpoch) (generation : Z) : SignedFailureEpoch :=
  if negb (snapshot_generation e =? generation) then mkSignedFailureEpoch generation ∅ false else e.

Definition keys_of (candidates : list DialCandidate) : gset CandidateKey :=
  list_to_set (dc_key <$> candidates).

Definition record_failure (e : SignedFailureEpoch) (generation : Z) (candidates : list DialCandidate)
    (key : CandidateKey) : SignedFailureEpoch * bool :=
  let e := synchronize e generation in
  let current := keys_of candidates in
  let e := if bool_decide (key ∈ current)
    then mkSignedFailureEpoch (snapshot_generation e) ({[key]} ∪ attempted_candidates e) (rehydrated e)
    else e in
  (e, negb (bool_decide (current = ∅)) && negb (rehydrated e)
      && bool_decide (current ⊆ attempted_candidates e)).

Definition note_rehydrated (e : SignedFailureEpoch) (generation : Z)
    (candidates : list DialCandidate) (failed_key : CandidateKey) : SignedFailureEpoch :=
  let current := keys_of candidates in
  let kept := attempted_candidates e ∩ current in
  mkSignedFailureEpoch generation
    (if bool_decide (failed_key ∈ current) then {[failed_key]} ∪ kept else kept) true.

Definition epoch_reset (e : SignedFailureEpoch) (generation : Z) : SignedFailureEpoch :=
  mkSignedFailureEpoch generation ∅ false.

(** ** Backoff *)

Record Backoff := mkBackoff { base_ms : Z; max_ms : Z }.

Definition delay (b : Backoff) (streak : Z) : Z :=
  if streak =? 0 then 0 else
  let shift := Z.min (streak - 1) 32 in
  let factor := if shift <? 64 then Z.shiftl 1 shift else 2 ^ 64 - 1 in
  Z.min (u64_saturating_mul (base_ms b) factor) (max_ms b).

Definition next_fail_streak (action : ReconnectAction) (session_ok : bool) (current : Z) : Z :=
  match action, session_ok with
  | RemoteClose, true => 1
  | RemoteClose, false => u32_saturating_add current 1
  | Rotate, _ => 0
  | BackOff, true => 1
  | BackOff, false => u32_saturating_add current 1
  end.

(** ** The branch after a session *)

(** The local variables of the loop. *)
Record SignedLoop := mkSignedLoop {
  rotation : Z;
  fail_streak : Z;
  preferred : option CandidateKey;
  failure_epoch : SignedFailureEpoch;
}.

Inductive AfterSession := Reconnect (wait : Z) | PolicyExpired | NetworkRestart.

Definition ROTATE_DELAY_MS : Z := 50.

Section AfterSession.
Context {H E : Type} {A : EndpointHostAdapter H E}.

Definition after_session (backoff : Backoff) (policy : EndpointCoordinator) (guards : H)
    (st : SignedLoop) (key : CandidateKey) (action : ReconnectAction)
    (session_ok expired restart : bool)
  : EndpointCoordinator * H * SignedLoop * result (TransactionError E) AfterSession :=
  let rotation := u32_saturating_add (rotation st) 1 in
  match action with
  | Rotate =>
      let st := mkSignedLoop rotation (next_fail_streak Rotate true (fail_streak st))
        (next_signed_candidate_preference policy key action)
        (epoch_reset (failure_epoch st) (generation (snapshot policy))) in
      (policy, guards, st, Ok (Reconnect ROTATE_DELAY_MS))
  | BackOff | RemoteClose =>
      let streak := next_fail_streak action session_ok (fail_streak st) in
      let epoch := if session_ok then epoch_reset (failure_epoch st) (generation (snapshot policy))
                   else failure_epoch st in
      let '(epoch, should_rehydrate) :=
        record_failure epoch (generation (snapshot policy)) (ds_candidates (snapshot policy)) key in
      let reconnect policy guards epoch :=
        (policy, guards,
         mkSignedLoop rotation streak (next_signed_candidate_preference policy key action) epoch,
         Ok (Reconnect (delay backoff streak))) in
      if should_rehydrate then
        match commit_authority_rehydration_transaction policy guards expired with
        | (policy, guards, Err error) =>
            (policy, guards, mkSignedLoop rotation streak (preferred st) epoch, Err error)
        | (policy, guards, Ok (RehydrationCommitted _)) =>
            if restart
            then (policy, guards, mkSignedLoop rotation streak (preferred st) epoch, Ok NetworkRestart)
            else reconnect policy guards
              (note_rehydrated epoch (generation (snapshot policy)) (ds_candidates (snapshot policy)) key)
        | (policy, guards, Ok RehydrationPolicyExpired) =>
            (policy, guards, mkSignedLoop rotation streak (preferred st) epoch, Ok PolicyExpired)
        end
      else reconnect policy guards epoch
  end.
End AfterSession.

(** ** Rotation over a snapshot *)

Definition snapshot_keys (snap : DialSnapshot) : list CandidateKey := dc_key <$> ds_candidates snap.

(** Dialling starts at the candidate with index [i] whatever else the coordinator holds. *)
Definition dials (snap : DialSnapshot) (preferred : option CandidateKey) (i : nat) : Prop :=
  ∃ d, ds_candidates snap !! i = Some d
    ∧ ∀ c, snapshot c = snap → select_signed_candidate c preferred = Ok d.

Section Rotation.
Context (snap : DialSnapshot) (Hnodup : NoDup (snapshot_keys snap)).
#[local] Abbreviation cands := (ds_candidates snap).
#[local] Abbreviation n := (length cands).

Lemma key_index i j d d' : cands !! i = Some d → cands !! j = Some d' → dc_key d = dc_key d' → i = j.
Proof.
  intros Hi Hj He. eapply (NoDup_lookup _ _ _ _ Hnodup); unfold snapshot_keys;
    rewrite list_lookup_fmap; [rewrite Hi|rewrite Hj]; cbn; [reflexivity|by rewrite He].
Qed.

Lemma position_key i d : cands !! i = Some d → position (has_key (dc_key d)) cands = Some i.
Proof.
  intros Hi. assert (∀ j d', cands !! j = Some d' → has_key (dc_key d) d' = true → j = i) as Hu.
  { intros j d' Hj Hd%bool_decide_eq_true. by eapply key_index. }
  clear Hnodup. revert i Hi Hu. induction cands as [|d0 l IH]; intros [|i] Hi Hu; simplify_eq/=.
  - by rewrite (bool_decide_eq_true_2 _ eq_refl : has_key (dc_key d) d = true).
  - destruct (has_key (dc_key d) d0) eqn:E; [by specialize (Hu O d0 eq_refl E)|].
    rewrite (IH i); [done|done|]. intros j d' Hj Hd. specialize (Hu (S j) d' Hj Hd). lia.
Qed.

Lemma dials_key i d : cands !! i = Some d → dials snap (Some (dc_key d)) i.
Proof.
  intros Hi. exists d. split; [done|]. intros c Hc. unfold select_signed_candidate. rewrite Hc.
  destruct (list_find _ cands) as [[j d']|] eqn:Hf; cbn.
  - apply list_find_Some in Hf as (Hj & Hd & _). apply Is_true_true, bool_decide_eq_true in Hd.
    assert (j = i) as -> by (by eapply key_index). by simplify_eq.
  - exfalso. apply list_find_None in Hf. rewrite Forall_lookup in Hf. apply (Hf _ _ Hi).
    apply Is_true_true. by apply bool_decide_eq_true.
Qed.

Lemma next_preference c i d a : snapshot c = snap → cands !! i = Some d → a ≠ Rotate →
  dials snap (next_signed_candidate_preference c (dc_key d) a) (S i mod n).
Proof.
  intros Hc Hi Ha. assert (i < n)%nat as Hlt by (by eapply lookup_lt_Some).
  assert (is_Some (cands !! (S i mod n)%nat)) as [d' Hd'] by (apply lookup_lt_is_Some, Nat.mod_upper_bound; lia).
  assert (next_signed_candidate_preference c (dc_key d) a = Some (dc_key d')) as ->; [|by apply dials_key].
  unfold next_signed_candidate_preference. rewrite Hc, (position_key _ _ Hi), Nat.add_1_r.
  destruct (1 <? n)%nat eqn:En; [destruct a; by rewrite ?Hd'|].
  assert (n = 1)%nat as E by (apply Nat.ltb_ge in En; lia). assert (i = 0)%nat as -> by lia.
  rewrite E in Hd'. cbn in Hd'. destruct a; by rewrite ?Hd'.
Qed.
End Rotation.

(** ** Rounds of failed sessions *)

Section Rounds.
Context {H E : Type} {A : EndpointHostAdapter H E} (backoff : Backoff).

(** What the loop finds when a short session has ended: the coordinator and the host then,
    how the session ended, and the answers of the clocks and of the watcher. *)
Record Round := mkRound {
  rd_policy : EndpointCoordinator;
  rd_guards : H;
  rd_action : ReconnectAction;
  rd_expired : bool;
  rd_restart : bool;
}.

Definition round_end (st : SignedLoop) (key : CandidateKey) (r : Round) :=
  after_session backoff (rd_policy r) (rd_guards r) st key (rd_action r) false (rd_expired r) (rd_restart r).

(** A short session that failed while [snap] was published. *)
Definition failed_on (snap : DialSnapshot) (r : Round) : Prop :=
  snapshot (rd_policy r) = snap ∧ rd_action r ≠ Rotate.

(** Rounds that reconnect and leave coordinator and host alone, with the keys dialled. *)
Inductive quiet_rounds : SignedLoop → list Round → list CandidateKey → SignedLoop → Prop :=
| quiet_nil st : quiet_rounds st [] [] st
| quiet_cons st r rs d wait st1 ks st2 :
    select_signed_candidate (rd_policy r) (preferred st) = Ok d →
    round_end st (dc_key d) r = (rd_policy r, rd_guards r, st1, Ok (Reconnect wait)) →
    quiet_rounds st1 rs ks st2 →
    quiet_rounds st (r :: rs) (dc_key d :: ks) st2.

(** The complete signed authority is restored in this round: the outcome is the one of the
    rehydration transaction. *)
Definition rehydrates (st : SignedLoop) (key : CandidateKey) (r : Round) : Prop :=
  match commit_authority_rehydration_transaction (rd_policy r) (rd_guards r) (rd_expired r) with
  | (c, h, Err e) => ∃ st', round_end st key r = (c, h, st', Err e)
  | (c, h, Ok RehydrationPolicyExpired) => ∃ st', round_end st key r = (c, h, st', Ok PolicyExpired)
  | (c, h, Ok (RehydrationCommitted _)) => ∃ st',
      if rd_restart r then round_end st key r = (c, h, st', Ok NetworkRestart)
      else (∃ wait, round_end st key r = (c, h, st', Ok (Reconnect wait)))
        ∧ rehydrated (failure_epoch st') = true
        ∧ snapshot_generation (failure_epoch st') = generation (snapshot c)
  end.

Section Snapshot.
Context (snap : DialSnapshot) (Hnodup : NoDup (snapshot_keys snap)).
#[local] Abbreviation cands := (ds_candidates snap).
#[local] Abbreviation keys := (snapshot_keys snap).

Definition epoch_at (st : SignedLoop) (tried : list CandidateKey) (done : bool) : Prop :=
  failure_epoch st = mkSignedFailureEpoch (generation snap) (list_to_set tried) done.

Lemma elem_of_keys_of k : k ∈ keys_of cands ↔ k ∈ keys.
Proof. apply elem_of_list_to_set. Qed.

Lemma record_at st tried done i d : cands !! i = Some d → epoch_at st tried done →
  record_failure (failure_epoch st) (generation snap) cands (dc_key d)
  = (mkSignedFailureEpoch (generation snap) (list_to_set (dc_key d :: tried)) done,
     negb done && bool_decide (keys ⊆ dc_key d :: tried)).
Proof.
  intros Hi He. assert (dc_key d ∈ keys_of cands) as Hk.
  { apply elem_of_keys_of, list_elem_of_fmap_2. by eapply list_elem_of_lookup_2. }
  unfold record_failure, synchronize. rewrite He. cbn [snapshot_generation]. rewrite Z.eqb_refl.
  cbn [negb]. rewrite bool_decide_eq_true_2 by done. cbn. f_equal.
  rewrite bool_decide_eq_false_2 by (intros E0; rewrite E0 in Hk; by apply not_elem_of_empty in Hk).
  cbn. f_equal. apply bool_decide_ext.
  assert (∀ k, k ∈ ({[dc_key d]} ∪ list_to_set tried : gset CandidateKey) ↔ k ∈ dc_key d :: tried) as Ht.
  { intros k. rewrite elem_of_cons, elem_of_union, elem_of_singleton, elem_of_list_to_set. done. }
  split; intros Hsub k; [rewrite <- elem_of_keys_of, <- Ht|rewrite elem_of_keys_of, Ht]; apply Hsub.
Qed.

(** One failed round, by what is left to try. *)
Lemma failed_round st tried done i d r : failed_on snap r → cands !! i = Some d →
  epoch_at st tried done → (done = true ∨ ¬ keys ⊆ dc_key d :: tried) →
  ∃ st' wait, round_end st (dc_key d) r = (rd_policy r, rd_guards r, st', Ok (Reconnect wait))
    ∧ dials snap (preferred st') (S i mod length cands) ∧ epoch_at st' (dc_key d :: tried) done.
Proof.
  intros [Hs Ha] Hi He Hleft. pose proof (next_preference _ Hnodup (rd_policy r) i d _ Hs Hi Ha) as Hnext.
  assert (negb done && bool_decide (keys ⊆ dc_key d :: tried) = false) as Hno.
  { destruct Hleft as [-> |Hl]; [done|]. rewrite bool_decide_eq_false_2 by done. apply andb_false_r. }
  unfold round_end, after_session. rewrite Hs, (record_at _ _ _ _ _ Hi He), Hno.
  destruct (rd_action r); try done; (do 2 eexists; split_and!; [done|exact Hnext|done]).
Qed.

(** The last candidate of a pass. *)
Lemma last_round st tried d i r : failed_on snap r → cands !! i = Some d →
  epoch_at st tried false → keys ⊆ dc_key d :: tried → rehydrates st (dc_key d) r.
Proof.
  intros [Hs Ha] Hi He Hall. unfold rehydrates, round_end, after_session.
  rewrite Hs, (record_at _ _ _ _ _ Hi He), bool_decide_eq_true_2 by done. cbn [negb andb].
  destruct (commit_authority_rehydration_transaction _ _ _) as [[c h] [[rv|]|e]];
    destruct (rd_action r); try done; destruct (rd_restart r); eauto 10.
Qed.

Lemma take_S_set (l : list CandidateKey) j k : l !! j = Some k →
  list_to_set (k :: take j l) = (list_to_set (take (S j) l) : gset CandidateKey).
Proof.
  intros Hk. rewrite (take_S_r _ _ _ Hk). apply set_eq. intros x.
  rewrite !elem_of_list_to_set, elem_of_app, elem_of_cons, list_elem_of_singleton. tauto.
Qed.

Lemma not_all_tried (l : list CandidateKey) j k : NoDup l → l !! j = Some k → (S j < length l)%nat → ¬ l ⊆ k :: take j l.
Proof.
  intros Hl Hk Hlt Hsub. destruct (lookup_lt_is_Some_2 _ _ Hlt) as [k' Hk'].
  assert (k' ∈ take (S j) l) as Hin.
  { rewrite (take_S_r _ _ _ Hk), elem_of_app, list_elem_of_singleton.
    pose proof (Hsub k' (list_elem_of_lookup_2 _ _ _ Hk')) as Hc. apply elem_of_cons in Hc. tauto. }
  apply list_elem_of_lookup in Hin as [m Hm]. apply lookup_take_Some in Hm as [Hm Hlt'].
  pose proof (NoDup_lookup _ _ _ _ Hl Hm Hk'). lia.
Qed.

Lemma rotate_subset i (l : list CandidateKey) : rotate i keys ⊆ l ↔ keys ⊆ l.
Proof. clear Hnodup. split; intros Hs x; specialize (Hs x); rewrite ?elem_of_rotate in *; done. Qed.

Lemma NoDup_rotate i : NoDup (rotate i keys).
Proof.
  unfold rotate. rewrite Permutation_app_comm. by rewrite take_drop.
Qed.

Lemma rotate_key i j d : (j < length cands)%nat → cands !! rotate_nat_add i j (length cands) = Some d →
  rotate i keys !! j = Some (dc_key d).
Proof.
  intros Hj Hd. unfold snapshot_keys. rewrite lookup_rotate_r by (by rewrite length_fmap).
  by rewrite length_fmap, list_lookup_fmap, Hd.
Qed.

Lemma pass_rounds i rs : Forall (failed_on snap) rs → ∀ j st, (j + length rs < length cands)%nat →
  dials snap (preferred st) (rotate_nat_add i j (length cands)) →
  epoch_at st (take j (rotate i keys)) false →
  ∃ st', quiet_rounds st rs (take (length rs) (drop j (rotate i keys))) st'
    ∧ dials snap (preferred st') (rotate_nat_add i (j + length rs) (length cands))
    ∧ epoch_at st' (take (j + length rs) (rotate i keys)) false.
Proof.
  induction 1 as [|r rs Hr _ IH]; intros j st Hlt (d & Hd & Hsel) He; cbn [length] in *.
  - exists st. rewrite Nat.add_0_r. split_and!; [constructor|by exists d|done].
  - assert (j < length cands)%nat as Hj by lia. pose proof (rotate_key i j d Hj Hd) as Hk.
    destruct (failed_round st (take j (rotate i keys)) false _ d r Hr Hd He) as (st1 & wait & Hend & Hnext & He1).
    { right. rewrite <- (rotate_subset i). apply not_all_tried; [apply NoDup_rotate|done|].
      rewrite length_rotate. unfold snapshot_keys. rewrite length_fmap. lia. }
    unfold epoch_at in He1. rewrite (take_S_set _ _ _ Hk) in He1.
    rewrite <- rotate_nat_add_S in Hnext by lia.
    destruct (IH (S j) st1) as (st' & Hq & Hd' & He'); [lia|done|done|].
    exists st'. rewrite <- Nat.add_succ_comm in *. split_and!; [|done|done].
    rewrite (drop_S _ _ _ Hk). cbn [take]. econstructor; [apply Hsel, Hr|exact Hend|exact Hq].
Qed.

Lemma settled_rounds rs : Forall (failed_on snap) rs → ∀ i tried st,
  dials snap (preferred st) i → epoch_at st tried true → ∃ ks st', quiet_rounds st rs ks st'.
Proof.
  induction 1 as [|r rs Hr _ IH]; intros i tried st (d & Hd & Hsel) He; [do 2 eexists; constructor|].
  destruct (failed_round st tried true i d r Hr Hd He (or_introl eq_refl)) as (st1 & wait & Hend & Hnext & He1).
  destruct (IH _ _ _ Hnext He1) as (ks & st' & Hq).
  do 2 eexists. econstructor; [apply Hsel, Hr|exact Hend|exact Hq].
Qed.

Lemma dials_any pref : cands ≠ [] → ∃ i, (i < length cands)%nat ∧ dials snap pref i.
Proof.
  intros Hne. destruct cands as [|d0 l] eqn:Hc; [done|]. rewrite <- Hc.
  destruct (match pref with Some key => list_find (λ d, has_key key d) cands | None => None end)
    as [[i d]|] eqn:Hf.
  - destruct pref as [key|]; [|done]. pose proof (proj1 (list_find_Some _ _ _ _) Hf) as (Hi & _).
    exists i. split; [by eapply lookup_lt_Some|]. exists d. split; [done|].
    intros c Hs. unfold select_signed_candidate. by rewrite Hs, Hf.
  - exists O. rewrite Hc. split; [cbn; lia|]. exists d0. split; [by rewrite Hc|].
    intros c Hs. unfold select_signed_candidate. rewrite Hs.
    destruct pref as [key|]; [rewrite Hf|]; cbn; by rewrite Hc.
Qed.
End Snapshot.

Lemma snapshot_nodup c : coord_ok c → NoDup (snapshot_keys (snapshot c)).
Proof.
  intros Hc. destruct (build_snapshot_keys _ _ _ _ (co_snapshot _ Hc)) as (_ & Hks & _).
  unfold snapshot_keys. rewrite Hks. apply NoDup_in_order.
Qed.

(** C36: Failover is fair and restores the authority exactly once per snapshot: starting from
    a fresh epoch, short failed sessions dial the candidates of the published snapshot in
    rotation, each one once, without touching coordinator or host, and it is the failure of
    the last candidate that runs the rehydration transaction; once the epoch is marked as
    rehydrated, no number of further failures on that snapshot runs it again. *)
Theorem failover_pass (endpoints : list LogicalEndpoint) (seeds : list SeedCandidate) (now : Z)
    (c0 : EndpointCoordinator) (s : Sys) (st : SignedLoop) (rs : list Round) (r : Round) :
  EndpointCoordinator_new endpoints seeds now = Ok c0 → reachable_from c0 s →
  let snap := snapshot (sy_coord s) in
  let keys := snapshot_keys snap in
  snapshot_generation (failure_epoch st) = generation snap →
  Forall (failed_on snap) rs → failed_on snap r →
  (failure_epoch st = SignedFailureEpoch_new (generation snap) → (length rs < length keys)%nat →
     ∃ i st', quiet_rounds st rs (take (length rs) (rotate i keys)) st'
       ∧ (S (length rs) = length keys →
          ∃ d, select_signed_candidate (rd_policy r) (preferred st') = Ok d
            ∧ rotate i keys !! length rs = Some (dc_key d) ∧ rehydrates st' (dc_key d) r))
  ∧ (rehydrated (failure_epoch st) = true → ∃ ks st', quiet_rounds st rs ks st').
Proof.
  intros Hnew Hreach snap keys Hg Hrs Hr. pose proof (so_coord _ _ (reachable_ok _ _ _ _ _ Hnew Hreach)) as Hc.
  pose proof (snapshot_nodup _ Hc) as Hnd. fold snap in Hnd.
  destruct (dials_any snap (preferred st) (snapshot_nonempty _ Hc)) as (i & Hi & Hd). split.
  - intros He Hlt. assert (length keys = length (ds_candidates snap)) as El by apply length_fmap.
    destruct (pass_rounds snap Hnd i rs Hrs O st) as (st' & Hq & (d & Hd' & Hsel) & He'); [lia| |done|].
    { by rewrite rotate_nat_add_0. }
    exists i, st'. split; [exact Hq|]. intros Hl. exists d. cbn [Nat.add] in *.
    pose proof (rotate_key snap i (length rs) d ltac:(lia) Hd') as Hk.
    split_and!; [apply Hsel, Hr|done|]. eapply last_round; [exact Hr|exact Hd'|exact He'|].
    fold keys. intros k Hin%(elem_of_rotate keys i). apply list_elem_of_lookup in Hin as [m Hm].
    pose proof (lookup_lt_Some _ _ _ Hm) as Hml. rewrite length_rotate in Hml.
    apply elem_of_cons. destruct (decide (m = length rs)) as [-> |]; [left; fold keys in Hk; congruence|right].
    apply (list_elem_of_lookup_2 _ m). apply lookup_take_Some. split; [done|lia].
  - intros Hre. apply (settled_rounds snap Hnd rs Hrs i (elements (attempted_candidates (failure_epoch st)))).
    + exact Hd.
    + unfold epoch_at. rewrite list_to_set_elements_L. destruct (failure_epoch st); cbn in *. by subst.
Qed.
End Rounds.

(** The delay before a retry never exceeds its ceiling, doubles with the streak until then
    and is not reset by further failures. *)
Lemma delay_bounds b streak : 0 ≤ base_ms b → 0 ≤ max_ms b → 0 ≤ streak →
  0 ≤ delay b streak ≤ max_ms b ∧ delay b streak ≤ delay b (streak + 1)
  ∧ (1 ≤ streak ≤ 33 → base_ms b * 2 ^ (streak - 1) ≤ max_ms b → base_ms b * 2 ^ (streak - 1) < 2 ^ 64 →
     delay b streak = base_ms b * 2 ^ (streak - 1)).
Proof.
  intros Hb Hm Hs. unfold delay, u64_saturating_mul.
  assert (∀ n, Z.shiftl 1 (Z.min n 32) = 2 ^ Z.min n 32) as Hsh.
  { intros n. destruct (Z.le_gt_cases 0 (Z.min n 32)); [by rewrite Z.shiftl_1_l|].
    rewrite Z.shiftl_1_l. done. }
  rewrite !Hsh, !(proj2 (Z.ltb_lt _ _)) by lia.
  rewrite (proj2 (Z.eqb_neq (streak + 1) 0)) by lia.
  destruct (Z.eqb_spec streak 0) as [-> |Hne].
  { change (Z.min (0 + 1 - 1) 32) with 0. change (2 ^ 0) with 1. lia. }
  assert (2 ^ Z.min (streak - 1) 32 ≤ 2 ^ Z.min (streak + 1 - 1) 32) as Hmono by (apply Z.pow_le_mono_r; lia).
  assert (0 < 2 ^ Z.min (streak - 1) 32) as Hpos by (apply Z.pow_pos_nonneg; lia).
  split_and!; [nia|nia|nia|]. intros Hr Hle Hlt. rewrite (Z.min_l (streak - 1)) by lia. lia.
Qed.

(** ** Samples *)

Module FailoverSample.
Import EndpointSample RuntimeSample.

(** Both signed addresses are published; the first one fails, then the second one. *)
Definition two_seeds : list SeedCandidate := [mkSeedCandidate 7 ip1; mkSeedCandidate 7 ip2].
Definition c2 : EndpointCoordinator := unwrap empty (EndpointCoordinator_new [sample_endpoint] two_seeds 0).
Definition s2 : Sys := mkSys c2 [].
Definition two_hosts : MemoryHost := mkMemoryHost (host_of c2) [].
Definition times : Backoff := mkBackoff 250 30000.
Definition start : SignedLoop :=
  mkSignedLoop 0 0 None (SignedFailureEpoch_new (generation (snapshot (sy_coord s2)))).
Definition failure : Round := mkRound (sy_coord s2) two_hosts BackOff false false.

Lemma new_c2 : EndpointCoordinator_new [sample_endpoint] two_seeds 0 = Ok c2.
Proof. apply unwrap_ok. by vm_compute. Qed.

Lemma reachable_s2 : reachable_from c2 s2.
Proof. apply rtc_refl. Qed.

Lemma failed_s2 : failed_on (snapshot (sy_coord s2)) failure.
Proof. split; [exact eq_refl|discriminate]. Qed.

Lemma two_keys : length (snapshot_keys (snapshot (sy_coord s2))) = 2%nat.
Proof. by vm_compute. Qed.

Lemma failover_pass_witness : ∃ i st', quiet_rounds times start [failure]
    (take 1 (rotate i (snapshot_keys (snapshot (sy_coord s2))))) st'
  ∧ ∃ d, select_signed_candidate (sy_coord s2) (preferred st') = Ok d ∧ rehydrates times st' (dc_key d) failure.
Proof.
  assert (1 < length (snapshot_keys (snapshot (sy_coord s2))))%nat as Hlt by (rewrite two_keys; lia).
  destruct (proj1 (failover_pass times [sample_endpoint] two_seeds 0 c2 s2 start [failure] failure
    new_c2 reachable_s2 eq_refl (Forall_cons_2 _ _ _ failed_s2 (Forall_nil_2 _)) failed_s2) eq_refl Hlt)
    as (i & st' & Hq & Hlast).
  exists i, st'. split; [exact Hq|]. destruct (Hlast (eq_sym two_keys)) as (d & Hd & _ & Hr).
  exists d. split; [exact Hd|exact Hr].
Defined.
End FailoverSample.
