(* ===== verification/ClientAuth.v ===== *)
(** * Client authorisation: credentials, the allowlist and the proofs

    Models [shadowpipe-core/src/client_auth.rs] without its files: the messages that are
    signed and authenticated, the four fixed-width proofs with their encodings, the client's
    credential and the server's allowlist.  SHA-256, HMAC and Ed25519 are parameters.  The
    constant-time scan of the allowlist and the binary search are shown to find exactly the
    entry of a key identifier, and the exact conditions under which each proof is accepted
    are given. *)

From S2P Require Import Prelude PolicyPlan Wire.

(** [BUILD_MAGIC] is generated by the build; it is a [u32]. *)
Class BuildConfig := { BUILD_MAGIC : Z; BUILD_MAGIC_u32 : is_u 32 BUILD_MAGIC }.

(** [sha2] and [ring]: SHA-256, HMAC-SHA-256 (key, message), and Ed25519 from a seed. *)
Class AuthCrypto := {
  hs_sha256 : bytes → bytes;
  hmac : bytes → bytes → bytes;
  hmac_verify : bytes → bytes → bytes → bool;
  ed25519_public : bytes → bytes;
  ed25519_sign : bytes → bytes → bytes;
  ed25519_verify : bytes → bytes → bytes → bool;
}.

(** Output lengths; a tag is verified by computing it again; a signature verifies. *)
Class AuthCryptoLaws (C : AuthCrypto) := {
  hs_sha256_length m : len (hs_sha256 m) = 32;
  hmac_length k m : len (hmac k m) = 32;
  hmac_verify_iff k m t : hmac_verify k m t = true ↔ t = hmac k m;
  ed25519_public_length s : len (ed25519_public s) = 32;
  ed25519_sign_length s m : len (ed25519_sign s m) = 64;
  ed25519_sign_verify s m : ed25519_verify (ed25519_public s) m (ed25519_sign s m) = true;
}.

Inductive AuthError :=
| AuthFailed
| RngFailed
| BadLength
| BadAllowlist.

Definition PROTO_VERSION : Z := 3.
Definition CLIENT_KEY_ID_LEN : Z := 16.
Definition CLIENT_PUBLIC_KEY_LEN : Z := 32.
Definition CLIENT_PSK_LEN : Z := 32.
Definition CLIENT_SIGNATURE_LEN : Z := 64.
Definition CLIENT_MAC_LEN : Z := 32.
Definition SERVER_ACCESS_CHALLENGE_LEN : Z := 32.
Definition CLIENT_ACCESS_NONCE_LEN : Z := 32.
Definition CLIENT_ACCESS_HELLO_LEN : Z := CLIENT_KEY_ID_LEN.
Definition SERVER_ACCESS_PROOF_LEN : Z := SERVER_ACCESS_CHALLENGE_LEN + CLIENT_MAC_LEN.
Definition CLIENT_ACCESS_PROOF_LEN : Z := CLIENT_ACCESS_NONCE_LEN + CLIENT_MAC_LEN.
Definition CLIENT_FINISHED_LEN : Z := 1 + CLIENT_KEY_ID_LEN + CLIENT_SIGNATURE_LEN + CLIENT_MAC_LEN.
Definition SERVER_FINISHED_LEN : Z := 1 + CLIENT_MAC_LEN.
Definition MAX_AUTHORIZED_CLIENTS : Z := 256.
Definition CLIENT_FINISHED_FORMAT : Z := 1.
Definition SERVER_FINISHED_FORMAT : Z := 1.

(** A byte-string literal with a final NUL. *)
Definition nul_terminated (s : string) : bytes := String.list_byte_of_string s ++ [Byte.x00].

Definition CLIENT_KEY_ID_DOMAIN : bytes := nul_terminated "shadowpipe-client-key-id-v3".
Definition SERVER_ACCESS_PROOF_DOMAIN : bytes := nul_terminated "shadowpipe-v3/server-access-proof".
Definition CLIENT_ACCESS_PROOF_DOMAIN : bytes := nul_terminated "shadowpipe-v3/client-access-proof".
Definition CLIENT_PROOF_DOMAIN : bytes := nul_terminated "shadowpipe-v3/client-finished-proof".
Definition SERVER_PROOF_DOMAIN : bytes := nul_terminated "shadowpipe-v3/server-finished-proof".
Definition DUMMY_ED25519_PUBLIC_KEY : bytes := bz <$>
  [0xd7; 0x5a; 0x98; 0x01; 0x82; 0xb1; 0x0a; 0xb7; 0xd5; 0x4b; 0xfe; 0xd3; 0xc9; 0x64; 0x07; 0x3a;
   0x0e; 0xe1; 0x72; 0xf3; 0xda; 0xa6; 0x23; 0x25; 0xaf; 0x02; 0x1a; 0x68; 0xf7; 0x07; 0x51; 0x1a].

Section ClientAuth.
Context {Cr : AuthCrypto} {Bu : BuildConfig}.

(** ** What is authenticated *)

Definition derive_key_id (public_key : bytes) : bytes :=
  take (Z.to_nat CLIENT_KEY_ID_LEN) (hs_sha256 (CLIENT_KEY_ID_DOMAIN ++ public_key)).

Definition proof_message (domain : bytes) (format : Z) (key_id transcript : bytes) : bytes :=
  domain ++ [bz format] ++ key_id ++ transcript.

Definition client_proof_message (key_id transcript : bytes) : bytes :=
  proof_message CLIENT_PROOF_DOMAIN CLIENT_FINISHED_FORMAT key_id transcript.

Definition server_access_proof_message_with_magic (build_magic : Z) (challenge key_id : bytes)
    (camouflage : CamouflageMode) (carrier_binding : CarrierBinding) : bytes :=
  SERVER_ACCESS_PROOF_DOMAIN ++ [bz PROTO_VERSION] ++ be_bytes 4 build_magic
    ++ [bz (CamouflageMode_repr camouflage)] ++ [bz (CarrierBinding_repr carrier_binding)]
    ++ key_id ++ challenge.

Definition server_access_proof_message (challenge key_id : bytes) (camouflage : CamouflageMode)
    (carrier_binding : CarrierBinding) : bytes :=
  server_access_proof_message_with_magic BUILD_MAGIC challenge key_id camouflage carrier_binding.

Definition client_access_proof_message_with_magic (build_magic : Z)
    (challenge server_mac key_id client_nonce : bytes)
    (camouflage : CamouflageMode) (carrier_binding : CarrierBinding) : bytes :=
  CLIENT_ACCESS_PROOF_DOMAIN ++ [bz PROTO_VERSION] ++ be_bytes 4 build_magic
    ++ [bz (CamouflageMode_repr camouflage)] ++ [bz (CarrierBinding_repr carrier_binding)]
    ++ key_id ++ challenge ++ server_mac ++ client_nonce.

Definition client_access_proof_message (challenge server_mac key_id client_nonce : bytes)
    (camouflage : CamouflageMode) (carrier_binding : CarrierBinding) : bytes :=
  client_access_proof_message_with_magic BUILD_MAGIC challenge server_mac key_id client_nonce
    camouflage carrier_binding.

Definition server_proof_message (key_id transcript client_finished : bytes) : bytes :=
  proof_message SERVER_PROOF_DOMAIN SERVER_FINISHED_FORMAT key_id transcript ++ client_finished.

(** ** The proofs and their encodings *)

Record ServerAccessProof := mkServerAccessProof { sap_challenge : bytes; sap_psk_mac : bytes }.
Record ClientAccessProof := mkClientAccessProof { cap_client_nonce : bytes; cap_psk_mac : bytes }.
Record ClientFinished := mkClientFinished {
  cf_key_id : bytes;
  cf_signature : bytes;
  cf_psk_mac : bytes;
}.
Record ServerFinished := mkServerFinished { sf_psk_mac : bytes }.

(** [&b[from..to]] *)
Definition slice (from to : Z) (b : bytes) : bytes :=
  take (Z.to_nat (to - from)) (drop (Z.to_nat from) b).

Definition ServerAccessProof_encode (p : ServerAccessProof) : bytes :=
  sap_challenge p ++ sap_psk_mac p.

Definition ServerAccessProof_decode (encoded : bytes) : result AuthError ServerAccessProof :=
  if negb (len encoded =? SERVER_ACCESS_PROOF_LEN) then Err AuthFailed else
  Ok (mkServerAccessProof (slice 0 SERVER_ACCESS_CHALLENGE_LEN encoded)
        (slice SERVER_ACCESS_CHALLENGE_LEN (len encoded) encoded)).

Definition ClientAccessProof_encode (p : ClientAccessProof) : bytes :=
  cap_client_nonce p ++ cap_psk_mac p.

Definition ClientAccessProof_decode (encoded : bytes) : result AuthError ClientAccessProof :=
  if negb (len encoded =? CLIENT_ACCESS_PROOF_LEN) then Err AuthFailed else
  Ok (mkClientAccessProof (slice 0 CLIENT_ACCESS_NONCE_LEN encoded)
        (slice CLIENT_ACCESS_NONCE_LEN (len encoded) encoded)).

(** [encoded[0] != format], of an array that is known not to be empty. *)
Definition first_is_not (format : Z) (encoded : bytes) : bool :=
  match encoded with [] => true | b :: _ => negb (bv b =? format) end.

Definition ClientFinished_encode (f : ClientFinished) : bytes :=
  [bz CLIENT_FINISHED_FORMAT] ++ cf_key_id f ++ cf_signature f ++ cf_psk_mac f.

Definition ClientFinished_decode (encoded : bytes) : result AuthError ClientFinished :=
  if negb (len encoded =? CLIENT_FINISHED_LEN) || first_is_not CLIENT_FINISHED_FORMAT encoded
  then Err AuthFailed else
  let kid_end := 1 + CLIENT_KEY_ID_LEN in
  let signature_end := kid_end + CLIENT_SIGNATURE_LEN in
  Ok (mkClientFinished (slice 1 kid_end encoded) (slice kid_end signature_end encoded)
        (slice signature_end (len encoded) encoded)).

Definition ServerFinished_encode (f : ServerFinished) : bytes :=
  [bz SERVER_FINISHED_FORMAT] ++ sf_psk_mac f.

Definition ServerFinished_decode (encoded : bytes) : result AuthError ServerFinished :=
  if negb (len encoded =? SERVER_FINISHED_LEN) || first_is_not SERVER_FINISHED_FORMAT encoded
  then Err AuthFailed else
  Ok (mkServerFinished (slice 1 (len encoded) encoded)).

(** ** The client's credential *)

Record ClientCredential := mkClientCredential {
  cc_seed : bytes;
  cc_public_key : bytes;
  cc_psk : bytes;
  cc_key_id : bytes;
}.

Definition ClientCredential_from_parts (seed psk : bytes) : result AuthError ClientCredential :=
  let public_key := ed25519_public seed in
  if negb (len public_key =? CLIENT_PUBLIC_KEY_LEN) then Err BadLength else
  Ok (mkClientCredential seed public_key psk (derive_key_id public_key)).

(** [nonce] is what the system's generator delivers, [None] when it fails. *)
Definition verify_server_access_and_prove (c : ClientCredential) (nonce : option bytes)
    (server_proof : ServerAccessProof) (claimed_camouflage : CamouflageMode)
    (claimed_carrier : CarrierBinding) : result AuthError ClientAccessProof :=
  let server_message := server_access_proof_message (sap_challenge server_proof) (cc_key_id c)
                          claimed_camouflage claimed_carrier in
  if negb (hmac_verify (cc_psk c) server_message (sap_psk_mac server_proof))
  then Err AuthFailed else
  client_nonce ← ok_or nonce RngFailed;
  let message := client_access_proof_message (sap_challenge server_proof)
                   (sap_psk_mac server_proof) (cc_key_id c) client_nonce claimed_camouflage
                   claimed_carrier in
  Ok (mkClientAccessProof client_nonce (hmac (cc_psk c) message)).

Definition sign_finished (c : ClientCredential) (transcript : bytes)
  : result AuthError ClientFinished :=
  let message := client_proof_message (cc_key_id c) transcript in
  let signature := ed25519_sign (cc_seed c) message in
  if negb (len signature =? CLIENT_SIGNATURE_LEN) then Err BadLength else
  Ok (mkClientFinished (cc_key_id c) signature (hmac (cc_psk c) message)).

Definition verify_server_finished (c : ClientCredential) (transcript client_finished : bytes)
    (server_finished : ServerFinished) : result AuthError () :=
  let message := server_proof_message (cc_key_id c) transcript client_finished in
  if hmac_verify (cc_psk c) message (sf_psk_mac server_finished) then Ok () else Err AuthFailed.

(** ** The server's allowlist *)

Record AuthorizedClient := mkAuthorizedClient {
  ac_key_id : bytes;
  ac_public_key : bytes;
  ac_psk : bytes;
}.
Record AuthorizedClients := mkAuthorizedClients { entries : list AuthorizedClient }.
Record VerifiedClient := mkVerifiedClient { vc_key_id : bytes; vc_psk : bytes }.
Record PendingClientAccess := mkPendingClientAccess {
  pa_key_id : bytes;
  pa_psk : bytes;
  pa_authorized : bool;
}.

Definition PendingClientAccess_verify (p : PendingClientAccess) (server_proof : ServerAccessProof)
    (observed_camouflage : CamouflageMode) (observed_carrier : CarrierBinding)
    (proof : ClientAccessProof) : result AuthError bytes :=
  let message := client_access_proof_message (sap_challenge server_proof)
                   (sap_psk_mac server_proof) (pa_key_id p) (cap_client_nonce proof)
                   observed_camouflage observed_carrier in
  let mac_valid := hmac_verify (pa_psk p) message (cap_psk_mac proof) in
  if pa_authorized p && mac_valid then Ok (pa_key_id p) else Err AuthFailed.

(** [sort_unstable_by_key]; the keys are distinct when the result is used. *)
Definition key_id_le (a b : AuthorizedClient) : Prop :=
  bytes_leb (ac_key_id a) (ac_key_id b) = true.
#[export] Instance key_id_le_dec a b : Decision (key_id_le a b).
Proof. unfold key_id_le. apply _. Defined.

(** [windows(2)] with an equal pair *)
Fixpoint any_equal_window (l : list AuthorizedClient) : bool :=
  match l with
  | a :: ((b :: _) as l) => bool_decide (ac_key_id a = ac_key_id b) || any_equal_window l
  | _ => false
  end.

Definition from_entries (l : list AuthorizedClient) : result AuthError AuthorizedClients :=
  if bool_decide (l = []) || (MAX_AUTHORIZED_CLIENTS <? len l) then Err BadAllowlist else
  let l := merge_sort key_id_le l in
  if any_equal_window l then Err BadAllowlist else Ok (mkAuthorizedClients l).

Definition enrolled (c : ClientCredential) : AuthorizedClient :=
  mkAuthorizedClient (cc_key_id c) (cc_public_key c) (cc_psk c).
Definition from_credentials (l : list ClientCredential) : result AuthError AuthorizedClients :=
  from_entries (enrolled <$> l).

(** The scan over all entries: [conditional_select] byte by byte, [authorized |= matches]. *)
Definition scan_entry (key_id : bytes) (acc : bytes * bool) (entry : AuthorizedClient)
  : bytes * bool :=
  let matches := ct_eq (ac_key_id entry) key_id in
  (zip_with (λ selected candidate, if matches then candidate else selected) acc.1 (ac_psk entry),
   acc.2 || matches).

(** [dummy] is the random key drawn first, [None] when the generator fails. *)
Definition begin_access (a : AuthorizedClients) (dummy : option bytes) (key_id challenge : bytes)
    (observed_camouflage : CamouflageMode) (observed_carrier : CarrierBinding)
  : result AuthError (ServerAccessProof * PendingClientAccess) :=
  psk ← ok_or dummy RngFailed;
  let '(psk, authorized) := foldl (scan_entry key_id) (psk, false) (entries a) in
  let message := server_access_proof_message challenge key_id observed_camouflage
                   observed_carrier in
  Ok (mkServerAccessProof challenge (hmac psk message),
      mkPendingClientAccess key_id psk authorized).

(** [slice::binary_search_by_key]: [base] and [size] as in the standard library. *)
Fixpoint binary_search_loop (fuel : nat) (key : bytes) (l : list AuthorizedClient)
    (base size : nat) : nat :=
  match fuel with
  | O => base
  | S fuel =>
      if (size <=? 1)%nat then base else
      let half := (size / 2)%nat in
      let mid := (base + half)%nat in
      let base := match l !! mid with
                  | Some e => match bytes_cmp (ac_key_id e) key with Gt => base | _ => mid end
                  | None => base
                  end in
      binary_search_loop fuel key l base (size - half)%nat
  end.

Definition binary_search_by_key (key : bytes) (l : list AuthorizedClient) : option nat :=
  let base := binary_search_loop (length l) key l 0 (length l) in
  e ← l !! base;
  if bool_decide (bytes_cmp (ac_key_id e) key = Eq) then Some base else None.

Definition verify_finished_for_key (a : AuthorizedClients) (transcript : bytes)
    (finished : ClientFinished) (access_key_id : bytes) : result AuthError VerifiedClient :=
  let index := binary_search_by_key (cf_key_id finished) (entries a) in
  let entry := index ≫= λ i, entries a !! i in
  let '(public_key, psk) := match entry with
    | Some e => (ac_public_key e, ac_psk e)
    | None => (DUMMY_ED25519_PUBLIC_KEY, zero_array 32)
    end in
  let message := client_proof_message (cf_key_id finished) transcript in
  let signature_valid := ed25519_verify public_key message (cf_signature finished) in
  let mac_valid := hmac_verify psk message (cf_psk_mac finished) in
  let same_access_identity := ct_eq (cf_key_id finished) access_key_id in
  match entry, signature_valid, mac_valid, same_access_identity with
  | Some e, true, true, true => Ok (mkVerifiedClient (cf_key_id finished) (ac_psk e))
  | _, _, _, _ => Err AuthFailed
  end.

Definition make_server_finished (verified : VerifiedClient) (transcript client_finished : bytes)
  : ServerFinished :=
  let message := server_proof_message (vc_key_id verified) transcript client_finished in
  mkServerFinished (hmac (vc_psk verified) message).

End ClientAuth.

(** ** Finding an entry *)

(** Key identifiers in strict order, and arrays of their types' widths. *)
Record entry_wf (e : AuthorizedClient) : Prop := {
  ew_key_id : len (ac_key_id e) = CLIENT_KEY_ID_LEN;
  ew_public_key : len (ac_public_key e) = CLIENT_PUBLIC_KEY_LEN;
  ew_psk : len (ac_psk e) = CLIENT_PSK_LEN;
}.
Record allowlist_wf (a : AuthorizedClients) : Prop := {
  aw_sorted : Sorted bytes_lt (ac_key_id <$> entries a);
  aw_entries : Forall entry_wf (entries a);
}.

Lemma key_ids_unique a e e' : allowlist_wf a → e ∈ entries a → e' ∈ entries a →
  ac_key_id e = ac_key_id e' → e = e'.
Proof.
  intros [Hs _] He He' Heq. apply Sorted_bytes_NoDup in Hs.
  apply list_elem_of_lookup in He as [i Hi], He' as [j Hj].
  enough (i = j) as -> by congruence.
  apply (NoDup_lookup _ _ _ (ac_key_id e) Hs); rewrite list_lookup_fmap; [by rewrite Hi|].
  rewrite Hj. simpl. by rewrite Heq.
Qed.

Lemma sorted_lookup_lt (l : list bytes) i j x y : Sorted bytes_lt l → (i < j)%nat →
  l !! i = Some x → l !! j = Some y → bytes_lt x y.
Proof.
  intros Hs Hij Hx Hy. apply Sorted_StronglySorted in Hs; [|intros a b c; apply bytes_lt_trans].
  revert i j Hij Hx Hy. induction Hs as [|a l Hs IH Hf]; intros i j Hij Hx Hy; [done|].
  destruct i as [|i], j as [|j]; simplify_eq/=; try lia.
  - rewrite Forall_forall in Hf. apply Hf. by eapply list_elem_of_lookup_2.
  - eapply (IH i j); [lia|done..].
Qed.

(** The loop keeps the wanted index inside [base, base + size). *)
Lemma binary_search_loop_spec l key i e : Sorted bytes_lt (ac_key_id <$> l) →
  l !! i = Some e → ac_key_id e = key → ∀ fuel base size,
  (size ≤ S fuel)%nat → (base ≤ i < base + size)%nat → (base + size ≤ length l)%nat →
  binary_search_loop fuel key l base size = i.
Proof.
  intros Hs Hi Hk. induction fuel as [|fuel IH]; intros base size Hf Hb Hl; cbn [binary_search_loop]; [lia|].
  destruct (Nat.leb_spec size 1); [lia|].
  assert (1 ≤ size / 2 < size)%nat as Hh
    by (split; [apply Nat.div_le_lower_bound; lia|apply Nat.div_lt; lia]).
  pose proof (Nat.Div0.mul_div_le size 2).
  set (half := (size / 2)%nat) in *.
  destruct (lookup_lt_is_Some_2 l (base + half)) as [m Hm]; [lia|]. rewrite Hm.
  assert (∀ j, l !! j = Some m → match bytes_cmp (ac_key_id m) key with
    | Gt => (i < j)%nat | Eq => i = j | Lt => (j < i)%nat end) as Hcmp.
  { intros j Hj. destruct (Nat.lt_trichotomy i j) as [Hij|[->|Hij]].
    - enough (bytes_cmp (ac_key_id m) key = Gt) as -> by done.
      rewrite bytes_cmp_antisym, <- Hk. replace (bytes_cmp (ac_key_id e) (ac_key_id m)) with Lt; [done|].
      symmetry. eapply (sorted_lookup_lt _ i j); [done..| |]; rewrite list_lookup_fmap; [by rewrite Hi|by rewrite Hj].
    - assert (m = e) as -> by congruence. by rewrite (proj2 (bytes_cmp_eq _ _) Hk).
    - enough (bytes_cmp (ac_key_id m) key = Lt) as -> by done. rewrite <- Hk.
      eapply (sorted_lookup_lt _ j i); [done..| |]; rewrite list_lookup_fmap; [by rewrite Hj|by rewrite Hi]. }
  specialize (Hcmp _ Hm). destruct (bytes_cmp (ac_key_id m) key); apply IH; lia.
Qed.

Lemma binary_search_by_key_Some key l i : Sorted bytes_lt (ac_key_id <$> l) →
  binary_search_by_key key l = Some i ↔ ∃ e, l !! i = Some e ∧ ac_key_id e = key.
Proof.
  intros Hs. unfold binary_search_by_key. split.
  - intros (e & He & H)%bind_Some. case_bool_decide as Hc; [|done]. injection H as <-.
    exists e. by rewrite <- bytes_cmp_eq.
  - intros (e & Hi & Hk). pose proof (lookup_lt_Some _ _ _ Hi).
    rewrite (binary_search_loop_spec l key i e Hs Hi Hk) by lia.
    rewrite Hi. cbn. rewrite bool_decide_true; [done|]. by apply bytes_cmp_eq.
Qed.

Lemma zip_with_select {X} (c : bool) (a b : list X) : length a = length b →
  zip_with (λ s t, if c then t else s) a b = if c then b else a.
Proof.
  revert b; induction a as [|x a IH]; intros [|y b] Hl; try done; [by destruct c|].
  simpl. injection Hl as Hl. rewrite IH by done. by destruct c.
Qed.

Definition find_entry (key_id : bytes) (l : list AuthorizedClient) : option AuthorizedClient :=
  snd <$> list_find (λ e, ac_key_id e = key_id) l.

Lemma find_entry_Some a kid e : allowlist_wf a →
  find_entry kid (entries a) = Some e ↔ e ∈ entries a ∧ ac_key_id e = kid.
Proof.
  intros Hwf. unfold find_entry. split.
  - intros ([i e'] & (Hi & Hk & _)%list_find_Some & ->)%fmap_Some. simpl.
    split; [by eapply list_elem_of_lookup_2|done].
  - intros [He Hk]. destruct (list_find _ _) as [[i e']|] eqn:Hf; cbn; [f_equal|].
    2:{ rewrite list_find_None, Forall_forall in Hf. by destruct (Hf e He). }
    apply list_find_Some in Hf as (Hi & Hk' & _).
    apply (key_ids_unique a); [done|by eapply list_elem_of_lookup_2|done|congruence].
Qed.

Lemma find_entry_None kid l : find_entry kid l = None ↔ ∀ e, e ∈ l → ac_key_id e ≠ kid.
Proof.
  unfold find_entry. rewrite fmap_None, list_find_None, Forall_forall. done.
Qed.

(** The scan keeps the dummy key or takes the key of the one entry that matches. *)
Lemma scan_spec kid l : ∀ psk b, Sorted bytes_lt (ac_key_id <$> l) → Forall entry_wf l →
  len psk = CLIENT_PSK_LEN →
  foldl (scan_entry kid) (psk, b) l
  = match find_entry kid l with Some e => (ac_psk e, true) | None => (psk, b) end.
Proof.
  induction l as [|e l IH]; intros psk b Hs Hw Hl; [done|]. cbn [foldl].
  apply Forall_cons in Hw as [He Hw]. cbn in Hs. pose proof Hs as Hs0.
  apply Sorted_inv in Hs as [Hs _].
  unfold scan_entry at 2. cbn [fst snd].
  rewrite zip_with_select by (destruct He; unfold len in *; lia).
  rewrite IH; [|done..|by destruct (ct_eq _ _); [destruct He|]].
  unfold find_entry. cbn [list_find]. destruct (decide (ac_key_id e = kid)) as [Hk|Hk].
  - rewrite (proj2 (ct_eq_spec _ _) Hk), orb_true_r. cbn.
    fold (find_entry kid l). rewrite (proj2 (find_entry_None kid l)); [done|].
    intros e' He' Hk'. apply Sorted_bytes_NoDup, NoDup_cons in Hs0 as [Hn _].
    apply Hn. rewrite Hk, <- Hk'. by apply list_elem_of_fmap_2.
  - replace (ct_eq (ac_key_id e) kid) with false
      by (symmetry; apply not_true_iff_false; by rewrite ct_eq_spec).
    rewrite orb_false_r. destruct (list_find _ l) as [[i e']|]; done.
Qed.

(** ** Slices and concatenations of known widths *)

Lemma slice_app (a m c : bytes) i j : i = len a → j = len a + len m →
  slice i j (a ++ m ++ c) = m.
Proof.
  intros -> ->. unfold slice, len. replace (Z.of_nat (length a) + _ - _) with (Z.of_nat (length m)) by lia.
  by rewrite !Nat2Z.id, drop_app_length, take_app_length.
Qed.

Lemma slice_rest (a m : bytes) i j : i = len a → j = len a + len m → slice i j (a ++ m) = m.
Proof. intros. rewrite <- (app_nil_r (a ++ m)), <- app_assoc. by apply slice_app. Qed.

Lemma len_slice i j (b : bytes) : 0 ≤ i ≤ j → j ≤ len b → len (slice i j b) = j - i.
Proof. intros. unfold slice, len in *. rewrite length_take, length_drop. lia. Qed.

Lemma slice_join i j k (b : bytes) : 0 ≤ i ≤ j → j ≤ k → slice i j b ++ slice j k b = slice i k b.
Proof.
  intros. unfold slice. replace (Z.to_nat j) with (Z.to_nat i + Z.to_nat (j - i))%nat by lia.
  rewrite <- drop_drop. rewrite take_take_drop. f_equal. lia.
Qed.

Lemma slice_full (b : bytes) : slice 0 (len b) b = b.
Proof. unfold slice, len. rewrite Z.sub_0_r, Nat2Z.id. apply firstn_all. Qed.

Lemma app_inj_len {X} (a b c d : list X) : len a = len c → a ++ b = c ++ d → a = c ∧ b = d.
Proof. intros. apply app_inj_1; [unfold len in *; lia|done]. Qed.

(** Takes equal concatenations apart, from the left. *)
Ltac split_apps H :=
  repeat match type of H with
  | ?a ++ ?b = ?c ++ ?d =>
      let E := fresh "E" in
      apply app_inj_len in H as [E H]; [|solve [rewrite ?len_be_bytes; lia || congruence || done]]
  end.

Lemma byte_of_enum_inj x y : 0 ≤ x < 256 → 0 ≤ y < 256 → [bz x] = [bz y] → x = y.
Proof. intros Hx Hy [= H%(f_equal bv)]. by rewrite !bv_bz_small in H. Qed.

Lemma CamouflageMode_repr_inj x y :
  [bz (CamouflageMode_repr x)] = [bz (CamouflageMode_repr y)] → x = y.
Proof. by destruct x, y. Qed.
Lemma CarrierBinding_repr_inj x y :
  [bz (CarrierBinding_repr x)] = [bz (CarrierBinding_repr y)] → x = y.
Proof. by destruct x, y. Qed.
Lemma PaddingProfile_repr_inj x y :
  [bz (PaddingProfile_repr x)] = [bz (PaddingProfile_repr y)] → x = y.
Proof. by destruct x, y. Qed.

(** Recovers the values behind equal encodings. *)
Ltac settle_fields :=
  repeat match goal with
  | E : be_bytes _ _ = be_bytes _ _ |- _ => apply be_bytes_inj in E; [|assumption..]
  | E : [bz (CamouflageMode_repr _)] = _ |- _ => apply CamouflageMode_repr_inj in E
  | E : [bz (CarrierBinding_repr _)] = _ |- _ => apply CarrierBinding_repr_inj in E
  | E : [bz (PaddingProfile_repr _)] = _ |- _ => apply PaddingProfile_repr_inj in E
  end.

(** Arithmetic on the widths of the source. *)
Ltac widths :=
  unfold SERVER_ACCESS_PROOF_LEN, CLIENT_ACCESS_PROOF_LEN, CLIENT_FINISHED_LEN,
    SERVER_FINISHED_LEN, SERVER_ACCESS_CHALLENGE_LEN, CLIENT_ACCESS_NONCE_LEN,
    CLIENT_KEY_ID_LEN, CLIENT_SIGNATURE_LEN, CLIENT_MAC_LEN in *;
  autorewrite with shadowpipe in *; lia.

(** ** Proof encodings *)

Lemma ServerAccessProof_decode_Ok b p :
  ServerAccessProof_decode b = Ok p ↔
  len (sap_challenge p) = 32 ∧ len (sap_psk_mac p) = 32 ∧ b = ServerAccessProof_encode p.
Proof.
  unfold ServerAccessProof_decode, ServerAccessProof_encode.
  rewrite if_err_Ok, negb_false_iff, Z.eqb_eq. split.
  - intros [Hl [= <-]]. cbn. rewrite !len_slice, slice_join, slice_full by widths.
    split_and!; [widths..|done].
  - destruct p as [c m]. cbn. intros (Hc & Hm & ->). split; [widths|].
    by rewrite (slice_app [] c m), slice_rest by widths.
Qed.

Lemma ClientAccessProof_decode_Ok b p :
  ClientAccessProof_decode b = Ok p ↔
  len (cap_client_nonce p) = 32 ∧ len (cap_psk_mac p) = 32 ∧ b = ClientAccessProof_encode p.
Proof.
  unfold ClientAccessProof_decode, ClientAccessProof_encode.
  rewrite if_err_Ok, negb_false_iff, Z.eqb_eq. split.
  - intros [Hl [= <-]]. cbn. rewrite !len_slice, slice_join, slice_full by widths.
    split_and!; [widths..|done].
  - destruct p as [c m]. cbn. intros (Hc & Hm & ->). split; [widths|].
    by rewrite (slice_app [] c m), slice_rest by widths.
Qed.

Lemma first_is_not_false f b : 0 ≤ f < 256 → first_is_not f b = false ↔ ∃ r, b = [bz f] ++ r.
Proof.
  intros Hf. unfold first_is_not. destruct b as [|x b].
  - split; [done|]. by intros [? ?].
  - rewrite negb_false_iff, Z.eqb_eq. split.
    + intros <-. exists b. by rewrite bz_bv.
    + intros [r [= -> ->]]. by apply bv_bz_small.
Qed.

Lemma ClientFinished_decode_Ok b f :
  ClientFinished_decode b = Ok f ↔
  len (cf_key_id f) = 16 ∧ len (cf_signature f) = 64 ∧ len (cf_psk_mac f) = 32
  ∧ b = ClientFinished_encode f.
Proof.
  unfold ClientFinished_decode, ClientFinished_encode.
  rewrite if_err_Ok, orb_false_iff, negb_false_iff, Z.eqb_eq, first_is_not_false by done. split.
  - intros [[Hl [r ->]] [= <-]]. cbn [cf_key_id cf_signature cf_psk_mac].
    rewrite !len_slice, !slice_join, (slice_rest [bz CLIENT_FINISHED_FORMAT] r) by widths. split_and!; [widths..|done].
  - destruct f as [k s m]. cbn [cf_key_id cf_signature cf_psk_mac]. intros (Hk & Hs & Hm & ->).
    split; [split; [widths|by eexists]|].
    rewrite slice_app by widths. rewrite (app_assoc [_] k), slice_app by widths.
    by rewrite (app_assoc _ s), slice_rest by widths.
Qed.

Lemma ServerFinished_decode_Ok b f :
  ServerFinished_decode b = Ok f ↔ len (sf_psk_mac f) = 32 ∧ b = ServerFinished_encode f.
Proof.
  unfold ServerFinished_decode, ServerFinished_encode.
  rewrite if_err_Ok, orb_false_iff, negb_false_iff, Z.eqb_eq, first_is_not_false by done. split.
  - intros [[Hl [r ->]] [= <-]]. cbn [sf_psk_mac].
    rewrite len_slice, (slice_rest [bz SERVER_FINISHED_FORMAT] r) by widths. split; [widths|done].
  - destruct f as [m]. cbn [sf_psk_mac]. intros (Hm & ->).
    split; [split; [widths|by eexists]|]. by rewrite slice_rest by widths.
Qed.

(** ** The allowlist *)

Lemma any_equal_window_false l : Sorted key_id_le l →
  any_equal_window l = false → Sorted bytes_lt (ac_key_id <$> l).
Proof.
  induction 1 as [|a l Hs IH Hh]; [by constructor|]. intros Hw.
  destruct l as [|b l]; [by repeat constructor|]. cbn [any_equal_window] in Hw.
  apply orb_false_iff in Hw as [Hne%bool_decide_eq_false Hw].
  constructor; [by apply IH|]. constructor. apply HdRel_inv in Hh.
  unfold key_id_le, bytes_leb in Hh. unfold bytes_lt.
  destruct (bytes_cmp _ _) eqn:Hc; [|done..]. by apply bytes_cmp_eq in Hc.
Qed.

#[export] Instance key_id_le_total : Total key_id_le.
Proof.
  intros a b. unfold key_id_le, bytes_leb. rewrite (bytes_cmp_antisym (ac_key_id a)).
  destruct (bytes_cmp _ _); auto.
Qed.

(** Building the allowlist keeps exactly the given entries, in order. *)
Lemma from_entries_Ok l a : from_entries l = Ok a → Forall entry_wf l →
  allowlist_wf a ∧ entries a ≡ₚ l ∧ 1 ≤ len (entries a) ≤ MAX_AUTHORIZED_CLIENTS.
Proof.
  unfold from_entries. intros [Hb H]%if_err_Ok Hw. apply if_err_Ok in H as [Hd [= <-]].
  apply orb_false_iff in Hb as [Hne%bool_decide_eq_false Hm%Z.ltb_ge]. cbn [entries].
  pose proof (merge_sort_Permutation key_id_le l) as Hp. split_and!; [split|done|..].
  - apply any_equal_window_false; [apply Sorted_merge_sort, _|done].
  - cbn. by rewrite Hp.
  - unfold len. rewrite Hp. destruct l; [done|]. cbn. lia.
  - unfold len in *. by rewrite Hp.
Qed.

Section Theory.
Context {Cr : AuthCrypto} {CL : AuthCryptoLaws Cr} {Bu : BuildConfig}.

(** Key and tag with which the server answers an access request: the entry's key, or the
    dummy when there is none. *)
Definition access_psk (a : AuthorizedClients) (dummy key_id : bytes) : bytes :=
  match find_entry key_id (entries a) with Some e => ac_psk e | None => dummy end.

Lemma begin_access_Ok a dummy kid ch cam car sp pend : allowlist_wf a →
  len dummy = CLIENT_PSK_LEN →
  begin_access a (Some dummy) kid ch cam car = Ok (sp, pend) ↔
  sp = mkServerAccessProof ch
         (hmac (access_psk a dummy kid) (server_access_proof_message ch kid cam car))
  ∧ pend = mkPendingClientAccess kid (access_psk a dummy kid)
             (bool_decide (is_Some (find_entry kid (entries a)))).
Proof.
  intros [Hs Hw] Hd. unfold begin_access, access_psk. cbn.
  rewrite scan_spec by done. destruct (find_entry kid (entries a)); naive_solver.
Qed.

(** The tag the server expects in answer to its challenge. *)
Definition access_tag (psk : bytes) (sp : ServerAccessProof) (kid nonce : bytes)
    (cam : CamouflageMode) (car : CarrierBinding) : bytes :=
  hmac psk (client_access_proof_message (sap_challenge sp) (sap_psk_mac sp) kid nonce cam car).

(** Only an enrolled identifier passes, and only with the tag under its own key. *)
Lemma access_gate a dummy kid ch cam car sp pend proof kid' : allowlist_wf a →
  len dummy = CLIENT_PSK_LEN →
  begin_access a (Some dummy) kid ch cam car = Ok (sp, pend) →
  PendingClientAccess_verify pend sp cam car proof = Ok kid' ↔
  kid' = kid ∧ ∃ e, e ∈ entries a ∧ ac_key_id e = kid
    ∧ cap_psk_mac proof = access_tag (ac_psk e) sp kid (cap_client_nonce proof) cam car.
Proof.
  intros Hw Hd [-> ->]%begin_access_Ok; [|done..]. unfold PendingClientAccess_verify, access_psk.
  cbn [pa_authorized pa_psk pa_key_id].
  pose proof (λ e, find_entry_Some a kid e Hw) as Hf.
  destruct (find_entry kid (entries a)) as [e|].
  - rewrite bool_decide_true by done. cbn [andb].
    destruct (hmac_verify _ _ _) eqn:Hv; [apply hmac_verify_iff in Hv|]; split.
    + intros [= <-]. split; [done|]. exists e. by apply and_assoc, conj; [apply Hf|].
    + by intros [-> _].
    + done.
    + intros [_ (e' & He' & Hk & Ht)]. apply not_true_iff_false in Hv. destruct Hv.
      assert (Some e = Some e') as [= ->] by (by apply Hf). by apply hmac_verify_iff.
  - rewrite bool_decide_false by (by intros [? ?]). cbn [andb]. split; [done|].
    intros [_ (e & He & Hk & _)]. assert (None = Some e) by (by apply Hf). done.
Qed.

(** A finished proof is accepted exactly for the entry that passed the gate, with both the
    signature under its public key and the tag under its pre-shared key. *)
Lemma verify_finished_for_key_Ok a transcript f kid v : allowlist_wf a →
  verify_finished_for_key a transcript f kid = Ok v ↔
  cf_key_id f = kid ∧ ∃ e, e ∈ entries a ∧ ac_key_id e = kid
    ∧ ed25519_verify (ac_public_key e) (client_proof_message kid transcript) (cf_signature f) = true
    ∧ cf_psk_mac f = hmac (ac_psk e) (client_proof_message kid transcript)
    ∧ v = mkVerifiedClient kid (ac_psk e).
Proof.
  intros Hw. unfold verify_finished_for_key.
  assert (∀ e, (binary_search_by_key (cf_key_id f) (entries a) ≫= λ i, entries a !! i) = Some e
    ↔ e ∈ entries a ∧ ac_key_id e = cf_key_id f) as Hs.
  { intros e. rewrite bind_Some. setoid_rewrite binary_search_by_key_Some; [|apply Hw].
    rewrite list_elem_of_lookup. naive_solver. }
  destruct (_ ≫= _) as [e|].
  - destruct (proj1 (Hs e) eq_refl) as [He Hk].
    pose proof (hmac_verify_iff (ac_psk e) (client_proof_message (cf_key_id f) transcript)
      (cf_psk_mac f)) as Hmac. pose proof (ct_eq_spec (cf_key_id f) kid) as Hct.
    assert (∀ e', e' ∈ entries a → ac_key_id e' = cf_key_id f → e' = e) as Hu
      by (intros; eapply key_ids_unique; eauto; congruence).
    destruct (ed25519_verify _ _ _) eqn:Hsig, (hmac_verify _ _ _), (ct_eq _ _);
      split; try done; try naive_solver.
    intros (<- & e' & He' & Hk' & Hv & _). rewrite (Hu e' He' Hk') in Hv. congruence.
  - split; [done|]. intros [Hk (e & He & Hk' & _)].
    assert (None = Some e) by (apply Hs; split; [done|congruence]). done.
Qed.

(** A credential as [from_parts] builds it. *)
Record credential_wf (c : ClientCredential) : Prop := {
  cw_public_key : cc_public_key c = ed25519_public (cc_seed c);
  cw_psk : len (cc_psk c) = CLIENT_PSK_LEN;
  cw_key_id : cc_key_id c = derive_key_id (cc_public_key c);
}.

Lemma from_parts_Ok seed psk : len psk = CLIENT_PSK_LEN →
  ∃ c, ClientCredential_from_parts seed psk = Ok c ∧ credential_wf c
    ∧ cc_seed c = seed ∧ cc_psk c = psk.
Proof.
  intros Hp. unfold ClientCredential_from_parts. rewrite ed25519_public_length.
  eexists. by repeat split.
Qed.

Lemma derive_key_id_length pk : len (derive_key_id pk) = CLIENT_KEY_ID_LEN.
Proof.
  unfold derive_key_id. pose proof (hs_sha256_length (CLIENT_KEY_ID_DOMAIN ++ pk)) as H.
  unfold len in *. rewrite length_take. change (Z.to_nat CLIENT_KEY_ID_LEN) with 16%nat.
  unfold CLIENT_KEY_ID_LEN. lia.
Qed.

Lemma credential_key_id_length c : credential_wf c → len (cc_key_id c) = CLIENT_KEY_ID_LEN.
Proof. intros [_ _ ->]. apply derive_key_id_length. Qed.

Lemma enrolled_wf c : credential_wf c → entry_wf (enrolled c).
Proof.
  intros Hc. split; [by apply credential_key_id_length| |apply Hc].
  cbn. rewrite (cw_public_key c Hc). apply ed25519_public_length.
Qed.

Lemma verify_server_access_and_prove_Ok c nonce sp cam car p :
  verify_server_access_and_prove c nonce sp cam car = Ok p ↔
  sap_psk_mac sp
    = hmac (cc_psk c) (server_access_proof_message (sap_challenge sp) (cc_key_id c) cam car)
  ∧ ∃ n, nonce = Some n
    ∧ p = mkClientAccessProof n (access_tag (cc_psk c) sp (cc_key_id c) n cam car).
Proof.
  unfold verify_server_access_and_prove.
  rewrite if_err_Ok, negb_false_iff, hmac_verify_iff, bind_Ok. setoid_rewrite ok_or_Ok.
  unfold access_tag. naive_solver.
Qed.

Lemma sign_finished_Ok c t : sign_finished c t = Ok (mkClientFinished (cc_key_id c)
  (ed25519_sign (cc_seed c) (client_proof_message (cc_key_id c) t))
  (hmac (cc_psk c) (client_proof_message (cc_key_id c) t))).
Proof. unfold sign_finished. by rewrite ed25519_sign_length. Qed.

Lemma verify_server_finished_Ok c t cf sf :
  verify_server_finished c t cf sf = Ok ()
  ↔ sf_psk_mac sf = hmac (cc_psk c) (server_proof_message (cc_key_id c) t cf).
Proof.
  unfold verify_server_finished. rewrite <- hmac_verify_iff. by destruct (hmac_verify _ _ _).
Qed.

(** An enrolled client's own proof is accepted by the server. *)
Lemma sign_verify_finished a c t : allowlist_wf a → credential_wf c → enrolled c ∈ entries a →
  ∃ f, sign_finished c t = Ok f
    ∧ verify_finished_for_key a t f (cc_key_id c) = Ok (mkVerifiedClient (cc_key_id c) (cc_psk c)).
Proof.
  intros Ha Hc He. eexists. split; [apply sign_finished_Ok|].
  apply verify_finished_for_key_Ok; [done|]. split; [done|]. exists (enrolled c).
  split_and!; [done..| |done|done]. cbn. rewrite (cw_public_key c Hc). apply ed25519_sign_verify.
Qed.

(** ** Authenticated messages are unambiguous *)

(** Everything a pre-shared key or a client's signing key is ever applied to. *)
Inductive AuthMessage :=
| ServerAccessMessage (build_magic : Z) (challenge key_id : bytes) (camouflage : CamouflageMode)
    (carrier : CarrierBinding)
| ClientAccessMessage (build_magic : Z) (challenge server_mac key_id client_nonce : bytes)
    (camouflage : CamouflageMode) (carrier : CarrierBinding)
| ClientProofMessage (key_id transcript : bytes)
| ServerProofMessage (key_id transcript client_finished : bytes).

Definition AuthMessage_bytes (m : AuthMessage) : bytes :=
  match m with
  | ServerAccessMessage magic ch kid cam car =>
      server_access_proof_message_with_magic magic ch kid cam car
  | ClientAccessMessage magic ch mac kid nonce cam car =>
      client_access_proof_message_with_magic magic ch mac kid nonce cam car
  | ClientProofMessage kid t => client_proof_message kid t
  | ServerProofMessage kid t cf => server_proof_message kid t cf
  end.

Definition AuthMessage_wf (m : AuthMessage) : Prop :=
  match m with
  | ServerAccessMessage magic ch kid _ _ => is_u 32 magic ∧ len ch = 32 ∧ len kid = 16
  | ClientAccessMessage magic ch mac kid nonce _ _ =>
      is_u 32 magic ∧ len ch = 32 ∧ len mac = 32 ∧ len kid = 16 ∧ len nonce = 32
  | ClientProofMessage kid t => len kid = 16 ∧ len t = 32
  | ServerProofMessage kid t cf => len kid = 16 ∧ len t = 32 ∧ len cf = CLIENT_FINISHED_LEN
  end.

(** The messages of all four proofs, across builds, are told apart by their bytes. *)
Theorem auth_messages_injective (m m' : AuthMessage) :
  AuthMessage_wf m → AuthMessage_wf m' → AuthMessage_bytes m = AuthMessage_bytes m' → m = m'.
Proof.
  intros Hm Hm' H. pose proof (f_equal (λ b, take 15 (drop 14 b)) H) as Hrole.
  destruct m, m'; try (vm_compute in Hrole; discriminate Hrole).
  all: cbn [AuthMessage_wf] in Hm, Hm'; destruct_and!; cbn [AuthMessage_bytes] in H.
  all: unfold server_access_proof_message_with_magic, client_access_proof_message_with_magic,
    client_proof_message, server_proof_message, proof_message in H; rewrite <- ?app_assoc in H.
  all: split_apps H; settle_fields; congruence.
Qed.
End Theory.

(** ** The two lookups of the server *)

(** C34: the server's lookups are the plain one.  For every list of entries that [from_entries]
    accepts, the scan of [begin_access], which touches every entry and selects byte by byte,
    and the binary search of [verify_finished_for_key] in the sorted list both give what
    searching the list as it was given gives: the one entry with this identifier, or none,
    in which case the scan keeps the dummy key and is not authorised. *)
Theorem allowlist_lookups_agree es a kid dummy :
  from_entries es = Ok a → Forall entry_wf es → len dummy = CLIENT_PSK_LEN →
  foldl (scan_entry kid) (dummy, false) (entries a)
    = match find_entry kid es with Some e => (ac_psk e, true) | None => (dummy, false) end
  ∧ (binary_search_by_key kid (entries a) ≫= λ i, entries a !! i) = find_entry kid es.
Proof.
  intros E Hes Hd. destruct (from_entries_Ok _ _ E Hes) as (Hwf & Hp & _). pose proof Hwf as [Hs Hw].
  assert (find_entry kid es = find_entry kid (entries a)) as ->.
  { destruct (find_entry kid es) as [e|] eqn:Hf; symmetry.
    - apply find_entry_Some; [done|]. rewrite Hp. unfold find_entry in Hf.
      apply fmap_Some in Hf as ([i e'] & (Hi & Hk & _)%list_find_Some & ->).
      split; [by eapply list_elem_of_lookup_2|done].
    - rewrite find_entry_None in Hf |- *. intros e. rewrite Hp. apply Hf. }
  split; [by apply scan_spec|].
  destruct (binary_search_by_key kid (entries a)) as [i|] eqn:Hb; simpl.
  - apply (binary_search_by_key_Some _ _ _ Hs) in Hb as (e & Hi & Hk). rewrite Hi. symmetry.
    apply find_entry_Some; [done|]. split; [by eapply list_elem_of_lookup_2|done].
  - symmetry. apply find_entry_None. intros e (i & Hi)%list_elem_of_lookup Hk.
    assert (binary_search_by_key kid (entries a) = Some i) by (apply binary_search_by_key_Some; eauto).
    congruence.
Qed.

Module LookupSample.
Definition client (n : Byte.byte) : AuthorizedClient :=
  mkAuthorizedClient (replicate 16 n) (replicate 32 n) (replicate 32 n).
Definition given : list AuthorizedClient := [client Byte.x03; client Byte.x01; client Byte.x02].
Definition built : AuthorizedClients :=
  mkAuthorizedClients [client Byte.x01; client Byte.x02; client Byte.x03].

Lemma allowlist_lookups_witness :
  from_entries given = Ok built
  ∧ foldl (scan_entry (replicate 16 Byte.x03)) (replicate 32 Byte.x00, false) (entries built)
    = (replicate 32 Byte.x03, true)
  ∧ (binary_search_by_key (replicate 16 Byte.x03) (entries built) ≫= λ i, entries built !! i)
    = Some (client Byte.x03).
Proof.
  assert (from_entries given = Ok built) as E by by vm_compute. split; [done|].
  apply (allowlist_lookups_agree given built (replicate 16 Byte.x03) (replicate 32 Byte.x00)).
  - exact E.
  - repeat constructor.
  - done.
Defined.
End LookupSample.
