(* ===== verification/Handshake.v ===== *)
(** * The inner handshake

    Models the handshake of [shadowpipe-core/src/session.rs] ([client_connect_pins_bound],
    [server_accept_bound], the transcripts) and the key schedule of [crypto/mod.rs].  Each
    side is a process ([Network]); X25519, ML-KEM and HKDF are parameters, and every random
    value is an argument. *)

From S2P Require Import EndpointPolicy Prelude PolicyPlan Wire Network Session ClientAuth.

(** [x25519_dalek], [ml_kem] and [hkdf]: an encapsulation returns ciphertext and shared
    secret, [hkdf_sha256] takes salt, input, label and output length. *)
Class HandshakeCrypto := {
  x25519_public : bytes → bytes;
  x25519_dh : bytes → bytes → bytes;
  mlkem_public_of : bytes → bytes;
  mlkem_valid : bytes → bool;
  mlkem_encapsulate : bytes → bytes → bytes * bytes;
  mlkem_decapsulate : bytes → bytes → bytes;
  hkdf_sha256 : bytes → bytes → bytes → Z → option bytes;
}.

(** Both ends of an exchange compute the same secret; keys and ciphertexts have their
    standard sizes; HKDF delivers up to 255 blocks. *)
Class HandshakeCryptoLaws (C : HandshakeCrypto) := {
  x25519_public_length s : len (x25519_public s) = 32;
  x25519_dh_comm s t : x25519_dh s (x25519_public t) = x25519_dh t (x25519_public s);
  mlkem_public_length s : len (mlkem_public_of s) = MLKEM_PUBLIC_KEY_SIZE;
  mlkem_public_valid s : mlkem_valid (mlkem_public_of s) = true;
  mlkem_ciphertext_length p r : len (mlkem_encapsulate p r).1 = MLKEM_CIPHERTEXT_SIZE;
  mlkem_correct s r : mlkem_decapsulate s (mlkem_encapsulate (mlkem_public_of s) r).1
                      = (mlkem_encapsulate (mlkem_public_of s) r).2;
  hkdf_length salt ikm info n : 0 ≤ n ≤ 8160 →
    ∃ out, hkdf_sha256 salt ikm info n = Some out ∧ len out = n;
}.

Inductive HandshakeError :=
| HsAuth (e : AuthError)
| HsWire (e : WireError)
| HsSession (e : SessionError)
| HsCarrierUnsupported
| HsPinMismatch
| HsBadKey
| HsMagic
| HsVersion
| HsFraming
| HsNonContributory
| HsKdf
| HsInternal.

(** ** Key schedule *)

Record SessionKeys := mkSessionKeys { send_key : bytes; recv_key : bytes }.

Record V3TrafficKeyInputs := mkV3TrafficKeyInputs {
  ki_x_shared : bytes;
  ki_pq_shared : bytes;
  ki_client_psk : option bytes;
  ki_client_random : bytes;
  ki_server_random : bytes;
  ki_transcript : bytes;
  ki_client_to_server : bool;
}.

Definition KEY_SIZE : Z := 32.
Definition V3_SUITE : bytes := String.list_byte_of_string
  "ML-KEM-768+X25519+MUTUAL-PSK-ACCESS-HMAC-SHA256+Ed25519+HMAC-SHA256+HKDF-SHA256+ChaCha20Poly1305".
Definition TRANSCRIPT_DOMAIN : bytes := nul_terminated "shadowpipe-v3/canonical-handshake-transcript".
Definition FINISHED_TRANSCRIPT_DOMAIN : bytes := nul_terminated "shadowpipe-v3/finished-transcript".
Definition CLIENT_FINISHED_AAD_DOMAIN : bytes := nul_terminated "shadowpipe-v3/client-finished-record".
Definition SERVER_FINISHED_AAD_DOMAIN : bytes := nul_terminated "shadowpipe-v3/server-finished-record".
Definition CLIENT_FINISHED_CIPHERTEXT_LEN : Z := CLIENT_FINISHED_LEN + CHACHA20_POLY1305_TAG_LEN.
Definition SERVER_FINISHED_CIPHERTEXT_LEN : Z := SERVER_FINISHED_LEN + CHACHA20_POLY1305_TAG_LEN.

Section Handshake.
Context {Cr : AuthCrypto} {Bu : BuildConfig} {Hc : HandshakeCrypto} {Ae : Aead}.

(** An X25519 result that is all zeros is refused. *)
Definition require_contributory_x25519 (shared : bytes) : result HandshakeError bytes :=
  let nonzero := foldl (λ accumulator byte, Z.lor accumulator (bv byte)) 0 shared in
  if nonzero =? 0 then Err HsNonContributory else Ok shared.

Definition x25519_ephemeral_shared (local remote : bytes) : result HandshakeError bytes :=
  require_contributory_x25519 (x25519_dh local remote).

Definition mlkem_fingerprint (pk_bytes : bytes) : bytes :=
  hs_sha256 (String.list_byte_of_string "shadowpipe-mlkem-id-v1" ++ pk_bytes).

Definition mlkem_public_from_bytes (b : bytes) : result HandshakeError bytes :=
  if negb (len b =? MLKEM_PUBLIC_KEY_SIZE) then Err HsBadKey else
  if negb (mlkem_valid b) then Err HsBadKey else Ok b.

Definition mlkem_ciphertext_from_bytes (b : bytes) : result HandshakeError bytes :=
  if negb (len b =? MLKEM_CIPHERTEXT_SIZE) then Err HsBadKey else Ok b.

Definition derive_v3_traffic_keys (domain : bytes) (i : V3TrafficKeyInputs)
  : result HandshakeError SessionKeys :=
  let seed := nul_terminated "shadowpipe-v3/ikm" ++ ki_x_shared i ++ ki_pq_shared i
    ++ default [] (ki_client_psk i) ++ ki_client_random i ++ ki_server_random i in
  material ← ok_or (hkdf_sha256 (ki_transcript i) seed domain (KEY_SIZE * 2)) HsKdf;
  let lo := take (Z.to_nat KEY_SIZE) material in
  let hi := drop (Z.to_nat KEY_SIZE) material in
  Ok (if ki_client_to_server i then mkSessionKeys lo hi else mkSessionKeys hi lo).

Definition derive_handshake_traffic_keys (x_shared pq_shared client_random server_random
    pre_finished_transcript : bytes) (client_to_server : bool) : result HandshakeError SessionKeys :=
  derive_v3_traffic_keys (nul_terminated "shadowpipe-v3/handshake-traffic-keys")
    (mkV3TrafficKeyInputs x_shared pq_shared None client_random server_random
       pre_finished_transcript client_to_server).

Definition derive_application_traffic_keys (x_shared pq_shared client_psk client_random
    server_random finished_transcript : bytes) (client_to_server : bool)
  : result HandshakeError SessionKeys :=
  derive_v3_traffic_keys (nul_terminated "shadowpipe-v3/application-traffic-keys")
    (mkV3TrafficKeyInputs x_shared pq_shared (Some client_psk) client_random server_random
       finished_transcript client_to_server).

Definition session_of_keys (k : SessionKeys) : AeadSession :=
  AeadSession_new (send_key k) (recv_key k).

(** ** Transcripts *)

Definition append_transcript_field (tag : Z) (value : bytes) : bytes :=
  [bz tag] ++ be_bytes 4 (len value mod 2 ^ 32) ++ value.

Record TranscriptCarrierContext := mkTranscriptCarrierContext {
  tc_client_hello : ClientHello;
  tc_server_hello : ServerHello;
  tc_carrier_binding : CarrierBinding;
}.

(** The bytes hashed by [pre_finished_transcript_with_magic]. *)
Definition canonical_transcript (build_magic : Z)
    (access_hello server_access_proof client_access_proof server_pk : bytes)
    (context : TranscriptCarrierContext) : bytes :=
  let ch := tc_client_hello context in
  let sh := tc_server_hello context in
  TRANSCRIPT_DOMAIN
  ++ append_transcript_field 1 [bz PROTO_VERSION]
  ++ append_transcript_field 2 (String.list_byte_of_string "client")
  ++ append_transcript_field 3 (String.list_byte_of_string "server")
  ++ append_transcript_field 4 (be_bytes 4 build_magic)
  ++ append_transcript_field 5 V3_SUITE
  ++ append_transcript_field 6 server_pk
  ++ append_transcript_field 7 (ch_mlkem_ciphertext ch)
  ++ append_transcript_field 8 (ch_client_random ch)
  ++ append_transcript_field 9 (sh_server_random sh)
  ++ append_transcript_field 10 (ch_x25519_public ch)
  ++ append_transcript_field 11 (sh_x25519_public sh)
  ++ append_transcript_field 12 (sh_session_id sh)
  ++ append_transcript_field 13 (be_bytes 4 (ch_magic ch))
  ++ append_transcript_field 14 (be_bytes 1 (ch_version ch))
  ++ append_transcript_field 15 [bz (CamouflageMode_repr (ch_camouflage ch))]
  ++ append_transcript_field 16 [bz (PaddingProfile_repr (ch_padding_profile ch))]
  ++ append_transcript_field 17 access_hello
  ++ append_transcript_field 18 server_access_proof
  ++ append_transcript_field 19 client_access_proof
  ++ append_transcript_field 20 [bz (CarrierBinding_repr (tc_carrier_binding context))].

Definition pre_finished_transcript_with_magic (build_magic : Z)
    (access_hello server_access_proof client_access_proof server_pk : bytes)
    (context : TranscriptCarrierContext) : bytes :=
  hs_sha256 (canonical_transcript build_magic access_hello server_access_proof
               client_access_proof server_pk context).

Definition pre_finished_transcript
    (access_hello server_access_proof client_access_proof server_pk : bytes)
    (client_hello : ClientHello) (server_hello : ServerHello)
    (carrier_binding : CarrierBinding) : bytes :=
  pre_finished_transcript_with_magic BUILD_MAGIC access_hello server_access_proof
    client_access_proof server_pk
    (mkTranscriptCarrierContext client_hello server_hello carrier_binding).

Definition finished_transcript (pre_finished client_finished server_finished : bytes) : bytes :=
  hs_sha256 (FINISHED_TRANSCRIPT_DOMAIN ++ pre_finished
    ++ be_bytes 2 (len client_finished mod 2 ^ 16) ++ client_finished
    ++ be_bytes 2 (len server_finished mod 2 ^ 16) ++ server_finished).

Definition finished_aad (domain pre_finished : bytes) : bytes := domain ++ pre_finished.

(** ** Fixed-width messages *)

Definition write_fixed_finished (ciphertext : bytes) : Writer := write_all ciphertext.
Definition write_access_hello (key_id : bytes) : Writer := write_all key_id.
Definition write_server_access_proof (proof : bytes) : Writer := write_all proof.
Definition write_access_proof (proof : bytes) : Writer := write_all proof.
Definition read_access_hello : Reader bytes := read_exact CLIENT_ACCESS_HELLO_LEN.
Definition read_server_access_proof : Reader bytes := read_exact SERVER_ACCESS_PROOF_LEN.
Definition read_access_proof : Reader bytes := read_exact CLIENT_ACCESS_PROOF_LEN.
Definition read_fixed_finished (n : Z) : Reader bytes := read_exact n.

(** ** The client *)

Record ClientConfig := mkClientConfig {
  cfg_camouflage : CamouflageMode;
  cfg_padding_profile : PaddingProfile;
  cfg_server_fingerprint : bytes;
  cfg_client_credential : ClientCredential;
}.

(** What the client draws: the access nonce (or a failure of the generator), the ephemeral
    secret, the coins of the encapsulation and its random. *)
Record ClientCoins := mkClientCoins {
  k_access_nonce : option bytes;
  k_x_secret : bytes;
  k_kem_coins : bytes;
  k_client_random : bytes;
}.

(** From the handshake keys to the end. *)
Definition client_finished_exchange (config : ClientConfig)
    (x_shared pq_shared client_random : bytes) (server_hello : ServerHello) (pre_finished : bytes)
  : Proc HandshakeError (AuthenticatedSession * bytes) :=
  let credential := cfg_client_credential config in
  handshake_keys ← lift id (derive_handshake_traffic_keys x_shared pq_shared
                     client_random (sh_server_random server_hello) pre_finished true);
  client_fin ← lift HsAuth (sign_finished credential pre_finished);
  let client_finished := ClientFinished_encode client_fin in
  let '(handshake_aead, encrypted) := AeadSession_encrypt (session_of_keys handshake_keys)
    client_finished (finished_aad CLIENT_FINISHED_AAD_DOMAIN pre_finished) in
  encrypted_client_finished ← lift HsSession encrypted;
  _ ← ensure (len encrypted_client_finished =? CLIENT_FINISHED_CIPHERTEXT_LEN) HsInternal;
  _ ← put HsWire (write_fixed_finished encrypted_client_finished);
  encrypted_server_finished ← get (read_fixed_finished SERVER_FINISHED_CIPHERTEXT_LEN) HsWire;
  server_finished_plaintext ← lift (λ _, HsAuth AuthFailed)
    (AeadSession_decrypt handshake_aead encrypted_server_finished
       (finished_aad SERVER_FINISHED_AAD_DOMAIN pre_finished)).2;
  server_fin ← lift HsAuth (ServerFinished_decode server_finished_plaintext);
  _ ← lift HsAuth (verify_server_finished credential pre_finished client_finished server_fin);
  let server_finished := ServerFinished_encode server_fin in
  let transcript := finished_transcript pre_finished client_finished server_finished in
  application_keys ← lift id (derive_application_traffic_keys x_shared pq_shared
    (cc_psk credential) client_random (sh_server_random server_hello) transcript true);
  mret (mkAuthenticatedSession (session_of_keys application_keys) (cfg_padding_profile config)
          (cc_key_id credential),
        sh_session_id server_hello).

Definition client_connect_pins_bound (config : ClientConfig) (server_pins : ServerPins)
    (carrier_binding : CarrierBinding) (coins : ClientCoins)
  : Proc HandshakeError (AuthenticatedSession * bytes) :=
  let credential := cfg_client_credential config in
  _ ← ensure (negb (bool_decide (cfg_camouflage config = DnsChunk))) HsCarrierUnsupported;
  let access_hello := cc_key_id credential in
  _ ← put HsWire (write_access_hello access_hello);
  server_access_proof ← get read_server_access_proof HsWire;
  decoded_server_access_proof ← lift HsAuth (ServerAccessProof_decode server_access_proof);
  client_access ← lift HsAuth (verify_server_access_and_prove credential (k_access_nonce coins)
                    decoded_server_access_proof (cfg_camouflage config) carrier_binding);
  let client_access_proof := ClientAccessProof_encode client_access in
  _ ← put HsWire (write_access_proof client_access_proof);
  pk_bytes ← get read_mlkem_public HsWire;
  _ ← ensure (ServerPins_matches server_pins (mlkem_fingerprint pk_bytes)) HsPinMismatch;
  server_pk ← lift id (mlkem_public_from_bytes pk_bytes);
  let x_public := x25519_public (k_x_secret coins) in
  let '(pq_ct, pq_shared) := mlkem_encapsulate server_pk (k_kem_coins coins) in
  let client_hello := mkClientHello BUILD_MAGIC PROTO_VERSION (k_client_random coins) x_public
                        pq_ct (cfg_camouflage config) (cfg_padding_profile config) in
  _ ← put HsWire (write_client_hello client_hello);
  server_hello ← get read_server_hello HsWire;
  x_shared ← lift id (x25519_ephemeral_shared (k_x_secret coins) (sh_x25519_public server_hello));
  let pre_finished := pre_finished_transcript access_hello server_access_proof
                        client_access_proof pk_bytes client_hello server_hello carrier_binding in
  client_finished_exchange config x_shared pq_shared (k_client_random coins) server_hello pre_finished.

Definition ServerPins_single (pin : bytes) : ServerPins :=
  mkServerPins [pin; zero_array 32; zero_array 32] 1.

Definition client_connect_bound (config : ClientConfig) (carrier_binding : CarrierBinding)
    (coins : ClientCoins) : Proc HandshakeError (AuthenticatedSession * bytes) :=
  client_connect_pins_bound config (ServerPins_single (cfg_server_fingerprint config))
    carrier_binding coins.

(** ** The server *)

Record ServerState := mkServerState { mlkem_public : bytes; mlkem_secret : bytes }.

(** What the server draws: its challenge, the dummy key (or a failure of the generator), the
    ephemeral secret, its random and the session identifier. *)
Record ServerCoins := mkServerCoins {
  k_access_challenge : bytes;
  k_dummy_psk : option bytes;
  k_server_x_secret : bytes;
  k_server_random : bytes;
  k_session_id : bytes;
}.

(** From the handshake keys to the end. *)
Definition server_finished_exchange (authorized_clients : AuthorizedClients)
    (access_key_id x_shared pq_shared : bytes) (client_hello : ClientHello)
    (server_random session_id pre_finished : bytes)
  : Proc HandshakeError (AuthenticatedSession * ClientHello * bytes) :=
  handshake_keys ← lift id (derive_handshake_traffic_keys x_shared pq_shared
    (ch_client_random client_hello) server_random pre_finished false);
  encrypted_client_finished ← get (read_fixed_finished CLIENT_FINISHED_CIPHERTEXT_LEN) HsWire;
  let '(handshake_aead, decrypted) := AeadSession_decrypt (session_of_keys handshake_keys)
    encrypted_client_finished (finished_aad CLIENT_FINISHED_AAD_DOMAIN pre_finished) in
  client_finished_plaintext ← lift (λ _, HsAuth AuthFailed) decrypted;
  client_fin ← lift HsAuth (ClientFinished_decode client_finished_plaintext);
  verified ← lift HsAuth (verify_finished_for_key authorized_clients pre_finished client_fin
    access_key_id);
  let client_finished := ClientFinished_encode client_fin in
  let server_finished :=
    ServerFinished_encode (make_server_finished verified pre_finished client_finished) in
  encrypted_server_finished ← lift HsSession (AeadSession_encrypt handshake_aead server_finished
    (finished_aad SERVER_FINISHED_AAD_DOMAIN pre_finished)).2;
  _ ← ensure (len encrypted_server_finished =? SERVER_FINISHED_CIPHERTEXT_LEN) HsInternal;
  _ ← put HsWire (write_fixed_finished encrypted_server_finished);
  let transcript := finished_transcript pre_finished client_finished server_finished in
  application_keys ← lift id (derive_application_traffic_keys x_shared pq_shared (vc_psk verified)
    (ch_client_random client_hello) server_random transcript false);
  mret (mkAuthenticatedSession (session_of_keys application_keys)
          (ch_padding_profile client_hello) (vc_key_id verified),
        client_hello, session_id).

Definition server_accept_bound (state : ServerState) (authorized_clients : AuthorizedClients)
    (observed_camouflage : CamouflageMode) (observed_carrier : CarrierBinding)
    (coins : ServerCoins) : Proc HandshakeError (AuthenticatedSession * ClientHello * bytes) :=
  _ ← ensure (negb (bool_decide (observed_camouflage = DnsChunk))) HsCarrierUnsupported;
  access_hello ← get read_access_hello (λ _, HsAuth AuthFailed);
  '(server_access, pending_access) ← lift HsAuth (begin_access authorized_clients
    (k_dummy_psk coins) access_hello (k_access_challenge coins) observed_camouflage
    observed_carrier);
  let server_access_proof := ServerAccessProof_encode server_access in
  _ ← put HsWire (write_server_access_proof server_access_proof);
  client_access_proof ← get read_access_proof (λ _, HsAuth AuthFailed);
  decoded_client_access_proof ← lift HsAuth (ClientAccessProof_decode client_access_proof);
  access_key_id ← lift HsAuth (PendingClientAccess_verify pending_access server_access
    observed_camouflage observed_carrier decoded_client_access_proof);
  let server_public := mlkem_public state in
  _ ← put HsWire (write_mlkem_public server_public);
  client_hello ← get read_client_hello HsWire;
  _ ← ensure (ch_magic client_hello =? BUILD_MAGIC) HsMagic;
  _ ← ensure (ch_version client_hello =? PROTO_VERSION) HsVersion;
  _ ← ensure (bool_decide (ch_camouflage client_hello = observed_camouflage)) HsFraming;
  pq_ct ← lift id (mlkem_ciphertext_from_bytes (ch_mlkem_ciphertext client_hello));
  let pq_shared := mlkem_decapsulate (mlkem_secret state) pq_ct in
  let x_public := x25519_public (k_server_x_secret coins) in
  let server_random := k_server_random coins in
  let session_id := k_session_id coins in
  let server_hello := mkServerHello server_random x_public session_id in
  x_shared ← lift id (x25519_ephemeral_shared (k_server_x_secret coins)
                        (ch_x25519_public client_hello));
  _ ← put HsWire (write_server_hello server_hello);
  let pre_finished := pre_finished_transcript access_hello server_access_proof
    client_access_proof server_public client_hello server_hello observed_carrier in
  server_finished_exchange authorized_clients access_key_id x_shared pq_shared client_hello
    server_random session_id pre_finished.

End Handshake.

(** ** Conversations *)

(** The messages of one handshake, as one side has them. *)
Record View := mkView {
  v_access_hello : bytes;
  v_server_access : ServerAccessProof;
  v_client_access : ClientAccessProof;
  v_server_pk : bytes;
  v_client_hello : ClientHello;
  v_server_hello : ServerHello;
  v_carrier : CarrierBinding;
  v_client_finished : ClientFinished;
  v_server_finished : ServerFinished;
}.

Section Conversations.
Context {Cr : AuthCrypto} {Bu : BuildConfig} {Hc : HandshakeCrypto} {Ae : Aead}.

Definition view_canonical (v : View) : bytes :=
  canonical_transcript BUILD_MAGIC (v_access_hello v)
    (ServerAccessProof_encode (v_server_access v)) (ClientAccessProof_encode (v_client_access v))
    (v_server_pk v) (mkTranscriptCarrierContext (v_client_hello v) (v_server_hello v) (v_carrier v)).
Definition view_pre (v : View) : bytes := hs_sha256 (view_canonical v).
Definition view_transcript (v : View) : bytes :=
  finished_transcript (view_pre v) (ClientFinished_encode (v_client_finished v))
    (ServerFinished_encode (v_server_finished v)).

(** Handshake and application keys of one side. *)
Definition view_handshake_keys (v : View) (x_shared pq_shared : bytes) (client : bool)
  : result HandshakeError SessionKeys :=
  derive_handshake_traffic_keys x_shared pq_shared (ch_client_random (v_client_hello v))
    (sh_server_random (v_server_hello v)) (view_pre v) client.
Definition view_application_keys (v : View) (x_shared pq_shared psk : bytes) (client : bool)
  : result HandshakeError SessionKeys :=
  derive_application_traffic_keys x_shared pq_shared psk (ch_client_random (v_client_hello v))
    (sh_server_random (v_server_hello v)) (view_transcript v) client.

(** The server received [inbound] in a handshake with the client of entry [e], and every
    proof was checked against the entry and the messages of the view [v]. *)
Record server_conversation (state : ServerState) (cam : CamouflageMode) (car : CarrierBinding)
    (coins : ServerCoins) (e : AuthorizedClient) (v : View) (inbound out rest : bytes)
    (session : AuthenticatedSession) : Prop := {
  sc_streams : ∃ hello fin_c fin_s,
    write_client_hello (v_client_hello v) = (hello, Ok ())
    ∧ inbound = v_access_hello v ++ ClientAccessProof_encode (v_client_access v) ++ hello
                ++ fin_c ++ rest
    ∧ out = ServerAccessProof_encode (v_server_access v) ++ be_bytes 2 MLKEM_PUBLIC_KEY_SIZE
            ++ v_server_pk v ++ (write_server_hello (v_server_hello v)).1 ++ fin_s
    ∧ ∃ x_shared keys app,
        x25519_ephemeral_shared (k_server_x_secret coins)
          (ch_x25519_public (v_client_hello v)) = Ok x_shared
        ∧ let pq_shared := mlkem_decapsulate (mlkem_secret state)
                             (ch_mlkem_ciphertext (v_client_hello v)) in
          view_handshake_keys v x_shared pq_shared false = Ok keys
          ∧ unseal (recv_key keys) (nonce_from_counter 0)
              (finished_aad CLIENT_FINISHED_AAD_DOMAIN (view_pre v)) fin_c
            = Some (ClientFinished_encode (v_client_finished v))
          ∧ seal (send_key keys) (nonce_from_counter 0)
              (finished_aad SERVER_FINISHED_AAD_DOMAIN (view_pre v))
              (ServerFinished_encode (v_server_finished v)) = Some fin_s
          ∧ view_application_keys v x_shared pq_shared (ac_psk e) false = Ok app
          ∧ session = mkAuthenticatedSession (session_of_keys app)
                        (ch_padding_profile (v_client_hello v)) (ac_key_id e);
  sc_widths : len (v_access_hello v) = CLIENT_KEY_ID_LEN
    ∧ len (cap_client_nonce (v_client_access v)) = CLIENT_ACCESS_NONCE_LEN
    ∧ len (v_server_pk v) = MLKEM_PUBLIC_KEY_SIZE;
  sc_key_id : v_access_hello v = ac_key_id e;
  sc_server_access : v_server_access v = mkServerAccessProof (k_access_challenge coins)
    (hmac (ac_psk e) (server_access_proof_message (k_access_challenge coins) (ac_key_id e) cam car));
  sc_client_access : cap_psk_mac (v_client_access v) = access_tag (ac_psk e) (v_server_access v)
    (ac_key_id e) (cap_client_nonce (v_client_access v)) cam car;
  sc_server_pk : v_server_pk v = mlkem_public state;
  sc_client_hello : ClientHello_wf (v_client_hello v)
    ∧ ch_magic (v_client_hello v) = BUILD_MAGIC ∧ ch_version (v_client_hello v) = PROTO_VERSION
    ∧ ch_camouflage (v_client_hello v) = cam;
  sc_server_hello : v_server_hello v = mkServerHello (k_server_random coins)
    (x25519_public (k_server_x_secret coins)) (k_session_id coins);
  sc_carrier : v_carrier v = car;
  sc_finished_id : cf_key_id (v_client_finished v) = ac_key_id e;
  sc_signature : ed25519_verify (ac_public_key e) (client_proof_message (ac_key_id e) (view_pre v))
    (cf_signature (v_client_finished v)) = true;
  sc_finished_mac : cf_psk_mac (v_client_finished v)
    = hmac (ac_psk e) (client_proof_message (ac_key_id e) (view_pre v));
  sc_server_finished : v_server_finished v = mkServerFinished (hmac (ac_psk e)
    (server_proof_message (ac_key_id e) (view_pre v) (ClientFinished_encode (v_client_finished v))));
}.

(** The same for the client. *)
Record client_conversation (config : ClientConfig) (pins : ServerPins) (car : CarrierBinding)
    (coins : ClientCoins) (v : View) (inbound out rest : bytes)
    (session : AuthenticatedSession) : Prop := {
  cc_streams : ∃ hello fin_c fin_s,
    write_client_hello (v_client_hello v) = (hello, Ok ())
    ∧ inbound = ServerAccessProof_encode (v_server_access v) ++ be_bytes 2 MLKEM_PUBLIC_KEY_SIZE
                ++ v_server_pk v ++ (write_server_hello (v_server_hello v)).1 ++ fin_s ++ rest
    ∧ out = v_access_hello v ++ ClientAccessProof_encode (v_client_access v) ++ hello ++ fin_c
    ∧ ∃ x_shared keys app,
        x25519_ephemeral_shared (k_x_secret coins)
          (sh_x25519_public (v_server_hello v)) = Ok x_shared
        ∧ let pq_shared := (mlkem_encapsulate (v_server_pk v) (k_kem_coins coins)).2 in
          view_handshake_keys v x_shared pq_shared true = Ok keys
          ∧ seal (send_key keys) (nonce_from_counter 0)
              (finished_aad CLIENT_FINISHED_AAD_DOMAIN (view_pre v))
              (ClientFinished_encode (v_client_finished v)) = Some fin_c
          ∧ unseal (recv_key keys) (nonce_from_counter 0)
              (finished_aad SERVER_FINISHED_AAD_DOMAIN (view_pre v)) fin_s
            = Some (ServerFinished_encode (v_server_finished v))
          ∧ view_application_keys v x_shared pq_shared (cc_psk (cfg_client_credential config)) true
            = Ok app
          ∧ session = mkAuthenticatedSession (session_of_keys app) (cfg_padding_profile config)
                        (cc_key_id (cfg_client_credential config));
  cc_widths : len (sap_challenge (v_server_access v)) = SERVER_ACCESS_CHALLENGE_LEN;
  cc_access_hello : v_access_hello v = cc_key_id (cfg_client_credential config);
  cc_server_access : sap_psk_mac (v_server_access v) = hmac (cc_psk (cfg_client_credential config))
    (server_access_proof_message (sap_challenge (v_server_access v))
       (cc_key_id (cfg_client_credential config)) (cfg_camouflage config) car);
  cc_client_access : ∃ n, k_access_nonce coins = Some n
    ∧ v_client_access v = mkClientAccessProof n
        (access_tag (cc_psk (cfg_client_credential config)) (v_server_access v)
           (cc_key_id (cfg_client_credential config)) n (cfg_camouflage config) car);
  cc_pinned : ServerPins_matches pins (mlkem_fingerprint (v_server_pk v)) = true
    ∧ mlkem_valid (v_server_pk v) = true ∧ len (v_server_pk v) = MLKEM_PUBLIC_KEY_SIZE;
  cc_client_hello : v_client_hello v = mkClientHello BUILD_MAGIC PROTO_VERSION
    (k_client_random coins) (x25519_public (k_x_secret coins))
    (mlkem_encapsulate (v_server_pk v) (k_kem_coins coins)).1 (cfg_camouflage config)
    (cfg_padding_profile config);
  cc_server_hello : len (sh_server_random (v_server_hello v)) = 16
    ∧ len (sh_x25519_public (v_server_hello v)) = 32 ∧ len (sh_session_id (v_server_hello v)) = 8;
  cc_carrier : v_carrier v = car;
  cc_client_finished : sign_finished (cfg_client_credential config) (view_pre v)
    = Ok (v_client_finished v);
  cc_server_finished : sf_psk_mac (v_server_finished v)
    = hmac (cc_psk (cfg_client_credential config))
        (server_proof_message (cc_key_id (cfg_client_credential config)) (view_pre v)
           (ClientFinished_encode (v_client_finished v)));
}.
End Conversations.

Section Soundness.
Context {Cr : AuthCrypto} {CL : AuthCryptoLaws Cr} {Bu : BuildConfig} {Hc : HandshakeCrypto} {Ae : Aead}.

Lemma fresh_encrypt k p a s c : AeadSession_encrypt (session_of_keys k) p a = (s, Ok c) ↔
  seal (send_key k) (nonce_from_counter 0) a p = Some c
  ∧ s = mkAeadSession (send_key k) (recv_key k) 1 0 false false.
Proof.
  unfold AeadSession_encrypt, session_of_keys, AeadSession_new. cbn -[nonce_from_counter].
  destruct (seal _ _ _ _); naive_solver.
Qed.
Lemma fresh_decrypt k c a s p : AeadSession_decrypt (session_of_keys k) c a = (s, Ok p) ↔
  unseal (recv_key k) (nonce_from_counter 0) a c = Some p
  ∧ s = mkAeadSession (send_key k) (recv_key k) 0 1 false false.
Proof.
  unfold AeadSession_decrypt, session_of_keys, AeadSession_new. cbn -[nonce_from_counter].
  destruct (unseal _ _ _ _); naive_solver.
Qed.
Lemma reply_encrypt ks kr p a c :
  (AeadSession_encrypt (mkAeadSession ks kr 0 1 false false) p a).2 = Ok c ↔
  seal ks (nonce_from_counter 0) a p = Some c.
Proof.
  unfold AeadSession_encrypt. cbn -[nonce_from_counter]. destruct (seal _ _ _ _); naive_solver.
Qed.
Lemma reply_decrypt ks kr c a p :
  (AeadSession_decrypt (mkAeadSession ks kr 1 0 false false) c a).2 = Ok p ↔
  unseal kr (nonce_from_counter 0) a c = Some p.
Proof.
  unfold AeadSession_decrypt. cbn -[nonce_from_counter]. destruct (unseal _ _ _ _); naive_solver.
Qed.

Lemma write_mlkem_public_Ok pk b : write_mlkem_public pk = (b, Ok ()) ↔
  len pk = MLKEM_PUBLIC_KEY_SIZE ∧ b = be_bytes 2 MLKEM_PUBLIC_KEY_SIZE ++ pk.
Proof.
  unfold write_mlkem_public. destruct (Z.eqb_spec (len pk) MLKEM_PUBLIC_KEY_SIZE) as [He|He].
  - rewrite He. unfold write_all. cbn [negb wseq fst snd]. naive_solver.
  - unfold write_err. naive_solver.
Qed.

Lemma server_finish_Ok clients e x_shared pq ch sr sid pre s o session hello sid' rest :
  allowlist_wf clients → e ∈ entries clients →
  drive (server_finished_exchange clients (ac_key_id e) x_shared pq ch sr sid pre) s
    = (o, Ok (session, hello, sid', rest)) →
  ∃ keys app fin_c cf, let sf := mkServerFinished (hmac (ac_psk e)
      (server_proof_message (ac_key_id e) pre (ClientFinished_encode cf))) in
    s = fin_c ++ rest ∧ hello = ch ∧ sid' = sid
    ∧ derive_handshake_traffic_keys x_shared pq (ch_client_random ch) sr pre false = Ok keys
    ∧ unseal (recv_key keys) (nonce_from_counter 0)
        (finished_aad CLIENT_FINISHED_AAD_DOMAIN pre) fin_c = Some (ClientFinished_encode cf)
    ∧ seal (send_key keys) (nonce_from_counter 0)
        (finished_aad SERVER_FINISHED_AAD_DOMAIN pre) (ServerFinished_encode sf) = Some o
    ∧ cf_key_id cf = ac_key_id e
    ∧ ed25519_verify (ac_public_key e) (client_proof_message (ac_key_id e) pre)
        (cf_signature cf) = true
    ∧ cf_psk_mac cf = hmac (ac_psk e) (client_proof_message (ac_key_id e) pre)
    ∧ derive_application_traffic_keys x_shared pq (ac_psk e) (ch_client_random ch) sr
        (finished_transcript pre (ClientFinished_encode cf) (ServerFinished_encode sf)) false = Ok app
    ∧ session = mkAuthenticatedSession (session_of_keys app) (ch_padding_profile ch) (ac_key_id e).
Proof.
  intros Hw He H. unfold server_finished_exchange in H. cbv zeta in H.
  apply drive_lift_Ok in H as (keys & Hkeys & H).
  apply drive_get_Ok in H as (fin_c & s4 & [-> _]%read_exact_Ok & H).
  destruct (AeadSession_decrypt _ _ _) as [aead decrypted] eqn:Hdec.
  apply drive_lift_Ok in H as (plain & -> & H). apply fresh_decrypt in Hdec as [Hdec ->].
  apply drive_lift_Ok in H as (cf & (_ & _ & _ & ->)%ClientFinished_decode_Ok & H).
  apply drive_lift_Ok in H as (verified & Hver & H).
  apply verify_finished_for_key_Ok in Hver as (Hcf & e' & He' & Hk' & Hsig & Hmac & ->); [|done].
  assert (e' = e) as -> by (by eapply key_ids_unique).
  apply drive_lift_Ok in H as (fin_s & Henc%reply_encrypt & H).
  apply drive_ensure_Ok in H as [_ H].
  apply drive_put_Ok in H as (b' & o4 & Hput' & H & ->). injection Hput' as <-.
  apply drive_lift_Ok in H as (app & Happ & H). apply drive_ret_Ok in H as [-> [= -> -> -> ->]].
  exists keys, app, fin_c, cf. by rewrite app_nil_r.
Qed.

Lemma server_accept_Ok (state : ServerState) (clients : AuthorizedClients)
    (cam : CamouflageMode) (car : CarrierBinding) (coins : ServerCoins) (dummy : bytes)
    (inbound out rest : bytes) (session : AuthenticatedSession) (hello : ClientHello) (sid : bytes) :
  allowlist_wf clients → k_dummy_psk coins = Some dummy → len dummy = CLIENT_PSK_LEN →
  drive (server_accept_bound state clients cam car coins) inbound
    = (out, Ok (session, hello, sid, rest)) →
  ∃ e v, e ∈ entries clients
    ∧ server_conversation state cam car coins e v inbound out rest session
    ∧ v_client_hello v = hello ∧ sh_session_id (v_server_hello v) = sid.
Proof.
  intros Hw Hd Hl H. unfold server_accept_bound in H. cbv zeta in H. rewrite Hd in H.
  apply drive_ensure_Ok in H as [_ H].
  apply drive_get_Ok in H as (kid & s1 & [-> Hkid]%read_exact_Ok & H).
  apply drive_lift_Ok in H as ([sp pend] & Hb & H).
  apply drive_put_Ok in H as (b & o1 & Hput & H & ->). injection Hput as <-.
  apply drive_get_Ok in H as (capb & s2 & [-> _]%read_exact_Ok & H).
  apply drive_lift_Ok in H as (cap & (Hnonce & _ & ->)%ClientAccessProof_decode_Ok & H).
  apply drive_lift_Ok in H as (kid' & Hv & H).
  apply (access_gate _ _ _ _ _ _ _ _ _ _ Hw Hl Hb) in Hv as (-> & e & He & <- & Htag).
  apply begin_access_Ok in Hb as [-> ->]; [|done..].
  unfold access_psk in *. rewrite (proj2 (find_entry_Some clients (ac_key_id e) e Hw)) in * by done.
  apply drive_put_Ok in H as (b & o2 & [Hpk ->]%write_mlkem_public_Ok & H & ->).
  apply drive_get_Ok in H as (ch & s3 & (Hch & hb & Hhb & ->)%read_client_hello_iff & H).
  apply drive_ensure_Ok in H as [Hmagic%Z.eqb_eq H].
  apply drive_ensure_Ok in H as [Hversion%Z.eqb_eq H].
  apply drive_ensure_Ok in H as [Hcam%bool_decide_eq_true H].
  apply drive_lift_Ok in H as (ct & [_ [= <-]]%if_err_Ok & H).
  apply drive_lift_Ok in H as (x_shared & Hx & H).
  apply drive_put_Ok in H as (b & o3 & Hput & H & ->). apply (f_equal fst) in Hput.
  apply server_finish_Ok in H as (keys & app & fin_c & cf & -> & -> & -> & Hkeys & Hdec & Henc & Hcf
    & Hsig & Hmac & Happ & ->); [|done..].
  set (sap := mkServerAccessProof _ _) in *. set (sh := mkServerHello _ _ _) in *.
  set (sf := mkServerFinished _) in *.
  exists e, (mkView (ac_key_id e) sap cap (mlkem_public state) ch sh car cf sf).
  split; [done|]. split; [|done]. split; try done.
  exists hb, fin_c, o3. cbn -[write_client_hello write_server_hello].
  split_and!; [done|done| |].
  - rewrite Hput. cbn [fst]. by rewrite <- !app_assoc.
  - by exists x_shared, keys, app.
Qed.

Lemma client_finish_Ok config x_shared pq cr sh pre s o session sid rest :
  let credential := cfg_client_credential config in
  drive (client_finished_exchange config x_shared pq cr sh pre) s = (o, Ok (session, sid, rest)) →
  ∃ keys app fin_s cf sf,
    s = fin_s ++ rest ∧ sid = sh_session_id sh
    ∧ derive_handshake_traffic_keys x_shared pq cr (sh_server_random sh) pre true = Ok keys
    ∧ sign_finished credential pre = Ok cf
    ∧ seal (send_key keys) (nonce_from_counter 0)
        (finished_aad CLIENT_FINISHED_AAD_DOMAIN pre) (ClientFinished_encode cf) = Some o
    ∧ unseal (recv_key keys) (nonce_from_counter 0)
        (finished_aad SERVER_FINISHED_AAD_DOMAIN pre) fin_s = Some (ServerFinished_encode sf)
    ∧ sf_psk_mac sf = hmac (cc_psk credential)
        (server_proof_message (cc_key_id credential) pre (ClientFinished_encode cf))
    ∧ derive_application_traffic_keys x_shared pq (cc_psk credential) cr (sh_server_random sh)
        (finished_transcript pre (ClientFinished_encode cf) (ServerFinished_encode sf)) true = Ok app
    ∧ session = mkAuthenticatedSession (session_of_keys app) (cfg_padding_profile config)
                  (cc_key_id credential).
Proof.
  intros credential H. unfold client_finished_exchange in H. cbv zeta in H.
  apply drive_lift_Ok in H as (keys & Hkeys & H).
  apply drive_lift_Ok in H as (cf & Hcf & H).
  destruct (AeadSession_encrypt _ _ _) as [aead encrypted] eqn:Henc.
  apply drive_lift_Ok in H as (fin_c & -> & H). apply fresh_encrypt in Henc as [Henc ->].
  apply drive_ensure_Ok in H as [_ H].
  apply drive_put_Ok in H as (b & o4 & Hput & H & ->). injection Hput as <-.
  apply drive_get_Ok in H as (fin_s & s4 & [-> _]%read_exact_Ok & H).
  apply drive_lift_Ok in H as (plain & Hdec%reply_decrypt & H).
  apply drive_lift_Ok in H as (sf & [_ ->]%ServerFinished_decode_Ok & H).
  apply drive_lift_Ok in H as ([] & Hsf%verify_server_finished_Ok & H).
  apply drive_lift_Ok in H as (app & Happ & H). apply drive_ret_Ok in H as [-> [= -> -> ->]].
  exists keys, app, fin_s, cf, sf. by rewrite app_nil_r.
Qed.

Lemma client_connect_Ok (config : ClientConfig) (pins : ServerPins)
    (car : CarrierBinding) (coins : ClientCoins) (inbound out rest : bytes)
    (session : AuthenticatedSession) (sid : bytes) :
  drive (client_connect_pins_bound config pins car coins) inbound = (out, Ok (session, sid, rest)) →
  ∃ v, client_conversation config pins car coins v inbound out rest session
    ∧ sh_session_id (v_server_hello v) = sid.
Proof.
  intros H. unfold client_connect_pins_bound in H. cbv zeta in H.
  apply drive_ensure_Ok in H as [_ H].
  apply drive_put_Ok in H as (b & o1 & Hput & H & ->). injection Hput as <-.
  apply drive_get_Ok in H as (sapb & s1 & [-> _]%read_exact_Ok & H).
  apply drive_lift_Ok in H as (sap & (Hch & _ & ->)%ServerAccessProof_decode_Ok & H).
  apply drive_lift_Ok in H as (cap & Hcap & H).
  apply verify_server_access_and_prove_Ok in Hcap as (Hsap & n & Hn & ->).
  apply drive_put_Ok in H as (b & o2 & Hput & H & ->). injection Hput as <-.
  apply drive_get_Ok in H as (pk & s2 & Hpk & H).
  apply (read_server_messages_iff _ _ (mkServerHello [] [] []) pk) in Hpk
    as (b & [Hlen ->]%write_mlkem_public_Ok & ->).
  apply drive_ensure_Ok in H as [Hpin H].
  apply drive_lift_Ok in H as (pk' & Hpk & H). unfold mlkem_public_from_bytes in Hpk.
  apply if_err_Ok in Hpk as [_ [Hvalid%negb_false_iff [= <-]]%if_err_Ok].
  destruct (mlkem_encapsulate pk (k_kem_coins coins)) as [ct pq] eqn:Hkem.
  apply drive_put_Ok in H as (hb & o3 & Hhb & H & ->).
  apply drive_get_Ok in H as (sh & s3 & Hsh & H).
  apply (read_server_messages_iff _ _ sh []) in Hsh as (Hr & Hxl & Hsid & b & Hb%(f_equal fst) & ->).
  cbn [fst] in Hb. subst b.
  apply drive_lift_Ok in H as (x_shared & Hx & H).
  apply client_finish_Ok in H as (keys & app & fin_s & cf & sf & -> & -> & Hkeys & Hcf & Henc & Hdec
    & Hsf & Happ & ->).
  set (cap := mkClientAccessProof _ _) in *. set (ch := mkClientHello _ _ _ _ _ _ _) in *.
  exists (mkView (cc_key_id (cfg_client_credential config)) sap cap pk ch sh car cf sf).
  split; [|done]. split; try done.
  - exists hb, o3, fin_s. cbn -[write_client_hello write_server_hello].
    split_and!; [done|by rewrite <- !app_assoc|done|].
    rewrite Hkem. by exists x_shared, keys, app.
  - by exists n.
  - cbn. by rewrite Hkem.
Qed.

(** C8: Against arbitrary bytes: if the server returns a session, some enrolled client's access
    tag, Ed25519 signature and finished tag were verified over the messages of this very
    exchange, including the carrier and framing the server observed, and the session keys
    are derived from them; if the client returns a session, the server proved the pre-shared
    key twice over the same messages and its key is pinned. *)
Theorem handshake_authenticates (state : ServerState) (clients : AuthorizedClients)
    (cam : CamouflageMode) (car : CarrierBinding) (ks : ServerCoins) (dummy : bytes)
    (config : ClientConfig) (pins : ServerPins) (kc : ClientCoins)
    (inbound out rest : bytes) (session : AuthenticatedSession) (sid : bytes) :
  (∀ hello, allowlist_wf clients → k_dummy_psk ks = Some dummy → len dummy = CLIENT_PSK_LEN →
     drive (server_accept_bound state clients cam car ks) inbound
       = (out, Ok (session, hello, sid, rest)) →
     ∃ e v, e ∈ entries clients
       ∧ server_conversation state cam car ks e v inbound out rest session
       ∧ v_client_hello v = hello ∧ sh_session_id (v_server_hello v) = sid)
  ∧ (drive (client_connect_pins_bound config pins car kc) inbound
       = (out, Ok (session, sid, rest)) →
     ∃ v, client_conversation config pins car kc v inbound out rest session
       ∧ sh_session_id (v_server_hello v) = sid).
Proof.
  split; [intros hello Hw Hd Hl|]; [by apply server_accept_Ok with (dummy := dummy)|].
  apply client_connect_Ok.
Qed.

(** ** What is written before the peer has proved itself *)

Lemma server_gate (state : ServerState) (clients : AuthorizedClients)
    (cam : CamouflageMode) (car : CarrierBinding) (coins : ServerCoins) (dummy : bytes)
    (inbound out : bytes) (r : result HandshakeError (AuthenticatedSession * ClientHello * bytes * bytes)) :
  allowlist_wf clients → k_dummy_psk coins = Some dummy → len dummy = CLIENT_PSK_LEN →
  drive (server_accept_bound state clients cam car coins) inbound = (out, r) →
  let answer kid := mkServerAccessProof (k_access_challenge coins)
    (hmac (access_psk clients dummy kid)
       (server_access_proof_message (k_access_challenge coins) kid cam car)) in
  is_ok r = false
    ∧ (out = [] ∨ ∃ kid more, inbound = kid ++ more ∧ len kid = CLIENT_KEY_ID_LEN
                    ∧ out = ServerAccessProof_encode (answer kid))
  ∨ ∃ e cap rest, e ∈ entries clients
      ∧ inbound = ac_key_id e ++ ClientAccessProof_encode cap ++ rest
      ∧ cap_psk_mac cap = access_tag (ac_psk e) (answer (ac_key_id e)) (ac_key_id e)
                            (cap_client_nonce cap) cam car.
Proof.
  intros Hw Hd Hl H answer. unfold server_accept_bound in H. cbv zeta in H. rewrite Hd in H.
  rewrite drive_ensure in H. destruct (negb _); [|injection H as <- <-; by left; auto].
  rewrite drive_get in H. destruct (read_access_hello inbound) as [[kid s1]|] eqn:Hr;
    [apply read_exact_Ok in Hr as [-> Hkid]|injection H as <- <-; by left; auto].
  rewrite drive_lift in H. destruct (begin_access _ _ _ _ _ _) as [[sp pend]|] eqn:Hb;
    [|injection H as <- <-; by left; auto].
  unfold write_server_access_proof in H. rewrite drive_write in H.
  pose proof Hb as [Hsp _]%begin_access_Ok; [|done..]. fold (answer kid) in Hsp.
  rewrite drive_get in H. destruct (read_access_proof s1) as [[capb s2]|] eqn:Hr;
    [apply read_exact_Ok in Hr as [-> _]|].
  2:{ injection H as <- <-. left. split; [done|]. right. eexists kid, _.
      split; [reflexivity|split; [exact (eq_sym Hkid)|by rewrite app_nil_r, Hsp]]. }
  rewrite drive_lift in H. destruct (ClientAccessProof_decode capb) as [cap|] eqn:Hdec;
    [apply ClientAccessProof_decode_Ok in Hdec as (_ & _ & ->)|].
  2:{ injection H as <- <-. left. split; [done|]. right. eexists kid, _.
      split; [reflexivity|split; [exact (eq_sym Hkid)|by rewrite app_nil_r, Hsp]]. }
  rewrite drive_lift in H. destruct (PendingClientAccess_verify _ _ _ _ _) as [kid'|] eqn:Hv.
  2:{ injection H as <- <-. left. split; [done|]. right. eexists kid, _.
      split; [reflexivity|split; [exact (eq_sym Hkid)|by rewrite app_nil_r, Hsp]]. }
  right. apply (access_gate _ _ _ _ _ _ _ _ _ _ Hw Hl Hb) in Hv as (_ & e & He & <- & Htag).
  exists e, cap, s2. by rewrite <- Hsp.
Qed.

Lemma client_gate (config : ClientConfig) (pins : ServerPins) (car : CarrierBinding)
    (coins : ClientCoins) (inbound out : bytes)
    (r : result HandshakeError (AuthenticatedSession * bytes * bytes)) :
  let kid := cc_key_id (cfg_client_credential config) in
  let psk := cc_psk (cfg_client_credential config) in
  drive (client_connect_pins_bound config pins car coins) inbound = (out, r) →
  is_ok r = false ∧ (out = [] ∨ out = kid)
  ∨ ∃ sap rest nonce more, inbound = ServerAccessProof_encode sap ++ rest
    ∧ sap_psk_mac sap = hmac psk (server_access_proof_message (sap_challenge sap) kid (cfg_camouflage config) car)
    ∧ k_access_nonce coins = Some nonce
    ∧ out = kid ++ ClientAccessProof_encode (mkClientAccessProof nonce
                     (access_tag psk sap kid nonce (cfg_camouflage config) car)) ++ more
    ∧ (is_ok r = false ∧ more = []
       ∨ ∃ pk rest', read_mlkem_public rest = Ok (pk, rest')
         ∧ ServerPins_matches pins (mlkem_fingerprint pk) = true ∧ mlkem_valid pk = true).
Proof.
  intros kid psk H. unfold client_connect_pins_bound in H. cbv zeta in H.
  rewrite drive_ensure in H. destruct (negb _); [|injection H as <- <-; by left; auto].
  unfold write_access_hello in H. rewrite drive_write in H.
  destruct (drive _ inbound) as [o1 r1] eqn:H1. injection H as <- <-.
  rewrite drive_get in H1. destruct (read_server_access_proof inbound) as [[sapb s1]|] eqn:Hr;
    [apply read_exact_Ok in Hr as [-> _]|injection H1 as <- <-; left; rewrite app_nil_r; by auto].
  rewrite drive_lift in H1. destruct (ServerAccessProof_decode sapb) as [sap|] eqn:Hs;
    [apply ServerAccessProof_decode_Ok in Hs as (_ & _ & ->)
    |injection H1 as <- <-; left; rewrite app_nil_r; by auto].
  rewrite drive_lift in H1. destruct (verify_server_access_and_prove _ _ _ _ _) as [cap|] eqn:Hv;
    [apply verify_server_access_and_prove_Ok in Hv as (Hsap & n & Hnonce & ->)
    |injection H1 as <- <-; left; rewrite app_nil_r; by auto].
  right. unfold write_access_proof in H1. rewrite drive_write in H1.
  destruct (drive _ s1) as [o2 r2] eqn:H2. injection H1 as <- <-.
  exists sap, s1, n, o2. split_and!; [done..|].
  rewrite drive_get in H2. destruct (read_mlkem_public s1) as [[pk s2]|] eqn:Hpk;
    [|injection H2 as <- <-; by left].
  rewrite drive_ensure in H2. destruct (ServerPins_matches _ _) eqn:Hpin;
    [|injection H2 as <- <-; by left].
  rewrite drive_lift in H2. destruct (mlkem_public_from_bytes pk) as [pk'|] eqn:Hm;
    [|injection H2 as <- <-; by left].
  right. exists pk, s2. split_and!; [done..|]. unfold mlkem_public_from_bytes in Hm.
  by apply if_err_Ok in Hm as [_ [Hvalid%negb_false_iff _]%if_err_Ok].
Qed.

(** C29: Against arbitrary bytes, for a server with a well-formed allowlist and a drawn dummy
    key: unless the caller sends a valid access tag of an enrolled client for this challenge,
    the server fails and has written nothing or the one challenge for the identifier it read,
    which for an unknown identifier has the same form under the dummy key.  The client, until
    the server proved the pre-shared key for its identifier, fails and has written nothing or
    exactly its identifier; then exactly the identifier and its own proof over the nonce it
    drew, until the received key matched a pin and is valid. *)
Theorem handshake_gates (state : ServerState) (clients : AuthorizedClients)
    (cam : CamouflageMode) (car : CarrierBinding) (ks : ServerCoins) (dummy : bytes)
    (config : ClientConfig) (pins : ServerPins) (kc : ClientCoins) (inbound : bytes) :
  allowlist_wf clients → k_dummy_psk ks = Some dummy → len dummy = CLIENT_PSK_LEN →
  (∀ out r, drive (server_accept_bound state clients cam car ks) inbound = (out, r) →
     let answer kid := mkServerAccessProof (k_access_challenge ks)
       (hmac (access_psk clients dummy kid)
          (server_access_proof_message (k_access_challenge ks) kid cam car)) in
     is_ok r = false
       ∧ (out = [] ∨ ∃ kid more, inbound = kid ++ more ∧ len kid = CLIENT_KEY_ID_LEN
                       ∧ out = ServerAccessProof_encode (answer kid))
     ∨ ∃ e cap rest, e ∈ entries clients
         ∧ inbound = ac_key_id e ++ ClientAccessProof_encode cap ++ rest
         ∧ cap_psk_mac cap = access_tag (ac_psk e) (answer (ac_key_id e)) (ac_key_id e)
                               (cap_client_nonce cap) cam car)
  ∧ (∀ out r, drive (client_connect_pins_bound config pins car kc) inbound = (out, r) →
     let kid := cc_key_id (cfg_client_credential config) in
     let psk := cc_psk (cfg_client_credential config) in
     is_ok r = false ∧ (out = [] ∨ out = kid)
     ∨ ∃ sap rest nonce more, inbound = ServerAccessProof_encode sap ++ rest
       ∧ sap_psk_mac sap = hmac psk (server_access_proof_message (sap_challenge sap) kid (cfg_camouflage config) car)
       ∧ k_access_nonce kc = Some nonce
       ∧ out = kid ++ ClientAccessProof_encode (mkClientAccessProof nonce
                        (access_tag psk sap kid nonce (cfg_camouflage config) car)) ++ more
       ∧ (is_ok r = false ∧ more = []
          ∨ ∃ pk rest', read_mlkem_public rest = Ok (pk, rest')
            ∧ ServerPins_matches pins (mlkem_fingerprint pk) = true ∧ mlkem_valid pk = true)).
Proof.
  intros. split; intros out r Hrun; [by eapply server_gate|by eapply client_gate].
Qed.
End Soundness.

(** ** Transcripts determine conversations *)

Lemma transcript_field_inj tag v v' r r' : len v < 2 ^ 32 → len v' < 2 ^ 32 →
  append_transcript_field tag v ++ r = append_transcript_field tag v' ++ r' → v = v' ∧ r = r'.
Proof.
  intros Hv Hv' H. pose proof (len_nonneg v). pose proof (len_nonneg v').
  unfold append_transcript_field in H. rewrite <- !app_assoc in H.
  apply app_inj_len in H as [_ H]; [|done]. apply app_inj_len in H as [Hl H]; [|by rewrite !len_be_bytes].
  rewrite !Z.mod_small in Hl by lia. apply be_bytes_inj in Hl; [|split; done..].
  by apply app_inj_len in H.
Qed.

(** The widths of the fields, as the arrays of the source have them. *)
Record view_wf (v : View) : Prop := {
  vw_access_hello : len (v_access_hello v) = 16;
  vw_challenge : len (sap_challenge (v_server_access v)) = 32;
  vw_server_mac : len (sap_psk_mac (v_server_access v)) = 32;
  vw_nonce : len (cap_client_nonce (v_client_access v)) = 32;
  vw_client_mac : len (cap_psk_mac (v_client_access v)) = 32;
  vw_server_pk : len (v_server_pk v) = MLKEM_PUBLIC_KEY_SIZE;
  vw_client_hello : ClientHello_wf (v_client_hello v);
  vw_ciphertext : len (ch_mlkem_ciphertext (v_client_hello v)) = MLKEM_CIPHERTEXT_SIZE;
  vw_server_random : len (sh_server_random (v_server_hello v)) = 16;
  vw_server_x : len (sh_x25519_public (v_server_hello v)) = 32;
  vw_session_id : len (sh_session_id (v_server_hello v)) = 8;
}.

Section Transcript.
Context {Cr : AuthCrypto} {Bu : BuildConfig}.

Lemma view_canonical_inj (v v' : View) : view_wf v → view_wf v' →
  view_canonical v = view_canonical v' →
  v_access_hello v = v_access_hello v' ∧ v_server_access v = v_server_access v'
  ∧ v_client_access v = v_client_access v' ∧ v_server_pk v = v_server_pk v'
  ∧ v_client_hello v = v_client_hello v' ∧ v_server_hello v = v_server_hello v'
  ∧ v_carrier v = v_carrier v'.
Proof.
  intros [? ? ? ? ? ? [? ? ? ?] ? ? ? ?] [? ? ? ? ? ? [? ? ? ?] ? ? ? ?] H.
  destruct v as [kid [sc sm] [cn cm] pk [mg vn cr cx ct cam pp] [sr sx sid] car cf sf].
  destruct v' as [kid' [sc' sm'] [cn' cm'] pk' [mg' vn' cr' cx' ct' cam' pp'] [sr' sx' sid'] car' cf' sf'].
  unfold view_canonical, canonical_transcript in H.
  cbn -[append_transcript_field be_bytes app TRANSCRIPT_DOMAIN] in *.
  apply app_inj_len in H as [_ H]; [|done].
  rewrite <- (app_nil_r (append_transcript_field 20 [bz (CarrierBinding_repr car)])),
    <- (app_nil_r (append_transcript_field 20 [bz (CarrierBinding_repr car')])) in H.
  unfold ServerAccessProof_encode, ClientAccessProof_encode in H. cbn -[append_transcript_field app] in H.
  repeat match type of H with
  | append_transcript_field ?n _ ++ _ = _ =>
      let E := fresh "E" in apply transcript_field_inj in H as [E H];
      [|solve [rewrite ?len_app, ?len_be_bytes; unfold MLKEM_PUBLIC_KEY_SIZE, MLKEM_CIPHERTEXT_SIZE in *; (reflexivity || lia)]..]
  end.
  repeat match goal with
  | E : ?a ++ _ = _ ++ _ |- _ => apply app_inj_len in E as [? E]; [|congruence]
  end.
  settle_fields. by subst.
Qed.
End Transcript.

(** ** Agreement *)

(** Random values of the widths the code draws. *)
Record client_coins_wf (k : ClientCoins) : Prop := {
  kw_nonce : ∀ n, k_access_nonce k = Some n → len n = CLIENT_ACCESS_NONCE_LEN;
  kw_client_random : len (k_client_random k) = 16;
}.
Record server_coins_wf (k : ServerCoins) : Prop := {
  kw_challenge : len (k_access_challenge k) = SERVER_ACCESS_CHALLENGE_LEN;
  kw_server_random : len (k_server_random k) = 16;
  kw_session_id : len (k_session_id k) = 8;
}.

Section Agreement.
Context {Cr : AuthCrypto} {CL : AuthCryptoLaws Cr} {Bu : BuildConfig}.
Context {Hc : HandshakeCrypto} {HL : HandshakeCryptoLaws Hc} {Ae : Aead}.

Lemma client_view_wf config pins car coins v inbound out rest session :
  client_coins_wf coins → credential_wf (cfg_client_credential config) →
  client_conversation config pins car coins v inbound out rest session → view_wf v.
Proof.
  intros [Hn Hr] Hcr [_ Hw Hid Hsm (n & Hnonce & Hca) (_ & _ & Hpk) Hch (? & ? & ?) _ _ _].
  split; try done.
  - rewrite Hid. by apply credential_key_id_length.
  - rewrite Hsm. apply hmac_length.
  - rewrite Hca. by apply Hn.
  - rewrite Hca. apply hmac_length.
  - rewrite Hch. split; [apply BUILD_MAGIC_u32|done|done|apply x25519_public_length].
  - rewrite Hch. apply mlkem_ciphertext_length.
Qed.

Lemma server_view_wf state cam car coins e v inbound out rest session :
  server_coins_wf coins →
  server_conversation state cam car coins e v inbound out rest session → view_wf v.
Proof.
  intros [Hcl Hr Hs] [(hello & _ & _ & Hh & _) (? & ? & ?) _ Hsa Hca _ (? & _) Hsh _ _ _ _ _].
  apply write_client_hello_Ok in Hh as [? _]. split; try done.
  - by rewrite Hsa.
  - rewrite Hsa. apply hmac_length.
  - rewrite Hca. apply hmac_length.
  - by rewrite Hsh.
  - rewrite Hsh. apply x25519_public_length.
  - by rewrite Hsh.
Qed.

(** The two sides of one derivation. *)
Lemma keys_mirror domain x pq psk cr sr t kc ks :
  derive_v3_traffic_keys domain (mkV3TrafficKeyInputs x pq psk cr sr t true) = Ok kc →
  derive_v3_traffic_keys domain (mkV3TrafficKeyInputs x pq psk cr sr t false) = Ok ks →
  send_key kc = recv_key ks ∧ recv_key kc = send_key ks.
Proof.
  unfold derive_v3_traffic_keys.
  cbn [ki_x_shared ki_pq_shared ki_client_psk ki_client_random ki_server_random ki_transcript
    ki_client_to_server].
  destruct (hkdf_sha256 _ _ _ _); cbn; [|done]. by intros [= <-] [= <-].
Qed.

(** Both directions of two sessions are in step. *)
Definition sessions_synced (c s : AuthenticatedSession) : Prop :=
  synced (AuthenticatedSession_split c).1 (AuthenticatedSession_split s).2
  ∧ synced (AuthenticatedSession_split s).1 (AuthenticatedSession_split c).2.

Lemma x25519_shared_comm a b x y :
  x25519_ephemeral_shared a (x25519_public b) = Ok x →
  x25519_ephemeral_shared b (x25519_public a) = Ok y → x = y.
Proof. unfold x25519_ephemeral_shared. rewrite (x25519_dh_comm a b). congruence. Qed.

(** C9: If client and server completed with the same client proof, and the tag and the
    transcript hash do not collide on their two views, then both have the same view of every
    message, the same carrier and framing, and their sessions are in step in both
    directions. *)
Theorem handshake_agreement (config : ClientConfig) (pins : ServerPins) (state : ServerState)
    (cam : CamouflageMode) (car_c car_s : CarrierBinding) (kc : ClientCoins) (ks : ServerCoins)
    (vc vs : View) (in_c out_c rest_c in_s out_s rest_s : bytes)
    (session_c session_s : AuthenticatedSession) :
  let credential := cfg_client_credential config in
  credential_wf credential → client_coins_wf kc → server_coins_wf ks →
  mlkem_public state = mlkem_public_of (mlkem_secret state) →
  client_conversation config pins car_c kc vc in_c out_c rest_c session_c →
  server_conversation state cam car_s ks (enrolled credential) vs in_s out_s rest_s session_s →
  v_client_finished vs = v_client_finished vc →
  (hmac (cc_psk credential) (client_proof_message (cc_key_id credential) (view_pre vs))
   = hmac (cc_psk credential) (client_proof_message (cc_key_id credential) (view_pre vc)) →
   view_canonical vs = view_canonical vc) →
  vs = vc ∧ cam = cfg_camouflage config ∧ car_s = car_c ∧ sessions_synced session_c session_s.
Proof.
  intros cred Hcred Hkc Hks Hkem Hvc Hvs Hfin Hcoll.
  pose proof (client_view_wf _ _ _ _ _ _ _ _ _ Hkc Hcred Hvc) as Hwc.
  pose proof (server_view_wf _ _ _ _ _ _ _ _ _ _ Hks Hvs) as Hws.
  destruct Hvc as [(? & ? & ? & _ & _ & _ & xc & keys & app & Hxc & _ & _ & _ & Happ & ->)
    _ _ _ _ _ Hch _ Hcar Hcf Hsf].
  destruct Hvs as [(? & ? & ? & _ & _ & _ & xs & keys' & app' & Hxs & _ & _ & _ & Happ' & ->)
    _ _ _ _ Hpk (_ & _ & _ & Hcam) Hsh Hcar' _ _ Hmac Hsf'].
  rewrite sign_finished_Ok in Hcf. injection Hcf as Hcf.
  destruct (view_canonical_inj vs vc Hws Hwc) as (E1 & E2 & E3 & E4 & E5 & E6 & E7).
  { apply Hcoll. etrans; [symmetry; exact Hmac|]. by rewrite Hfin, <- Hcf. }
  assert (vs = vc) as ->.
  { assert (view_canonical vs = view_canonical vc) as Ecan
      by (unfold view_canonical; by rewrite E1, E2, E3, E4, E5, E6, E7).
    unfold view_pre in Hsf, Hsf'. rewrite Ecan, Hfin in Hsf'.
    assert (v_server_finished vs = v_server_finished vc) as E8.
    { rewrite Hsf'. destruct (v_server_finished vc) as [m]. cbn in Hsf |- *. by rewrite Hsf. }
    destruct vs, vc. cbn in Hfin, E1, E2, E3, E4, E5, E6, E7, E8. congruence. }
  rewrite Hch in Hcam. rewrite Hsh in Hxc. rewrite Hch in Hxs. cbn in Hcam, Hxc, Hxs.
  assert (xs = xc) as -> by (by eapply x25519_shared_comm).
  rewrite Hpk, Hkem in Happ. rewrite Hch, Hpk, Hkem in Happ'. cbn [ch_mlkem_ciphertext] in Happ'.
  rewrite mlkem_correct in Happ'. rewrite <- Hkem, <- Hpk in Happ, Happ'.
  destruct (keys_mirror _ _ _ _ _ _ _ _ _ Happ Happ') as [Hk1 Hk2].
  split_and!; [done|done|congruence|]. by repeat split.
Qed.
End Agreement.

(** ** Stability of the handshake *)

Lemma stable_read_client_hello : stable_reader read_client_hello.
Proof. unfold read_client_hello, read_blob16_exact. auto 25 with stable. Qed.
Lemma stable_read_server_hello : stable_reader read_server_hello.
Proof. unfold read_server_hello. auto 10 with stable. Qed.
Lemma stable_read_mlkem_public : stable_reader read_mlkem_public.
Proof. unfold read_mlkem_public, read_blob16_exact. auto with stable. Qed.

#[export] Hint Resolve stable_read_client_hello stable_read_server_hello stable_read_mlkem_public : stable.

Section Stable.
Context {Cr : AuthCrypto} {Bu : BuildConfig} {Hc : HandshakeCrypto} {Ae : Aead}.
Lemma client_stable config pins car coins : stable (client_connect_pins_bound config pins car coins).
Proof.
  unfold client_connect_pins_bound, client_finished_exchange, read_server_access_proof,
    read_fixed_finished. cbv zeta.
  stable_proc.
Qed.
Lemma server_stable state clients cam car coins :
  stable (server_accept_bound state clients cam car coins).
Proof.
  unfold server_accept_bound, server_finished_exchange, read_access_hello, read_access_proof,
    read_fixed_finished. cbv zeta.
  stable_proc.
Qed.
End Stable.

(** ** The honest run *)

Section Honest.
Context {Cr : AuthCrypto} {CL : AuthCryptoLaws Cr} {Bu : BuildConfig}.
Context {Hc : HandshakeCrypto} {HL : HandshakeCryptoLaws Hc} {Ae : Aead} {AL : AeadLaws Ae}.

(** Both calls have returned sessions that are in step, and nothing is left unread. *)
Definition established (config : ClientConfig)
    (n : Net HandshakeError HandshakeError (AuthenticatedSession * bytes)
           (AuthenticatedSession * ClientHello * bytes)) : Prop :=
  ∃ session_c session_s hello sid,
    n = mkNet (Done (Ok (session_c, sid))) (Done (Ok (session_s, hello, sid))) [] []
    ∧ sessions_synced session_c session_s
    ∧ au_client_key_id session_s = cc_key_id (cfg_client_credential config)
    ∧ au_padding_profile session_s = au_padding_profile session_c.

Lemma read_exact_all n b : n = len b → read_exact n b = Ok (b, []).
Proof. intros ->. apply read_exact_Ok. by rewrite app_nil_r. Qed.

Lemma derive_total domain x pq psk cr sr t :
  ∃ kc ks, derive_v3_traffic_keys domain (mkV3TrafficKeyInputs x pq psk cr sr t true) = Ok kc
    ∧ derive_v3_traffic_keys domain (mkV3TrafficKeyInputs x pq psk cr sr t false) = Ok ks
    ∧ send_key kc = recv_key ks ∧ recv_key kc = send_key ks.
Proof.
  unfold derive_v3_traffic_keys. cbn -[hkdf_sha256 nul_terminated].
  edestruct (hkdf_length t) as (out & Hout & _); [|rewrite Hout; by repeat eexists]. done.
Qed.

Lemma seal_finished k n domain pre p l : len domain ≤ 64 → len pre = 32 → len p = l → l ≤ 128 →
  ∃ c, seal k n (finished_aad domain pre) p = Some c ∧ len c = l + CHACHA20_POLY1305_TAG_LEN.
Proof.
  intros. destruct (seal_total k n (finished_aad domain pre) p) as [c Hs];
    [lia|unfold finished_aad; rewrite len_app; lia|].
  exists c. split; [done|]. apply seal_length in Hs. unfold CHACHA20_POLY1305_TAG_LEN. lia.
Qed.

Lemma signed_finished_length c t : credential_wf c →
  len (ClientFinished_encode (mkClientFinished (cc_key_id c)
    (ed25519_sign (cc_seed c) (client_proof_message (cc_key_id c) t))
    (hmac (cc_psk c) (client_proof_message (cc_key_id c) t)))) = CLIENT_FINISHED_LEN.
Proof.
  intros Hcr. unfold ClientFinished_encode. cbn [cf_key_id cf_signature cf_psk_mac].
  by rewrite !len_app, ed25519_sign_length, hmac_length, credential_key_id_length.
Qed.

Lemma honest_finish config clients x_shared pq ch sh pre :
  let credential := cfg_client_credential config in
  credential_wf credential → allowlist_wf clients → enrolled credential ∈ entries clients →
  len pre = 32 → ch_padding_profile ch = cfg_padding_profile config →
  reaches (established config)
    (mkNet (client_finished_exchange config x_shared pq (ch_client_random ch) sh pre)
       (server_finished_exchange clients (cc_key_id credential) x_shared pq ch
          (sh_server_random sh) (sh_session_id sh) pre) [] []).
Proof.
  intros cred Hcred Hcl Henr Hpre Hpad. unfold client_finished_exchange, server_finished_exchange.
  cbv zeta. fold cred. set (kid := cc_key_id cred). set (psk := cc_psk cred).
  edestruct (derive_total (nul_terminated "shadowpipe-v3/handshake-traffic-keys") x_shared pq None)
    as (hc & hs & Hhc & Hhs & Hm1 & Hm2).
  eapply client_lift; [exact Hhc|]. eapply server_lift; [exact Hhs|].
  eapply client_lift; [apply sign_finished_Ok|].
  set (cf := mkClientFinished _ _ _).
  set (sf := mkServerFinished (hmac psk (server_proof_message kid pre (ClientFinished_encode cf)))).
  destruct (seal_finished (send_key hc) (nonce_from_counter 0) CLIENT_FINISHED_AAD_DOMAIN pre
    (ClientFinished_encode cf) CLIENT_FINISHED_LEN) as (fin_c & Hfc & Hlc);
    [done|done|by apply signed_finished_length|done|].
  destruct (seal_finished (send_key hs) (nonce_from_counter 0) SERVER_FINISHED_AAD_DOMAIN pre
    (ServerFinished_encode sf) SERVER_FINISHED_LEN) as (fin_s & Hfs & Hls);
    [done|done|unfold ServerFinished_encode; cbn [sf sf_psk_mac];
     by rewrite len_app, hmac_length|done|].
  destruct (AeadSession_encrypt _ _ _) as [aead enc] eqn:Henc.
  rewrite (proj2 (fresh_encrypt hc _ _ _ fin_c) (conj Hfc eq_refl)) in Henc. injection Henc as <- <-.
  eapply client_lift; [done|]. apply client_ensure; [by apply Z.eqb_eq|].
  eapply client_put; [done|]. rewrite app_nil_l.
  eapply server_get; [by apply read_exact_all|].
  destruct (AeadSession_decrypt (session_of_keys hs) _ _) as [aead dec] eqn:Hdec.
  apply unseal_seal in Hfc. rewrite Hm1 in Hfc.
  rewrite (proj2 (fresh_decrypt hs _ _ _ _) (conj Hfc eq_refl)) in Hdec. injection Hdec as <- <-.
  eapply server_lift; [done|].
  eapply server_lift; [apply (ClientFinished_decode_Ok _ cf); split_and!;
    [by apply credential_key_id_length|apply ed25519_sign_length|apply hmac_length|done]|].
  destruct (sign_verify_finished clients cred pre Hcl Hcred Henr) as (f & Hf & Hver).
  rewrite sign_finished_Ok in Hf. injection Hf as <-.
  eapply server_lift; [exact Hver|]. cbn [vc_psk vc_key_id].
  change (make_server_finished _ _ _) with sf.
  eapply server_lift; [apply reply_encrypt, Hfs|]. apply server_ensure; [by apply Z.eqb_eq|].
  eapply server_put; [done|]. rewrite app_nil_l.
  eapply client_get; [by apply read_exact_all|].
  apply unseal_seal in Hfs. rewrite <- Hm2 in Hfs.
  eapply client_lift; [apply reply_decrypt, Hfs|].
  eapply client_lift; [apply (ServerFinished_decode_Ok _ sf); split; [apply hmac_length|done]|].
  eapply client_lift; [by apply verify_server_finished_Ok|].
  edestruct (derive_total (nul_terminated "shadowpipe-v3/application-traffic-keys") x_shared pq (Some psk))
    as (ac & as' & Hac & Has & Ha1 & Ha2).
  eapply client_lift; [exact Hac|]. eapply server_lift; [exact Has|].
  apply reaches_end. eexists _, _, _, _. split; [done|]. by repeat split.
Qed.

Lemma honest_run (config : ClientConfig) (pins : ServerPins) (state : ServerState)
    (clients : AuthorizedClients) (car : CarrierBinding) (kc : ClientCoins) (ks : ServerCoins)
    (nonce dummy shared : bytes) :
  let credential := cfg_client_credential config in
  credential_wf credential → client_coins_wf kc → server_coins_wf ks → allowlist_wf clients →
  k_access_nonce kc = Some nonce → k_dummy_psk ks = Some dummy → len dummy = CLIENT_PSK_LEN →
  mlkem_public state = mlkem_public_of (mlkem_secret state) →
  enrolled credential ∈ entries clients → cfg_camouflage config ≠ DnsChunk →
  ServerPins_matches pins (mlkem_fingerprint (mlkem_public state)) = true →
  x25519_ephemeral_shared (k_x_secret kc) (x25519_public (k_server_x_secret ks)) = Ok shared →
  reaches (established config)
    (mkNet (client_connect_pins_bound config pins car kc)
       (server_accept_bound state clients (cfg_camouflage config) car ks) [] []).
Proof.
  intros cred Hcred [Hkn Hkr] [Hsc Hsr Hssid] Hcl Hn Hd Hdl Hkem Henr Hcam Hpin Hx.
  specialize (Hkn nonce Hn). pose proof (credential_key_id_length _ Hcred) as Hkid.
  unfold client_connect_pins_bound, server_accept_bound. cbv zeta. fold cred. rewrite Hd, Hn.
  apply client_ensure; [by rewrite bool_decide_false|].
  apply server_ensure; [by rewrite bool_decide_false|].
  eapply client_put; [done|]. rewrite app_nil_l.
  eapply server_get; [by apply read_exact_all|].
  set (kid := cc_key_id cred). set (psk := cc_psk cred). set (cam := cfg_camouflage config).
  assert (access_psk clients dummy kid = psk) as Hpsk
    by (unfold access_psk; by rewrite (proj2 (find_entry_Some clients kid (enrolled cred) Hcl))).
  set (sp := mkServerAccessProof (k_access_challenge ks)
    (hmac psk (server_access_proof_message (k_access_challenge ks) kid cam car))).
  set (cap := mkClientAccessProof nonce (access_tag psk sp kid nonce cam car)).
  assert (begin_access clients (Some dummy) kid (k_access_challenge ks) cam car
    = Ok (sp, mkPendingClientAccess kid psk true)) as Hbegin.
  { apply begin_access_Ok; [done..|]. rewrite Hpsk.
    by rewrite (proj2 (find_entry_Some clients kid (enrolled cred) Hcl)). }
  eapply server_lift; [exact Hbegin|]. cbv beta iota.
  eapply server_put; [done|]. rewrite app_nil_l.
  eapply client_get; [apply read_exact_all; unfold ServerAccessProof_encode; cbn [sap_challenge sap_psk_mac sp];
    by rewrite len_app, Hsc, hmac_length|].
  eapply client_lift; [apply (ServerAccessProof_decode_Ok _ sp); split_and!; [done|apply hmac_length|done]|].
  eapply client_lift; [apply verify_server_access_and_prove_Ok; split; [done|by exists nonce]|].
  fold kid psk cam cap.
  eapply client_put; [done|]. rewrite app_nil_l.
  eapply server_get; [apply read_exact_all; unfold ClientAccessProof_encode; cbn [cap_client_nonce cap_psk_mac cap];
    unfold access_tag; by rewrite len_app, Hkn, hmac_length|].
  eapply server_lift; [apply (ClientAccessProof_decode_Ok _ cap); split_and!; [done|apply hmac_length|done]|].
  eapply server_lift.
  { apply (access_gate clients dummy kid _ cam car sp _ cap kid Hcl Hdl Hbegin). split; [done|].
    by exists (enrolled cred). }
  assert (len (mlkem_public state) = MLKEM_PUBLIC_KEY_SIZE) as Hpk by (rewrite Hkem; apply mlkem_public_length).
  eapply server_put; [by apply write_mlkem_public_Ok|]. rewrite app_nil_l.
  eapply client_get.
  { apply (read_server_messages_iff _ [] (mkServerHello [] [] []) (mlkem_public state)).
    eexists. split; [by apply write_mlkem_public_Ok|]. by rewrite app_nil_r. }
  apply client_ensure; [done|].
  apply (client_lift _ _ _ _ _ _ _ (mlkem_public state)).
  { unfold mlkem_public_from_bytes. by rewrite Hpk, Hkem, mlkem_public_valid. }
  set (pk := mlkem_public state) in *.
  pose proof (mlkem_ciphertext_length pk (k_kem_coins kc)) as Hct.
  pose proof (mlkem_correct (mlkem_secret state) (k_kem_coins kc)) as Hpq. rewrite <- Hkem in Hpq.
  destruct (mlkem_encapsulate pk (k_kem_coins kc)) as [ct pq]. cbn [fst snd] in Hct, Hpq.
  set (ch := mkClientHello _ _ _ _ _ _ _). set (sh := mkServerHello _ _ _).
  pose proof (proj2 (write_client_hello_Ok ch _) (conj Hct eq_refl)) as Hwrite.
  eapply client_put; [exact Hwrite|]. rewrite app_nil_l.
  eapply server_get.
  { apply (read_client_hello_iff _ [] ch). split.
    - split; [apply BUILD_MAGIC_u32|done|done|apply x25519_public_length].
    - eexists. split; [exact Hwrite|]. by rewrite app_nil_r. }
  apply server_ensure; [by apply Z.eqb_eq|]. apply server_ensure; [by apply Z.eqb_eq|].
  apply server_ensure; [by apply bool_decide_eq_true|].
  apply (server_lift _ _ _ _ _ _ _ ct).
  { unfold mlkem_ciphertext_from_bytes. cbn [ch_mlkem_ciphertext ch]. by rewrite Hct. }
  rewrite Hpq.
  assert (x25519_ephemeral_shared (k_server_x_secret ks) (ch_x25519_public ch) = Ok shared) as Hx'.
  { unfold x25519_ephemeral_shared in *. cbn [ch_x25519_public ch]. by rewrite x25519_dh_comm. }
  eapply server_lift; [exact Hx'|]. clear Hx'.
  eapply server_put; [done|]. rewrite app_nil_l.
  eapply client_get.
  { apply (read_server_messages_iff _ [] sh []).
    split_and!; [done|apply x25519_public_length|done|].
    eexists. split; [done|]. by rewrite app_nil_r. }
  eapply client_lift; [exact Hx|].
  set (pre := pre_finished_transcript _ _ _ _ _ _ _).
  apply (honest_finish config clients shared pq ch sh pre); [done..|apply hs_sha256_length|done].
Qed.

(** C10: An enrolled client and a server whose key it pins complete the handshake if they use
    the same framing, which is not DNS chunks (both sides refuse that one), and the same
    carrier, if both random number generators deliver, the X25519 secret of the two ephemeral
    keys is contributory, the server's ML-KEM public key belongs to its secret one, the
    credential, the allowlist and the drawn values have the widths of their types, and the
    network delivers in order.  Then, under every interleaving of their steps, all runs have a
    bounded length and lead to the same final state, in which both return sessions that are
    in step and no byte is left over. *)
Theorem handshake_completes (config : ClientConfig) (pins : ServerPins) (state : ServerState)
    (clients : AuthorizedClients) (car : CarrierBinding) (kc : ClientCoins) (ks : ServerCoins)
    (nonce dummy shared : bytes) :
  let credential := cfg_client_credential config in
  let start := mkNet (client_connect_pins_bound config pins car kc)
                 (server_accept_bound state clients (cfg_camouflage config) car ks) [] [] in
  credential_wf credential → client_coins_wf kc → server_coins_wf ks → allowlist_wf clients →
  k_access_nonce kc = Some nonce → k_dummy_psk ks = Some dummy → len dummy = CLIENT_PSK_LEN →
  mlkem_public state = mlkem_public_of (mlkem_secret state) →
  enrolled credential ∈ entries clients → cfg_camouflage config ≠ DnsChunk →
  ServerPins_matches pins (mlkem_fingerprint (mlkem_public state)) = true →
  x25519_ephemeral_shared (k_x_secret kc) (x25519_public (k_server_x_secret ks)) = Ok shared →
  ∃ steps final, nsteps net_step steps start final ∧ established config final
    ∧ ∀ m n, nsteps net_step m start n → (m ≤ steps)%nat ∧ nsteps net_step (steps - m) n final.
Proof.
  intros cred start ? ? ? ? ? ? ? ? ? ? ? ?.
  destruct (honest_run config pins state clients car kc ks nonce dummy shared) as (final & Hrun & Hest);
    [done..|]. apply rtc_nsteps in Hrun as [steps Hrun].
  exists steps, final. split_and!; [done..|]. intros m n Hm.
  eapply (all_runs m steps start final n); [|done| |done].
  - split; [apply client_stable|apply server_stable].
  - destruct Hest as (? & ? & ? & ? & -> & _). intros z Hz. by inversion Hz.
Qed.
End Honest.

(** ** Samples *)

Module HandshakeSample.
Import SessionSample.

Definition zeros (n : nat) : bytes := replicate n Byte.x00.
Definition pad (n : nat) (b : bytes) : bytes := take n (b ++ zeros n).
Definition digest (n : nat) (b : bytes) : bytes := pad n (rev b).
Definition add_bytes (a b : bytes) : bytes := zip_with (λ x y, bz (bv x + bv y)) a b.

Lemma pad_length n b : len (pad n b) = Z.of_nat n.
Proof. unfold pad, zeros, len. rewrite length_take, length_app, length_replicate. lia. Qed.

Lemma add_bytes_comm a b : add_bytes a b = add_bytes b a.
Proof.
  revert b; induction a as [|x a IH]; intros [|y b]; try done. cbn. by rewrite Z.add_comm, <- IH.
Qed.

#[export] Instance toy_build : BuildConfig := {| BUILD_MAGIC := 7; BUILD_MAGIC_u32 := conj (Zle_0_pos 7) eq_refl |}.

#[export] Instance toy_auth : AuthCrypto := {|
  hs_sha256 := digest 32;
  hmac k m := add_bytes (digest 32 k) (digest 32 m);
  hmac_verify k m t := bool_decide (t = add_bytes (digest 32 k) (digest 32 m));
  ed25519_public := pad 32;
  ed25519_sign s m := digest 64 (pad 32 s ++ m);
  ed25519_verify p m s := bool_decide (s = digest 64 (p ++ m));
|}.
#[export] Instance toy_auth_laws : AuthCryptoLaws toy_auth.
Proof.
  split; intros; cbn -[add_bytes digest]; try apply pad_length.
  - unfold add_bytes, len. rewrite length_zip_with.
    pose proof (pad_length 32 (rev k)) as Hk. pose proof (pad_length 32 (rev m)) as Hm.
    unfold digest, len in *. lia.
  - apply bool_decide_eq_true.
  - by apply bool_decide_eq_true.
Qed.

#[export] Instance toy_handshake : HandshakeCrypto := {|
  x25519_public := pad 32;
  x25519_dh s p := add_bytes (pad 32 s) p;
  mlkem_public_of := pad 1184;
  mlkem_valid _ := true;
  mlkem_encapsulate p r := (pad 1088 r, add_bytes (take 32 p) (take 32 (pad 1088 r)));
  mlkem_decapsulate s c := add_bytes (take 32 (pad 1184 s)) (take 32 c);
  hkdf_sha256 salt ikm info n := Some (pad (Z.to_nat n) (salt ++ rev (ikm ++ info)));
|}.
#[export] Instance toy_handshake_laws : HandshakeCryptoLaws toy_handshake.
Proof.
  split; intros; cbn [x25519_public x25519_dh mlkem_public_of mlkem_valid mlkem_encapsulate
    mlkem_decapsulate hkdf_sha256 toy_handshake fst snd]; try apply pad_length; try done.
  - apply add_bytes_comm.
  - eexists. split; [done|]. rewrite pad_length. lia.
Qed.

Definition unwrap {E A} (d : A) (r : result E A) : A := match r with Ok a => a | Err _ => d end.
Definition byte_run (n : Z) (k : nat) : bytes := replicate k (bz n).

Definition credential : ClientCredential :=
  unwrap (mkClientCredential [] [] [] []) (ClientCredential_from_parts (byte_run 1 32) (byte_run 2 32)).
Definition other : ClientCredential :=
  unwrap (mkClientCredential [] [] [] []) (ClientCredential_from_parts (byte_run 9 32) (byte_run 8 32)).
Definition clients : AuthorizedClients :=
  unwrap (mkAuthorizedClients []) (from_credentials [other; credential]).
Definition state : ServerState := mkServerState (pad 1184 (byte_run 3 64)) (byte_run 3 64).
Definition config : ClientConfig :=
  mkClientConfig Raw Balanced (mlkem_fingerprint (mlkem_public state)) credential.
Definition pins : ServerPins := ServerPins_single (cfg_server_fingerprint config).
Definition kc : ClientCoins :=
  mkClientCoins (Some (byte_run 4 32)) (byte_run 5 32) (byte_run 6 32) (byte_run 7 16).
Definition ks : ServerCoins :=
  mkServerCoins (byte_run 10 32) (Some (byte_run 11 32)) (byte_run 12 32) (byte_run 13 16) (byte_run 14 8).

Definition client := client_connect_pins_bound config pins DirectTcp kc.
Definition server := server_accept_bound state clients Raw DirectTcp ks.

(** Both processes driven with what the other one has written so far. *)
Fixpoint exchange (n : nat) (up down : bytes) : bytes * bytes :=
  match n with
  | O => (up, down)
  | S n => let up := (drive client down).1 in exchange n up (drive server up).1
  end.
Definition up : bytes := (exchange 4 [] []).1.
Definition down : bytes := (exchange 4 [] []).2.

Lemma credential_ok : credential_wf credential.
Proof. split; vm_compute; reflexivity. Qed.
Lemma clients_ok : allowlist_wf clients.
Proof.
  refine (proj1 (from_entries_Ok (enrolled <$> [other; credential]) clients _ _));
    [vm_compute; reflexivity|].
  repeat constructor; vm_compute; reflexivity.
Qed.
Lemma enrolled_ok : enrolled credential ∈ entries clients.
Proof. apply list_elem_of_In. vm_compute. auto. Qed.
Lemma kc_ok : client_coins_wf kc.
Proof. split; [by intros n [= <-]|done]. Qed.
Lemma ks_ok : server_coins_wf ks.
Proof. by split. Qed.

Definition shared : bytes := add_bytes (pad 32 (byte_run 5 32)) (pad 32 (byte_run 12 32)).

Lemma handshake_completes_witness :
  ∃ steps final,
    nsteps net_step steps (mkNet client server [] []) final ∧ established config final.
Proof.
  destruct (handshake_completes config pins state clients DirectTcp kc ks (byte_run 4 32)
    (byte_run 11 32) shared) as (steps & final & H1 & H2 & _).
  - apply credential_ok.
  - apply kc_ok.
  - apply ks_ok.
  - apply clients_ok.
  - reflexivity.
  - reflexivity.
  - reflexivity.
  - reflexivity.
  - apply enrolled_ok.
  - discriminate.
  - vm_compute. reflexivity.
  - vm_compute. reflexivity.
  - exists steps, final. exact (conj H1 H2).
Defined.

(** The sessions of the completed exchange. *)
Definition no_session : AuthenticatedSession :=
  mkAuthenticatedSession (AeadSession_new [] []) Balanced [].
Definition session_c : AuthenticatedSession :=
  match (drive client down).2 with Ok (s, _, _) => s | Err _ => no_session end.
Definition session_s : AuthenticatedSession :=
  match (drive server up).2 with Ok (s, _, _, _) => s | Err _ => no_session end.
Definition hello : ClientHello :=
  match (drive server up).2 with
  | Ok (_, h, _, _) => h | Err _ => mkClientHello 0 0 [] [] [] Raw Balanced end.

Lemma client_returns : drive client down = (up, Ok (session_c, byte_run 14 8, [])).
Proof. vm_compute. reflexivity. Qed.
Lemma server_returns : drive server up = (down, Ok (session_s, hello, byte_run 14 8, [])).
Proof. vm_compute. reflexivity. Qed.

Lemma handshake_authenticates_witness :
  (∃ e v, e ∈ entries clients
    ∧ server_conversation state Raw DirectTcp ks e v up down [] session_s)
  ∧ ∃ v, client_conversation config pins DirectTcp kc v down up [] session_c.
Proof.
  split.
  - destruct (proj1 (handshake_authenticates state clients Raw DirectTcp ks (byte_run 11 32)
      config pins kc up down [] session_s (byte_run 14 8)) hello clients_ok eq_refl eq_refl
      server_returns) as (e & v & He & Hv & _). exact (ex_intro _ e (ex_intro _ v (conj He Hv))).
  - destruct (proj2 (handshake_authenticates state clients Raw DirectTcp ks (byte_run 11 32)
      config pins kc down up [] session_c (byte_run 14 8)) client_returns) as (v & Hv & _).
    exact (ex_intro _ v Hv).
Defined.

(** A caller that knows an enrolled identifier but not its key gets the challenge only. *)
Definition guess : bytes := cc_key_id credential ++ byte_run 0 64 ++ byte_run 1 2000.

Lemma handshake_gates_witness :
  len (drive server guess).1 = 64
  ∧ ((drive client (byte_run 0 2000)).1 = [] ∨ (drive client (byte_run 0 2000)).1 = cc_key_id credential).
Proof.
  split.
  - destruct (proj1 (handshake_gates state clients Raw DirectTcp ks (byte_run 11 32) config pins kc
      guess clients_ok eq_refl eq_refl)
      (drive server guess).1 (drive server guess).2 (surjective_pairing _))
      as [[_ [He|(kid & more & _ & _ & Hk)]]|(e & cap & rest & He & Hin & Ht)].
    + exfalso. vm_compute in He. discriminate He.
    + rewrite Hk. unfold ServerAccessProof_encode. cbn [sap_challenge sap_psk_mac].
      rewrite len_app, hmac_length. reflexivity.
    + vm_compute. reflexivity.
  - destruct (proj2 (handshake_gates state clients Raw DirectTcp ks (byte_run 11 32) config pins kc
      (byte_run 0 2000) clients_ok eq_refl eq_refl)
      (drive client (byte_run 0 2000)).1 (drive client (byte_run 0 2000)).2 (surjective_pairing _))
      as [[_ H]|(sap & rest & nonce & more & _ & _ & _ & _ & _)].
    + exact H.
    + right. vm_compute. reflexivity.
Defined.

(** The view of both sides, first without the finished proofs. *)
Definition server_access : ServerAccessProof := mkServerAccessProof (byte_run 10 32)
  (hmac (cc_psk credential)
     (server_access_proof_message (byte_run 10 32) (cc_key_id credential) Raw DirectTcp)).
Definition client_access : ClientAccessProof := mkClientAccessProof (byte_run 4 32)
  (access_tag (cc_psk credential) server_access (cc_key_id credential) (byte_run 4 32) Raw DirectTcp).
Definition view_with (cf : ClientFinished) (sf : ServerFinished) : View :=
  mkView (cc_key_id credential) server_access client_access (mlkem_public state) hello
    (mkServerHello (byte_run 13 16) (pad 32 (byte_run 12 32)) (byte_run 14 8)) DirectTcp cf sf.
Definition pre : bytes := view_pre (view_with (mkClientFinished [] [] []) (mkServerFinished [])).
Definition client_finished : ClientFinished :=
  unwrap (mkClientFinished [] [] []) (sign_finished credential pre).
Definition server_finished : ServerFinished :=
  make_server_finished (mkVerifiedClient (cc_key_id credential) (cc_psk credential)) pre
    (ClientFinished_encode client_finished).
Definition view : View := view_with client_finished server_finished.
Definition pq_shared : bytes := (mlkem_encapsulate (mlkem_public state) (byte_run 6 32)).2.
Definition keys (c : bool) : SessionKeys :=
  unwrap (mkSessionKeys [] []) (view_handshake_keys view shared pq_shared c).
Definition app_keys (c : bool) : SessionKeys :=
  unwrap (mkSessionKeys [] []) (view_application_keys view shared pq_shared (cc_psk credential) c).
Definition fin_c : bytes := default [] (seal (send_key (keys true)) (nonce_from_counter 0)
  (finished_aad CLIENT_FINISHED_AAD_DOMAIN pre) (ClientFinished_encode client_finished)).
Definition fin_s : bytes := default [] (seal (send_key (keys false)) (nonce_from_counter 0)
  (finished_aad SERVER_FINISHED_AAD_DOMAIN pre) (ServerFinished_encode server_finished)).

(** Closes an equation between closed terms by evaluation. *)
Ltac evaluate := try match goal with |- _ = _ => vm_compute; reflexivity end.

Lemma client_side : client_conversation config pins DirectTcp kc view down up [] session_c.
Proof.
  split; evaluate.
  - exists (write_client_hello hello).1, fin_c, fin_s. do 3 (split; [evaluate|]).
    exists shared, (keys true), (app_keys true). cbv zeta. split_and!; evaluate.
  - exists (byte_run 4 32). split; evaluate.
  - split_and!; evaluate.
  - split_and!; evaluate.
Qed.
Lemma server_side :
  server_conversation state Raw DirectTcp ks (enrolled credential) view up down [] session_s.
Proof.
  split; evaluate.
  - exists (write_client_hello hello).1, fin_c, fin_s. do 3 (split; [evaluate|]).
    exists shared, (keys false), (app_keys false). cbv zeta. split_and!; evaluate.
  - split_and!; evaluate.
  - split_and!; evaluate. split; [split; vm_compute; congruence|split; vm_compute; congruence|evaluate..].
Qed.

Lemma handshake_agreement_witness : sessions_synced session_c session_s.
Proof.
  exact (proj2 (proj2 (proj2 (handshake_agreement config pins state Raw DirectTcp DirectTcp kc ks
    view view down up [] up down [] session_c session_s credential_ok kc_ok ks_ok eq_refl
    client_side server_side eq_refl (λ _, eq_refl))))).
Defined.
End HandshakeSample.
