(* ===== verification/ClientAllowlist.v ===== *)
(** * The allowlist file: enrolment and revocation

    Models the files of [shadowpipe-core/src/client_auth.rs] (enrolments and the server's
    allowlist) and the private-file routines of [session.rs] they use: strict reads,
    create-only publication and atomic replacement.  JSON and hexadecimal come from
    third-party crates and are parameters; a file is its metadata and content.  Every
    transaction is shown to have exactly its effect on what the server loads next, whatever
    I/O step fails, and a revoked client is shown to be refused by the handshake. *)

From S2P Require Import EndpointPolicy Prelude PolicyPlan Wire Network Session ClientAuth Handshake.

(** ** Documents *)

Record AllowlistEntry := mkAllowlistEntry {
  ae_key_id : bytes;
  ae_ed25519_public_key : bytes;
  ae_psk : bytes;
}.
Record AllowlistFile := mkAllowlistFile { al_schema : bytes; al_clients : list AllowlistEntry }.
Record EnrollmentFile := mkEnrollmentFile {
  en_schema : bytes;
  en_key_id : bytes;
  en_ed25519_public_key : bytes;
  en_psk : bytes;
}.

(** [hex] and [serde_json]; a text that is not UTF-8 does not parse. *)
Class Text := {
  hex_encode : bytes → bytes;
  hex_decode : bytes → option bytes;
  allowlist_to_json : AllowlistFile → bytes;
  allowlist_of_json : bytes → option AllowlistFile;
  enrollment_to_json : EnrollmentFile → bytes;
  enrollment_of_json : bytes → option EnrollmentFile;
}.

Definition is_hex_digit (b : byte) : bool :=
  ((48 <=? bv b) && (bv b <=? 57)) || ((97 <=? bv b) && (bv b <=? 102)).

(** Two lower-case digits per byte; documents round-trip; a pretty-printed allowlist takes
    less than 512 bytes per client when its strings are short digits. *)
Class TextLaws (T : Text) := {
  hex_encode_length b : len (hex_encode b) = len b * 2;
  hex_encode_digits b : forallb is_hex_digit (hex_encode b) = true;
  hex_decode_encode b : hex_decode (hex_encode b) = Some b;
  hex_decode_length s b : hex_decode s = Some b → len s = len b * 2;
  allowlist_json_roundtrip d : allowlist_of_json (allowlist_to_json d) = Some d;
  allowlist_json_length d : len (al_schema d) ≤ 64 →
    Forall (λ e, forallb is_hex_digit (ae_key_id e ++ ae_ed25519_public_key e ++ ae_psk e) = true
                 ∧ len (ae_key_id e ++ ae_ed25519_public_key e ++ ae_psk e) ≤ 160) (al_clients d) →
    len (allowlist_to_json d) ≤ 512 * (1 + len (al_clients d));
}.

Definition CLIENT_AUTH_FILE_LIMIT : Z := 256 * 1024.
Definition ENROLLMENT_SCHEMA : bytes := String.list_byte_of_string "shadowpipe-client-enrollment-v1".
Definition ALLOWLIST_SCHEMA : bytes := String.list_byte_of_string "shadowpipe-client-allowlist-v1".

Inductive FileError :=
| NotFound
| NotPrivate
| TooLarge
| BadDocument
| Conflict
| Full
| NotEnrolled
| LastClient
| AppearedConcurrently
| Untrusted
| Busy
| IoFailed.

(** ** Private files *)

Inductive PrivateFileOwner := EffectiveUser | Root.

Record PrivateFile := mkPrivateFile {
  pf_regular : bool;
  pf_uid : Z;
  pf_mode : Z;
  pf_nlink : Z;
  pf_contents : bytes;
}.

Definition expected_uid (effective_uid : Z) (owner : PrivateFileOwner) : Z :=
  match owner with EffectiveUser => effective_uid | Root => 0 end.

(** The octal modes 0777, 0600 and 0077 are [0x1ff], [0x180] and [0x3f]. *)
Definition read_private_file_to_string_bounded (effective_uid : Z) (file : option PrivateFile)
    (maximum_bytes : Z) (owner : PrivateFileOwner) (require_mode_0600 : bool)
  : result FileError bytes :=
  f ← ok_or file NotFound;
  if negb (pf_regular f) then Err NotPrivate else
  if negb (pf_uid f =? expected_uid effective_uid owner) then Err NotPrivate else
  let mode := Z.land (pf_mode f) 0x1ff in
  if require_mode_0600 && negb (mode =? 0x180) then Err NotPrivate else
  if require_mode_0600 && negb (pf_nlink f =? 1) then Err NotPrivate else
  if negb require_mode_0600 && negb (Z.land mode 0x3f =? 0) then Err NotPrivate else
  if maximum_bytes <? len (pf_contents f) then Err TooLarge else
  Ok (pf_contents f).

(** How far a publication gets: the staged file cannot be written; it cannot be published;
    it is published but a later step fails, with the temporary link left behind or not. *)
Inductive IoOutcome := StageFails | PublishFails | LinkLeft | SyncFails | IoOk.

(** A file as [stage_private_file] creates it. *)
Definition staged (effective_uid : Z) (contents : bytes) : PrivateFile :=
  mkPrivateFile true effective_uid 0x180 1 contents.

Definition atomic_write_private_file (effective_uid : Z) (io : IoOutcome)
    (file : option PrivateFile) (contents : bytes) : option PrivateFile * result FileError () :=
  match io with
  | StageFails | PublishFails => (file, Err IoFailed)
  | LinkLeft | SyncFails => (Some (staged effective_uid contents), Err IoFailed)
  | IoOk => (Some (staged effective_uid contents), Ok ())
  end.

Inductive CreatePrivateFileOutcome := Created | AlreadyExists.

Definition atomic_create_private_file (effective_uid : Z) (io : IoOutcome)
    (file : option PrivateFile) (contents : bytes)
  : option PrivateFile * result FileError CreatePrivateFileOutcome :=
  match io with
  | StageFails | PublishFails => (file, Err IoFailed)
  | _ =>
      match file with
      | Some f => (Some f, match io with IoOk => Ok AlreadyExists | _ => Err IoFailed end)
      | None =>
          let f := staged effective_uid contents in
          match io with
          | LinkLeft => (Some (mkPrivateFile true effective_uid 0x180 2 contents), Err IoFailed)
          | SyncFails => (Some f, Err IoFailed)
          | _ => (Some f, Ok Created)
          end
      end
  end.

Section Allowlist.
Context {T : Text} {Cr : AuthCrypto}.

(** ** Parsing *)

Definition validate_canonical_hex (encoded : bytes) (n : Z) : result FileError () :=
  if negb (len encoded =? n * 2) || negb (forallb is_hex_digit encoded)
  then Err BadDocument else Ok ().

(** [decode_public_hex] and [decode_secret_hex] *)
Definition decode_hex (n : Z) (encoded : bytes) : result FileError bytes :=
  _ ← validate_canonical_hex encoded n;
  ok_or (hex_decode encoded) BadDocument.

Definition parse_client_key_id (encoded : bytes) : result FileError bytes :=
  decode_hex CLIENT_KEY_ID_LEN encoded.

Definition parse_entry (item : AllowlistEntry) : result FileError AuthorizedClient :=
  key_id ← decode_hex CLIENT_KEY_ID_LEN (ae_key_id item);
  public_key ← decode_hex CLIENT_PUBLIC_KEY_LEN (ae_ed25519_public_key item);
  if negb (bool_decide (key_id = derive_key_id public_key)) then Err BadDocument else
  psk ← decode_hex CLIENT_PSK_LEN (ae_psk item);
  Ok (mkAuthorizedClient key_id public_key psk).

(** [windows(2).all(|pair| pair[0].key_id < pair[1].key_id)] *)
Fixpoint strictly_sorted (l : list AuthorizedClient) : bool :=
  match l with
  | a :: ((b :: _) as l) =>
      bool_decide (bytes_lt (ac_key_id a) (ac_key_id b)) && strictly_sorted l
  | _ => true
  end.

Definition AuthorizedClients_parse (json : bytes) : result FileError AuthorizedClients :=
  document ← ok_or (allowlist_of_json json) BadDocument;
  if negb (bool_decide (al_schema document = ALLOWLIST_SCHEMA)) then Err BadDocument else
  if bool_decide (al_clients document = []) || (MAX_AUTHORIZED_CLIENTS <? len (al_clients document))
  then Err BadDocument else
  entries ← fold_res (λ entries item, e ← parse_entry item; Ok (entries ++ [e])) []
              (al_clients document);
  if negb (strictly_sorted entries) then Err BadDocument else
  Ok (mkAuthorizedClients entries).

Definition entry_document (e : AuthorizedClient) : AllowlistEntry :=
  mkAllowlistEntry (hex_encode (ac_key_id e)) (hex_encode (ac_public_key e)) (hex_encode (ac_psk e)).
Definition AuthorizedClients_serialized (a : AuthorizedClients) : bytes :=
  allowlist_to_json (mkAllowlistFile ALLOWLIST_SCHEMA (entry_document <$> entries a)).

Record ClientEnrollment := mkClientEnrollment {
  ce_key_id : bytes;
  ce_public_key : bytes;
  ce_psk : bytes;
}.
Definition ClientEnrollment_from_credential (c : ClientCredential) : ClientEnrollment :=
  mkClientEnrollment (cc_key_id c) (cc_public_key c) (cc_psk c).
Definition ClientEnrollment_serialized (e : ClientEnrollment) : bytes :=
  enrollment_to_json (mkEnrollmentFile ENROLLMENT_SCHEMA (hex_encode (ce_key_id e))
    (hex_encode (ce_public_key e)) (hex_encode (ce_psk e))).

(** [ClientEnrollment::load_with_owner], in a trusted directory. *)
Definition ClientEnrollment_load (euid : Z) (owner : PrivateFileOwner) (file : option PrivateFile)
  : result FileError ClientEnrollment :=
  json ← read_private_file_to_string_bounded euid file CLIENT_AUTH_FILE_LIMIT owner true;
  document ← ok_or (enrollment_of_json json) BadDocument;
  if negb (bool_decide (en_schema document = ENROLLMENT_SCHEMA)) then Err BadDocument else
  public_key ← decode_hex CLIENT_PUBLIC_KEY_LEN (en_ed25519_public_key document);
  key_id ← decode_hex CLIENT_KEY_ID_LEN (en_key_id document);
  if negb (bool_decide (key_id = derive_key_id public_key)) then Err BadDocument else
  psk ← decode_hex CLIENT_PSK_LEN (en_psk document);
  Ok (mkClientEnrollment key_id public_key psk).

Definition AuthorizedClients_load (euid : Z) (owner : PrivateFileOwner) (file : option PrivateFile)
  : result FileError AuthorizedClients :=
  json ← read_private_file_to_string_bounded euid file CLIENT_AUTH_FILE_LIMIT owner true;
  AuthorizedClients_parse json.

(** ** Transactions *)

(** The part of enrolment after both files are loaded: the new list, or [None] when the
    client is enrolled already. *)
Definition enroll_entry (allowlist : AuthorizedClients) (enrollment : ClientEnrollment)
  : result FileError (option AuthorizedClients) :=
  match find_entry (ce_key_id enrollment) (entries allowlist) with
  | Some existing =>
      if bool_decide (ac_public_key existing = ce_public_key enrollment)
         && bool_decide (ac_psk existing = ce_psk enrollment)
      then Ok None else Err Conflict
  | None =>
      if MAX_AUTHORIZED_CLIENTS <=? len (entries allowlist) then Err Full else
      Ok (Some (mkAuthorizedClients (merge_sort key_id_le (entries allowlist
            ++ [mkAuthorizedClient (ce_key_id enrollment) (ce_public_key enrollment)
                  (ce_psk enrollment)]))))
  end.

(** A missing allowlist starts empty. *)
Definition load_or_empty (euid : Z) (owner : PrivateFileOwner) (file : option PrivateFile)
  : result FileError AuthorizedClients :=
  match AuthorizedClients_load euid owner file with
  | Ok allowlist => Ok allowlist
  | Err NotFound => Ok (mkAuthorizedClients [])
  | Err e => Err e
  end.

(** [access] is the outcome of checking the directories and taking the mutation lock. *)
Definition enroll_with_owner (euid : Z) (owner : PrivateFileOwner) (access : result FileError ())
    (io : IoOutcome)
    (file enrollment_file : option PrivateFile) : option PrivateFile * result FileError bytes :=
  match access with
  | Err e => (file, Err e)
  | Ok () =>
  match ClientEnrollment_load euid owner enrollment_file with
  | Err e => (file, Err e)
  | Ok enrollment =>
      match load_or_empty euid owner file with
      | Err e => (file, Err e)
      | Ok allowlist =>
          match enroll_entry allowlist enrollment with
          | Err e => (file, Err e)
          | Ok None => (file, Ok (ce_key_id enrollment))
          | Ok (Some allowlist) =>
              let serialized := AuthorizedClients_serialized allowlist in
              if len (entries allowlist) =? 1 then
                match atomic_create_private_file euid io file serialized with
                | (file, Ok Created) => (file, Ok (ce_key_id enrollment))
                | (file, Ok AlreadyExists) => (file, Err AppearedConcurrently)
                | (file, Err e) => (file, Err e)
                end
              else
                match atomic_write_private_file euid io file serialized with
                | (file, Ok ()) => (file, Ok (ce_key_id enrollment))
                | (file, Err e) => (file, Err e)
                end
          end
      end
  end
  end.

Definition revoke (a : AuthorizedClients) (key_id : bytes) : result FileError AuthorizedClients :=
  index ← ok_or (binary_search_by_key key_id (entries a)) NotEnrolled;
  if len (entries a) =? 1 then Err LastClient else
  Ok (mkAuthorizedClients (delete index (entries a))).

Definition revoke_with_owner (euid : Z) (owner : PrivateFileOwner) (access : result FileError ())
    (io : IoOutcome)
    (file : option PrivateFile) (key_id : bytes) : option PrivateFile * result FileError () :=
  match access with
  | Err e => (file, Err e)
  | Ok () =>
  match AuthorizedClients_load euid owner file with
  | Err e => (file, Err e)
  | Ok allowlist =>
      match revoke allowlist key_id with
      | Err e => (file, Err e)
      | Ok allowlist =>
          atomic_write_private_file euid io file (AuthorizedClients_serialized allowlist)
      end
  end
  end.

End Allowlist.

(** Clients by key identifier: public key and pre-shared key. *)
Abbreviation Clients := (gmap bytes (bytes * bytes)).

(** ** Parsing inverts serialisation *)

(** An allowlist that a file may hold. *)
Record valid_list `{AuthCrypto} (a : AuthorizedClients) : Prop := {
  vl_wf : allowlist_wf a;
  vl_size : 1 ≤ len (entries a) ≤ MAX_AUTHORIZED_CLIENTS;
  vl_derived : Forall (λ e, ac_key_id e = derive_key_id (ac_public_key e)) (entries a);
}.

Lemma strictly_sorted_iff l : strictly_sorted l = true ↔ Sorted bytes_lt (ac_key_id <$> l).
Proof.
  induction l as [|a [|b l] IH]; [by split..| |].
  - split; [by repeat constructor|done].
  - cbn [strictly_sorted]. rewrite andb_true_iff, bool_decide_eq_true, IH. cbn. split.
    + intros [? ?]. constructor; [done|by constructor].
    + intros [? Hh]%Sorted_inv. by apply HdRel_inv in Hh.
Qed.

Lemma any_equal_window_NoDup l : NoDup (ac_key_id <$> l) → any_equal_window l = false.
Proof.
  induction l as [|a [|b l] IH]; [done..|]. intros [Hn Hd]%NoDup_cons. cbn [any_equal_window].
  rewrite bool_decide_false by (intros Heq; apply Hn; rewrite Heq; by left). by apply IH.
Qed.

Lemma Sorted_delete (l : list bytes) i : Sorted bytes_lt l → Sorted bytes_lt (delete i l).
Proof.
  intros Hs. apply StronglySorted_Sorted. apply Sorted_StronglySorted in Hs; [|apply _].
  revert i. induction Hs as [|x l Hs IH Hf]; intros [|i]; cbn;
    [constructor..|done|]. constructor; [apply IH|]. by apply Forall_delete.
Qed.

Section Theory.
Context {T : Text} {TL : TextLaws T} {Cr : AuthCrypto} {CL : AuthCryptoLaws Cr}.

Lemma decode_hex_Ok n s b : decode_hex n s = Ok b → len b = n ∧ forallb is_hex_digit s = true.
Proof.
  unfold decode_hex, validate_canonical_hex.
  intros ([] & [Hv%orb_false_iff _]%if_err_Ok & Hb%ok_or_Ok)%bind_Ok.
  rewrite !negb_false_iff, Z.eqb_eq in Hv. apply hex_decode_length in Hb. split; [lia|apply Hv].
Qed.

Lemma decode_hex_encode n b : len b = n → decode_hex n (hex_encode b) = Ok b.
Proof.
  intros <-. unfold decode_hex, validate_canonical_hex.
  by rewrite hex_encode_length, Z.eqb_refl, hex_encode_digits, hex_decode_encode.
Qed.

Lemma parse_entry_Ok item e : parse_entry item = Ok e →
  entry_wf e ∧ ac_key_id e = derive_key_id (ac_public_key e).
Proof.
  unfold parse_entry. intros (kid & [Hk _]%decode_hex_Ok & H)%bind_Ok.
  apply bind_Ok in H as (pk & [Hp _]%decode_hex_Ok & H).
  apply if_err_Ok in H as [Hd%negb_false_iff%bool_decide_eq_true H].
  by apply bind_Ok in H as (psk & [Hs _]%decode_hex_Ok & [= <-]).
Qed.

Lemma parse_entry_document e : entry_wf e → ac_key_id e = derive_key_id (ac_public_key e) →
  parse_entry (entry_document e) = Ok e.
Proof.
  intros [Hk Hp Hs] Hd. unfold parse_entry, entry_document.
  cbn [ae_key_id ae_ed25519_public_key ae_psk].
  rewrite (decode_hex_encode _ _ Hk). cbn. rewrite (decode_hex_encode _ _ Hp). cbn.
  rewrite bool_decide_true by done. rewrite (decode_hex_encode _ _ Hs). by destruct e.
Qed.

Lemma parse_entries_Ok items : ∀ acc l,
  fold_res (λ entries item, e ← parse_entry item; Ok (entries ++ [e])) acc items = Ok l →
  ∃ es, l = acc ++ es ∧ length es = length items
    ∧ Forall (λ e, entry_wf e ∧ ac_key_id e = derive_key_id (ac_public_key e)) es.
Proof.
  induction items as [|item items IH]; intros acc l H; cbn in H.
  - injection H as <-. exists []. by rewrite app_nil_r.
  - apply bind_Ok in H as (acc' & (e & He%parse_entry_Ok & [= <-])%bind_Ok & H).
    apply IH in H as (es & -> & Hl & Hes). exists (e :: es).
    rewrite <- app_assoc. cbn. rewrite Hl. auto.
Qed.

Lemma parse_entry_documents es : ∀ acc,
  Forall (λ e, entry_wf e ∧ ac_key_id e = derive_key_id (ac_public_key e)) es →
  fold_res (λ entries item, e ← parse_entry item; Ok (entries ++ [e])) acc (entry_document <$> es)
  = Ok (acc ++ es).
Proof.
  induction es as [|e es IH]; intros acc Hes; cbn; [by rewrite app_nil_r|].
  apply Forall_cons in Hes as [[Hw Hd] Hes]. rewrite parse_entry_document by done. cbn.
  rewrite IH by done. by rewrite <- app_assoc.
Qed.

Lemma parse_Ok json a : AuthorizedClients_parse json = Ok a → valid_list a.
Proof.
  unfold AuthorizedClients_parse. intros (d & _ & H)%bind_Ok.
  apply if_err_Ok in H as [_ [Hs H]%if_err_Ok].
  apply orb_false_iff in Hs as [Hne%bool_decide_eq_false Hm%Z.ltb_ge].
  apply bind_Ok in H as (es & (es' & -> & Hl & Hes)%parse_entries_Ok & H).
  apply if_err_Ok in H as [Hsort%negb_false_iff%strictly_sorted_iff [= <-]].
  apply Forall_and in Hes as [Hw Hd]. split; [by split| |done]. cbn. unfold len in *.
  rewrite Hl. destruct (al_clients d); [done|cbn in *; lia].
Qed.

(** Every error of parsing is about the document. *)
Lemma decode_hex_Err n s e : decode_hex n s = Err e → e = BadDocument.
Proof.
  unfold decode_hex, validate_canonical_hex.
  intros [[[_ ?]|[_ ?]]%if_err_Err|([] & _ & [_ ?]%ok_or_Err)]%bind_Err; congruence.
Qed.
Lemma parse_entry_Err item e : parse_entry item = Err e → e = BadDocument.
Proof.
  unfold parse_entry. intros [H|(kid & _ & H)]%bind_Err; [by eapply decode_hex_Err|].
  apply bind_Err in H as [H|(pk & _ & H)]; [by eapply decode_hex_Err|].
  apply if_err_Err in H as [[_ ?]|[_ H]]; [done|].
  by apply bind_Err in H as [H|(psk & _ & ?)]; [eapply decode_hex_Err|].
Qed.
Lemma parse_entries_Err items e : ∀ acc,
  fold_res (λ entries item, e ← parse_entry item; Ok (entries ++ [e])) acc items = Err e →
  e = BadDocument.
Proof.
  induction items as [|item items IH]; intros acc H; [done|]. cbn in H.
  apply bind_Err in H as [[H|(x & _ & ?)]%bind_Err|(acc' & _ & H)]; [by eapply parse_entry_Err|done|].
  exact (IH _ H).
Qed.
Lemma parse_Err json e : AuthorizedClients_parse json = Err e → e = BadDocument.
Proof.
  unfold AuthorizedClients_parse. intros [[_ ?]%ok_or_Err|(d & _ & H)]%bind_Err; [done|].
  apply if_err_Err in H as [[_ ?]|[_ H]]; [done|].
  apply if_err_Err in H as [[_ ?]|[_ H]]; [done|].
  apply bind_Err in H as [H|(es & _ & [[_ ?]|[_ ?]]%if_err_Err)]; [|done..].
  by eapply parse_entries_Err.
Qed.

Lemma parse_serialized a : valid_list a → AuthorizedClients_parse (AuthorizedClients_serialized a) = Ok a.
Proof.
  intros [[Hs Hw] Hn Hd]. unfold AuthorizedClients_parse, AuthorizedClients_serialized.
  rewrite allowlist_json_roundtrip. cbn -[ALLOWLIST_SCHEMA].
  rewrite (bool_decide_true (ALLOWLIST_SCHEMA = _)) by done. cbn [negb].
  rewrite bool_decide_false by (intros Hnil%fmap_nil_inv; rewrite Hnil, len_nil in Hn; lia).
  unfold len. rewrite length_fmap. fold (len (entries a)).
  rewrite (proj2 (Z.ltb_ge _ _)) by lia. cbn [orb].
  rewrite parse_entry_documents by (by apply Forall_and). cbn.
  rewrite (proj2 (strictly_sorted_iff _)) by done. by destruct a.
Qed.

Lemma serialized_length a : valid_list a →
  len (AuthorizedClients_serialized a) ≤ CLIENT_AUTH_FILE_LIMIT.
Proof.
  intros [[_ Hw] Hn _]. unfold AuthorizedClients_serialized. etrans.
  - apply allowlist_json_length; [done|]. cbn [al_clients]. apply Forall_fmap.
    eapply Forall_impl; [exact Hw|]. intros e [Hk Hp Hs]. cbn.
    rewrite !forallb_app, !hex_encode_digits, !len_app, !hex_encode_length, Hk, Hp, Hs. done.
  - cbn [al_clients]. unfold len at 1. rewrite length_fmap. fold (len (entries a)).
    unfold MAX_AUTHORIZED_CLIENTS, CLIENT_AUTH_FILE_LIMIT in *. lia.
Qed.

(** ** What the file holds *)

Definition to_map (a : AuthorizedClients) : Clients :=
  list_to_map ((λ e, (ac_key_id e, (ac_public_key e, ac_psk e))) <$> entries a).

(** The clients of a file; none without a file; [None] if the file is refused. *)
Definition held (euid : Z) (owner : PrivateFileOwner) (file : option PrivateFile) : option Clients :=
  match AuthorizedClients_load euid owner file with
  | Ok a => Some (to_map a)
  | Err NotFound => Some ∅
  | Err _ => None
  end.

Inductive Transaction :=
| Enroll (enrollment_file : option PrivateFile)
| Revoke (key_id : bytes).

Definition run (euid : Z) (owner : PrivateFileOwner) (access : result FileError ()) (io : IoOutcome)
    (t : Transaction) (file : option PrivateFile) : option PrivateFile * result FileError bytes :=
  match t with
  | Enroll enrollment_file => enroll_with_owner euid owner access io file enrollment_file
  | Revoke key_id =>
      let '(file, r) := revoke_with_owner euid owner access io file key_id in
      (file, r ≫= λ _, Ok key_id)
  end.

(** The contract: which clients there are afterwards, and the answer.  [None] means that
    nothing has to be written. *)
Definition decide_transaction (euid : Z) (owner : PrivateFileOwner) (t : Transaction) (m : Clients)
  : result FileError (bytes * option Clients) :=
  match t with
  | Enroll enrollment_file =>
      e ← ClientEnrollment_load euid owner enrollment_file;
      match m !! ce_key_id e with
      | Some x => if bool_decide (x = (ce_public_key e, ce_psk e)) then Ok (ce_key_id e, None)
                  else Err Conflict
      | None => if MAX_AUTHORIZED_CLIENTS <=? Z.of_nat (size m) then Err Full else
                Ok (ce_key_id e, Some (<[ce_key_id e := (ce_public_key e, ce_psk e)]> m))
      end
  | Revoke key_id =>
      if bool_decide (m = ∅) then Err NotFound else
      match m !! key_id with
      | None => Err NotEnrolled
      | Some _ => if bool_decide (size m = 1%nat) then Err LastClient
                  else Ok (key_id, Some (delete key_id m))
      end
  end.

(** A publication that fails leaves the old clients or the new ones; only a first file whose
    temporary link cannot be removed is refused afterwards. *)
Definition publish (io : IoOutcome) (m m' : Clients) (key_id : bytes)
  : option Clients * result FileError bytes :=
  match io with
  | StageFails | PublishFails => (Some m, Err IoFailed)
  | LinkLeft => (if bool_decide (m = ∅) then None else Some m', Err IoFailed)
  | SyncFails => (Some m', Err IoFailed)
  | IoOk => (Some m', Ok key_id)
  end.

Definition transaction_spec (euid : Z) (owner : PrivateFileOwner) (access : result FileError ())
    (io : IoOutcome) (t : Transaction) (m : Clients) : option Clients * result FileError bytes :=
  match access ≫= λ _, decide_transaction euid owner t m with
  | Err e => (Some m, Err e)
  | Ok (key_id, None) => (Some m, Ok key_id)
  | Ok (key_id, Some m') => publish io m m' key_id
  end.

(** ** Lists and maps *)

Lemma to_map_lookup a kid x : allowlist_wf a →
  to_map a !! kid = Some x ↔ mkAuthorizedClient kid x.1 x.2 ∈ entries a.
Proof.
  intros [Hs _]. unfold to_map. rewrite <- elem_of_list_to_map.
  - rewrite list_elem_of_fmap. destruct x as [pk psk]. split.
    + by intros ([k p s] & [= -> -> ->] & He).
    + intros He. by exists (mkAuthorizedClient kid pk psk).
  - rewrite <- list_fmap_compose. by apply Sorted_bytes_NoDup.
Qed.

Lemma to_map_find a kid : allowlist_wf a →
  to_map a !! kid = (λ e, (ac_public_key e, ac_psk e)) <$> find_entry kid (entries a).
Proof.
  intros Hw. destruct (find_entry kid (entries a)) as [e|] eqn:He; cbn.
  - apply find_entry_Some in He as [He <-]; [|done]. apply to_map_lookup; [done|]. by destruct e.
  - apply eq_None_not_Some. intros [x Hx%to_map_lookup]; [|done].
    rewrite find_entry_None in He. by apply He in Hx.
Qed.

Lemma to_map_size a : allowlist_wf a → Z.of_nat (size (to_map a)) = len (entries a).
Proof.
  intros [Hs _]. unfold to_map, len. f_equal.
  rewrite map_size_list_to_map by (rewrite <- list_fmap_compose; by apply Sorted_bytes_NoDup).
  apply length_fmap.
Qed.

Lemma to_map_nonempty a : valid_list a → to_map a ≠ ∅.
Proof.
  intros [Hw Hn _] He. pose proof (to_map_size a Hw) as Hs. rewrite He, map_size_empty in Hs. lia.
Qed.

Lemma to_map_cons a b e : allowlist_wf a → entries a ≡ₚ e :: entries b →
  to_map a = <[ac_key_id e := (ac_public_key e, ac_psk e)]> (to_map b).
Proof.
  intros [Hs _] Hp. unfold to_map. rewrite <- list_to_map_cons. apply list_to_map_proper.
  - rewrite <- list_fmap_compose. by apply Sorted_bytes_NoDup.
  - by rewrite Hp.
Qed.

(** ** Loading what was published *)

Lemma read_staged euid owner contents : expected_uid euid owner = euid →
  len contents ≤ CLIENT_AUTH_FILE_LIMIT →
  read_private_file_to_string_bounded euid (Some (staged euid contents)) CLIENT_AUTH_FILE_LIMIT
    owner true = Ok contents.
Proof.
  intros Ho Hl. unfold read_private_file_to_string_bounded. cbn -[CLIENT_AUTH_FILE_LIMIT].
  rewrite Ho, Z.eqb_refl. cbn -[CLIENT_AUTH_FILE_LIMIT]. by rewrite (proj2 (Z.ltb_ge _ _)).
Qed.

Lemma held_staged euid owner a : expected_uid euid owner = euid → valid_list a →
  held euid owner (Some (staged euid (AuthorizedClients_serialized a))) = Some (to_map a).
Proof.
  intros Ho Ha. unfold held, AuthorizedClients_load.
  rewrite read_staged by (done || by apply serialized_length). cbn.
  by rewrite parse_serialized.
Qed.

Lemma held_linked euid owner contents :
  held euid owner (Some (mkPrivateFile true euid 0x180 2 contents)) = None.
Proof.
  unfold held, AuthorizedClients_load, read_private_file_to_string_bounded. cbn.
  by destruct (negb _).
Qed.

Lemma held_Ok euid owner file a :
  AuthorizedClients_load euid owner file = Ok a → held euid owner file = Some (to_map a).
Proof. unfold held. by intros ->. Qed.

(** A file that is accepted holds a valid list; no clients means that there is no file. *)
Lemma held_Some euid owner file m : held euid owner file = Some m →
  (file = None ∧ m = ∅ ∧ AuthorizedClients_load euid owner file = Err NotFound)
  ∨ ∃ a, AuthorizedClients_load euid owner file = Ok a ∧ valid_list a ∧ m = to_map a.
Proof.
  unfold held. destruct (AuthorizedClients_load euid owner file) as [a|e] eqn:Hl; intros H.
  - right. exists a. split_and!; [done| |congruence].
    unfold AuthorizedClients_load in Hl. apply bind_Ok in Hl as (json & _ & Hl). by eapply parse_Ok.
  - left. destruct e; try done. injection H as <-. split_and!; [|done..].
    destruct file as [f|]; [exfalso|done]. unfold AuthorizedClients_load in Hl.
    apply bind_Err in Hl as [Hl|(json & _ & Hl)].
    + unfold read_private_file_to_string_bounded in Hl. cbn -[CLIENT_AUTH_FILE_LIMIT] in Hl.
      by repeat (apply if_err_Err in Hl as [[_ ?]|[_ Hl]]; [done|]).
    + by apply parse_Err in Hl.
Qed.
(** ** Enrolling and revoking on lists *)

Definition enrolled_entry (e : ClientEnrollment) : AuthorizedClient :=
  mkAuthorizedClient (ce_key_id e) (ce_public_key e) (ce_psk e).

Lemma enrollment_load_Ok euid owner file e : ClientEnrollment_load euid owner file = Ok e →
  entry_wf (enrolled_entry e) ∧ ce_key_id e = derive_key_id (ce_public_key e).
Proof.
  unfold ClientEnrollment_load. intros (json & _ & H)%bind_Ok.
  apply bind_Ok in H as (d & _ & H). apply if_err_Ok in H as [_ H].
  apply bind_Ok in H as (pk & [Hp _]%decode_hex_Ok & H).
  apply bind_Ok in H as (kid & [Hk _]%decode_hex_Ok & H).
  apply if_err_Ok in H as [Hd%negb_false_iff%bool_decide_eq_true H].
  by apply bind_Ok in H as (psk & [Hs _]%decode_hex_Ok & [= <-]).
Qed.

(** A list that may still be empty. *)
Definition sub_valid (a : AuthorizedClients) : Prop := a = mkAuthorizedClients [] ∨ valid_list a.

Lemma sub_valid_inv a : sub_valid a → allowlist_wf a ∧ len (entries a) ≤ MAX_AUTHORIZED_CLIENTS
  ∧ Forall (λ e, ac_key_id e = derive_key_id (ac_public_key e)) (entries a).
Proof.
  intros [->|[? ? ?]]; [|split_and!; [done|lia|done]].
  split_and!; [|done|constructor]. split; constructor.
Qed.

(** Adding an entry whose identifier is new. *)
Lemma added_entry a e : sub_valid a → entry_wf (enrolled_entry e) →
  ce_key_id e = derive_key_id (ce_public_key e) → to_map a !! ce_key_id e = None →
  len (entries a) < MAX_AUTHORIZED_CLIENTS →
  let a' := mkAuthorizedClients (merge_sort key_id_le (entries a ++ [enrolled_entry e])) in
  valid_list a' ∧ to_map a' = <[ce_key_id e := (ce_public_key e, ce_psk e)]> (to_map a)
  ∧ len (entries a') = len (entries a) + 1.
Proof.
  intros (Hw & _ & Hd)%sub_valid_inv He Hde Hnone Hlt a'.
  assert (entries a' ≡ₚ enrolled_entry e :: entries a) as Hp.
  { cbn. rewrite merge_sort_Permutation. apply Permutation_app_comm. }
  assert (len (entries a') = len (entries a) + 1) as Hl.
  { unfold len. rewrite Hp. cbn. lia. }
  assert (allowlist_wf a') as Hwf.
  { split.
    - apply any_equal_window_false; [apply Sorted_merge_sort, _|].
      apply any_equal_window_NoDup. fold a'. rewrite Hp. cbn. constructor.
      + intros Hin. apply list_elem_of_fmap in Hin as (x & Hk & Hx).
        rewrite to_map_find in Hnone by done. apply fmap_None in Hnone.
        rewrite find_entry_None in Hnone. by apply (Hnone x Hx).
      + destruct Hw as [Hs _]. by apply Sorted_bytes_NoDup in Hs.
    - rewrite Hp. constructor; [done|apply Hw]. }
  split_and!; [split; [done| |]| |done].
  - rewrite Hl. pose proof (len_nonneg (entries a)). lia.
  - rewrite Hp. by constructor.
  - by apply (to_map_cons a' a (enrolled_entry e)).
Qed.

Lemma enroll_entry_spec a e : sub_valid a → entry_wf (enrolled_entry e) →
  ce_key_id e = derive_key_id (ce_public_key e) →
  match to_map a !! ce_key_id e with
  | Some x => enroll_entry a e = if bool_decide (x = (ce_public_key e, ce_psk e)) then Ok None
                                 else Err Conflict
  | None => if MAX_AUTHORIZED_CLIENTS <=? Z.of_nat (size (to_map a)) then enroll_entry a e = Err Full
            else ∃ a', enroll_entry a e = Ok (Some a') ∧ valid_list a'
              ∧ to_map a' = <[ce_key_id e := (ce_public_key e, ce_psk e)]> (to_map a)
              ∧ len (entries a') = len (entries a) + 1
  end.
Proof.
  intros Ha He Hd. pose proof (sub_valid_inv a Ha) as (Hw & _ & _).
  pose proof (to_map_find a (ce_key_id e) Hw) as Hf. rewrite to_map_size by done.
  unfold enroll_entry. destruct (find_entry _ _) as [x|]; rewrite Hf; cbn.
  - repeat case_bool_decide; cbn; congruence.
  - destruct (Z.leb_spec MAX_AUTHORIZED_CLIENTS (len (entries a))); [done|].
    eexists. split; [done|]. by apply added_entry.
Qed.

Lemma revoke_spec a kid : valid_list a →
  match to_map a !! kid with
  | None => revoke a kid = Err NotEnrolled
  | Some _ => if bool_decide (size (to_map a) = 1%nat) then revoke a kid = Err LastClient
              else ∃ a', revoke a kid = Ok a' ∧ valid_list a' ∧ to_map a' = delete kid (to_map a)
  end.
Proof.
  intros [Hw Hn Hd]. pose proof (to_map_size a Hw) as Hsz.
  pose proof (binary_search_by_key_Some kid (entries a)) as Hb.
  unfold revoke. destruct (to_map a !! kid) as [x|] eqn:Hx.
  - apply to_map_lookup in Hx; [|done]. apply list_elem_of_lookup in Hx as [i Hi].
    rewrite (proj2 (Hb i (aw_sorted a Hw))) by (by eexists). cbn.
    case_bool_decide as H1; [rewrite (proj2 (Z.eqb_eq _ _)) by lia; done|].
    rewrite (proj2 (Z.eqb_neq _ _)) by lia. eexists. split; [done|].
    pose proof (delete_Permutation _ _ _ Hi) as Hp.
    set (e := mkAuthorizedClient kid x.1 x.2) in *.
    set (a' := mkAuthorizedClients (delete i (entries a))).
    assert (allowlist_wf a') as Hw'.
    { destruct Hw as [Hs He]. split; cbn.
      - rewrite list_fmap_delete. by apply Sorted_delete.
      - rewrite Hp in He. by apply Forall_cons in He as [_ ?]. }
    split; [split; [done| |]|].
    + cbn. unfold len in *. rewrite length_delete by done. lia.
    + rewrite Hp in Hd. by apply Forall_cons in Hd as [_ ?].
    + rewrite (to_map_cons a a' e) by done. cbn [ac_key_id e]. rewrite delete_insert_id; [done|].
      rewrite to_map_find by done. apply fmap_None, find_entry_None. cbn. intros y Hy Hk.
      destruct Hw as [Hs _]. apply Sorted_bytes_NoDup in Hs. rewrite Hp in Hs. cbn in Hs.
      apply NoDup_cons in Hs as [Hs _]. apply Hs. rewrite <- Hk. by apply list_elem_of_fmap_2.
  - destruct (binary_search_by_key kid (entries a)) as [i|]; [exfalso|done].
    destruct (proj1 (Hb i (aw_sorted a Hw)) eq_refl) as (e & He & Hk).
    apply list_elem_of_lookup_2 in He. rewrite to_map_find in Hx by done.
    apply fmap_None in Hx. rewrite find_entry_None in Hx. by apply (Hx e).
Qed.
(** ** The files implement the contract *)

Lemma load_or_empty_held euid owner file m : held euid owner file = Some m →
  ∃ a, load_or_empty euid owner file = Ok a ∧ sub_valid a ∧ m = to_map a
    ∧ match file with None => entries a = [] | Some _ => 1 ≤ len (entries a) end.
Proof.
  intros [(-> & -> & Hl)|(a & Hl & Ha & ->)]%held_Some; unfold load_or_empty; rewrite Hl.
  - eexists. split; [done|]. split_and!; [by left|done|done].
  - exists a. split_and!; [done|by right|done|].
    destruct file; [apply Ha|]. unfold AuthorizedClients_load in Hl. done.
Qed.

Lemma write_refines euid owner io file m a kid : expected_uid euid owner = euid →
  held euid owner file = Some m → m ≠ ∅ → valid_list a →
  let '(file', r) := atomic_write_private_file euid io file (AuthorizedClients_serialized a) in
  (held euid owner file', r ≫= λ _, Ok kid) = publish io m (to_map a) kid.
Proof.
  intros Ho Hm Hne Ha. pose proof (held_staged euid owner a Ho Ha) as Hs.
  destruct io; cbn -[held staged]; rewrite ?Hs, ?Hm, ?(bool_decide_false (m = ∅)) by done; done.
Qed.

Lemma create_refines euid owner io a kid : expected_uid euid owner = euid → valid_list a →
  let '(file', r) := atomic_create_private_file euid io None (AuthorizedClients_serialized a) in
  (held euid owner file', r ≫= λ o, match o with Created => Ok kid
                                    | AlreadyExists => Err AppearedConcurrently end)
  = publish io ∅ (to_map a) kid.
Proof.
  intros Ho Ha. pose proof (held_staged euid owner a Ho Ha) as Hs.
  pose proof (held_linked euid owner (AuthorizedClients_serialized a)) as Hl.
  assert (held euid owner None = Some ∅) as Hn by done.
  destruct io; cbn -[held staged]; by rewrite ?Hs, ?Hl, ?Hn.
Qed.

Lemma enroll_refines euid owner io file m ef file' r : expected_uid euid owner = euid →
  held euid owner file = Some m →
  enroll_with_owner euid owner (Ok ()) io file ef = (file', r) →
  (held euid owner file', r) = transaction_spec euid owner (Ok ()) io (Enroll ef) m.
Proof.
  intros Ho Hm Hrun. unfold enroll_with_owner in Hrun.
  unfold transaction_spec. cbn [mbind result_bind decide_transaction].
  destruct (ClientEnrollment_load euid owner ef) as [e|e] eqn:He; cbn [mbind result_bind];
    [|injection Hrun as <- <-; by rewrite Hm].
  apply enrollment_load_Ok in He as [He Hd].
  destruct (load_or_empty_held euid owner file m Hm) as (a & Hload & Ha & -> & Hfile).
  rewrite Hload in Hrun. pose proof (enroll_entry_spec a e Ha He Hd) as Hspec.
  destruct (to_map a !! ce_key_id e) as [x|].
  { rewrite Hspec in Hrun. case_bool_decide; injection Hrun as <- <-; by rewrite Hm. }
  destruct (_ <=? _); [rewrite Hspec in Hrun; injection Hrun as <- <-; by rewrite Hm|].
  destruct Hspec as (a' & Hen & Ha' & <- & Hlen). rewrite Hen in Hrun. destruct file as [f|].
  - rewrite (proj2 (Z.eqb_neq _ _)) in Hrun by lia.
    assert (to_map a ≠ ∅).
    { apply to_map_nonempty. destruct Ha as [->|]; [change (1 ≤ 0) in Hfile; lia|done]. }
    pose proof (write_refines euid owner io (Some f) (to_map a) a' (ce_key_id e)) as Hw.
    destruct (atomic_write_private_file _ _ _ _) as [f' [[]|]]; injection Hrun as <- <-; by apply Hw.
  - rewrite Hlen, Hfile in Hrun. cbn [len length Z.of_nat Z.add Z.eqb Pos.eqb] in Hrun.
    pose proof (create_refines euid owner io a' (ce_key_id e) Ho Ha') as Hcr.
    replace (to_map a) with (∅ : Clients) by (unfold to_map; by rewrite Hfile).
    by destruct (atomic_create_private_file _ _ _ _) as [f' [[]|]]; injection Hrun as <- <-.
Qed.

Lemma run_refines (euid : Z) (owner : PrivateFileOwner) (access : result FileError ())
    (io : IoOutcome) (t : Transaction) (file file' : option PrivateFile) (m : Clients)
    (r : result FileError bytes) :
  expected_uid euid owner = euid → held euid owner file = Some m →
  run euid owner access io t file = (file', r) →
  (held euid owner file', r) = transaction_spec euid owner access io t m.
Proof.
  intros Ho Hm Hrun. destruct access as [[]|e].
  2:{ destruct t; cbn in Hrun; injection Hrun as <- <-; by rewrite Hm. }
  destruct t as [ef|kid]; [by eapply enroll_refines|].
  cbn [run] in Hrun. unfold revoke_with_owner in Hrun.
  unfold transaction_spec. cbn [mbind result_bind decide_transaction].
  pose proof (held_Some _ _ _ _ Hm) as [(-> & -> & Hl)|(a & Hl & Ha & ->)]; rewrite Hl in Hrun.
  { injection Hrun as <- <-. by rewrite bool_decide_true, Hm. }
  pose proof (to_map_nonempty a Ha) as Hne. rewrite bool_decide_false by done.
  pose proof (revoke_spec a kid Ha) as Hspec. destruct (to_map a !! kid).
  - case_bool_decide; [rewrite Hspec in Hrun; injection Hrun as <- <-; by rewrite Hm|].
    destruct Hspec as (a' & Hr & Ha' & <-). rewrite Hr in Hrun.
    pose proof (write_refines euid owner io file (to_map a) a' kid Ho Hm Hne Ha') as Hw.
    destruct (atomic_write_private_file _ _ _ _) as [f' [[]|]]; by injection Hrun as <- <-.
  - rewrite Hspec in Hrun. injection Hrun as <- <-. by rewrite Hm.
Qed.
(** ** Histories *)

Record Request := mkRequest {
  rq_access : result FileError ();
  rq_io : IoOutcome;
  rq_transaction : Transaction;
}.

Fixpoint run_all (euid : Z) (owner : PrivateFileOwner) (l : list Request)
    (file : option PrivateFile) : option PrivateFile * list (result FileError bytes) :=
  match l with
  | [] => (file, [])
  | q :: l =>
      let '(file, r) := run euid owner (rq_access q) (rq_io q) (rq_transaction q) file in
      let '(file, rs) := run_all euid owner l file in (file, r :: rs)
  end.

(** The clients that the next load gives, none without a file, or why it refuses. *)
Definition stored (euid : Z) (owner : PrivateFileOwner) (file : option PrivateFile) : result FileError Clients :=
  match AuthorizedClients_load euid owner file with
  | Ok a => Ok (to_map a)
  | Err NotFound => Ok ∅
  | Err e => Err e
  end.

(** A file that is refused stays, and refuses every request that gets to it. *)
Definition request_spec (euid : Z) (owner : PrivateFileOwner) (q : Request) (s : result FileError Clients)
  : result FileError Clients * result FileError bytes :=
  match s with
  | Ok m =>
      let '(m', r) := transaction_spec euid owner (rq_access q) (rq_io q) (rq_transaction q) m in
      (ok_or m' NotPrivate, r)
  | Err e =>
      (Err e,
       _ ← rq_access q;
       _ ← match rq_transaction q with
           | Enroll enrollment_file => _ ← ClientEnrollment_load euid owner enrollment_file; Ok ()
           | Revoke _ => Ok ()
           end;
       Err e)
  end.

Fixpoint history_spec (euid : Z) (owner : PrivateFileOwner) (l : list Request) (s : result FileError Clients)
  : result FileError Clients * list (result FileError bytes) :=
  match l with
  | [] => (s, [])
  | q :: l =>
      let '(s, r) := request_spec euid owner q s in
      let '(s, rs) := history_spec euid owner l s in (s, r :: rs)
  end.

Lemma stored_held euid owner file m : stored euid owner file = Ok m ↔ held euid owner file = Some m.
Proof. unfold stored, held. destruct (AuthorizedClients_load _ _ _) as [a|[]]; naive_solver. Qed.

Lemma stored_load euid owner file e : stored euid owner file = Err e →
  AuthorizedClients_load euid owner file = Err e ∧ e ≠ NotFound.
Proof. unfold stored. destruct (AuthorizedClients_load _ _ _) as [a|[]]; naive_solver. Qed.

(** The only publication that makes a list refused: a first file with its temporary link. *)
Lemma linked_stored euid owner access io t file file' m r :
  expected_uid euid owner = euid → held euid owner file = Some m →
  run euid owner access io t file = (file', r) →
  (transaction_spec euid owner access io t m).1 = None → stored euid owner file' = Err NotPrivate.
Proof.
  intros Ho Hm Hrun Hnone. unfold transaction_spec in Hnone.
  destruct (access ≫= _) as [[kid [m'|]]|] eqn:Hd; [|done..]. destruct io; try done. cbn in Hnone.
  case_bool_decide as Hempty; [|done]. subst m. destruct access as [[]|]; [|done]. cbn in Hd.
  assert (file = None) as ->.
  { destruct (held_Some _ _ _ _ Hm) as [(-> & _)|(a & _ & Ha & He)]; [done|].
    by destruct (to_map_nonempty a Ha). }
  destruct t as [ef|]; [|done]. cbn in Hd, Hrun.
  destruct (ClientEnrollment_load euid owner ef) as [e|]; [|done]. cbn in Hrun.
  injection Hrun as <- <-. unfold stored, AuthorizedClients_load, read_private_file_to_string_bounded.
  cbn. by rewrite Ho, Z.eqb_refl.
Qed.

Lemma request_refines euid owner q file file' r :
  expected_uid euid owner = euid →
  run euid owner (rq_access q) (rq_io q) (rq_transaction q) file = (file', r) →
  (stored euid owner file', r) = request_spec euid owner q (stored euid owner file).
Proof.
  intros Ho Hrun. destruct (stored euid owner file) as [m|e] eqn:Hs.
  - apply stored_held in Hs as Hm. pose proof (run_refines _ _ _ _ _ _ _ _ _ Ho Hm Hrun) as Hspec.
    cbn [request_spec]. pose proof (linked_stored _ _ _ _ _ _ _ _ _ Ho Hm Hrun) as Hl.
    rewrite <- Hspec in Hl |- *. cbn [fst] in Hl. destruct (held euid owner file') as [m'|] eqn:Hm'; cbn [ok_or].
    + by rewrite (proj2 (stored_held _ _ _ _) Hm').
    + by rewrite Hl.
  - apply stored_load in Hs as Hl. destruct Hl as [Hl Hne]. destruct q as [[[]|e'] io t]; cbn in Hrun |- *.
    2:{ destruct t; cbn in Hrun; injection Hrun as <- <-; by rewrite Hs. }
    destruct t as [ef|kid]; cbn in Hrun |- *.
    + destruct (ClientEnrollment_load euid owner ef) as [en|e']; [|injection Hrun as <- <-; by rewrite Hs].
      unfold load_or_empty in Hrun. rewrite Hl in Hrun.
      by destruct e; try done; injection Hrun as <- <-; rewrite Hs.
    + rewrite Hl in Hrun. injection Hrun as <- <-. by rewrite Hs.
Qed.

(** C30: Over any sequence of enrolments and revocations with failing locks and I/O, by a
    process that runs as the owner it expects and from any file at the start, what the
    server would load next, clients or error, is exactly what the contract says, and every
    request is answered as the contract says: same key twice is idempotent, conflicts and the
    last client are refused, and a failed publication leaves the old or the new list, with
    one exception: a first file whose temporary link cannot be removed is refused as not
    private by every later load and request, as is any file that was refused at the start. *)
Theorem allowlist_history (euid : Z) (owner : PrivateFileOwner) (l : list Request)
    (file : option PrivateFile) :
  expected_uid euid owner = euid →
  let '(file', rs) := run_all euid owner l file in
  history_spec euid owner l (stored euid owner file) = (stored euid owner file', rs).
Proof.
  intros Ho. revert file. induction l as [|q l IH]; intros file; [done|]. cbn [run_all history_spec].
  destruct (run _ _ _ _ _ file) as [file1 r] eqn:Hrun. rewrite <- (request_refines _ _ _ _ _ _ Ho Hrun).
  specialize (IH file1). destruct (run_all euid owner l file1) as [file' rs]. by rewrite IH.
Qed.
End Theory.

(** ** Revoked clients *)

Section Revoked.
Context {T : Text} {TL : TextLaws T} {Cr : AuthCrypto} {CL : AuthCryptoLaws Cr} {Bu : BuildConfig}.
Context {Hc : HandshakeCrypto} {Ae : Aead}.

Lemma revoked_gone euid owner access io file file' m kid clients :
  expected_uid euid owner = euid → held euid owner file = Some m →
  revoke_with_owner euid owner access io file kid = (file', Ok ()) →
  AuthorizedClients_load euid owner file' = Ok clients →
  allowlist_wf clients ∧ ∀ e, e ∈ entries clients → ac_key_id e ≠ kid.
Proof.
  intros Ho Hm Hrev Hload.
  assert (run euid owner access io (Revoke kid) file = (file', Ok kid)) as Hrun
    by (cbn; by rewrite Hrev).
  apply (run_refines _ _ _ _ _ _ _ m) in Hrun; [|done..].
  unfold transaction_spec in Hrun. destruct access as [[]|e]; [|done]. cbn in Hrun.
  case_bool_decide; [done|]. destruct (m !! kid); [|done]. case_bool_decide; [done|].
  destruct io; try done. injection Hrun as Hheld.
  pose proof (held_Some _ _ _ _ Hheld) as [(_ & _ & Hl)|(a & Hl & Ha & Hmap)]; [congruence|].
  assert (a = clients) as -> by congruence. split; [apply Ha|].
  intros e He <-. destruct Ha as [Hw _ _].
  assert (to_map clients !! ac_key_id e = Some (ac_public_key e, ac_psk e)) as Hx.
  { apply to_map_lookup; [done|]. by destruct e. }
  by rewrite <- Hmap, lookup_delete_eq in Hx.
Qed.

(** C31: After a revocation that succeeded, a server that loads the file refuses every handshake
    that starts with the revoked identifier, whatever follows it, and writes at most its
    challenge. *)
Theorem revoked_client_refused (euid : Z) (owner : PrivateFileOwner) (access : result FileError ())
    (io : IoOutcome) (file file' : option PrivateFile) (m : Clients) (kid : bytes)
    (clients : AuthorizedClients) (state : ServerState) (cam : CamouflageMode)
    (car : CarrierBinding) (ks : ServerCoins) (dummy more : bytes) :
  expected_uid euid owner = euid → held euid owner file = Some m → len kid = CLIENT_KEY_ID_LEN →
  revoke_with_owner euid owner access io file kid = (file', Ok ()) →
  AuthorizedClients_load euid owner file' = Ok clients →
  server_coins_wf ks → k_dummy_psk ks = Some dummy → len dummy = CLIENT_PSK_LEN →
  let '(out, r) := drive (server_accept_bound state clients cam car ks) (kid ++ more) in
  is_ok r = false ∧ len out ≤ SERVER_ACCESS_PROOF_LEN.
Proof.
  intros Ho Hm Hkid Hrev Hload Hks Hd Hdl.
  destruct (revoked_gone _ _ _ _ _ _ _ _ _ Ho Hm Hrev Hload) as [Hw Hgone].
  destruct (drive _ _) as [out r] eqn:Hrun.
  destruct (server_gate _ _ _ _ _ dummy _ _ _ Hw Hd Hdl Hrun)
    as [[Hr Hout]|(e & cap & rest & He & Hin & _)].
  - split; [done|]. destruct Hout as [->|(kid' & more' & _ & _ & ->)]; [done|].
    unfold ServerAccessProof_encode. cbn [sap_challenge sap_psk_mac].
    rewrite len_app, hmac_length, (kw_challenge _ Hks). done.
  - exfalso. apply (Hgone e He). apply app_inj_len in Hin as [-> _]; [done|].
    rewrite Hkid. symmetry. destruct Hw as [_ Hw]. rewrite Forall_forall in Hw. by apply Hw.
Qed.
End Revoked.

(** ** Samples *)

Module AllowlistSample.
Import SessionSample HandshakeSample.

(** Hexadecimal, and documents as fields whose bytes are each marked. *)
Definition digit (n : Z) : byte := bz (if n <? 10 then 48 + n else 87 + n).
Definition undigit (b : byte) : option Z :=
  if (48 <=? bv b) && (bv b <=? 57) then Some (bv b - 48)
  else if (97 <=? bv b) && (bv b <=? 102) then Some (bv b - 87) else None.
Fixpoint to_hex (b : bytes) : bytes :=
  match b with [] => [] | x :: b => digit (bv x / 16) :: digit (bv x mod 16) :: to_hex b end.
Fixpoint of_hex (s : bytes) : option bytes :=
  match s with
  | [] => Some []
  | h :: l :: s => x ← undigit h; y ← undigit l; b ← of_hex s; Some (bz (16 * x + y) :: b)
  | [_] => None
  end.

Fixpoint field (f : bytes) : bytes :=
  match f with [] => [Byte.x00] | b :: f => Byte.x01 :: b :: field f end.
Fixpoint unfield (s : bytes) : option (bytes * bytes) :=
  match s with
  | Byte.x00 :: r => Some ([], r)
  | Byte.x01 :: b :: r => '(f, r) ← unfield r; Some (b :: f, r)
  | _ => None
  end.
Definition item (e : AllowlistEntry) : bytes :=
  field (ae_key_id e) ++ field (ae_ed25519_public_key e) ++ field (ae_psk e).
Fixpoint items (l : list AllowlistEntry) : bytes :=
  match l with [] => [Byte.x00] | e :: l => Byte.x01 :: item e ++ items l end.
Fixpoint unitems (fuel : nat) (s : bytes) : option (list AllowlistEntry) :=
  match fuel, s with
  | S _, [Byte.x00] => Some []
  | S fuel, Byte.x01 :: s =>
      '(k, s) ← unfield s; '(p, s) ← unfield s; '(x, s) ← unfield s;
      l ← unitems fuel s; Some (mkAllowlistEntry k p x :: l)
  | _, _ => None
  end.

#[export] Instance toy_text : Text := {|
  hex_encode := to_hex;
  hex_decode := of_hex;
  allowlist_to_json d := field (al_schema d) ++ items (al_clients d);
  allowlist_of_json s :=
    '(schema, s) ← unfield s; l ← unitems (length s) s; Some (mkAllowlistFile schema l);
  enrollment_to_json d := field (en_schema d) ++ field (en_key_id d)
    ++ field (en_ed25519_public_key d) ++ field (en_psk d);
  enrollment_of_json s :=
    '(schema, s) ← unfield s; '(k, s) ← unfield s; '(p, s) ← unfield s; '(x, _) ← unfield s;
    Some (mkEnrollmentFile schema k p x);
|}.

Lemma unfield_field f r : unfield (field f ++ r) = Some (f, r).
Proof. induction f as [|b f IH]; cbn; [done|]. by rewrite IH. Qed.
Lemma field_length f : len (field f) = 2 * len f + 1.
Proof. induction f as [|b f IH]; [done|]. cbn [field]. rewrite !len_cons, IH. lia. Qed.
Lemma items_length l : (length l < length (items l))%nat.
Proof. induction l as [|e l IH]; cbn; [lia|]. rewrite length_app. lia. Qed.
Lemma unitems_items l : ∀ fuel, (length l < fuel)%nat → unitems fuel (items l) = Some l.
Proof.
  induction l as [|e l IH]; intros [|fuel] Hf; cbn in Hf; try lia; [done|].
  cbn [items unitems]. unfold item. rewrite <- !app_assoc.
  rewrite unfield_field. cbn. rewrite unfield_field. cbn. rewrite unfield_field. cbn.
  rewrite IH by lia. by destruct e.
Qed.

Lemma nibble_check (P : Z → bool) :
  forallb P (seqZ 0 16) = true → ∀ z, 0 ≤ z < 16 → P z = true.
Proof.
  intros Hf z Hz. rewrite forallb_forall in Hf. apply Hf, list_elem_of_In, elem_of_seqZ. lia.
Qed.
Lemma digit_ok z : 0 ≤ z < 16 → is_hex_digit (digit z) = true ∧ undigit (digit z) = Some z.
Proof.
  intros Hz. split; [by apply (nibble_check (λ z, is_hex_digit (digit z)))|].
  pose proof (nibble_check (λ z, bool_decide (undigit (digit z) = Some z)) eq_refl z Hz) as H.
  by apply bool_decide_eq_true in H.
Qed.
Lemma nibbles b : 0 ≤ bv b / 16 < 16 ∧ 0 ≤ bv b mod 16 < 16.
Proof.
  pose proof (bv_range b). split; [|by apply Z.mod_pos_bound].
  split; [apply Z.div_pos; lia|]. apply Z.div_lt_upper_bound; lia.
Qed.
Lemma of_hex_length s : ∀ b, of_hex s = Some b → len s = len b * 2.
Proof.
  induction s as [s IH] using (induction_ltof1 _ length). unfold ltof in IH.
  destruct s as [|h [|l s]]; intros b Hb; cbn in Hb; [by injection Hb as <-|done|].
  apply bind_Some in Hb as (x & _ & Hb). apply bind_Some in Hb as (y & _ & Hb).
  apply bind_Some in Hb as (b' & Hb' & [= <-]). rewrite !len_cons, (IH s) with (b := b'); [lia| |done].
  cbn. lia.
Qed.

#[export] Instance toy_text_laws : TextLaws toy_text.
Proof.
  split.
  - intros b. induction b as [|x b IH]; [done|]. cbn in *. rewrite !len_cons, IH. lia.
  - intros b. induction b as [|x b IH]; [done|]. cbn in *. destruct (nibbles x) as [H1 H2].
    by rewrite (proj1 (digit_ok _ H1)), (proj1 (digit_ok _ H2)), IH.
  - intros b. induction b as [|x b IH]; [done|]. cbn in *. destruct (nibbles x) as [H1 H2].
    rewrite (proj2 (digit_ok _ H1)), (proj2 (digit_ok _ H2)). cbn. rewrite IH. cbn.
    do 2 f_equal. rewrite <- Z.div_mod by lia. apply bz_bv.
  - apply of_hex_length.
  - intros [schema l]. cbn. rewrite unfield_field. cbn.
    rewrite unitems_items by apply items_length. done.
  - intros [schema l] Hs Hl. cbn in *. rewrite len_app, field_length.
    enough (len (items l) ≤ 512 * len l + 1) by lia. clear Hs.
    induction Hl as [|e l [_ He] _ IH]; [done|]. cbn [items]. unfold item.
    rewrite !len_cons, !len_app, !field_length. rewrite !len_app in He. lia.
Qed.

Definition enrollment_of (c : ClientCredential) : option PrivateFile :=
  Some (staged 0 (ClientEnrollment_serialized (ClientEnrollment_from_credential c))).
Definition requests : list Request :=
  [mkRequest (Ok ()) IoOk (Enroll (enrollment_of credential));
   mkRequest (Ok ()) PublishFails (Enroll (enrollment_of other));
   mkRequest (Ok ()) IoOk (Enroll (enrollment_of other));
   mkRequest (Err Busy) IoOk (Revoke (cc_key_id credential));
   mkRequest (Ok ()) IoOk (Revoke (cc_key_id credential));
   mkRequest (Ok ()) IoOk (Revoke (cc_key_id other))].

Definition answers : list (result FileError bytes) :=
  [Ok (cc_key_id credential); Err IoFailed; Ok (cc_key_id other); Err Busy;
   Ok (cc_key_id credential); Err LastClient].
Lemma requests_run : (run_all 0 Root requests None).2 = answers.
Proof. vm_compute. reflexivity. Qed.

(** A first enrolment whose temporary link stays, and what follows. *)
Definition stuck : list Request :=
  [mkRequest (Ok ()) LinkLeft (Enroll (enrollment_of credential));
   mkRequest (Ok ()) IoOk (Enroll (enrollment_of other));
   mkRequest (Ok ()) IoOk (Revoke (cc_key_id credential))].
Lemma stuck_run :
  (run_all 0 Root stuck None).2 = [Err IoFailed; Err NotPrivate; Err NotPrivate]
  ∧ stored 0 Root (run_all 0 Root stuck None).1 = Err NotPrivate.
Proof. split; vm_compute; reflexivity. Qed.

Lemma allowlist_history_witness :
  (∃ m, history_spec 0 Root requests (Ok ∅) = (m, answers)
     ∧ stored 0 Root (run_all 0 Root requests None).1 = m)
  ∧ history_spec 0 Root stuck (Ok ∅) = (Err NotPrivate, [Err IoFailed; Err NotPrivate; Err NotPrivate]).
Proof.
  split.
  - pose proof (allowlist_history 0 Root requests None eq_refl) as H. pose proof requests_run as Hr.
    destruct (run_all 0 Root requests None) as [file' rs]. cbn [snd] in Hr. subst rs.
    exists (stored 0 Root file'). split; [exact H|reflexivity].
  - pose proof (allowlist_history 0 Root stuck None eq_refl) as H. pose proof stuck_run as [Hr Hs].
    destruct (run_all 0 Root stuck None) as [file' rs]. cbn [fst snd] in Hr, Hs. subst rs.
    change (stored 0 Root None) with (Ok ∅ : result FileError Clients) in H. rewrite Hs in H. exact H.
Defined.

(** The file with both clients, and without the first one. *)
Definition both : option PrivateFile := (run_all 0 Root (take 3 requests) None).1.
Definition without : option PrivateFile := (run_all 0 Root (take 5 requests) None).1.
Definition remaining : AuthorizedClients := unwrap (mkAuthorizedClients []) (AuthorizedClients_load 0 Root without).
Definition both_clients : AuthorizedClients :=
  unwrap (mkAuthorizedClients []) (AuthorizedClients_load 0 Root both).

Lemma both_ok : AuthorizedClients_load 0 Root both = Ok both_clients.
Proof. vm_compute. reflexivity. Qed.
Lemma revoked_ok :
  revoke_with_owner 0 Root (Ok ()) IoOk both (cc_key_id credential) = (without, Ok ()).
Proof. vm_compute. reflexivity. Qed.
Lemma key_id_ok : len (cc_key_id credential) = CLIENT_KEY_ID_LEN.
Proof. vm_compute. reflexivity. Qed.
Lemma remaining_ok : AuthorizedClients_load 0 Root without = Ok remaining.
Proof. vm_compute. reflexivity. Qed.

Lemma revoked_client_refused_witness :
  let '(out, r) := drive (server_accept_bound state remaining Raw DirectTcp ks)
                     (cc_key_id credential ++ drop 16 up) in
  is_ok r = false ∧ len out ≤ SERVER_ACCESS_PROOF_LEN.
Proof.
  pose proof (revoked_client_refused 0 Root (Ok ()) IoOk both without (to_map both_clients)
    (cc_key_id credential) remaining state Raw DirectTcp ks (byte_run 11 32) (drop 16 up)) as H.
  specialize (H eq_refl (held_Ok 0 Root both both_clients both_ok)).
  specialize (H key_id_ok revoked_ok remaining_ok ks_ok).
  specialize (H eq_refl). specialize (H eq_refl).
  exact H.
Defined.
End AllowlistSample.
