(* ===== verification/HostTypes.v ===== *)
(** * The host-state journal: data

    The types of [shadowpipe-core/src/host_state.rs]: owner identity, phases and operation
    states, the five kinds of owned resource, operation records and the journal, with the
    derived [Eq] and [Hash].  Validation, transitions and recovery decisions are in
    [HostState]. *)

From S2P Require Import Prelude.

(** ** Data *)

Definition JOURNAL_SCHEMA_VERSION : Z := 3.
Definition MAX_OPERATIONS : Z := 256.
Definition LINUX_MAIN_ROUTE_TABLE : Z := 254.
Definition SHADOWPIPE_ROUTE_PROTOCOL : Z := 186.
Definition IPV4_STATIC_FIREWALL_RULE_COUNT : Z := 4.
Definition IPV6_STATIC_FIREWALL_RULE_COUNT : Z := 3.

(** [std::net::IpAddr] by its octets. *)
Inductive IpAddr := V4 (octets : bytes) | V6 (octets : bytes).

Record NamespaceIdentity := mkNamespaceIdentity { ns_device : Z; ns_inode : Z }.

Record OwnerIdentity := mkOwnerIdentity {
  ow_session_id : bytes;
  ow_boot_id : option bytes;
  ow_uid : Z;
  ow_pid : Z;
  ow_pid_start_ticks : option Z;
  ow_network_namespace : option NamespaceIdentity;
  ow_mount_namespace : option NamespaceIdentity }.

Inductive JournalPhase := Preparing | Active | Cleaning | Conflict.
Inductive OperationState := Planned | Applied | Removed.
Inductive AddressFamily := Ipv4 | Ipv6.

Record InterfaceIdentity := mkInterfaceIdentity { if_name : bytes; if_ifindex : Z }.

Inductive RoutePurpose := SplitDefault | EndpointBypass | SshBypass.

Record IpPrefix := mkIpPrefix { px_address : IpAddr; px_prefix_len : Z }.

Record RouteResource := mkRouteResource {
  rt_purpose : RoutePurpose;
  rt_family : AddressFamily;
  rt_table : Z;
  rt_destination : IpPrefix;
  rt_gateway : option IpAddr;
  rt_output : InterfaceIdentity;
  rt_protocol : Z;
  rt_metric : Z }.

Inductive FirewallBackend := IptablesNft | IptablesLegacy.
Inductive FirewallTransport := Tcp | Udp.
Inductive FirewallTableOrigin := TablePreexisting | TableAbsentBeforeInstall | TableLegacyUnknown.
Inductive FirewallOutputChainOrigin :=
  ChainPreexisting | ChainAbsentBeforeInstall | ChainLegacyUnknown.

Record FirewallResource := mkFirewallResource {
  fw_family : AddressFamily;
  fw_backend : FirewallBackend;
  fw_chain_token : bytes;
  fw_filter_table_origin : FirewallTableOrigin;
  fw_output_chain_origin : FirewallOutputChainOrigin;
  fw_expected_rule_count : Z }.

Record FirewallEndpointResource := mkFirewallEndpointResource {
  fe_family : AddressFamily;
  fe_backend : FirewallBackend;
  fe_chain_token : bytes;
  fe_address : IpAddr;
  fe_transport : FirewallTransport;
  fe_port : Z }.

Inductive FileKind := Regular | Symlink.

Record FileIdentity := mkFileIdentity {
  fi_device : Z;
  fi_inode : Z;
  fi_uid : Z;
  fi_gid : Z;
  fi_mode : Z;
  fi_link_count : Z;
  fi_kind : FileKind }.

Inductive ResolverTarget := EtcResolvConf.

Record DnsResource := mkDnsResource {
  dn_target : ResolverTarget;
  dn_original : FileIdentity;
  dn_original_sha256 : option bytes;
  dn_pinned : FileIdentity;
  dn_pinned_sha256 : bytes }.

Record TunResource := mkTunResource { tn_interface : InterfaceIdentity }.

Inductive OwnedResource :=
| Route (route : RouteResource)
| Dns (dns : DnsResource)
| Tun (tun : TunResource)
| Firewall (firewall : FirewallResource)
| FirewallEndpoint (endpoint : FirewallEndpointResource).

Record OperationRecord := mkOperationRecord {
  op_id : Z;
  op_state : OperationState;
  op_resource : OwnedResource }.

Record HostStateJournalV1 := mkHostStateJournalV1 {
  hj_schema_version : Z;
  hj_generation : Z;
  hj_phase : JournalPhase;
  hj_owner : OwnerIdentity;
  hj_operations : list OperationRecord }.

(** The key of a chain, and of a route in the kernel: a route without its purpose. *)
Definition ChainKey : Type := AddressFamily * FirewallBackend * bytes.
Record KernelKey := mkKernelKey {
  kk_family : AddressFamily;
  kk_table : Z;
  kk_destination : IpPrefix;
  kk_gateway : option IpAddr;
  kk_output : InterfaceIdentity;
  kk_protocol : Z;
  kk_metric : Z }.

Definition kernel_key (route : RouteResource) : KernelKey :=
  mkKernelKey (rt_family route) (rt_table route) (rt_destination route) (rt_gateway route)
    (rt_output route) (rt_protocol route) (rt_metric route).

(** The derived [Eq] and [Hash]. *)
#[export] Instance IpAddr_eq_dec : EqDecision IpAddr.
Proof. solve_decision. Defined.
#[export] Instance NamespaceIdentity_eq_dec : EqDecision NamespaceIdentity.
Proof. solve_decision. Defined.
#[export] Instance OwnerIdentity_eq_dec : EqDecision OwnerIdentity.
Proof. solve_decision. Defined.
#[export] Instance JournalPhase_eq_dec : EqDecision JournalPhase.
Proof. solve_decision. Defined.
#[export] Instance OperationState_eq_dec : EqDecision OperationState.
Proof. solve_decision. Defined.
#[export] Instance AddressFamily_eq_dec : EqDecision AddressFamily.
Proof. solve_decision. Defined.
#[export] Instance InterfaceIdentity_eq_dec : EqDecision InterfaceIdentity.
Proof. solve_decision. Defined.
#[export] Instance RoutePurpose_eq_dec : EqDecision RoutePurpose.
Proof. solve_decision. Defined.
#[export] Instance IpPrefix_eq_dec : EqDecision IpPrefix.
Proof. solve_decision. Defined.
#[export] Instance RouteResource_eq_dec : EqDecision RouteResource.
Proof. solve_decision. Defined.
#[export] Instance FirewallBackend_eq_dec : EqDecision FirewallBackend.
Proof. solve_decision. Defined.
#[export] Instance FirewallTransport_eq_dec : EqDecision FirewallTransport.
Proof. solve_decision. Defined.
#[export] Instance FirewallTableOrigin_eq_dec : EqDecision FirewallTableOrigin.
Proof. solve_decision. Defined.
#[export] Instance FirewallOutputChainOrigin_eq_dec : EqDecision FirewallOutputChainOrigin.
Proof. solve_decision. Defined.
#[export] Instance FirewallResource_eq_dec : EqDecision FirewallResource.
Proof. solve_decision. Defined.
#[export] Instance FirewallEndpointResource_eq_dec : EqDecision FirewallEndpointResource.
Proof. solve_decision. Defined.
#[export] Instance FileKind_eq_dec : EqDecision FileKind.
Proof. solve_decision. Defined.
#[export] Instance FileIdentity_eq_dec : EqDecision FileIdentity.
Proof. solve_decision. Defined.
#[export] Instance ResolverTarget_eq_dec : EqDecision ResolverTarget.
Proof. solve_decision. Defined.
#[export] Instance DnsResource_eq_dec : EqDecision DnsResource.
Proof. solve_decision. Defined.
#[export] Instance TunResource_eq_dec : EqDecision TunResource.
Proof. solve_decision. Defined.
#[export] Instance OwnedResource_eq_dec : EqDecision OwnedResource.
Proof. solve_decision. Defined.
#[export] Instance OperationRecord_eq_dec : EqDecision OperationRecord.
Proof. solve_decision. Defined.
#[export] Instance HostStateJournalV1_eq_dec : EqDecision HostStateJournalV1.
Proof. solve_decision. Defined.
#[export] Instance KernelKey_eq_dec : EqDecision KernelKey.
Proof. solve_decision. Defined.

(** Structured values as trees of integers and byte strings, which are countable. *)
Abbreviation tree := (gen_tree (Z + bytes)).

Class Tree (T : Type) := {
  to_tree : T → tree;
  of_tree : tree → option T;
  of_to_tree x : of_tree (to_tree x) = Some x }.

Ltac solve_tree := intros; cbn -[to_tree of_tree]; repeat (rewrite of_to_tree; cbn -[to_tree of_tree]); done.

#[export, refine] Instance Z_tree : Tree Z := {
  to_tree z := GenLeaf (inl z);
  of_tree t := match t with GenLeaf (inl z) => Some z | _ => None end }.
Proof. done. Defined.

#[export, refine] Instance bytes_tree : Tree bytes := {
  to_tree b := GenLeaf (inr b);
  of_tree t := match t with GenLeaf (inr b) => Some b | _ => None end }.
Proof. done. Defined.

#[export, refine] Instance option_tree `{Tree T} : Tree (option T) := {
  to_tree o := match o with Some x => GenNode 1 [to_tree x] | None => GenNode 0 [] end;
  of_tree t := match t with
               | GenNode 1 [x] => Some <$> of_tree x
               | GenNode 0 [] => Some None
               | _ => None end }.
Proof. intros [x|]; solve_tree. Defined.

#[export, refine] Instance list_tree `{Tree T} : Tree (list T) := {
  to_tree l := GenNode 0 (to_tree <$> l);
  of_tree t := match t with GenNode 0 l => mapM of_tree l | _ => None end }.
Proof. intros l. apply mapM_fmap_Some, of_to_tree. Defined.

Ltac solve_enum := intros x; destruct x; reflexivity.

#[export, refine] Instance JournalPhase_tree : Tree JournalPhase := {
  to_tree x := GenNode match x with Preparing => 0 | Active => 1 | Cleaning => 2 | Conflict => 3 end [];
  of_tree t := match t with
               | GenNode 0 [] => Some Preparing | GenNode 1 [] => Some Active
               | GenNode 2 [] => Some Cleaning | GenNode 3 [] => Some Conflict | _ => None end }.
Proof. solve_enum. Defined.
#[export, refine] Instance OperationState_tree : Tree OperationState := {
  to_tree x := GenNode match x with Planned => 0 | Applied => 1 | Removed => 2 end [];
  of_tree t := match t with
               | GenNode 0 [] => Some Planned | GenNode 1 [] => Some Applied
               | GenNode 2 [] => Some Removed | _ => None end }.
Proof. solve_enum. Defined.
#[export, refine] Instance AddressFamily_tree : Tree AddressFamily := {
  to_tree x := GenNode match x with Ipv4 => 0 | Ipv6 => 1 end [];
  of_tree t := match t with
               | GenNode 0 [] => Some Ipv4 | GenNode 1 [] => Some Ipv6 | _ => None end }.
Proof. solve_enum. Defined.
#[export, refine] Instance RoutePurpose_tree : Tree RoutePurpose := {
  to_tree x := GenNode match x with SplitDefault => 0 | EndpointBypass => 1 | SshBypass => 2 end [];
  of_tree t := match t with
               | GenNode 0 [] => Some SplitDefault | GenNode 1 [] => Some EndpointBypass
               | GenNode 2 [] => Some SshBypass | _ => None end }.
Proof. solve_enum. Defined.
#[export, refine] Instance FirewallBackend_tree : Tree FirewallBackend := {
  to_tree x := GenNode match x with IptablesNft => 0 | IptablesLegacy => 1 end [];
  of_tree t := match t with
               | GenNode 0 [] => Some IptablesNft | GenNode 1 [] => Some IptablesLegacy
               | _ => None end }.
Proof. solve_enum. Defined.
#[export, refine] Instance FirewallTransport_tree : Tree FirewallTransport := {
  to_tree x := GenNode match x with Tcp => 0 | Udp => 1 end [];
  of_tree t := match t with
               | GenNode 0 [] => Some Tcp | GenNode 1 [] => Some Udp | _ => None end }.
Proof. solve_enum. Defined.
#[export, refine] Instance FirewallTableOrigin_tree : Tree FirewallTableOrigin := {
  to_tree x := GenNode match x with TablePreexisting => 0 | TableAbsentBeforeInstall => 1
                       | TableLegacyUnknown => 2 end [];
  of_tree t := match t with
               | GenNode 0 [] => Some TablePreexisting | GenNode 1 [] => Some TableAbsentBeforeInstall
               | GenNode 2 [] => Some TableLegacyUnknown | _ => None end }.
Proof. solve_enum. Defined.
#[export, refine] Instance FirewallOutputChainOrigin_tree : Tree FirewallOutputChainOrigin := {
  to_tree x := GenNode match x with ChainPreexisting => 0 | ChainAbsentBeforeInstall => 1
                       | ChainLegacyUnknown => 2 end [];
  of_tree t := match t with
               | GenNode 0 [] => Some ChainPreexisting | GenNode 1 [] => Some ChainAbsentBeforeInstall
               | GenNode 2 [] => Some ChainLegacyUnknown | _ => None end }.
Proof. solve_enum. Defined.
#[export, refine] Instance FileKind_tree : Tree FileKind := {
  to_tree x := GenNode match x with Regular => 0 | Symlink => 1 end [];
  of_tree t := match t with
               | GenNode 0 [] => Some Regular | GenNode 1 [] => Some Symlink | _ => None end }.
Proof. solve_enum. Defined.
#[export, refine] Instance ResolverTarget_tree : Tree ResolverTarget := {
  to_tree x := GenNode 0 [];
  of_tree t := match t with GenNode 0 [] => Some EtcResolvConf | _ => None end }.
Proof. solve_enum. Defined.

#[export, refine] Instance IpAddr_tree : Tree IpAddr := {
  to_tree a := match a with V4 o => GenNode 4 [to_tree o] | V6 o => GenNode 6 [to_tree o] end;
  of_tree t := match t with
               | GenNode 4 [o] => V4 <$> of_tree o
               | GenNode 6 [o] => V6 <$> of_tree o
               | _ => None end }.
Proof. intros [o|o]; solve_tree. Defined.

(** A record as the tree of its fields. *)
#[export, refine] Instance NamespaceIdentity_tree : Tree NamespaceIdentity := {
  to_tree x := let '(mkNamespaceIdentity a b) := x in GenNode 0 [to_tree a; to_tree b];
  of_tree t := match t with
               | GenNode 0 [a; b] => a ← of_tree a; b ← of_tree b; Some (mkNamespaceIdentity a b)
               | _ => None end }.
Proof. intros []; solve_tree. Defined.
#[export, refine] Instance OwnerIdentity_tree : Tree OwnerIdentity := {
  to_tree x := let '(mkOwnerIdentity a b c d e f g) := x in
    GenNode 0 [to_tree a; to_tree b; to_tree c; to_tree d; to_tree e; to_tree f; to_tree g];
  of_tree t := match t with
    | GenNode 0 [a; b; c; d; e; f; g] =>
        a ← of_tree a; b ← of_tree b; c ← of_tree c; d ← of_tree d; e ← of_tree e;
        f ← of_tree f; g ← of_tree g; Some (mkOwnerIdentity a b c d e f g)
    | _ => None end }.
Proof. intros []; solve_tree. Defined.
#[export, refine] Instance InterfaceIdentity_tree : Tree InterfaceIdentity := {
  to_tree x := let '(mkInterfaceIdentity a b) := x in GenNode 0 [to_tree a; to_tree b];
  of_tree t := match t with
               | GenNode 0 [a; b] => a ← of_tree a; b ← of_tree b; Some (mkInterfaceIdentity a b)
               | _ => None end }.
Proof. intros []; solve_tree. Defined.
#[export, refine] Instance IpPrefix_tree : Tree IpPrefix := {
  to_tree x := let '(mkIpPrefix a b) := x in GenNode 0 [to_tree a; to_tree b];
  of_tree t := match t with
               | GenNode 0 [a; b] => a ← of_tree a; b ← of_tree b; Some (mkIpPrefix a b)
               | _ => None end }.
Proof. intros []; solve_tree. Defined.
#[export, refine] Instance RouteResource_tree : Tree RouteResource := {
  to_tree x := let '(mkRouteResource a b c d e f g h) := x in
    GenNode 0 [to_tree a; to_tree b; to_tree c; to_tree d; to_tree e; to_tree f; to_tree g; to_tree h];
  of_tree t := match t with
    | GenNode 0 [a; b; c; d; e; f; g; h] =>
        a ← of_tree a; b ← of_tree b; c ← of_tree c; d ← of_tree d; e ← of_tree e;
        f ← of_tree f; g ← of_tree g; h ← of_tree h; Some (mkRouteResource a b c d e f g h)
    | _ => None end }.
Proof. intros []; solve_tree. Defined.
#[export, refine] Instance KernelKey_tree : Tree KernelKey := {
  to_tree x := let '(mkKernelKey a b c d e f g) := x in
    GenNode 0 [to_tree a; to_tree b; to_tree c; to_tree d; to_tree e; to_tree f; to_tree g];
  of_tree t := match t with
    | GenNode 0 [a; b; c; d; e; f; g] =>
        a ← of_tree a; b ← of_tree b; c ← of_tree c; d ← of_tree d; e ← of_tree e;
        f ← of_tree f; g ← of_tree g; Some (mkKernelKey a b c d e f g)
    | _ => None end }.
Proof. intros []; solve_tree. Defined.
#[export, refine] Instance FirewallResource_tree : Tree FirewallResource := {
  to_tree x := let '(mkFirewallResource a b c d e f) := x in
    GenNode 0 [to_tree a; to_tree b; to_tree c; to_tree d; to_tree e; to_tree f];
  of_tree t := match t with
    | GenNode 0 [a; b; c; d; e; f] =>
        a ← of_tree a; b ← of_tree b; c ← of_tree c; d ← of_tree d; e ← of_tree e;
        f ← of_tree f; Some (mkFirewallResource a b c d e f)
    | _ => None end }.
Proof. intros []; solve_tree. Defined.
#[export, refine] Instance FirewallEndpointResource_tree : Tree FirewallEndpointResource := {
  to_tree x := let '(mkFirewallEndpointResource a b c d e f) := x in
    GenNode 0 [to_tree a; to_tree b; to_tree c; to_tree d; to_tree e; to_tree f];
  of_tree t := match t with
    | GenNode 0 [a; b; c; d; e; f] =>
        a ← of_tree a; b ← of_tree b; c ← of_tree c; d ← of_tree d; e ← of_tree e;
        f ← of_tree f; Some (mkFirewallEndpointResource a b c d e f)
    | _ => None end }.
Proof. intros []; solve_tree. Defined.
#[export, refine] Instance FileIdentity_tree : Tree FileIdentity := {
  to_tree x := let '(mkFileIdentity a b c d e f g) := x in
    GenNode 0 [to_tree a; to_tree b; to_tree c; to_tree d; to_tree e; to_tree f; to_tree g];
  of_tree t := match t with
    | GenNode 0 [a; b; c; d; e; f; g] =>
        a ← of_tree a; b ← of_tree b; c ← of_tree c; d ← of_tree d; e ← of_tree e;
        f ← of_tree f; g ← of_tree g; Some (mkFileIdentity a b c d e f g)
    | _ => None end }.
Proof. intros []; solve_tree. Defined.
#[export, refine] Instance DnsResource_tree : Tree DnsResource := {
  to_tree x := let '(mkDnsResource a b c d e) := x in
    GenNode 0 [to_tree a; to_tree b; to_tree c; to_tree d; to_tree e];
  of_tree t := match t with
    | GenNode 0 [a; b; c; d; e] =>
        a ← of_tree a; b ← of_tree b; c ← of_tree c; d ← of_tree d; e ← of_tree e;
        Some (mkDnsResource a b c d e)
    | _ => None end }.
Proof. intros []; solve_tree. Defined.
#[export, refine] Instance OwnedResource_tree : Tree OwnedResource := {
  to_tree x := match x with
    | Route r => GenNode 0 [to_tree r] | Dns d => GenNode 1 [to_tree d]
    | Tun t => GenNode 2 [to_tree (tn_interface t)]
    | Firewall f => GenNode 3 [to_tree f] | FirewallEndpoint e => GenNode 4 [to_tree e] end;
  of_tree t := match t with
    | GenNode 0 [r] => Route <$> of_tree r | GenNode 1 [d] => Dns <$> of_tree d
    | GenNode 2 [i] => Tun ∘ mkTunResource <$> of_tree i
    | GenNode 3 [f] => Firewall <$> of_tree f
    | GenNode 4 [e] => FirewallEndpoint <$> of_tree e
    | _ => None end }.
Proof. intros [r|d|[i]|f|e]; solve_tree. Defined.
#[export, refine] Instance OperationRecord_tree : Tree OperationRecord := {
  to_tree x := let '(mkOperationRecord a b c) := x in GenNode 0 [to_tree a; to_tree b; to_tree c];
  of_tree t := match t with
    | GenNode 0 [a; b; c] =>
        a ← of_tree a; b ← of_tree b; c ← of_tree c; Some (mkOperationRecord a b c)
    | _ => None end }.
Proof. intros []; solve_tree. Defined.
#[export, refine] Instance HostStateJournalV1_tree : Tree HostStateJournalV1 := {
  to_tree x := let '(mkHostStateJournalV1 a b c d e) := x in
    GenNode 0 [to_tree a; to_tree b; to_tree c; to_tree d; to_tree e];
  of_tree t := match t with
    | GenNode 0 [a; b; c; d; e] =>
        a ← of_tree a; b ← of_tree b; c ← of_tree c; d ← of_tree d; e ← of_tree e;
        Some (mkHostStateJournalV1 a b c d e)
    | _ => None end }.
Proof. intros []; solve_tree. Defined.

#[export] Instance AddressFamily_countable : Countable AddressFamily :=
  inj_countable to_tree of_tree of_to_tree.
#[export] Instance FirewallBackend_countable : Countable FirewallBackend :=
  inj_countable to_tree of_tree of_to_tree.
#[export] Instance KernelKey_countable : Countable KernelKey :=
  inj_countable to_tree of_tree of_to_tree.
#[export] Instance OwnedResource_countable : Countable OwnedResource :=
  inj_countable to_tree of_tree of_to_tree.
