(* ===== verification/HostState.v ===== *)
(** * The host-state journal: validation, transitions and recovery decisions

    The functions of [shadowpipe-core/src/host_state.rs] that touch no file: the validator
    of a journal, the check that one generation may follow another, the transitions of
    phases and operations, the classification of the previous owner, and the planner of
    recovery.  The validator is shown to decide a declarative notion of well-formed
    journal, chains of successors to lose no resource that was not recorded as removed,
    and the planner to answer with a plan exactly when every live resource was observed
    once and without conflict.  The files that hold a journal are in [HostStore], the
    operations that write it in [HostJournal], and the driver of recovery in
    [HostRecovery]. *)

From S2P Require Import Prelude HostTypes.

(** The messages of [JournalValidationError], one constructor for each. *)
Inductive JournalValidationError :=
| IfindexZero | InterfaceName | PrefixFamily
| RouteTable | RouteProtocol | RouteMetric | GatewayFamily | SplitDefaultShape | BypassPrefix
| RuleCount | ChainTokenZero | TableOriginUnknown | LegacyOwnsTable | ChainOriginUnknown
| LegacyOwnsChain | AbsentTablePresentChain
| EndpointTokenZero | EndpointFamily | EndpointPortZero
| DnsIdentityZero | DnsModeKind | DnsPinnedKind | DnsSameFile | DnsDigestMissing
| DnsDigestOnSymlink
| SchemaVersion | GenerationZero | PidZero | SessionZero | TooManyOperations
| OperationIds | ResourceRecurs | DnsOwner | DuplicateFirewall | DuplicateRoute
| EndpointWithoutChain | ChainAfterEndpoint | TooManyDnsTun | ActivePlanned
| NextGenerationOverflow | SuccessorGeneration | SuccessorOwner | SuccessorPhase
| SuccessorRemoves | SuccessorRetargets | SuccessorOperation | SuccessorStateChange
| SuccessorAppends | SuccessorNotPlanned
| OwnerUid.

(** ** Validation of resources *)

Definition AddressFamily_matches (family : AddressFamily) (address : IpAddr) : bool :=
  match family, address with
  | Ipv4, V4 _ | Ipv6, V6 _ => true
  | _, _ => false
  end.

Definition InterfaceIdentity_validate (i : InterfaceIdentity) : result JournalValidationError () :=
  if if_ifindex i =? 0 then Err IfindexZero else
  if (len (if_name i) =? 0) || (15 <? len (if_name i))
     || existsb (λ byte, (bv byte =? 0) || (bv byte =? 47)) (if_name i)
  then Err InterfaceName else Ok ().

Definition host_prefix (family : AddressFamily) : Z :=
  match family with Ipv4 => 32 | Ipv6 => 128 end.

Definition IpPrefix_validate (p : IpPrefix) (family : AddressFamily)
  : result JournalValidationError () :=
  if negb (AddressFamily_matches family (px_address p)) || (host_prefix family <? px_prefix_len p)
  then Err PrefixFamily else Ok ().

Definition is_split_default_prefix (address : IpAddr) : bool :=
  let canonical (octets : bytes) (tail : nat) :=
    match octets with
    | first :: rest =>
        ((bv first =? 0) || (bv first =? 128)) && bool_decide (rest = replicate tail Byte.x00)
    | [] => false
    end in
  match address with
  | V4 octets => canonical octets 3%nat
  | V6 octets => canonical octets 15%nat
  end.

Definition RouteResource_validate (r : RouteResource) : result JournalValidationError () :=
  if negb (rt_table r =? LINUX_MAIN_ROUTE_TABLE) then Err RouteTable else
  if negb (rt_protocol r =? SHADOWPIPE_ROUTE_PROTOCOL) then Err RouteProtocol else
  if rt_metric r =? 0 then Err RouteMetric else
  _ ← IpPrefix_validate (rt_destination r) (rt_family r);
  if match rt_gateway r with
     | Some gateway => negb (AddressFamily_matches (rt_family r) gateway)
     | None => false
     end
  then Err GatewayFamily else
  _ ← InterfaceIdentity_validate (rt_output r);
  match rt_purpose r with
  | SplitDefault =>
      if negb (px_prefix_len (rt_destination r) =? 1)
         || match rt_gateway r with Some _ => true | None => false end
         || negb (is_split_default_prefix (px_address (rt_destination r)))
      then Err SplitDefaultShape else Ok ()
  | EndpointBypass | SshBypass =>
      if negb (px_prefix_len (rt_destination r) =? host_prefix (rt_family r))
      then Err BypassPrefix else Ok ()
  end.

Definition FirewallResource_validate (f : FirewallResource) : result JournalValidationError () :=
  let expected := match fw_family f with
                  | Ipv4 => IPV4_STATIC_FIREWALL_RULE_COUNT
                  | Ipv6 => IPV6_STATIC_FIREWALL_RULE_COUNT
                  end in
  if negb (fw_expected_rule_count f =? expected) then Err RuleCount else
  if bool_decide (fw_chain_token f = replicate 10 Byte.x00) then Err ChainTokenZero else
  _ ← match fw_backend f, fw_filter_table_origin f with
      | _, TableLegacyUnknown => Err TableOriginUnknown
      | IptablesLegacy, TableAbsentBeforeInstall => Err LegacyOwnsTable
      | _, _ => Ok ()
      end;
  _ ← match fw_backend f, fw_output_chain_origin f with
      | _, ChainLegacyUnknown => Err ChainOriginUnknown
      | IptablesLegacy, ChainAbsentBeforeInstall => Err LegacyOwnsChain
      | _, _ => Ok ()
      end;
  if bool_decide (fw_filter_table_origin f = TableAbsentBeforeInstall)
     && negb (bool_decide (fw_output_chain_origin f = ChainAbsentBeforeInstall))
  then Err AbsentTablePresentChain else Ok ().

Definition FirewallEndpointResource_validate (e : FirewallEndpointResource)
  : result JournalValidationError () :=
  if bool_decide (fe_chain_token e = replicate 10 Byte.x00) then Err EndpointTokenZero else
  if negb (AddressFamily_matches (fe_family e) (fe_address e)) then Err EndpointFamily else
  if fe_port e =? 0 then Err EndpointPortZero else Ok ().

Definition endpoint_chain_key (e : FirewallEndpointResource) : ChainKey :=
  (fe_family e, fe_backend e, fe_chain_token e).
Definition firewall_chain_key (f : FirewallResource) : ChainKey :=
  (fw_family f, fw_backend f, fw_chain_token f).

(** One pass of the loop over the original and the pinned identity. *)
Definition check_dns_identity (identity : FileIdentity) : result JournalValidationError () :=
  if (fi_device identity =? 0) || (fi_inode identity =? 0) || (fi_link_count identity =? 0)
  then Err DnsIdentityZero else
  let expected_type := match fi_kind identity with Regular => 0x8000 | Symlink => 0xA000 end in
  if negb (Z.land (fi_mode identity) 0xF000 =? expected_type) then Err DnsModeKind else Ok ().

Definition DnsResource_validate (d : DnsResource) : result JournalValidationError () :=
  _ ← check_dns_identity (dn_original d);
  _ ← check_dns_identity (dn_pinned d);
  if negb (bool_decide (fi_kind (dn_pinned d) = Regular)) then Err DnsPinnedKind else
  if (fi_device (dn_original d) =? fi_device (dn_pinned d))
     && (fi_inode (dn_original d) =? fi_inode (dn_pinned d))
  then Err DnsSameFile else
  match fi_kind (dn_original d), dn_original_sha256 d with
  | Regular, Some _ | Symlink, None => Ok ()
  | Regular, None => Err DnsDigestMissing
  | Symlink, Some _ => Err DnsDigestOnSymlink
  end.

Definition OwnedResource_validate (r : OwnedResource) : result JournalValidationError () :=
  match r with
  | Route route => RouteResource_validate route
  | Dns dns => DnsResource_validate dns
  | Tun tun => InterfaceIdentity_validate (tn_interface tun)
  | Firewall firewall => FirewallResource_validate firewall
  | FirewallEndpoint endpoint => FirewallEndpointResource_validate endpoint
  end.

Definition removal_rank (r : OwnedResource) : Z :=
  match r with
  | Route route => if bool_decide (rt_purpose route = SplitDefault) then 0 else 2
  | Dns _ => 1
  | Tun _ => 3
  | FirewallEndpoint _ => 4
  | Firewall _ => 5
  end.

(** ** Validation of a journal *)

Definition live (operation : OperationRecord) : bool :=
  negb (bool_decide (op_state operation = Removed)).

(** The local variables of the loop over the operations. *)
Record Scan := mkScan {
  sc_index : Z;
  sc_latest : gmap OwnedResource OperationState;
  sc_dns_count : Z;
  sc_tun_count : Z;
  sc_families : gset AddressFamily;
  sc_chains : gmap ChainKey Z;
  sc_endpoints : list (Z * ChainKey);
  sc_route_keys : gset KernelKey }.

Definition scan_init : Scan := mkScan 0 ∅ 0 0 ∅ ∅ [] ∅.

(** The [match] on the resource of one operation. *)
Definition scan_resource (owner_uid : Z) (s : Scan) (operation : OperationRecord)
  : result JournalValidationError Scan :=
  let '(mkScan index latest dns tun families chains endpoints routes) := s in
  match op_resource operation with
  | Dns d =>
      let dns := if live operation then dns + 1 else dns in
      if negb (fi_uid (dn_pinned d) =? owner_uid) then Err DnsOwner
      else Ok (mkScan index latest dns tun families chains endpoints routes)
  | Tun _ =>
      let tun := if live operation then tun + 1 else tun in
      Ok (mkScan index latest dns tun families chains endpoints routes)
  | Firewall f =>
      if live operation then
        if bool_decide (fw_family f ∈ families) then Err DuplicateFirewall
        else Ok (mkScan index latest dns tun ({[fw_family f]} ∪ families)
                   (<[firewall_chain_key f := op_id operation]> chains) endpoints routes)
      else Ok s
  | FirewallEndpoint e =>
      if live operation then
        Ok (mkScan index latest dns tun families chains
              (endpoints ++ [(op_id operation, endpoint_chain_key e)]) routes)
      else Ok s
  | Route r =>
      if live operation then
        if bool_decide (kernel_key r ∈ routes) then Err DuplicateRoute
        else Ok (mkScan index latest dns tun families chains endpoints ({[kernel_key r]} ∪ routes))
      else Ok s
  end.

Definition scan_record (owner_uid : Z) (s : Scan) (operation : OperationRecord)
  : result JournalValidationError Scan :=
  let '(mkScan index latest dns tun families chains endpoints routes) := s in
  if negb (op_id operation =? index + 1) then Err OperationIds else
  _ ← OwnedResource_validate (op_resource operation);
  if match latest !! op_resource operation with
     | Some previous_state => negb (bool_decide (previous_state = Removed))
     | None => false
     end
  then Err ResourceRecurs else
  scan_resource owner_uid
    (mkScan (index + 1) (<[op_resource operation := op_state operation]> latest)
       dns tun families chains endpoints routes) operation.

(** The loop over the live endpoint rules. *)
Definition check_endpoint (chains : gmap ChainKey Z) (_ : ()) (endpoint : Z * ChainKey)
  : result JournalValidationError () :=
  match chains !! endpoint.2 with
  | None => Err EndpointWithoutChain
  | Some chain_operation_id =>
      if endpoint.1 <=? chain_operation_id then Err ChainAfterEndpoint else Ok ()
  end.

Definition any_planned (operations : list OperationRecord) : bool :=
  existsb (λ operation, bool_decide (op_state operation = Planned)) operations.

Definition validate (j : HostStateJournalV1) : result JournalValidationError () :=
  if negb (hj_schema_version j =? JOURNAL_SCHEMA_VERSION) then Err SchemaVersion else
  if hj_generation j =? 0 then Err GenerationZero else
  if ow_pid (hj_owner j) =? 0 then Err PidZero else
  if bool_decide (ow_session_id (hj_owner j) = replicate 16 Byte.x00) then Err SessionZero else
  if MAX_OPERATIONS <? len (hj_operations j) then Err TooManyOperations else
  s ← fold_res (scan_record (ow_uid (hj_owner j))) scan_init (hj_operations j);
  _ ← fold_res (check_endpoint (sc_chains s)) () (sc_endpoints s);
  if (1 <? sc_dns_count s) || (1 <? sc_tun_count s) then Err TooManyDnsTun else
  if bool_decide (hj_phase j = Active) && any_planned (hj_operations j)
  then Err ActivePlanned else Ok ().

Definition journal_new (owner : OwnerIdentity) (operations : list OperationRecord)
  : result JournalValidationError HostStateJournalV1 :=
  let journal := mkHostStateJournalV1 JOURNAL_SCHEMA_VERSION 1 Preparing owner operations in
  _ ← validate journal;
  Ok journal.

(** ** Transitions *)

Definition phase_can_transition_to (self next : JournalPhase) : bool :=
  bool_decide (self = next)
  || match self, next with
     | Preparing, Active | Preparing, Cleaning | Preparing, Conflict
     | Active, Preparing | Active, Cleaning | Active, Conflict
     | Cleaning, Conflict => true
     | _, _ => false
     end.

Definition state_can_transition_to (self next : OperationState) : bool :=
  bool_decide (self = next)
  || match self, next with
     | Planned, Applied | Planned, Removed | Applied, Removed => true
     | _, _ => false
     end.

(** Dense renumbering of the records that are not removed. *)
Definition renumber (operations : list OperationRecord) : list OperationRecord :=
  imap (λ index operation,
    mkOperationRecord (Z.of_nat index + 1) (op_state operation) (op_resource operation))
    operations.

Definition compacted (operations : list OperationRecord) : list OperationRecord :=
  renumber (List.filter live operations).

(** One pass of the loop over the records that both generations have. *)
Definition check_pair (from to : JournalPhase) (_ : ()) (pair : OperationRecord * OperationRecord)
  : result JournalValidationError () :=
  let '(previous, candidate) := pair in
  if negb (op_id candidate =? op_id previous)
     || negb (bool_decide (op_resource candidate = op_resource previous))
  then Err SuccessorRetargets else
  if negb (state_can_transition_to (op_state previous) (op_state candidate))
  then Err SuccessorOperation else
  let state_change_allowed :=
    match from, to with
    | Preparing, Preparing => true
    | Cleaning, Cleaning =>
        bool_decide (op_state candidate = op_state previous)
        || bool_decide (op_state candidate = Removed)
    | _, _ => bool_decide (op_state candidate = op_state previous)
    end in
  if negb state_change_allowed then Err SuccessorStateChange else Ok ().

Definition validate_successor (self next : HostStateJournalV1)
  : result JournalValidationError () :=
  _ ← validate self;
  _ ← validate next;
  expected_generation ← ok_or (u64_checked_add (hj_generation self) 1) NextGenerationOverflow;
  if negb (hj_generation next =? expected_generation) then Err SuccessorGeneration else
  if negb (bool_decide (hj_owner next = hj_owner self)) then Err SuccessorOwner else
  if negb (phase_can_transition_to (hj_phase self) (hj_phase next)) then Err SuccessorPhase else
  if (length (hj_operations next) <? length (hj_operations self))%nat then
    if bool_decide (hj_phase self = Active) && bool_decide (hj_phase next = Active)
       && bool_decide (hj_operations next = compacted (hj_operations self))
    then Ok () else Err SuccessorRemoves
  else
  _ ← fold_res (check_pair (hj_phase self) (hj_phase next)) ()
        (zip (hj_operations self) (hj_operations next));
  let appended := drop (length (hj_operations self)) (hj_operations next) in
  if negb (bool_decide (appended = []))
     && negb (bool_decide (hj_phase self = Preparing) && bool_decide (hj_phase next = Preparing))
  then Err SuccessorAppends else
  if existsb (λ operation, negb (bool_decide (op_state operation = Planned))) appended
  then Err SuccessorNotPlanned else Ok ().

Inductive TransitionError :=
| IllegalPhase (from to : JournalPhase)
| ActiveWithIncompleteOperations
| UnknownOperation (operation_id : Z)
| IllegalOperation (operation_id : Z) (from to : OperationState)
| OperationNotAllowedInPhase (operation_id : Z) (phase : JournalPhase) (to : OperationState)
| GenerationOverflow.

Definition with_phase (j : HostStateJournalV1) (phase : JournalPhase) : HostStateJournalV1 :=
  mkHostStateJournalV1 (hj_schema_version j) (hj_generation j) phase (hj_owner j)
    (hj_operations j).
Definition with_operations (j : HostStateJournalV1) (operations : list OperationRecord)
  : HostStateJournalV1 :=
  mkHostStateJournalV1 (hj_schema_version j) (hj_generation j) (hj_phase j) (hj_owner j)
    operations.
Definition with_generation (j : HostStateJournalV1) (generation : Z) : HostStateJournalV1 :=
  mkHostStateJournalV1 (hj_schema_version j) generation (hj_phase j) (hj_owner j)
    (hj_operations j).

Definition transition_phase (j : HostStateJournalV1) (next : JournalPhase)
  : result TransitionError HostStateJournalV1 :=
  if negb (phase_can_transition_to (hj_phase j) next) then Err (IllegalPhase (hj_phase j) next) else
  if bool_decide (next = Active) && any_planned (hj_operations j)
  then Err ActiveWithIncompleteOperations
  else Ok (with_phase j next).

(** [iter().find] by the identifier of an operation, with its position. *)
Definition find_operation (operation_id : Z) (operations : list OperationRecord)
  : option (nat * OperationRecord) :=
  list_find (λ operation, op_id operation = operation_id) operations.

Definition transition_operation (j : HostStateJournalV1) (operation_id : Z) (next : OperationState)
  : result TransitionError HostStateJournalV1 :=
  '(index, operation) ← ok_or (find_operation operation_id (hj_operations j))
                          (UnknownOperation operation_id);
  if bool_decide (op_state operation = next) then Ok j else
  if negb (state_can_transition_to (op_state operation) next)
  then Err (IllegalOperation operation_id (op_state operation) next) else
  let phase_allows :=
    match hj_phase j with
    | Preparing =>
        match op_state operation, next with
        | Planned, Applied | Planned, Removed | Applied, Removed => true
        | _, _ => false
        end
    | Cleaning => bool_decide (next = Removed)
    | Active | Conflict => false
    end in
  if negb phase_allows then Err (OperationNotAllowedInPhase operation_id (hj_phase j) next) else
  Ok (with_operations j
        (<[index := mkOperationRecord (op_id operation) next (op_resource operation)]>
           (hj_operations j))).

Definition next_generation (j : HostStateJournalV1) : result TransitionError HostStateJournalV1 :=
  generation ← ok_or (u64_checked_add (hj_generation j) 1) GenerationOverflow;
  Ok (with_generation j generation).

Definition is_fully_removed (j : HostStateJournalV1) : bool :=
  bool_decide (hj_phase j = Cleaning)
  && forallb (λ operation, bool_decide (op_state operation = Removed)) (hj_operations j).

(** ** The previous owner *)

Inductive LeaseEvidence := LeaseHeld | LeaseAvailable.
Inductive BootEvidence := BootSame | BootDifferent | BootUnknown.
Inductive ProcessEvidence := MatchingStartTime | ProcessMissing | PidReused | ProcessUnknown.
Inductive NamespaceEvidence :=
  NamespaceSame | NamespaceDifferent | NamespaceUnknown | NotApplicableAfterReboot.

Record OwnerEvidence := mkOwnerEvidence {
  ev_lease : LeaseEvidence;
  ev_boot : BootEvidence;
  ev_process : ProcessEvidence;
  ev_namespaces : NamespaceEvidence }.

Inductive OwnerDisposition := OwnerActive | OwnerStale | OwnerAmbiguous.

Definition classify_owner (evidence : OwnerEvidence) : OwnerDisposition :=
  match ev_lease evidence with
  | LeaseHeld => OwnerActive
  | LeaseAvailable =>
      match ev_boot evidence, ev_namespaces evidence, ev_process evidence with
      | BootDifferent, NotApplicableAfterReboot, _ => OwnerStale
      | BootSame, NamespaceSame, (ProcessMissing | PidReused) => OwnerStale
      | _, _, _ => OwnerAmbiguous
      end
  end.

(** What [/proc] shows to the process that looks. *)
Record ProcView := mkProcView {
  pv_boot_id : option bytes;
  pv_start_ticks : Z → option Z;
  pv_exists : Z → bool;
  pv_network_namespace : option NamespaceIdentity;
  pv_mount_namespace : option NamespaceIdentity }.

Definition observe_owner (proc : ProcView) (owner : OwnerIdentity) (lease : LeaseEvidence)
  : OwnerEvidence :=
  let boot :=
    match ow_boot_id owner, pv_boot_id proc with
    | Some expected, Some actual =>
        if bool_decide (expected = actual) then BootSame else BootDifferent
    | _, _ => BootUnknown
    end in
  let process :=
    match ow_pid_start_ticks owner with
    | Some expected =>
        match pv_start_ticks proc (ow_pid owner) with
        | Some actual => if actual =? expected then MatchingStartTime else PidReused
        | None => if negb (pv_exists proc (ow_pid owner)) then ProcessMissing else ProcessUnknown
        end
    | None => ProcessUnknown
    end in
  let namespaces :=
    match boot with
    | BootDifferent => NotApplicableAfterReboot
    | BootUnknown => NamespaceUnknown
    | BootSame =>
        match ow_network_namespace owner, pv_network_namespace proc,
              ow_mount_namespace owner, pv_mount_namespace proc with
        | Some expected_net, Some actual_net, Some expected_mnt, Some actual_mnt =>
            if bool_decide (expected_net = actual_net) && bool_decide (expected_mnt = actual_mnt)
            then NamespaceSame else NamespaceDifferent
        | _, _, _, _ => NamespaceUnknown
        end
    end in
  mkOwnerEvidence lease boot process namespaces.

(** ** The recovery decision *)

Inductive ResourceObservationKind := ExactOwnedPresent | ObservedAbsent | ObservedConflict.
Record ResourceObservation := mkResourceObservation {
  ob_operation_id : Z;
  ob_kind : ResourceObservationKind }.
Inductive RecoveryAction := RemoveExactOwned | MarkAlreadyAbsent.
Record RecoveryStep := mkRecoveryStep {
  rs_operation_id : Z;
  rs_action : RecoveryAction;
  rs_resource : OwnedResource }.
Record RecoveryPlan := mkRecoveryPlan {
  rp_source_generation : Z;
  rp_required_phase : JournalPhase;
  rp_steps : list RecoveryStep }.
Inductive RecoveryRefusal :=
| AmbiguousOwner
| JournalAlreadyInConflict
| ResourceConflict (operation_ids : list Z).
Inductive RecoveryDecision :=
| LeaveActive
| Refuse (refusal : RecoveryRefusal)
| Execute (plan : RecoveryPlan).
Inductive RecoveryDecisionError :=
| InvalidJournal (error : JournalValidationError)
| DuplicateObservation (operation_id : Z)
| UnknownObservation (operation_id : Z)
| ObservationForRemovedOperation (operation_id : Z)
| MissingObservations (operation_ids : list Z).

#[export] Instance ResourceObservationKind_eq_dec : EqDecision ResourceObservationKind.
Proof. solve_decision. Defined.
#[export] Instance ResourceObservation_eq_dec : EqDecision ResourceObservation.
Proof. solve_decision. Defined.
#[export] Instance RecoveryAction_eq_dec : EqDecision RecoveryAction.
Proof. solve_decision. Defined.

(** [collect] into a map: a later record replaces an earlier one. *)
Definition by_id (operations : list OperationRecord) : gmap Z OperationRecord :=
  foldl (λ m operation, <[op_id operation := operation]> m) ∅ operations.

Definition inspect_observation (all_operations : gmap Z OperationRecord)
    (inspected : gmap Z ResourceObservationKind) (observation : ResourceObservation)
  : result RecoveryDecisionError (gmap Z ResourceObservationKind) :=
  let id := ob_operation_id observation in
  match all_operations !! id with
  | None => Err (UnknownObservation id)
  | Some operation =>
      if bool_decide (op_state operation = Removed) then Err (ObservationForRemovedOperation id)
      else match inspected !! id with
           | Some _ => Err (DuplicateObservation id)
           | None => Ok (<[id := ob_kind observation]> inspected)
           end
  end.

(** [sort_by_key] with the key [(removal_rank, operation_id)]. *)
Definition step_le (a b : RecoveryStep) : Prop :=
  removal_rank (rs_resource a) < removal_rank (rs_resource b)
  ∨ (removal_rank (rs_resource a) = removal_rank (rs_resource b)
     ∧ rs_operation_id a ≤ rs_operation_id b).
#[export] Instance step_le_dec a b : Decision (step_le a b).
Proof. unfold step_le. apply _. Defined.

Definition recovery_step (inspected : gmap Z ResourceObservationKind) (operation : OperationRecord)
  : RecoveryStep :=
  let action := match inspected !! op_id operation with
                | Some ObservedAbsent => MarkAlreadyAbsent
                | _ => RemoveExactOwned
                end in
  mkRecoveryStep (op_id operation) action (op_resource operation).

(** The keys that were not inspected, and those with a conflict, in order. *)
Definition missing_ids (pending : gmap Z OperationRecord)
    (inspected : gmap Z ResourceObservationKind) : list Z :=
  merge_sort Z.le
    (List.filter (λ id, match inspected !! id with Some _ => false | None => true end)
       (map_to_list pending).*1).
Definition conflict_ids (inspected : gmap Z ResourceObservationKind) : list Z :=
  merge_sort Z.le
    (List.filter (λ p, bool_decide (p.2 = ObservedConflict)) (map_to_list inspected)).*1.

Definition decide_recovery (j : HostStateJournalV1) (owner : OwnerDisposition)
    (observations : list ResourceObservation)
  : result RecoveryDecisionError RecoveryDecision :=
  _ ← match validate j with Ok _ => Ok () | Err e => Err (InvalidJournal e) end;
  match owner with
  | OwnerActive => Ok LeaveActive
  | OwnerAmbiguous => Ok (Refuse AmbiguousOwner)
  | OwnerStale =>
      if bool_decide (hj_phase j = Conflict) then Ok (Refuse JournalAlreadyInConflict) else
      let pending := by_id (List.filter live (hj_operations j)) in
      let all_operations := by_id (hj_operations j) in
      inspected ← fold_res (inspect_observation all_operations) ∅ observations;
      let missing := missing_ids pending inspected in
      if negb (bool_decide (missing = [])) then Err (MissingObservations missing) else
      let conflicts := conflict_ids inspected in
      if negb (bool_decide (conflicts = [])) then Ok (Refuse (ResourceConflict conflicts)) else
      Ok (Execute (mkRecoveryPlan (hj_generation j) Cleaning
            (merge_sort step_le (recovery_step inspected <$> (map_to_list pending).*2))))
  end.

(** * Well-formed journals *)

(** [R] holds of every two elements of a list, the earlier one first. *)
Definition pairs {A} (R : A → A → Prop) (l : list A) : Prop :=
  ∀ i k a b, (i < k)%nat → l !! i = Some a → l !! k = Some b → R a b.

Section Pairs.
Context {A : Type}.
Implicit Types (R : A → A → Prop) (l : list A).

Lemma pairs_nil R : pairs R [].
Proof. intros i k a b _ H. by rewrite lookup_nil in H. Qed.

Lemma pairs_snoc R l x : pairs R (l ++ [x]) ↔ pairs R l ∧ Forall (λ a, R a x) l.
Proof.
  split.
  - intros H. split.
    + intros i k a b Hik Ha Hb. eapply H; [done|by apply lookup_app_l_Some..].
    + apply Forall_lookup. intros i a Ha.
      apply (H i (length l)); [by eapply lookup_lt_Some|by apply lookup_app_l_Some|].
      by rewrite lookup_app_r, Nat.sub_diag.
  - intros [Hl Hx] i k a b Hik Ha Hb.
    apply lookup_app_Some in Hb as [Hb|[Hk Hb]].
    + apply lookup_lt_Some in Hb as Hlt. rewrite lookup_app_l in Ha by lia. exact (Hl _ _ _ _ Hik Ha Hb).
    + apply list_lookup_singleton_Some in Hb as [Hk' ->].
      rewrite lookup_app_l in Ha by lia. rewrite Forall_lookup in Hx. by eapply Hx.
Qed.

Lemma pairs_Forall2 {B} (Q : A → B → Prop) R (R' : B → B → Prop) (l : list A) (k : list B) :
  Forall2 Q l k → (∀ a b a' b', R a b → Q a a' → Q b b' → R' a' b') → pairs R l → pairs R' k.
Proof.
  intros HQ HR H i i' a' b' Hi Ha Hb.
  eapply Forall2_lookup_r in Ha as (a & Ha & ?); [|done].
  eapply Forall2_lookup_r in Hb as (b & Hb & ?); [|done]. eauto.
Qed.

Lemma pairs_mono R R' l : (∀ a b, R a b → R' a b) → pairs R l → pairs R' l.
Proof. intros H Hl i k a b ???. apply H. eauto. Qed.

Lemma pairs_and R R' l : pairs R l → pairs R' l → pairs (λ a b, R a b ∧ R' a b) l.
Proof. intros H H' i k a b ???. eauto. Qed.

Lemma pairs_filter (P : A → bool) R l : pairs R l → pairs R (List.filter P l).
Proof.
  induction l as [|x l IH] using rev_ind; [done|].
  rewrite List.filter_app, pairs_snoc. intros [Hl Hx]. simpl.
  destruct (P x); [|rewrite app_nil_r; auto].
  rewrite pairs_snoc. split; [auto|]. rewrite Forall_forall in *. intros a Ha. apply Hx.
  apply list_elem_of_In, filter_In in Ha as [Ha _]. by apply list_elem_of_In.
Qed.

Lemma pairs_in R l a b :
  pairs R l → a ∈ l → b ∈ l → a = b ∨ R a b ∨ R b a.
Proof.
  intros H (i & Hi)%list_elem_of_lookup (k & Hk)%list_elem_of_lookup.
  destruct (lt_eq_lt_dec i k) as [[?| ->]|?]; [eauto|left; congruence|eauto].
Qed.

(** At most one element with [P], counted and by pairs. *)
Lemma len_filter_le_1 (P : A → bool) l :
  len (List.filter P l) ≤ 1 ↔ pairs (λ a b, P a = true → P b = true → False) l.
Proof.
  induction l as [|x l IH] using rev_ind; [split; [intros _; apply pairs_nil|done]|].
  rewrite List.filter_app, len_app, pairs_snoc. simpl.
  assert (Forall (λ a, P a = true → False) l ↔ List.filter P l = []) as He.
  { clear. rewrite Forall_forall. split.
    - intros H. destruct (List.filter P l) as [|a l'] eqn:E; [done|].
      assert (In a (List.filter P l)) as [? ?]%filter_In by (rewrite E; by left).
      exfalso. apply (H a); [by apply list_elem_of_In|done].
    - intros E a Ha Hp. assert (In a []) as []; rewrite <- E. apply filter_In.
      by rewrite <- list_elem_of_In. }
  destruct (P x) eqn:Hx.
  - change (len [x]) with 1. split.
    + intros H. assert (List.filter P l = []) as E.
      { apply len_zero. pose proof (len_nonneg (List.filter P l)). lia. }
      split; [apply IH; rewrite E; unfold len; simpl; lia|]. apply He in E.
      eapply Forall_impl; [done|]. naive_solver.
    + intros [_ Hf]. assert (List.filter P l = []) as ->; [|done]. apply He.
      eapply Forall_impl; [done|]. naive_solver.
  - change (len (@nil A)) with 0. rewrite Z.add_0_r, IH. split; [|tauto].
    intros H. split; [done|]. apply Forall_forall. congruence.
Qed.
End Pairs.

(** What at most one live record may hold. *)
Inductive Slot :=
| SlotDns
| SlotTun
| SlotFirewall (family : AddressFamily)
| SlotRoute (key : KernelKey).

Definition slot (r : OwnedResource) : option Slot :=
  match r with
  | Dns _ => Some SlotDns
  | Tun _ => Some SlotTun
  | Firewall f => Some (SlotFirewall (fw_family f))
  | Route route => Some (SlotRoute (kernel_key route))
  | FirewallEndpoint _ => None
  end.

Definition exclusive (a b : OperationRecord) : Prop :=
  live a = true → live b = true →
  slot (op_resource a) = slot (op_resource b) → slot (op_resource a) = None.

(** The records of a journal: numbered from one, every resource valid and live at most
    once, the live resources of a kind exclusive where the kernel has room for one, and every
    live endpoint rule after the live chain it belongs to. *)
Record operations_wf (uid : Z) (l : list OperationRecord) : Prop := {
  ops_ids : ∀ i op, l !! i = Some op → op_id op = Z.of_nat i + 1;
  ops_valid : Forall (λ op, OwnedResource_validate (op_resource op) = Ok ()) l;
  ops_history : pairs (λ a b, op_resource a = op_resource b → op_state a = Removed) l;
  ops_exclusive : pairs exclusive l;
  ops_dns : Forall (λ op, ∀ d, op_resource op = Dns d → fi_uid (dn_pinned d) = uid) l;
  ops_chains : ∀ k b e, l !! k = Some b → live b = true → op_resource b = FirewallEndpoint e →
    ∃ i a f, (i < k)%nat ∧ l !! i = Some a ∧ live a = true ∧ op_resource a = Firewall f
             ∧ firewall_chain_key f = endpoint_chain_key e }.

Record journal_wf (j : HostStateJournalV1) : Prop := {
  wf_schema : hj_schema_version j = JOURNAL_SCHEMA_VERSION;
  wf_generation : hj_generation j ≠ 0;
  wf_pid : ow_pid (hj_owner j) ≠ 0;
  wf_session : ow_session_id (hj_owner j) ≠ replicate 16 Byte.x00;
  wf_count : len (hj_operations j) ≤ MAX_OPERATIONS;
  wf_operations : operations_wf (ow_uid (hj_owner j)) (hj_operations j);
  wf_active : hj_phase j = Active → Forall (λ op, op_state op ≠ Planned) (hj_operations j) }.

#[global] Arguments scan_resource : simpl never.
#[global] Arguments scan_record : simpl never.
#[global] Arguments OwnedResource_validate : simpl never.
#[global] Arguments live : simpl never.

Lemma live_true op : live op = true ↔ op_state op ≠ Removed.
Proof. unfold live. case_bool_decide; naive_solver. Qed.
Lemma live_false op : live op = false ↔ op_state op = Removed.
Proof. unfold live. case_bool_decide; naive_solver. Qed.

(** ** The scan decides the conditions on the records *)

Definition is_dns_live (op : OperationRecord) : bool :=
  live op && match op_resource op with Dns _ => true | _ => false end.
Definition is_tun_live (op : OperationRecord) : bool :=
  live op && match op_resource op with Tun _ => true | _ => false end.

(** What the scan knows after the records [l]. *)
Record scanned (l : list OperationRecord) (s : Scan) : Prop := {
  sn_index : sc_index s = len l;
  sn_latest : ∀ r, (∃ st, sc_latest s !! r = Some st ∧ st ≠ Removed)
                   ↔ ∃ a, a ∈ l ∧ op_resource a = r ∧ live a = true;
  sn_dns : sc_dns_count s = len (List.filter is_dns_live l);
  sn_tun : sc_tun_count s = len (List.filter is_tun_live l);
  sn_families : ∀ x, x ∈ sc_families s
                     ↔ ∃ a f, a ∈ l ∧ live a = true ∧ op_resource a = Firewall f ∧ fw_family f = x;
  sn_chains : ∀ k id, sc_chains s !! k = Some id
                      ↔ ∃ a f, a ∈ l ∧ live a = true ∧ op_resource a = Firewall f
                               ∧ firewall_chain_key f = k ∧ op_id a = id;
  sn_endpoints : ∀ id k, (id, k) ∈ sc_endpoints s
                         ↔ ∃ a e, a ∈ l ∧ live a = true ∧ op_resource a = FirewallEndpoint e
                                  ∧ endpoint_chain_key e = k ∧ op_id a = id;
  sn_routes : ∀ k, k ∈ sc_route_keys s
                   ↔ ∃ a r, a ∈ l ∧ live a = true ∧ op_resource a = Route r ∧ kernel_key r = k }.

(** The exclusions the scan checks on the way; DNS and TUN are counted to the end. *)
Definition exclusive_early (a b : OperationRecord) : Prop :=
  live a = true → live b = true →
  match op_resource a, op_resource b with
  | Firewall f, Firewall g => fw_family f ≠ fw_family g
  | Route r, Route q => kernel_key r ≠ kernel_key q
  | _, _ => True
  end.

Record new_ok (uid : Z) (l : list OperationRecord) (x : OperationRecord) : Prop := {
  nw_id : op_id x = len l + 1;
  nw_valid : OwnedResource_validate (op_resource x) = Ok ();
  nw_history : Forall (λ a, op_resource a = op_resource x → op_state a = Removed) l;
  nw_exclusive : Forall (λ a, exclusive_early a x) l;
  nw_dns : ∀ d, op_resource x = Dns d → fi_uid (dn_pinned d) = uid }.

Lemma scanned_start : scanned [] scan_init.
Proof. split; intros; simpl; try done; try rewrite lookup_empty; set_solver. Qed.

Lemma scan_resource_ok uid s x l :
  (∀ y, y ∈ sc_families s
        ↔ ∃ a f, a ∈ l ∧ live a = true ∧ op_resource a = Firewall f ∧ fw_family f = y) →
  (∀ k, k ∈ sc_route_keys s
        ↔ ∃ a r, a ∈ l ∧ live a = true ∧ op_resource a = Route r ∧ kernel_key r = k) →
  (∃ s', scan_resource uid s x = Ok s')
  ↔ Forall (λ a, exclusive_early a x) l
    ∧ ∀ d, op_resource x = Dns d → fi_uid (dn_pinned d) = uid.
Proof.
  intros Hf Hr. rewrite Forall_forall.
  destruct s as [index latest dns tun families chains endpoints routes]. simpl in *.
  unfold scan_resource, exclusive_early.
  destruct (op_resource x) as [r|d|t|f|e] eqn:Ex.
  - destruct (live x) eqn:Hx; [|naive_solver].
    case_bool_decide as Hin.
    + split; [intros [? [=]]|]. apply Hr in Hin as (a & q & Ha & Hl & Eq & Hk).
      intros [Hno _]. specialize (Hno a Ha Hl eq_refl). rewrite Eq in Hno. done.
    + split; [intros _|by eauto]. split; [|naive_solver].
      intros a Ha Hl _. destruct (op_resource a) as [q| | | |] eqn:Eq; try done.
      intros Hk. apply Hin, Hr. eauto 10.
  - destruct (Z.eqb_spec (fi_uid (dn_pinned d)) uid) as [Hu|Hu]; simpl.
    + split; [intros _|eauto]. split; [|naive_solver].
      intros a Ha _ _. by destruct (op_resource a).
    + split; [intros [? [=]]|]. intros [_ H]. by specialize (H d eq_refl).
  - split; [intros _|eauto]. split; [|naive_solver]. intros a Ha _ _. by destruct (op_resource a).
  - destruct (live x) eqn:Hx; [|naive_solver].
    case_bool_decide as Hin.
    + split; [intros [? [=]]|]. apply Hf in Hin as (a & g & Ha & Hl & Eg & Hk).
      intros [Hno _]. specialize (Hno a Ha Hl eq_refl). rewrite Eg in Hno. done.
    + split; [intros _|by eauto]. split; [|naive_solver].
      intros a Ha Hl _. destruct (op_resource a) as [| | |g|] eqn:Eg; try done.
      intros Hk. apply Hin, Hf. eauto 10.
  - destruct (live x); (split; [intros _|eauto]); (split; [|naive_solver]);
      intros a Ha _ _; by destruct (op_resource a).
Qed.

Lemma ex2_snoc {A B} (P : A → B → Prop) l x :
  (∃ a b, a ∈ l ++ [x] ∧ P a b) ↔ (∃ a b, a ∈ l ∧ P a b) ∨ ∃ b, P x b.
Proof. setoid_rewrite elem_of_app. setoid_rewrite list_elem_of_singleton. naive_solver. Qed.

(** The guard on the previous record of the same resource. *)
Lemma scan_latest_ok l s x :
  scanned l s →
  (match sc_latest s !! op_resource x with
   | Some p => negb (bool_decide (p = Removed)) | None => false end) = false
  ↔ Forall (λ a, op_resource a = op_resource x → op_state a = Removed) l.
Proof.
  intros Hs. pose proof (sn_latest _ _ Hs (op_resource x)) as Hl. rewrite Forall_forall. split.
  - intros H a Ha Hax. apply live_false, not_true_iff_false. intros Hla.
    destruct (proj2 Hl) as (st & Hst & Hne); [eauto|]. rewrite Hst in H.
    case_bool_decide; done.
  - intros H. destruct (sc_latest s !! op_resource x) as [st|] eqn:E; [|done].
    case_bool_decide; [done|]. destruct (proj1 Hl) as (a & Ha & Hax & Hla); [eauto|].
    apply live_true in Hla. by apply H in Hax.
Qed.

Lemma scan_operation_ok uid l s x :
  scanned l s → (∃ s', scan_record uid s x = Ok s') ↔ new_ok uid l x.
Proof.
  intros Hs. pose proof (scan_latest_ok l s x Hs) as Hh.
  destruct s as [index latest dns tun families chains endpoints routes] eqn:Es.
  unfold scan_record. simpl in Hh.
  pose proof (sn_index _ _ Hs) as Hi. simpl in Hi. subst index.
  match goal with |- context [scan_resource uid ?t x] => set (t0 := t) end.
  assert ((∃ s', scan_resource uid t0 x = Ok s') ↔ _) as Hr
    by (apply scan_resource_ok; [apply (sn_families _ _ Hs)|apply (sn_routes _ _ Hs)]).
  destruct (Z.eqb_spec (op_id x) (len l + 1)) as [Hid|Hid]; simpl;
    [|split; [intros [? [=]]|by intros []]].
  destruct (OwnedResource_validate (op_resource x)) as [[]|e] eqn:Ev; simpl;
    [|split; [intros [? [=]]|intros []; congruence]].
  destruct (match latest !! op_resource x with
            | Some p => negb (bool_decide (p = Removed)) | None => false end).
  - split; [intros [? [=]]|]. intros [_ _ H _ _]. by apply Hh in H.
  - rewrite Hr. split; [intros [? ?]; split; tauto|]. by intros [_ _ _ ? ?].
Qed.

Lemma scan_resource_frame uid s x s' :
  scan_resource uid s x = Ok s' → sc_index s' = sc_index s ∧ sc_latest s' = sc_latest s.
Proof.
  destruct s as [index latest dns tun families chains endpoints routes]. unfold scan_resource.
  destruct (op_resource x), (live x); intros H; simplify_ok; done.
Qed.

(** The remaining fields after one more record. *)
Lemma scan_resource_fields uid s x s' :
  scan_resource uid s x = Ok s' →
  sc_dns_count s' = sc_dns_count s + (if is_dns_live x then 1 else 0)
  ∧ sc_tun_count s' = sc_tun_count s + (if is_tun_live x then 1 else 0)
  ∧ (∀ y, y ∈ sc_families s'
          ↔ y ∈ sc_families s ∨ ∃ f, live x = true ∧ op_resource x = Firewall f ∧ fw_family f = y)
  ∧ (∀ k, k ∈ sc_route_keys s'
          ↔ k ∈ sc_route_keys s ∨ ∃ r, live x = true ∧ op_resource x = Route r ∧ kernel_key r = k)
  ∧ (∀ id k, (id, k) ∈ sc_endpoints s'
       ↔ (id, k) ∈ sc_endpoints s
         ∨ ∃ e, live x = true ∧ op_resource x = FirewallEndpoint e ∧ endpoint_chain_key e = k
                ∧ op_id x = id)
  ∧ (∀ k, sc_chains s' !! k = match op_resource x with
       | Firewall f => if live x && bool_decide (firewall_chain_key f = k) then Some (op_id x)
                       else sc_chains s !! k
       | _ => sc_chains s !! k end)
  ∧ (∀ f, live x = true → op_resource x = Firewall f → fw_family f ∉ sc_families s).
Proof.
  destruct s as [index latest dns tun families chains endpoints routes]. unfold scan_resource.
  unfold is_dns_live, is_tun_live.
  destruct (op_resource x) as [r|d|t|f|e] eqn:Ex, (live x) eqn:Hx; intros H; simplify_ok; simpl;
    (split_and!; [lia|lia|set_solver|set_solver|..]).
  all: try naive_solver.
  all: try (intros; rewrite ?elem_of_app, ?list_elem_of_singleton; naive_solver).
  - clear H0. intros k. case_bool_decide as Hk; [|by rewrite lookup_insert_ne].
    subst k. by rewrite lookup_insert_eq.
  - intros g _ [= <-]. by apply bool_decide_eq_false in H0.
Qed.

Lemma scan_operation_scanned uid l s x s' :
  scanned l s → scan_record uid s x = Ok s' → scanned (l ++ [x]) s'.
Proof.
  intros Hs H. pose proof (proj1 (scan_operation_ok uid l s x Hs) (ex_intro _ s' H)) as Hnew.
  destruct Hs as [Hi Hl Hd Ht Hf Hc He Hr].
  destruct s as [index latest dns tun families chains endpoints routes]. simpl in *. subst.
  unfold scan_record in H. simplify_ok.
  apply scan_resource_frame in H as Hfr. simpl in Hfr. destruct Hfr as [Hi' Hl'].
  apply scan_resource_fields in H as (Hd' & Ht' & Hf' & Hr' & He' & Hc' & Hfresh). simpl in *.
  split.
  - rewrite Hi', len_app. done.
  - intros r. rewrite ex_snoc, <- Hl, Hl'. destruct (decide (r = op_resource x)) as [->|Hne].
    + rewrite lookup_insert_eq, live_true.
      assert (¬ ∃ st, latest !! op_resource x = Some st ∧ st ≠ Removed) as Hno.
      { rewrite Hl. intros (a & Ha & Hax & Hla). apply live_true in Hla. apply Hla.
        pose proof (nw_history _ _ _ Hnew) as Hh. rewrite Forall_forall in Hh. eauto. }
      naive_solver.
    + rewrite lookup_insert_ne by done. naive_solver.
  - rewrite Hd', List.filter_app, len_app. simpl. destruct (is_dns_live x); done.
  - rewrite Ht', List.filter_app, len_app. simpl. destruct (is_tun_live x); done.
  - intros y. by rewrite ex2_snoc, Hf', Hf.
  - intros k id. rewrite ex2_snoc, Hc', <- Hc.
    destruct (op_resource x) as [| | |f|] eqn:Ex;
      try (split; [by left|by intros [?|(? & ? & ? & ?)]]).
    destruct (live x) eqn:Hx; simpl; [|split; [by left|by intros [?|(? & ? & ?)]]].
    case_bool_decide as Hk;
      [|split; [by left|intros [?|(? & ? & [= <-] & ? & ?)]; done]]. subst k.
    split; [intros [= <-]; right; by exists f|]. intros [H'|(g & _ & [= <-] & _ & ->)]; [|done].
    exfalso. apply (Hfresh f eq_refl eq_refl), Hf. apply Hc in H' as (a & g & Ha & Hla & Hg & Hk & _).
    exists a, g. split_and!; [done..|]. unfold firewall_chain_key in Hk. congruence.
  - intros id k. by rewrite ex2_snoc, He', He.
  - intros k. by rewrite ex2_snoc, Hr', Hr.
Qed.

(** The conditions that the loop decides. *)
Record early_wf (uid : Z) (l : list OperationRecord) : Prop := {
  ew_ids : ∀ i op, l !! i = Some op → op_id op = Z.of_nat i + 1;
  ew_valid : Forall (λ op, OwnedResource_validate (op_resource op) = Ok ()) l;
  ew_history : pairs (λ a b, op_resource a = op_resource b → op_state a = Removed) l;
  ew_exclusive : pairs exclusive_early l;
  ew_dns : Forall (λ op, ∀ d, op_resource op = Dns d → fi_uid (dn_pinned d) = uid) l }.

Lemma early_wf_snoc uid l x : early_wf uid (l ++ [x]) ↔ early_wf uid l ∧ new_ok uid l x.
Proof.
  split.
  - intros [Hi Hv Hh He Hd]. rewrite pairs_snoc in Hh, He. rewrite Forall_app, Forall_singleton in Hv, Hd.
    destruct Hh, He, Hv, Hd. split; split; try done.
    + intros i op Hop. by apply Hi, lookup_app_l_Some.
    + rewrite (Hi (length l) x); [done|]. by rewrite lookup_app_r, Nat.sub_diag.
  - intros [[Hi Hv Hh He Hd] [Hi' Hv' Hh' He' Hd']].
    split; rewrite ?pairs_snoc, ?Forall_app, ?Forall_singleton; try done.
    intros i op [Hop|[Hk Hop]]%lookup_app_Some; [by apply Hi|].
    apply list_lookup_singleton_Some in Hop as [Hk' <-]. rewrite Hi'. unfold len. lia.
Qed.

Lemma scan_scanned uid l s :
  fold_res (scan_record uid) scan_init l = Ok s → scanned l s.
Proof.
  revert s. induction l as [|x l IH] using rev_ind; intros s.
  - intros [= <-]. apply scanned_start.
  - rewrite fold_res_app. simpl. intros H. simplify_ok. eapply scan_operation_scanned; eauto.
Qed.

Lemma scan_wf uid l :
  (∃ s, fold_res (scan_record uid) scan_init l = Ok s) ↔ early_wf uid l.
Proof.
  induction l as [|x l IH] using rev_ind.
  - simpl. split; [intros _|by eauto]. split; try done; apply pairs_nil.
  - rewrite fold_res_app, early_wf_snoc, <- IH. simpl. split.
    + intros [s H]. simplify_ok. split; [by eauto|].
      eapply scan_operation_ok; [by eapply scan_scanned|by eauto].
    + intros [[s Hs] Hx]. rewrite Hs. simpl.
      destruct (proj2 (scan_operation_ok uid l s x (scan_scanned _ _ _ Hs)) Hx) as [s' Hs'].
      rewrite Hs'. simpl. by eauto.
Qed.

Lemma check_endpoints_ok chains l :
  fold_res (check_endpoint chains) () l = Ok ()
  ↔ ∀ id k, (id, k) ∈ l → ∃ c, chains !! k = Some c ∧ c < id.
Proof.
  induction l as [|[id k] l IH]; simpl; [set_solver|].
  transitivity ((∃ c, chains !! k = Some c ∧ c < id)
                ∧ ∀ id k, (id, k) ∈ l → ∃ c, chains !! k = Some c ∧ c < id).
  - rewrite bind_Ok, <- IH. unfold check_endpoint. simpl.
    destruct (chains !! k) as [c|]; [|naive_solver].
    destruct (Z.leb_spec id c); [|naive_solver].
    split; [intros (? & [=] & _)|]. intros ((? & [= ->] & ?) & _). lia.
  - setoid_rewrite elem_of_cons. naive_solver.
Qed.

Lemma any_planned_false l : any_planned l = false ↔ Forall (λ op, op_state op ≠ Planned) l.
Proof.
  unfold any_planned. induction l as [|x l IH]; simpl; [split; [constructor|done]|].
  rewrite Forall_cons, orb_false_iff, IH, bool_decide_eq_false. done.
Qed.

Lemma exclusive_split l :
  pairs exclusive l
  ↔ pairs exclusive_early l
    ∧ pairs (λ a b, is_dns_live a = true → is_dns_live b = true → False) l
    ∧ pairs (λ a b, is_tun_live a = true → is_tun_live b = true → False) l.
Proof.
  assert (∀ a b, exclusive a b
    ↔ exclusive_early a b ∧ (is_dns_live a = true → is_dns_live b = true → False)
      ∧ (is_tun_live a = true → is_tun_live b = true → False)) as H.
  { intros a b. unfold exclusive, exclusive_early, is_dns_live, is_tun_live.
    destruct (live a), (live b); simpl; [|naive_solver..].
    destruct (op_resource a) as [r| | |f|], (op_resource b) as [q| | |g|]; simpl;
      try (generalize (kernel_key r) (kernel_key q); intros kr kq);
      try (generalize (fw_family f) (fw_family g); intros kf kg);
      (split; [intros Hx; specialize (Hx eq_refl eq_refl)|intros (Hx & Hy & Hz) _ _]); naive_solver. }
  split.
  - intros Hl. split_and!; (eapply pairs_mono; [|exact Hl]); intros a b; rewrite H; tauto.
  - intros (He & Hd & Ht) i k a b Hik Ha Hb. apply H. eauto 10.
Qed.

Lemma live_endpoints_ok uid l s :
  early_wf uid l → scanned l s →
  (∀ id k, (id, k) ∈ sc_endpoints s → ∃ c, sc_chains s !! k = Some c ∧ c < id)
  ↔ ∀ k b e, l !! k = Some b → live b = true → op_resource b = FirewallEndpoint e →
    ∃ i a f, (i < k)%nat ∧ l !! i = Some a ∧ live a = true ∧ op_resource a = Firewall f
             ∧ firewall_chain_key f = endpoint_chain_key e.
Proof.
  intros [Hi _ _ _ _] [_ _ _ _ _ Hc He _]. split.
  - intros H k b e Hb Hlive Hres.
    destruct (H (op_id b) (endpoint_chain_key e)) as (c & Hch & Hlt).
    { apply He. exists b, e. split_and!; try done. by eapply list_elem_of_lookup_2. }
    apply Hc in Hch as (a & f & Ha & Hla & Hf & Hkey & Hid).
    apply list_elem_of_lookup in Ha as [i Ha]. exists i, a, f. split_and!; try done.
    apply Hi in Ha, Hb. lia.
  - intros H id k Hin. apply He in Hin as (b & e & Hb & Hlive & Hres & Hkey & Hid).
    apply list_elem_of_lookup in Hb as [n Hb].
    destruct (H n b e Hb Hlive Hres) as (i & a & f & Hlt & Ha & Hla & Hf & Hk').
    exists (op_id a). split.
    + apply Hc. exists a, f. split_and!; try done; [by eapply list_elem_of_lookup_2|congruence].
    + apply Hi in Ha, Hb. lia.
Qed.

Lemma operations_scan uid l :
  operations_wf uid l
  ↔ ∃ s, fold_res (scan_record uid) scan_init l = Ok s
         ∧ fold_res (check_endpoint (sc_chains s)) () (sc_endpoints s) = Ok ()
         ∧ sc_dns_count s ≤ 1 ∧ sc_tun_count s ≤ 1.
Proof.
  split.
  - intros [Hi Hv Hh He Hd Hc]. apply exclusive_split in He as (He & Hdns & Htun).
    assert (early_wf uid l) as Hw by done.
    apply scan_wf in Hw as [s Hs]. exists s. pose proof (scan_scanned _ _ _ Hs) as Hsc.
    rewrite check_endpoints_ok, (sn_dns _ _ Hsc), (sn_tun _ _ Hsc), !len_filter_le_1.
    split_and!; try done. by eapply live_endpoints_ok; [by apply scan_wf; eauto|..].
  - intros (s & Hs & Hc & Hd & Ht). pose proof (scan_scanned _ _ _ Hs) as Hsc.
    assert (early_wf uid l) as Hw by (apply scan_wf; eauto).
    rewrite check_endpoints_ok in Hc. pose proof (proj1 (live_endpoints_ok _ _ _ Hw Hsc) Hc) as Hc'.
    rewrite (sn_dns _ _ Hsc), len_filter_le_1 in Hd. rewrite (sn_tun _ _ Hsc), len_filter_le_1 in Ht.
    destruct Hw. split; try done. by apply exclusive_split.
Qed.

Lemma validate_wf j : validate j = Ok () ↔ journal_wf j.
Proof.
  unfold validate. split.
  - intros H. simplify_ok.
    repeat match goal with
    | H : _ || _ = false |- _ => apply orb_false_iff in H as [? ?]
    | H : negb _ = false |- _ => apply negb_false_iff in H
    | H : (_ =? _) = true |- _ => apply Z.eqb_eq in H
    | H : (_ =? _) = false |- _ => apply Z.eqb_neq in H
    | H : (_ <? _) = false |- _ => apply Z.ltb_ge in H
    | H : bool_decide _ = false |- _ => apply bool_decide_eq_false in H
    end.
    destruct x0. split; try done; [apply operations_scan; eauto 10|].
    intros Hph. match goal with H : _ && _ = false |- _ => rewrite bool_decide_true in H by done end.
    by apply any_planned_false.
  - intros [-> Hg Hp Hs Hc (s & Hscan & Hends & Hd & Ht)%operations_scan Ha].
    rewrite Z.eqb_refl. simpl.
    rewrite (proj2 (Z.eqb_neq _ _) Hg), (proj2 (Z.eqb_neq _ _) Hp), bool_decide_false by done.
    rewrite (proj2 (Z.ltb_ge _ _) Hc), Hscan. simpl. rewrite Hends. simpl.
    rewrite (proj2 (Z.ltb_ge _ _) Hd), (proj2 (Z.ltb_ge _ _) Ht). simpl.
    case_bool_decide; simpl; [|done]. by rewrite (proj2 (any_planned_false _) (Ha ltac:(done))).
Qed.

(** * Successors *)

(** How one record may continue in the next generation. *)
Definition may_become (from to : JournalPhase) (previous candidate : OperationRecord) : Prop :=
  op_id candidate = op_id previous
  ∧ op_resource candidate = op_resource previous
  ∧ (op_state candidate = op_state previous
     ∨ (from = Preparing ∧ to = Preparing
        ∧ state_can_transition_to (op_state previous) (op_state candidate) = true)
     ∨ (from = Cleaning ∧ to = Cleaning ∧ op_state candidate = Removed)).

(** The records of the next generation: the compaction of an active journal, or the same
    records with allowed changes of state and, while preparing, new planned ones. *)
Inductive continues (from to : JournalPhase) (ops : list OperationRecord)
  : list OperationRecord → Prop :=
| continues_compacted :
    from = Active → to = Active → (length (compacted ops) < length ops)%nat →
    continues from to ops (compacted ops)
| continues_extended kept added :
    Forall2 (may_become from to) ops kept →
    Forall (λ op, op_state op = Planned) added →
    (added ≠ [] → from = Preparing ∧ to = Preparing) →
    continues from to ops (kept ++ added).

Record successor (self next : HostStateJournalV1) : Prop := {
  su_self : journal_wf self;
  su_next : journal_wf next;
  su_generation : hj_generation next = hj_generation self + 1;
  su_overflow : hj_generation self + 1 < 2 ^ 64;
  su_owner : hj_owner next = hj_owner self;
  su_phase : phase_can_transition_to (hj_phase self) (hj_phase next) = true;
  su_continues : continues (hj_phase self) (hj_phase next) (hj_operations self) (hj_operations next) }.

Lemma check_pair_ok from to p c :
  check_pair from to () (p, c) = Ok () ↔ may_become from to p c.
Proof.
  destruct p as [i s r], c as [i' s' r']. unfold check_pair, may_become. simpl.
  destruct (Z.eqb_spec i' i); simpl; [|naive_solver].
  case_bool_decide; simpl; [|naive_solver].
  destruct s, s', from, to; vm_compute; naive_solver.
Qed.

Lemma check_pairs_ok from to l1 l2 :
  (length l1 ≤ length l2)%nat →
  fold_res (check_pair from to) () (zip l1 l2) = Ok ()
  ↔ Forall2 (may_become from to) l1 (take (length l1) l2).
Proof.
  revert l2; induction l1 as [|p l1 IH]; intros [|c l2] Hl; simpl in *; try lia.
  - split; constructor.
  - split; constructor.
  - rewrite bind_Ok, Forall2_cons, <- IH by lia. rewrite <- check_pair_ok. split.
    + by intros ([] & ? & ?).
    + intros [? ?]. by exists ().
Qed.

Lemma existsb_planned l :
  existsb (λ operation, negb (bool_decide (op_state operation = Planned))) l = false
  ↔ Forall (λ op, op_state op = Planned) l.
Proof.
  induction l as [|x l IH]; simpl; [split; [constructor|done]|].
  rewrite Forall_cons, orb_false_iff, IH, negb_false_iff, bool_decide_eq_true. done.
Qed.

Lemma Forall2_length_take {A B} (P : A → B → Prop) l k1 k2 :
  Forall2 P l k1 → take (length l) (k1 ++ k2) = k1 ∧ drop (length l) (k1 ++ k2) = k2.
Proof.
  intros H. rewrite (Forall2_length _ _ _ H). by rewrite take_app_length, drop_app_length.
Qed.

Lemma validate_successor_iff self next :
  validate_successor self next = Ok () ↔ successor self next.
Proof.
  unfold validate_successor. split.
  - intros H.
    apply bind_Ok in H as ([] & Hs%validate_wf & H). apply bind_Ok in H as ([] & Hn%validate_wf & H).
    apply bind_Ok in H as (g & Hg%ok_or_Ok%u64_checked_add_Some & H). destruct Hg as [-> Hg].
    apply if_err_Ok in H as [Hgen%negb_false_iff%Z.eqb_eq H].
    apply if_err_Ok in H as [Ho%negb_false_iff%bool_decide_eq_true H].
    apply if_err_Ok in H as [Hp%negb_false_iff H].
    split; try done.
    destruct (Nat.ltb_spec (length (hj_operations next)) (length (hj_operations self))) as [Hl|Hl].
    + repeat case_bool_decide; simpl in H; try done.
      match goal with E : hj_operations next = _ |- _ => rewrite E in Hl |- * end.
      by constructor.
    + apply bind_Ok in H as ([] & Hk & H). rewrite check_pairs_ok in Hk by done.
      apply if_err_Ok in H as [Ha H]. apply if_err_Ok in H as [Hpl%existsb_planned _].
      rewrite <- (take_drop (length (hj_operations self)) (hj_operations next)) at 1.
      constructor; [done..|]. intros Hne. apply andb_false_iff in Ha as [Ha|Ha].
      * by apply negb_false_iff, bool_decide_eq_true in Ha.
      * apply negb_false_iff, andb_true_iff in Ha as [?%bool_decide_eq_true ?%bool_decide_eq_true]. done.
  - intros [Hs%validate_wf Hn%validate_wf Hg Ho Hown Hp Hc]. rewrite Hs. simpl. rewrite Hn. simpl.
    rewrite (proj2 (u64_checked_add_Some _ 1 _) (conj eq_refl Ho)). simpl.
    rewrite Hg, Z.eqb_refl, bool_decide_true by done. simpl. rewrite Hp. simpl.
    inversion Hc as [Hf Ht Hl E|kept added Hk Hpl Had E].
    + rewrite (proj2 (Nat.ltb_lt _ _) Hl), !bool_decide_true by done. done.
    + apply Forall2_length in Hk as Hlen.
      rewrite (proj2 (Nat.ltb_ge _ _)) by (rewrite length_app; lia).
      destruct (Forall2_length_take _ _ _ added Hk) as [Et Ed].
      assert (fold_res (check_pair (hj_phase self) (hj_phase next)) ()
                (zip (hj_operations self) (kept ++ added)) = Ok ()) as ->.
      { apply check_pairs_ok; [rewrite length_app; lia|]. by rewrite Et. }
      simpl. rewrite Ed, (proj2 (existsb_planned _) Hpl).
      case_bool_decide as Hnil; simpl; [done|].
      destruct (Had Hnil) as [-> ->]. done.
Qed.

(** ** The ledger of resources

    A journal read as a partial map from resources to [Planned] or [Applied]. *)
Definition status (j : HostStateJournalV1) (r : OwnedResource) : option OperationState :=
  op_state <$> List.find (λ op, bool_decide (op_resource op = r) && live op) (hj_operations j).

Lemma status_Some_in j r s :
  status j r = Some s → ∃ op, op ∈ hj_operations j ∧ op_resource op = r ∧ op_state op = s ∧ s ≠ Removed.
Proof.
  unfold status. intros (op & H & ->)%fmap_Some. apply find_some in H as [Hin H].
  apply andb_true_iff in H as [?%bool_decide_eq_true ?%live_true]. exists op.
  split_and!; try done. by apply list_elem_of_In.
Qed.

Lemma status_None j r :
  status j r = None ↔ ∀ op, op ∈ hj_operations j → op_resource op = r → op_state op = Removed.
Proof.
  unfold status. split.
  - intros H%fmap_None op Hin Hr. apply list_elem_of_In in Hin.
    pose proof (find_none _ _ H op Hin) as Hf. simpl in Hf.
    rewrite bool_decide_true in Hf by done. by apply live_false.
  - intros H. apply fmap_None.
    match goal with |- ?o = None => destruct o as [op|] eqn:E end; [|done]. exfalso.
    apply find_some in E as [Hin E]. apply andb_true_iff in E as [?%bool_decide_eq_true Hl%live_true].
    apply Hl, H; [by apply list_elem_of_In|done].
Qed.

Lemma live_unique uid l a b :
  operations_wf uid l → a ∈ l → b ∈ l → op_resource a = op_resource b →
  op_state a ≠ Removed → op_state b ≠ Removed → a = b.
Proof.
  intros Hwf Ha Hb Hr Hsa Hsb.
  destruct (pairs_in _ _ a b (ops_history _ _ Hwf) Ha Hb) as [?|[H|H]]; naive_solver.
Qed.

Lemma status_Some j r s :
  journal_wf j →
  status j r = Some s ↔ ∃ op, op ∈ hj_operations j ∧ op_resource op = r ∧ op_state op = s ∧ s ≠ Removed.
Proof.
  intros Hwf. split; [apply status_Some_in|]. intros (op & Hin & Hr & Hs & Hne).
  destruct (status j r) as [s'|] eqn:E.
  - apply status_Some_in in E as (op' & Hin' & Hr' & Hs' & Hne').
    assert (op = op') as ->; [|congruence].
    eapply live_unique; [by apply wf_operations|..]; congruence.
  - rewrite status_None in E. exfalso. apply Hne. rewrite <- Hs. eauto.
Qed.

Lemma elem_of_renumber l op :
  op ∈ renumber l → ∃ op', op' ∈ l ∧ op_resource op' = op_resource op ∧ op_state op' = op_state op.
Proof.
  unfold renumber. intros (i & op' & -> & Hi)%elem_of_lookup_imap_1.
  exists op'. split; [by eapply list_elem_of_lookup_2|done].
Qed.

Lemma renumber_elem_of l op :
  op ∈ l → ∃ op', op' ∈ renumber l ∧ op_resource op' = op_resource op ∧ op_state op' = op_state op.
Proof.
  intros (i & Hi)%list_elem_of_lookup.
  exists (mkOperationRecord (Z.of_nat i + 1) (op_state op) (op_resource op)). split; [|done].
  apply elem_of_lookup_imap. eauto.
Qed.

Lemma elem_of_live l op : op ∈ List.filter live l ↔ op ∈ l ∧ op_state op ≠ Removed.
Proof. rewrite !list_elem_of_In, filter_In, live_true. done. Qed.

(** What one generation may do to the entry of a resource. *)
Inductive lifecycle (from to : JournalPhase) : option OperationState → option OperationState → Prop :=
| life_same s : lifecycle from to s s
| life_plan s : from = Preparing → to = Preparing → lifecycle from to s (Some Planned)
| life_apply : from = Preparing → to = Preparing → lifecycle from to (Some Planned) (Some Applied)
| life_remove s : from = to → from = Preparing ∨ from = Cleaning → lifecycle from to (Some s) None.

Lemma may_become_state from to p c :
  may_become from to p c → op_state p ≠ Removed →
  op_state c = op_state p
  ∨ (from = Preparing ∧ to = Preparing ∧ op_state p = Planned ∧ op_state c = Applied)
  ∨ (from = to ∧ (from = Preparing ∨ from = Cleaning) ∧ op_state c = Removed).
Proof.
  intros (_ & _ & [H|[(-> & -> & H)|(-> & -> & H)]]) Hp; [by left| |naive_solver].
  destruct (op_state p), (op_state c); try done; naive_solver.
Qed.

Lemma may_become_removed from to p c :
  may_become from to p c → op_state p = Removed → op_state c = Removed.
Proof.
  intros (_ & _ & [H|[(-> & -> & H)|(-> & -> & H)]]) Hp; [congruence| |done].
  rewrite Hp in H. by destruct (op_state c).
Qed.

Lemma successor_lifecycle j j' r :
  successor j j' → lifecycle (hj_phase j) (hj_phase j') (status j r) (status j' r).
Proof.
  intros [Hw Hw' _ _ _ _ Hc]. remember (hj_operations j') as ops' eqn:E'.
  destruct Hc as [Hf Ht _|kept added Hk Hpl Had].
  - (* compaction *)
    assert (status j' r = status j r) as ->; [|constructor].
    destruct (status j r) as [s|] eqn:Es.
    + apply (status_Some j r s Hw) in Es as (op & Hin & Hr & Hs & Hne).
      apply status_Some; [done|]. rewrite <- E'.
      destruct (renumber_elem_of (List.filter live (hj_operations j)) op) as (op' & ? & ? & ?);
        [by apply elem_of_live; rewrite Hs|]. exists op'. split_and!; congruence || done.
    + rewrite status_None in Es |- *. rewrite <- E'. intros op Hin Hr.
      apply elem_of_renumber in Hin as (op' & Hin & Hr' & Hs').
      apply elem_of_live in Hin as [Hin _]. rewrite <- Hs'. apply Es; congruence.
  - destruct (status j' r) as [s'|] eqn:Es'.
    + apply (status_Some j' r s' Hw') in Es' as (op & Hin & Hr & Hs & Hne). rewrite <- E' in Hin.
      apply elem_of_app in Hin as [Hin|Hin].
      * apply list_elem_of_lookup in Hin as [i Hi].
        eapply Forall2_lookup_r in Hi as (p & Hp & Hm); [|done].
        assert (op_state p ≠ Removed) as Hpn
          by (intros ?; apply Hne; rewrite <- Hs; eapply may_become_removed; eauto).
        assert (status j r = Some (op_state p)) as ->.
        { apply status_Some; [done|]. exists p. pose proof Hm as (_ & ? & _).
          split_and!; [by eapply list_elem_of_lookup_2|congruence|done..]. }
        apply may_become_state in Hm; [|done].
        destruct Hm as [H|[(-> & -> & H1 & H2)|(_ & _ & H)]]; [|by rewrite H1, <- Hs, H2; constructor|congruence].
        rewrite <- Hs, H. constructor.
      * rewrite Forall_forall in Hpl. rewrite <- Hs, (Hpl _ Hin).
        destruct Had as [? ?]; [by intros ->; apply not_elem_of_nil in Hin|]. by constructor.
    + destruct (status j r) as [s|] eqn:Es; [|constructor].
      apply (status_Some j r s Hw) in Es as (p & Hin & Hr & Hs & Hne).
      apply list_elem_of_lookup in Hin as [i Hi].
      eapply Forall2_lookup_l in Hi as (c & Hc & Hm); [|done].
      assert (op_state c = Removed) as Hrem.
      { rewrite status_None in Es'. apply Es'; [rewrite <- E'; apply elem_of_app; left|].
        - by eapply list_elem_of_lookup_2.
        - pose proof Hm as (_ & ? & _). congruence. }
      apply may_become_state in Hm; [|congruence].
      destruct Hm as [H|[(_ & _ & _ & H)|(? & ? & _)]]; [congruence..|]. by constructor.
Qed.

(** A generation that the store accepts after another one. *)
Definition follows (j j' : HostStateJournalV1) : Prop := validate_successor j j' = Ok ().

Lemma rtc_flip {A} (R : relation A) (P : A → Prop) `{∀ x, Decision (P x)} x y :
  rtc R x y → ¬ P x → P y → ∃ z z', rtc R x z ∧ R z z' ∧ rtc R z' y ∧ ¬ P z ∧ P z'.
Proof.
  induction 1 as [x|x x' y Hxx' Hx'y IH]; intros Hx Hy; [done|].
  destruct (decide (P x')) as [Hx'|Hx'].
  - exists x, x'. by split_and!.
  - destruct IH as (z & z' & ? & ? & ? & ? & ?); [done..|]. exists z, z'.
    split_and!; try done. by eapply rtc_l.
Qed.

Lemma follows_phase j j' :
  follows j j' →
  (hj_phase j = Cleaning → hj_phase j' = Cleaning ∨ hj_phase j' = Conflict)
  ∧ (hj_phase j = Conflict → hj_phase j' = Conflict ∧ hj_operations j' = hj_operations j).
Proof.
  intros [_ _ _ _ _ Hp Hc]%validate_successor_iff. split; intros Hph; rewrite Hph in Hp, Hc.
  - destruct (hj_phase j'); try done; auto.
  - destruct (hj_phase j') eqn:Hph'; try done. split; [done|].
    destruct Hc as [?|kept added Hk Hpl Had]; [done|].
    destruct added as [|x added]; [|by destruct Had].
    rewrite app_nil_r. clear -Hk. induction Hk as [|[] [] ops kept (? & ? & H) _ IH]; [done|].
    simpl in *. f_equal; [|done]. destruct H as [?|[(? & _)|(? & _)]]; [|done..]. congruence.
Qed.

(** The ledger over any number of generations. *)
Lemma ledger_closed j j' :
  rtc follows j j' →
  (hj_phase j = Cleaning ∨ hj_phase j = Conflict) →
  (hj_phase j' = Cleaning ∨ hj_phase j' = Conflict)
  ∧ ∀ r s, status j' r = Some s → status j r = Some s.
Proof.
  induction 1 as [j|j k j' Hjk _ IH]; intros Hph; [done|].
  pose proof (follows_phase _ _ Hjk) as [Hcl Hco].
  destruct IH as [Hph' Hst]; [naive_solver|]. split; [done|].
  intros r s Hs. apply Hst in Hs.
  apply validate_successor_iff in Hjk. pose proof (successor_lifecycle j k r Hjk) as Hl.
  rewrite Hs in Hl. inversion Hl; subst; destruct Hph; congruence.
Qed.

Lemma follows_owner j j' :
  rtc follows j j' → hj_owner j' = hj_owner j ∧ hj_generation j ≤ hj_generation j'.
Proof.
  induction 1 as [j|j k j' Hjk _ [IHo IHg]]; [done|].
  apply validate_successor_iff in Hjk as [_ _ Hg _ Ho _ _]. split; [congruence|lia].
Qed.

Lemma ledger_conflict j j' :
  rtc follows j j' → hj_phase j = Conflict →
  hj_phase j' = Conflict ∧ hj_operations j' = hj_operations j.
Proof.
  induction 1 as [j|j k j' Hjk _ IH]; intros Hph; [done|].
  apply follows_phase in Hjk as [_ Hco]. destruct (Hco Hph) as [Hk Ho].
  destruct (IH Hk). split; congruence.
Qed.

(** C23: the generations that a store accepts form a ledger of owned resources.  The owner
    never changes and generations grow.  A resource is recorded as applied only from a
    preparing generation in which it was durably planned, and a live resource disappears
    only in a step from one preparing or one cleaning generation to the next.  Once
    cleaning or in conflict nothing becomes live again or changes state except by removal,
    and a journal in conflict keeps its phase and records for ever. *)
Theorem ledger j j' :
  rtc follows j j' →
  hj_owner j' = hj_owner j
  ∧ hj_generation j ≤ hj_generation j'
  ∧ (∀ r, status j r ≠ Some Applied → status j' r = Some Applied →
      ∃ k k', rtc follows j k ∧ follows k k' ∧ rtc follows k' j'
              ∧ hj_phase k = Preparing ∧ status k r = Some Planned ∧ status k' r = Some Applied)
  ∧ (∀ r, status j r ≠ None → status j' r = None →
      ∃ k k', rtc follows j k ∧ follows k k' ∧ rtc follows k' j'
              ∧ hj_phase k' = hj_phase k ∧ (hj_phase k = Preparing ∨ hj_phase k = Cleaning)
              ∧ status k r ≠ None ∧ status k' r = None)
  ∧ (hj_phase j = Cleaning ∨ hj_phase j = Conflict →
      ∀ r s, status j' r = Some s → status j r = Some s)
  ∧ (hj_phase j = Conflict → hj_phase j' = Conflict ∧ hj_operations j' = hj_operations j).
Proof.
  intros H. destruct (follows_owner _ _ H) as [Ho Hg]. split_and!; [done|done|..].
  - intros r Hj Hj'.
    destruct (rtc_flip _ (λ j, status j r = Some Applied) _ _ H Hj Hj')
      as (k & k' & Hjk & Hkk' & Hk' & Hn & Hp).
    exists k, k'. pose proof (proj1 (validate_successor_iff _ _) Hkk') as Hs.
    pose proof (successor_lifecycle k k' r Hs) as Hl. rewrite Hp in Hl.
    inversion Hl; subst; try congruence. split_and!; congruence || done.
  - intros r Hj Hj'.
    destruct (rtc_flip _ (λ j, status j r = None) _ _ H Hj Hj')
      as (k & k' & Hjk & Hkk' & Hk' & Hn & Hp).
    exists k, k'. pose proof (proj1 (validate_successor_iff _ _) Hkk') as Hs.
    pose proof (successor_lifecycle k k' r Hs) as Hl. rewrite Hp in Hl.
    inversion Hl; subst; try congruence. split_and!; congruence || done.
  - intros Hph. by apply (ledger_closed j j').
  - by apply ledger_conflict.
Qed.

(** * Recovery decisions *)

Lemma by_id_lookup l i op :
  NoDup (op_id <$> l) → by_id l !! i = Some op ↔ op ∈ l ∧ op_id op = i.
Proof.
  unfold by_id. induction l as [|x l IH] using rev_ind; intros Hnd.
  - simpl. rewrite lookup_empty. set_solver.
  - rewrite foldl_snoc. rewrite fmap_app in Hnd. apply NoDup_app in Hnd as (Hnd & Hx & _).
    rewrite elem_of_app, list_elem_of_singleton. destruct (decide (op_id x = i)) as [<-|Hne].
    + rewrite lookup_insert_eq. split; [intros [= <-]; auto|].
      intros [[Hin| ->] Hid]; [|done]. exfalso. apply (Hx (op_id x)).
      * rewrite <- Hid. by apply list_elem_of_fmap_2.
      * by apply list_elem_of_singleton.
    + rewrite lookup_insert_ne, IH by done. naive_solver.
Qed.

Lemma by_id_values l : NoDup (op_id <$> l) → (map_to_list (by_id l)).*2 ≡ₚ l.
Proof.
  intros Hnd. apply NoDup_Permutation.
  - apply NoDup_fmap_2_strong; [|apply NoDup_map_to_list].
    intros [i a] [i' a'] Hi Hi' Heq. simpl in *. subst a'.
    rewrite elem_of_map_to_list, by_id_lookup in Hi, Hi' by done. f_equal. naive_solver.
  - by eapply NoDup_fmap_1.
  - intros op. rewrite list_elem_of_fmap. setoid_rewrite elem_of_map_to_list'.
    setoid_rewrite by_id_lookup; [|done]. split.
    + intros ([i a] & -> & ? & _). done.
    + intros Hin. by exists (op_id op, op).
Qed.

Lemma by_id_keys l : NoDup (op_id <$> l) → (map_to_list (by_id l)).*1 ≡ₚ op_id <$> l.
Proof.
  intros Hnd. rewrite <- (by_id_values l Hnd) at 2. rewrite <- list_fmap_compose.
  apply Permutation_refl'. apply list_fmap_ext. intros k [i a] Hk. simpl.
  apply list_elem_of_lookup_2, elem_of_map_to_list, by_id_lookup in Hk; [|done]. naive_solver.
Qed.

Lemma wf_ids_NoDup j : journal_wf j → NoDup (op_id <$> hj_operations j).
Proof.
  intros Hw. apply NoDup_alt. intros i k id Hi Hk.
  rewrite list_lookup_fmap, fmap_Some in Hi, Hk.
  destruct Hi as (a & Ha & ->), Hk as (b & Hb & Hid).
  pose proof (ops_ids _ _ (wf_operations _ Hw)) as Hids. apply Hids in Ha, Hb. lia.
Qed.

Lemma wf_id_inj j a b :
  journal_wf j → a ∈ hj_operations j → b ∈ hj_operations j → op_id a = op_id b → a = b.
Proof.
  intros Hw (i & Hi)%list_elem_of_lookup (k & Hk)%list_elem_of_lookup Hid.
  pose proof (ops_ids _ _ (wf_operations _ Hw)) as Hids.
  apply Hids in Hi as Hi', Hk as Hk'. assert (i = k) as -> by lia. congruence.
Qed.

Lemma live_ids_NoDup j : journal_wf j → NoDup (op_id <$> List.filter live (hj_operations j)).
Proof.
  intros Hw%wf_ids_NoDup. induction (hj_operations j) as [|x l IH]; simpl in *; [done|].
  apply NoDup_cons in Hw as [Hx Hw]. destruct (live x); simpl; [|auto].
  apply NoDup_cons. split; [|auto]. intros (y & Hy & Hin)%list_elem_of_fmap.
  apply elem_of_live in Hin as [Hin _]. apply Hx. rewrite Hy. by apply list_elem_of_fmap_2.
Qed.

(** The observations that the loop accepts: known, live and not repeated. *)
Definition observable (all : gmap Z OperationRecord) (o : ResourceObservation) : Prop :=
  ∃ op, all !! ob_operation_id o = Some op ∧ op_state op ≠ Removed.

Lemma inspect_step all m o :
  (∃ m', inspect_observation all m o = Ok m')
  ↔ observable all o ∧ m !! ob_operation_id o = None.
Proof.
  unfold inspect_observation, observable.
  destruct (all !! ob_operation_id o) as [op|]; simpl; [|naive_solver].
  case_bool_decide; simpl; [naive_solver|].
  destruct (m !! ob_operation_id o) as [k|]; simpl; naive_solver.
Qed.

Lemma inspect_lookup all obs m :
  fold_res (inspect_observation all) ∅ obs = Ok m →
  ∀ id k, m !! id = Some k ↔ mkResourceObservation id k ∈ obs.
Proof.
  revert m. induction obs as [|[id0 k0] obs IH] using rev_ind; intros m.
  - intros [= <-] id k. rewrite lookup_empty. set_solver.
  - rewrite fold_res_app. intros H id k. simpl in H.
    apply bind_Ok in H as (m0 & H0 & H). apply bind_Ok in H as (m1 & H1 & [= <-]).
    specialize (IH m0 H0). rewrite elem_of_app, list_elem_of_singleton, <- IH.
    destruct (proj1 (inspect_step all m0 (mkResourceObservation id0 k0)) (ex_intro _ _ H1)) as [_ Hn].
    simpl in Hn. unfold inspect_observation in H1. simpl in H1. rewrite Hn in H1.
    destruct (all !! id0); [|done]. case_bool_decide; [done|]. injection H1 as <-.
    destruct (decide (id0 = id)) as [<-|Hne].
    + rewrite lookup_insert_eq, Hn. naive_solver.
    + rewrite lookup_insert_ne by done. naive_solver.
Qed.

Lemma inspect_ok all obs :
  (∃ m, fold_res (inspect_observation all) ∅ obs = Ok m)
  ↔ NoDup (ob_operation_id <$> obs) ∧ Forall (observable all) obs.
Proof.
  induction obs as [|o obs IH] using rev_ind.
  - simpl. split; [split; constructor|]. intros _. by eexists.
  - rewrite fmap_app, Forall_app, Forall_singleton, fold_res_app. simpl.
    assert (∀ m, fold_res (inspect_observation all) ∅ obs = Ok m →
              m !! ob_operation_id o = None ↔ ob_operation_id o ∉ (ob_operation_id <$> obs)) as Hm.
    { intros m Hm. rewrite list_elem_of_fmap, eq_None_not_Some. unfold is_Some.
      setoid_rewrite (inspect_lookup _ _ _ Hm). split; intros H H'; apply H.
      - destruct H' as ([i k] & Hi & Hin). simpl in Hi. exists k. by rewrite Hi.
      - destruct H' as [k Hk]. by exists (mkResourceObservation (ob_operation_id o) k). }
    rewrite NoDup_app. split.
    + intros [m H]. apply bind_Ok in H as (m0 & H0 & H). apply bind_Ok in H as (m1 & H1 & _).
      destruct (proj1 (inspect_step _ _ _) (ex_intro _ _ H1)) as [Ho Hn].
      destruct (proj1 IH (ex_intro _ _ H0)) as [Hnd Hall]. apply Hm in Hn; [|done].
      split_and!; try done; [|apply NoDup_singleton]. by intros x Hx ->%list_elem_of_singleton.
    + intros ((Hnd & Hx & _) & Hall & Ho). destruct (proj2 IH) as [m0 H0]; [done|]. rewrite H0. simpl.
      destruct (proj2 (inspect_step all m0 o)) as [m1 H1].
      * split; [done|]. apply Hm; [done|]. intros Hin. apply (Hx _ Hin). by left.
      * exists m1. by rewrite H1.
Qed.

(** The step of a live operation, from the list of observations. *)
Definition planned_step (obs : list ResourceObservation) (op : OperationRecord) : RecoveryStep :=
  mkRecoveryStep (op_id op)
    (if bool_decide (mkResourceObservation (op_id op) ObservedAbsent ∈ obs)
     then MarkAlreadyAbsent else RemoveExactOwned)
    (op_resource op).

(** Every live operation observed exactly once, and without conflict. *)
Record complete_observation (j : HostStateJournalV1) (obs : list ResourceObservation) : Prop := {
  co_once : NoDup (ob_operation_id <$> obs);
  co_live : ∀ id, id ∈ (ob_operation_id <$> obs)
                  ↔ ∃ op, op ∈ hj_operations j ∧ op_id op = id ∧ op_state op ≠ Removed }.

Lemma inspect_all_ok j obs :
  journal_wf j →
  (∃ m, fold_res (inspect_observation (by_id (hj_operations j))) ∅ obs = Ok m)
  ↔ NoDup (ob_operation_id <$> obs)
    ∧ ∀ id, id ∈ (ob_operation_id <$> obs) →
            ∃ op, op ∈ hj_operations j ∧ op_id op = id ∧ op_state op ≠ Removed.
Proof.
  intros Hw. rewrite inspect_ok. apply and_iff_compat_l. rewrite Forall_forall.
  setoid_rewrite list_elem_of_fmap. unfold observable.
  setoid_rewrite by_id_lookup; [|by apply wf_ids_NoDup]. naive_solver.
Qed.

Lemma merge_sort_nil {A} (R : relation A) `{∀ x y, Decision (R x y)} (l : list A) :
  merge_sort R l = [] ↔ l = [].
Proof.
  pose proof (merge_sort_Permutation R l) as Hp. split; intros E; [|by rewrite E].
  rewrite E in Hp. by apply Permutation_nil_l in Hp.
Qed.

Lemma fmap_nil_iff {A B} (f : A → B) (l : list A) : f <$> l = [] ↔ l = [].
Proof. by destruct l. Qed.

Lemma filter_nil_Forall {A} (P : A → bool) (l : list A) :
  List.filter P l = [] ↔ Forall (λ x, P x = false) l.
Proof.
  induction l as [|x l IH]; simpl; [split; [constructor|done]|].
  rewrite Forall_cons. destruct (P x); naive_solver.
Qed.

Lemma missing_nil j (m : gmap Z ResourceObservationKind) (obs : list ResourceObservation) :
  journal_wf j → (∀ id k, m !! id = Some k ↔ mkResourceObservation id k ∈ obs) →
  missing_ids (by_id (List.filter live (hj_operations j))) m = []
  ↔ ∀ op, op ∈ hj_operations j → op_state op ≠ Removed → op_id op ∈ (ob_operation_id <$> obs).
Proof.
  intros Hw Hm. unfold missing_ids. rewrite merge_sort_nil, filter_nil_Forall.
  rewrite (by_id_keys _ (live_ids_NoDup j Hw)), Forall_fmap, Forall_forall.
  setoid_rewrite elem_of_live. unfold compose.
  assert (∀ id, (match m !! id with Some _ => false | None => true end) = false
                ↔ id ∈ (ob_operation_id <$> obs)) as He.
  { intros id. rewrite list_elem_of_fmap. destruct (m !! id) as [k|] eqn:E; split; try done.
    - intros _. apply Hm in E. by exists (mkResourceObservation id k).
    - intros ([i k] & -> & Hin). apply Hm in Hin. simpl in E. congruence. }
  setoid_rewrite He. naive_solver.
Qed.

Lemma conflicts_nil (m : gmap Z ResourceObservationKind) (obs : list ResourceObservation) :
  (∀ id k, m !! id = Some k ↔ mkResourceObservation id k ∈ obs) →
  conflict_ids m = [] ↔ Forall (λ o, ob_kind o ≠ ObservedConflict) obs.
Proof.
  intros Hm. unfold conflict_ids. rewrite merge_sort_nil, (fmap_nil_iff _ _), filter_nil_Forall, !Forall_forall. split.
  - intros H [id k] Hin. apply Hm, elem_of_map_to_list in Hin.
    by apply H, bool_decide_eq_false in Hin.
  - intros H [id k] Hin. apply elem_of_map_to_list, Hm, H in Hin. by apply bool_decide_eq_false.
Qed.

Lemma recovery_step_planned (m : gmap Z ResourceObservationKind) (obs : list ResourceObservation) op :
  (∀ id k, m !! id = Some k ↔ mkResourceObservation id k ∈ obs) →
  recovery_step m op = planned_step obs op.
Proof.
  intros Hm. unfold recovery_step, planned_step. f_equal.
  case_bool_decide as Hd; rewrite <- Hm in Hd; [by rewrite Hd|].
  by destruct (m !! op_id op) as [[]|].
Qed.

#[export] Instance step_le_total : Total step_le.
Proof. intros a b. unfold step_le. lia. Qed.
#[export] Instance step_le_trans : Transitive step_le.
Proof. intros a b c. unfold step_le. lia. Qed.

(** The planner's list of steps is the only sorted list of the steps of the live records. *)
Lemma plan_steps_unique j obs steps :
  journal_wf j →
  StronglySorted step_le steps →
  steps ≡ₚ planned_step obs <$> List.filter live (hj_operations j) →
  steps = merge_sort step_le (planned_step obs <$> List.filter live (hj_operations j)).
Proof.
  intros Hw Hs Hp. apply (StronglySorted_unique_strong step_le); [|done|exact (StronglySorted_merge_sort _ _)|].
  - intros a b Ha Hb Hab Hba. rewrite merge_sort_Permutation in Hb. rewrite Hp in Ha.
    apply list_elem_of_fmap in Ha as (x & -> & Hx), Hb as (y & -> & Hy).
    unfold step_le in Hab, Hba. simpl in Hab, Hba. f_equal.
    apply elem_of_live in Hx as [Hx _], Hy as [Hy _].
    eapply wf_id_inj; [done..|lia].
  - by rewrite merge_sort_Permutation.
Qed.

(** The plan for a journal and a complete set of observations. *)
Record plan_for (j : HostStateJournalV1) (obs : list ResourceObservation) (plan : RecoveryPlan)
  : Prop := {
  pf_generation : rp_source_generation plan = hj_generation j;
  pf_phase : rp_required_phase plan = Cleaning;
  pf_sorted : StronglySorted step_le (rp_steps plan);
  pf_steps : rp_steps plan ≡ₚ planned_step obs <$> List.filter live (hj_operations j) }.

Lemma decide_recovery_Execute j owner obs plan :
  decide_recovery j owner obs = Ok (Execute plan)
  ↔ owner = OwnerStale ∧ journal_wf j ∧ hj_phase j ≠ Conflict
    ∧ complete_observation j obs
    ∧ Forall (λ o, ob_kind o ≠ ObservedConflict) obs
    ∧ plan_for j obs plan.
Proof.
  unfold decide_recovery.
  assert (∀ m, (∀ id k, m !! id = Some k ↔ mkResourceObservation id k ∈ obs) → journal_wf j →
    merge_sort step_le (recovery_step m <$>
      (map_to_list (by_id (List.filter live (hj_operations j)))).*2)
    ≡ₚ planned_step obs <$> List.filter live (hj_operations j)) as Hperm.
  { intros m Hm Hw. rewrite merge_sort_Permutation, (by_id_values _ (live_ids_NoDup j Hw)).
    apply Permutation_refl', list_fmap_ext. intros i op _. by apply recovery_step_planned. }
  split.
  - intros H. apply bind_Ok in H as ([] & Hv & H).
    destruct (validate j) as [[]|e] eqn:Ev; [|done]. apply validate_wf in Ev as Hw. clear Hv.
    destruct owner; [done| |done]. case_bool_decide as Hph; [done|].
    apply bind_Ok in H as (m & Hi & H). pose proof (inspect_lookup _ _ _ Hi) as Hm.
    destruct (proj1 (inspect_all_ok j obs Hw) (ex_intro _ m Hi)) as [Hnd Hin].
    case_bool_decide as Hmiss; simpl in H; [|done].
    case_bool_decide as Hconf; simpl in H; [|done]. injection H as <-.
    pose proof (proj1 (missing_nil j m obs Hw Hm) Hmiss) as Hseen.
    apply (conflicts_nil m obs Hm) in Hconf.
    split_and!; try done.
    + split; [done|]. intros id. split; [apply Hin|]. intros (op & Hop & <- & Hl). eauto.
    + split; simpl; try done; [exact (StronglySorted_merge_sort _ _)|by apply Hperm].
  - intros (-> & Hw & Hph & [Hnd Hlive] & Hconf & Hplan).
    rewrite (proj2 (validate_wf j) Hw). simpl. rewrite bool_decide_false by done.
    destruct (proj2 (inspect_all_ok j obs Hw)) as [m Hi]; [split; [done|naive_solver]|].
    pose proof (inspect_lookup _ _ _ Hi) as Hm. rewrite Hi. simpl.
    rewrite bool_decide_true by (apply (missing_nil j m obs Hw Hm); naive_solver). simpl.
    rewrite bool_decide_true by (apply (conflicts_nil m obs Hm); done). simpl.
    destruct plan as [g ph steps], Hplan as [Hg Hp Hs Hst]. simpl in *. subst g ph. do 3 f_equal.
    rewrite (plan_steps_unique j obs steps Hw Hs Hst).
    apply plan_steps_unique; [done|exact (StronglySorted_merge_sort _ _)|by apply Hperm].
Qed.

(** A complete inspection without conflicts of a journal that may be recovered has a plan. *)
Lemma recovery_plan j obs :
  journal_wf j → hj_phase j ≠ Conflict → complete_observation j obs →
  Forall (λ o, ob_kind o ≠ ObservedConflict) obs →
  ∃ plan, plan_for j obs plan ∧ decide_recovery j OwnerStale obs = Ok (Execute plan).
Proof.
  intros Hw Hph Hobs Hnc.
  set (plan := mkRecoveryPlan (hj_generation j) Cleaning
                 (merge_sort step_le (planned_step obs <$> List.filter live (hj_operations j)))).
  assert (plan_for j obs plan) as Hplan.
  { split; [done..|exact (StronglySorted_merge_sort _ _)|]. simpl. by rewrite merge_sort_Permutation. }
  exists plan. split; [done|]. by apply decide_recovery_Execute.
Qed.

(** ** Removing one record *)

Definition removed (op : OperationRecord) : OperationRecord :=
  mkOperationRecord (op_id op) Removed (op_resource op).

(** A chain may go once its endpoint rules have gone. *)
Definition unsupported (l : list OperationRecord) (op : OperationRecord) : Prop :=
  ∀ f, op_resource op = Firewall f → ∀ b e, b ∈ l → op_resource b = FirewallEndpoint e → op_state b = Removed.

Definition fades (a a' : OperationRecord) : Prop :=
  op_id a' = op_id a ∧ op_resource a' = op_resource a ∧ (op_state a' = op_state a ∨ op_state a' = Removed).

Lemma fades_removed (l : list OperationRecord) i op :
  l !! i = Some op → Forall2 fades l (<[i := removed op]> l).
Proof.
  intros Hi. apply Forall2_same_length_lookup_2; [by rewrite length_insert|].
  intros k a a' Ha Ha'. apply list_lookup_insert_Some in Ha' as [(<- & <- & _)|[_ Ha']].
  - assert (a = op) as -> by congruence. split_and!; [done..|by right].
  - assert (a = a') as -> by congruence. split_and!; [done..|by left].
Qed.

Lemma operations_wf_removed uid l i op :
  operations_wf uid l → l !! i = Some op → unsupported l op →
  operations_wf uid (<[i := removed op]> l).
Proof.
  intros [Hids Hval Hhist Hexcl Hdns Hch] Hi Hun. pose proof (fades_removed _ _ _ Hi) as HQ. split.
  - intros k a' Ha'. destruct (Forall2_lookup_r _ _ _ _ _ HQ Ha') as (a & Ha & -> & _). by apply Hids.
  - apply Forall_lookup. intros k a' Ha'. destruct (Forall2_lookup_r _ _ _ _ _ HQ Ha') as (a & Ha & _ & -> & _).
    rewrite Forall_lookup in Hval. by eapply Hval.
  - eapply pairs_Forall2; [done| |exact Hhist]. intros a b a' b' Hab (_ & Ha & Hsa) (_ & Hb & _).
    rewrite Ha, Hb. intros Hr. destruct Hsa as [->|]; auto.
  - eapply pairs_Forall2; [done| |exact Hexcl]. intros a b a' b' Hab (_ & Ha & Hsa) (_ & Hb & Hsb).
    unfold exclusive. rewrite Ha, Hb. intros Hla Hlb. apply Hab.
    + apply live_true in Hla. apply live_true. destruct Hsa as [<-|]; done.
    + apply live_true in Hlb. apply live_true. destruct Hsb as [<-|]; done.
  - apply Forall_lookup. intros k a' Ha'. destruct (Forall2_lookup_r _ _ _ _ _ HQ Ha') as (a & Ha & _ & -> & _).
    rewrite Forall_lookup in Hdns. by eapply Hdns.
  - intros k b e Hb Hl He. apply live_true in Hl as Hl'.
    apply list_lookup_insert_Some in Hb as [(_ & <- & _)|[Hne Hb]]; [done|].
    destruct (Hch k b e Hb Hl He) as (m & a & f & Hm & Ha & Hla & Hf & Hkey).
    exists m, a, f. split_and!; try done. rewrite list_lookup_insert_ne; [done|]. intros ->.
    assert (a = op) as -> by congruence. apply Hl'. eapply Hun; [done| |done].
    by eapply list_elem_of_lookup_2.
Qed.

(** In the cleaning phase the next generation may drop such a record. *)
Lemma follows_removed j i op next :
  journal_wf j → 0 ≤ hj_generation j → hj_phase j = Cleaning → hj_operations j !! i = Some op →
  unsupported (hj_operations j) op →
  next_generation (with_operations j (<[i := removed op]> (hj_operations j))) = Ok next →
  follows j next.
Proof.
  intros Hw Hnn Hph Hi Hun Hn. unfold next_generation in Hn.
  apply bind_Ok in Hn as (g & Hg%ok_or_Ok%u64_checked_add_Some & [= <-]). simpl in Hg. destruct Hg as [-> Hg].
  apply validate_successor_iff. pose proof Hw as [Hs Hgen Hp Hse Hc Ho Ha].
  split; simpl; try done.
  - split; simpl; try done.
    + lia.
    + unfold len in *. by rewrite length_insert.
    + by apply operations_wf_removed.
    + by rewrite Hph.
  - by rewrite Hph.
  - rewrite Hph, <- (app_nil_r (<[i := removed op]> (hj_operations j))). apply continues_extended; [|done..].
    eapply Forall2_impl; [by apply fades_removed|]. intros a a' (Hid & Hr & Hst).
    split_and!; [done..|]. destruct Hst; [by left|]. right. right. done.
Qed.

Lemma follows_cleaning j next :
  journal_wf j → 0 ≤ hj_generation j → hj_phase j ≠ Conflict →
  next_generation (with_phase j Cleaning) = Ok next → follows j next.
Proof.
  intros Hw Hnn Hph Hn. unfold next_generation in Hn.
  apply bind_Ok in Hn as (g & Hg%ok_or_Ok%u64_checked_add_Some & [= <-]). simpl in Hg. destruct Hg as [-> Hg].
  apply validate_successor_iff. pose proof Hw as [Hs Hgen Hp Hse Hc Ho Ha].
  split; simpl; try done.
  - split; simpl; try done. lia.
  - by destruct (hj_phase j).
  - rewrite <- (app_nil_r (hj_operations j)) at 2. apply continues_extended; [|done..].
    apply Forall2_same_length_lookup_2; [done|]. intros k a a' Ha' Ha''.
    assert (a = a') as -> by congruence. split_and!; [done..|by left].
Qed.

(** * The validator and the planner *)

(** C33: the validator of [host_state.rs], one pass over the records with maps and counters,
    accepts exactly the well-formed journals: identifiers dense from one, every resource
    valid and live at most once, one live DNS, TUN, firewall per family and route per kernel
    key, every live endpoint rule after its live chain, and nothing planned while active. *)
Theorem validate_decides j : validate j = Ok () ↔ journal_wf j.
Proof. apply validate_wf. Qed.

(** The recovery planner.  A plan is made exactly for a stale owner, a valid journal that is
    not in conflict and one observation without conflict for each live operation; it is for
    the generation that was read, requires the cleaning phase, and has one step for each
    live operation, sorted by the rank of removal and then by identifier. *)
Theorem recovery_plan_exact j owner obs plan :
  decide_recovery j owner obs = Ok (Execute plan)
  ↔ owner = OwnerStale ∧ journal_wf j ∧ hj_phase j ≠ Conflict
    ∧ complete_observation j obs
    ∧ Forall (λ o, ob_kind o ≠ ObservedConflict) obs
    ∧ plan_for j obs plan.
Proof. apply decide_recovery_Execute. Qed.

(** * Examples *)

Module Sample.
Definition owner : OwnerIdentity :=
  mkOwnerIdentity (replicate 16 Byte.x07) (Some (replicate 16 Byte.x09)) 0 4242 (Some 99) None None.
Definition token : bytes := replicate 10 Byte.x05.
Definition chain : OwnedResource :=
  Firewall (mkFirewallResource Ipv4 IptablesNft token TablePreexisting ChainPreexisting
              IPV4_STATIC_FIREWALL_RULE_COUNT).
Definition endpoint : OwnedResource :=
  FirewallEndpoint (mkFirewallEndpointResource Ipv4 IptablesNft token
                      (V4 [Byte.x01; Byte.x02; Byte.x03; Byte.x04]) Tcp 443).
Definition tun : OwnedResource := Tun (mkTunResource (mkInterfaceIdentity [Byte.x74; Byte.x30] 3)).

Definition resources : list OwnedResource := [chain; endpoint; tun].
Definition journal (phase : JournalPhase) (generation : Z) (operations : list OperationRecord) :=
  mkHostStateJournalV1 JOURNAL_SCHEMA_VERSION generation phase owner operations.
Definition records (state : OperationState) : list OperationRecord :=
  imap (λ index r, mkOperationRecord (Z.of_nat index + 1) state r) resources.

Definition started : HostStateJournalV1 := journal Preparing 1 [].
Definition planned : HostStateJournalV1 := journal Preparing 2 (records Planned).
Definition applied : HostStateJournalV1 := journal Preparing 3 (records Applied).

Lemma ledger_witness :
  rtc follows started applied
  ∧ status started tun ≠ Some Applied ∧ status applied tun = Some Applied
  ∧ ∃ k k', rtc follows started k ∧ follows k k' ∧ rtc follows k' applied
      ∧ hj_phase k = Preparing ∧ status k tun = Some Planned ∧ status k' tun = Some Applied.
Proof.
  assert (rtc follows started applied) as Hf.
  { apply (rtc_l _ _ planned); [by vm_compute|]. apply (rtc_l _ _ applied); [by vm_compute|]. done. }
  split_and!; [done|by vm_compute|by vm_compute|].
  destruct (ledger started applied Hf) as (_ & _ & Ha & _). apply Ha; by vm_compute.
Defined.
End Sample.
