(* ===== verification/DnsExchange.v ===== *)
(** * The exchange of the resolver file

    [shadowpipe-core/src/dns_exchange.rs]: a pinned resolver file is written without a
    name, recorded in the journal, linked under a name of the session, and exchanged with
    the live resolver; recovery classifies the two names and undoes what it finds.  The
    code is a monad over a directory in which other processes act between system calls and
    any call can fail, with or without effect.  The bound on reads is the code's own buffer:
    a loop of reads ends within [read_fuel] rounds, since every round but the last reads a
    byte and more than [MAX_RESOLVER_OBJECT_BYTES] is an error. *)

From S2P Require Import Prelude HostTypes HostState.

Definition MAX_RESOLVER_OBJECT_BYTES : Z := 64 * 1024.
Definition PINNED_MODE : Z := 0x1A4.

(** SHA-256 *)
Class ResolverDigest := { sha256_digest : bytes → bytes }.

Inductive DnsExchangeFailureKind := ExchangeConflict | ExchangeOperational.

Record ResolverDirectoryIdentity := mkResolverDirectoryIdentity {
  di_device : Z;
  di_inode : Z;
  di_uid : Z;
  di_gid : Z;
  di_mode : Z;
  di_link_count : Z }.

Record ObservedDnsObject := mkObservedDnsObject {
  od_identity : FileIdentity;
  od_sha256 : option bytes }.

Inductive DnsExchangeTopology := TopologyActive | TopologyStaged | TopologyAbsent | TopologyConflict.
Inductive DnsRecoveryAction := ExchangeThenUnlink | UnlinkStaged | AlreadyAbsent.

Record DnsRecoveryPlan := mkDnsRecoveryPlan {
  dp_topology : DnsExchangeTopology;
  dp_action : DnsRecoveryAction }.

#[export] Instance ResolverDirectoryIdentity_eq_dec : EqDecision ResolverDirectoryIdentity.
Proof. solve_decision. Defined.
#[export] Instance ObservedDnsObject_eq_dec : EqDecision ObservedDnsObject.
Proof. solve_decision. Defined.
#[export] Instance DnsExchangeTopology_eq_dec : EqDecision DnsExchangeTopology.
Proof. solve_decision. Defined.

Definition observation_kind (t : DnsExchangeTopology) : ResourceObservationKind :=
  match t with
  | TopologyActive | TopologyStaged => ExactOwnedPresent
  | TopologyAbsent => ObservedAbsent
  | TopologyConflict => ObservedConflict
  end.

Definition object_matches (observed : option ObservedDnsObject) (expected_identity : FileIdentity)
    (expected_digest : option bytes) : bool :=
  match observed with
  | None => false
  | Some observed =>
      bool_decide (od_identity observed = expected_identity)
      && bool_decide (od_sha256 observed = expected_digest)
  end.

Definition classify_dns_exchange (resource : DnsResource) (target exchange : option ObservedDnsObject)
  : DnsExchangeTopology :=
  let target_is_original := object_matches target (dn_original resource) (dn_original_sha256 resource) in
  let target_is_pinned :=
    object_matches target (dn_pinned resource) (Some (dn_pinned_sha256 resource)) in
  let exchange_is_original :=
    object_matches exchange (dn_original resource) (dn_original_sha256 resource) in
  let exchange_is_pinned :=
    object_matches exchange (dn_pinned resource) (Some (dn_pinned_sha256 resource)) in
  match target_is_original, target_is_pinned, exchange_is_original, exchange_is_pinned,
        match exchange with None => true | Some _ => false end with
  | false, true, true, false, false => TopologyActive
  | true, false, false, true, false => TopologyStaged
  | true, false, false, false, true => TopologyAbsent
  | _, _, _, _, _ => TopologyConflict
  end.

Definition plan_dns_recovery (topology : DnsExchangeTopology)
  : result DnsExchangeFailureKind DnsRecoveryPlan :=
  match topology with
  | TopologyActive => Ok (mkDnsRecoveryPlan topology ExchangeThenUnlink)
  | TopologyStaged => Ok (mkDnsRecoveryPlan topology UnlinkStaged)
  | TopologyAbsent => Ok (mkDnsRecoveryPlan topology AlreadyAbsent)
  | TopologyConflict => Err ExchangeConflict
  end.

(** Lower-case hexadecimal, and the name of the exchange file of a session. *)
Definition hex_digit (n : Z) : byte := bz (if n <? 10 then 48 + n else 87 + n).
Definition to_hex (b : bytes) : bytes := b ≫= λ x, [hex_digit (bv x / 16); hex_digit (bv x mod 16)].
Definition resolver_exchange_file_name (session : bytes) : bytes :=
  String.list_byte_of_string ".resolv.conf.shadowpipe." ++ to_hex session.

(** ** The directory *)

Inductive Errno := ENOENT | ELOOP | ENOTDIR | EEXIST | ESTALE | EIO.

(** A file, by its device and inode number. *)
Record FileObject := mkFileObject {
  fo_uid : Z;
  fo_gid : Z;
  fo_mode : Z;
  fo_nlink : Z;
  fo_mtime : Z * Z;
  fo_ctime : Z * Z;
  fo_data : bytes }.

Abbreviation ObjectId := (Z * Z)%type.

Record Folder := mkFolder {
  fd_identity : ResolverDirectoryIdentity;
  fd_mount_id : Z;
  fd_mounts : gmap bytes Z;
  fd_names : gmap bytes ObjectId;
  fd_objects : gmap ObjectId FileObject }.

(** A system call works, fails without effect, or fails although it had its effect. *)
Inductive CallFault := NoFault | FailsBefore | FailsAfter.

(** What happens at a system call: others act, then it may fail; and the time. *)
Record Turn := mkTurn {
  tu_others : Folder → Folder;
  tu_fault : CallFault;
  tu_now : Z * Z }.

(** The folder, what is to come, the user, and a record of what was unlinked. *)
Record Machine := mkMachine {
  mc_folder : Folder;
  mc_turns : list Turn;
  mc_euid : Z;
  mc_egid : Z;
  mc_unlinked : list ObjectId }.

Definition Rx (A : Type) : Type := Machine → result DnsExchangeFailureKind A * Machine.
#[export] Instance Rx_ret : MRet Rx := λ A a w, (Ok a, w).
#[export] Instance Rx_bind : MBind Rx :=
  λ A B f m w, match m w with
               | (Ok a, w') => f a w'
               | (Err e, w') => (Err e, w')
               end.
Definition rx_fail {A} (e : DnsExchangeFailureKind) : Rx A := λ w, (Err e, w).
Definition rx_lift {A} (r : result DnsExchangeFailureKind A) : Rx A := λ w, (r, w).

(** [anyhow::ensure!] *)
Definition ensure (b : bool) : Rx () := if b then mret () else rx_fail ExchangeOperational.

Definition Action (A : Type) : Type := Z * Z → Folder → result Errno A * Folder * list ObjectId.

Definition call {A} (act : Action A) (w : Machine) : result Errno A * Machine :=
  let '(t, turns) :=
    match mc_turns w with
    | [] => (mkTurn id NoFault (0, 0), [])
    | t :: turns => (t, turns)
    end in
  let folder := tu_others t (mc_folder w) in
  let after d gone := mkMachine d turns (mc_euid w) (mc_egid w) (mc_unlinked w ++ gone) in
  let '(r, folder', gone) := act (tu_now t) folder in
  match tu_fault t with
  | NoFault => (r, after folder' gone)
  | FailsBefore => (Err EIO, after folder [])
  | FailsAfter => (Err EIO, after folder' gone)
  end.

Definition looking_at {A} (f : Folder → result Errno A) : Action A := λ _ d, (f d, d, []).

(** [.context(_)] on an error of the operating system *)
Definition context {A} (act : Action A) : Rx A :=
  λ w, match call act w with
       | (Ok a, w') => (Ok a, w')
       | (Err _, w') => (Err ExchangeOperational, w')
       end.

Definition syscall_error (e : Errno) : DnsExchangeFailureKind :=
  match e with
  | ENOENT | ELOOP | ENOTDIR | EEXIST | ESTALE => ExchangeConflict
  | EIO => ExchangeOperational
  end.

(** [.map_err(|error| syscall_error(_, error))] *)
Definition raced {A} (act : Action A) : Rx A :=
  λ w, match call act w with
       | (Ok a, w') => (Ok a, w')
       | (Err e, w') => (Err (syscall_error e), w')
       end.

(** ** System calls *)

Record Stat := mkStat {
  st_id : ObjectId;
  st_uid : Z;
  st_gid : Z;
  st_mode : Z;
  st_nlink : Z;
  st_size : Z;
  st_mtime : Z * Z;
  st_ctime : Z * Z }.

Definition stat_of (id : ObjectId) (o : FileObject) : Stat :=
  mkStat id (fo_uid o) (fo_gid o) (fo_mode o) (fo_nlink o) (len (fo_data o)) (fo_mtime o) (fo_ctime o).

Definition fstat_fd (id : ObjectId) (d : Folder) : result Errno Stat :=
  o ← ok_or (fd_objects d !! id) EIO; Ok (stat_of id o).
Definition fstatat (name : bytes) (d : Folder) : result Errno Stat :=
  id ← ok_or (fd_names d !! name) ENOENT; fstat_fd id d.

Definition S_IFMT : Z := 0xF000.
Definition S_IFREG : Z := 0x8000.
Definition S_IFLNK : Z := 0xA000.
Definition S_IFDIR : Z := 0x4000.

Definition open_nofollow (name : bytes) (d : Folder) : result Errno ObjectId :=
  id ← ok_or (fd_names d !! name) ENOENT;
  o ← ok_or (fd_objects d !! id) EIO;
  if Z.land (fo_mode o) S_IFMT =? S_IFLNK then Err ELOOP else Ok id.

Definition pread (id : ObjectId) (offset count : nat) (d : Folder) : result Errno bytes :=
  o ← ok_or (fd_objects d !! id) EIO; Ok (take count (drop offset (fo_data o))).

(** [statx] of the directory and of a name in it: a name may be a mount point. *)
Definition statx_directory (d : Folder) : result Errno Z := Ok (fd_mount_id d).
Definition statx_mount_id (name : bytes) (d : Folder) : result Errno Z :=
  _ ← ok_or (fd_names d !! name) ENOENT; Ok (default (fd_mount_id d) (fd_mounts d !! name)).

Definition fsync (d : Folder) : result Errno () := Ok ().

Definition folder_names (d : Folder) (names : gmap bytes ObjectId) : Folder :=
  mkFolder (fd_identity d) (fd_mount_id d) (fd_mounts d) names (fd_objects d).
Definition folder_object (d : Folder) (id : ObjectId) (o : FileObject) : Folder :=
  mkFolder (fd_identity d) (fd_mount_id d) (fd_mounts d) (fd_names d) (<[id := o]> (fd_objects d)).

Definition set_nlink (delta : Z) (now : Z * Z) (o : FileObject) : FileObject :=
  mkFileObject (fo_uid o) (fo_gid o) (fo_mode o) (fo_nlink o + delta) (fo_mtime o) now (fo_data o).

(** The change of an object, if there is one. *)
Definition touch (id : ObjectId) (f : FileObject → FileObject) (d : Folder) : Folder :=
  match fd_objects d !! id with Some o => folder_object d id (f o) | None => d end.

(** [openat(O_TMPFILE)]: an inode that is not in use, without a name. *)
Definition new_inode (d : Folder) : Z := fresh (set_map snd (dom (fd_objects d)) : gset Z).
Definition open_tmpfile (uid gid : Z) : Action ObjectId :=
  λ now d,
    let id := (di_device (fd_identity d), new_inode d) in
    (Ok id, folder_object d id (mkFileObject uid gid (Z.lor S_IFREG PINNED_MODE) 0 now now []), []).

Definition fchmod (id : ObjectId) (mode : Z) : Action () :=
  λ now d, (Ok (), touch id (λ o,
    mkFileObject (fo_uid o) (fo_gid o) (Z.lor (Z.land (fo_mode o) S_IFMT) mode) (fo_nlink o)
      (fo_mtime o) now (fo_data o)) d, []).
Definition write_object (id : ObjectId) (contents : bytes) : Action () :=
  λ now d, (Ok (), touch id (λ o,
    mkFileObject (fo_uid o) (fo_gid o) (fo_mode o) (fo_nlink o) now now (fo_data o ++ contents)) d, []).

(** [linkat(AT_EMPTY_PATH)] *)
Definition linkat (id : ObjectId) (name : bytes) : Action () :=
  λ now d,
    match fd_names d !! name with
    | Some _ => (Err EEXIST, d, [])
    | None => (Ok (), touch id (set_nlink 1 now) (folder_names d (<[name := id]> (fd_names d))), [])
    end.

(** [renameat2(RENAME_EXCHANGE)], which renews the change time of both. *)
Definition renameat2_exchange (first second : bytes) : Action () :=
  λ now d,
    match fd_names d !! first, fd_names d !! second with
    | Some a, Some b =>
        (Ok (), touch a (set_nlink 0 now) (touch b (set_nlink 0 now)
                  (folder_names d (<[first := b]> (<[second := a]> (fd_names d))))), [])
    | _, _ => (Err ENOENT, d, [])
    end.

Definition unlinkat_name (name : bytes) : Action () :=
  λ now d,
    match fd_names d !! name with
    | Some id => (Ok (), touch id (set_nlink (-1) now) (folder_names d (delete name (fd_names d))), [id])
    | None => (Err ENOENT, d, [])
    end.

(** ** Observing *)

Record StableStat := mkStableStat {
  ss_identity : FileIdentity;
  ss_size : Z;
  ss_mtime : Z * Z;
  ss_ctime : Z * Z }.
Record InspectedComponent := mkInspectedComponent {
  ic_object : ObservedDnsObject;
  ic_stable : StableStat }.

#[export] Instance StableStat_eq_dec : EqDecision StableStat.
Proof. solve_decision. Defined.
#[export] Instance InspectedComponent_eq_dec : EqDecision InspectedComponent.
Proof. solve_decision. Defined.

Record DirectoryAnchor := mkDirectoryAnchor {
  da_identity : ResolverDirectoryIdentity;
  da_mount_id : Z }.

Section Resolver.
Context `{ResolverDigest}.

Definition directory_open : Rx DirectoryAnchor :=
  _ ← context (looking_at (λ d, Ok ()));
  identity ← context (looking_at (λ d, Ok (fd_identity d)));
  _ ← ensure (Z.land (di_mode identity) S_IFMT =? S_IFDIR);
  _ ← (λ w, ensure (di_uid identity =? mc_euid w) w) : Rx ();
  _ ← ensure (Z.land (di_mode identity) 0x12 =? 0);
  mount_id ← context (looking_at statx_directory);
  mret (mkDirectoryAnchor identity mount_id).

Definition resolver_sync : Rx () := context (looking_at fsync).

Definition revalidate (anchor : DirectoryAnchor) : Rx () :=
  current ← context (looking_at (λ d, Ok (fd_identity d)));
  if negb (bool_decide (current = da_identity anchor)) then rx_fail ExchangeConflict else
  mount_id ← context (looking_at statx_directory);
  if negb (mount_id =? da_mount_id anchor) then rx_fail ExchangeConflict else
  mret ().

(** One path component. *)
Definition resolver_component (value : bytes) : Rx bytes :=
  _ ← ensure (negb (bool_decide (value = [])) && negb (bool_decide (value = [Byte.x2e]))
              && negb (bool_decide (value = [Byte.x2e; Byte.x2e]))
              && negb (bool_decide (Byte.x2f ∈ value)));
  _ ← ensure (negb (bool_decide (Byte.x00 ∈ value)));
  mret value.

Definition identity_from_stat (stat : Stat) : result DnsExchangeFailureKind FileIdentity :=
  let file_type := Z.land (st_mode stat) S_IFMT in
  let identity := mkFileIdentity (st_id stat).1 (st_id stat).2 (st_uid stat) (st_gid stat)
                    (st_mode stat) (st_nlink stat) in
  if file_type =? S_IFREG then Ok (identity Regular) else
  if file_type =? S_IFLNK then Ok (identity Symlink) else Err ExchangeConflict.

Definition stable_stat_from_stat (stat : Stat) : result DnsExchangeFailureKind StableStat :=
  if MAX_RESOLVER_OBJECT_BYTES <? st_size stat then Err ExchangeConflict else
  identity ← identity_from_stat stat;
  Ok (mkStableStat identity (st_size stat) (st_mtime stat) (st_ctime stat)).

Definition stat_component_stable (name : bytes) : Rx (option StableStat) :=
  λ w, match call (looking_at (fstatat name)) w with
       | (Err ENOENT, w') => (Ok None, w')
       | (Err _, w') => (Err ExchangeOperational, w')
       | (Ok stat, w') => (Some <$> stable_stat_from_stat stat, w')
       end.

Definition stat_file (file : ObjectId) : Rx StableStat :=
  stat ← context (looking_at (fstat_fd file));
  rx_lift (stable_stat_from_stat stat).

(** The loop of [read_at]; every round that goes on has read at least one byte. *)
Fixpoint read_loop (fuel : nat) (file : ObjectId) (data : bytes) : Rx bytes :=
  match fuel with
  | O => rx_fail ExchangeOperational
  | S fuel =>
      read ← context (looking_at
        (pread file (length data) (Z.to_nat (MAX_RESOLVER_OBJECT_BYTES + 1 - len data))));
      if len read =? 0 then mret data else
      if MAX_RESOLVER_OBJECT_BYTES <? len (data ++ read) then rx_fail ExchangeConflict else
      read_loop fuel file (data ++ read)
  end.
Definition read_fuel : nat := Z.to_nat (MAX_RESOLVER_OBJECT_BYTES + 2).

Definition digest_stable_file (file : ObjectId) (expected : StableStat) : Rx bytes :=
  before ← stat_file file;
  if negb (bool_decide (before = expected)) then rx_fail ExchangeConflict else
  data ← read_loop read_fuel file [];
  after ← stat_file file;
  if negb (bool_decide (before = after)) || negb (len data =? ss_size after)
  then rx_fail ExchangeConflict else
  mret (sha256_digest data).

Definition inspect_component_detailed (anchor : DirectoryAnchor) (name : bytes)
  : Rx (option InspectedComponent) :=
  _ ← revalidate anchor;
  before ← stat_component_stable name;
  match before with
  | None => mret None
  | Some before =>
      sha256 ←
        (match fi_kind (ss_identity before) with
         | Symlink => mret None
         | Regular =>
             file ← raced (looking_at (open_nofollow name));
             digest ← digest_stable_file file before;
             mret (Some digest)
         end : Rx (option bytes));
      after_name ← stat_component_stable name;
      if negb (bool_decide (after_name = Some before)) then rx_fail ExchangeConflict else
      mret (Some (mkInspectedComponent (mkObservedDnsObject (ss_identity before) sha256) before))
  end.

Definition inspect_component (anchor : DirectoryAnchor) (name : bytes) : Rx (option ObservedDnsObject) :=
  observed ← inspect_component_detailed anchor name;
  mret (ic_object <$> observed).

Definition expect_component (anchor : DirectoryAnchor) (name : bytes) (expected : ObservedDnsObject)
  : Rx StableStat :=
  observed ← inspect_component_detailed anchor name;
  match observed with
  | None => rx_fail ExchangeConflict
  | Some observed =>
      if negb (bool_decide (ic_object observed = expected)) then rx_fail ExchangeConflict
      else mret (ic_stable observed)
  end.

(** Both names still have the given versions. *)
Definition still_stable (name : bytes) (stable : StableStat) : Rx bool :=
  current ← stat_component_stable name;
  mret (bool_decide (current = Some stable)).

Definition rename_exchange_exact (anchor : DirectoryAnchor) (first : bytes)
    (first_expected : ObservedDnsObject) (second : bytes) (second_expected : ObservedDnsObject) : Rx () :=
  first_stable ← expect_component anchor first first_expected;
  second_stable ← expect_component anchor second second_expected;
  same_first ← still_stable first first_stable;
  if negb same_first then rx_fail ExchangeConflict else
  same_second ← still_stable second second_stable;
  if negb same_second then rx_fail ExchangeConflict else
  raced (renameat2_exchange first second).

Definition open_exact_regular (anchor : DirectoryAnchor) (name : bytes) (expected : ObservedDnsObject)
  : Rx (ObjectId * StableStat) :=
  _ ← ensure (bool_decide (fi_kind (od_identity expected) = Regular)
              && bool_decide (is_Some (od_sha256 expected)));
  before ← expect_component anchor name expected;
  file ← raced (looking_at (open_nofollow name));
  digest ← digest_stable_file file before;
  if negb (bool_decide (Some digest = od_sha256 expected)) then rx_fail ExchangeConflict else
  same ← still_stable name before;
  if negb same then rx_fail ExchangeConflict else
  mret (file, before).

Definition unlink_exact_regular (anchor : DirectoryAnchor) (name : bytes) (expected : ObservedDnsObject)
  : Rx () :=
  '(file, stable) ← open_exact_regular anchor name expected;
  reopened_digest ← digest_stable_file file stable;
  if negb (bool_decide (Some reopened_digest = od_sha256 expected)) then rx_fail ExchangeConflict else
  same ← still_stable name stable;
  if negb same then rx_fail ExchangeConflict else
  _ ← raced (unlinkat_name name);
  after ← context (looking_at (fstat_fd file));
  if negb ((st_id after).1 =? fi_device (ss_identity stable))
     || negb ((st_id after).2 =? fi_inode (ss_identity stable))
     || negb (st_nlink after =? 0)
  then rx_fail ExchangeConflict else
  resolver_sync.

Definition dns_topology (anchor : DirectoryAnchor) (target exchange : bytes) (resource : DnsResource)
  : Rx DnsExchangeTopology :=
  target_observation ← inspect_component anchor target;
  exchange_observation ← inspect_component anchor exchange;
  mret (classify_dns_exchange resource target_observation exchange_observation).

(** ** Staging *)

Definition create_unnamed_file (contents : bytes) : Rx ObjectId :=
  file ← (λ w, context (open_tmpfile (mc_euid w) (mc_egid w)) w) : Rx ObjectId;
  _ ← context (fchmod file PINNED_MODE);
  _ ← context (write_object file contents);
  _ ← context (looking_at fsync);
  stable ← stat_file file;
  _ ← ensure (bool_decide (fi_kind (ss_identity stable) = Regular)
              && (fi_link_count (ss_identity stable) =? 0)
              && (ss_size stable =? len contents));
  mret file.

Definition with_link_count (identity : FileIdentity) (n : Z) : FileIdentity :=
  mkFileIdentity (fi_device identity) (fi_inode identity) (fi_uid identity) (fi_gid identity)
    (fi_mode identity) n (fi_kind identity).

Definition expected_linked_object (file : ObjectId) (contents : bytes) : Rx ObservedDnsObject :=
  stable ← stat_file file;
  _ ← ensure (bool_decide (fi_kind (ss_identity stable) = Regular)
              && (fi_link_count (ss_identity stable) =? 0));
  mret (mkObservedDnsObject (with_link_count (ss_identity stable) 1) (Some (sha256_digest contents))).

Definition link_unnamed (anchor : DirectoryAnchor) (file : ObjectId) (name : bytes) : Rx () :=
  observed ← inspect_component anchor name;
  if bool_decide (is_Some observed) then rx_fail ExchangeConflict else
  raced (linkat file name).

Definition PROBE_CONTENTS : bytes :=
  String.list_byte_of_string "shadowpipe-residue-free-dns-preflight" ++ [Byte.x0a].

Definition probe_residue_free_primitives (anchor : DirectoryAnchor) : Rx () :=
  file ← create_unnamed_file PROBE_CONTENTS;
  stable ← stat_file file;
  _ ← ensure (bool_decide (fi_kind (ss_identity stable) = Regular)
              && (fi_link_count (ss_identity stable) =? 0)
              && (ss_size stable =? len PROBE_CONTENTS));
  _ ← resolver_sync;
  after ← stat_file file;
  _ ← ensure ((fi_device (ss_identity after) =? fi_device (ss_identity stable))
              && (fi_inode (ss_identity after) =? fi_inode (ss_identity stable))
              && (fi_link_count (ss_identity after) =? 0)
              && (ss_size after =? ss_size stable));
  revalidate anchor.

Record DnsExchangePreflight := mkDnsExchangePreflight {
  pf_anchor : DirectoryAnchor;
  pf_target : bytes;
  pf_exchange : bytes;
  pf_baseline : InspectedComponent;
  pf_target_mount_id : Z }.

(** [None] is operational here: [.context(_)] on an absent component. *)
Definition present (anchor : DirectoryAnchor) (name : bytes) : Rx InspectedComponent :=
  observed ← inspect_component_detailed anchor name;
  rx_lift (ok_or observed ExchangeOperational).

Definition preflight_inner (target session : bytes) : Rx DnsExchangePreflight :=
  target ← resolver_component target;
  exchange ← resolver_component (resolver_exchange_file_name session);
  anchor ← directory_open;
  baseline ← present anchor target;
  at_exchange ← inspect_component anchor exchange;
  if bool_decide (is_Some at_exchange) then rx_fail ExchangeConflict else
  target_mount_id ← context (looking_at (statx_mount_id target));
  _ ← ensure (target_mount_id =? da_mount_id anchor);
  _ ← probe_residue_free_primitives anchor;
  _ ← revalidate anchor;
  after_probe ← present anchor target;
  if negb (bool_decide (after_probe = baseline)) then rx_fail ExchangeConflict else
  after_mount_id ← context (looking_at (statx_mount_id target));
  if negb (after_mount_id =? target_mount_id) then rx_fail ExchangeConflict else
  mret (mkDnsExchangePreflight anchor target exchange baseline target_mount_id).

Record PreparedDnsExchange := mkPreparedDnsExchange {
  px_anchor : DirectoryAnchor;
  px_target : bytes;
  px_exchange : bytes;
  px_staged : ObjectId;
  px_resource : DnsResource }.

Definition stage_preflighted (preflight : DnsExchangePreflight) (contents : bytes)
  : Rx PreparedDnsExchange :=
  _ ← ensure (negb (bool_decide (contents = [])));
  _ ← ensure (len contents <=? MAX_RESOLVER_OBJECT_BYTES);
  let anchor := pf_anchor preflight in
  let baseline := pf_baseline preflight in
  _ ← revalidate anchor;
  current ← present anchor (pf_target preflight);
  if negb (bool_decide (current = baseline)) then rx_fail ExchangeConflict else
  at_exchange ← inspect_component anchor (pf_exchange preflight);
  if bool_decide (is_Some at_exchange) then rx_fail ExchangeConflict else
  staged ← create_unnamed_file contents;
  expected_pinned ← expected_linked_object staged contents;
  let resource := mkDnsResource EtcResolvConf (od_identity (ic_object baseline))
                    (od_sha256 (ic_object baseline)) (od_identity expected_pinned)
                    (sha256_digest contents) in
  _ ← ensure (is_ok (DnsResource_validate resource));
  mret (mkPreparedDnsExchange anchor (pf_target preflight) (pf_exchange preflight) staged resource).

(** Linked and active exchanges: the same handle without the staged file. *)
Record LinkedDnsExchange := mkLinkedDnsExchange {
  lx_anchor : DirectoryAnchor;
  lx_target : bytes;
  lx_exchange : bytes;
  lx_resource : DnsResource }.

Definition link_after_journal (p : PreparedDnsExchange) : Rx LinkedDnsExchange :=
  _ ← link_unnamed (px_anchor p) (px_staged p) (px_exchange p);
  _ ← resolver_sync;
  linked ← dns_topology (px_anchor p) (px_target p) (px_exchange p) (px_resource p);
  if negb (bool_decide (linked = TopologyStaged)) then rx_fail ExchangeConflict else
  mret (mkLinkedDnsExchange (px_anchor p) (px_target p) (px_exchange p) (px_resource p)).

Definition original_object (r : DnsResource) : ObservedDnsObject :=
  mkObservedDnsObject (dn_original r) (dn_original_sha256 r).
Definition pinned_object (r : DnsResource) : ObservedDnsObject :=
  mkObservedDnsObject (dn_pinned r) (Some (dn_pinned_sha256 r)).

Definition activate_after_journal (l : LinkedDnsExchange) : Rx LinkedDnsExchange :=
  let topology := dns_topology (lx_anchor l) (lx_target l) (lx_exchange l) (lx_resource l) in
  before ← topology;
  if negb (bool_decide (before = TopologyStaged)) then rx_fail ExchangeConflict else
  _ ← rename_exchange_exact (lx_anchor l) (lx_target l) (original_object (lx_resource l))
        (lx_exchange l) (pinned_object (lx_resource l));
  _ ← resolver_sync;
  after ← topology;
  if negb (bool_decide (after = TopologyActive)) then rx_fail ExchangeConflict else
  mret l.

(** ** Recovery *)

Definition execute_recovery (anchor : DirectoryAnchor) (target exchange : bytes) (resource : DnsResource)
  : Rx () :=
  let topology := dns_topology anchor target exchange resource in
  let original := original_object resource in
  let pinned := pinned_object resource in
  before ← topology;
  plan ← rx_lift (plan_dns_recovery before);
  _ ← (match dp_action plan with
       | ExchangeThenUnlink =>
           _ ← rename_exchange_exact anchor target pinned exchange original;
           _ ← resolver_sync;
           restored ← topology;
           if negb (bool_decide (restored = TopologyStaged)) then rx_fail ExchangeConflict else
           unlink_exact_regular anchor exchange pinned
       | UnlinkStaged => unlink_exact_regular anchor exchange pinned
       | AlreadyAbsent => mret ()
       end : Rx ());
  final ← topology;
  if negb (bool_decide (final = TopologyAbsent)) then rx_fail ExchangeConflict else
  mret ().

Definition inspect_exchange_typed (target session : bytes) (resource : DnsResource)
  : Rx DnsExchangeTopology :=
  target ← resolver_component target;
  exchange ← resolver_component (resolver_exchange_file_name session);
  anchor ← directory_open;
  dns_topology anchor target exchange resource.

Definition recover_exchange_typed (target session : bytes) (resource : DnsResource) : Rx () :=
  target ← resolver_component target;
  exchange ← resolver_component (resolver_exchange_file_name session);
  anchor ← directory_open;
  execute_recovery anchor target exchange resource.
End Resolver.
