(* ===== verification/DnsExchangeSafety.v ===== *)
(** * Safety of the resolver exchange

    About [DnsExchange].  Shown: at every point of the procedure, whatever fails, the two
    names are in one of three arrangements, none of which loses the original; a staged
    resolver is enacted when nothing fails; recovery keeps the arrangements, succeeds when
    nothing fails, and then has restored the directory; it refuses every other state without
    a change; and what it unlinks is the pinned file, also when others interfere.  A run
    without interference is described by [runs], an operation that only looks by [reads]. *)

From S2P Require Import Prelude HostTypes HostState DnsExchange.

(** ** Running without interference *)

(** The machine only consumes turns. *)
Definition onward (w w' : Machine) : Prop :=
  mc_euid w' = mc_euid w ∧ mc_egid w' = mc_egid w ∧ mc_turns w' `suffix_of` mc_turns w.

Definition undisturbed (turns : list Turn) : Prop := ∀ t, t ∈ turns → ∀ d, tu_others t d = d.
Definition faultless (turns : list Turn) : Prop := ∀ t, t ∈ turns → tu_fault t = NoFault.

Lemma onward_refl w : onward w w.
Proof. by repeat split. Qed.
Lemma onward_trans w1 w2 w3 : onward w1 w2 → onward w2 w3 → onward w1 w3.
Proof. intros (?&?&?) (?&?&?). split_and!; [congruence..|]. by etrans. Qed.
Lemma onward_turns (P : Turn → Prop) w w' :
  onward w w' → (∀ t, t ∈ mc_turns w → P t) → ∀ t, t ∈ mc_turns w' → P t.
Proof. intros (_&_&k&Hk) HP t Ht. apply HP. rewrite Hk. set_solver. Qed.

Create HintDb onward.
#[export] Hint Resolve onward_refl : onward.

Section Runs.
Context (uid : Z).

Definition quiet (w : Machine) : Prop := mc_euid w = uid ∧ undisturbed (mc_turns w).

Lemma quiet_onward w w' : onward w w' → quiet w → quiet w'.
Proof.
  intros Hon [He Hu]. split; [by destruct Hon as [-> _]|].
  exact (onward_turns (λ t, ∀ d, tu_others t d = d) _ _ Hon Hu).
Qed.
Lemma faultless_onward w w' : onward w w' → faultless (mc_turns w) → faultless (mc_turns w').
Proof. exact (onward_turns (λ t, tu_fault t = NoFault) w w'). Qed.

(** From the folder [d] the operation ends as [Q] says, or a call has failed and [E] holds. *)
Definition runs {A} (d : Folder) (m : Rx A) (Q : result DnsExchangeFailureKind A → Folder → Prop)
    (E : Folder → Prop) : Prop :=
  ∀ w, quiet w → mc_folder w = d →
  ∃ r w', m w = (r, w') ∧ onward w w' ∧
    (Q r (mc_folder w')
     ∨ r = Err ExchangeOperational ∧ ¬ faultless (mc_turns w) ∧ E (mc_folder w')).

(** An operation that only looks, and what it sees. *)
Definition reads {A} (m : Rx A) (f : Folder → result DnsExchangeFailureKind A) : Prop :=
  ∀ d, runs d m (λ r d', r = f d ∧ d' = d) (λ d', d' = d).

Lemma runs_bind {A B} d (m : Rx A) (k : A → Rx B) (Q1 Q2 : _ → _ → Prop) (E1 E2 : Folder → Prop) :
  runs d m Q1 E1 →
  (∀ a d', Q1 (Ok a) d' → runs d' (k a) Q2 E2) →
  (∀ e d', Q1 (Err e) d' → Q2 (Err e) d') →
  (∀ d', E1 d' → E2 d') →
  runs d (m ≫= k) Q2 E2.
Proof.
  intros Hm Hk Herr HE w Hq Hd. destruct (Hm w Hq Hd) as (r & w1 & Hrun & Hon & Hr).
  cbv [mbind Rx_bind]. rewrite Hrun. destruct Hr as [HQ|(-> & Hf & HE1)].
  - destruct r as [a|e]; [|by exists (Err e), w1; eauto].
    destruct (Hk a _ HQ w1) as (r & w2 & -> & Hon2 & Hr); [eauto using quiet_onward|done|].
    exists r, w2. split; [done|]. split; [by eapply onward_trans|].
    destruct Hr as [?|(-> & Hf & ?)]; [by left|right].
    split_and!; [done| |done]. eauto using faultless_onward.
  - exists (Err ExchangeOperational), w1. eauto 8.
Qed.

Lemma runs_ret {A} d (a : A) (Q : _ → _ → Prop) E : Q (Ok a) d → runs d (mret a) Q E.
Proof. intros HQ w _ <-. exists (Ok a), w. auto with onward. Qed.
Lemma runs_fail {A} d e (Q : _ → _ → Prop) E : Q (Err e) d → runs d (rx_fail (A:=A) e) Q E.
Proof. intros HQ w _ <-. exists (Err e), w. auto with onward. Qed.

Lemma runs_mono {A} d (m : Rx A) (Q1 Q2 : _ → _ → Prop) (E1 E2 : Folder → Prop) :
  runs d m Q1 E1 → (∀ r d', Q1 r d' → Q2 r d') → (∀ d', E1 d' → E2 d') → runs d m Q2 E2.
Proof.
  intros Hm HQ HE w Hq Hd. destruct (Hm w Hq Hd) as (r & w1 & Hrun & Hon & Hr).
  exists r, w1. naive_solver.
Qed.

Lemma reads_ret {A} (a : A) : reads (mret a) (λ _, Ok a).
Proof. intros d. by apply runs_ret. Qed.
Lemma reads_fail {A} e : reads (rx_fail (A:=A) e) (λ _, Err e).
Proof. intros d. by apply runs_fail. Qed.
Lemma reads_lift {A} (x : result DnsExchangeFailureKind A) : reads (rx_lift x) (λ _, x).
Proof. intros d. destruct x; [by apply runs_ret|by apply runs_fail]. Qed.
Lemma reads_ensure b : reads (ensure b) (λ _, if b then Ok () else Err ExchangeOperational).
Proof. destruct b; [apply reads_ret|apply reads_fail]. Qed.
Lemma reads_bind {A B} (m : Rx A) (k : A → Rx B) f g :
  reads m f → (∀ a, reads (k a) (g a)) → reads (m ≫= k) (λ d, a ← f d; g a d).
Proof.
  intros Hm Hk d. eapply runs_bind; [apply Hm| | |done].
  - intros a d' [Hf ->]. eapply runs_mono; [apply Hk| |done]. cbn. rewrite <-Hf. naive_solver.
  - intros e d' [Hf ->]. by rewrite <-Hf.
Qed.
Lemma reads_if {A} (b : bool) (m1 m2 : Rx A) f1 f2 :
  reads m1 f1 → reads m2 f2 → reads (if b then m1 else m2) (λ d, if b then f1 d else f2 d).
Proof. by destruct b. Qed.
Lemma reads_option {A B} (o : option A) (m : A → Rx B) n f g :
  (∀ a, reads (m a) (f a)) → reads n g →
  reads (match o with Some a => m a | None => n end) (λ d, match o with Some a => f a d | None => g d end).
Proof. by destruct o. Qed.
Lemma reads_kind {A} k (m1 m2 : Rx A) f1 f2 :
  reads m1 f1 → reads m2 f2 →
  reads (match k with Regular => m1 | Symlink => m2 end)
    (λ d, match k with Regular => f1 d | Symlink => f2 d end).
Proof. by destruct k. Qed.
Lemma reads_ext {A} (m : Rx A) f g : reads m f → (∀ d, f d = g d) → reads m g.
Proof.
  intros Hm Hfg d. eapply runs_mono; [apply Hm| |done]. intros r d' [-> ->]. by rewrite Hfg.
Qed.

(** What a system call does when nobody interferes. *)
Lemma call_quiet {A} (act : Action A) w : quiet w →
  ∃ now r w', call act w = (r, w') ∧ onward w w' ∧
    (r = (act now (mc_folder w)).1.1 ∧ mc_folder w' = (act now (mc_folder w)).1.2
     ∨ r = Err EIO ∧ ¬ faultless (mc_turns w)
       ∧ (mc_folder w' = mc_folder w ∨ mc_folder w' = (act now (mc_folder w)).1.2)).
Proof.
  intros [_ Hq]. unfold call. destruct (mc_turns w) as [|t turns] eqn:Et; cbn.
  - exists (0, 0). destruct (act (0, 0) (mc_folder w)) as [[r d'] gone].
    eexists _, _. split; [done|]. split; [|by left]. split_and!; cbn; [done..|by rewrite Et].
  - assert (tu_others t (mc_folder w) = mc_folder w) as -> by (apply Hq; left).
    exists (tu_now t). destruct (act (tu_now t) (mc_folder w)) as [[r d'] gone]; cbn.
    assert (tu_fault t ≠ NoFault → ¬ faultless (t :: turns)) as Hf.
    { intros Hf Hno. apply Hf, Hno. left. }
    destruct (tu_fault t); eexists _, _; (split; [done|]);
      (split; [split_and!; cbn; [done..|rewrite Et; by apply suffix_cons_r]|]); cbn; auto 8.
Qed.

Section Call.
Context {A : Type} (act : Action A) (d : Folder) (Q : result DnsExchangeFailureKind A → Folder → Prop)
  (E : Folder → Prop).
Hypothesis Hfail : E d.

Lemma runs_call (g : Errno → DnsExchangeFailureKind) :
  g EIO = ExchangeOperational →
  (∀ now, let '(r, d', _) := act now d in
     E d' ∧ Q (match r with Ok a => Ok a | Err e => Err (g e) end) d') →
  runs d (λ w, match call act w with
               | (Ok a, w') => (Ok a, w')
               | (Err e, w') => (Err (g e), w')
               end) Q E.
Proof.
  intros Hg Hact w Hq <-. destruct (call_quiet act w Hq) as (now & r & w' & -> & Hon & Hr).
  specialize (Hact now). destruct (act now (mc_folder w)) as [[r' d'] gone]; cbn in Hr.
  destruct Hact as [HE HQ]. destruct Hr as [[-> Hd]|(-> & Hf & Hd)].
  - destruct r' as [a|e]; eexists _, w'; (split; [done|split; [done|]]); left; by rewrite Hd.
  - eexists _, w'. split; [done|]. split; [done|]. right. rewrite Hg.
    split_and!; [done..|]. destruct Hd as [->| ->]; done.
Qed.

Lemma runs_context :
  (∀ now, let '(r, d', _) := act now d in
     E d' ∧ Q (match r with Ok a => Ok a | Err _ => Err ExchangeOperational end) d') →
  runs d (context act) Q E.
Proof. exact (runs_call (λ _, ExchangeOperational) eq_refl). Qed.
Lemma runs_raced :
  (∀ now, let '(r, d', _) := act now d in
     E d' ∧ Q (match r with Ok a => Ok a | Err e => Err (syscall_error e) end) d') →
  runs d (raced act) Q E.
Proof. exact (runs_call syscall_error eq_refl). Qed.
End Call.

Lemma reads_context {A} (f : Folder → result Errno A) :
  reads (context (looking_at f))
    (λ d, match f d with Ok a => Ok a | Err _ => Err ExchangeOperational end).
Proof. intros d. by apply runs_context. Qed.
Lemma reads_raced {A} (f : Folder → result Errno A) :
  reads (raced (looking_at f)) (λ d, match f d with Ok a => Ok a | Err e => Err (syscall_error e) end).
Proof. intros d. by apply runs_raced. Qed.
End Runs.

Create HintDb reads.
#[export] Hint Resolve reads_ret reads_fail reads_lift reads_ensure reads_context reads_raced : reads.

(** ** What the observations see *)

Section Seen.
Context `{ResolverDigest} (uid : Z).
Abbreviation reads := (reads uid).

Definition inspected (id : ObjectId) (o : FileObject) : result DnsExchangeFailureKind InspectedComponent :=
  stable ← stable_stat_from_stat (stat_of id o);
  Ok (mkInspectedComponent
        (mkObservedDnsObject (ss_identity stable)
           match fi_kind (ss_identity stable) with
           | Symlink => None
           | Regular => Some (sha256_digest (fo_data o))
           end) stable).

Definition seen (name : bytes) (d : Folder) : result DnsExchangeFailureKind (option InspectedComponent) :=
  match fd_names d !! name with
  | None => Ok None
  | Some id =>
      match fd_objects d !! id with
      | None => Err ExchangeOperational
      | Some o => Some <$> inspected id o
      end
  end.

Definition anchored_at (a : DirectoryAnchor) (d : Folder) : bool :=
  bool_decide (fd_identity d = da_identity a) && (fd_mount_id d =? da_mount_id a).

Definition seen_stable (name : bytes) (d : Folder) : result DnsExchangeFailureKind (option StableStat) :=
  match fstatat name d with
  | Err ENOENT => Ok None
  | Err _ => Err ExchangeOperational
  | Ok stat => Some <$> stable_stat_from_stat stat
  end.
Definition seen_stat (file : ObjectId) (d : Folder) : result DnsExchangeFailureKind StableStat :=
  match fd_objects d !! file with
  | Some o => stable_stat_from_stat (stat_of file o)
  | None => Err ExchangeOperational
  end.

Lemma reads_stable name : reads (stat_component_stable name) (seen_stable name).
Proof.
  intros d w Hq <-. unfold stat_component_stable, seen_stable.
  destruct (call_quiet uid (looking_at (fstatat name)) w Hq) as (now & r & w' & -> & Hon & Hr).
  cbn in Hr. destruct Hr as [[-> Hd]|(-> & Hf & Hd)].
  - destruct (fstatat name (mc_folder w)) as [s|[]]; eexists _, w'; eauto 6.
  - eexists _, w'. split; [done|]. split; [done|]. right. naive_solver.
Qed.

Lemma reads_stat_file file : reads (stat_file file) (seen_stat file).
Proof.
  eapply reads_ext; [apply reads_bind; [apply reads_context|intros; apply reads_lift]|].
  intros d. unfold seen_stat, fstat_fd. by destruct (fd_objects d !! file).
Qed.

Lemma reads_revalidate a : reads (revalidate a) (λ d, if anchored_at a d then Ok () else Err ExchangeConflict).
Proof.
  eapply reads_ext.
  { apply reads_bind; [apply reads_context|]. intros current.
    apply reads_if; [apply reads_fail|]. apply reads_bind; [apply reads_context|]. intros mount_id.
    apply reads_if; [apply reads_fail|apply reads_ret]. }
  intros d. cbn. unfold anchored_at. by repeat case_bool_decide; destruct (_ =? _).
Qed.

(** The loop of reads ends within its fuel and has read the file. *)
Definition read_all (file : ObjectId) (data : bytes) (d : Folder) : result DnsExchangeFailureKind bytes :=
  match fd_objects d !! file with
  | None => Err ExchangeOperational
  | Some o =>
      if MAX_RESOLVER_OBJECT_BYTES <? len (data ++ drop (length data) (fo_data o))
      then Err ExchangeConflict else Ok (data ++ drop (length data) (fo_data o))
  end.

Lemma read_round file data o d :
  len data ≤ MAX_RESOLVER_OBJECT_BYTES → fd_objects d !! file = Some o →
  let n := Z.to_nat (MAX_RESOLVER_OBJECT_BYTES + 1 - len data) in
  let read := take n (drop (length data) (fo_data o)) in
  (if len read =? 0 then Ok data else
   if MAX_RESOLVER_OBJECT_BYTES <? len (data ++ read) then Err ExchangeConflict else
   read_all file (data ++ read) d) = read_all file data d.
Proof.
  intros Hlen Ho n read. unfold read_all. rewrite Ho. set (rest := drop (length data) (fo_data o)) in *.
  assert (length read = n `min` length rest)%nat as Hr by apply length_take.
  unfold len in *. rewrite !length_app.
  destruct (Z.eqb_spec (Z.of_nat (length read)) 0) as [Hz|Hz].
  { assert (length rest = 0)%nat as H0 by lia. apply nil_length_inv in H0. rewrite H0, app_nil_r.
    simpl. destruct (Z.ltb_spec MAX_RESOLVER_OBJECT_BYTES (Z.of_nat (length data + 0))); [lia|done]. }
  destruct (Z.ltb_spec MAX_RESOLVER_OBJECT_BYTES (Z.of_nat (length data + length read))) as [Hbig|Hsmall].
  { destruct (Z.ltb_spec MAX_RESOLVER_OBJECT_BYTES (Z.of_nat (length data + length rest))); [done|lia]. }
  assert (read = rest) as Hrest by (apply take_ge; lia).
  rewrite Hrest, (drop_ge (fo_data o)), app_nil_r; [by rewrite Nat.add_0_r|].
  unfold rest. rewrite length_drop. lia.
Qed.

Lemma reads_loop fuel file : ∀ data,
  len data ≤ MAX_RESOLVER_OBJECT_BYTES →
  (Z.to_nat (MAX_RESOLVER_OBJECT_BYTES + 1 - len data) < fuel)%nat →
  reads (read_loop fuel file data) (read_all file data).
Proof.
  induction fuel as [|fuel IH]; intros data Hlen Hfuel; [lia|]. intros d. cbn [read_loop].
  eapply runs_bind; [apply reads_context| | |done].
  2:{ intros e d' [He ->]. revert He. unfold pread, read_all. destruct (fd_objects d !! file); done. }
  intros read d' [Hread ->]. revert Hread. unfold pread.
  destruct (fd_objects d !! file) as [o|] eqn:Ho; [|done]. intros [= Hread]. subst read.
  rewrite <-(read_round file data o d Hlen Ho).
  set (read := take _ _) in *.
  destruct (Z.eqb_spec (len read) 0); [by apply runs_ret|].
  destruct (Z.ltb_spec MAX_RESOLVER_OBJECT_BYTES (len (data ++ read))) as [|Hle]; [by apply runs_fail|].
  apply IH; [done|]. unfold len in *. rewrite length_app in *. lia.
Qed.

(** More fuel makes no difference, also when others write to the file meanwhile. *)
Lemma read_loop_fuel fuel k file : ∀ data w,
  len data ≤ MAX_RESOLVER_OBJECT_BYTES →
  (Z.to_nat (MAX_RESOLVER_OBJECT_BYTES + 1 - len data) < fuel)%nat →
  read_loop (fuel + k) file data w = read_loop fuel file data w.
Proof.
  induction fuel as [|fuel IH]; intros data w Hlen Hfuel; [lia|]. cbn [read_loop Nat.add].
  cbv [mbind Rx_bind]. destruct (context _ w) as [[read|e] w']; [|done].
  destruct (Z.eqb_spec (len read) 0); [done|].
  destruct (Z.ltb_spec MAX_RESOLVER_OBJECT_BYTES (len (data ++ read))); [done|].
  apply IH; [done|]. unfold len in *. rewrite length_app in *. lia.
Qed.

Lemma stable_stat_size stat s :
  stable_stat_from_stat stat = Ok s →
  ss_size s = st_size stat ∧ st_size stat ≤ MAX_RESOLVER_OBJECT_BYTES.
Proof.
  unfold stable_stat_from_stat. case (Z.ltb_spec MAX_RESOLVER_OBJECT_BYTES (st_size stat)); [done|].
  intros Hle. destruct (identity_from_stat stat); [|done]. intros [= <-]. done.
Qed.

Lemma stable_id id o st :
  stable_stat_from_stat (stat_of id o) = Ok st →
  (fi_device (ss_identity st), fi_inode (ss_identity st)) = id.
Proof.
  unfold stable_stat_from_stat, identity_from_stat. destruct (_ <? _); [done|]. destruct id.
  destruct (_ =? S_IFREG); [by intros [= <-]|]. by destruct (_ =? S_IFLNK); [intros [= <-]|].
Qed.

Definition seen_digest (file : ObjectId) (expected : StableStat) (d : Folder)
  : result DnsExchangeFailureKind bytes :=
  match fd_objects d !! file with
  | None => Err ExchangeOperational
  | Some o =>
      s ← stable_stat_from_stat (stat_of file o);
      if bool_decide (s = expected) then Ok (sha256_digest (fo_data o)) else Err ExchangeConflict
  end.

Lemma reads_digest file expected : reads (digest_stable_file file expected) (seen_digest file expected).
Proof.
  eapply reads_ext.
  { apply reads_bind; [apply reads_stat_file|]. intros before.
    apply reads_if; [apply reads_fail|].
    apply reads_bind; [apply reads_loop; [done|apply Nat.ltb_lt; vm_compute; reflexivity]|]. intros data.
    apply reads_bind; [apply reads_stat_file|]. intros after.
    apply reads_if; [apply reads_fail|apply reads_ret]. }
  intros d. cbn. unfold seen_digest, seen_stat, read_all.
  destruct (fd_objects d !! file) as [o|]; [|done].
  destruct (stable_stat_from_stat (stat_of file o)) as [s|e] eqn:Es; [|done]. cbn.
  destruct (stable_stat_size _ _ Es) as [Hs Hle]. cbn in Hs, Hle.
  case_bool_decide; [|done]. cbn. rewrite drop_0.
  destruct (Z.ltb_spec MAX_RESOLVER_OBJECT_BYTES (len (fo_data o))); [lia|]. cbn.
  rewrite bool_decide_true by done. by rewrite Hs, Z.eqb_refl.
Qed.

Definition seen_from (a : DirectoryAnchor) (name : bytes) (d : Folder)
  : result DnsExchangeFailureKind (option InspectedComponent) :=
  if anchored_at a d then seen name d else Err ExchangeConflict.

Lemma inspected_stable id o c :
  inspected id o = Ok c → stable_stat_from_stat (stat_of id o) = Ok (ic_stable c).
Proof. unfold inspected. destruct (stable_stat_from_stat _); [|done]. by intros [= <-]. Qed.

Lemma seen_stable_seen name d : seen_stable name d = (c ← seen name d; Ok (option_map ic_stable c)).
Proof.
  unfold seen_stable, fstatat, fstat_fd, seen, inspected. cbn.
  destruct (fd_names d !! name) as [id|]; [|done]. cbn.
  destruct (fd_objects d !! id) as [o|]; [|done]. cbn.
  by destruct (stable_stat_from_stat (stat_of id o)).
Qed.

Lemma stable_regular id o s :
  stable_stat_from_stat (stat_of id o) = Ok s → fi_kind (ss_identity s) = Regular →
  (Z.land (fo_mode o) S_IFMT =? S_IFLNK) = false.
Proof.
  unfold stable_stat_from_stat, identity_from_stat. destruct (_ <? _); [done|]. cbn.
  destruct (Z.eqb_spec (Z.land (fo_mode o) S_IFMT) S_IFREG) as [->|].
  { by intros [= <-]. }
  destruct (_ =? S_IFLNK); [|done]. by intros [= <-].
Qed.

Lemma reads_inspect_detailed a name : reads (inspect_component_detailed a name) (seen_from a name).
Proof.
  eapply reads_ext.
  { apply reads_bind; [apply reads_revalidate|]. intros valid.
    apply reads_bind; [apply reads_stable|]. intros before'.
    apply reads_option; [|apply reads_ret]. intros before.
    apply reads_bind.
    { apply reads_kind; [|apply reads_ret].
      apply reads_bind; [apply reads_raced|]. intros file.
      apply reads_bind; [apply reads_digest|]. intros digest. apply reads_ret. }
    intros sha256. apply reads_bind; [apply reads_stable|]. intros after.
    apply reads_if; [apply reads_fail|apply reads_ret]. }
  intros d. cbn. unfold seen_from. destruct (anchored_at a d); [|done]. cbn.
  rewrite seen_stable_seen. unfold seen, open_nofollow, seen_digest.
  destruct (fd_names d !! name) as [id|] eqn:En; [|done].
  destruct (fd_objects d !! id) as [o|] eqn:Eo; [|done]. cbn. unfold inspected.
  destruct (stable_stat_from_stat (stat_of id o)) as [s|e] eqn:Es; [|done]. cbn.
  destruct (fi_kind (ss_identity s)) eqn:Ek; cbn.
  - rewrite Eo. cbn. rewrite (stable_regular _ _ _ Es Ek). cbn. rewrite Eo, Es. cbn.
    rewrite bool_decide_true by done. cbn. by rewrite bool_decide_true.
  - by rewrite bool_decide_true.
Qed.

Definition observed (name : bytes) (d : Folder) : result DnsExchangeFailureKind (option ObservedDnsObject) :=
  c ← seen name d; Ok (option_map ic_object c).

Lemma reads_inspect a name :
  reads (inspect_component a name) (λ d, if anchored_at a d then observed name d else Err ExchangeConflict).
Proof.
  eapply reads_ext; [apply reads_bind; [apply reads_inspect_detailed|intros; apply reads_ret]|].
  intros d. cbn. unfold seen_from, observed. by destruct (anchored_at a d).
Qed.

Lemma reads_topology a target exchange r :
  reads (dns_topology a target exchange r)
    (λ d, if anchored_at a d then
            t ← observed target d; x ← observed exchange d; Ok (classify_dns_exchange r t x)
          else Err ExchangeConflict).
Proof.
  eapply reads_ext.
  { apply reads_bind; [apply reads_inspect|]. intros t.
    apply reads_bind; [apply reads_inspect|]. intros x. apply reads_ret. }
  intros d. cbn. by destruct (anchored_at a d).
Qed.

Definition seen_exactly (a : DirectoryAnchor) (name : bytes) (expected : ObservedDnsObject) (d : Folder)
  : result DnsExchangeFailureKind StableStat :=
  observed ← seen_from a name d;
  match observed with
  | None => Err ExchangeConflict
  | Some observed =>
      if negb (bool_decide (ic_object observed = expected)) then Err ExchangeConflict
      else Ok (ic_stable observed)
  end.

Lemma reads_expect a name expected :
  reads (expect_component a name expected) (seen_exactly a name expected).
Proof.
  apply reads_bind; [apply reads_inspect_detailed|]. intros c.
  apply reads_option; [|apply reads_fail]. intros i. apply reads_if; [apply reads_fail|apply reads_ret].
Qed.

Lemma reads_still name stable :
  reads (still_stable name stable)
    (λ d, current ← seen_stable name d; Ok (bool_decide (current = Some stable))).
Proof. apply reads_bind; [apply reads_stable|]. intros c. apply reads_ret. Qed.

(** A name at which an exact object is. *)
Definition holds (name : bytes) (c : InspectedComponent) (d : Folder) : Prop := seen name d = Ok (Some c).

Lemma seen_exactly_holds a name c d :
  anchored_at a d = true → holds name c d → seen_exactly a name (ic_object c) d = Ok (ic_stable c).
Proof.
  unfold holds, seen_exactly, seen_from. intros -> ->. cbn. by rewrite bool_decide_true.
Qed.
Lemma seen_stable_holds name c d : holds name c d → seen_stable name d = Ok (Some (ic_stable c)).
Proof. unfold holds. rewrite seen_stable_seen. by intros ->. Qed.
End Seen.

(** ** What the mutations do *)

Section Mutations.
Context `{ResolverDigest} (uid : Z).
Abbreviation reads := (reads uid).
Abbreviation runs := (runs uid).

Lemma runs_read {A B} d (m : Rx A) f a (k : A → Rx B) Q (E : Folder → Prop) :
  reads m f → f d = Ok a → E d → runs d (k a) Q E → runs d (m ≫= k) Q E.
Proof.
  intros Hm Hf HE Hk. eapply runs_bind; [apply Hm| | |by intros d' ->]; rewrite Hf.
  - by intros a' d' [[= ->] ->].
  - by intros e d' [? _].
Qed.
Lemma runs_read_err {A B} d (m : Rx A) f e (k : A → Rx B) (Q : _ → _ → Prop) (E : Folder → Prop) :
  reads m f → f d = Err e → E d → Q (Err e) d → runs d (m ≫= k) Q E.
Proof.
  intros Hm Hf HE HQ. eapply runs_bind; [apply Hm| | |by intros d' ->]; rewrite Hf.
  - by intros a' d' [? _].
  - by intros e' d' [[= ->] ->].
Qed.
Lemma runs_sync {B} d (k : () → Rx B) Q (E : Folder → Prop) :
  E d → runs d (k ()) Q E → runs d (resolver_sync ≫= k) Q E.
Proof. intros HE Hk. by apply (runs_read _ _ _ () _ _ _ (reads_context uid _)). Qed.

Definition swapped (first second : bytes) (a b : ObjectId) (now : Z * Z) (d : Folder) : Folder :=
  touch a (set_nlink 0 now) (touch b (set_nlink 0 now)
    (folder_names d (<[first := b]> (<[second := a]> (fd_names d))))).
Definition unlinked (name : bytes) (id : ObjectId) (now : Z * Z) (d : Folder) : Folder :=
  touch id (set_nlink (-1) now) (folder_names d (delete name (fd_names d))).
Definition linked (id : ObjectId) (name : bytes) (now : Z * Z) (d : Folder) : Folder :=
  touch id (set_nlink 1 now) (folder_names d (<[name := id]> (fd_names d))).

Section Exact.
Context (an : DirectoryAnchor) (d : Folder) (E : Folder → Prop).
Hypothesis Han : anchored_at an d = true.
Hypothesis HE : E d.

Lemma runs_rename_exact first second a b c1 c2 (Q : _ → _ → Prop) :
  fd_names d !! first = Some a → fd_names d !! second = Some b →
  holds first c1 d → holds second c2 d →
  (∀ now, E (swapped first second a b now d) ∧ Q (Ok ()) (swapped first second a b now d)) →
  runs d (rename_exchange_exact an first (ic_object c1) second (ic_object c2)) Q E.
Proof.
  intros Ha Hb H1 H2 HQ. unfold rename_exchange_exact.
  apply (runs_read _ _ _ _ _ _ _ (reads_expect uid _ _ _) (seen_exactly_holds _ _ _ _ Han H1) HE).
  apply (runs_read _ _ _ _ _ _ _ (reads_expect uid _ _ _) (seen_exactly_holds _ _ _ _ Han H2) HE).
  eapply (runs_read _ _ _ true); [apply reads_still| |done|cbn].
  { cbn. rewrite (seen_stable_holds _ _ _ H1). cbn. by rewrite bool_decide_true. }
  eapply (runs_read _ _ _ true); [apply reads_still| |done|cbn].
  { cbn. rewrite (seen_stable_holds _ _ _ H2). cbn. by rewrite bool_decide_true. }
  apply runs_raced; [done|]. intros now. unfold renameat2_exchange. rewrite Ha, Hb. apply HQ.
Qed.

Lemma digest_holds name id o c :
  fd_names d !! name = Some id → fd_objects d !! id = Some o → holds name c d →
  fi_kind (od_identity (ic_object c)) = Regular →
  seen_digest id (ic_stable c) d = Ok (sha256_digest (fo_data o))
  ∧ od_sha256 (ic_object c) = Some (sha256_digest (fo_data o))
  ∧ open_nofollow name d = Ok id
  ∧ (fi_device (ss_identity (ic_stable c)), fi_inode (ss_identity (ic_stable c))) = id.
Proof.
  unfold holds, seen, seen_digest, open_nofollow. intros Hn Ho. rewrite Hn, Ho. cbn. unfold inspected.
  destruct (stable_stat_from_stat (stat_of id o)) as [s|] eqn:Es; [|done]. cbn.
  intros [= <-]. cbn. intros Hk. rewrite bool_decide_true, Hk by done.
  rewrite Ho. cbn. rewrite (stable_regular _ _ _ Es Hk).
  split_and!; [done..|]. exact (stable_id _ _ _ Es).
Qed.

Lemma open_exact_holds name id o c :
  fd_names d !! name = Some id → fd_objects d !! id = Some o → holds name c d →
  fi_kind (od_identity (ic_object c)) = Regular →
  ∃ f, reads (open_exact_regular an name (ic_object c)) f ∧ f d = Ok (id, ic_stable c).
Proof.
  intros Hn Ho Hc Hk. destruct (digest_holds _ _ _ _ Hn Ho Hc Hk) as (Hdig & Hsha & Hopen & _).
  eexists. split.
  { apply reads_bind; [apply reads_ensure|]. intros valid.
    apply reads_bind; [apply reads_expect|]. intros before.
    apply reads_bind; [apply reads_raced|]. intros file.
    apply reads_bind; [apply reads_digest|]. intros digest. apply reads_if; [apply reads_fail|].
    apply reads_bind; [apply reads_still|]. intros same. apply reads_if; [apply reads_fail|apply reads_ret]. }
  cbn. rewrite Hk, Hsha, (bool_decide_true (Regular = Regular)), bool_decide_true by done. cbn.
  rewrite (seen_exactly_holds _ _ _ _ Han Hc). cbn. rewrite Hopen. cbn. rewrite Hdig. cbn.
  rewrite bool_decide_true by done. cbn. rewrite (seen_stable_holds _ _ _ Hc). cbn.
  by rewrite bool_decide_true.
Qed.

Lemma runs_unlink_exact name id o c (Q : _ → _ → Prop) :
  fd_names d !! name = Some id → fd_objects d !! id = Some o → holds name c d →
  fi_kind (od_identity (ic_object c)) = Regular → fo_nlink o = 1 →
  (∀ now, E (unlinked name id now d) ∧ Q (Ok ()) (unlinked name id now d)) →
  runs d (unlink_exact_regular an name (ic_object c)) Q E.
Proof.
  intros Hn Ho Hc Hk Hlink HQ. unfold unlink_exact_regular.
  destruct (digest_holds _ _ _ _ Hn Ho Hc Hk) as (Hdig & Hsha & _ & Hid).
  destruct (open_exact_holds _ _ _ _ Hn Ho Hc Hk) as (f & Hf & Hopen).
  apply (runs_read _ _ _ _ _ _ _ Hf Hopen HE). cbn.
  apply (runs_read _ _ _ _ _ _ _ (reads_digest uid _ _) Hdig HE).
  rewrite Hsha, bool_decide_true by done. cbn.
  eapply (runs_read _ _ _ true); [apply reads_still| |done|cbn].
  { cbn. rewrite (seen_stable_holds _ _ _ Hc). cbn. by rewrite bool_decide_true. }
  apply (runs_bind _ _ _ _ (λ r d', r = Ok () ∧ ∃ now, d' = unlinked name id now d) _ E);
    [|intros [] d' [_ [now ->]]|naive_solver|done].
  { apply runs_raced; [done|]. intros now. unfold unlinkat_name. rewrite Hn.
    split; [apply HQ|eauto]. }
  eapply runs_read; [apply reads_context| |apply HQ|].
  { unfold unlinked, touch, fstat_fd. cbn. rewrite Ho. cbn. by rewrite lookup_insert_eq. }
  subst id. cbn. rewrite !Z.eqb_refl, Hlink. cbn.
  apply runs_context; [apply HQ|]. intros now'. apply HQ.
Qed.
End Exact.
End Mutations.

(** ** The three arrangements of the two names *)

(** The same file, except for its change time. *)
Definition like (o o' : FileObject) : Prop :=
  ∃ ctime, o' = mkFileObject (fo_uid o) (fo_gid o) (fo_mode o) (fo_nlink o) (fo_mtime o) ctime (fo_data o).

Lemma like_refl o : like o o.
Proof. exists (fo_ctime o). by destruct o. Qed.
Lemma like_trans o1 o2 o3 : like o1 o2 → like o2 o3 → like o1 o3.
Proof. intros [? ->] [? ->]. by eexists. Qed.
Lemma like_touched now o : like o (set_nlink 0 now o).
Proof. exists now. unfold set_nlink. by rewrite Z.add_0_r. Qed.
#[export] Hint Resolve like_refl like_touched : core.

Lemma touch_objects id f d i :
  fd_objects (touch id f d) !! i = (if decide (i = id) then f <$> fd_objects d !! i else fd_objects d !! i).
Proof.
  unfold touch. destruct (fd_objects d !! id) as [o|] eqn:Eo; cbn.
  - case_decide as Hi; [subst i; by rewrite lookup_insert_eq, Eo|by rewrite lookup_insert_ne].
  - case_decide as Hi; [subst i; by rewrite Eo|done].
Qed.
Lemma touch_rest id f d :
  fd_names (touch id f d) = fd_names d ∧ fd_identity (touch id f d) = fd_identity d
  ∧ fd_mount_id (touch id f d) = fd_mount_id d.
Proof. unfold touch. by destruct (fd_objects d !! id). Qed.

(** Everything that was in the folder is there, up to change times. *)
Definition retains (d0 d : Folder) : Prop :=
  ∀ id o, fd_objects d0 !! id = Some o → ∃ o', fd_objects d !! id = Some o' ∧ like o o'.

Lemma retains_touch d0 d id f :
  retains d0 d → (∀ o o', fd_objects d0 !! id = Some o → like o o' → like o (f o')) →
  retains d0 (touch id f d).
Proof.
  intros Hr Hf i o Hi. destruct (Hr i o Hi) as (o' & Ho' & Hl). rewrite touch_objects, Ho'.
  case_decide as Hid; [subst i|eauto]. exists (f o'). eauto.
Qed.

Section Scene.
Context `{ResolverDigest}.

(** What is fixed once a resolver is staged: the folder as it was, the names, the files. *)
Record Scene := mkScene {
  sc_before : Folder;
  sc_target : bytes;
  sc_exchange : bytes;
  sc_original : ObjectId;
  sc_pinned : ObjectId;
  sc_pin : FileObject;
  sc_resource : DnsResource }.
Implicit Types (s : Scene).

Definition inspects (id : ObjectId) (o : FileObject) (obj : ObservedDnsObject) : Prop :=
  ∃ c, inspected id o = Ok c ∧ ic_object c = obj.

Record staged_scene s : Prop := {
  sg_target : fd_names (sc_before s) !! sc_target s = Some (sc_original s);
  sg_exchange : fd_names (sc_before s) !! sc_exchange s = None;
  sg_original : ∃ o, fd_objects (sc_before s) !! sc_original s = Some o
                     ∧ inspects (sc_original s) o (original_object (sc_resource s));
  sg_fresh : fd_objects (sc_before s) !! sc_pinned s = None;
  sg_pinned : inspects (sc_pinned s) (sc_pin s) (pinned_object (sc_resource s));
  sg_link : fo_nlink (sc_pin s) = 1 }.

Definition layout s (a : DnsExchangeTopology) : gmap bytes ObjectId :=
  let base := fd_names (sc_before s) in
  match a with
  | TopologyActive => <[sc_target s := sc_pinned s]> (<[sc_exchange s := sc_original s]> base)
  | TopologyStaged => <[sc_exchange s := sc_pinned s]> base
  | TopologyAbsent | TopologyConflict => base
  end.

Record placed s (a : DnsExchangeTopology) (d : Folder) : Prop := {
  pl_identity : fd_identity d = fd_identity (sc_before s);
  pl_mount : fd_mount_id d = fd_mount_id (sc_before s);
  pl_known : a ≠ TopologyConflict;
  pl_names : fd_names d = layout s a;
  pl_retains : retains (sc_before s) d;
  pl_pinned : a ≠ TopologyAbsent → ∃ q, fd_objects d !! sc_pinned s = Some q ∧ like (sc_pin s) q }.

(** Before the link the staged file is there without a name. *)
Record ready s (d : Folder) : Prop := {
  rd_placed : placed s TopologyAbsent d;
  rd_unnamed : ∃ q, fd_objects d !! sc_pinned s = Some q
                    ∧ ∀ now, like (sc_pin s) (set_nlink 1 now q) }.

Lemma scene_distinct s :
  staged_scene s → sc_target s ≠ sc_exchange s ∧ sc_original s ≠ sc_pinned s.
Proof.
  intros [Ht Hx (o & Ho & _) Hf _ _]. split; intros E; [rewrite E in Ht|rewrite E in Ho]; congruence.
Qed.

Lemma inspects_like id o o' obj : like o o' → inspects id o obj → inspects id o' obj.
Proof.
  intros [ct ->] (c & Hc & <-). revert Hc. unfold inspects, inspected, stable_stat_from_stat, stat_of; cbn.
  destruct (_ <? _); [done|]. unfold identity_from_stat; cbn.
  destruct (_ =? S_IFREG); [intros [= <-]; eexists; split; [done|done]|].
  destruct (_ =? S_IFLNK); [intros [= <-]; eexists; split; [done|done]|done].
Qed.

Lemma inspected_id id o obj :
  inspects id o obj → (fi_device (od_identity obj), fi_inode (od_identity obj)) = id.
Proof.
  intros (c & Hc & <-). revert Hc. unfold inspected.
  destruct (stable_stat_from_stat (stat_of id o)) as [st|] eqn:Est; [|done]. intros [= <-].
  exact (stable_id _ _ _ Est).
Qed.

(** What is at the two names. *)
Lemma placed_at d name id obj :
  fd_names d !! name = Some id → (∃ o, fd_objects d !! id = Some o ∧ inspects id o obj) →
  ∃ c, holds name c d ∧ ic_object c = obj.
Proof.
  intros Hn (o & Ho & c & Hc & <-). exists c. split; [|done].
  unfold holds, seen. by rewrite Hn, Ho, Hc.
Qed.

Lemma placed_original s a d :
  staged_scene s → placed s a d →
  ∃ o, fd_objects d !! sc_original s = Some o
       ∧ inspects (sc_original s) o (original_object (sc_resource s)).
Proof.
  intros Hs Hp. destruct (sg_original _ Hs) as (o & Ho & Hi).
  destruct (pl_retains _ _ _ Hp _ _ Ho) as (o' & Ho' & Hl). eauto using inspects_like.
Qed.
Lemma placed_pinned s a d :
  staged_scene s → placed s a d → a ≠ TopologyAbsent →
  ∃ q, fd_objects d !! sc_pinned s = Some q
       ∧ inspects (sc_pinned s) q (pinned_object (sc_resource s)) ∧ fo_nlink q = 1.
Proof.
  intros Hs Hp Ha. destruct (pl_pinned _ _ _ Hp Ha) as (q & Hq & Hl). exists q.
  split; [done|]. split; [eauto using inspects_like, sg_pinned|]. destruct Hl as [? ->].
  exact (sg_link _ Hs).
Qed.

Lemma holds_observed name c d : holds name c d → observed name d = Ok (Some (ic_object c)).
Proof. unfold holds, observed. by intros ->. Qed.

Lemma matches_exact obj identity digest :
  object_matches (Some obj) identity digest = bool_decide (obj = mkObservedDnsObject identity digest).
Proof.
  destruct obj as [i h]. cbn. destruct (decide (i = identity)) as [->|Hi].
  - rewrite (bool_decide_true (identity = identity)) by done. cbn.
    apply bool_decide_ext. split; [by intros ->|congruence].
  - rewrite (bool_decide_false (i = identity)) by done. cbn. symmetry. apply bool_decide_false. congruence.
Qed.

(** [classify_dns_exchange] by what is at the two names. *)
Lemma classify_exact r target exchange :
  original_object r ≠ pinned_object r →
  classify_dns_exchange r target exchange =
    if bool_decide (target = Some (pinned_object r) ∧ exchange = Some (original_object r))
    then TopologyActive else
    if bool_decide (target = Some (original_object r)) then
      if bool_decide (exchange = Some (pinned_object r)) then TopologyStaged else
      if bool_decide (exchange = None) then TopologyAbsent else TopologyConflict
    else TopologyConflict.
Proof.
  intros Hne. unfold classify_dns_exchange.
  destruct target as [t|], exchange as [x|]; rewrite ?matches_exact; fold (original_object r);
    fold (pinned_object r); cbn; repeat case_bool_decide; naive_solver.
Qed.

Lemma scene_objects s : staged_scene s → original_object (sc_resource s) ≠ pinned_object (sc_resource s).
Proof.
  intros Hs E. destruct (scene_distinct _ Hs) as [_ Hne]. destruct (sg_original _ Hs) as (o & _ & Ho).
  apply Hne. rewrite <-(inspected_id _ _ _ Ho), <-(inspected_id _ _ _ (sg_pinned _ Hs)). by rewrite E.
Qed.

(** The names and what is at them, in the arrangement [a]. *)
Lemma placed_names s a d :
  staged_scene s → placed s a d →
  fd_names d !! sc_target s
    = Some match a with TopologyActive => sc_pinned s | _ => sc_original s end
  ∧ fd_names d !! sc_exchange s
    = match a with
      | TopologyActive => Some (sc_original s)
      | TopologyStaged => Some (sc_pinned s)
      | _ => None
      end.
Proof.
  intros Hs Hp. destruct (scene_distinct _ Hs) as [Hne _]. rewrite (pl_names _ _ _ Hp).
  destruct Hs as [Ht Hx _ _ _ _].
  destruct a; cbn; rewrite ?lookup_insert_eq, ?lookup_insert_ne, ?lookup_insert_eq by done; done.
Qed.

Lemma placed_holds s a d :
  staged_scene s → placed s a d →
  let original c := ic_object c = original_object (sc_resource s) in
  let pinned c := ic_object c = pinned_object (sc_resource s) in
  match a with
  | TopologyActive => ∃ c1 c2, holds (sc_target s) c1 d ∧ pinned c1 ∧ holds (sc_exchange s) c2 d ∧ original c2
  | TopologyStaged => ∃ c1 c2, holds (sc_target s) c1 d ∧ original c1 ∧ holds (sc_exchange s) c2 d ∧ pinned c2
  | _ => ∃ c1, holds (sc_target s) c1 d ∧ original c1 ∧ fd_names d !! sc_exchange s = None
  end.
Proof.
  intros Hs Hp. destruct (placed_names _ _ _ Hs Hp) as [Ht Hx].
  destruct (placed_original _ _ _ Hs Hp) as (o & Ho & Hio).
  assert (a ≠ TopologyAbsent → ∃ q, fd_objects d !! sc_pinned s = Some q
          ∧ inspects (sc_pinned s) q (pinned_object (sc_resource s))) as Hq.
  { intros Ha. destruct (placed_pinned _ _ _ Hs Hp Ha) as (q & ? & ? & _). eauto. }
  pose proof (λ name Hn, placed_at d name _ _ Hn (ex_intro _ o (conj Ho Hio))) as Horig.
  assert (a ≠ TopologyAbsent → ∀ name, fd_names d !! name = Some (sc_pinned s) →
          ∃ c, holds name c d ∧ ic_object c = pinned_object (sc_resource s)) as Hpin.
  { intros Ha name Hn. exact (placed_at _ _ _ _ Hn (Hq Ha)). }
  destruct a; cbn in *.
  - destruct (Hpin ltac:(done) _ Ht) as (c1 & ? & ?), (Horig _ Hx) as (c2 & ? & ?). eauto 8.
  - destruct (Hpin ltac:(done) _ Hx) as (c2 & ? & ?), (Horig _ Ht) as (c1 & ? & ?). eauto 8.
  - destruct (Horig _ Ht) as (c1 & ? & ?). eauto.
  - destruct (Horig _ Ht) as (c1 & ? & ?). eauto.
Qed.

Definition scene_anchor s (an : DirectoryAnchor) : Prop :=
  da_identity an = fd_identity (sc_before s) ∧ da_mount_id an = fd_mount_id (sc_before s).

Lemma placed_anchored s an a d : scene_anchor s an → placed s a d → anchored_at an d = true.
Proof.
  intros [Hi Hm] Hp. unfold anchored_at.
  by rewrite (pl_identity _ _ _ Hp), (pl_mount _ _ _ Hp), Hi, Hm, bool_decide_true, Z.eqb_refl.
Qed.

Lemma placed_topology s a d :
  staged_scene s → placed s a d →
  (t ← observed (sc_target s) d; x ← observed (sc_exchange s) d;
   Ok (classify_dns_exchange (sc_resource s) t x)) = Ok a.
Proof.
  intros Hs Hp. pose proof (scene_objects _ Hs) as Hne. pose proof (placed_holds _ _ _ Hs Hp) as Hh.
  pose proof (pl_known _ _ _ Hp).
  assert (fd_names d !! sc_exchange s = None → observed (sc_exchange s) d = Ok None) as Hnone.
  { unfold observed, seen. by intros ->. }
  destruct a; cbn in Hh; [| | |done]; destruct_and?; destruct Hh as (c1 & Hh).
  1,2: destruct Hh as (c2 & H1 & E1 & H2 & E2);
    rewrite (holds_observed _ _ _ H1), (holds_observed _ _ _ H2); cbn; rewrite E1, E2.
  3: destruct Hh as (H1 & E1 & Hx); rewrite (holds_observed _ _ _ H1), (Hnone Hx); cbn; rewrite E1.
  all: rewrite classify_exact by done; f_equal; repeat case_bool_decide; naive_solver.
Qed.

(** ** The moves between the arrangements *)

Lemma touch_placed s a d id f :
  placed s a d →
  (∀ o o', fd_objects (sc_before s) !! id = Some o → like o o' → like o (f o')) →
  (id = sc_pinned s → a ≠ TopologyAbsent → ∀ q, like (sc_pin s) q → like (sc_pin s) (f q)) →
  placed s a (touch id f d).
Proof.
  intros [Hi Hm Hk Hn Hr Hp] Ho Hq. destruct (touch_rest id f d) as (En & Ei & Em).
  split; [congruence..|by apply retains_touch|]. intros Ha. destruct (Hp Ha) as (q & Eq & Hl).
  rewrite touch_objects, Eq. case_decide as Hid; [|eauto]. exists (f q). eauto.
Qed.
Lemma retouch_placed s a d id now : placed s a d → placed s a (touch id (set_nlink 0 now) d).
Proof. intros Hp. apply touch_placed; eauto using like_trans. Qed.
Lemma placed_objects s a a' d d' :
  placed s a d → fd_identity d' = fd_identity d → fd_mount_id d' = fd_mount_id d →
  fd_objects d' = fd_objects d → fd_names d' = layout s a' → a' ≠ TopologyConflict →
  (a = TopologyAbsent → a' = TopologyAbsent) → placed s a' d'.
Proof.
  intros [Hi Hm Hk Hn Hr Hp] Hi' Hm' Ho' Hn' Hk' Ha. split; [congruence..| |].
  - unfold retains. rewrite Ho'. exact Hr.
  - rewrite Ho'. eauto.
Qed.

Lemma activate_placed s d now :
  staged_scene s → placed s TopologyStaged d →
  placed s TopologyActive
    (swapped (sc_target s) (sc_exchange s) (sc_original s) (sc_pinned s) now d).
Proof.
  intros Hs Hp. unfold swapped. do 2 apply retouch_placed. eapply placed_objects; [done..|cbn| |]; [|done..].
  rewrite (pl_names _ _ _ Hp). cbn. by rewrite insert_insert_eq.
Qed.
Lemma restore_placed s d now :
  staged_scene s → placed s TopologyActive d →
  placed s TopologyStaged
    (swapped (sc_target s) (sc_exchange s) (sc_pinned s) (sc_original s) now d).
Proof.
  intros Hs Hp. unfold swapped. do 2 apply retouch_placed. eapply placed_objects; [done..|cbn| |]; [|done..].
  rewrite (pl_names _ _ _ Hp). cbn. destruct (scene_distinct _ Hs) as [Hne _].
  apply map_eq. intros n. destruct (decide (n = sc_target s)) as [->|];
    [|destruct (decide (n = sc_exchange s)) as [->|]];
    rewrite ?lookup_insert_eq, ?lookup_insert_ne, ?lookup_insert_eq by done; [|done..].
  by rewrite (sg_target _ Hs).
Qed.
Lemma unlink_placed s d now :
  staged_scene s → placed s TopologyStaged d →
  placed s TopologyAbsent (unlinked (sc_exchange s) (sc_pinned s) now d).
Proof.
  intros Hs Hp. unfold unlinked. apply touch_placed; [|by rewrite (sg_fresh _ Hs)|done].
  eapply placed_objects; [done..|cbn| |]; [|done..].
  rewrite (pl_names _ _ _ Hp). cbn. by rewrite delete_insert_id by apply (sg_exchange _ Hs).
Qed.
Lemma link_placed s d now :
  staged_scene s → ready s d →
  placed s TopologyStaged (linked (sc_pinned s) (sc_exchange s) now d).
Proof.
  intros Hs [[Hi Hm _ Hn Hr _] (q & Hq & Hl)]. unfold linked.
  destruct (touch_rest (sc_pinned s) (set_nlink 1 now)
    (folder_names d (<[sc_exchange s := sc_pinned s]> (fd_names d)))) as (En & Ei & Em).
  split; [rewrite Ei; done|rewrite Em; done|done|rewrite En; cbn; by rewrite Hn| |].
  - apply retains_touch; [done|]. by rewrite (sg_fresh _ Hs).
  - intros _. rewrite touch_objects, decide_True by done. cbn. rewrite Hq. eauto.
Qed.
End Scene.

(** ** The operations, without interference *)

Section Operations.
Context `{ResolverDigest} (uid : Z) (s : Scene) (an : DirectoryAnchor).
Hypothesis Hs : staged_scene s.
Hypothesis Han : scene_anchor s an.
Abbreviation runs := (runs uid).

(** One of the arrangements. *)
Definition arranged (d : Folder) : Prop := ∃ a, placed s a d.

Lemma placed_arranged a d : placed s a d → arranged d.
Proof. by exists a. Qed.
#[local] Hint Resolve placed_arranged : core.

Lemma runs_topology {B} a d (k : DnsExchangeTopology → Rx B) Q :
  placed s a d → runs d (k a) Q arranged →
  runs d (dns_topology an (sc_target s) (sc_exchange s) (sc_resource s) ≫= k) Q arranged.
Proof.
  intros Hp Hk. eapply runs_read; [apply reads_topology| |eauto|done]. cbn.
  rewrite (placed_anchored _ _ _ _ Han Hp). by apply placed_topology.
Qed.

Lemma runs_activate_swap d (Q : _ → _ → Prop) :
  placed s TopologyStaged d → (∀ d', placed s TopologyActive d' → Q (Ok ()) d') →
  runs d (rename_exchange_exact an (sc_target s) (original_object (sc_resource s))
            (sc_exchange s) (pinned_object (sc_resource s))) Q arranged.
Proof.
  intros Hp HQ. destruct (placed_holds _ _ _ Hs Hp) as (c1 & c2 & H1 & <- & H2 & <-).
  destruct (placed_names _ _ _ Hs Hp) as [Ht Hx].
  apply (runs_rename_exact uid an d arranged (placed_anchored _ _ _ _ Han Hp) (placed_arranged _ _ Hp)
           _ _ _ _ _ _ _ Ht Hx H1 H2).
  intros now. pose proof (activate_placed _ _ now Hs Hp). eauto.
Qed.
Lemma runs_restore_swap d (Q : _ → _ → Prop) :
  placed s TopologyActive d → (∀ d', placed s TopologyStaged d' → Q (Ok ()) d') →
  runs d (rename_exchange_exact an (sc_target s) (pinned_object (sc_resource s))
            (sc_exchange s) (original_object (sc_resource s))) Q arranged.
Proof.
  intros Hp HQ. destruct (placed_holds _ _ _ Hs Hp) as (c1 & c2 & H1 & <- & H2 & <-).
  destruct (placed_names _ _ _ Hs Hp) as [Ht Hx].
  apply (runs_rename_exact uid an d arranged (placed_anchored _ _ _ _ Han Hp) (placed_arranged _ _ Hp)
           _ _ _ _ _ _ _ Ht Hx H1 H2).
  intros now. pose proof (restore_placed _ _ now Hs Hp). eauto.
Qed.

Lemma pinned_regular : fi_kind (od_identity (pinned_object (sc_resource s))) = Regular.
Proof.
  destruct (sg_pinned _ Hs) as (c & Hc & <-). revert Hc. unfold inspected.
  destruct (sg_pinned _ Hs) as (c' & Hc' & E). revert Hc'. unfold inspected.
  destruct (stable_stat_from_stat _) as [st|]; [|done]. cbn. intros [= <-] [= <-]. cbn in *.
  by destruct (fi_kind (ss_identity st)).
Qed.

Lemma runs_unlink_pinned d (Q : _ → _ → Prop) :
  placed s TopologyStaged d → (∀ d', placed s TopologyAbsent d' → Q (Ok ()) d') →
  runs d (unlink_exact_regular an (sc_exchange s) (pinned_object (sc_resource s))) Q arranged.
Proof.
  intros Hp HQ. destruct (placed_holds _ _ _ Hs Hp) as (c1 & c2 & H1 & _ & H2 & E2).
  destruct (placed_names _ _ _ Hs Hp) as [_ Hx].
  destruct (placed_pinned _ _ _ Hs Hp) as (q & Hq & _ & Hl); [done|].
  pose proof pinned_regular as Hk. rewrite <-E2 in *.
  apply (runs_unlink_exact uid an d arranged (placed_anchored _ _ _ _ Han Hp) (placed_arranged _ _ Hp)
           _ _ _ _ _ Hx Hq H2 Hk Hl).
  intros now. pose proof (unlink_placed _ _ now Hs Hp). eauto.
Qed.

(** The last look of recovery. *)
Lemma runs_final d :
  placed s TopologyAbsent d →
  runs d (final ← dns_topology an (sc_target s) (sc_exchange s) (sc_resource s);
          if negb (bool_decide (final = TopologyAbsent)) then rx_fail ExchangeConflict else mret ())
    (λ r d', r = Ok () ∧ placed s TopologyAbsent d') arranged.
Proof. intros Hp. apply (runs_topology _ _ _ _ Hp). by apply runs_ret. Qed.

Lemma runs_execute_recovery a d :
  placed s a d →
  runs d (execute_recovery an (sc_target s) (sc_exchange s) (sc_resource s))
    (λ r d', r = Ok () ∧ placed s TopologyAbsent d') arranged.
Proof.
  intros Hp. unfold execute_recovery. apply (runs_topology _ _ _ _ Hp).
  pose proof (pl_known _ _ _ Hp) as Hk.
  assert (∃ plan, plan_dns_recovery a = Ok plan) as [plan Hplan] by (destruct a; naive_solver).
  eapply runs_read; [apply reads_lift|done|eauto|].
  eapply (runs_bind _ _ _ _ (λ r d', r = Ok () ∧ placed s TopologyAbsent d') _ arranged);
    [|intros ? d' [_ Hd]; by apply runs_final|naive_solver|done].
  destruct a; [..|done]; injection Hplan as <-; cbn.
  - eapply (runs_bind _ _ _ _ (λ r d', r = Ok () ∧ placed s TopologyStaged d') _ arranged);
      [by apply runs_restore_swap; auto|intros ? d' [_ Hd]|naive_solver|done].
    apply runs_sync; [eauto|]. apply (runs_topology _ _ _ _ Hd). cbn. by apply runs_unlink_pinned; auto.
  - by apply runs_unlink_pinned; auto.
  - by apply runs_ret.
Qed.

Definition linked_scene : LinkedDnsExchange :=
  mkLinkedDnsExchange an (sc_target s) (sc_exchange s) (sc_resource s).
Definition prepared_scene : PreparedDnsExchange :=
  mkPreparedDnsExchange an (sc_target s) (sc_exchange s) (sc_pinned s) (sc_resource s).

Lemma runs_activate a d :
  placed s a d →
  runs d (activate_after_journal linked_scene)
    (λ r d', if bool_decide (a = TopologyStaged)
             then r = Ok linked_scene ∧ placed s TopologyActive d'
             else r = Err ExchangeConflict ∧ d' = d) arranged.
Proof.
  intros Hp. unfold activate_after_journal. apply (runs_topology _ _ _ _ Hp).
  case_bool_decide as Ha; cbn; [subst a|by apply runs_fail].
  eapply (runs_bind _ _ _ _ (λ r d', r = Ok () ∧ placed s TopologyActive d') _ arranged);
    [by apply runs_activate_swap; auto|intros ? d' [_ Hd]|naive_solver|done].
  apply runs_sync; [eauto|]. apply (runs_topology _ _ _ _ Hd). by apply runs_ret.
Qed.

Lemma runs_link d :
  ready s d →
  runs d (link_after_journal prepared_scene)
    (λ r d', r = Ok linked_scene ∧ placed s TopologyStaged d') arranged.
Proof.
  intros Hr. pose proof (rd_placed _ _ Hr) as Hp. destruct (placed_names _ _ _ Hs Hp) as [_ Hx].
  unfold link_after_journal. cbn.
  eapply (runs_bind _ _ _ _ (λ r d', r = Ok () ∧ placed s TopologyStaged d') _ arranged);
    [|intros ? d' [_ Hd]|naive_solver|done].
  - unfold link_unnamed. eapply (runs_read _ _ _ _ None); [apply reads_inspect| |eauto|].
    { cbn. rewrite (placed_anchored _ _ _ _ Han Hp). unfold observed, seen. by rewrite Hx. }
    rewrite bool_decide_false by by intros []. apply runs_raced; [eauto|]. intros now. unfold linkat.
    rewrite Hx. pose proof (link_placed _ _ now Hs Hr). eauto.
  - apply runs_sync; [eauto|]. apply (runs_topology _ _ _ _ Hd). by apply runs_ret.
Qed.
End Operations.

(** ** Opening and staging *)

Section Opening.
Context `{ResolverDigest} (uid : Z).
Abbreviation reads := (reads uid).
Abbreviation runs := (runs uid).

Definition component_ok (value : bytes) : bool :=
  (negb (bool_decide (value = [])) && negb (bool_decide (value = [Byte.x2e]))
   && negb (bool_decide (value = [Byte.x2e; Byte.x2e])) && negb (bool_decide (Byte.x2f ∈ value)))
  && negb (bool_decide (Byte.x00 ∈ value)).
Definition openable (d : Folder) : bool :=
  (Z.land (di_mode (fd_identity d)) S_IFMT =? S_IFDIR) && (di_uid (fd_identity d) =? uid)
  && (Z.land (di_mode (fd_identity d)) 0x12 =? 0).
Definition anchor_of (d : Folder) : DirectoryAnchor := mkDirectoryAnchor (fd_identity d) (fd_mount_id d).

Lemma reads_component value :
  reads (resolver_component value)
    (λ _, if component_ok value then Ok value else Err ExchangeOperational).
Proof.
  eapply reads_ext.
  { apply reads_bind; [apply reads_ensure|]. intros u.
    apply reads_bind; [apply reads_ensure|]. intros v. apply reads_ret. }
  intros d. cbn. unfold component_ok. by repeat case_bool_decide.
Qed.

Lemma reads_euid {A} (m : Z → Rx A) f :
  (∀ n, reads (m n) (f n)) → reads (λ w, m (mc_euid w) w) (f uid).
Proof.
  intros Hm d w Hq Hd. destruct (Hm (mc_euid w) d w Hq Hd) as (r & w' & H').
  exists r, w'. by rewrite (proj1 Hq) in *.
Qed.

Lemma reads_open :
  reads directory_open (λ d, if openable d then Ok (anchor_of d) else Err ExchangeOperational).
Proof.
  eapply reads_ext.
  { apply reads_bind; [apply reads_context|]. intros u.
    apply reads_bind; [apply reads_context|]. intros identity.
    apply reads_bind; [apply reads_ensure|]. intros u1.
    apply reads_bind.
    { apply (reads_euid (λ n, ensure (di_uid identity =? n))). intros n. apply reads_ensure. }
    intros u2. apply reads_bind; [apply reads_ensure|]. intros u3.
    apply reads_bind; [apply reads_context|]. intros mount_id. apply reads_ret. }
  intros d. cbn. unfold openable. by repeat destruct (_ =? _).
Qed.

(** What holds of a result, if there is one. *)
Definition gives {A} (d : Folder) (m : Rx A) (Q : A → Folder → Prop) : Prop :=
  runs d m (λ r d', ∀ a, r = Ok a → Q a d') (λ _, True).

Lemma gives_bind {A B} d (m : Rx A) (k : A → Rx B) (Q1 : A → Folder → Prop) (Q2 : B → Folder → Prop) :
  gives d m Q1 → (∀ a d', Q1 a d' → gives d' (k a) Q2) → gives d (m ≫= k) Q2.
Proof. intros Hm Hk. eapply runs_bind; [apply Hm|naive_solver..]. Qed.
Lemma gives_ret {A} d (a : A) (Q : A → Folder → Prop) : Q a d → gives d (mret a) Q.
Proof. intros HQ. apply runs_ret. naive_solver. Qed.
Lemma gives_fail {A} d e (Q : A → Folder → Prop) : gives d (rx_fail e) Q.
Proof. by apply runs_fail. Qed.
Lemma gives_read {A} d (m : Rx A) f : reads m f → gives d m (λ a d', f d = Ok a ∧ d' = d).
Proof. intros Hm. eapply runs_mono; [apply Hm| |done]. naive_solver. Qed.
Lemma gives_looks {A B} d (m : Rx A) f (k : A → Rx B) Q :
  reads m f → (∀ a, f d = Ok a → gives d (k a) Q) → gives d (m ≫= k) Q.
Proof. intros Hm Hk. eapply gives_bind; [by apply gives_read|]. intros a d' [Ha ->]. auto. Qed.
Lemma gives_ensure {B} d b (k : () → Rx B) Q :
  (b = true → gives d (k ()) Q) → gives d (ensure b ≫= k) Q.
Proof. intros Hk. eapply gives_looks; [apply reads_ensure|]. intros [] Hb. destruct b; [auto|done]. Qed.
Lemma gives_check {A} d (b : bool) e (m : Rx A) Q :
  (b = false → gives d m Q) → gives d (if b then rx_fail e else m) Q.
Proof. intros Hm. destruct b; [apply gives_fail|auto]. Qed.
Lemma gives_mono {A} d (m : Rx A) (Q1 Q2 : A → Folder → Prop) :
  gives d m Q1 → (∀ a d', Q1 a d' → Q2 a d') → gives d m Q2.
Proof. intros Hm HQ. eapply runs_mono; [apply Hm| |done]. naive_solver. Qed.
Lemma gives_act {A B} d (act : Action A) (k : A → Rx B) Q :
  (∀ now a, (act now d).1.1 = Ok a → gives (act now d).1.2 (k a) Q) →
  gives d (context act ≫= k) Q.
Proof.
  intros Hk. eapply (gives_bind _ _ _ (λ a d', ∃ now, (act now d).1.1 = Ok a ∧ d' = (act now d).1.2)).
  - apply runs_context; [done|]. intros now. destruct (act now d) as [[r d'] gone] eqn:Ea.
    split; [done|]. intros a Ha. exists now. rewrite Ea. cbn. destruct r; naive_solver.
  - intros a d' (now & Ha & ->). eauto.
Qed.

(** Files are added; the names and the other files stay. *)
Record extends (d d' : Folder) : Prop := {
  ex_names : fd_names d' = fd_names d;
  ex_identity : fd_identity d' = fd_identity d;
  ex_mount : fd_mount_id d' = fd_mount_id d;
  ex_objects : ∀ id o, fd_objects d !! id = Some o → fd_objects d' !! id = Some o }.

Lemma extends_refl d : extends d d.
Proof. by split. Qed.
Lemma extends_trans d1 d2 d3 : extends d1 d2 → extends d2 d3 → extends d1 d3.
Proof. intros [] []. split; [congruence..|auto]. Qed.
Lemma extends_object d d' id o : extends d d' → fd_objects d !! id = None → extends d (folder_object d' id o).
Proof.
  intros [Hn Hi Hm Ho] Hid. split; [done..|]. intros i o' Hi'. cbn.
  rewrite lookup_insert_ne; [auto|]. intros ->. congruence.
Qed.

(** The staged file, before it has a name. *)
Definition unnamed (file : ObjectId) (contents : bytes) (d : Folder) : Prop :=
  ∃ q, fd_objects d !! file = Some q ∧ fo_data q = contents.

Lemma new_inode_free d : fd_objects d !! (di_device (fd_identity d), new_inode d) = None.
Proof.
  apply not_elem_of_dom. intros Hin. apply (is_fresh (set_map snd (dom (fd_objects d)) : gset Z)).
  apply elem_of_map. by exists (di_device (fd_identity d), new_inode d).
Qed.
Lemma gives_tmpfile u g d :
  gives d (context (open_tmpfile u g))
    (λ file d', extends d d' ∧ fd_objects d !! file = None ∧ unnamed file [] d').
Proof.
  apply runs_context; [done|]. intros now. cbn. split; [done|]. intros a [= <-].
  pose proof (new_inode_free d) as Hf.
  split_and!; [by apply extends_object; [apply extends_refl|]|done|].
  eexists. cbn. rewrite lookup_insert_eq. done.
Qed.

Lemma gives_create d contents :
  gives d (create_unnamed_file contents)
    (λ file d', extends d d' ∧ fd_objects d !! file = None ∧ unnamed file contents d').
Proof.
  unfold create_unnamed_file.
  eapply (gives_bind _ _ _ (λ file d', extends d d' ∧ fd_objects d !! file = None ∧ unnamed file [] d')).
  { intros w Hq Hd. exact (gives_tmpfile (mc_euid w) (mc_egid w) d w Hq Hd). }
  intros file d1 (Hx & Hnew & q & Hq & Hdata). apply gives_act. intros now [] _. cbn.
  unfold touch. rewrite Hq. apply gives_act. intros now2 [] _. cbn.
  unfold touch. cbn. rewrite lookup_insert_eq. apply gives_act. intros now3 [] _. cbn.
  eapply gives_looks; [apply reads_stat_file|]. intros stable _.
  apply gives_ensure. intros _. apply gives_ret.
  split_and!; [by do 2 (apply extends_object; [|done])|done|].
  eexists. cbn. rewrite lookup_insert_eq. split; [done|]. cbn. by rewrite Hdata.
Qed.

Lemma gives_probe d a : gives d (probe_residue_free_primitives a) (λ _ d', extends d d').
Proof.
  eapply gives_bind; [apply gives_create|]. intros file d1 (Hx & _).
  eapply gives_looks; [apply reads_stat_file|]. intros stable _. apply gives_ensure. intros _.
  eapply gives_looks; [apply reads_context|]. intros synced _.
  eapply gives_looks; [apply reads_stat_file|]. intros after _. apply gives_ensure. intros _.
  eapply gives_mono; [apply gives_read, reads_revalidate|]. by intros u d' [_ ->].
Qed.

Lemma reads_present a name :
  reads (present a name) (λ d, c ← seen_from a name d; ok_or c ExchangeOperational).
Proof. apply reads_bind; [apply reads_inspect_detailed|]. intros c. apply reads_lift. Qed.

Lemma present_holds a name d c :
  (c ← seen_from a name d; ok_or c ExchangeOperational) = Ok c → anchored_at a d = true ∧ holds name c d.
Proof.
  unfold seen_from, holds. destruct (anchored_at a d); [|done]. cbn.
  destruct (seen name d) as [[c'|]|]; cbn; [|done..]. by intros [= ->].
Qed.

Lemma absent_observed a name d v :
  (if anchored_at a d then observed name d else Err ExchangeConflict) = Ok v →
  bool_decide (is_Some v) = false → fd_names d !! name = None.
Proof.
  intros Hv Hnone. apply bool_decide_eq_false in Hnone. destruct v; [by destruct Hnone|]. revert Hv.
  unfold observed, seen. destruct (anchored_at a d); [|done]. destruct (fd_names d !! name) as [id|]; [|done].
  destruct (fd_objects d !! id) as [o|]; [|done]. by destruct (inspected id o).
Qed.

Lemma if_Ok {A} (b : bool) (a a' : A) (e : DnsExchangeFailureKind) :
  (if b then Ok a else Err e) = Ok a' → b = true ∧ a = a'.
Proof. destruct b; [|done]. by intros [= ->]. Qed.

Record preflighted (target session : bytes) (d : Folder) (pf : DnsExchangePreflight) : Prop := {
  pr_target : pf_target pf = target;
  pr_exchange : pf_exchange pf = resolver_exchange_file_name session;
  pr_components : component_ok target && component_ok (resolver_exchange_file_name session) = true;
  pr_openable : openable d = true;
  pr_anchor : pf_anchor pf = anchor_of d;
  pr_baseline : holds target (pf_baseline pf) d;
  pr_absent : fd_names d !! resolver_exchange_file_name session = None }.

Lemma gives_preflight d target session :
  gives d (preflight_inner target session) (λ pf d', preflighted target session d pf ∧ extends d d').
Proof.
  unfold preflight_inner.
  eapply gives_looks; [apply reads_component|]. intros t Ht.
  eapply gives_looks; [apply reads_component|]. intros x' Hx.
  eapply gives_looks; [apply reads_open|]. intros a Ha.
  eapply gives_looks; [apply reads_present|]. intros baseline Hb. apply present_holds in Hb as [_ Hb].
  eapply gives_looks; [apply reads_inspect|]. intros v Hv. apply gives_check. intros Hnone.
  pose proof (absent_observed _ _ _ _ Hv Hnone) as Habs.
  eapply gives_looks; [apply reads_context|]. intros m _. apply gives_ensure. intros _.
  eapply gives_bind; [apply gives_probe|]. intros u d1 Hext.
  eapply gives_looks; [apply reads_revalidate|]. intros u1 _.
  eapply gives_looks; [apply reads_present|]. intros after _. apply gives_check. intros _.
  eapply gives_looks; [apply reads_context|]. intros m' _. apply gives_check. intros _.
  apply gives_ret. split; [|done].
  apply if_Ok in Ht as [Et <-], Hx as [Ex <-], Ha as [Eo <-].
  split; [done|done|by rewrite Et, Ex|done..].
Qed.

(** The scene that staging sets. *)
Definition stage_scene (d : Folder) (target session : bytes) (p : PreparedDnsExchange)
    (original : ObjectId) (pin : FileObject) : Scene :=
  mkScene d target (resolver_exchange_file_name session) original (px_staged p) pin (px_resource p).

Lemma linked_inspects file q stable contents :
  stable_stat_from_stat (stat_of file q) = Ok stable →
  bool_decide (fi_kind (ss_identity stable) = Regular) = true → fo_data q = contents →
  inspects file (set_nlink 1 (0, 0) q)
    (mkObservedDnsObject (with_link_count (ss_identity stable) (fo_nlink q + 1))
       (Some (sha256_digest contents))).
Proof.
  intros Hst Hk <-. revert Hst. apply bool_decide_eq_true in Hk. revert Hk.
  unfold inspects, inspected, stable_stat_from_stat, identity_from_stat; cbn. destruct (_ <? _); [done|].
  destruct (_ =? S_IFREG); [intros _ [= <-]; eexists; split; [done|done]|].
  destruct (_ =? S_IFLNK); [|done]. by intros Hk [= <-].
Qed.

Lemma gives_expected d file contents q :
  fd_objects d !! file = Some q → fo_data q = contents →
  gives d (expected_linked_object file contents)
    (λ obj d', d' = d ∧ inspects file (set_nlink 1 (0, 0) q) obj ∧ fo_nlink q = 0
               ∧ od_sha256 obj = Some (sha256_digest contents)).
Proof.
  intros Hq Hdata. eapply gives_looks; [apply reads_stat_file|]. intros stable Hst.
  unfold seen_stat in Hst. rewrite Hq in Hst. apply gives_ensure. intros [Hk Hl]%andb_prop.
  apply gives_ret. pose proof (linked_inspects _ _ _ _ Hst Hk Hdata) as Hi.
  assert (fo_nlink q = 0) as H0.
  { apply Z.eqb_eq in Hl. rewrite <-Hl. symmetry. revert Hst.
    unfold stable_stat_from_stat, identity_from_stat. destruct (_ <? _); [done|].
    destruct (_ =? S_IFREG); [by intros [= <-]|]. by destruct (_ =? S_IFLNK); [intros [= <-]|]. }
  rewrite H0 in Hi. done.
Qed.

Lemma holds_object d name id c :
  fd_names d !! name = Some id → holds name c d →
  ∃ o, fd_objects d !! id = Some o ∧ inspects id o (ic_object c).
Proof.
  unfold holds, seen. intros ->. destruct (fd_objects d !! id) as [o|]; [|done].
  intros Hc. exists o. split; [done|]. exists c. destruct (inspected id o); [|done]. by injection Hc as ->.
Qed.

Lemma gives_stage d0 d target session pf contents :
  preflighted target session d0 pf → extends d0 d →
  gives d (stage_preflighted pf contents)
    (λ p d', ∃ original pin, let s := stage_scene d0 target session p original pin in
       staged_scene s ∧ ready s d' ∧ p = prepared_scene s (anchor_of d0) ∧ fo_data pin = contents).
Proof.
  intros [Et Ex _ _ Ea Hb Habs] Hext. unfold stage_preflighted. rewrite Et, Ex, Ea.
  do 2 (apply gives_ensure; intros _).
  eapply gives_looks; [apply reads_revalidate|]. intros u _.
  eapply gives_looks; [apply reads_present|]. intros current _. apply gives_check. intros _.
  eapply gives_looks; [apply reads_inspect|]. intros v _. apply gives_check. intros _.
  eapply gives_bind; [apply gives_create|]. intros file d1 (Hx1 & Hnew & q & Hq & Hdata).
  pose proof (extends_trans _ _ _ Hext Hx1) as Hx2.
  eapply gives_bind; [by apply (gives_expected _ _ _ q)|]. intros pinned d2 (-> & Hpin & Hlink & Hsha).
  apply gives_ensure. intros _. apply gives_ret.
  destruct (fd_names d0 !! target) as [id|] eqn:En.
  2:{ revert Hb. unfold holds, seen. by rewrite En. }
  exists id, (set_nlink 1 (0, 0) q). split_and!.
  - destruct (holds_object _ _ _ _ En Hb) as (o & Ho & Hi).
    split; cbn; [done|done|exists o|..].
    + split; [done|]. unfold original_object. cbn. by destruct (ic_object (pf_baseline pf)).
    + destruct (fd_objects d0 !! file) as [o'|] eqn:Ef; [|done].
      by rewrite (ex_objects _ _ Hext _ _ Ef) in Hnew.
    + unfold pinned_object. cbn. rewrite <-Hsha. by destruct pinned.
    + by rewrite Hlink.
  - split; [split; cbn|exists q; split; [done|]; intros now; by exists now].
    + apply (ex_identity _ _ Hx2).
    + apply (ex_mount _ _ Hx2).
    + done.
    + apply (ex_names _ _ Hx2).
    + intros i o Hi. exists o. split; [|done]. exact (ex_objects _ _ Hx2 _ _ Hi).
    + done.
  - done.
  - done.
Qed.
End Opening.

(** ** The procedure, with crashes *)

(** The handles of the types [PreparedDnsExchange], [LinkedDnsExchange] and [ActiveDnsExchange];
    linking and activating consume theirs. *)
Inductive Handle :=
| HasPrepared (p : PreparedDnsExchange)
| HasLinked (l : LinkedDnsExchange)
| HasActive (l : LinkedDnsExchange)
| HasNothing.

Definition resume (turns : list Turn) (w : Machine) : Machine :=
  mkMachine (mc_folder w) turns (mc_euid w) (mc_egid w) (mc_unlinked w).

Section Procedure.
Context `{ResolverDigest} (target session : bytes) (resource : DnsResource).

Inductive exchange_step : Handle * Machine → Handle * Machine → Prop :=
| step_link p w r w' :
    link_after_journal p w = (r, w') →
    exchange_step (HasPrepared p, w) (match r with Ok l => HasLinked l | Err _ => HasNothing end, w')
| step_activate l w r w' :
    activate_after_journal l w = (r, w') →
    exchange_step (HasLinked l, w) (match r with Ok l => HasActive l | Err _ => HasNothing end, w')
| step_restore l w r w' :
    execute_recovery (lx_anchor l) (lx_target l) (lx_exchange l) (lx_resource l) w = (r, w') →
    exchange_step (HasActive l, w) (HasActive l, w')
| step_inspect w r w' :
    inspect_exchange_typed target session resource w = (r, w') →
    exchange_step (HasNothing, w) (HasNothing, w')
| step_recover w r w' :
    recover_exchange_typed target session resource w = (r, w') →
    exchange_step (HasNothing, w) (HasNothing, w')
| step_crash h w : exchange_step (h, w) (HasNothing, w)
| step_later h w turns : undisturbed turns → exchange_step (h, w) (h, resume turns w).
End Procedure.

(** What a reader of the directory finds, compared with the folder before. *)
Record undamaged (d0 d : Folder) (target exchange : bytes) (pinned : ObjectId) (contents : bytes) : Prop := {
  ud_names :
    fd_names d = fd_names d0
    ∨ fd_names d = <[exchange := pinned]> (fd_names d0)
    ∨ ∃ original, fd_names d0 !! target = Some original
        ∧ fd_names d = <[target := pinned]> (<[exchange := original]> (fd_names d0));
  ud_pinned :
    fd_names d ≠ fd_names d0 → ∃ q, fd_objects d !! pinned = Some q ∧ fo_data q = contents;
  ud_retains : retains d0 d }.

Section Staged.
Context `{ResolverDigest} (uid : Z) (s : Scene) (session : bytes).
Hypothesis Hs : staged_scene s.
Hypothesis Hx : sc_exchange s = resolver_exchange_file_name session.
Hypothesis Hok : component_ok (sc_target s) && component_ok (sc_exchange s) = true.
Hypothesis Hopen : openable uid (sc_before s) = true.
Abbreviation an := (anchor_of (sc_before s)).
Abbreviation runs := (runs uid).

Lemma scene_anchored : scene_anchor s an.
Proof. done. Qed.

(** The components and the directory, on the way into a typed operation. *)
Lemma runs_typed {B} a d (k : bytes → bytes → DirectoryAnchor → Rx B) Q :
  placed s a d → runs d (k (sc_target s) (sc_exchange s) an) Q (arranged s) →
  runs d (target ← resolver_component (sc_target s);
          exchange ← resolver_component (resolver_exchange_file_name session);
          anchor ← directory_open;
          k target exchange anchor) Q (arranged s).
Proof.
  intros Hp Hk. pose proof (placed_arranged _ _ _ Hp) as HE. apply andb_prop in Hok as [Ht Hc].
  rewrite <-Hx.
  eapply runs_read; [apply reads_component|cbn; by rewrite Ht|done|].
  eapply runs_read; [apply reads_component|cbn; by rewrite Hc|done|].
  eapply runs_read; [apply reads_open| |done|done]. cbn.
  unfold openable, anchor_of in *. by rewrite (pl_identity _ _ _ Hp), (pl_mount _ _ _ Hp), Hopen.
Qed.

Lemma runs_recover a d :
  placed s a d →
  runs d (recover_exchange_typed (sc_target s) session (sc_resource s))
    (λ r d', r = Ok () ∧ placed s TopologyAbsent d') (arranged s).
Proof.
  intros Hp. apply (runs_typed a d (λ t x an, execute_recovery an t x (sc_resource s)) _ Hp).
  by apply (runs_execute_recovery uid s an Hs scene_anchored a).
Qed.

Lemma runs_inspect a d :
  placed s a d →
  runs d (inspect_exchange_typed (sc_target s) session (sc_resource s))
    (λ r d', r = Ok a ∧ d' = d) (arranged s).
Proof.
  intros Hp. apply (runs_typed a d (λ t x an, dns_topology an t x (sc_resource s)) _ Hp).
  eapply runs_mono; [apply reads_topology| |intros d' ->; by apply (placed_arranged s a)]. cbn.
  rewrite (placed_anchored _ _ _ _ scene_anchored Hp), (placed_topology _ _ _ Hs Hp). done.
Qed.

Definition exchange_invariant (x : Handle * Machine) : Prop :=
  quiet uid x.2
  ∧ match x.1 with
    | HasPrepared p => p = prepared_scene s an ∧ ready s (mc_folder x.2)
    | HasLinked l | HasActive l => l = linked_scene s an ∧ arranged s (mc_folder x.2)
    | HasNothing => arranged s (mc_folder x.2)
    end.

Lemma runs_out {A} (m : Rx A) w r w' (Q : _ → _ → Prop) E :
  runs (mc_folder w) m Q E → quiet uid w → m w = (r, w') →
  quiet uid w' ∧ (Q r (mc_folder w')
                  ∨ r = Err ExchangeOperational ∧ ¬ faultless (mc_turns w) ∧ E (mc_folder w')).
Proof.
  intros Hm Hq Hrun. destruct (Hm w Hq eq_refl) as (r1 & w1 & Hrun1 & Hon & HQ).
  rewrite Hrun1 in Hrun. simplify_eq. split; [by eapply quiet_onward|done].
Qed.

Lemma exchange_step_invariant x y :
  exchange_step (sc_target s) session (sc_resource s) x y → exchange_invariant x → exchange_invariant y.
Proof.
  pose proof scene_anchored as Han.
  intros Hstep [Hq Hi].
  destruct Hstep as [p w r w' Hr|l w r w' Hr|l w r w' Hr|w r w' Hr|w r w' Hr|h w|h w turns Ht];
    cbn in Hq, Hi; unfold exchange_invariant; cbn.
  - destruct Hi as [-> Hi].
    destruct (runs_out _ _ _ _ _ _ (runs_link uid s an Hs Han _ Hi) Hq Hr)
      as [Hq' [[-> ?]|(-> & _ & ?)]]; split; eauto using placed_arranged.
  - destruct Hi as [-> [a Hi]].
    destruct (runs_out _ _ _ _ _ _ (runs_activate uid s an Hs Han _ _ Hi) Hq Hr)
      as [Hq' [Hr'|(-> & _ & ?)]]; split; [done| |done..]. case_bool_decide; destruct Hr' as [-> Hd];
      [eauto using placed_arranged|rewrite Hd; eauto using placed_arranged].
  - destruct Hi as [-> [a Hi]].
    destruct (runs_out _ _ _ _ _ _ (runs_execute_recovery uid s an Hs Han _ _ Hi) Hq Hr)
      as [Hq' [[-> ?]|(-> & _ & ?)]]; split; eauto using placed_arranged.
  - destruct Hi as [a Hi]. destruct (runs_out _ _ _ _ _ _ (runs_inspect _ _ Hi) Hq Hr)
      as [Hq' [[-> Hd]|(-> & _ & ?)]]; split; [done|rewrite Hd; eauto using placed_arranged|done..].
  - destruct Hi as [a Hi]. destruct (runs_out _ _ _ _ _ _ (runs_recover _ _ Hi) Hq Hr)
      as [Hq' [[-> ?]|(-> & _ & ?)]]; split; eauto using placed_arranged.
  - split; [done|]. destruct h; [destruct Hi as [_ [Hp _]]; eauto using placed_arranged|naive_solver..].
  - split; [by destruct Hq|done].
Qed.

Lemma exchange_reachable x y :
  rtc (exchange_step (sc_target s) session (sc_resource s)) x y →
  exchange_invariant x → exchange_invariant y.
Proof. induction 1; eauto using exchange_step_invariant. Qed.

Lemma exchange_arranged x : exchange_invariant x → arranged s (mc_folder x.2).
Proof.
  destruct x as [[] w]; intros [_ Hi]; cbn in *; [|naive_solver..].
  destruct Hi as [_ [Hp _]]. eauto using placed_arranged.
Qed.

Lemma arranged_undamaged d :
  arranged s d →
  undamaged (sc_before s) d (sc_target s) (sc_exchange s) (sc_pinned s) (fo_data (sc_pin s)).
Proof.
  intros [a Hp]. pose proof (pl_names _ _ _ Hp) as Hn. split; [| |apply Hp].
  - destruct a; cbn in Hn; eauto. right. right. eauto using sg_target.
  - intros Hne. destruct (pl_pinned _ _ _ Hp) as (q & Hq & ct & ->); [by intros ->|]. eauto.
Qed.
End Staged.

(** ** What interference can change *)

Section Steady.
Context `{ResolverDigest}.

(** An operation that unlinks nothing, whatever others do. *)
Definition steady {A} (m : Rx A) : Prop :=
  ∀ w, onward w (m w).2 ∧ mc_unlinked (m w).2 = mc_unlinked w.
Definition gentle {A} (act : Action A) : Prop := ∀ now d, (act now d).2 = [].

Lemma call_onward {A} (act : Action A) w : onward w (call act w).2.
Proof.
  unfold call. destruct (mc_turns w) as [|t turns] eqn:Et; cbn.
  - destruct (act _ _) as [[r d'] gone]. split_and!; cbn; [done..|by rewrite Et].
  - destruct (act _ _) as [[r d'] gone].
    destruct (tu_fault t); split_and!; cbn; [done..| |done|done| |done|done|];
      rewrite Et; by apply suffix_cons_r.
Qed.
Lemma call_gentle {A} (act : Action A) w : gentle act → mc_unlinked (call act w).2 = mc_unlinked w.
Proof.
  intros Hg. unfold call. destruct (match mc_turns w with [] => _ | _ => _ end) as [t turns].
  specialize (Hg (tu_now t) (tu_others t (mc_folder w))).
  destruct (act _ _) as [[r d'] gone]. cbn in Hg. subst gone.
  by destruct (tu_fault t); cbn; rewrite app_nil_r.
Qed.

Lemma steady_bind {A B} (m : Rx A) (k : A → Rx B) : steady m → (∀ a, steady (k a)) → steady (m ≫= k).
Proof.
  intros Hm Hk w. destruct (Hm w) as [Ho Hu]. cbv [mbind Rx_bind].
  destruct (m w) as [[a|e] w1]; [|done]. destruct (Hk a w1) as [Ho' Hu']. cbn in *.
  split; [by eapply onward_trans|congruence].
Qed.
Lemma steady_ret {A} (a : A) : steady (mret a).
Proof. intros w. split; [apply onward_refl|done]. Qed.
Lemma steady_fail {A} e : steady (rx_fail (A:=A) e).
Proof. intros w. split; [apply onward_refl|done]. Qed.
Lemma steady_lift {A} (x : result DnsExchangeFailureKind A) : steady (rx_lift x).
Proof. intros w. split; [apply onward_refl|done]. Qed.
Lemma steady_ensure b : steady (ensure b).
Proof. destruct b; [apply steady_ret|apply steady_fail]. Qed.
Lemma steady_context {A} (act : Action A) : gentle act → steady (context act).
Proof.
  intros Hg w. pose proof (call_onward act w) as Ho. pose proof (call_gentle act w Hg) as Hu.
  unfold context. by destruct (call act w) as [[a|e] w'].
Qed.
Lemma steady_raced {A} (act : Action A) : gentle act → steady (raced act).
Proof.
  intros Hg w. pose proof (call_onward act w) as Ho. pose proof (call_gentle act w Hg) as Hu.
  unfold raced. by destruct (call act w) as [[a|e] w'].
Qed.
Lemma gentle_looking {A} (f : Folder → result Errno A) : gentle (looking_at f).
Proof. done. Qed.
Lemma gentle_exchange first second : gentle (renameat2_exchange first second).
Proof. intros now d. unfold renameat2_exchange. by repeat case_match. Qed.
Lemma steady_stable name : steady (stat_component_stable name).
Proof.
  intros w. pose proof (call_onward (looking_at (fstatat name)) w) as Ho.
  pose proof (call_gentle (looking_at (fstatat name)) w (gentle_looking _)) as Hu.
  unfold stat_component_stable. by destruct (call _ w) as [[a|[]] w'].
Qed.
Lemma steady_loop fuel file : ∀ data, steady (read_loop fuel file data).
Proof.
  induction fuel as [|fuel IH]; intros data; [apply steady_fail|]. cbn [read_loop].
  apply steady_bind; [by apply steady_context|]. intros read.
  destruct (len read =? 0); [apply steady_ret|]. destruct (_ <? _); [apply steady_fail|apply IH].
Qed.
End Steady.

Create HintDb steady.
#[export] Hint Resolve steady_ret steady_fail steady_lift steady_ensure steady_context steady_raced
  gentle_looking gentle_exchange steady_stable steady_loop : steady.
#[export] Hint Extern 1 (steady (_ ≫= _)) => apply steady_bind : steady.

(** Follow the structure of an operation. *)
Ltac steady :=
  repeat match goal with
    | |- steady (_ ≫= _) => apply steady_bind
    | |- ∀ _, _ => intros ?
    | |- steady (if ?b then _ else _) => destruct b
    | |- steady (match ?b with _ => _ end) => destruct b
    | |- _ => solve [eauto with steady]
    end.

Section Foreign.
Context `{ResolverDigest}.

Lemma steady_digest file expected : steady (digest_stable_file file expected).
Proof. unfold digest_stable_file, stat_file. steady. Qed.
#[local] Hint Resolve steady_digest : steady.
Lemma steady_inspect a name : steady (inspect_component_detailed a name).
Proof. unfold inspect_component_detailed, revalidate. steady. Qed.
#[local] Hint Resolve steady_inspect : steady.
Lemma steady_expect a name expected : steady (expect_component a name expected).
Proof. unfold expect_component. steady. Qed.
#[local] Hint Resolve steady_expect : steady.
Lemma steady_still name stable : steady (still_stable name stable).
Proof. unfold still_stable. steady. Qed.
#[local] Hint Resolve steady_still : steady.
Lemma steady_topology a target exchange r : steady (dns_topology a target exchange r).
Proof. unfold dns_topology, inspect_component. steady. Qed.
Lemma steady_rename a first e1 second e2 : steady (rename_exchange_exact a first e1 second e2).
Proof. unfold rename_exchange_exact. steady. Qed.
Lemma steady_open : steady directory_open.
Proof.
  unfold directory_open. apply steady_bind; [by apply steady_context|]. intros u. steady.
  intros w. apply steady_ensure.
Qed.

(** What the results of an operation have in common. *)
Definition ensures {A} (m : Rx A) (P : A → Prop) : Prop := ∀ w a w', m w = (Ok a, w') → P a.

Lemma ensures_bind {A B} (m : Rx A) (k : A → Rx B) P Q :
  ensures m P → (∀ a, P a → ensures (k a) Q) → ensures (m ≫= k) Q.
Proof.
  intros Hm Hk w b w'. cbv [mbind Rx_bind]. destruct (m w) as [[a|e] w1] eqn:Em; [|done].
  intros Hb. exact (Hk a (Hm _ _ _ Em) _ _ _ Hb).
Qed.
Lemma ensures_any {A} (m : Rx A) : ensures m (λ _, True).
Proof. done. Qed.
Lemma ensures_ret {A} (a : A) (P : A → Prop) : P a → ensures (mret a) P.
Proof. by intros HP w b w' [= <- _]. Qed.
Lemma ensures_fail {A} e (P : A → Prop) : ensures (rx_fail e) P.
Proof. done. Qed.
Lemma ensures_check {A} (b : bool) e (m : Rx A) P :
  (b = false → ensures m P) → ensures (if b then rx_fail e else m) P.
Proof. intros Hm. destruct b; [done|auto]. Qed.

Lemma ensures_inspect a name :
  ensures (inspect_component_detailed a name)
    (λ o, ∀ c, o = Some c → od_identity (ic_object c) = ss_identity (ic_stable c)).
Proof.
  eapply ensures_bind; [apply ensures_any|]. intros _ _.
  eapply ensures_bind; [apply ensures_any|]. intros [before|] _; [|by apply ensures_ret].
  eapply ensures_bind; [apply ensures_any|]. intros sha256 _.
  eapply ensures_bind; [apply ensures_any|]. intros after _.
  apply ensures_check. intros _. apply ensures_ret. by intros c [= <-].
Qed.
Lemma ensures_expect a name expected :
  ensures (expect_component a name expected) (λ st, ss_identity st = od_identity expected).
Proof.
  eapply ensures_bind; [apply ensures_inspect|]. intros [c|] Hc; [|done].
  apply ensures_check. intros He. apply negb_false_iff, bool_decide_eq_true in He.
  apply ensures_ret. rewrite <-He. symmetry. by apply Hc.
Qed.
Lemma ensures_open_exact a name expected :
  ensures (open_exact_regular a name expected) (λ fs, ss_identity fs.2 = od_identity expected).
Proof.
  eapply ensures_bind; [apply ensures_any|]. intros _ _.
  eapply ensures_bind; [apply ensures_expect|]. intros before Hb.
  eapply ensures_bind; [apply ensures_any|]. intros file _.
  eapply ensures_bind; [apply ensures_any|]. intros digest _. apply ensures_check. intros _.
  eapply ensures_bind; [apply ensures_any|]. intros same _. apply ensures_check. intros _.
  by apply ensures_ret.
Qed.

Section Authority.
Context (exchange : bytes) (id : ObjectId).

Definition untouched (turns : list Turn) : Prop :=
  ∀ t, t ∈ turns → ∀ d, fd_names (tu_others t d) !! exchange = fd_names d !! exchange.

(** At most [id] is unlinked, once, if others leave the name alone. *)
Definition unlinks {A} (m : Rx A) : Prop :=
  ∀ w, untouched (mc_turns w) →
  mc_unlinked (m w).2 = mc_unlinked w ∨ mc_unlinked (m w).2 = mc_unlinked w ++ [id].

Lemma unlinks_steady {A} (m : Rx A) : steady m → unlinks m.
Proof. intros Hm w _. left. apply Hm. Qed.
Lemma unlinks_then {A B} (m : Rx A) (k : A → Rx B) P :
  steady m → ensures m P → (∀ a, P a → unlinks (k a)) → unlinks (m ≫= k).
Proof.
  intros Hm Hp Hk w Hw. destruct (Hm w) as [Ho Hu]. cbv [mbind Rx_bind].
  destruct (m w) as [[a|e] w1] eqn:Em; [|by left]. cbn in *. rewrite <-Hu.
  apply Hk; [by eapply Hp|].
  exact (onward_turns (λ t, ∀ d, fd_names (tu_others t d) !! exchange = fd_names d !! exchange) _ _ Ho Hw).
Qed.
Lemma unlinks_first {A B} (m : Rx A) (k : A → Rx B) :
  unlinks m → (∀ a, steady (k a)) → unlinks (m ≫= k).
Proof.
  intros Hm Hk w Hw. destruct (Hm w Hw) as [Hu|Hu]; cbv [mbind Rx_bind];
    destruct (m w) as [[a|e] w1]; cbn in *; rewrite <-Hu; auto; [left|right];
    rewrite (proj2 (Hk a w1)); done.
Qed.

(** A name that was just seen in its version. *)
Lemma still_at name stable w w1 :
  still_stable name stable w = (Ok true, w1) →
  fd_names (mc_folder w1) !! name
    = Some (fi_device (ss_identity stable), fi_inode (ss_identity stable)).
Proof.
  unfold still_stable, stat_component_stable, call. cbv [mbind Rx_bind]. cbn.
  destruct (match mc_turns w with [] => _ | _ => _ end) as [t turns]. cbn.
  unfold fstatat, fstat_fd. destruct (tu_fault t); cbn; [|done..].
  destruct (fd_names _ !! name) as [i|] eqn:En; cbn; [|by intros [= E _]].
  destruct (fd_objects _ !! i) as [o|]; cbn; [|done].
  destruct (stable_stat_from_stat (stat_of i o)) as [st|] eqn:Est; cbn; [|done].
  intros [= E <-]. cbn. rewrite En. f_equal. apply bool_decide_eq_true in E as [= ->].
  symmetry. exact (stable_id _ _ _ Est).
Qed.

Lemma unlinks_name w :
  untouched (mc_turns w) → fd_names (mc_folder w) !! exchange = Some id →
  mc_unlinked (raced (unlinkat_name exchange) w).2 = mc_unlinked w
  ∨ mc_unlinked (raced (unlinkat_name exchange) w).2 = mc_unlinked w ++ [id].
Proof.
  intros Hw Hn. unfold raced, call, unlinkat_name. destruct (mc_turns w) as [|t turns]; cbn.
  - rewrite Hn. cbn. by right.
  - rewrite Hw by left. rewrite Hn. destruct (tu_fault t); cbn; rewrite ?app_nil_r; auto.
Qed.

(** The look before the unlink and the unlink. *)
Lemma unlinks_checked {B} (stable : StableStat) (k : () → Rx B) :
  (fi_device (ss_identity stable), fi_inode (ss_identity stable)) = id →
  (∀ u, steady (k u)) →
  unlinks (same ← still_stable exchange stable;
           if negb same then rx_fail ExchangeConflict else
           raced (unlinkat_name exchange) ≫= k).
Proof.
  intros Hid Hk w Hw. pose proof (steady_still exchange stable w) as [Hon Hu].
  cbv [mbind Rx_bind]. destruct (still_stable exchange stable w) as [[same|e] w1] eqn:Es; [|by left].
  cbn in Hon, Hu. destruct same; [|by left]. cbn. apply still_at in Es. rewrite Hid in Es.
  rewrite <-Hu.
  destruct (unlinks_name w1) as [Hn|Hn]; [|done|..];
    [exact (onward_turns
       (λ t, ∀ d, fd_names (tu_others t d) !! exchange = fd_names d !! exchange) _ _ Hon Hw)|..];
    destruct (raced _ w1) as [[u|e] w2]; cbn in *; auto; rewrite (proj2 (Hk u w2)); auto.
Qed.

Lemma unlinks_exact a expected :
  (fi_device (od_identity expected), fi_inode (od_identity expected)) = id →
  unlinks (unlink_exact_regular a exchange expected).
Proof.
  intros Hid. unfold unlink_exact_regular.
  eapply unlinks_then; [unfold open_exact_regular; steady|apply ensures_open_exact|].
  intros [file stable] Hst. cbn in Hst. rewrite <-Hst in Hid.
  eapply unlinks_then; [steady|apply ensures_any|]. intros digest _.
  destruct (negb _); [apply unlinks_steady; steady|].
  apply unlinks_checked; [done|]. intros u. unfold resolver_sync. steady.
Qed.
End Authority.

Lemma unlinks_recovery a target exchange r :
  unlinks exchange (fi_device (dn_pinned r), fi_inode (dn_pinned r))
    (execute_recovery a target exchange r).
Proof.
  pose proof (steady_topology a target exchange r) as Ht. unfold execute_recovery.
  eapply unlinks_then; [done|apply ensures_any|]. intros before _.
  eapply unlinks_then; [apply steady_lift|apply ensures_any|]. intros plan _.
  apply unlinks_first; [|steady]. destruct (dp_action plan).
  - eapply unlinks_then; [apply steady_rename|apply ensures_any|]. intros u _.
    eapply unlinks_then; [unfold resolver_sync; steady|apply ensures_any|]. intros u1 _.
    eapply unlinks_then; [done|apply ensures_any|]. intros restored _.
    destruct (negb _); [apply unlinks_steady; steady|by apply unlinks_exact].
  - by apply unlinks_exact.
  - apply unlinks_steady. steady.
Qed.
End Foreign.

(** ** The exchange as a whole *)

Section Exchange.
Context `{ResolverDigest} (target session contents : bytes).
Context (w0 w1 w2 : Machine) (pf : DnsExchangePreflight) (p : PreparedDnsExchange).
Abbreviation exchange := (resolver_exchange_file_name session).
Abbreviation uid := (mc_euid w0).

(** A resolver was preflighted and staged while nobody interfered. *)
Record staged_run : Prop := {
  sr_alone : undisturbed (mc_turns w0);
  sr_preflight : preflight_inner target session w0 = (Ok pf, w1);
  sr_stage : stage_preflighted pf contents w1 = (Ok p, w2) }.

Record run_scene (s : Scene) : Prop := {
  rs_staged : staged_scene s;
  rs_before : sc_before s = mc_folder w0;
  rs_target : sc_target s = target;
  rs_exchange : sc_exchange s = exchange;
  rs_pinned : sc_pinned s = px_staged p;
  rs_contents : fo_data (sc_pin s) = contents;
  rs_resource : sc_resource s = px_resource p;
  rs_components : component_ok (sc_target s) && component_ok (sc_exchange s) = true;
  rs_openable : openable uid (sc_before s) = true;
  rs_invariant : exchange_invariant uid s (HasPrepared p, w2) }.

Lemma staged_run_scene : staged_run → ∃ s, run_scene s.
Proof.
  intros [Ha Hpre Hst]. assert (quiet uid w0) as Hq by done.
  destruct (runs_out uid _ _ _ _ _ _ (gives_preflight uid _ target session) Hq Hpre)
    as [Hq1 [Hpf|[]]]; [|done].
  destruct (Hpf pf eq_refl) as [Hpr Hext].
  destruct (runs_out uid _ _ _ _ _ _ (gives_stage uid _ _ target session pf contents Hpr Hext) Hq1 Hst)
    as [Hq2 [Hp|[]]]; [|done].
  destruct (Hp p eq_refl) as (original & pin & Hs & Hready & Hprep & Hdata).
  exists (stage_scene (mc_folder w0) target session p original pin).
  split; [done..| | |]; [exact (pr_components _ _ _ _ _ Hpr)|exact (pr_openable _ _ _ _ _ Hpr)|done].
Qed.

Lemma run_scene_reachable s h w :
  run_scene s →
  rtc (exchange_step target session (px_resource p)) (HasPrepared p, w2) (h, w) →
  exchange_invariant uid s (h, w).
Proof.
  intros [Hs Hb Ht Hx _ _ Hr Hc Ho Hi] Hrtc. rewrite <-Ht, <-Hr in Hrtc.
  exact (exchange_reachable uid s session Hs Hx Hc Ho _ _ Hrtc Hi).
Qed.
End Exchange.

(** C12: crash safety of the resolver exchange.  After a resolver has been preflighted and
    staged, nobody else writing to the directory, at every point that links, activations,
    restorations, recoveries, inspections and crashes lead to - with system calls that fail
    before or after their effect - the directory is as it was, or as it was with the staged
    file under the name of the session, or with the staged file at the resolver and the
    original under that name; the staged file has the contents that were asked for, and
    every file that was there, the original among them, is unchanged but for its change
    time. *)
Theorem resolver_crash_safe `{ResolverDigest} target session contents w0 w1 w2 pf p h w :
  staged_run target session contents w0 w1 w2 pf p →
  rtc (exchange_step target session (px_resource p)) (HasPrepared p, w2) (h, w) →
  undamaged (mc_folder w0) (mc_folder w) target (resolver_exchange_file_name session)
    (px_staged p) contents.
Proof.
  intros (s & Hs)%staged_run_scene Hrtc. pose proof (run_scene_reachable _ _ _ _ _ _ _ _ _ Hs Hrtc) as Hi.
  pose proof (arranged_undamaged _ (rs_staged _ _ _ _ _ _ _ Hs) _ (exchange_arranged _ _ _ Hi)) as Hu.
  by rewrite <-(rs_before _ _ _ _ _ _ _ Hs), <-(rs_target _ _ _ _ _ _ _ Hs),
    <-(rs_exchange _ _ _ _ _ _ _ Hs), <-(rs_pinned _ _ _ _ _ _ _ Hs), <-(rs_contents _ _ _ _ _ _ _ Hs).
Qed.

(** C13: recovery of the resolver completes.  From every such point, if again nobody
    interferes, [recover_exchange_typed] succeeds, with the names of the directory as they
    were before staging and every file that was there; unless a system call fails, and then
    it reports an operational failure, never a conflict. *)
Theorem resolver_restored `{ResolverDigest} target session contents w0 w1 w2 pf p h w turns :
  staged_run target session contents w0 w1 w2 pf p →
  rtc (exchange_step target session (px_resource p)) (HasPrepared p, w2) (h, w) →
  undisturbed turns →
  ∃ r w', recover_exchange_typed target session (px_resource p) (resume turns w) = (r, w')
    ∧ (r = Ok () ∧ fd_names (mc_folder w') = fd_names (mc_folder w0)
         ∧ retains (mc_folder w0) (mc_folder w')
       ∨ r = Err ExchangeOperational ∧ ¬ faultless turns).
Proof.
  intros (s & Hs)%staged_run_scene Hrtc Hu. pose proof (run_scene_reachable _ _ _ _ _ _ _ _ _ Hs Hrtc) as Hi.
  destruct (exchange_arranged _ _ _ Hi) as [a Hp]. destruct Hi as [[Hq _] _].
  destruct Hs as [Hs Hb Ht Hx _ _ Hr Hc Ho _].
  pose proof (runs_recover _ s session Hs Hx Hc Ho a _ Hp) as Hrun. rewrite Ht, Hr in Hrun.
  destruct (Hrun (resume turns w) (conj Hq Hu) eq_refl) as (r & w' & -> & _ & Hout).
  exists r, w'. split; [done|]. destruct Hout as [[-> Hd]|(-> & Hf & _)]; [left|by right].
  rewrite <-Hb. split_and!; [done|exact (pl_names _ _ _ Hd)|exact (pl_retains _ _ _ Hd)].
Qed.

(** The resolver is enacted.  If nothing fails and nobody interferes, a staged resolver
    is linked and activated: its contents are at the name of the resolver, the original is
    under the name of the session, and nothing else changes. *)
Theorem resolver_enacted `{ResolverDigest} target session contents w0 w1 w2 pf p turns turns' :
  staged_run target session contents w0 w1 w2 pf p →
  undisturbed turns → faultless turns → undisturbed turns' → faultless turns' →
  ∃ l w3 w4 original q,
    link_after_journal p (resume turns w2) = (Ok l, w3)
    ∧ activate_after_journal l (resume turns' w3) = (Ok l, w4)
    ∧ fd_names (mc_folder w0) !! target = Some original
    ∧ fd_names (mc_folder w4)
      = <[target := px_staged p]>
          (<[resolver_exchange_file_name session := original]> (fd_names (mc_folder w0)))
    ∧ fd_objects (mc_folder w4) !! px_staged p = Some q ∧ fo_data q = contents
    ∧ retains (mc_folder w0) (mc_folder w4).
Proof.
  intros (s & Hs)%staged_run_scene Hu Hf Hu' Hf'.
  destruct Hs as [Hs Hb Ht Hx Hpin Hdata Hr _ _ [[Hq _] [Hprep Hready]]]. cbn in Hq, Hprep, Hready.
  pose proof (scene_anchored s) as Han.
  destruct (runs_link (mc_euid w0) s _ Hs Han _ Hready (resume turns w2) (conj Hq Hu) eq_refl)
    as (r & w3 & Hlink & Hon & [[-> Hp]|(_ & Hn & _)]); [|done].
  assert (quiet (mc_euid w0) (resume turns' w3)) as Hq3.
  { split; [|done]. cbn. destruct Hon as [-> _]. done. }
  destruct (runs_activate (mc_euid w0) s _ Hs Han _ _ Hp (resume turns' w3) Hq3 eq_refl)
    as (r & w4 & Hact & _ & [[-> Hp4]|(_ & Hn & _)]); [|done].
  destruct (pl_pinned _ _ _ Hp4) as (q & Hq4 & ct & ->); [done|].
  exists (linked_scene s (anchor_of (sc_before s))), w3, w4, (sc_original s). eexists.
  rewrite Hprep, <-Hb, <-Ht, <-Hx. cbn. split_and!; [done..|exact (sg_target _ Hs)| | | |].
  - exact (pl_names _ _ _ Hp4).
  - exact Hq4.
  - exact Hdata.
  - exact (pl_retains _ _ _ Hp4).
Qed.

(** What the two names amount to for a resource. *)
Definition arrangement `{ResolverDigest} (r : DnsResource) (target exchange : bytes) (d : Folder)
  : result DnsExchangeFailureKind DnsExchangeTopology :=
  t ← observed target d; x ← observed exchange d; Ok (classify_dns_exchange r t x).

(** The exact arrangements of the journalled files. *)
Definition exact_arrangement (r : DnsResource) (target exchange : option ObservedDnsObject) : Prop :=
  target = Some (pinned_object r) ∧ exchange = Some (original_object r)
  ∨ target = Some (original_object r) ∧ (exchange = Some (pinned_object r) ∨ exchange = None).

Lemma classify_known r target exchange :
  classify_dns_exchange r target exchange ≠ TopologyConflict → exact_arrangement r target exchange.
Proof.
  unfold classify_dns_exchange, exact_arrangement.
  destruct target as [t|], exchange as [x|]; rewrite ?matches_exact; fold (original_object r);
    fold (pinned_object r); cbn; repeat case_bool_decide; subst; naive_solver.
Qed.

Lemma runs_refused `{ResolverDigest} uid an target exchange r d :
  (∀ t x, observed target d = Ok t → observed exchange d = Ok x → ¬ exact_arrangement r t x) →
  runs uid d (execute_recovery an target exchange r) (λ r d', (∃ e, r = Err e) ∧ d' = d) (λ d', d' = d).
Proof.
  intros Hno. unfold execute_recovery. pose proof (reads_topology uid an target exchange r) as Htop.
  destruct (anchored_at an d) eqn:Ean.
  2:{ eapply runs_read_err; [exact Htop|cbn; by rewrite Ean|done|eauto]. }
  destruct (observed target d) as [t|e] eqn:Et.
  2:{ eapply runs_read_err; [exact Htop|cbn; by rewrite Ean, Et|done|eauto]. }
  destruct (observed exchange d) as [x|e] eqn:Ex.
  2:{ eapply runs_read_err; [exact Htop|cbn; rewrite Ean, Et; cbn; by rewrite Ex|done|eauto]. }
  eapply runs_read; [exact Htop|cbn; rewrite Ean, Et; cbn; by rewrite Ex|done|].
  destruct (decide (classify_dns_exchange r t x = TopologyConflict)) as [->|Hne].
  - eapply runs_read_err; [apply reads_lift|done|done|eauto].
  - destruct (Hno t x eq_refl eq_refl). by apply classify_known.
Qed.

(** Recovery refuses what it does not know.  If the two names are not in one of the
    three exact arrangements of the journalled files - a file is missing, was replaced, has
    other contents, owner, mode or links - recovery fails and changes nothing. *)
Theorem resolver_refuses_conflict `{ResolverDigest} target session r w :
  undisturbed (mc_turns w) →
  (∀ t x, observed target (mc_folder w) = Ok t →
     observed (resolver_exchange_file_name session) (mc_folder w) = Ok x → ¬ exact_arrangement r t x) →
  ∃ e w', recover_exchange_typed target session r w = (Err e, w') ∧ mc_folder w' = mc_folder w.
Proof.
  intros Hu Hno. set (d := mc_folder w).
  assert (runs (mc_euid w) d (recover_exchange_typed target session r)
            (λ r d', (∃ e, r = Err e) ∧ d' = d) (λ d', d' = d)) as Hrun.
  { unfold recover_exchange_typed.
    eapply runs_bind; [apply reads_component|intros t d' [Et ->]|naive_solver|done].
    eapply runs_bind; [apply reads_component|intros x d' [Ex ->]|naive_solver|done].
    eapply runs_bind; [apply reads_open|intros an d' [_ ->]|naive_solver|done].
    apply runs_refused. symmetry in Et, Ex. apply if_Ok in Et as [_ <-], Ex as [_ <-]. exact Hno. }
  destruct (Hrun w (conj eq_refl Hu) eq_refl) as (res & w' & Hw & _ & [[[e ->] Hd]|(-> & _ & Hd)]); eauto.
Qed.

Lemma unlinks_typed `{ResolverDigest} target session r :
  unlinks (resolver_exchange_file_name session) (fi_device (dn_pinned r), fi_inode (dn_pinned r))
    (recover_exchange_typed target session r).
Proof.
  unfold recover_exchange_typed.
  eapply unlinks_then; [unfold resolver_component; steady|apply ensures_any|]. intros t _.
  eapply (unlinks_then _ _ _ _ (λ x, x = resolver_exchange_file_name session));
    [unfold resolver_component; steady| |intros x ->].
  { eapply ensures_bind; [apply ensures_any|]. intros u _.
    eapply ensures_bind; [apply ensures_any|]. intros v _. by apply ensures_ret. }
  eapply unlinks_then; [apply steady_open|apply ensures_any|]. intros an _. apply unlinks_recovery.
Qed.

(** C14: recovery unlinks only the pinned file.  Whatever other processes do to the resolver,
    to the files and to the directory between any two system calls, as long as they leave
    the name of the session alone, recovery unlinks nothing, or once the inode that the
    journal records as pinned. *)
Theorem resolver_spares_foreign `{ResolverDigest} target session r w res w' :
  untouched (resolver_exchange_file_name session) (mc_turns w) →
  recover_exchange_typed target session r w = (res, w') →
  mc_unlinked w' = mc_unlinked w
  ∨ mc_unlinked w' = mc_unlinked w ++ [(fi_device (dn_pinned r), fi_inode (dn_pinned r))].
Proof.
  intros Hu Hrun. pose proof (unlinks_typed target session r w Hu) as Hun. by rewrite Hrun in Hun.
Qed.

(** ** A sample *)

Module Sample.
#[export] Instance sample_digest : ResolverDigest := {| sha256_digest b := take 32 (b ++ replicate 32 Byte.x00) |}.

Definition target : bytes := String.list_byte_of_string "resolv.conf".
Definition session : bytes := replicate 16 Byte.x5a.
Definition contents : bytes := String.list_byte_of_string "nameserver 10.66.0.1" ++ [Byte.x0a].
Definition original : FileObject :=
  mkFileObject 0 0 0x81A4 1 (100, 0) (100, 0) (String.list_byte_of_string "nameserver 9.9.9.9").
Definition etc : Folder :=
  mkFolder (mkResolverDirectoryIdentity 7 2 0 0 0x41ED 3) 29 ∅ {[target := (7, 10)]} {[(7, 10) := original]}.
Definition world : Machine := mkMachine etc [] 0 0 [].

(** A run from preflight to activation, from a machine where nothing goes wrong. *)
Definition enacts (w0 : Machine) : bool :=
  match preflight_inner target session w0 with
  | (Ok pf, w1) =>
      match stage_preflighted pf contents w1 with
      | (Ok p, w2) =>
          match link_after_journal p w2 with
          | (Ok l, w3) =>
              match activate_after_journal l w3 with
              | (Ok l', w4) =>
                  match arrangement (px_resource p) target (resolver_exchange_file_name session)
                          (mc_folder w4) with
                  | Ok TopologyActive => true
                  | _ => false
                  end
              | _ => false
              end
          | _ => false
          end
      | _ => false
      end
  | _ => false
  end.

Lemma enacts_run w0 :
  undisturbed (mc_turns w0) → enacts w0 = true →
  ∃ w1 w2 w3 w4 pf p l l',
    staged_run target session contents w0 w1 w2 pf p
    ∧ link_after_journal p w2 = (Ok l, w3) ∧ activate_after_journal l w3 = (Ok l', w4)
    ∧ rtc (exchange_step target session (px_resource p)) (HasPrepared p, w2) (HasNothing, w4)
    ∧ arrangement (px_resource p) target (resolver_exchange_file_name session) (mc_folder w4)
      = Ok TopologyActive.
Proof.
  intros Hu. unfold enacts.
  destruct (preflight_inner target session w0) as [[pf|] w1] eqn:E1; [|done].
  destruct (stage_preflighted pf contents w1) as [[p|] w2] eqn:E2; [|done].
  destruct (link_after_journal p w2) as [[l|] w3] eqn:E3; [|done].
  destruct (activate_after_journal l w3) as [[l'|] w4] eqn:E4; [|done].
  destruct (arrangement _ _ _ _) as [[]|] eqn:Ha; [|done..]. intros _. exists w1, w2, w3, w4, pf, p, l, l'. split_and!; [done..| |done].
  eapply rtc_l; [exact (step_link _ _ _ _ _ _ _ E3)|]. eapply rtc_l; [exact (step_activate _ _ _ _ _ _ _ E4)|].
  apply rtc_once, step_crash.
Qed.

Lemma sample_enacts : enacts world = true.
Proof. vm_compute. reflexivity. Qed.

Lemma sample_run :
  ∃ w1 w2 w3 w4 pf p l l',
    staged_run target session contents world w1 w2 pf p
    ∧ link_after_journal p w2 = (Ok l, w3) ∧ activate_after_journal l w3 = (Ok l', w4)
    ∧ rtc (exchange_step target session (px_resource p)) (HasPrepared p, w2) (HasNothing, w4)
    ∧ arrangement (px_resource p) target (resolver_exchange_file_name session) (mc_folder w4)
      = Ok TopologyActive.
Proof. apply enacts_run; [|exact sample_enacts]. intros t Ht. by apply elem_of_nil in Ht. Qed.

Lemma no_turns : undisturbed [] ∧ faultless [].
Proof. split; intros t Ht; by apply elem_of_nil in Ht. Qed.

Lemma resolver_crash_safe_witness :
  ∃ w1 w2 w4 pf p,
    staged_run target session contents world w1 w2 pf p
    ∧ rtc (exchange_step target session (px_resource p)) (HasPrepared p, w2) (HasNothing, w4)
    ∧ undamaged etc (mc_folder w4) target (resolver_exchange_file_name session) (px_staged p) contents.
Proof.
  destruct sample_run as (w1 & w2 & w3 & w4 & pf & p & l & l' & Hrun & _ & _ & Hrtc & _).
  exists w1, w2, w4, pf, p. split; [done|]. split; [done|].
  exact (resolver_crash_safe _ _ _ world w1 w2 pf p _ _ Hrun Hrtc).
Defined.

Lemma resolver_restored_witness :
  ∃ w4 p w', arrangement (px_resource p) target (resolver_exchange_file_name session) (mc_folder w4)
             = Ok TopologyActive
    ∧ recover_exchange_typed target session (px_resource p) (resume [] w4) = (Ok (), w')
    ∧ fd_names (mc_folder w') = fd_names etc.
Proof.
  destruct sample_run as (w1 & w2 & w3 & w4 & pf & p & l & l' & Hrun & _ & _ & Hrtc & Ha).
  destruct no_turns as [Hu Hf].
  destruct (resolver_restored _ _ _ world w1 w2 pf p _ _ [] Hrun Hrtc Hu)
    as (r & w' & Hr & [(-> & Hn & _)|(_ & Hno)]); [|by destruct Hno].
  exists w4, p, w'. done.
Defined.

Lemma resolver_enacted_witness :
  ∃ w2 p l w3 w4 q,
    link_after_journal p (resume [] w2) = (Ok l, w3)
    ∧ activate_after_journal l (resume [] w3) = (Ok l, w4)
    ∧ fd_objects (mc_folder w4) !! px_staged p = Some q ∧ fo_data q = contents.
Proof.
  destruct sample_run as (w1 & w2 & _ & _ & pf & p & _ & _ & Hrun & _). destruct no_turns as [Hu Hf].
  destruct (resolver_enacted _ _ _ world w1 w2 pf p [] [] Hrun Hu Hf Hu Hf)
    as (l & w3 & w4 & original & q & ? & ? & _ & _ & ? & ? & _).
  exists w2, p, l, w3, w4, q. done.
Defined.

(** The journal names another file than the one at the resolver. *)
Definition stranger : DnsResource :=
  mkDnsResource EtcResolvConf (mkFileIdentity 7 11 0 0 0x81A4 1 Regular) (Some (sha256_digest []))
    (mkFileIdentity 7 12 0 0 0x81A4 1 Regular) (sha256_digest contents).

Lemma resolver_refuses_conflict_witness :
  ∃ e w', recover_exchange_typed target session stranger world = (Err e, w') ∧ mc_folder w' = etc.
Proof.
  apply (resolver_refuses_conflict target session stranger world); [apply no_turns|].
  assert (observed target etc = Ok (Some (mkObservedDnsObject
            (mkFileIdentity 7 10 0 0 0x81A4 1 Regular) (Some (sha256_digest (fo_data original))))))
    as Ht by (vm_compute; reflexivity).
  intros t x Et _. change (mc_folder world) with etc in Et. rewrite Ht in Et. injection Et as <-.
  intros [[E _]|[E _]]; discriminate E.
Defined.

(** Another process replaces the resolver at every system call. *)
Definition meddler : Turn :=
  mkTurn (λ d, folder_names d (<[target := (7, 99)]> (fd_names d))) NoFault (200, 0).

Lemma resolver_spares_foreign_witness :
  ∃ res w', recover_exchange_typed target session stranger (resume (replicate 50 meddler) world) = (res, w')
    ∧ (mc_unlinked w' = [] ∨ mc_unlinked w' = [(7, 12)]).
Proof.
  destruct (recover_exchange_typed target session stranger (resume (replicate 50 meddler) world))
    as [res w'] eqn:E.
  exists res, w'. split; [done|]. refine (resolver_spares_foreign target session stranger _ res w' _ E).
  intros t [-> _]%elem_of_replicate d. cbn. apply lookup_insert_ne.
  intros Hx%(f_equal length). vm_compute in Hx. done.
Defined.
End Sample.
