(* ===== verification/HostStore.v ===== *)
(** * The host-state journal: the store

    The Linux side of [JournalStore], [StateDirectoryAnchor] and [PendingTemp] in
    [shadowpipe-core/src/host_state.rs].  A directory is a table of names over a table of
    inodes; every system call may fail, and other processes may change the directory before
    it.  Two readings of the same definitions are proved: against processes that leave the
    private temporary names alone, the store unlinks only inodes that it created or read
    and verified itself; and as the only writer of the directory, an operation leaves the
    journal of the previous or of the next generation, and the next one when it succeeds. *)

From S2P Require Import Prelude HostTypes HostState.

(** ** JSON

    [serde_json] is a parameter: what it writes for a journal it reads back, with the line
    feed that the store appends. *)
Class JournalJson := {
  to_vec : HostStateJournalV1 → option bytes;
  from_slice : bytes → option HostStateJournalV1 }.

Class JournalJsonLaws (J : JournalJson) := {
  json_roundtrip j b : to_vec j = Some b → from_slice (b ++ [Byte.x0a]) = Some j }.

Definition MAX_JOURNAL_BYTES : Z := 256 * 1024.
Definition JOURNAL_MODE : Z := 0x180.
Definition STATE_DIRECTORY_MODE : Z := 0x1C0.

(** ** Errors *)

Inductive IoErrorKind := IoNotFound | IoAlreadyExists | IoInvalidInput | IoOther.

Inductive UnsafeFileReason :=
| NotRegular
| WrongOwner (expected actual : Z)
| WrongMode (expected actual : Z)
| MultipleHardLinks (actual : Z)
| ParentNotDirectory
| UnsafeParentMode (actual : Z)
| IdentityChanged.

Inductive HostStateError :=
| HsIo (kind : IoErrorKind)
| HsUnsafeFile (reason : UnsafeFileReason)
| HsTooLarge (actual maximum : Z)
| HsJson
| HsInvalidJournal (error : JournalValidationError)
| HsEntropy
| HsAlreadyExists
| HsMissing
| HsSessionMismatch (expected actual : bytes)
| HsGenerationMismatch (expected actual : Z)
| HsJournalNotFullyRemoved.

(** ** The file system *)

(** Device and inode number. *)
Abbreviation FileObjectIdentity := (Z * Z)%type.

Inductive FileType := TypeFile | TypeDirectory | TypeSymlink | TypeOther.

Record Inode := mkInode {
  in_type : FileType;
  in_uid : Z;
  in_mode : Z;
  in_nlink : Z;
  in_modified : Z * Z;
  in_changed : Z * Z;
  in_data : bytes }.

Record Directory := mkDirectory {
  d_identity : FileObjectIdentity;
  d_meta : Inode;
  d_names : gmap bytes FileObjectIdentity;
  d_inodes : gmap FileObjectIdentity Inode }.

(** What happens at a system call: first other processes act, then it may fail. *)
Record Tick := mkTick {
  tk_others : Directory → Directory;
  tk_fault : option IoErrorKind }.

Record Anchor := mkAnchor { an_identity : FileObjectIdentity; an_expected_uid : Z }.

(** The state that a store operation threads: the directory, what is to come, the random
    nonces (in hexadecimal, [None] where the generator fails), the cached anchor of the
    store, the flag [published] of the pending file, and a record of the inodes that the
    process has unlinked and created. *)
Record World := mkWorld {
  w_dir : Directory;
  w_ticks : list Tick;
  w_nonces : list (option bytes);
  w_anchor : option Anchor;
  w_published : bool;
  w_unlinked : list FileObjectIdentity;
  w_created : list FileObjectIdentity }.

Definition Fs (A : Type) : Type := World → result HostStateError A * World.
#[export] Instance Fs_ret : MRet Fs := λ A a w, (Ok a, w).
#[export] Instance Fs_bind : MBind Fs :=
  λ A B f m w, match m w with
               | (Ok a, w') => f a w'
               | (Err e, w') => (Err e, w')
               end.

Definition fail {A} (e : HostStateError) : Fs A := λ w, (Err e, w).
Definition lift {A} (r : result HostStateError A) : Fs A := λ w, (r, w).

(** A system call on the directory after the others have acted. *)
Definition syscall {A} (act : Directory → result IoErrorKind A * Directory * list FileObjectIdentity)
  (w : World) : result IoErrorKind A * World :=
  let '(fault, dir, ticks) :=
    match w_ticks w with
    | [] => (None, w_dir w, [])
    | t :: ticks => (tk_fault t, tk_others t (w_dir w), ticks)
    end in
  match fault with
  | Some kind =>
      (Err kind, mkWorld dir ticks (w_nonces w) (w_anchor w) (w_published w) (w_unlinked w) (w_created w))
  | None =>
      let '(r, dir', gone) := act dir in
      (r, mkWorld dir' ticks (w_nonces w) (w_anchor w) (w_published w) (w_unlinked w ++ gone)
          (w_created w))
  end.

(** A call that only looks. *)
Definition look {A} (f : Directory → result IoErrorKind A) (w : World) : result IoErrorKind A * World :=
  syscall (λ d, (f d, d, [])) w.

(** [map_err(HostStateError::io)] *)
Definition io {A} (m : World → result IoErrorKind A * World) : Fs A :=
  λ w, match m w with
       | (Ok a, w') => (Ok a, w')
       | (Err kind, w') => (Err (HsIo kind), w')
       end.

Definition set_published : Fs () :=
  λ w, (Ok (), mkWorld (w_dir w) (w_ticks w) (w_nonces w) (w_anchor w) true (w_unlinked w) (w_created w)).

(** Open without following: the name must exist and not be a symbolic link. *)
Definition openat (name : bytes) (d : Directory) : result IoErrorKind FileObjectIdentity :=
  match d_names d !! name with
  | None => Err IoNotFound
  | Some id =>
      match d_inodes d !! id with
      | Some inode => match in_type inode with TypeSymlink => Err IoOther | _ => Ok id end
      | None => Err IoOther
      end
  end.

(** Metadata of an open file. *)
Definition fstat (id : FileObjectIdentity) (d : Directory) : result IoErrorKind Inode :=
  ok_or (d_inodes d !! id) IoOther.

(** Contents of an open file. *)
Definition read_to_end (id : FileObjectIdentity) (maximum : Z) (d : Directory)
  : result IoErrorKind bytes :=
  inode ← ok_or (d_inodes d !! id) IoOther;
  Ok (take (Z.to_nat maximum) (in_data inode)).

Definition with_names (d : Directory) (names : gmap bytes FileObjectIdentity) : Directory :=
  mkDirectory (d_identity d) (d_meta d) names (d_inodes d).
Definition with_inode (d : Directory) (id : FileObjectIdentity) (inode : Inode) : Directory :=
  mkDirectory (d_identity d) (d_meta d) (d_names d) (<[id := inode]> (d_inodes d)).

(** [open(O_CREAT | O_EXCL)]: a new inode that the kernel has not used, with the mode that
    the umask leaves (written as 0; the store sets the mode itself). *)
Definition open_excl (name : bytes) (uid : Z) (d : Directory)
  : result IoErrorKind FileObjectIdentity * Directory * list FileObjectIdentity :=
  match d_names d !! name with
  | Some _ => (Err IoAlreadyExists, d, [])
  | None =>
      let id := fresh (dom (d_inodes d)) in
      let inode := mkInode TypeFile uid 0 1 (0, 0) (0, 0) [] in
      (Ok id, mkDirectory (d_identity d) (d_meta d) (<[name := id]> (d_names d))
                (<[id := inode]> (d_inodes d)), [])
  end.

Definition update_inode (id : FileObjectIdentity) (f : Inode → Inode) (d : Directory)
  : result IoErrorKind () * Directory * list FileObjectIdentity :=
  match d_inodes d !! id with
  | Some inode => (Ok (), with_inode d id (f inode), [])
  | None => (Err IoOther, d, [])
  end.

Definition chmod (mode : Z) (i : Inode) : Inode :=
  mkInode (in_type i) (in_uid i) mode (in_nlink i) (in_modified i) (in_changed i) (in_data i).
Definition write_all (data : bytes) (i : Inode) : Inode :=
  mkInode (in_type i) (in_uid i) (in_mode i) (in_nlink i) (in_modified i) (in_changed i)
    (in_data i ++ data).

(** [renameat2(RENAME_NOREPLACE)] *)
Definition rename_noreplace (from to : bytes) (d : Directory)
  : result IoErrorKind () * Directory * list FileObjectIdentity :=
  match d_names d !! from, d_names d !! to with
  | None, _ => (Err IoNotFound, d, [])
  | Some _, Some _ => (Err IoAlreadyExists, d, [])
  | Some id, None => (Ok (), with_names d (<[to := id]> (delete from (d_names d))), [])
  end.

(** [renameat2(RENAME_EXCHANGE)] *)
Definition rename_exchange (first second : bytes) (d : Directory)
  : result IoErrorKind () * Directory * list FileObjectIdentity :=
  match d_names d !! first, d_names d !! second with
  | Some a, Some b => (Ok (), with_names d (<[first := b]> (<[second := a]> (d_names d))), [])
  | _, _ => (Err IoNotFound, d, [])
  end.

(** [unlinkat] *)
Definition unlinkat (name : bytes) (d : Directory)
  : result IoErrorKind () * Directory * list FileObjectIdentity :=
  match d_names d !! name with
  | Some id => (Ok (), with_names d (delete name (d_names d)), [id])
  | None => (Err IoNotFound, d, [])
  end.

(** ** Checks on metadata *)

Definition permission_bits (mode : Z) : Z := Z.land mode 0x1FF.

Definition validate_security_values (expected_uid actual_uid expected_mode actual_mode link_count : Z)
  : result HostStateError () :=
  if negb (actual_uid =? expected_uid)
  then Err (HsUnsafeFile (WrongOwner expected_uid actual_uid)) else
  if negb (actual_mode =? expected_mode)
  then Err (HsUnsafeFile (WrongMode expected_mode actual_mode)) else
  if negb (link_count =? 1) then Err (HsUnsafeFile (MultipleHardLinks link_count)) else
  Ok ().

Definition is_file (i : Inode) : bool := match in_type i with TypeFile => true | _ => false end.

Definition validate_opened_regular_file (metadata : Inode) (expected_uid expected_mode : Z)
  : result HostStateError () :=
  if negb (is_file metadata) then Err (HsUnsafeFile NotRegular) else
  validate_security_values expected_uid (in_uid metadata) expected_mode
    (permission_bits (in_mode metadata)) (in_nlink metadata).

(** The fields that must be stable while a journal is read. *)
Record FileReadVersion := mkFileReadVersion {
  rv_identity : FileObjectIdentity;
  rv_length : Z;
  rv_modified : Z * Z;
  rv_changed : Z * Z }.
#[export] Instance FileReadVersion_eq_dec : EqDecision FileReadVersion.
Proof. solve_decision. Defined.

Definition read_version (id : FileObjectIdentity) (metadata : Inode) : FileReadVersion :=
  mkFileReadVersion id (len (in_data metadata)) (in_modified metadata) (in_changed metadata).

(** A single path component. *)
Definition c_component (value : bytes) : result HostStateError bytes :=
  if bool_decide (value = []) || bool_decide (value = [Byte.x2e])
     || bool_decide (value = [Byte.x2e; Byte.x2e]) || bool_decide (Byte.x2f ∈ value)
  then Err (HsUnsafeFile NotRegular) else
  if bool_decide (Byte.x00 ∈ value) then Err (HsIo IoInvalidInput) else Ok value.

(** ** The anchored directory *)

Definition is_dir (i : Inode) : bool := match in_type i with TypeDirectory => true | _ => false end.

(** The checks of [open] after the walk to the directory. *)
Definition check_directory (d : Directory) (expected_uid : Z) : result HostStateError () :=
  if negb (in_uid (d_meta d) =? expected_uid)
  then Err (HsUnsafeFile (WrongOwner expected_uid (in_uid (d_meta d)))) else
  let mode := permission_bits (in_mode (d_meta d)) in
  if negb (mode =? STATE_DIRECTORY_MODE) then Err (HsUnsafeFile (UnsafeParentMode mode)) else Ok ().

Definition anchor_open (expected_uid : Z) : Fs Anchor :=
  d ← io (look Ok);
  if negb (is_dir (d_meta d)) then fail (HsUnsafeFile ParentNotDirectory) else
  _ ← lift (check_directory d expected_uid);
  mret (mkAnchor (d_identity d) expected_uid).

Definition verify (a : Anchor) : Fs () :=
  d ← io (look Ok);
  if negb (is_dir (d_meta d)) || negb (bool_decide (d_identity d = an_identity a))
  then fail (HsUnsafeFile IdentityChanged) else
  lift (check_directory d (an_expected_uid a)).

Definition open_component (a : Anchor) (name : bytes) : Fs FileObjectIdentity :=
  _ ← verify a;
  io (look (openat name)).

Definition note_created (id : FileObjectIdentity) : Fs () :=
  λ w, (Ok (), mkWorld (w_dir w) (w_ticks w) (w_nonces w) (w_anchor w) (w_published w) (w_unlinked w)
                 (w_created w ++ [id])).

Definition create_component (a : Anchor) (name : bytes) : Fs FileObjectIdentity :=
  _ ← verify a;
  id ← io (syscall (open_excl name (an_expected_uid a)));
  _ ← note_created id;
  mret id.

Definition component_identity (a : Anchor) (name : bytes) : Fs (option FileObjectIdentity) :=
  _ ← verify a;
  io (look (λ d, Ok (d_names d !! name))).

Definition ensure_name_identity (a : Anchor) (name : bytes) (expected : FileObjectIdentity) : Fs () :=
  o ← component_identity a name;
  if bool_decide (o = Some expected) then mret () else fail (HsUnsafeFile IdentityChanged).

Definition reopen_verified_regular (a : Anchor) (name : bytes) (expected : FileObjectIdentity)
    (expected_mode : Z) : Fs () :=
  id ← open_component a name;
  metadata ← io (look (fstat id));
  _ ← lift (validate_opened_regular_file metadata (an_expected_uid a) expected_mode);
  if negb (bool_decide (id = expected)) then fail (HsUnsafeFile IdentityChanged) else
  ensure_name_identity a name expected.

Definition unlink_component (a : Anchor) (name : bytes) : Fs () :=
  _ ← verify a;
  io (syscall (unlinkat name)).

Definition sync (a : Anchor) : Fs () :=
  _ ← verify a;
  io (look (λ _, Ok ())).

Definition publish_noreplace_at (from to : bytes) : World → result IoErrorKind () * World :=
  syscall (rename_noreplace from to).
Definition exchange_at (first second : bytes) : World → result IoErrorKind () * World :=
  syscall (rename_exchange first second).

(** ** Journals in the directory *)

Section Store.
Context `{JournalJson}.

Definition serialize_journal (j : HostStateJournalV1) : result HostStateError bytes :=
  match validate j with
  | Err e => Err (HsInvalidJournal e)
  | Ok _ =>
      match to_vec j with
      | None => Err HsJson
      | Some b =>
          let b := b ++ [Byte.x0a] in
          if MAX_JOURNAL_BYTES <? len b then Err (HsTooLarge (len b) MAX_JOURNAL_BYTES) else Ok b
      end
  end.

(** The end of [read_journal_anchored]: from the bytes to a journal of this user. *)
Definition parse_journal (data : bytes) (expected_uid : Z) : result HostStateError HostStateJournalV1 :=
  j ← ok_or (from_slice data) HsJson;
  match validate j with
  | Err e => Err (HsInvalidJournal e)
  | Ok _ =>
      if negb (ow_uid (hj_owner j) =? expected_uid) then Err (HsInvalidJournal OwnerUid) else Ok j
  end.

Definition read_journal_anchored (a : Anchor) (name : bytes) (expected_uid : Z)
  : Fs (HostStateJournalV1 * FileObjectIdentity) :=
  id ← open_component a name;
  before ← io (look (fstat id));
  _ ← lift (validate_opened_regular_file before expected_uid JOURNAL_MODE);
  if MAX_JOURNAL_BYTES <? len (in_data before)
  then fail (HsTooLarge (len (in_data before)) MAX_JOURNAL_BYTES) else
  let version := read_version id before in
  _ ← ensure_name_identity a name id;
  data ← io (look (read_to_end id (MAX_JOURNAL_BYTES + 1)));
  if MAX_JOURNAL_BYTES <? len data then fail (HsTooLarge (len data) MAX_JOURNAL_BYTES) else
  after ← io (look (fstat id));
  _ ← lift (validate_opened_regular_file after expected_uid JOURNAL_MODE);
  if negb (bool_decide (read_version id after = version))
  then fail (HsUnsafeFile IdentityChanged) else
  _ ← ensure_name_identity a name id;
  j ← lift (parse_journal data expected_uid);
  mret (j, id).

(** [PendingTemp]: the staged file, held open. *)
Record PendingTemp := mkPendingTemp { pt_name : bytes; pt_identity : FileObjectIdentity }.

Definition verify_name (a : Anchor) (p : PendingTemp) : Fs () :=
  metadata ← io (look (fstat (pt_identity p)));
  _ ← ensure_name_identity a (pt_name p) (pt_identity p);
  lift (validate_opened_regular_file metadata (an_expected_uid a) JOURNAL_MODE).

(** [Drop]: the staged file goes unless it was published or its name is another's. *)
Definition drop_pending (a : Anchor) (p : PendingTemp) (w : World) : World :=
  if w_published w then w else
  match ensure_name_identity a (pt_name p) (pt_identity p) w with
  | (Ok _, w') => (unlink_component a (pt_name p) w').2
  | (Err _, w') => w'
  end.

Definition with_pending {A} (a : Anchor) (p : PendingTemp) (body : Fs A) : Fs A :=
  λ w, let '(r, w') := body w in (r, drop_pending a p w').

(** The random part of a temporary name. *)
Definition generate_nonce : Fs bytes :=
  λ w, match w_nonces w with
       | Some nonce :: rest =>
           (Ok nonce, mkWorld (w_dir w) (w_ticks w) rest (w_anchor w) (w_published w) (w_unlinked w) (w_created w))
       | None :: rest =>
           (Err HsEntropy,
            mkWorld (w_dir w) (w_ticks w) rest (w_anchor w) (w_published w) (w_unlinked w) (w_created w))
       | [] => (Err HsEntropy, w)
       end.

Definition PRIVATE_PREFIX : bytes := String.list_byte_of_string ".shadowpipe-journal".

(** The process identifier is part of the names; it is given in decimal. *)
Context (pid : bytes).

Definition temp_name (nonce : bytes) : bytes :=
  PRIVATE_PREFIX ++ [Byte.x2e] ++ pid ++ [Byte.x2e] ++ nonce ++ String.list_byte_of_string ".tmp".
Definition quarantine_name (nonce : bytes) : bytes :=
  PRIVATE_PREFIX ++ String.list_byte_of_string "-remove." ++ pid ++ [Byte.x2e] ++ nonce
  ++ String.list_byte_of_string ".tmp".

Definition start_pending : Fs () :=
  λ w, (Ok (), mkWorld (w_dir w) (w_ticks w) (w_nonces w) (w_anchor w) false (w_unlinked w) (w_created w)).

(** A pending file that fails its first verification is dropped. *)
Definition check_pending (a : Anchor) (p : PendingTemp) : Fs PendingTemp :=
  λ w, match verify_name a p w with
       | (Ok _, w') => (Ok p, w')
       | (Err e, w') => (Err e, drop_pending a p w')
       end.

(** The body of the loop after the file was created. *)
Definition fill_temp (a : Anchor) (data name : bytes) (file : FileObjectIdentity) : Fs PendingTemp :=
  _ ← io (syscall (update_inode file (chmod JOURNAL_MODE)));
  metadata ← io (look (fstat file));
  _ ← lift (validate_opened_regular_file metadata (an_expected_uid a) JOURNAL_MODE);
  _ ← ensure_name_identity a name file;
  _ ← io (syscall (update_inode file (write_all data)));
  _ ← io (look (λ _, Ok ()));
  let pending := mkPendingTemp name file in
  _ ← start_pending;
  check_pending a pending.

Fixpoint stage_loop (attempts : nat) (a : Anchor) (data : bytes) : Fs PendingTemp :=
  match attempts with
  | O => fail (HsIo IoAlreadyExists)
  | S attempts =>
      nonce ← generate_nonce;
      let name := temp_name nonce in
      (λ w, match create_component a name w with
            | (Ok file, w') => fill_temp a data name file w'
            | (Err (HsIo IoAlreadyExists), w') => stage_loop attempts a data w'
            | (Err e, w') => (Err e, w')
            end) : Fs PendingTemp
  end.

Definition stage_journal_anchored (a : Anchor) (data : bytes) : Fs PendingTemp :=
  if MAX_JOURNAL_BYTES <? len data then fail (HsTooLarge (len data) MAX_JOURNAL_BYTES)
  else stage_loop 32 a data.

(** ** [JournalStore] *)

Record JournalStore := mkJournalStore { js_name : bytes; js_expected_uid : Z }.

Definition anchored (store : JournalStore) : Fs (Anchor * bytes) :=
  name ← lift (c_component (js_name store));
  (λ w,
    let '(r, w) :=
      match w_anchor w with
      | Some a => (Ok a, w)
      | None =>
          match anchor_open (js_expected_uid store) w with
          | (Ok a, w) => (Ok a, mkWorld (w_dir w) (w_ticks w) (w_nonces w) (Some a) (w_published w)
                                  (w_unlinked w) (w_created w))
          | (Err e, w) => (Err e, w)
          end
      end in
    match r with
    | Err e => (Err e, w)
    | Ok a => (_ ← verify a; mret (a, name) : Fs (Anchor * bytes)) w
    end) : Fs (Anchor * bytes).

Definition load_with_identity (store : JournalStore) : Fs (HostStateJournalV1 * FileObjectIdentity) :=
  '(a, name) ← anchored store;
  read_journal_anchored a name (js_expected_uid store).

Definition store_load (store : JournalStore) : Fs HostStateJournalV1 :=
  '(j, _) ← load_with_identity store;
  mret j.

(** [JournalStore::create] after staging. *)
Definition create_publish (a : Anchor) (name : bytes) (p : PendingTemp) : Fs () :=
  _ ← verify_name a p;
  _ ← ((λ w, match publish_noreplace_at (pt_name p) name w with
             | (Ok _, w) => (Ok (), w)
             | (Err IoAlreadyExists, w) => (Err HsAlreadyExists, w)
             | (Err kind, w) => (Err (HsIo kind), w)
             end) : Fs ());
  _ ← set_published;
  _ ← ensure_name_identity a name (pt_identity p);
  sync a.

Definition store_create (store : JournalStore) (j : HostStateJournalV1) : Fs () :=
  if negb (hj_generation j =? 1) then fail (HsGenerationMismatch 1 (hj_generation j)) else
  if negb (ow_uid (hj_owner j) =? js_expected_uid store) then fail (HsInvalidJournal OwnerUid) else
  data ← lift (serialize_journal j);
  '(a, name) ← anchored store;
  p ← stage_journal_anchored a data;
  with_pending a p (create_publish a name p).

(** The journal that a replacement must follow. *)
Definition check_current (current j : HostStateJournalV1) : result HostStateError () :=
  if negb (bool_decide (ow_session_id (hj_owner current) = ow_session_id (hj_owner j)))
  then Err (HsSessionMismatch (ow_session_id (hj_owner current)) (ow_session_id (hj_owner j))) else
  expected_generation ← ok_or (u64_checked_add (hj_generation current) 1)
                          (HsGenerationMismatch (2 ^ 64 - 1) (hj_generation j));
  if negb (hj_generation j =? expected_generation)
  then Err (HsGenerationMismatch expected_generation (hj_generation j)) else
  match validate_successor current j with
  | Ok _ => Ok ()
  | Err e => Err (HsInvalidJournal e)
  end.

(** After an exchange that displaced another inode than the one that was read: the
    exchange is undone while both of its results are known. *)
Definition roll_back_exchange (a : Anchor) (name : bytes) (p : PendingTemp)
    (installed displaced : option FileObjectIdentity) : Fs () :=
  _ ← (if bool_decide (installed = Some (pt_identity p)) then
         match displaced with
         | None => fail (HsUnsafeFile IdentityChanged)
         | Some displaced =>
             λ w, match exchange_at (pt_name p) name w with
                  | (Ok _, w) =>
                      (_ ← ensure_name_identity a (pt_name p) (pt_identity p);
                       _ ← ensure_name_identity a name displaced;
                       sync a : Fs ()) w
                  | (Err kind, w) => (_ ← set_published; fail (HsIo kind) : Fs ()) w
                  end
         end
       else mret () : Fs ());
  fail (HsUnsafeFile IdentityChanged).

(** The exchange of the two generations, and the removal of the displaced one. *)
Definition replace_publish (a : Anchor) (name : bytes) (current : FileObjectIdentity)
    (p : PendingTemp) : Fs () :=
  _ ← reopen_verified_regular a name current JOURNAL_MODE;
  _ ← verify_name a p;
  _ ← io (exchange_at (pt_name p) name);
  installed ← component_identity a name;
  displaced ← component_identity a (pt_name p);
  if negb (bool_decide (installed = Some (pt_identity p)))
     || negb (bool_decide (displaced = Some current))
  then roll_back_exchange a name p installed displaced else
  _ ← set_published;
  _ ← ensure_name_identity a name (pt_identity p);
  _ ← reopen_verified_regular a (pt_name p) current JOURNAL_MODE;
  _ ← unlink_component a (pt_name p);
  left ← component_identity a (pt_name p);
  if bool_decide (is_Some left) then fail (HsUnsafeFile IdentityChanged) else
  sync a.

Definition store_replace (store : JournalStore) (j : HostStateJournalV1) : Fs () :=
  '(current, current_identity) ←
    ((λ w, match load_with_identity store w with
           | (Err (HsIo IoNotFound), w) => (Err HsMissing, w)
           | r => r
           end) : Fs (HostStateJournalV1 * FileObjectIdentity));
  _ ← lift (check_current current j);
  data ← lift (serialize_journal j);
  '(a, name) ← anchored store;
  p ← stage_journal_anchored a data;
  with_pending a p (replace_publish a name current_identity p).

(** Moving the journal to an unused private name. *)
Fixpoint quarantine_loop (attempts : nat) (name : bytes) : Fs bytes :=
  match attempts with
  | O => fail (HsIo IoAlreadyExists)
  | S attempts =>
      nonce ← generate_nonce;
      let candidate := quarantine_name nonce in
      (λ w, match publish_noreplace_at name candidate w with
            | (Ok _, w) => (Ok candidate, w)
            | (Err IoAlreadyExists, w) => quarantine_loop attempts name w
            | (Err kind, w) => (Err (HsIo kind), w)
            end) : Fs bytes
  end.

(** Another inode was moved: it goes back unless the name is taken again. *)
Definition restore_quarantined (a : Anchor) (name quarantine : bytes) : Fs () :=
  _ ← ((λ w, match publish_noreplace_at quarantine name w with
             | (Ok _, w) => sync a w
             | (Err IoAlreadyExists, w) => sync a w
             | (Err kind, w) => (_ ← sync a; fail (HsIo kind) : Fs ()) w
             end) : Fs ());
  fail (HsUnsafeFile IdentityChanged).

Definition remove_publish (a : Anchor) (name : bytes) (current : FileObjectIdentity) : Fs () :=
  _ ← reopen_verified_regular a name current JOURNAL_MODE;
  quarantine ← quarantine_loop 32 name;
  quarantined ← component_identity a quarantine;
  if negb (bool_decide (quarantined = Some current)) then restore_quarantined a name quarantine else
  _ ← reopen_verified_regular a quarantine current JOURNAL_MODE;
  _ ← unlink_component a quarantine;
  at_name ← component_identity a name;
  if bool_decide (is_Some at_name) then fail (HsUnsafeFile IdentityChanged) else
  at_quarantine ← component_identity a quarantine;
  if bool_decide (is_Some at_quarantine) then fail (HsUnsafeFile IdentityChanged) else
  sync a.

Definition store_remove_completed (store : JournalStore) (expected_session : bytes) : Fs () :=
  '(current, current_identity) ← load_with_identity store;
  if negb (bool_decide (ow_session_id (hj_owner current) = expected_session))
  then fail (HsSessionMismatch expected_session (ow_session_id (hj_owner current))) else
  if negb (is_fully_removed current) then fail HsJournalNotFullyRemoved else
  '(a, name) ← anchored store;
  remove_publish a name current_identity.
End Store.

(** * What the others did

    [env w w']: between the two states only other processes acted. *)
Record env (w w' : World) : Prop := {
  env_ticks : ∃ past, w_ticks w = past ++ w_ticks w'
                      ∧ w_dir w' = foldl (λ d t, tk_others t d) (w_dir w) past;
  env_published : w_published w' = w_published w;
  env_unlinked : w_unlinked w' = w_unlinked w;
  env_created : w_created w' = w_created w;
  env_anchor : ∀ a, w_anchor w = Some a → w_anchor w' = Some a }.

#[export] Instance env_refl : Reflexive env.
Proof. intros w. split; [|done..]. by exists []. Qed.
#[export] Instance env_trans : Transitive env.
Proof.
  intros w1 w2 w3 [(p1 & E1 & D1) P1 U1 C1 A1] [(p2 & E2 & D2) P2 U2 C2 A2].
  split; [|congruence..|by auto].
  exists (p1 ++ p2). rewrite E1, E2, app_assoc, foldl_app, <- D1. done.
Qed.

Lemma fs_bind {A B} (m : Fs A) (f : A → Fs B) w r w' :
  (m ≫= f) w = (r, w') →
  (∃ a w1, m w = (Ok a, w1) ∧ f a w1 = (r, w')) ∨ (∃ e, m w = (Err e, w') ∧ r = Err e).
Proof. unfold mbind, Fs_bind. destruct (m w) as [[a|e] w1]; intros E; simplify_eq; eauto 10. Qed.

(** A call after the others have acted: it fails without effect or acts. *)
Lemma syscall_spec {A} (act : Directory → result IoErrorKind A * Directory * list FileObjectIdentity)
    w r w' :
  syscall act w = (r, w') →
  ∃ w1, env w w1 ∧
    ((w' = w1 ∧ ∃ k, r = Err k)
     ∨ ∃ gone, act (w_dir w1) = (r, w_dir w', gone)
       ∧ w_ticks w' = w_ticks w1 ∧ w_published w' = w_published w1
       ∧ w_unlinked w' = w_unlinked w1 ++ gone ∧ w_created w' = w_created w1
       ∧ w_anchor w' = w_anchor w1).
Proof.
  unfold syscall. destruct (w_ticks w) as [|t ts] eqn:Et.
  - destruct (act (w_dir w)) as [[r0 d] gone] eqn:Ea. intros [= <- <-].
    exists w. split; [done|]. right. exists gone. by rewrite Et.
  - set (w1 := mkWorld (tk_others t (w_dir w)) ts (w_nonces w) (w_anchor w) (w_published w) (w_unlinked w) (w_created w)).
    assert (env w w1) as He by (split; [exists [t]; by rewrite Et|done..]).
    destruct (tk_fault t) as [k|].
    + intros [= <- <-]. exists w1. split; [done|]. left. by eauto.
    + destruct (act _) as [[r0 d] gone] eqn:Ea. intros [= <- <-].
      exists w1. split; [done|]. right. by exists gone.
Qed.

Lemma look_spec {A} (f : Directory → result IoErrorKind A) w r w' :
  io (look f) w = (r, w') → env w w' ∧ ∀ a, r = Ok a → f (w_dir w') = Ok a.
Proof.
  unfold io, look. destruct (syscall _ w) as [r0 w0] eqn:E. intros H.
  apply syscall_spec in E as (w1 & He & [[-> [k ->]]|(gone & Ha & Ht & Hp & Hu & Hcr & Han)]).
  - by injection H as <- <-.
  - injection Ha as Hf Hd Hg. subst gone. rewrite app_nil_r in Hu.
    assert (env w w0) as He'.
    { destruct He as [(past & E1 & D1) P1 U1 C1 A1]. split; [|congruence..|by rewrite Han].
      exists past. rewrite Ht, <- Hd. done. }
    destruct r0 as [a|k]; injection H as <- <-; split; try done.
    intros ? [= <-]. by rewrite <- Hd.
Qed.

Ltac fs_step H :=
  let a := fresh "a" in let w := fresh "w" in let Hm := fresh "Hm" in
  apply fs_bind in H as [(a & w & Hm & H)|(? & Hm & ->)].

(** The same for a computation known to succeed. *)
Ltac fs_ok H :=
  let a := fresh "a" in let w := fresh "w" in let Hm := fresh "Hm" in let Hr := fresh "Hr" in
  apply fs_bind in H as [(a & w & Hm & H)|(? & Hm & Hr)]; [|discriminate Hr].

(** Operations that only look. *)
Definition looking {A} (m : Fs A) : Prop := ∀ w r w', m w = (r, w') → env w w'.

Lemma looking_look {A} (f : Directory → result IoErrorKind A) : looking (io (look f)).
Proof. intros w r w' E. by apply look_spec in E as [? _]. Qed.
Lemma looking_ret {A} (a : A) : looking (mret a).
Proof. by intros w r w' [= <- <-]. Qed.
Lemma looking_fail {A} e : looking (@fail A e).
Proof. by intros w r w' [= <- <-]. Qed.
Lemma looking_lift {A} (r : result HostStateError A) : looking (lift r).
Proof. by intros w r' w' [= <- <-]. Qed.
Lemma looking_bind {A B} (m : Fs A) (f : A → Fs B) :
  looking m → (∀ a, looking (f a)) → looking (m ≫= f).
Proof. intros Hm Hf w r w' H. fs_step H; [|by eapply Hm]. etrans; [by eapply Hm|by eapply Hf]. Qed.
Lemma looking_if {A} (b : bool) (m1 m2 : Fs A) :
  looking m1 → looking m2 → looking (if b then m1 else m2).
Proof. by destruct b. Qed.

Create HintDb looking.
#[export] Hint Resolve looking_look looking_ret looking_fail looking_lift looking_bind looking_if : looking.

Lemma looking_verify a : looking (verify a).
Proof. unfold verify. auto with looking. Qed.
Lemma looking_anchor_open uid : looking (anchor_open uid).
Proof. unfold anchor_open. auto 10 with looking. Qed.
#[export] Hint Resolve looking_verify looking_anchor_open : looking.
Lemma looking_open_component a n : looking (open_component a n).
Proof. unfold open_component. auto with looking. Qed.
Lemma looking_component_identity a n : looking (component_identity a n).
Proof. unfold component_identity. auto with looking. Qed.
Lemma looking_sync a : looking (sync a).
Proof. unfold sync. auto with looking. Qed.
#[export] Hint Resolve looking_open_component looking_component_identity looking_sync : looking.
Lemma looking_ensure a n id : looking (ensure_name_identity a n id).
Proof. unfold ensure_name_identity. auto with looking. Qed.
#[export] Hint Resolve looking_ensure : looking.
Lemma looking_reopen a n id mode : looking (reopen_verified_regular a n id mode).
Proof. unfold reopen_verified_regular. auto 10 with looking. Qed.
Lemma looking_verify_name a p : looking (verify_name a p).
Proof. unfold verify_name. auto 10 with looking. Qed.
Lemma looking_read `{JournalJson} a n uid : looking (read_journal_anchored a n uid).
Proof. unfold read_journal_anchored. auto 30 with looking. Qed.
#[export] Hint Resolve looking_reopen looking_verify_name looking_read : looking.

Lemma looking_nonce : looking generate_nonce.
Proof.
  intros w r w'. unfold generate_nonce.
  destruct (w_nonces w) as [|[n|] ns]; intros [= <- <-]; try done; (split; [by exists []|done..]).
Qed.
#[export] Hint Resolve looking_nonce : looking.

Lemma looking_anchored store : looking (anchored store).
Proof.
  unfold anchored. apply looking_bind; [auto with looking|]. intros name w r w' E.
  destruct (w_anchor w) as [a|] eqn:Ea.
  - revert E. apply looking_bind; auto with looking.
  - destruct (anchor_open (js_expected_uid store) w) as [[a|e] w1] eqn:Eo;
      apply looking_anchor_open in Eo as He.
    + assert (looking (verify a ≫= λ _, mret (a, name))) as Hl by auto with looking.
      apply Hl in E. etrans; [|exact E]. destruct He as [Ht Hp Hu Hc _].
      split; simpl; try done. congruence.
    + by injection E as <- <-.
Qed.
#[export] Hint Resolve looking_anchored : looking.

Lemma looking_load `{JournalJson} store : looking (load_with_identity store).
Proof. unfold load_with_identity. apply looking_bind; [auto with looking|]. intros [a name]. auto with looking. Qed.

(** One call that changed the directory. *)
Record acted (w1 w' : World) (d : Directory) (gone : list FileObjectIdentity) : Prop := {
  ac_dir : w_dir w' = d;
  ac_ticks : w_ticks w' = w_ticks w1;
  ac_published : w_published w' = w_published w1;
  ac_unlinked : w_unlinked w' = w_unlinked w1 ++ gone;
  ac_created : w_created w' = w_created w1;
  ac_anchor : w_anchor w' = w_anchor w1 }.

Lemma syscall_cases {A} (act : Directory → result IoErrorKind A * Directory * list FileObjectIdentity)
    w r w' :
  (∀ d k d' g, act d = (Err k, d', g) → d' = d ∧ g = []) →
  syscall act w = (r, w') →
  (env w w' ∧ ∃ k, r = Err k)
  ∨ ∃ w1 a d gone, env w w1 ∧ r = Ok a ∧ act (w_dir w1) = (Ok a, d, gone) ∧ acted w1 w' d gone.
Proof.
  intros Hact E. apply syscall_spec in E as (w1 & He & [[-> [k ->]]|(gone & Ha & Ht & Hp & Hu & Hcr & Han)]).
  - left. by eauto.
  - destruct r as [a|k].
    + right. exists w1, a, (w_dir w'), gone. by split_and!.
    + left. apply Hact in Ha as [Hd ->]. split; [|by eauto]. rewrite app_nil_r in Hu.
      destruct He as [(past & E1 & D1) P1 U1 C1 A1]. split; [|congruence..|by rewrite Han].
      exists past. by rewrite Ht, Hd.
Qed.

Lemma exchange_cases a b w r w' :
  exchange_at a b w = (r, w') →
  (env w w' ∧ ∃ k, r = Err k)
  ∨ ∃ w1 x y, env w w1 ∧ r = Ok () ∧ d_names (w_dir w1) !! a = Some x ∧ d_names (w_dir w1) !! b = Some y
      ∧ acted w1 w' (with_names (w_dir w1) (<[a := y]> (<[b := x]> (d_names (w_dir w1))))) [].
Proof.
  intros E. apply syscall_cases in E as [?|(w1 & [] & d & gone & He & -> & Ha & Hac)]; [by left| |].
  - right. unfold rename_exchange in Ha.
    destruct (d_names (w_dir w1) !! a) as [x|] eqn:Ex, (d_names (w_dir w1) !! b) as [y|] eqn:Ey;
      try done. injection Ha as <- <-. exists w1, x, y. done.
  - intros d k d' g. unfold rename_exchange.
    destruct (d_names d !! a), (d_names d !! b); intros [= ? ? ?]; by subst.
Qed.

Lemma noreplace_cases a b w r w' :
  publish_noreplace_at a b w = (r, w') →
  (env w w' ∧ ∃ k, r = Err k)
  ∨ ∃ w1 x, env w w1 ∧ r = Ok () ∧ d_names (w_dir w1) !! a = Some x ∧ d_names (w_dir w1) !! b = None
      ∧ acted w1 w' (with_names (w_dir w1) (<[b := x]> (delete a (d_names (w_dir w1))))) [].
Proof.
  intros E. apply syscall_cases in E as [?|(w1 & [] & d & gone & He & -> & Ha & Hac)]; [by left| |].
  - right. unfold rename_noreplace in Ha.
    destruct (d_names (w_dir w1) !! a) as [x|] eqn:Ex, (d_names (w_dir w1) !! b) as [y|] eqn:Ey;
      try done. injection Ha as <- <-. by exists w1, x.
  - intros d k d' g. unfold rename_noreplace.
    destruct (d_names d !! a), (d_names d !! b); intros [= ? ? ?]; by subst.
Qed.

Lemma io_cases {A} (m : World → result IoErrorKind A * World) w r w' :
  io m w = (r, w') →
  (∃ a, m w = (Ok a, w') ∧ r = Ok a) ∨ (∃ k, m w = (Err k, w') ∧ r = Err (HsIo k)).
Proof. unfold io. destruct (m w) as [[a|k] w1]; intros [= <- <-]; eauto. Qed.

Lemma unlink_cases a n w r w' :
  unlink_component a n w = (r, w') →
  (env w w' ∧ ∃ e, r = Err e)
  ∨ ∃ w1 id, env w w1 ∧ r = Ok () ∧ d_names (w_dir w1) !! n = Some id
      ∧ acted w1 w' (with_names (w_dir w1) (delete n (d_names (w_dir w1)))) [id].
Proof.
  unfold unlink_component. intros E. fs_step E; [|left; split; [by eapply looking_verify|by eauto]].
  apply looking_verify in Hm.
  assert (∀ d k d' g, unlinkat n d = (Err k, d', g) → d' = d ∧ g = []) as Hnone.
  { intros d k d' g. unfold unlinkat. destruct (d_names d !! n); intros [= ? ? ?]; by subst. }
  apply io_cases in E as [([] & E & ->)|(k & E & ->)];
    apply syscall_cases in E as [[He [k' Hk]]|(w1 & [] & d & gone & He & Hr & Ha & Hac)]; try done.
  - right. unfold unlinkat in Ha. destruct (d_names (w_dir w1) !! n) as [id|] eqn:Ei; [|done].
    injection Ha as <- <-. exists w1, id. split_and!; try done. by etrans.
  - left. split; [by etrans|by eauto].
Qed.

(** What a successful look says about the directory at its end. *)
Lemma component_identity_Ok a n w o w' :
  component_identity a n w = (Ok o, w') → d_names (w_dir w') !! n = o.
Proof.
  unfold component_identity. intros E. fs_ok E.
  apply look_spec in E as [_ E]. specialize (E o eq_refl). by injection E.
Qed.

Lemma ensure_Ok a n id w w' :
  ensure_name_identity a n id w = (Ok (), w') → d_names (w_dir w') !! n = Some id.
Proof.
  unfold ensure_name_identity. intros E. fs_ok E.
  apply component_identity_Ok in Hm. case_bool_decide; [|done]. injection E as <-. congruence.
Qed.

Lemma reopen_Ok a n id mode w w' :
  reopen_verified_regular a n id mode w = (Ok (), w') → d_names (w_dir w') !! n = Some id.
Proof.
  unfold reopen_verified_regular. intros E. do 3 fs_ok E.
  case_bool_decide; simpl in E; [|done]. by eapply ensure_Ok.
Qed.

Lemma verify_name_Ok a p w w' :
  verify_name a p w = (Ok (), w') → ∃ w1, env w1 w' ∧ d_names (w_dir w1) !! pt_name p = Some (pt_identity p).
Proof.
  unfold verify_name. intros E. do 2 fs_ok E. exists w1.
  split; [by eapply looking_lift|by destruct a1; eapply ensure_Ok].
Qed.

(** * Foreign files are never unlinked *)

Definition private (n : bytes) : Prop := PRIVATE_PREFIX `prefix_of` n.

(** Other processes leave the private names of the store alone. *)
Definition polite (w : World) : Prop :=
  Forall (λ t, ∀ d n, private n → d_names (tk_others t d) !! n = d_names d !! n) (w_ticks w).

Lemma env_polite w w' :
  env w w' → polite w →
  polite w' ∧ ∀ n, private n → d_names (w_dir w') !! n = d_names (w_dir w) !! n.
Proof.
  intros [(past & Et & Ed) _ _ _ _]. unfold polite. rewrite Et, Forall_app, Ed. intros [Hp Hw].
  split; [done|]. clear Et Ed Hw. generalize (w_dir w). induction Hp as [|t past Ht _ IH]; [done|].
  intros d n Hn. simpl. rewrite IH by done. by apply Ht.
Qed.

Lemma env_private w w' n x :
  env w w' → polite w → private n → d_names (w_dir w) !! n = x → d_names (w_dir w') !! n = x.
Proof. intros He Hp Hn <-. by apply env_polite. Qed.

(** The inodes unlinked between two states satisfy [own]. *)
Definition unlinks (own : FileObjectIdentity → Prop) (w w' : World) : Prop :=
  polite w →
  polite w' ∧ w_created w `prefix_of` w_created w'
  ∧ ∃ l, w_unlinked w' = w_unlinked w ++ l ∧ Forall own l.

#[export] Instance unlinks_trans own : Transitive (unlinks own).
Proof.
  intros w1 w2 w3 H12 H23 Hp. destruct (H12 Hp) as (Hp2 & C1 & l1 & E1 & F1).
  destruct (H23 Hp2) as (Hp3 & C2 & l2 & E2 & F2). split; [done|]. split; [by etrans|].
  exists (l1 ++ l2). rewrite E2, E1, app_assoc. by rewrite Forall_app.
Qed.

Lemma env_unlinks own w w' : env w w' → unlinks own w w'.
Proof.
  intros He Hp. split; [by eapply env_polite|].
  split; [by rewrite (env_created _ _ He)|]. exists []. rewrite app_nil_r.
  split; [apply (env_unlinked _ _ He)|constructor].
Qed.

Lemma acted_unlinks (own : FileObjectIdentity → Prop) w1 w' d gone :
  acted w1 w' d gone → Forall own gone → unlinks own w1 w'.
Proof.
  intros [Hd Ht Hpub Hu Hc _] Hg Hp. unfold polite in *. rewrite Ht, Hc. split; [done|].
  split; [done|]. by exists gone.
Qed.

Lemma looking_unlinks {A} (m : Fs A) own w r w' : looking m → m w = (r, w') → unlinks own w w'.
Proof. intros Hl E. apply env_unlinks. by eapply Hl. Qed.

Lemma set_published_unlinks own w r w' : set_published w = (r, w') → unlinks own w w'.
Proof. intros [= <- <-] Hp. split; [done|]. split; [done|]. exists []. by rewrite app_nil_r. Qed.

(** A private name that was seen with [id] is unlinked with that identity. *)
Lemma unlink_private a n id w0 w r w' (own : FileObjectIdentity → Prop) :
  private n → own id → d_names (w_dir w0) !! n = Some id → polite w0 → env w0 w →
  unlink_component a n w = (r, w') → unlinks own w w'.
Proof.
  intros Hn Hown Hid Hp He E. apply unlink_cases in E as [[He' _]|(w1 & id' & He' & _ & Hid' & Hac)].
  - by apply env_unlinks.
  - etrans; [by apply env_unlinks|]. eapply acted_unlinks; [done|].
    assert (id' = id) as ->; [|by repeat constructor].
    assert (env w0 w1) as He01 by by etrans.
    rewrite (env_private _ _ _ _ He01 Hp Hn Hid) in Hid'. congruence.
Qed.

Lemma drop_pending_unlinks a p w (own : FileObjectIdentity → Prop) :
  private (pt_name p) → own (pt_identity p) → unlinks own w (drop_pending a p w).
Proof.
  intros Hn Hown Hp. unfold drop_pending. destruct (w_published w).
  { split; [done|]. split; [done|]. exists []. by rewrite app_nil_r. }
  destruct (ensure_name_identity a (pt_name p) (pt_identity p) w) as [[[]|e] w1] eqn:E.
  - assert (unlinks own w w1) as H1 by (by eapply looking_unlinks; [apply looking_ensure|]).
    destruct (unlink_component a (pt_name p) w1) as [r w2] eqn:E2. simpl.
    destruct (H1 Hp) as [Hp1 _].
    assert (unlinks own w1 w2) as H2.
    { eapply unlink_private; [done|done|by eapply ensure_Ok|done|reflexivity|done]. }
    by apply (unlinks_trans own w w1 w2).
  - revert Hp. by eapply looking_unlinks; [apply looking_ensure|].
Qed.

(** Computations that unlink only inodes with [own], by their structure. *)
Definition only {A} (own : FileObjectIdentity → Prop) (m : Fs A) : Prop :=
  ∀ w r w', m w = (r, w') → unlinks own w w'.

Lemma only_looking {A} own (m : Fs A) : looking m → only own m.
Proof. intros Hl w r w'. by apply looking_unlinks. Qed.
Lemma only_bind {A B} own (m : Fs A) (f : A → Fs B) :
  only own m → (∀ a, only own (f a)) → only own (m ≫= f).
Proof. intros Hm Hf w r w' E. fs_step E; [|by eapply Hm]. etrans; [by eapply Hm|by eapply Hf]. Qed.
Lemma only_published own : only own set_published.
Proof. intros w r w'. apply set_published_unlinks. Qed.
Lemma only_exchange {A} own a b (f : result IoErrorKind () → Fs A) :
  (∀ r, only own (f r)) → only own (λ w, let '(r, w') := exchange_at a b w in f r w').
Proof.
  intros Hf w r w'. destruct (exchange_at a b w) as [r0 w0] eqn:E. intros Ef. apply Hf in Ef.
  etrans; [|exact Ef].
  apply exchange_cases in E as [[He _]|(w1 & x & y & He & _ & _ & _ & Hac)]; [by apply env_unlinks|].
  etrans; [by apply env_unlinks|by eapply acted_unlinks].
Qed.
Lemma only_noreplace {A} own a b (f : result IoErrorKind () → Fs A) :
  (∀ r, only own (f r)) → only own (λ w, let '(r, w') := publish_noreplace_at a b w in f r w').
Proof.
  intros Hf w r w'. destruct (publish_noreplace_at a b w) as [r0 w0] eqn:E. intros Ef. apply Hf in Ef.
  etrans; [|exact Ef].
  apply noreplace_cases in E as [[He _]|(w1 & x & He & _ & _ & _ & Hac)]; [by apply env_unlinks|].
  etrans; [by apply env_unlinks|by eapply acted_unlinks].
Qed.
Lemma only_ext {A} own (m m' : Fs A) : (∀ w, m w = m' w) → only own m' → only own m.
Proof. intros He Hm w r w' E. rewrite He in E. by eapply Hm. Qed.

Lemma only_roll_back a name p o1 o2 own : only own (roll_back_exchange a name p o1 o2).
Proof.
  unfold roll_back_exchange. apply only_bind; [|intros _; apply only_looking, looking_fail].
  destruct (bool_decide _); [|apply only_looking, looking_ret].
  destruct o2 as [displaced|]; [|apply only_looking, looking_fail].
  eapply only_ext; [|apply (only_exchange own (pt_name p) name (λ r, match r with
    | Ok _ => _ ← ensure_name_identity a (pt_name p) (pt_identity p);
              _ ← ensure_name_identity a name displaced; sync a
    | Err k => _ ← set_published; fail (HsIo k) end))].
  - intros w. cbv beta. by destruct (exchange_at (pt_name p) name w) as [[] ?].
  - intros [[]|k].
    + apply only_looking. auto with looking.
    + apply only_bind; [apply only_published|intros _; apply only_looking, looking_fail].
Qed.

(** One look of a sequence. *)
Ltac fs_look E Hm :=
  let a := fresh "a" in let w1 := fresh "w" in
  apply fs_bind in E as [(a & w1 & Hm & E)|(? & Hm & ->)];
  [transitivity w1; [solve [eapply looking_unlinks; [|exact Hm]; auto with looking]|]
  |solve [eapply looking_unlinks; [|exact Hm]; auto with looking]].

(** A private name goes after it was seen to hold the inode that was read. *)
Lemma reopen_unlink_unlinks {A} a n current (rest : Fs A) w r w' :
  private n → only (λ id, id = current) rest →
  (_ ← reopen_verified_regular a n current JOURNAL_MODE; _ ← unlink_component a n; rest) w = (r, w') →
  unlinks (λ id, id = current) w w'.
Proof.
  intros Hn Hrest E. fs_look E Hre. destruct a0. intros Hp. apply reopen_Ok in Hre as Hid.
  assert (unlinks (λ id, id = current) w0 w') as H; [|exact (H Hp)].
  assert (∀ r w1, unlink_component a n w0 = (r, w1) → unlinks (λ id, id = current) w0 w1) as Hun.
  { intros r0 w1 Hu. eapply unlink_private; [done|reflexivity|exact Hid|done|reflexivity|done]. }
  fs_step E; [|by eapply Hun]. etrans; [by eapply Hun|by eapply Hrest].
Qed.

Lemma replace_publish_unlinks a name current p w r w' :
  private (pt_name p) → replace_publish a name current p w = (r, w') →
  unlinks (λ id, id = current) w w'.
Proof.
  intros Hn E. unfold replace_publish in E. fs_look E Hre. fs_look E Hv.
  apply fs_bind in E as [(a2 & w2 & Hm & E)|(? & Hm & ->)].
  2: { apply io_cases in Hm as [(? & _ & [=])|(k & Hm & _)].
       apply exchange_cases in Hm as [[He _]|(? & ? & ? & _ & [=] & _)]. by apply env_unlinks. }
  transitivity w2.
  { apply io_cases in Hm as [([] & Hm & _)|(k & _ & [=])].
    apply exchange_cases in Hm as [[_ [? [=]]]|(w3 & x & y & He & _ & _ & _ & Hac)].
    etrans; [by apply env_unlinks|by eapply acted_unlinks]. }
  clear Hm Hre Hv. fs_look E Hc1. fs_look E Hc2.
  destruct (negb _ || negb _); [by eapply only_roll_back|].
  apply fs_bind in E as [(a6 & w6 & Hm & E)|(? & [=] & _)].
  transitivity w6; [by eapply set_published_unlinks|].
  fs_look E Hen. eapply reopen_unlink_unlinks; [done| |exact E].
  apply only_looking. auto with looking.
Qed.

Lemma private_temp pid nonce : private (temp_name pid nonce).
Proof. by eexists. Qed.
Lemma private_quarantine pid nonce : private (quarantine_name pid nonce).
Proof. by eexists. Qed.

Lemma quarantine_loop_spec own pid attempts name w r w' :
  quarantine_loop pid attempts name w = (r, w') →
  unlinks own w w' ∧ ∀ n, r = Ok n → private n.
Proof.
  revert w; induction attempts as [|attempts IH]; intros w E; simpl in E.
  { injection E as <- <-. split; [by apply env_unlinks|done]. }
  apply fs_bind in E as [(nonce & w1 & Hn & E)|(? & Hn & ->)]; apply looking_nonce in Hn.
  2: { split; [by apply env_unlinks|done]. }
  destruct (publish_noreplace_at name (quarantine_name pid nonce) w1) as [r0 w2] eqn:Ep.
  assert (unlinks own w w2) as H2.
  { etrans; [by apply env_unlinks|].
    apply noreplace_cases in Ep as [[He _]|(w3 & x & He & _ & _ & _ & Hac)]; [by apply env_unlinks|].
    etrans; [by apply env_unlinks|by eapply acted_unlinks]. }
  destruct r0 as [[]|[]]; try (injection E as <- <-; split; [done|]; try done).
  - intros n [= <-]. apply private_quarantine.
  - destruct (IH w2 E) as [H Hp]. split; [by etrans|done].
Qed.

Lemma remove_publish_unlinks pid a name current w r w' :
  remove_publish pid a name current w = (r, w') → unlinks (λ id, id = current) w w'.
Proof.
  unfold remove_publish. intros E. fs_look E Hre.
  apply fs_bind in E as [(q & w1 & Hq & E)|(? & Hq & ->)];
    apply (quarantine_loop_spec (λ id, id = current)) in Hq as [Hu Hn]; [|done].
  specialize (Hn q eq_refl). etrans; [exact Hu|]. fs_look E Hc.
  destruct (negb _).
  - revert E. unfold restore_quarantined. apply only_bind; [|intros; apply only_looking, looking_fail].
    eapply only_ext; [|apply (only_noreplace _ q name (λ r, match r with
      | Ok _ => sync a | Err IoAlreadyExists => sync a
      | Err k => _ ← sync a; fail (HsIo k) end))].
    + intros w3. cbv beta. by destruct (publish_noreplace_at q name w3) as [[[]|[]] ?].
    + intros [[]|[]]; apply only_looking; auto with looking.
  - eapply reopen_unlink_unlinks; [exact Hn| |exact E]. apply only_looking. auto 20 with looking.
Qed.

(** Calls that change inodes or add names unlink nothing. *)
Lemma only_syscall {A} own (act : Directory → result IoErrorKind A * Directory * list FileObjectIdentity) :
  (∀ d, (act d).2 = []) → only own (io (syscall act)).
Proof.
  intros Hact w r w' E.
  assert (∃ r0, syscall act w = (r0, w')) as [r0 E0].
  { apply io_cases in E as [(? & ? & _)|(? & ? & _)]; eauto. }
  apply syscall_spec in E0 as (w1 & He & [[-> _]|(gone & Ha & Ht & Hp & Hu & Hcr & Han)]); [by apply env_unlinks|].
  etrans; [by apply env_unlinks|]. specialize (Hact (w_dir w1)). rewrite Ha in Hact. simpl in Hact.
  subst gone. eapply (acted_unlinks own w1 w' (w_dir w') []); [by split|done].
Qed.

Lemma only_update own id f : only own (io (syscall (update_inode id f))).
Proof. apply only_syscall. intros d. unfold update_inode. by destruct (d_inodes d !! id). Qed.

Lemma create_component_spec own a n w r w' :
  create_component a n w = (r, w') →
  unlinks own w w' ∧ ∀ id, r = Ok id → id ∈ w_created w'.
Proof.
  assert (only own (io (syscall (open_excl n (an_expected_uid a))))) as Hopen.
  { apply only_syscall. intros d. unfold open_excl. by destruct (d_names d !! n). }
  unfold create_component. intros E.
  apply fs_bind in E as [(? & w1 & Hv & E)|(? & Hv & ->)];
    apply (only_looking own _ (looking_verify a)) in Hv; [|done].
  apply fs_bind in E as [(id & w2 & Ho & E)|(? & Ho & ->)]; apply Hopen in Ho; [|by split; [etrans|]].
  injection E as <- <-. split.
  - etrans; [exact Hv|]. etrans; [exact Ho|]. intros Hp. split; [done|].
    split; [by eexists|]. exists []. by rewrite app_nil_r.
  - intros ? [= <-]. simpl. apply elem_of_app. right. by left.
Qed.

(** Staging unlinks at most what it created. *)
Lemma fill_temp_spec (own : FileObjectIdentity → Prop) a data name file w r w' :
  private name → own file → fill_temp a data name file w = (r, w') →
  unlinks own w w' ∧ ∀ p, r = Ok p → p = mkPendingTemp name file.
Proof.
  intros Hn Hown E. unfold fill_temp in E.
  assert (only own (check_pending a (mkPendingTemp name file))) as Hcheck.
  { intros w0 r0 w0' Ec. unfold check_pending in Ec.
    destruct (verify_name a (mkPendingTemp name file) w0) as [[[]|e] w1] eqn:Ev;
      apply (only_looking own _ (looking_verify_name _ _)) in Ev; injection Ec as <- <-; [done|].
    etrans; [exact Ev|]. by apply drop_pending_unlinks. }
  assert (only own start_pending) as Hstart.
  { intros w0 r0 w0' [= <- <-] Hp. split; [done|]. split; [done|]. exists []. by rewrite app_nil_r. }
  split.
  - revert E. repeat (apply only_bind; [|intros]); try apply only_update; try done;
      apply only_looking; auto with looking.
  - intros p ->. do 7 fs_ok E. unfold check_pending in E.
    destruct (verify_name _ _ _) as [[[]|e] w8]; by simplify_eq.
Qed.

Lemma stage_loop_spec pid attempts a data w r w' :
  stage_loop pid attempts a data w = (r, w') → polite w →
  unlinks (λ id, id ∈ w_created w') w w'
  ∧ ∀ p, r = Ok p → private (pt_name p) ∧ pt_identity p ∈ w_created w'.
Proof.
  revert w; induction attempts as [|attempts IH]; intros w E Hp; simpl in E.
  { injection E as <- <-. split; [by apply env_unlinks|done]. }
  apply fs_bind in E as [(nonce & w1 & Hn & E)|(? & Hn & ->)]; apply looking_nonce in Hn.
  2: { split; [by apply env_unlinks|done]. }
  destruct (create_component a (temp_name pid nonce) w1) as [r2 w2] eqn:Ec.
  apply (create_component_spec (λ id, id ∈ w_created w')) in Ec as [Hc Hid].
  assert (unlinks (λ id, id ∈ w_created w') w w2) as Hw2
    by (etrans; [by apply env_unlinks|exact Hc]).
  destruct (Hw2 Hp) as (Hp2 & _ & _).
  destruct r2 as [file|e].
  - specialize (Hid file eq_refl).
    assert (w_created w2 `prefix_of` w_created w') as Hpre.
    { apply (fill_temp_spec (λ _, True)) in E as [E _]; [|apply private_temp|done]. by apply E. }
    assert (file ∈ w_created w') as Hid'
      by (destruct Hpre as [k ->]; apply elem_of_app; by left).
    apply (fill_temp_spec (λ id, id ∈ w_created w')) in E as [E Hr]; [|apply private_temp|done].
    split; [by etrans|]. intros p ->%Hr. simpl. split; [apply private_temp|done].
  - destruct e as [[]| | | | | | | | | |]; try (injection E as <- <-; by split).
    destruct (IH w2 E Hp2) as [H Hr]. split; [by etrans|done].
Qed.

Lemma with_pending_unlinks {A} (own : FileObjectIdentity → Prop) a p (body : Fs A) w r w' :
  private (pt_name p) → own (pt_identity p) →
  (∀ r w1, body w = (r, w1) → unlinks own w w1) →
  with_pending a p body w = (r, w') → unlinks own w w'.
Proof.
  intros Hn Hown Hbody E. unfold with_pending in E. destruct (body w) as [r1 w1] eqn:Eb.
  injection E as <- <-. etrans; [by eapply Hbody|by apply drop_pending_unlinks].
Qed.

Lemma unlinks_mono (own own' : FileObjectIdentity → Prop) w w' :
  (∀ id, own id → own' id) → unlinks own w w' → unlinks own' w w'.
Proof.
  intros Ho H Hp. destruct (H Hp) as (? & ? & l & ? & ?). split_and!; try done.
  exists l. split; [done|]. by eapply Forall_impl.
Qed.

Lemma create_publish_unlinks a name p own w r w' :
  create_publish a name p w = (r, w') → unlinks own w w'.
Proof.
  revert w r w'. change (only own (create_publish a name p)). unfold create_publish.
  apply only_bind; [apply only_looking; auto with looking|intros _].
  apply only_bind; [|intros _; apply only_bind;
    [apply only_published|intros _; apply only_looking; auto with looking]].
  eapply only_ext; [|apply (only_noreplace own (pt_name p) name (λ r, match r with
    | Ok _ => mret () | Err IoAlreadyExists => fail HsAlreadyExists
    | Err k => fail (HsIo k) end))].
  - intros w. cbv beta. by destruct (publish_noreplace_at (pt_name p) name w) as [[[]|[]] ?].
  - intros [[]|[]]; apply only_looking; auto with looking.
Qed.

(** The end of [create] and [replace]: stage, then publish under the drop guard. *)
Lemma stage_publish_unlinks {A} pid (own : FileObjectIdentity → Prop) a data (body : PendingTemp → Fs A)
    w r w' :
  (∀ p, private (pt_name p) → only own (body p)) →
  (p ← stage_journal_anchored pid a data; with_pending a p (body p)) w = (r, w') →
  unlinks (λ id, own id ∨ id ∈ w_created w') w w'.
Proof.
  intros Hbody E Hp. unfold stage_journal_anchored in E.
  destruct (MAX_JOURNAL_BYTES <? len data).
  { injection E as <- <-. by apply (env_unlinks _ w w). }
  apply fs_bind in E as [(p & w1 & Hs & E)|(? & Hs & ->)]; apply stage_loop_spec in Hs as [Hs Hpt]; try done.
  2: { revert Hp. eapply unlinks_mono; [|exact Hs]. auto. }
  destruct (Hpt p eq_refl) as [Hpriv Hcr].
  assert (unlinks (λ id, own id ∨ id ∈ w_created w1) w1 w') as H1.
  { eapply with_pending_unlinks; [done|by right| |exact E]. intros r0 w2 Eb.
    eapply unlinks_mono; [|by eapply Hbody]. auto. }
  destruct (Hs Hp) as (Hp1 & _ & _). destruct (H1 Hp1) as (_ & [k Hk] & _).
  refine (unlinks_trans _ w w1 w' _ _ Hp); [eapply unlinks_mono; [|exact Hs]|eapply unlinks_mono; [|exact H1]];
    intros id; rewrite Hk, ?elem_of_app; tauto.
Qed.

(** C20: whatever the other processes do to the directory between the system calls of the
    store, as long as they leave its private temporary names alone, and whichever of the
    calls fail, the store unlinks no foreign file: every inode that [replace] unlinks was
    created by this process or is the journal that the same call read, verified and found
    to be the predecessor of the new one; [create] unlinks only what it created; and
    [remove_completed] unlinks only a journal that the same call read and found to be of
    its session and fully removed. *)
Theorem store_spares_foreign_files `{JournalJson} pid store w :
  polite w →
  (∀ j r w', store_replace pid store j w = (r, w') →
     ∃ l, w_unlinked w' = w_unlinked w ++ l
       ∧ Forall (λ id, id ∈ w_created w'
                       ∨ ∃ current w1, load_with_identity store w = (Ok (current, id), w1)
                                       ∧ check_current current j = Ok ()) l)
  ∧ (∀ j r w', store_create pid store j w = (r, w') →
     ∃ l, w_unlinked w' = w_unlinked w ++ l ∧ Forall (λ id, id ∈ w_created w') l)
  ∧ (∀ session r w', store_remove_completed pid store session w = (r, w') →
     ∃ l, w_unlinked w' = w_unlinked w ++ l
       ∧ Forall (λ id, ∃ current w1, load_with_identity store w = (Ok (current, id), w1)
                         ∧ ow_session_id (hj_owner current) = session
                         ∧ is_fully_removed current = true) l).
Proof.
  intros Hp.
  assert (∀ own w', unlinks own w w' → ∃ l, w_unlinked w' = w_unlinked w ++ l ∧ Forall own l) as Hend.
  { intros own w' Hu. destruct (Hu Hp) as (_ & _ & Hl). exact Hl. }
  split_and!.
  - intros j r w' E. unfold store_replace in E.
    apply fs_bind in E as [([current id] & w1 & Hload & E)|(e & Hload & ->)].
    2: { apply Hend, env_unlinks. destruct (load_with_identity store w) as [r1 w1] eqn:El.
         apply looking_load in El. destruct r1 as [[]|[[]| | | | | | | | | |]]; by simplify_eq. }
    assert (load_with_identity store w = (Ok (current, id), w1)) as Hl.
    { destruct (load_with_identity store w) as [[[]|[[]| | | | | | | | | |]] w0]; by simplify_eq. }
    clear Hload. apply looking_load in Hl as He1.
    apply fs_bind in E as [([] & w2 & Hck & E)|(e & Hck & ->)]; injection Hck as Hck <-;
      [|by apply Hend, env_unlinks].
    apply Hend. eapply (unlinks_mono (λ x, x = id ∨ x ∈ w_created w')); [intros ? [->|?]; eauto|].
    etrans; [by apply env_unlinks|].
    fs_look E Hser. apply fs_bind in E as [([an nm] & w3 & Han & E)|(e & Han & ->)];
      apply looking_anchored in Han; [|by apply env_unlinks].
    etrans; [by apply env_unlinks|]. eapply stage_publish_unlinks; [|exact E].
    intros p Hpriv w4 r4 w5 E4. by eapply replace_publish_unlinks.
  - intros j r w' E. unfold store_create in E. apply Hend.
    destruct (negb _); [by injection E as <- <-; apply env_unlinks|].
    destruct (negb _); [by injection E as <- <-; apply env_unlinks|].
    fs_look E Hser. apply fs_bind in E as [([an nm] & w3 & Han & E)|(e & Han & ->)];
      apply looking_anchored in Han; [|by apply env_unlinks].
    etrans; [by apply env_unlinks|].
    eapply (unlinks_mono (λ x, False ∨ x ∈ w_created w')); [tauto|].
    eapply stage_publish_unlinks; [|exact E]. intros p _ w4 r4 w5. apply create_publish_unlinks.
  - intros session r w' E. unfold store_remove_completed in E. apply Hend.
    apply fs_bind in E as [([current id] & w1 & Hl & E)|(e & Hl & ->)];
      apply looking_load in Hl as He1; [|by apply env_unlinks].
    etrans; [by apply env_unlinks|].
    case_bool_decide as Hs; simpl in E; [|by injection E as <- <-; apply env_unlinks].
    destruct (is_fully_removed current) eqn:Hf; simpl in E; [|by injection E as <- <-; apply env_unlinks].
    apply fs_bind in E as [([an nm] & w3 & Han & E)|(e & Han & ->)];
      apply looking_anchored in Han; [|by apply env_unlinks].
    etrans; [by apply env_unlinks|].
    eapply (unlinks_mono (λ x, x = id)); [intros ? ->; by eauto 10|by eapply remove_publish_unlinks].
Qed.

(** * The only writer

    With the lease held no other process writes the directory; system calls may still
    fail at any point. *)

Definition sole (w : World) : Prop := Forall (λ t, ∀ d, tk_others t d = d) (w_ticks w).

Lemma env_sole w w' : env w w' → sole w → sole w' ∧ w_dir w' = w_dir w.
Proof.
  intros [(past & Et & Ed) _ _ _ _]. unfold sole. rewrite Et, Forall_app, Ed. intros [Hp Hw].
  split; [done|]. clear Et Ed Hw. generalize (w_dir w). induction Hp as [|t past Ht _ IH]; [done|].
  intros d. simpl. by rewrite Ht, IH.
Qed.

(** The journal in an inode, and under the name of the store. *)
Section Held.
Context `{JournalJson}.

Definition journal_at (uid : Z) (d : Directory) (id : FileObjectIdentity) : option HostStateJournalV1 :=
  i ← d_inodes d !! id;
  if is_ok (validate_opened_regular_file i uid JOURNAL_MODE) && (len (in_data i) <=? MAX_JOURNAL_BYTES)
  then match parse_journal (in_data i) uid with Ok j => Some j | Err _ => None end
  else None.

Definition held (store : JournalStore) (d : Directory) : option HostStateJournalV1 :=
  id ← d_names d !! js_name store; journal_at (js_expected_uid store) d id.
End Held.

(** The entry of a name is the same and no inode is lost. *)
Record same_at (n : bytes) (d d' : Directory) : Prop := {
  sa_name : d_names d' !! n = d_names d !! n;
  sa_inodes : d_inodes d ⊆ d_inodes d' }.

#[export] Instance same_at_refl n : Reflexive (same_at n).
Proof. by split. Qed.
#[export] Instance same_at_trans n : Transitive (same_at n).
Proof. intros d1 d2 d3 [N1 I1] [N2 I2]. split; [congruence|by etrans]. Qed.

Lemma journal_at_mono `{JournalJson} uid d d' id j :
  d_inodes d ⊆ d_inodes d' → journal_at uid d id = Some j → journal_at uid d' id = Some j.
Proof.
  unfold journal_at. intros Hi Hj. destruct (d_inodes d !! id) as [i|] eqn:E; [|done].
  by rewrite (lookup_weaken _ _ _ _ E Hi).
Qed.

Lemma held_same `{JournalJson} store d d' j :
  same_at (js_name store) d d' → held store d = Some j → held store d' = Some j.
Proof.
  intros [Hn Hi]. unfold held. rewrite Hn. destruct (d_names d !! js_name store); [|done].
  by apply journal_at_mono.
Qed.

(** Running alone: the entry of [n] stays, inodes stay, a cached anchor stays. *)
Definition alone (n : bytes) (w w' : World) : Prop :=
  sole w → sole w' ∧ same_at n (w_dir w) (w_dir w')
           ∧ ∀ a, w_anchor w = Some a → w_anchor w' = Some a.

#[export] Instance alone_refl n : Reflexive (alone n).
Proof. by intros w Hs. Qed.
#[export] Instance alone_trans n : Transitive (alone n).
Proof.
  intros w1 w2 w3 H12 H23 Hs. destruct (H12 Hs) as (Hs2 & S1 & A1).
  destruct (H23 Hs2) as (Hs3 & S2 & A2). split_and!; [done|by etrans|by auto].
Qed.

Lemma env_alone n w w' : env w w' → alone n w w'.
Proof.
  intros He Hs. destruct (env_sole _ _ He Hs) as [Hs' Hd]. rewrite Hd.
  split_and!; [done|done|apply He].
Qed.

Lemma acted_alone n w1 w' d gone :
  acted w1 w' d gone → same_at n (w_dir w1) d → alone n w1 w'.
Proof.
  intros [Hd Ht _ _ _ Ha] Hsame Hs. unfold sole in *. rewrite Ht, Hd, Ha. by split_and!.
Qed.

Lemma looking_alone {A} (m : Fs A) n w r w' : looking m → m w = (r, w') → alone n w w'.
Proof. intros Hl E. apply env_alone. by eapply Hl. Qed.

(** ** Loading *)

Lemma c_component_Ok v n : c_component v = Ok n → n = v.
Proof. unfold c_component. intros H. simplify_ok. done. Qed.

Lemma anchored_Ok store w a name w' :
  anchored store w = (Ok (a, name), w') → name = js_name store ∧ w_anchor w' = Some a.
Proof.
  unfold anchored. intros E. fs_ok E. injection Hm as Hc <-. apply c_component_Ok in Hc as ->.
  destruct (w_anchor w) as [a1|] eqn:Ea.
  - fs_ok E. injection E as <- <- <-. apply looking_verify in Hm. split; [done|]. by apply Hm.
  - destruct (anchor_open (js_expected_uid store) w) as [[a1|e] w1] eqn:Eo; [|done].
    fs_ok E. injection E as <- <- <-. apply looking_verify in Hm. split; [done|]. by apply Hm.
Qed.

Lemma openat_Ok n d id : openat n d = Ok id → d_names d !! n = Some id.
Proof.
  unfold openat. destruct (d_names d !! n) as [id0|]; [|done].
  destruct (d_inodes d !! id0) as [i|]; [|done]. by destruct (in_type i); intros [= ->].
Qed.

Lemma is_ok_unit {E} (m : result E ()) : m = Ok () → is_ok m = true.
Proof. by intros ->. Qed.

Lemma read_alone `{JournalJson} a n uid w j id w' :
  sole w → read_journal_anchored a n uid w = (Ok (j, id), w') →
  d_names (w_dir w) !! n = Some id ∧ journal_at uid (w_dir w) id = Some j.
Proof.
  intros Hs E. unfold read_journal_anchored in E.
  fs_ok E. pose proof Hm as Hopen. apply looking_open_component in Hm.
  destruct (env_sole _ _ Hm Hs) as [Hs0 Hd0]. unfold open_component in Hopen. fs_ok Hopen.
  apply look_spec in Hopen as [_ Ho]. specialize (Ho a0 eq_refl). rewrite Hd0 in Ho.
  fs_ok E. apply look_spec in Hm1 as [He2 Hf]. specialize (Hf a2 eq_refl).
  destruct (env_sole _ _ He2 Hs0) as [Hs2 Hd2]. rewrite Hd2, Hd0 in Hf. apply ok_or_Ok in Hf.
  fs_ok E. injection Hm1 as Hval <-. destruct a3.
  destruct (MAX_JOURNAL_BYTES <? len (in_data a2)) eqn:Hlen; [done|].
  fs_ok E. apply looking_ensure in Hm1 as He3. destruct (env_sole _ _ He3 Hs2) as [Hs3 Hd3].
  fs_ok E. apply look_spec in Hm2 as [He4 Hr]. specialize (Hr a4 eq_refl).
  destruct (env_sole _ _ He4 Hs3) as [Hs4 Hd4]. rewrite Hd4, Hd3, Hd2, Hd0 in Hr.
  unfold read_to_end in Hr. rewrite Hf in Hr. injection Hr as Hr.
  destruct (MAX_JOURNAL_BYTES <? len a4); [done|].
  fs_ok E. fs_ok E. destruct (negb _); [done|]. fs_ok E. fs_ok E. injection Hm5 as Hparse <-.
  injection E as -> -> _.
  assert (a4 = in_data a2) as ->.
  { rewrite <- Hr. apply take_ge. apply Z.ltb_ge in Hlen. unfold len, MAX_JOURNAL_BYTES in *. lia. }
  apply openat_Ok in Ho. split; [done|]. unfold journal_at. rewrite Hf. simpl.
  rewrite Hval, (proj2 (Z.leb_le _ _)) by (apply Z.ltb_ge; done). simpl. by rewrite Hparse.
Qed.

Lemma load_alone `{JournalJson} store w j id w' :
  sole w → load_with_identity store w = (Ok (j, id), w') →
  d_names (w_dir w) !! js_name store = Some id
  ∧ journal_at (js_expected_uid store) (w_dir w) id = Some j
  ∧ ∃ a, w_anchor w' = Some a.
Proof.
  intros Hs E. unfold load_with_identity in E.
  apply fs_bind in E as [([a n] & w1 & Han & E)|(? & _ & [=])].
  destruct (anchored_Ok _ _ _ _ _ Han) as [-> Ha]. apply looking_anchored in Han.
  destruct (env_sole _ _ Han Hs) as [Hs1 Hd1]. apply looking_read in E as He.
  destruct (read_alone _ _ _ _ _ _ _ Hs1 E) as [Hn Hj]. rewrite Hd1 in Hn, Hj.
  split_and!; try done. exists a. by apply He.
Qed.

(** ** Staging *)

(** A directory with one more file. *)
Definition staged_in (base : Directory) (m : bytes) (id : FileObjectIdentity) (i : Inode) : Directory :=
  mkDirectory (d_identity base) (d_meta base) (<[m := id]> (d_names base)) (<[id := i]> (d_inodes base)).

Lemma staged_same n base m id i :
  n ≠ m → d_inodes base !! id = None → same_at n base (staged_in base m id i).
Proof.
  intros Hn Hid. split; simpl; [by rewrite lookup_insert_ne|by apply insert_subseteq].
Qed.

Lemma private_ne n m : ¬ private n → private m → n ≠ m.
Proof. by intros ? ? ->. Qed.

Lemma drop_pending_alone n a p w :
  ¬ private n → private (pt_name p) → alone n w (drop_pending a p w).
Proof.
  intros Hn Hp. unfold drop_pending. destruct (w_published w); [done|].
  destruct (ensure_name_identity a (pt_name p) (pt_identity p) w) as [[[]|e] w1] eqn:E;
    apply (looking_alone _ n) in E; auto with looking.
  destruct (unlink_component a (pt_name p) w1) as [r w2] eqn:Eu. simpl. etrans; [exact E|].
  apply unlink_cases in Eu as [[He _]|(w3 & id & He & _ & Hid & Hac)]; [by apply env_alone|].
  etrans; [by apply env_alone|]. eapply acted_alone; [done|]. split; simpl; [|done].
  rewrite lookup_delete_ne; [done|]. apply not_eq_sym. by apply private_ne.
Qed.

Lemma create_component_alone a m w r w' :
  sole w → create_component a m w = (r, w') →
  sole w' ∧ (∀ x, w_anchor w = Some x → w_anchor w' = Some x)
  ∧ ((∃ e, r = Err e) ∧ w_dir w' = w_dir w
     ∨ ∃ id, r = Ok id ∧ d_inodes (w_dir w) !! id = None
         ∧ w_dir w' = staged_in (w_dir w) m id
                        (mkInode TypeFile (an_expected_uid a) 0 1 (0, 0) (0, 0) [])).
Proof.
  intros Hs E. unfold create_component in E.
  apply fs_bind in E as [(? & w1 & Hv & E)|(e & Hv & ->)]; apply looking_verify in Hv;
    destruct (env_sole _ _ Hv Hs) as [Hs1 Hd1]; [|by split_and!; [done|apply Hv|left; eauto]].
  assert (∀ d k d' g, open_excl m (an_expected_uid a) d = (Err k, d', g) → d' = d ∧ g = []) as Hnone.
  { intros d k d' g. unfold open_excl. destruct (d_names d !! m); intros [= ? ? ?]; by subst. }
  apply fs_bind in E as [(id & w2 & Ho & E)|(e & Ho & ->)].
  - apply io_cases in Ho as [(? & Ho & [= <-])|(? & _ & [=])].
    apply syscall_cases in Ho as [[_ [? [=]]]|(w3 & id' & d & gone & He & [= <-] & Ha & Hac)]; [|done].
    destruct (env_sole _ _ He Hs1) as [Hs3 Hd3]. injection E as <- <-.
    unfold open_excl in Ha. destruct (d_names (w_dir w3) !! m) eqn:Em; [done|].
    injection Ha as <- <- <-. destruct Hac as [Hd Ht _ _ _ Hanc]. simpl.
    assert (∀ x, w_anchor w = Some x → w_anchor w2 = Some x) as Hkeep.
    { intros x' Hx'. rewrite Hanc. by apply He, Hv. }
    split_and!; [by unfold sole in *; simpl; rewrite Ht|done|]. right.
    rewrite Hd, <- Hd1, <- Hd3. eexists. split_and!; [done| |done].
    apply not_elem_of_dom, is_fresh.
  - apply io_cases in Ho as [(? & _ & [=])|(k & Ho & _)].
    apply syscall_cases in Ho as [[He _]|(? & ? & ? & ? & _ & [=] & _)]; [|done].
    destruct (env_sole _ _ He Hs1) as [Hs2 Hd2].
    split_and!; [done|intros x' Hx'; by apply He, Hv|left; split; [by eauto|congruence]].
Qed.

Lemma update_alone f base m id i w r w' :
  sole w → w_dir w = staged_in base m id i →
  io (syscall (update_inode id f)) w = (r, w') →
  sole w' ∧ (∀ x, w_anchor w = Some x → w_anchor w' = Some x)
  ∧ ((∃ e, r = Err e) ∧ w_dir w' = staged_in base m id i
     ∨ r = Ok () ∧ w_dir w' = staged_in base m id (f i)).
Proof.
  intros Hs Hd E.
  assert (∀ d k d' g, update_inode id f d = (Err k, d', g) → d' = d ∧ g = []) as Hnone.
  { intros d k d' g. unfold update_inode. destruct (d_inodes d !! id); intros [= ? ? ?]; by subst. }
  apply io_cases in E as [([] & E & ->)|(k & E & ->)];
    apply syscall_cases in E as [[He [? Hr]]|(w1 & [] & d & gone & He & Hr & Ha & Hac)]; try done;
    destruct (env_sole _ _ He Hs) as [Hs1 Hd1].
  - unfold update_inode in Ha. rewrite Hd1, Hd in Ha. simpl in Ha. rewrite lookup_insert_eq in Ha.
    injection Ha as <- <-. destruct Hac as [Hd' Ht _ _ _ Hanc].
    split_and!; [by unfold sole in *; rewrite Ht|intros x' Hx'; rewrite Hanc; by apply He|right].
    split; [done|]. rewrite Hd'. unfold with_inode, staged_in. simpl. by rewrite insert_insert_eq.
  - split_and!; [done|apply He|left; split; [by eauto|congruence]].
Qed.

(** The state while the temporary file is filled, and what holds when staging ends. *)
Definition filling (base : Directory) (m : bytes) (id : FileObjectIdentity) (i : Inode)
    (w0 w : World) : Prop :=
  sole w ∧ w_dir w = staged_in base m id i ∧ ∀ x, w_anchor w0 = Some x → w_anchor w = Some x.
Definition ended (n : bytes) (base : Directory) (w0 w : World) : Prop :=
  sole w ∧ same_at n base (w_dir w) ∧ ∀ x, w_anchor w0 = Some x → w_anchor w = Some x.

Lemma filling_look base m id i w0 w w' :
  env w w' → filling base m id i w0 w → filling base m id i w0 w'.
Proof.
  intros He (Hs & Hd & Ha). destruct (env_sole _ _ He Hs) as [Hs' Hd'].
  split_and!; [done|congruence|]. intros x Hx. by apply He, Ha.
Qed.

Lemma filling_update f base m id i w0 w r w' :
  filling base m id i w0 w → io (syscall (update_inode id f)) w = (r, w') →
  (∃ e, r = Err e) ∧ filling base m id i w0 w' ∨ r = Ok () ∧ filling base m id (f i) w0 w'.
Proof.
  intros (Hs & Hd & Ha) E.
  destruct (update_alone f base m id i w r w' Hs Hd E) as (Hs' & Ha' & [[Hr Hd']|[Hr Hd']]);
    [left|right]; (split; [done|]); split_and!; auto.
Qed.

Lemma filling_ended n base m id i w0 w :
  n ≠ m → d_inodes base !! id = None → filling base m id i w0 w → ended n base w0 w.
Proof. intros Hn Hid (Hs & Hd & Ha). split_and!; [done| |done]. rewrite Hd. by apply staged_same. Qed.

Lemma alone_ended n base w0 w w' : alone n w w' → ended n base w0 w → ended n base w0 w'.
Proof.
  intros H (Hs & Hd & Ha). destruct (H Hs) as (? & ? & ?). split_and!; [done|by etrans|auto].
Qed.

Lemma fill_temp_alone a data n m id i base w0 w r w' :
  ¬ private n → private m → d_inodes base !! id = None →
  filling base m id i w0 w → fill_temp a data m id w = (r, w') →
  ended n base w0 w'
  ∧ ∀ p, r = Ok p →
      p = mkPendingTemp m id ∧ w_published w' = false
      ∧ filling base m id (write_all data (chmod JOURNAL_MODE i)) w0 w'.
Proof.
  intros Hn Hm Hid Hf E. pose proof (private_ne n m Hn Hm) as Hne. unfold fill_temp in E.
  apply fs_bind in E as [([] & w1 & H1 & E)|(e & H1 & ->)];
    apply (filling_update _ _ _ _ _ _ _ _ _ Hf) in H1 as [[[? Hr] Hf1]|[Hr Hf1]]; try done;
    [|split; [by eapply filling_ended|done]].
  apply fs_bind in E as [(md & w2 & H2 & E)|(e & H2 & ->)]; apply looking_look in H2;
    pose proof (filling_look _ _ _ _ _ _ _ H2 Hf1) as Hf2; [|split; [by eapply filling_ended|done]].
  apply fs_bind in E as [([] & w3 & H3 & E)|(e & H3 & ->)]; apply looking_lift in H3;
    pose proof (filling_look _ _ _ _ _ _ _ H3 Hf2) as Hf3; [|split; [by eapply filling_ended|done]].
  apply fs_bind in E as [([] & w4 & H4 & E)|(e & H4 & ->)]; apply looking_ensure in H4;
    pose proof (filling_look _ _ _ _ _ _ _ H4 Hf3) as Hf4; [|split; [by eapply filling_ended|done]].
  apply fs_bind in E as [([] & w5 & H5 & E)|(e & H5 & ->)];
    apply (filling_update _ _ _ _ _ _ _ _ _ Hf4) in H5 as [[[? Hr5] Hf5]|[Hr5 Hf5]]; try done;
    [|split; [by eapply filling_ended|done]].
  apply fs_bind in E as [([] & w6 & H6 & E)|(e & H6 & ->)]; apply looking_look in H6;
    pose proof (filling_look _ _ _ _ _ _ _ H6 Hf5) as Hf6; [|split; [by eapply filling_ended|done]].
  apply fs_bind in E as [([] & w7 & H7 & E)|(e & [=] & _)]. injection H7 as <-.
  unfold check_pending in E. destruct (verify_name a _ _) as [[[]|e] w8] eqn:E8;
    apply looking_verify_name in E8; injection E as <- <-;
    pose proof (filling_look _ _ _ _ _ _ _ E8 Hf6) as Hf8.
  - split; [by eapply filling_ended|]. intros p [= <-]. split_and!; [done| |done..].
    by rewrite (env_published _ _ E8).
  - split; [|done]. eapply alone_ended; [by apply drop_pending_alone|by eapply filling_ended].
Qed.

Lemma stage_alone pid attempts a data n w0 w r w' :
  ¬ private n → sole w → (∀ x, w_anchor w0 = Some x → w_anchor w = Some x) →
  stage_loop pid attempts a data w = (r, w') →
  ended n (w_dir w) w0 w'
  ∧ ∀ p, r = Ok p →
      private (pt_name p) ∧ w_published w' = false ∧ d_inodes (w_dir w) !! pt_identity p = None
      ∧ filling (w_dir w) (pt_name p) (pt_identity p)
          (mkInode TypeFile (an_expected_uid a) JOURNAL_MODE 1 (0, 0) (0, 0) data) w0 w'.
Proof.
  intros Hn. revert w; induction attempts as [|attempts IH]; intros w Hs Ha E; simpl in E.
  { injection E as <- <-. by repeat split. }
  apply fs_bind in E as [(nonce & w1 & Hno & E)|(? & Hno & ->)]; apply looking_nonce in Hno;
    destruct (env_sole _ _ Hno Hs) as [Hs1 Hd1].
  2: { split; [|done]. split_and!; [done|by rewrite Hd1|]. intros x' Hx'. by apply Hno, Ha. }
  rewrite <- Hd1.
  destruct (create_component a (temp_name pid nonce) w1) as [r2 w2] eqn:Ec.
  apply create_component_alone in Ec as (Hs2 & Ha2 & Hc); [|done].
  assert (∀ x, w_anchor w0 = Some x → w_anchor w2 = Some x) as Ha02.
  { intros x Hx. by apply Ha2, Hno, Ha. }
  destruct Hc as [[[e ->] Hd2]|(id & -> & Hid & Hd2)].
  - assert (ended n (w_dir w1) w0 w2) as Hend by (split_and!; [done|by rewrite Hd2|done]).
    destruct e as [[]| | | | | | | | | |]; try (by injection E as <- <-).
    rewrite <- Hd2. by apply IH.
  - eapply fill_temp_alone in E as [Hend Hp]; [|done|apply private_temp|exact Hid|by split_and!].
    split; [done|]. intros p Hr. destruct (Hp p Hr) as (-> & Hpub & Hfill).
    split_and!; [apply private_temp|done..].
Qed.

(** ** Publishing *)

(** Computations that keep the entry of [n], by their structure. *)
Definition keeping {A} (n : bytes) (m : Fs A) : Prop := ∀ w r w', m w = (r, w') → alone n w w'.

Lemma keeping_looking {A} n (m : Fs A) : looking m → keeping n m.
Proof. intros Hl w r w'. by apply looking_alone. Qed.
Lemma keeping_bind {A B} n (m : Fs A) (f : A → Fs B) :
  keeping n m → (∀ a, keeping n (f a)) → keeping n (m ≫= f).
Proof. intros Hm Hf w r w' E. fs_step E; [|by eapply Hm]. etrans; [by eapply Hm|by eapply Hf]. Qed.
Lemma keeping_published n : keeping n set_published.
Proof. by intros w r w' [= <- <-] Hs. Qed.
Lemma keeping_unlink n a m : n ≠ m → keeping n (unlink_component a m).
Proof.
  intros Hne w r w' E. apply unlink_cases in E as [[He _]|(w3 & id & He & _ & Hid & Hac)]; [by apply env_alone|].
  etrans; [by apply env_alone|]. eapply acted_alone; [done|]. split; simpl; [|done].
  by rewrite lookup_delete_ne.
Qed.

(** The outcome of publishing the staged file under [n]: not done, with an error, or done
    where [Q] allows it. *)
Definition publishes (n : bytes) (entry : option FileObjectIdentity) (Q : Prop) (p : PendingTemp)
    (w : World) (r : result HostStateError ()) (w' : World) : Prop :=
  sole w' ∧ d_inodes (w_dir w) ⊆ d_inodes (w_dir w')
  ∧ (∀ x, w_anchor w = Some x → w_anchor w' = Some x)
  ∧ ((∃ e, r = Err e) ∧ d_names (w_dir w') !! n = entry
     ∨ Q ∧ d_names (w_dir w') !! n = Some (pt_identity p)).

Lemma publishes_env n entry Q p w e w' :
  sole w → d_names (w_dir w) !! n = entry → env w w' → publishes n entry Q p w (Err e) w'.
Proof.
  intros Hs Hn He. destruct (env_sole _ _ He Hs) as [Hs1 Hd1]. unfold publishes. rewrite Hd1.
  split_and!; try done; [apply He|by eauto].
Qed.

Lemma replace_publish_alone a n cur p w r w' :
  n ≠ pt_name p → sole w →
  d_names (w_dir w) !! n = Some cur → d_names (w_dir w) !! pt_name p = Some (pt_identity p) →
  replace_publish a n cur p w = (r, w') → publishes n (Some cur) True p w r w'.
Proof.
  intros Hne Hs Hn Hm E. unfold replace_publish in E.
  apply fs_bind in E as [([] & w1 & H1 & E)|(e & H1 & ->)]; apply looking_reopen in H1;
    [|by apply publishes_env].
  apply fs_bind in E as [([] & w2 & H2 & E)|(e & H2 & ->)]; apply looking_verify_name in H2;
    assert (env w _) as He2 by (etrans; [exact H1|exact H2]); [|by apply publishes_env].
  apply fs_bind in E as [([] & w3 & H3 & E)|(e & H3 & ->)].
  2: { apply io_cases in H3 as [(? & _ & [=])|(k & H3 & _)].
       apply exchange_cases in H3 as [[He _]|(? & ? & ? & _ & [=] & _)].
       apply publishes_env; [done..|by etrans]. }
  apply io_cases in H3 as [([] & H3 & _)|(k & _ & [=])].
  apply exchange_cases in H3 as [[_ [? [=]]]|(w4 & x & y & He4 & _ & Hx & Hy & Hac)].
  assert (env w w4) as He by by etrans. destruct (env_sole _ _ He Hs) as [Hs4 Hd4].
  destruct Hac as [Hd3 Ht _ _ _ Hanc]. rewrite Hd4 in Hx, Hy, Hd3.
  assert (x = pt_identity p) as -> by congruence. assert (y = cur) as -> by congruence.
  assert (sole w3) as Hs3 by (unfold sole; by rewrite Ht).
  assert (d_names (w_dir w3) !! n = Some (pt_identity p)) as Hn3.
  { rewrite Hd3. simpl. by rewrite lookup_insert_ne, lookup_insert_eq. }
  assert (d_names (w_dir w3) !! pt_name p = Some cur) as Hm3 by (rewrite Hd3; simpl; by rewrite lookup_insert_eq).
  assert (alone n w3 w') as Hrest.
  { apply fs_bind in E as [(o1 & w5 & H5 & E)|(e & H5 & ->)]; [|by eapply looking_alone; [|done]; auto with looking].
    apply component_identity_Ok in H5 as Ho1. apply looking_component_identity in H5.
    destruct (env_sole _ _ H5 Hs3) as [Hs5 Hd5].
    apply fs_bind in E as [(o2 & w6 & H6 & E)|(e & H6 & ->)].
    2: { etrans; [by apply env_alone|]. by eapply looking_alone; [|done]; auto with looking. }
    apply component_identity_Ok in H6 as Ho2. apply looking_component_identity in H6.
    destruct (env_sole _ _ H6 Hs5) as [Hs6 Hd6].
    rewrite Hd5, Hn3 in Ho1. rewrite Hd6, Hd5, Hm3 in Ho2. subst o1 o2.
    rewrite !bool_decide_true in E by done. simpl in E.
    etrans; [by apply env_alone; etrans; [exact H5|exact H6]|]. revert E.
    apply keeping_bind; [apply keeping_published|intros _].
    apply keeping_bind; [apply keeping_looking; auto with looking|intros _].
    apply keeping_bind; [apply keeping_looking; auto with looking|intros _].
    apply keeping_bind; [by apply keeping_unlink|intros _].
    apply keeping_looking. auto with looking. }
  destruct (Hrest Hs3) as (Hs' & [Hn' Hi'] & Ha'). rewrite Hd3 in Hi'. simpl in Hi'.
  split_and!; [done|done|intros z Hz; apply Ha'; rewrite Hanc; by apply He|right; split; [done|congruence]].
Qed.

Lemma with_pending_inv {A} a p (body : Fs A) w r w' :
  with_pending a p body w = (r, w') → ∃ w1, body w = (r, w1) ∧ w' = drop_pending a p w1.
Proof. unfold with_pending. destruct (body w) as [r1 w1]. intros [= <- <-]. eauto. Qed.

(** The store may run: it is the only writer, and its anchor is for its user. *)
Record ready (store : JournalStore) (w : World) : Prop := {
  rd_sole : sole w;
  rd_name : ¬ private (js_name store);
  rd_anchor : ∀ a, w_anchor w = Some a → an_expected_uid a = js_expected_uid store }.

Lemma ready_ended store base w0 w a :
  ready store w0 → w_anchor w0 = Some a → ended (js_name store) base w0 w → ready store w.
Proof.
  intros [Hs Hn Ha] Hw0 (Hs' & _ & Ha'). split; [done|done|]. intros x Hx. apply Ha.
  apply Ha' in Hw0 as Hw. congruence.
Qed.

Lemma ready_alone store n w w' a :
  ready store w → w_anchor w = Some a → alone n w w' → ready store w'.
Proof.
  intros [Hs Hn Ha] Hwa Hal. destruct (Hal Hs) as (Hs' & _ & Ha'). split; [done|done|].
  intros x Hx. apply Ha. apply Ha' in Hwa as Hw. congruence.
Qed.

Lemma anchored_alone store w r w' :
  ready store w → anchored store w = (r, w') →
  ready store w' ∧ w_dir w' = w_dir w
  ∧ ∀ a n, r = Ok (a, n) →
      n = js_name store ∧ w_anchor w' = Some a ∧ an_expected_uid a = js_expected_uid store.
Proof.
  intros [Hs Hn Ha] E. apply looking_anchored in E as He. destruct (env_sole _ _ He Hs) as [Hs' Hd].
  assert (∀ a, w_anchor w' = Some a → an_expected_uid a = js_expected_uid store) as Ha'.
  { destruct (w_anchor w) as [a0|] eqn:Ea.
    - intros a. rewrite (env_anchor _ _ He a0) by done. intros [= <-]. by apply Ha.
    - unfold anchored in E. apply fs_bind in E as [(n & w1 & Hm & E)|(e & Hm & ->)];
        injection Hm as Hm <-; [|intros; congruence].
      rewrite Ea in E. destruct (anchor_open (js_expected_uid store) w) as [[a1|e] w2] eqn:Eo.
      + assert (an_expected_uid a1 = js_expected_uid store) as Hu.
        { unfold anchor_open in Eo. fs_ok Eo. destruct (negb _); [done|]. fs_ok Eo. by injection Eo as <- <-. }
        assert (w_anchor w' = Some a1) as Hw'.
        { apply fs_bind in E as [([] & w3 & Hv & E)|(e & Hv & ->)]; apply looking_verify in Hv;
            [injection E as <- <-|]; by apply Hv. }
        intros a. rewrite Hw'. by intros [= <-].
      + injection E as <- <-. apply looking_anchor_open in Eo as Heo.
        intros a Hwa. exfalso. clear -Ea Eo Hwa.
        assert (w_anchor w2 = w_anchor w) as Hsame; [|congruence].
        revert Eo. unfold anchor_open. intros E.
        assert (∀ A (f : Directory → result IoErrorKind A) v q v', io (look f) v = (q, v') →
                  w_anchor v' = w_anchor v) as Hlook.
        { intros A f v q v' Hl. unfold io, look, syscall in Hl.
          destruct (w_ticks v) as [|t ts]; [|destruct (tk_fault t)]; simpl in Hl;
            repeat case_match; by simplify_eq. }
        apply fs_bind in E as [(d & w3 & Hv & E)|(? & Hv & _)]; [|by eapply Hlook].
        apply Hlook in Hv. rewrite <- Hv. destruct (negb _); [by injection E as <- <-|].
        apply fs_bind in E as [(? & w4 & Hl & E)|(? & Hl & _)]; injection Hl as _ <-; [|done].
        by injection E. }
  split_and!; [by split|done|]. intros a n ->. apply anchored_Ok in E as [-> Hw]. auto.
Qed.

Lemma validate_staged uid data :
  validate_opened_regular_file (mkInode TypeFile uid JOURNAL_MODE 1 (0, 0) (0, 0) data) uid JOURNAL_MODE = Ok ().
Proof.
  unfold validate_opened_regular_file, validate_security_values. simpl. by rewrite Z.eqb_refl.
Qed.

Section Alone.
Context `{JournalJsonLaws}.

Lemma serialize_Ok j data :
  serialize_journal j = Ok data →
  journal_wf j ∧ len data ≤ MAX_JOURNAL_BYTES ∧ from_slice data = Some j.
Proof.
  unfold serialize_journal. destruct (validate j) as [[]|] eqn:Ev; [|done].
  destruct (to_vec j) as [b|] eqn:Eb; [|done]. intros E. simplify_ok.
  split_and!; [by apply validate_wf|by apply Z.ltb_ge|by apply json_roundtrip].
Qed.

(** A staged file with a serialized journal holds that journal. *)
Lemma staged_journal j data d id uid :
  serialize_journal j = Ok data → ow_uid (hj_owner j) = uid →
  d_inodes d !! id = Some (mkInode TypeFile uid JOURNAL_MODE 1 (0, 0) (0, 0) data) →
  journal_at uid d id = Some j.
Proof.
  intros (Hw & Hl & Hf)%serialize_Ok Hu Hi. unfold journal_at. rewrite Hi. simpl.
  rewrite validate_staged, (proj2 (Z.leb_le _ _) Hl). simpl. unfold parse_journal.
  rewrite Hf. simpl. by rewrite (proj2 (validate_wf j) Hw), Hu, Z.eqb_refl.
Qed.

Lemma held_uid store d j : held store d = Some j → journal_wf j ∧ ow_uid (hj_owner j) = js_expected_uid store.
Proof.
  unfold held, journal_at. intros Hh.
  destruct (d_names d !! js_name store) as [id|]; [|done]. simpl in Hh.
  destruct (d_inodes d !! id) as [i|]; [|done]. simpl in Hh.
  destruct (_ && _); [|done]. destruct (parse_journal _ _) as [j'|] eqn:Ep; [|done].
  injection Hh as ->. unfold parse_journal in Ep. apply bind_Ok in Ep as (j' & _ & Ep).
  destruct (validate j') as [[]|] eqn:Ev; [|done]. apply if_err_Ok in Ep as [Hu [= ->]].
  split; [by apply validate_wf|]. by apply negb_false_iff, Z.eqb_eq in Hu.
Qed.

Lemma check_current_follows current j :
  check_current current j = Ok () → follows current j.
Proof.
  unfold check_current. intros E. apply if_err_Ok in E as [_ E]. apply bind_Ok in E as (g & _ & E).
  apply if_err_Ok in E as [_ E]. unfold follows. by destruct (validate_successor current j) as [[]|].
Qed.

Lemma follows_current current j :
  follows current j → check_current current j = Ok ().
Proof.
  intros Hf. unfold check_current. pose proof (proj1 (validate_successor_iff _ _) Hf) as [_ _ Hg Hov Ho _ _].
  rewrite Ho, bool_decide_true by done. simpl.
  rewrite (proj2 (u64_checked_add_Some _ 1 _) (conj eq_refl Hov)). simpl.
  rewrite Hg, Z.eqb_refl. simpl. by rewrite Hf.
Qed.

(** Between two states of the directory: the entry and its journal. *)
Lemma load_ready store w r w' :
  ready store w → load_with_identity store w = (r, w') →
  ready store w' ∧ w_dir w' = w_dir w
  ∧ ∀ j id, r = Ok (j, id) →
      d_names (w_dir w) !! js_name store = Some id
      ∧ journal_at (js_expected_uid store) (w_dir w) id = Some j
      ∧ held store (w_dir w) = Some j ∧ ∃ a, w_anchor w' = Some a.
Proof.
  intros Hr E. pose proof (rd_sole _ _ Hr) as Hs. apply looking_load in E as He.
  destruct (env_sole _ _ He Hs) as [Hs' Hd]. pose proof E as E0. unfold load_with_identity in E.
  split_and!; [|done|].
  - apply fs_bind in E as [([a n] & w1 & Han & E)|(e & Han & ->)];
      pose proof (anchored_alone _ _ _ _ Hr Han) as (Hr1 & _ & Hok); [|done].
    destruct (Hok a n eq_refl) as (_ & Ha & _). eapply (ready_alone store n w1); [done..|].
    apply env_alone. by eapply looking_read.
  - intros j id ->. destruct (load_alone _ _ _ _ _ Hs E0) as (Hn & Hj & Ha).
    split_and!; try done. unfold held. by rewrite Hn.
Qed.

(** What staging and publishing leave: the old entry with an error, or the new file. *)
Definition replaced (store : JournalStore) (data : bytes) (Q : Prop) (w : World) (r : result HostStateError ())
    (w' : World) : Prop :=
  ready store w' ∧ d_inodes (w_dir w) ⊆ d_inodes (w_dir w')
  ∧ ((∃ e, r = Err e) ∧ d_names (w_dir w') !! js_name store = d_names (w_dir w) !! js_name store
     ∨ Q ∧ ∃ id, d_names (w_dir w') !! js_name store = Some id
         ∧ d_inodes (w_dir w') !! id
           = Some (mkInode TypeFile (js_expected_uid store) JOURNAL_MODE 1 (0, 0) (0, 0) data)).

Lemma stage_publish_alone pid store a data Q (body : PendingTemp → Fs ()) w r w' :
  ready store w → w_anchor w = Some a →
  (∀ p w1 r1 w2, js_name store ≠ pt_name p → sole w1 →
     d_names (w_dir w1) !! js_name store = d_names (w_dir w) !! js_name store →
     d_names (w_dir w1) !! pt_name p = Some (pt_identity p) →
     body p w1 = (r1, w2) → publishes (js_name store) (d_names (w_dir w) !! js_name store) Q p w1 r1 w2) →
  (p ← stage_journal_anchored pid a data; with_pending a p (body p)) w = (r, w') →
  replaced store data Q w r w'.
Proof.
  intros Hr Ha Hbody E. pose proof (rd_name _ _ Hr) as Hnp. pose proof (rd_anchor _ _ Hr a Ha) as Huid.
  unfold stage_journal_anchored in E. destruct (MAX_JOURNAL_BYTES <? len data).
  { injection E as <- <-. split_and!; [done|done|left; by eauto]. }
  apply fs_bind in E as [(p & w4 & Hst & E)|(e & Hst & ->)];
    destruct (stage_alone pid 32 a data (js_name store) w w _ _ Hnp (rd_sole _ _ Hr) (λ x Hx, Hx) Hst)
      as [Hend Hp].
  2: { split_and!; [by eapply ready_ended|apply Hend|left; split; [by eauto|apply Hend]]. }
  destruct (Hp p eq_refl) as (Hpriv & Hpub & Hfresh & Hs4 & Hd4 & Ha4).
  assert (js_name store ≠ pt_name p) as Hne by by apply private_ne.
  apply with_pending_inv in E as (w5 & E5 & ->).
  apply Hbody in E5 as (Hs5 & Hi5 & Ha5 & Hout); [|done|done| |].
  2: { rewrite Hd4. simpl. by rewrite lookup_insert_ne. }
  2: { rewrite Hd4. simpl. by rewrite lookup_insert_eq. }
  assert (w_anchor w5 = Some a) as Haw5 by auto.
  assert (ready store w5) as Hr5 by (split; [done|done|]; intros x Hx; congruence).
  pose proof (drop_pending_alone (js_name store) a p w5 Hnp Hpriv) as Hdrop.
  destruct (Hdrop Hs5) as (_ & [Hsn Hsi] & _). rewrite Hd4 in Hi5. simpl in Hi5.
  split_and!; [by eapply ready_alone| |].
  - etrans; [|exact Hsi]. etrans; [|exact Hi5]. by apply insert_subseteq.
  - rewrite Hsn. destruct Hout as [Hout|[HQ Hn5]]; [by left|right]. split; [done|].
    exists (pt_identity p). split; [done|]. rewrite <- Huid.
    eapply lookup_weaken; [|etrans; [exact Hi5|exact Hsi]]. by rewrite lookup_insert_eq.
Qed.

Lemma store_replace_alone pid store j0 j w r w' :
  ready store w → held store (w_dir w) = Some j0 →
  store_replace pid store j w = (r, w') →
  ready store w'
  ∧ ((∃ e, r = Err e) ∧ held store (w_dir w') = Some j0
     ∨ held store (w_dir w') = Some j ∧ follows j0 j).
Proof.
  intros Hr Hh E. unfold store_replace in E.
  assert (∀ e w1, (r, w') = (Err e, w1) → ready store w1 → w_dir w1 = w_dir w →
    ready store w' ∧ ((∃ e, r = Err e) ∧ held store (w_dir w') = Some j0
                      ∨ held store (w_dir w') = Some j ∧ follows j0 j)) as Hfail.
  { intros e w1 [= -> ->] Hr1 Hd1. rewrite Hd1. split; [done|]. left. by eauto. }
  apply fs_bind in E as [([current id] & w1 & Hload & E)|(e & Hload & ->)].
  2: { destruct (load_with_identity store w) as [r1 w1] eqn:El.
       destruct (load_ready _ _ _ _ Hr El) as (Hr1 & Hd1 & _).
       assert (w1 = w') as -> by (destruct r1 as [[]|[[]| | | | | | | | | |]]; by simplify_eq).
       by eapply Hfail. }
  assert (load_with_identity store w = (Ok (current, id), w1)) as Hl.
  { destruct (load_with_identity store w) as [[[]|[[]| | | | | | | | | |]] w0]; by simplify_eq. }
  clear Hload. destruct (load_ready _ _ _ _ Hr Hl) as (Hr1 & Hd1 & Hok).
  destruct (Hok current id eq_refl) as (Hname & Hcur & Hh' & _).
  assert (current = j0) as -> by congruence.
  apply fs_bind in E as [([] & w2 & Hck & E)|(e & Hck & ->)]; injection Hck as Hck <-; [|by eapply Hfail].
  apply fs_bind in E as [(data & w2 & Hser & E)|(e & Hser & ->)]; injection Hser as Hser <-; [|by eapply Hfail].
  apply fs_bind in E as [([a n] & w3 & Han & E)|(e & Han & ->)];
    destruct (anchored_alone _ _ _ _ Hr1 Han) as (Hr3 & Hd3 & Hok3); [|eapply Hfail; [done..|congruence]].
  destruct (Hok3 a n eq_refl) as (-> & Ha3 & _). rewrite Hd1 in Hd3.
  apply check_current_follows in Hck as Hfol.
  eapply (stage_publish_alone _ _ _ _ True) in E as (Hr' & Hi' & Hout); [|exact Hr3|exact Ha3|].
  2: { rewrite Hd3, Hname. intros p w4 r4 w5 Hne Hs4 Hn4 Hp4. by apply replace_publish_alone. }
  rewrite Hd3 in Hi', Hout. split; [done|]. destruct Hout as [[Herr Hn']|(_ & id' & Hn' & Hid')].
  - left. split; [done|]. eapply held_same; [|exact Hh]. by split.
  - right. split; [|done]. unfold held. rewrite Hn'. simpl.
    eapply staged_journal; [exact Hser| |exact Hid'].
    apply validate_successor_iff in Hfol as [_ _ _ _ -> _ _]. by apply (held_uid store (w_dir w) j0).
Qed.

Lemma create_publish_alone a n p w r w' :
  n ≠ pt_name p → sole w → d_names (w_dir w) !! pt_name p = Some (pt_identity p) →
  create_publish a n p w = (r, w') → publishes n (d_names (w_dir w) !! n) (d_names (w_dir w) !! n = None) p w r w'.
Proof.
  intros Hne Hs Hm E. unfold create_publish in E.
  apply fs_bind in E as [([] & w1 & H1 & E)|(e & H1 & ->)]; apply looking_verify_name in H1;
    [|by apply publishes_env].
  assert (∀ r2 w2, publish_noreplace_at (pt_name p) n w1 = (r2, w2) →
    (∃ k, r2 = Err k) ∧ env w w2
    ∨ r2 = Ok () ∧ d_names (w_dir w) !! n = None ∧ sole w2 ∧ d_inodes (w_dir w2) = d_inodes (w_dir w)
      ∧ d_names (w_dir w2) !! n = Some (pt_identity p)
      ∧ ∀ x, w_anchor w = Some x → w_anchor w2 = Some x) as Hpub.
  { intros r2 w2 E2. apply noreplace_cases in E2 as [[He ?]|(w3 & x & He & -> & Hx & Hy & Hac)].
    - left. split; [done|by etrans].
    - right. assert (env w w3) as He3 by by etrans. destruct (env_sole _ _ He3 Hs) as [Hs3 Hd3].
      destruct Hac as [Hd Ht _ _ _ Hanc]. rewrite Hd3 in Hx, Hy, Hd. rewrite Hd. simpl.
      assert (x = pt_identity p) as -> by congruence. rewrite lookup_insert_eq.
      split_and!; try done; [by unfold sole; rewrite Ht|]. intros z Hz. rewrite Hanc. by apply He3. }
  apply fs_bind in E as [([] & w2 & H2 & E)|(e & H2 & ->)];
    destruct (publish_noreplace_at (pt_name p) n w1) as [r2 w2'] eqn:E2;
    destruct (Hpub _ _ eq_refl) as [[[k ->] He2]|(-> & Hn0 & Hs2 & Hi2 & Hn2 & Ha2)];
    try (destruct k); simplify_eq; try by apply publishes_env.
  assert (alone n w2 w') as Hal.
  { revert E. apply keeping_bind; [apply keeping_published|intros _].
    apply keeping_looking. auto with looking. }
  destruct (Hal Hs2) as (Hs' & [Hn' Hi'] & Ha'). unfold publishes.
  split_and!; [done|by rewrite <- Hi2|by auto|right; split; [done|congruence]].
Qed.

Lemma store_create_alone pid store j w r w' :
  ready store w → store_create pid store j w = (r, w') →
  ready store w'
  ∧ ((∃ e, r = Err e) ∧ same_at (js_name store) (w_dir w) (w_dir w')
     ∨ d_names (w_dir w) !! js_name store = None ∧ held store (w_dir w') = Some j).
Proof.
  intros Hr E. unfold store_create in E.
  destruct (Z.eqb_spec (hj_generation j) 1) as [Hg|]; simpl in E;
    [|injection E as <- <-; split; [done|left; split; [by eauto|done]]].
  destruct (Z.eqb_spec (ow_uid (hj_owner j)) (js_expected_uid store)) as [Hu|]; simpl in E;
    [|injection E as <- <-; split; [done|left; split; [by eauto|done]]].
  apply fs_bind in E as [(data & w2 & Hser & E)|(e & Hser & ->)]; injection Hser as Hser <-;
    [|split; [done|left; split; [by eauto|done]]].
  apply fs_bind in E as [([a n] & w3 & Han & E)|(e & Han & ->)];
    destruct (anchored_alone _ _ _ _ Hr Han) as (Hr3 & Hd3 & Hok3);
    [|split; [done|left; rewrite Hd3; split; [by eauto|done]]].
  destruct (Hok3 a n eq_refl) as (-> & Ha3 & _).
  eapply (stage_publish_alone _ _ _ _ (d_names (w_dir w3) !! js_name store = None))
    in E as (Hr' & Hi' & Hout); [|exact Hr3|exact Ha3|].
  2: { intros p w4 r4 w5 Hne Hs4 <- Hp4. by apply create_publish_alone. }
  rewrite Hd3 in Hi', Hout. split; [done|]. destruct Hout as [[Herr Hn']|(Hnone & id' & Hn' & Hid')].
  - left. by split.
  - right. split; [done|]. unfold held. rewrite Hn'. simpl. by eapply staged_journal.
Qed.

Lemma quarantine_alone pid attempts n cur w r w' :
  ¬ private n → sole w → d_names (w_dir w) !! n = Some cur →
  quarantine_loop pid attempts n w = (r, w') →
  sole w' ∧ d_inodes (w_dir w') = d_inodes (w_dir w)
  ∧ (∀ x, w_anchor w = Some x → w_anchor w' = Some x)
  ∧ ((∃ e, r = Err e) ∧ d_names (w_dir w') !! n = Some cur
     ∨ ∃ q, r = Ok q ∧ n ≠ q ∧ d_names (w_dir w') !! n = None ∧ d_names (w_dir w') !! q = Some cur).
Proof.
  intros Hnp. revert w; induction attempts as [|attempts IH]; intros w Hs Hn E; simpl in E.
  { injection E as <- <-. split_and!; try done. left. by eauto. }
  apply fs_bind in E as [(nonce & w1 & Hno & E)|(? & Hno & ->)]; apply looking_nonce in Hno;
    destruct (env_sole _ _ Hno Hs) as [Hs1 Hd1].
  2: { rewrite Hd1. split_and!; try done; [apply Hno|left; by eauto]. }
  assert (n ≠ quarantine_name pid nonce) as Hne by (apply private_ne; [done|apply private_quarantine]).
  destruct (publish_noreplace_at n (quarantine_name pid nonce) w1) as [r2 w2] eqn:Ep.
  apply noreplace_cases in Ep as [[He [k ->]]|(w3 & x & He & -> & Hx & Hy & Hac)].
  - assert (env w w2) as He2 by by etrans. destruct (env_sole _ _ He2 Hs) as [Hs2 Hd2].
    assert (∀ x, w_anchor w = Some x → w_anchor w2 = Some x) as Hanc by apply He2.
    destruct k; try (injection E as <- <-; rewrite Hd2; split_and!; try done; left; by eauto).
    apply IH in E as (Hs' & Hi' & Ha' & Hout); [|done|by rewrite Hd2].
    rewrite Hd2 in Hi'. split_and!; try done. auto.
  - assert (env w w3) as He3 by by etrans. destruct (env_sole _ _ He3 Hs) as [Hs3 Hd3].
    destruct Hac as [Hd Ht _ _ _ Hanc]. rewrite Hd3 in Hx, Hd. injection E as <- <-. rewrite Hd. simpl.
    split_and!; [by unfold sole; rewrite Ht|done|intros z Hz; rewrite Hanc; by apply He3|right].
    exists (quarantine_name pid nonce). rewrite lookup_insert_eq.
    rewrite lookup_insert_ne, lookup_delete_eq by done. split_and!; congruence.
Qed.

Lemma remove_publish_alone pid a n cur w r w' :
  ¬ private n → sole w → d_names (w_dir w) !! n = Some cur →
  remove_publish pid a n cur w = (r, w') →
  sole w' ∧ d_inodes (w_dir w) ⊆ d_inodes (w_dir w')
  ∧ (∀ x, w_anchor w = Some x → w_anchor w' = Some x)
  ∧ ((∃ e, r = Err e) ∧ d_names (w_dir w') !! n = Some cur ∨ d_names (w_dir w') !! n = None).
Proof.
  intros Hnp Hs Hn E. unfold remove_publish in E.
  apply fs_bind in E as [([] & w1 & H1 & E)|(e & H1 & ->)]; apply looking_reopen in H1;
    destruct (env_sole _ _ H1 Hs) as [Hs1 Hd1];
    [|rewrite Hd1; split_and!; try done; [apply H1|left; by eauto]].
  apply fs_bind in E as [(q & w2 & H2 & E)|(e & H2 & ->)];
    apply (quarantine_alone pid 32 n cur) in H2 as (Hs2 & Hi2 & Ha2 & Hout); try done; try congruence;
    rewrite Hd1 in Hi2.
  2: { destruct Hout as [[_ Hn2]|(? & [=] & _)]. rewrite Hi2. split_and!; try done; [|left; by eauto].
       intros x Hx. by apply Ha2, H1. }
  destruct Hout as [[[? [=]] _]|(q' & [= <-] & Hne & Hn2 & Hq2)].
  assert (alone n w2 w') as Hal.
  { apply fs_bind in E as [(o & w3 & H3 & E)|(e & H3 & ->)]; [|by eapply looking_alone; [|done]; auto with looking].
    apply component_identity_Ok in H3 as Ho. apply looking_component_identity in H3.
    destruct (env_sole _ _ H3 Hs2) as [Hs3 Hd3]. rewrite Hd3, Hq2 in Ho. subst o.
    rewrite bool_decide_true in E by done. simpl in E. etrans; [by apply env_alone|]. revert E.
    apply keeping_bind; [apply keeping_looking; auto with looking|intros _].
    apply keeping_bind; [by apply keeping_unlink|intros _].
    apply keeping_looking. auto 20 with looking. }
  destruct (Hal Hs2) as (Hs' & [Hn' Hi'] & Ha'). rewrite Hi2 in Hi'.
  split_and!; [done|done|intros x Hx; by apply Ha', Ha2, H1|right; congruence].
Qed.

Lemma store_remove_alone pid store j0 session w r w' :
  ready store w → held store (w_dir w) = Some j0 →
  store_remove_completed pid store session w = (r, w') →
  ready store w'
  ∧ ((∃ e, r = Err e) ∧ held store (w_dir w') = Some j0
     ∨ d_names (w_dir w') !! js_name store = None
       ∧ is_fully_removed j0 = true ∧ ow_session_id (hj_owner j0) = session).
Proof.
  intros Hr Hh E. unfold store_remove_completed in E.
  apply fs_bind in E as [([current id] & w1 & Hl & E)|(e & Hl & ->)];
    destruct (load_ready _ _ _ _ Hr Hl) as (Hr1 & Hd1 & Hok);
    [|rewrite Hd1; split; [done|left; by eauto]].
  destruct (Hok current id eq_refl) as (Hname & Hcur & Hh' & _).
  assert (current = j0) as -> by congruence.
  case_bool_decide as Hsess; simpl in E; [|injection E as <- <-; rewrite Hd1; split; [done|left; by eauto]].
  destruct (is_fully_removed j0) eqn:Hf; simpl in E;
    [|injection E as <- <-; rewrite Hd1; split; [done|left; by eauto]].
  apply fs_bind in E as [([a n] & w3 & Han & E)|(e & Han & ->)];
    destruct (anchored_alone _ _ _ _ Hr1 Han) as (Hr3 & Hd3 & Hok3); rewrite Hd1 in Hd3;
    [|rewrite Hd3; split; [done|left; by eauto]].
  destruct (Hok3 a n eq_refl) as (-> & Ha3 & _).
  apply (remove_publish_alone pid a _ id) in E as (Hs' & Hi' & Ha' & Hout);
    [|apply Hr|apply Hr3|congruence].
  split.
  - split; [done|apply Hr|]. intros x Hx. rewrite (Ha' a Ha3) in Hx. injection Hx as <-. by apply Hr3.
  - rewrite Hd3 in Hi'. destruct Hout as [[Herr Hn']|Hn']; [left; split; [done|]|by right].
    eapply held_same; [|exact Hh]. split; [congruence|done].
Qed.

Lemma store_load_alone store w r w' :
  ready store w → store_load store w = (r, w') →
  ready store w' ∧ w_dir w' = w_dir w ∧ ∀ j, r = Ok j → held store (w_dir w) = Some j.
Proof.
  intros Hr E. unfold store_load in E.
  apply fs_bind in E as [([j id] & w1 & Hl & E)|(e & Hl & ->)];
    destruct (load_ready _ _ _ _ Hr Hl) as (Hr1 & Hd1 & Hok); [|done].
  injection E as <- <-. split_and!; try done. intros j' [= <-]. by eapply Hok.
Qed.
End Alone.

(** * Without failures

    When no system call fails and nobody interferes, an operation succeeds exactly when
    its checks on the journals do. *)

Definition good_directory (a : Anchor) (d : Directory) : Prop :=
  is_dir (d_meta d) = true ∧ d_identity d = an_identity a ∧ check_directory d (an_expected_uid a) = Ok ().

Record calm (a : Anchor) (w : World) : Prop := {
  cm_ticks : w_ticks w = [];
  cm_anchor : w_anchor w = Some a;
  cm_good : good_directory a (w_dir w) }.

Definition at_dir (w : World) (d : Directory) : World :=
  mkWorld d (w_ticks w) (w_nonces w) (w_anchor w) (w_published w) (w_unlinked w) (w_created w).

Lemma bind_calm {A B} (m : Fs A) (f : A → Fs B) w a w1 : m w = (Ok a, w1) → (m ≫= f) w = f a w1.
Proof. intros E. unfold mbind, Fs_bind. by rewrite E. Qed.

Section Calm.
Context (a : Anchor).

Lemma look_calm {A} (f : Directory → result IoErrorKind A) w x :
  calm a w → f (w_dir w) = Ok x → io (look f) w = (Ok x, w).
Proof.
  intros [Ht _ _] Hf. unfold io, look, syscall. rewrite Ht. simpl. rewrite Hf, app_nil_r.
  destruct w. simpl in *. by subst.
Qed.

Lemma act_calm {A} (act : Directory → result IoErrorKind A * Directory * list FileObjectIdentity) w x d :
  calm a w → act (w_dir w) = (Ok x, d, []) → syscall act w = (Ok x, at_dir w d).
Proof.
  intros [Ht _ _] Ha. unfold syscall. rewrite Ht, Ha, app_nil_r. unfold at_dir. by rewrite Ht.
Qed.

Lemma io_calm {A} (m : World → result IoErrorKind A * World) w x w' :
  m w = (Ok x, w') → io m w = (Ok x, w').
Proof. unfold io. by intros ->. Qed.

Lemma calm_at w d : calm a w → good_directory a d → calm a (at_dir w d).
Proof. by intros [Ht Ha _] Hg. Qed.

Lemma verify_calm w : calm a w → verify a w = (Ok (), w).
Proof.
  intros Hc. unfold verify. rewrite (bind_calm _ _ w _ w) by by apply look_calm.
  destruct (cm_good _ _ Hc) as (Hd & Hi & Hk). rewrite Hd, bool_decide_true by done. simpl. unfold lift.
  by rewrite Hk.
Qed.

Lemma component_identity_calm n w :
  calm a w → component_identity a n w = (Ok (d_names (w_dir w) !! n), w).
Proof.
  intros Hc. unfold component_identity. rewrite (bind_calm _ _ w _ w) by by apply verify_calm.
  by apply look_calm.
Qed.

Lemma ensure_calm n id w :
  calm a w → d_names (w_dir w) !! n = Some id → ensure_name_identity a n id w = (Ok (), w).
Proof.
  intros Hc Hn. unfold ensure_name_identity.
  rewrite (bind_calm _ _ w _ w) by by apply component_identity_calm.
  by rewrite bool_decide_true.
Qed.

Lemma openat_file n id i d :
  d_names d !! n = Some id → d_inodes d !! id = Some i → is_file i = true → openat n d = Ok id.
Proof.
  intros Hn Hi Hf. unfold openat. rewrite Hn, Hi. unfold is_file in Hf. by destruct (in_type i).
Qed.

Lemma validate_is_file i uid mode : validate_opened_regular_file i uid mode = Ok () → is_file i = true.
Proof. unfold validate_opened_regular_file. by destruct (is_file i). Qed.

Lemma open_component_calm n id i w :
  calm a w → d_names (w_dir w) !! n = Some id → d_inodes (w_dir w) !! id = Some i → is_file i = true →
  open_component a n w = (Ok id, w).
Proof.
  intros Hc Hn Hi Hf. unfold open_component. rewrite (bind_calm _ _ w _ w) by by apply verify_calm.
  apply look_calm; [done|]. by eapply openat_file.
Qed.

Lemma fstat_calm id i w : calm a w → d_inodes (w_dir w) !! id = Some i → io (look (fstat id)) w = (Ok i, w).
Proof. intros Hc Hi. apply look_calm; [done|]. unfold fstat. by rewrite Hi. Qed.

Lemma reopen_calm n id i mode w :
  calm a w → d_names (w_dir w) !! n = Some id → d_inodes (w_dir w) !! id = Some i →
  validate_opened_regular_file i (an_expected_uid a) mode = Ok () →
  reopen_verified_regular a n id mode w = (Ok (), w).
Proof.
  intros Hc Hn Hi Hv. unfold reopen_verified_regular.
  rewrite (bind_calm _ _ w _ w) by (by eapply open_component_calm, validate_is_file).
  rewrite (bind_calm _ _ w _ w) by by apply fstat_calm.
  rewrite (bind_calm _ _ w () w) by (unfold lift; by rewrite Hv).
  rewrite bool_decide_true by done. simpl. by apply ensure_calm.
Qed.

Lemma verify_name_calm p i w :
  calm a w → d_names (w_dir w) !! pt_name p = Some (pt_identity p) →
  d_inodes (w_dir w) !! pt_identity p = Some i →
  validate_opened_regular_file i (an_expected_uid a) JOURNAL_MODE = Ok () →
  verify_name a p w = (Ok (), w).
Proof.
  intros Hc Hn Hi Hv. unfold verify_name. rewrite (bind_calm _ _ w _ w) by by apply fstat_calm.
  rewrite (bind_calm _ _ w _ w) by by apply ensure_calm. unfold lift. by rewrite Hv.
Qed.

Lemma sync_calm w : calm a w → sync a w = (Ok (), w).
Proof. intros Hc. unfold sync. rewrite (bind_calm _ _ w _ w) by by apply verify_calm. by apply look_calm. Qed.

Context `{JournalJsonLaws}.

Lemma read_calm n id i j uid w :
  calm a w → d_names (w_dir w) !! n = Some id → d_inodes (w_dir w) !! id = Some i →
  journal_at uid (w_dir w) id = Some j → read_journal_anchored a n uid w = (Ok (j, id), w).
Proof.
  intros Hc Hn Hi Hj. unfold journal_at in Hj. rewrite Hi in Hj. simpl in Hj.
  destruct (validate_opened_regular_file i uid JOURNAL_MODE) as [[]|] eqn:Hv; [|done]. simpl in Hj.
  destruct (Z.leb_spec (len (in_data i)) MAX_JOURNAL_BYTES) as [Hl|]; [|done].
  destruct (parse_journal (in_data i) uid) as [j'|] eqn:Hp; [|done]. injection Hj as ->.
  unfold read_journal_anchored.
  rewrite (bind_calm _ _ w _ w) by (by eapply open_component_calm, validate_is_file).
  rewrite (bind_calm _ _ w _ w) by by apply fstat_calm.
  rewrite (bind_calm _ _ w () w) by (unfold lift; by rewrite Hv).
  rewrite (proj2 (Z.ltb_ge _ _) Hl). cbv zeta.
  rewrite (bind_calm _ _ w _ w) by by apply ensure_calm.
  rewrite (bind_calm _ _ w (in_data i) w).
  2: { apply look_calm; [done|]. unfold read_to_end. rewrite Hi. simpl. f_equal. apply take_ge.
       unfold len, MAX_JOURNAL_BYTES in *. lia. }
  rewrite (proj2 (Z.ltb_ge _ _) Hl).
  rewrite (bind_calm _ _ w _ w) by by apply fstat_calm.
  rewrite (bind_calm _ _ w () w) by (unfold lift; by rewrite Hv).
  rewrite bool_decide_true by done. simpl.
  rewrite (bind_calm _ _ w _ w) by by apply ensure_calm.
  rewrite (bind_calm _ _ w j w) by (unfold lift; by rewrite Hp). done.
Qed.

Lemma anchored_calm store w :
  calm a w → c_component (js_name store) = Ok (js_name store) →
  anchored store w = (Ok (a, js_name store), w).
Proof.
  intros Hc Hn. unfold anchored. rewrite (bind_calm _ _ w (js_name store) w) by (unfold lift; by rewrite Hn).
  rewrite (cm_anchor _ _ Hc). rewrite (bind_calm _ _ w _ w) by by apply verify_calm. done.
Qed.

(** A random name that is not taken. *)
Definition next_nonce (pid : bytes) (w : World) (rest : list (option bytes)) : Prop :=
  ∃ nonce, w_nonces w = Some nonce :: rest ∧ d_names (w_dir w) !! temp_name pid nonce = None.

Lemma update_calm f base m id i w :
  calm a w → w_dir w = staged_in base m id i →
  io (syscall (update_inode id f)) w = (Ok (), at_dir w (staged_in base m id (f i))).
Proof.
  intros Hc Hd. apply io_calm, act_calm; [done|]. unfold update_inode. rewrite Hd. simpl.
  rewrite lookup_insert_eq. unfold with_inode, staged_in. simpl. by rewrite insert_insert_eq.
Qed.

Lemma fill_temp_calm data m id base w :
  calm a w → good_directory a base →
  w_dir w = staged_in base m id (mkInode TypeFile (an_expected_uid a) 0 1 (0, 0) (0, 0) []) →
  ∃ w', fill_temp a data m id w = (Ok (mkPendingTemp m id), w') ∧ calm a w'
    ∧ w_dir w' = staged_in base m id
        (mkInode TypeFile (an_expected_uid a) JOURNAL_MODE 1 (0, 0) (0, 0) data)
    ∧ w_nonces w' = w_nonces w.
Proof.
  intros Hc Hg Hd. unfold fill_temp.
  rewrite (bind_calm _ _ _ _ _ (update_calm _ _ _ _ _ w Hc Hd)).
  set (i1 := chmod JOURNAL_MODE _). set (w1 := at_dir w _).
  assert (calm a w1) as Hc1 by by apply calm_at.
  assert (d_inodes (w_dir w1) !! id = Some i1) as Hi1 by apply lookup_insert_eq.
  assert (d_names (w_dir w1) !! m = Some id) as Hn1 by apply lookup_insert_eq.
  rewrite (bind_calm _ _ w1 _ w1 (fstat_calm id i1 w1 Hc1 Hi1)).
  rewrite (bind_calm _ _ w1 () w1) by (unfold lift; f_equal; apply validate_staged).
  rewrite (bind_calm _ _ w1 _ w1 (ensure_calm m id w1 Hc1 Hn1)).
  rewrite (bind_calm _ _ _ _ _ (update_calm (write_all data) base m id i1 w1 Hc1 eq_refl)).
  set (i2 := write_all data i1). set (w2 := at_dir w1 _).
  assert (calm a w2) as Hc2 by by apply calm_at.
  rewrite (bind_calm _ _ w2 () w2) by by apply look_calm. cbv zeta.
  rewrite (bind_calm start_pending _ w2 () (start_pending w2).2 eq_refl).
  set (w3 := (start_pending w2).2).
  assert (calm a w3) as Hc3 by (destruct Hc2; by split).
  unfold check_pending. exists w3.
  rewrite (verify_name_calm _ i2 w3); [|done|apply lookup_insert_eq..|apply validate_staged].
  split_and!; done.
Qed.

Lemma stage_calm pid data rest w :
  calm a w → next_nonce pid w rest → len data ≤ MAX_JOURNAL_BYTES →
  ∃ p w', stage_journal_anchored pid a data w = (Ok p, w') ∧ calm a w'
    ∧ private (pt_name p) ∧ d_names (w_dir w) !! pt_name p = None
    ∧ d_inodes (w_dir w) !! pt_identity p = None
    ∧ w_dir w' = staged_in (w_dir w) (pt_name p) (pt_identity p)
        (mkInode TypeFile (an_expected_uid a) JOURNAL_MODE 1 (0, 0) (0, 0) data)
    ∧ w_nonces w' = rest.
Proof.
  intros Hc (nonce & Hn & Hfree) Hl. unfold stage_journal_anchored.
  rewrite (proj2 (Z.ltb_ge _ _) Hl). cbn [stage_loop].
  set (w1 := mkWorld (w_dir w) (w_ticks w) rest (w_anchor w) (w_published w) (w_unlinked w) (w_created w)).
  rewrite (bind_calm _ _ w nonce w1) by (unfold generate_nonce; by rewrite Hn). cbv zeta beta.
  assert (calm a w1) as Hc1 by (destruct Hc; by split).
  set (id := fresh (dom (d_inodes (w_dir w)))). set (m := temp_name pid nonce).
  set (i0 := mkInode TypeFile (an_expected_uid a) 0 1 (0, 0) (0, 0) []).
  set (w2 := mkWorld (staged_in (w_dir w) m id i0) (w_ticks w) rest (w_anchor w) (w_published w)
               (w_unlinked w) (w_created w ++ [id])).
  assert (create_component a m w1 = (Ok id, w2)) as ->.
  { unfold create_component. rewrite (bind_calm _ _ w1 _ w1) by by apply verify_calm.
    rewrite (bind_calm _ _ w1 id (at_dir w1 (staged_in (w_dir w) m id i0))); [done|].
    apply io_calm, act_calm; [done|]. unfold open_excl. simpl. fold m in Hfree. by rewrite Hfree. }
  assert (calm a w2) as Hc2 by (destruct Hc; by split).
  destruct (fill_temp_calm data m id (w_dir w) w2 Hc2 (cm_good _ _ Hc) eq_refl) as (w3 & E & Hc3 & Hd3 & Hn3).
  exists (mkPendingTemp m id), w3. split_and!; try done; [apply private_temp|].
  apply not_elem_of_dom, is_fresh.
Qed.

Lemma replace_publish_calm n cur ic p ip w :
  calm a w → n ≠ pt_name p →
  d_names (w_dir w) !! n = Some cur → d_names (w_dir w) !! pt_name p = Some (pt_identity p) →
  d_inodes (w_dir w) !! cur = Some ic → d_inodes (w_dir w) !! pt_identity p = Some ip →
  validate_opened_regular_file ic (an_expected_uid a) JOURNAL_MODE = Ok () →
  validate_opened_regular_file ip (an_expected_uid a) JOURNAL_MODE = Ok () →
  ∃ w', replace_publish a n cur p w = (Ok (), w') ∧ calm a w' ∧ w_published w' = true
    ∧ w_dir w' = with_names (w_dir w) (<[n := pt_identity p]> (delete (pt_name p) (d_names (w_dir w))))
    ∧ w_nonces w' = w_nonces w.
Proof.
  intros Hc Hne Hn Hm Hic Hip Hvc Hvp. unfold replace_publish.
  rewrite (bind_calm _ _ w _ w) by by eapply reopen_calm.
  rewrite (bind_calm _ _ w _ w) by by eapply verify_name_calm.
  set (d1 := with_names (w_dir w) (<[pt_name p := cur]> (<[n := pt_identity p]> (d_names (w_dir w))))).
  rewrite (bind_calm _ _ w () (at_dir w d1)).
  2: { apply io_calm, act_calm; [done|]. unfold rename_exchange. by rewrite Hm, Hn. }
  set (w1 := at_dir w d1). assert (calm a w1) as Hc1 by (apply calm_at; [done|apply Hc]).
  assert (d_names (w_dir w1) !! n = Some (pt_identity p)) as Hn1
    by (simpl; by rewrite lookup_insert_ne, lookup_insert_eq).
  assert (d_names (w_dir w1) !! pt_name p = Some cur) as Hm1 by apply lookup_insert_eq.
  rewrite (bind_calm _ _ w1 _ w1) by by apply component_identity_calm.
  rewrite (bind_calm _ _ w1 _ w1) by by apply component_identity_calm.
  rewrite Hn1, Hm1, !bool_decide_true by done. cbn [negb orb].
  rewrite (bind_calm set_published _ w1 () (set_published w1).2 eq_refl).
  set (w2 := (set_published w1).2).
  assert (calm a w2) as Hc2 by (destruct Hc1; by split).
  rewrite (bind_calm _ _ w2 _ w2) by by apply ensure_calm.
  rewrite (bind_calm _ _ w2 _ w2) by by eapply reopen_calm.
  set (d3 := with_names d1 (delete (pt_name p) (d_names d1))).
  set (w3 := mkWorld d3 (w_ticks w) (w_nonces w) (w_anchor w) true (w_unlinked w ++ [cur]) (w_created w)).
  assert (calm a w3) as Hc3 by (destruct Hc; by split).
  rewrite (bind_calm _ _ w2 () w3).
  2: { unfold unlink_component. rewrite (bind_calm _ _ w2 _ w2) by by apply verify_calm.
       apply io_calm. unfold syscall. rewrite (cm_ticks _ _ Hc2). unfold unlinkat.
       change (d_names (w_dir w2)) with (d_names (w_dir w1)). rewrite Hm1.
       unfold w3. by rewrite (cm_ticks _ _ Hc). }
  assert (d_names (w_dir w3) !! pt_name p = None) as Hm3 by apply lookup_delete_eq.
  rewrite (bind_calm _ _ w3 _ w3) by by apply component_identity_calm.
  rewrite Hm3. rewrite bool_decide_false by (by intros [? [=]]).
  exists w3. rewrite sync_calm by done. split_and!; try done. simpl. unfold d3, d1, with_names. simpl.
  f_equal. rewrite delete_insert_eq, <- delete_insert_ne by done. done.
Qed.

Lemma store_replace_calm pid store j0 j data rest w :
  calm a w → an_expected_uid a = js_expected_uid store → ¬ private (js_name store) →
  c_component (js_name store) = Ok (js_name store) → next_nonce pid w rest →
  held store (w_dir w) = Some j0 → follows j0 j → serialize_journal j = Ok data →
  ∃ w' id, store_replace pid store j w = (Ok (), w') ∧ calm a w'
    ∧ d_names (w_dir w') = <[js_name store := id]> (d_names (w_dir w)) ∧ w_nonces w' = rest.
Proof.
  intros Hc Hu Hnp Hn Hnonce Hh Hf Hs. unfold store_replace.
  pose proof Hh as Hh'. unfold held in Hh'.
  destruct (d_names (w_dir w) !! js_name store) as [cur|] eqn:Hcur; [|done]. simpl in Hh'.
  destruct (d_inodes (w_dir w) !! cur) as [ic|] eqn:Hic; [|unfold journal_at in Hh'; by rewrite Hic in Hh'].
  assert (load_with_identity store w = (Ok (j0, cur), w)) as Hload.
  { unfold load_with_identity. rewrite (bind_calm _ _ w _ w) by by apply anchored_calm.
    by eapply read_calm. }
  rewrite (bind_calm _ _ w (j0, cur) w) by by rewrite Hload.
  rewrite (bind_calm _ _ w () w) by (unfold lift; by rewrite (follows_current _ _ Hf)).
  rewrite (bind_calm _ _ w data w) by (unfold lift; by rewrite Hs).
  rewrite (bind_calm _ _ w _ w) by by apply anchored_calm.
  destruct (serialize_Ok _ _ Hs) as (_ & Hlen & _).
  destruct (stage_calm pid data rest w Hc Hnonce Hlen) as (p & w1 & E1 & Hc1 & Hpriv & Hfree & Hfresh & Hd1 & Hr1).
  rewrite (bind_calm _ _ w p w1) by done. unfold with_pending.
  assert (js_name store ≠ pt_name p) as Hne by by apply private_ne.
  assert (cur ≠ pt_identity p) as Hcne by (intros ->; congruence).
  destruct (replace_publish_calm (js_name store) cur ic p
    (mkInode TypeFile (an_expected_uid a) JOURNAL_MODE 1 (0, 0) (0, 0) data) w1)
    as (w2 & -> & Hc2 & Hp2 & Hd2 & Hr2); try done.
  - rewrite Hd1. simpl. by rewrite lookup_insert_ne.
  - rewrite Hd1. apply lookup_insert_eq.
  - rewrite Hd1. simpl. by rewrite lookup_insert_ne.
  - rewrite Hd1. apply lookup_insert_eq.
  - unfold journal_at in Hh'. rewrite Hic in Hh'. simpl in Hh'. rewrite Hu.
    by destruct (validate_opened_regular_file ic (js_expected_uid store) JOURNAL_MODE) as [[]|].
  - apply validate_staged.
  - exists w2, (pt_identity p). unfold drop_pending. rewrite Hp2. split_and!; try done; [|congruence].
    rewrite Hd2, Hd1. simpl. by rewrite delete_insert_id.
Qed.

Lemma unlink_component_calm n id w :
  calm a w → d_names (w_dir w) !! n = Some id →
  ∃ w', unlink_component a n w = (Ok (), w') ∧ calm a w'
    ∧ w_dir w' = with_names (w_dir w) (delete n (d_names (w_dir w))).
Proof.
  intros Hc Hn. unfold unlink_component. rewrite (bind_calm _ _ w _ w) by by apply verify_calm.
  unfold io, syscall. rewrite (cm_ticks _ _ Hc). unfold unlinkat. rewrite Hn. simpl.
  eexists. split; [done|]. split; [|done]. destruct Hc. by split.
Qed.

Lemma remove_publish_calm pid n cur ic nonce rest w :
  calm a w → ¬ private n → w_nonces w = Some nonce :: rest →
  d_names (w_dir w) !! quarantine_name pid nonce = None →
  d_names (w_dir w) !! n = Some cur → d_inodes (w_dir w) !! cur = Some ic →
  validate_opened_regular_file ic (an_expected_uid a) JOURNAL_MODE = Ok () →
  ∃ w', remove_publish pid a n cur w = (Ok (), w').
Proof.
  intros Hc Hnp Hnonce Hfree Hn Hic Hv. unfold remove_publish.
  assert (n ≠ quarantine_name pid nonce) as Hne by (apply private_ne; [done|apply private_quarantine]).
  rewrite (bind_calm _ _ w _ w) by by eapply reopen_calm.
  set (q := quarantine_name pid nonce) in *.
  set (d1 := with_names (w_dir w) (<[q := cur]> (delete n (d_names (w_dir w))))).
  set (w0 := mkWorld (w_dir w) (w_ticks w) rest (w_anchor w) (w_published w) (w_unlinked w) (w_created w)).
  assert (calm a w0) as Hc0 by (destruct Hc; by split).
  set (w1 := at_dir w0 d1). assert (calm a w1) as Hc1 by (apply calm_at; [done|apply Hc]).
  rewrite (bind_calm _ _ w q w1).
  2: { cbn [quarantine_loop]. rewrite (bind_calm _ _ w nonce w0) by (unfold generate_nonce; by rewrite Hnonce).
       cbv zeta beta. fold q. unfold publish_noreplace_at.
       rewrite (act_calm _ w0 () d1); [done|done|]. unfold rename_noreplace. simpl. by rewrite Hn, Hfree. }
  assert (d_names (w_dir w1) !! q = Some cur) as Hq1 by apply lookup_insert_eq.
  assert (d_names (w_dir w1) !! n = None) as Hn1.
  { simpl. by rewrite lookup_insert_ne, lookup_delete_eq. }
  rewrite (bind_calm _ _ w1 _ w1) by by apply component_identity_calm.
  rewrite Hq1, bool_decide_true by done. cbn [negb].
  rewrite (bind_calm _ _ w1 _ w1) by by eapply reopen_calm.
  destruct (unlink_component_calm q cur w1 Hc1 Hq1) as (w2 & E2 & Hc2 & Hd2).
  rewrite (bind_calm _ _ _ _ _ E2).
  rewrite (bind_calm _ _ w2 _ w2) by by apply component_identity_calm.
  rewrite Hd2. simpl. rewrite lookup_delete_ne, lookup_insert_ne, lookup_delete_eq by done.
  rewrite bool_decide_false by (by intros [? [=]]).
  rewrite (bind_calm _ _ w2 _ w2) by by apply component_identity_calm.
  rewrite Hd2. simpl. rewrite lookup_delete_eq. rewrite bool_decide_false by (by intros [? [=]]).
  exists w2. by apply sync_calm.
Qed.

Lemma store_remove_calm pid store j nonce rest w :
  calm a w → an_expected_uid a = js_expected_uid store → ¬ private (js_name store) →
  c_component (js_name store) = Ok (js_name store) →
  w_nonces w = Some nonce :: rest → d_names (w_dir w) !! quarantine_name pid nonce = None →
  held store (w_dir w) = Some j → is_fully_removed j = true →
  ∃ w', store_remove_completed pid store (ow_session_id (hj_owner j)) w = (Ok (), w').
Proof.
  intros Hc Hu Hnp Hn Hnonce Hfree Hh Hfull. unfold store_remove_completed.
  pose proof Hh as Hh'. unfold held in Hh'.
  destruct (d_names (w_dir w) !! js_name store) as [cur|] eqn:Hcur; [|done]. simpl in Hh'.
  destruct (d_inodes (w_dir w) !! cur) as [ic|] eqn:Hic; [|unfold journal_at in Hh'; by rewrite Hic in Hh'].
  rewrite (bind_calm _ _ w (j, cur) w).
  2: { unfold load_with_identity. rewrite (bind_calm _ _ w _ w) by by apply anchored_calm. by eapply read_calm. }
  rewrite bool_decide_true by done. cbn [negb]. rewrite Hfull. cbn [negb].
  rewrite (bind_calm _ _ w _ w) by by apply anchored_calm.
  eapply remove_publish_calm; try done.
  unfold journal_at in Hh'. rewrite Hic in Hh'. simpl in Hh'. rewrite Hu.
  by destruct (validate_opened_regular_file ic (js_expected_uid store) JOURNAL_MODE) as [[]|].
Qed.
End Calm.

(** * Examples *)

Module StoreSample.
Import Sample.

(** A codec for journals: the bits of the number of the tree. *)
Fixpoint bits (p : positive) : bytes :=
  match p with
  | xH => []
  | xO p => Byte.x00 :: bits p
  | xI p => Byte.x01 :: bits p
  end.
Fixpoint unbits (b : bytes) : option positive :=
  match b with
  | [Byte.x0a] => Some xH
  | Byte.x00 :: b => xO <$> unbits b
  | Byte.x01 :: b => xI <$> unbits b
  | _ => None
  end.
Definition print_tree {T} `{Tree T} (x : T) : bytes := bits (encode (to_tree x)).
Definition parse_tree {T} `{Tree T} (b : bytes) : option T := p ← unbits b; t ← decode p; of_tree t.

Lemma unbits_bits p : unbits (bits p ++ [Byte.x0a]) = Some p.
Proof. induction p as [p IH|p IH|]; simpl; [by rewrite IH|by rewrite IH|done]. Qed.
Lemma parse_print_tree {T} `{Tree T} (x : T) : parse_tree (print_tree x ++ [Byte.x0a]) = Some x.
Proof.
  unfold parse_tree, print_tree. rewrite unbits_bits. simpl. rewrite decode_encode. simpl. apply of_to_tree.
Qed.

#[export] Instance tree_json : JournalJson := {
  to_vec j := Some (print_tree j);
  from_slice := parse_tree }.
#[export] Instance tree_json_laws : JournalJsonLaws tree_json.
Proof.
  split. intros j b E. change (Some (print_tree j) = Some b) in E. apply (inj Some) in E as <-.
  apply parse_print_tree.
Qed.

(** A directory of the superuser, with the journal of a session that has started. *)
Definition pid : bytes := [Byte.x39].
Definition store : JournalStore := mkJournalStore [Byte.x6a] 0.
Definition file (data : bytes) : Inode := mkInode TypeFile 0 JOURNAL_MODE 1 (0, 0) (0, 0) data.
Definition journal_file (j : HostStateJournalV1) : Inode := file (print_tree j ++ [Byte.x0a]).
Definition directory (names : gmap bytes FileObjectIdentity) (inodes : gmap FileObjectIdentity Inode) :=
  mkDirectory (1, 1) (mkInode TypeDirectory 0 STATE_DIRECTORY_MODE 2 (0, 0) (0, 0) []) names inodes.
Definition nonces : list (option bytes) :=
  Some <$> [[Byte.x30]; [Byte.x31]; [Byte.x32]; [Byte.x33]; [Byte.x34]; [Byte.x35]; [Byte.x36];
            [Byte.x37]; [Byte.x38]].
Definition world (d : Directory) (ticks : list Tick) : World := mkWorld d ticks nonces None false [] [].
Definition with_journal (j : HostStateJournalV1) : Directory :=
  directory {[ [Byte.x6a] := (1, 10) ]} {[ (1, 10) := journal_file j; (1, 66) := file [] ]}.

(** Another process puts its own file in the place of the journal. *)
Definition quiet : Tick := mkTick (λ d, d) None.
Definition swap : Tick := mkTick (λ d, with_names d (<[ [Byte.x6a] := (1, 66) ]> (d_names d))) None.
Definition contested : World := world (with_journal started) (replicate 28 quiet ++ [swap]).

Lemma contested_polite : polite contested.
Proof.
  apply Forall_app. split; [by apply Forall_replicate|]. apply Forall_singleton. intros d n Hn. simpl.
  apply lookup_insert_ne. intros <-. by destruct Hn as [l [=]].
Qed.

Lemma store_spares_witness :
  polite contested
  ∧ (store_replace pid store planned contested).1 = Err (HsUnsafeFile IdentityChanged)
  ∧ ∃ l, w_unlinked (store_replace pid store planned contested).2 = w_unlinked contested ++ l
      ∧ Forall (λ id, id ∈ w_created (store_replace pid store planned contested).2
          ∨ ∃ current w1, load_with_identity store contested = (Ok (current, id), w1)
                          ∧ check_current current planned = Ok ()) l.
Proof.
  split_and!; [apply contested_polite|by vm_compute|].
  destruct (store_spares_foreign_files pid store contested contested_polite) as (Hr & _ & _).
  by eapply Hr, surjective_pairing.
Defined.
End StoreSample.
