(* ===== verification/HostJournal.v ===== *)
(** * The host-state journal: writing ahead

    [DurableHostJournal] of [shadowpipe-core/src/host_state.rs]: every operation that
    changes the journal publishes one validated next generation through the store before
    it changes the copy in memory.  Shown: whatever system calls fail, the journal on disk
    is the one in memory or one generation ahead, every generation follows the one before,
    a journal that is behind can write nothing more, and every operation that succeeds has
    its effect on the ledger of resources on disk. *)

From S2P Require Import Prelude HostTypes HostState HostStore.

Inductive DurableJournalError :=
| DjStore (error : HostStateError)
| DjTransition (error : TransitionError)
| DjInvalidPhase (actual : JournalPhase)
| DjOperationCapacity
| DjMissingLiveResource
| DjOperationState (operation_id : Z) (expected actual : OperationState).

Definition dj_transition {A} (m : result TransitionError A) : result DurableJournalError A :=
  match m with Ok a => Ok a | Err e => Err (DjTransition e) end.
Definition dj_store {A} (m : result HostStateError A) : result DurableJournalError A :=
  match m with Ok a => Ok a | Err e => Err (DjStore e) end.
Definition dj_validate (j : HostStateJournalV1) : result DurableJournalError () :=
  match validate j with Ok _ => Ok () | Err e => Err (DjStore (HsInvalidJournal e)) end.

(** The journal in memory and the world of its store. *)
Record Durable := mkDurable { du_journal : HostStateJournalV1; du_world : World }.

Definition Dj (A : Type) : Type := Durable → result DurableJournalError A * Durable.
#[export] Instance Dj_ret : MRet Dj := λ A a d, (Ok a, d).
#[export] Instance Dj_bind : MBind Dj :=
  λ A B f m d, match m d with
               | (Ok a, d') => f a d'
               | (Err e, d') => (Err e, d')
               end.
Definition dj_fail {A} (e : DurableJournalError) : Dj A := λ d, (Err e, d).
Definition dj_lift {A} (r : result DurableJournalError A) : Dj A := λ d, (r, d).
Definition get_journal : Dj HostStateJournalV1 := λ d, (Ok (du_journal d), d).

Section Durable.
Context `{JournalJson} (pid : bytes) (store : JournalStore).

Definition durable_create (owner : OwnerIdentity) (w : World) : result DurableJournalError Durable * World :=
  match journal_new owner [] with
  | Err e => (Err (DjStore (HsInvalidJournal e)), w)
  | Ok j =>
      match store_create pid store j w with
      | (Err e, w') => (Err (DjStore e), w')
      | (Ok _, w') => (Ok (mkDurable j w'), w')
      end
  end.

Definition durable_load (w : World) : result DurableJournalError Durable * World :=
  match store_load store w with
  | (Err e, w') => (Err (DjStore e), w')
  | (Ok j, w') => (Ok (mkDurable j w'), w')
  end.

Definition durable_commit (mutate : HostStateJournalV1 → result DurableJournalError HostStateJournalV1) : Dj () :=
  λ d,
    match (next ← mutate (du_journal d); dj_transition (next_generation next)) with
    | Err e => (Err e, d)
    | Ok next =>
        match store_replace pid store next (du_world d) with
        | (Err e, w) => (Err (DjStore e), mkDurable (du_journal d) w)
        | (Ok _, w) => (Ok (), mkDurable next w)
        end
    end.

Definition commit_phase (phase : JournalPhase) : Dj () :=
  durable_commit (λ journal, dj_transition (transition_phase journal phase)).
Definition commit_operation (operation_id : Z) (state : OperationState) : Dj () :=
  durable_commit (λ journal, dj_transition (transition_operation journal operation_id state)).

Definition ensure_preparing : Dj () :=
  j ← get_journal;
  match hj_phase j with
  | Preparing => mret ()
  | Active => commit_phase Preparing
  | actual => dj_fail (DjInvalidPhase actual)
  end.

Definition any_removed (operations : list OperationRecord) : bool :=
  existsb (λ operation, bool_decide (op_state operation = Removed)) operations.

Definition compact_removed : Dj bool :=
  j ← get_journal;
  if negb (bool_decide (hj_phase j = Active)) then dj_fail (DjInvalidPhase (hj_phase j)) else
  if negb (any_removed (hj_operations j)) then mret false else
  _ ← durable_commit (λ journal,
        let journal := with_operations journal (compacted (hj_operations journal)) in
        _ ← dj_validate journal;
        Ok journal);
  mret true.

(** New planned records for [resources], numbered from [first]. *)
Definition planned_records (first : Z) (resources : list OwnedResource) : list OperationRecord :=
  imap (λ index resource, mkOperationRecord (first + Z.of_nat index) Planned resource) resources.

Definition append_planned (resources : list OwnedResource) (j : HostStateJournalV1) : HostStateJournalV1 :=
  with_operations j
    (hj_operations j ++ planned_records (len (hj_operations j) + 1) resources).

Definition planned_ids (resources : list OwnedResource) (j : HostStateJournalV1) : list Z :=
  op_id <$> planned_records (len (hj_operations j) + 1) resources.

(** The generations that the real operation will write are tried first. *)
Definition preflight_add_batch (resources : list OwnedResource) (j : HostStateJournalV1)
  : result DurableJournalError (list Z) :=
  if negb (bool_decide (hj_phase j = Active) || bool_decide (hj_phase j = Preparing))
  then Err (DjInvalidPhase (hj_phase j)) else
  if Z.max 0 (MAX_OPERATIONS - len (hj_operations j)) <? len resources
  then Err DjOperationCapacity else
  projected ←
    (if bool_decide (hj_phase j = Active) then
       projected ← dj_transition (transition_phase j Preparing);
       dj_transition (next_generation projected)
     else Ok j);
  let projected := append_planned resources projected in
  _ ← dj_validate projected;
  projected ← dj_transition (next_generation projected);
  _ ← dj_store (serialize_journal projected);
  Ok (planned_ids resources j).

Definition count_removed (operations : list OperationRecord) : Z :=
  len (List.filter (λ operation, bool_decide (op_state operation = Removed)) operations).

Definition begin_add_batch (resources : list OwnedResource) : Dj (list Z) :=
  if bool_decide (resources = []) then mret [] else
  j ← get_journal;
  _ ← (if bool_decide (hj_phase j = Active)
          && ((MAX_OPERATIONS <? len (hj_operations j) + len resources)
              || (64 <=? count_removed (hj_operations j)))
       then compact_removed else mret true);
  j ← get_journal;
  ids ← (match preflight_add_batch resources j with
         | Err (DjStore (HsTooLarge actual maximum)) =>
             if bool_decide (hj_phase j = Active) && any_removed (hj_operations j) then
               _ ← compact_removed;
               j ← get_journal;
               dj_lift (preflight_add_batch resources j)
             else dj_fail (DjStore (HsTooLarge actual maximum))
         | result => dj_lift result
         end);
  _ ← ensure_preparing;
  _ ← durable_commit (λ journal,
        let journal := append_planned resources journal in
        _ ← dj_validate journal;
        Ok journal);
  mret ids.

Definition begin_add (resource : OwnedResource) : Dj Z :=
  ids ← begin_add_batch [resource];
  dj_lift (ok_or (head ids) DjOperationCapacity).

Definition operation_state (operation_id : Z) (j : HostStateJournalV1)
  : result DurableJournalError OperationState :=
  ok_or ((λ p, op_state p.2) <$> find_operation operation_id (hj_operations j)) DjMissingLiveResource.

Definition expect_state (operation_id : Z) (expected : OperationState) : Dj () :=
  j ← get_journal;
  actual ← dj_lift (operation_state operation_id j);
  if bool_decide (actual = expected) then mret ()
  else dj_fail (DjOperationState operation_id expected actual).

Definition acknowledge_add (operation_id : Z) : Dj () :=
  _ ← expect_state operation_id Planned;
  commit_operation operation_id Applied.

Definition acknowledge_add_absent (operation_id : Z) : Dj () :=
  _ ← expect_state operation_id Planned;
  commit_operation operation_id Removed.

Definition publish_active : Dj () :=
  j ← get_journal;
  if negb (bool_decide (hj_phase j = Preparing)) then dj_fail (DjInvalidPhase (hj_phase j)) else
  commit_phase Active.

(** The last live record of the resource. *)
Definition find_live (resource : OwnedResource) (j : HostStateJournalV1) : option OperationRecord :=
  List.find (λ operation, bool_decide (op_resource operation = resource) && live operation)
    (reverse (hj_operations j)).

Definition begin_remove (resource : OwnedResource) : Dj Z :=
  j ← get_journal;
  operation ← dj_lift (ok_or (find_live resource j) DjMissingLiveResource);
  if negb (bool_decide (op_state operation = Applied))
  then dj_fail (DjOperationState (op_id operation) Applied (op_state operation)) else
  _ ← ensure_preparing;
  mret (op_id operation).

Definition acknowledge_remove (operation_id : Z) : Dj () :=
  _ ← expect_state operation_id Applied;
  commit_operation operation_id Removed.

Definition begin_cleaning : Dj () :=
  j ← get_journal;
  match hj_phase j with
  | Cleaning => mret ()
  | Preparing | Active => commit_phase Cleaning
  | actual => dj_fail (DjInvalidPhase actual)
  end.

Definition mark_conflict : Dj () :=
  j ← get_journal;
  match hj_phase j with
  | Conflict => mret ()
  | Preparing | Active | Cleaning => commit_phase Conflict
  end.

Definition acknowledge_recovery_step (operation_id : Z) : Dj () :=
  j ← get_journal;
  if negb (bool_decide (hj_phase j = Cleaning)) then dj_fail (DjInvalidPhase (hj_phase j)) else
  actual ← dj_lift (operation_state operation_id j);
  if bool_decide (actual = Removed) then mret () else
  commit_operation operation_id Removed.

Definition remove_completed_file : Dj () :=
  λ d, match store_remove_completed pid store (ow_session_id (hj_owner (du_journal d))) (du_world d) with
       | (Err e, w) => (Err (DjStore e), mkDurable (du_journal d) w)
       | (Ok _, w) => (Ok (), mkDurable (du_journal d) w)
       end.
End Durable.

(** * The disk and the memory *)

Section Coherence.
Context `{JournalJsonLaws} (pid : bytes) (store : JournalStore).

(** The store may run and holds [disk], which is the journal in memory or the generation
    that a failed write still published after it. *)
Record coherent (d : Durable) (disk : HostStateJournalV1) : Prop := {
  ch_ready : ready store (du_world d);
  ch_held : held store (w_dir (du_world d)) = Some disk;
  ch_ahead : disk = du_journal d ∨ follows (du_journal d) disk }.

(** A computation moves the disk along [follows]; it cannot write from a journal that is
    behind; and when it succeeds from a journal in step with the disk it leaves one. *)
Definition steps {A} (m : Dj A) : Prop :=
  ∀ d disk r d', coherent d disk → m d = (r, d') →
  ∃ disk', coherent d' disk' ∧ rtc follows disk disk'
    ∧ (disk ≠ du_journal d → disk' = disk ∧ du_journal d' = du_journal d)
    ∧ (is_ok r = true → disk = du_journal d → disk' = du_journal d').

Lemma dj_bind {A B} (m : Dj A) (f : A → Dj B) d r d' :
  (m ≫= f) d = (r, d') →
  (∃ a d1, m d = (Ok a, d1) ∧ f a d1 = (r, d')) ∨ (∃ e, m d = (Err e, d') ∧ r = Err e).
Proof. unfold mbind, Dj_bind. destruct (m d) as [[a|e] d1]; intros E; simplify_eq; eauto 10. Qed.

Lemma steps_pure {A} (m : Dj A) : (∀ d, (m d).2 = d) → steps m.
Proof.
  intros Hm d disk r d' Hc E. specialize (Hm d). rewrite E in Hm. simpl in Hm. subst d'.
  exists disk. by split_and!.
Qed.
Lemma steps_ret {A} (a : A) : steps (mret a).
Proof. by apply steps_pure. Qed.
Lemma steps_fail {A} e : steps (@dj_fail A e).
Proof. by apply steps_pure. Qed.
Lemma steps_lift {A} (r : result DurableJournalError A) : steps (dj_lift r).
Proof. by apply steps_pure. Qed.
Lemma steps_get : steps get_journal.
Proof. by apply steps_pure. Qed.

Lemma steps_bind {A B} (m : Dj A) (f : A → Dj B) :
  steps m → (∀ a, steps (f a)) → steps (m ≫= f).
Proof.
  intros Hm Hf d disk r d' Hc E. apply dj_bind in E as [(a & d1 & E1 & E2)|(e & E1 & ->)].
  - destruct (Hm _ _ _ _ Hc E1) as (disk1 & Hc1 & Hr1 & Hb1 & Ho1).
    destruct (Hf a _ _ _ _ Hc1 E2) as (disk2 & Hc2 & Hr2 & Hb2 & Ho2).
    exists disk2. split_and!; [done|by etrans| |].
    + intros Hne. destruct (Hb1 Hne) as [-> E1']. rewrite <- E1' in Hne |- *. auto.
    + intros Hok He. auto.
  - destruct (Hm _ _ _ _ Hc E1) as (disk1 & Hc1 & Hr1 & Hb1 & _). exists disk1. by split_and!.
Qed.

Lemma steps_if {A} (b : bool) (m1 m2 : Dj A) : steps m1 → steps m2 → steps (if b then m1 else m2).
Proof. by destruct b. Qed.

(** One commit, with every outcome. *)
Lemma commit_cases mutate d disk r d' :
  (∀ j j', mutate j = Ok j' → hj_generation j' = hj_generation j) →
  coherent d disk → durable_commit pid store mutate d = (r, d') →
  (∃ e, r = Err e) ∧ du_journal d' = du_journal d
    ∧ (coherent d' disk
       ∨ disk = du_journal d ∧ ∃ next j, coherent d' next ∧ follows disk next
           ∧ mutate disk = Ok j ∧ next_generation j = Ok next)
  ∨ r = Ok () ∧ disk = du_journal d ∧ coherent d' (du_journal d') ∧ follows disk (du_journal d')
    ∧ ∃ j, mutate disk = Ok j ∧ next_generation j = Ok (du_journal d').
Proof.
  intros Hgen [Hr Hh Ha] E. unfold durable_commit in E.
  destruct (next ← mutate (du_journal d); _) as [next|e] eqn:En.
  2: { injection E as <- <-. left. split_and!; [by eauto|done|left; by split]. }
  apply bind_Ok in En as (j & Hj & Hn). unfold dj_transition in Hn.
  destruct (next_generation j) as [next'|] eqn:Hng; [|done]. injection Hn as ->.
  assert (hj_generation next = hj_generation (du_journal d) + 1) as Hg.
  { unfold next_generation in Hng. apply bind_Ok in Hng as (g & Hg%ok_or_Ok%u64_checked_add_Some & [= <-]).
    simpl. destruct Hg as [-> _]. by rewrite (Hgen _ _ Hj). }
  destruct (store_replace pid store next (du_world d)) as [r1 w1] eqn:Es.
  destruct (store_replace_alone _ _ _ _ _ _ _ Hr Hh Es) as (Hr1 & [[[e ->] Hh1]|[Hh1 Hf]]).
  - injection E as <- <-. left. split_and!; [by eauto|done|left; by split].
  - assert (disk = du_journal d) as ->.
    { destruct Ha as [|Ha]; [done|]. exfalso.
      apply validate_successor_iff in Hf as [_ _ Hg1 _ _ _ _], Ha as [_ _ Hg2 _ _ _ _]. lia. }
    destruct r1 as [[]|e]; injection E as <- <-.
    + right. split_and!; try done; [by split; simpl; auto|by eauto].
    + left. split_and!; [by eauto|done|right]. split; [done|]. exists next, j.
      split_and!; [split; simpl; auto|done..].
Qed.

Lemma steps_commit mutate :
  (∀ j j', mutate j = Ok j' → hj_generation j' = hj_generation j) → steps (durable_commit pid store mutate).
Proof.
  intros Hgen d disk r d' Hc E.
  destruct (commit_cases _ _ _ _ _ Hgen Hc E)
    as [([e ->] & Hj & [Hc'|(Hd & next & j & Hc' & Hf & _)])|(-> & Hd & Hc' & Hf & _)].
  - exists disk. split_and!; [done|done|done|]. intros [=].
  - exists next. split_and!; [done|by apply rtc_once|done|]. intros [=].
  - exists (du_journal d'). split_and!; [done|by apply rtc_once|done|done].
Qed.

Lemma phase_generation phase j j' :
  dj_transition (transition_phase j phase) = Ok j' → hj_generation j' = hj_generation j.
Proof.
  unfold dj_transition, transition_phase.
  destruct (negb _); [done|]. destruct (_ && _); [done|]. by intros [= <-].
Qed.

Lemma operations_generation f j j' :
  (let journal := with_operations j (f j) in _ ← dj_validate journal; Ok journal) = Ok j' →
  hj_generation j' = hj_generation j.
Proof. intros E. by apply bind_Ok in E as (? & _ & [= <-]). Qed.

Lemma steps_commit_phase phase : steps (commit_phase pid store phase).
Proof. apply steps_commit, phase_generation. Qed.

Lemma transition_operation_generation j id st j' :
  transition_operation j id st = Ok j' → hj_generation j' = hj_generation j.
Proof.
  unfold transition_operation. intros E. apply bind_Ok in E as ([i op] & _ & E).
  destruct (bool_decide _); [by injection E as <-|]. simplify_ok. done.
Qed.

Lemma steps_commit_operation id st : steps (commit_operation pid store id st).
Proof.
  apply steps_commit. intros j j'. unfold dj_transition.
  destruct (transition_operation j id st) eqn:E; [|done]. intros [= <-].
  by eapply transition_operation_generation.
Qed.

Create HintDb steps.
#[local] Hint Resolve steps_ret steps_fail steps_lift steps_get steps_bind steps_if
  steps_commit_phase steps_commit_operation : steps.

Lemma steps_expect id st : steps (expect_state id st).
Proof. unfold expect_state. auto with steps. Qed.
Lemma steps_ensure_preparing : steps (ensure_preparing pid store).
Proof. unfold ensure_preparing. apply steps_bind; [auto with steps|]. intros j. destruct (hj_phase j); auto with steps. Qed.
#[local] Hint Resolve steps_expect steps_ensure_preparing : steps.

Lemma steps_commit_operations f :
  steps (durable_commit pid store (λ journal,
    let journal := with_operations journal (f journal) in _ ← dj_validate journal; Ok journal)).
Proof. apply steps_commit, operations_generation. Qed.
#[local] Hint Resolve steps_commit_operations : steps.

Lemma steps_compact : steps (compact_removed pid store).
Proof. unfold compact_removed. auto 10 with steps. Qed.
#[local] Hint Resolve steps_compact : steps.

Lemma steps_begin_add rs : steps (begin_add_batch pid store rs).
Proof.
  unfold begin_add_batch. apply steps_if; [auto with steps|]. apply steps_bind; [auto with steps|]. intros j.
  apply steps_bind; [auto with steps|]. intros _. apply steps_bind; [auto with steps|]. intros j1.
  apply steps_bind; [|intros ids; unfold append_planned; auto 10 with steps].
  destruct (preflight_add_batch rs j1) as [ids|[[]| | | | |]]; auto 10 with steps.
Qed.

Lemma steps_begin_remove r : steps (begin_remove pid store r).
Proof. unfold begin_remove. auto 10 with steps. Qed.
Lemma steps_begin_cleaning : steps (begin_cleaning pid store).
Proof. unfold begin_cleaning. apply steps_bind; [auto with steps|]. intros j. destruct (hj_phase j); auto with steps. Qed.
Lemma steps_mark_conflict : steps (mark_conflict pid store).
Proof. unfold mark_conflict. apply steps_bind; [auto with steps|]. intros j. destruct (hj_phase j); auto with steps. Qed.
Lemma steps_publish_active : steps (publish_active pid store).
Proof. unfold publish_active. auto with steps. Qed.
Lemma steps_acknowledge_recovery id : steps (acknowledge_recovery_step pid store id).
Proof. unfold acknowledge_recovery_step. auto 10 with steps. Qed.
Lemma steps_acknowledge_add id : steps (acknowledge_add pid store id).
Proof. unfold acknowledge_add. auto with steps. Qed.
Lemma steps_acknowledge_add_absent id : steps (acknowledge_add_absent pid store id).
Proof. unfold acknowledge_add_absent. auto with steps. Qed.
Lemma steps_acknowledge_remove id : steps (acknowledge_remove pid store id).
Proof. unfold acknowledge_remove. auto with steps. Qed.
End Coherence.

(** * Effects on the ledger *)

Lemma held_unique `{JournalJson} store d j j' :
  held store d = Some j → held store d = Some j' → j = j'.
Proof. congruence. Qed.

Lemma coherent_unique `{JournalJson} store d j j' :
  coherent store d j → coherent store d j' → j = j'.
Proof. intros [_ Hj _] [_ Hj' _]. congruence. Qed.

Lemma coherent_wf `{JournalJson} store d disk : coherent store d disk → journal_wf disk.
Proof. intros [_ Hh _]. by eapply held_uid. Qed.

Lemma follows_wf j j' : follows j j' → journal_wf j ∧ journal_wf j'.
Proof. by intros [? ? _ _ _ _ _]%validate_successor_iff. Qed.

(** No live resource is lost. *)
Definition keeps (j j' : HostStateJournalV1) : Prop := ∀ r, status j r ≠ None → status j' r ≠ None.

#[export] Instance keeps_refl : Reflexive keeps.
Proof. by intros j r. Qed.
#[export] Instance keeps_trans : Transitive keeps.
Proof. intros j1 j2 j3 H1 H2 r Hr. auto. Qed.

Lemma status_not_None j r :
  status j r ≠ None ↔ ∃ op, op ∈ hj_operations j ∧ op_resource op = r ∧ op_state op ≠ Removed.
Proof.
  split.
  - intros Hr. destruct (status j r) as [s|] eqn:E; [|done].
    apply status_Some_in in E as (op & ? & ? & <- & ?). eauto.
  - intros (op & Hin & Hr & Hs) E. rewrite status_None in E. eauto.
Qed.

Lemma status_operations j j' : hj_operations j = hj_operations j' → ∀ r, status j r = status j' r.
Proof. intros E r. unfold status. by rewrite E. Qed.

Lemma next_generation_Ok j j' :
  next_generation j = Ok j' →
  hj_operations j' = hj_operations j ∧ hj_phase j' = hj_phase j ∧ hj_owner j' = hj_owner j
  ∧ hj_generation j' = hj_generation j + 1.
Proof.
  unfold next_generation. intros E.
  apply bind_Ok in E as (g & Hg%ok_or_Ok%u64_checked_add_Some & [= <-]). by destruct Hg as [-> _].
Qed.

Lemma transition_phase_Ok j phase j' :
  transition_phase j phase = Ok j' → hj_operations j' = hj_operations j ∧ hj_phase j' = phase.
Proof. unfold transition_phase. intros E. simplify_ok. done. Qed.

(** The record that a transition changes. *)
Lemma transition_operation_Ok j id st j' :
  transition_operation j id st = Ok j' →
  ∃ i op, hj_operations j !! i = Some op ∧ op_id op = id ∧ hj_phase j' = hj_phase j
    ∧ hj_operations j' = <[i := mkOperationRecord (op_id op) st (op_resource op)]> (hj_operations j)
    ∧ find_operation id (hj_operations j) = Some (i, op)
    ∧ (op_state op = st ∨ hj_phase j = Preparing ∨ hj_phase j = Cleaning).
Proof.
  unfold transition_operation, find_operation. intros E.
  apply bind_Ok in E as ([i op] & Hf%ok_or_Ok & E). pose proof Hf as Hf'.
  apply list_find_Some in Hf as (Hi & Hid & _). exists i, op.
  case_bool_decide as Hst.
  - injection E as <-. subst st. split_and!; try done; [|by left].
    rewrite list_insert_id; [done|]. rewrite Hi. by destruct op.
  - apply if_err_Ok in E as [_ E]. apply if_err_Ok in E as [Hph [= <-]]. split_and!; try done.
    right. destruct (hj_phase j); try done; auto.
Qed.

Lemma status_insert j j' i op st r :
  journal_wf j → journal_wf j' → hj_operations j !! i = Some op →
  hj_operations j' = <[i := mkOperationRecord (op_id op) st (op_resource op)]> (hj_operations j) →
  r ≠ op_resource op → status j' r = status j r.
Proof.
  intros Hw Hw' Hi E Hne.
  assert (∀ op', op_resource op' = r → op' ∈ hj_operations j' ↔ op' ∈ hj_operations j) as Hin.
  { intros op' Hr. rewrite E, !list_elem_of_lookup. split; intros [k Hk].
    - apply list_lookup_insert_Some in Hk as [(-> & <- & _)|[_ Hk]]; [by subst r|by eauto].
    - exists k. rewrite list_lookup_insert_ne; [done|]. intros ->. congruence. }
  destruct (status j r) as [s|] eqn:Es.
  - apply (status_Some j r s Hw) in Es as (op' & ? & Hr & ? & ?). apply status_Some; [done|].
    exists op'. split_and!; try done. by apply Hin.
  - rewrite status_None in Es |- *. intros op' Ho Hr. apply Es; [|done]. by apply Hin.
Qed.

Lemma status_inserted j j' i op st :
  journal_wf j' → hj_operations j !! i = Some op →
  hj_operations j' = <[i := mkOperationRecord (op_id op) st (op_resource op)]> (hj_operations j) →
  st ≠ Removed → status j' (op_resource op) = Some st.
Proof.
  intros Hw' Hi E Hst. apply status_Some; [done|].
  exists (mkOperationRecord (op_id op) st (op_resource op)). split_and!; try done.
  rewrite E. apply list_elem_of_lookup. exists i. apply list_lookup_insert_eq.
  by eapply lookup_lt_Some.
Qed.

(** A change to a state other than removed loses nothing. *)
Lemma keeps_insert j j' i op st :
  journal_wf j → journal_wf j' → hj_operations j !! i = Some op →
  hj_operations j' = <[i := mkOperationRecord (op_id op) st (op_resource op)]> (hj_operations j) →
  st ≠ Removed → keeps j j'.
Proof.
  intros Hw Hw' Hi E Hst r Hr. destruct (decide (r = op_resource op)) as [->|Hne].
  - by rewrite (status_inserted j j' i op st).
  - by rewrite (status_insert j j' i op st).
Qed.

Lemma keeps_append j j' added :
  hj_operations j' = hj_operations j ++ added → keeps j j'.
Proof.
  intros E r. rewrite !status_not_None, E. intros (op & ? & ? & ?). exists op.
  rewrite elem_of_app. auto.
Qed.

Lemma keeps_compacted j j' : hj_operations j' = compacted (hj_operations j) → keeps j j'.
Proof.
  intros E r. rewrite !status_not_None, E. intros (op & Hin & Hr & Hs).
  destruct (renumber_elem_of (List.filter live (hj_operations j)) op) as (op' & ? & ? & ?);
    [by apply elem_of_live|]. exists op'. split_and!; congruence || done.
Qed.

Section Preservation.
Context `{JournalJsonLaws} (pid : bytes) (store : JournalStore).
Abbreviation coherent := (coherent store).
Abbreviation steps := (steps store).

(** A computation that loses no live resource on disk, whatever fails. *)
Definition preserves {A} (m : Dj A) : Prop :=
  ∀ d disk r d' disk', coherent d disk → m d = (r, d') → coherent d' disk' → keeps disk disk'.

Lemma preserves_pure {A} (m : Dj A) : (∀ d, (m d).2 = d) → preserves m.
Proof.
  intros Hm d disk r d' disk' Hc E Hc'. specialize (Hm d). rewrite E in Hm. simpl in Hm. subst d'.
  by rewrite (coherent_unique _ _ _ _ Hc Hc').
Qed.
Lemma preserves_bind {A B} (m : Dj A) (f : A → Dj B) :
  steps m → preserves m → (∀ a, preserves (f a)) → preserves (m ≫= f).
Proof.
  intros Hs Hm Hf d disk r d' disk' Hc E Hc'.
  apply dj_bind in E as [(a & d1 & E1 & E2)|(e & E1 & ->)]; [|by eapply Hm].
  destruct (Hs _ _ _ _ Hc E1) as (disk1 & Hc1 & _). etrans; [by eapply Hm|by eapply Hf].
Qed.
Lemma preserves_if {A} (b : bool) (m1 m2 : Dj A) :
  preserves m1 → preserves m2 → preserves (if b then m1 else m2).
Proof. by destruct b. Qed.

Lemma preserves_commit mutate :
  (∀ j j', mutate j = Ok j' → hj_generation j' = hj_generation j) →
  (∀ j n n', journal_wf j → journal_wf n' → mutate j = Ok n → next_generation n = Ok n' → keeps j n') →
  preserves (durable_commit pid store mutate).
Proof.
  intros Hgen Hk d disk r d' disk' Hc E Hc'. pose proof (coherent_wf _ _ _ Hc) as Hw.
  pose proof (coherent_wf _ _ _ Hc') as Hw'.
  destruct (commit_cases _ _ _ _ _ _ _ Hgen Hc E)
    as [(_ & _ & [Hc1|(_ & next & j & Hc1 & _ & Hj & Hn)])|(_ & _ & Hc1 & _ & j & Hj & Hn)];
    assert (disk' = _) as -> by (eapply coherent_unique; [exact Hc'|exact Hc1]);
    [done|eapply Hk; [done|by eapply coherent_wf|done|done]..].
Qed.

Lemma keeps_next j n n' : keeps j n → next_generation n = Ok n' → keeps j n'.
Proof.
  intros Hk (Ho & _)%next_generation_Ok r Hr. rewrite (status_operations n' n Ho). by apply Hk.
Qed.

Lemma preserves_commit_phase phase : preserves (commit_phase pid store phase).
Proof.
  apply preserves_commit; [apply phase_generation|].
  - intros j n n' _ _ Hn Hnn. eapply keeps_next; [|exact Hnn]. unfold dj_transition in Hn.
    destruct (transition_phase j phase) eqn:E; [|done]. injection Hn as <-.
    apply transition_phase_Ok in E as [Ho _]. intros r Hr. by rewrite (status_operations _ _ Ho).
Qed.

Lemma preserves_commit_operation id st :
  st ≠ Removed → preserves (commit_operation pid store id st).
Proof.
  intros Hst. apply preserves_commit.
  - intros j j'. unfold dj_transition.
    destruct (transition_operation j id st) eqn:E; [|done]. intros [= <-].
    by eapply transition_operation_generation.
  - intros j n n' Hw Hw' Hn Hnn. unfold dj_transition in Hn.
    destruct (transition_operation j id st) eqn:E; [|done]. injection Hn as <-.
    apply transition_operation_Ok in E as (i & op & Hi & _ & _ & Ho & _).
    apply next_generation_Ok in Hnn as (Ho' & _). rewrite Ho in Ho'. by eapply keeps_insert.
Qed.

Lemma preserves_commit_operations f :
  (∀ j n, hj_operations n = f j → keeps j n) →
  preserves (durable_commit pid store (λ journal,
    let journal := with_operations journal (f journal) in _ ← dj_validate journal; Ok journal)).
Proof.
  intros Hf. apply preserves_commit; [apply operations_generation|].
  - intros j n n' _ _ E Hnn. apply bind_Ok in E as (? & _ & [= <-]).
    apply next_generation_Ok in Hnn as (Ho & _). by apply Hf.
Qed.

Create HintDb preserves.
#[local] Hint Extern 1 (preserves (mret _)) => by apply preserves_pure : preserves.
#[local] Hint Extern 1 (preserves (dj_fail _)) => by apply preserves_pure : preserves.
#[local] Hint Extern 1 (preserves (dj_lift _)) => by apply preserves_pure : preserves.
#[local] Hint Extern 1 (preserves get_journal) => by apply preserves_pure : preserves.
#[local] Hint Resolve preserves_bind preserves_if preserves_commit_phase : preserves.
#[local] Hint Resolve steps_ret steps_fail steps_lift steps_get steps_bind steps_if steps_commit_phase
  steps_commit_operation steps_commit_operations steps_expect steps_ensure_preparing steps_compact
  : preserves.

Lemma preserves_ensure_preparing : preserves (ensure_preparing pid store).
Proof.
  unfold ensure_preparing. apply preserves_bind; [auto with preserves..|].
  intros j. destruct (hj_phase j); auto with preserves.
Qed.
#[local] Hint Resolve preserves_ensure_preparing : preserves.

Lemma preserves_compact : preserves (compact_removed pid store).
Proof.
  unfold compact_removed. apply preserves_bind; [auto with preserves..|]. intros j.
  apply preserves_if; [auto with preserves|]. apply preserves_if; [auto with preserves|].
  apply preserves_bind; [auto with preserves| |auto with preserves].
  apply (preserves_commit_operations (λ j, compacted (hj_operations j))). apply keeps_compacted.
Qed.
#[local] Hint Resolve preserves_compact : preserves.

Lemma preserves_begin_add rs : preserves (begin_add_batch pid store rs).
Proof.
  unfold begin_add_batch. apply preserves_if; [auto with preserves|].
  apply preserves_bind; [auto with preserves..|]. intros j.
  apply preserves_bind; [auto with preserves..|]. intros _.
  apply preserves_bind; [auto with preserves..|]. intros j1.
  assert (∀ ids, preserves (_ ← ensure_preparing pid store; _ ← durable_commit pid store (λ journal,
    let journal := append_planned rs journal in _ ← dj_validate journal; Ok journal);
    mret ids : Dj (list Z))) as Hend.
  { intros ids. apply preserves_bind; [auto with preserves..|]. intros _.
    apply preserves_bind; [apply steps_commit_operations| |auto with preserves].
    apply (preserves_commit_operations (λ j, hj_operations j ++ _)). intros ? ?. apply keeps_append. }
  apply preserves_bind; [|destruct (preflight_add_batch rs j1) as [ids|[[]| | | | |]]; auto 10 with preserves|done].
  destruct (preflight_add_batch rs j1) as [ids|[[]| | | | |]]; auto 10 with preserves.
Qed.

Lemma preserves_expect id st : preserves (expect_state id st).
Proof. unfold expect_state. auto 10 with preserves. Qed.
#[local] Hint Resolve preserves_expect : preserves.

Lemma preserves_acknowledge_add id : preserves (acknowledge_add pid store id).
Proof.
  unfold acknowledge_add. apply preserves_bind; [auto with preserves..|]. intros _.
  by apply preserves_commit_operation.
Qed.
Lemma preserves_begin_remove r : preserves (begin_remove pid store r).
Proof. unfold begin_remove. auto 10 with preserves. Qed.
Lemma preserves_publish_active : preserves (publish_active pid store).
Proof. unfold publish_active. auto 10 with preserves. Qed.
Lemma preserves_begin_cleaning : preserves (begin_cleaning pid store).
Proof.
  unfold begin_cleaning. apply preserves_bind; [auto with preserves..|].
  intros j. destruct (hj_phase j); auto with preserves.
Qed.
Lemma preserves_mark_conflict : preserves (mark_conflict pid store).
Proof.
  unfold mark_conflict. apply preserves_bind; [auto with preserves..|].
  intros j. destruct (hj_phase j); auto with preserves.
Qed.

(** Marking an operation as removed loses at most its resource. *)
Lemma commit_removed_loses id d disk r d' disk' :
  coherent d disk → commit_operation pid store id Removed d = (r, d') → coherent d' disk' →
  disk' = disk
  ∨ disk = du_journal d
    ∧ ∃ i op, find_operation id (hj_operations disk) = Some (i, op)
      ∧ ∀ r, r ≠ op_resource op → status disk' r = status disk r.
Proof.
  intros Hc E Hc'. pose proof (coherent_wf _ _ _ Hc) as Hw. pose proof (coherent_wf _ _ _ Hc') as Hw'.
  assert (∀ j n, dj_transition (transition_operation disk id Removed) = Ok j → next_generation j = Ok n →
    journal_wf n → ∃ i op, find_operation id (hj_operations disk) = Some (i, op)
      ∧ ∀ r, r ≠ op_resource op → status n r = status disk r) as Hcase.
  { intros j n Hj Hn Hwn. unfold dj_transition in Hj.
    destruct (transition_operation disk id Removed) eqn:Et; [|done]. injection Hj as ->.
    apply transition_operation_Ok in Et as (i & op & Hi & Hid & _ & Ho & Hf & _).
    apply next_generation_Ok in Hn as (Ho' & _). exists i, op. split; [done|]. intros r0 Hr0.
    eapply status_insert; [done|done|exact Hi| |done]. by rewrite Ho', Ho. }
  assert (∀ j j', dj_transition (transition_operation j id Removed) = Ok j' →
            hj_generation j' = hj_generation j) as Hgen.
  { intros j j'. unfold dj_transition. destruct (transition_operation j id Removed) eqn:Et; [|done].
    intros [= <-]. by eapply transition_operation_generation. }
  destruct (commit_cases _ _ _ _ _ _ _ Hgen Hc E)
    as [(_ & _ & [Hc1|(Hd & next & j & Hc1 & _ & Hj & Hn)])|(_ & Hd & Hc1 & _ & j & Hj & Hn)];
    assert (disk' = _) as -> by (eapply coherent_unique; [exact Hc'|exact Hc1]); [by left|right..];
    (split; [done|]); (eapply Hcase; [done|done|by eapply coherent_wf]).
Qed.
End Preservation.

Section Effects.
Context `{JournalJsonLaws} (pid : bytes) (store : JournalStore).
Abbreviation coherent := (coherent store).

Ltac dj_ok H :=
  let a := fresh "a" in let d := fresh "d" in let Hm := fresh "Hm" in let Hr := fresh "Hr" in
  apply dj_bind in H as [(a & d & Hm & H)|(? & Hm & Hr)]; [|discriminate Hr].

Lemma ensure_preparing_Ok d disk d' :
  coherent d disk → ensure_preparing pid store d = (Ok (), d') →
  hj_operations (du_journal d') = hj_operations (du_journal d) ∧ hj_phase (du_journal d') = Preparing.
Proof.
  intros Hc E. unfold ensure_preparing in E. dj_ok E. injection Hm as <- <-.
  destruct (hj_phase (du_journal d)) eqn:Hph; try done; [by injection E as <-|].
  destruct (commit_cases _ _ _ _ _ _ _ (phase_generation Preparing) Hc E)
    as [([? [=]] & _)|(_ & -> & _ & _ & j & Hj & Hn)].
  unfold dj_transition in Hj. destruct (transition_phase _ _) eqn:Et; [|done]. injection Hj as ->.
  apply transition_phase_Ok in Et as [Ho Hp]. apply next_generation_Ok in Hn as (Ho' & Hp' & _).
  split; congruence.
Qed.

Lemma preflight_ids rs j ids : preflight_add_batch rs j = Ok ids → ids = planned_ids rs j.
Proof.
  unfold preflight_add_batch. intros E. apply if_err_Ok in E as [_ E]. apply if_err_Ok in E as [_ E].
  apply bind_Ok in E as (j1 & _ & E). apply bind_Ok in E as (? & _ & E).
  apply bind_Ok in E as (? & _ & E). apply bind_Ok in E as (? & _ & E). by injection E.
Qed.

(** A batch that was accepted is on disk: one planned record for every resource. *)
Lemma begin_add_Ok rs ids d disk d' :
  coherent d disk → rs ≠ [] → begin_add_batch pid store rs d = (Ok ids, d') →
  coherent d' (du_journal d') ∧ hj_phase (du_journal d') = Preparing
  ∧ ∃ before, hj_operations (du_journal d') = before ++ planned_records (len before + 1) rs
              ∧ ids = op_id <$> planned_records (len before + 1) rs.
Proof.
  intros Hc Hne E. unfold begin_add_batch in E. rewrite bool_decide_false in E by done.
  dj_ok E. injection Hm as <- <-. dj_ok E. pose proof Hm as Hm0.
  assert (∃ disk1, coherent d0 disk1) as [disk1 Hc1].
  { assert (steps store (if bool_decide (hj_phase (du_journal d) = Active)
      && ((MAX_OPERATIONS <? len (hj_operations (du_journal d)) + len rs)
          || (64 <=? count_removed (hj_operations (du_journal d)))) then compact_removed pid store
      else mret true)) as Hs by (apply steps_if; [apply steps_compact|apply steps_ret]).
    destruct (Hs _ _ _ _ Hc Hm) as (disk1 & Hc1 & _). by eauto. }
  clear Hm Hm0. dj_ok E. injection Hm as <- <-. dj_ok E.
  assert (∃ disk2, coherent d1 disk2 ∧ a0 = planned_ids rs (du_journal d1)) as (disk2 & Hc2 & ->).
  { destruct (preflight_add_batch rs (du_journal d0)) as [ids0|e0] eqn:Epre.
    - injection Hm as <- <-. exists disk1. split; [done|]. by apply preflight_ids.
    - destruct e0 as [[]| | | | |]; try done. destruct (_ && _); [|done].
      dj_ok Hm. destruct (steps_compact pid store _ _ _ _ Hc1 Hm0) as (disk2 & Hc2 & _).
      dj_ok Hm. injection Hm1 as <- <-.
      destruct (preflight_add_batch rs (du_journal d2)) as [ids0|e0] eqn:Epre'; [|done].
      injection Hm as <- <-. exists disk2. split; [done|]. by apply preflight_ids. }
  dj_ok E. destruct a0. destruct (steps_ensure_preparing pid store _ _ _ _ Hc2 Hm0) as (disk3 & Hc3 & _).
  destruct (ensure_preparing_Ok _ _ _ Hc2 Hm0) as [Ho Hph].
  dj_ok E. injection E as <- <-.
  destruct (commit_cases _ _ _ _ _ _ _ (operations_generation (λ j, hj_operations j ++ _)) Hc3 Hm1)
    as [([? [=]] & _)|(_ & -> & Hc4 & _ & j & Hj & Hn)].
  apply bind_Ok in Hj as (? & _ & [= <-]). apply next_generation_Ok in Hn as (Ho' & Hp' & _).
  split_and!; [done|by rewrite Hp'|]. exists (hj_operations (du_journal d2)). split; [done|].
  unfold planned_ids. by rewrite Ho.
Qed.

Lemma elem_of_planned first rs r :
  r ∈ rs → ∃ op, op ∈ planned_records first rs ∧ op_resource op = r ∧ op_state op = Planned.
Proof.
  intros (i & Hi)%list_elem_of_lookup.
  exists (mkOperationRecord (first + Z.of_nat i) Planned r). split; [|done].
  apply elem_of_lookup_imap. eauto.
Qed.

Lemma begin_add_status rs ids d disk d' r :
  coherent d disk → begin_add_batch pid store rs d = (Ok ids, d') → r ∈ rs →
  coherent d' (du_journal d') ∧ status (du_journal d') r = Some Planned.
Proof.
  intros Hc E Hr. assert (rs ≠ []) as Hne by (intros ->; by apply not_elem_of_nil in Hr).
  destruct (begin_add_Ok _ _ _ _ _ Hc Hne E) as (Hc' & _ & before & Ho & _). split; [done|].
  destruct (elem_of_planned (len before + 1) rs r Hr) as (op & Hin & Hres & Hst).
  apply status_Some; [by eapply coherent_wf|]. exists op. rewrite Ho, elem_of_app. auto.
Qed.
End Effects.

(** Identifiers with their resources. *)
Definition catalog (j : HostStateJournalV1) : list (Z * OwnedResource) :=
  (λ op, (op_id op, op_resource op)) <$> hj_operations j.

Lemma operation_generation id st j j' :
  dj_transition (transition_operation j id st) = Ok j' → hj_generation j' = hj_generation j.
Proof.
  unfold dj_transition. destruct (transition_operation j id st) eqn:Et; [|done].
  intros [= <-]. by eapply transition_operation_generation.
Qed.

Lemma catalog_insert j j' i op st :
  hj_operations j !! i = Some op →
  hj_operations j' = <[i := mkOperationRecord (op_id op) st (op_resource op)]> (hj_operations j) →
  catalog j' = catalog j.
Proof.
  intros Hi E. unfold catalog. rewrite E, list_fmap_insert. apply list_insert_id.
  rewrite list_lookup_fmap, Hi. done.
Qed.

Lemma catalog_inj j id r r' : journal_wf j → (id, r) ∈ catalog j → (id, r') ∈ catalog j → r = r'.
Proof.
  intros Hw (op & [= -> ->] & Hin)%list_elem_of_fmap (op' & [= E ->] & Hin')%list_elem_of_fmap.
  by rewrite (wf_id_inj j op op').
Qed.

Section Session.
Context `{JournalJsonLaws} (pid : bytes) (store : JournalStore).
Abbreviation coherent := (coherent store).
Abbreviation steps := (steps store).
Abbreviation preserves := (preserves store).

Lemma coherent_memory_wf d disk : coherent d disk → journal_wf (du_journal d).
Proof.
  intros Hc. pose proof (coherent_wf _ _ _ Hc). destruct Hc as [_ _ [->|Hf]]; [done|].
  by apply follows_wf in Hf as [? _].
Qed.

(** A computation that forgets at most the resource of [id]. *)
Definition drops_only (id : Z) (m : Dj ()) : Prop :=
  ∀ d disk r d' disk' y, coherent d disk → m d = (r, d') → coherent d' disk' →
  (id, y) ∉ catalog (du_journal d) → status disk' y = status disk y.

Lemma drops_removed id : drops_only id (commit_operation pid store id Removed).
Proof.
  intros d disk r d' disk' y Hc E Hc' Hy.
  destruct (commit_removed_loses _ _ _ _ _ _ _ _ Hc E Hc') as [->|(-> & i & op & Hf & Hst)]; [done|].
  apply Hst. intros ->. apply Hy. apply list_find_Some in Hf as (Hi & Hid & _).
  apply list_elem_of_fmap. exists op. rewrite <- Hid. split; [done|by eapply list_elem_of_lookup_2].
Qed.

Lemma drops_pure id m : (∀ d, (m d).2 = d) → drops_only id m.
Proof.
  intros Hm d disk r d' disk' y Hc E Hc' _. specialize (Hm d). rewrite E in Hm. simpl in Hm. subst d'.
  by rewrite (coherent_unique _ _ _ _ Hc Hc').
Qed.

Lemma drops_after {A} id (m : Dj A) f :
  (∀ d, (m d).2 = d) → (∀ a, drops_only id (f a)) → drops_only id (m ≫= f).
Proof.
  intros Hm Hf d disk r d' disk' y Hc E Hc' Hy.
  apply dj_bind in E as [(a & d1 & E1 & E)|(e & E1 & ->)];
    pose proof (Hm d) as Hd; rewrite E1 in Hd; simpl in Hd; subst.
  - by eapply Hf.
  - by rewrite (coherent_unique _ _ _ _ Hc Hc').
Qed.

Lemma expect_state_pure id st d : (expect_state id st d).2 = d.
Proof.
  unfold expect_state, dj_lift, mbind, Dj_bind. simpl.
  destruct (operation_state id (du_journal d)); [|done]. by destruct (bool_decide _).
Qed.

Lemma drops_acknowledge_add_absent id : drops_only id (acknowledge_add_absent pid store id).
Proof. apply drops_after; [apply expect_state_pure|]. intros _. apply drops_removed. Qed.
Lemma drops_acknowledge_remove id : drops_only id (acknowledge_remove pid store id).
Proof. apply drops_after; [apply expect_state_pure|]. intros _. apply drops_removed. Qed.
Lemma drops_acknowledge_recovery id : drops_only id (acknowledge_recovery_step pid store id).
Proof.
  apply drops_after; [done|]. intros j. destruct (negb _); [by apply drops_pure|].
  apply drops_after; [done|]. intros st. destruct (bool_decide _); [by apply drops_pure|].
  apply drops_removed.
Qed.

Lemma remove_completed_cases d disk r d' :
  coherent d disk → remove_completed_file pid store d = (r, d') →
  (∃ e, r = Err e) ∧ coherent d' disk
  ∨ ready store (du_world d') ∧ d_names (w_dir (du_world d')) !! js_name store = None
    ∧ is_fully_removed disk = true.
Proof.
  intros [Hr Hh Ha] E. unfold remove_completed_file in E.
  destruct (store_remove_completed pid store _ (du_world d)) as [r1 w1] eqn:Es.
  destruct (store_remove_alone _ _ _ _ _ _ _ Hr Hh Es) as (Hr1 & [[[e ->] Hh1]|(Hn & Hfull & _)]).
  - injection E as <- <-. left. split; [by eauto|by split].
  - right. by destruct r1 as [[]|]; injection E as <- <-.
Qed.

Lemma fully_removed_status j r : is_fully_removed j = true → status j r = None.
Proof.
  unfold is_fully_removed. intros [_ Hall]%andb_true_iff. destruct (status j r) as [st|] eqn:Es; [|done].
  assert (status j r ≠ None) as (op & Hin & _ & Hst)%status_not_None by by rewrite Es.
  rewrite forallb_forall in Hall. apply list_elem_of_In, Hall, bool_decide_eq_true in Hin. done.
Qed.

(** The calls of a session, and what each may forget.  [begin_add] is a batch of one, and
    [remove_completed] does to the store what [remove_completed_file] does. *)
Inductive Call :=
| BeginAdd (resources : list OwnedResource)
| AcknowledgeAdd (operation_id : Z)
| AcknowledgeAddAbsent (operation_id : Z)
| PublishActive
| BeginRemove (resource : OwnedResource)
| AcknowledgeRemove (operation_id : Z)
| BeginCleaning
| MarkConflict
| AcknowledgeRecoveryStep (operation_id : Z)
| CompactRemoved
| RemoveCompletedFile.

Definition discard {A} (m : Dj A) : Dj () := _ ← m; mret ().

Definition perform (c : Call) : Dj () :=
  match c with
  | BeginAdd resources => discard (begin_add_batch pid store resources)
  | AcknowledgeAdd id => acknowledge_add pid store id
  | AcknowledgeAddAbsent id => acknowledge_add_absent pid store id
  | PublishActive => publish_active pid store
  | BeginRemove resource => discard (begin_remove pid store resource)
  | AcknowledgeRemove id => acknowledge_remove pid store id
  | BeginCleaning => begin_cleaning pid store
  | MarkConflict => mark_conflict pid store
  | AcknowledgeRecoveryStep id => acknowledge_recovery_step pid store id
  | CompactRemoved => discard (compact_removed pid store)
  | RemoveCompletedFile => remove_completed_file pid store
  end.

(** The operation that the call reports absent. *)
Definition reports_absent (c : Call) : option Z :=
  match c with
  | AcknowledgeAddAbsent id | AcknowledgeRemove id | AcknowledgeRecoveryStep id => Some id
  | _ => None
  end.

Lemma steps_discard {A} (m : Dj A) : steps m → steps (discard m).
Proof. intros Hm. apply steps_bind; [done|]. intros _. apply steps_ret. Qed.
Lemma preserves_discard {A} (m : Dj A) : steps m → preserves m → preserves (discard m).
Proof. intros Hs Hm. apply preserves_bind; [done..|]. intros _. by apply preserves_pure. Qed.

Lemma steps_perform c : c ≠ RemoveCompletedFile → steps (perform c).
Proof.
  destruct c; simpl; intros Hc; try done; eauto using steps_discard, steps_begin_add, steps_acknowledge_add,
    steps_acknowledge_add_absent, steps_publish_active, steps_begin_remove, steps_acknowledge_remove,
    steps_begin_cleaning, steps_mark_conflict, steps_acknowledge_recovery, steps_compact.
Qed.

(** The handle is open and the journal file is not there any more. *)
Definition gone (d : Durable) : Prop :=
  ready store (du_world d) ∧ d_names (w_dir (du_world d)) !! js_name store = None.

Lemma perform_cases c d disk r d' :
  coherent d disk → perform c d = (r, d') →
  (∃ disk', coherent d' disk' ∧ rtc follows disk disk')
  ∨ c = RemoveCompletedFile ∧ gone d' ∧ ∀ x, status disk x = None.
Proof.
  intros Hc E. assert (c = RemoveCompletedFile ∨ c ≠ RemoveCompletedFile) as [->|Hne]
    by (destruct c; auto).
  - destruct (remove_completed_cases _ _ _ _ Hc E) as [[_ Hc']|(Hr & Hn & Hfull)]; [by left; exists disk|].
    right. split_and!; [done..|]. intros x. by apply fully_removed_status.
  - left. destruct (steps_perform c Hne _ _ _ _ Hc E) as (disk' & Hc' & Hf & _). by exists disk'.
Qed.

Lemma perform_keeps c d disk r d' disk' x :
  coherent d disk → perform c d = (r, d') → coherent d' disk' →
  (∀ id, reports_absent c = Some id → (id, x) ∉ catalog (du_journal d)) →
  status disk x ≠ None → status disk' x ≠ None.
Proof.
  intros Hc E Hc' Hx Hs.
  assert (∀ id m, reports_absent c = Some id → drops_only id m → m d = (r, d') → status disk' x ≠ None) as Hd.
  { intros id m Hid Hm Em. by rewrite (Hm _ _ _ _ _ x Hc Em Hc' (Hx _ Hid)). }
  assert (∀ m, preserves m → m d = (r, d') → status disk' x ≠ None) as Hp.
  { intros m Hm Em. by eapply (Hm _ _ _ _ _ Hc Em Hc'). }
  destruct c; simpl in E;
    try solve [ eapply Hd; [done| |exact E];
              eauto using drops_acknowledge_add_absent, drops_acknowledge_remove, drops_acknowledge_recovery
          | eapply Hp; [|exact E];
              eauto using preserves_discard, steps_begin_add, preserves_begin_add, preserves_acknowledge_add,
                preserves_publish_active, steps_begin_remove, preserves_begin_remove,
                preserves_begin_cleaning, preserves_mark_conflict, steps_compact, preserves_compact ].
  destruct (remove_completed_cases _ _ _ _ Hc E) as [[_ Hc1]|(_ & _ & Hfull)].
  - by rewrite (coherent_unique _ _ _ _ Hc' Hc1).
  - by destruct Hs; apply fully_removed_status.
Qed.

(** A call with any outcome, or a restart: the directory is what the disk holds, the rest
    of the world is new, and the journal is loaded again.  A crash inside a call is the
    call with every later system call failing, followed by a restart. *)
Inductive session_step (x : OwnedResource) (d d' : Durable) : Prop :=
| step_call c r :
    perform c d = (r, d') →
    (∀ id, reports_absent c = Some id → (id, x) ∉ catalog (du_journal d)) →
    session_step x d d'
| step_restart w w' :
    w_dir w = w_dir (du_world d) → ready store w → durable_load store w = (Ok d', w') →
    session_step x d d'.

Lemma restart_coherent d disk w d' w' :
  coherent d disk → w_dir w = w_dir (du_world d) → ready store w →
  durable_load store w = (Ok d', w') → coherent d' disk ∧ du_journal d' = disk.
Proof.
  intros [_ Hh _] Hd Hr E. unfold durable_load in E.
  destruct (store_load store w) as [[j|e] w1] eqn:El; [|done].
  destruct (store_load_alone _ _ _ _ Hr El) as (Hr1 & Hd1 & Hok). injection E as <- <-.
  specialize (Hok j eq_refl). rewrite Hd in Hok. assert (j = disk) as -> by congruence.
  split; [|done]. split; simpl; [done| |by left]. by rewrite Hd1, Hd.
Qed.

Lemma session_step_live x d d' disk :
  session_step x d d' → coherent d disk → status disk x ≠ None →
  ∃ disk', coherent d' disk' ∧ rtc follows disk disk' ∧ status disk' x ≠ None.
Proof.
  intros [c r E Hx|w w' Hd Hr E] Hc Hs.
  - destruct (perform_cases c _ _ _ _ Hc E) as [(disk' & Hc' & Hf)|(_ & _ & Hnone)]; [|by destruct Hs].
    exists disk'. split; [done|]. split; [done|]. exact (perform_keeps _ _ _ _ _ _ _ Hc E Hc' Hx Hs).
  - destruct (restart_coherent _ _ _ _ _ Hc Hd Hr E) as [Hc' _]. by exists disk.
Qed.

(** C21: the journal is written ahead.  When [begin_add_batch] accepts resources, the journal
    on disk has each of them as planned before the caller touches the host.  From then on,
    through any sequence of the public calls of the journal (compaction and the deletion of a
    completed journal included) with any outcomes (failing writes included), crashes and
    restarts, there is a valid journal on disk that continues the earlier ones and in which
    the resource is live, as long as nobody reports its own operation absent and no other
    process writes in the directory of the journal. *)
Theorem write_ahead rs ids d disk d1 d2 x :
  coherent d disk → begin_add_batch pid store rs d = (Ok ids, d1) → x ∈ rs →
  rtc (session_step x) d1 d2 →
  held store (w_dir (du_world d1)) = Some (du_journal d1)
  ∧ status (du_journal d1) x = Some Planned
  ∧ ∃ disk2, held store (w_dir (du_world d2)) = Some disk2 ∧ validate disk2 = Ok ()
             ∧ rtc follows (du_journal d1) disk2 ∧ status disk2 x ≠ None.
Proof.
  intros Hc E Hx Hrun. destruct (begin_add_status _ _ _ _ _ _ _ _ Hc E Hx) as [Hc1 Hs].
  split_and!; [apply Hc1|done|].
  assert (∃ disk2, coherent d2 disk2 ∧ rtc follows (du_journal d1) disk2 ∧ status disk2 x ≠ None)
    as (disk2 & Hc2 & Hf & Hs2).
  { assert (status (du_journal d1) x ≠ None) as Hn by by rewrite Hs.
    clear d E Hs Hc. revert Hc1 Hn. generalize (du_journal d1) at 1 2 3 as disk1.
    induction Hrun as [da|da db dc Hstep _ IH]; intros disk1 Hc Hn; [by exists disk1|].
    destruct (session_step_live _ _ _ _ Hstep Hc Hn) as (disk' & Hc' & Hf & Hn').
    destruct (IH disk' Hc' Hn') as (disk2 & Hc2 & Hf2 & Hn2). exists disk2.
    split_and!; [done|by etrans|done]. }
  exists disk2. split_and!; [apply Hc2| |done..]. apply validate_wf. by eapply coherent_wf.
Qed.

Lemma acknowledge_recovery_cases id x d disk r d' :
  coherent d disk → acknowledge_recovery_step pid store id d = (r, d') →
  (id, x) ∈ catalog (du_journal d) →
  ∃ disk', coherent d' disk' ∧ rtc follows disk disk'
    ∧ (∀ y, y ≠ x → status disk' y = status disk y)
    ∧ (r = Ok () → catalog (du_journal d') = catalog (du_journal d)).
Proof.
  intros Hc E Hx. destruct (steps_acknowledge_recovery pid store id _ _ _ _ Hc E) as (disk' & Hc' & Hf & _).
  exists disk'. split_and!; [done..| |].
  - intros y Hy. apply (drops_acknowledge_recovery id _ _ _ _ _ _ Hc E Hc'). intros Hin. apply Hy.
    eapply catalog_inj; [exact (coherent_memory_wf _ _ Hc)|exact Hin|exact Hx].
  - intros ->. unfold acknowledge_recovery_step in E.
    apply dj_bind in E as [(j & d1 & [= <- <-] & E)|(e & [=] & _)].
    destruct (negb _); [done|]. apply dj_bind in E as [(st & d1 & E1 & E)|(e & _ & [=])].
    injection E1 as E1 <-. destruct (bool_decide _); [by injection E as <-|].
    apply commit_cases with (disk := disk) in E; [|apply operation_generation|done].
    destruct E as [([? [=]] & _)|(_ & -> & _ & _ & j & Hj & Hn)].
    unfold dj_transition in Hj. destruct (transition_operation _ id Removed) eqn:Et; [|done].
    injection Hj as ->. apply transition_operation_Ok in Et as (i & op & Hi & _ & _ & Ho & _).
    apply next_generation_Ok in Hn as (Ho' & _). eapply catalog_insert; [exact Hi|]. by rewrite Ho', Ho.
Qed.

Lemma begin_cleaning_Ok d disk d' :
  coherent d disk → begin_cleaning pid store d = (Ok (), d') →
  hj_operations (du_journal d') = hj_operations (du_journal d) ∧ hj_phase (du_journal d') = Cleaning.
Proof.
  intros Hc E. unfold begin_cleaning in E.
  apply dj_bind in E as [(j & d1 & [= <- <-] & E)|(e & _ & [=])].
  assert (commit_phase pid store Cleaning d = (Ok (), d') ∨ d' = d ∧ hj_phase (du_journal d) = Cleaning)
    as [Ec|[-> ?]]; [|clear E|done].
  { destruct (hj_phase (du_journal d)) eqn:Hph; simpl in E; try done; [by left..|].
    injection E as <-. by right. }
  apply commit_cases with (disk := disk) in Ec; [|apply phase_generation|done].
  destruct Ec as [([? [=]] & _)|(_ & -> & _ & _ & j & Hj & Hn)].
  unfold dj_transition in Hj. destruct (transition_phase _ _) eqn:Et; [|done]. injection Hj as ->.
  apply transition_phase_Ok in Et as [Ho Hp]. apply next_generation_Ok in Hn as (Ho' & Hp' & _).
  split; congruence.
Qed.

(** ** After the journal is deleted *)

Definition stays_gone {A} (m : Dj A) : Prop := ∀ d r d', gone d → m d = (r, d') → gone d'.

Lemma gone_pure {A} (m : Dj A) : (∀ d, (m d).2 = d) → stays_gone m.
Proof. intros Hm d r d' Hg E. specialize (Hm d). rewrite E in Hm. simpl in Hm. by subst d'. Qed.
Lemma gone_bind {A B} (m : Dj A) (f : A → Dj B) :
  stays_gone m → (∀ a, stays_gone (f a)) → stays_gone (m ≫= f).
Proof.
  intros Hm Hf d r d' Hg E. apply dj_bind in E as [(a & d1 & E1 & E)|(e & E1 & _)]; [|by eapply Hm].
  eapply Hf; [|exact E]. by eapply Hm.
Qed.
Lemma gone_if {A} (b : bool) (m1 m2 : Dj A) :
  stays_gone m1 → stays_gone m2 → stays_gone (if b then m1 else m2).
Proof. by destruct b. Qed.

Lemma load_gone w r w' :
  ready store w → d_names (w_dir w) !! js_name store = None → load_with_identity store w = (r, w') →
  is_ok r = false ∧ ready store w' ∧ d_names (w_dir w') !! js_name store = None.
Proof.
  intros Hr Hn E. destruct (load_ready _ _ _ _ Hr E) as (Hr' & Hd & Hok). rewrite Hd. split_and!; [|done..].
  destruct r as [[j id]|]; [|done]. destruct (Hok j id eq_refl) as [Hs _]. congruence.
Qed.

(** Nothing is written to a journal that is not there. *)
Lemma commit_gone mutate d r d' :
  gone d → durable_commit pid store mutate d = (r, d') → is_ok r = false ∧ gone d'.
Proof.
  intros [Hr Hn] E. unfold durable_commit in E. destruct (next ← mutate _; _) as [next|e];
    [|by injection E as <- <-].
  unfold store_replace, mbind, Fs_bind in E.
  destruct (load_with_identity store (du_world d)) as [rl w1] eqn:El.
  destruct (load_gone _ _ _ Hr Hn El) as (Hf & Hr1 & Hn1). destruct rl as [?|e]; [done|].
  by destruct e as [[]| | | | | | | | | |]; injection E as <- <-.
Qed.
Lemma gone_commit mutate : stays_gone (durable_commit pid store mutate).
Proof. intros d r d' Hg E. by destruct (commit_gone _ _ _ _ Hg E). Qed.
Lemma gone_remove_completed : stays_gone (remove_completed_file pid store).
Proof.
  intros d r d' [Hr Hn] E. unfold remove_completed_file, store_remove_completed, mbind, Fs_bind in E.
  destruct (load_with_identity store (du_world d)) as [rl w1] eqn:El.
  destruct (load_gone _ _ _ Hr Hn El) as (Hf & Hr1 & Hn1). destruct rl as [?|e]; [done|].
  by injection E as <- <-.
Qed.

Create HintDb gone.
#[local] Hint Resolve gone_bind gone_if gone_commit gone_remove_completed : gone.
#[local] Hint Extern 2 (stays_gone _) => by apply gone_pure : gone.

Lemma gone_compact : stays_gone (compact_removed pid store).
Proof. unfold compact_removed. auto 10 with gone. Qed.
Lemma gone_ensure_preparing : stays_gone (ensure_preparing pid store).
Proof. apply gone_bind; [auto with gone|]. intros j. destruct (hj_phase j); unfold commit_phase; auto with gone. Qed.
Lemma gone_expect id st : stays_gone (expect_state id st).
Proof. apply gone_pure, expect_state_pure. Qed.
#[local] Hint Resolve gone_compact gone_ensure_preparing gone_expect : gone.
Lemma gone_begin_cleaning : stays_gone (begin_cleaning pid store).
Proof. apply gone_bind; [auto with gone|]. intros j. destruct (hj_phase j); unfold commit_phase; auto with gone. Qed.
Lemma gone_mark_conflict : stays_gone (mark_conflict pid store).
Proof. apply gone_bind; [auto with gone|]. intros j. destruct (hj_phase j); unfold commit_phase; auto with gone. Qed.
Lemma gone_acknowledge_recovery id : stays_gone (acknowledge_recovery_step pid store id).
Proof. unfold acknowledge_recovery_step, commit_operation. auto 10 with gone. Qed.
Lemma gone_begin_add rs : stays_gone (begin_add_batch pid store rs).
Proof.
  unfold begin_add_batch. apply gone_if; [auto with gone|]. apply gone_bind; [auto with gone|]. intros j.
  apply gone_bind; [auto with gone|]. intros _. apply gone_bind; [auto with gone|]. intros j1.
  apply gone_bind; [|auto 10 with gone].
  destruct (preflight_add_batch rs j1) as [ids|[[]| | | | |]]; auto 10 with gone.
Qed.
#[local] Hint Resolve gone_begin_cleaning gone_mark_conflict gone_acknowledge_recovery gone_begin_add : gone.

Lemma gone_perform c : stays_gone (perform c).
Proof.
  destruct c; unfold perform, discard, acknowledge_add, acknowledge_add_absent, publish_active, begin_remove,
    acknowledge_remove, commit_operation, commit_phase; auto 10 with gone.
Qed.

(** Only the empty batch is accepted then. *)
Definition fails_gone {A} (m : Dj A) : Prop := ∀ d r d', gone d → m d = (r, d') → is_ok r = false.

Lemma fails_after {A B} (m : Dj A) (f : A → Dj B) :
  stays_gone m → (∀ a, fails_gone (f a)) → fails_gone (m ≫= f).
Proof.
  intros Hm Hf d r d' Hg E. apply dj_bind in E as [(a & d1 & E1 & E)|(e & _ & ->)]; [|done].
  eapply Hf; [|exact E]. by eapply Hm.
Qed.
Lemma fails_commit {B} mutate (f : () → Dj B) : fails_gone (durable_commit pid store mutate ≫= f).
Proof.
  intros d r d' Hg E. apply dj_bind in E as [(a & d1 & E1 & E)|(e & _ & ->)]; [|done].
  by destruct (commit_gone _ _ _ _ Hg E1).
Qed.

Lemma begin_add_gone rs ids d d' :
  gone d → begin_add_batch pid store rs d = (Ok ids, d') → rs = [].
Proof.
  intros Hg E. destruct rs as [|x rs]; [done|]. exfalso. unfold begin_add_batch in E.
  rewrite bool_decide_false in E by done. revert E.
  enough (∀ m : Dj (list Z), fails_gone m → m d ≠ (Ok ids, d')) as Hm.
  - apply Hm. apply fails_after; [auto with gone|]. intros j. apply fails_after; [auto with gone|]. intros _.
    apply fails_after; [auto with gone|]. intros j1.
    apply fails_after; [|intros ids1; apply fails_after; [auto with gone|intros _; apply fails_commit]].
    destruct (preflight_add_batch _ j1) as [ids1|[[]| | | | |]]; auto 10 with gone.
  - intros m Hm E. specialize (Hm _ _ _ Hg E). done.
Qed.
End Session.

(** * Writing without failures *)

Section Progress.
Context `{JournalJsonLaws} (pid : bytes) (store : JournalStore) (a : Anchor).

(** The handle can write [k] more generations: no failures, memory and disk in step, enough
    unused random names and room in the counter. *)
Record able (k : nat) (d : Durable) : Prop := {
  ab_coherent : coherent store d (du_journal d);
  ab_calm : calm a (du_world d);
  ab_uid : an_expected_uid a = js_expected_uid store;
  ab_component : c_component (js_name store) = Ok (js_name store);
  ab_nonces : ∃ nonces rest,
    w_nonces (du_world d) = (Some <$> nonces) ++ rest ∧ (k ≤ length nonces)%nat
    ∧ Forall (λ n, d_names (w_dir (du_world d)) !! temp_name pid n = None
                   ∧ d_names (w_dir (du_world d)) !! quarantine_name pid n = None) nonces;
  ab_generation : 0 ≤ hj_generation (du_journal d) ∧ hj_generation (du_journal d) + Z.of_nat k < 2 ^ 64 }.

Lemma able_weaken k d : able (S k) d → able k d.
Proof.
  intros [Hc Hcm Hu Hn (nonces & rest & E & Hl & Hf) Hg]. split; try done; [|lia].
  exists nonces, rest. split_and!; [done|lia|done].
Qed.

Lemma commit_able k mutate d n next :
  (∀ j j', mutate j = Ok j' → hj_generation j' = hj_generation j) →
  able (S k) d → mutate (du_journal d) = Ok n → next_generation n = Ok next →
  follows (du_journal d) next → is_ok (serialize_journal next) = true →
  ∃ d', durable_commit pid store mutate d = (Ok (), d') ∧ able k d' ∧ du_journal d' = next.
Proof.
  intros Hgen [Hc Hcm Hu Hn (nonces & rest & E & Hl & Hf) Hg] Hm Hng Hfol Hser.
  destruct nonces as [|nonce nonces]; [simpl in Hl; lia|]. apply Forall_cons in Hf as [[Hft _] Hf].
  destruct (serialize_journal next) as [data|] eqn:Es; [|done]. clear Hser.
  destruct (store_replace_calm a pid store (du_journal d) next data ((Some <$> nonces) ++ rest) (du_world d))
    as (w' & id & Er & Hcm' & Hnames & Hno); try done; [apply Hc|by exists nonce|apply Hc|].
  assert (durable_commit pid store mutate d = (Ok (), mkDurable next w')) as Ecommit.
  { unfold durable_commit. rewrite Hm. simpl. unfold dj_transition. rewrite Hng. by rewrite Er. }
  exists (mkDurable next w'). split_and!; [done| |done].
  assert (∀ m, private m → d_names (w_dir w') !! m = d_names (w_dir (du_world d)) !! m) as Hpriv.
  { intros m Hp. rewrite Hnames. apply lookup_insert_ne. apply private_ne; [apply Hc|done]. }
  split; simpl; try done.
  - by destruct (commit_cases _ _ _ _ _ _ _ Hgen Hc Ecommit) as [([? [=]] & _)|(_ & _ & Hc' & _)].
  - exists nonces, rest. split_and!; [done|simpl in Hl; lia|].
    eapply Forall_impl; [exact Hf|]. intros m [Ht Hq].
    rewrite !Hpriv; [done|apply private_quarantine|apply private_temp].
  - apply next_generation_Ok in Hng as (_ & _ & _ & ->). rewrite (Hgen _ _ Hm). lia.
Qed.

(** The next [k] generations with these records can be written. *)
Definition fits (k : nat) (j : HostStateJournalV1) : Prop :=
  ∀ j', hj_owner j' = hj_owner j → catalog j' = catalog j → journal_wf j' →
        hj_generation j ≤ hj_generation j' ≤ hj_generation j + Z.of_nat k →
        is_ok (serialize_journal j') = true.

Lemma fits_next k j j' :
  fits (S k) j → hj_owner j' = hj_owner j → catalog j' = catalog j →
  hj_generation j ≤ hj_generation j' ≤ hj_generation j + 1 → fits k j'.
Proof. intros Hf Ho Hc Hg j2 Ho2 Hc2 Hw2 Hg2. apply Hf; [congruence..|done|lia]. Qed.

Lemma next_generation_room j : hj_generation j + 1 < 2 ^ 64 →
  next_generation j = Ok (with_generation j (hj_generation j + 1)).
Proof.
  intros Hg. unfold next_generation.
  by rewrite (proj2 (u64_checked_add_Some (hj_generation j) 1 _) (conj eq_refl Hg)).
Qed.

Lemma begin_cleaning_able k d :
  able (S k) d → fits (S k) (du_journal d) → hj_phase (du_journal d) ≠ Conflict →
  ∃ d', begin_cleaning pid store d = (Ok (), d') ∧ able k d' ∧ fits k (du_journal d')
    ∧ hj_phase (du_journal d') = Cleaning
    ∧ hj_operations (du_journal d') = hj_operations (du_journal d).
Proof.
  intros Ha Hfits Hph. pose proof (ab_generation _ _ Ha) as [Hg0 Hg].
  pose proof (coherent_wf _ _ _ (ab_coherent _ _ Ha)) as Hw.
  destruct (decide (hj_phase (du_journal d) = Cleaning)) as [Hcl|Hncl].
  { exists d. unfold begin_cleaning, get_journal, mbind, Dj_bind. rewrite Hcl.
    split_and!; try done; [by apply able_weaken|]. eapply fits_next; [done..|lia]. }
  set (j := du_journal d) in *.
  assert (next_generation (with_phase j Cleaning)
          = Ok (with_generation (with_phase j Cleaning) (hj_generation j + 1))) as Hn
    by (apply (next_generation_room (with_phase j Cleaning)); simpl; lia).
  assert (follows j (with_generation (with_phase j Cleaning) (hj_generation j + 1))) as Hf
    by by apply follows_cleaning.
  destruct (commit_able k (λ journal, dj_transition (transition_phase journal Cleaning)) d
    (with_phase j Cleaning) (with_generation (with_phase j Cleaning) (hj_generation j + 1)))
    as (d' & E & Ha' & Hj'); try done.
  - apply phase_generation.
  - unfold dj_transition, transition_phase. fold j. destruct (hj_phase j); done.
  - apply Hfits; [done..|apply (follows_wf _ _ Hf)|simpl; lia].
  - exists d'. rewrite Hj'. split_and!; try done; [|apply (fits_next k j); [done..|simpl; lia]].
    unfold begin_cleaning, get_journal, mbind, Dj_bind. fold j.
    destruct (hj_phase j); done.
Qed.

Lemma acknowledge_recovery_able k id x d :
  able (S k) d → fits (S k) (du_journal d) → hj_phase (du_journal d) = Cleaning →
  (id, x) ∈ catalog (du_journal d) →
  (∀ f, x = Firewall f → ∀ b e, b ∈ hj_operations (du_journal d) →
     op_resource b = FirewallEndpoint e → op_state b = Removed) →
  ∃ d', acknowledge_recovery_step pid store id d = (Ok (), d') ∧ able k d' ∧ fits k (du_journal d')
    ∧ hj_phase (du_journal d') = Cleaning
    ∧ catalog (du_journal d') = catalog (du_journal d)
    ∧ ∀ op, op ∈ hj_operations (du_journal d') → live op = true →
        op_id op ≠ id ∧ op ∈ hj_operations (du_journal d).
Proof.
  intros Ha Hfits Hph Hcat Hun. pose proof (ab_generation _ _ Ha) as [Hg0 Hg].
  pose proof (coherent_wf _ _ _ (ab_coherent _ _ Ha)) as Hw. set (j := du_journal d) in *.
  apply list_elem_of_fmap in Hcat as (op & [= -> ->] & Hin).
  destruct (find_operation (op_id op) (hj_operations j)) as [[i op']|] eqn:Hf.
  2: { apply list_find_None in Hf. rewrite Forall_forall in Hf. by destruct (Hf op Hin). }
  pose proof Hf as Hfind. apply list_find_Some in Hf as (Hi & Hid & _).
  assert (op' = op) as -> by (eapply (wf_id_inj j); [done|by eapply list_elem_of_lookup_2|done..]).
  assert (∀ b, b ∈ hj_operations j → op_id b = op_id op → b = op) as Hinj.
  { intros b Hb Hbid. by eapply (wf_id_inj j). }
  unfold acknowledge_recovery_step, get_journal, mbind, Dj_bind. fold j. rewrite Hph, bool_decide_true by done.
  simpl. unfold dj_lift, operation_state. rewrite Hfind. simpl.
  case_bool_decide as Hrem.
  { exists d. split_and!; try done; [by apply able_weaken|apply (fits_next k j); [done..|fold j; lia]|]. intros b Hb Hl. split; [|done].
    intros Hbid. rewrite (Hinj b Hb Hbid) in Hl. by apply live_true in Hl. }
  set (n := with_operations j (<[i := removed op]> (hj_operations j))).
  assert (next_generation n = Ok (with_generation n (hj_generation j + 1))) as Hn
    by (apply (next_generation_room n); simpl; lia).
  assert (follows j (with_generation n (hj_generation j + 1))) as Hfol by by eapply follows_removed.
  assert (catalog (with_generation n (hj_generation j + 1)) = catalog j) as Hcat by by eapply catalog_insert.
  destruct (commit_able k (λ journal, dj_transition (transition_operation journal (op_id op) Removed)) d
    n (with_generation n (hj_generation j + 1))) as (d' & E & Ha' & Hj'); try done.
  - apply operation_generation.
  - unfold dj_transition, transition_operation. fold j. rewrite Hfind. simpl.
    rewrite bool_decide_false by done. rewrite Hph. by destruct (op_state op).
  - apply Hfits; [done..|apply (follows_wf _ _ Hfol)|simpl; lia].
  - exists d'. rewrite Hj'. split_and!; try done; [apply (fits_next k j); [done..|simpl; lia]|]. simpl. intros b Hb Hl.
    apply list_elem_of_lookup in Hb as [m Hb].
    apply list_lookup_insert_Some in Hb as [(_ & <- & _)|[Hne Hb]]; [by apply live_true in Hl|].
    apply list_elem_of_lookup_2 in Hb as Hb'. split; [|done]. intros Hbid. apply Hne.
    rewrite (Hinj b Hb' Hbid) in Hb. apply (ops_ids _ _ (wf_operations _ Hw)) in Hb, Hi. lia.
Qed.

Lemma remove_completed_able k d :
  able (S k) d → is_fully_removed (du_journal d) = true →
  ∃ d', remove_completed_file pid store d = (Ok (), d').
Proof.
  intros [Hc Hcm Hu Hn (nonces & rest & E & Hl & Hf) Hg] Hfull.
  destruct nonces as [|nonce nonces]; [simpl in Hl; lia|]. apply Forall_cons in Hf as [[_ Hq] _].
  destruct (store_remove_calm a pid store (du_journal d) nonce ((Some <$> nonces) ++ rest) (du_world d))
    as [w' Ew]; try done; [apply Hc..|].
  unfold remove_completed_file. rewrite Ew. by eexists.
Qed.
End Progress.

(** * Examples *)

Module JournalSample.
Import Sample StoreSample.

(** The journal of a new session; after the batch is written, in the middle of the next
    generation, every system call fails, and then the process starts again. *)
Definition broken : Tick := mkTick (λ d, d) (Some IoOther).
Definition opened : Durable :=
  mkDurable started (world (with_journal started) (replicate 78 quiet ++ replicate 60 broken)).
Definition accepted : Durable := (begin_add_batch pid store resources opened).2.
Definition failed : Durable := (perform pid store (AcknowledgeAdd 3) accepted).2.
Definition rebooted : World := world (w_dir (du_world failed)) [].
Definition reloaded : Durable :=
  match durable_load store rebooted with (Ok d, _) => d | (Err _, _) => failed end.

Lemma ready_world d ticks : Forall (λ t, tk_others t = λ d, d) ticks → ready store (world d ticks).
Proof. intros Ht. split; [|by intros [l [=]]|done]. simpl. eapply Forall_impl; [exact Ht|]. by intros t ->. Qed.

Lemma opened_coherent : coherent store opened started.
Proof.
  split; [|by vm_compute|by left]. apply ready_world. apply Forall_app. split; by apply Forall_replicate.
Qed.

Lemma accepted_run : begin_add_batch pid store resources opened = (Ok [1; 2; 3], accepted).
Proof.
  assert ((begin_add_batch pid store resources opened).1 = Ok [1; 2; 3]) as H by by vm_compute.
  unfold accepted. by rewrite <- H, <- surjective_pairing.
Qed.

Lemma reloaded_run : durable_load store rebooted = (Ok reloaded, (durable_load store rebooted).2).
Proof.
  assert (is_ok (durable_load store rebooted).1 = true) as H by by vm_compute. unfold reloaded.
  by destruct (durable_load store rebooted) as [[d|e] w].
Qed.

Lemma restart_step x d d' w' :
  durable_load store (world (w_dir (du_world d)) []) = (Ok d', w') → session_step pid store x d d'.
Proof. intros E. eapply step_restart; [|by apply ready_world|exact E]. done. Qed.

(** The caller then tries to delete the journal, which is refused. *)
Definition refused : Durable := (perform pid store RemoveCompletedFile reloaded).2.

Lemma session_run : rtc (session_step pid store tun) accepted refused.
Proof.
  apply (rtc_l _ _ failed).
  { apply step_call with (AcknowledgeAdd 3) (perform pid store (AcknowledgeAdd 3) accepted).1; [|done].
    unfold failed. apply surjective_pairing. }
  apply (rtc_l _ _ reloaded); [eapply restart_step, reloaded_run|].
  apply rtc_once. apply step_call with RemoveCompletedFile (perform pid store RemoveCompletedFile reloaded).1; [|done].
  apply surjective_pairing.
Qed.

Lemma write_ahead_witness :
  begin_add_batch pid store resources opened = (Ok [1; 2; 3], accepted)
  ∧ is_ok (perform pid store (AcknowledgeAdd 3) accepted).1 = false
  ∧ rtc (session_step pid store tun) accepted refused
  ∧ ∃ disk2, held store (w_dir (du_world refused)) = Some disk2 ∧ validate disk2 = Ok ()
             ∧ rtc follows (du_journal accepted) disk2 ∧ status disk2 tun ≠ None.
Proof.
  split_and!; [apply accepted_run|by vm_compute|apply session_run|].
  apply (write_ahead pid store resources [1; 2; 3] opened started accepted refused tun).
  - apply opened_coherent.
  - apply accepted_run.
  - apply list_elem_of_In. vm_compute. tauto.
  - apply session_run.
Defined.
End JournalSample.
