(* ===== verification/HostRecovery.v ===== *)
(** * Crash recovery of host state

    [shadowpipe-core/src/host_recovery.rs]: the driver [recover_host_state] over the trait
    [HostRecoveryAdapter], and the adapter that composes prepared resource groups, with the
    groups for routes, TUN and DNS.  A trait is a class; what the operating system does is
    a class of operations with laws.  Shown: a resource that is on the host is live in the
    journal on disk at every point of a session, through failing writes, crashes and
    recovery itself; recovery that reports success has removed every one of them and the
    journal; and without failures it succeeds, because the order of the plan keeps every
    intermediate journal valid. *)

From S2P Require Import Prelude HostTypes HostState HostStore HostJournal DnsExchange.

Inductive RecoveryConvergenceError := RcConflict | RcOperational.

(** The trait: [S] is the adapter together with the host it works on. *)
Class HostRecoveryAdapter (S : Type) := {
  inspect_all : HostStateJournalV1 → S → option (list ResourceObservation) * S;
  converge_absent : OwnedResource → S → result RecoveryConvergenceError () * S }.

Inductive RecoveryRunOutcome :=
| RunLeaveActive
| RunRefused (refusal : RecoveryRefusal)
| RunRecovered (removed_records : Z).

Inductive RecoveryRunError :=
| InspectFailed
| PlanFailed (error : RecoveryDecisionError)
| PlanGenerationChanged
| JournalFailed (error : DurableJournalError)
| ConvergeFailed (operation_id : Z).

Section Driver.
Context `{JournalJson} (pid : bytes) (store : JournalStore) {St : Type} `{HostRecoveryAdapter St}.
Implicit Types (d : Durable) (s : St).

Definition Run : Type := result RecoveryRunError RecoveryRunOutcome * Durable * St.

(** The loop over the steps of the plan, and the removal of the journal. *)
Fixpoint run_steps (steps : list RecoveryStep) (removed_records : Z) d s : Run :=
  match steps with
  | [] =>
      match remove_completed_file pid store d with
      | (Err e, d) => (Err (JournalFailed e), d, s)
      | (Ok _, d) => (Ok (RunRecovered removed_records), d, s)
      end
  | step :: steps =>
      match converge_absent (rs_resource step) s with
      | (Err RcConflict, s) =>
          match mark_conflict pid store d with
          | (Err e, d) => (Err (JournalFailed e), d, s)
          | (Ok _, d) => (Ok (RunRefused (ResourceConflict [rs_operation_id step])), d, s)
          end
      | (Err RcOperational, s) => (Err (ConvergeFailed (rs_operation_id step)), d, s)
      | (Ok _, s) =>
          match acknowledge_recovery_step pid store (rs_operation_id step) d with
          | (Err e, d) => (Err (JournalFailed e), d, s)
          | (Ok _, d) => run_steps steps (removed_records + 1) d s
          end
      end
  end.

Definition execute_plan (plan : RecoveryPlan) d s : Run :=
  if negb (rp_source_generation plan =? hj_generation (du_journal d))
  then (Err PlanGenerationChanged, d, s) else
  match begin_cleaning pid store d with
  | (Err e, d) => (Err (JournalFailed e), d, s)
  | (Ok _, d) => run_steps (rp_steps plan) 0 d s
  end.

Definition refuse (refusal : RecoveryRefusal) d s : Run :=
  let conflicts := match refusal with
                   | ResourceConflict _ | JournalAlreadyInConflict => true
                   | AmbiguousOwner => false
                   end in
  if conflicts && negb (bool_decide (hj_phase (du_journal d) = Conflict)) then
    match mark_conflict pid store d with
    | (Err e, d) => (Err (JournalFailed e), d, s)
    | (Ok _, d) => (Ok (RunRefused refusal), d, s)
    end
  else (Ok (RunRefused refusal), d, s).

Definition recover_host_state (owner : OwnerDisposition) d s : Run :=
  match owner with
  | OwnerActive => (Ok RunLeaveActive, d, s)
  | OwnerAmbiguous => (Ok (RunRefused AmbiguousOwner), d, s)
  | OwnerStale =>
      if bool_decide (hj_phase (du_journal d) = Conflict)
      then (Ok (RunRefused JournalAlreadyInConflict), d, s) else
      match inspect_all (du_journal d) s with
      | (None, s) => (Err InspectFailed, d, s)
      | (Some observations, s) =>
          match decide_recovery (du_journal d) owner observations with
          | Err e => (Err (PlanFailed e), d, s)
          | Ok LeaveActive => (Ok RunLeaveActive, d, s)
          | Ok (Refuse refusal) => refuse refusal d s
          | Ok (Execute plan) => execute_plan plan d s
          end
      end
  end.
End Driver.

(** ** Prepared resource groups *)

(** The trait of a group over a host [H]. *)
Class PreparedResourceGroup (G H : Type) := {
  group_observe : G → OwnedResource → option ResourceObservationKind;
  group_converge_absent : OwnedResource → G → H → option (result RecoveryConvergenceError ()) * G * H }.

Section Prepared.
Context {G H : Type} `{PreparedResourceGroup G H}.

Record PreparedHostRecoveryAdapter := mkPreparedHostRecoveryAdapter {
  pa_session_id : bytes;
  pa_source_generation : Z;
  pa_live_resources : list (Z * OwnedResource);
  pa_observations : list ResourceObservation;
  pa_groups : list G;
  pa_inspection_complete : bool }.

Definition live_resources (j : HostStateJournalV1) : list (Z * OwnedResource) :=
  (λ operation, (op_id operation, op_resource operation)) <$> List.filter live (hj_operations j).

(** One resource: exactly one group recognises it. *)
Definition observe_one (groups : list G) (resource : Z * OwnedResource) : option ResourceObservation :=
  match omap (λ group, group_observe group resource.2) groups with
  | [kind] => Some (mkResourceObservation resource.1 kind)
  | _ => None
  end.

Definition prepared_new (j : HostStateJournalV1) (groups : list G) : option PreparedHostRecoveryAdapter :=
  observations ← mapM (observe_one groups) (live_resources j);
  Some (mkPreparedHostRecoveryAdapter (ow_session_id (hj_owner j)) (hj_generation j)
          (live_resources j) observations groups false).

Definition prepared_inspect_all (j : HostStateJournalV1) (s : PreparedHostRecoveryAdapter * H)
  : option (list ResourceObservation) * (PreparedHostRecoveryAdapter * H) :=
  let '(p, h) := s in
  if bool_decide (ow_session_id (hj_owner j) = pa_session_id p)
     && (hj_generation j =? pa_source_generation p)
     && bool_decide (live_resources j = pa_live_resources p)
  then (Some (pa_observations p),
        (mkPreparedHostRecoveryAdapter (pa_session_id p) (pa_source_generation p)
           (pa_live_resources p) (pa_observations p) (pa_groups p) true, h))
  else (None, (p, h)).

(** The loop over the groups, with the variable [matched]. *)
Fixpoint converge_groups (resource : OwnedResource) (groups : list G) (h : H)
    (matched : option (result RecoveryConvergenceError ()))
  : result RecoveryConvergenceError () * list G * H :=
  match groups with
  | [] =>
      (match matched with Some result => result | None => Err RcConflict end, [], h)
  | group :: groups =>
      match group_converge_absent resource group h with
      | (None, group, h) =>
          let '(r, groups, h) := converge_groups resource groups h matched in (r, group :: groups, h)
      | (Some result, group, h) =>
          match matched with
          | Some _ => (Err RcConflict, group :: groups, h)
          | None =>
              let '(r, groups, h) := converge_groups resource groups h (Some result) in
              (r, group :: groups, h)
          end
      end
  end.

Definition prepared_converge_absent (resource : OwnedResource) (s : PreparedHostRecoveryAdapter * H)
  : result RecoveryConvergenceError () * (PreparedHostRecoveryAdapter * H) :=
  let '(p, h) := s in
  if negb (pa_inspection_complete p) then (Err RcOperational, s) else
  let '(r, groups, h) := converge_groups resource (pa_groups p) h None in
  (r, (mkPreparedHostRecoveryAdapter (pa_session_id p) (pa_source_generation p)
         (pa_live_resources p) (pa_observations p) groups true, h)).

#[export] Instance Prepared_adapter : HostRecoveryAdapter (PreparedHostRecoveryAdapter * H) := {
  inspect_all := prepared_inspect_all;
  converge_absent := prepared_converge_absent }.
End Prepared.
Arguments PreparedHostRecoveryAdapter : clear implicits.

(** ** Routes, TUN and DNS *)

Inductive LinuxOwnedRouteClassification := RouteAbsent | RouteExactOwnedPresent | RouteConflict.
Inductive LinuxRouteConvergeError := RouteConvergeConflict | RouteConvergeFailed.

(** What the groups use of the operating system: [routes], [tun_state] and
    [dns_exchange]. *)
Class HostAccess (H : Type) := {
  inspect_tun : TunResource → bytes → H → option ResourceObservationKind * H;
  route_classifications :
    list RouteResource → H → option (list (RouteResource * LinuxOwnedRouteClassification));
  route_converge_absent : RouteResource → H → result LinuxRouteConvergeError () * H;
  inspect_exchange : bytes → DnsResource → H → option ResourceObservationKind;
  recover_exchange : bytes → DnsResource → H → result DnsExchangeFailureKind () * H }.

Inductive PreparedGroup :=
| LinuxRouteGroup (observations : list (RouteResource * ResourceObservationKind))
| TunGroup (session : bytes) (resource : TunResource) (observation : ResourceObservationKind)
| DnsGroup (session : bytes) (resource : DnsResource) (observation : ResourceObservationKind).

Section Groups.
Context {H : Type} `{HostAccess H}.

Definition route_group_kind (same_boot : bool) (c : LinuxOwnedRouteClassification)
  : ResourceObservationKind :=
  match c with
  | RouteAbsent => ObservedAbsent
  | RouteExactOwnedPresent => if same_boot then ExactOwnedPresent else ObservedConflict
  | RouteConflict => ObservedConflict
  end.

Definition route_group_prepare (resources : list RouteResource) (same_boot : bool) (h : H)
  : option PreparedGroup :=
  classifications ← route_classifications resources h;
  Some (LinuxRouteGroup ((λ p, (p.1, route_group_kind same_boot p.2)) <$> classifications)).

Definition classify_crash_recovery_tun (observed : ResourceObservationKind) : ResourceObservationKind :=
  if bool_decide (observed = ExactOwnedPresent) then ObservedConflict else observed.

Definition tun_group_prepare (resource : TunResource) (session : bytes) (h : H)
  : option PreparedGroup * H :=
  match inspect_tun resource session h with
  | (Some observed, h) => (Some (TunGroup session resource (classify_crash_recovery_tun observed)), h)
  | (None, h) => (None, h)
  end.

(** The two inspections, [first] and [immediate]. *)
Fixpoint prove_stable_absence (boundaries : nat) (resource : TunResource) (session : bytes) (h : H)
  : result RecoveryConvergenceError () * H :=
  match boundaries with
  | O => (Ok (), h)
  | S boundaries =>
      match inspect_tun resource session h with
      | (None, h) => (Err RcOperational, h)
      | (Some observed, h) =>
          if negb (bool_decide (observed = ObservedAbsent)) then (Err RcConflict, h)
          else prove_stable_absence boundaries resource session h
      end
  end.

Definition dns_group_prepare (session : bytes) (resource : DnsResource) (h : H) : option PreparedGroup :=
  kind ← inspect_exchange session resource h;
  Some (DnsGroup session resource kind).

Definition map_linux_route_convergence_error (e : LinuxRouteConvergeError) : RecoveryConvergenceError :=
  match e with RouteConvergeConflict => RcConflict | RouteConvergeFailed => RcOperational end.
Definition map_dns_convergence_error (e : DnsExchangeFailureKind) : RecoveryConvergenceError :=
  match e with ExchangeConflict => RcConflict | ExchangeOperational => RcOperational end.

Definition map_err {E F A} (f : E → F) (r : result E A) : result F A :=
  match r with Ok a => Ok a | Err e => Err (f e) end.

Definition observe_group (g : PreparedGroup) (r : OwnedResource) : option ResourceObservationKind :=
  match g, r with
  | LinuxRouteGroup observations, Route resource =>
      snd <$> List.find (λ p, bool_decide (p.1 = resource)) observations
  | TunGroup _ mine observation, Tun resource =>
      if bool_decide (resource = mine) then Some observation else None
  | DnsGroup _ mine observation, Dns resource =>
      if bool_decide (resource = mine) then Some observation else None
  | _, _ => None
  end.

Definition converge_group (r : OwnedResource) (g : PreparedGroup) (h : H)
  : option (result RecoveryConvergenceError ()) * PreparedGroup * H :=
  match g, r with
  | LinuxRouteGroup observations, Route resource =>
      if existsb (λ p, bool_decide (p.1 = resource)) observations then
        let '(result, h) := route_converge_absent resource h in
        (Some (map_err map_linux_route_convergence_error result), g, h)
      else (None, g, h)
  | TunGroup session mine _, Tun resource =>
      if bool_decide (resource = mine) then
        let '(result, h) := prove_stable_absence 2 resource session h in (Some result, g, h)
      else (None, g, h)
  | DnsGroup session mine _, Dns resource =>
      if bool_decide (resource = mine) then
        let '(result, h) := recover_exchange session resource h in
        (Some (map_err map_dns_convergence_error result), g, h)
      else (None, g, h)
  | _, _ => (None, g, h)
  end.

#[export] Instance PreparedGroup_group : PreparedResourceGroup PreparedGroup H := {
  group_observe := observe_group;
  group_converge_absent := converge_group }.
End Groups.

(** * Laws *)

(** Which resources of the session are on the host; the operations of the adapter install
    none, and one that reports a resource absent is right. *)
Class HostRecoveryAdapterLaws (St : Type) `{HostRecoveryAdapter St} := {
  owned : St → OwnedResource → Prop;
  inspect_owned j s o s' r : inspect_all j s = (o, s') → owned s' r → owned s r;
  converge_owned r s res s' r' : converge_absent r s = (res, s') → owned s' r' → owned s r';
  converge_absent_Ok r s s' : converge_absent r s = (Ok (), s') → ¬ owned s' r }.

Class HostLaws (H : Type) := { on_host : H → OwnedResource → Prop }.

Class PreparedResourceGroupLaws (G H : Type) `{PreparedResourceGroup G H} `{HostLaws H} := {
  group_owned r g h o g' h' r' :
    group_converge_absent r g h = (o, g', h') → on_host h' r' → on_host h r';
  group_converge_Ok r g h g' h' :
    group_converge_absent r g h = (Some (Ok ()), g', h') → ¬ on_host h' r }.

(** [inspect_tun], the route and the exchange primitives report absence truthfully. *)
Class HostAccessLaws (H : Type) `{HostAccess H} `{HostLaws H} := {
  inspect_tun_owned t session h o h' r : inspect_tun t session h = (o, h') → on_host h' r → on_host h r;
  inspect_tun_absent t session h h' :
    inspect_tun t session h = (Some ObservedAbsent, h') → ¬ on_host h' (Tun t);
  route_converge_owned t h res h' r : route_converge_absent t h = (res, h') → on_host h' r → on_host h r;
  route_converge_absent_Ok t h h' : route_converge_absent t h = (Ok (), h') → ¬ on_host h' (Route t);
  recover_exchange_owned session t h res h' r :
    recover_exchange session t h = (res, h') → on_host h' r → on_host h r;
  recover_exchange_Ok session t h h' :
    recover_exchange session t h = (Ok (), h') → ¬ on_host h' (Dns t) }.

(** The groups keep the promise of their class, and so does the adapter made of them. *)
Section Discharge.
Context {H : Type} `{HostAccessLaws H}.

Lemma stable_absence_owned n t session h res h' r :
  prove_stable_absence n t session h = (res, h') → on_host h' r → on_host h r.
Proof.
  revert h; induction n as [|n IH]; intros h E; simpl in E; [by injection E as <- <-|].
  destruct (inspect_tun t session h) as [[o|] h1] eqn:Ei; [|injection E as <- <-; by eapply inspect_tun_owned].
  destruct (negb _); [injection E as <- <-; by eapply inspect_tun_owned|].
  intros Hr. eapply inspect_tun_owned; [exact Ei|]. by eapply IH.
Qed.

Lemma stable_absence_Ok n t session h h' :
  (0 < n)%nat → prove_stable_absence n t session h = (Ok (), h') → ¬ on_host h' (Tun t).
Proof.
  destruct n as [|n]; [lia|]. intros _ E. simpl in E.
  destruct (inspect_tun t session h) as [[o|] h1] eqn:Ei; [|done].
  case_bool_decide as Ho; simpl in E; [|done]. subst o. apply inspect_tun_absent in Ei.
  intros Hr. apply Ei. by eapply stable_absence_owned.
Qed.

#[export] Instance PreparedGroup_laws : PreparedResourceGroupLaws PreparedGroup H.
Proof.
  split.
  - intros r g h o g' h' r' E. simpl in E. unfold converge_group in E.
    destruct g as [obs|session mine k|session mine k], r as [t|t|t| |]; simplify_eq; try done.
    + destruct (existsb _ _); [|by simplify_eq].
      destruct (route_converge_absent t h) as [res h1] eqn:Er. simplify_eq. by eapply route_converge_owned.
    + destruct (bool_decide _); [|by simplify_eq].
      destruct (prove_stable_absence 2 t session h) as [res h1] eqn:Er. injection E as _ _ <-.
      by eapply stable_absence_owned.
    + destruct (bool_decide _); [|by simplify_eq].
      destruct (recover_exchange session t h) as [res h1] eqn:Er. simplify_eq. by eapply recover_exchange_owned.
  - intros r g h g' h' E. simpl in E. unfold converge_group in E.
    destruct g as [obs|session mine k|session mine k], r as [t|t|t| |]; simplify_eq; try done.
    + destruct (existsb _ _); [|done].
      destruct (route_converge_absent t h) as [[[]|] h1] eqn:Er; simplify_eq. by eapply route_converge_absent_Ok.
    + destruct (bool_decide _); [|done].
      destruct (prove_stable_absence 2 t session h) as [res h1] eqn:Er. injection E as -> _ <-.
      eapply stable_absence_Ok; [|exact Er]. lia.
    + destruct (bool_decide _); [|done].
      destruct (recover_exchange session t h) as [[[]|] h1] eqn:Er; simplify_eq. by eapply recover_exchange_Ok.
Qed.
End Discharge.

Section DischargePrepared.
Context {G H : Type} `{PreparedResourceGroupLaws G H}.

Lemma converge_groups_owned r groups h m res groups' h' r' :
  converge_groups r groups h m = (res, groups', h') → on_host h' r' → on_host h r'.
Proof.
  revert h m groups'; induction groups as [|g groups IH]; intros h m groups' E; simpl in E.
  { by injection E as <- <- <-. }
  destruct (group_converge_absent r g h) as [[o g1] h1] eqn:Eg.
  destruct o as [o|]; [destruct m as [m|]|].
  - injection E as <- <- <-. by eapply group_owned.
  - destruct (converge_groups r groups h1 (Some o)) as [[res1 gs1] h2] eqn:Ec. injection E as <- <- <-.
    intros Hr. eapply group_owned; [exact Eg|by eapply IH].
  - destruct (converge_groups r groups h1 m) as [[res1 gs1] h2] eqn:Ec. injection E as <- <- <-.
    intros Hr. eapply group_owned; [exact Eg|by eapply IH].
Qed.

Lemma converge_groups_Ok r groups h m groups' h' :
  (m = Some (Ok ()) → ¬ on_host h r) →
  converge_groups r groups h m = (Ok (), groups', h') → ¬ on_host h' r.
Proof.
  revert h m groups'; induction groups as [|g groups IH]; intros h m groups' Hm E; simpl in E.
  { destruct m as [m|]; [|done]. injection E as -> <- <-. by apply Hm. }
  destruct (group_converge_absent r g h) as [[o g1] h1] eqn:Eg.
  destruct o as [o|]; [destruct m as [m|]; [done|]|].
  - destruct (converge_groups r groups h1 (Some o)) as [[res1 gs1] h2] eqn:Ec. injection E as -> <- <-.
    eapply IH; [|exact Ec]. intros [= ->]. by eapply group_converge_Ok.
  - destruct (converge_groups r groups h1 m) as [[res1 gs1] h2] eqn:Ec. injection E as -> <- <-.
    eapply IH; [|exact Ec]. intros Hm' Hr. apply (Hm Hm'). by eapply group_owned.
Qed.

#[export, refine] Instance Prepared_laws : HostRecoveryAdapterLaws (PreparedHostRecoveryAdapter G * H) := {
  owned s := on_host s.2 }.
Proof.
  - intros j [p h] o s' r E. simpl in E. destruct (_ && _); by injection E as <- <-.
  - intros r [p h] res s' r' E. simpl in E. destruct (negb _); [by injection E as <- <-|].
    destruct (converge_groups r (pa_groups p) h None) as [[res1 gs] h1] eqn:Ec.
    injection E as <- <-. by eapply converge_groups_owned.
  - intros r [p h] s' E. simpl in E. destruct (negb _); [done|].
    destruct (converge_groups r (pa_groups p) h None) as [[res1 gs] h1] eqn:Ec.
    injection E as -> <-. by eapply converge_groups_Ok; [|exact Ec].
Defined.
End DischargePrepared.

(** * Safety of recovery *)

Section Safety.
Context `{JournalJsonLaws} (pid : bytes) (store : JournalStore) {St : Type} `{HostRecoveryAdapterLaws St}.
Abbreviation coherent := (coherent store).
Implicit Types (d : Durable) (s : St).

(** What is on the host is live in the journal. *)
Definition covered (s : St) (j : HostStateJournalV1) : Prop := ∀ r, owned s r → status j r ≠ None.

(** No journal and nothing on the host. *)
Definition clean (d : Durable) (s : St) : Prop :=
  d_names (w_dir (du_world d)) !! js_name store = None ∧ ∀ r, ¬ owned s r.

(** The journal on disk continues [disk] and covers the host, or it is gone and the host
    is clean. *)
Definition accounted (disk : HostStateJournalV1) (d : Durable) (s : St) : Prop :=
  ready store (du_world d)
  ∧ ((∃ disk', held store (w_dir (du_world d)) = Some disk' ∧ rtc follows disk disk' ∧ covered s disk')
     ∨ clean d s).

Lemma covered_owned s s' j : (∀ r, owned s' r → owned s r) → covered s j → covered s' j.
Proof. intros Hs Hc r Hr. auto. Qed.

Lemma accounted_coherent disk disk' d s :
  coherent d disk' → rtc follows disk disk' → covered s disk' → accounted disk d s.
Proof. intros [Hr Hh _] Hf Hc. split; [done|]. left. by exists disk'. Qed.

Lemma accounted_step disk disk1 d s :
  rtc follows disk disk1 → accounted disk1 d s → accounted disk d s.
Proof.
  intros Hf (Hr & [(disk2 & Hh & Hf2 & Hc)|Hclean]); (split; [done|]); [left|by right].
  exists disk2. split_and!; [done|by etrans|done].
Qed.

Definition in_catalog d (step : RecoveryStep) : Prop :=
  (rs_operation_id step, rs_resource step) ∈ catalog (du_journal d).

(** The loop: one step converges and acknowledges. *)
Lemma run_steps_safe steps n d disk s r d' s' :
  coherent d disk → covered s disk → Forall (in_catalog d) steps →
  run_steps pid store steps n d s = (r, d', s') →
  (∀ x, owned s' x → owned s x) ∧ accounted disk d' s'
  ∧ ∀ k, r = Ok (RunRecovered k) → k = n + len steps ∧ clean d' s'.
Proof.
  revert n d disk s; induction steps as [|step steps IH]; intros n d disk s Hc Hcov Hin E; simpl in E.
  { destruct (remove_completed_file pid store d) as [r1 d1] eqn:Er.
    assert (d' = d1 ∧ s' = s) as [-> ->] by (by destruct r1; injection E as <- <- <-).
    split; [done|].
    destruct (remove_completed_cases pid store _ _ _ _ Hc Er) as [[[e ->] Hc1]|(Hr & Hn & Hfull)].
    - injection E as <-. split; [by eapply accounted_coherent|done].
    - assert (clean d1 s) as Hclean.
      { split; [done|]. intros x Hx%Hcov. apply Hx. by apply fully_removed_status. }
      split; [by split; [|right]|]. intros k ->. destruct r1; [|done]. injection E as <-. split; [by rewrite Z.add_0_r|done]. }
  apply Forall_cons in Hin as [Hstep Hin].
  destruct (converge_absent (rs_resource step) s) as [[[]|e] s1] eqn:Ec.
  2: { assert (∀ x, owned s1 x → owned s x) as Hs1 by (intros x; by eapply converge_owned).
       destruct e; [|injection E as <- <- <-; split_and!; [done|by eapply accounted_coherent, covered_owned|done]].
       destruct (mark_conflict pid store d) as [r1 d1] eqn:Em.
       destruct (steps_mark_conflict pid store _ _ _ _ Hc Em) as (disk1 & Hc1 & Hf & _).
       pose proof (preserves_mark_conflict pid store _ _ _ _ _ Hc Em Hc1) as Hk.
       assert (accounted disk d1 s1).
       { eapply accounted_coherent; [done..|]. intros x Hx. by apply Hk, Hcov, Hs1. }
       by destruct r1; injection E as <- <- <-. }
  assert (∀ x, owned s1 x → owned s x) as Hs1 by (intros x; by eapply converge_owned).
  destruct (acknowledge_recovery_step pid store (rs_operation_id step) d) as [r1 d1] eqn:Ea.
  destruct (acknowledge_recovery_cases pid store _ _ _ _ _ _ Hc Ea Hstep) as (disk1 & Hc1 & Hf & Hst & Hcat).
  assert (covered s1 disk1) as Hcov1.
  { intros x Hx. rewrite Hst; [by apply Hcov, Hs1|]. intros ->. by eapply converge_absent_Ok. }
  destruct r1 as [[]|e]; [|injection E as <- <- <-; split_and!; [done|by eapply accounted_coherent|done]].
  specialize (Hcat eq_refl).
  assert (Forall (in_catalog d1) steps) as Hin1 by (unfold in_catalog; by rewrite Hcat).
  destruct (IH _ _ _ _ Hc1 Hcov1 Hin1 E) as (Hown & Hacc & Hrec). split_and!; [by auto|by eapply accounted_step|].
  intros k Hk. destruct (Hrec k Hk) as [-> ?]. split; [|done]. rewrite len_cons. lia.
Qed.

Lemma plan_in_catalog j obs plan :
  plan_for j obs plan →
  len (rp_steps plan) = len (List.filter live (hj_operations j))
  ∧ ∀ step, step ∈ rp_steps plan → (rs_operation_id step, rs_resource step) ∈ catalog j.
Proof.
  intros [_ _ _ Hp]. split; [unfold len; by rewrite Hp, length_fmap|].
  intros step Hin. rewrite Hp in Hin. apply list_elem_of_fmap in Hin as (op & -> & Hin).
  apply elem_of_live in Hin as [Hin _]. apply list_elem_of_fmap. by exists op.
Qed.

Lemma execute_plan_safe obs plan d disk s r d' s' :
  coherent d disk → covered s disk → plan_for (du_journal d) obs plan →
  execute_plan pid store plan d s = (r, d', s') →
  (∀ x, owned s' x → owned s x) ∧ accounted disk d' s'
  ∧ ∀ k, r = Ok (RunRecovered k) → k = len (List.filter live (hj_operations (du_journal d))) ∧ clean d' s'.
Proof.
  intros Hc Hcov Hplan E. destruct (plan_in_catalog _ _ _ Hplan) as [<- Hin]. unfold execute_plan in E.
  destruct (negb _); [injection E as <- <- <-; split_and!; [done|by eapply accounted_coherent|done]|].
  destruct (begin_cleaning pid store d) as [r1 d1] eqn:Eb.
  destruct (steps_begin_cleaning pid store _ _ _ _ Hc Eb) as (disk1 & Hc1 & Hf & _).
  assert (covered s disk1) as Hcov1.
  { intros x Hx. by apply (preserves_begin_cleaning pid store _ _ _ _ _ Hc Eb Hc1), Hcov. }
  destruct r1 as [[]|e]; [|injection E as <- <- <-; split_and!; [done|by eapply accounted_coherent|done]].
  destruct (begin_cleaning_Ok pid store _ _ _ Hc Eb) as [Ho _].
  assert (Forall (in_catalog d1) (rp_steps plan)) as Hall.
  { apply Forall_forall. intros step Hs. unfold in_catalog, catalog. rewrite Ho. by apply Hin. }
  destruct (run_steps_safe _ _ _ _ _ _ _ _ Hc1 Hcov1 Hall E) as (Hown & Hacc & Hrec).
  split_and!; [done|by eapply accounted_step|done].
Qed.

Lemma refuse_safe refusal d disk s r d' s' :
  coherent d disk → covered s disk → refuse pid store refusal d s = (r, d', s') →
  s' = s ∧ accounted disk d' s' ∧ ∀ k, r ≠ Ok (RunRecovered k).
Proof.
  intros Hc Hcov E. unfold refuse in E.
  destruct (_ && _); [|injection E as <- <- <-; split_and!; [done|by eapply accounted_coherent|done]].
  destruct (mark_conflict pid store d) as [r1 d1] eqn:Em.
  destruct (steps_mark_conflict pid store _ _ _ _ Hc Em) as (disk1 & Hc1 & Hf & _).
  assert (accounted disk d1 s) as Hacc.
  { eapply accounted_coherent; [done..|]. intros x Hx.
    by apply (preserves_mark_conflict pid store _ _ _ _ _ Hc Em Hc1), Hcov. }
  destruct r1; injection E as <- <- <-; by split_and!.
Qed.

Lemma recover_cases owner d disk s r d' s' :
  coherent d disk → covered s disk → recover_host_state pid store owner d s = (r, d', s') →
  (∀ x, owned s' x → owned s x)
  ∧ accounted disk d' s'
  ∧ (∀ k, r = Ok (RunRecovered k) →
       k = len (List.filter live (hj_operations (du_journal d))) ∧ clean d' s')
  ∧ (owner ≠ OwnerStale → d' = d ∧ s' = s).
Proof.
  intros Hc Hcov E. unfold recover_host_state in E.
  assert (accounted disk d s) as Hacc by by eapply accounted_coherent.
  destruct owner; [by injection E as <- <- <-| |by injection E as <- <- <-].
  destruct (bool_decide _); [by injection E as <- <- <-|].
  destruct (inspect_all (du_journal d) s) as [[obs|] s1] eqn:Ei;
    assert (∀ x, owned s1 x → owned s x) as Hs1 by (intros x; by eapply inspect_owned).
  2: { injection E as <- <- <-. split_and!; [done|by eapply accounted_coherent, covered_owned|done..]. }
  assert (covered s1 disk) as Hcov1 by by eapply covered_owned.
  assert (accounted disk d s1) as Hacc1 by by eapply accounted_coherent.
  destruct (decide_recovery (du_journal d) OwnerStale obs) as [[|refusal|plan]|e] eqn:Ed;
    [by injection E as <- <- <-| | |by injection E as <- <- <-].
  - destruct (refuse_safe _ _ _ _ _ _ _ Hc Hcov1 E) as (-> & Ha & Hrec).
    split_and!; [done..| |done]. intros k Hk. by destruct (Hrec k).
  - apply decide_recovery_Execute in Ed as (_ & _ & _ & _ & _ & Hplan).
    destruct (execute_plan_safe _ _ _ _ _ _ _ _ Hc Hcov1 Hplan E) as (Hown & Ha & Hrec).
    split_and!; [by auto|done..].
Qed.

Lemma recover_accounted owner d disk s r d' s' :
  coherent d disk → covered s disk → recover_host_state pid store owner d s = (r, d', s') →
  accounted disk d' s'.
Proof. intros Hc Hcov E. by destruct (recover_cases _ _ _ _ _ _ _ Hc Hcov E) as (_ & Ha & _). Qed.

(** C6: recovery never loses track of the host.  Suppose every resource of the session that is
    on the host is live in the journal on disk.  Then whatever [recover_host_state] returns
    (a refusal, an error of the journal, of the inspection or of a removal, or success) it
    has installed nothing, and either a journal on disk continues the old one and still
    records as live every resource that is left on the host, or the journal is gone and so
    are all resources.  When it reports [Recovered] the latter holds, and the count is the
    number of live operations; for an owner that is not known to be stale it does nothing. *)
Theorem recovery_safe owner d disk s r d' s' :
  coherent d disk → covered s disk → recover_host_state pid store owner d s = (r, d', s') →
  (∀ x, owned s' x → owned s x)
  ∧ accounted disk d' s'
  ∧ (∀ k, r = Ok (RunRecovered k) →
       k = len (List.filter live (hj_operations (du_journal d))) ∧ clean d' s')
  ∧ (owner ≠ OwnerStale → d' = d ∧ s' = s).
Proof. apply recover_cases. Qed.
End Safety.

(** * A host over many sessions *)

Section System.
Context `{JournalJsonLaws} (pid : bytes) (store : JournalStore) {St : Type} `{HostRecoveryAdapterLaws St}.

(** The world of the store, the open journal, the host, and the resources that the open
    session may install: those that [begin_add_batch] accepted and that were not reported
    absent since. *)
Record Sys := mkSys {
  sy_world : World;
  sy_open : option HostStateJournalV1;
  sy_host : St;
  sy_accepted : list OwnedResource }.

Definition accepted_after (c : Call) (j : HostStateJournalV1) (r : result DurableJournalError ())
    (accepted : list OwnedResource) : list OwnedResource :=
  match c, reports_absent c with
  | BeginAdd resources, _ => if is_ok r then resources ++ accepted else accepted
  | _, Some id => filter (λ x, (id, x) ∉ catalog j) accepted
  | _, None => accepted
  end.

(** A session installs only what was accepted, and reports an operation absent only when
    its resource is off the host.  It may delete the journal when the store lets it, as a
    clean shutdown does, and it can end at any point.  A journal is opened by a
    process that starts with the directory as it is, and created, used and recovered by
    the operations of the code. *)
Inductive sys_step : Sys → Sys → Prop :=
| sys_call w j s accepted c r j' w' :
    perform pid store c (mkDurable j w) = (r, mkDurable j' w') →
    (∀ id x, reports_absent c = Some id → (id, x) ∈ catalog j → ¬ owned s x) →
    sys_step (mkSys w (Some j) s accepted) (mkSys w' (Some j') s (accepted_after c j r accepted))
| sys_touch w o s s' accepted :
    (∀ x, owned s' x → owned s x ∨ x ∈ accepted) →
    sys_step (mkSys w o s accepted) (mkSys w o s' accepted)
| sys_end w j s accepted :
    sys_step (mkSys w (Some j) s accepted) (mkSys w None s [])
| sys_start w w' s :
    w_dir w' = w_dir w → ready store w' →
    sys_step (mkSys w None s []) (mkSys w' None s [])
| sys_create w s owner r w' :
    durable_create pid store owner w = (r, w') →
    sys_step (mkSys w None s [])
      (mkSys w' (match r with Ok d => Some (du_journal d) | Err _ => None end) s [])
| sys_load w s r w' :
    durable_load store w = (r, w') →
    sys_step (mkSys w None s [])
      (mkSys w' (match r with Ok d => Some (du_journal d) | Err _ => None end) s [])
| sys_recover w j s accepted owner r d' s' :
    recover_host_state pid store owner (mkDurable j w) s = (r, d', s') →
    sys_step (mkSys w (Some j) s accepted) (mkSys (du_world d') None s' []).

(** Recovery with a handle whose journal was deleted. *)
Lemma run_steps_gone steps n d s r d' s' :
  gone store d → run_steps pid store steps n d s = (r, d', s') →
  gone store d' ∧ ∀ x, owned s' x → owned s x.
Proof.
  revert n d s; induction steps as [|step steps IH]; intros n d s Hg E; simpl in E.
  { destruct (remove_completed_file pid store d) as [r1 d1] eqn:Er.
    apply gone_remove_completed in Er; [|done]. by destruct r1; injection E as <- <- <-. }
  destruct (converge_absent (rs_resource step) s) as [rc s1] eqn:Ec.
  assert (∀ x, owned s1 x → owned s x) as Hs1 by (intros x; by eapply converge_owned).
  destruct rc as [[]|[]]; [| |by injection E as <- <- <-].
  - destruct (acknowledge_recovery_step _ _ _ d) as [[[]|e] d1] eqn:Ea;
      apply gone_acknowledge_recovery in Ea; try done; [|by injection E as <- <- <-].
    destruct (IH _ _ _ Ea E) as [Hg' Hs']. auto.
  - destruct (mark_conflict pid store d) as [r1 d1] eqn:Em. apply gone_mark_conflict in Em; [|done].
    by destruct r1; injection E as <- <- <-.
Qed.

Lemma recover_gone owner d s r d' s' :
  gone store d → recover_host_state pid store owner d s = (r, d', s') →
  gone store d' ∧ ∀ x, owned s' x → owned s x.
Proof.
  intros Hg E. unfold recover_host_state in E.
  destruct owner; [by injection E as <- <- <-| |by injection E as <- <- <-].
  destruct (bool_decide _); [by injection E as <- <- <-|].
  destruct (inspect_all (du_journal d) s) as [obs s1] eqn:Ei.
  assert (∀ x, owned s1 x → owned s x) as Hs1 by (intros x; by eapply inspect_owned).
  destruct obs as [obs|]; [|by injection E as <- <- <-].
  destruct (decide_recovery _ _ _) as [[|refusal|plan]|e]; [by injection E as <- <- <-| | |by injection E as <- <- <-].
  - unfold refuse in E. destruct (_ && _); [|by injection E as <- <- <-].
    destruct (mark_conflict pid store d) as [r1 d1] eqn:Em. apply gone_mark_conflict in Em; [|done].
    by destruct r1; injection E as <- <- <-.
  - unfold execute_plan in E. destruct (negb _); [by injection E as <- <- <-|].
    destruct (begin_cleaning pid store d) as [[[]|e] d1] eqn:Eb;
      apply gone_begin_cleaning in Eb; try done; [|by injection E as <- <- <-].
    destruct (run_steps_gone _ _ _ _ _ _ _ Eb E) as [Hg' Hs']. auto.
Qed.

(** Journal and host agree. *)
Inductive sys_wf : Sys → Prop :=
| wf_open w j s accepted disk :
    coherent store (mkDurable j w) disk → covered s disk →
    (∀ x, x ∈ accepted → status disk x ≠ None) →
    sys_wf (mkSys w (Some j) s accepted)
| wf_gone w j s :
    gone store (mkDurable j w) → (∀ x, ¬ owned s x) →
    sys_wf (mkSys w (Some j) s [])
| wf_closed w s disk :
    ready store w → held store (w_dir w) = Some disk → covered s disk →
    sys_wf (mkSys w None s [])
| wf_clean w s :
    ready store w → d_names (w_dir w) !! js_name store = None → (∀ x, ¬ owned s x) →
    sys_wf (mkSys w None s []).

Lemma sys_call_wf w j s accepted c r j' w' disk :
  coherent store (mkDurable j w) disk → covered s disk →
  (∀ x, x ∈ accepted → status disk x ≠ None) →
  perform pid store c (mkDurable j w) = (r, mkDurable j' w') →
  (∀ id x, reports_absent c = Some id → (id, x) ∈ catalog j → ¬ owned s x) →
  sys_wf (mkSys w' (Some j') s (accepted_after c j r accepted)).
Proof.
  intros Hc Hcov Hacc E Habs.
  destruct (perform_cases pid store c _ _ _ _ Hc E) as [(disk' & Hc' & _)|(-> & Hg & Hnone)].
  2: { assert (accepted = []) as ->.
       { destruct accepted as [|x l]; [done|]. by destruct (Hacc x); [left|]. }
       apply wf_gone; [done|]. intros x Hx. by destruct (Hcov x). }
  assert (∀ x, (∀ id, reports_absent c = Some id → (id, x) ∉ catalog j) →
            status disk x ≠ None → status disk' x ≠ None) as Hk.
  { intros x. exact (perform_keeps pid store c _ _ _ _ _ x Hc E Hc'). }
  apply wf_open with disk'; [done| |].
  - intros x Hx. apply Hk; [|by apply Hcov]. intros id Hid Hin. by apply (Habs id x).
  - intros x Hx. unfold accepted_after in Hx. destruct c as [rs|id|id| |y|id| | |id| |]; simpl in Hx;
      try (apply list_elem_of_filter in Hx as [Hx Hx']; apply Hk; [by intros ? [= <-]|by auto]);
      try (apply Hk; [done|by auto]).
    destruct r as [[]|e]; simpl in Hx; [|apply Hk; [done|by auto]].
    apply elem_of_app in Hx as [Hx|Hx]; [|apply Hk; [done|by auto]].
    simpl in E. unfold discard in E.
    apply dj_bind in E as [(ids & d1 & E1 & E)|(e & _ & [=])]. injection E as ->.
    destruct (begin_add_status _ _ _ _ _ _ _ _ Hc E1 Hx) as [Hc1 Hs].
    rewrite (coherent_unique _ _ _ _ Hc' Hc1). simpl in Hs. simpl. by rewrite Hs.
Qed.

(** A handle whose journal was deleted accepts nothing. *)
Lemma sys_call_gone w j s c r j' w' :
  gone store (mkDurable j w) → (∀ x, ¬ owned s x) →
  perform pid store c (mkDurable j w) = (r, mkDurable j' w') →
  sys_wf (mkSys w' (Some j') s (accepted_after c j r [])).
Proof.
  intros Hg Hown E. assert (accepted_after c j r [] = []) as ->.
  { unfold accepted_after. destruct c; try done. destruct r as [[]|]; [|done]. cbn [is_ok].
    simpl in E. unfold discard in E. apply dj_bind in E as [(ids & d1 & E1 & _)|(e & _ & [=])].
    by rewrite (begin_add_gone _ _ _ _ _ _ Hg E1). }
  apply wf_gone; [|done]. by eapply gone_perform.
Qed.

Lemma sys_create_wf w s owner r w' :
  sys_wf (mkSys w None s []) → durable_create pid store owner w = (r, w') →
  sys_wf (mkSys w' (match r with Ok d => Some (du_journal d) | Err _ => None end) s []).
Proof.
  intros Hwf E. unfold durable_create in E.
  destruct (journal_new owner []) as [j|e]; [|by injection E as <- <-].
  destruct (store_create pid store j w) as [r1 w1] eqn:Es.
  assert (ready store w) as Hr by by inversion Hwf.
  destruct (store_create_alone _ _ _ _ _ _ Hr Es) as [Hr1 [[[e ->] Hsame]|[Hnone Hh]]].
  - injection E as <- <-. inversion Hwf as [| |? ? disk _ Hh Hcov|? ? _ Hn Hown]; subst.
    + apply wf_closed with disk; [done| |done]. by eapply held_same.
    + apply wf_clean; [done| |done]. by rewrite (sa_name _ _ _ Hsame).
  - assert (∀ x, ¬ owned s x) as Hown.
    { inversion Hwf as [| |? ? disk _ Hh' _|]; subst; [|done]. unfold held in Hh'. by rewrite Hnone in Hh'. }
    assert (covered s j) as Hcov by (intros x Hx; by destruct (Hown x)).
    destruct r1 as [[]|e]; injection E as <- <-.
    + apply wf_open with j; [by split; [..|left]|done|]. intros x Hx. by apply not_elem_of_nil in Hx.
    + by apply wf_closed with j.
Qed.

Lemma sys_load_wf w s r w' :
  sys_wf (mkSys w None s []) → durable_load store w = (r, w') →
  sys_wf (mkSys w' (match r with Ok d => Some (du_journal d) | Err _ => None end) s []).
Proof.
  intros Hwf E. unfold durable_load in E. destruct (store_load store w) as [r1 w1] eqn:El.
  assert (ready store w) as Hr by by inversion Hwf.
  destruct (store_load_alone _ _ _ _ Hr El) as (Hr1 & Hd & Hok).
  destruct r1 as [j|e]; injection E as <- <-.
  - specialize (Hok j eq_refl).
    inversion Hwf as [| |? ? disk _ Hh Hcov|? ? _ Hn Hown]; subst;
      [|unfold held in Hok; by rewrite Hn in Hok].
    assert (disk = j) as -> by congruence. apply wf_open with j; [|done|].
    + split; simpl; [done|by rewrite Hd|by left].
    + intros x Hx. by apply not_elem_of_nil in Hx.
  - inversion Hwf; subst; rewrite <- Hd in *; by econstructor.
Qed.

Lemma sys_step_wf a b : sys_step a b → sys_wf a → sys_wf b.
Proof.
  intros Hstep Hwf. destruct Hstep as [w j s acc c r j' w' E Habs|w o s s' acc Ht|w j s acc|w w' s Hd Hr
    |w s owner r w' E|w s r w' E|w j s acc owner r d' s' E].
  - inversion Hwf; subst; [by eapply sys_call_wf|by eapply sys_call_gone].
  - inversion Hwf as [? ? ? ? disk Hc Hcov Hacc|? ? ? Hg Hown|? ? disk Hr Hh Hcov|? ? Hr Hn Hown]; subst.
    + apply wf_open with disk; [done| |done]. intros x [Hx|Hx]%Ht; auto.
    + apply wf_gone; [done|]. intros x [Hx|Hx%not_elem_of_nil]%Ht; [by eapply Hown|done].
    + apply wf_closed with disk; [done..|]. intros x [Hx|Hx%not_elem_of_nil]%Ht; [auto|done].
    + apply wf_clean; [done..|]. intros x [Hx|Hx%not_elem_of_nil]%Ht; [by eapply Hown|done].
  - inversion Hwf as [? ? ? ? disk [Hr Hh _] Hcov _|? ? ? [Hr Hn] Hown| |]; subst;
      [by apply wf_closed with disk|by apply wf_clean].
  - inversion Hwf; subst; rewrite <- Hd in *; by econstructor.
  - by eapply sys_create_wf.
  - by eapply sys_load_wf.
  - inversion Hwf as [? ? ? ? disk Hc Hcov _|? ? ? Hg Hown| |]; subst.
    2: { destruct (recover_gone _ _ _ _ _ _ Hg E) as [[Hr Hn] Hs]. apply wf_clean; [done..|].
         intros x Hx. by eapply Hown, Hs. }
    assert (accounted store disk d' s') as (Hr & [(disk' & Hh & _ & Hcov')|[Hn Hown]]).
    { by eapply recover_accounted. }
    + by apply wf_closed with disk'.
    + by apply wf_clean.
Qed.

Lemma sys_reachable a b : rtc sys_step a b → sys_wf a → sys_wf b.
Proof. induction 1 as [|a b c Hs _ IH]; [done|]. intros Ha. by eapply IH, sys_step_wf. Qed.

End System.

(** * Recovery succeeds *)

Section Completes.
Context `{JournalJsonLaws} (pid : bytes) (store : JournalStore) (a : Anchor).
Context {St : Type} `{HostRecoveryAdapter St}.
Abbreviation able := (able pid store a).
Implicit Types (d : Durable) (s : St).

(** States of the adapter from which it converges. *)
Variable willing : St → Prop.
Hypothesis willing_converges : ∀ r s, willing s → ∃ s', converge_absent r s = (Ok (), s') ∧ willing s'.

(** Every live record of the journal has its step. *)
Definition awaited (j : HostStateJournalV1) (steps : list RecoveryStep) : Prop :=
  ∀ op, op ∈ hj_operations j → live op = true →
  ∃ step, step ∈ steps ∧ rs_operation_id step = op_id op ∧ rs_resource step = op_resource op.

Lemma awaited_nil j : hj_phase j = Cleaning → awaited j [] → is_fully_removed j = true.
Proof.
  intros Hph Haw. unfold is_fully_removed. rewrite Hph, bool_decide_true by done. simpl.
  apply forallb_forall. intros op Hin%list_elem_of_In. apply bool_decide_eq_true, live_false.
  apply not_true_is_false. intros Hl. destruct (Haw op Hin Hl) as (step & Hs & _).
  by apply not_elem_of_nil in Hs.
Qed.

(** The order of the plan: when a chain is first, its endpoint rules are gone. *)
Lemma awaited_unsupported j step steps f b e :
  StronglySorted step_le (step :: steps) → awaited j (step :: steps) →
  rs_resource step = Firewall f → b ∈ hj_operations j → op_resource b = FirewallEndpoint e →
  op_state b = Removed.
Proof.
  intros Hsort Haw Hf Hb He. apply live_false, not_true_is_false. intros Hl.
  destruct (Haw b Hb Hl) as (step' & Hs & _ & Hr). apply elem_of_cons in Hs as [->|Hs]; [congruence|].
  apply StronglySorted_inv in Hsort as [_ Hall]. rewrite Forall_forall in Hall.
  specialize (Hall step' Hs). unfold step_le in Hall. rewrite Hf, Hr, He in Hall. simpl in Hall. lia.
Qed.

Lemma run_steps_completes steps n d s :
  able (S (length steps)) d → fits (S (length steps)) (du_journal d) → hj_phase (du_journal d) = Cleaning →
  StronglySorted step_le steps → Forall (in_catalog d) steps → awaited (du_journal d) steps →
  willing s →
  ∃ d' s', run_steps pid store steps n d s = (Ok (RunRecovered (n + len steps)), d', s').
Proof.
  revert n d s; induction steps as [|step steps IH]; intros n d s Ha Hfit Hph Hsort Hcat Haw Hs.
  { destruct (remove_completed_able pid store a 0 d Ha) as [d' E]; [by apply awaited_nil|].
    exists d', s. simpl. by rewrite E, Z.add_0_r. }
  destruct (willing_converges (rs_resource step) s Hs) as (s1 & Es & Hs1).
  apply Forall_cons in Hcat as [Hstep Hcat].
  destruct (acknowledge_recovery_able pid store a _ (rs_operation_id step) (rs_resource step) d Ha Hfit Hph Hstep)
    as (d1 & Ed & Ha1 & Hfit1 & Hph1 & Hcat1 & Hlive1).
  { intros f Hf b e Hb He. by eapply awaited_unsupported. }
  destruct (IH (n + 1) d1 s1) as (d' & s' & E); try done.
  - by apply StronglySorted_inv in Hsort as [? _].
  - unfold in_catalog. by rewrite Hcat1.
  - intros op Hop Hl. destruct (Hlive1 op Hop Hl) as [Hne Hold].
    destruct (Haw op Hold Hl) as (step' & Hin & Hid & Hr).
    apply elem_of_cons in Hin as [->|Hin]; [done|by eauto].
  - exists d', s'. simpl. rewrite Es, Ed, E, len_cons. do 4 f_equal. lia.
Qed.

(** C11: without failures recovery completes.  When the previous owner is stale, no system call
    fails, the random names are unused, every generation with these records fits in the
    file, the inspection covers every live operation without a conflict and the adapter
    converges, then [recover_host_state] reports [Recovered] with the number of live
    operations.  Every intermediate journal is accepted by the validator, which is what
    the order of the plan is for: the endpoint rules go before the chain they belong to. *)
Theorem recovery_completes d s obs s1 :
  let writes := S (S (length (List.filter live (hj_operations (du_journal d))))) in
  able writes d → fits writes (du_journal d) → hj_phase (du_journal d) ≠ Conflict →
  inspect_all (du_journal d) s = (Some obs, s1) → complete_observation (du_journal d) obs →
  Forall (λ o, ob_kind o ≠ ObservedConflict) obs → willing s1 →
  ∃ d' s', recover_host_state pid store OwnerStale d s
           = (Ok (RunRecovered (len (List.filter live (hj_operations (du_journal d))))), d', s').
Proof.
  intros writes Ha Hfit Hph Hi Hobs Hnc Hs. set (j := du_journal d) in *.
  pose proof (coherent_wf _ _ _ (ab_coherent _ _ _ _ _ Ha)) as Hw.
  destruct (recovery_plan j obs) as (plan & Hplan & Ed); try done.
  destruct (plan_in_catalog _ _ _ Hplan) as [Hlen Hin]. rewrite <- Hlen.
  pose proof Hplan as [Hg _ Hsort Hperm].
  unfold recover_host_state. fold j. rewrite bool_decide_false by done. rewrite Hi, Ed.
  unfold execute_plan. fold j. rewrite Hg, Z.eqb_refl. simpl.
  destruct (begin_cleaning_able pid store a _ d Ha Hfit Hph) as (d1 & -> & Ha1 & Hfit1 & Hph1 & Hops1).
  fold j in Hops1. assert (catalog (du_journal d1) = catalog j) as Hcat by (unfold catalog; by rewrite Hops1).
  assert (length (rp_steps plan) = length (List.filter live (hj_operations j))) as Hlen' by (unfold len in Hlen; lia).
  apply (run_steps_completes _ 0); rewrite ?Hlen'; try done.
  - apply Forall_forall. intros step Hstep. unfold in_catalog. rewrite Hcat. by apply Hin.
  - intros op Hop Hl. rewrite Hops1 in Hop. exists (planned_step obs op). split; [|done].
    rewrite Hperm. apply list_elem_of_fmap_2, elem_of_live. split; [done|by apply live_true].
Qed.
End Completes.

(** * Examples *)

Module RecoverySample.
Import Sample StoreSample JournalSample.

(** A host is the list of its resources. *)
Definition Host : Type := list OwnedResource.
#[export] Instance host_adapter : HostRecoveryAdapter Host := {
  inspect_all j s :=
    (Some ((λ op, mkResourceObservation (op_id op)
                    (if bool_decide (op_resource op ∈ s) then ExactOwnedPresent else ObservedAbsent))
             <$> List.filter live (hj_operations j)), s);
  converge_absent r s := (Ok (), filter (λ x, x ≠ r) s) }.
#[export, refine] Instance host_adapter_laws : HostRecoveryAdapterLaws Host := {
  owned s r := r ∈ s }.
Proof.
  - by intros j s o s' r [= <- <-].
  - by intros r s res s' r' [= <- <-] [_ ?]%list_elem_of_filter.
  - by intros r s s' [= <-] [? _]%list_elem_of_filter.
Defined.

(** All resources applied, on the host and in the journal. *)
Definition crashed (ticks : list Tick) : Durable := mkDurable applied (world (with_journal applied) ticks).

Lemma crashed_coherent ticks :
  Forall (λ t, tk_others t = λ d, d) ticks → coherent store (crashed ticks) applied.
Proof. intros Ht. split; [by apply ready_world|by vm_compute|by left]. Qed.
Lemma applied_covers : covered resources applied.
Proof.
  intros r Hr. assert (Forall (λ r, status applied r ≠ None) resources) as H by (repeat constructor; by vm_compute).
  rewrite Forall_forall in H. by apply H.
Qed.

(** A disk that fails during the second removal. *)
Definition interrupted : list Tick := replicate 120 quiet ++ replicate 60 broken.
Lemma interrupted_sole : Forall (λ t, tk_others t = λ d, d) interrupted.
Proof. apply Forall_app. split; by apply Forall_replicate. Qed.

Definition run : Run := recover_host_state pid store OwnerStale (crashed interrupted) resources.

Lemma recovery_safe_witness :
  covered resources applied ∧ (∃ e, run.1.1 = Err (JournalFailed e)) ∧ run.2 ≠ resources ∧ run.2 ≠ []
  ∧ accounted store applied run.1.2 run.2.
Proof.
  split_and!; [apply applied_covers|by eexists; vm_compute|by vm_compute|by vm_compute|].
  apply (recovery_safe pid store OwnerStale (crashed interrupted) applied resources run.1.1 run.1.2 run.2).
  - apply crashed_coherent, interrupted_sole.
  - apply applied_covers.
  - unfold run. by destruct (recover_host_state _ _ _ _ _) as [[r d] s].
Defined.

(** A session creates the journal, plans, installs and crashes. *)
Definition empty : World := world (directory ∅ ∅) [].
Definition fresh_world : World := (durable_create pid store owner empty).2.
Definition begun : result DurableJournalError () * Durable :=
  perform pid store (BeginAdd resources) (mkDurable started fresh_world).

Lemma create_step :
  sys_step pid store (mkSys empty None ([] : Host) []) (mkSys fresh_world (Some started) [] []).
Proof.
  assert ((match (durable_create pid store owner empty).1 with
           | Ok d => Some (du_journal d) | Err _ => None end) = Some started) as H by by vm_compute.
  rewrite <- H. apply (sys_create _ _ empty ([] : Host) owner). apply surjective_pairing.
Qed.

Lemma call_step w j (s : Host) acc c :
  reports_absent c = None →
  let p := perform pid store c (mkDurable j w) in
  sys_step pid store (mkSys w (Some j) s acc)
    (mkSys (du_world p.2) (Some (du_journal p.2)) s (accepted_after c j p.1 acc)).
Proof.
  intros Hc p. apply sys_call; [|by rewrite Hc]. unfold p.
  by destruct (perform pid store c (mkDurable j w)) as [r [j' w']].
Qed.

Definition planned_world : World := du_world begun.2.
Definition planned_journal : HostStateJournalV1 := du_journal begun.2.

Lemma begin_step :
  sys_step pid store (mkSys fresh_world (Some started) ([] : Host) [])
    (mkSys planned_world (Some planned_journal) [] resources).
Proof.
  assert (accepted_after (BeginAdd resources) started begun.1 [] = resources) as H by by vm_compute.
  rewrite <- H. by apply (call_step fresh_world started [] [] (BeginAdd resources)).
Qed.


(** A calm disk, with an open directory. *)
Definition anchor : Anchor := mkAnchor (1, 1) 0.
Definition calm_world : World :=
  mkWorld (with_journal applied) [] nonces (Some anchor) false [] [].
Definition stale : Durable := mkDurable applied calm_world.

Lemma stale_able : able pid store anchor 5 stale.
Proof.
  split; [split; [|by vm_compute|by left]|split; [done..|by vm_compute]|done|by vm_compute| |by vm_compute].
  - split; [by apply Forall_nil|by intros [l [=]]|by intros a [= <-]].
  - exists [[Byte.x30]; [Byte.x31]; [Byte.x32]; [Byte.x33]; [Byte.x34]; [Byte.x35]; [Byte.x36];
            [Byte.x37]; [Byte.x38]], []. split_and!; [done|simpl; lia|].
    repeat constructor; by vm_compute.
Qed.

(** All journals with the records of [applied] in any state. *)
Fixpoint stateful (rs : list (Z * OwnedResource)) : list (list OperationRecord) :=
  match rs with
  | [] => [[]]
  | (id, r) :: rs => st ← [Planned; Applied; Removed]; ops ← stateful rs; [mkOperationRecord id st r :: ops]
  end.

Lemma stateful_complete j : hj_operations j ∈ stateful (catalog j).
Proof.
  unfold catalog. induction (hj_operations j) as [|[id st r] ops IH]; [by apply list_elem_of_singleton|].
  rewrite fmap_cons. cbn [stateful op_id op_resource]. apply list_elem_of_bind. exists st. split; [|apply list_elem_of_In; destruct st; simpl; tauto].
  apply list_elem_of_bind. exists ops. split; [by apply list_elem_of_singleton|done].
Qed.

Definition candidates : list HostStateJournalV1 :=
  ops ← stateful (catalog applied); phase ← [Preparing; Active; Cleaning; Conflict];
  g ← [3; 4; 5; 6; 7; 8]; [journal phase g ops].

Lemma candidates_complete j :
  journal_wf j → hj_owner j = owner → catalog j = catalog applied → 3 ≤ hj_generation j ≤ 8 →
  j ∈ candidates.
Proof.
  intros Hw Ho Hc Hg. pose proof (stateful_complete j) as Hops. rewrite Hc in Hops.
  apply list_elem_of_bind. exists (hj_operations j). split; [|done].
  apply list_elem_of_bind. exists (hj_phase j).
  split; [|apply list_elem_of_In; destruct (hj_phase j); simpl; tauto].
  apply list_elem_of_bind. exists (hj_generation j). split.
  - apply list_elem_of_singleton. unfold journal. rewrite <- Ho, <- (wf_schema _ Hw). by destruct j.
  - clear -Hg. apply list_elem_of_In. simpl. lia.
Qed.

Lemma stale_fits : fits 5 (du_journal stale).
Proof.
  intros j Ho Hc Hw Hg.
  assert (forallb (λ j, implb (is_ok (validate j)) (is_ok (serialize_journal j))) candidates = true) as Hall
    by by vm_compute.
  rewrite forallb_forall in Hall. specialize (Hall j). rewrite (proj2 (validate_wf j) Hw) in Hall.
  by apply Hall, list_elem_of_In, candidates_complete.
Qed.

Definition observed : list ResourceObservation :=
  (λ op, mkResourceObservation (op_id op) ExactOwnedPresent) <$> hj_operations applied.

Lemma observed_complete : complete_observation applied observed.
Proof.
  split.
  - apply (bool_decide_unpack (NoDup (ob_operation_id <$> observed))). by vm_compute.
  - intros id. unfold observed. rewrite <- list_fmap_compose. rewrite list_elem_of_fmap. split.
    + intros (op & -> & Hin). exists op. split_and!; [done..|].
      assert (Forall (λ op, op_state op = Applied) (hj_operations applied)) as Hall by by repeat constructor.
      rewrite Forall_forall in Hall. by rewrite (Hall op Hin).
    + intros (op & Hin & <- & _). by exists op.
Qed.

Lemma recovery_completes_witness :
  able pid store anchor 5 stale ∧ inspect_all applied resources = (Some observed, resources)
  ∧ ∃ d' s', recover_host_state pid store OwnerStale stale resources = (Ok (RunRecovered 3), d', s').
Proof.
  assert (inspect_all applied resources = (Some observed, resources)) as Hi by by vm_compute.
  split; [apply stale_able|]. split; [done|].
  apply (recovery_completes pid store anchor (λ _ : Host, True)) with (obs := observed) (s1 := resources).
  - by intros r s _; eexists.
  - apply stale_able.
  - apply stale_fits.
  - done.
  - exact Hi.
  - apply observed_complete.
  - repeat constructor; done.
  - done.
Defined.
End RecoverySample.
